(* ===== verification/_CoqProject ===== *)
-Q . S2P
Prelude.v
JsText.v
JsMap.v
JsInt.v
Resp.v
Lru.v
Pool.v
Events.v
Multipart.v
Container.v
Router.v
Flags.v
Bytes.v
PgWire.v
PgConnection.v
PgSession.v
PgScram.v
AmqpCodec.v
AmqpConnection.v
AmqpConfirms.v
RabbitMq.v
MysqlWire.v
Act.v
MysqlConnection.v
KafkaWire.v
KafkaRecords.v
KafkaConnection.v
KafkaClient.v
KafkaGate.v
KafkaProducer.v
KafkaConsumer.v
Channels.v
BinaryHeap.v
QueueJob.v
QueueMemory.v
RateStore.v
QueueWorker.v
QueueFacade.v
Scheduler.v
CircuitBreaker.v
Balancer.v
GatewayRouter.v
Gateway.v
JsDate.v
Cron.v
Journal.v
Bridges.v
WorkflowStores.v
Executor.v
Parallel.v
Saga.v
Runtime.v
Coordinator.v
Engine.v
Commerce.v
Subscriptions.v
CacheSpec.v
RefreshTokens.v
Rbac.v
ApiKeys.v
Sessions.v
QueryBuilder.v
JsNumber.v
ConfigValue.v
ConfigValidator.v
ConfigLoader.v
ConfigReader.v
ConfigSecrets.v
ConfigToml.v
ConfigTomlPrint.v
StorageDriver.v
StorageMultipart.v
StorageResumable.v
StorageVersions.v
StorageLifecycle.v
StorageBrowse.v
StorageValidation.v
StorageFacade.v
StorageSignedUrl.v
Realtime.v
