(* ===== verification/Prelude.v ===== *)
(** * StreetJS: a verification development of the framework's core services

    StreetJS is a TypeScript monorepo of server packages.  This library models the parts
    that carry logic of their own: the job queue, the durable workflow engine, the API
    gateway, the HTTP router, the dependency injection container, rate limiting, the
    configuration and storage packages, commerce, the clients of PostgreSQL, MySQL, Redis,
    RabbitMQ and Kafka, and the data structures below them.  Definitions are shallow embeddings
    of the code: pure functions for pure code, state passing for the classes, transition
    systems where callbacks and awaits interleave.  They are executable; the examples and
    witnesses of each file run them.

    ** Files, and the code they model (under src/packages/)

    Shared.  Prelude: the type [result] of functions that return or throw, tactics, list
    and sum lemmas.  JsText: strings as the program parses and prints them, and their
    order.  JsMap: a JavaScript [Map] as an association list in insertion order.  JsInt:
    32-bit integer operations and FNV-1a.  JsNumber: numbers as IEEE 754 doubles.  JsDate:
    dates in UTC.  Bytes: buffers and big-endian integers; readers of a buffer at an
    offset, with the relation [reads] by which codecs are inverse; decoders of a byte
    stream that the network cuts anywhere, as the type class [Framing].  Act: methods of an
    object that may throw and leave a log of their outside effects.

    Protocols and data structures.
    - Resp: core/src/transports/resp.ts, the Redis protocol, its incremental parser and the
      pairing of replies with commands.
    - Lru: cache/src/lru.ts, entries threaded by a doubly linked list.
    - Pool: pool/src/pool.ts, the connection pool as a transition system.
    - Events: events/src/ (matcher.ts, emitter.ts, the delivery of facade.ts).
    - Multipart: multipart/src/parser.ts, parts and the events of the request.
    - Container: container/src/container.ts, bindings, scopes, resolution, disposal.
    - Router: router/src/router.ts, templates, dispatch, the pipeline, validation.
    - Flags: flags/src/ (hash.ts, evaluate.ts, registry.ts, builders.ts).
    - PgWire, PgConnection: postgres/src/wire.ts, the messages of the PostgreSQL protocol,
      and the connection with its gate, queries, streams and authentication.  PgSession
      and PgScram put a server on the other side: commands and responses over a cut byte
      stream, and the SCRAM handshake.
    - MysqlWire, MysqlConnection: core/src/database/mysql/ (wire.ts, auth-scramble.ts),
      packets, text and binary rows, and the connection with its login and statements.
    - QueryBuilder: core/src/database/query-builder.ts, for the three dialects.
    - Channels: websocket/src/channels.ts, channels, presence and typing over sockets that
      can close in the middle of a broadcast.
    - Realtime: realtime/src/ (facade.ts, cluster/redis.ts, ratelimit.ts), the facade over
      the hub and its Redis cluster, every command, answer and envelope a step.

    Message transports (core/src/transports/).  AmqpCodec, AmqpConnection, AmqpConfirms and
    RabbitMq: rabbitmq/, the codec, the connection over its frames, the table of publisher
    confirms, and the reconnecting transport.  KafkaWire and KafkaRecords: primitives.ts and
    recordbatch.ts of kafka/; KafkaConnection: requests and their correlation ids;
    KafkaClient and KafkaGate: client.ts over an abstract network; KafkaProducer and
    KafkaConsumer: index.ts, the producer as a transition system and the poll loop over a
    client that keeps [FetchLaws], as the modelled client does with a broker that answers
    from its logs ([client_laws]).

    Authentication (core/src/auth/).  RefreshTokens, Rbac, ApiKeys, Sessions, each the file
    of its name; CacheSpec is what the last two need of a cache.

    Commerce (commerce/src/).  Commerce: the shop of index.ts over store.ts, calls that
    stop at their awaits.  Subscriptions: subscriptions.ts.

    Configuration (config/src/).  ConfigValue: the values of a configuration.
    ConfigValidator: schema.ts and validator.ts.  ConfigLoader: loader.ts over provider.ts.
    ConfigReader: config.ts and namespace.ts.  ConfigSecrets: secrets.ts and the environment
    provider.  ConfigToml: the TOML parser; ConfigTomlPrint: documents that it reads back.

    Storage (storage/src/).  StorageDriver: the driver interface as a class with laws,
    metadata.ts, and drivers/memory.ts as its instance.  StorageMultipart, StorageResumable,
    StorageVersions, StorageLifecycle: the files of these names.  StorageBrowse:
    directory.ts and search.ts.  StorageValidation: access.ts and validation.ts.
    StorageSignedUrl: signed-url.ts.  StorageFacade: facade.ts, every method over the parts,
    with its guards, events and statistics.  All but the driver's file are proved against
    the interface alone.

    The queue (queue/src/).  BinaryHeap and QueueMemory: drivers/memory.ts.  QueueJob:
    job.ts and retry.ts.  QueueWorker: worker.ts and middleware.ts.  QueueFacade: facade.ts.
    Scheduler: scheduler.ts, over core/src/jobs/scheduler.ts.  RateStore: store/src/store.ts
    and the limiter of ratelimit/src/ratelimit.ts, which the worker uses.  A dispatch of the
    facade builds an envelope ([QueueJob]), claims its dedupe key and puts it in the driver
    ([QueueMemory]); the worker reserves it, runs it under the rate limit and through the
    middleware, and acknowledges, retries or dead-letters it, releasing the key.

    The gateway (gateway/src/).  CircuitBreaker: circuit-breaker.ts.  Balancer: balancer.ts.
    GatewayRouter: router.ts and retry.ts.  Gateway: the pipeline of gateway.ts and
    health.ts, which composes the three.

    The workflow engine (workflow/src/).  Journal: types.ts and journal.ts, commands that
    are recorded once and replayed.  WorkflowStores: store.ts and redis/index.ts.  Bridges:
    integrations/.  Executor: executor.ts and backoff.ts.  Parallel: [ctx.parallel] of
    context.ts.  Cron: the cron expressions at the end of context.ts.  Saga: compensator.ts.
    Runtime: runtime.ts, one drive of a run over the journal.  Coordinator: coordinator.ts
    and the waits of context.ts.  Engine: engine.ts, the life cycle of runs.

    ** What the theorems show

    - Nothing is lost: the queue conserves its jobs over every interleaving, but for the
      second record of a job that is dead-lettered after its lease ([jobs_conserved]), and
      keeps one live job per dedupe key while executions stay within their leases
      ([dedupe_one_live]); an execution ends in one of its outcomes, with its job in the
      driver accordingly while its lease is held ([execution_outcomes]); the pool stays
      within a bound of [maxConnections] and the number of warm-ups, lends no connection
      twice and serves its waiters ([pool_bound], [pool_exclusive], [waiter_progress]);
      every database command gets its own response, or is rejected when the socket ends
      ([commands_paired], [closed_rejects_everyone]); a publisher confirm settles once
      ([confirms_settle_once]); the consumer commits nothing that its handler has not seen
      ([commit_covers_handled_only]); the shop never sells more than was delivered, unless
      an order is refunded twice ([no_oversell]); a used refresh token stays dead
      ([used_token_is_dead]).
    - Durable execution: a run of a replayable function, interrupted between two commands
      and replayed, ends as the uninterrupted one ([crash_resume_equiv]); the dispositions of a drive ([drive_dispositions]);
      compensation in reverse and once ([compensate_reverse_once]); terminal runs stay
      ([terminal_runs_never_resume]).
    - Refinements of abstract specifications: the array heap is a sorted list, the LRU list
      a recency list, the pruned limiter a log of admissions, the incremental parser one
      pass over the whole input, the channel hub a relation of members and connections, the
      loader one merge of its providers, the storage facade a finite map from keys to
      objects ([storage_refines_map]).
    - Uploads: many parts, and any interruptions and resumptions, leave what one put of the
      content leaves ([multipart_is_one_put], [resumed_is_one_put]); what a cancel leaves
      ([cancel_outcomes]); overwritten content comes back ([overwritten_content_comes_back]);
      a lifecycle rule acts once on what is due and on nothing else
      ([lifecycle_exactly_once]).
    - A realtime cluster: presence is the union of the instances
      ([cluster_presence_exact]), a message reaches every instance once
      ([broadcast_reaches_cluster]), and the network settles ([cluster_settles]).
    - Secrecy: what is shown of a configuration does not depend on its secrets
      ([secrets_are_not_shown]); a signed URL is accepted exactly when it was signed
      ([signed_url_verifies], [accepted_urls_are_signed]).
    - Round trips: commands and replies of the Redis protocol, parameters and rows of
      PostgreSQL and MySQL, AMQP frames and tables, Kafka records and metadata, TOML
      documents, forms, links of the router, cron fields, runs in the Redis store.
    - Totality: every resolution of the container ends, and succeeds exactly for acyclic
      classes; the Redis parser consumes its input.
    - Exact behaviour on every branch: routing and validation, retries and breakers, weighted
      round robin, cron search, flags.
    - Defects of the code are theorems as well, with the code's behaviour as the conclusion
      (for instance [cancel_during_drive_is_lost], [relative_waits_never_end],
      [gap_hands_out_twice], [chunk_during_write_loses_field]); each is on a concrete run or
      states the conditions under which it happens.

    ** Choices

    - Time is an argument of the operations that read the clock; random sources, user
      functions, drivers and services are arguments, acting on a state of their own where
      they have one.
    - Numbers are [Z], [nat] or exact rationals; where the code relies on 32 bits or on
      the range of [Number], JsInt or the file says so.
    - Fuel: parsers get a fuel linear in their input, of which every step consumes some;
      [Container.resolve] needs [(c + 1) * (tokens + 1)], as each nested resolution enters
      a new token or goes to an older container; the loops of Multipart get the length of
      the buffer; [Cron] searches the 366 * 4 days of the code; the drive of a workflow
      follows the tree of its function and needs none; [Channels.on_close] gets the number
      of bound connections, as every nested close closes one more; the varints of Kafka get
      the ten groups that 64 bits need; the loops of [KafkaGate] one turn per millisecond of
      their deadline; the TOML parser twice the length of its text and one.  Theorems state
      that this fuel gives the result.
    - A service behind an interface of the program (the storage driver, the Kafka client of
      the consumer, a cache) is a class of operations with laws in terms of an abstract
      state; the clients are proved against the laws, which an instance or a sample shows
      to be satisfiable.
    - The domain of the configuration: keys of objects are no array indices and no names of
      [Object.prototype], whose treatment by the engine differs; no path of a declared field
      extends another; texts have code units below 256.
    - An asynchronous method is one step when nothing it depends on can change at its
      awaits, and several where another caller can come between (Pool, Events, Multipart,
      QueueWorker, Gateway, Scheduler, Coordinator, PgConnection).

    ** Not modelled

    Input and output, sockets and processes; the SQL layers, migrations and the SQLite
    driver; HTTP serving, the WebSocket server and server-sent events; upgrade
    authentication and connection losses of the realtime facade;
    cryptographic primitives, which are arguments with their documented laws, and JSON web
    tokens; the storage drivers of file systems and providers and the image processor; the
    YAML parser of the configuration, and its JSON parser, which is the platform's; logging,
    metrics and tracing; command line tools, code generators, vendor plugins, and user
    interface packages.  Of the files named above: listeners, telemetry and plugins of the
    queue, events and workflow packages, the Redis driver of the queue, the Postgres store
    and the payment gateways of commerce, the steps of the gateway before routing and after
    the forward, and what the headers of the files say. *)

From stdpp Require Export base tactics option list gmap strings sorting.
From Stdlib Require Export ZArith Lia.

(** ** Notation scope *)

Declare Scope street_scope.
Delimit Scope street_scope with street.
Open Scope street_scope.

(** ** Fallible computations: a JavaScript function that returns or throws *)

Inductive result (E A : Type) : Type :=
| Ok (a : A)
| Throw (e : E).
Arguments Ok {E A} a.
Arguments Throw {E A} e.

#[export] Instance result_eq_dec {E A} `{EqDecision E, EqDecision A} :
  EqDecision (result E A).
Proof. intros [a|e] [b|e']; [destruct (decide (a = b))| | |destruct (decide (e = e'))];
  (left; congruence) || (right; congruence). Defined.

#[export] Instance result_ret {E} : MRet (result E) := fun A a => Ok a.
#[export] Instance result_bind {E} : MBind (result E) := fun A B f r =>
  match r with Ok a => f a | Throw e => Throw e end.
#[export] Instance result_fmap {E} : FMap (result E) := fun A B f r =>
  match r with Ok a => Ok (f a) | Throw e => Throw e end.

Lemma Ok_inj {E A} (a b : A) : @Ok E A a = Ok b → a = b.
Proof. congruence. Qed.

Definition is_ok {E A} (r : result E A) : bool :=
  match r with Ok _ => true | Throw _ => false end.

Lemma result_bind_ok {E A B} (r : result E A) (f : A → result E B) b :
  r ≫= f = Ok b ↔ ∃ a, r = Ok a ∧ f a = Ok b.
Proof. destruct r; simpl; naive_solver. Qed.

(** ** Tactics of the development *)

(** Break the first [match] or [if] of the goal or of a hypothesis. *)
Ltac case_goal :=
  match goal with
  | |- context [ match ?x with _ => _ end ] => destruct x eqn:?
  end.
Ltac case_hyp H :=
  match type of H with
  | context [ match ?x with _ => _ end ] => destruct x eqn:?
  end.

(** Turn boolean comparisons on [Z] and [nat] into propositions. *)
Ltac reflect_bools :=
  repeat match goal with
  | H : (_ && _)%bool = true |- _ => apply andb_true_iff in H as [? ?]
  | H : (_ || _)%bool = false |- _ => apply orb_false_iff in H as [? ?]
  | H : (_ && _)%bool = false |- _ => apply andb_false_iff in H
  | H : (_ || _)%bool = true |- _ => apply orb_true_iff in H
  | H : negb _ = true |- _ => apply negb_true_iff in H
  | H : negb _ = false |- _ => apply negb_false_iff in H
  | H : (_ <? _)%Z = true |- _ => apply Z.ltb_lt in H
  | H : (_ <? _)%Z = false |- _ => apply Z.ltb_ge in H
  | H : (_ <=? _)%Z = true |- _ => apply Z.leb_le in H
  | H : (_ <=? _)%Z = false |- _ => apply Z.leb_gt in H
  | H : (_ =? _)%Z = true |- _ => apply Z.eqb_eq in H
  | H : (_ =? _)%Z = false |- _ => apply Z.eqb_neq in H
  | H : (_ <? _)%nat = true |- _ => apply Nat.ltb_lt in H
  | H : (_ <? _)%nat = false |- _ => apply Nat.ltb_ge in H
  | H : (_ <=? _)%nat = true |- _ => apply Nat.leb_le in H
  | H : (_ <=? _)%nat = false |- _ => apply Nat.leb_gt in H
  | H : (_ =? _)%nat = true |- _ => apply Nat.eqb_eq in H
  | H : (_ =? _)%nat = false |- _ => apply Nat.eqb_neq in H
  | H : bool_decide _ = true |- _ => apply bool_decide_eq_true in H
  | H : bool_decide _ = false |- _ => apply bool_decide_eq_false in H
  end.

(** ** Hint databases

    [street] carries the structural lemmas (permutations, membership), [street_z]
    the arithmetic side conditions. *)
Create HintDb street.
#[export] Hint Resolve Permutation_refl : street.

(** ** Sums of integers *)

Definition sumZ (l : list Z) : Z := foldr Z.add 0%Z l.
Arguments sumZ : simpl never.

Lemma sumZ_app l1 l2 : sumZ (l1 ++ l2) = (sumZ l1 + sumZ l2)%Z.
Proof. unfold sumZ. induction l1; simpl; [done|]. rewrite IHl1. lia. Qed.

Lemma sumZ_cons x l : sumZ (x :: l) = (x + sumZ l)%Z.
Proof. reflexivity. Qed.

#[export] Instance sumZ_proper : Proper ((≡ₚ) ==> (=)) sumZ.
Proof. induction 1; simpl in *; unfold sumZ in *; simpl; lia. Qed.

Lemma sumZ_map_add {A} (f g : A → Z) l :
  sumZ ((λ x, (f x + g x)%Z) <$> l) = (sumZ (f <$> l) + sumZ (g <$> l))%Z.
Proof. induction l; csimpl; [done|]. rewrite !sumZ_cons. lia. Qed.

Lemma sumZ_map_const {A} (c : Z) (l : list A) :
  sumZ ((λ _, c) <$> l) = (c * Z.of_nat (length l))%Z.
Proof. induction l; csimpl; [unfold sumZ; cbn; lia|]. rewrite sumZ_cons. lia. Qed.

Lemma sumZ_map_mul {A} (c : Z) (f : A → Z) l :
  sumZ ((λ x, (c * f x)%Z) <$> l) = (c * sumZ (f <$> l))%Z.
Proof. induction l; csimpl; [unfold sumZ; cbn; lia|]. rewrite !sumZ_cons. lia. Qed.

Lemma sumZ_map_ext {A} (f g : A → Z) l :
  (∀ x, x ∈ l → f x = g x) → sumZ (f <$> l) = sumZ (g <$> l).
Proof.
  induction l as [|a l IH]; intros H; csimpl; [done|].
  rewrite !sumZ_cons, IH, H; [done|left|intros; apply H; by right].
Qed.

Lemma sumZ_le {A} (f g : A → Z) l :
  (∀ x, x ∈ l → (f x <= g x)%Z) → (sumZ (f <$> l) <= sumZ (g <$> l))%Z.
Proof.
  induction l as [|a l IH]; intros H; csimpl; [unfold sumZ; cbn; lia|].
  rewrite !sumZ_cons. pose proof (H a ltac:(left)).
  pose proof (IH ltac:(intros; apply H; by right)). lia.
Qed.

(** Equal sums of pointwise ordered families force pointwise equality. *)
Lemma sumZ_le_eq {A} (f g : A → Z) l :
  (∀ x, x ∈ l → (f x <= g x)%Z) → sumZ (f <$> l) = sumZ (g <$> l) →
  ∀ x, x ∈ l → f x = g x.
Proof.
  induction l as [|a l IH]; intros H Hs x Hx; [by apply not_elem_of_nil in Hx|].
  revert Hs; csimpl; rewrite !sumZ_cons; intros Hs.
  pose proof (H a ltac:(left)).
  pose proof (sumZ_le f g l ltac:(intros; apply H; by right)).
  apply elem_of_cons in Hx as [->|Hx]; [lia|].
  apply IH; [intros; apply H; by right|lia|done].
Qed.

(** A family that is zero but at one point. *)
Lemma sumZ_single {A} `{EqDecision A} (b : A) (c : Z) l :
  NoDup l → b ∈ l → sumZ ((λ t, if decide (t = b) then c else 0%Z) <$> l) = c.
Proof.
  assert (∀ l, b ∉ l → sumZ ((λ t, if decide (t = b) then c else 0%Z) <$> l) = 0%Z) as H0.
  { intros l' Hb. rewrite (sumZ_map_ext _ (λ _, 0%Z)); [by rewrite sumZ_map_const|].
    intros x Hx. rewrite decide_False; [done|]. by intros ->. }
  induction l as [|a l IH]; intros Hnd Hb; [by apply not_elem_of_nil in Hb|].
  apply NoDup_cons in Hnd as [Hni Hnd]. csimpl. rewrite sumZ_cons.
  apply elem_of_cons in Hb as [->|Hb].
  - rewrite decide_True by done. rewrite H0 by done. lia.
  - rewrite decide_False by (intros ->; done). rewrite IH by done. lia.
Qed.

(** ** Lists *)

Lemma Permutation_filter_split {A} (P : A → Prop) `{!∀ x, Decision (P x)} (l : list A) :
  l ≡ₚ filter P l ++ filter (λ x, ¬ P x) l.
Proof.
  induction l as [|x l IH]; [done|].
  rewrite !filter_cons. destruct (decide (P x)); case_decide; try done; simpl.
  - by rewrite <-IH.
  - by rewrite <-Permutation_middle, <-IH.
Qed.

Lemma filter_all {A} (P : A → Prop) `{!∀ x, Decision (P x)} (l : list A) :
  Forall P l → filter P l = l.
Proof. induction 1; [done|]. by rewrite filter_cons_True, IHForall. Qed.

Lemma filter_none {A} (P : A → Prop) `{!∀ x, Decision (P x)} (l : list A) :
  Forall (λ x, ¬ P x) l → filter P l = [].
Proof. induction 1; [done|]. by rewrite filter_cons_False. Qed.

Lemma Forall_filter_keep {A} (P Q : A → Prop) `{!∀ x, Decision (Q x)} (l : list A) :
  Forall P l → Forall P (filter Q l).
Proof. rewrite !Forall_forall. intros Hl x [_ Hx]%list_elem_of_filter. by apply Hl. Qed.

(** Elements with different keys: the key determines the element. *)
Lemma NoDup_key_inj {A B} (f : A → B) (l : list A) x y :
  NoDup (f <$> l) → x ∈ l → y ∈ l → f x = f y → x = y.
Proof.
  induction l as [|z l IH]; [by intros _ ?%not_elem_of_nil|]. rewrite fmap_cons.
  intros [Hz Hl]%NoDup_cons. rewrite !elem_of_cons. intros [->|Hx] [->|Hy] E; [done|..|by apply IH].
  - destruct Hz. rewrite E. by apply list_elem_of_fmap_2.
  - destruct Hz. rewrite <-E. by apply list_elem_of_fmap_2.
Qed.

Lemma filter_key_unique {A B} `{EqDecision B} (f : A → B) (l : list A) x :
  NoDup (f <$> l) → x ∈ l → filter (λ y, f y = f x) l = [x].
Proof.
  induction l as [|z l IH]; [by intros _ ?%not_elem_of_nil|]. rewrite fmap_cons.
  intros [Hz Hl]%NoDup_cons [->|Hx]%elem_of_cons.
  - rewrite filter_cons_True by done. f_equal. apply filter_none.
    apply Forall_forall. intros y Hy E. apply Hz. rewrite <-E. by apply list_elem_of_fmap_2.
  - rewrite filter_cons_False; [by apply IH|]. intros E. apply Hz. rewrite E. by apply list_elem_of_fmap_2.
Qed.

Lemma filter_iff_in {A} (P Q : A → Prop) `{!∀ x, Decision (P x), !∀ x, Decision (Q x)}
    (l : list A) :
  (∀ x, x ∈ l → P x ↔ Q x) → filter P l = filter Q l.
Proof.
  induction l as [|y l IH]; intros Hpq; [done|]. rewrite !filter_cons.
  rewrite IH by (intros; apply Hpq; by right). specialize (Hpq y ltac:(left)).
  by repeat case_decide; try tauto.
Qed.

(** An element in the middle of a concatenation can be brought to its front. *)
Lemma Permutation_mid2 {A} (x : A) a b c : a ++ (x :: b) ++ c ≡ₚ x :: a ++ b ++ c.
Proof. symmetry. apply Permutation_middle. Qed.
Lemma Permutation_mid3 {A} (x : A) a b c d :
  a ++ b ++ (x :: c) ++ d ≡ₚ x :: a ++ b ++ c ++ d.
Proof. rewrite (Permutation_mid2 x b c d). symmetry. apply Permutation_middle. Qed.
Lemma Permutation_mid4 {A} (x : A) a b c d :
  a ++ b ++ c ++ (x :: d) ≡ₚ x :: a ++ b ++ c ++ d.
Proof.
  rewrite <-(Permutation_middle c d x), <-(Permutation_middle b (c ++ d) x).
  symmetry. apply Permutation_middle.
Qed.

Lemma Permutation_app_mid4 {A} (x a b c d : list A) :
  a ++ b ++ c ++ (x ++ d) ≡ₚ x ++ a ++ b ++ c ++ d.
Proof.
  rewrite (Permutation_app_swap_app c x d), (Permutation_app_swap_app b x (c ++ d)).
  apply Permutation_app_swap_app.
Qed.

Lemma list_snoc_inv {A} (l : list A) : l = [] ∨ ∃ l' x, l = l' ++ [x].
Proof. destruct l as [|x l] using rev_ind; [by left|right; eauto]. Qed.

Lemma app_cons_snoc {A} (l1 l2 : list A) x : l1 ++ x :: l2 = (l1 ++ [x]) ++ l2.
Proof. by rewrite <-(assoc_L (++)). Qed.

(** The last element that satisfies a predicate. *)
Lemma filter_last {A} (P : A → Prop) `{!∀ x, Decision (P x)} (l : list A) :
  filter P l = [] ∨
  ∃ pre x post, l = pre ++ x :: post ∧ P x ∧ Forall (λ y, ¬ P y) post.
Proof.
  induction l as [|y l IH]; [by left|]. destruct IH as [Hn|(pre & x & post & -> & Hx & Hp)].
  - rewrite filter_cons. case_decide; [|by left]. right. exists [], y, l. repeat split; [done|].
    apply Forall_forall. intros z Hz HPz.
    assert (z ∈ filter P l) as Hin by by apply list_elem_of_filter.
    rewrite Hn in Hin. by apply not_elem_of_nil in Hin.
  - right. by exists (y :: pre), x, post.
Qed.

Lemma filter_length_impl {A} (P Q : A → Prop) `{!∀ x, Decision (P x), !∀ x, Decision (Q x)}
    (l : list A) :
  (∀ x, x ∈ l → P x → Q x) → length (filter P l) <= length (filter Q l).
Proof.
  induction l as [|y l IH]; intros Himp; [done|]. rewrite !filter_cons.
  assert (length (filter P l) <= length (filter Q l)) by (apply IH; intros; apply Himp; [by right|done]).
  specialize (Himp y ltac:(left)). repeat case_decide; simpl; try lia; tauto.
Qed.

(** A filter that also drops an element of the list is shorter. *)
Lemma filter_length_strict {A} (P Q : A → Prop) `{!∀ x, Decision (P x), !∀ x, Decision (Q x)}
    (l : list A) (x : A) :
  (∀ x, P x → Q x) → x ∈ l → Q x → ¬ P x → length (filter P l) < length (filter Q l).
Proof.
  intros Himp Hin HQ HP. induction Hin as [y l|y z l Hin IH]; rewrite !filter_cons.
  - rewrite decide_False, decide_True by done. cbn.
    pose proof (filter_length_impl P Q l (λ x _, Himp x)). lia.
  - specialize (IH HQ HP). specialize (Himp z). repeat case_decide; cbn; try lia; tauto.
Qed.
