(* ===== verification/JsText.v ===== *)
(** * JavaScript strings as the program parses and prints them

    Texts are lists of code units below 256 ([ascii]): white space and [trim], [split]
    on a character and on runs of white space, [parseInt] with radix 10, the decimal
    digits of a number, quoting in messages, the search for a text in another, and the order
    of texts by code units, a decidable total order with the instances that stdpp's
    [merge_sort] asks for.  Shared by the parsers of the development. *)

From Stdlib Require Import Ascii String.
From S2P Require Import Prelude.

Definition code (c : ascii) : Z := Z.of_N (N_of_ascii c).
Definition is_digit (c : ascii) : bool := ((48 <=? code c) && (code c <=? 57))%Z.
Definition digit_val (c : ascii) : Z := (code c - 48)%Z.

(** White space of [String.prototype.trim] among the first 256 code units. *)
Definition is_space (c : ascii) : bool :=
  (((9 <=? code c) && (code c <=? 13)) || (code c =? 32) || (code c =? 160))%Z.

Fixpoint drop_spaces (l : list ascii) : list ascii :=
  match l with
  | c :: l' => if is_space c then drop_spaces l' else l
  | [] => []
  end.
Definition trim (l : list ascii) : list ascii := reverse (drop_spaces (reverse (drop_spaces l))).

Definition lower (c : ascii) : ascii :=
  if ((65 <=? code c) && (code c <=? 90))%Z then ascii_of_N (N_of_ascii c + 32) else c.

(** The longest prefix of digits and what follows it. *)
Fixpoint span_digits (l : list ascii) : list ascii * list ascii :=
  match l with
  | c :: l' => if is_digit c then let r := span_digits l' in (c :: r.1, r.2) else ([], l)
  | [] => ([], [])
  end.

Definition digits_value (l : list ascii) : Z :=
  fold_left (λ acc c, 10 * acc + digit_val c)%Z l 0%Z.

(** [`"${s}"`]. *)
Definition quoted (s : string) : string :=
  String (ascii_of_nat 34) s +:+ String (ascii_of_nat 34) EmptyString.

(** [l.split(sep)] for a separator of one character. *)
Fixpoint split_on (sep : ascii) (l : list ascii) : list (list ascii) :=
  match l with
  | [] => [[]]
  | c :: l' =>
      if decide (c = sep) then [] :: split_on sep l'
      else match split_on sep l' with
           | part :: parts => (c :: part) :: parts
           | [] => [[c]]
           end
  end.

(** [l.startsWith(p)]. *)
Fixpoint is_prefix (p l : list ascii) : bool :=
  match p, l with
  | [], _ => true
  | c :: p, d :: l => bool_decide (c = d) && is_prefix p l
  | _, _ => false
  end.

(** [l.split(sep)] for a separator of several characters, of which [skip] are still to be
    passed; a separator without characters splits between all of them. *)
Fixpoint split_from (sep : list ascii) (skip : nat) (l : list ascii) : list (list ascii) :=
  match l, skip with
  | [], _ => [[]]
  | _ :: l', S skip => split_from sep skip l'
  | c :: l', O =>
      if is_prefix sep l then [] :: split_from sep (length sep - 1) l'
      else match split_from sep O l' with
           | part :: parts => (c :: part) :: parts
           | [] => [[c]]
           end
  end.
Definition split_text (sep l : list ascii) : list (list ascii) :=
  match sep with [] => (λ c, [c]) <$> l | _ => split_from sep O l end.

(** [parts.join(sep)]. *)
Definition join_text (sep : list ascii) (parts : list (list ascii)) : list ascii :=
  match parts with [] => [] | part :: parts => part ++ concat (app sep <$> parts) end.

(** [l.split(/\s+/)]; [after] says that the last character read was white space. *)
Fixpoint split_spaces (after : bool) (l : list ascii) : list (list ascii) :=
  match l with
  | [] => [[]]
  | c :: l' =>
      if is_space c then
        if after then split_spaces true l' else [] :: split_spaces true l'
      else match split_spaces false l' with
           | part :: parts => (c :: part) :: parts
           | [] => [[c]]
           end
  end.

(** [l.indexOf(c)]. *)
Fixpoint indexOf (c : ascii) (l : list ascii) : option nat :=
  match l with
  | [] => None
  | d :: l => if decide (d = c) then Some O else S <$> indexOf c l
  end.

(** The first occurrence of a non-empty text in another. *)
Fixpoint find_text (needle l : list ascii) : option nat :=
  if is_prefix needle l then Some O
  else match l with [] => None | _ :: l => S <$> find_text needle l end.

(** ** UTF-8 *)

Definition between (a b : Z) (c : ascii) : bool := ((a <=? code c) && (code c <=? b))%Z.
Definition continuation : ascii → bool := between 128 191.

(** Well-formed UTF-8: no overlong form, no surrogate, nothing above U+10FFFF. *)
Fixpoint utf8_valid (l : list ascii) : bool :=
  match l with
  | [] => true
  | a :: l =>
      if between 0 127 a then utf8_valid l
      else match l with
      | b :: l =>
          if between 194 223 a then continuation b && utf8_valid l
          else match l with
          | c :: l =>
              if between 224 239 a then
                (if decide (code a = 224)%Z then between 160 191 b
                 else if decide (code a = 237)%Z then between 128 159 b else continuation b)
                && continuation c && utf8_valid l
              else match l with
              | d :: l =>
                  between 240 244 a &&
                  (if decide (code a = 240)%Z then between 144 191 b
                   else if decide (code a = 244)%Z then between 128 143 b else continuation b)
                  && continuation c && continuation d && utf8_valid l
              | [] => false
              end
          | [] => false
          end
      | [] => false
      end
  end.

(** From this value on a decimal literal rounds to [Infinity]. *)
Definition INFINITY_FROM : Z := (2 ^ 1024 - 2 ^ 970)%Z.

(** [Number.parseInt(l, 10)] when [Number.isInteger] holds of it: [None] stands for
    [NaN] and the infinities. *)
Definition parseInt (l : list ascii) : option Z :=
  let l := drop_spaces l in
  let '(sign, l) := match l with
                    | "-"%char :: l' => (-1, l')
                    | "+"%char :: l' => (1, l')
                    | _ => (1, l)
                    end%Z in
  match (span_digits l).1 with
  | [] => None
  | ds => if (digits_value ds <? INFINITY_FROM)%Z then Some (sign * digits_value ds)%Z else None
  end.

Definition digit_char (d : Z) : ascii := ascii_of_N (Z.to_N (48 + d)).

Fixpoint digits_fuel (fuel : nat) (n : Z) (acc : list ascii) : list ascii :=
  match fuel with
  | O => acc
  | S fuel =>
      let acc := digit_char (n mod 10) :: acc in
      if (n <? 10)%Z then acc else digits_fuel fuel (n / 10) acc
  end.

(** [String(n)] of a natural number. *)
Definition show (n : Z) : list ascii := digits_fuel (S (Z.to_nat (Z.log2 n))) n [].

(** ** Lemmas *)

Lemma span_digits_app l rest :
  Forall (λ c, is_digit c = true) l →
  match rest with [] => True | c :: _ => is_digit c = false end →
  span_digits (l ++ rest) = (l, rest).
Proof.
  intros Hl Hr. induction Hl as [|c l Hc _ IH]; simpl.
  - destruct rest as [|c r]; simpl; [done|]. by rewrite Hr.
  - by rewrite Hc, IH.
Qed.

Lemma drop_spaces_id l :
  match l with [] => True | c :: _ => is_space c = false end → drop_spaces l = l.
Proof. destruct l as [|c l]; simpl; [done|]. by intros ->. Qed.

Lemma trim_id l :
  match l with [] => True | c :: _ => is_space c = false end →
  match reverse l with [] => True | c :: _ => is_space c = false end → trim l = l.
Proof.
  intros H1 H2. unfold trim. rewrite (drop_spaces_id l) by done.
  rewrite drop_spaces_id by done. apply reverse_involutive.
Qed.

Lemma digit_not_space c : is_digit c = true → is_space c = false.
Proof. unfold is_digit, is_space. intros. reflect_bools. lia. Qed.

Lemma digits_value_nonneg l :
  Forall (λ c, is_digit c = true) l → (0 <= digits_value l)%Z.
Proof.
  unfold digits_value. assert (∀ acc, (0 <= acc)%Z →
    Forall (λ c, is_digit c = true) l →
    (0 <= fold_left (λ a c, 10 * a + digit_val c) l acc)%Z) as H; [|by apply H].
  induction l as [|c l IH]; intros acc Hacc Hl; simpl; [done|].
  apply Forall_cons in Hl as [Hc Hl]. apply IH; [|done].
  unfold is_digit, digit_val in *. reflect_bools. lia.
Qed.

Lemma digit_char_digit d : (0 <= d < 10)%Z → is_digit (digit_char d) = true ∧ digit_val (digit_char d) = d.
Proof.
  intros Hd. unfold is_digit, digit_val, digit_char, code.
  rewrite N_ascii_embedding by lia.
  split; [apply andb_true_iff; split; apply Z.leb_le|]; lia.
Qed.

Lemma log2_div10 n : (10 <= n)%Z → (0 <= Z.log2 (n / 10) < Z.log2 n)%Z.
Proof.
  intros Hn. split; [apply Z.log2_nonneg|]. destruct (Z.log2_spec n) as [_ Hlt]; [lia|].
  pose proof (Z.log2_nonneg n). apply Z.log2_lt_pow2; [apply Z.div_str_pos; lia|].
  rewrite Z.pow_succ_r in Hlt by lia. apply Z.div_lt_upper_bound; lia.
Qed.

Lemma digits_fuel_spec fuel : ∀ n acc,
  (0 <= n)%Z → Z.to_nat (Z.log2 n) < fuel →
  fold_left (λ a c, 10 * a + digit_val c)%Z (digits_fuel fuel n acc) 0%Z =
    fold_left (λ a c, 10 * a + digit_val c)%Z acc n ∧
  (Forall (λ c, is_digit c = true) acc →
   Forall (λ c, is_digit c = true) (digits_fuel fuel n acc)) ∧
  digits_fuel fuel n acc ≠ [].
Proof.
  induction fuel as [|fuel IH]; intros n acc Hn Hf; [lia|]. cbn [digits_fuel].
  pose proof (Z.mod_pos_bound n 10 ltac:(lia)) as Hm.
  destruct (digit_char_digit (n mod 10) Hm) as [Hd Hv].
  destruct (Z.ltb_spec n 10) as [Hlt|Hge].
  - split; [|split; [by constructor|done]]. cbn [fold_left]. f_equal. rewrite Hv.
    rewrite Z.mod_small; lia.
  - destruct (IH (n / 10)%Z (digit_char (n mod 10) :: acc)) as (H1 & H2 & H3).
    + apply Z.div_pos; lia.
    + pose proof (log2_div10 n Hge). lia.
    + rewrite H1. split; [|split; [intros; apply H2; by constructor|done]].
      cbn [fold_left]. f_equal. rewrite Hv. pose proof (Z.div_mod n 10 ltac:(lia)). lia.
Qed.

Lemma show_digits n : (0 <= n)%Z → Forall (λ c, is_digit c = true) (show n) ∧ show n ≠ [].
Proof.
  intros Hn. destruct (digits_fuel_spec (S (Z.to_nat (Z.log2 n))) n [] Hn ltac:(lia)) as (_ & H2 & H3).
  split; [by apply H2|done].
Qed.

Lemma show_value n : (0 <= n)%Z → digits_value (show n) = n.
Proof.
  intros Hn. by destruct (digits_fuel_spec (S (Z.to_nat (Z.log2 n))) n [] Hn ltac:(lia)) as (H & _).
Qed.

(** Reading a printed number back, whatever follows it. *)
Lemma parseInt_show n rest :
  (0 <= n < INFINITY_FROM)%Z →
  match rest with [] => True | c :: _ => is_digit c = false end →
  parseInt (show n ++ rest) = Some n.
Proof.
  intros Hn Hrest. destruct (show_digits n ltac:(lia)) as [Hd Hne].
  unfold parseInt. destruct (show n) as [|c ds] eqn:Hs; [done|].
  assert (is_digit c = true) as Hc by by inversion Hd.
  rewrite drop_spaces_id by (simpl; by apply digit_not_space).
  replace (match (c :: ds) ++ rest with
           | "-"%char :: l' => (-1, l') | "+"%char :: l' => (1, l') | _ => (1, (c :: ds) ++ rest)
           end%Z) with (1%Z, (c :: ds) ++ rest).
  - rewrite span_digits_app by done. cbn [fst]. rewrite <-Hs, show_value by lia.
    destruct (show n) eqn:Hs'; [congruence|].
    destruct (Z.ltb_spec n INFINITY_FROM); [f_equal; lia|lia].
  - destruct c as [[] [] [] [] [] [] [] []]; done.
Qed.

Lemma split_on_nonempty sep l : split_on sep l ≠ [].
Proof. destruct l; cbn; [done|]. case_decide; [done|]. by destruct (split_on sep l). Qed.

Lemma split_on_none sep l : sep ∉ l → split_on sep l = [l].
Proof.
  induction l as [|c l IH]; intros Hni; [done|]. apply not_elem_of_cons in Hni as [Hne Hni].
  cbn [split_on]. by rewrite decide_False, IH by done.
Qed.

Lemma split_on_app sep l rest : sep ∉ l → split_on sep (l ++ sep :: rest) = l :: split_on sep rest.
Proof.
  induction l as [|c l IH]; intros Hni; cbn [split_on app].
  - by rewrite decide_True.
  - apply not_elem_of_cons in Hni as [Hne Hni]. by rewrite decide_False, IH by done.
Qed.

Lemma join_split_on sep l : join_text [sep] (split_on sep l) = l.
Proof.
  induction l as [|c l IH]; cbn [split_on]; [done|]. case_decide as E.
  - subst. pose proof (split_on_nonempty sep l). destruct (split_on sep l) as [|p ps]; [done|].
    cbn in *. by rewrite IH.
  - pose proof (split_on_nonempty sep l). destruct (split_on sep l) as [|p ps]; [done|].
    cbn in *. by rewrite IH.
Qed.

Lemma not_digit_show sep n : (0 <= n)%Z → is_digit sep = false → sep ∉ show n.
Proof.
  intros Hn Hs Hin. destruct (show_digits n Hn) as [Hd _]. rewrite Forall_forall in Hd.
  specialize (Hd _ Hin). congruence.
Qed.

Lemma is_prefix_spec p l : is_prefix p l = true ↔ ∃ k, l = p ++ k.
Proof.
  revert l. induction p as [|c p IH]; intros l; cbn; [split; [by exists l|done]|].
  destruct l as [|d l]; [split; [done|by intros [k ?]]|].
  rewrite andb_true_iff, bool_decide_eq_true, IH. split.
  - intros [-> [k ->]]. by exists k.
  - intros [k [= -> ->]]. split; [done|by exists k].
Qed.

Lemma is_prefix_app p k : is_prefix p (p ++ k) = true.
Proof. apply is_prefix_spec. by exists k. Qed.

Lemma is_prefix_short p l x : length p <= length l → is_prefix p (l ++ x) = is_prefix p l.
Proof.
  revert l. induction p as [|c p IH]; intros [|d l] Hle; cbn in *; try done; try lia.
  by rewrite IH by lia.
Qed.

Lemma find_text_bound needle l n : find_text needle l = Some n → length needle + n <= length l.
Proof.
  revert n. induction l as [|c l IH]; intros n; cbn [find_text].
  - destruct (is_prefix needle []) eqn:E; [|done]. intros [= <-].
    apply is_prefix_spec in E as [k E]. symmetry in E. apply app_eq_nil in E as [-> _]. cbn. lia.
  - destruct (is_prefix needle (c :: l)) eqn:E.
    + intros [= <-]. apply is_prefix_spec in E as [k ->]. rewrite length_app. lia.
    + intros (m & Hm & ->)%fmap_Some. apply IH in Hm. cbn. lia.
Qed.

(** Text that is appended does not change the first occurrence. *)
Lemma find_text_app needle l x n :
  find_text needle l = Some n → find_text needle (l ++ x) = Some n.
Proof.
  revert n. induction l as [|c l IH]; intros n Hf; pose proof (find_text_bound _ _ _ Hf) as Hb.
  - cbn in Hb. destruct needle; [by destruct x|cbn in Hb; lia].
  - cbn [find_text app] in *. rewrite app_comm_cons, is_prefix_short by lia.
    destruct (is_prefix needle (c :: l)); [done|].
    apply fmap_Some in Hf as (m & Hm & ->). by rewrite (IH _ Hm).
Qed.

Lemma indexOf_spec c l i :
  indexOf c l = Some i ↔ ∃ x y, l = x ++ c :: y ∧ length x = i ∧ (c ∉ x).
Proof.
  revert i. induction l as [|d l IH]; intros i; cbn [indexOf].
  - split; [done|]. intros (x & y & H & _). by destruct x.
  - case_decide as E.
    + subst d. split.
      * intros [= <-]. exists [], l. split_and!; [done..|apply not_elem_of_nil].
      * intros ([|a x] & y & H & Hi & Hn); [by cbn in Hi; subst|].
        cbn in H. injection H as <- _. by destruct Hn; left.
    + destruct (indexOf c l) as [j|]; cbn; split.
      * intros [= <-]. destruct (proj1 (IH j) eq_refl) as (x & y & -> & <- & Hn).
        exists (d :: x), y. split_and!; [done..|]. by apply not_elem_of_cons.
      * intros ([|a x] & y & H & Hi & Hn); cbn in H; injection H as -> H; [done|].
        apply not_elem_of_cons in Hn as [_ Hn].
        assert (Some j = Some (length x)) as [= ->] by (apply IH; by exists x, y). by subst.
      * done.
      * intros ([|a x] & y & H & Hi & Hn); cbn in H; injection H as -> H; [done|].
        apply not_elem_of_cons in Hn as [_ Hn].
        assert (@None nat = Some (length x)) by (apply IH; by exists x, y). done.
Qed.

(** ** The order of texts: [<] and [sort()] compare code units *)

Fixpoint text_leb (a b : list ascii) : bool :=
  match a, b with
  | [], _ => true
  | _, [] => false
  | x :: a, y :: b => (code x <? code y)%Z || ((code x =? code y)%Z && text_leb a b)
  end.
Definition text_le (a b : list ascii) : Prop := text_leb a b = true.
#[export] Instance text_le_dec : RelDecision text_le := λ a b, decide (text_leb a b = true).
(** [a > b] *)
Definition text_gtb (a b : list ascii) : bool := negb (text_leb a b).

Lemma code_inj a b : code a = code b → a = b.
Proof.
  unfold code. intros E%N2Z.inj. rewrite <-(ascii_N_embedding a), <-(ascii_N_embedding b). by rewrite E.
Qed.

Lemma text_le_refl a : text_le a a.
Proof. unfold text_le. induction a as [|x a IH]; [done|]. cbn. by rewrite IH, Z.eqb_refl, orb_true_r. Qed.
Lemma text_le_cons x a y b :
  text_le (x :: a) (y :: b) ↔ (code x < code y)%Z ∨ x = y ∧ text_le a b.
Proof.
  unfold text_le. cbn. rewrite orb_true_iff, andb_true_iff, Z.ltb_lt, Z.eqb_eq.
  split; [intros [?|[?%code_inj ?]]; auto|intros [?|[-> ?]]; auto].
Qed.
#[export] Instance text_le_trans : Transitive text_le.
Proof.
  intros a. induction a as [|x a IH]; intros [|y b] [|z c]; try done.
  rewrite !text_le_cons. intros [?|[-> ?]] [?|[-> ?]]; [left; lia|by left|by left|right; eauto].
Qed.
#[export] Instance text_le_total : Total text_le.
Proof.
  intros a. induction a as [|x a IH]; intros [|y b]; try (by left); try (by right).
  rewrite !text_le_cons. destruct (IH b); destruct (Z.lt_trichotomy (code x) (code y)) as [?|[->%code_inj|?]]; auto.
Qed.
#[export] Instance text_le_antisym : AntiSymm (=) text_le.
Proof.
  intros a. induction a as [|x a IH]; intros [|y b]; try done.
  rewrite !text_le_cons. intros [?|[-> ?]] [?|[E ?]]; try lia; [by subst; lia|]. f_equal; eauto.
Qed.
