(* ===== verification/JsMap.v ===== *)
(** * JavaScript's [Map]: a finite map with insertion order

    The services keep their state in [Map]s and iterate over them ([for (const
    [k, v] of map)], [map.values()], [map.keys().next()]), so the order of the
    entries is part of the state: [set] on a present key keeps the key's place,
    [set] on a new key appends, [delete] removes the entry.  The map is an
    association list; [jm_wf] (no key twice) is its invariant.  The lemmas give
    the lookup laws of a finite map and the effect of the operations on the keys
    and on the list of values.  A [Set] is the list of its elements. *)

From S2P Require Import Prelude.

Section js_map.
Context {K V : Type} `{EqDecision K}.
Implicit Types (m : list (K * V)) (k : K) (v : V).

Fixpoint jm_get (k : K) (m : list (K * V)) : option V :=
  match m with
  | [] => None
  | (k', v) :: m' => if decide (k = k') then Some v else jm_get k m'
  end.

Fixpoint jm_set (k : K) (v : V) (m : list (K * V)) : list (K * V) :=
  match m with
  | [] => [(k, v)]
  | (k', v') :: m' =>
      if decide (k = k') then (k', v) :: m' else (k', v') :: jm_set k v m'
  end.

Fixpoint jm_delete (k : K) (m : list (K * V)) : list (K * V) :=
  match m with
  | [] => []
  | (k', v') :: m' => if decide (k = k') then m' else (k', v') :: jm_delete k m'
  end.

Definition jm_has (k : K) (m : list (K * V)) : bool :=
  match jm_get k m with Some _ => true | None => false end.
Definition jm_keys (m : list (K * V)) : list K := m.*1.
Definition jm_values (m : list (K * V)) : list V := m.*2.

Definition jm_wf (m : list (K * V)) : Prop := NoDup (jm_keys m).

Lemma jm_get_set_eq k v m : jm_get k (jm_set k v m) = Some v.
Proof.
  induction m as [|[k' v'] m IH]; simpl; [by rewrite decide_True|].
  case_decide; simpl; [by rewrite decide_True|]. by rewrite decide_False.
Qed.

Lemma jm_get_set_ne k k' v m : k ≠ k' → jm_get k (jm_set k' v m) = jm_get k m.
Proof.
  intros Hne. induction m as [|[k2 v2] m IH]; simpl; [by rewrite decide_False|].
  destruct (decide (k' = k2)); simpl; [|by destruct (decide (k = k2))].
  rewrite !decide_False by congruence. done.
Qed.

Lemma jm_set_set k v v' m : jm_set k v' (jm_set k v m) = jm_set k v' m.
Proof.
  induction m as [|[k' w] m IH]; cbn [jm_set].
  - by rewrite decide_True by done.
  - destruct (decide (k = k')) as [->|Hne]; cbn [jm_set]; [by rewrite decide_True by done|].
    by rewrite decide_False, IH by done.
Qed.

Lemma jm_get_delete_ne k k' m : k ≠ k' → jm_get k (jm_delete k' m) = jm_get k m.
Proof.
  intros Hne. induction m as [|[k2 v2] m IH]; simpl; [done|].
  destruct (decide (k' = k2)); simpl; [|by destruct (decide (k = k2))].
  by rewrite decide_False by congruence.
Qed.

Lemma jm_get_None k m : jm_get k m = None ↔ k ∉ jm_keys m.
Proof.
  unfold jm_keys. induction m as [|[k' v'] m IH]; csimpl.
  { split; [intros _; apply not_elem_of_nil|done]. }
  rewrite not_elem_of_cons. case_decide; naive_solver.
Qed.

Lemma jm_get_in_keys k m : k ∈ jm_keys m ↔ is_Some (jm_get k m).
Proof.
  rewrite <-not_eq_None_Some, jm_get_None. split; [by intros ? ?|].
  destruct (decide (k ∈ jm_keys m)); [done|]. by intros [].
Qed.

Lemma jm_get_elem k v m : jm_get k m = Some v → (k, v) ∈ m.
Proof.
  induction m as [|[k' v'] m IH]; simpl; [done|].
  case_decide; intros; simplify_eq; [left|right; auto].
Qed.

Lemma jm_elem_get k v m : jm_wf m → (k, v) ∈ m → jm_get k m = Some v.
Proof.
  unfold jm_wf, jm_keys. induction m as [|[k' v'] m IH]; csimpl.
  { by intros _ ?%not_elem_of_nil. }
  intros [Hni Hnd]%NoDup_cons [?|Hin]%elem_of_cons; simplify_eq.
  { by rewrite decide_True. }
  rewrite decide_False; [auto|]. intros ->. apply Hni.
  apply list_elem_of_fmap. by exists (k', v).
Qed.

Lemma jm_get_delete_eq k m : jm_wf m → jm_get k (jm_delete k m) = None.
Proof.
  unfold jm_wf. induction m as [|[k' v'] m IH]; simpl; [done|].
  intros [Hni Hnd]%NoDup_cons. case_decide; simpl; subst.
  - by apply jm_get_None.
  - rewrite decide_False by done. auto.
Qed.

(** Every value of the map satisfies [P]. *)
Definition jm_all (P : V → Prop) m : Prop := Forall (λ e, P e.2) m.

Lemma jm_all_set (P : V → Prop) k v m : jm_all P m → P v → jm_all P (jm_set k v m).
Proof.
  unfold jm_all. intros Hm Hv. induction Hm as [|[k' v'] m Hv' Hm IH]; simpl; [by repeat constructor|].
  case_decide; by constructor.
Qed.

Lemma jm_all_delete (P : V → Prop) k m : jm_all P m → jm_all P (jm_delete k m).
Proof.
  unfold jm_all. induction 1 as [|[k' v'] m Hv' Hm IH]; simpl; [done|].
  case_decide; [done|]. by constructor.
Qed.

Lemma jm_all_get (P : V → Prop) k v m : jm_all P m → jm_get k m = Some v → P v.
Proof. intros Hm Hk%jm_get_elem. unfold jm_all in Hm. rewrite Forall_forall in Hm. by apply (Hm (k, v)). Qed.

Lemma jm_keys_set k v m :
  jm_keys (jm_set k v m) = jm_keys m ++ (if jm_has k m then [] else [k]).
Proof.
  unfold jm_keys, jm_has. induction m as [|[k' v'] m IH]; csimpl; [done|].
  case_decide; csimpl; [by rewrite app_nil_r|]. by rewrite IH.
Qed.

Lemma jm_keys_set_present k v v' m :
  jm_get k m = Some v' → jm_keys (jm_set k v m) = jm_keys m.
Proof. intros Hg. rewrite jm_keys_set. unfold jm_has. by rewrite Hg, app_nil_r. Qed.

Lemma jm_keys_delete_sub k m : jm_keys (jm_delete k m) ⊆ jm_keys m.
Proof.
  unfold jm_keys. induction m as [|[k' v'] m IH]; csimpl; [done|].
  case_decide; csimpl; set_solver.
Qed.

Lemma jm_set_wf k v m : jm_wf m → jm_wf (jm_set k v m).
Proof.
  unfold jm_wf. rewrite jm_keys_set. unfold jm_has. intros Hwf.
  destruct (jm_get k m) eqn:Hg; [by rewrite app_nil_r|].
  apply NoDup_app. split; [done|]. split; [|apply NoDup_singleton].
  intros x Hx ->%list_elem_of_singleton. by apply jm_get_None in Hg.
Qed.

Lemma jm_delete_wf k m : jm_wf m → jm_wf (jm_delete k m).
Proof.
  unfold jm_wf. induction m as [|[k' v'] m IH]; simpl; [done|].
  intros [Hni Hnd]%NoDup_cons. case_decide; simpl; [done|].
  apply NoDup_cons. split; [|auto]. intros Hin. apply Hni. by apply jm_keys_delete_sub in Hin.
Qed.

(** An entry present in the map can be taken out of the list of entries. *)
Lemma jm_delete_Permutation k v m :
  jm_get k m = Some v → m ≡ₚ (k, v) :: jm_delete k m.
Proof.
  induction m as [|[k' v'] m IH]; simpl; [done|].
  case_decide; intros; simplify_eq; [done|].
  rewrite IH at 1 by done. by rewrite Permutation_swap.
Qed.

Lemma jm_set_Permutation_Some k v v' m :
  jm_get k m = Some v' → jm_set k v m ≡ₚ (k, v) :: jm_delete k m.
Proof.
  induction m as [|[k2 v2] m IH]; simpl; [done|].
  case_decide; intros; simplify_eq; [done|].
  rewrite IH by done. by rewrite Permutation_swap.
Qed.

Lemma jm_set_None k v m : jm_get k m = None → jm_set k v m = m ++ [(k, v)].
Proof.
  induction m as [|[k' v'] m IH]; simpl; [done|].
  case_decide; [done|]. intros. by rewrite IH.
Qed.

Lemma jm_delete_None k m : jm_get k m = None → jm_delete k m = m.
Proof.
  induction m as [|[k' v'] m IH]; simpl; [done|].
  case_decide; [done|]. intros. by rewrite IH.
Qed.
End js_map.

#[export] Hint Resolve jm_set_wf jm_delete_wf : street.

(** Collecting a list out of every entry: the multiset of all values stored under
    any key, the view used to say that nothing is lost. *)
Section js_map_collect.
Context {K V A : Type} `{EqDecision K} (f : K → V → list A).
Implicit Types (m : list (K * V)).

Definition jm_collect (m : list (K * V)) : list A :=
  m ≫= (λ kv, f kv.1 kv.2).

#[export] Instance jm_collect_proper : Proper ((≡ₚ) ==> (≡ₚ)) jm_collect.
Proof. intros m1 m2 H. unfold jm_collect. by apply bind_Permutation. Qed.

Lemma jm_collect_delete k v m :
  jm_get k m = Some v → jm_collect m ≡ₚ f k v ++ jm_collect (jm_delete k m).
Proof. intros H. by rewrite (jm_delete_Permutation k v m H) at 1. Qed.

Lemma jm_collect_set k v m :
  jm_collect (jm_set k v m) ≡ₚ
    f k v ++ jm_collect (jm_delete k m).
Proof.
  destruct (jm_get k m) as [v'|] eqn:Hg.
  - by rewrite (jm_set_Permutation_Some k v v' m Hg).
  - rewrite jm_set_None, jm_delete_None by done. unfold jm_collect.
    rewrite bind_app. simpl. by rewrite app_nil_r, Permutation_app_comm.
Qed.
End js_map_collect.

Section js_map_update.
Context {K V A : Type} `{EqDecision K} (f : K → V → list A) (v0 : V).
Hypothesis Hempty : ∀ k, f k v0 = [].

(** The entry of a key, with the empty value for an absent key, can be taken
    out of the collection. *)
Lemma jm_collect_default k (m : list (K * V)) :
  jm_collect f m ≡ₚ f k (default v0 (jm_get k m)) ++ jm_collect f (jm_delete k m).
Proof.
  destruct (jm_get k m) eqn:Hg; simpl; [by apply jm_collect_delete|].
  by rewrite Hempty, jm_delete_None.
Qed.

(** Growing one entry grows the collection by the same elements. *)
Lemma jm_collect_grow k v (m : list (K * V)) extra :
  f k v ≡ₚ extra ++ f k (default v0 (jm_get k m)) →
  jm_collect f (jm_set k v m) ≡ₚ extra ++ jm_collect f m.
Proof.
  intros Hv. rewrite (jm_collect_set f k v m), Hv, (jm_collect_default k m).
  by rewrite (assoc_L (++)).
Qed.

(** Shrinking one entry. *)
Lemma jm_collect_shrink k v (m : list (K * V)) gone :
  f k (default v0 (jm_get k m)) ≡ₚ gone ++ f k v →
  jm_collect f m ≡ₚ gone ++ jm_collect f (jm_set k v m).
Proof.
  intros Hv. rewrite (jm_collect_set f k v m), (jm_collect_default k m), Hv.
  by rewrite (assoc_L (++)).
Qed.
End js_map_update.

(** Walking the entries in order while updating the current one: the map splits
    into the entries already visited and those to come. *)
Section js_map_walk.
Context {K V : Type} `{EqDecision K}.
Implicit Types (pre post : list (K * V)).

Lemma jm_wf_middle pre k v post :
  jm_wf (pre ++ (k, v) :: post) → (k ∉ jm_keys pre) ∧ (k ∉ jm_keys post).
Proof.
  unfold jm_wf, jm_keys. rewrite fmap_app, fmap_cons, NoDup_app, NoDup_cons.
  intros (_ & Hd & Hn & _). split; [|done]. intros Hin. apply (Hd k Hin). left.
Qed.

Lemma jm_get_middle pre k v post :
  k ∉ jm_keys pre → jm_get k (pre ++ (k, v) :: post) = Some v.
Proof.
  unfold jm_keys. induction pre as [|[k' v'] pre IH]; csimpl; [by rewrite decide_True|].
  rewrite not_elem_of_cons. intros [? ?]. rewrite decide_False by done. auto.
Qed.

Lemma jm_set_middle pre k v v' post :
  k ∉ jm_keys pre → jm_set k v (pre ++ (k, v') :: post) = pre ++ (k, v) :: post.
Proof.
  unfold jm_keys. induction pre as [|[k2 v2] pre IH]; csimpl; [by rewrite decide_True|].
  rewrite not_elem_of_cons. intros [? ?]. rewrite decide_False by done. by rewrite IH.
Qed.

Lemma jm_delete_middle pre k v post :
  k ∉ jm_keys pre → jm_delete k (pre ++ (k, v) :: post) = pre ++ post.
Proof.
  unfold jm_keys. induction pre as [|[k2 v2] pre IH]; csimpl; [by rewrite decide_True|].
  rewrite not_elem_of_cons. intros [? ?]. rewrite decide_False by done. by rewrite IH.
Qed.

Lemma jm_get_fmap {W} (g : V → W) k (m : list (K * V)) :
  jm_get k (fmap (λ kv, (kv.1, g kv.2)) m) = (g <$> jm_get k m).
Proof. induction m as [|[k' v'] m IH]; csimpl; [done|]. by case_decide. Qed.

Lemma jm_keys_fmap {W} (g : V → W) (m : list (K * V)) :
  jm_keys ((λ kv, (kv.1, g kv.2)) <$> m) = jm_keys m.
Proof. unfold jm_keys. induction m as [|[k' v'] m IH]; csimpl; [done|]. by rewrite IH. Qed.
End js_map_walk.

(** Entries that survive a filter. *)
Section js_map_filter.
Context {K V : Type} `{EqDecision K} (P : K * V → Prop) `{!∀ kv, Decision (P kv)}.

Lemma jm_filter_wf (m : list (K * V)) : jm_wf m → jm_wf (filter P m).
Proof.
  unfold jm_wf, jm_keys. intros Hwf. eapply sublist_NoDup; [exact Hwf|].
  apply fmap_sublist, sublist_filter.
Qed.

Lemma jm_get_filter_sub k v (m : list (K * V)) :
  jm_wf m → jm_get k (filter P m) = Some v → jm_get k m = Some v.
Proof.
  intros Hwf Hin%jm_get_elem. apply list_elem_of_filter in Hin as [_ Hin]. by apply jm_elem_get.
Qed.
End js_map_filter.

(** ** JavaScript's [Set]

    The list of its elements, in the order of their insertion. *)

Definition set_add {A} `{EqDecision A} (x : A) (l : list A) : list A :=
  if decide (x ∈ l) then l else l ++ [x].
Definition set_delete {A} `{EqDecision A} (x : A) (l : list A) : list A :=
  filter (λ y, y ≠ x) l.

Lemma elem_of_set_add {A} `{EqDecision A} (x y : A) l : y ∈ set_add x l ↔ y = x ∨ y ∈ l.
Proof. unfold set_add. case_decide; [naive_solver|]. rewrite elem_of_app, list_elem_of_singleton. tauto. Qed.
Lemma elem_of_set_delete {A} `{EqDecision A} (x y : A) l : y ∈ set_delete x l ↔ y ≠ x ∧ y ∈ l.
Proof. unfold set_delete. by rewrite list_elem_of_filter. Qed.
Lemma NoDup_set_add {A} `{EqDecision A} (x : A) l : NoDup l → NoDup (set_add x l).
Proof.
  intros H. unfold set_add. case_decide; [done|]. apply NoDup_app. split; [done|].
  split; [|apply NoDup_singleton]. intros y Hy ->%list_elem_of_singleton. done.
Qed.
Lemma NoDup_set_delete {A} `{EqDecision A} (x : A) l : NoDup l → NoDup (set_delete x l).
Proof. apply NoDup_filter. Qed.
