(* ===== verification/JsInt.v ===== *)
(** * 32-bit integers of JavaScript, and the FNV-1a hash

    [>>> 0], [^] and [Math.imul] on numbers, and the hash that the storage bridge of the
    workflow engine (Bridges.v) and the feature flags (Flags.v) compute with them. *)

From Stdlib Require Import Ascii String.
From S2P Require Import Prelude JsText.

(** ** Bit operations of JavaScript numbers *)

Definition to_uint32 (z : Z) : Z := (z mod 2 ^ 32)%Z.
Definition to_int32 (z : Z) : Z :=
  let m := to_uint32 z in if (m <? 2 ^ 31)%Z then m else (m - 2 ^ 32)%Z.

Definition js_xor (a b : Z) : Z := Z.lxor (to_int32 a) (to_int32 b).
Definition imul (a b : Z) : Z := to_int32 (a * b).

(** ** FNV-1a *)

Definition fnv_step (hash c : Z) : Z := imul (js_xor hash c) 16777619.
Definition fnv1aBytes (bytes : list Z) : Z := to_uint32 (foldl fnv_step 2166136261%Z bytes).
Definition char_codes (s : string) : list Z := code <$> list_ascii_of_string s.
Definition fnv1a (input : string) : Z := fnv1aBytes (char_codes input).

Lemma to_uint32_int32 z : to_uint32 (to_int32 z) = to_uint32 z.
Proof.
  unfold to_int32, to_uint32. pose proof (Z.mod_pos_bound z (2 ^ 32) ltac:(lia)).
  destruct (Z.ltb_spec (z mod 2 ^ 32) (2 ^ 31)); [by rewrite Z.mod_small|].
  replace (z mod 2 ^ 32 - 2 ^ 32)%Z with (z mod 2 ^ 32 + (-1) * 2 ^ 32)%Z by lia.
  rewrite Z.mod_add by lia. by rewrite Z.mod_small.
Qed.

Lemma to_uint32_xor a b : to_uint32 (js_xor a b) = Z.lxor (to_uint32 a) (to_uint32 b).
Proof.
  rewrite <-(to_uint32_int32 a), <-(to_uint32_int32 b). unfold js_xor, to_uint32.
  rewrite <-!Z.land_ones by lia. apply Z.bits_inj'. intros n _.
  rewrite ?Z.land_spec, ?Z.lxor_spec, ?Z.land_spec.
  by destruct (Z.testbit (to_int32 a) n), (Z.testbit (to_int32 b) n), (Z.testbit (Z.ones 32) n).
Qed.

Lemma to_uint32_mul a b : to_uint32 (a * b) = to_uint32 (to_uint32 a * b).
Proof. unfold to_uint32. by rewrite Z.mul_mod_idemp_l by lia. Qed.

Lemma to_uint32_small z : (0 <= z < 2 ^ 32)%Z → to_uint32 z = z.
Proof. apply Z.mod_small. Qed.

(** The 32-bit FNV-1a hash on unsigned integers. *)
Definition fnv_reference (bytes : list Z) : Z :=
  foldl (λ hash c, Z.lxor hash c * 16777619 mod 2 ^ 32)%Z 2166136261%Z bytes.

Lemma fnv_bound bytes : (0 <= fnv1aBytes bytes < 2 ^ 32)%Z.
Proof. apply Z.mod_pos_bound. lia. Qed.

(** The signed loop computes the unsigned hash. *)
Lemma fnv_loop (bytes : list Z) :
  Forall (λ c, 0 <= c < 2 ^ 32)%Z bytes → fnv1aBytes bytes = fnv_reference bytes.
Proof.
  intros Hb. unfold fnv1aBytes, fnv_reference.
  rewrite <-(to_uint32_small 2166136261) at 2 by lia. generalize 2166136261%Z as h.
  induction Hb as [|c bytes Hc _ IH]; intros h; [done|].
  cbn [foldl]. rewrite IH. f_equal. unfold fnv_step, imul.
  by rewrite to_uint32_int32, to_uint32_mul, to_uint32_xor, (to_uint32_small c).
Qed.
