(* ===== verification/Resp.v ===== *)
(** * The Redis protocol: commands, replies, the incremental parser

    Models src/packages/core/src/transports/resp.ts: [encodeCommand], [RespParser] and the
    way [RedisClient] hands replies to the commands that wait.

    Buffers are lists of bytes ([ascii]).  JavaScript texts are an argument of the model
    with their UTF-8 encoding and decoding, of which only the round trip is used.  A
    length or count is the [Number] of a line; the model knows it when the line is a
    decimal integer up to 2^53 or surely not a number; other lines (fractions, exponents,
    hexadecimals) and bulk lengths below -1 are reported as [Odd] and their effect is not
    modelled.  The depth of the JavaScript stack is not bounded. *)

From Stdlib Require Import Ascii String.
From S2P Require Import Prelude JsText.

Set Warnings "-register-all".
Open Scope Z_scope.

(** ** [Number] of a line *)

Inductive js_number : Type :=
| NInt (z : Z)
| NNaN
| NOther.

Definition ascii_space (c : ascii) : bool :=
  ((9 <=? code c) && (code c <=? 13)) || (code c =? 32).
Fixpoint drop_ascii_spaces (l : list ascii) : list ascii :=
  match l with
  | c :: l' => if ascii_space c then drop_ascii_spaces l' else l
  | [] => []
  end.
Definition strip (l : list ascii) : list ascii :=
  reverse (drop_ascii_spaces (reverse (drop_ascii_spaces l))).

(** A letter that begins no numeric literal ([Infinity] does). *)
Definition alien_letter (c : ascii) : bool :=
  (((65 <=? code c) && (code c <=? 90)) || ((97 <=? code c) && (code c <=? 122)))
  && negb (code c =? 73).

Definition Number (line : list ascii) : js_number :=
  match strip line with
  | [] => NInt 0
  | c :: l =>
      let '(sign, body) :=
        if code c =? 45 then (-1, l) else if code c =? 43 then (1, l) else (1, c :: l) in
      match span_digits body with
      | (d :: ds, []) =>
          if digits_value (d :: ds) <=? 2 ^ 53 then NInt (sign * digits_value (d :: ds))
          else NOther
      | _ => if alien_letter c then NNaN else NOther
      end
  end.

Definition CR : ascii := "013"%char.
Definition LF : ascii := "010"%char.
Definition CRLF : list ascii := [CR; LF].

(** The bytes before the first CRLF, and those after it. *)
Fixpoint split_crlf (l : list ascii) : option (list ascii * list ascii) :=
  match l with
  | c :: l' =>
      match l' with
      | d :: after =>
          if decide (c = CR ∧ d = LF) then Some ([], after)
          else (λ p, (c :: p.1, p.2)) <$> split_crlf l'
      | [] => None
      end
  | [] => None
  end.

Section resp.
Context {T : Type} (utf8_encode : T → list ascii) (utf8_decode : list ascii → T).

(** ** Commands *)

Inductive resp_arg : Type :=
| ArgText (t : T)
| ArgNum (n : Z).

(** The bytes of [String(arg)]. *)
Definition arg_bytes (arg : resp_arg) : list ascii :=
  match arg with
  | ArgText t => utf8_encode t
  | ArgNum n => if n <? 0 then "-"%char :: show (- n) else show n
  end.

Definition encode_arg (arg : resp_arg) : list ascii :=
  let s := arg_bytes arg in
  "$"%char :: show (Z.of_nat (length s)) ++ CRLF ++ s ++ CRLF.

Definition encodeCommand (args : list resp_arg) : list ascii :=
  "*"%char :: show (Z.of_nat (length args)) ++ CRLF ++ mjoin (encode_arg <$> args).

(** ** Replies *)

Inductive RespValue : Type :=
| RStr (t : T)
| RErr (t : T)    (* the string "ERR:" followed by the text *)
| RNum (n : js_number)
| RNull
| RArr (l : list RespValue).

(** What an attempt to parse gives: more bytes are needed; a value and the bytes after it;
    a value, but the next position is [NaN], which leaves the buffer as it is; a length
    whose effect is not modelled; the recursion did not end with this fuel. *)
Inductive parsed : Type :=
| Need
| Got (v : RespValue) (rest : list ascii)
| Stuck (v : RespValue)
| Odd
| OutOfFuel.

Fixpoint parse_at (fuel : nat) (l : list ascii) {struct fuel} : parsed :=
  match fuel with
  | O => OutOfFuel
  | S fuel =>
      match l with
      | [] => Need
      | type :: l =>
          match split_crlf l with
          | None => Need
          | Some (line, after) =>
              if decide (type = "+"%char) then Got (RStr (utf8_decode line)) after
              else if decide (type = "-"%char) then Got (RErr (utf8_decode line)) after
              else if decide (type = ":"%char) then Got (RNum (Number line)) after
              else if decide (type = "$"%char) then
                match Number line with
                | NInt len =>
                    if len =? -1 then Got RNull after
                    else if len <? 0 then Odd
                    else if Z.of_nat (length after) <? len + 2 then Need
                    else Got (RStr (utf8_decode (take (Z.to_nat len) after)))
                           (drop (Z.to_nat len + 2) after)
                | NNaN => Stuck (RStr (utf8_decode []))
                | NOther => Odd
                end
              else if decide (type = "*"%char) then
                match Number line with
                | NInt count =>
                    if count =? -1 then Got RNull after
                    else parse_elements fuel count after []
                | NNaN => Got (RArr []) after
                | NOther => Odd
                end
              else Got (RStr (utf8_decode line)) after
          end
      end
  end
with parse_elements (fuel : nat) (count : Z) (l : list ascii) (arr : list RespValue)
    {struct fuel} : parsed :=
  match fuel with
  | O => OutOfFuel
  | S fuel =>
      if count <=? 0 then Got (RArr arr) l
      else
        match parse_at fuel l with
        | Got v rest => parse_elements fuel (count - 1) rest (arr ++ [v])
        | Stuck _ => Odd    (* the cursor of the loop is [NaN] *)
        | r => r
        end
  end.

(** Enough for every buffer ([parse_total]). *)
Definition enough (l : list ascii) : nat := (2 * length l + 1)%nat.
Definition parse (buf : list ascii) : parsed := parse_at (enough buf) buf.

(** ** The handler of the socket's data *)

Inductive drained : Type :=
| Waiting (buf : list ascii)
| Looping            (* the handler parses the same bytes for ever *)
| Unknown.

(** [parse] until it answers [undefined]; the replies in order, and what is left. *)
Fixpoint drain (fuel : nat) (buf : list ascii) : list RespValue * drained :=
  match fuel with
  | O => ([], Unknown)
  | S fuel =>
      match parse buf with
      | Need => ([], Waiting buf)
      | Got v rest => let '(vs, s) := drain fuel rest in (v :: vs, s)
      | Stuck _ => ([], Looping)
      | Odd | OutOfFuel => ([], Unknown)
      end
  end.

(** One [data] event: [push], then the loop. *)
Definition on_data (buf chunk : list ascii) : list RespValue * drained :=
  drain (S (length (buf ++ chunk))) (buf ++ chunk).

Fixpoint on_chunks (buf : list ascii) (chunks : list (list ascii)) :
    list RespValue * drained :=
  match chunks with
  | [] => ([], Waiting buf)
  | chunk :: chunks =>
      match on_data buf chunk with
      | (vs, Waiting buf) => let '(ws, s) := on_chunks buf chunks in (vs ++ ws, s)
      | r => r
      end
  end.

(** [pending.shift()] for each reply: the commands resolved, and those still waiting. *)
Fixpoint deliver {C : Type} (pending : list C) (replies : list RespValue) :
    list (C * RespValue) * list C :=
  match replies with
  | [] => ([], pending)
  | v :: replies =>
      match pending with
      | [] => deliver [] replies
      | c :: pending => let r := deliver pending replies in ((c, v) :: r.1, r.2)
      end
  end.

(** [classifyPubSubReply]: a pushed message with its payload, or the reply to a command. *)
Context `{EqDecision T} (t_message t_pmessage : T).

Definition elem_text (arr : list RespValue) (i : nat) : option T :=
  match arr !! i with Some (RStr t) => Some t | _ => None end.

Definition classifyPubSubReply (reply : RespValue) : option T :=
  match reply with
  | RArr arr =>
      if decide (elem_text arr 0 = Some t_message) then elem_text arr 2
      else if decide (elem_text arr 0 = Some t_pmessage) then elem_text arr 3
      else None
  | _ => None
  end.
End resp.
Arguments RStr {T} t.
Arguments RErr {T} t.
Arguments RNum {T} n.
Arguments RNull {T}.
Arguments RArr {T} l.
Arguments Need {T}.
Arguments Got {T} v rest.
Arguments Stuck {T} v.
Arguments Odd {T}.
Arguments OutOfFuel {T}.
Arguments ArgText {T} t.
Arguments ArgNum {T} n.

(** ** The parser always answers, and bytes to come do not change an answer *)

Local Open Scope nat_scope.

Lemma split_crlf_length l line after :
  split_crlf l = Some (line, after) → length after + 2 <= length l.
Proof.
  revert line. induction l as [|c l IH]; intros line; [done|]. cbn [split_crlf].
  destruct l as [|d l]; [done|]. case_decide; [intros; simplify_eq; simpl; lia|].
  intros ([line' after'] & E & [= -> ->])%fmap_Some. apply IH in E. simpl in *. lia.
Qed.

Lemma split_crlf_app l line after x :
  split_crlf l = Some (line, after) → split_crlf (l ++ x) = Some (line, after ++ x).
Proof.
  revert line. induction l as [|c l IH]; intros line; [done|]. cbn [split_crlf app].
  destruct l as [|d l]; [done|]. cbn [app]. case_decide; [by intros [= <- <-]|].
  intros ([line' after'] & E & [= -> ->])%fmap_Some.
  change (d :: l ++ x) with ((d :: l) ++ x). by rewrite (IH _ E).
Qed.

Lemma split_crlf_line line after :
  CR ∉ line → split_crlf (line ++ CRLF ++ after) = Some (line, after).
Proof.
  induction line as [|c line IH]; intros Hni.
  - cbn. by rewrite decide_True.
  - apply not_elem_of_cons in Hni as [Hne Hni]. specialize (IH Hni).
    cbn [app split_crlf]. destruct (line ++ CRLF ++ after) as [|d l] eqn:E.
    + by destruct line.
    + rewrite decide_False by (by intros [-> _]). by rewrite IH.
Qed.

Section parser.
Context {T : Type} (utf8_decode : list ascii → T).
Abbreviation parse_at := (parse_at utf8_decode).
Abbreviation parse_elements := (parse_elements utf8_decode).
Abbreviation parse := (parse utf8_decode).
Abbreviation drain := (drain utf8_decode).
Abbreviation on_chunks := (on_chunks utf8_decode).

Lemma parse_elements_S fuel count l arr :
  parse_elements (S fuel) count l arr =
    if (count <=? 0)%Z then Got (RArr arr) l
    else match parse_at fuel l with
         | Got v rest => parse_elements fuel (count - 1)%Z rest (arr ++ [v])
         | Stuck _ => Odd
         | r => r
         end.
Proof. done. Qed.

(** What more bytes at the end of the buffer make of an answer. *)
Definition more (x : list ascii) (r : parsed (T:=T)) : parsed :=
  match r with Got v rest => Got v (rest ++ x) | r => r end.
Definition answered (r : parsed (T:=T)) : Prop := r ≠ Need ∧ r ≠ OutOfFuel.

(** Both functions consume what they answer for, within their fuel. *)
Definition consumes (l : list ascii) (r : parsed (T:=T)) (k : nat) : Prop :=
  r ≠ OutOfFuel ∧ ∀ v rest, r = Got v rest → length rest + k <= length l.

Ltac step_parse :=
  repeat first
    [ progress case_decide
    | match goal with
      | |- context [match Number ?x with _ => _ end] => destruct (Number x) eqn:?
      | |- context [if ?x then _ else _] => destruct x eqn:?
      end ].

Lemma parse_consumes fuel : ∀ l,
  (2 * length l + 1 <= fuel → consumes l (parse_at fuel l) 3) ∧
  (2 * length l + 2 <= fuel → ∀ count arr, consumes l (parse_elements fuel count l arr) 0).
Proof.
  induction fuel as [|fuel IH]; intros l; split; try lia; intros Hf.
  - cbn. destruct l as [|type l]; [by split|].
    destruct (split_crlf l) as [[line after]|] eqn:E; [|by split].
    apply split_crlf_length in E. cbn [length] in *.
    step_parse; try (split; [done|intros; simplify_eq; rewrite ?length_drop; reflect_bools; cbn [length]; lia]).
    destruct (IH after) as [_ He]. destruct (He ltac:(lia) z []) as [Hn Hl].
    split; [done|]. intros v rest Hr. apply Hl in Hr. cbn [length]. lia.
  - intros count arr. rewrite ?parse_elements_S. destruct (count <=? 0)%Z; [split; [done|intros; simplify_eq; lia]|].
    destruct (IH l) as [Ha _]. destruct (Ha ltac:(lia)) as [Hn Hl].
    destruct (parse_at fuel l) as [|v rest| | |] eqn:E; try by split.
    specialize (Hl _ _ eq_refl). destruct (IH rest) as [_ He].
    destruct (He ltac:(lia) (count - 1)%Z (arr ++ [v])) as [Hn2 Hl2].
    split; [done|]. intros v' rest' Hr. apply Hl2 in Hr. lia.
Qed.

Lemma parse_more_fuel fuel : ∀ l fuel',
  (fuel <= fuel')%nat →
  (parse_at fuel l ≠ OutOfFuel → parse_at fuel' l = parse_at fuel l) ∧
  (∀ count arr, parse_elements fuel count l arr ≠ OutOfFuel →
     parse_elements fuel' count l arr = parse_elements fuel count l arr).
Proof.
  induction fuel as [|fuel IH]; intros l fuel' Hle; [by split|].
  destruct fuel' as [|fuel']; [lia|]. split.
  - cbn. destruct l as [|type l]; [done|]. destruct (split_crlf l) as [[line after]|]; [|done].
    step_parse; try done. by apply (IH after fuel' ltac:(lia)).
  - intros count arr. rewrite ?parse_elements_S. destruct (count <=? 0)%Z; [done|].
    destruct (IH l fuel' ltac:(lia)) as [Ha _].
    destruct (parse_at fuel l) as [|v rest| | |] eqn:E; try done; rewrite Ha by done; try done.
    apply (IH rest fuel' ltac:(lia)).
Qed.

Lemma parse_settled_more fuel : ∀ l x,
  (answered (parse_at fuel l) → parse_at fuel (l ++ x) = more x (parse_at fuel l)) ∧
  (∀ count arr, answered (parse_elements fuel count l arr) →
     parse_elements fuel count (l ++ x) arr = more x (parse_elements fuel count l arr)).
Proof.
  unfold answered. induction fuel as [|fuel IH]; intros l x; [naive_solver|split].
  - cbn. destruct l as [|type l]; [naive_solver|]. cbn [app].
    destruct (split_crlf l) as [[line after]|] eqn:E; [|naive_solver].
    rewrite (split_crlf_app _ _ _ x E). rewrite length_app.
    step_parse; reflect_bools; try done; try lia; cbn [more]; try (intros [? ?]; done).
    + intros _. rewrite take_app_le, drop_app_le by lia. done.
    + intros Hs. by apply IH.
  - intros count arr. rewrite ?parse_elements_S. destruct (count <=? 0)%Z; [done|]. intros Hs.
    destruct (IH l x) as [Ha _].
    destruct (parse_at fuel l) as [|v rest| | |] eqn:E; try (destruct Hs; done);
      rewrite Ha by (by split); cbn [more]; [by apply IH|done..].
Qed.

Lemma parse_not_out l : parse l ≠ OutOfFuel.
Proof. destruct (parse_consumes (enough l) l) as [H _]. by apply H. Qed.

Lemma parse_got_shorter l v rest : parse l = Got v rest → length rest + 3 <= length l.
Proof. destruct (parse_consumes (enough l) l) as [H _]. by apply H. Qed.

Lemma parse_at_parse fuel l : parse_at fuel l ≠ OutOfFuel → parse l = parse_at fuel l.
Proof.
  intros Hf. destruct (parse_more_fuel fuel l (enough l + fuel) ltac:(lia)) as [H1 _].
  destruct (parse_more_fuel (enough l) l (enough l + fuel) ltac:(lia)) as [H2 _].
  rewrite <-H1 by done. symmetry. apply H2, parse_not_out.
Qed.

Lemma parse_app l x : parse l ≠ Need → parse (l ++ x) = more x (parse l).
Proof.
  intros Hn. pose proof (parse_not_out l) as Ho.
  destruct (parse_settled_more (enough l) l x) as [H _].
  specialize (H (conj Hn Ho)). rewrite (parse_at_parse (enough l)).
  - exact H.
  - rewrite H. change (more x (parse l) ≠ OutOfFuel). by destruct (parse l).
Qed.

(** ** Draining a buffer *)

Lemma drain_more_fuel fuel : ∀ fuel' buf,
  length buf < fuel → (fuel <= fuel')%nat → drain fuel' buf = drain fuel buf.
Proof.
  induction fuel as [|fuel IH]; intros fuel' buf Hb Hle; [lia|].
  destruct fuel' as [|fuel']; [lia|]. cbn [Resp.drain].
  destruct (parse buf) as [|v rest| | |] eqn:E; try done.
  apply parse_got_shorter in E. by rewrite (IH fuel' rest) by lia.
Qed.

Definition drain_all (buf : list ascii) := drain (S (length buf)) buf.

Lemma drain_all_unfold buf :
  drain_all buf = match parse buf with
                  | Need => ([], Waiting buf)
                  | Got v rest => let r := drain_all rest in (v :: r.1, r.2)
                  | Stuck _ => ([], Looping)
                  | Odd | OutOfFuel => ([], Unknown)
                  end.
Proof.
  unfold drain_all at 1. cbn [Resp.drain]. destruct (parse buf) as [|v rest| | |] eqn:E; try done.
  apply parse_got_shorter in E. unfold drain_all.
  rewrite (drain_more_fuel (S (length rest)) (length buf) rest) by lia.
  by destruct (drain (S (length rest)) rest).
Qed.

(** Bytes that arrive later continue where the first ones stopped. *)
Lemma drain_all_app x : ∀ buf,
  drain_all (buf ++ x) =
    match drain_all buf with
    | (vs, Waiting rest) => let r := drain_all (rest ++ x) in (vs ++ r.1, r.2)
    | r => r
    end.
Proof.
  apply (induction_ltof1 _ length). unfold ltof. intros buf IH.
  rewrite (drain_all_unfold buf).
  destruct (parse buf) as [|v rest|v| |] eqn:E.
  - by destruct (drain_all (buf ++ x)).
  - rewrite drain_all_unfold, parse_app, E by (rewrite E; done). cbn [more].
    apply parse_got_shorter in E. rewrite IH by lia.
    destruct (drain_all rest) as [vs [buf'| |]]; done.
  - by rewrite drain_all_unfold, parse_app, E by (rewrite E; done).
  - by rewrite drain_all_unfold, parse_app, E by (rewrite E; done).
  - by destruct (parse_not_out buf).
Qed.

Lemma drain_all_waiting buf vs rest :
  drain_all buf = (vs, Waiting rest) → drain_all rest = ([], Waiting rest).
Proof.
  revert buf vs. apply (induction_ltof1 _ length (λ buf, ∀ vs, _ → _)). unfold ltof.
  intros buf IH vs. rewrite (drain_all_unfold buf).
  destruct (parse buf) as [|v r| | |] eqn:E; try done.
  - intros [= <- <-]. by rewrite drain_all_unfold, E.
  - pose proof (parse_got_shorter _ _ _ E). destruct (drain_all r) as [ws st] eqn:Er.
    cbn. intros [= <- ->]. by apply (IH r ltac:(lia) ws).
Qed.

Lemma on_chunks_drain chunks : ∀ buf,
  drain_all buf = ([], Waiting buf) → on_chunks buf chunks = drain_all (buf ++ mjoin chunks).
Proof.
  induction chunks as [|chunk chunks IH]; intros buf Hb; cbn [Resp.on_chunks].
  - cbn. by rewrite app_nil_r.
  - change (mjoin (chunk :: chunks)) with (chunk ++ mjoin chunks).
    rewrite (assoc_L (++)), drain_all_app.
    change (on_data utf8_decode buf chunk) with (drain_all (buf ++ chunk)).
    destruct (drain_all (buf ++ chunk)) as [vs [rest| |]] eqn:E; try done.
    rewrite IH by by eapply drain_all_waiting. by destruct (drain_all (rest ++ mjoin chunks)).
Qed.
End parser.

(** ** What a server writes

    The replies of the protocol and their bytes: the specification the parser is held
    against.  Lines hold no CR; integers, lengths and counts stay within 2^53. *)

Inductive wire : Type :=
| WSimple (line : list ascii)
| WError (line : list ascii)
| WInt (z : Z)
| WBulk (bytes : list ascii)
| WNil
| WArray (l : list wire).

Definition show_int (z : Z) : list ascii :=
  if (z <? 0)%Z then "-"%char :: show (- z)%Z else show z.

Fixpoint wire_bytes (w : wire) : list ascii :=
  match w with
  | WSimple line => "+"%char :: line ++ CRLF
  | WError line => "-"%char :: line ++ CRLF
  | WInt z => ":"%char :: show_int z ++ CRLF
  | WBulk bytes => "$"%char :: show (Z.of_nat (length bytes)) ++ CRLF ++ bytes ++ CRLF
  | WNil => "$"%char :: show_int (-1) ++ CRLF
  | WArray l => "*"%char :: show (Z.of_nat (length l)) ++ CRLF ++ mjoin (wire_bytes <$> l)
  end.

Fixpoint wire_ok (w : wire) : bool :=
  match w with
  | WSimple line | WError line => bool_decide (CR ∉ line)
  | WInt z => (Z.abs z <=? 2 ^ 53)%Z
  | WBulk bytes => (Z.of_nat (length bytes) <=? 2 ^ 53)%Z
  | WNil => true
  | WArray l => (Z.of_nat (length l) <=? 2 ^ 53)%Z && forallb wire_ok l
  end.

Fixpoint wire_value {T} (utf8_decode : list ascii → T) (w : wire) : RespValue :=
  match w with
  | WSimple line => RStr (utf8_decode line)
  | WError line => RErr (utf8_decode line)
  | WInt z => RNum (NInt z)
  | WBulk bytes => RStr (utf8_decode bytes)
  | WNil => RNull
  | WArray l => RArr (wire_value utf8_decode <$> l)
  end.

Fixpoint wire_nested_ind (P : wire → Prop)
    (Hs : ∀ l, P (WSimple l)) (He : ∀ l, P (WError l)) (Hi : ∀ z, P (WInt z))
    (Hb : ∀ l, P (WBulk l)) (Hn : P WNil) (Ha : ∀ l, Forall P l → P (WArray l))
    (w : wire) : P w :=
  match w with
  | WSimple l => Hs l
  | WError l => He l
  | WInt z => Hi z
  | WBulk l => Hb l
  | WNil => Hn
  | WArray l =>
      Ha l (list_ind (Forall P) (Forall_nil_2 P)
              (λ w l IH, Forall_cons_2 P w l (wire_nested_ind P Hs He Hi Hb Hn Ha w) IH) l)
  end.

Lemma strip_id l :
  match l with [] => True | c :: _ => ascii_space c = false end →
  match reverse l with [] => True | c :: _ => ascii_space c = false end → strip l = l.
Proof.
  intros H1 H2. unfold strip.
  assert (∀ l, match l with [] => True | c :: _ => ascii_space c = false end →
    drop_ascii_spaces l = l) as Hid by (intros [|c r]; [done|]; cbn; by intros ->).
  rewrite (Hid l) by done. rewrite Hid by done. apply reverse_involutive.
Qed.

Lemma digit_not_ascii_space c : is_digit c = true → ascii_space c = false.
Proof. unfold is_digit, ascii_space. intros. reflect_bools. lia. Qed.

Lemma reverse_head_digit c l :
  Forall (λ c, is_digit c = true) l → l ≠ [] →
  match reverse (c :: l) with [] => True | d :: _ => ascii_space d = false end.
Proof.
  intros Hl Hne. rewrite reverse_cons. apply Forall_reverse in Hl.
  destruct (reverse l) as [|d r] eqn:E;
    [|apply Forall_cons in Hl as [? _]; by apply digit_not_ascii_space].
  by rewrite <-(reverse_involutive l), E in Hne.
Qed.

Lemma Number_show z : (0 <= z <= 2 ^ 53)%Z → Number (show z) = NInt z.
Proof.
  intros Hz. destruct (show_digits z ltac:(lia)) as [Hd Hne]. unfold Number.
  assert (span_digits (show z) = (show z, [])) as Hsp.
  { rewrite <-(app_nil_r (show z)) at 1. by apply span_digits_app. }
  pose proof (show_value z ltac:(lia)) as Hv.
  destruct (show z) as [|c ds] eqn:Es; [done|].
  assert (is_digit c = true) as Hc by by apply Forall_cons in Hd as [? ?].
  rewrite strip_id.
  - assert ((code c =? 45)%Z = false ∧ (code c =? 43)%Z = false) as [-> ->].
    { unfold is_digit in Hc. reflect_bools. split; lia. }
    rewrite Hsp, Hv. destruct (Z.leb_spec z (2 ^ 53)); [f_equal; lia|lia].
  - by apply digit_not_ascii_space.
  - destruct ds as [|d ds]; [by apply digit_not_ascii_space|].
    apply Forall_cons in Hd as [_ Hd]. by apply reverse_head_digit.
Qed.

Lemma Number_show_int z : (Z.abs z <= 2 ^ 53)%Z → Number (show_int z) = NInt z.
Proof.
  intros Hz. unfold show_int. destruct (Z.ltb_spec z 0); [|apply Number_show; lia].
  destruct (show_digits (- z) ltac:(lia)) as [Hd Hne]. unfold Number.
  rewrite strip_id; [|done|by apply reverse_head_digit].
  assert (span_digits (show (- z)) = (show (- z), [])) as Hsp.
  { rewrite <-(app_nil_r (show (- z))) at 1. by apply span_digits_app. }
  change (code "-"%char =? 45)%Z with true. cbn [negb]. rewrite Hsp.
  pose proof (show_value (- z) ltac:(lia)) as Hv.
  destruct (show (- z)) as [|c ds]; [done|]. rewrite Hv.
  destruct (Z.leb_spec (- z) (2 ^ 53)); [f_equal; lia|lia].
Qed.

Lemma CR_show_int z : CR ∉ show_int z.
Proof.
  unfold show_int. destruct (Z.ltb_spec z 0); [|by apply not_digit_show].
  apply not_elem_of_cons. split; [done|]. apply not_digit_show; [lia|done].
Qed.

Lemma show_int_nonneg z : (0 <= z)%Z → show z = show_int z.
Proof. intros Hz. unfold show_int. destruct (Z.ltb_spec z 0); [lia|done]. Qed.

Section wire.
Context {T : Type} (utf8_decode : list ascii → T).

Lemma parse_elements_wire l : ∀ rest arr,
  Forall (λ w, ∀ rest, ∃ fuel,
    parse_at utf8_decode fuel (wire_bytes w ++ rest) = Got (wire_value utf8_decode w) rest) l →
  ∃ fuel, parse_elements utf8_decode fuel (Z.of_nat (length l))
            (mjoin (wire_bytes <$> l) ++ rest) arr =
          Got (RArr (arr ++ (wire_value utf8_decode <$> l))) rest.
Proof.
  induction l as [|w l IH]; intros rest arr Hl.
  { exists 1. cbn. by rewrite app_nil_r. }
  apply Forall_cons in Hl as [Hw Hl].
  destruct (Hw (mjoin (wire_bytes <$> l) ++ rest)) as [f1 H1].
  destruct (IH rest (arr ++ [wire_value utf8_decode w]) Hl) as [f2 H2].
  exists (S (f1 + f2)). rewrite parse_elements_S. cbn [length].
  destruct (Z.leb_spec (Z.of_nat (S (length l))) 0); [lia|].
  change (mjoin (wire_bytes <$> w :: l)) with (wire_bytes w ++ mjoin (wire_bytes <$> l)).
  rewrite <-(assoc_L (++)).
  destruct (parse_more_fuel utf8_decode f1 (wire_bytes w ++ mjoin (wire_bytes <$> l) ++ rest)
    (f1 + f2) ltac:(lia)) as [H1' _]. rewrite H1' by (by rewrite H1). rewrite H1.
  replace (Z.of_nat (S (length l)) - 1)%Z with (Z.of_nat (length l)) by lia.
  destruct (parse_more_fuel utf8_decode f2 (mjoin (wire_bytes <$> l) ++ rest) (f1 + f2)
    ltac:(lia)) as [_ H2']. rewrite H2' by (by rewrite H2). rewrite H2.
  by rewrite <-(assoc_L (++)).
Qed.

Lemma parse_at_wire w : ∀ rest, wire_ok w = true →
  ∃ fuel, parse_at utf8_decode fuel (wire_bytes w ++ rest) = Got (wire_value utf8_decode w) rest.
Proof.
  induction w as [line|line|z|bytes| |l IH] using wire_nested_ind; intros rest Hok;
    cbn [wire_ok] in Hok; reflect_bools.
  1, 2: exists 1; cbn; rewrite <-(assoc_L (++)), split_crlf_line by done; done.
  - exists 1. cbn. rewrite <-(assoc_L (++)), split_crlf_line by apply CR_show_int.
    by rewrite Number_show_int.
  - exists 1. cbn [wire_bytes app parse_at]. rewrite show_int_nonneg by lia.
    rewrite <-!(assoc_L (++)), split_crlf_line by apply CR_show_int. cbn.
    rewrite Number_show_int by lia.
    destruct (Z.eqb_spec (Z.of_nat (length bytes)) (-1)); [lia|].
    destruct (Z.ltb_spec (Z.of_nat (length bytes)) 0); [lia|].
    rewrite Nat2Z.id, take_app_length. rewrite length_app. cbn [length].
    destruct (Z.ltb_spec (Z.of_nat (length bytes + S (S (length rest))))
                (Z.of_nat (length bytes) + 2)); [lia|].
    change (CR :: LF :: rest) with ([CR; LF] ++ rest).
    rewrite (assoc_L (++)), drop_app_length' by (rewrite length_app; done). done.
  - exists 1. done.
  - destruct (parse_elements_wire l rest []) as [f Hf].
    { apply Forall_forall. intros w Hw rest'. rewrite Forall_forall in IH.
      apply (IH w Hw). rewrite forallb_forall in H0. apply H0. by apply list_elem_of_In. }
    exists (S f). cbn [wire_bytes app parse_at]. rewrite show_int_nonneg by lia.
    rewrite <-!(assoc_L (++)), split_crlf_line by apply CR_show_int. cbn.
    rewrite Number_show_int by lia.
    destruct (Z.eqb_spec (Z.of_nat (length l)) (-1)); [lia|]. exact Hf.
Qed.

Lemma parse_wire w rest :
  wire_ok w = true → parse utf8_decode (wire_bytes w ++ rest) = Got (wire_value utf8_decode w) rest.
Proof.
  intros Hok. destruct (parse_at_wire w rest Hok) as [f Hf].
  rewrite (parse_at_parse utf8_decode f) by (by rewrite Hf). done.
Qed.

Lemma drain_wires ws rest :
  Forall (λ w, wire_ok w = true) ws →
  drain_all utf8_decode (mjoin (wire_bytes <$> ws) ++ rest) =
    let r := drain_all utf8_decode rest in ((wire_value utf8_decode <$> ws) ++ r.1, r.2).
Proof.
  induction 1 as [|w ws Hw _ IH]; [apply surjective_pairing|].
  change (mjoin (wire_bytes <$> w :: ws)) with (wire_bytes w ++ mjoin (wire_bytes <$> ws)).
  rewrite <-(assoc_L (++)), drain_all_unfold, parse_wire by done. by rewrite IH.
Qed.

Lemma deliver_zip {C} (pending : list C) (replies : list (RespValue (T:=T))) :
  deliver pending replies = (zip pending replies, drop (length replies) pending).
Proof.
  revert pending. induction replies as [|v replies IH]; intros [|c pending]; cbn; try done.
  - rewrite IH. by rewrite drop_nil.
  - by rewrite IH.
Qed.
End wire.

(** ** Properties *)

Section claims.
Context {T : Type} (utf8_encode : T → list ascii) (utf8_decode : list ascii → T).

(** an attempt to parse always ends, within fuel linear in the buffer, a reply costs at
    least three bytes, and bytes that arrive later never change an answer that was given:
    a value stays the value and the rest grows by them. *)
Theorem parse_total (buf : list ascii) (fuel : nat) (H : (enough buf <= fuel)%nat) :
  parse_at utf8_decode fuel buf = parse utf8_decode buf ∧
  parse utf8_decode buf ≠ OutOfFuel ∧
  (∀ v rest, parse utf8_decode buf = Got v rest →
     length rest + 3 <= length buf ∧
     ∀ x, parse utf8_decode (buf ++ x) = Got v (rest ++ x)).
Proof.
  split; [|split; [apply parse_not_out|]].
  - apply (parse_more_fuel utf8_decode (enough buf) buf fuel H), parse_not_out.
  - intros v rest E. split; [by eapply parse_got_shorter|].
    intros x. by rewrite parse_app, E by (by rewrite E).
Qed.

(** the replies and the state of the connection depend on the bytes received, not on
    how the network cut them into chunks. *)
Theorem chunks_do_not_matter (chunks : list (list ascii)) :
  on_chunks utf8_decode [] chunks = on_data utf8_decode [] (mjoin chunks).
Proof. apply (on_chunks_drain utf8_decode chunks []). done. Qed.

(** C40: when a server answers the commands that wait with well-formed replies, in any
    chunks, every waiting command is resolved with the reply of its position, in order; no
    byte is left and a command without reply keeps waiting. *)
Theorem replies_resolve_in_order {C : Type} (pending : list C) (ws : list wire)
    (chunks : list (list ascii))
    (Hok : Forall (λ w, wire_ok w = true) ws)
    (Hc : mjoin chunks = mjoin (wire_bytes <$> ws)) :
  let vs := wire_value utf8_decode <$> ws in
  on_chunks utf8_decode [] chunks = (vs, Waiting []) ∧
  deliver pending vs = (zip pending vs, drop (length ws) pending).
Proof.
  cbv zeta. split.
  - rewrite on_chunks_drain by done. cbn [app]. rewrite Hc.
    rewrite <-(app_nil_r (mjoin _)), drain_wires by done. cbn. by rewrite app_nil_r.
  - by rewrite deliver_zip, length_fmap.
Qed.

(** a command is read back as the array of its arguments, whatever bytes they hold
    (CRLF included) and whatever follows. *)
Theorem command_roundtrip (args : list T) (rest : list ascii)
    (Hutf8 : ∀ t, utf8_decode (utf8_encode t) = t)
    (Hn : (Z.of_nat (length args) <= 2 ^ 53)%Z)
    (Hl : Forall (λ t, (Z.of_nat (length (utf8_encode t)) <= 2 ^ 53)%Z) args) :
  parse utf8_decode (encodeCommand utf8_encode (ArgText <$> args) ++ rest) =
    Got (RArr (RStr <$> args)) rest.
Proof.
  replace (encodeCommand utf8_encode (ArgText <$> args)) with
    (wire_bytes (WArray ((λ t, WBulk (utf8_encode t)) <$> args))).
  - rewrite parse_wire; cbn [wire_value].
    + rewrite <-list_fmap_compose. do 2 f_equal. apply list_fmap_ext. intros i t _.
      cbn. by rewrite Hutf8.
    + cbn [wire_ok]. rewrite length_fmap. apply andb_true_iff. split; [by apply Z.leb_le|].
      apply forallb_forall. intros w Hw. apply list_elem_of_In, list_elem_of_fmap in Hw as (t & -> & Ht).
      rewrite Forall_forall in Hl. by apply Z.leb_le, Hl.
  - unfold encodeCommand. cbn [wire_bytes]. rewrite !length_fmap, <-!list_fmap_compose. done.
Qed.

(** a bulk reply whose length is not a number makes the data handler parse the same
    bytes for ever, whatever came before it on the connection and follows it. *)
Theorem bad_length_never_ends (ws : list wire) (line rest : list ascii)
    (Hok : Forall (λ w, wire_ok w = true) ws) (Hcr : CR ∉ line) (Hn : Number line = NNaN) :
  on_data utf8_decode [] (mjoin (wire_bytes <$> ws) ++ "$"%char :: line ++ CRLF ++ rest) =
    (wire_value utf8_decode <$> ws, Looping).
Proof.
  change (drain_all utf8_decode (mjoin (wire_bytes <$> ws) ++ "$"%char :: line ++ CRLF ++ rest) =
    (wire_value utf8_decode <$> ws, Looping)).
  rewrite drain_wires by done. rewrite drain_all_unfold.
  replace (parse utf8_decode ("$"%char :: line ++ CRLF ++ rest)) with
    (Stuck (RStr (utf8_decode []))); [cbn; by rewrite app_nil_r|].
  pose proof (split_crlf_line line rest Hcr) as E.
  unfold parse, enough. rewrite Nat.add_1_r. cbn in E |- *. by rewrite E, Hn.
Qed.
End claims.

Definition ascii_id (l : list ascii) : list ascii := l.
Definition text (s : string) : list ascii := list_ascii_of_string s.

Lemma parse_total_witness :
  let buf := text "*1" ++ CRLF ++ text "$3" ++ CRLF ++ text "GET" in
  (enough buf <= 40)%nat ∧ parse_at ascii_id 40 buf = parse ascii_id buf.
Proof.
  cbv zeta. assert (enough (text "*1" ++ CRLF ++ text "$3" ++ CRLF ++ text "GET") <= 40) as H
    by (apply Nat.leb_le; vm_compute; exact eq_refl).
  split; [exact H|]. refine (proj1 (parse_total ascii_id _ 40 H)).
Defined.

Lemma replies_resolve_in_order_witness :
  let ws := [WSimple (text "OK"); WArray [WBulk CRLF; WInt (-7); WNil]] in
  on_chunks ascii_id [] [text "+OK"; CRLF ++ text "*3"; CRLF ++ text "$2"; CRLF ++ CRLF;
     CRLF ++ text ":-7" ++ CRLF ++ text "$-1"; CRLF] =
    (wire_value ascii_id <$> ws, Waiting []) ∧
  (deliver [1; 2; 3] (wire_value ascii_id <$> ws)).2 = [3].
Proof.
  cbv zeta. set (ws := [WSimple (text "OK"); WArray [WBulk CRLF; WInt (-7); WNil]]).
  assert (Forall (λ w, wire_ok w = true) ws) as Hok by (by repeat constructor).
  destruct (replies_resolve_in_order ascii_id [1; 2; 3] ws
    [text "+OK"; CRLF ++ text "*3"; CRLF ++ text "$2"; CRLF ++ CRLF;
     CRLF ++ text ":-7" ++ CRLF ++ text "$-1"; CRLF] Hok ltac:(vm_compute; exact eq_refl))
    as [H1 H2].
  split; [exact H1|]. rewrite H2. exact eq_refl.
Defined.

Lemma command_roundtrip_witness :
  parse ascii_id (encodeCommand ascii_id (ArgText <$> [text "SET"; CRLF; []])) =
    Got (RArr [RStr (text "SET"); RStr CRLF; RStr []]) [].
Proof.
  refine (eq_trans _ (command_roundtrip ascii_id ascii_id [text "SET"; CRLF; []] []
    (λ t, eq_refl) _ _)).
  - by rewrite app_nil_r.
  - vm_compute. congruence.
  - repeat (apply Forall_cons_2; [vm_compute; congruence|]). constructor.
Defined.

Lemma bad_length_never_ends_witness :
  on_data ascii_id [] (text "+OK" ++ CRLF ++ text "$abc" ++ CRLF) =
    ([RStr (text "OK")], Looping).
Proof.
  assert (Forall (λ w, wire_ok w = true) [WSimple (text "OK")]) as Hok by (by repeat constructor).
  assert (CR ∉ text "abc") as Hcr by (apply (bool_decide_unpack _); vm_compute; exact I).
  refine (bad_length_never_ends ascii_id [WSimple (text "OK")] (text "abc") [] Hok Hcr _).
  exact eq_refl.
Defined.
