(* ===== verification/Lru.v ===== *)
(** * The LRU cache: a map of entries threaded by a doubly linked list

    Models src/packages/cache/src/lru.ts.  An entry object is named by its key (a key has
    one live entry), so [prev], [next], [head] and [tail] are keys; the map keeps its
    insertion order, which the sweep follows.  The clock is an argument of each
    operation; the sweep timer is the operation [sweepExpired] taken at any time. *)

From S2P Require Import Prelude JsMap.

Open Scope Z_scope.

Section lru.
Context {K V : Type} `{EqDecision K}.

(** ** The structure *)

Record CacheEntry := { value : V; expiresAt : Z; prev : option K; next : option K }.

Record LruCache := {
  entries : list (K * CacheEntry);    (* [map] *)
  head : option K;                    (* most recently used *)
  tail : option K;                    (* least recently used *)
  maxEntries : Z;
  ttlMs : Z
}.

Definition set_prev (p : option K) (e : CacheEntry) : CacheEntry :=
  {| value := value e; expiresAt := expiresAt e; prev := p; next := next e |}.
Definition set_next (n : option K) (e : CacheEntry) : CacheEntry :=
  {| value := value e; expiresAt := expiresAt e; prev := prev e; next := n |}.
Definition set_content (v : V) (t : Z) (e : CacheEntry) : CacheEntry :=
  {| value := v; expiresAt := t; prev := prev e; next := next e |}.

(** Assignment to a field of the entry a reference points to, if there is one. *)
Definition update (o : option K) (f : CacheEntry → CacheEntry)
    (m : list (K * CacheEntry)) : list (K * CacheEntry) :=
  match o with
  | Some k => match jm_get k m with Some e => jm_set k (f e) m | None => m end
  | None => m
  end.

Definition with_list (c : LruCache) (m : list (K * CacheEntry)) (h t : option K) : LruCache :=
  {| entries := m; head := h; tail := t; maxEntries := maxEntries c; ttlMs := ttlMs c |}.

Definition new_cache (maxEntries ttlMs : Z) : option LruCache :=
  if maxEntries <? 1 then None
  else Some {| entries := []; head := None; tail := None;
               maxEntries := maxEntries; ttlMs := ttlMs |}.

(** ** The list operations *)

Definition detach (k : K) (e : CacheEntry) (c : LruCache) : LruCache :=
  let m := update (prev e) (set_next (next e)) (entries c) in
  let h := match prev e with Some _ => head c | None => next e end in
  let m := update (next e) (set_prev (prev e)) m in
  let t := match next e with Some _ => tail c | None => prev e end in
  with_list c (update (Some k) (λ e, set_next None (set_prev None e)) m) h t.

Definition remove (k : K) (e : CacheEntry) (c : LruCache) : LruCache :=
  let c := detach k e c in
  with_list c (jm_delete k (entries c)) (head c) (tail c).

Definition moveToHead (k : K) (e : CacheEntry) (c : LruCache) : LruCache :=
  if decide (head c = Some k) then c
  else
    let c := detach k e c in
    let m := update (Some k) (λ e, set_prev None (set_next (head c) e)) (entries c) in
    let m := update (head c) (set_prev (Some k)) m in
    with_list c m (Some k) (match tail c with Some t => Some t | None => Some k end).

Definition evictTail (c : LruCache) : LruCache :=
  match tail c with
  | Some k => match jm_get k (entries c) with Some e => remove k e c | None => c end
  | None => c
  end.

(** ** The interface *)

Definition get (now : Z) (k : K) (c : LruCache) : option V * LruCache :=
  match jm_get k (entries c) with
  | None => (None, c)
  | Some e =>
      if expiresAt e <? now then (None, remove k e c)
      else (Some (value e), moveToHead k e c)
  end.

Definition has (now : Z) (k : K) (c : LruCache) : bool * LruCache :=
  match jm_get k (entries c) with
  | None => (false, c)
  | Some e => if expiresAt e <? now then (false, remove k e c) else (true, c)
  end.

Definition delete (k : K) (c : LruCache) : bool * LruCache :=
  match jm_get k (entries c) with
  | None => (false, c)
  | Some e => (true, remove k e c)
  end.

Definition size (c : LruCache) : Z := Z.of_nat (length (entries c)).

Definition set (now : Z) (k : K) (v : V) (c : LruCache) : LruCache :=
  match jm_get k (entries c) with
  | Some e =>
      let c := with_list c (update (Some k) (set_content v (now + ttlMs c)) (entries c))
                 (head c) (tail c) in
      moveToHead k (set_content v (now + ttlMs c) e) c
  | None =>
      let e := {| value := v; expiresAt := now + ttlMs c; prev := None; next := head c |} in
      let m := update (head c) (set_prev (Some k)) (jm_set k e (entries c)) in
      let c := with_list c m (Some k)
                 (match tail c with Some t => Some t | None => Some k end) in
      if maxEntries c <? size c then evictTail c else c
  end.

Definition clear (c : LruCache) : LruCache := with_list c [] None None.

Definition sweep_one (now : Z) (c : LruCache) (k : K) : LruCache :=
  match jm_get k (entries c) with
  | Some e => if expiresAt e <? now then remove k e c else c
  | None => c
  end.
Definition sweepExpired (now : Z) (c : LruCache) : LruCache :=
  foldl (sweep_one now) c (jm_keys (entries c)).

(** ** The specification: the entries, most recently used first *)

Abbreviation item := (K * (V * Z))%type.
Implicit Types (l : list item).

Definition find (k : K) l : option (V * Z) := jm_get k l.
Definition drop_key (k : K) l : list item := jm_delete k l.

Definition spec_get (now : Z) (k : K) l : option V * list item :=
  match find k l with
  | None => (None, l)
  | Some (v, t) =>
      if t <? now then (None, drop_key k l) else (Some v, (k, (v, t)) :: drop_key k l)
  end.
Definition spec_has (now : Z) (k : K) l : bool * list item :=
  match find k l with
  | None => (false, l)
  | Some (_, t) => if t <? now then (false, drop_key k l) else (true, l)
  end.
Definition spec_delete (k : K) l : bool * list item :=
  match find k l with None => (false, l) | Some _ => (true, drop_key k l) end.
Definition spec_set (max ttl now : Z) (k : K) (v : V) l : list item :=
  take (Z.to_nat max) ((k, (v, now + ttl)) :: drop_key k l).
Definition spec_sweep (now : Z) l : list item := filter (λ x, now <= x.2.2) l.

(** ** The linked list holds the specification's list *)

Definition first_key l (n : option K) : option K :=
  match l with [] => n | (k, _) :: _ => Some k end.
Fixpoint last_key (p : option K) l : option K :=
  match l with [] => p | (k, _) :: l => last_key (Some k) l end.

(** The nodes of [l] are linked in order, [p] before them and [n] after them. *)
Fixpoint chain (m : list (K * CacheEntry)) (p : option K) l (n : option K) : Prop :=
  match l with
  | [] => True
  | (k, (v, t)) :: l =>
      jm_get k m = Some {| value := v; expiresAt := t; prev := p; next := first_key l n |}
      ∧ chain m (Some k) l n
  end.

Record represents (c : LruCache) l : Prop := {
  r_wf : jm_wf (entries c);
  r_keys : jm_keys (entries c) ≡ₚ jm_keys l;
  r_head : head c = first_key l None;
  r_tail : tail c = last_key None l;
  r_chain : chain (entries c) None l None
}.

(** ** Lemmas on updates and chains *)

Implicit Types (m : list (K * CacheEntry)) (c : LruCache).

Lemma update_keys o f m : jm_keys (update o f m) = jm_keys m.
Proof.
  destruct o as [k|]; [|done]. cbn. destruct (jm_get k m) eqn:E; [|done].
  by eapply jm_keys_set_present.
Qed.

Lemma update_wf o f m : jm_wf m → jm_wf (update o f m).
Proof. unfold jm_wf. by rewrite update_keys. Qed.

Lemma get_update_eq k f m : jm_get k (update (Some k) f m) = f <$> jm_get k m.
Proof. cbn. destruct (jm_get k m) eqn:E; cbn; [by rewrite jm_get_set_eq|done]. Qed.

Lemma get_update_ne k o f m : o ≠ Some k → jm_get k (update o f m) = jm_get k m.
Proof.
  intros Hne. destruct o as [k'|]; [|done]. cbn. destruct (jm_get k' m); [|done].
  apply jm_get_set_ne. congruence.
Qed.

Lemma last_key_in p l k : last_key p l = Some k → k ∈ jm_keys l ∨ (l = [] ∧ p = Some k).
Proof.
  revert p. induction l as [|[k' x] l IH]; intros p H; [by right|].
  left. apply IH in H as [H|[-> [= ->]]]; [by right|left].
Qed.

Lemma last_key_app p l1 l2 : last_key p (l1 ++ l2) = last_key (last_key p l1) l2.
Proof. revert p. induction l1 as [|[k x] l1 IH]; intros p; [done|apply IH]. Qed.

Lemma first_key_app l1 l2 n : first_key (l1 ++ l2) n = first_key l1 (first_key l2 n).
Proof. by destruct l1 as [|[k x] l1]. Qed.

Lemma first_key_in l k : first_key l None = Some k → k ∈ jm_keys l.
Proof. destruct l as [|[k' x] l]; [done|]. intros [= ->]. left. Qed.

Lemma chain_app m p l1 l2 n :
  chain m p (l1 ++ l2) n ↔ chain m p l1 (first_key l2 n) ∧ chain m (last_key p l1) l2 n.
Proof.
  revert p. induction l1 as [|[k [v t]] l1 IH]; intros p; cbn; [tauto|].
  rewrite IH, first_key_app. tauto.
Qed.

Lemma chain_frame m m' p l n :
  (∀ k, k ∈ jm_keys l → jm_get k m' = jm_get k m) → chain m p l n → chain m' p l n.
Proof.
  revert p. induction l as [|[k [v t]] l IH]; intros p Hf; cbn; [done|].
  intros [Hk Hl]. split.
  - rewrite Hf; [done|left].
  - apply IH; [|done]. intros k' Hk'. apply Hf. by right.
Qed.

(** Setting the [next] of the last node, or the [prev] of the first. *)
Lemma chain_relink_end m p l x y :
  NoDup (jm_keys l) → chain m p l x → chain (update (last_key p l) (set_next y) m) p l y.
Proof.
  revert p. induction l as [|[k [v t]] l IH]; intros p Hnd; [done|].
  apply NoDup_cons in Hnd as [Hni Hnd]. intros [Hk Hl]. cbn [chain last_key].
  split; [|by apply IH].
  destruct l as [|[k' x'] l].
  - cbn [last_key]. by rewrite get_update_eq, Hk.
  - rewrite get_update_ne; [exact Hk|]. intros H%last_key_in.
    destruct H as [H|[? _]]; done.
Qed.

Lemma chain_relink_begin m p q l n :
  NoDup (jm_keys l) → chain m p l n → chain (update (first_key l None) (set_prev q) m) q l n.
Proof.
  destruct l as [|[k [v t]] l]; [done|]. intros [Hni Hnd]%NoDup_cons [Hk Hl]. cbn [chain first_key].
  split; [by rewrite get_update_eq, Hk|]. eapply chain_frame; [|exact Hl].
  intros k' Hk'. apply get_update_ne. by intros [= ->].
Qed.

Lemma represents_nodup c l : represents c l → NoDup (jm_keys l).
Proof. intros [Hwf Hk _ _ _]. by rewrite <-Hk. Qed.

Lemma represents_find c l k :
  represents c l →
  (λ e, (value e, expiresAt e)) <$> jm_get k (entries c) = find k l.
Proof.
  intros Hr. destruct Hr as [Hwf Hk _ _ Hc]. unfold find.
  destruct (jm_get k l) as [[v t]|] eqn:E.
  - clear Hk. revert E Hc. generalize (@None K) at 1 as p.
    induction l as [|[k' [v' t']] l IH]; intros p; cbn; [done|].
    case_decide as Hd; [subst; intros [= -> ->] [-> _]; done|].
    intros E [_ Hc]. by eapply IH.
  - apply jm_get_None in E. rewrite <-Hk in E. apply jm_get_None in E. by rewrite E.
Qed.

(** The node of a key of the list, with its neighbours. *)
Lemma represents_split c l k v t :
  represents c l → find k l = Some (v, t) →
  ∃ l1 l2, l = l1 ++ (k, (v, t)) :: l2 ∧ drop_key k l = l1 ++ l2 ∧
    (k ∉ jm_keys l1) ∧ (k ∉ jm_keys l2) ∧
    jm_get k (entries c) = Some {| value := v; expiresAt := t;
                                   prev := last_key None l1; next := first_key l2 None |}.
Proof.
  intros Hr Hf. apply represents_nodup in Hr as Hnd.
  apply jm_get_elem, list_elem_of_split in Hf as (l1 & l2 & ->).
  destruct (jm_wf_middle _ _ _ _ Hnd) as [H1 H2].
  exists l1, l2. split; [done|]. split; [by apply jm_delete_middle|].
  split; [done|]. split; [done|]. destruct Hr as [_ _ _ _ Hc].
  apply chain_app in Hc as [_ [Hc _]]. exact Hc.
Qed.

(** ** The operations on a represented list *)

Lemma detach_spec c l1 k v t l2 e :
  represents c (l1 ++ (k, (v, t)) :: l2) →
  jm_get k (entries c) = Some e →
  let c' := detach k e c in
  jm_keys (entries c') = jm_keys (entries c) ∧
  head c' = first_key (l1 ++ l2) None ∧ tail c' = last_key None (l1 ++ l2) ∧
  chain (entries c') None (l1 ++ l2) None ∧
  jm_get k (entries c') = Some {| value := value e; expiresAt := expiresAt e;
                                  prev := None; next := None |}.
Proof.
  intros Hr He. pose proof (represents_nodup _ _ Hr) as Hnd. destruct Hr as [Hwf Hk Hh Ht Hc].
  destruct (jm_wf_middle _ _ _ _ Hnd) as [H1 H2].
  apply chain_app in Hc as [Hc1 [Hk' Hc2]]. cbn [first_key] in Hc1.
  rewrite He in Hk'. injection Hk' as ->. cbv zeta. unfold detach.
  cbn [entries head tail with_list prev next value expiresAt].
  unfold jm_keys in Hnd. rewrite fmap_app, fmap_cons in Hnd.
  apply NoDup_app in Hnd as (Hn1 & Hd & Hn2). apply NoDup_cons in Hn2 as [_ Hn2].
  assert (∀ k', k' ∈ jm_keys l1 → k' ∉ jm_keys l2) as Hdis.
  { intros k' Hk1 Hk2. apply (Hd k' Hk1). by right. }
  assert (last_key None l1 ≠ Some k) as Hl1 by (by intros [?|[_ ?]]%last_key_in).
  assert (first_key l2 None ≠ Some k) as Hl2 by (by intros ?%first_key_in).
  split; [by rewrite !update_keys|]. split; [|split; [|split]].
  - rewrite Hh, !first_key_app. destruct l1 as [|[k1 x1] l1]; cbn; [done|].
    destruct (last_key (Some k1) l1) eqn:E; [done|]. exfalso.
    clear -E. revert k1 E. induction l1 as [|[k2 x2] l1 IH]; intros k1; cbn; [done|apply IH].
  - rewrite Ht, !last_key_app. destruct l2 as [|[k2 x2] l2]; done.
  - apply chain_app. split.
    + apply chain_frame with (m := update (last_key None l1) (set_next (first_key l2 None)) (entries c)).
      * intros k' Hin. rewrite (get_update_ne _ (Some k)) by (by intros [= ->]).
        apply get_update_ne. intros Hf%first_key_in. by apply (Hdis k').
      * by eapply chain_relink_end.
    + apply chain_frame with (m := update (first_key l2 None) (set_prev (last_key None l1)) (entries c)).
      * intros k' Hin. rewrite get_update_ne by (by intros [= ->]).
        destruct (decide (first_key l2 None = Some k')) as [->|Hne].
        -- rewrite !get_update_eq, get_update_ne; [done|].
           intros [Hf|[_ ?]]%last_key_in; [by apply (Hdis k')|done].
        -- rewrite !get_update_ne; [done|done| |done].
           intros [Hf|[_ ?]]%last_key_in; [by apply (Hdis k')|done].
      * by eapply chain_relink_begin.
  - rewrite get_update_eq, !get_update_ne, He by done. done.
Qed.

Lemma remove_spec c l k v t e :
  represents c l → find k l = Some (v, t) → jm_get k (entries c) = Some e →
  represents (remove k e c) (drop_key k l).
Proof.
  intros Hr Hf He. destruct (represents_split _ _ _ _ _ Hr Hf) as (l1 & l2 & -> & Hd & H1 & H2 & _).
  destruct (detach_spec _ _ _ _ _ _ _ Hr He) as (Hks & Hh & Ht & Hc & Hg).
  rewrite Hd. unfold remove. set (c' := detach k e c) in *. destruct Hr as [Hwf Hk _ _ _].
  assert (jm_wf (entries c')) as Hwf' by (unfold jm_wf; by rewrite Hks).
  split; cbn [entries head tail with_list]; [by apply jm_delete_wf| |done|done|].
  - apply (Permutation_cons_inv (a := k)).
    pose proof (jm_delete_Permutation _ _ _ Hg) as Hp. apply (fmap_Permutation fst) in Hp.
    change (k :: jm_keys (jm_delete k (entries c'))) with
      ((k, {| value := value e; expiresAt := expiresAt e; prev := None; next := None |})
        :: jm_delete k (entries c')).*1.
    rewrite <-Hp. unfold jm_keys in *. rewrite Hks, Hk, fmap_app, fmap_cons, fmap_app. cbn.
    by rewrite Permutation_middle.
  - eapply chain_frame; [|exact Hc]. intros k' Hin. apply jm_get_delete_ne. intros ->.
    unfold jm_keys in Hin. rewrite fmap_app in Hin. by apply elem_of_app in Hin as [?|?].
Qed.

(** The entry of [k] is a node of the list with any content. *)
Lemma moveToHead_spec c l1 k v t l2 e :
  represents c (l1 ++ (k, (v, t)) :: l2) → jm_get k (entries c) = Some e →
  represents (moveToHead k e c) ((k, (v, t)) :: l1 ++ l2).
Proof.
  intros Hr He. pose proof (represents_nodup _ _ Hr) as Hnd.
  destruct (jm_wf_middle _ _ _ _ Hnd) as [H1 H2]. unfold moveToHead. case_decide as Hd.
  - rewrite (r_head _ _ Hr) in Hd. destruct l1 as [|[k1 x1] l1]; [done|].
    cbn in Hd. injection Hd as ->. destruct H1. left.
  - destruct (detach_spec _ _ _ _ _ _ _ Hr He) as (Hks & Hh & Ht & Hc & Hg).
    assert (value e = v ∧ expiresAt e = t) as [<- <-].
    { pose proof (represents_find _ _ k Hr) as Hf. rewrite He in Hf. cbn in Hf.
      unfold find in Hf. rewrite jm_get_middle in Hf by done. by simplify_eq. }
    set (c' := detach k e c) in *. set (l := l1 ++ l2) in *.
    assert (k ∉ jm_keys l) as Hni.
    { unfold jm_keys, l. rewrite fmap_app. by intros [?|?]%elem_of_app. }
    assert (NoDup (jm_keys l)) as Hndl.
    { eapply sublist_NoDup; [exact Hnd|]. apply fmap_sublist. unfold l.
      by apply sublist_app, sublist_cons. }
    destruct Hr as [Hwf Hk _ _ _].
    split; cbn [entries head tail with_list].
    + apply update_wf, update_wf. unfold jm_wf. by rewrite Hks.
    + rewrite !update_keys, Hks, Hk. unfold jm_keys, l. rewrite fmap_cons, !fmap_app, fmap_cons.
      cbn. by rewrite Permutation_middle.
    + done.
    + rewrite Ht. cbn [last_key]. clear. destruct l as [|[k1 x1] l]; [done|].
      cbn. revert k1. induction l as [|[k2 x2] l IH]; intros k1; cbn; [done|apply IH].
    + cbn [chain]. rewrite Hh. split.
      * rewrite get_update_ne; [|by intros ?%first_key_in]. by rewrite get_update_eq, Hg.
      * eapply chain_relink_begin; [done|]. eapply chain_frame; [|exact Hc].
        intros k' Hin. apply get_update_ne. by intros [= ->].
Qed.

Lemma drop_key_filter k l : NoDup (jm_keys l) → drop_key k l = filter (λ x, x.1 ≠ k) l.
Proof.
  unfold drop_key. induction l as [|[k' x] l IH]; [done|]. intros [Hni Hnd]%NoDup_cons.
  rewrite filter_cons. cbn [jm_delete fst]. destruct (decide (k = k')) as [->|Hne].
  - rewrite decide_False by naive_solver. symmetry. apply filter_all, Forall_forall.
    intros [k2 x2] Hin; cbn; intros ->. apply Hni.
    apply list_elem_of_fmap. by exists (k', x2).
  - rewrite decide_True by (cbn; congruence). by rewrite IH.
Qed.

Lemma represents_absent c l k :
  represents c l → jm_get k (entries c) = None ↔ find k l = None.
Proof.
  intros Hr. pose proof (represents_find _ _ k Hr) as Hf.
  destruct (jm_get k (entries c)); cbn in Hf; by rewrite <-Hf.
Qed.

Lemma represents_size c l : represents c l → size c = Z.of_nat (length l).
Proof.
  intros Hr. unfold size. pose proof (Permutation_length (r_keys _ _ Hr)) as H.
  unfold jm_keys in H. rewrite !length_fmap in H. by rewrite H.
Qed.

Lemma represents_entry c l k e :
  represents c l → jm_get k (entries c) = Some e → find k l = Some (value e, expiresAt e).
Proof. intros Hr He. by rewrite <-(represents_find _ _ k Hr), He. Qed.

Lemma move_entry_spec c l k e :
  represents c l → jm_get k (entries c) = Some e →
  represents (moveToHead k e c) ((k, (value e, expiresAt e)) :: drop_key k l).
Proof.
  intros Hr He. pose proof (represents_entry _ _ _ _ Hr He) as Hf.
  destruct (represents_split _ _ _ _ _ Hr Hf) as (l1 & l2 & -> & -> & _).
  by apply moveToHead_spec.
Qed.

Lemma get_spec now k c l :
  represents c l →
  (get now k c).1 = (spec_get now k l).1 ∧ represents (get now k c).2 (spec_get now k l).2.
Proof.
  intros Hr. unfold get, spec_get. destruct (jm_get k (entries c)) as [e|] eqn:He.
  - rewrite (represents_entry _ _ _ _ Hr He). case_match; cbn; split; try done.
    + exact (remove_spec _ _ _ _ _ _ Hr (represents_entry _ _ _ _ Hr He) He).
    + by apply move_entry_spec.
  - apply (represents_absent _ _ k Hr) in He. by rewrite He.
Qed.

Lemma has_spec now k c l :
  represents c l →
  (has now k c).1 = (spec_has now k l).1 ∧ represents (has now k c).2 (spec_has now k l).2.
Proof.
  intros Hr. unfold has, spec_has. destruct (jm_get k (entries c)) as [e|] eqn:He.
  - rewrite (represents_entry _ _ _ _ Hr He). case_match; cbn; split; try done.
    exact (remove_spec _ _ _ _ _ _ Hr (represents_entry _ _ _ _ Hr He) He).
  - apply (represents_absent _ _ k Hr) in He. by rewrite He.
Qed.

Lemma delete_spec k c l :
  represents c l →
  (delete k c).1 = (spec_delete k l).1 ∧ represents (delete k c).2 (spec_delete k l).2.
Proof.
  intros Hr. unfold delete, spec_delete. destruct (jm_get k (entries c)) as [e|] eqn:He.
  - rewrite (represents_entry _ _ _ _ Hr He). cbn; split; [done|].
    exact (remove_spec _ _ _ _ _ _ Hr (represents_entry _ _ _ _ Hr He) He).
  - apply (represents_absent _ _ k Hr) in He. by rewrite He.
Qed.

Lemma sweep_spec now c l :
  represents c l → represents (sweepExpired now c) (spec_sweep now l).
Proof.
  intros Hr. unfold sweepExpired, spec_sweep.
  assert (∀ ks c l, represents c l → represents (foldl (sweep_one now) c ks)
            (filter (λ x : item, now <= x.2.2 ∨ x.1 ∉ ks) l)) as H.
  { clear. induction ks as [|k ks IH]; intros c l Hr; cbn [foldl].
    { rewrite filter_all; [done|]. apply Forall_forall. intros x _. right.
      apply not_elem_of_nil. }
    unfold sweep_one at 2. pose proof (represents_nodup _ _ Hr) as Hnd.
    destruct (jm_get k (entries c)) as [e|] eqn:He.
    - pose proof (represents_entry _ _ _ _ Hr He) as Hf.
      assert (∀ x, x ∈ l → x.1 = k → x.2.2 = expiresAt e) as Hx.
      { intros [k' [v t]] Hin; cbn; intros ->. apply (jm_elem_get _ _ _ Hnd) in Hin.
        unfold find in Hf. cbn in Hin. rewrite Hin in Hf. by simplify_eq. }
      destruct (Z.ltb_spec (expiresAt e) now).
      + eapply eq_rect; [apply IH, (remove_spec _ _ _ _ _ _ Hr Hf He)|].
        rewrite drop_key_filter, list_filter_filter by done. apply filter_iff_in.
        intros x Hin. specialize (Hx x Hin). rewrite not_elem_of_cons.
        destruct (decide (x.1 = k)); [|tauto]. specialize (Hx ltac:(done)).
        split; [tauto|]. intros [?|[? ?]]; [lia|done].
      + eapply eq_rect; [apply IH, Hr|]. apply filter_iff_in.
        intros x Hin. specialize (Hx x Hin). rewrite not_elem_of_cons.
        destruct (decide (x.1 = k)); [|tauto]. specialize (Hx ltac:(done)). lia.
    - eapply eq_rect; [apply IH, Hr|]. apply filter_iff_in.
      intros x Hin. rewrite not_elem_of_cons.
      apply (represents_absent _ _ k Hr), jm_get_None in He.
      assert (x.1 ≠ k); [|tauto]. intros <-. apply He, list_elem_of_fmap. by exists x. }
  eapply eq_rect; [by apply H|]. apply filter_iff_in. intros x Hin.
  rewrite (r_keys _ _ Hr). split; [|tauto]. intros [?|Hni]; [done|].
  destruct Hni. apply list_elem_of_fmap. by exists x.
Qed.

Lemma evictTail_spec c l x :
  represents c (l ++ [x]) → represents (evictTail c) l.
Proof.
  intros Hr. destruct x as [k [v t]]. unfold evictTail.
  rewrite (r_tail _ _ Hr), last_key_app. cbn [last_key].
  pose proof (represents_nodup _ _ Hr) as Hnd. destruct (jm_wf_middle _ _ _ _ Hnd) as [H1 _].
  assert (find k (l ++ [(k, (v, t))]) = Some (v, t)) as Hf by by apply jm_get_middle.
  destruct (represents_split _ _ _ _ _ Hr Hf) as (? & ? & _ & _ & _ & _ & He). rewrite He.
  pose proof (remove_spec _ _ _ _ _ _ Hr Hf He) as H. unfold drop_key in H.
  by rewrite jm_delete_middle, app_nil_r in H.
Qed.

Lemma represents_push c l k v t :
  represents c l → find k l = None →
  represents
    (with_list c (update (head c) (set_prev (Some k))
                    (jm_set k {| value := v; expiresAt := t; prev := None; next := head c |}
                       (entries c)))
       (Some k) (match tail c with Some t => Some t | None => Some k end))
    ((k, (v, t)) :: l).
Proof.
  intros Hr Hf. pose proof (represents_nodup _ _ Hr) as Hnd.
  pose proof (proj2 (represents_absent _ _ k Hr) Hf) as Hg.
  apply jm_get_None in Hf. destruct Hr as [Hwf Hk Hh Ht Hc].
  assert (head c ≠ Some k) as Hhk by (rewrite Hh; by intros ?%first_key_in).
  split; cbn [entries head tail with_list].
  - by apply update_wf, jm_set_wf.
  - rewrite update_keys, jm_keys_set. unfold jm_has. rewrite Hg, Hk.
    by rewrite Permutation_app_comm.
  - done.
  - rewrite Ht. cbn [last_key]. clear. destruct l as [|[k1 x1] l]; [done|].
    cbn. revert k1. induction l as [|[k2 x2] l IH]; intros k1; cbn; [done|apply IH].
  - cbn [chain]. split; [by rewrite get_update_ne, jm_get_set_eq, Hh by done|].
    rewrite Hh. eapply chain_relink_begin; [done|]. eapply chain_frame; [|exact Hc].
    intros k' Hin. apply jm_get_set_ne. by intros ->.
Qed.

Lemma set_spec now k v c l :
  represents c l → Z.of_nat (length l) <= maxEntries c →
  represents (set now k v c) (spec_set (maxEntries c) (ttlMs c) now k v l).
Proof.
  intros Hr Hmax. unfold set, spec_set. destruct (jm_get k (entries c)) as [e|] eqn:He.
  - pose proof (represents_entry _ _ _ _ Hr He) as Hf.
    destruct (represents_split _ _ _ _ _ Hr Hf) as (l1 & l2 & -> & Hd & H1 & H2 & He').
    rewrite Hd. rewrite take_ge by (rewrite length_app in *; cbn [length] in *;
      rewrite length_app; lia).
    apply (moveToHead_spec _ l1 k v (now + ttlMs c) l2).
    + destruct Hr as [Hwf Hk Hh Ht Hc]. apply chain_app in Hc as (Hc1 & Hc & Hc2).
      assert (∀ l, k ∉ jm_keys l → ∀ k', k' ∈ jm_keys l →
        jm_get k' (update (Some k) (set_content v (now + ttlMs c)) (entries c)) =
        jm_get k' (entries c)) as Hfr.
      { intros l Hni k' Hin. apply get_update_ne. by intros [= ->]. }
      split; cbn [entries head tail with_list].
      * by apply update_wf.
      * rewrite update_keys, Hk. unfold jm_keys. by rewrite !fmap_app, !fmap_cons.
      * rewrite Hh, !first_key_app. done.
      * rewrite Ht, !last_key_app. done.
      * apply chain_app. split; [by eapply chain_frame; [apply Hfr|exact Hc1]|].
        cbn [chain]. split; [by rewrite get_update_eq, Hc|].
        by eapply chain_frame; [apply Hfr|exact Hc2].
    + cbn [entries with_list]. by rewrite get_update_eq, He.
  - pose proof (proj1 (represents_absent _ _ k Hr) He) as Hf.
    rewrite (jm_delete_None k l Hf : drop_key k l = l).
    pose proof (represents_push c l k v (now + ttlMs c) Hr Hf) as Hp.
    pose proof (represents_size _ _ Hp) as Hs. cbn [length] in Hs.
    set (c' := with_list _ _ _ _) in *. cbv zeta. fold c'.
    change (maxEntries c') with (maxEntries c).
    destruct (Z.ltb_spec (maxEntries c) (size c')) as [Hlt|Hge].
    + destruct (list_snoc_inv ((k, (v, now + ttlMs c)) :: l)) as [?|(l' & x & Hl)]; [done|].
      rewrite Hl in Hp |- *. apply evictTail_spec in Hp.
      assert (length l' = Z.to_nat (maxEntries c)) as <-.
      { apply (f_equal length) in Hl. rewrite length_app in Hl. cbn [length] in Hl. lia. }
      by rewrite take_app_length.
    + rewrite take_ge by (cbn [length]; lia). exact Hp.
Qed.

(** ** Runs *)

Inductive op : Type :=
| OGet (k : K) | OHas (k : K) | OSet (k : K) (v : V) | ODelete (k : K)
| OSize | OSweep | OClear.
Inductive out : Type :=
| OutValue (o : option V) | OutBool (b : bool) | OutSize (n : Z) | OutUnit.

Definition step (now : Z) (o : op) (c : LruCache) : out * LruCache :=
  match o with
  | OGet k => let r := get now k c in (OutValue r.1, r.2)
  | OHas k => let r := has now k c in (OutBool r.1, r.2)
  | OSet k v => (OutUnit, set now k v c)
  | ODelete k => let r := delete k c in (OutBool r.1, r.2)
  | OSize => (OutSize (size c), c)
  | OSweep => (OutUnit, sweepExpired now c)
  | OClear => (OutUnit, clear c)
  end.

Definition spec_step (max ttl now : Z) (o : op) (l : list item) : out * list item :=
  match o with
  | OGet k => let r := spec_get now k l in (OutValue r.1, r.2)
  | OHas k => let r := spec_has now k l in (OutBool r.1, r.2)
  | OSet k v => (OutUnit, spec_set max ttl now k v l)
  | ODelete k => let r := spec_delete k l in (OutBool r.1, r.2)
  | OSize => (OutSize (Z.of_nat (length l)), l)
  | OSweep => (OutUnit, spec_sweep now l)
  | OClear => (OutUnit, [])
  end.

Fixpoint run (h : list (Z * op)) (c : LruCache) : list out * LruCache :=
  match h with
  | [] => ([], c)
  | (now, o) :: h => let r := step now o c in let s := run h r.2 in (r.1 :: s.1, s.2)
  end.
Fixpoint spec_run (max ttl : Z) (h : list (Z * op)) (l : list item) : list out * list item :=
  match h with
  | [] => ([], l)
  | (now, o) :: h =>
      let r := spec_step max ttl now o l in let s := spec_run max ttl h r.2 in (r.1 :: s.1, s.2)
  end.

Record holds (max ttl : Z) (c : LruCache) (l : list item) : Prop := {
  h_rep : represents c l;
  h_max : maxEntries c = max;
  h_ttl : ttlMs c = ttl;
  h_size : Z.of_nat (length l) <= max
}.

(** [maxEntries] and [ttlMs] never change. *)
Definition same_limits (c c' : LruCache) : Prop :=
  maxEntries c' = maxEntries c ∧ ttlMs c' = ttlMs c.

Lemma sweep_limits now c : same_limits c (sweepExpired now c).
Proof.
  unfold sweepExpired. generalize (jm_keys (entries c)). intros ks. revert c.
  induction ks as [|k ks IH]; intros c; [done|]. cbn [foldl].
  destruct (IH (sweep_one now c k)) as [H1 H2].
  split; [rewrite H1|rewrite H2]; unfold sweep_one; repeat case_match; done.
Qed.

Lemma step_limits now o c : same_limits c (step now o c).2.
Proof.
  destruct o; cbn [step snd fst]; try done; try apply sweep_limits;
    unfold get, has, delete, set, evictTail, moveToHead; repeat case_match; done.
Qed.

Lemma drop_key_length k (l : list item) : (length (drop_key k l) <= length l)%nat.
Proof. induction l as [|[k' x] l IH]; cbn; [done|]. case_decide; cbn; unfold drop_key in *; lia. Qed.

Lemma drop_key_found k (l : list item) x :
  find k l = Some x → S (length (drop_key k l)) = length l.
Proof.
  intros Hf. pose proof (jm_delete_Permutation _ _ _ Hf) as H.
  by apply Permutation_length in H.
Qed.

Lemma step_holds max ttl now o c l :
  holds max ttl c l →
  (step now o c).1 = (spec_step max ttl now o l).1 ∧
  holds max ttl (step now o c).2 (spec_step max ttl now o l).2.
Proof.
  intros [Hr <- <- Hs]. destruct (step_limits now o c) as [Hm Ht].
  assert (∀ l', Z.of_nat (length l') <= maxEntries c → represents (step now o c).2 l' →
    holds (maxEntries c) (ttlMs c) (step now o c).2 l') as Hmk by (intros; by split).
  destruct o as [k|k|k v|k| | |]; cbn [step spec_step fst snd] in *.
  - destruct (get_spec now k c l Hr) as [-> Hr']. split; [done|]. apply Hmk; [|done].
    unfold spec_get. destruct (find k l) as [[v t]|] eqn:E; [|done].
    pose proof (drop_key_found _ _ _ E). case_match; cbn [snd length]; lia.
  - destruct (has_spec now k c l Hr) as [-> Hr']. split; [done|]. apply Hmk; [|done].
    unfold spec_has. pose proof (drop_key_length k l). repeat case_match; cbn [snd]; lia.
  - split; [done|]. apply Hmk; [|by apply set_spec]. unfold spec_set. rewrite length_take. lia.
  - destruct (delete_spec k c l Hr) as [-> Hr']. split; [done|]. apply Hmk; [|done].
    unfold spec_delete. pose proof (drop_key_length k l). case_match; cbn [snd]; lia.
  - by rewrite (represents_size _ _ Hr).
  - split; [done|]. apply Hmk; [|by apply sweep_spec].
    unfold spec_sweep. pose proof (length_filter (λ x : item, now <= x.2.2) l). lia.
  - split; [done|]. apply Hmk; [cbn; lia|]. by split; cbn; try constructor.
Qed.

Lemma run_holds max ttl h : ∀ c l,
  holds max ttl c l →
  (run h c).1 = (spec_run max ttl h l).1 ∧ holds max ttl (run h c).2 (spec_run max ttl h l).2.
Proof.
  induction h as [|[now o] h IH]; intros c l Hh; [done|]. cbn [run spec_run fst snd].
  destruct (step_holds max ttl now o c l Hh) as [-> Hh'].
  by destruct (IH _ _ Hh') as [-> ?].
Qed.

Lemma new_cache_holds max ttl c : new_cache max ttl = Some c → holds max ttl c [].
Proof.
  unfold new_cache. destruct (Z.ltb_spec max 1); [done|]. intros [= <-].
  split; cbn; [|done|done|lia]. by split; cbn; try constructor.
Qed.

Lemma run_app h1 h2 c : (run (h1 ++ h2) c).2 = (run h2 (run h1 c).2).2.
Proof. revert c. induction h1 as [|[now o] h1 IH]; intros c; [done|apply IH]. Qed.

(** ** Recently used keys survive *)

(** What may happen to the cache while [k] keeps its value: nothing removes it, nothing is
    done after it expires, and other keys come to the front only from [ks]. *)
Definition spares (k : K) (ks : list K) (until : Z) (x : Z * op) : Prop :=
  x.1 <= until ∧
  match x.2 with
  | OSet k' _ => k' ≠ k ∧ k' ∈ ks
  | OGet k' => k' ≠ k → k' ∈ ks
  | ODelete k' => k' ≠ k
  | OClear => False
  | _ => True
  end.

(** [k] is in the list, behind keys of [ks] only. *)
Definition ahead (k : K) (ks : list K) (x : V * Z) (l : list item) : Prop :=
  ∃ l1 l2, l = l1 ++ (k, x) :: l2 ∧ ∀ k', k' ∈ jm_keys l1 → k' ∈ ks ∧ k' ≠ k.

Lemma ahead_filter k ks x l (P : item → Prop) `{!∀ y, Decision (P y)} :
  ahead k ks x l → P (k, x) → ahead k ks x (filter P l).
Proof.
  intros (l1 & l2 & -> & Hk) HP. exists (filter P l1), (filter P l2). split.
  - by rewrite filter_app, filter_cons_True.
  - intros k' Hin. apply Hk. unfold jm_keys in *. apply list_elem_of_fmap in Hin as (y & -> & Hy).
    apply list_elem_of_filter in Hy as [_ Hy]. apply list_elem_of_fmap. by exists y.
Qed.

Lemma ahead_push k ks x l k' y :
  ahead k ks x l → k' ∈ ks → k' ≠ k → ahead k ks x ((k', y) :: l).
Proof.
  intros (l1 & l2 & -> & Hk) Hin Hne. exists ((k', y) :: l1), l2. split; [done|].
  intros k2 [->|H]%elem_of_cons; [done|by apply Hk].
Qed.

Lemma ahead_take k ks x l n :
  ahead k ks x l → NoDup (jm_keys l) → (length ks < n)%nat → ahead k ks x (take n l).
Proof.
  intros (l1 & l2 & -> & Hk) Hnd Hn.
  assert (length l1 <= length ks)%nat.
  { rewrite <-(length_fmap fst l1). apply submseteq_length, NoDup_submseteq.
    - unfold jm_keys in Hnd. rewrite fmap_app in Hnd. by apply NoDup_app in Hnd as [? _].
    - intros k' Hin. by apply Hk. }
  exists l1, (take (n - S (length l1)) l2). split; [|done].
  rewrite take_app_ge by lia. f_equal. by replace (n - length l1)%nat with (S (n - S (length l1))) by lia.
Qed.

Lemma step_ahead max ttl k ks v t now o l :
  NoDup (jm_keys l) → Z.of_nat (length ks) < max → spares k ks t (now, o) →
  ahead k ks (v, t) l → ahead k ks (v, t) (spec_step max ttl now o l).2.
Proof.
  intros Hnd Hlen [Ht Ho] Ha. cbn [fst snd] in *.
  assert (find k l = Some (v, t)) as Hfk.
  { destruct Ha as (l1 & l2 & -> & Hk). apply jm_get_middle. intros Hin. by apply Hk in Hin as [_ ?]. }
  assert (∀ k', k' ≠ k → ahead k ks (v, t) (drop_key k' l)) as Hdrop.
  { intros k' Hne. rewrite drop_key_filter by done. apply ahead_filter; [done|]. cbn. congruence. }
  destruct o as [k'|k'|k' v'|k'| | |]; cbn [spec_step snd]; try done.
  - unfold spec_get. destruct (decide (k' = k)) as [->|Hne].
    + rewrite Hfk. destruct (Z.ltb_spec t now); [lia|]. cbn. exists [], (drop_key k l).
      split; [done|]. by intros ? ?%not_elem_of_nil.
    + destruct (find k' l) as [[v' t']|]; [|done]. case_match; cbn; [by apply Hdrop|].
      apply ahead_push; [by apply Hdrop|by apply Ho|done].
  - unfold spec_has. destruct (decide (k' = k)) as [->|Hne].
    + rewrite Hfk. destruct (Z.ltb_spec t now); [lia|done].
    + destruct (find k' l) as [[v' t']|]; [|done]. case_match; cbn; [by apply Hdrop|done].
  - destruct Ho as [Hne Hin]. unfold spec_set. apply ahead_take; [|cbn|lia].
    + apply ahead_push; [by apply Hdrop|done|done].
    + apply NoDup_cons. unfold drop_key. split; [by apply jm_get_None, jm_get_delete_eq|].
      by apply jm_delete_wf.
  - unfold spec_delete. case_match; [by apply Hdrop|done].
  - apply ahead_filter; [done|]. cbn. lia.
Qed.

Lemma run_ahead max ttl k ks v t h : ∀ c l,
  holds max ttl c l → Z.of_nat (length ks) < max → Forall (spares k ks t) h →
  ahead k ks (v, t) l → ahead k ks (v, t) (spec_run max ttl h l).2.
Proof.
  induction h as [|[now o] h IH]; intros c l Hh Hlen Hsp Ha; [done|].
  apply Forall_cons in Hsp as [Ho Hsp]. cbn [spec_run fst snd].
  apply (IH (step now o c).2); [by apply step_holds|done|done|].
  apply step_ahead; [by eapply represents_nodup, h_rep|done|done|done].
Qed.

(** ** Properties *)

(** C13: over every sequence of operations the map with its linked list answers as a plain
    list of entries does, most recently used first; it stays linked as that list and never
    holds more than [maxEntries] entries. *)
Theorem lru_refines_recency_list (max ttl : Z) (c : LruCache) (h : list (Z * op))
    (Hc : new_cache max ttl = Some c) :
  (run h c).1 = (spec_run max ttl h []).1 ∧
  represents (run h c).2 (spec_run max ttl h []).2 ∧ size (run h c).2 <= max.
Proof.
  destruct (run_holds max ttl h c [] (new_cache_holds _ _ _ Hc)) as [Ho [Hr _ _ Hs]].
  split; [done|]. split; [done|]. by rewrite (represents_size _ _ Hr).
Qed.

(** after any history, a value that is set can be read back as long as it has not
    expired or been removed and fewer than [maxEntries] other keys have come to the front
    since: eviction only takes the least recently used. *)
Theorem lru_keeps_recent (max ttl : Z) (c : LruCache) (h h' : list (Z * op))
    (t0 t1 : Z) (k : K) (v : V) (ks : list K)
    (Hc : new_cache max ttl = Some c)
    (Hks : Z.of_nat (length ks) < max)
    (Hsp : Forall (spares k ks (t0 + ttl)) h') (Ht : t1 <= t0 + ttl) :
  (get t1 k (run (h ++ (t0, OSet k v) :: h') c).2).1 = Some v.
Proof.
  pose proof (proj2 (run_holds max ttl h c [] (new_cache_holds _ _ _ Hc))) as Hh.
  rewrite run_app. cbn [run fst snd]. set (c1 := (run h c).2) in *.
  set (l1 := (spec_run max ttl h []).2) in *.
  pose proof (proj2 (step_holds max ttl t0 (OSet k v) c1 l1 Hh)) as Hh1.
  assert (ahead k ks (v, t0 + ttl) (spec_step max ttl t0 (OSet k v) l1).2) as Ha.
  { cbn [spec_step snd]. unfold spec_set.
    destruct (Z.to_nat max) as [|n] eqn:En; [lia|]. cbn [take].
    exists [], (take n (drop_key k l1)). split; [done|]. by intros ? ?%not_elem_of_nil. }
  pose proof (run_ahead _ _ k ks v (t0 + ttl) h' _ _ Hh1 Hks Hsp Ha) as (la & lb & Hl & Hk).
  destruct (run_holds _ _ h' _ _ Hh1) as [_ [Hr _ _ _]].
  rewrite (proj1 (get_spec t1 k _ _ Hr)). unfold spec_get, find.
  rewrite Hl, jm_get_middle; [|intros Hin; by apply Hk in Hin as [_ ?]].
  destruct (Z.ltb_spec (t0 + ttl) t1); [lia|done].
Qed.
End lru.

Definition sample_cache : LruCache (K:=Z) (V:=Z) :=
  {| entries := []; head := None; tail := None; maxEntries := 2; ttlMs := 10 |}.

Lemma lru_refines_recency_list_witness :
  let h := [(0, OSet 1 11); (1, OSet 2 22); (2, OGet 1); (3, OSet 3 33); (4, OGet 2);
            (5, OGet 1); (20, OSize); (21, OSweep); (22, OSize)] in
  (run h sample_cache).1 =
    [OutUnit; OutUnit; OutValue (Some 11); OutUnit; OutValue None; OutValue (Some 11);
     OutSize 2; OutUnit; OutSize 0].
Proof.
  cbv zeta.
  refine (eq_trans (proj1 (lru_refines_recency_list 2 10 sample_cache _ eq_refl)) _).
  vm_compute. exact eq_refl.
Defined.

Lemma lru_keeps_recent_witness :
  (get 9 1 (run ([(0, OSet 5 55); (0, OSet 6 66)] ++ (1, OSet 1 11) ::
     [(2, OSet 7 77); (3, OSet 7 78); (4, OHas 1)]) sample_cache).2).1 = Some 11.
Proof.
  refine (lru_keeps_recent 2 10 sample_cache _ _ 1 9 1 11 [7] eq_refl _ _ _).
  - done.
  - assert (7 ∈ [7]) as Hin by left.
    repeat (apply Forall_cons_2; [split; [cbn; lia|cbn; try done]|]); constructor.
  - lia.
Defined.
