(* ===== verification/Pool.v ===== *)
(** * The PostgreSQL connection pool

    Models src/packages/pool/src/pool.ts as a transition system: an event is one stretch of
    code that runs without interruption (a call up to its first await, a continuation, a
    timer), and the asynchronous work in between is a list of tasks.  Callers and
    connections are numbers, a new connection gets the next one.  What [isClosed] and
    [isReady] say of a connection is an argument of each event, since connections die on
    their own.  The wire protocol, the error texts of a failed connect and the
    [pool:exhausted] listeners are not modelled. *)

From Stdlib Require Import String.
From S2P Require Import Prelude.

Open Scope Z_scope.

(** ** State *)

Record PooledConnection := { conn : nat; lastUsed : Z; inUse : bool }.

(** Who waits for a connection that is being made. *)
Inductive purpose : Type :=
| ForCaller (caller : nat)       (* [_doAcquire] *)
| ForReplacement                 (* [_maybeCreateReplacement] *)
| ForWarmup (warmup : nat).      (* [initialize] *)

Inductive task : Type :=
| Connecting (p : purpose)             (* [PgConnection.connect] is awaited *)
| Connected (p : purpose) (c : nat)    (* pushed; what awaits [_createConnection] is next *)
| Finishing                            (* the [finally] of [_maybeCreateReplacement] *)
| Resuming (caller : nat)              (* an [acquire] whose warm-up has ended *)
| Closing.                             (* the connections are being closed *)

Inductive pool_error : Type :=
| PoolClosed | QueueFull | AcquireTimeout | ConnectFailed.

(** One call of [initialize]: the connections still to come and the callers that wait for
    it through [ensureInitialized]. *)
Record warmup := { w_left : nat; w_callers : list nat }.

Record options := {
  minConnections : nat;
  maxConnections : nat;
  idleTimeoutMs : Z
}.

Record PgPool := {
  connections : list PooledConnection;
  waitQueue : list nat;
  pendingCreations : Z;
  closed : bool;
  initialized : bool;
  initPromise : option nat;          (* the warm-up it stands for *)
  warmups : list (option warmup);    (* by number; [None] once settled *)
  tasks : list task;
  nextConn : nat;
  held : list (nat * nat);           (* caller and connection, not released yet *)
  answers : list (nat * result pool_error nat)    (* how the calls of [acquire] ended *)
}.

Record health := { isClosed : nat → bool; isReady : nat → bool }.

Definition MAX_WAIT : nat := 100.

Definition set_connections (l : list PooledConnection) (s : PgPool) : PgPool :=
  {| connections := l; waitQueue := waitQueue s; pendingCreations := pendingCreations s;
     closed := closed s; initialized := initialized s; initPromise := initPromise s;
     warmups := warmups s; tasks := tasks s; nextConn := nextConn s; held := held s;
     answers := answers s |}.
Definition set_waitQueue (l : list nat) (s : PgPool) : PgPool :=
  {| connections := connections s; waitQueue := l; pendingCreations := pendingCreations s;
     closed := closed s; initialized := initialized s; initPromise := initPromise s;
     warmups := warmups s; tasks := tasks s; nextConn := nextConn s; held := held s;
     answers := answers s |}.
Definition add_pending (n : Z) (s : PgPool) : PgPool :=
  {| connections := connections s; waitQueue := waitQueue s;
     pendingCreations := pendingCreations s + n;
     closed := closed s; initialized := initialized s; initPromise := initPromise s;
     warmups := warmups s; tasks := tasks s; nextConn := nextConn s; held := held s;
     answers := answers s |}.
Definition set_closed (s : PgPool) : PgPool :=
  {| connections := connections s; waitQueue := waitQueue s;
     pendingCreations := pendingCreations s; closed := true; initialized := initialized s;
     initPromise := initPromise s; warmups := warmups s; tasks := tasks s;
     nextConn := nextConn s; held := held s; answers := answers s |}.
Definition set_warm (i : bool) (p : option nat) (w : list (option warmup)) (s : PgPool) :
    PgPool :=
  {| connections := connections s; waitQueue := waitQueue s;
     pendingCreations := pendingCreations s; closed := closed s; initialized := i;
     initPromise := p; warmups := w; tasks := tasks s; nextConn := nextConn s;
     held := held s; answers := answers s |}.
Definition set_tasks (l : list task) (s : PgPool) : PgPool :=
  {| connections := connections s; waitQueue := waitQueue s;
     pendingCreations := pendingCreations s; closed := closed s; initialized := initialized s;
     initPromise := initPromise s; warmups := warmups s; tasks := l;
     nextConn := nextConn s; held := held s; answers := answers s |}.
Definition push_connection (now : Z) (s : PgPool) : PgPool :=
  {| connections := connections s ++ [{| conn := nextConn s; lastUsed := now; inUse := false |}];
     waitQueue := waitQueue s; pendingCreations := pendingCreations s; closed := closed s;
     initialized := initialized s; initPromise := initPromise s; warmups := warmups s;
     tasks := tasks s; nextConn := S (nextConn s); held := held s; answers := answers s |}.
Definition set_held (l : list (nat * nat)) (s : PgPool) : PgPool :=
  {| connections := connections s; waitQueue := waitQueue s;
     pendingCreations := pendingCreations s; closed := closed s; initialized := initialized s;
     initPromise := initPromise s; warmups := warmups s; tasks := tasks s;
     nextConn := nextConn s; held := l; answers := answers s |}.
Definition answer (caller : nat) (r : result pool_error nat) (s : PgPool) : PgPool :=
  {| connections := connections s; waitQueue := waitQueue s;
     pendingCreations := pendingCreations s; closed := closed s; initialized := initialized s;
     initPromise := initPromise s; warmups := warmups s; tasks := tasks s;
     nextConn := nextConn s; held := held s; answers := answers s ++ [(caller, r)] |}.

Definition new_pool : PgPool :=
  {| connections := []; waitQueue := []; pendingCreations := 0; closed := false;
     initialized := false; initPromise := None; warmups := []; tasks := []; nextConn := 0;
     held := []; answers := [] |}.

Section pool.
Context (opts : options).

(** ** Connections *)

Definition add_task (t : task) (s : PgPool) : PgPool := set_tasks (tasks s ++ [t]) s.

Definition removeConnection (c : nat) (s : PgPool) : PgPool :=
  set_connections (filter (λ p, conn p ≠ c) (connections s)) s.

Definition mark (c : nat) (f : PooledConnection → PooledConnection) (s : PgPool) : PgPool :=
  set_connections ((λ p, if decide (conn p = c) then f p else p) <$> connections s) s.
Definition take_into_use (p : PooledConnection) : PooledConnection :=
  {| conn := conn p; lastUsed := lastUsed p; inUse := true |}.
Definition take_now (now : Z) (p : PooledConnection) : PooledConnection :=
  {| conn := conn p; lastUsed := now; inUse := true |}.
Definition put_back (now : Z) (p : PooledConnection) : PooledConnection :=
  {| conn := conn p; lastUsed := now; inUse := false |}.

(** A call of [acquire] returns the connection. *)
Definition grant (caller c : nat) (s : PgPool) : PgPool :=
  answer caller (Ok c) (set_held (held s ++ [(caller, c)]) s).

(** [this.connections.length + this.pendingCreations < this.opts.maxConnections]. *)
Definition room (s : PgPool) : bool :=
  Z.of_nat (length (connections s)) + pendingCreations s <? Z.of_nat (maxConnections opts).

(** ** acquire *)

Inductive scanned : Type :=
| ScanDead (p : PooledConnection)
| ScanIdle (p : PooledConnection)
| ScanNone.

(** The loop of [_doAcquire], up to the first connection it acts on. *)
Fixpoint scan (h : health) (l : list PooledConnection) : scanned :=
  match l with
  | [] => ScanNone
  | p :: l =>
      if isClosed h (conn p) then ScanDead p
      else if negb (inUse p) && isReady h (conn p) then ScanIdle p
      else scan h l
  end.

Definition enqueue (caller : nat) (s : PgPool) : PgPool :=
  if (MAX_WAIT <=? length (waitQueue s))%nat then answer caller (Throw QueueFull) s
  else set_waitQueue (waitQueue s ++ [caller]) s.

Definition create_or_wait (caller : nat) (s : PgPool) : PgPool :=
  if room s then add_task (Connecting (ForCaller caller)) (add_pending 1 s)
  else enqueue caller s.

Definition doAcquire (h : health) (now : Z) (caller : nat) (s : PgPool) : PgPool :=
  if closed s then answer caller (Throw PoolClosed) s
  else match scan h (connections s) with
       | ScanIdle p => grant caller (conn p) (mark (conn p) (take_now now) s)
       | ScanDead p => create_or_wait caller (removeConnection (conn p) s)
       | ScanNone => create_or_wait caller s
       end.

(** ** Warm-up *)

(** [Promise.all] of a warm-up has resolved. *)
Definition finish_warmup (w : nat) (callers : list nat) (s : PgPool) : PgPool :=
  set_tasks (tasks s ++ (Resuming <$> callers))
    (set_warm true (initPromise s) (<[w := None]> (warmups s)) s).

Definition start_warmup (callers : list nat) (shared : bool) (s : PgPool) : PgPool :=
  let w := length (warmups s) in
  let s := set_warm (initialized s) (if shared then Some w else initPromise s)
             (warmups s ++ [Some {| w_left := minConnections opts; w_callers := callers |}]) s in
  if decide (minConnections opts = 0%nat) then finish_warmup w callers s
  else set_tasks (tasks s ++ replicate (minConnections opts) (Connecting (ForWarmup w))) s.

Definition initialize (s : PgPool) : PgPool := start_warmup [] false s.

Definition join_warmup (w caller : nat) (s : PgPool) : PgPool :=
  match warmups s !! w with
  | Some (Some wu) =>
      set_warm (initialized s) (initPromise s)
        (<[w := Some {| w_left := w_left wu; w_callers := w_callers wu ++ [caller] |}]>
           (warmups s)) s
  | _ => s
  end.

Definition acquire (h : health) (now : Z) (caller : nat) (s : PgPool) : PgPool :=
  if initialized s then doAcquire h now caller s
  else if closed s then answer caller (Throw PoolClosed) s
  else match initPromise s with
       | Some w => join_warmup w caller s
       | None => start_warmup [caller] true s
       end.

(** One connection of a warm-up is there, or failed. *)
Definition warmup_connected (w : nat) (s : PgPool) : PgPool :=
  match warmups s !! w with
  | Some (Some wu) =>
      if decide (w_left wu <= 1)%nat then finish_warmup w (w_callers wu) s
      else set_warm (initialized s) (initPromise s)
             (<[w := Some {| w_left := w_left wu - 1; w_callers := w_callers wu |}]>
                (warmups s)) s
  | _ => s
  end.
Definition warmup_failed (w : nat) (s : PgPool) : PgPool :=
  match warmups s !! w with
  | Some (Some wu) =>
      let s := set_warm (initialized s)
                 (if decide (initPromise s = Some w) then None else initPromise s)
                 (<[w := None]> (warmups s)) s in
      foldl (λ s caller, answer caller (Throw ConnectFailed) s) s (w_callers wu)
  | _ => s
  end.

(** ** release *)

(** The first waiter, if any, gets the connection. *)
Definition serve (c : nat) (s : PgPool) : PgPool :=
  match waitQueue s with
  | w :: q => grant w c (mark c take_into_use (set_waitQueue q s))
  | [] => s
  end.

Definition maybeCreateReplacement (s : PgPool) : PgPool :=
  if closed s then s
  else if negb (room s) then s
  else add_task (Connecting ForReplacement) (add_pending 1 s).

Definition release (h : health) (now : Z) (c : nat) (s : PgPool) : PgPool :=
  if existsb (λ p, bool_decide (conn p = c)) (connections s) then
    if isClosed h c then maybeCreateReplacement (removeConnection c s)
    else
      let s := mark c (put_back now) s in
      if isReady h c then serve c s else s
  else s.

(** ** Timers, sweep, close *)

Definition wait_timeout (caller : nat) (s : PgPool) : PgPool :=
  if decide (caller ∈ waitQueue s) then
    answer caller (Throw AcquireTimeout) (set_waitQueue (filter (.≠ caller) (waitQueue s)) s)
  else s.

(** The connections [_sweepIdle] removes; [n] of them were chosen before. *)
Fixpoint sweep_choose (now : Z) (total : nat) (n : nat) (l : list PooledConnection) :
    list nat :=
  match l with
  | [] => []
  | p :: l =>
      if negb (inUse p) && (idleTimeoutMs opts <? now - lastUsed p)
         && (minConnections opts <? total - n)%nat
      then conn p :: sweep_choose now total (S n) l
      else sweep_choose now total n l
  end.
Definition sweepIdle (now : Z) (s : PgPool) : PgPool :=
  let gone := sweep_choose now (length (connections s)) 0 (connections s) in
  set_connections (filter (λ p, conn p ∉ gone) (connections s)) s.

Definition close (s : PgPool) : PgPool :=
  let s := set_closed s in
  let waiters := waitQueue s in
  let s := foldl (λ s caller, answer caller (Throw PoolClosed) s) (set_waitQueue [] s) waiters in
  add_task Closing s.

(** ** Events *)

Inductive event : Type :=
| EInitialize
| EAcquire (h : health) (now : Z) (caller : nat)
| EConnectOk (now : Z) (i : nat)              (* [connect] of task [i] resolves *)
| EConnectFail (i : nat)
| EContinue (h : health) (now : Z) (i : nat)    (* the continuation of task [i] *)
| ERelease (h : health) (now : Z) (caller c : nat)    (* by the caller that holds it *)
| ETimeout (caller : nat)
| ESweep (now : Z)
| EClose.

Definition connect_ok (now : Z) (i : nat) (s : PgPool) : PgPool :=
  match tasks s !! i with
  | Some (Connecting (ForWarmup w)) =>
      warmup_connected w (push_connection now (set_tasks (delete i (tasks s)) s))
  | Some (Connecting p) =>
      push_connection now (set_tasks (<[i := Connected p (nextConn s)]> (tasks s)) s)
  | _ => s
  end.

Definition connect_fail (i : nat) (s : PgPool) : PgPool :=
  match tasks s !! i with
  | Some (Connecting p) =>
      let s := set_tasks (delete i (tasks s)) s in
      match p with
      | ForCaller caller => answer caller (Throw ConnectFailed) (add_pending (-1) s)
      | ForReplacement => add_task Finishing s
      | ForWarmup w => warmup_failed w s
      end
  | _ => s
  end.

Definition continue (h : health) (now : Z) (i : nat) (s : PgPool) : PgPool :=
  match tasks s !! i with
  | Some t =>
      let s' := set_tasks (delete i (tasks s)) s in
      match t with
      | Connected (ForCaller caller) c =>
          grant caller c (add_pending (-1) (mark c take_into_use s'))
      | Connected ForReplacement c => add_task Finishing (serve c s')
      | Finishing => add_pending (-1) s'
      | Resuming caller => doAcquire h now caller s'
      | Closing => set_connections [] s'
      | _ => s
      end
  | None => s
  end.

Definition release_held (h : health) (now : Z) (caller c : nat) (s : PgPool) : PgPool :=
  if decide ((caller, c) ∈ held s) then
    release h now c (set_held (filter (.≠ (caller, c)) (held s)) s)
  else s.

Definition step (s : PgPool) (e : event) : PgPool :=
  match e with
  | EInitialize => initialize s
  | EAcquire h now caller => acquire h now caller s
  | EConnectOk now i => connect_ok now i s
  | EConnectFail i => connect_fail i s
  | EContinue h now i => continue h now i s
  | ERelease h now caller c => release_held h now caller c s
  | ETimeout caller => wait_timeout caller s
  | ESweep now => sweepIdle now s
  | EClose => close s
  end.

Definition run (s : PgPool) (l : list event) : PgPool := foldl step s l.
End pool.

(** ** Weights of the tasks *)

Definition weigh (f : task → Z) (l : list task) : Z := sumZ (f <$> l).

Definition nonwarm (t : task) : Z :=
  match t with Connecting (ForWarmup _) => 0 | Connecting _ => 1 | _ => 0 end.
Definition warm (t : task) : Z := match t with Connecting (ForWarmup _) => 1 | _ => 0 end.
Definition connecting (t : task) : Z := match t with Connecting _ => 1 | _ => 0 end.
Definition in_creation (t : task) : Z :=
  match t with
  | Connecting (ForWarmup _) => 0
  | Connecting _ | Connected _ _ | Finishing => 1
  | _ => 0
  end.
(** What only happens once the pool is initialized. *)
Definition active (t : task) : Z :=
  match t with
  | Connecting (ForWarmup _) | Closing => 0
  | _ => 1
  end.

Lemma weigh_app f l1 l2 : weigh f (l1 ++ l2) = weigh f l1 + weigh f l2.
Proof. unfold weigh. by rewrite fmap_app, sumZ_app. Qed.

Lemma weigh_one f t : weigh f [t] = f t.
Proof. unfold weigh. csimpl. rewrite sumZ_cons. unfold sumZ. cbn. lia. Qed.

Lemma weigh_middle f l i t :
  l !! i = Some t → weigh f l = f t + weigh f (delete i l).
Proof.
  intros Hi. rewrite <-(take_drop_middle l i t Hi) at 1. rewrite delete_take_drop.
  rewrite (app_cons_snoc _ _ t), !weigh_app, weigh_one. lia.
Qed.

Lemma weigh_insert f l i t t' :
  l !! i = Some t → weigh f (<[i:=t']> l) = weigh f l - f t + f t'.
Proof.
  intros Hi. pose proof (lookup_lt_Some _ _ _ Hi) as Hlt.
  rewrite insert_take_drop by done. rewrite <-(take_drop_middle l i t Hi) at 3.
  rewrite (app_cons_snoc _ _ t), (app_cons_snoc _ _ t'), !weigh_app, !weigh_one. lia.
Qed.

Lemma weigh_nonneg f l : (∀ t, 0 <= f t) → 0 <= weigh f l.
Proof.
  intros H. induction l as [|t l IH]; [done|]. unfold weigh in *. csimpl.
  rewrite sumZ_cons. specialize (H t). lia.
Qed.

Lemma weigh_le f g l : (∀ t, f t <= g t) → weigh f l <= weigh g l.
Proof. intros H. by apply sumZ_le. Qed.

Lemma weigh_replicate_warm f w n :
  weigh f (replicate n (Connecting (ForWarmup w))) = f (Connecting (ForWarmup w)) * Z.of_nat n.
Proof.
  induction n as [|n IH]; [unfold weigh, sumZ; cbn; lia|]. cbn [replicate]. unfold weigh in *. csimpl.
  rewrite sumZ_cons, IH. lia.
Qed.

Lemma weigh_resuming f l :
  (∀ c, f (Resuming c) = 0) → weigh f (Resuming <$> l) = 0.
Proof.
  intros H. induction l as [|c l IH]; [done|]. unfold weigh in *. csimpl.
  rewrite sumZ_cons, IH, H. lia.
Qed.

(** The weights every bound needs. *)
Lemma weights l :
  weigh connecting l = weigh nonwarm l + weigh warm l ∧
  0 <= weigh nonwarm l <= weigh in_creation l ∧ weigh in_creation l <= weigh active l ∧
  0 <= weigh warm l.
Proof.
  split; [|split; [split|split]].
  - unfold weigh. rewrite <-sumZ_map_add. apply sumZ_map_ext. by intros [[]| | | |] _.
  - apply weigh_nonneg. by intros [[]| | | |].
  - apply weigh_le. by intros [[]| | | |].
  - apply weigh_le. by intros [[]| | | |].
  - apply weigh_nonneg. by intros [[]| | | |].
Qed.

Section bound.
Context (opts : options).
Abbreviation MIN := (Z.of_nat (minConnections opts)).
Abbreviation MAX := (Z.of_nat (maxConnections opts)).

Definition total (s : PgPool) : Z :=
  Z.of_nat (length (connections s)) + weigh connecting (tasks s).
Definition starts (s : PgPool) : Z := Z.of_nat (length (warmups s)).

(** A task of a warm-up names one that was started. *)
Definition warm_below (n : nat) (t : task) : Prop :=
  match t with Connecting (ForWarmup w) => (w < n)%nat | _ => True end.
(** The connections one warm-up still makes. *)
Definition warm_of (w : nat) (t : task) : Z :=
  match t with Connecting (ForWarmup w') => if decide (w = w') then 1 else 0 | _ => 0 end.

Lemma warm_of_nonneg w l : 0 <= weigh (warm_of w) l.
Proof. apply weigh_nonneg. intros [[]| | | |]; cbn; try case_decide; lia. Qed.

(** The connections under way are those of the warm-ups. *)
Lemma weigh_warm n l :
  Forall (warm_below n) l → weigh warm l = sumZ ((λ w, weigh (warm_of w) l) <$> seq 0 n).
Proof.
  induction 1 as [|t l Ht _ IH].
  - by rewrite (sumZ_map_ext _ (λ _, 0)), sumZ_map_const by done.
  - unfold weigh in *. csimpl. rewrite sumZ_cons, IH.
    change (λ w, sumZ (warm_of w t :: (warm_of w <$> l)))
      with (λ w, warm_of w t + sumZ (warm_of w <$> l)).
    rewrite (sumZ_map_add (λ w, warm_of w t)). f_equal. destruct t as [[| |w]| | | |]; cbn [warm warm_of warm_below] in *;
      try (by rewrite sumZ_map_const).
    symmetry. apply sumZ_single; [apply NoDup_seq|apply elem_of_seq; lia].
Qed.

Lemma warm_of_fresh n l : Forall (warm_below n) l → weigh (warm_of n) l = 0.
Proof.
  intros H. unfold weigh. rewrite (sumZ_map_ext _ (λ _, 0)); [by rewrite sumZ_map_const|].
  intros t Ht. rewrite Forall_forall in H. specialize (H t Ht).
  destruct t as [[| |w]| | | |]; cbn in *; try done. case_decide; lia.
Qed.

(** What is left of the warm-ups: none has more connections under way than it was started
    with, one that is not settled counts exactly its own, and once the pool is initialized
    one of them has none left. *)
Record warm_ok (ini : bool) (ws : list (option warmup)) (l : list task) : Prop := {
  wk_ids : Forall (warm_below (length ws)) l;
  wk_count : ∀ w, weigh (warm_of w) l <= MIN;
  wk_left : ∀ w wu, ws !! w = Some (Some wu) → weigh (warm_of w) l = Z.of_nat (w_left wu);
  wk_done : ini = true → ∃ w, (w < length ws)%nat ∧ weigh (warm_of w) l = 0
}.

Lemma warm_total ini ws l :
  warm_ok ini ws l →
  weigh warm l <= MIN * Z.of_nat (length ws) ∧
  (ini = true → (1 <= length ws)%nat ∧ weigh warm l <= MIN * (Z.of_nat (length ws) - 1)).
Proof.
  intros [H1 H2 H3 H4]. rewrite (weigh_warm _ _ H1). split.
  - rewrite (sumZ_le _ (λ _, MIN)) by (intros; apply H2).
    by rewrite sumZ_map_const, length_seq.
  - intros Hi. destruct (H4 Hi) as (w & Hw & H0). split; [lia|].
    pose proof (sumZ_le (λ w', weigh (warm_of w') l + if decide (w' = w) then MIN else 0)
      (λ _, MIN) (seq 0 (length ws))) as Hle.
    rewrite sumZ_map_add, sumZ_map_const, length_seq, sumZ_single in Hle;
      [|apply NoDup_seq|apply elem_of_seq; lia].
    enough (∀ w', weigh (warm_of w') l + (if decide (w' = w) then MIN else 0) <= MIN) as He
      by (specialize (Hle ltac:(intros; apply He)); lia).
    intros w'. specialize (H2 w'). case_decide; [subst; lia|lia].
Qed.

Lemma warm_ok_tasks ini ws l l' :
  warm_ok ini ws l → (∀ w, weigh (warm_of w) l' = weigh (warm_of w) l) →
  Forall (warm_below (length ws)) l' → warm_ok ini ws l'.
Proof.
  intros [H1 H2 H3 H4] He Hf. split; [done|..].
  - intros w. by rewrite He.
  - intros w wu Hw. rewrite He. by apply H3.
  - intros Hi. destruct (H4 Hi) as (w & ? & ?). exists w. by rewrite He.
Qed.

Lemma warm_ok_start cs ini ws l :
  warm_ok ini ws l →
  warm_ok ini (ws ++ [Some {| w_left := minConnections opts; w_callers := cs |}])
    (l ++ replicate (minConnections opts) (Connecting (ForWarmup (length ws)))).
Proof.
  intros [H1 H2 H3 H4].
  assert (∀ w, weigh (warm_of w) (l ++ replicate (minConnections opts)
      (Connecting (ForWarmup (length ws)))) =
    if decide (w = length ws) then MIN else weigh (warm_of w) l) as He.
  { intros w. rewrite weigh_app, weigh_replicate_warm. cbn [warm_of].
    case_decide; [subst w; rewrite (warm_of_fresh _ _ H1)|]; lia. }
  split.
  - apply Forall_app. rewrite length_app. cbn [length]. split.
    + eapply Forall_impl; [exact H1|]. intros [[]| | | |]; cbn; lia.
    + apply Forall_replicate. cbn. lia.
  - intros w. rewrite He. case_decide; [lia|apply H2].
  - intros w wu Hw. rewrite He. apply lookup_app_Some in Hw as [Hw|[Hle Hw]].
    + rewrite decide_False; [by apply H3|]. apply lookup_lt_Some in Hw. lia.
    + apply list_lookup_singleton_Some in Hw as [Hw [= <-]]. rewrite decide_True by lia. done.
  - intros Hi. destruct (H4 Hi) as (w & Hw & H0). exists w. rewrite length_app, He.
    rewrite decide_False by lia. split; [lia|done].
Qed.

(** A warm-up whose entry changes, while its own connections go on or come in. *)
Lemma warm_ok_entry ini ini' w x ws l l' :
  warm_ok ini ws l → (w < length ws)%nat →
  (∀ w', w' ≠ w → weigh (warm_of w') l' = weigh (warm_of w') l) →
  weigh (warm_of w) l' <= weigh (warm_of w) l →
  (∀ wu, x = Some wu → weigh (warm_of w) l' = Z.of_nat (w_left wu)) →
  (ini' = true → ini = true ∨ weigh (warm_of w) l' = 0) →
  Forall (warm_below (length ws)) l' →
  warm_ok ini' (<[w := x]> ws) l'.
Proof.
  intros [H1 H2 H3 H4] Hlt He Hle Hx Hi Hf. split; rewrite ?length_insert; [done|..].
  - intros w'. destruct (decide (w' = w)) as [->|Hn]; [specialize (H2 w); lia|].
    rewrite He by done. apply H2.
  - intros w' wu. destruct (decide (w' = w)) as [->|Hn].
    + rewrite list_lookup_insert_eq by done. intros [= ->]. by apply Hx.
    + rewrite list_lookup_insert_ne by done. rewrite He by done. apply H3.
  - intros Hi'. destruct (Hi Hi') as [Hi0|H0]; [|by exists w].
    destruct (H4 Hi0) as (w' & Hlt' & H0). exists w'. split; [done|].
    destruct (decide (w' = w)) as [->|Hn]; [|by rewrite He].
    pose proof (warm_of_nonneg w l'). lia.
Qed.

Record bounded (s : PgPool) : Prop := {
  b_pending : pendingCreations s = weigh in_creation (tasks s);
  b_warm : warm_ok (initialized s) (warmups s) (tasks s);
  b_total : initialized s = true → total s <= Z.max MIN MAX + MIN * (starts s - 1);
  b_queue : (length (waitQueue s) <= MAX_WAIT)%nat;
  b_cold : initialized s = false →
           held s = [] ∧ weigh active (tasks s) = 0 ∧ total s <= MIN * starts s
}.

(** What the bound does not depend on. *)
Lemma bounded_shrink s s' :
  bounded s → tasks s' = tasks s → pendingCreations s' = pendingCreations s →
  warmups s' = warmups s → initialized s' = initialized s →
  (length (connections s') <= length (connections s))%nat →
  (length (waitQueue s') <= MAX_WAIT)%nat →
  (initialized s = false → held s' = []) → bounded s'.
Proof.
  intros [H1 H2 H3 H4 H5] Ht Hp Hw Hi Hc Hq Hh.
  unfold total, starts in *. split; unfold total, starts; rewrite ?Ht, ?Hp, ?Hw, ?Hi; try done.
  - intros Hf. specialize (H3 Hf). lia.
  - intros Hf. specialize (Hh Hf). destruct (H5 Hf) as (_ & ? & ?).
    split; [done|]. split; [done|lia].
Qed.

Lemma mark_length c f s : length (connections (mark c f s)) = length (connections s).
Proof. cbn. by rewrite length_fmap. Qed.

Lemma bounded_grant s a c :
  initialized s = true → bounded s → bounded (grant a c s).
Proof.
  intros Hi Hb. apply (bounded_shrink s); try done; [apply Hb|]. rewrite Hi. done.
Qed.

Lemma bounded_mark s c f : bounded s → bounded (mark c f s).
Proof.
  intros Hb. apply (bounded_shrink s); try done; [by rewrite mark_length|apply Hb|].
  by intros Hf; destruct (b_cold _ Hb Hf).
Qed.

Lemma bounded_answer s a r : bounded s → bounded (answer a r s).
Proof.
  intros Hb. apply (bounded_shrink s); try done; [apply Hb|].
  by intros Hf; destruct (b_cold _ Hb Hf).
Qed.

Lemma bounded_answers l r : ∀ s, bounded s → bounded (foldl (λ s a, answer a r s) s l).
Proof. induction l as [|a l IH]; intros s Hb; [done|]. by apply IH, bounded_answer. Qed.

Lemma bounded_queue s q :
  bounded s → (length q <= MAX_WAIT)%nat → bounded (set_waitQueue q s).
Proof.
  intros Hb Hq. apply (bounded_shrink s); try done.
  by intros Hf; destruct (b_cold _ Hb Hf).
Qed.

Lemma bounded_connections s l :
  bounded s → (length l <= length (connections s))%nat → bounded (set_connections l s).
Proof.
  intros Hb Hl. apply (bounded_shrink s); try done; [apply Hb|].
  by intros Hf; destruct (b_cold _ Hb Hf).
Qed.

Lemma bounded_held s l :
  bounded s → (initialized s = false → l = []) → bounded (set_held l s).
Proof. intros Hb Hl. apply (bounded_shrink s); try done. apply Hb. Qed.

Lemma bounded_closed s : bounded s → bounded (set_closed s).
Proof.
  intros Hb. apply (bounded_shrink s); try done; [apply Hb|].
  by intros Hf; destruct (b_cold _ Hb Hf).
Qed.

(** Tasks added, removed and replaced.  [d] is the change of the pending counter. *)
Lemma bounded_tasks s l d :
  bounded s →
  weigh in_creation l = weigh in_creation (tasks s) + d →
  (∀ w, weigh (warm_of w) l = weigh (warm_of w) (tasks s)) →
  weigh connecting l <= weigh connecting (tasks s) ∨
    (weigh connecting l = weigh connecting (tasks s) + 1 ∧ room opts s = true) →
  (initialized s = false → weigh active l = 0) →
  Forall (warm_below (length (warmups s))) l →
  bounded (set_tasks l (add_pending d s)).
Proof.
  intros [H1 H2 H3 H4 H5] Hc Hw Hn Ha Hl. unfold room in Hn.
  assert (warm_ok (initialized s) (warmups s) l) as Hk by by eapply warm_ok_tasks.
  destruct (weights l) as (W1 & W2 & W3 & W4).
  destruct (weights (tasks s)) as (W1' & W2' & W3' & W4').
  assert (weigh warm l = weigh warm (tasks s)) as Hww.
  { rewrite (weigh_warm _ _ Hl), (weigh_warm _ _ (wk_ids _ _ _ H2)).
    apply sumZ_map_ext. intros. apply Hw. }
  destruct (warm_total _ _ _ Hk) as [_ Hk2].
  split; cbn [pendingCreations tasks set_tasks add_pending warmups connections waitQueue
    held initialized total starts] in *; unfold total, starts in *;
    cbn [tasks set_tasks add_pending warmups connections] in *; try done.
  - lia.
  - intros Hi. specialize (H3 Hi). destruct (Hk2 Hi) as [? ?].
    destruct Hn as [?|[? Hr%Z.ltb_lt]]; lia.
  - intros Hf. destruct (H5 Hf) as (? & ? & ?). split; [done|]. split; [by apply Ha|].
    specialize (Ha Hf). lia.
Qed.

Lemma active_initialized s i t :
  bounded s → tasks s !! i = Some t → active t = 1 → initialized s = true.
Proof.
  intros Hb Hi Ht. destruct (initialized s) eqn:E; [done|].
  destruct (b_cold _ Hb E) as (_ & Ha & _). rewrite (weigh_middle _ _ _ _ Hi), Ht in Ha.
  pose proof (weigh_nonneg active (delete i (tasks s)) ltac:(by intros [[]| | | |])). lia.
Qed.

Lemma ids_delete s i : bounded s → Forall (warm_below (length (warmups s))) (delete i (tasks s)).
Proof. intros Hb. apply Forall_delete, (b_warm _ Hb). Qed.

Lemma warm_of_0 t w : warm t = 0 → warm_of w t = 0.
Proof. by destruct t as [[]| | | |]. Qed.

Lemma warm_below_0 t n : warm t = 0 → warm_below n t.
Proof. by destruct t as [[]| | | |]. Qed.

Lemma bounded_add_task s t d :
  bounded s → in_creation t = d → warm t = 0 →
  connecting t <= 0 ∨ (connecting t = 1 ∧ room opts s = true) →
  (initialized s = false → active t = 0) →
  bounded (add_task t (add_pending d s)).
Proof.
  intros Hb Hc Hw Hn Ha.
  apply (bounded_tasks s (tasks s ++ [t]) d Hb); rewrite ?weigh_app, ?weigh_one; try lia.
  - intros w. rewrite weigh_app, weigh_one, warm_of_0 by done. lia.
  - destruct Hn as [?|[? ?]]; [left; lia|right; split; [lia|done]].
  - intros Hf. rewrite (Ha Hf). destruct (b_cold _ Hb Hf) as (_ & -> & _). lia.
  - apply Forall_app. split; [apply (b_warm _ Hb)|]. by apply Forall_singleton, warm_below_0.
Qed.

Lemma add_pending_0 s : add_pending 0 s = s.
Proof. destruct s. unfold add_pending. cbn. f_equal. lia. Qed.

Lemma bounded_create_or_wait s a :
  initialized s = true → bounded s → bounded (create_or_wait opts a s).
Proof.
  intros Hi Hb. unfold create_or_wait. destruct (room opts s) eqn:Er.
  - apply bounded_add_task; try done; [by right|]. by rewrite Hi.
  - unfold enqueue. destruct (Nat.leb_spec MAX_WAIT (length (waitQueue s))).
    + by apply bounded_answer.
    + apply bounded_queue; [done|]. rewrite length_app. cbn [length]. lia.
Qed.

Lemma bounded_remove s c : bounded s → bounded (removeConnection c s).
Proof. intros Hb. apply bounded_connections; [done|]. apply length_filter. Qed.

Lemma bounded_doAcquire h now a s :
  initialized s = true → bounded s → bounded (doAcquire opts h now a s).
Proof.
  intros Hi Hb. unfold doAcquire. destruct (closed s); [by apply bounded_answer|].
  destruct (scan h (connections s)) as [p|p|].
  - apply bounded_create_or_wait; [done|]. by apply bounded_remove.
  - apply bounded_grant; [done|]. by apply bounded_mark.
  - by apply bounded_create_or_wait.
Qed.

(** A warm-up ends well: its last connection is there. *)
Lemma bounded_finish w cs s :
  warm_ok true (<[w := None]> (warmups s)) (tasks s) →
  pendingCreations s = weigh in_creation (tasks s) →
  (length (waitQueue s) <= MAX_WAIT)%nat →
  (initialized s = true → total s <= Z.max MIN MAX + MIN * (starts s - 1)) →
  (initialized s = false → total s <= MIN * starts s) →
  bounded (finish_warmup w cs s).
Proof.
  intros Hk Hp Hq Ht Hc. unfold finish_warmup.
  split; unfold total, starts in *;
    cbn [pendingCreations tasks set_tasks set_warm warmups connections waitQueue held initialized];
    rewrite ?length_insert, ?weigh_app, ?weigh_resuming by done; try done; try lia.
  - apply (warm_ok_tasks _ _ _ _ Hk).
    + intros w'. rewrite weigh_app, weigh_resuming by done. lia.
    + apply Forall_app. split; [apply Hk|]. by apply Forall_fmap, Forall_forall.
  - destruct (initialized s); [specialize (Ht eq_refl)|specialize (Hc eq_refl)]; lia.
Qed.

Lemma bounded_start cs sh s : bounded s → bounded (start_warmup opts cs sh s).
Proof.
  intros Hb. pose proof Hb as [H1 H2 H3 H4 H5].
  pose proof (warm_ok_start cs _ _ _ H2) as Hk. unfold start_warmup. cbv zeta.
  unfold total, starts in *. case_decide as Hm.
  - rewrite Hm in Hk at 2. rewrite app_nil_r in Hk. apply bounded_finish; unfold total, starts;
      cbn [pendingCreations tasks set_tasks set_warm warmups connections waitQueue held initialized];
      rewrite ?length_app; cbn [length]; try done; try lia.
    + apply (warm_ok_entry _ _ _ _ _ _ _ Hk); try done; [rewrite length_app; cbn; lia| |apply Hk].
      right. apply warm_of_fresh, H2.
    + intros Hf. specialize (H3 Hf). lia.
    + intros Hf. destruct (H5 Hf) as (_ & _ & ?). lia.
  - split; unfold total, starts;
      cbn [pendingCreations tasks set_tasks set_warm warmups connections waitQueue held initialized];
      rewrite ?length_app, ?weigh_app, ?weigh_replicate_warm;
      cbn [in_creation connecting active length]; try done; try lia; intros Hf.
    + specialize (H3 Hf). lia.
    + destruct (H5 Hf) as (? & ? & ?). split; [done|]. lia.
Qed.

Lemma bounded_join w a s : bounded s → initialized s = false → bounded (join_warmup w a s).
Proof.
  intros Hb Hi. unfold join_warmup. destruct (warmups s !! w) as [[wu|]|] eqn:E; try done.
  destruct Hb as [H1 H2 H3 H4 H5]. unfold total, starts in *.
  split; unfold total, starts; cbn [pendingCreations tasks set_warm warmups connections
    waitQueue held initialized]; rewrite ?length_insert; try done.
  apply (warm_ok_entry _ _ _ _ _ _ _ H2); [by eapply lookup_lt_Some|done|done| |by left|apply H2].
  intros wu' [= <-]. exact (wk_left _ _ _ H2 _ _ E).
Qed.

Lemma bounded_acquire h now a s : bounded s → bounded (acquire opts h now a s).
Proof.
  intros Hb. unfold acquire. destruct (initialized s) eqn:Hi; [by apply bounded_doAcquire|].
  destruct (closed s); [by apply bounded_answer|].
  destruct (initPromise s); [by apply bounded_join|by apply bounded_start].
Qed.

(** The end of one connection of warm-up [w], as its count sees it. *)
Lemma warm_deleted i w l w' :
  l !! i = Some (Connecting (ForWarmup w)) →
  weigh (warm_of w') (delete i l) =
    if decide (w' = w) then weigh (warm_of w') l - 1 else weigh (warm_of w') l.
Proof.
  intros Hi. rewrite (weigh_middle (warm_of w') _ _ _ Hi). cbn [warm_of].
  repeat case_decide; try congruence; lia.
Qed.

(** [weigh_middle] for the weights of the bound. *)
Lemma deleted_weights i w l :
  l !! i = Some (Connecting (ForWarmup w)) →
  weigh in_creation (delete i l) = weigh in_creation l ∧
  weigh connecting (delete i l) = weigh connecting l - 1 ∧
  weigh active (delete i l) = weigh active l.
Proof.
  intros Hi. pose proof (λ f, weigh_middle f _ _ _ Hi) as Hw.
  rewrite (Hw in_creation), (Hw connecting), (Hw active). cbn [in_creation connecting active]. lia.
Qed.

(** The warm-ups after the connection of task [i] has ended and the entry of its warm-up
    became [x]. *)
Lemma warm_ok_ended ini i w x s :
  bounded s → tasks s !! i = Some (Connecting (ForWarmup w)) →
  (∀ wu, x = Some wu → Z.of_nat (w_left wu) = weigh (warm_of w) (tasks s) - 1) →
  (ini = true → initialized s = true ∨ weigh (warm_of w) (tasks s) = 1) →
  warm_ok ini (<[w := x]> (warmups s)) (delete i (tasks s)).
Proof.
  intros Hb Hi Hx Hini. pose proof (b_warm _ Hb) as Hk.
  pose proof (wk_ids _ _ _ Hk) as Hids. rewrite Forall_forall in Hids.
  pose proof (Hids _ (list_elem_of_lookup_2 _ _ _ Hi)) as Hlt. cbn in Hlt.
  pose proof (warm_deleted _ _ _ w Hi) as Wd. rewrite decide_True in Wd by done.
  apply (warm_ok_entry (initialized s) _ w _ _ (tasks s)); [done|done|..].
  - intros w' Hn. by rewrite (warm_deleted _ _ _ _ Hi), decide_False.
  - lia.
  - intros wu ->. rewrite (Hx wu eq_refl). lia.
  - intros Hf. destruct (Hini Hf); [by left|right; lia].
  - by apply ids_delete.
Qed.

(** The same once the warm-up is settled. *)
Lemma warm_ok_late i w s :
  bounded s → tasks s !! i = Some (Connecting (ForWarmup w)) →
  (∀ wu, warmups s !! w ≠ Some (Some wu)) →
  warm_ok (initialized s) (warmups s) (delete i (tasks s)).
Proof.
  intros Hb Hi Hn. pose proof (wk_ids _ _ _ (b_warm _ Hb)) as Hids. rewrite Forall_forall in Hids.
  pose proof (Hids _ (list_elem_of_lookup_2 _ _ _ Hi)) as Hlt. cbn in Hlt.
  destruct (lookup_lt_is_Some_2 _ _ Hlt) as [[wu|] E]; [by destruct (Hn wu)|].
  rewrite <-(list_insert_id _ _ _ E). by apply warm_ok_ended; [..|left].
Qed.

Lemma bounded_warm_ok now i w s :
  bounded s → tasks s !! i = Some (Connecting (ForWarmup w)) →
  bounded (warmup_connected w (push_connection now (set_tasks (delete i (tasks s)) s))).
Proof.
  intros Hb Hi. pose proof Hb as [H1 H2 H3 H4 H5].
  destruct (deleted_weights _ _ _ Hi) as (Wc & Wn & Wa).
  pose proof (warm_deleted _ _ _ w Hi) as Wd. rewrite decide_True in Wd by done.
  pose proof (warm_of_nonneg w (delete i (tasks s))) as W0.
  unfold total, starts in *. unfold warmup_connected. cbn [warmups push_connection set_tasks].
  destruct (warmups s !! w) as [[wu|]|] eqn:E; [case_decide as Hle|..];
    [apply bounded_finish|split..]; unfold total, starts;
    cbn [pendingCreations tasks set_tasks set_warm push_connection warmups connections waitQueue
         held initialized];
    rewrite ?length_insert, ?length_app; cbn [length]; rewrite ?Wc, ?Wn, ?Wa; try done;
    try (intros Hf; specialize (H3 Hf); lia);
    try (intros Hf; destruct (H5 Hf) as (? & ? & ?); repeat split; try done; lia).
  - pose proof (wk_left _ _ _ H2 w wu E). apply warm_ok_ended; [done..|right; lia].
  - pose proof (wk_left _ _ _ H2 w wu E). apply warm_ok_ended; [done..| |by left].
    intros wu' [= <-]. cbn [w_left]. lia.
  - apply (warm_ok_late _ w); [done..|congruence].
  - apply (warm_ok_late _ w); [done..|congruence].
Qed.

Lemma bounded_connect_ok now i s : bounded s → bounded (connect_ok now i s).
Proof.
  intros Hb. unfold connect_ok. destruct (tasks s !! i) as [[p| | | |]|] eqn:Hi; try done.
  assert (∀ p, nonwarm (Connecting p) = 1 → tasks s !! i = Some (Connecting p) →
    bounded (push_connection now (set_tasks (<[i:=Connected p (nextConn s)]> (tasks s)) s))) as H.
  { clear p Hi. intros p Hp Hi.
    assert (initialized s = true) as Hin by (eapply active_initialized; [done..|by destruct p]).
    pose proof Hb as [H1 H2 H3 H4 H5].
    pose proof (λ f, weigh_insert f _ _ _ (Connected p (nextConn s)) Hi) as Hw.
    pose proof (Hw in_creation) as Wc. pose proof (Hw connecting) as Wn.
    assert (in_creation (Connecting p) = 1 ∧ warm (Connecting p) = 0) as [Hc1 Hc2] by by destruct p.
    rewrite Hc1 in Wc. cbn [in_creation connecting] in Wc, Wn.
    unfold total, starts in *. split; unfold total, starts;
      cbn [pendingCreations tasks set_tasks push_connection warmups connections waitQueue
           held initialized];
      rewrite ?length_app; cbn [length]; rewrite ?Hin; try done; try lia.
    - apply (warm_ok_tasks _ _ (tasks s)); [by rewrite <-Hin|..].
      + intros w. rewrite Hw, (warm_of_0 _ w Hc2). cbn [warm_of]. lia.
      + apply Forall_insert; [apply H2|done].
    - intros _. specialize (H3 Hin). lia. }
  destruct p as [a| |w]; [by apply H|by apply H|by apply bounded_warm_ok].
Qed.

Lemma bounded_warm_fail i w s :
  bounded s → tasks s !! i = Some (Connecting (ForWarmup w)) →
  bounded (warmup_failed w (set_tasks (delete i (tasks s)) s)).
Proof.
  intros Hb Hi. pose proof Hb as [H1 H2 H3 H4 H5].
  destruct (deleted_weights _ _ _ Hi) as (Wc & Wn & Wa).
  unfold total, starts in *. unfold warmup_failed. cbn [warmups set_tasks].
  destruct (warmups s !! w) as [[wu|]|] eqn:E; [apply bounded_answers|..];
    split; unfold total, starts;
    cbn [pendingCreations tasks set_tasks set_warm warmups connections waitQueue held initialized];
    rewrite ?length_insert, ?Wc, ?Wn, ?Wa; try done;
    try (intros Hf; specialize (H3 Hf); lia);
    try (intros Hf; destruct (H5 Hf) as (? & ? & ?); repeat split; try done; lia).
  - by apply warm_ok_ended; [..|left].
  - apply (warm_ok_late _ w); [done..|congruence].
  - apply (warm_ok_late _ w); [done..|congruence].
Qed.

(** A task that was not a warm-up's ends, the pending counter follows. *)
Lemma bounded_end_task i t s :
  bounded s → tasks s !! i = Some t → warm t = 0 →
  bounded (set_tasks (delete i (tasks s)) (add_pending (- in_creation t) s)).
Proof.
  intros Hb Hi Hw. pose proof (λ f, weigh_middle f _ _ _ Hi) as Hm.
  pose proof (Hm active) as Ha. pose proof (Hm connecting) as Hn.
  apply bounded_tasks; [done| | | | |].
  - rewrite (Hm in_creation). lia.
  - intros w. rewrite (Hm (warm_of w)), warm_of_0 by done. lia.
  - left. assert (0 <= connecting t) by by destruct t. lia.
  - intros Hf. destruct (b_cold _ Hb Hf) as (_ & Hz & _).
    assert (0 <= active t) by by destruct t as [[]| | | |].
    pose proof (weigh_nonneg active (delete i (tasks s)) ltac:(by intros [[]| | | |])). lia.
  - by apply ids_delete.
Qed.

(** A task becomes another one. *)
Lemma bounded_replace_task i t t' s :
  bounded s → tasks s !! i = Some t → active t = 1 → in_creation t' = in_creation t →
  warm t = 0 → warm t' = 0 → connecting t' <= connecting t →
  bounded (set_tasks (delete i (tasks s) ++ [t']) s).
Proof.
  intros Hb Hi Ha Hc Hw Hw' Hn. pose proof (λ f, weigh_middle f _ _ _ Hi) as Hm.
  pose proof (active_initialized _ _ _ Hb Hi Ha) as Hin.
  rewrite <-(add_pending_0 s) at 2. apply bounded_tasks; rewrite ?weigh_app, ?weigh_one;
    [done| | | |by rewrite Hin|].
  - rewrite (Hm in_creation). lia.
  - intros w. rewrite weigh_app, weigh_one, (Hm (warm_of w)), !warm_of_0 by done. lia.
  - rewrite (Hm connecting). left. lia.
  - apply Forall_app. split; [by apply ids_delete|]. by apply Forall_singleton, warm_below_0.
Qed.

Lemma bounded_serve c s : initialized s = true → bounded s → bounded (serve c s).
Proof.
  intros Hi Hb. unfold serve. destruct (waitQueue s) as [|w q] eqn:Eq; [done|].
  apply bounded_grant; [done|]. apply bounded_mark, bounded_queue; [done|].
  pose proof (b_queue _ Hb) as Hq. rewrite Eq in Hq. cbn [length] in Hq. lia.
Qed.

Lemma serve_initialized c s : initialized (serve c s) = initialized s.
Proof. unfold serve. by destruct (waitQueue s). Qed.

Lemma bounded_connect_fail i s : bounded s → bounded (connect_fail i s).
Proof.
  intros Hb. unfold connect_fail. destruct (tasks s !! i) as [[p| | | |]|] eqn:Hi; try done.
  destruct p as [a| |w]; [|..|by apply bounded_warm_fail].
  - apply bounded_answer. apply (bounded_end_task _ _ _ Hb Hi). done.
  - by apply (bounded_replace_task _ _ Finishing _ Hb Hi).
Qed.

Lemma serve_tasks c s : tasks (serve c s) = tasks s.
Proof. unfold serve. by destruct (waitQueue s). Qed.

Lemma serve_set_tasks c l s : serve c (set_tasks l s) = set_tasks l (serve c s).
Proof. unfold serve. cbn [waitQueue set_tasks]. by destruct (waitQueue s). Qed.

Lemma bounded_continue h now i s : bounded s → bounded (continue opts h now i s).
Proof.
  intros Hb. unfold continue. destruct (tasks s !! i) as [t|] eqn:Hi; [|done].
  destruct t as [p|p c| |a|]; [done|..].
  - assert (initialized s = true) as Hin by (eapply active_initialized; [done..|by destruct p]).
    destruct p as [a| |w]; [| |done].
    + apply bounded_grant; [done|].
      apply (bounded_mark (set_tasks (delete i (tasks s)) (add_pending (-1) s)) c take_into_use).
      exact (bounded_end_task _ _ _ Hb Hi eq_refl).
    + unfold add_task. rewrite serve_tasks, serve_set_tasks. cbn [tasks set_tasks].
      change (bounded (set_tasks (delete i (tasks s) ++ [Finishing]) (serve c s))).
      rewrite <-serve_set_tasks. apply bounded_serve; [done|].
      by apply (bounded_replace_task _ _ Finishing _ Hb Hi).
  - exact (bounded_end_task _ _ _ Hb Hi eq_refl).
  - apply bounded_doAcquire; [exact (active_initialized _ _ _ Hb Hi eq_refl)|].
    rewrite <-(add_pending_0 s) at 2. exact (bounded_end_task _ _ _ Hb Hi eq_refl).
  - apply bounded_connections; [|cbn; lia].
    rewrite <-(add_pending_0 s) at 2. exact (bounded_end_task _ _ _ Hb Hi eq_refl).
Qed.

Lemma bounded_release h now c s :
  initialized s = true → bounded s → bounded (release opts h now c s).
Proof.
  intros Hi Hb. unfold release. destruct (existsb _ _); [|done]. destruct (isClosed h c).
  - pose proof (bounded_remove s c Hb) as Hr. unfold maybeCreateReplacement.
    destruct (closed _); [done|]. destruct (room _ _) eqn:Er; [|done]. cbn [negb].
    apply bounded_add_task; try done; [by right|]. cbn. by rewrite Hi.
  - pose proof (bounded_mark s c (put_back now) Hb) as Hm.
    destruct (isReady h c); [|done]. by apply bounded_serve.
Qed.

Lemma bounded_step s e : bounded s → bounded (step opts s e).
Proof.
  intros Hb. destruct e as [|h now a|now i|i|h now i|h now a c|a|now|]; cbn [step].
  - by apply bounded_start.
  - by apply bounded_acquire.
  - by apply bounded_connect_ok.
  - by apply bounded_connect_fail.
  - by apply bounded_continue.
  - unfold release_held. case_decide as Hh; [|done].
    assert (initialized s = true) as Hi.
    { destruct (initialized s) eqn:E; [done|]. destruct (b_cold _ Hb E) as [Hh' _].
      rewrite Hh' in Hh. by apply not_elem_of_nil in Hh. }
    apply bounded_release; [done|]. apply bounded_held; [done|]. by rewrite Hi.
  - unfold wait_timeout. case_decide; [|done]. apply bounded_answer, bounded_queue; [done|].
    pose proof (b_queue _ Hb). pose proof (length_filter (.≠ a) (waitQueue s)). lia.
  - apply bounded_connections; [done|]. apply length_filter.
  - unfold close. rewrite <-(add_pending_0 (foldl _ _ _)).
    apply bounded_add_task; try done; [|by left].
    apply bounded_answers, bounded_queue; [by apply bounded_closed|cbn; lia].
Qed.

Lemma bounded_run l : ∀ s, bounded s → bounded (run opts s l).
Proof. induction l as [|e l IH]; intros s Hb; [done|]. by apply IH, bounded_step. Qed.

Lemma bounded_new : bounded new_pool.
Proof.
  split; unfold total, starts, weigh, sumZ, MAX_WAIT; cbn; try done; try lia.
  - split; [done|intros w; unfold weigh, sumZ; cbn; lia|done|done].
  - intros _. split; [done|]. split; [done|lia].
Qed.
End bound.


(** ** Who holds what *)

Section exclusive.
Context (opts : options).

Definition task_conn (t : task) : option nat :=
  match t with Connected _ c => Some c | _ => None end.
(** The connections pushed whose creator has not continued yet. *)
Definition pushed (s : PgPool) : list nat := omap task_conn (tasks s).
Definition holds_conn (s : PgPool) (c : nat) : Prop := c ∈ (held s).*2.

Record exclusive (s : PgPool) : Prop := {
  x_held : NoDup (held s).*2;
  x_conns : NoDup (conn <$> connections s);
  x_pushed : NoDup (pushed s);
  x_fresh_held : ∀ c, holds_conn s c → (c < nextConn s)%nat;
  x_fresh_conns : ∀ c, c ∈ (conn <$> connections s) → (c < nextConn s)%nat;
  x_fresh_pushed : ∀ c, c ∈ pushed s → (c < nextConn s)%nat;
  x_apart : ∀ c, c ∈ pushed s → ¬ holds_conn s c;
  x_inUse : ∀ p, p ∈ connections s → holds_conn s (conn p) → inUse p = true
}.

Lemma sublist_in {A} (x : A) l k : x ∈ l → l `sublist_of` k → x ∈ k.
Proof. intros Hx Hl. induction Hl; set_solver. Qed.

(** A step that gives no connection away and makes none. *)
Lemma exclusive_shrink s s' :
  exclusive s → nextConn s' = nextConn s →
  (held s').*2 `sublist_of` (held s).*2 → pushed s' `sublist_of` pushed s →
  (conn <$> connections s') `sublist_of` (conn <$> connections s) →
  (∀ p, p ∈ connections s' → holds_conn s' (conn p) → inUse p = true) →
  exclusive s'.
Proof.
  intros [H1 H2 H3 H4 H5 H6 H7 H8] Hn Hh Hp Hc Hu.
  assert (∀ c, holds_conn s' c → holds_conn s c) as Hh'.
  { intros c Hin. by eapply sublist_in. }
  assert (∀ c, c ∈ pushed s' → c ∈ pushed s) as Hp'.
  { intros c Hin. by eapply sublist_in. }
  split; rewrite ?Hn; try done; try (by eauto).
  1-3: by eapply sublist_NoDup; [|eassumption].
  - intros c Hin. apply H5. by eapply sublist_in.
  - intros c Hin Hc'. apply (H7 c); auto.
Qed.

Lemma exclusive_keep s s' :
  exclusive s → nextConn s' = nextConn s → held s' = held s → tasks s' = tasks s →
  connections s' = connections s → exclusive s'.
Proof.
  intros Hx Hn Hh Ht Hc. apply (exclusive_shrink s); try done.
  - by rewrite Hh.
  - unfold pushed. by rewrite Ht.
  - by rewrite Hc.
  - intros p. rewrite Hc. unfold holds_conn. rewrite Hh. apply Hx.
Qed.

Lemma exclusive_drop_conns s l :
  exclusive s → l `sublist_of` connections s → exclusive (set_connections l s).
Proof.
  intros Hx Hl. apply (exclusive_shrink s); try done.
  - by apply fmap_sublist.
  - intros p Hin. apply Hx. by eapply sublist_in.
Qed.

Lemma pushed_app s l l' : tasks s = l ++ l' → pushed s = omap task_conn l ++ omap task_conn l'.
Proof. intros H. unfold pushed. by rewrite H, omap_app. Qed.

Lemma exclusive_tasks s l :
  exclusive s → omap task_conn l `sublist_of` pushed s → exclusive (set_tasks l s).
Proof. intros Hx Hl. apply (exclusive_shrink s); try done. apply Hx. Qed.

Lemma omap_delete_sublist i (l : list task) :
  omap task_conn (delete i l) `sublist_of` omap task_conn l.
Proof.
  revert i. induction l as [|t l IH]; intros [|i]; csimpl; try done.
  - destruct (task_conn t); [by apply sublist_cons|done].
  - specialize (IH i). destruct (task_conn t); [by apply sublist_skip|done].
Qed.

Lemma omap_delete_conn i l t c :
  l !! i = Some t → task_conn t = Some c → NoDup (omap task_conn l) →
  c ∈ omap task_conn l ∧ c ∉ omap task_conn (delete i l).
Proof.
  intros Hi Ht Hnd. rewrite delete_take_drop. pose proof (take_drop_middle l i t Hi) as E.
  clear Hi. revert E. generalize (take i l) (drop (S i) l). intros l1 l2 <-.
  rewrite omap_app in *. csimpl in *. rewrite Ht in *.
  rewrite omap_app. apply NoDup_app in Hnd as (Hn1 & Hd & [Hni _]%NoDup_cons).
  split; [apply elem_of_app; right; left|]. intros [Hin|Hin]%elem_of_app; [|done].
  apply (Hd c Hin). left.
Qed.

Lemma conn_mark c f s :
  (∀ p, conn (f p) = conn p) → conn <$> connections (mark c f s) = conn <$> connections s.
Proof.
  intros Hf. cbn. rewrite <-list_fmap_compose. apply list_fmap_ext.
  intros i p _. cbn. by case_decide; rewrite ?Hf.
Qed.

Lemma exclusive_grant a c f s :
  exclusive s → ¬ holds_conn s c → c ∉ pushed s → (c < nextConn s)%nat →
  (∀ p, conn (f p) = conn p) → (∀ p, inUse (f p) = true) →
  exclusive (grant a c (mark c f s)).
Proof.
  intros [H1 H2 H3 H4 H5 H6 H7 H8] Hc Hp Hn Hf Hu.
  assert (∀ c', holds_conn (grant a c (mark c f s)) c' → holds_conn s c' ∨ c' = c) as Hh.
  { intros c'. unfold holds_conn. cbn. rewrite fmap_app. csimpl.
    intros [?|?%list_elem_of_singleton]%elem_of_app; tauto. }
  split.
  - cbn. rewrite fmap_app. csimpl. apply NoDup_app. split; [done|].
    split; [|apply NoDup_singleton]. by intros x Hx ->%list_elem_of_singleton.
  - change (NoDup (conn <$> connections (mark c f s))). by rewrite conn_mark.
  - done.
  - intros c' [Hc'| ->]%Hh; [by apply H4|done].
  - change (∀ c', c' ∈ (conn <$> connections (mark c f s)) → (c' < nextConn s)%nat).
    by rewrite conn_mark.
  - done.
  - intros c' Hin [Hc'| ->]%Hh; [by apply (H7 c')|done].
  - intros p Hin Hp'. cbn in Hin. apply list_elem_of_fmap in Hin as (q & -> & Hq).
    destruct (decide (conn q = c)) as [Heq|Hne]; [apply Hu|].
    apply Hh in Hp' as [Hp'|?]; [by apply H8|done].
Qed.

Lemma exclusive_serve c s :
  exclusive s → ¬ holds_conn s c → c ∉ pushed s → (c < nextConn s)%nat →
  exclusive (serve c s).
Proof.
  intros Hx Hc Hp Hn. unfold serve. destruct (waitQueue s) as [|w q]; [done|].
  apply exclusive_grant; try done. by apply (exclusive_keep s).
Qed.

Lemma exclusive_answers r l : ∀ s, exclusive s → exclusive (foldl (λ s a, answer a r s) s l).
Proof.
  induction l as [|a l IH]; intros s Hx; [done|]. apply IH. by apply (exclusive_keep s).
Qed.

Lemma exclusive_create_or_wait a s : exclusive s → exclusive (create_or_wait opts a s).
Proof.
  intros Hx. unfold create_or_wait, enqueue. destruct (room opts s); [|by case_match; apply (exclusive_keep s)].
  apply (exclusive_tasks (add_pending 1 s)); [by apply (exclusive_keep s)|].
  cbn [tasks add_pending]. rewrite omap_app. csimpl. by rewrite app_nil_r.
Qed.

Lemma scan_idle h l p : scan h l = ScanIdle p → p ∈ l ∧ inUse p = false.
Proof.
  induction l as [|q l IH]; [done|]. cbn [scan]. destruct (isClosed h (conn q)); [done|].
  destruct (negb (inUse q) && isReady h (conn q)) eqn:E.
  - intros [= ->]. apply andb_true_iff in E as [E _]. apply negb_true_iff in E.
    split; [left|done].
  - intros H. destruct (IH H). split; [by right|done].
Qed.

Lemma exclusive_doAcquire h now a s :
  exclusive s → pushed s = [] → exclusive (doAcquire opts h now a s).
Proof.
  intros Hx Hp. unfold doAcquire. destruct (closed s); [by apply (exclusive_keep s)|].
  destruct (scan h (connections s)) as [p|p|] eqn:E.
  - apply exclusive_create_or_wait, exclusive_drop_conns; [done|]. apply sublist_filter.
  - apply scan_idle in E as [Hin Hu]. apply exclusive_grant; try done.
    + intros Hh. pose proof (x_inUse _ Hx p Hin Hh). congruence.
    + rewrite Hp. apply not_elem_of_nil.
    + apply (x_fresh_conns _ Hx), list_elem_of_fmap. by exists p.
  - by apply exclusive_create_or_wait.
Qed.

Lemma omap_warm n w : omap task_conn (replicate n (Connecting (ForWarmup w))) = [].
Proof. by induction n. Qed.
Lemma omap_resuming l : omap task_conn (Resuming <$> l) = [].
Proof. by induction l. Qed.

Lemma exclusive_finish w cs s : exclusive s → exclusive (finish_warmup w cs s).
Proof.
  intros Hx. unfold finish_warmup.
  apply (exclusive_shrink s); try done; [|apply Hx].
  unfold pushed. cbn [tasks set_tasks]. rewrite omap_app, omap_resuming. by rewrite app_nil_r.
Qed.

Lemma exclusive_start cs sh s : exclusive s → exclusive (start_warmup opts cs sh s).
Proof.
  intros Hx. unfold start_warmup. case_decide.
  - apply exclusive_finish. by apply (exclusive_keep s).
  - apply (exclusive_shrink s); try done; [|apply Hx].
    unfold pushed. cbn [tasks set_tasks set_warm]. rewrite omap_app, omap_warm.
    by rewrite app_nil_r.
Qed.

Lemma exclusive_push now s :
  exclusive s → exclusive (push_connection now s).
Proof.
  intros [H1 H2 H3 H4 H5 H6 H7 H8].
  assert (∀ c, c ∈ (conn <$> connections (push_connection now s)) →
    c ∈ (conn <$> connections s) ∨ c = nextConn s) as Hc.
  { intros c. cbn. rewrite fmap_app. csimpl.
    intros [?|?%list_elem_of_singleton]%elem_of_app; tauto. }
  split; cbn [nextConn push_connection]; try done.
  - cbn. rewrite fmap_app. csimpl. apply NoDup_app. split; [done|].
    split; [|apply NoDup_singleton]. intros x Hx ->%list_elem_of_singleton.
    apply H5 in Hx. lia.
  - intros c Hh. apply H4 in Hh. lia.
  - intros c [Hin| ->]%Hc; [apply H5 in Hin|]; lia.
  - intros c Hp. apply H6 in Hp. lia.
  - intros p Hin Hh. cbn in Hin. apply elem_of_app in Hin as [Hin| ->%list_elem_of_singleton].
    + by apply H8.
    + apply H4 in Hh. cbn in Hh. lia.
Qed.

Lemma omap_insert_conn i p l c :
  l !! i = Some (Connecting p) →
  omap task_conn (<[i := Connected p c]> l) ≡ₚ c :: omap task_conn l.
Proof.
  intros Hi. pose proof (lookup_lt_Some _ _ _ Hi) as Hlt. rewrite insert_take_drop by done.
  rewrite <-(take_drop_middle l i _ Hi) at 3. rewrite !omap_app. csimpl.
  by rewrite Permutation_middle.
Qed.

Lemma exclusive_connected now i p s :
  exclusive s → tasks s !! i = Some (Connecting p) →
  exclusive (push_connection now (set_tasks (<[i := Connected p (nextConn s)]> (tasks s)) s)).
Proof.
  intros Hx Hi. pose proof (omap_insert_conn i p _ (nextConn s) Hi) as Hp.
  destruct (exclusive_push now s Hx) as [H1 H2 _ H4 H5 _ _ H8].
  split; try done; unfold pushed; cbn [tasks set_tasks push_connection].
  - rewrite Hp. apply NoDup_cons. split; [|apply Hx]. intros Hin. apply (x_fresh_pushed _ Hx) in Hin. lia.
  - intros c. rewrite Hp, elem_of_cons. intros [-> |Hin]; [cbn; lia|].
    apply (x_fresh_pushed _ Hx) in Hin. cbn. lia.
  - intros c. rewrite Hp, elem_of_cons. intros [-> |Hin] Hh.
    + apply (x_fresh_held _ Hx) in Hh. lia.
    + by apply (x_apart _ Hx c Hin).
Qed.

Lemma exclusive_warm_connected w s : exclusive s → exclusive (warmup_connected w s).
Proof.
  intros Hx. unfold warmup_connected. destruct (warmups s !! w) as [[wu|]|]; try done.
  case_decide; [by apply exclusive_finish|by apply (exclusive_keep s)].
Qed.

Lemma exclusive_connect_ok now i s : exclusive s → exclusive (connect_ok now i s).
Proof.
  intros Hx. unfold connect_ok. destruct (tasks s !! i) as [[[a| |w]| | | |]|] eqn:Hi; try done.
  - by apply exclusive_connected.
  - by apply exclusive_connected.
  - apply exclusive_warm_connected, exclusive_push, exclusive_tasks; [done|].
    apply omap_delete_sublist.
Qed.

Lemma exclusive_connect_fail i s : exclusive s → exclusive (connect_fail i s).
Proof.
  intros Hx. unfold connect_fail. destruct (tasks s !! i) as [[p| | | |]|] eqn:Hi; try done.
  assert (exclusive (set_tasks (delete i (tasks s)) s)) as Hd.
  { apply exclusive_tasks; [done|]. apply omap_delete_sublist. }
  destruct p as [a| |w].
  - by apply (exclusive_keep (set_tasks (delete i (tasks s)) s)).
  - unfold add_task. cbn [tasks set_tasks].
    apply (exclusive_tasks s (delete i (tasks s) ++ [Finishing])); [done|].
    rewrite omap_app. csimpl. rewrite app_nil_r. apply omap_delete_sublist.
  - unfold warmup_failed. destruct (warmups _ !! w) as [[wu|]|]; try done.
    apply exclusive_answers. by apply (exclusive_keep (set_tasks (delete i (tasks s)) s)).
Qed.

Lemma NoDup_filter_conn (l : list (nat * nat)) a c :
  NoDup l.*2 → (a, c) ∈ l → c ∉ (filter (.≠ (a, c)) l).*2.
Proof.
  intros Hnd Hin Hc. apply list_elem_of_fmap in Hc as ([a' c'] & -> & Hc).
  apply list_elem_of_filter in Hc as [Hne Hc]. cbn in *.
  apply list_elem_of_lookup in Hin as [i Hi]. apply list_elem_of_lookup in Hc as [j Hj].
  assert (i = j) as ->.
  { eapply (NoDup_lookup l.*2 i j c'); [done|..]; rewrite list_lookup_fmap.
    - by rewrite Hi.
    - by rewrite Hj. }
  rewrite Hi in Hj. injection Hj as ->. done.
Qed.

Lemma exclusive_release h now c s :
  exclusive s → ¬ holds_conn s c → c ∉ pushed s → (c < nextConn s)%nat →
  exclusive (release opts h now c s).
Proof.
  intros Hx Hc Hp Hn. unfold release. destruct (existsb _ _); [|done].
  destruct (isClosed h c).
  - assert (exclusive (removeConnection c s)) as Hr.
    { apply exclusive_drop_conns; [done|]. apply sublist_filter. }
    unfold maybeCreateReplacement. destruct (closed _); [done|]. destruct (negb _); [done|].
    apply (exclusive_tasks (add_pending 1 (removeConnection c s))).
    + by apply (exclusive_keep (removeConnection c s)).
    + cbn. rewrite omap_app. csimpl. by rewrite app_nil_r.
  - assert (exclusive (mark c (put_back now) s)) as Hm.
    { apply (exclusive_shrink s); try done; [by rewrite conn_mark|].
      intros p Hin Hh. cbn in Hin. apply list_elem_of_fmap in Hin as (q & -> & Hq).
      destruct (decide (conn q = c)) as [<-|Hne]; [done|]. by apply Hx. }
    destruct (isReady h c); [|done]. by apply exclusive_serve.
Qed.

(** An event runs [_doAcquire]. *)
Definition starts_acquire (s : PgPool) (e : event) : bool :=
  match e with
  | EAcquire _ _ _ => true
  | EContinue _ _ i => match tasks s !! i with Some (Resuming _) => true | _ => false end
  | _ => false
  end.

(** No call of [_doAcquire] runs between the push of a new connection and the continuation
    of whoever asked for it. *)
Fixpoint no_acquire_in_gap (s : PgPool) (l : list event) : bool :=
  match l with
  | [] => true
  | e :: l =>
      (negb (starts_acquire s e) || bool_decide (pushed s = []))
      && no_acquire_in_gap (step opts s e) l
  end.

Lemma exclusive_continue h now i s :
  exclusive s → (starts_acquire s (EContinue h now i) = true → pushed s = []) →
  exclusive (continue opts h now i s).
Proof.
  intros Hx Hq. unfold continue. cbn [starts_acquire] in Hq.
  destruct (tasks s !! i) as [t|] eqn:Hi; [|done].
  assert (exclusive (set_tasks (delete i (tasks s)) s)) as Hd.
  { apply exclusive_tasks; [done|]. apply omap_delete_sublist. }
  destruct t as [p|p c| |a|]; [done|..].
  - destruct (omap_delete_conn i (tasks s) _ c Hi eq_refl (x_pushed _ Hx)) as [Hin Hni].
    assert (c < nextConn s)%nat as Hlt by by apply (x_fresh_pushed _ Hx).
    assert (¬ holds_conn s c) as Hh by by apply (x_apart _ Hx).
    destruct p as [a| |w]; [| |done].
    + set (s' := set_tasks (delete i (tasks s)) s) in *.
      apply (exclusive_grant a c take_into_use (add_pending (-1) s')); try done.
      by apply (exclusive_keep s').
    + pose proof (exclusive_serve c _ Hd Hh Hni Hlt) as Hs.
      unfold add_task. rewrite serve_tasks. apply exclusive_tasks; [done|].
      rewrite omap_app. csimpl. rewrite app_nil_r. unfold pushed. by rewrite serve_tasks.
  - by apply (exclusive_keep (set_tasks (delete i (tasks s)) s)).
  - apply exclusive_doAcquire; [done|].
    pose proof (omap_delete_sublist i (tasks s)) as Hs. specialize (Hq eq_refl).
    unfold pushed in *. rewrite Hq in Hs. by apply sublist_nil_r in Hs.
  - apply exclusive_drop_conns; [done|]. apply sublist_nil_l.
Qed.

Lemma exclusive_step s e :
  exclusive s → (starts_acquire s e = true → pushed s = []) → exclusive (step opts s e).
Proof.
  intros Hx Hq. destruct e as [|h now a|now i|i|h now i|h now a c|a|now|]; cbn [step].
  - by apply exclusive_start.
  - specialize (Hq eq_refl). unfold acquire. destruct (initialized s); [by apply exclusive_doAcquire|].
    destruct (closed s); [by apply (exclusive_keep s)|]. destruct (initPromise s) as [w|].
    + unfold join_warmup. destruct (warmups s !! w) as [[wu|]|]; by apply (exclusive_keep s).
    + by apply exclusive_start.
  - by apply exclusive_connect_ok.
  - by apply exclusive_connect_fail.
  - by apply exclusive_continue.
  - unfold release_held. case_decide as Hin; [|done].
    assert (holds_conn s c) as Hh by (apply list_elem_of_fmap; by exists (a, c)).
    assert ((filter (.≠ (a, c)) (held s)).*2 `sublist_of` (held s).*2) as Hsub
      by apply fmap_sublist, sublist_filter.
    apply exclusive_release.
    + apply (exclusive_shrink s); try done. intros p Hp Hc. apply Hx; [done|].
      by eapply sublist_in.
    + by apply NoDup_filter_conn; [apply Hx|].
    + intros Hp. by apply (x_apart _ Hx c Hp).
    + by apply (x_fresh_held _ Hx).
  - unfold wait_timeout. case_decide; by apply (exclusive_keep s).
  - apply exclusive_drop_conns; [done|]. apply sublist_filter.
  - unfold close, add_task.
    set (s' := foldl _ _ _).
    assert (exclusive s') as Hs by (apply exclusive_answers; by apply (exclusive_keep s)).
    apply exclusive_tasks; [done|]. rewrite omap_app. csimpl. by rewrite app_nil_r.
Qed.

Lemma exclusive_run l : ∀ s,
  exclusive s → no_acquire_in_gap s l = true → exclusive (run opts s l).
Proof.
  induction l as [|e l IH]; intros s Hx Hq; [done|]. cbn [no_acquire_in_gap] in Hq.
  apply andb_true_iff in Hq as [Hq Hl]. apply IH; [|done]. apply exclusive_step; [done|].
  intros Hs. rewrite Hs in Hq. by apply bool_decide_eq_true in Hq.
Qed.

Lemma exclusive_new : exclusive new_pool.
Proof.
  split; unfold holds_conn, pushed; cbn; try constructor; intros ?;
    try (intros ?%not_elem_of_nil; done); try (by intros ? ?%not_elem_of_nil).
Qed.
End exclusive.

(** ** The queue of waiters *)

Section waiting.
Context (opts : options).

(** The event hands a connection to the first waiter, if there is one. *)
Definition serves (s : PgPool) (e : event) : bool :=
  match e with
  | ERelease h _ a c =>
      bool_decide ((a, c) ∈ held s)
      && existsb (λ p, bool_decide (conn p = c)) (connections s)
      && negb (isClosed h c) && isReady h c
  | EContinue _ _ i =>
      match tasks s !! i with Some (Connected ForReplacement _) => true | _ => false end
  | _ => false
  end.

Fixpoint times_served (s : PgPool) (l : list event) : nat :=
  match l with
  | [] => 0
  | e :: l => (if serves s e then 1 else 0) + times_served (step opts s e) l
  end.

Definition gives_up (w : nat) (e : event) : bool :=
  match e with ETimeout a => bool_decide (a = w) | EClose => true | _ => false end.

Definition served (s : PgPool) (w : nat) : Prop := ∃ c, (w, Ok c) ∈ answers s.

(** [w] is in the queue with [n] waiters before it. *)
Definition waits_at (s : PgPool) (w n : nat) : Prop :=
  ∃ q1 q2, waitQueue s = q1 ++ w :: q2 ∧ (w ∉ q1) ∧ length q1 = n.

(** Steps that leave the queue alone or only add to its end. *)
Record appends (s s' : PgPool) : Prop := {
  a_queue : ∃ q, waitQueue s' = waitQueue s ++ q;
  a_answers : ∃ r, answers s' = answers s ++ r
}.

#[export] Instance appends_preorder : PreOrder appends.
Proof.
  split.
  - intros s. split; exists []; by rewrite app_nil_r.
  - intros s1 s2 s3 [[q1 H1] [r1 H2]] [[q2 H3] [r2 H4]]. split.
    + exists (q1 ++ q2). by rewrite H3, H1, (assoc_L (++)).
    + exists (r1 ++ r2). by rewrite H4, H2, (assoc_L (++)).
Qed.

Lemma appends_same s s' :
  waitQueue s' = waitQueue s → answers s' = answers s → appends s s'.
Proof. intros H1 H2. split; exists []; by rewrite app_nil_r. Qed.

Lemma appends_answer s s' a r :
  waitQueue s' = waitQueue s → answers s' = answers s ++ [(a, r)] → appends s s'.
Proof. intros H1 H2. split; [exists []; by rewrite app_nil_r|by exists [(a, r)]]. Qed.

Lemma appends_answers r l : ∀ s, appends s (foldl (λ s a, answer a r s) s l).
Proof.
  induction l as [|a l IH]; intros s; [done|]. cbn. transitivity (answer a r s); [|apply IH].
  by eapply appends_answer.
Qed.

Lemma appends_create_or_wait a s : appends s (create_or_wait opts a s).
Proof.
  unfold create_or_wait, enqueue. destruct (room opts s); [by apply appends_same|].
  case_match; [by eapply appends_answer|]. split; [by exists [a]|].
  exists []. by rewrite app_nil_r.
Qed.

Lemma appends_doAcquire h now a s : appends s (doAcquire opts h now a s).
Proof.
  unfold doAcquire. destruct (closed s); [by eapply appends_answer|].
  destruct (scan h (connections s)) as [p|p|].
  - etransitivity; [|apply appends_create_or_wait]. by apply appends_same.
  - by eapply appends_answer.
  - apply appends_create_or_wait.
Qed.

Lemma appends_start cs sh s : appends s (start_warmup opts cs sh s).
Proof. unfold start_warmup. by case_decide; apply appends_same. Qed.

Lemma appends_connect_ok now i s : appends s (connect_ok now i s).
Proof.
  unfold connect_ok, warmup_connected.
  repeat first [case_match | case_decide]; by apply appends_same.
Qed.

Lemma appends_connect_fail i s : appends s (connect_fail i s).
Proof.
  unfold connect_fail, warmup_failed.
  destruct (tasks s !! i) as [[[a| |w]| | | |]|]; try by apply appends_same.
  - by eapply appends_answer.
  - destruct (warmups _ !! w) as [[wu|]|]; try by apply appends_same.
    etransitivity; [|apply appends_answers]. by apply appends_same.
Qed.

(** Serving a queue. *)
Lemma serve_waits c s w n :
  waits_at s w n →
  match n with
  | O => served (serve c s) w
  | S n => waits_at (serve c s) w n
  end ∧ ∃ r, answers (serve c s) = answers s ++ r.
Proof.
  intros (q1 & q2 & Hq & Hni & <-). unfold serve. rewrite Hq.
  destruct q1 as [|x q1]; cbn [app length].
  - split; [exists c; cbn; apply elem_of_app; right; left|by exists [(w, Ok c)]].
  - apply not_elem_of_cons in Hni as [_ Hni]. split; [by exists q1, q2|by exists [(x, Ok c)]].
Qed.

Lemma waits_appends s s' w n : appends s s' → waits_at s w n → waits_at s' w n.
Proof.
  intros [[q Hq] _] (q1 & q2 & H & Hni & <-). exists q1, (q2 ++ q). rewrite Hq, H.
  by rewrite <-(assoc_L (++)).
Qed.

Lemma served_appends s s' w : (∃ r, answers s' = answers s ++ r) → served s w → served s' w.
Proof. intros [r Hr] [c Hc]. exists c. rewrite Hr. apply elem_of_app. by left. Qed.

(** One step: the waiter moves up when the event serves, and never moves back. *)
Lemma step_waits s e w n :
  waits_at s w n → gives_up w e = false →
  if serves s e then
    match n with O => served (step opts s e) w | S n => waits_at (step opts s e) w n end
  else ∃ n', waits_at (step opts s e) w n' ∧ (n' <= n)%nat.
Proof.
  intros Hw Hg.
  assert (∀ s', appends s s' → ∃ n', waits_at s' w n' ∧ (n' <= n)%nat) as Happ.
  { intros s' Ha. exists n. split; [by eapply waits_appends|lia]. }
  destruct e as [|h now a|now i|i|h now i|h now a c|a|now|]; cbn [step serves gives_up] in *.
  - apply Happ, appends_start.
  - apply Happ. unfold acquire, join_warmup.
    destruct (initialized s); [apply appends_doAcquire|].
    destruct (closed s); [by eapply appends_answer|].
    destruct (initPromise s); [|apply appends_start]. repeat case_match; by apply appends_same.
  - apply Happ, appends_connect_ok.
  - apply Happ, appends_connect_fail.
  - unfold continue. destruct (tasks s !! i) as [t|]; [|by apply Happ].
    destruct t as [p|[a| |w'] c| |a|]; try (apply Happ; by apply appends_same).
    + apply Happ. by eapply appends_answer.
    + unfold add_task. rewrite serve_set_tasks.
      destruct (serve_waits c s w n Hw) as [H _]. by destruct n.
    + apply Happ. etransitivity; [|apply appends_doAcquire]. by apply appends_same.
  - unfold release_held, release. case_decide as Hin.
    + rewrite (bool_decide_eq_true_2 _ Hin). cbn [andb].
      change (connections (set_held (filter (.≠ (a, c)) (held s)) s)) with (connections s).
      destruct (existsb _ (connections s)); [|apply Happ; by apply appends_same].
      cbn [andb]. destruct (isClosed h c); cbn [negb andb].
      * apply Happ. unfold maybeCreateReplacement. repeat case_match; by apply appends_same.
      * destruct (isReady h c); [|apply Happ; by apply appends_same].
        apply serve_waits. destruct Hw as (q1 & q2 & ? & ? & ?). by exists q1, q2.
    + rewrite (bool_decide_eq_false_2 _ Hin). by apply Happ.
  - apply bool_decide_eq_false in Hg. destruct Hw as (q1 & q2 & Hq & Hni & <-).
    unfold wait_timeout. case_decide; [|exists (length q1); split; [by exists q1, q2|lia]].
    exists (length (filter (.≠ a) q1)). split; [|apply length_filter].
    exists (filter (.≠ a) q1), (filter (.≠ a) q2). split; [|split; [|done]].
    + cbn. by rewrite Hq, filter_app, filter_cons_True by congruence.
    + intros Hin. apply list_elem_of_filter in Hin as [_ ?]. done.
  - apply Happ. by apply appends_same.
  - done.
Qed.

Lemma step_answers s e : ∃ r, answers (step opts s e) = answers s ++ r.
Proof.
  assert (∀ s', appends s s' → ∃ r, answers s' = answers s ++ r) as Ha by by intros s' [_ ?].
  assert (∃ r : list (nat * result pool_error nat), answers s = answers s ++ r) as H0
    by (exists []; by rewrite app_nil_r).
  assert (∀ c s', answers s' = answers s → ∃ r, answers (serve c s') = answers s ++ r) as Hs.
  { intros c s' H. unfold serve. destruct (waitQueue s') as [|w q]; [by rewrite H|].
    exists [(w, Ok c)]. cbn. by rewrite H. }
  destruct e as [|h now a|now i|i|h now i|h now a c|a|now|]; cbn [step].
  - apply Ha, appends_start.
  - apply Ha. unfold acquire, join_warmup.
    destruct (initialized s); [apply appends_doAcquire|].
    destruct (closed s); [by eapply appends_answer|].
    destruct (initPromise s); [|apply appends_start]. repeat case_match; by apply appends_same.
  - apply Ha, appends_connect_ok.
  - apply Ha, appends_connect_fail.
  - unfold continue. destruct (tasks s !! i) as [t|]; [|done].
    destruct t as [p|[a| |w'] c| |a|]; try done.
    + by eexists [_].
    + unfold add_task. by apply Hs.
    + apply Ha. etransitivity; [|apply appends_doAcquire]. by apply appends_same.
  - unfold release_held, release, maybeCreateReplacement.
    repeat first [case_match | case_decide]; try done; by apply Hs.
  - unfold wait_timeout. case_decide; [by eexists [_]|done].
  - done.
  - unfold close.
    apply (a_answers _ _ (appends_answers (Throw PoolClosed) (waitQueue s)
             (set_waitQueue [] (set_closed s)))).
Qed.
End waiting.

(** ** Properties *)

Section claims.
Context (opts : options).

(** C21: over every interleaving of calls, connects, timers and deaths of connections, the
    connections of the pool and those being made together stay within the larger of
    [maxConnections] and [minConnections] while no more than one warm-up was started (by
    [initialize] or by the first acquire), and each further warm-up that was started raises
    the bound by [minConnections]; the queue of waiters stays within 100 and
    [pendingCreations] counts exactly the creations outside a warm-up that have not ended. *)
Theorem pool_bound (l : list event) :
  let s := run opts new_pool l in
  total s <= Z.max (Z.of_nat (minConnections opts)) (Z.of_nat (maxConnections opts)) +
             Z.of_nat (minConnections opts) * Z.max 0 (starts s - 1) ∧
  (length (waitQueue s) <= MAX_WAIT)%nat ∧
  pendingCreations s = weigh in_creation (tasks s).
Proof.
  cbv zeta. pose proof (bounded_run opts l _ (bounded_new opts)) as Hb.
  set (s := run opts new_pool l) in *. split; [|split; apply Hb].
  destruct (initialized s) eqn:Ei.
  - pose proof (b_total _ _ Hb Ei) as Ht.
    destruct (warm_total _ _ _ _ (b_warm _ _ Hb)) as [_ Hw]. destruct (Hw Ei) as [? _].
    unfold starts in *. nia.
  - destruct (b_cold _ _ Hb Ei) as (_ & _ & ?). unfold starts in *.
    destruct (warmups s); cbn [length] in *; nia.
Qed.

(** C22: as long as no acquire runs between the push of a new connection and the
    continuation that marks it used, no connection is ever held by two callers, and every
    pooled connection that is held is marked in use. *)
Theorem pool_exclusive (l : list event)
    (Hq : no_acquire_in_gap opts new_pool l = true) :
  let s := run opts new_pool l in
  NoDup (held s).*2 ∧ NoDup (conn <$> connections s) ∧
  ∀ p, p ∈ connections s → conn p ∈ (held s).*2 → inUse p = true.
Proof.
  cbv zeta. pose proof (exclusive_run opts l _ exclusive_new Hq) as Hx.
  split; [apply Hx|]. split; [apply Hx|]. apply Hx.
Qed.

(** C23: waiters are served first come, first served and none is overtaken in the queue:
    whatever else happens, the waiter with [n] waiters before it has its connection after
    [n + 1] healthy releases or replacements, unless it times out or the pool closes. *)
Theorem waiter_progress (s : PgPool) (l : list event) (w n : nat)
    (Hw : waits_at s w n) (Hg : Forall (λ e, gives_up w e = false) l)
    (Hs : (n < times_served opts s l)%nat) :
  served (run opts s l) w.
Proof.
  revert s n Hw Hs. induction Hg as [|e l He Hg IH]; intros s n Hw Hs; cbn in Hs; [lia|].
  cbn [run foldl]. fold (run opts (step opts s e) l).
  pose proof (step_waits opts s e w n Hw He) as Hstep. destruct (serves s e).
  - destruct n as [|n]; [|apply (IH _ n); [done|lia]].
    clear -Hstep. revert Hstep. generalize (step opts s e) as s'. induction l as [|e' l IH]; intros s' Hv.
    + done.
    + apply IH. eapply served_appends; [|exact Hv]. apply step_answers.
  - destruct Hstep as (n' & Hn' & Hle). apply (IH _ n'); [done|lia].
Qed.
End claims.

Definition sample_options : options :=
  {| minConnections := 1; maxConnections := 1; idleTimeoutMs := 30000 |}.
Definition healthy : health := {| isClosed := λ _, false; isReady := λ _, true |}.

Lemma pool_exclusive_witness :
  (held (run sample_options new_pool
     [EAcquire healthy 0 7; EConnectOk 1 0; EContinue healthy 2 0; EAcquire healthy 3 8;
      ERelease healthy 4 7 0])).*2 = [0%nat] ∧
  NoDup (held (run sample_options new_pool
     [EAcquire healthy 0 7; EConnectOk 1 0; EContinue healthy 2 0; EAcquire healthy 3 8;
      ERelease healthy 4 7 0])).*2.
Proof.
  split; [vm_compute; exact eq_refl|].
  refine (proj1 (pool_exclusive sample_options
    [EAcquire healthy 0 7; EConnectOk 1 0; EContinue healthy 2 0; EAcquire healthy 3 8;
     ERelease healthy 4 7 0] _)).
  vm_compute. exact eq_refl.
Defined.

Lemma waiter_progress_witness :
  served (run sample_options
    (run sample_options new_pool
       [EAcquire healthy 0 7; EConnectOk 1 0; EContinue healthy 2 0; EAcquire healthy 3 8;
        EAcquire healthy 3 9])
    [ESweep 5; ERelease healthy 6 7 0; ERelease healthy 7 8 0]) 9.
Proof.
  refine (waiter_progress sample_options _ _ 9 1 _ _ _).
  - exists [8%nat], []. split; [vm_compute; exact eq_refl|]. split; [|done].
    apply (bool_decide_unpack _). vm_compute. exact I.
  - repeat (apply Forall_cons_2; [vm_compute; exact eq_refl|]). constructor.
  - apply Nat.ltb_lt. vm_compute. exact eq_refl.
Defined.

(** An acquire that runs in the gap takes the connection that is being created for another
    caller: both hold it. *)
Lemma gap_hands_out_twice :
  held (run {| minConnections := 0; maxConnections := 2; idleTimeoutMs := 0 |} new_pool
    [EInitialize; EAcquire healthy 0 1; EConnectOk 1 0; EAcquire healthy 1 2;
     EContinue healthy 1 0]) = [(2, 0); (1, 0)]%nat.
Proof. vm_compute. exact eq_refl. Qed.

(** A direct [initialize] and the warm-up of a first [acquire] both make
    [minConnections]. *)
Lemma two_warmups_exceed_max :
  length (connections (run {| minConnections := 2; maxConnections := 2; idleTimeoutMs := 0 |}
    new_pool [EInitialize; EAcquire healthy 0 1; EConnectOk 1 0; EConnectOk 1 0;
              EConnectOk 1 0; EConnectOk 1 0])) = 4%nat.
Proof. vm_compute. exact eq_refl. Qed.

Lemma pool_bound_witness :
  let s := run {| minConnections := 2; maxConnections := 2; idleTimeoutMs := 0 |} new_pool
    [EInitialize; EAcquire healthy 0 1; EConnectOk 1 0; EConnectOk 1 0;
     EConnectOk 1 0; EConnectOk 1 0] in
  starts s = 2 ∧ total s = 4 ∧ total s <= Z.max 2 2 + 2 * Z.max 0 (starts s - 1).
Proof.
  cbv zeta. split; [vm_compute; exact eq_refl|]. split; [vm_compute; exact eq_refl|].
  exact (proj1 (pool_bound {| minConnections := 2; maxConnections := 2; idleTimeoutMs := 0 |}
    [EInitialize; EAcquire healthy 0 1; EConnectOk 1 0; EConnectOk 1 0;
     EConnectOk 1 0; EConnectOk 1 0])).
Defined.

(** A connection that was being made when the pool was closed is handed out and stays in
    the closed pool. *)
Lemma close_leaks_connection :
  let s := run sample_options new_pool
    [EInitialize; EConnectOk 0 0; EAcquire healthy 1 1; ERelease
       {| isClosed := λ _, true; isReady := λ _, false |} 2 1 0; EClose;
     EContinue healthy 3 1; EConnectOk 4 0; EContinue healthy 5 0; EContinue healthy 6 0] in
  closed s = true ∧ tasks s = [] ∧ (conn <$> connections s) = [1%nat].
Proof. vm_compute. repeat split. Qed.

(** A connection released while it is not ready is put back without serving the queue; once
    it is ready again a newcomer takes it and the waiter is left to its timeout. *)
Lemma unready_release_strands_waiter :
  let s := run sample_options new_pool
    [EInitialize; EConnectOk 0 0; EAcquire healthy 1 1; EAcquire healthy 1 2;
     ERelease {| isClosed := λ _, false; isReady := λ _, false |} 2 1 0;
     EAcquire healthy 3 3] in
  held s = [(3, 0)]%nat ∧ waitQueue s = [2%nat].
Proof. vm_compute. repeat split. Qed.
