(* ===== verification/Events.v ===== *)
(** * The event bus: wildcard matching, the subscription registry, delivery

    Models src/packages/events/src/matcher.ts, emitter.ts and the delivery loop of
    facade.ts.  A subscription object is named by its [order], which is its place in the
    arena [subs]; the sets of the registry hold such names in insertion order.  Listeners,
    middleware, telemetry and the event store are not modelled: a delivery is a sequence of
    steps between which anything may happen to the registry, since every listener is
    awaited. *)

From Stdlib Require Import Ascii String.
From S2P Require Import Prelude JsText JsMap.

Abbreviation text := (list ascii) (only parsing).

(** ** The matcher *)

Definition star : text := ["*"%char].
Definition star2 : text := ["*"%char; "*"%char].

Definition isWildcard (pattern : text) : bool := bool_decide ("*"%char ∈ pattern).

Fixpoint matchSegments (pat name : list text) : bool :=
  match pat with
  | [] => match name with [] => true | _ => false end
  | head :: patRest =>
      if decide (head = star2) then
        existsb (λ take, matchSegments patRest (drop take name)) (List.seq 1 (length name))
      else
        match name with
        | [] => false
        | seg :: nameRest =>
            if bool_decide (head = star) || bool_decide (head = seg)
            then matchSegments patRest nameRest else false
        end
  end.

Definition matchesPattern (name pattern : text) : bool :=
  if isWildcard pattern then matchSegments (split_on "."%char pattern) (split_on "."%char name)
  else bool_decide (name = pattern).

(** What a pattern means: [*] is one segment, [**] one or more, the rest stands for
    itself. *)
Inductive seg_match : list text → list text → Prop :=
| match_nil : seg_match [] []
| match_star seg pat name : seg_match pat name → seg_match (star :: pat) (seg :: name)
| match_star2 segs pat name :
    segs ≠ [] → seg_match pat name → seg_match (star2 :: pat) (segs ++ name)
| match_literal seg pat name : seg_match pat name → seg_match (seg :: pat) (seg :: name).

(** ** The registry *)

Record Subscription := {
  order : nat;
  key : text;
  wildcard : bool;
  once : bool;
  active : bool
}.

Record Emitter := {
  subs : list Subscription;             (* all subscription objects, by [order] *)
  exact : list (text * list nat);       (* [Map<string, Set<Subscription>>] *)
  wildcards : list nat                  (* [Set<Subscription>] *)
}.

Definition new_emitter : Emitter := {| subs := []; exact := []; wildcards := [] |}.

Definition add (k : text) (o : bool) (e : Emitter) : Emitter :=
  let n := length (subs e) in
  let w := isWildcard k in
  let sub := {| order := n; key := k; wildcard := w; once := o; active := true |} in
  if w then
    {| subs := subs e ++ [sub]; exact := exact e; wildcards := wildcards e ++ [n] |}
  else
    {| subs := subs e ++ [sub];
       exact := jm_set k (default [] (jm_get k (exact e)) ++ [n]) (exact e);
       wildcards := wildcards e |}.

Definition deactivate (s : Subscription) : Subscription :=
  {| order := order s; key := key s; wildcard := wildcard s; once := once s; active := false |}.

Definition remove (n : nat) (e : Emitter) : Emitter :=
  match subs e !! n with
  | None => e
  | Some sub =>
      if active sub then
        let l := <[n := deactivate sub]> (subs e) in
        if wildcard sub then
          {| subs := l; exact := exact e; wildcards := filter (.≠ n) (wildcards e) |}
        else
          {| subs := l;
             exact := match jm_get (key sub) (exact e) with
                      | Some set =>
                          match filter (.≠ n) set with
                          | [] => jm_delete (key sub) (exact e)
                          | set => jm_set (key sub) set (exact e)
                          end
                      | None => exact e
                      end;
             wildcards := wildcards e |}
      else e
  end.

Definition is_active (e : Emitter) (n : nat) : bool :=
  match subs e !! n with Some sub => active sub | None => false end.
Definition sub_matches (e : Emitter) (name : text) (n : nat) : bool :=
  match subs e !! n with Some sub => matchesPattern name (key sub) | None => false end.

(** [resolve]; the sort is JavaScript's stable sort on the distinct orders. *)
Definition resolve (name : text) (e : Emitter) : list nat :=
  let exactSet := default [] (jm_get name (exact e)) in
  let matches := filter (λ n, is_active e n = true) exactSet ++
    filter (λ n, is_active e n = true ∧ sub_matches e name n = true) (wildcards e) in
  merge_sort (≤)%nat matches.

Definition listenerCount_name (name : text) (e : Emitter) : nat :=
  length (filter (λ n, is_active e n = true) (default [] (jm_get name (exact e)))) +
  length (filter (λ n, is_active e n = true ∧ sub_matches e name n = true) (wildcards e)).
Definition listenerCount_all (e : Emitter) : nat :=
  sum_list ((λ set, length (filter (λ n, is_active e n = true) set)) <$> jm_values (exact e)) +
  length (filter (λ n, is_active e n = true) (wildcards e)).
Definition patternCount (e : Emitter) : nat :=
  length (filter (λ n, is_active e n = true) (wildcards e)).

Definition deactivate_all (l : list nat) (e : list Subscription) : list Subscription :=
  foldl (λ e n, alter deactivate n e) e l.
Definition clear (e : Emitter) : Emitter :=
  {| subs := deactivate_all (wildcards e) (deactivate_all (mjoin (jm_values (exact e))) (subs e));
     exact := []; wildcards := [] |}.

(** ** Deliveries

    A published event holds the snapshot of [resolve] and walks it; every step runs up to
    the await of one listener. *)

Record Bus := {
  emitter : Emitter;
  deliveries : list (list nat);    (* what each delivery has left *)
  invoked : list (nat * nat)       (* the listeners invoked, by delivery, in order *)
}.

Definition new_bus : Bus := {| emitter := new_emitter; deliveries := []; invoked := [] |}.

(** One turn of the loop of [deliver] for the delivery [i]. *)
Definition advance (i : nat) (b : Bus) : Bus :=
  match deliveries b !! i with
  | Some (n :: rest) =>
      let ds := <[i := rest]> (deliveries b) in
      match subs (emitter b) !! n with
      | Some sub =>
          if active sub then
            {| emitter := if once sub then remove n (emitter b) else emitter b;
               deliveries := ds; invoked := invoked b ++ [(i, n)] |}
          else {| emitter := emitter b; deliveries := ds; invoked := invoked b |}
      | None => {| emitter := emitter b; deliveries := ds; invoked := invoked b |}
      end
  | _ => b
  end.

Inductive bus_event : Type :=
| BAdd (k : text) (o : bool)
| BRemove (n : nat)
| BClear
| BPublish (name : text)
| BAdvance (i : nat).

Definition bus_step (b : Bus) (ev : bus_event) : Bus :=
  match ev with
  | BAdd k o => {| emitter := add k o (emitter b); deliveries := deliveries b; invoked := invoked b |}
  | BRemove n => {| emitter := remove n (emitter b); deliveries := deliveries b; invoked := invoked b |}
  | BClear => {| emitter := clear (emitter b); deliveries := deliveries b; invoked := invoked b |}
  | BPublish name =>
      {| emitter := emitter b; deliveries := deliveries b ++ [resolve name (emitter b)];
         invoked := invoked b |}
  | BAdvance i => advance i b
  end.
Definition bus_run (b : Bus) (l : list bus_event) : Bus := foldl bus_step b l.

(** ** The matcher meets its specification *)

Lemma matchSegments_spec pat : ∀ name, matchSegments pat name = true ↔ seg_match pat name.
Proof.
  induction pat as [|head pat IH]; intros name; cbn [matchSegments].
  - destruct name as [|seg name]; split; try done; [constructor|inversion 1].
  - destruct (decide (head = star2)) as [->|Hne].
    + rewrite existsb_exists. split.
      * intros (n & Hin & Hm). apply in_seq in Hin. apply IH in Hm.
        rewrite <-(take_drop n name). apply match_star2; [|done].
        destruct n, name; cbn in *; try done; lia.
      * inversion 1 as [|seg p n Hm|segs p n Hs Hm|seg p n Hm]; subst; try done.
        -- exists (length segs). split; [|by rewrite drop_app_length; apply IH].
           apply in_seq. rewrite length_app. destruct segs; [done|]. cbn. lia.
        -- exists 1. split; [apply in_seq; cbn; lia|]. by apply IH.
    + destruct name as [|seg name].
      * split; [done|]. inversion 1 as [| |segs p n Hs Hm E1 E2|]; subst. done.
      * destruct (bool_decide (head = star) || bool_decide (head = seg)) eqn:E.
        -- rewrite IH. apply orb_true_iff in E as [E|E]; apply bool_decide_eq_true in E as ->.
           ++ split; [by constructor|]. inversion 1; subst; done.
           ++ split; [by apply match_literal|]. inversion 1; subst; done.
        -- apply orb_false_iff in E as [E1 E2]. apply bool_decide_eq_false in E1, E2.
           split; [done|]. inversion 1; subst; done.
Qed.

Lemma split_on_inj sep l l' : split_on sep l = split_on sep l' → l = l'.
Proof.
  assert (∀ l, split_on sep l ≠ []) as Hne.
  { intros k. induction k as [|c k IH]; cbn; [done|]. case_decide; [done|]. by destruct (split_on sep k). }
  revert l'. induction l as [|c l IH]; intros [|c' l']; cbn [split_on]; try done.
  - destruct (decide (c' = sep)); [|by destruct (split_on sep l')].
    intros H. injection H as H. by destruct (Hne l').
  - destruct (decide (c = sep)); [|by destruct (split_on sep l)].
    intros H. injection H as H. by destruct (Hne l).
  - destruct (decide (c = sep)) as [->|Hc], (decide (c' = sep)) as [->|Hc'].
    + intros [= H]. f_equal. by apply IH.
    + by destruct (split_on sep l').
    + by destruct (split_on sep l).
    + destruct (split_on sep l) as [|p ps] eqn:El; [by destruct (Hne l)|].
      destruct (split_on sep l') as [|p' ps'] eqn:El'; [by destruct (Hne l')|].
      intros [= -> -> ->]. f_equal. apply IH. by rewrite El'.
Qed.

Lemma split_on_subset sep l s c : s ∈ split_on sep l → c ∈ s → c ∈ l.
Proof.
  revert s. induction l as [|d l IH]; intros s; cbn [split_on].
  - intros ->%list_elem_of_singleton. done.
  - case_decide.
    + intros [->|H']%elem_of_cons Hc; [by apply not_elem_of_nil in Hc|].
      right. by eapply IH.
    + destruct (split_on sep l) as [|p ps].
      * intros ->%list_elem_of_singleton [->|?]%elem_of_cons; [left|by apply not_elem_of_nil in H0].
      * intros [->|H']%elem_of_cons Hc.
        -- apply elem_of_cons in Hc as [->|Hc]; [left|]. right. eapply IH; [left|done].
        -- right. eapply IH; [by right|done].
Qed.

Lemma seg_match_literal pat name :
  Forall (λ s, "*"%char ∉ s) pat → seg_match pat name ↔ name = pat.
Proof.
  intros Hp. split.
  - intros Hm. induction Hm as [|seg p n Hm IH|segs p n Hs Hm IH|seg p n Hm IH]; [done|..];
      apply Forall_cons in Hp as [Hh Hp].
    + destruct Hh. left.
    + destruct Hh. left.
    + by rewrite IH.
  - intros ->. clear Hp. induction pat; by constructor.
Qed.

Lemma matchesPattern_spec name pattern :
  matchesPattern name pattern = true ↔
    seg_match (split_on "."%char pattern) (split_on "."%char name).
Proof.
  unfold matchesPattern, isWildcard. case_bool_decide as Hw; [apply matchSegments_spec|].
  rewrite bool_decide_eq_true, seg_match_literal.
  - split; [by intros ->|]. intros H. by apply split_on_inj in H.
  - apply Forall_forall. intros s Hs Hin. apply Hw. by eapply split_on_subset.
Qed.

(** ** The registry's invariant *)

Definition live (e : Emitter) (P : Subscription → bool) (n : nat) : Prop :=
  match subs e !! n with Some s => active s && P s = true | None => False end.
#[export] Instance live_dec e P n : Decision (live e P n).
Proof. unfold live. destruct (subs e !! n); apply _. Defined.

(** The active subscriptions that satisfy [P], in registration order. *)
Definition live_list (e : Emitter) (P : Subscription → bool) : list nat :=
  filter (live e P) (List.seq 0 (length (subs e))).

Definition on_key (k : text) (s : Subscription) : bool :=
  negb (wildcard s) && bool_decide (key s = k).

Record registry_ok (e : Emitter) : Prop := {
  o_subs : ∀ n s, subs e !! n = Some s → order s = n ∧ wildcard s = isWildcard (key s);
  o_wf : jm_wf (exact e);
  o_exact : ∀ k, default [] (jm_get k (exact e)) = live_list e (on_key k);
  o_nonempty : ∀ k, jm_get k (exact e) ≠ Some [];
  o_wild : wildcards e = live_list e wildcard
}.

Lemma live_list_add e P sub ex w :
  live_list {| subs := subs e ++ [sub]; exact := ex; wildcards := w |} P =
    live_list e P ++ (if active sub && P sub then [length (subs e)] else []).
Proof.
  unfold live_list. cbn [subs]. rewrite length_app, seq_app, filter_app. cbn [length List.seq].
  f_equal.
  - apply filter_iff_in. intros n Hn. apply list_elem_of_In, in_seq in Hn. unfold live. cbn [subs].
    by rewrite lookup_app_l by lia.
  - rewrite filter_cons. case_decide as Hl; unfold live in Hl; cbn [subs Nat.add] in Hl;
      rewrite list_lookup_middle in Hl by done; by destruct (active sub && P sub).
Qed.

Lemma live_list_remove e P n sub ex w :
  subs e !! n = Some sub →
  live_list {| subs := <[n := deactivate sub]> (subs e); exact := ex; wildcards := w |} P =
    filter (.≠ n) (live_list e P).
Proof.
  intros Hn. unfold live_list. cbn [subs]. rewrite length_insert, list_filter_filter.
  apply filter_iff_in. intros m _. unfold live. cbn [subs].
  destruct (decide (m = n)) as [->|Hne].
  - rewrite list_lookup_insert_eq by (by eapply lookup_lt_Some). cbn. rewrite Hn. naive_solver.
  - rewrite list_lookup_insert_ne by done. naive_solver.
Qed.

Lemma filter_ne_absent (n : nat) (l : list nat) : n ∉ l → filter (.≠ n) l = l.
Proof. intros H. apply filter_all, Forall_forall. by intros x Hx ->. Qed.

Lemma live_list_in e P n : n ∈ live_list e P ↔ live e P n.
Proof.
  unfold live_list. rewrite list_elem_of_filter, list_elem_of_In, in_seq. split; [tauto|].
  intros Hl. split; [done|]. unfold live in Hl. destruct (subs e !! n) eqn:E; [|done].
  apply lookup_lt_Some in E. lia.
Qed.

Lemma add_ok k o e : registry_ok e → registry_ok (add k o e).
Proof.
  intros [H1 H2 H3 H4 H5]. unfold add.
  set (sub := {| order := _; key := k; wildcard := isWildcard k; once := o; active := true |}).
  assert (∀ n s, (subs e ++ [sub]) !! n = Some s → order s = n ∧ wildcard s = isWildcard (key s)) as H1'.
  { intros n s Hs. apply lookup_app_Some in Hs as [Hs|[Hlt Hs]]; [by apply H1|].
    destruct (n - length (subs e))%nat eqn:E; [|done]. cbn in Hs. injection Hs as <-.
    split; [cbn; lia|done]. }
  destruct (isWildcard k) eqn:Ew; split; cbn [subs exact wildcards]; try done; try intros k'.
  - rewrite live_list_add. cbn [active sub andb on_key wildcard negb]. by rewrite app_nil_r.
  - rewrite live_list_add, H5. done.
  - by apply jm_set_wf.
  - rewrite live_list_add. unfold on_key. cbn [active sub andb wildcard negb key].
    destruct (decide (k' = k)) as [->|Hne].
    + rewrite jm_get_set_eq, bool_decide_eq_true_2 by done. cbn. by rewrite H3.
    + rewrite jm_get_set_ne, bool_decide_eq_false_2, app_nil_r by done. apply H3.
  - destruct (decide (k' = k)) as [->|Hne].
    + rewrite jm_get_set_eq. intros [= H]. by apply app_eq_nil in H as [_ ?].
    + rewrite jm_get_set_ne by done. apply H4.
  - rewrite live_list_add, H5. cbn [active sub andb wildcard]. by rewrite app_nil_r.
Qed.

Lemma remove_subs_ok n sub e :
  registry_ok e → subs e !! n = Some sub →
  ∀ m s, <[n := deactivate sub]> (subs e) !! m = Some s →
    order s = m ∧ wildcard s = isWildcard (key s).
Proof.
  intros Hok Hn m s. destruct (decide (m = n)) as [->|Hne].
  - rewrite list_lookup_insert_eq by (by eapply lookup_lt_Some). intros [= <-].
    exact (o_subs _ Hok n sub Hn).
  - rewrite list_lookup_insert_ne by done. apply Hok.
Qed.

Lemma remove_ok n e : registry_ok e → registry_ok (remove n e).
Proof.
  intros Hok. unfold remove. destruct (subs e !! n) as [sub|] eqn:Hn; [|done].
  destruct (active sub) eqn:Ha; [|done]. pose proof (remove_subs_ok n sub e Hok Hn) as H1'.
  destruct Hok as [H1 H2 H3 H4 H5].
  assert (∀ P, P sub = false → n ∉ live_list e P) as Hni.
  { intros P HP. rewrite live_list_in. unfold live. rewrite Hn, HP, andb_false_r. done. }
  destruct (wildcard sub) eqn:Hw; split; cbn [subs exact wildcards]; try done.
  - intros k. rewrite (live_list_remove _ _ _ _ _ _ Hn), filter_ne_absent; [apply H3|].
    apply Hni. unfold on_key. by rewrite Hw.
  - by rewrite (live_list_remove _ _ _ _ _ _ Hn), H5.
  - repeat case_match; auto using jm_set_wf, jm_delete_wf.
  - intros k. rewrite (live_list_remove _ _ _ _ _ _ Hn), <-H3.
    destruct (decide (k = key sub)) as [->|Hne].
    + destruct (jm_get (key sub) (exact e)) as [set|] eqn:E; [|by rewrite E].
      cbn [default from_option id].
      destruct (filter (.≠ n) set) eqn:Ef; [by rewrite jm_get_delete_eq|].
      by rewrite jm_get_set_eq.
    + assert (n ∉ default [] (jm_get k (exact e))) as Hk.
      { rewrite H3. apply Hni. unfold on_key. by rewrite Hw, bool_decide_eq_false_2. }
      rewrite (filter_ne_absent n _ Hk). f_equal.
      destruct (jm_get (key sub) (exact e)) as [set|]; [|done].
      destruct (filter (.≠ n) set); [by apply jm_get_delete_ne|by apply jm_get_set_ne].
  - intros k. destruct (jm_get (key sub) (exact e)) as [set|] eqn:E; [|apply H4].
    destruct (decide (k = key sub)) as [->|Hne].
    + destruct (filter (.≠ n) set) eqn:Ef; [by rewrite jm_get_delete_eq|by rewrite jm_get_set_eq].
    + destruct (filter (.≠ n) set); [rewrite jm_get_delete_ne by done|rewrite jm_get_set_ne by done];
        apply H4.
  - rewrite (live_list_remove _ _ _ _ _ _ Hn), filter_ne_absent; [apply H5|]. by apply Hni.
Qed.

Lemma deactivate_all_lookup l : ∀ ss n,
  deactivate_all l ss !! n = (λ s, if decide (n ∈ l) then deactivate s else s) <$> (ss !! n).
Proof.
  induction l as [|m l IH]; intros ss n; unfold deactivate_all; cbn [foldl].
  - destruct (ss !! n); cbn; [|done]. by rewrite decide_False by apply not_elem_of_nil.
  - fold (deactivate_all l (alter deactivate m ss)). rewrite IH.
    destruct (decide (m = n)) as [->|Hne].
    + rewrite list_lookup_alter_eq. destruct (ss !! n); cbn; [|done].
      rewrite (decide_True (P := n ∈ n :: l)) by left. by case_decide.
    + rewrite list_lookup_alter_ne by done. destruct (ss !! n); cbn; [|done].
      do 2 f_equal. apply decide_ext. rewrite elem_of_cons. naive_solver.
Qed.

Lemma clear_dead e n s : registry_ok e → subs (clear e) !! n = Some s → active s = false.
Proof.
  intros Hok. cbn [clear subs]. rewrite !deactivate_all_lookup.
  destruct (subs e !! n) as [sub|] eqn:E; cbn; [|done].
  intros [= <-]. destruct (active sub) eqn:Ha; [|by repeat case_decide].
  destruct (wildcard sub) eqn:Hw.
  - assert (n ∈ wildcards e) as Hin.
    { rewrite (o_wild _ Hok), live_list_in. unfold live. by rewrite E, Ha, Hw. }
    by repeat case_decide.
  - assert (n ∈ default [] (jm_get (key sub) (exact e))) as Hin.
    { rewrite (o_exact _ Hok), live_list_in. unfold live, on_key. rewrite E, Ha, Hw.
      by rewrite bool_decide_eq_true_2. }
    destruct (jm_get (key sub) (exact e)) as [set|] eqn:Eg; [|by apply not_elem_of_nil in Hin].
    assert (n ∈ mjoin (jm_values (exact e))) as Hj.
    { apply list_elem_of_join. exists set. split; [done|].
      apply list_elem_of_fmap. exists (key sub, set). split; [done|]. by apply jm_get_elem. }
    by repeat case_decide.
Qed.

Lemma clear_ok e : registry_ok e → registry_ok (clear e).
Proof.
  intros Hok. assert (∀ P, live_list (clear e) P = []) as Hnil.
  { intros P. apply filter_none, Forall_forall. intros n _. unfold live.
    destruct (subs (clear e) !! n) as [s|] eqn:E; [|tauto].
    by rewrite (clear_dead _ _ _ Hok E). }
  split; try (by constructor); try done.
  - intros n s. cbn [clear subs]. rewrite !deactivate_all_lookup.
    destruct (subs e !! n) as [sub|] eqn:E; cbn; [|done]. intros [= <-].
    destruct (o_subs _ Hok _ _ E). by repeat case_decide.
Qed.

Lemma new_emitter_ok : registry_ok new_emitter.
Proof. split; try done. by constructor. Qed.

(** ** [resolve] *)

Lemma filter_app_perm {A} (P Q : A → Prop) `{!∀ x, Decision (P x), !∀ x, Decision (Q x)}
    (l : list A) :
  (∀ x, x ∈ l → P x → ¬ Q x) → filter P l ++ filter Q l ≡ₚ filter (λ x, P x ∨ Q x) l.
Proof.
  induction l as [|x l IH]; intros Hd; [done|].
  assert (filter P l ++ filter Q l ≡ₚ filter (λ x, P x ∨ Q x) l) as Hl
    by (apply IH; intros; apply Hd; [by right|done]).
  specialize (Hd x ltac:(left)). rewrite !filter_cons.
  destruct (decide (P x)), (decide (Q x)), (decide (P x ∨ Q x)); try tauto; cbn [app].
  - by rewrite Hl.
  - by rewrite <-Permutation_middle, Hl.
Qed.

Lemma seq_sorted n : ∀ m, StronglySorted (≤)%nat (List.seq m n).
Proof.
  induction n as [|n IH]; intros m; cbn; constructor; [apply IH|].
  apply Forall_forall. intros x Hx. apply list_elem_of_In, in_seq in Hx. lia.
Qed.

Lemma filter_sorted (P : nat → Prop) `{!∀ x, Decision (P x)} l :
  StronglySorted (≤)%nat l → StronglySorted (≤)%nat (filter P l).
Proof.
  induction 1 as [|x l Hl IH Hx]; [constructor|]. rewrite filter_cons. case_decide; [|done].
  constructor; [done|]. rewrite Forall_forall in *. intros y Hy. apply Hx.
  by apply list_elem_of_filter in Hy as [_ ?].
Qed.

Lemma merge_sort_sorted_perm (l l' : list nat) :
  StronglySorted (≤)%nat l' → l ≡ₚ l' → merge_sort (≤)%nat l = l'.
Proof.
  intros Hs Hp. apply (StronglySorted_unique (≤)%nat).
  - apply Sorted_StronglySorted; [intros ???; lia|]. apply Sorted_merge_sort. intros x y. lia.
  - done.
  - by rewrite merge_sort_Permutation.
Qed.

Definition matching (name : text) (s : Subscription) : bool := matchesPattern name (key s).

Lemma exact_filter name e :
  registry_ok e →
  filter (λ n, is_active e n = true) (default [] (jm_get name (exact e))) =
    live_list e (on_key name).
Proof.
  intros Hok. rewrite (o_exact _ Hok). apply filter_all, Forall_forall. intros n Hn.
  apply live_list_in in Hn. unfold live in Hn. unfold is_active.
  destruct (subs e !! n); [|done]. by apply andb_true_iff in Hn as [? _].
Qed.

Lemma wild_filter name e :
  registry_ok e →
  filter (λ n, is_active e n = true ∧ sub_matches e name n = true) (wildcards e) =
    live_list e (λ s, wildcard s && matching name s).
Proof.
  intros Hok. rewrite (o_wild _ Hok). unfold live_list. rewrite list_filter_filter.
  apply filter_iff_in. intros n _. unfold live, is_active, sub_matches, matching.
  destruct (subs e !! n) as [s|]; [|naive_solver].
  destruct (active s), (wildcard s), (matchesPattern name (key s)); cbn; naive_solver.
Qed.

Lemma matching_split name e n :
  registry_ok e →
  live e (matching name) n ↔
    live e (on_key name) n ∨ live e (λ s, wildcard s && matching name s) n.
Proof.
  intros Hok. unfold live, on_key, matching. destruct (subs e !! n) as [s|] eqn:E; [|tauto].
  destruct (o_subs _ Hok _ _ E) as [_ Hw]. destruct (active s); cbn [andb]; [|naive_solver].
  destruct (wildcard s) eqn:Ew; cbn [negb andb orb]; [naive_solver|].
  unfold matchesPattern. rewrite <-Hw. rewrite !bool_decide_eq_true. naive_solver.
Qed.

Lemma resolve_live name e : registry_ok e → resolve name e = live_list e (matching name).
Proof.
  intros Hok. unfold resolve. rewrite exact_filter, wild_filter by done.
  apply merge_sort_sorted_perm; [apply filter_sorted, seq_sorted|].
  unfold live_list. rewrite filter_app_perm.
  - erewrite filter_iff_in; [reflexivity|]. intros n _. symmetry. by apply matching_split.
  - intros n _. unfold live, on_key. destruct (subs e !! n) as [s|]; [|tauto].
    destruct (active s), (wildcard s); cbn; naive_solver.
Qed.

Lemma bus_ok ev b : registry_ok (emitter b) → registry_ok (emitter (bus_step b ev)).
Proof.
  intros Hok. destruct ev as [k o|n| |name|i]; cbn [bus_step emitter];
    auto using add_ok, remove_ok, clear_ok.
  unfold advance. destruct (deliveries b !! i) as [[|n rest]|]; try done.
  destruct (subs (emitter b) !! n) as [sub|]; [|done].
  destruct (active sub); [|done]. cbn. destruct (once sub); [by apply remove_ok|done].
Qed.

Lemma bus_run_ok l : ∀ b, registry_ok (emitter b) → registry_ok (emitter (bus_run b l)).
Proof. induction l as [|ev l IH]; intros b Hok; [done|]. by apply IH, bus_ok. Qed.

(** ** What a subscription goes through

    A step keeps every subscription object but for its [active] flag, which is never set
    again. *)

Definition evolves (e e' : Emitter) : Prop :=
  ∀ n s, subs e !! n = Some s → ∃ s', subs e' !! n = Some s' ∧ once s' = once s ∧ key s' = key s ∧
    (active s = false → active s' = false).

#[export] Instance evolves_preorder : PreOrder evolves.
Proof.
  split; [intros e n s Hn; by exists s|]. intros e1 e2 e3 H12 H23 n s Hn.
  destruct (H12 n s Hn) as (s2 & Hn2 & ? & ? & ?). destruct (H23 n s2 Hn2) as (s3 & ? & ? & ? & ?).
  exists s3. split; [done|]. repeat split; [congruence..|auto].
Qed.

Lemma add_evolves k o e : evolves e (add k o e).
Proof.
  intros n s Hn. exists s. split; [|done]. unfold add. case_match; cbn; by apply lookup_app_l_Some.
Qed.

Lemma remove_subs n e sub :
  subs e !! n = Some sub → subs (remove n e) = <[n := if active sub then deactivate sub else sub]> (subs e).
Proof.
  intros Hn. unfold remove. rewrite Hn. destruct (active sub); [by case_match|].
  by rewrite list_insert_id.
Qed.

Lemma remove_evolves m e : evolves e (remove m e).
Proof.
  intros n s Hn. destruct (subs e !! m) as [sub|] eqn:Hm.
  - rewrite (remove_subs _ _ _ Hm). destruct (decide (n = m)) as [->|Hne].
    + rewrite list_lookup_insert_eq by (by eapply lookup_lt_Some). rewrite Hn in Hm.
      injection Hm as <-. eexists. split; [done|]. by destruct (active s) eqn:?.
    + rewrite list_lookup_insert_ne by done. by exists s.
  - unfold remove. rewrite Hm. by exists s.
Qed.

Lemma clear_evolves e : evolves e (clear e).
Proof.
  intros n s Hn. cbn [clear subs]. rewrite !deactivate_all_lookup, Hn. eexists.
  split; [done|]. by repeat case_decide.
Qed.

Lemma bus_evolves b ev : evolves (emitter b) (emitter (bus_step b ev)).
Proof.
  destruct ev as [k o|n| |name|i]; cbn [bus_step emitter];
    [apply add_evolves|apply remove_evolves|apply clear_evolves|done|].
  unfold advance. destruct (deliveries b !! i) as [[|n rest]|]; try done.
  destruct (subs (emitter b) !! n) as [sub|]; [|done].
  destruct (active sub); [|done]. cbn. destruct (once sub); [apply remove_evolves|done].
Qed.

Definition times_invoked (n : nat) (b : Bus) : nat := length (filter (λ x, x.2 = n) (invoked b)).

Record once_ok (b : Bus) : Prop := {
  n_known : Forall (λ x, (x.2 < length (subs (emitter b)))%nat) (invoked b);
  n_once : ∀ n s, subs (emitter b) !! n = Some s → once s = true →
    times_invoked n b = 0 ∨ (times_invoked n b = 1 ∧ active s = false)
}.

Lemma evolves_length e e' : evolves e e' → (length (subs e) <= length (subs e'))%nat.
Proof.
  intros H. destruct (decide (length (subs e) = 0)) as [->|Hne]; [lia|].
  destruct (lookup_lt_is_Some_2 (subs e) (length (subs e) - 1)) as [s Hs]; [lia|].
  destruct (H _ _ Hs) as (s' & Hs' & _). apply lookup_lt_Some in Hs'. lia.
Qed.

(** Steps that invoke nobody. *)
Lemma once_ok_quiet b b' :
  once_ok b → evolves (emitter b) (emitter b') → invoked b' = invoked b → once_ok b'.
Proof.
  intros [H1 H2] Hev Hi. split.
  - rewrite Hi. eapply Forall_impl; [exact H1|]. intros x Hx.
    pose proof (evolves_length _ _ Hev). cbn in *. lia.
  - intros n s' Hn Ho. unfold times_invoked in *. rewrite Hi.
    destruct (subs (emitter b) !! n) as [s|] eqn:E.
    + destruct (Hev n s E) as (s2 & Hn2 & Hs & _ & Ha). rewrite Hn in Hn2. injection Hn2 as <-.
      destruct (H2 n s E ltac:(congruence)) as [?|[? ?]]; [by left|right; auto].
    + left. rewrite filter_none; [done|]. eapply Forall_impl; [exact H1|].
      intros x Hx; cbn in *; intros Hxn. apply lookup_ge_None in E. lia.
Qed.

Lemma times_invoked_app n b e ds i m :
  times_invoked n {| emitter := e; deliveries := ds; invoked := invoked b ++ [(i, m)] |} =
    times_invoked n b + (if decide (m = n) then 1 else 0).
Proof.
  unfold times_invoked. cbn [invoked]. rewrite filter_app, length_app, filter_cons. cbn [snd].
  by case_decide.
Qed.

Lemma once_ok_step b ev : once_ok b → once_ok (bus_step b ev).
Proof.
  intros Hok. pose proof (bus_evolves b ev) as Hev.
  destruct ev as [k o|n| |name|i]; try by apply (once_ok_quiet b).
  cbn [bus_step] in *. unfold advance in *.
  destruct (deliveries b !! i) as [[|n rest]|]; try done.
  destruct (subs (emitter b) !! n) as [sub|] eqn:Hn; [|by apply (once_ok_quiet b)].
  destruct (active sub) eqn:Ha; [|by apply (once_ok_quiet b)]. destruct Hok as [H1 H2].
  pose proof (evolves_length _ _ Hev) as Hlen. cbn [emitter] in *. split; cbn [invoked emitter].
  - apply Forall_app. split; [eapply Forall_impl; [exact H1|]; cbn; lia|].
    apply Forall_singleton. cbn. apply lookup_lt_Some in Hn. lia.
  - intros m s Hm Ho. rewrite times_invoked_app. destruct (decide (n = m)) as [<-|Hne].
    + destruct (Hev n sub Hn) as (s' & Hn' & Hos & _). rewrite Hm in Hn'. injection Hn' as <-.
      assert (once sub = true) as Hos' by congruence.
      destruct (H2 n sub Hn Hos') as [->|[_ ?]]; [|congruence]. right. split; [done|].
      rewrite Hos', (remove_subs _ _ _ Hn), Ha in Hm.
      rewrite list_lookup_insert_eq in Hm by (by eapply lookup_lt_Some). by injection Hm as <-.
    + rewrite Nat.add_0_r. assert (subs (emitter b) !! m = Some s) as Hm'; [|by apply (H2 m s)].
      destruct (once sub); [|done]. rewrite (remove_subs _ _ _ Hn), list_lookup_insert_ne in Hm; done.
Qed.

Lemma once_ok_run l : ∀ b, once_ok b → once_ok (bus_run b l).
Proof. induction l as [|ev l IH]; intros b Hok; [done|]. by apply IH, once_ok_step. Qed.

(** ** One delivery *)

Definition log (i : nat) (b : Bus) : list nat := (filter (λ x, x.1 = i) (invoked b)).*2.

(** The delivery [i] has dealt with the first part of its snapshot: each subscription of it
    was invoked, in order, or is cancelled. *)
Record delivering (i : nat) (snapshot done rest : list nat) (b : Bus) : Prop := {
  d_parts : snapshot = done ++ rest;
  d_rest : deliveries b !! i = Some rest;
  d_known : Forall (λ n, (n < length (subs (emitter b)))%nat) snapshot;
  d_order : log i b `sublist_of` done;
  d_done : ∀ n, n ∈ done → n ∈ log i b ∨ is_active (emitter b) n = false
}.

Lemma inactive_stays e e' n :
  evolves e e' → (n < length (subs e))%nat → is_active e n = false → is_active e' n = false.
Proof.
  intros Hev Hn. unfold is_active. destruct (lookup_lt_is_Some_2 _ _ Hn) as [s Hs]. rewrite Hs.
  destruct (Hev n s Hs) as (s' & -> & _ & _ & H). exact H.
Qed.

Lemma delivering_quiet i S0 done rest b b' :
  delivering i S0 done rest b → evolves (emitter b) (emitter b') → log i b' = log i b →
  deliveries b' !! i = deliveries b !! i → delivering i S0 done rest b'.
Proof.
  intros [H1 H2 H3 H4 H5] Hev Hl Hd. split; [done|by rewrite Hd| |by rewrite Hl|].
  - eapply Forall_impl; [exact H3|]. intros n Hn. pose proof (evolves_length _ _ Hev). cbn in *. lia.
  - intros n Hn. rewrite Hl. destruct (H5 n Hn) as [?|Hi]; [by left|right].
    eapply inactive_stays; [done| |done]. rewrite Forall_forall in H3. apply H3. rewrite H1.
    apply elem_of_app. by left.
Qed.

Lemma log_app i b e ds j n :
  log i {| emitter := e; deliveries := ds; invoked := invoked b ++ [(j, n)] |} =
    log i b ++ (if decide (j = i) then [n] else []).
Proof.
  unfold log. cbn [invoked]. rewrite filter_app, fmap_app, filter_cons. cbn [fst].
  by case_decide.
Qed.

Lemma delivering_step i S0 done rest b ev :
  delivering i S0 done rest b → ∃ done' rest', delivering i S0 done' rest' (bus_step b ev).
Proof.
  intros Hd. pose proof (bus_evolves b ev) as Hev. pose proof Hd as [H1 H2 H3 H4 H5].
  destruct ev as [k o|n| |name|j];
    try (by exists done, rest; apply (delivering_quiet _ _ _ _ b)).
  - exists done, rest. apply (delivering_quiet _ _ _ _ b); try done.
    cbn. rewrite H2. by apply lookup_app_l_Some.
  - cbn [bus_step] in *. unfold advance in *. destruct (decide (j = i)) as [->|Hne].
    + rewrite H2 in *. destruct rest as [|n rest]; [by exists done, []|].
      assert (i < length (deliveries b))%nat as Hi by (by eapply lookup_lt_Some).
      exists (done ++ [n]), rest.
      assert (n < length (subs (emitter b)))%nat as Hn.
      { rewrite H1 in H3. apply Forall_app in H3 as [_ H3]. by apply Forall_cons in H3 as [? _]. }
      destruct (lookup_lt_is_Some_2 _ _ Hn) as [sub Hs]. rewrite Hs in *.
      destruct (active sub) eqn:Ha; split; cbn [deliveries emitter];
        rewrite ?list_lookup_insert_eq by done; try done;
        try (rewrite H1, <-(assoc_L (++)); done).
      * eapply Forall_impl; [exact H3|]. intros m Hm. pose proof (evolves_length _ _ Hev). cbn in *. lia.
      * rewrite log_app, decide_True by done. by apply sublist_app.
      * intros m Hm. rewrite log_app, decide_True by done.
        apply elem_of_app in Hm as [Hm| ->%list_elem_of_singleton].
        -- destruct (H5 m Hm) as [?|Hia]; [left; apply elem_of_app; by left|right].
           eapply inactive_stays; [exact Hev| |done]. rewrite Forall_forall in H3. apply H3.
           rewrite H1. apply elem_of_app. by left.
        -- left. apply elem_of_app. right. left.
      * by apply sublist_inserts_r.
      * intros m Hm. apply elem_of_app in Hm as [Hm| ->%list_elem_of_singleton]; [by apply H5|].
        right. unfold is_active. by rewrite Hs.
    + exists done, rest. destruct (deliveries b !! j) as [[|n r]|] eqn:Ej; try done.
      destruct (subs (emitter b) !! n) as [sub|] eqn:Hs; [destruct (active sub)|];
        apply (delivering_quiet _ _ _ _ b); try done; cbn [deliveries];
        rewrite ?list_lookup_insert_ne by done; try done.
      by rewrite log_app, decide_False, app_nil_r by done.
Qed.

Lemma delivering_run i S0 l : ∀ done rest b,
  delivering i S0 done rest b → ∃ done' rest', delivering i S0 done' rest' (bus_run b l).
Proof.
  induction l as [|ev l IH]; intros done rest b Hd; [by exists done, rest|].
  destruct (delivering_step _ _ _ _ _ ev Hd) as (d & r & Hd'). by eapply IH.
Qed.

Definition log_known (b : Bus) : Prop := Forall (λ x, (x.1 < length (deliveries b))%nat) (invoked b).

Lemma log_known_step b ev : log_known b → log_known (bus_step b ev).
Proof.
  unfold log_known. intros H. destruct ev as [k o|n| |name|i]; cbn [bus_step]; try done.
  - cbn. rewrite length_app. eapply Forall_impl; [exact H|]. cbn. lia.
  - unfold advance. destruct (deliveries b !! i) as [[|n r]|] eqn:E; try done.
    apply lookup_lt_Some in E. repeat case_match; cbn; rewrite length_insert; try done.
    all: apply Forall_app; split; [done|]; by apply Forall_singleton.
Qed.

Lemma log_known_run l : ∀ b, log_known b → log_known (bus_run b l).
Proof. induction l as [|ev l IH]; intros b H; [done|]. by apply IH, log_known_step. Qed.

(** ** Properties *)

(** a name matches a pattern exactly when it does segment by segment: [*] stands for one
    segment, [**] for one or more, anything else for itself; the fast path for patterns
    without a star agrees with this. *)
Theorem matcher_meaning (name pattern : text) :
  matchesPattern name pattern = true ↔
    seg_match (split_on "."%char pattern) (split_on "."%char name).
Proof. apply matchesPattern_spec. Qed.

(** after any history of subscriptions, cancellations, deliveries and clearing, [resolve]
    gives exactly the active subscriptions whose key matches the name, in the order of
    their registration, and the count of listeners is their number. *)
Theorem resolve_exact (l : list bus_event) (name : text) :
  let e := emitter (bus_run new_bus l) in
  resolve name e =
    filter (λ n, is_active e n && sub_matches e name n = true)
      (List.seq 0 (length (subs e))) ∧
  listenerCount_name name e = length (resolve name e) ∧
  (∀ n s, subs e !! n = Some s → order s = n).
Proof.
  cbv zeta. pose proof (bus_run_ok l new_bus new_emitter_ok) as Hok.
  set (e := emitter (bus_run new_bus l)) in *. split; [|split].
  - rewrite resolve_live by done. apply filter_iff_in. intros n _.
    unfold live, matching, is_active, sub_matches. by destruct (subs e !! n).
  - unfold listenerCount_name, resolve. by rewrite merge_sort_Permutation, length_app.
  - intros n s Hn. by destruct (o_subs _ Hok n s Hn).
Qed.

(** whatever happens while an event is delivered (other deliveries, failing listeners,
    subscriptions and cancellations), the delivery invokes only listeners of its snapshot,
    each at most once and in registration order, and leaves none of those it has passed
    out unless it was cancelled. *)
Theorem delivery_exact (l l' : list bus_event) (name : text) :
  let b := bus_run new_bus l in
  let i := length (deliveries b) in
  let b' := bus_run (bus_step b (BPublish name)) l' in
  ∃ done rest,
    resolve name (emitter b) = done ++ rest ∧ deliveries b' !! i = Some rest ∧
    log i b' `sublist_of` done ∧ NoDup (log i b') ∧
    ∀ n, n ∈ done → n ∈ log i b' ∨ is_active (emitter b') n = false.
Proof.
  cbv zeta. set (b := bus_run new_bus l).
  assert (registry_ok (emitter b)) as Hok by apply bus_run_ok, new_emitter_ok.
  assert (NoDup (resolve name (emitter b))) as Hnd.
  { rewrite resolve_live by done. apply NoDup_filter, NoDup_ListNoDup, seq_NoDup. }
  assert (delivering (length (deliveries b)) (resolve name (emitter b)) []
            (resolve name (emitter b)) (bus_step b (BPublish name))) as Hd.
  { split; cbn [bus_step deliveries emitter]; try done.
    - by apply list_lookup_middle.
    - rewrite resolve_live by done. apply Forall_forall. intros n Hn.
      apply list_elem_of_filter in Hn as [_ Hn]. apply list_elem_of_In, in_seq in Hn. lia.
    - assert (log_known b) as Hl by (apply log_known_run; constructor).
      unfold log. rewrite filter_none; [done|]. eapply Forall_impl; [exact Hl|].
      intros x Hx; cbn in *. lia.
    - by intros n ?%not_elem_of_nil. }
  destruct (delivering_run _ _ l' _ _ _ Hd) as (done' & rest & [H1 H2 _ H4 H5]).
  exists done', rest. split; [done|]. split; [done|]. split; [done|]. split; [|done].
  eapply sublist_NoDup; [|exact H4]. rewrite H1 in Hnd. by apply NoDup_app in Hnd as [? _].
Qed.

(** a [once] listener is invoked at most once over all deliveries, however they
    overlap, and is cancelled by then. *)
Theorem once_at_most_once (l : list bus_event) (n : nat) (s : Subscription)
    (Hn : subs (emitter (bus_run new_bus l)) !! n = Some s) (Ho : once s = true) :
  times_invoked n (bus_run new_bus l) = 0 ∨
  (times_invoked n (bus_run new_bus l) = 1 ∧ active s = false).
Proof.
  assert (once_ok new_bus) as H0 by (split; [constructor|by intros m s' Hm]).
  by apply (once_ok_run l _ H0).
Qed.

Definition any : text := ["*"]%char.
Definition ev_u : text := ["u"]%char.

Lemma once_at_most_once_witness :
  times_invoked 0 (bus_run new_bus
    [BAdd any true; BAdd ev_u false; BPublish ev_u; BPublish ev_u; BAdvance 1; BAdvance 0;
     BAdvance 0]) = 1.
Proof.
  set (b := bus_run new_bus _).
  destruct (subs (emitter b) !! 0) as [s|] eqn:Hs; [|vm_compute in Hs; discriminate Hs].
  assert (once s = true) as Ho by (vm_compute in Hs; by injection Hs as <-).
  destruct (once_at_most_once _ 0 s Hs Ho) as [H|[H _]]; [|exact H].
  vm_compute in H. discriminate H.
Defined.

(** An empty name is one empty segment, which a star matches. *)
Lemma star_matches_empty_name : matchesPattern [] any = true.
Proof. vm_compute. exact eq_refl. Qed.
