(* ===== verification/Multipart.v ===== *)
(** * The multipart/form-data parser

    Models src/packages/multipart/src/parser.ts: the search for parts in the buffer, the
    headers of a part, and [parse] as a transition system whose events are the request's
    [data], [end] and [error] and the ends of the writes to disk.  The handler of [data] is
    asynchronous: it stops at the write of a file, and events that arrive before the write
    ends find the buffer as it was.  (The handler also gives way to microtasks after a
    field; the events modelled are those of different turns of the event loop.)  The UTF-8
    decoding of field values is an argument; paths, the random part of file names, the
    removal of files after a failure and a field called [__proto__] are not modelled. *)

From Stdlib Require Import Ascii String.
From S2P Require Import Prelude JsText JsMap.

Abbreviation bytes := (list ascii) (only parsing).

Definition CR : ascii := "013"%char.
Definition LF : ascii := "010"%char.
Definition CRLF : bytes := [CR; LF].
Definition CRLF2 : bytes := [CR; LF; CR; LF].
Definition DASH : ascii := "-"%char.
Definition QUOTE : ascii := "034"%char.

Definition MAX_FIELD_SIZE : nat := 64 * 1024.

(** ** Headers of a part *)

(** [buf.toString('ascii')] clears the high bit of every byte. *)
Definition ascii_decode (l : bytes) : bytes :=
  (λ c, ascii_of_N (N.land (N_of_ascii c) 127)) <$> l.

(** [raw.split('\r\n')] *)
Fixpoint split_lines (l : bytes) : list bytes :=
  match l with
  | [] => [[]]
  | c :: l' =>
      match l' with
      | d :: l'' =>
          if decide (c = CR ∧ d = LF) then [] :: split_lines l''
          else match split_lines l' with p :: ps => (c :: p) :: ps | [] => [[c]] end
      | [] => [[c]]
      end
  end.

Definition header_line (headers : list (bytes * bytes)) (line : bytes) : list (bytes * bytes) :=
  match indexOf ":"%char line with
  | None => headers
  | Some colon =>
      jm_set (lower <$> trim (take colon line)) (trim (drop (S colon) line)) headers
  end.
Definition parsePartHeaders (raw : bytes) : list (bytes * bytes) :=
  foldl header_line [] (split_lines raw).

(** What precedes the next quote. *)
Fixpoint until_quote (l : bytes) : option bytes :=
  match l with
  | [] => None
  | c :: l => if decide (c = QUOTE) then Some [] else (c ::.) <$> until_quote l
  end.

(** The first match of the parameter's regular expression, case aside. *)
Fixpoint find_param (opening l : bytes) : option bytes :=
  match (if is_prefix opening (lower <$> l) then until_quote (drop (length opening) l) else None) with
  | Some v => Some v
  | None => match l with [] => None | _ :: l => find_param opening l end
  end.
Definition extractParam (header param : bytes) : option bytes :=
  find_param ((lower <$> param) ++ ["="%char; QUOTE]) header.

Definition safe_char (c : ascii) : bool :=
  let n := code c in
  ((97 <=? n) && (n <=? 122) || (65 <=? n) && (n <=? 90) || (48 <=? n) && (n <=? 57)
   || (n =? 46) || (n =? 95) || (n =? 45))%Z.
Definition sanitizeFileName (name : bytes) : bytes :=
  take 128 ((λ c, if safe_char c then c else "_"%char) <$> name).

(** ** One part *)

Section multipart.
Context {T : Type} (utf8_decode : bytes → T).
Context (boundary : bytes).    (* with the leading dashes *)

Record ParsedFile : Type := {
  fieldName : bytes;
  originalName : bytes;
  mimeType : bytes;
  size : nat;
  encoding : bytes;
  content : bytes      (* what is written to [path] *)
}.

Inductive part : Type :=
| Field (name : bytes) (value : T)
| File (f : ParsedFile).

Definition str (s : string) : bytes := list_ascii_of_string s.

(** The part with these headers and this body. *)
Definition interpret (headers : list (bytes * bytes)) (body : bytes) : part :=
  let disposition := default [] (jm_get (str "content-disposition") headers) in
  let fieldName := default (str "field") (extractParam disposition (str "name")) in
  match extractParam disposition (str "filename") with
  | Some fileName =>
      File {| fieldName := fieldName; originalName := fileName;
              mimeType := default (str "application/octet-stream")
                            (jm_get (str "content-type") headers);
              size := length body;
              encoding := default (str "7bit")
                            (jm_get (str "content-transfer-encoding") headers);
              content := body |}
  | None => Field fieldName (utf8_decode (take MAX_FIELD_SIZE body))
  end.

Inductive tried : Type :=
| NoPart                                    (* [consumed: 0] *)
| Final (consumed : nat)
| Part (consumed : nat) (p : part).

Definition tryParsePart (buf : bytes) : tried :=
  match find_text boundary buf with
  | None => NoPart
  | Some boundaryPos =>
      let afterBoundary := boundaryPos + length boundary in
      if length buf <? afterBoundary + 2 then NoPart
      else if bool_decide (take 2 (drop afterBoundary buf) = [DASH; DASH])
      then Final (afterBoundary + 2)
      else
        let rest := drop (afterBoundary + 2) buf in
        match find_text CRLF2 rest with
        | None => NoPart
        | Some headerEnd =>
            let headers := parsePartHeaders (ascii_decode (take headerEnd rest)) in
            let bodyStart := headerEnd + 4 in
            match find_text boundary (drop bodyStart rest) with
            | None => NoPart
            | Some next =>
                Part (afterBoundary + 2 + bodyStart + next)
                  (interpret headers (take (next - 2) (drop bodyStart rest)))
            end
        end
  end.

(** ** [parse] *)

Inductive outcome : Type :=
| Resolved (fields : list (bytes * T)) (files : list ParsedFile)
| TooLarge
| Failed.

Record Upload : Type := {
  buffer : bytes;
  totalBytes : nat;
  fields : list (bytes * T);
  files : list ParsedFile;
  writing : list (nat * ParsedFile);    (* handlers stopped at a write: [consumed], file *)
  result : option outcome               (* [done] *)
}.

Definition set_buffer (b : bytes) (u : Upload) : Upload :=
  {| buffer := b; totalBytes := totalBytes u; fields := fields u; files := files u;
     writing := writing u; result := result u |}.
Definition set_total (n : nat) (u : Upload) : Upload :=
  {| buffer := buffer u; totalBytes := n; fields := fields u; files := files u;
     writing := writing u; result := result u |}.
Definition set_field (name : bytes) (v : T) (u : Upload) : Upload :=
  {| buffer := buffer u; totalBytes := totalBytes u; fields := jm_set name v (fields u);
     files := files u; writing := writing u; result := result u |}.
Definition push_file (f : ParsedFile) (u : Upload) : Upload :=
  {| buffer := buffer u; totalBytes := totalBytes u; fields := fields u;
     files := files u ++ [f]; writing := writing u; result := result u |}.
Definition set_writing (w : list (nat * ParsedFile)) (u : Upload) : Upload :=
  {| buffer := buffer u; totalBytes := totalBytes u; fields := fields u; files := files u;
     writing := w; result := result u |}.
Definition finish (o : outcome) (u : Upload) : Upload :=
  match result u with
  | Some _ => u
  | None =>
      {| buffer := buffer u; totalBytes := totalBytes u; fields := fields u;
         files := files u; writing := writing u; result := Some o |}
  end.

(** The loop over complete parts, up to the write of a file. *)
Fixpoint process (fuel : nat) (u : Upload) : Upload :=
  match fuel with
  | O => u
  | S fuel =>
      match result u with
      | Some _ => u
      | None =>
          match tryParsePart (buffer u) with
          | NoPart => u
          | Final consumed => process fuel (set_buffer (drop consumed (buffer u)) u)
          | Part consumed (Field name v) =>
              process fuel (set_buffer (drop consumed (buffer u)) (set_field name v u))
          | Part consumed (File f) => set_writing (writing u ++ [(consumed, f)]) u
          end
      end
  end.
Definition process_all (u : Upload) : Upload := process (S (length (buffer u))) u.

Inductive event : Type :=
| Data (chunk : bytes)
| Written (i : nat)        (* the write of the handler [i] has ended *)
| WriteFailed (i : nat)
| End
| Error.

Definition step (maxBytes : nat) (u : Upload) (e : event) : Upload :=
  match e with
  | Data chunk =>
      match result u with
      | Some _ => u
      | None =>
          let u := set_total (totalBytes u + length chunk) u in
          if maxBytes <? totalBytes u then finish TooLarge u
          else process_all (set_buffer (buffer u ++ chunk) u)
      end
  | Written i =>
      match writing u !! i with
      | Some (consumed, f) =>
          let u := push_file f (set_writing (delete i (writing u)) u) in
          process_all (set_buffer (drop consumed (buffer u)) u)
      | None => u
      end
  | WriteFailed i =>
      match writing u !! i with
      | Some _ => finish Failed (set_writing (delete i (writing u)) u)
      | None => u
      end
  | End => finish (Resolved (fields u) (files u)) u
  | Error => finish Failed u
  end.

Definition new_upload : Upload :=
  {| buffer := []; totalBytes := 0; fields := []; files := []; writing := []; result := None |}.
Definition run (maxBytes : nat) (u : Upload) (l : list event) : Upload :=
  foldl (step maxBytes) u l.

(** A chunk followed by the ends of the writes it causes. *)
Fixpoint finish_writes (maxBytes fuel : nat) (u : Upload) : Upload :=
  match fuel with
  | O => u
  | S fuel =>
      match writing u with
      | [] => u
      | _ => finish_writes maxBytes fuel (step maxBytes u (Written 0))
      end
  end.
Definition quiet_chunk (maxBytes : nat) (u : Upload) (chunk : bytes) : Upload :=
  finish_writes maxBytes (S (length (buffer u ++ chunk))) (step maxBytes u (Data chunk)).
End multipart.
Arguments Field {T} name value.
Arguments File {T} f.
Arguments NoPart {T}.
Arguments Final {T} consumed.
Arguments Part {T} consumed p.
Arguments Resolved {T} fields files.

(** ** The parts of a buffer, one after the other *)

Section parts.
Context {T : Type} (utf8_decode : bytes → T) (boundary : bytes).
Abbreviation tryParsePart := (tryParsePart utf8_decode boundary).

Fixpoint parts_of (fuel : nat) (buf : bytes) : list (part (T:=T)) * bytes :=
  match fuel with
  | O => ([], buf)
  | S fuel =>
      match tryParsePart buf with
      | NoPart => ([], buf)
      | Final n => parts_of fuel (drop n buf)
      | Part n p => let r := parts_of fuel (drop n buf) in (p :: r.1, r.2)
      end
  end.
Definition parts (buf : bytes) := parts_of (S (length buf)) buf.

Lemma tried_consumes buf n :
  (tryParsePart buf = Final n ∨ ∃ p, tryParsePart buf = Part n p) → 0 < n <= length buf.
Proof.
  unfold Multipart.tryParsePart. destruct (find_text boundary buf) as [bp|] eqn:Eb.
  2: by intros [?|[? ?]].
  destruct (Nat.ltb_spec (length buf) (bp + length boundary + 2)); [by intros [?|[? ?]]|].
  case_bool_decide; [intros [[= <-]|[? ?]]; [lia|done]|].
  destruct (find_text CRLF2 _) as [he|] eqn:Eh; [|by intros [?|[? ?]]].
  destruct (find_text boundary (drop (he + 4) _)) as [nx|] eqn:En; [|by intros [?|[? ?]]].
  intros [?|[p [= <- _]]]; [done|]. apply find_text_bound in Eh, En.
  rewrite !length_drop in En. rewrite length_drop in Eh. cbn [length CRLF2] in Eh. lia.
Qed.

Lemma tried_app buf x : tryParsePart buf ≠ NoPart → tryParsePart (buf ++ x) = tryParsePart buf.
Proof.
  unfold Multipart.tryParsePart. destruct (find_text boundary buf) as [bp|] eqn:Eb; [|done].
  rewrite (find_text_app _ _ x _ Eb).
  destruct (Nat.ltb_spec (length buf) (bp + length boundary + 2)); [done|].
  destruct (Nat.ltb_spec (length (buf ++ x)) (bp + length boundary + 2));
    [rewrite length_app in *; lia|].
  assert (take 2 (drop (bp + length boundary) (buf ++ x)) =
    take 2 (drop (bp + length boundary) buf)) as ->.
  { rewrite drop_app_le, take_app_le; [done|rewrite length_drop|]; lia. }
  case_bool_decide; [done|]. rewrite drop_app_le by lia.
  destruct (find_text CRLF2 _) as [he|] eqn:Eh; [|done].
  rewrite (find_text_app _ _ x _ Eh). apply find_text_bound in Eh. cbn [length CRLF2] in Eh.
  rewrite drop_app_le by lia.
  destruct (find_text boundary (drop (he + 4) _)) as [nx|] eqn:En; [|done].
  rewrite (find_text_app _ _ x _ En). apply find_text_bound in En. intros _.
  rewrite take_app_le by lia. by rewrite (take_app_le (drop (he + 4) _)) by lia.
Qed.

Lemma parts_more_fuel fuel : ∀ fuel' buf,
  length buf < fuel → fuel <= fuel' → parts_of fuel' buf = parts_of fuel buf.
Proof.
  induction fuel as [|fuel IH]; intros fuel' buf Hb Hle; [lia|].
  destruct fuel' as [|fuel']; [lia|]. cbn [parts_of].
  destruct (tryParsePart buf) as [|n|n p] eqn:E; [done|..].
  - assert (0 < n <= length buf) by (apply tried_consumes; by left).
    apply IH; rewrite ?length_drop; lia.
  - assert (0 < n <= length buf) by (apply tried_consumes; right; by exists p).
    rewrite (IH fuel'); rewrite ?length_drop; [done|lia..].
Qed.

Lemma parts_unfold buf :
  parts buf = match tryParsePart buf with
              | NoPart => ([], buf)
              | Final n => parts (drop n buf)
              | Part n p => let r := parts (drop n buf) in (p :: r.1, r.2)
              end.
Proof.
  unfold parts at 1. cbn [parts_of]. destruct (tryParsePart buf) as [|n|n p] eqn:E; [done|..].
  - assert (0 < n <= length buf) by (apply tried_consumes; by left).
    unfold parts. apply parts_more_fuel; rewrite ?length_drop; lia.
  - assert (0 < n <= length buf) by (apply tried_consumes; right; by exists p).
    unfold parts. rewrite (parts_more_fuel (S (length (drop n buf))) (length buf));
      rewrite ?length_drop; [done|lia..].
Qed.

Lemma parts_app x : ∀ buf,
  parts (buf ++ x) =
    let r := parts buf in let r' := parts (r.2 ++ x) in (r.1 ++ r'.1, r'.2).
Proof.
  apply (induction_ltof1 _ length). unfold ltof. intros buf IH. rewrite (parts_unfold buf).
  destruct (tryParsePart buf) as [|n|n p] eqn:E; cbn [fst snd app].
  - by destruct (parts (buf ++ x)).
  - assert (0 < n <= length buf) by (apply tried_consumes; by left).
    rewrite parts_unfold, tried_app, E by (by rewrite E). rewrite drop_app_le by lia.
    apply IH. rewrite length_drop. lia.
  - assert (0 < n <= length buf) by (apply tried_consumes; right; by exists p).
    rewrite parts_unfold, tried_app, E by (by rewrite E). rewrite drop_app_le by lia.
    rewrite IH by (rewrite length_drop; lia). done.
Qed.

(** ** A handler that is not disturbed *)

Definition apply_part (u : Upload (T:=T)) (p : part) : Upload :=
  match p with Field name v => set_field name v u | File f => push_file f u end.
Definition apply_parts (r : list part * bytes) (u : Upload) : Upload :=
  set_buffer r.2 (foldl apply_part u r.1).

Abbreviation process_all := (process_all utf8_decode boundary).
Abbreviation process := (process utf8_decode boundary).

Lemma process_more_fuel fuel : ∀ fuel' u,
  length (buffer u) < fuel → fuel <= fuel' → process fuel' u = process fuel u.
Proof.
  induction fuel as [|fuel IH]; intros fuel' u Hb Hle; [lia|].
  destruct fuel' as [|fuel']; [lia|]. cbn [Multipart.process].
  destruct (result u); [done|].
  destruct (tryParsePart (buffer u)) as [|n|n [name v|f]] eqn:E; try done.
  - assert (0 < n <= length (buffer u)) by (apply tried_consumes; by left).
    apply IH; cbn [buffer set_buffer]; rewrite ?length_drop; lia.
  - assert (0 < n <= length (buffer u)) by (apply tried_consumes; right; by eexists).
    apply IH; cbn [buffer set_buffer]; rewrite ?length_drop; lia.
Qed.

Lemma process_all_unfold u :
  result u = None →
  process_all u =
    match tryParsePart (buffer u) with
    | NoPart => u
    | Final n => process_all (set_buffer (drop n (buffer u)) u)
    | Part n (Field name v) => process_all (set_buffer (drop n (buffer u)) (set_field name v u))
    | Part n (File f) => set_writing (writing u ++ [(n, f)]) u
    end.
Proof.
  intros Hr. unfold Multipart.process_all at 1. cbn [Multipart.process]. rewrite Hr.
  destruct (tryParsePart (buffer u)) as [|n|n [name v|f]] eqn:E; try done.
  - assert (0 < n <= length (buffer u)) by (apply tried_consumes; by left).
    unfold Multipart.process_all. apply process_more_fuel; cbn [buffer set_buffer];
      rewrite ?length_drop; lia.
  - assert (0 < n <= length (buffer u)) by (apply tried_consumes; right; by eexists).
    unfold Multipart.process_all. apply process_more_fuel; cbn [buffer set_buffer];
      rewrite ?length_drop; lia.
Qed.

Lemma set_buffer_foldl ps : ∀ b (u : Upload),
  foldl apply_part (set_buffer b u) ps = set_buffer b (foldl apply_part u ps).
Proof. induction ps as [|[name v|f] ps IH]; intros b u; [done|..]; cbn [foldl]; by rewrite <-IH. Qed.

Lemma apply_parts_skip b r u : apply_parts r (set_buffer b u) = apply_parts r u.
Proof. unfold apply_parts. by rewrite set_buffer_foldl. Qed.

Lemma process_settles maxBytes fuel : ∀ u,
  writing u = [] → result u = None → length (buffer u) < fuel →
  finish_writes utf8_decode boundary maxBytes fuel (process_all u) =
    apply_parts (parts (buffer u)) u.
Proof.
  assert (∀ n u, length (buffer u) < n → ∀ fuel, writing u = [] → result u = None →
    length (buffer u) < fuel →
    finish_writes utf8_decode boundary maxBytes fuel (process_all u) =
      apply_parts (parts (buffer u)) u) as H; [|by intros; eapply H].
  clear fuel. induction n as [|n IH]; intros u Hn fuel Hw Hr Hf; [lia|].
  rewrite process_all_unfold, parts_unfold by done.
  destruct (tryParsePart (buffer u)) as [|k|k [name v|f]] eqn:E.
  - destruct fuel as [|fuel]; [lia|]. cbn [finish_writes]. rewrite Hw. by destruct u.
  - assert (0 < k <= length (buffer u)) by (apply tried_consumes; by left).
    rewrite IH; cbn [buffer writing result set_buffer]; rewrite ?length_drop; try done; try lia.
    apply apply_parts_skip.
  - assert (0 < k <= length (buffer u)) by (apply tried_consumes; right; by eexists).
    rewrite IH; cbn [buffer writing result set_buffer set_field]; rewrite ?length_drop;
      try done; try lia.
    rewrite apply_parts_skip. done.
  - assert (0 < k <= length (buffer u)) by (apply tried_consumes; right; by eexists).
    destruct fuel as [|fuel]; [lia|]. cbn [finish_writes writing set_writing]. rewrite Hw. cbn [app].
    change (step utf8_decode boundary maxBytes (set_writing [(k, f)] u) (Written 0)) with
      (process_all (set_buffer (drop k (buffer u)) (push_file f (set_writing [] u)))).
    rewrite IH; cbn [buffer writing result set_buffer push_file set_writing];
      rewrite ?length_drop; try done; try lia.
    rewrite apply_parts_skip. destruct u; cbn in Hw; subst. done.
Qed.
End parts.

(** ** Framing

    A part is a block of header lines and a body; a form is its parts, the closing
    boundary and an epilogue. *)

Record raw_part : Type := { raw_headers : bytes; raw_body : bytes }.

Section framing.
Context {T : Type} (utf8_decode : bytes → T) (boundary : bytes).

Definition raw_bytes (p : raw_part) : bytes :=
  boundary ++ CRLF ++ raw_headers p ++ CRLF2 ++ raw_body p ++ CRLF.
Definition form_bytes (ps : list raw_part) (epilogue : bytes) : bytes :=
  mjoin (raw_bytes <$> ps) ++ boundary ++ [DASH; DASH] ++ epilogue.

(** The blank line and the boundary are where they belong, and nowhere before. *)
Record clean (p : raw_part) : Prop := {
  clean_headers : find_text CRLF2 (raw_headers p ++ CRLF2) = Some (length (raw_headers p));
  clean_body : find_text boundary (raw_body p ++ CRLF ++ boundary) = Some (length (raw_body p) + 2)
}.

Definition meaning (p : raw_part) : part :=
  interpret utf8_decode (parsePartHeaders (ascii_decode (raw_headers p))) (raw_body p).

Lemma find_text_head needle l : find_text needle (needle ++ l) = Some 0.
Proof. destruct (needle ++ l) eqn:E; cbn [find_text]; rewrite <-E, is_prefix_app; done. Qed.

Lemma tryParsePart_raw p tail :
  clean p →
  tryParsePart utf8_decode boundary (raw_bytes p ++ boundary ++ tail) =
    Part (length (raw_bytes p)) (meaning p).
Proof.
  intros [Hh Hb]. unfold tryParsePart, raw_bytes. rewrite <-!(assoc_L (++)), find_text_head.
  cbn [plus]. destruct (Nat.ltb_spec (length (boundary ++ CRLF ++ raw_headers p ++ CRLF2 ++
    raw_body p ++ CRLF ++ boundary ++ tail)) (length boundary + 2)) as [Hlt|_];
    [rewrite !length_app in Hlt; cbn [length CRLF] in Hlt; lia|].
  rewrite drop_app_length, bool_decide_eq_false_2 by done.
  rewrite <-drop_drop, drop_app_length.
  change (drop 2 (CRLF ++ ?x)) with x.
  rewrite (assoc_L (++) (raw_headers p)), (find_text_app _ _ _ _ Hh), <-(assoc_L (++)).
  rewrite take_app_length, <-drop_drop, drop_app_length.
  change (drop 4 (CRLF2 ++ ?x)) with x.
  assert (raw_body p ++ CRLF ++ boundary ++ tail = (raw_body p ++ CRLF ++ boundary) ++ tail) as E
    by by rewrite <-!(assoc_L (++)).
  rewrite E, (find_text_app _ _ _ _ Hb), <-!(assoc_L (++)).
  replace (length (raw_body p) + 2 - 2) with (length (raw_body p)) by lia.
  rewrite take_app_length. unfold meaning. f_equal.
  rewrite !length_app. cbn [length CRLF CRLF2]. lia.
Qed.

Lemma parts_form ps epilogue :
  Forall clean ps → find_text boundary epilogue = None →
  parts utf8_decode boundary (form_bytes ps epilogue) = (meaning <$> ps, epilogue).
Proof.
  intros Hps He. unfold form_bytes. induction Hps as [|p ps Hp Hps IH].
  - cbn [fmap list_fmap mjoin list_join app].
    change (mjoin []) with (@nil ascii). cbn [app]. rewrite parts_unfold.
    unfold tryParsePart. rewrite find_text_head. cbn [plus].
    destruct (Nat.ltb_spec (length (boundary ++ DASH :: DASH :: epilogue)) (length boundary + 2))
      as [Hlt|_]; [rewrite length_app in Hlt; cbn [length] in Hlt; lia|].
    rewrite drop_app_length, bool_decide_eq_true_2 by done.
    rewrite <-drop_drop, drop_app_length.
    change (drop 2 (DASH :: DASH :: epilogue)) with epilogue. rewrite parts_unfold.
    unfold tryParsePart. by rewrite He.
  - change (mjoin (raw_bytes <$> p :: ps)) with (raw_bytes p ++ mjoin (raw_bytes <$> ps)).
    rewrite <-(assoc_L (++)), parts_unfold.
    assert (∃ tail, mjoin (raw_bytes <$> ps) ++ boundary ++ [DASH; DASH] ++ epilogue =
      boundary ++ tail) as [tail Ht].
    { destruct ps as [|q ps]; [by eexists|]. unfold raw_bytes at 1. cbn. eexists.
      by rewrite <-!(assoc_L (++)). }
    rewrite Ht, tryParsePart_raw, drop_app_length, <-Ht, IH by done. done.
Qed.
End framing.

(** ** Properties *)

Section claims.
Context {T : Type} (utf8_decode : bytes → T) (boundary : bytes).

(** Every chunk arrives when no write is in progress. *)
Definition quiet_run (maxBytes : nat) (chunks : list bytes) : Upload :=
  foldl (quiet_chunk utf8_decode boundary maxBytes) new_upload chunks.

(** The fields and files that a list of parts stands for; a later field replaces an earlier
    one of its name. *)
Definition fields_of (ps : list (part (T:=T))) : list (bytes * T) :=
  foldl (λ fs p, match p with Field name v => jm_set name v fs | File _ => fs end) [] ps.
Definition files_of (ps : list (part (T:=T))) : list ParsedFile :=
  omap (λ p, match p with File f => Some f | Field _ _ => None end) ps.

Lemma apply_parts_spec ps : ∀ u : Upload (T:=T),
  fields (foldl apply_part u ps) =
    foldl (λ fs p, match p with Field name v => jm_set name v fs | File _ => fs end) (fields u) ps ∧
  files (foldl apply_part u ps) = files u ++ files_of ps ∧
  writing (foldl apply_part u ps) = writing u ∧ result (foldl apply_part u ps) = result u ∧
  totalBytes (foldl apply_part u ps) = totalBytes u.
Proof.
  induction ps as [|[name v|f] ps IH]; intros u; cbn [foldl apply_part files_of].
  - cbn. by rewrite app_nil_r.
  - apply (IH (set_field name v u)).
  - destruct (IH (push_file f u)) as (H1 & H2 & H3). split; [done|]. split; [|done].
    rewrite H2. cbn. by rewrite <-(assoc_L (++)).
Qed.

Lemma quiet_run_parts maxBytes chunks :
  length (mjoin chunks) <= maxBytes →
  let u := quiet_run maxBytes chunks in
  let r := parts utf8_decode boundary (mjoin chunks) in
  buffer u = r.2 ∧ writing u = [] ∧ result u = None ∧ totalBytes u = length (mjoin chunks) ∧
  fields u = fields_of r.1 ∧ files u = files_of r.1.
Proof.
  cbv zeta. induction chunks as [|chunk chunks IH] using rev_ind; intros Hmax.
  { change (mjoin []) with (@nil ascii). rewrite parts_unfold.
    destruct (tryParsePart utf8_decode boundary []) as [|n|n p] eqn:E; [done|..].
    - assert (0 < n <= length (@nil ascii)) by (eapply tried_consumes; by left). cbn in *; lia.
    - assert (0 < n <= length (@nil ascii)) by (eapply tried_consumes; right; by exists p).
      cbn in *; lia. }
  rewrite join_app, length_app in *.
  assert (mjoin [chunk] = chunk) as Hj by apply app_nil_r. rewrite Hj in *.
  destruct IH as (Hb & Hw & Hr & Ht & Hfi & Hfl); [lia|].
  unfold quiet_run in *. rewrite foldl_app. cbn [foldl].
  set (u := foldl _ new_upload chunks) in *. unfold quiet_chunk. cbn [step]. rewrite Hr.
  cbn [totalBytes set_total]. rewrite Ht.
  destruct (Nat.ltb_spec maxBytes (length (mjoin chunks) + length chunk)); [lia|].
  cbn [buffer set_total]. rewrite process_settles; [|done|done|cbn; lia].
  cbn [buffer set_buffer set_total]. rewrite (parts_app _ _ chunk (mjoin chunks)). cbv zeta. rewrite <-Hb.
  set (r' := parts utf8_decode boundary (buffer u ++ chunk)). unfold apply_parts.
  cbn [fst snd buffer writing result totalBytes fields files set_buffer].
  set (u' := set_buffer (buffer u ++ chunk) _).
  destruct (apply_parts_spec r'.1 u') as (H1 & H2 & H3 & H4 & H5).
  split; [done|]. split; [by rewrite H3|]. split; [by rewrite H4|]. split; [by rewrite H5|].
  unfold fields_of, files_of in *. rewrite foldl_app, omap_app, H1, H2, <-Hfi, <-Hfl. done.
Qed.

(** a form whose parts hold neither the boundary nor a blank line where they should not
    is read back part by part, whatever its chunks, fields and files in their order, as
    long as no chunk and not the end arrive during the write of a file. *)
Theorem form_roundtrip (maxBytes : nat) (ps : list raw_part) (epilogue : bytes)
    (chunks : list bytes)
    (Hclean : Forall (clean boundary) ps) (He : find_text boundary epilogue = None)
    (Hc : mjoin chunks = form_bytes boundary ps epilogue)
    (Hmax : length (form_bytes boundary ps epilogue) <= maxBytes) :
  let u := quiet_run maxBytes chunks in
  writing u = [] ∧
  result (step utf8_decode boundary maxBytes u End) =
    Some (Resolved (fields_of (meaning utf8_decode <$> ps)) (files_of (meaning utf8_decode <$> ps))).
Proof.
  cbv zeta. rewrite <-Hc in Hmax.
  destruct (quiet_run_parts maxBytes chunks Hmax) as (_ & Hw & Hr & _ & Hfi & Hfl).
  split; [done|]. cbn [step]. unfold finish. rewrite Hr. cbn [result].
  rewrite Hfi, Hfl, Hc, parts_form by done. done.
Qed.
End claims.

(** ** Examples *)

Definition sample_boundary : bytes := str "--b".
Definition field_headers : bytes := str "Content-Disposition: form-data; name=" ++ [QUOTE] ++ str "t" ++ [QUOTE].
Definition file_headers : bytes :=
  str "Content-Disposition: form-data; name=" ++ [QUOTE] ++ str "f" ++ [QUOTE] ++ str "; filename="
  ++ [QUOTE] ++ str "a.txt" ++ [QUOTE] ++ CRLF ++ str "Content-Type: text/plain".
Definition sample_form : list raw_part :=
  [{| raw_headers := file_headers; raw_body := str "data" ++ CRLF ++ CRLF |};
   {| raw_headers := field_headers; raw_body := str "hello" |}].
Definition sample_file : ParsedFile :=
  {| fieldName := str "f"; originalName := str "a.txt"; mimeType := str "text/plain"; size := 8;
     encoding := str "7bit"; content := str "data" ++ CRLF ++ CRLF |}.

Lemma form_roundtrip_witness :
  result (step id sample_boundary 1000
    (quiet_run id sample_boundary 1000
       [take 30 (form_bytes sample_boundary sample_form CRLF);
        drop 30 (form_bytes sample_boundary sample_form CRLF)]) End) =
  Some (Resolved [(str "t", str "hello")] [sample_file]).
Proof.
  assert (Forall (clean sample_boundary) sample_form) as Hclean.
  { repeat (apply Forall_cons_2; [split; vm_compute; exact eq_refl|]). constructor. }
  assert (mjoin [take 30 (form_bytes sample_boundary sample_form CRLF);
        drop 30 (form_bytes sample_boundary sample_form CRLF)] =
    form_bytes sample_boundary sample_form CRLF) as Hc by (vm_compute; exact eq_refl).
  assert (length (form_bytes sample_boundary sample_form CRLF) <= 1000) as Hmax.
  { apply Nat.leb_le. vm_compute. exact eq_refl. }
  refine (eq_trans (proj2 (form_roundtrip id sample_boundary 1000 sample_form CRLF _ Hclean
    eq_refl Hc Hmax)) _).
  vm_compute. exact eq_refl.
Defined.

(** A chunk that arrives while a file is written finds the file's part still in the buffer:
    the file is written and reported twice ... *)
Lemma chunk_during_write_duplicates :
  result (run id sample_boundary 1000 new_upload
    [Data (take 130 (form_bytes sample_boundary sample_form CRLF));
     Data (drop 130 (form_bytes sample_boundary sample_form CRLF));
     Written 0; Written 0; End]) =
  Some (Resolved [(str "t", str "hello")] [sample_file; sample_file]).
Proof. vm_compute. exact eq_refl. Qed.

(** ... and its length is taken off the buffer twice, so that what has arrived of the next
    part is lost. *)
Lemma chunk_during_write_loses_field :
  result (run id sample_boundary 1000 new_upload
    [Data (take 130 (form_bytes sample_boundary sample_form CRLF));
     Data (take 10 (drop 130 (form_bytes sample_boundary sample_form CRLF)));
     Written 0; Written 0;
     Data (drop 140 (form_bytes sample_boundary sample_form CRLF)); End]) =
  Some (Resolved [] [sample_file; sample_file]).
Proof. vm_compute. exact eq_refl. Qed.

(** The end of the request does not wait for the write: the file is missing. *)
Lemma end_during_write_loses_file :
  result (run id sample_boundary 1000 new_upload
    [Data (form_bytes sample_boundary (take 1 sample_form) CRLF); End; Written 0]) =
  Some (Resolved [] []).
Proof. vm_compute. exact eq_refl. Qed.

(** The expression for [name] also matches inside [filename] when that comes first. *)
Lemma name_found_in_filename :
  extractParam (str "form-data; filename=" ++ [QUOTE] ++ str "a.txt" ++ [QUOTE] ++
    str "; name=" ++ [QUOTE] ++ str "f" ++ [QUOTE]) (str "name") = Some (str "a.txt").
Proof. vm_compute. exact eq_refl. Qed.

(** A stored file name keeps only letters, digits, dots, dashes and underscores, at most 128
    of them. *)
Lemma sanitized_name_is_safe (name : bytes) :
  Forall (λ c, safe_char c = true) (sanitizeFileName name) ∧ length (sanitizeFileName name) <= 128.
Proof.
  unfold sanitizeFileName. split; [|rewrite length_take; lia].
  apply Forall_take, Forall_fmap, Forall_forall. intros c _. cbn. by destruct (safe_char c) eqn:E.
Qed.
