(* ===== verification/Container.v ===== *)
(** * The dependency injection container

    Models src/packages/container/src/container.ts: bindings with their scopes, child
    containers, the resolution of tokens and of the constructor parameters of classes, the
    detection of cycles and disposal.  The containers of a program form a store in which a
    child has a larger index than its parent.  The parameter types of a class (metadata that
    reflect-metadata keeps) and what constructors throw are arguments; a factory is a
    program that resolves tokens, makes objects and returns or throws.  Factories that
    register bindings, open scopes or dispose of containers are not modelled, and the texts
    of foreign errors are taken not to contain the marks of a resolution chain. *)

From S2P Require Import Prelude JsMap.

(** ** Data *)

#[local] Set Warnings "-register-all".

(** A class, or a symbol or string. *)
Inductive Token : Type :=
| Class (n : nat)
| Key (n : nat).

#[export] Instance token_eq_dec : EqDecision Token.
Proof. solve_decision. Defined.

(** An object has an identity, its class and what was passed to its constructor. *)
Inductive value : Type :=
| Obj (id cls : nat) (deps : list value)
| Val (n : nat).

Inductive error : Type :=
| Disposed
| NoBinding (t : Token)
| Circular (chain : list Token)
| Unresolvable (chain : list Token)              (* a primitive or undefined parameter type *)
| Wrapped (chain : list Token) (reason : error)
| Thrown (n : nat).

Inductive BindingScope : Type := singleton | transient | scoped.

#[export] Instance scope_eq_dec : EqDecision BindingScope.
Proof. solve_decision. Defined.

Inductive factory : Type :=
| FReturn (v : value)
| FThrow (e : error)
| FNew (cls : nat) (deps : list value) (k : value → factory)
| FResolve (t : Token) (k : result error value → factory).

Record Binding : Type := { b_factory : factory; b_scope : BindingScope }.

Record Cont : Type := {
  parent : option nat;
  singletons : list (Token * value);
  bindings : list (Token * Binding);
  resolving : list Token;
  disposed : bool
}.

Record World : Type := { conts : list Cont; next_id : nat }.

Definition set_singletons (s : list (Token * value)) (c : Cont) : Cont :=
  {| parent := parent c; singletons := s; bindings := bindings c; resolving := resolving c;
     disposed := disposed c |}.
Definition set_bindings (b : list (Token * Binding)) (c : Cont) : Cont :=
  {| parent := parent c; singletons := singletons c; bindings := b; resolving := resolving c;
     disposed := disposed c |}.
Definition set_resolving (r : list Token) (c : Cont) : Cont :=
  {| parent := parent c; singletons := singletons c; bindings := bindings c; resolving := r;
     disposed := disposed c |}.
Definition new_cont (p : option nat) : Cont :=
  {| parent := p; singletons := []; bindings := []; resolving := []; disposed := false |}.

(** The container of an index; what is outside the store is disposed of. *)
Definition get (w : World) (c : nat) : Cont :=
  default {| parent := None; singletons := []; bindings := []; resolving := []; disposed := true |}
    (conts w !! c).
Definition upd (f : Cont → Cont) (c : nat) (w : World) : World :=
  {| conts := alter f c (conts w); next_id := next_id w |}.
Definition alloc (cls : nat) (deps : list value) (w : World) : value * World :=
  (Obj (next_id w) cls deps, {| conts := conts w; next_id := S (next_id w) |}).

(** ** Operations *)

Definition assertActive (c : nat) (w : World) (next : World) : result error World :=
  if disposed (get w c) then Throw Disposed else Ok next.

Definition registerValue (c : nat) (t : Token) (v : value) (w : World) : result error World :=
  assertActive c w
    (upd (λ k, set_bindings (jm_set t {| b_factory := FReturn v; b_scope := singleton |} (bindings k))
                 (set_singletons (jm_set t v (singletons k)) k)) c w).

(** [register] is [registerValue] for a class. *)
Definition register (c n : nat) (v : value) (w : World) : result error World :=
  registerValue c (Class n) v w.

Definition registerFactory (c : nat) (t : Token) (f : factory) (s : BindingScope) (w : World) :
    result error World :=
  assertActive c w
    (upd (λ k, set_singletons (jm_delete t (singletons k))
                 (set_bindings (jm_set t {| b_factory := f; b_scope := s |} (bindings k)) k)) c w).

Definition createScope (c : nat) (w : World) : result error (nat * World) :=
  if disposed (get w c) then Throw Disposed
  else Ok (length (conts w),
           {| conts := conts w ++ [new_cont (Some c)]; next_id := next_id w |}).

Definition createContainer (w : World) : nat * World :=
  (length (conts w), {| conts := conts w ++ [new_cont None]; next_id := next_id w |}).

(** [findBinding]: a parent has a smaller index. *)
Fixpoint find_from (fuel : nat) (w : World) (c : nat) (t : Token) : option Binding :=
  match fuel with
  | O => None
  | S fuel =>
      match jm_get t (bindings (get w c)) with
      | Some b => Some b
      | None => match parent (get w c) with Some p => find_from fuel w p t | None => None end
      end
  end.
Definition findBinding (w : World) (c : nat) (t : Token) : option Binding := find_from (S c) w c t.

Definition has (c : nat) (t : Token) (w : World) : bool :=
  jm_has t (singletons (get w c)) || bool_decide (is_Some (findBinding w c t)).

Definition reset (c : nat) (w : World) : result error World :=
  assertActive c w (upd (λ k, set_resolving [] (set_singletons [] k)) c w).

(** ** Resolution *)

Section container.
Context (paramTypes : nat → list (option nat)).     (* [None]: a primitive or undefined type *)
Context (constructor_throws : nat → list value → option error).

(** The outcome of a call: [None] when the fuel is used up. *)
Abbreviation outcome A := (option (result error A * World)).

Section calls.
Context (call : Token → World → outcome value).    (* [this.resolve] *)

Fixpoint run_factory (f : factory) (w : World) : outcome value :=
  match f with
  | FReturn v => Some (Ok v, w)
  | FThrow e => Some (Throw e, w)
  | FNew cls deps k => let r := alloc cls deps w in run_factory (k r.1) r.2
  | FResolve t k =>
      match call t w with
      | None => None
      | Some (r, w) => run_factory (k r) w
      end
  end.

(** Errors that carry a chain are passed on, others get one. *)
Definition wrap (chain : list Token) (e : error) : error :=
  match e with
  | Unresolvable _ | Wrapped _ _ => e
  | _ => Wrapped chain e
  end.

Fixpoint resolve_deps (c n : nat) (params : list (option nat)) (w : World) : outcome (list value) :=
  match params with
  | [] => Some (Ok [], w)
  | None :: _ => Some (Throw (Unresolvable (resolving (get w c) ++ [Class n])), w)
  | Some d :: params =>
      match call (Class d) w with
      | None => None
      | Some (Throw e, w) => Some (Throw (wrap (resolving (get w c) ++ [Class d]) e), w)
      | Some (Ok v, w) =>
          match resolve_deps c n params w with
          | Some (Ok vs, w) => Some (Ok (v :: vs), w)
          | r => r
          end
      end
  end.

(** The parameters, then the constructor. *)
Definition construct (c n : nat) (w : World) : outcome value :=
  match resolve_deps c n (paramTypes n) w with
  | None => None
  | Some (Throw e, w) => Some (Throw e, w)
  | Some (Ok deps, w) =>
      match constructor_throws n deps with
      | Some e => Some (Throw e, w)
      | None => let r := alloc n deps w in Some (Ok r.1, r.2)
      end
  end.

(** [this.singletons.set(token, instance)], unless the binding is transient. *)
Definition kept (keep : bool) (t : Token) (r : result error value) (s : list (Token * value)) :
    list (Token * value) :=
  match r with
  | Ok v => if keep then jm_set t v s else s
  | Throw _ => s
  end.

(** [body] with [t] in the set of tokens being resolved. *)
Definition guarded (c : nat) (t : Token) (keep : bool) (body : World → outcome value)
    (w : World) : outcome value :=
  if bool_decide (t ∈ resolving (get w c))
  then Some (Throw (Circular (resolving (get w c) ++ [t])), w)
  else
    match body (upd (λ k, set_resolving (resolving k ++ [t]) k) c w) with
    | None => None
    | Some (r, w) =>
        let w := upd (λ k, set_singletons (kept keep t r (singletons k)) k) c w in
        Some (r, upd (λ k, set_resolving (filter (λ u, u ≠ t) (resolving k)) k) c w)
    end.
End calls.

Definition delegates (w : World) (c : nat) (t : Token) (b : Binding) : option nat :=
  match jm_get t (bindings (get w c)), parent (get w c), b_scope b with
  | None, Some p, singleton => Some p
  | _, _, _ => None
  end.

Fixpoint resolve (fuel c : nat) (t : Token) (w : World) : outcome value :=
  match fuel with
  | O => None
  | S fuel =>
      if disposed (get w c) then Some (Throw Disposed, w)
      else
        match jm_get t (singletons (get w c)) with
        | Some v => Some (Ok v, w)
        | None =>
            match findBinding w c t with
            | Some b =>
                match delegates w c t b with
                | Some p => resolve fuel p t w
                | None =>
                    guarded c t (bool_decide (b_scope b ≠ transient))
                      (run_factory (resolve fuel c) (b_factory b)) w
                end
            | None =>
                match t with
                | Key _ => Some (Throw (NoBinding t), w)
                | Class n => guarded c t true (construct (resolve fuel c) c n) w
                end
            end
        end
  end.

Fixpoint resolve_all (fuel : nat) (l : list (nat * Token)) (w : World) : option World :=
  match l with
  | [] => Some w
  | (c, t) :: l =>
      match resolve fuel c t w with
      | Some (_, w) => resolve_all fuel l w
      | None => None
      end
  end.
End container.

(** ** Disposal *)

(** The instances whose [dispose], [close] or [destroy] is called, in their order, the
    first error, and the container after it. *)
Definition dispose (fails : value → option error) (c : nat) (w : World) :
    list value * option error * World :=
  if disposed (get w c) then ([], None, w)
  else
    let order := reverse (jm_values (singletons (get w c))) in
    (order, head (omap fails order),
     upd (λ k, {| parent := parent k; singletons := []; bindings := bindings k; resolving := [];
                  disposed := true |}) c w).

(** ** The store *)

Lemma get_upd f c w i :
  c < length (conts w) → get (upd f c w) i = if decide (c = i) then f (get w i) else get w i.
Proof.
  intros [k Hk]%lookup_lt_is_Some. unfold get, upd. cbn [conts]. case_decide as E; subst.
  - rewrite list_lookup_alter_eq, Hk. done.
  - by rewrite list_lookup_alter_ne.
Qed.
Lemma get_alive w c : disposed (get w c) = false → c < length (conts w).
Proof.
  unfold get. destruct (conts w !! c) eqn:E; [|done]. intros _. by eapply lookup_lt_Some.
Qed.
Lemma length_upd f c w : length (conts (upd f c w)) = length (conts w).
Proof. apply length_alter. Qed.

(** What a resolution leaves alone: everything but the instances, to which it appends, and
    among these those of the tokens being resolved and of the tokens its parent owns. *)

Record same_static (w w' : World) : Prop := {
  ss_length : length (conts w') = length (conts w);
  ss_parent i : parent (get w' i) = parent (get w i);
  ss_bindings i : bindings (get w' i) = bindings (get w i);
  ss_disposed i : disposed (get w' i) = disposed (get w i)
}.

Definition frozen (w : World) (c : nat) (t : Token) : Prop :=
  t ∈ resolving (get w c) ∨ ∃ b p, findBinding w c t = Some b ∧ delegates w c t b = Some p.

Record grows (w w' : World) : Prop := {
  gr_static :> same_static w w';
  gr_resolving i : resolving (get w' i) = resolving (get w i);
  gr_singletons i : singletons (get w i) `prefix_of` singletons (get w' i);
  gr_frozen i t : frozen w i t → jm_get t (singletons (get w' i)) = jm_get t (singletons (get w i))
}.

Lemma static_find w w' : same_static w w' → ∀ c t, findBinding w' c t = findBinding w c t.
Proof.
  intros Hs c t. unfold findBinding. generalize (S c) as fuel. intros fuel. revert c.
  induction fuel as [|fuel IH]; intros c; [done|]. cbn [find_from].
  rewrite (ss_bindings _ _ Hs), (ss_parent _ _ Hs).
  destruct (jm_get t _); [done|]. by destruct (parent _).
Qed.

Lemma static_delegates w w' : same_static w w' → ∀ c t b, delegates w' c t b = delegates w c t b.
Proof. intros Hs c t b. unfold delegates. by rewrite (ss_bindings _ _ Hs), (ss_parent _ _ Hs). Qed.

(** A child is made after its parent. *)
Definition parents_ok (w : World) : Prop := ∀ c p, parent (get w c) = Some p → p < c.

Lemma static_parents w w' : same_static w w' → parents_ok w → parents_ok w'.
Proof. intros Hs Hw c p. rewrite (ss_parent _ _ Hs). apply Hw. Qed.

Lemma find_enough w fuel : parents_ok w → ∀ fuel' c t,
  c < fuel → c < fuel' → find_from fuel w c t = find_from fuel' w c t.
Proof.
  intros Hw. induction fuel as [|fuel IH]; intros [|fuel'] c t H1 H2; try lia.
  cbn [find_from]. destruct (jm_get t _); [done|]. destruct (parent (get w c)) as [p|] eqn:Ep; [|done].
  apply Hw in Ep. apply IH; lia.
Qed.

Lemma delegates_parent w c t b p :
  delegates w c t b = Some p →
  jm_get t (bindings (get w c)) = None ∧ parent (get w c) = Some p ∧ b_scope b = singleton.
Proof. unfold delegates. destruct (jm_get t _), (parent _), (b_scope b); naive_solver. Qed.

Lemma delegates_find w c t b p :
  parents_ok w → delegates w c t b = Some p → findBinding w p t = findBinding w c t.
Proof.
  intros Hw (Hn & Hp & _)%delegates_parent. unfold findBinding at 2. cbn [find_from].
  rewrite Hn, Hp. apply Hw in Hp. by apply find_enough; [|lia..].
Qed.

#[export] Instance static_preorder : PreOrder same_static.
Proof.
  split; [by split|]. intros w1 w2 w3 [] []. split; intros; etrans; eauto.
Qed.

Lemma frozen_grows w w' c t : grows w w' → frozen w' c t ↔ frozen w c t.
Proof.
  intros Hg. unfold frozen. rewrite (gr_resolving _ _ Hg).
  by setoid_rewrite (static_find _ _ (gr_static _ _ Hg));
    setoid_rewrite (static_delegates _ _ (gr_static _ _ Hg)).
Qed.

#[export] Instance grows_preorder : PreOrder grows.
Proof.
  split.
  - intros w. split; [done|done|done|done].
  - intros w1 w2 w3 H1 H2. split.
    + etrans; [apply H1|apply H2].
    + intros i. by rewrite (gr_resolving _ _ H2), (gr_resolving _ _ H1).
    + intros i. etrans; [apply H1|apply H2].
    + intros i t Hf. rewrite (gr_frozen _ _ H2) by by apply (frozen_grows w1 w2).
      by apply H1.
Qed.

Lemma alloc_grows cls deps w : grows w (alloc cls deps w).2.
Proof. split; [split|..]; done. Qed.

Lemma jm_set_prefix {K V} `{EqDecision K} t (v : V) (m : list (K * V)) : jm_get t m = None → m `prefix_of` jm_set t v m.
Proof. intros Hn. rewrite jm_set_None by done. by eexists. Qed.

Lemma filter_snoc_ne (t : Token) l : t ∉ l → filter (λ u, u ≠ t) (l ++ [t]) = l.
Proof.
  intros Hn. rewrite filter_app, filter_cons_False by naive_solver.
  rewrite filter_all; [by rewrite app_nil_r|]. apply Forall_forall. intros u Hu ->. done.
Qed.

Lemma enter_static c t w :
  c < length (conts w) →
  same_static w (upd (λ k, set_resolving (resolving k ++ [t]) k) c w).
Proof.
  intros Hc. split; [apply length_upd|..]; intros i; rewrite get_upd by done;
    by case_decide; subst.
Qed.

(** A token that its parent does not own, and whose resolution is not under way, may be
    resolved here: the instances of the container grow, by that of the token at most. *)
Lemma guarded_grows c t keep body w r w' :
  (∀ w r w', body w = Some (r, w') → grows w w') →
  c < length (conts w) → jm_get t (singletons (get w c)) = None →
  (∀ b, findBinding w c t = Some b → delegates w c t b = None) →
  guarded c t keep body w = Some (r, w') →
  grows w w' ∧ (∀ v, keep = true → r = Ok v → jm_get t (singletons (get w' c)) = Some v).
Proof.
  intros Hbody Hc Hnone Hown. unfold guarded. case_bool_decide as Hin; [by intros [= <- <-]|].
  set (w1 := upd _ c w). destruct (body w1) as [[r2 w2]|] eqn:Eb; [|done]. intros [= <- <-].
  apply Hbody in Eb. destruct Eb as [Hs Hr Hp Hf].
  assert (same_static w w1) as Hs1 by by apply enter_static.
  assert (length (conts w2) = length (conts w)) as Hlen.
  { rewrite (ss_length _ _ Hs). apply (ss_length _ _ Hs1). }
  assert (jm_get t (singletons (get w2 c)) = None) as Hn2.
  { rewrite Hf; unfold w1; [|left]; rewrite get_upd, decide_True by done; cbn; [done|].
    apply elem_of_app. right. by apply list_elem_of_singleton. }
  assert (∀ i, singletons (get w1 i) = singletons (get w i)) as Hsing.
  { intros i. unfold w1. rewrite get_upd by done. by case_decide; subst. }
  set (w4 := upd _ c (upd _ c w2)).
  assert (∀ i, get w4 i = if decide (c = i) then
    set_resolving (filter (λ u, u ≠ t) (resolving (get w2 i)))
      (set_singletons (kept keep t r2 (singletons (get w2 i))) (get w2 i)) else get w2 i) as H4.
  { intros i. unfold w4. rewrite !get_upd by (rewrite ?length_upd; lia). by case_decide. }
  assert (resolving (get w2 c) = resolving (get w c) ++ [t]) as Hr2.
  { rewrite Hr. unfold w1. by rewrite get_upd, decide_True by done. }
  assert (length (conts w4) = length (conts w)) as Hlen4 by (unfold w4; rewrite !length_upd; lia).
  clearbody w4. split.
  2: { intros v -> ->. rewrite H4, decide_True by done. cbn. by rewrite jm_get_set_eq. }
  assert (same_static w w2) as [_ Hpa Hbi Hdi] by by etrans.
  assert (∀ i u, frozen w i u → ¬ (c = i ∧ u = t) ∧
    jm_get u (singletons (get w2 i)) = jm_get u (singletons (get w i))) as Hfr.
  { intros i u Hu. split.
    - intros [-> ->]. destruct Hu as [?|(b & p & Hb & Hd)]; [done|]. by rewrite (Hown b) in Hd.
    - rewrite Hf, Hsing; [done|]. destruct Hu as [Hu|Hu]; [left|right].
      + unfold w1. rewrite get_upd by done. case_decide; [|done]. cbn. set_solver.
      + by setoid_rewrite (static_find _ _ Hs1); setoid_rewrite (static_delegates _ _ Hs1). }
  split; [split|..].
  - done.
  - intros i. rewrite H4. case_decide; apply Hpa.
  - intros i. rewrite H4. case_decide; apply Hbi.
  - intros i. rewrite H4. case_decide; apply Hdi.
  - intros i. rewrite H4. case_decide as Hi; cbn.
    + subst i. rewrite Hr2. by apply filter_snoc_ne.
    + rewrite Hr. unfold w1. rewrite get_upd by done. by rewrite decide_False.
  - intros i. rewrite H4. etrans; [rewrite <-Hsing; apply Hp|]. case_decide as Hi; [|done].
    subst i. cbn. destruct r2; [destruct keep|]; cbn; [by apply jm_set_prefix|done..].
  - intros i u Hu. destruct (Hfr i u Hu) as [Hne Heq]. rewrite <-Heq, H4.
    case_decide as Hi; [|done]. subst i. cbn.
    destruct r2; [destruct keep|]; cbn; [|done..]. rewrite jm_get_set_ne by naive_solver. done.
Qed.

(** ** Resolutions only add *)

Section grows.
Context (paramTypes : nat → list (option nat)).
Context (constructor_throws : nat → list value → option error).
Abbreviation resolve := (resolve paramTypes constructor_throws).
Abbreviation construct := (construct paramTypes constructor_throws).

Section calls.
Context (call : Token → World → option (result error value * World)).
Hypothesis Hcall : ∀ t w r w', call t w = Some (r, w') → grows w w'.

Lemma run_factory_grows f : ∀ w r w', run_factory call f w = Some (r, w') → grows w w'.
Proof.
  induction f as [v|e|cls deps k IH|t k IH]; intros w r w'; cbn [run_factory].
  - by intros [= <- <-].
  - by intros [= <- <-].
  - intros H. etrans; [apply (alloc_grows cls deps)|by eapply IH].
  - destruct (call t w) as [[r1 w1]|] eqn:E; [|done]. intros H.
    etrans; [by eapply Hcall|by eapply IH].
Qed.

Lemma resolve_deps_grows c n params : ∀ w r w',
  resolve_deps call c n params w = Some (r, w') → grows w w'.
Proof.
  induction params as [|[d|] params IH]; intros w r w'; cbn [resolve_deps].
  - by intros [= <- <-].
  - destruct (call (Class d) w) as [[[v|e] w1]|] eqn:E; [|by intros [= <- <-]; eapply Hcall|done].
    destruct (resolve_deps call c n params w1) as [[[vs|e] w2]|] eqn:E2; [..|done];
      intros [= <- <-]; (etrans; [by eapply Hcall|by eapply IH]).
  - by intros [= <- <-].
Qed.

Lemma construct_grows c n w r w' : construct call c n w = Some (r, w') → grows w w'.
Proof.
  unfold Container.construct.
  destruct (resolve_deps call c n (paramTypes n) w) as [[[vs|e] w1]|] eqn:E; [..|done];
    apply resolve_deps_grows in E; [|by intros [= <- <-]].
  destruct (constructor_throws n vs); intros [= <- <-]; [done|].
  etrans; [done|apply (alloc_grows n vs)].
Qed.
End calls.

(** What a resolution in [c] that reaches [guarded] knows. *)
Lemma resolve_cases fuel c t w :
  resolve (S fuel) c t w = Some (Throw Disposed, w) ∧ disposed (get w c) = true ∨
  disposed (get w c) = false ∧
  ((∃ v, jm_get t (singletons (get w c)) = Some v ∧ resolve (S fuel) c t w = Some (Ok v, w)) ∨
   jm_get t (singletons (get w c)) = None ∧
   ((∃ b p, findBinding w c t = Some b ∧ delegates w c t b = Some p ∧
       resolve (S fuel) c t w = resolve fuel p t w) ∨
    (∀ b, findBinding w c t = Some b → delegates w c t b = None) ∧
    ((∃ k, findBinding w c t = None ∧ t = Key k ∧
       resolve (S fuel) c t w = Some (Throw (NoBinding t), w)) ∨
     ∃ keep body, (∀ w r w', (∀ t w r w', resolve fuel c t w = Some (r, w') → grows w w') →
        body w = Some (r, w') → grows w w') ∧
       (keep = true ↔ ∀ b, findBinding w c t = Some b → b_scope b ≠ transient) ∧
       resolve (S fuel) c t w = guarded c t keep body w))).
Proof.
  cbn [Container.resolve]. destruct (disposed (get w c)); [by left|right]. split; [done|].
  destruct (jm_get t (singletons (get w c))) as [v|]; [left; by exists v|right]. split; [done|].
  destruct (findBinding w c t) as [b|] eqn:Eb.
  - destruct (delegates w c t b) as [p|] eqn:Ed; [left; by exists b, p|right].
    split; [by intros ? [= <-]|]. right. eexists _, _. split_and!; [..|done].
    + intros w1 r w' Hr. by apply run_factory_grows.
    + rewrite bool_decide_eq_true. naive_solver.
  - right. split; [done|]. destruct t as [n|k]; [right|left; by exists k].
    eexists _, _. split_and!; [..|done].
    + intros w1 r w' Hr. by apply construct_grows.
    + naive_solver.
Qed.

Lemma resolve_grows fuel : ∀ c t w r w', resolve fuel c t w = Some (r, w') → grows w w'.
Proof.
  induction fuel as [|fuel IH]; intros c t w r w'; [done|].
  destruct (resolve_cases fuel c t w) as [[-> _]|[Hd [(v & _ & ->)|[Hn [(b & p & _ & _ & ->)|
    [Hown [(k & _ & _ & ->)|(keep & body & Hb & _ & ->)]]]]]]];
    [by intros [= <- <-]|by intros [= <- <-]|by apply IH|by intros [= <- <-]|].
  intros H. eapply guarded_grows in H as [H _]; [done|..]; [|by apply get_alive|done|done].
  intros w1 r1 w1' H1. eapply Hb; [|done]. intros. by eapply IH.
Qed.
End grows.

(** ** Every resolution ends *)

Inductive asks_within (U : list Token) : factory → Prop :=
| asks_return v : asks_within U (FReturn v)
| asks_throw e : asks_within U (FThrow e)
| asks_new cls deps k : (∀ v, asks_within U (k v)) → asks_within U (FNew cls deps k)
| asks_resolve t k : t ∈ U → (∀ r, asks_within U (k r)) → asks_within U (FResolve t k).

Section ends.
Context (paramTypes : nat → list (option nat)).
Context (constructor_throws : nat → list value → option error).
Context (U : list Token).    (* the tokens of the program *)
Abbreviation resolve := (resolve paramTypes constructor_throws).
Abbreviation construct := (construct paramTypes constructor_throws).

(** Classes of the program have parameters of the program, factories ask for its tokens. *)
Record program (w : World) : Prop := {
  pr_params n d : Class n ∈ U → Some d ∈ paramTypes n → Class d ∈ U;
  pr_factories c t b : jm_get t (bindings (get w c)) = Some b → asks_within U (b_factory b);
  pr_parents : parents_ok w
}.

Lemma program_static w w' : same_static w w' → program w → program w'.
Proof.
  intros Hs [H1 H2 H3]. split; [done| |by eapply static_parents].
  intros c. rewrite (ss_bindings _ _ Hs). apply H2.
Qed.

Lemma findBinding_somewhere w c t b :
  findBinding w c t = Some b → ∃ i, jm_get t (bindings (get w i)) = Some b.
Proof.
  unfold findBinding. generalize (S c) as fuel. intros fuel. revert c.
  induction fuel as [|fuel IH]; intros c; [done|]. cbn [find_from].
  destruct (jm_get t _) eqn:E; [intros [= <-]; by exists c|].
  destruct (parent _); [apply IH|done].
Qed.

(** The nesting that the tokens not yet under way leave, here and in the ancestors. *)
Definition budget (w : World) (c : nat) : nat :=
  c * S (length U) + length (filter (λ t, t ∉ resolving (get w c)) U).

Section calls.
Context (call : Token → World → option (result error value * World)) (w1 : World).
Hypothesis Hcall : ∀ t w, t ∈ U → grows w1 w → ∃ r w', call t w = Some (r, w') ∧ grows w w'.

Lemma run_factory_ends f : asks_within U f → ∀ w, grows w1 w →
  ∃ r w', run_factory call f w = Some (r, w').
Proof.
  induction 1 as [v|e|cls deps k _ IH|t k Ht _ IH]; intros w Hw; cbn [run_factory]; [by eauto..| |].
  - apply IH. etrans; [done|apply (alloc_grows cls deps)].
  - destruct (Hcall t w Ht Hw) as (r & w' & -> & Hg). apply IH. by etrans.
Qed.

Lemma resolve_deps_ends c n params : (∀ d, Some d ∈ params → Class d ∈ U) → ∀ w, grows w1 w →
  ∃ r w', resolve_deps call c n params w = Some (r, w').
Proof.
  induction params as [|[d|] params IH]; intros Hp w Hw; cbn [resolve_deps]; [by eauto| |by eauto].
  destruct (Hcall (Class d) w) as ([v|e] & w' & -> & Hg); [set_solver|done| |by eauto].
  destruct (IH ltac:(set_solver) w' ltac:(by etrans)) as ([vs|e] & w2 & ->); eauto.
Qed.

Lemma construct_ends c n : (∀ d, Some d ∈ paramTypes n → Class d ∈ U) → ∀ w, grows w1 w →
  ∃ r w', construct call c n w = Some (r, w').
Proof.
  intros Hp w Hw. unfold Container.construct.
  destruct (resolve_deps_ends c n _ Hp w Hw) as ([vs|e] & w' & ->); [|by eauto].
  destruct (constructor_throws n vs); eauto.
Qed.
End calls.

Lemma guarded_ends c t keep body w :
  (let w1 := upd (λ k, set_resolving (resolving k ++ [t]) k) c w in
   t ∉ resolving (get w c) → ∃ r w', body w1 = Some (r, w')) →
  ∃ r w', guarded c t keep body w = Some (r, w').
Proof.
  intros Hb. unfold guarded. case_bool_decide as Hin; [by eauto|].
  destruct (Hb Hin) as (r & w' & ->). eauto.
Qed.

Lemma budget_enter c t w :
  c < length (conts w) → t ∈ U → t ∉ resolving (get w c) →
  budget (upd (λ k, set_resolving (resolving k ++ [t]) k) c w) c < budget w c.
Proof.
  intros Hc Ht Hn. unfold budget. rewrite get_upd, decide_True by done. cbn [resolving set_resolving].
  apply Nat.add_lt_mono_l. apply filter_length_strict with t; set_solver.
Qed.

Lemma resolve_ends (w : World) (c : nat) (t : Token) (fuel : nat)
    (Hw : program w) (Ht : t ∈ U) (Hf : budget w c < fuel) :
  ∃ r w', resolve fuel c t w = Some (r, w').
Proof.
  revert c t w Hw Ht Hf. induction fuel as [|fuel IH]; intros c t w Hw Ht Hf; [lia|].
  cbn [Container.resolve]. destruct (disposed (get w c)) eqn:Hd; [by eauto|].
  apply get_alive in Hd. destruct (jm_get t (singletons (get w c))); [by eauto|].
  assert (∀ t, t ∉ resolving (get w c) → t ∈ U →
    let w1 := upd (λ k, set_resolving (resolving k ++ [t]) k) c w in
    ∀ t' w', t' ∈ U → grows w1 w' → ∃ r w2, resolve fuel c t' w' = Some (r, w2) ∧ grows w' w2)
    as Hcall.
  { intros u Hu HuU w1 t' w' Ht' Hg. destruct (IH c t' w') as (r & w2 & E); [|done| |].
    - eapply program_static; [|done]. etrans; [|apply Hg]. by apply enter_static.
    - pose proof (budget_enter c u w Hd HuU Hu). unfold budget in *.
      rewrite (gr_resolving _ _ Hg). fold w1 in H. lia.
    - exists r, w2. split; [done|]. by eapply resolve_grows. }
  destruct (findBinding w c t) as [b|] eqn:Eb.
  - destruct (delegates w c t b) as [p|] eqn:Ep.
    + apply IH; [done..|]. assert (p < c) by (apply (pr_parents _ Hw); by eapply delegates_parent).
      unfold budget in *.
      pose proof (length_filter (λ t, t ∉ resolving (get w p)) U). nia.
    + apply guarded_ends. intros w1 Hn. eapply run_factory_ends; [by apply Hcall| |done].
      destruct (findBinding_somewhere _ _ _ _ Eb) as [i Hi]. by eapply pr_factories.
  - destruct t as [n|k]; [|by eauto]. apply guarded_ends. intros w1 Hn.
    eapply construct_ends; [by apply Hcall| |done]. intros d Hd'. by eapply pr_params.
Qed.
End ends.

(** ** One instance per scope *)

Section stable.
Context (paramTypes : nat → list (option nat)).
Context (constructor_throws : nat → list value → option error).
Abbreviation resolve := (resolve paramTypes constructor_throws).
Abbreviation resolve_all := (resolve_all paramTypes constructor_throws).

Lemma resolve_all_grows fuel l : ∀ w w', resolve_all fuel l w = Some w' → grows w w'.
Proof.
  induction l as [|[c t] l IH]; intros w w'; cbn [Container.resolve_all]; [by intros [= <-]|].
  destruct (resolve fuel c t w) as [[r w1]|] eqn:E; [|done]. intros H.
  etrans; [by eapply resolve_grows|by apply IH].
Qed.

Lemma jm_get_prefix {K V} `{EqDecision K} (m m' : list (K * V)) k v :
  m `prefix_of` m' → jm_get k m = Some v → jm_get k m' = Some v.
Proof.
  intros [x ->]. induction m as [|[k' v'] m IH]; [done|]. cbn.
  by case_decide.
Qed.

Lemma resolve_again fuel : ∀ c t w v w1 w2,
  parents_ok w → resolve fuel c t w = Some (Ok v, w1) → grows w1 w2 →
  (∀ b, findBinding w c t = Some b → b_scope b ≠ transient) →
  resolve fuel c t w2 = Some (Ok v, w2).
Proof.
  induction fuel as [|fuel IH]; intros c t w v w1 w2; [done|]. intros Hw E Hg Hb.
  pose proof (resolve_grows _ _ _ _ _ _ _ _ E) as Hg1.
  assert (grows w w2) as Hg2 by by etrans.
  assert (∀ v, disposed (get w c) = false → jm_get t (singletons (get w1 c)) = Some v →
    resolve (S fuel) c t w2 = Some (Ok v, w2)) as Hhit.
  { intros v' Hd Hv. cbn [Container.resolve]. rewrite (ss_disposed _ _ Hg2), Hd.
    by rewrite (jm_get_prefix _ _ _ _ (gr_singletons _ _ Hg c) Hv). }
  destruct (resolve_cases paramTypes constructor_throws fuel c t w)
    as [[E' _]|[Hd [(v' & Hv & E')|[Hn [(b & p & Hfb & Hdel & E')|
    [Hown [(k & _ & _ & E')|(keep & body & Hbody & Hkeep & E')]]]]]]]; rewrite E' in E.
  - done.
  - injection E as <- <-. by apply Hhit.
  - cbn [Container.resolve].
    rewrite (ss_disposed _ _ Hg2), Hd.
    rewrite (gr_frozen _ _ Hg2), Hn by (right; by exists b, p).
    rewrite (static_find _ _ Hg2), Hfb, (static_delegates _ _ Hg2), Hdel.
    eapply IH; [done..|]. by rewrite (delegates_find _ _ _ _ _ Hw Hdel).
  - done.
  - eapply guarded_grows in E as [_ Hk]; [|..|by apply get_alive|done|done].
    + apply Hhit; [done|]. apply Hk; [by apply Hkeep|done].
    + intros ? ? ? H. eapply Hbody; [|done]. intros. by eapply resolve_grows.
Qed.
End stable.

(** ** Containers of classes

    Without bindings a container builds classes from their parameter types. *)

Definition classes_only (w : World) (c : nat) : Prop :=
  disposed (get w c) = false ∧ ∀ t, findBinding w c t = None.

Lemma classes_static w w' c : same_static w w' → classes_only w c → classes_only w' c.
Proof.
  intros Hs [Hd Hf]. split; [by rewrite (ss_disposed _ _ Hs)|].
  intros t. by rewrite (static_find _ _ Hs).
Qed.

Lemma guarded_outcome c t keep body w r w' :
  c < length (conts w) → length (conts w) = length (conts w') →
  guarded c t keep body w = Some (r, w') →
  (t ∈ resolving (get w c) ∧ r = Throw (Circular (resolving (get w c) ++ [t])) ∧ w' = w) ∨
  ((t ∉ resolving (get w c)) ∧ ∃ w2,
     body (upd (λ k, set_resolving (resolving k ++ [t]) k) c w) = Some (r, w2) ∧
     singletons (get w' c) = kept keep t r (singletons (get w2 c))).
Proof.
  intros Hc Hlen. unfold guarded. case_bool_decide as Hin; [intros [= <- <-]; by left|].
  destruct (body _) as [[r2 w2]|] eqn:E; [|done]. intros [= <- <-]. right. split; [done|].
  exists w2. split; [done|]. rewrite !length_upd in Hlen.
  rewrite !get_upd by (rewrite ?length_upd; lia). by rewrite !decide_True by done.
Qed.

Section class_calls.
Context (paramTypes : nat → list (option nat)).
Context (constructor_throws : nat → list value → option error).
Abbreviation resolve := (resolve paramTypes constructor_throws).
Abbreviation construct := (construct paramTypes constructor_throws).

Lemma resolve_class fuel c n w :
  classes_only w c →
  resolve (S fuel) c (Class n) w =
    match jm_get (Class n) (singletons (get w c)) with
    | Some v => Some (Ok v, w)
    | None => guarded c (Class n) true (construct (resolve fuel c) c n) w
    end.
Proof. intros [Hd Hf]. cbn [Container.resolve]. by rewrite Hd, Hf. Qed.

(** Every instance is after what it was made of. *)
Definition ordered (w : World) (c : nat) : Prop :=
  jm_wf (singletons (get w c)) ∧
  ∀ k t v, singletons (get w c) !! k = Some (t, v) →
    ∃ id n deps, t = Class n ∧ v = Obj id n deps ∧
      ∀ d, d ∈ deps → d ∈ jm_values (take k (singletons (get w c))).

Lemma values_prefix (m m' : list (Token * value)) v :
  m `prefix_of` m' → v ∈ jm_values m → v ∈ jm_values m'.
Proof. intros [x ->]. unfold jm_values. rewrite fmap_app. set_solver. Qed.

Lemma resolve_deps_values call c n params :
  (∀ t w r w', call t w = Some (r, w') → grows w w') →
  (∀ d w r w', ordered w c → classes_only w c → call (Class d) w = Some (r, w') →
     ordered w' c ∧ ∀ v, r = Ok v → v ∈ jm_values (singletons (get w' c))) →
  ∀ w r w', ordered w c → classes_only w c → resolve_deps call c n params w = Some (r, w') →
  ordered w' c ∧ ∀ vs, r = Ok vs → ∀ v, v ∈ vs → v ∈ jm_values (singletons (get w' c)).
Proof.
  intros Hgr Hcall. induction params as [|[d|] params IH]; intros w r w' Ho Hw;
    cbn [Container.resolve_deps].
  - intros [= <- <-]. split; [done|]. intros vs [= <-] v Hv. by apply not_elem_of_nil in Hv.
  - destruct (call (Class d) w) as [[r1 w2]|] eqn:E; [|done].
    pose proof (Hcall _ _ _ _ Ho Hw E) as [Ho2 Hv2]. apply Hgr in E.
    assert (classes_only w2 c) as Hw2 by (by eapply classes_static; [apply E|]).
    destruct r1 as [v|e]; [|by intros [= <- <-]].
    destruct (resolve_deps call c n params w2) as [[r2 w3]|] eqn:E2; [|done].
    pose proof (IH _ _ _ Ho2 Hw2 E2) as [Ho3 Hv3].
    destruct r2 as [vs|e]; intros [= <- <-]; (split; [done|]); [|done].
    intros ? [= <-] u [->|Hu]%elem_of_cons; [|by eapply Hv3].
    eapply values_prefix; [|by apply Hv2]. by eapply gr_singletons, resolve_deps_grows.
  - by intros [= <- <-].
Qed.

Lemma ordered_snoc w w' c n id deps :
  ordered w c → singletons (get w' c) = singletons (get w c) ++ [(Class n, Obj id n deps)] →
  jm_get (Class n) (singletons (get w c)) = None →
  (∀ d, d ∈ deps → d ∈ jm_values (singletons (get w c))) → ordered w' c.
Proof.
  intros [Hwf Ho] Hs Hn Hd. unfold ordered. rewrite Hs. split.
  - rewrite <-(jm_set_None (Class n) (Obj id n deps)) by done. by apply jm_set_wf.
  - intros k t v [Hk|[Hle Hk]]%lookup_app_Some.
    + destruct (Ho _ _ _ Hk) as (i & m & ds & -> & -> & Hds). exists i, m, ds.
      split_and!; [done..|]. apply lookup_lt_Some in Hk. by rewrite take_app_le by lia.
    + apply list_lookup_singleton_Some in Hk as [Hk [= <- <-]].
      exists id, n, deps. split_and!; [done..|].
      replace k with (length (singletons (get w c))) by lia. by rewrite take_app_length.
Qed.

Lemma ordered_same w w' c :
  singletons (get w' c) = singletons (get w c) → ordered w c → ordered w' c.
Proof. unfold ordered. by intros ->. Qed.

Lemma class_ordered fuel c : ∀ n w r w',
  ordered w c → classes_only w c → resolve fuel c (Class n) w = Some (r, w') →
  ordered w' c ∧ ∀ v, r = Ok v → v ∈ jm_values (singletons (get w' c)).
Proof.
  induction fuel as [|fuel IH]; intros n w r w' Ho Hw; [done|]. intros E.
  pose proof (resolve_grows _ _ _ _ _ _ _ _ E) as Hg. rewrite resolve_class in E by done.
  destruct (jm_get _ _) as [v|] eqn:Hv.
  { injection E as <- <-. split; [done|]. intros ? [= <-]. apply jm_get_elem in Hv.
    apply list_elem_of_fmap. by exists (Class n, v). }
  assert (c < length (conts w)) as Hc by apply get_alive, Hw.
  apply guarded_outcome in E as [(Hin & -> & ->)|(Hn & w2 & E & Hs)];
    [done| |done|by rewrite (ss_length _ _ Hg)].
  set (w1 := upd _ c w) in E.
  assert (same_static w w1) as Hs1 by by apply enter_static.
  assert (singletons (get w1 c) = singletons (get w c)) as Hw1
    by (unfold w1; by rewrite get_upd, decide_True by done).
  assert (Class n ∈ resolving (get w1 c)) as Hin1.
  { unfold w1. rewrite get_upd, decide_True by done. cbn. set_solver. }
  unfold Container.construct in E.
  destruct (resolve_deps (resolve fuel c) c n (paramTypes n) w1) as [[r3 w3]|] eqn:E3; [|done].
  pose proof (resolve_deps_grows _ (resolve_grows _ _ fuel c) _ _ _ _ _ _ E3) as Hg3.
  apply resolve_deps_values in E3 as [Ho3 Hv3];
    [|apply resolve_grows|exact IH|by eapply ordered_same|by eapply classes_static].
  assert (jm_get (Class n) (singletons (get w3 c)) = None) as Hn3.
  { rewrite (gr_frozen _ _ Hg3) by by left. by rewrite Hw1. }
  destruct r3 as [vs|e]; [destruct (constructor_throws n vs)|]; injection E as <- <-;
    cbn [kept] in Hs; try (split; [by eapply ordered_same|done]).
  change (singletons (get {| conts := conts w3; next_id := S (next_id w3) |} c))
    with (singletons (get w3 c)) in Hs.
  rewrite jm_set_None in Hs by done. split.
  - eapply ordered_snoc; [done|exact Hs|done|]. by eapply Hv3.
  - intros v [= <-]. rewrite Hs. unfold jm_values. rewrite fmap_app. set_solver.
Qed.
End class_calls.

Section classes.
Context (paramTypes : nat → list (option nat)).
Abbreviation no_throw := (λ (_ : nat) (_ : list value), @None error).
Abbreviation resolve := (resolve paramTypes no_throw).
Abbreviation construct := (construct paramTypes no_throw).
Abbreviation resolve_deps := (resolve_deps).

(** The classes that can be built: those whose dependencies are classes that can be built. *)
Inductive buildable : nat → Prop :=
| build n : (∀ d, d ∈ paramTypes n → d ≠ None) → (∀ m, Some m ∈ paramTypes n → buildable m) →
    buildable n.

Definition depends (n m : nat) : Prop := Some m ∈ paramTypes n.

Lemma buildable_no_cycle n : buildable n → ¬ tc depends n n.
Proof.
  induction 1 as [n _ _ IH]. intros Hc.
  assert (∃ m, depends n m ∧ tc depends m m) as (m & Hm & Hc').
  { inversion Hc as [? ? H|? m ? H H']; subst; [by exists n|].
    exists m. split; [done|]. by eapply tc_r. }
  by eapply IH.
Qed.

Definition built (w : World) (c : nat) : Prop :=
  ∀ t v, jm_get t (singletons (get w c)) = Some v → ∃ n, t = Class n ∧ buildable n.

(** What an error reports: a parameter without a class, or a real cycle, at the end of a
    path of dependencies. *)
Fixpoint cause (e : error) : error :=
  match e with Wrapped _ e => cause e | _ => e end.

Fixpoint path (l : list nat) : Prop :=
  match l with
  | n :: (m :: _) as l => depends n m ∧ path l
  | _ => True
  end.

Definition defect (e : error) : Prop :=
  (∃ l n, cause e = Circular (Class <$> l ++ [n]) ∧ n ∈ l ∧ path (l ++ [n])) ∨
  (∃ l n, cause e = Unresolvable (Class <$> l ++ [n]) ∧ last l = Some n ∧ path l ∧
     None ∈ paramTypes n).

Lemma path_snoc l n m : path (l ++ [n]) → depends n m → path ((l ++ [n]) ++ [m]).
Proof.
  induction l as [|a l IH]; intros Hp Hd; [done|].
  destruct l as [|b l]; cbn in *; [naive_solver|]. destruct Hp. split; [done|]. by apply IH.
Qed.

Lemma path_init l n : path (l ++ [n]) → path l.
Proof.
  induction l as [|a [|b l] IH]; [done..|]. intros [H1 H2]. split; [done|]. by apply IH.
Qed.

Lemma path_reach l n m : path (l ++ [n]) → m ∈ l → tc depends m n.
Proof.
  intros Hp. revert m Hp. induction l as [|a l IH]; intros m Hp Hm; [by apply not_elem_of_nil in Hm|].
  assert (path (l ++ [n])) by (destruct l; [done|]; by destruct Hp).
  apply elem_of_cons in Hm as [->|Hm]; [|by apply IH].
  destruct l as [|b l]; destruct Hp as [Hd _]; [by apply tc_once|].
  eapply tc_l; [done|]. apply IH; [done|]. left.
Qed.

(** What is known of the outcome of a class. *)
Definition class_outcome {A} (good : Prop) (r : result error A) : Prop :=
  match r with Ok _ => good | Throw e => ¬ good ∧ defect e end.

Lemma resolve_deps_classes call c l n w1 params :
  (∀ d w r w', depends n d → grows w1 w → built w c → call (Class d) w = Some (r, w') →
     grows w w' ∧ built w' c ∧ class_outcome (buildable d) r) →
  resolving (get w1 c) = Class <$> l ++ [n] → path (l ++ [n]) → params ⊆ paramTypes n →
  ∀ w r w', grows w1 w → built w c → resolve_deps call c n params w = Some (r, w') →
  built w' c ∧ class_outcome
    ((∀ d, d ∈ params → d ≠ None) ∧ (∀ m, Some m ∈ params → buildable m)) r.
Proof.
  intros Hcall Hr Hp. induction params as [|[d|] params IH]; intros Hsub w r w' Hg Hbu;
    cbn [Container.resolve_deps].
  - intros [= <- <-]. split; [done|]. cbn. set_solver.
  - destruct (call (Class d) w) as [[r1 w2]|] eqn:E; [|done].
    eapply Hcall in E as (Hg2 & Hb2 & Ho); [|apply Hsub; left|done..].
    destruct r1 as [v|e].
    + destruct (resolve_deps call c n params w2) as [[r2 w3]|] eqn:E2; [|done].
      eapply IH in E2 as [Hb3 Ho3]; [|set_solver|by etrans|done].
      destruct r2 as [vs|e]; intros [= <- <-]; (split; [done|]); cbn in *; [set_solver|].
      destruct Ho3 as [Hn ?]. split; [|done]. intros [H1 H2]. apply Hn. set_solver.
    + intros [= <- <-]. split; [done|]. destruct Ho as [Hn He]. split.
      * intros [_ H]. apply Hn, H. left.
      * by destruct e.
  - intros [= <- <-]. split; [done|]. split.
    + intros [H _]. by apply (H None); [left|].
    + right. exists (l ++ [n]), n. rewrite (gr_resolving _ _ Hg), Hr, last_snoc.
      split_and!; [by rewrite !fmap_app|done|done|]. apply Hsub. left.
Qed.

Lemma built_same w w' c :
  singletons (get w' c) = singletons (get w c) → built w c → built w' c.
Proof. unfold built. by intros ->. Qed.

Lemma classes_resolve fuel c : ∀ l n w r w',
  classes_only w c → built w c → resolving (get w c) = Class <$> l → path (l ++ [n]) →
  resolve fuel c (Class n) w = Some (r, w') →
  built w' c ∧ class_outcome (buildable n) r.
Proof.
  induction fuel as [|fuel IH]; intros l n w r w' Hw Hb Hr Hp; [done|]. intros E.
  pose proof (resolve_grows _ _ _ _ _ _ _ _ E) as Hg. rewrite resolve_class in E by done.
  destruct (jm_get _ _) as [v|] eqn:Hv.
  { injection E as <- <-. split; [done|]. destruct (Hb _ _ Hv) as (? & [= <-] & ?). done. }
  assert (c < length (conts w)) as Hc by apply get_alive, Hw.
  apply guarded_outcome in E as [(Hin & -> & ->)|(Hn & w2 & E & Hs)];
    [| |done|by rewrite (ss_length _ _ Hg)].
  { rewrite Hr in *. apply list_elem_of_fmap in Hin as (m & [= <-] & Hm). split; [done|]. split.
    - intros H. eapply buildable_no_cycle; [done|]. by eapply path_reach.
    - left. exists l, n. by rewrite fmap_app. }
  set (w1 := upd _ c w) in E.
  assert (same_static w w1) as Hs1 by by apply enter_static.
  assert (resolving (get w1 c) = Class <$> l ++ [n]) as Hr1.
  { unfold w1. rewrite get_upd, decide_True by done. cbn. by rewrite Hr, fmap_app. }
  assert (built w1 c) as Hb1.
  { eapply built_same; [|done]. unfold w1. by rewrite get_upd, decide_True by done. }
  unfold Container.construct in E.
  destruct (resolve_deps (resolve fuel c) c n (paramTypes n) w1) as [[r3 w3]|] eqn:E3; [|done].
  assert (built w3 c ∧ class_outcome ((∀ d, d ∈ paramTypes n → d ≠ None) ∧
    (∀ m, Some m ∈ paramTypes n → buildable m)) r3) as [Hb3 Ho].
  { eapply (resolve_deps_classes _ c l n w1); [|done..]. intros d w4 r4 w5 Hd Hg4 Hb4 E4. split.
    - by eapply resolve_grows.
    - eapply (IH (l ++ [n]) d); [|done| |by apply path_snoc|done].
      + eapply classes_static; [|done]. etrans; [done|apply Hg4].
      + by rewrite (gr_resolving _ _ Hg4). }
  destruct r3 as [vs|e]; cbn in E; injection E as <- <-; cbn in Ho.
  - assert (buildable n) by (destruct Ho; by apply build). split; [|done]. intros t v. rewrite Hs. cbn [kept].
    destruct (decide (t = Class n)) as [->|Hne].
    + intros _. by exists n.
    + rewrite jm_get_set_ne by done. apply Hb3.
  - destruct Ho as [Ho He]. split; [|split; [|done]].
    + intros t v. rewrite Hs. apply Hb3.
    + intros Hbu. apply Ho. by inversion Hbu.
Qed.
End classes.

(** ** Histories of operations *)

Section histories.
Context (paramTypes : nat → list (option nat)).
Context (constructor_throws : nat → list value → option error).
Context (fails : value → option error).

Inductive operation : Type :=
| CreateContainer
| CreateScope (c : nat)
| RegisterValue (c : nat) (t : Token) (v : value)
| RegisterFactory (c : nat) (t : Token) (f : factory) (s : BindingScope)
| Resolve (fuel c : nat) (t : Token)
| Reset (c : nat)
| Dispose (c : nat).

Definition after (r : result error World) (w : World) : World :=
  match r with Ok w' => w' | Throw _ => w end.

(** What an operation leaves, an error included. *)
Definition perform (w : World) (o : operation) : World :=
  match o with
  | CreateContainer => (createContainer w).2
  | CreateScope c => match createScope c w with Ok r => r.2 | Throw _ => w end
  | RegisterValue c t v => after (registerValue c t v w) w
  | RegisterFactory c t f s => after (registerFactory c t f s w) w
  | Resolve fuel c t =>
      match resolve paramTypes constructor_throws fuel c t w with Some r => r.2 | None => w end
  | Reset c => after (reset c w) w
  | Dispose c => (dispose fails c w).2
  end.

(** The factories of a history ask for tokens of the program. *)
Definition operation_ok (U : list Token) (o : operation) : Prop :=
  match o with RegisterFactory _ _ f _ => asks_within U f | _ => True end.

Lemma program_upd U f c w :
  (∀ k, parent (f k) = parent k) →
  (∀ k t b, jm_get t (bindings (f k)) = Some b →
     jm_get t (bindings k) = Some b ∨ asks_within U (b_factory b)) →
  c < length (conts w) → program paramTypes U w → program paramTypes U (upd f c w).
Proof.
  intros Hp Hb Hc [H1 H2 H3]. split; [done|..].
  - intros i t b. rewrite get_upd by done. case_decide; [|apply H2].
    intros [?|?]%Hb; [by eapply H2|done].
  - intros i p. rewrite get_upd by done. case_decide; rewrite ?Hp; apply H3.
Qed.

Lemma get_snoc w k n i :
  get {| conts := conts w ++ [k]; next_id := n |} i =
    if decide (i = length (conts w)) then k else get w i.
Proof.
  unfold get. cbn [conts]. case_decide as Hi.
  - subst. by rewrite list_lookup_middle.
  - destruct (decide (i < length (conts w))).
    + by rewrite lookup_app_l.
    + rewrite !(proj2 (lookup_ge_None _ _)); [done|lia|rewrite length_app; cbn; lia].
Qed.

Lemma program_snoc U w p :
  (∀ q, p = Some q → q < length (conts w)) → program paramTypes U w →
  program paramTypes U {| conts := conts w ++ [new_cont p]; next_id := next_id w |}.
Proof.
  intros Hp [H1 H2 H3]. split; [done|..].
  - intros i t b. rewrite get_snoc. case_decide; [done|apply H2].
  - intros i q. rewrite get_snoc. case_decide; [subst; apply Hp|apply H3].
Qed.

Lemma perform_program U w o :
  operation_ok U o → program paramTypes U w → program paramTypes U (perform w o).
Proof.
  intros Ho Hw. destruct o as [|c|c t v|c t f s|fuel c t|c|c]; cbn [perform].
  - by apply program_snoc.
  - unfold createScope. destruct (disposed (get w c)) eqn:Hd; [done|]. apply program_snoc; [|done].
    intros q [= <-]. by apply get_alive.
  - unfold registerValue, assertActive. destruct (disposed (get w c)) eqn:Hd; [done|].
    apply program_upd; [done| |by apply get_alive|done]. intros k u b. cbn [bindings set_bindings].
    destruct (decide (u = t)) as [->|]; [|rewrite jm_get_set_ne by done; by left].
    rewrite jm_get_set_eq. intros [= <-]. right. constructor.
  - unfold registerFactory, assertActive. destruct (disposed (get w c)) eqn:Hd; [done|].
    apply program_upd; [done| |by apply get_alive|done]. intros k u b. cbn.
    destruct (decide (u = t)) as [->|]; [|rewrite jm_get_set_ne by done; by left].
    rewrite jm_get_set_eq. intros [= <-]. by right.
  - destruct (resolve _ _ fuel c t w) as [[r w']|] eqn:E; [|done]. cbn.
    eapply program_static; [|done]. by eapply gr_static, resolve_grows.
  - unfold reset, assertActive. destruct (disposed (get w c)) eqn:Hd; [done|].
    apply program_upd; [done|by left|by apply get_alive|done].
  - unfold dispose. destruct (disposed (get w c)) eqn:Hd; [done|]. cbn [snd].
    apply program_upd; [done|by left|by apply get_alive|done].
Qed.

Lemma perform_all_program U ops : ∀ w,
  Forall (operation_ok U) ops → program paramTypes U w → program paramTypes U (foldl perform w ops).
Proof.
  induction ops as [|o ops IH]; intros w Ho Hw; [done|].
  apply Forall_cons in Ho as [? ?]. by apply IH, perform_program.
Qed.
End histories.

(** ** Properties *)

(** in every history of operations the containers stay well formed, a child made after
    its parent and every bound factory asking for tokens of the program only, and so every
    resolution of one of these tokens ends, after whatever operations and errors. *)
Theorem histories_well_formed (paramTypes : nat → list (option nat))
    (constructor_throws : nat → list value → option error) (fails : value → option error)
    (U : list Token) (ops : list operation)
    (Hp : ∀ n d, Class n ∈ U → Some d ∈ paramTypes n → Class d ∈ U)
    (Ho : Forall (operation_ok U) ops) :
  let w := foldl (perform paramTypes constructor_throws fails) {| conts := []; next_id := 0 |} ops in
  program paramTypes U w ∧
  ∀ c t, t ∈ U →
    is_Some (resolve paramTypes constructor_throws (S c * S (length U)) c t w).
Proof.
  cbv zeta. set (w := foldl _ _ _).
  assert (program paramTypes U w) as Hw.
  { apply perform_all_program; [done|]. split; [done|done|]. intros c p H. done. }
  split; [done|]. intros c t Ht.
  destruct (resolve_ends paramTypes constructor_throws U w c t (S c * S (length U)))
    as (r & w' & ->); [done..| |done].
  unfold budget. pose proof (length_filter (λ t, t ∉ resolving (get w c)) U). lia.
Qed.

(** C9: every resolution ends, whatever the dependencies of classes and factories and in
    whatever state the containers are: nested at most once per token and container, it
    returns or throws, and it leaves bindings, lifetimes and the tokens under way as they
    were, adding instances at the end. *)
Theorem resolve_terminates (paramTypes : nat → list (option nat))
    (constructor_throws : nat → list value → option error) (U : list Token) (w : World)
    (c : nat) (t : Token) (fuel : nat)
    (Hw : program paramTypes U w) (Ht : t ∈ U) (Hf : S c * S (length U) <= fuel) :
  ∃ r w', resolve paramTypes constructor_throws fuel c t w = Some (r, w') ∧ grows w w'.
Proof.
  destruct (resolve_ends paramTypes constructor_throws U w c t fuel) as (r & w' & E); [done..| |].
  - unfold budget. pose proof (length_filter (λ t, t ∉ resolving (get w c)) U). lia.
  - exists r, w'. split; [done|]. by eapply resolve_grows.
Qed.

(** an instance that is not transient is made once: after any further resolutions the
    container answers the token with the same instance and changes nothing, and so does
    every other container that leaves the token to the same parent. *)
Theorem one_instance_per_owner (paramTypes : nat → list (option nat))
    (constructor_throws : nat → list value → option error) (fuel c : nat) (t : Token)
    (w w1 w2 : World) (v : value) (reqs : list (nat * Token)) (fuel' : nat)
    (Hw : parents_ok w)
    (E : resolve paramTypes constructor_throws (S fuel) c t w = Some (Ok v, w1))
    (Hl : resolve_all paramTypes constructor_throws fuel' reqs w1 = Some w2)
    (Hb : ∀ b, findBinding w c t = Some b → b_scope b ≠ transient) :
  resolve paramTypes constructor_throws (S fuel) c t w2 = Some (Ok v, w2) ∧
  ∀ b p c', delegates w c t b = Some p → findBinding w c t = Some b →
    jm_get t (singletons (get w c)) = None → jm_get t (singletons (get w c')) = None →
    delegates w c' t b = Some p → disposed (get w c') = false →
    resolve paramTypes constructor_throws (S fuel) c' t w2 = Some (Ok v, w2).
Proof.
  apply resolve_all_grows in Hl. split; [by eapply resolve_again|].
  intros b p c' Hd Hfb Hn Hn' Hd' Ha.
  assert (grows w w2) as Hg by (etrans; [by eapply resolve_grows|done]).
  assert (findBinding w c' t = Some b) as Hfb'.
  { by rewrite <-(delegates_find w c' t b p Hw Hd'), (delegates_find w c t b p Hw Hd). }
  cbn [resolve] in E |- *. destruct (disposed (get w c)); [done|].
  rewrite Hn, Hfb, Hd in E. rewrite (ss_disposed _ _ Hg), Ha.
  rewrite (gr_frozen _ _ Hg), Hn' by (right; by exists b, p).
  rewrite (static_find _ _ Hg), Hfb', (static_delegates _ _ Hg), Hd'.
  eapply resolve_again; [done..|]. by rewrite (delegates_find w c t b p).
Qed.

(** C24: a container without bindings, with nothing kept and nothing under way, in a program
    of finitely many classes whose constructors do not throw: every resolution of a class
    ends, and it builds exactly the classes whose dependencies are, all the way down, classes
    without a cycle among them; otherwise the error reports a real cycle at the end of a path
    of dependencies, or a parameter without a class at the end of one. *)
Theorem resolve_builds_exactly (paramTypes : nat → list (option nat)) (U : list Token)
    (w : World) (c n : nat) (fuel : nat)
    (Hw : program paramTypes U w) (Hn : Class n ∈ U) (Hf : S c * S (length U) <= fuel)
    (Hc : classes_only w c) (Hs : singletons (get w c) = []) (Hr : resolving (get w c) = []) :
  ∃ r w', resolve paramTypes (λ _ _, None) fuel c (Class n) w = Some (r, w') ∧
    match r with
    | Ok _ => buildable paramTypes n
    | Throw e => ¬ buildable paramTypes n ∧ defect paramTypes e
    end.
Proof.
  destruct (resolve_ends paramTypes (λ _ _, None) U w c (Class n) fuel) as (r & w' & E); [done..| |].
  - unfold budget. pose proof (length_filter (λ t, t ∉ resolving (get w c)) U). lia.
  - exists r, w'. split; [done|]. assert (built paramTypes w c) as Hb by (intros t v; by rewrite Hs).
    by destruct (classes_resolve _ _ _ [] _ _ _ _ Hc Hb Hr I E) as [_ Ho].
Qed.

(** a container of classes disposes of each of its instances once, and of none before
    all that were made from it. *)
Theorem dispose_dependents_first (paramTypes : nat → list (option nat))
    (constructor_throws : nat → list value → option error) (fails : value → option error)
    (w w' : World) (c fuel : nat) (classes : list nat)
    (Hc : classes_only w c) (Hs : singletons (get w c) = [])
    (E : resolve_all paramTypes constructor_throws fuel ((λ n, (c, Class n)) <$> classes) w = Some w') :
  let order := (dispose fails c w').1.1 in
  order ≡ₚ jm_values (singletons (get w' c)) ∧ NoDup order ∧
  ∀ i v, order !! i = Some v → ∃ id n deps, v = Obj id n deps ∧
    ∀ d, d ∈ deps → ∃ j, i < j ∧ order !! j = Some d.
Proof.
  assert (classes_only w' c ∧ ordered w' c) as [[Ha _] [Hwf Ho]].
  { assert (ordered w c) as Ho by (unfold ordered; rewrite Hs; split; [constructor|done]). clear Hs.
    revert w Hc Ho E. induction classes as [|n classes IH]; intros w Hc Ho;
      cbn [fmap list_fmap resolve_all]; [by intros [= <-]|].
    destruct (resolve _ _ fuel c (Class n) w) as [[r w1]|] eqn:E; [|done]. intros H.
    eapply IH; [| |exact H].
    - eapply classes_static; [|done]. eapply gr_static, resolve_grows, E.
    - by eapply class_ordered. }
  cbv zeta. unfold dispose. rewrite Ha. cbn [fst snd].
  set (s := singletons (get w' c)) in *. split; [apply reverse_Permutation|]. split.
  - rewrite reverse_Permutation. apply NoDup_alt. intros i j v Hi Hj. unfold jm_values in *.
    apply list_lookup_fmap_Some in Hi as ([t v'] & -> & Hi), Hj as ([t2 ?] & [= ->] & Hj).
    destruct (Ho _ _ _ Hi) as (? & n & ? & -> & Hv & _), (Ho _ _ _ Hj) as (? & m & ? & -> & Hv' & _).
    cbn in *. assert (n = m) as <- by congruence. eapply (NoDup_alt (jm_keys s)); [exact Hwf|..];
      apply list_lookup_fmap_Some; eexists (_, _); split; done.
  - intros i v (Hi & Hlt)%reverse_lookup_Some. unfold jm_values in Hi.
    apply list_lookup_fmap_Some in Hi as ([t v'] & -> & Hi). cbn.
    destruct (Ho _ _ _ Hi) as (id & n & deps & -> & -> & Hd). exists id, n, deps. split; [done|].
    intros d (k & Hk)%Hd%list_elem_of_lookup. unfold jm_values in Hk.
    rewrite fmap_take in Hk. apply lookup_take_Some in Hk as [Hk Hlt2].
    pose proof (lookup_lt_Some _ _ _ Hk). exists (length (jm_values s) - S k).
    fold (jm_values s) in *. split; [lia|].
    apply reverse_lookup_Some. split; [|lia].
    by replace (length (jm_values s) - S (length (jm_values s) - S k)) with k by lia.
Qed.

(** ** Examples *)

(** 0 needs 1 and 2, 1 needs 2; 3 and 4 need each other. *)
Definition sample_params (n : nat) : list (option nat) :=
  match n with
  | 0 => [Some 1; Some 2]
  | 1 => [Some 2]
  | 3 => [Some 4]
  | 4 => [Some 3]
  | _ => []
  end.
Definition no_throw (n : nat) (deps : list value) : option error := None.
Definition sample_tokens : list Token := [Class 0; Class 1; Class 2; Class 3; Class 4].
Definition empty_world : World := {| conts := []; next_id := 0 |}.

(** An application container with a singleton and two child scopes. *)
Definition sample_factory : factory := FResolve (Class 1) (λ r,
  match r with Ok v => FNew 7 [v] FReturn | Throw e => FThrow e end).
Definition sample_world : World :=
  {| conts := [set_bindings [(Key 0, {| b_factory := sample_factory; b_scope := singleton |})]
                 (new_cont None); new_cont (Some 0); new_cont (Some 0)];
     next_id := 0 |}.

Lemma sample_program : program sample_params sample_tokens sample_world.
Proof.
  split.
  - intros n d Hn Hd. unfold sample_tokens in *. destruct n as [|[|[|[|[|n]]]]]; cbn in Hd;
      repeat (apply elem_of_cons in Hd as [[= ->]|Hd]); try by apply not_elem_of_nil in Hd.
    all: apply (bool_decide_unpack _); vm_compute; exact I.
  - intros [|[|[|c]]] t b; cbn; try done. case_decide; [|done]. intros [= <-]. cbn.
    constructor; [apply (bool_decide_unpack _); vm_compute; exact I|].
    intros [v|e]; repeat constructor.
  - intros [|[|[|c]]] p; cbn; try done; intros [= <-]; lia.
Qed.

Lemma resolve_terminates_witness :
  ∃ r w', resolve sample_params no_throw 18 2 (Class 3) sample_world = Some (r, w').
Proof.
  destruct (resolve_terminates sample_params no_throw sample_tokens sample_world 2 (Class 3) 18
    sample_program ltac:(apply (bool_decide_unpack _); vm_compute; exact I)
    ltac:(vm_compute; lia)) as (r & w' & E & _).
  exists r, w'. exact E.
Defined.

Lemma histories_well_formed_witness :
  is_Some (resolve sample_params no_throw 12 1 (Key 0)
    (foldl (perform sample_params no_throw (λ _, None)) {| conts := []; next_id := 0 |}
       [CreateContainer; RegisterFactory 0 (Key 0) sample_factory scoped; CreateScope 0;
        Resolve 12 1 (Key 0); Resolve 12 0 (Class 3); Dispose 0])).
Proof.
  refine (proj2 (histories_well_formed sample_params no_throw (λ _, None) (Key 0 :: [Class 1; Class 2; Class 3; Class 4])
    _ _ _) 1 (Key 0) _).
  - intros n d Hn Hd. destruct n as [|[|[|[|[|n]]]]]; cbn in Hd;
      repeat (apply elem_of_cons in Hd as [[= ->]|Hd]); try by apply not_elem_of_nil in Hd.
    all: try (apply (bool_decide_unpack _); vm_compute; exact I).
  - repeat (apply Forall_cons_2; [exact I|]). apply Forall_cons_2.
    + constructor; [apply (bool_decide_unpack _); vm_compute; exact I|].
      intros [v|e]; repeat constructor.
    + repeat (apply Forall_cons_2; [exact I|]). constructor.
  - apply (bool_decide_unpack _). vm_compute. exact I.
Defined.

Lemma one_instance_per_owner_witness :
  ∃ w1 w2, resolve_all sample_params no_throw 20 [(1, Class 2); (2, Class 0)] w1 = Some w2 ∧
    resolve sample_params no_throw 20 1 (Key 0) w2 =
      Some (Ok (Obj 2 7 [Obj 1 1 [Obj 0 2 []]]), w2) ∧
    resolve sample_params no_throw 20 2 (Key 0) w2 =
      Some (Ok (Obj 2 7 [Obj 1 1 [Obj 0 2 []]]), w2).
Proof.
  destruct (resolve sample_params no_throw 20 1 (Key 0) sample_world) as [[r w1]|] eqn:E1.
  2: { vm_compute in E1. discriminate E1. }
  destruct (resolve_all sample_params no_throw 20 [(1, Class 2); (2, Class 0)] w1) as [w2|] eqn:E2.
  2: { vm_compute in E1. injection E1 as <- <-. vm_compute in E2. discriminate E2. }
  assert (r = Ok (Obj 2 7 [Obj 1 1 [Obj 0 2 []]])) as Hr.
  { vm_compute in E1. injection E1 as <- <-. reflexivity. }
  subst r. exists w1, w2. split; [exact E2|].
  assert (∀ b, findBinding sample_world 1 (Key 0) = Some b → b_scope b ≠ transient) as Hb.
  { intros b. vm_compute. intros [= <-]. discriminate. }
  destruct (one_instance_per_owner sample_params no_throw 19 1 (Key 0) sample_world w1 w2 _ _ 20
    (pr_parents _ _ _ sample_program) E1 E2 Hb) as [H1 H2].
  split; [exact H1|].
  exact (H2 {| b_factory := sample_factory; b_scope := singleton |} 0 2
    eq_refl eq_refl eq_refl eq_refl eq_refl eq_refl).
Defined.

Lemma resolve_builds_exactly_witness :
  ∃ r w', resolve sample_params (λ _ _, None) 12 1 (Class 3) 
      {| conts := [new_cont None; new_cont None]; next_id := 0 |} = Some (r, w') ∧
    match r with Ok _ => buildable sample_params 3
            | Throw e => ¬ buildable sample_params 3 ∧ defect sample_params e end.
Proof.
  assert (program sample_params sample_tokens
    {| conts := [new_cont None; new_cont None]; next_id := 0 |}) as Hp.
  { split; [exact (pr_params _ _ _ sample_program)|..]; intros [|[|c]]; cbn; done. }
  apply (resolve_builds_exactly sample_params sample_tokens _ 1 3 12 Hp).
  - apply (bool_decide_unpack _). vm_compute. exact I.
  - vm_compute. lia.
  - split; [reflexivity|]. intros t. reflexivity.
  - reflexivity.
  - reflexivity.
Defined.

(** The error names the chain of classes. *)
Lemma cycle_is_reported :
  fst <$> resolve sample_params no_throw 12 0 (Class 3)
    {| conts := [new_cont None]; next_id := 0 |} =
  Some (Throw (Wrapped [Class 3; Class 4; Class 3] (Circular [Class 3; Class 4; Class 3]))).
Proof. vm_compute. reflexivity. Qed.

Lemma dispose_dependents_first_witness :
  ∃ w', resolve_all sample_params no_throw 12 ((λ n, (0, Class n)) <$> [1; 0])
      {| conts := [new_cont None]; next_id := 0 |} = Some w' ∧
    (dispose (λ _, None) 0 w').1.1 =
      [Obj 2 0 [Obj 1 1 [Obj 0 2 []]; Obj 0 2 []]; Obj 1 1 [Obj 0 2 []]; Obj 0 2 []] ∧
    NoDup (dispose (λ _, None) 0 w').1.1.
Proof.
  destruct (resolve_all sample_params no_throw 12 ((λ n, (0, Class n)) <$> [1; 0])
    {| conts := [new_cont None]; next_id := 0 |}) as [w'|] eqn:E.
  2: { vm_compute in E. discriminate E. }
  exists w'. split; [reflexivity|]. split.
  - vm_compute in E. injection E as <-. reflexivity.
  - refine (proj1 (proj2 (dispose_dependents_first sample_params no_throw (λ _, None)
      {| conts := [new_cont None]; next_id := 0 |} w' 0 12 [1; 0] _ eq_refl E))).
    split; [reflexivity|]. intros t. reflexivity.
Defined.

(** A factory that passes a class on under another token: the instance is disposed of twice,
    and before what was made from it. *)
Definition alias_world : World :=
  {| conts := [set_bindings [(Key 0, {| b_factory := FResolve (Class 2) (λ r,
       match r with Ok v => FReturn v | Throw e => FThrow e end); b_scope := singleton |})]
       (new_cont None)]; next_id := 0 |}.
Lemma alias_is_disposed_twice :
  (λ w, (dispose (λ _, None) 0 w).1.1) <$>
    resolve_all sample_params no_throw 12 [(0, Class 1); (0, Key 0)] alias_world =
  Some [Obj 0 2 []; Obj 1 1 [Obj 0 2 []]; Obj 0 2 []].
Proof. vm_compute. reflexivity. Qed.

(** A class that is not bound is made anew in every child scope, although the application
    container holds it. *)
Lemma scope_builds_class_again :
  (λ w, (jm_get (Class 2) (singletons (get w 0)), jm_get (Class 2) (singletons (get w 1)))) <$>
    resolve_all sample_params no_throw 12 [(0, Class 2); (1, Class 2)] sample_world =
  Some (Some (Obj 0 2 []), Some (Obj 1 2 [])).
Proof. vm_compute. reflexivity. Qed.
