(* ===== verification/Router.v ===== *)
(** * The HTTP router

    Models src/packages/router/src/router.ts: templates compiled to a regular expression
    (here its pieces, matched with the backtracking of a greedy expression), the first
    registered route that matches, the decoding of parameters, the pipeline of
    middlewares and the validation of requests.  Texts are lists of code units below 256,
    request paths of ASCII characters, and a decoded parameter is given by its UTF-8 bytes.
    Middlewares and handlers are programs that update the context, call [next] and return
    or throw.  The metadata that decorators leave (roles, permissions, rate limits) and the
    [pattern] of a rule are arguments; latencies are not modelled. *)

From Stdlib Require Import Ascii String.
From S2P Require Import Prelude JsText JsMap.

Abbreviation text := (list ascii) (only parsing).

Definition SLASH : ascii := "/"%char.

(** ** Templates *)

Inductive piece : Type :=
| Lit (c : ascii)
| Param (name : text)      (* [:name], the expression [([^/]+)] *)
| Star.                    (* [*], the expression [(.* )] *)

#[export] Instance piece_eq_dec : EqDecision piece.
Proof. solve_decision. Defined.

Definition is_letter (c : ascii) : bool :=
  let n := code c in ((97 <=? n) && (n <=? 122) || (65 <=? n) && (n <=? 90) || (n =? 95))%Z.
Definition name_char (c : ascii) : bool := is_letter c || is_digit c.

Fixpoint span (p : ascii → bool) (l : text) : text * text :=
  match l with
  | c :: l' => if p c then let r := span p l' in (c :: r.1, r.2) else ([], l)
  | [] => ([], [])
  end.

(** The pieces of a template, its names in order being [paramNames]; [fuel] is the length
    of the template at least. *)
Fixpoint compile (fuel : nat) (l : text) : list piece :=
  match fuel, l with
  | S fuel, c :: l =>
      if decide (c = "*"%char) then Star :: compile fuel l
      else
        let r := span name_char l in
        match l with
        | d :: _ =>
            if decide (c = ":"%char ∧ is_letter d = true)
            then Param r.1 :: compile fuel r.2
            else Lit c :: compile fuel l
        | [] => [Lit c]
        end
  | _, _ => []
  end.
Definition compilePath (path : text) : list piece := compile (length path) path.

Definition paramNames (ps : list piece) : list text :=
  omap (λ p, match p with Param n => Some n | _ => None end) ps.

Fixpoint drop_slashes (l : text) : text :=
  match l with
  | c :: l' => if decide (c = SLASH) then drop_slashes l' else l
  | [] => []
  end.
Definition normalizeRoutePath (path : text) : text :=
  let normalized := SLASH :: drop_slashes path in
  if decide (normalized = [SLASH]) then normalized
  else reverse (drop_slashes (reverse normalized)).

Definition isCanonicalRequestPath (path : text) : bool :=
  bool_decide (path = [SLASH]) || negb (bool_decide (last path = Some SLASH)).

(** ** Matching *)

(** The first success of [f] at [n], [n - 1], ..., [lo]. *)
Fixpoint longest {A} (f : nat → option A) (lo n : nat) : option A :=
  if n <? lo then None
  else match f n with
       | Some a => Some a
       | None => match n with O => None | S n => longest f lo n end
       end.

Definition not_slash (c : ascii) : bool := negb (bool_decide (c = SLASH)).
Definition not_newline (c : ascii) : bool :=
  negb (bool_decide (code c = 10 ∨ code c = 13))%Z.

(** [pattern.exec(path)]: the captures. *)
Fixpoint exec (ps : list piece) (l : text) : option (list text) :=
  match ps with
  | [] => match l with [] => Some [] | _ => None end
  | Lit c :: ps =>
      match l with
      | d :: l => if decide (c = d) then exec ps l else None
      | [] => None
      end
  | Param _ :: ps =>
      longest (λ k, (take k l ::.) <$> exec ps (drop k l)) 1 (length (span not_slash l).1)
  | Star :: ps =>
      longest (λ k, (take k l ::.) <$> exec ps (drop k l)) 0 (length (span not_newline l).1)
  end.

(** ** [decodeURIComponent] *)

Definition hex_value (c : ascii) : option N :=
  let n := code c in
  if ((48 <=? n) && (n <=? 57))%Z then Some (Z.to_N (n - 48))
  else if ((65 <=? n) && (n <=? 70))%Z then Some (Z.to_N (n - 55))
  else if ((97 <=? n) && (n <=? 102))%Z then Some (Z.to_N (n - 87))
  else None.

Fixpoint unescape (l : text) : option text :=
  match l with
  | [] => Some []
  | c :: l =>
      if decide (c = "%"%char) then
        match l with
        | a :: b :: l =>
            x ← hex_value a; y ← hex_value b; r ← unescape l;
            Some (ascii_of_N (16 * x + y) :: r)
        | _ => None
        end
      else r ← unescape l; Some (c :: r)
  end.

(** [None] is the [URIError]. *)
Definition decodeURIComponent (l : text) : option text :=
  match unescape l with
  | Some b => if utf8_valid b then Some b else None
  | None => None
  end.

(** ** Validation *)

Inductive FieldType : Type := TString | TNumber | TBoolean | TEmail | TUuid.

#[export] Instance field_type_eq_dec : EqDecision FieldType.
Proof. solve_decision. Defined.

(** What a field can hold; [Other] is an object, given by its [toString]. *)
Inductive jsval : Type :=
| JUndefined
| JNull
| JBoolean (b : bool)
| JNumber (printed : text)
| JString (s : text)
| Other (printed : text).

#[export] Instance jsval_eq_dec : EqDecision jsval.
Proof. solve_decision. Defined.

Record FieldRule : Type := {
  f_type : FieldType;
  required : bool;
  min : option nat;
  max : option nat;
  pattern : option (text → bool)       (* [rule.pattern.test] *)
}.

Definition str (s : string) : text := list_ascii_of_string s.

Definition js_String (v : jsval) : text :=
  match v with
  | JUndefined => str "undefined"
  | JNull => str "null"
  | JBoolean b => if b then str "true" else str "false"
  | JNumber t | JString t | Other t => t
  end.

(** The text of a number: digits with a point and an exponent, or [Infinity] ... *)
Definition drop_sign (l : text) : text :=
  match l with
  | c :: l' => if decide (c = "+"%char ∨ c = "-"%char) then l' else l
  | [] => []
  end.
Definition is_exponent (l : text) : bool :=
  match l with
  | [] => true
  | c :: l =>
      bool_decide (lower c = "e"%char) &&
      match span_digits (drop_sign l) with (_ :: _, []) => true | _ => false end
  end.
Definition is_decimal (l : text) : bool :=
  let l := drop_sign l in
  bool_decide (l = str "Infinity") ||
  (let r := span_digits l in
   let s := match r.2 with
            | c :: l => if decide (c = "."%char) then span_digits l else ([], r.2)
            | [] => ([], [])
            end in
   negb (bool_decide (r.1 ++ s.1 = [])) && is_exponent s.2).

(** ... or digits in another base ... *)
Definition in_base (base : N) (c : ascii) : bool :=
  match hex_value c with Some d => (d <? base)%N | None => false end.
Definition is_based (l : text) : bool :=
  match l with
  | z :: x :: (_ :: _) as ds =>
      bool_decide (z = "0"%char) &&
      (bool_decide (lower x = "x"%char) && forallb (in_base 16) (drop 2 l) ||
       bool_decide (lower x = "o"%char) && forallb (in_base 8) (drop 2 l) ||
       bool_decide (lower x = "b"%char) && forallb (in_base 2) (drop 2 l))
  | _ => false
  end.
(** ... or nothing, between white space. *)
Definition is_numeric (l : text) : bool :=
  let l := trim l in bool_decide (l = []) || is_decimal l || is_based l.

(** [isNaN(Number(value))] *)
Definition not_a_number (v : jsval) : bool :=
  match v with
  | JUndefined => true
  | JNull | JBoolean _ => false
  | JNumber t => bool_decide (t = str "NaN")
  | JString t | Other t => negb (is_numeric t)
  end.

(** [/^[^\s@]+@[^\s@]+\.[^\s@]+$/] *)
Definition AT : ascii := "@"%char.
Definition DOT : ascii := "."%char.
Definition plain_char (c : ascii) : bool := negb (is_space c) && negb (bool_decide (c = AT)).
Definition plain (l : text) : bool := negb (bool_decide (l = [])) && forallb plain_char l.
Definition is_email (l : text) : bool :=
  match indexOf AT l with
  | None => false
  | Some i =>
      plain (take i l) && plain (drop (S i) l) &&
      bool_decide (DOT ∈ tail (removelast (drop (S i) l)))
  end.

(** [/^[0-9a-f]{8}-[0-9a-f]{4}-[0-9a-f]{4}-[0-9a-f]{4}-[0-9a-f]{12}$/i] *)
Definition is_hex (c : ascii) : bool := in_base 16 c.
Fixpoint hex_groups (groups : list nat) (l : text) : bool :=
  match groups with
  | [] => bool_decide (l = [])
  | [n] => (length l =? n) && forallb is_hex l
  | n :: groups =>
      (length (take n l) =? n) && forallb is_hex (take n l) &&
      match drop n l with
      | c :: l => bool_decide (c = "-"%char) && hex_groups groups l
      | [] => false
      end
  end.
Definition is_uuid (l : text) : bool := hex_groups [8; 4; 4; 4; 12] l.

Inductive location : Type := LBody | LQuery | LParams.
Inductive complaint : Type :=
| IsRequired | MustBeString | TooShort (n : nat) | TooLong (n : nat) | BadFormat
| MustBeNumber | MustBeBoolean | MustBeEmail | MustBeUuid.

(** The complaints of one rule about a value. *)
Definition check (r : FieldRule) (v : jsval) : list complaint :=
  if required r && bool_decide (v = JUndefined ∨ v = JNull ∨ v = JString []) then [IsRequired]
  else if bool_decide (v = JUndefined ∨ v = JNull) then []
  else
    let s := js_String v in
    match f_type r with
    | TString =>
        (match v with JString _ => [] | _ => [MustBeString] end) ++
        (match min r with Some m => if length s <? m then [TooShort m] else [] | None => [] end) ++
        (match max r with Some m => if m <? length s then [TooLong m] else [] | None => [] end) ++
        (match pattern r with Some test => if test s then [] else [BadFormat] | None => [] end)
    | TNumber => if not_a_number v then [MustBeNumber] else []
    | TBoolean =>
        if bool_decide (v ≠ JString (str "true") ∧ v ≠ JString (str "false")) &&
           match v with JBoolean _ => false | _ => true end
        then [MustBeBoolean] else []
    | TEmail => if is_email s then [] else [MustBeEmail]
    | TUuid => if is_uuid s then [] else [MustBeUuid]
    end.

Abbreviation object := (list (text * jsval)).
Abbreviation rules := (list (text * FieldRule)).

Definition validateObject (rs : rules) (data : object) (loc : location) :
    list (location * text * complaint) :=
  rs ≫= λ r, (λ k, (loc, r.1, k)) <$> check r.2 (default JUndefined (jm_get r.1 data)).

Record ValidationSchema : Type := {
  v_body : option rules;
  v_query : option rules;
  v_params : option rules
}.

(** ** Requests *)

Section router.
Context {St : Type}.      (* what middlewares keep in the context *)

Record Ctx : Type := {
  c_method : text;
  c_path : text;
  c_params : list (text * text);
  c_query : list (text * text);
  c_body : option object;       (* [None]: [null] or not an object *)
  c_roles : list text;
  c_permissions : list text;
  c_state : St
}.
Definition set_params (p : list (text * text)) (c : Ctx) : Ctx :=
  {| c_method := c_method c; c_path := c_path c; c_params := p; c_query := c_query c;
     c_body := c_body c; c_roles := c_roles c; c_permissions := c_permissions c;
     c_state := c_state c |}.
Definition set_required (roles permissions : list text) (c : Ctx) : Ctx :=
  {| c_method := c_method c; c_path := c_path c; c_params := c_params c; c_query := c_query c;
     c_body := c_body c; c_roles := roles; c_permissions := permissions;
     c_state := c_state c |}.

Inductive error : Type :=
| BadRequest (details : list (location * text * complaint))
| MalformedURI
| Raised (n : nat).

(** A middleware: what it does to the context, and its calls of [next]. *)
Inductive mw : Type :=
| Return
| Raise (e : error)
| Update (f : Ctx → Ctx) (k : mw)
| Next (k : result error unit → mw).

Fixpoint run_mw (next : Ctx → result error unit * Ctx) (m : mw) (c : Ctx) :
    result error unit * Ctx :=
  match m with
  | Return => (Ok (), c)
  | Raise e => (Throw e, c)
  | Update f k => run_mw next k (f c)
  | Next k => let r := next c in run_mw next (k r.1) r.2
  end.

Fixpoint runPipeline (pipeline : list (Ctx → mw)) (c : Ctx) :
    result error unit * Ctx :=
  match pipeline with
  | [] => (Ok (), c)
  | m :: pipeline => run_mw (runPipeline pipeline) (m c) c
  end.

Definition strings (l : list (text * text)) : object := prod_map id JString <$> l.

(** The complaints about a request, in the order of the report. *)
Definition complaints (schema : ValidationSchema) (c : Ctx) :
    list (location * text * complaint) :=
  match v_body schema, c_body c with
  | Some rs, Some o => validateObject rs o LBody
  | _, _ => []
  end ++
  match v_query schema with
  | Some rs => validateObject rs (strings (c_query c)) LQuery
  | None => []
  end ++
  match v_params schema with
  | Some rs => validateObject rs (strings (c_params c)) LParams
  | None => []
  end.

(** [await next()], passing on what it throws. *)
Definition await_next (k : mw) : mw :=
  Next (λ r, match r with Ok _ => k | Throw e => Raise e end).

Definition createValidationMiddleware (schema : ValidationSchema) (c : Ctx) : mw :=
  if decide (complaints schema c = []) then await_next Return
  else Raise (BadRequest (complaints schema c)).

(** ** Routes *)

Record CompiledRoute : Type := {
  r_method : text;
  r_pattern : list piece;
  r_middlewares : list (Ctx → mw);
  r_handler : Ctx → mw;
  r_validate : option ValidationSchema;
  r_template : text;
  r_roles : list text;
  r_permissions : list text;
  r_limit : option (Ctx → mw)
}.

Definition upper (c : ascii) : ascii :=
  if ((97 <=? code c) && (code c <=? 122))%Z then ascii_of_N (N_of_ascii c - 32) else c.

Definition add (method path : text) (middlewares : list (Ctx → mw)) (handler : Ctx → mw)
    (validate : option ValidationSchema) (roles permissions : list text)
    (limit : option (Ctx → mw)) (routes : list CompiledRoute) : list CompiledRoute :=
  let canonicalPath := normalizeRoutePath path in
  routes ++ [{| r_method := upper <$> method; r_pattern := compilePath canonicalPath;
                r_middlewares := middlewares; r_handler := handler; r_validate := validate;
                r_template := canonicalPath; r_roles := roles; r_permissions := permissions;
                r_limit := limit |}].

(** [params[name] = decodeURIComponent(m[i + 1])], name after name. *)
Fixpoint extract (names captures : list text) (params : list (text * text)) :
    result error (list (text * text)) :=
  match names with
  | [] => Ok params
  | n :: names =>
      match decodeURIComponent (default [] (head captures)) with
      | Some v => extract names (tail captures) (jm_set n v params)
      | None => Throw MalformedURI
      end
  end.

Fixpoint match_from (method path : text) (routes : list CompiledRoute) :
    result error (option (CompiledRoute * list (text * text))) :=
  match routes with
  | [] => Ok None
  | r :: routes =>
      if decide (r_method r ≠ method ∧ r_method r ≠ ["*"%char]) then match_from method path routes
      else match exec (r_pattern r) path with
           | None => match_from method path routes
           | Some captures =>
               match extract (paramNames (r_pattern r)) captures [] with
               | Ok params => Ok (Some (r, params))
               | Throw e => Throw e
               end
           end
  end.
Definition match_route (method path : text) (routes : list CompiledRoute) :=
  if isCanonicalRequestPath path then match_from method path routes else Ok None.

Definition pipeline_of (r : CompiledRoute) : list (Ctx → mw) :=
  option_list (r_limit r) ++ r_middlewares r ++
  option_list (createValidationMiddleware <$> r_validate r) ++ [r_handler r].

(** What the profiler records: method, template and whether it threw. *)
Definition dispatch (routes : list CompiledRoute) (c : Ctx) :
    result error bool * Ctx * list (text * text * bool) :=
  match match_route (c_method c) (c_path c) routes with
  | Throw e => (Throw e, c, [])
  | Ok None => (Ok false, c, [])
  | Ok (Some (r, params)) =>
      let c := set_required (r_roles r) (r_permissions r) (set_params params c) in
      match runPipeline (pipeline_of r) c with
      | (Ok _, c) => (Ok true, c, [(r_method r, r_template r, false)])
      | (Throw e, c) => (Throw e, c, [(r_method r, r_template r, true)])
      end
  end.
End router.

(** ** What a template matches *)

Inductive inst : list piece → text → list text → Prop :=
| inst_nil : inst [] [] []
| inst_lit c ps l cs : inst ps l cs → inst (Lit c :: ps) (c :: l) cs
| inst_param n ps v l cs :
    v ≠ [] → Forall (λ c, not_slash c = true) v → inst ps l cs →
    inst (Param n :: ps) (v ++ l) (v :: cs)
| inst_star ps v l cs :
    Forall (λ c, not_newline c = true) v → inst ps l cs → inst (Star :: ps) (v ++ l) (v :: cs).

Lemma longest_unfold {A} (f : nat → option A) lo n :
  longest f lo n =
    if n <? lo then None
    else match f n with
         | Some a => Some a
         | None => match n with O => None | S n => longest f lo n end
         end.
Proof. by destruct n. Qed.

Lemma longest_Some {A} (f : nat → option A) lo n a :
  longest f lo n = Some a → ∃ k, lo <= k <= n ∧ f k = Some a.
Proof.
  induction n as [|n IH]; rewrite longest_unfold;
    [destruct (Nat.ltb_spec 0 lo) as [|Hle]|destruct (Nat.ltb_spec (S n) lo) as [|Hle]]; try done.
  - destruct (f 0) eqn:E; [|done]. intros [= <-]. by exists 0.
  - destruct (f (S n)) eqn:E; [intros [= <-]; by exists (S n)|].
    intros (k & ? & ?)%IH. exists k. split; [lia|done].
Qed.

Lemma longest_complete {A} (f : nat → option A) lo n k a :
  lo <= k <= n → f k = Some a → is_Some (longest f lo n).
Proof.
  induction n as [|n IH]; intros Hk Hf; rewrite longest_unfold;
    [destruct (Nat.ltb_spec 0 lo)|destruct (Nat.ltb_spec (S n) lo)]; try lia.
  - assert (k = 0) as -> by lia. by rewrite Hf.
  - destruct (f (S n)) eqn:E; [done|]. apply IH; [|done].
    assert (k ≠ S n) by congruence. lia.
Qed.

Lemma span_take p l k :
  k <= length (span p l).1 ↔ k <= length l ∧ Forall (λ c, p c = true) (take k l).
Proof.
  revert k. induction l as [|c l IH]; intros [|k]; cbn [span take length].
  - split; [intros; split; [lia|constructor]|lia].
  - cbn. split; lia.
  - split; [intros; split; [lia|constructor]|lia].
  - destruct (p c) eqn:E; cbn [fst length].
    + rewrite Forall_cons. specialize (IH k). split.
      * intros [? ?]%le_S_n%IH. split; [lia|done].
      * intros (? & _ & ?). apply le_n_S, IH. split; [lia|done].
    + rewrite Forall_cons. split; [lia|]. intros (_ & ? & _). congruence.
Qed.

Lemma span_app p v l :
  Forall (λ c, p c = true) v → length v <= length (span p (v ++ l)).1.
Proof.
  intros Hv. apply span_take. rewrite take_app_length, length_app. split; [lia|done].
Qed.

Lemma exec_sound ps : ∀ l cs, exec ps l = Some cs → inst ps l cs.
Proof.
  induction ps as [|[c|n|] ps IH]; intros l cs; cbn [exec].
  - destruct l; [|done]. intros [= <-]. constructor.
  - destruct l as [|d l]; [done|]. case_decide; [subst|done]. intros. by constructor; apply IH.
  - intros (k & Hk & E)%longest_Some. apply fmap_Some in E as (cs' & E & ->).
    rewrite <-(take_drop k l) at 1. destruct Hk as [Hk1 [Hk2 Hk3]%span_take].
    constructor; [|done|by apply IH].
    intros H. apply (f_equal length) in H. rewrite length_take in H. cbn in H. lia.
  - intros (k & Hk & E)%longest_Some. apply fmap_Some in E as (cs' & E & ->).
    rewrite <-(take_drop k l) at 1. destruct Hk as [Hk1 [Hk2 Hk3]%span_take].
    constructor; [done|by apply IH].
Qed.

Lemma exec_complete ps l cs : inst ps l cs → is_Some (exec ps l).
Proof.
  induction 1 as [|c ps l cs _ IH|n ps v l cs Hne Hv _ [cs' IH]|ps v l cs Hv _ [cs' IH]];
    cbn [exec]; [done|by rewrite decide_True by done|..];
    (eapply (longest_complete _ _ _ (length v)); [split; [|by apply span_app]|
      by rewrite drop_app_length, IH]).
  - destruct v; [done|cbn; lia].
  - lia.
Qed.

Lemma exec_None ps l : exec ps l = None ↔ ∀ cs, ¬ inst ps l cs.
Proof.
  split.
  - intros E cs [? H]%exec_complete. congruence.
  - intros H. destruct (exec ps l) eqn:E; [|done]. by apply exec_sound, H in E.
Qed.

(** ** The route of a request *)

Section routes.
Context {St : Type}.
Abbreviation CompiledRoute := (CompiledRoute (St:=St)).

Definition fits (method : text) (r : CompiledRoute) : Prop :=
  r_method r = method ∨ r_method r = ["*"%char].
Definition serves (method path : text) (r : CompiledRoute) : Prop :=
  fits method r ∧ ∃ cs, inst (r_pattern r) path cs.

(** What [match] says of the routes. *)
Definition matched (method path : text) (routes : list CompiledRoute)
    (res : result error (option (CompiledRoute * list (text * text)))) : Prop :=
  match res with
  | Ok None => ∀ r, r ∈ routes → ¬ serves method path r
  | Ok (Some (r, params)) => ∃ pre post cs, routes = pre ++ r :: post ∧
      (∀ r', r' ∈ pre → ¬ serves method path r') ∧ fits method r ∧
      inst (r_pattern r) path cs ∧ extract (paramNames (r_pattern r)) cs [] = Ok params
  | Throw e => e = MalformedURI ∧ ∃ pre r post cs, routes = pre ++ r :: post ∧
      (∀ r', r' ∈ pre → ¬ serves method path r') ∧ fits method r ∧
      inst (r_pattern r) path cs ∧ extract (paramNames (r_pattern r)) cs [] = Throw MalformedURI
  end.

Lemma extract_error names : ∀ cs ps e, extract names cs ps = Throw e → e = MalformedURI.
Proof.
  induction names as [|n names IH]; intros cs ps e; cbn [extract]; [done|].
  destruct (decodeURIComponent _); [apply IH|congruence].
Qed.

Lemma matched_skip method path r routes res :
  ¬ serves method path r → matched method path routes res → matched method path (r :: routes) res.
Proof.
  intros Hr. destruct res as [[[r' params]|]|e]; cbn [matched].
  - intros (pre & post & cs & -> & Hpre & H). exists (r :: pre), post, cs.
    split; [done|]. split; [|done]. by intros r'' [->|?]%elem_of_cons; [|apply Hpre].
  - intros H r' [->|?]%elem_of_cons; [done|by apply H].
  - intros (-> & pre & r' & post & cs & -> & Hpre & H). split; [done|].
    exists (r :: pre), r', post, cs. split; [done|]. split; [|done].
    by intros r'' [->|?]%elem_of_cons; [|apply Hpre].
Qed.

Lemma match_from_spec method path routes :
  matched method path routes (match_from method path routes).
Proof.
  induction routes as [|r routes IH]; cbn [match_from].
  - intros r Hr. by apply not_elem_of_nil in Hr.
  - case_decide as Hm; [apply matched_skip; [|done]; intros [[|] _]; naive_solver|].
    assert (fits method r) as Hfit.
    { unfold fits. destruct (decide (r_method r = method)); [by left|right].
      destruct (decide (r_method r = ["*"%char])); naive_solver. }
    destruct (exec (r_pattern r) path) as [cs|] eqn:E.
    + apply exec_sound in E.
      assert (∀ r', r' ∈ @nil CompiledRoute → ¬ serves method path r') as Hpre
        by (intros r' Hr'; by apply not_elem_of_nil in Hr').
      destruct (extract _ cs []) as [params|e] eqn:Ex; cbn [matched].
      * by exists [], routes, cs.
      * pose proof (extract_error _ _ _ _ Ex) as ->. split; [done|]. by exists [], r, routes, cs.
    + apply matched_skip; [|done]. intros [_ [cs Hcs]]. by eapply exec_None.
Qed.

Lemma match_from_app method path pre routes :
  (∀ r, r ∈ pre → ¬ serves method path r) →
  match_from method path (pre ++ routes) = match_from method path routes.
Proof.
  intros Hpre. induction pre as [|r pre IH]; [done|]. cbn [app match_from].
  assert (match_from method path (pre ++ routes) = match_from method path routes) as ->.
  { apply IH. intros r' Hr'. apply Hpre. by right. }
  case_decide as Hm; [done|].
  destruct (exec (r_pattern r) path) as [cs|] eqn:E; [|done].
  apply exec_sound in E. exfalso. apply (Hpre r); [by left|]. split; [|by eexists].
  unfold fits. destruct (decide (r_method r = method)); [by left|right].
  destruct (decide (r_method r = ["*"%char])); naive_solver.
Qed.
End routes.

(** ** Links

    A link writes its values into a template with [encodeURIComponent]. *)

Definition unreserved (c : ascii) : bool :=
  is_letter c || is_digit c || bool_decide (c ∈ str "-.!~*'()").
Definition hex_digit (n : N) : ascii := ascii_of_N (if (n <? 10)%N then 48 + n else 55 + n).
Fixpoint encodeURIComponent (l : text) : text :=
  match l with
  | [] => []
  | c :: l =>
      if unreserved c then c :: encodeURIComponent l
      else "%"%char :: hex_digit (N_of_ascii c / 16) :: hex_digit (N_of_ascii c mod 16)
             :: encodeURIComponent l
  end.

Fixpoint fill (ps : list piece) (vs : list text) : text :=
  match ps with
  | [] => []
  | Lit c :: ps => c :: fill ps vs
  | Param _ :: ps => encodeURIComponent (default [] (head vs)) ++ fill ps (tail vs)
  | Star :: ps => fill ps vs
  end.

(** Parameters are whole segments or end with one. *)
Fixpoint segmented (ps : list piece) : bool :=
  match ps with
  | [] => true
  | Lit _ :: ps => segmented ps
  | Param _ :: ps =>
      match ps with [] => true | Lit c :: _ => bool_decide (c = SLASH) | _ => false end
      && segmented ps
  | Star :: _ => false
  end.

Lemma hex_digit_value n : (n < 16)%N → hex_value (hex_digit n) = Some n.
Proof.
  intros Hn. assert (n ∈ (N.of_nat <$> List.seq 0 16)) as Hin.
  { apply list_elem_of_fmap. exists (N.to_nat n). split; [lia|]. apply list_elem_of_In, in_seq. lia. }
  revert n Hin Hn. apply (Forall_forall (λ n, (n < 16)%N → hex_value (hex_digit n) = Some n)).
  repeat (apply Forall_cons_2; [by intros _; vm_compute|]). constructor.
Qed.

Lemma unescape_encode v : unescape (encodeURIComponent v) = Some v.
Proof.
  induction v as [|c v IH]; [done|]. cbn [encodeURIComponent].
  destruct (unreserved c) eqn:Hu; cbn [unescape].
  - rewrite decide_False; [by rewrite IH|]. intros ->. done.
  - rewrite decide_True by done.
    assert (N_of_ascii c < 256)%N by apply N_ascii_bounded.
    rewrite !hex_digit_value by (apply N.mod_lt || apply N.Div0.div_lt_upper_bound; lia).
    cbn. rewrite IH. cbn. rewrite <-N.div_mod by done. by rewrite ascii_N_embedding.
Qed.

Lemma encode_chars v c : c ∈ encodeURIComponent v → not_slash c = true.
Proof.
  induction v as [|d v IH]; cbn [encodeURIComponent]; [by intros ?%not_elem_of_nil|].
  assert (∀ n, (n < 16)%N → not_slash (hex_digit n) = true) as Hh.
  { intros n Hn. pose proof (hex_digit_value n Hn) as E.
    unfold not_slash. destruct (decide (hex_digit n = SLASH)) as [Es|];
      [rewrite Es in E; done|by rewrite bool_decide_eq_false_2]. }
  assert (N_of_ascii d < 256)%N by apply N_ascii_bounded.
  destruct (unreserved d) eqn:Hu.
  - intros [->|?]%elem_of_cons; [|by apply IH]. unfold not_slash.
    destruct (decide (d = SLASH)) as [->|]; [done|by rewrite bool_decide_eq_false_2].
  - intros [->|[->|[->|?]%elem_of_cons]%elem_of_cons]%elem_of_cons; [done| | |by apply IH];
      apply Hh; [apply N.Div0.div_lt_upper_bound|apply N.mod_lt]; lia.
Qed.

Lemma encode_nonempty v : v ≠ [] → encodeURIComponent v ≠ [].
Proof. destruct v as [|c v]; [done|]. cbn. by destruct (unreserved c). Qed.

Lemma split_segment v v' l l' :
  Forall (λ c, not_slash c = true) v → Forall (λ c, not_slash c = true) v' →
  (l = [] ∨ head l = Some SLASH) → (l' = [] ∨ head l' = Some SLASH) →
  v ++ l = v' ++ l' → v = v' ∧ l = l'.
Proof.
  intros Hv. revert v'. induction Hv as [|c v Hc Hv IH]; intros v' Hv' Hl Hl' E; destruct Hv' as [|c' v' Hc' Hv'].
  - done.
  - cbn in E. subst l. destruct Hl as [|[= ->]]; done.
  - cbn in E. subst l'. destruct Hl' as [|[= ->]]; done.
  - cbn in E. injection E as -> E. destruct (IH v') as [-> ->]; done.
Qed.

Lemma segmented_unique ps : ∀ l cs cs', segmented ps = true → inst ps l cs → inst ps l cs' → cs = cs'.
Proof.
  assert (∀ ps l cs, match ps with [] => true | Lit c :: _ => bool_decide (c = SLASH) | _ => false end
    = true → inst ps l cs → l = [] ∨ head l = Some SLASH) as Hhead.
  { intros [|[c|n|] ps'] l cs H; try done; inversion 1; subst; [by left|right].
    apply bool_decide_eq_true in H as ->. done. }
  induction ps as [|[c|n|] ps IH]; intros l cs cs' Hs H1 H2; cbn in Hs; try done;
    inversion H1; inversion H2; subst; try done.
  - by eapply IH; [| |simplify_eq; done].
  - apply andb_true_iff in Hs as [Hh Hs].
    match goal with E : ?v ++ ?l = ?v' ++ ?l' |- _ => destruct (split_segment v v' l l') as [-> ->] end;
      try done; try (by eapply Hhead). f_equal. by eapply IH.
Qed.

(** A value of a link: not empty, and the encoding of a string. *)
Definition value_ok (v : text) : Prop := v ≠ [] ∧ utf8_valid v = true.

Lemma fill_inst ps : ∀ vs, segmented ps = true → length vs = length (paramNames ps) →
  Forall value_ok vs → inst ps (fill ps vs) (encodeURIComponent <$> vs).
Proof.
  induction ps as [|[c|n|] ps IH]; intros vs Hs Hl Hvs; cbn in *; try done.
  - destruct vs; [constructor|done].
  - constructor. by apply IH.
  - apply andb_true_iff in Hs as [_ Hs]. destruct vs as [|v vs]; [done|].
    apply Forall_cons in Hvs as [[Hne _] Hvs]. injection Hl as Hl. cbn. constructor.
    + by apply encode_nonempty.
    + apply Forall_forall. intros c. apply encode_chars.
    + by apply IH.
Qed.

Lemma decode_encode v : utf8_valid v = true → decodeURIComponent (encodeURIComponent v) = Some v.
Proof. intros Hv. unfold decodeURIComponent. by rewrite unescape_encode, Hv. Qed.

Lemma extract_encode names : ∀ vs params, length vs = length names → Forall value_ok vs →
  NoDup names → (∀ n, n ∈ names → n ∉ jm_keys params) →
  extract names (encodeURIComponent <$> vs) params = Ok (params ++ zip names vs).
Proof.
  induction names as [|n names IH]; intros [|v vs] params Hl Hvs Hnd Hk; try done; cbn.
  - by rewrite app_nil_r.
  - apply Forall_cons in Hvs as [[_ Hv] Hvs]. apply NoDup_cons in Hnd as [Hn Hnd].
    rewrite decode_encode by done.
    rewrite jm_set_None by (apply jm_get_None, Hk; left).
    rewrite IH; [by rewrite <-(assoc_L (++))|by injection Hl|done|done|].
    intros m Hm. unfold jm_keys. rewrite fmap_app, elem_of_app. cbn. 
    intros [Hm'|Hm'%list_elem_of_singleton]; [|by subst]. eapply Hk; [by right|done].
Qed.

Lemma fill_nil ps : ∀ vs, segmented ps = true → length vs = length (paramNames ps) →
  Forall value_ok vs → fill ps vs = [] → ps = [].
Proof.
  destruct ps as [|[c|n|] ps]; intros [|v vs] Hs Hl Hvs; try done. cbn.
  apply Forall_cons in Hvs as [[Hne _] _]. intros [H _]%app_eq_nil. by apply encode_nonempty in H.
Qed.

Lemma fill_last ps : ∀ vs, segmented ps = true → length vs = length (paramNames ps) →
  Forall value_ok vs → last (fill ps vs) = Some SLASH → last ps = Some (Lit SLASH).
Proof.
  induction ps as [|[c|n|] ps IH]; intros vs Hs Hl Hvs; cbn in *; try done.
  - rewrite !last_cons. destruct (last (fill ps vs)) as [d|] eqn:E.
    + intros [= ->]. by rewrite (IH vs).
    + apply last_None in E. apply fill_nil in E as ->; [|done..]. cbn. congruence.
  - apply andb_true_iff in Hs as [_ Hs]. destruct vs as [|v vs]; [done|].
    apply Forall_cons in Hvs as [_ Hvs]. injection Hl as Hl. cbn. rewrite last_app, last_cons.
    destruct (last (fill ps vs)) as [d|] eqn:E.
    + intros [= ->]. by rewrite (IH vs).
    + intros Hlast%last_Some_elem_of%encode_chars. done.
Qed.

(** ** What a rule accepts *)

Definition all_chars (p : ascii → bool) (l : text) : Prop := Forall (λ c, p c = true) l.

Definition email (s : text) : Prop := ∃ user host domain,
  s = user ++ AT :: host ++ DOT :: domain ∧
  user ≠ [] ∧ host ≠ [] ∧ domain ≠ [] ∧
  all_chars plain_char user ∧ all_chars plain_char host ∧ all_chars plain_char domain.

Fixpoint dashed (parts : list text) : text :=
  match parts with
  | [] => []
  | [p] => p
  | p :: parts => p ++ "-"%char :: dashed parts
  end.
Definition hex_group (n : nat) (p : text) : Prop := length p = n ∧ all_chars is_hex p.
Definition uuid (s : text) : Prop :=
  ∃ parts, Forall2 hex_group [8; 4; 4; 4; 12] parts ∧ s = dashed parts.

Definition present (v : jsval) : Prop := v ≠ JUndefined ∧ v ≠ JNull.

Definition of_type (r : FieldRule) (v : jsval) : Prop :=
  match f_type r with
  | TString => (∃ s, v = JString s) ∧
      (∀ m, min r = Some m → m <= length (js_String v)) ∧
      (∀ m, max r = Some m → length (js_String v) <= m) ∧
      (∀ test, pattern r = Some test → test (js_String v) = true)
  | TNumber => not_a_number v = false
  | TBoolean => (∃ b, v = JBoolean b) ∨ v = JString (str "true") ∨ v = JString (str "false")
  | TEmail => email (js_String v)
  | TUuid => uuid (js_String v)
  end.

Definition accepts (r : FieldRule) (v : jsval) : Prop :=
  (required r = true → present v ∧ v ≠ JString []) ∧ (present v → of_type r v).

Lemma all_chars_forallb p l : forallb p l = true ↔ all_chars p l.
Proof. unfold all_chars. rewrite Forall_forall, forallb_forall. setoid_rewrite list_elem_of_In. done. Qed.

Lemma inner_elem {A} (x : A) l :
  x ∈ tail (removelast l) ↔ ∃ h t, l = h ++ x :: t ∧ h ≠ [] ∧ t ≠ [].
Proof.
  destruct (list_snoc_inv l) as [->|(l' & z & ->)].
  - split; [by intros ?%not_elem_of_nil|]. intros ([|? ?] & t & ? & _); done.
  - rewrite removelast_last. split.
    + destruct l' as [|y l']; [by intros ?%not_elem_of_nil|]. cbn.
      intros (a & b & ->)%list_elem_of_split. exists (y :: a), (b ++ [z]).
      split_and!; [|done|by destruct b]. cbn. by rewrite <-(assoc_L (++)).
    + intros (h & t & E & Hh & Ht). destruct (list_snoc_inv t) as [->|(t' & u & ->)]; [done|].
      rewrite app_comm_cons, (assoc_L (++)) in E. apply app_inj_tail in E as [-> _].
      destruct h as [|y h]; [done|]. cbn. set_solver.
Qed.

Lemma plain_no_at l : all_chars plain_char l → AT ∉ l.
Proof. unfold all_chars. rewrite Forall_forall. by intros Hl Hin%Hl. Qed.

Lemma is_email_spec s : is_email s = true ↔ email s.
Proof.
  unfold is_email, email, plain. destruct (indexOf AT s) as [i|] eqn:E.
  - apply indexOf_spec in E as (user & rest & -> & <- & Hn).
    assert (drop (S (length user)) (user ++ AT :: rest) = rest) as ->.
    { rewrite <-Nat.add_1_r, <-drop_drop, drop_app_length. apply drop_0. }
    rewrite take_app_length.
    rewrite !andb_true_iff, !negb_true_iff, !bool_decide_eq_false, !bool_decide_eq_true,
      !all_chars_forallb, inner_elem. split.
    + intros [[[Hu Hu'] [Hr Hr']] (host & domain & -> & Hh & Hd)].
      apply Forall_app in Hr' as [? [_ ?]%Forall_cons]. by exists user, host, domain.
    + intros (user' & host & domain & Es & Hu & Hh & Hd & Hu' & Hh' & Hd').
      pose proof (plain_no_at _ Hu') as Hn'.
      assert (user = user' ∧ rest = host ++ DOT :: domain) as [-> ->].
      { assert (Some (length user) = Some (length user')) as [= Hlen].
        { rewrite <-(proj2 (indexOf_spec AT _ (length user)) (ex_intro _ user (ex_intro _ rest
            (conj eq_refl (conj eq_refl Hn))))), Es.
          apply indexOf_spec. by exists user', (host ++ DOT :: domain). }
        apply app_inj_1 in Es as [-> [= ->]]; done. }
      split_and!; try done; [by destruct host| |by exists host, domain].
      apply Forall_app. split; [done|]. by apply Forall_cons.
  - split; [done|]. intros (user & host & domain & -> & Hu & Hh & Hd & Hu' & _).
    assert (indexOf AT (user ++ AT :: host ++ DOT :: domain) = Some (length user)) as Ei.
    { apply indexOf_spec. exists user, (host ++ DOT :: domain).
      split_and!; [done..|by apply plain_no_at]. }
    congruence.
Qed.

Lemma hex_groups_spec groups : ∀ l, groups ≠ [] →
  hex_groups groups l = true ↔ ∃ parts, Forall2 hex_group groups parts ∧ l = dashed parts.
Proof.
  induction groups as [|n groups IH]; intros l Hne; [done|]. clear Hne.
  destruct groups as [|m groups].
  - cbn [hex_groups]. rewrite andb_true_iff, Nat.eqb_eq, all_chars_forallb. split.
    + intros [? ?]. exists [l]. split; [|done]. repeat constructor; done.
    + intros (parts & Hp & ->). apply Forall2_cons_inv_l in Hp as (p & ps & [Hn Hx] & Hp & ->).
      by apply Forall2_nil_inv_l in Hp as ->.
  - change (hex_groups (n :: m :: groups) l) with
      ((length (take n l) =? n) && forallb is_hex (take n l) &&
       match drop n l with
       | c :: l => bool_decide (c = "-"%char) && hex_groups (m :: groups) l
       | [] => false
       end).
    rewrite !andb_true_iff, Nat.eqb_eq, all_chars_forallb. split.
    + intros [[Hn Hh] Hr]. destruct (drop n l) as [|c l'] eqn:E; [done|].
      apply andb_true_iff in Hr as [Hc Hr]. apply bool_decide_eq_true in Hc as ->.
      apply IH in Hr as (parts & Hp & ->); [|done]. exists (take n l :: parts).
      split; [by constructor|]. destruct parts as [|q parts]; [by inversion Hp|].
      rewrite <-(take_drop n l) at 1. by rewrite E.
    + intros (parts & Hp & ->). apply Forall2_cons_inv_l in Hp as (p & parts' & [<- Hh] & Hp & ->).
      destruct parts' as [|q parts']; [by inversion Hp|].
      change (dashed (p :: q :: parts')) with (p ++ "-"%char :: dashed (q :: parts')).
      rewrite take_app_length, drop_app_length. split; [done|].
      rewrite andb_true_iff, bool_decide_eq_true. split; [done|]. apply IH; [done|]. by eexists.
Qed.

Lemma complain_unless {A} (b : bool) (k : A) : (if b then [] else [k]) = [] ↔ b = true.
Proof. by destruct b. Qed.
Lemma complain_if {A} (b : bool) (k : A) : (if b then [k] else []) = [] ↔ b = false.
Proof. by destruct b. Qed.

Lemma string_check v :
  match v with JString _ => @nil complaint | _ => [MustBeString] end = [] ↔ ∃ s, v = JString s.
Proof. destruct v; naive_solver. Qed.

Lemma boolean_check v :
  bool_decide (v ≠ JString (str "true") ∧ v ≠ JString (str "false")) &&
    match v with JBoolean _ => false | _ => true end = false ↔
  (∃ b, v = JBoolean b) ∨ v = JString (str "true") ∨ v = JString (str "false").
Proof.
  rewrite andb_false_iff, bool_decide_eq_false. split.
  - intros [H|H].
    + destruct (decide (v = JString (str "true"))); [naive_solver|].
      destruct (decide (v = JString (str "false"))); naive_solver.
    + destruct v; naive_solver.
  - intros [[b ->]|H]; [by right|left]. naive_solver.
Qed.

Lemma check_accepts r v : check r v = [] ↔ accepts r v.
Proof.
  unfold check, accepts, present.
  destruct (decide (v = JUndefined ∨ v = JNull)) as [Hv|Hv].
  { rewrite (bool_decide_eq_true_2 (v = JUndefined ∨ v = JNull)) by done.
    rewrite (bool_decide_eq_true_2 (_ ∨ _ ∨ _)) by naive_solver.
    destruct (required r); cbn; split; try done; naive_solver. }
  rewrite (bool_decide_eq_false_2 (v = JUndefined ∨ v = JNull)) by done.
  assert ((if required r && bool_decide (v = JUndefined ∨ v = JNull ∨ v = JString []) then false else true) = true
    ↔ (required r = true → (v ≠ JUndefined ∧ v ≠ JNull) ∧ v ≠ JString [])) as Hreq.
  { destruct (required r); cbn; [|naive_solver]. case_bool_decide; naive_solver. }
  destruct (required r && _) eqn:E.
  { split; [done|]. intros [H _]. by apply Hreq in H. }
  assert ((v ≠ JUndefined ∧ v ≠ JNull → of_type r v) ↔ of_type r v) as Hof by naive_solver.
  rewrite Hof. clear Hof.
  assert (∀ P : Prop, (required r = true → (v ≠ JUndefined ∧ v ≠ JNull) ∧ v ≠ JString []) ∧ P ↔ P) as ->
    by (intros P; split; [by intros [_ ?]|]; intros; split; [by apply Hreq|done]).
  unfold of_type. destruct (f_type r).
  - rewrite !app_nil, <-(string_check v). split.
    + intros (H1 & H2 & H3 & H4). split_and!; [by destruct v| | |].
      * intros m Hm. rewrite Hm in H2. destruct (Nat.ltb_spec (length (js_String v)) m); [done|lia].
      * intros m Hm. rewrite Hm in H3. destruct (Nat.ltb_spec m (length (js_String v))); [done|lia].
      * intros test Ht. rewrite Ht in H4. by destruct (test _).
    + intros (H1 & H2 & H3 & H4). split_and!; [by destruct v| | |].
      * destruct (min r) as [m|]; [|done]. specialize (H2 m eq_refl).
        destruct (Nat.ltb_spec (length (js_String v)) m); [lia|done].
      * destruct (max r) as [m|]; [|done]. specialize (H3 m eq_refl).
        destruct (Nat.ltb_spec m (length (js_String v))); [lia|done].
      * destruct (pattern r) as [test|]; [|done]. by rewrite H4.
  - apply complain_if.
  - rewrite <-boolean_check. apply complain_if.
  - rewrite <-is_email_spec. apply complain_unless.
  - unfold uuid. rewrite <-hex_groups_spec by done. apply complain_unless.
Qed.

(** Every field that a part of the schema names is acceptable. *)
Definition all_accepted (rs : option (list (text * FieldRule))) (data : list (text * jsval)) : Prop :=
  ∀ l n r, rs = Some l → (n, r) ∈ l → accepts r (default JUndefined (jm_get n data)).

Definition valid {St} (schema : ValidationSchema) (c : Ctx (St:=St)) : Prop :=
  (∀ o, c_body c = Some o → all_accepted (v_body schema) o) ∧
  all_accepted (v_query schema) (strings (c_query c)) ∧
  all_accepted (v_params schema) (strings (c_params c)).

Lemma fmap_is_nil {A B} (f : A → B) (l : list A) : f <$> l = [] ↔ l = [].
Proof. by destruct l. Qed.

Lemma validateObject_nil rs data loc :
  validateObject rs data loc = [] ↔ all_accepted (Some rs) data.
Proof.
  unfold validateObject, all_accepted. induction rs as [|[n r] rs IH].
  - split; [|done]. intros _ l n r [= <-] H. by apply not_elem_of_nil in H.
  - change (((n, r) :: rs) ≫= ?f) with (f (n, r) ++ (rs ≫= f)). cbn [fst snd].
    rewrite app_nil, IH, fmap_is_nil, check_accepts. split.
    + intros [H1 H2] l m r' [= <-] [[= -> ->]|Hin]%elem_of_cons; [done|by eapply H2].
    + intros H. split; [eapply H; [done|left]|]. intros l m r' [= <-] Hin.
      eapply H; [done|by right].
Qed.

Lemma complaints_nil {St} schema (c : Ctx (St:=St)) : complaints schema c = [] ↔ valid schema c.
Proof.
  unfold complaints, valid. rewrite !app_nil. f_equiv; [|f_equiv].
  - destruct (v_body schema) as [rs|]; [destruct (c_body c) as [o|]|].
    + rewrite validateObject_nil. split; [by intros H o' [= <-]|intros H; by apply H].
    + split; [by intros _ ? [=]|done].
    + split; [by intros _ ? _ ? ? ? [=]|done].
  - destruct (v_query schema); [apply validateObject_nil|]. split; [|done]. by intros _ ? ? ? [=].
  - destruct (v_params schema); [apply validateObject_nil|]. split; [|done]. by intros _ ? ? ? [=].
Qed.

(** ** Properties *)

(** C25: a request is served by the first registered route of its method, or of any method,
    whose template its path is an instance of; when there is none, or the path ends with a
    slash, no route serves it; it fails only when a parameter of that route is not the
    encoding of a string. *)
Theorem first_route_serves {St} (routes : list (CompiledRoute (St:=St))) (method path : text) :
  if isCanonicalRequestPath path
  then matched method path routes (match_route method path routes)
  else match_route method path routes = Ok None.
Proof.
  unfold match_route. destruct (isCanonicalRequestPath path); [apply match_from_spec|done].
Qed.

(** C14: a link written from a template reaches the route of the template with the values
    it was written from, unless an earlier route takes the path: for a template without a
    wildcard whose parameters have distinct names and end their segments and that does not
    end with a slash, and for values that are non-empty strings. *)
Theorem link_roundtrip {St} (pre post : list (CompiledRoute (St:=St))) (r : CompiledRoute)
    (method : text) (vs : list text)
    (Hseg : segmented (r_pattern r) = true) (Hnames : NoDup (paramNames (r_pattern r)))
    (Hend : last (r_pattern r) ≠ Some (Lit SLASH))
    (Hlen : length vs = length (paramNames (r_pattern r))) (Hvs : Forall value_ok vs)
    (Hfits : fits method r)
    (Hpre : ∀ r', r' ∈ pre → ¬ serves method (fill (r_pattern r) vs) r') :
  match_route method (fill (r_pattern r) vs) (pre ++ r :: post) =
    Ok (Some (r, zip (paramNames (r_pattern r)) vs)).
Proof.
  unfold match_route. assert (isCanonicalRequestPath (fill (r_pattern r) vs) = true) as ->.
  { unfold isCanonicalRequestPath. apply orb_true_iff. right. apply negb_true_iff.
    apply bool_decide_eq_false. by intros ?%fill_last. }
  rewrite match_from_app by done. cbn [match_from].
  rewrite decide_False by (destruct Hfits; naive_solver).
  pose proof (fill_inst _ _ Hseg Hlen Hvs) as Hi.
  destruct (exec_complete _ _ _ Hi) as [cs Hcs]. rewrite Hcs.
  apply exec_sound in Hcs. rewrite (segmented_unique _ _ _ _ Hseg Hcs Hi).
  rewrite extract_encode; [done|done|done|done|]. intros n _. apply not_elem_of_nil.
Qed.

(** the validation step lets a request through exactly when its query and parameters,
    and its body when it is an object, satisfy every rule; otherwise the request fails with
    the complaints, and nothing after the step runs. *)
Theorem validation_guards {St} (schema : ValidationSchema) (rest : list (Ctx (St:=St) → mw))
    (c : Ctx) :
  (complaints schema c = [] ↔ valid schema c) ∧
  runPipeline (createValidationMiddleware schema :: rest) c =
    if decide (complaints schema c = []) then runPipeline rest c
    else (Throw (BadRequest (complaints schema c)), c).
Proof.
  split; [apply complaints_nil|]. cbn [runPipeline]. unfold createValidationMiddleware.
  case_decide; [|done]. cbn [run_mw await_next].
  by destruct (runPipeline rest c) as [[[]|e] c'].
Qed.

(** ** Examples *)

Definition sample_route : CompiledRoute (St:=nat) :=
  {| r_method := str "GET"; r_pattern := compilePath (normalizeRoutePath (str "users/:id/posts/:slug/"));
     r_middlewares := []; r_handler := λ _, Return; r_validate := None;
     r_template := normalizeRoutePath (str "users/:id/posts/:slug/"); r_roles := [];
     r_permissions := []; r_limit := None |}.

Lemma link_roundtrip_witness :
  match_route (str "GET") (str "/users/42/posts/hello%20world%2F") [sample_route] =
    Ok (Some (sample_route, [(str "id", str "42"); (str "slug", str "hello world/")])).
Proof.
  refine (link_roundtrip [] [] sample_route (str "GET") [str "42"; str "hello world/"]
    eq_refl _ _ eq_refl _ _ _).
  - apply (bool_decide_unpack _). vm_compute. exact I.
  - apply (bool_decide_unpack _). vm_compute. exact I.
  - repeat (apply Forall_cons_2; [split; [discriminate|vm_compute; reflexivity]|]). constructor.
  - left. reflexivity.
  - intros r' Hr'. by apply not_elem_of_nil in Hr'.
Defined.

(** A wildcard is a group of the expression, too: names after it get the captures before
    them. *)
Lemma wildcard_shifts_parameters :
  (λ cs, zip (paramNames (compilePath (str "/files/*/v/:id"))) cs) <$>
    exec (compilePath (str "/files/*/v/:id")) (str "/files/a/b/v/7") =
  Some [(str "id", str "a/b")].
Proof. vm_compute. reflexivity. Qed.

(** A request without a body, or whose body is not an object, passes every rule on it. *)
Definition required_name : ValidationSchema :=
  {| v_body := Some [(str "name", {| f_type := TString; required := true; min := None;
                                     max := None; pattern := None |})];
     v_query := None; v_params := None |}.
Lemma missing_body_is_valid {St} (c : Ctx (St:=St)) :
  c_body c = None → complaints required_name c = [].
Proof. intros Hb. unfold complaints. rewrite Hb. done. Qed.

(** A malformed escape in a parameter is an error of the server, not of the request. *)
Lemma malformed_escape_throws :
  match_route (str "GET") (str "/users/%zz/posts/1") [sample_route] = Throw MalformedURI.
Proof. vm_compute. reflexivity. Qed.
