(* ===== verification/Flags.v ===== *)
(** * Feature flags: targeting rules and percentage rollouts

    Models src/packages/flags/src/ (hash.ts, evaluate.ts, registry.ts, builders.ts).  Texts
    are lists of UTF-16 code units, numbers of attributes are rationals.  The weights of a
    rollout are whole percentages, for which the comparison of [bucket], a multiple of
    1/100, with the running sum is exact in floating point; the model compares the
    hundredths.  Definitions are objects that a registry, a store and the caller share:
    they are kept in a heap and named by their place in it. *)

From Stdlib Require Import QArith Qcanon.
From S2P Require Import Prelude JsMap JsInt.

Open Scope nat_scope.

Abbreviation text := (list Z) (only parsing).

(** ** Buckets *)

(** [fnv1a32]: each code unit counts modulo 256. *)
Definition fnv1a32 (input : text) : Z := fnv1aBytes ((λ c, Z.land c 255) <$> input).

Definition COLON : Z := 58.

(** [stableBucket] in hundredths: 0 to 9999. *)
Definition stableBucket (flagKey subjectKey : text) : Z :=
  (fnv1a32 (flagKey ++ COLON :: subjectKey) mod 10000)%Z.

(** ** Definitions *)

Inductive AttributeValue : Type :=
| AString (s : text)
| ANumber (n : Qc)
| ABoolean (b : bool).

#[export] Instance attribute_eq_dec : EqDecision AttributeValue.
Proof. solve_decision. Defined.

Section flags.
Context {T : Type}.

Record FlagContext : Type := { c_key : option text; attributes : option (list (text * AttributeValue)) }.
Record TargetingRule : Type :=
  { when : list (text * (AttributeValue + list AttributeValue)); rule_value : T }.
Record RolloutVariant : Type := { variant_value : T; weight : Z }.
Record FlagDefinition : Type := {
  d_key : text;
  enabled : option bool;
  d_default : T;
  offValue : option T;
  rules : option (list TargetingRule);
  rollout : option (list RolloutVariant)
}.

Inductive Reason : Type :=
| Disabled
| Rule (ruleIndex : nat)
| Rollout (bucket : Z)
| Default.

(** ** Evaluation *)

Definition conditionMatches (attrs : list (text * AttributeValue)) (attr : text)
    (expected : AttributeValue + list AttributeValue) : bool :=
  match jm_get attr attrs with
  | None => false
  | Some actual =>
      match expected with
      | inr values => bool_decide (actual ∈ values)
      | inl value => bool_decide (actual = value)
      end
  end.

Definition ruleMatches (rule : TargetingRule) (context : FlagContext) : bool :=
  forallb (λ c, conditionMatches (default [] (attributes context)) c.1 c.2) (when rule).

Fixpoint first_rule (i : nat) (l : list TargetingRule) (context : FlagContext) : option (nat * T) :=
  match l with
  | [] => None
  | r :: l => if ruleMatches r context then Some (i, rule_value r) else first_rule (S i) l context
  end.

(** The first variant whose running sum is above the bucket. *)
Fixpoint pick_variant (bucket cumulative : Z) (l : list RolloutVariant) : option T :=
  match l with
  | [] => None
  | v :: l =>
      let cumulative := (cumulative + weight v)%Z in
      if (bucket <? 100 * cumulative)%Z then Some (variant_value v)
      else pick_variant bucket cumulative l
  end.

Definition evaluateFlagDetailed (def : FlagDefinition) (context : FlagContext) : T * Reason :=
  if bool_decide (enabled def = Some false)
  then (default (d_default def) (offValue def), Disabled)
  else
    match first_rule 0 (default [] (rules def)) context with
    | Some (i, v) => (v, Rule i)
    | None =>
        let bucket := stableBucket (d_key def) (default [] (c_key context)) in
        match pick_variant bucket 0 (default [] (rollout def)) with
        | Some v => (v, Rollout bucket)
        | None => (d_default def, Default)
        end
    end.
Definition evaluateFlag (def : FlagDefinition) (context : FlagContext) : T :=
  (evaluateFlagDetailed def context).1.

(** ** Stores and the registry *)

Definition Heap : Type := list FlagDefinition.
Definition Flags : Type := list (text * nat).      (* [Map<string, FlagDefinition>] *)

Inductive flag_error : Type := EmptyKey | UnknownFlag (key : text).

Definition deref (h : Heap) (ref : nat) : option FlagDefinition := h !! ref.

(** [InMemoryFlagStore]. *)
Definition store_set (h : Heap) (ref : nat) (s : Flags) : Flags :=
  match deref h ref with Some d => jm_set (d_key d) ref s | None => s end.
Definition store_all (s : Flags) : list nat := jm_values s.

Definition register (h : Heap) (ref : nat) (f : Flags) : result flag_error unit * Flags :=
  match deref h ref with
  | Some d => if decide (d_key d = []) then (Throw EmptyKey, f) else (Ok (), jm_set (d_key d) ref f)
  | None => (Throw EmptyKey, f)
  end.
Fixpoint register_all (h : Heap) (refs : list nat) (f : Flags) : result flag_error unit * Flags :=
  match refs with
  | [] => (Ok (), f)
  | ref :: refs =>
      match register h ref f with
      | (Ok _, f) => register_all h refs f
      | r => r
      end
  end.
Definition loadFrom (h : Heap) (store : Flags) (f : Flags) : result flag_error unit * Flags :=
  register_all h (store_all store) [].

Definition require (h : Heap) (key : text) (f : Flags) : result flag_error FlagDefinition :=
  match jm_get key f ≫= deref h with
  | Some d => Ok d
  | None => Throw (UnknownFlag key)
  end.

Definition set_enabled (b : bool) (d : FlagDefinition) : FlagDefinition :=
  {| d_key := d_key d; enabled := Some b; d_default := d_default d; offValue := offValue d;
     rules := rules d; rollout := rollout d |}.
Definition setEnabled (key : text) (b : bool) (f : Flags) (h : Heap) : result flag_error Heap :=
  match jm_get key f with
  | Some ref => Ok (alter (set_enabled b) ref h)
  | None => Throw (UnknownFlag key)
  end.

Definition evaluateDetailed (h : Heap) (key : text) (context : FlagContext) (f : Flags) :
    result flag_error (T * Reason) :=
  d ← require h key f; Ok (evaluateFlagDetailed d context).
Definition evaluate (h : Heap) (key : text) (context : FlagContext) (f : Flags) :
    result flag_error T :=
  d ← require h key f; Ok (evaluateFlag d context).
Definition isEnabled (is_true : T → bool) (h : Heap) (key : text) (context : FlagContext)
    (f : Flags) : result flag_error bool :=
  v ← evaluate h key context f; Ok (is_true v).
End flags.
Arguments FlagDefinition T : clear implicits.
Arguments TargetingRule T : clear implicits.
Arguments RolloutVariant T : clear implicits.

Definition booleanFlag (key : text) (enabled default_ offValue : option bool)
    (rules : option (list (TargetingRule bool))) (rollout : option (list (RolloutVariant bool))) :
    FlagDefinition bool :=
  {| d_key := key; enabled := enabled; d_default := default false default_;
     offValue := Some (default false offValue); rules := rules; rollout := rollout |}.

(** ** Why a value is chosen *)

Section spec.
Context {T : Type}.

Definition cumulative (l : list (RolloutVariant T)) (i : nat) : Z :=
  sumZ (weight <$> take i l).

Inductive decides (d : FlagDefinition T) (c : FlagContext) : T → Reason → Prop :=
| decides_off :
    enabled d = Some false → decides d c (default (d_default d) (offValue d)) Disabled
| decides_rule i r :
    enabled d ≠ Some false → default [] (rules d) !! i = Some r → ruleMatches r c = true →
    (∀ j r', j < i → default [] (rules d) !! j = Some r' → ruleMatches r' c = false) →
    decides d c (rule_value r) (Rule i)
| decides_rollout i v b :
    enabled d ≠ Some false → (∀ r, r ∈ default [] (rules d) → ruleMatches r c = false) →
    b = stableBucket (d_key d) (default [] (c_key c)) →
    default [] (rollout d) !! i = Some v →
    (b < 100 * cumulative (default [] (rollout d)) (S i))%Z →
    (∀ j, j < i → (100 * cumulative (default [] (rollout d)) (S j) <= b)%Z) →
    decides d c (variant_value v) (Rollout b)
| decides_default b :
    enabled d ≠ Some false → (∀ r, r ∈ default [] (rules d) → ruleMatches r c = false) →
    b = stableBucket (d_key d) (default [] (c_key c)) →
    (∀ j, j < length (default [] (rollout d)) →
       (100 * cumulative (default [] (rollout d)) (S j) <= b)%Z) →
    decides d c (d_default d) Default.

Lemma first_rule_Some (l : list (TargetingRule T)) c : ∀ n i v,
  first_rule n l c = Some (i, v) → ∃ k r, i = n + k ∧ v = rule_value r ∧ l !! k = Some r ∧
    ruleMatches r c = true ∧ ∀ j r', j < k → l !! j = Some r' → ruleMatches r' c = false.
Proof.
  induction l as [|r l IH]; intros n i v; cbn [first_rule]; [done|].
  destruct (ruleMatches r c) eqn:E.
  - intros [= <- <-]. exists 0, r. split_and!; [lia|done..|]. intros; lia.
  - intros (k & r' & -> & -> & Hk & Hm & Hj)%IH. exists (S k), r'.
    split_and!; [lia|done..|]. intros [|j] r'' Hlt; [by intros [= <-]|]. cbn. apply Hj. lia.
Qed.

Lemma first_rule_None (l : list (TargetingRule T)) c : ∀ n,
  first_rule n l c = None → ∀ r, r ∈ l → ruleMatches r c = false.
Proof.
  induction l as [|r l IH]; intros n E r' Hr; [by apply not_elem_of_nil in Hr|].
  cbn [first_rule] in E. destruct (ruleMatches r c) eqn:Hm; [done|].
  apply elem_of_cons in Hr as [->|Hr]; [done|by eapply IH].
Qed.

Lemma cumulative_cons v (l : list (RolloutVariant T)) i :
  cumulative (v :: l) (S i) = (weight v + cumulative l i)%Z.
Proof. unfold cumulative. cbn [take]. by rewrite fmap_cons, sumZ_cons. Qed.

Lemma cumulative_one v (l : list (RolloutVariant T)) : cumulative (v :: l) 1 = weight v.
Proof. rewrite cumulative_cons. change (cumulative l 0) with 0%Z. lia. Qed.

Lemma pick_variant_Some (l : list (RolloutVariant T)) b : ∀ c x,
  pick_variant b c l = Some x → ∃ i v, x = variant_value v ∧ l !! i = Some v ∧
    (b < 100 * (c + cumulative l (S i)))%Z ∧
    (∀ j, j < i → (100 * (c + cumulative l (S j)) <= b)%Z).
Proof.
  induction l as [|v l IH]; intros c x; cbn [pick_variant]; [done|].
  pose proof (cumulative_one v l) as H1.
  destruct (Z.ltb_spec b (100 * (c + weight v))).
  - intros [= <-]. exists 0, v. rewrite H1. split_and!; [done..|lia].
  - intros (i & v' & -> & Hi & Hb & Hj)%IH. exists (S i), v'. rewrite cumulative_cons.
    split_and!; [done..|lia|]. intros [|j] Hlt; [rewrite H1; lia|].
    rewrite cumulative_cons. specialize (Hj j). lia.
Qed.

Lemma pick_variant_None (l : list (RolloutVariant T)) b : ∀ c,
  pick_variant b c l = None → ∀ j, j < length l → (100 * (c + cumulative l (S j)) <= b)%Z.
Proof.
  induction l as [|v l IH]; intros c; cbn [pick_variant length]; [lia|].
  pose proof (cumulative_one v l) as H1.
  destruct (Z.ltb_spec b (100 * (c + weight v))); [done|].
  intros E [|j] Hj; [rewrite H1; lia|]. rewrite cumulative_cons. specialize (IH _ E j). lia.
Qed.

Lemma evaluate_decides (d : FlagDefinition T) c :
  decides d c (evaluateFlagDetailed d c).1 (evaluateFlagDetailed d c).2.
Proof.
  unfold evaluateFlagDetailed. case_bool_decide as Hoff; [by constructor|].
  destruct (first_rule 0 _ c) as [[i v]|] eqn:Er.
  - apply first_rule_Some in Er as (k & r & -> & -> & Hk & Hm & Hj). by constructor.
  - pose proof (first_rule_None _ _ _ Er) as Hr.
    destruct (pick_variant _ 0 _) as [v|] eqn:Ep; cbn [fst snd].
    + apply pick_variant_Some in Ep as (i & v' & -> & Hi & Hb & Hj).
      by eapply decides_rollout.
    + eapply decides_default; [done..|]. intros j Hj.
      eapply pick_variant_None in Ep; [|done]. lia.
Qed.

Lemma decides_unique (d : FlagDefinition T) c v r v' r' :
  decides d c v r → decides d c v' r' → v = v' ∧ r = r'.
Proof.
  assert (∀ i x, default [] (rules d) !! i = Some x → ruleMatches x c = true →
    (∀ x, x ∈ default [] (rules d) → ruleMatches x c = false) → False) as Hno.
  { intros i x Hi Hm Hn. rewrite (Hn x) in Hm; [done|]. by eapply list_elem_of_lookup_2. }
  destruct 1 as [He|i x He Hi Hm Hj|i x b He Hn -> Hi Hb Hj|b He Hn -> Hj];
    destruct 1 as [He'|i' x' He' Hi' Hm' Hj'|i' x' b' He' Hn' -> Hi' Hb' Hj'|b' He' Hn' -> Hj'];
    try done; try (by exfalso; eauto).
  - assert (i = i') as <-.
    { destruct (lt_eq_lt_dec i i') as [[Hlt|]|Hlt]; [|done|].
      - by rewrite (Hj' i x) in Hm.
      - by rewrite (Hj i' x') in Hm'. }
    by simplify_eq.
  - assert (i = i') as <-.
    { destruct (lt_eq_lt_dec i i') as [[Hlt|]|Hlt]; [|done|].
      - specialize (Hj' i Hlt). lia.
      - specialize (Hj i' Hlt). lia. }
    by simplify_eq.
  - specialize (Hj' i (lookup_lt_Some _ _ _ Hi)). lia.
  - specialize (Hj i' (lookup_lt_Some _ _ _ Hi')). lia.
Qed.

(** ** Shares of a rollout *)

(** The buckets, and those that a test accepts. *)
Definition buckets : list Z := Z.of_nat <$> List.seq 0 (Z.to_nat 10000).
Definition share (p : Z → bool) : nat := length (filter (λ b, p b = true) buckets).

Definition in_variant (l : list (RolloutVariant T)) (i : nat) (b : Z) : bool :=
  ((100 * cumulative l i <=? b) && (b <? 100 * cumulative l (S i)))%Z.

Lemma interval_count lo hi n :
  (0 <= lo <= hi)%Z →
  Z.of_nat (length (filter (λ b, ((lo <=? b) && (b <? hi))%Z = true) (Z.of_nat <$> List.seq 0 n))) =
    Z.max 0 (Z.min hi (Z.of_nat n) - lo).
Proof.
  intros Hlo. induction n as [|n IH]; [cbn; lia|].
  rewrite seq_S, fmap_app, filter_app, length_app, Nat2Z.inj_add, IH. clear IH.
  cbn [fmap list_fmap plus]. rewrite filter_cons, filter_nil.
  destruct (Z.leb_spec lo (Z.of_nat n)), (Z.ltb_spec (Z.of_nat n) hi); cbn [andb];
    [rewrite decide_True by done|rewrite decide_False by done..]; cbn [length]; lia.
Qed.

Lemma share_interval lo hi :
  (0 <= lo <= hi)%Z → (hi <= 10000)%Z →
  Z.of_nat (share (λ b, (lo <=? b) && (b <? hi))%Z) = (hi - lo)%Z.
Proof. intros. unfold share, buckets. rewrite interval_count by done. lia. Qed.

Lemma share_ext p q : (∀ b, (0 <= b < 10000)%Z → p b = q b) → share p = share q.
Proof.
  intros Hpq. unfold share. f_equal. apply filter_iff_in.
  intros b Hb. unfold buckets in Hb. apply list_elem_of_fmap in Hb as (k & -> & Hk).
  apply list_elem_of_In, in_seq in Hk. rewrite Hpq by lia. done.
Qed.

Lemma cumulative_step (l : list (RolloutVariant T)) i v :
  l !! i = Some v → cumulative l (S i) = (cumulative l i + weight v)%Z.
Proof.
  intros Hi. unfold cumulative. rewrite (take_S_r _ _ _ Hi), fmap_app, sumZ_app.
  change (weight <$> [v]) with [weight v]. rewrite sumZ_cons. change (sumZ []) with 0%Z. lia.
Qed.

Lemma cumulative_mono (l : list (RolloutVariant T)) i j :
  Forall (λ v, 0 <= weight v)%Z l → i <= j → (cumulative l i <= cumulative l j)%Z.
Proof.
  intros Hw. induction 1 as [|j Hle IH]; [lia|].
  destruct (l !! j) as [v|] eqn:Ev.
  - rewrite (cumulative_step _ _ _ Ev). rewrite Forall_forall in Hw.
    pose proof (Hw v (list_elem_of_lookup_2 _ _ _ Ev)). cbn in H. lia.
  - apply lookup_ge_None in Ev. unfold cumulative in *. rewrite (take_ge l (S j)) by lia.
    by rewrite (take_ge l j) in IH by lia.
Qed.

Lemma in_variant_pick (l : list (RolloutVariant T)) i v b :
  Forall (λ v, 0 <= weight v)%Z l → l !! i = Some v → in_variant l i b = true →
  pick_variant b 0 l = Some (variant_value v).
Proof.
  intros Hw Hi Hb. unfold in_variant in Hb. reflect_bools.
  destruct (pick_variant b 0 l) as [x|] eqn:E.
  - apply pick_variant_Some in E as (k & v' & -> & Hk & Hlt & Hj). rewrite !Z.add_0_l in *.
    assert (i = k) as <-; [|congruence].
    destruct (lt_eq_lt_dec i k) as [[Hlt'|]|Hlt']; [|done|].
    + specialize (Hj i Hlt'). rewrite Z.add_0_l in Hj. lia.
    + pose proof (cumulative_mono l (S k) i Hw ltac:(lia)). lia.
  - pose proof (pick_variant_None _ _ _ E i (lookup_lt_Some _ _ _ Hi)). lia.
Qed.

Lemma pick_none (l : list (RolloutVariant T)) b :
  Forall (λ v, 0 <= weight v)%Z l → (0 <= b)%Z →
  pick_variant b 0 l = None ↔ (100 * cumulative l (length l) <= b)%Z.
Proof.
  intros Hw Hb0. split.
  - intros E. destruct l as [|v l]; [change (cumulative [] (length [])) with 0%Z; lia|].
    apply (pick_variant_None _ _ _ E (length l)). cbn. lia.
  - intros Hb. destruct (pick_variant b 0 l) as [x|] eqn:E; [|done].
    apply pick_variant_Some in E as (k & v' & -> & Hk & Hlt & _).
    apply lookup_lt_Some in Hk.
    pose proof (cumulative_mono l (S k) (length l) Hw ltac:(lia)). lia.
Qed.
End spec.

(** ** Properties *)

(** a flag is off when it is disabled; else the first rule that matches decides; else
    the variant in whose slice of the weights the subject's bucket lies; else the default
    does: the value and the reason are the ones of that order and no others. *)
Theorem evaluation_order {T} (d : FlagDefinition T) (c : FlagContext) (v : T) (r : Reason) :
  decides d c v r ↔ evaluateFlagDetailed d c = (v, r).
Proof.
  split; [|intros E; pose proof (evaluate_decides d c) as H; by rewrite E in H].
  intros H. destruct (decides_unique _ _ _ _ _ _ H (evaluate_decides d c)) as [-> ->].
  by destruct (evaluateFlagDetailed d c).
Qed.

(** of the 10000 buckets a rollout whose weights sum to at most 100 gives each variant
    exactly 100 per percent of its weight, and leaves the rest to the default; and raising
    the weight of the first variant takes it from no subject. *)
Theorem rollout_shares {T} (l : list (RolloutVariant T))
    (Hw : Forall (λ v, 0 <= weight v)%Z l) (Hsum : (cumulative l (length l) <= 100)%Z) :
  (∀ i v, l !! i = Some v → Z.of_nat (share (in_variant l i)) = (100 * weight v)%Z ∧
     ∀ b, in_variant l i b = true → pick_variant b 0 l = Some (variant_value v)) ∧
  Z.of_nat (share (λ b, match pick_variant b 0 l with None => true | Some _ => false end)) =
    (10000 - 100 * cumulative l (length l))%Z ∧
  ∀ v l' w, l = v :: l' → (weight v <= w)%Z → ∀ b, in_variant l 0 b = true →
    pick_variant b 0 ({| variant_value := variant_value v; weight := w |} :: l') =
      Some (variant_value v).
Proof.
  assert (∀ i, (0 <= cumulative l i)%Z) as Hpos.
  { intros i. change 0%Z with (cumulative l 0). apply cumulative_mono; [done|lia]. }
  split; [|split].
  - intros i v Hi. split; [|by intros b; apply in_variant_pick].
    pose proof (cumulative_step _ _ _ Hi) as Hs. unfold in_variant.
    pose proof (lookup_lt_Some _ _ _ Hi).
    pose proof (cumulative_mono l (S i) (length l) Hw ltac:(lia)).
    pose proof (cumulative_mono l i (S i) Hw ltac:(lia)). pose proof (Hpos i).
    rewrite share_interval by lia. lia.
  - specialize (Hpos (length l)).
    rewrite (share_ext _ (λ b, (100 * cumulative l (length l) <=? b) && (b <? 10000))%Z).
    + rewrite share_interval by lia. done.
    + intros b Hb. pose proof (pick_none l b Hw ltac:(lia)) as Hp.
      destruct (Z.ltb_spec b 10000); [|lia]. rewrite andb_true_r.
      destruct (Z.leb_spec (100 * cumulative l (length l)) b) as [Hle|Hlt].
      * by rewrite (proj2 Hp Hle).
      * destruct (pick_variant b 0 l); [done|]. pose proof (proj1 Hp eq_refl). lia.
  - intros v l' w -> Hle b Hb. unfold in_variant in Hb. reflect_bools. cbn [pick_variant weight].
    rewrite cumulative_one in *. destruct (Z.ltb_spec b (100 * (0 + w))); [done|lia].
Qed.

(** ** Examples *)

Definition two_variants : list (RolloutVariant bool) :=
  [{| variant_value := true; weight := 10 |}; {| variant_value := false; weight := 25 |}].

Lemma rollout_shares_witness :
  share (in_variant two_variants 0) = Z.to_nat 1000 ∧
  Z.of_nat (share (λ b, match pick_variant b 0 two_variants with None => true | Some _ => false end)) =
    6500%Z.
Proof.
  assert (Forall (λ v, 0 <= weight v)%Z two_variants) as Hw.
  { repeat (apply Forall_cons_2; [cbn; lia|]). constructor. }
  assert ((cumulative two_variants (length two_variants) <= 100)%Z) as Hs by (vm_compute; discriminate).
  destruct (rollout_shares two_variants Hw Hs) as (H1 & H2 & _). split.
  - apply Nat2Z.inj. exact (proj1 (H1 0 {| variant_value := true; weight := 10 |} eq_refl)).
  - exact H2.
Defined.

(** The registry and the store share the definitions: a flag that is switched off in one
    registry is off in the store and in every registry loaded from it, before and after. *)
Definition sample_flag : FlagDefinition bool :=
  booleanFlag [102%Z] None (Some true) None None None.
Lemma setEnabled_reaches_the_store :
  let store := store_set [sample_flag] 0 [] in
  let registry := (loadFrom [sample_flag] store []).2 in
  let other := (loadFrom [sample_flag] store []).2 in
  match setEnabled [102%Z] false registry [sample_flag] with
  | Ok h =>
      evaluate h [102%Z] {| c_key := None; attributes := None |} other = Ok false ∧
      evaluate h [102%Z] {| c_key := None; attributes := None |} (loadFrom h store []).2 = Ok false
  | Throw _ => False
  end.
Proof. vm_compute. split; reflexivity. Qed.

(** A reload clears the flags before it looks at the new ones: an entry without a key leaves
    the registry with the flags before it only. *)
Lemma failed_reload_drops_flags :
  let bad := booleanFlag [] None None None None None in
  let old := [([102%Z], 0)] in
  loadFrom [sample_flag; bad] (store_set [sample_flag; bad] 1 []) old = (Throw EmptyKey, []).
Proof. vm_compute. reflexivity. Qed.
