(* ===== verification/Bytes.v ===== *)
(** * Bytes

    Node's [Buffer] as a list of bytes ([ascii]): big-endian integers, written and read
    within their range or throwing, and what the protocol codecs (PgWire.v, AmqpCodec.v,
    KafkaWire.v, MysqlWire.v) share of them.

    A cursor reads a buffer at an offset (KafkaWire.v, MysqlWire.v): it reads, moves on and
    may throw.  [reads r a w] says that [r] reads [a] from the bytes [w] wherever they are
    in a buffer, which is how the codecs are shown to be inverse to what writes them.

    The protocol clients keep what the socket has delivered in a buffer and, whenever a
    chunk arrives, take frames from it until there is no complete one.  [drain] is that
    loop for any decoder of one frame; the laws of [Framing] make the way the network cuts
    the stream into chunks invisible. *)

From Stdlib Require Import Ascii String.
From S2P Require Import Prelude JsText JsInt.

Open Scope Z_scope.
#[local] Open Scope list_scope.

#[local] Abbreviation bytes := (list ascii) (only parsing).

(** ** Big-endian integers *)

Definition byte (z : Z) : ascii := ascii_of_N (Z.to_N (z mod 256)).

Fixpoint be_split (n : nat) (z : Z) : bytes :=
  match n with
  | O => []
  | S n => be_split n (z / 256) ++ [byte z]
  end.
Definition be_combine (l : bytes) : Z := foldl (λ acc c, acc * 256 + code c) 0 l.

Inductive range_error : Type := RangeError.

(** [readUInt16BE], [readUInt32BE], [readInt32BE]. *)
Definition read_be (n : nat) (b : bytes) (off : nat) : result range_error Z :=
  if (off + n <=? length b)%nat then Ok (be_combine (take n (drop off b))) else Throw RangeError.
Definition readUInt16BE := read_be 2.
Definition readUInt32BE := read_be 4.
Definition readInt32BE (b : bytes) (off : nat) : result range_error Z :=
  z ← readUInt32BE b off; Ok (if z <? 2 ^ 31 then z else z - 2 ^ 32).

(** What [writeUInt16BE], [writeUInt32BE] and [writeInt32BE] write. *)
Definition uint16 (z : Z) : result range_error bytes :=
  if (0 <=? z) && (z <? 2 ^ 16) then Ok (be_split 2 z) else Throw RangeError.
Definition uint32 (z : Z) : result range_error bytes :=
  if (0 <=? z) && (z <? 2 ^ 32) then Ok (be_split 4 z) else Throw RangeError.
Definition int32 (z : Z) : result range_error bytes :=
  if (- 2 ^ 31 <=? z) && (z <? 2 ^ 31) then Ok (be_split 4 (z mod 2 ^ 32)) else Throw RangeError.

Definition NUL : ascii := "000"%char.
Definition len (b : bytes) : Z := Z.of_nat (length b).

#[local] Open Scope nat_scope.

Definition take_be (n : nat) (b : bytes) : option (Z * bytes) :=
  if length b <? n then None else Some (be_combine (take n b), drop n b).

(** ** Integers round trip *)

Lemma code_byte z : code (byte z) = (z mod 256)%Z.
Proof.
  unfold code, byte. pose proof (Z.mod_pos_bound z 256 ltac:(lia)).
  rewrite N_ascii_embedding by lia. lia.
Qed.

Lemma code_range c : (0 <= code c < 256)%Z.
Proof. unfold code. pose proof (N_ascii_bounded c). lia. Qed.

Lemma be_split_length n : ∀ z, length (be_split n z) = n.
Proof. induction n as [|n IH]; intros z; cbn; [done|]. rewrite length_app, IH. cbn. lia. Qed.

Lemma be_combine_snoc l c : be_combine (l ++ [c]) = (be_combine l * 256 + code c)%Z.
Proof. unfold be_combine. by rewrite foldl_app. Qed.

Lemma be_combine_split n : ∀ z, be_combine (be_split n z) = (z mod 256 ^ Z.of_nat n)%Z.
Proof.
  induction n as [|n IH]; intros z; [by rewrite Z.mod_1_r|]. cbn [be_split].
  rewrite be_combine_snoc, IH, code_byte, Nat2Z.inj_succ, Z.pow_succ_r by lia.
  rewrite Z.rem_mul_r by lia. lia.
Qed.

Lemma be_combine_range l : (0 <= be_combine l < 256 ^ Z.of_nat (length l))%Z.
Proof.
  induction l as [|c l IH] using rev_ind; [done|].
  rewrite be_combine_snoc, length_app, Nat2Z.inj_add, Z.pow_add_r by lia. cbn [length].
  pose proof (code_range c). change (256 ^ Z.of_nat 1)%Z with 256%Z. lia.
Qed.

Lemma be16 z : (0 <= z < 2 ^ 16)%Z → be_combine (be_split 2 z) = z.
Proof. intros. rewrite be_combine_split. by apply Z.mod_small. Qed.
Lemma be32 z : (0 <= z < 2 ^ 32)%Z → be_combine (be_split 4 z) = z.
Proof. intros. rewrite be_combine_split. by apply Z.mod_small. Qed.

Lemma uint16_ok z b : uint16 z = Ok b ↔ (0 <= z < 2 ^ 16)%Z ∧ b = be_split 2 z.
Proof.
  unfold uint16. destruct (Z.leb_spec 0 z), (Z.ltb_spec z (2 ^ 16)); cbn; split;
    try (intros [= <-]; split; [lia|done]); try (intros [? ->]; done || lia); done.
Qed.
Lemma uint32_ok z b : uint32 z = Ok b ↔ (0 <= z < 2 ^ 32)%Z ∧ b = be_split 4 z.
Proof.
  unfold uint32. destruct (Z.leb_spec 0 z), (Z.ltb_spec z (2 ^ 32)); cbn; split;
    try (intros [= <-]; split; [lia|done]); try (intros [? ->]; done || lia); done.
Qed.

Lemma read_be_app n pre x post :
  length x = n → read_be n (pre ++ x ++ post) (length pre) = Ok (be_combine x).
Proof.
  intros <-. unfold read_be. rewrite !length_app.
  destruct (Nat.leb_spec (length pre + length x) (length pre + (length x + length post))); [|lia].
  by rewrite drop_app_length, take_app_length.
Qed.

Lemma read_be_safe n b off : off + n <= length b → ∃ z, read_be n b off = Ok z.
Proof. intros H. unfold read_be. destruct (Nat.leb_spec (off + n) (length b)); [by eexists|lia]. Qed.

Lemma take_be_split n z rest :
  (0 <= z < 256 ^ Z.of_nat n)%Z → take_be n (be_split n z ++ rest) = Some (z, rest).
Proof.
  intros Hz. unfold take_be. rewrite length_app, be_split_length.
  destruct (Nat.ltb_spec (n + length rest) n); [lia|].
  rewrite take_app_length' by by rewrite be_split_length.
  rewrite drop_app_length' by by rewrite be_split_length.
  by rewrite be_combine_split, Z.mod_small.
Qed.

(** ** Cursors *)

#[local] Open Scope Z_scope.
#[local] Open Scope list_scope.

#[local] Abbreviation res := (result range_error).

(** Signed big-endian integers of [n] bytes. *)
Definition write_int (n : nat) (v : Z) : res bytes :=
  if (- 2 ^ (8 * Z.of_nat n - 1) <=? v) && (v <? 2 ^ (8 * Z.of_nat n - 1))
  then Ok (be_split n (v mod 256 ^ Z.of_nat n)) else Throw RangeError.

(** ** The reader *)

Definition reader (A : Type) : Type := bytes → Z → res (A * Z).
#[export] Instance cursor_ret : MRet reader := λ A a buf off, Ok (a, off).
#[export] Instance cursor_bind : MBind reader := λ A B f m buf off,
  match m buf off with Ok (a, off) => f a buf off | Throw e => Throw e end.

Definition signed (n : nat) (z : Z) : Z :=
  if z <? 2 ^ (8 * Z.of_nat n - 1) then z else z - 256 ^ Z.of_nat n.
Definition read_uint (n : nat) : reader Z := λ buf off,
  if (0 <=? off) && (off + Z.of_nat n <=? len buf)
  then Ok (be_combine (take n (drop (Z.to_nat off) buf)), off + Z.of_nat n)
  else Throw RangeError.
Definition read_int (n : nat) : reader Z := z ← read_uint n; mret (signed n z).

(** Little-endian integers of [n] bytes. *)
Definition le_split (n : nat) (z : Z) : bytes := rev (be_split n z).
Definition le_combine (b : bytes) : Z := be_combine (rev b).
Definition read_le (n : nat) : reader Z := λ buf off,
  if (0 <=? off) && (off + Z.of_nat n <=? len buf)
  then Ok (le_combine (take n (drop (Z.to_nat off) buf)), off + Z.of_nat n)
  else Throw RangeError.
Definition write_le (n : nat) (v : Z) : res bytes :=
  if (0 <=? v) && (v <? 256 ^ Z.of_nat n) then Ok (le_split n v) else Throw RangeError.
Definition write_int_le (n : nat) (v : Z) : res bytes := b ← write_int n v; Ok (rev b).

(** [buf.subarray(s, e)], where a negative index counts from the end. *)
Definition rel_index (n i : Z) : Z := if i <? 0 then Z.max 0 (n + i) else Z.min i n.
Definition subarray (b : bytes) (s e : Z) : bytes :=
  let s := rel_index (len b) s in
  let e := rel_index (len b) e in
  take (Z.to_nat (e - s)) (drop (Z.to_nat s) b).

Definition skip (n : Z) : reader unit := λ buf off, Ok (tt, off + n).
Definition r_slice (n : Z) : reader bytes := λ buf off, Ok (subarray buf off (off + n), off + n).
Definition remaining (n : Z) : reader bytes := λ buf off,
  Ok (subarray (subarray buf off (len buf)) 0 n, off).

Section times.
Context {A : Type} (read : reader A).
Fixpoint read_times (n : nat) : reader (list A) :=
  match n with
  | O => mret []
  | S n => a ← read; l ← read_times n; mret (a :: l)
  end.
End times.

(** ** What a reader reads back *)

(** [r] reads [a] from the bytes [w], wherever they are in a buffer. *)
Definition reads {A} (r : reader A) (a : A) (w : bytes) : Prop :=
  ∀ pre post, r (pre ++ w ++ post) (len pre) = Ok (a, len pre + len w).

Lemma len_app a b : len (a ++ b) = len a + len b.
Proof. unfold len. rewrite length_app. lia. Qed.
Lemma len_nonneg b : 0 <= len b.
Proof. unfold len. lia. Qed.
Lemma len_be_split n z : len (be_split n z) = Z.of_nat n.
Proof. unfold len. by rewrite be_split_length. Qed.

Lemma reads_ret {A} (a : A) : reads (mret a) a [].
Proof. intros pre post. unfold mret, cursor_ret. by rewrite Z.add_0_r. Qed.

Lemma reads_bind {A B} (r : reader A) (f : A → reader B) a b w1 w2 :
  reads r a w1 → reads (f a) b w2 → reads (r ≫= f) b (w1 ++ w2).
Proof.
  intros H1 H2 pre post. unfold mbind, cursor_bind. rewrite <-(assoc_L (++) w1), H1.
  specialize (H2 (pre ++ w1) post). rewrite <-(assoc_L (++)), len_app in H2. rewrite H2, len_app. do 2 f_equal. lia.
Qed.

Lemma reads_map {A B} (r : reader A) (g : A → B) a w :
  reads r a w → reads (x ← r; mret (g x)) (g a) w.
Proof.
  intros H. rewrite <-(app_nil_r w). by eapply (reads_bind r (λ x, mret (g x))); [|apply reads_ret].
Qed.

Lemma reads_uint n z : 0 <= z < 256 ^ Z.of_nat n → reads (read_uint n) z (be_split n z).
Proof.
  intros Hz pre post. unfold read_uint. rewrite !len_app, len_be_split.
  destruct (Z.leb_spec 0 (len pre)), (Z.leb_spec (len pre + Z.of_nat n) (len pre + (Z.of_nat n + len post)));
    try (pose proof (len_nonneg pre); pose proof (len_nonneg post); lia).
  cbn [andb]. unfold len at 1. rewrite Nat2Z.id, drop_app_length.
  rewrite take_app_length' by by rewrite be_split_length. by rewrite be_combine_split, Z.mod_small.
Qed.

Lemma signed_mod n v : (0 < n)%nat →
  - 2 ^ (8 * Z.of_nat n - 1) <= v < 2 ^ (8 * Z.of_nat n - 1) → signed n (v mod 256 ^ Z.of_nat n) = v.
Proof.
  intros Hn Hv. unfold signed. change 256 with (2 ^ 8). rewrite <-Z.pow_mul_r by lia.
  assert (2 ^ (8 * Z.of_nat n) = 2 * 2 ^ (8 * Z.of_nat n - 1)) as E.
  { rewrite <-Z.pow_succ_r by lia. f_equal. lia. }
  rewrite E. set (h := 2 ^ (8 * Z.of_nat n - 1)) in *. destruct (Z.le_gt_cases 0 v).
  - rewrite Z.mod_small by lia. destruct (Z.ltb_spec v h); lia.
  - replace (v mod (2 * h)) with (v + 2 * h).
    + destruct (Z.ltb_spec (v + 2 * h) h); lia.
    + rewrite <-(Z.mod_add v 1) by lia. rewrite Z.mod_small; lia.
Qed.

Lemma write_int_ok n v w : write_int n v = Ok w ↔
  - 2 ^ (8 * Z.of_nat n - 1) <= v < 2 ^ (8 * Z.of_nat n - 1) ∧ w = be_split n (v mod 256 ^ Z.of_nat n).
Proof.
  unfold write_int. set (h := 2 ^ _).
  destruct (Z.leb_spec (- h) v), (Z.ltb_spec v h); cbn [andb]; split;
    try (intros <-%Ok_inj; split; [lia|done]); try (intros [? ->]; done || lia); discriminate.
Qed.

Lemma reads_int n v w : (0 < n)%nat → write_int n v = Ok w → reads (read_int n) v w.
Proof.
  intros Hn [Hv ->]%write_int_ok. rewrite <-(signed_mod n v) at 1 by done.
  apply reads_map, reads_uint, Z.mod_pos_bound. lia.
Qed.

Lemma len_write_int n v w : write_int n v = Ok w → len w = Z.of_nat n.
Proof. intros [_ ->]%write_int_ok. apply len_be_split. Qed.

Lemma subarray_middle pre b post : subarray (pre ++ b ++ post) (len pre) (len pre + len b) = b.
Proof.
  unfold subarray, rel_index. rewrite !len_app.
  pose proof (len_nonneg pre). pose proof (len_nonneg b). pose proof (len_nonneg post).
  destruct (Z.ltb_spec (len pre) 0), (Z.ltb_spec (len pre + len b) 0); try lia.
  rewrite !Z.min_l by lia. replace (len pre + len b - len pre) with (len b) by lia.
  unfold len. by rewrite !Nat2Z.id, drop_app_length, take_app_length.
Qed.

Lemma reads_slice b : reads (r_slice (len b)) b b.
Proof. intros pre post. unfold r_slice. by rewrite subarray_middle. Qed.

(** A slice that is looked at, and then skipped. *)
Lemma reads_remaining b : reads (x ← remaining (len b); _ ← skip (len b); mret x) b b.
Proof.
  intros pre post. unfold mbind, cursor_bind, remaining, skip, mret, cursor_ret.
  assert (subarray (pre ++ b ++ post) (len pre) (len (pre ++ b ++ post)) = b ++ post) as ->.
  { pose proof (subarray_middle pre (b ++ post) []) as E. rewrite app_nil_r, <-len_app in E. exact E. }
  pose proof (subarray_middle [] b post) as E. change (len []) with 0 in E.
  rewrite Z.add_0_l in E. cbn [app] in E. by rewrite E.
Qed.

Lemma reads_byte z : 0 <= z < 256 → reads (read_uint 1) z [byte z].
Proof. intros Hz. by apply (reads_uint 1). Qed.

(** ** Little-endian integers *)

Lemma le_split_length n z : length (le_split n z) = n.
Proof. unfold le_split. by rewrite length_rev, be_split_length. Qed.
Lemma len_le_split n z : len (le_split n z) = Z.of_nat n.
Proof. unfold len. by rewrite le_split_length. Qed.
Lemma le_combine_split n z : 0 <= z < 256 ^ Z.of_nat n → le_combine (le_split n z) = z.
Proof. intros Hz. unfold le_combine, le_split. rewrite rev_involutive, be_combine_split. by apply Z.mod_small. Qed.

Lemma write_le_ok n v w : write_le n v = Ok w ↔ 0 <= v < 256 ^ Z.of_nat n ∧ w = le_split n v.
Proof.
  unfold write_le. set (h := 256 ^ _). destruct (Z.leb_spec 0 v), (Z.ltb_spec v h); cbn [andb]; split;
    try (intros <-%Ok_inj; split; [lia|done]); try (intros [? ->]; done || lia); discriminate.
Qed.

Lemma reads_le n z : 0 <= z < 256 ^ Z.of_nat n → reads (read_le n) z (le_split n z).
Proof.
  intros Hz pre post. unfold read_le. rewrite !len_app, len_le_split.
  destruct (Z.leb_spec 0 (len pre)), (Z.leb_spec (len pre + Z.of_nat n) (len pre + (Z.of_nat n + len post)));
    try (pose proof (len_nonneg pre); pose proof (len_nonneg post); lia).
  cbn [andb]. unfold len at 1. rewrite Nat2Z.id, drop_app_length.
  rewrite take_app_length' by by rewrite le_split_length. by rewrite le_combine_split.
Qed.

Lemma reads_skip w : reads (skip (len w)) tt w.
Proof. by intros pre post. Qed.

(** ** Incremental frame decoders *)

#[local] Open Scope nat_scope.

(** A decoder of one frame: what it takes is not looked at again, and more input after a
    complete frame does not change it. *)
Class Framing {A} (next : bytes → option (A * bytes)) : Prop := {
  framing_shorter b a rest : next b = Some (a, rest) → length rest < length b;
  framing_app b x a rest : next b = Some (a, rest) → next (b ++ x) = Some (a, rest ++ x);
}.

Section drain.
Context {A : Type} (next : bytes → option (A * bytes)).

Fixpoint drain_fuel (fuel : nat) (b : bytes) : list A * bytes :=
  match fuel with
  | O => ([], b)
  | S fuel =>
      match next b with
      | None => ([], b)
      | Some (a, rest) => let r := drain_fuel fuel rest in (a :: r.1, r.2)
      end
  end.
Definition drain (b : bytes) : list A * bytes := drain_fuel (length b) b.

(** What has been taken from the buffer after some chunks, and what is left. *)
Definition receive (r : list A * bytes) (chunk : bytes) : list A * bytes :=
  (r.1 ++ (drain (r.2 ++ chunk)).1, (drain (r.2 ++ chunk)).2).

Context {Hnext : Framing next}.

Lemma framing_nil : next [] = None.
Proof.
  destruct (next []) as [[a rest]|] eqn:E; [|done]. apply framing_shorter in E. cbn in E. lia.
Qed.

Lemma framing_more_fuel fuel : ∀ fuel' b,
  length b <= fuel → fuel <= fuel' → drain_fuel fuel' b = drain_fuel fuel b.
Proof.
  induction fuel as [|fuel IH]; intros fuel' b Hb Hle.
  - destruct b; [|cbn in Hb; lia]. destruct fuel'; [done|]. cbn. by rewrite framing_nil.
  - destruct fuel' as [|fuel']; [lia|]. cbn [drain_fuel].
    destruct (next b) as [[a rest]|] eqn:E; [|done].
    apply framing_shorter in E. by rewrite (IH fuel') by lia.
Qed.

Lemma drain_unfold b :
  drain b = match next b with
            | None => ([], b)
            | Some (a, rest) => (a :: (drain rest).1, (drain rest).2)
            end.
Proof.
  unfold drain. destruct b as [|c b]; [cbn; by rewrite framing_nil|]. cbn [length drain_fuel].
  destruct (next (c :: b)) as [[a rest]|] eqn:E; [|done].
  apply framing_shorter in E. cbn in E. by rewrite (framing_more_fuel (length rest)) by lia.
Qed.

Lemma drain_app x : ∀ b,
  drain (b ++ x) = ((drain b).1 ++ (drain ((drain b).2 ++ x)).1, (drain ((drain b).2 ++ x)).2).
Proof.
  apply (induction_ltof1 _ length). unfold ltof. intros b IH. rewrite (drain_unfold b).
  destruct (next b) as [[a rest]|] eqn:E; cbn [fst snd app].
  - rewrite drain_unfold, (framing_app _ x _ _ E).
    rewrite (IH rest) by by apply framing_shorter in E. done.
  - by destruct (drain (b ++ x)).
Qed.

(** Nothing complete is left. *)
Lemma drain_rest : ∀ b, next (drain b).2 = None.
Proof.
  apply (induction_ltof1 _ length). unfold ltof. intros b IH. rewrite drain_unfold.
  destruct (next b) as [[a rest]|] eqn:E; [|done]. cbn. apply IH. by apply framing_shorter in E.
Qed.

Lemma receive_drain chunks : foldl receive ([], []) chunks = drain (mjoin chunks).
Proof.
  induction chunks as [|chunk chunks IH] using rev_ind; [done|].
  rewrite foldl_app, IH, join_app. cbn [foldl].
  assert (mjoin [chunk] = chunk) as -> by apply app_nil_r. unfold receive.
  by rewrite (drain_app chunk (mjoin chunks)).
Qed.

(** A frame as it is written. *)
Definition frame_wire (a : A) (b : bytes) : Prop := ∀ rest, next (b ++ rest) = Some (a, rest).

Lemma framing_wires fs bs rest :
  Forall2 frame_wire fs bs → drain (mjoin bs ++ rest) = (fs ++ (drain rest).1, (drain rest).2).
Proof.
  induction 1 as [|a b fs bs Ha _ IH]; [exact (surjective_pairing _)|].
  change (mjoin (b :: bs)) with (b ++ mjoin bs).
  by rewrite <-(assoc_L (++)), drain_unfold, (Ha _), IH.
Qed.

Lemma drain_written fs bs : Forall2 frame_wire fs bs → drain (mjoin bs) = (fs, []).
Proof.
  intros H. pose proof (framing_wires fs bs [] H) as E. rewrite app_nil_r in E. rewrite E.
  by rewrite (drain_unfold []), framing_nil, app_nil_r.
Qed.
End drain.
