(* ===== verification/PgWire.v ===== *)
(** * The PostgreSQL wire protocol: messages

    Models the message builders and parsers of src/packages/postgres/src/wire.ts: frames,
    the extended query messages, rows and their description, error fields, the SASL
    mechanism list and SCRAM parameters.

    Buffers are lists of bytes ([ascii]) and a JavaScript string is given by its UTF-8
    bytes; [utf8] is [toString('utf8')], which replaces what is not well formed and is the
    identity on what is.  Reads and writes of integers throw outside the buffer or the
    range, as Node's do.  An object with computed names is a map from names to values in
    insertion order. *)

From Stdlib Require Import Ascii String.
From S2P Require Import Prelude JsText JsMap Bytes.

Open Scope Z_scope.
#[local] Open Scope list_scope.

#[local] Abbreviation bytes := (list ascii) (only parsing).

(** ** Builders *)

(** A tag, the length of what follows with itself, and the body. *)
Definition tagged (tag : ascii) (body : bytes) : result range_error bytes :=
  l ← uint32 (4 + len body); Ok (tag :: l ++ body).

Definition str (s : string) : bytes := list_ascii_of_string s.

Definition buildStartupMessage (user database : bytes) : result range_error bytes :=
  let params := str "user" ++ [NUL] ++ user ++ [NUL] ++ str "database" ++ [NUL] ++ database ++ [NUL] in
  l ← uint32 (4 + 4 + len params + 1); v ← uint32 196608; Ok (l ++ v ++ params ++ [NUL]).
Definition buildPasswordMessage (password : bytes) := tagged "p"%char (password ++ [NUL]).
Definition buildQueryMessage (sql : bytes) := tagged "Q"%char (sql ++ [NUL]).
Definition buildTerminateMessage := tagged "X"%char [].
Definition buildParseMessage (query : bytes) :=
  tagged "P"%char ([NUL] ++ query ++ [NUL] ++ be_split 2 0).
Definition buildExecuteMessage := tagged "E"%char ([NUL] ++ be_split 4 0).
Definition buildDescribeMessage := tagged "D"%char ["S"%char; NUL].
Definition buildSyncMessage := tagged "S"%char [].
Definition buildSASLInitialResponse (mechanism clientFirstMessage : bytes) :=
  l ← uint32 (len clientFirstMessage);
  tagged "p"%char (mechanism ++ [NUL] ++ l ++ clientFirstMessage).
Definition buildSASLResponse (clientFinalMessage : bytes) := tagged "p"%char clientFinalMessage.

(** A parameter: [null] or [undefined], a boolean, a [Buffer], and what is sent as a text:
    strings, [String] of numbers and objects, ISO dates. *)
Inductive param : Type :=
| PNull
| PBoolean (b : bool)
| PText (t : bytes)
| PBuffer (b : bytes).

Section wire.
Context (utf8 : bytes → bytes).      (* [toString('utf8')] *)

Definition param_value (p : param) : option bytes :=
  match p with
  | PNull => None
  | PBoolean b => Some (str (if b then "t" else "f"))
  | PText t => Some t
  | PBuffer b => Some (utf8 b)
  end.

Definition bind_param (p : param) : result range_error bytes :=
  match param_value p with
  | None => int32 (-1)
  | Some v => l ← int32 (len v); Ok (l ++ v)
  end.
Fixpoint bind_params (ps : list param) : result range_error bytes :=
  match ps with
  | [] => Ok []
  | p :: ps => b ← bind_param p; r ← bind_params ps; Ok (b ++ r)
  end.

Definition buildBindMessage (params : list param) : result range_error bytes :=
  n ← uint16 (Z.of_nat (length params));
  ps ← bind_params params;
  tagged "B"%char ([NUL; NUL] ++ be_split 2 0 ++ n ++ ps ++ be_split 2 0).

(** ** Frames *)

(** One turn of the loop of [_processBuffer]: type, body, and what is left. *)
Definition next_frame (b : bytes) : option (ascii * bytes * bytes) :=
  match b with
  | t :: _ =>
      if (length b <? 5)%nat then None
      else
        let totalLen := (1 + Z.to_nat (be_combine (take 4 (drop 1 b))))%nat in
        if (length b <? totalLen)%nat then None
        else Some (t, drop 5 (take totalLen b), drop totalLen b)
  | [] => None
  end.

Definition frames : bytes → list (ascii * bytes) * bytes := drain next_frame.

(** ** Parsers *)

(** [body.indexOf(0, off)]. *)
Definition index_nul (b : bytes) (off : nat) : option nat :=
  (λ i, off + i)%nat <$> indexOf NUL (drop off b).
Definition slice (b : bytes) (from to : nat) : bytes := take (to - from) (drop from b).

Record FieldDescriptor : Type := { f_name : bytes; typeOid : Z }.

Fixpoint parse_fields (count : nat) (body : bytes) (offset : nat) :
    result range_error (list FieldDescriptor) :=
  match count with
  | O => Ok []
  | S count =>
      if (length body <=? offset)%nat then Ok []
      else match index_nul body offset with
      | None => Ok []
      | Some nameEnd =>
          if (length body <? nameEnd + 1 + 18)%nat then Ok []
          else
            oid ← readUInt32BE body (nameEnd + 1 + 6);
            fs ← parse_fields count body (nameEnd + 1 + 18);
            Ok ({| f_name := utf8 (slice body offset nameEnd); typeOid := oid |} :: fs)
      end
  end.
Definition parseRowDescription (body : bytes) : result range_error (list FieldDescriptor) :=
  if (length body <? 2)%nat then Ok []
  else n ← readUInt16BE body 0; parse_fields (Z.to_nat n) body 2.

(** The name of a column without a description. *)
Definition col_name (fields : list FieldDescriptor) (i : nat) : bytes :=
  match fields !! i with
  | Some f => f_name f
  | None => str "col" ++ show (Z.of_nat i)
  end.

Fixpoint parse_columns (count i : nat) (fields : list FieldDescriptor) (body : bytes)
    (offset : nat) (row : list (bytes * option bytes)) : result range_error (list (bytes * option bytes)) :=
  match count with
  | O => Ok row
  | S count =>
      if (length body <? offset + 4)%nat then Ok row
      else
        l ← readInt32BE body offset;
        let name := col_name fields i in
        if l =? -1 then
          parse_columns count (S i) fields body (offset + 4) (jm_set name None row)
        else if (l <? 0) || (len body <? Z.of_nat (offset + 4) + l) then Ok row
        else
          let upto := (offset + 4 + Z.to_nat l)%nat in
          parse_columns count (S i) fields body upto
            (jm_set name (Some (utf8 (slice body (offset + 4) upto))) row)
  end.
Definition parseDataRow (fields : list FieldDescriptor) (body : bytes) :
    result range_error (list (bytes * option bytes)) :=
  if (length body <? 2)%nat then Ok []
  else n ← readUInt16BE body 0; parse_columns (Z.to_nat n) 0 fields body 2 [].

(** The fields of an error by their code; [fuel] is the length of the body. *)
Fixpoint error_fields (fuel : nat) (body : bytes) (i : nat) (fields : list (ascii * bytes)) :
    list (ascii * bytes) :=
  match fuel with
  | O => fields
  | S fuel =>
      match body !! i with
      | None => fields
      | Some c =>
          if decide (c = NUL) then fields
          else match index_nul body (S i) with
          | None => fields
          | Some e => error_fields fuel body (S e) (jm_set c (utf8 (slice body (S i) e)) fields)
          end
      end
  end.
(** Message and detail. *)
Definition parseError (body : bytes) : bytes * bytes :=
  let fields := error_fields (length body) body 0 [] in
  (default (str "Unknown PostgreSQL error") (jm_get "M"%char fields),
   default [] (jm_get "D"%char fields)).

(** ** SASL *)

Fixpoint sasl_mechanisms (fuel : nat) (data : bytes) (offset : nat) : list bytes :=
  match fuel with
  | O => []
  | S fuel =>
      if (length data <=? offset)%nat then []
      else match index_nul data offset with
      | None => [utf8 (drop offset data)]
      | Some e =>
          if decide (e = offset) then []
          else utf8 (slice data offset e) :: sasl_mechanisms fuel data (S e)
      end
  end.
Definition parseSASLMechanisms (data : bytes) : list bytes := sasl_mechanisms (length data) data 0.
End wire.

Definition scram_part (params : list (bytes * bytes)) (part : bytes) : list (bytes * bytes) :=
  match indexOf "="%char part with
  | Some (S i) => jm_set (take (S i) part) (drop (S (S i)) part) params
  | _ => params
  end.
Definition parseScramParams (message : bytes) : list (bytes * bytes) :=
  foldl scram_part [] (split_on ","%char message).

Definition xorBuffers (a b : bytes) : bytes :=
  zip_with (λ x y, ascii_of_N (N.lxor (N_of_ascii x) (N_of_ascii y))) a b.

(** [validateSASLprep] on the code points of the password. *)
Definition prohibited (cp : Z) : bool :=
  (cp <=? 0x1F) || ((0x7F <=? cp) && (cp <=? 0x9F)) ||
  ((0xD800 <=? cp) && (cp <=? 0xDFFF)) ||
  ((0xE000 <=? cp) && (cp <=? 0xF8FF)) || ((0xF0000 <=? cp) && (cp <=? 0xFFFFD)) ||
  ((0x100000 <=? cp) && (cp <=? 0x10FFFD)) ||
  ((cp <=? 0x10FFFF) && (Z.land cp 0xFFFE =? 0xFFFE)) ||
  ((0xFDD0 <=? cp) && (cp <=? 0xFDEF)).
Definition validateSASLprep (code_points : list Z) : bool := forallb (λ cp, negb (prohibited cp)) code_points.

Open Scope nat_scope.

(** ** Frames *)

Lemma next_frame_shorter b t body rest :
  next_frame b = Some (t, body, rest) → length rest < length b.
Proof.
  unfold next_frame. destruct b as [|c b]; [done|].
  destruct (Nat.ltb_spec (length (c :: b)) 5); [done|].
  case_match; [done|]. intros [= <- <- <-]. rewrite length_drop. cbn [length] in *. lia.
Qed.

Lemma next_frame_app b x t body rest :
  next_frame b = Some (t, body, rest) → next_frame (b ++ x) = Some (t, body, rest ++ x).
Proof.
  unfold next_frame. destruct b as [|c b]; [done|]. cbn [app].
  destruct (Nat.ltb_spec (length (c :: b)) 5) as [|H5]; [done|].
  destruct (Nat.ltb_spec (length (c :: b ++ x)) 5) as [Hx|_].
  { cbn in Hx. rewrite length_app in Hx. cbn in H5. lia. }
  change (c :: b ++ x) with ((c :: b) ++ x).
  assert (take 4 (drop 1 ((c :: b) ++ x)) = take 4 (drop 1 (c :: b))) as ->.
  { rewrite drop_app_le, take_app_le; [done|rewrite length_drop|]; cbn in *; lia. }
  destruct (Nat.ltb_spec (length (c :: b)) (1 + Z.to_nat (be_combine (take 4 (drop 1 (c :: b))))))
    as [|Hl]; [done|].
  destruct (Nat.ltb_spec (length ((c :: b) ++ x))
    (1 + Z.to_nat (be_combine (take 4 (drop 1 (c :: b)))))) as [Hx|_].
  { rewrite length_app in Hx. lia. }
  intros [= <- <- <-]. by rewrite take_app_le, drop_app_le by lia.
Qed.

#[export] Instance next_frame_framing : Framing next_frame.
Proof.
  split; [intros b [t body]; apply next_frame_shorter|intros b x [t body]; apply next_frame_app].
Qed.

Lemma tagged_frame t body m rest :
  tagged t body = Ok m → next_frame (m ++ rest) = Some (t, body, rest).
Proof.
  unfold tagged. intros (l & Hl & [= <-])%result_bind_ok.
  apply uint32_ok in Hl as [Hr ->]. unfold len in *.
  set (z := (4 + Z.of_nat (length body))%Z) in *.
  cbn [app]. unfold next_frame. rewrite <-(assoc_L (++)).
  pose proof (be_split_length 4 z) as H4.
  assert (length (t :: be_split 4 z ++ body ++ rest) = 5 + length body + length rest) as Hlen.
  { cbn [length]. rewrite !length_app, H4. lia. }
  rewrite Hlen. destruct (Nat.ltb_spec (5 + length body + length rest) 5); [lia|].
  assert (take 4 (drop 1 (t :: be_split 4 z ++ body ++ rest)) = be_split 4 z) as ->.
  { cbn [drop]. apply (take_app_length' _ _ 4). by rewrite H4. }
  rewrite be32 by done.
  destruct (Nat.ltb_spec (5 + length body + length rest) (1 + Z.to_nat z)); [lia|].
  assert (1 + Z.to_nat z = length (t :: be_split 4 z ++ body)) as ->.
  { cbn [length]. rewrite length_app, H4. lia. }
  assert (t :: be_split 4 z ++ body ++ rest = (t :: be_split 4 z ++ body) ++ rest) as ->
    by (cbn [app]; by rewrite <-(assoc_L (++))).
  rewrite take_app_length, drop_app_length. cbn [drop]. by do 3 f_equal.
Qed.

(** A message as it is on the wire, and a sequence of them. *)
Definition wire_of (m : ascii * bytes) : bytes := m.1 :: be_split 4 (4 + len m.2) ++ m.2.
Definition wires (ms : list (ascii * bytes)) : bytes := mjoin (wire_of <$> ms).
Definition fits (m : ascii * bytes) : Prop := (4 + len m.2 < 2 ^ 32)%Z.

Lemma wires_cons m ms : wires (m :: ms) = wire_of m ++ wires ms.
Proof. done. Qed.

Lemma next_frame_wires m ms : fits m → next_frame (wires (m :: ms)) = Some (m, wires ms).
Proof.
  intros Hm. rewrite wires_cons. destruct m as [t body]. apply tagged_frame.
  unfold tagged, wire_of, fits in *. cbn [fst snd] in *.
  assert (uint32 (4 + len body) = Ok (be_split 4 (4 + len body))) as ->; [|done].
  apply uint32_ok. split; [unfold len in *; lia|done].
Qed.

(** The beginning of a sequence: no frame yet, or the first message. *)
Lemma next_frame_prefix b p ms t body rest :
  Forall fits ms → b ++ p = wires ms → next_frame b = Some (t, body, rest) →
  ∃ ms', ms = (t, body) :: ms' ∧ rest ++ p = wires ms'.
Proof.
  intros Hms Hb E. apply (next_frame_app _ p) in E. rewrite Hb in E.
  destruct Hms as [|m ms Hm _]; [done|]. rewrite next_frame_wires in E by done.
  injection E as -> E. by exists ms.
Qed.

(** ** What a server reads

    The documented layout of the messages, read from the front. *)

Fixpoint read_values (count : nat) (b : bytes) : option (list (option bytes) * bytes) :=
  match count with
  | O => Some ([], b)
  | S count =>
      '(l, b) ← take_be 4 b;
      if (l =? 2 ^ 32 - 1)%Z then
        '(vs, b) ← read_values count b; Some (None :: vs, b)
      else if length b <? Z.to_nat l then None
      else '(vs, b') ← read_values count (drop (Z.to_nat l) b);
           Some (Some (take (Z.to_nat l) b) :: vs, b')
  end.

(** Portal and statement without a name, text formats, the values, text results. *)
Definition read_bind (b : bytes) : option (list (option bytes)) :=
  match b with
  | p :: s :: b =>
      if decide (p = NUL ∧ s = NUL) then
        '(formats, b) ← take_be 2 b; '(n, b) ← take_be 2 b;
        '(vs, b) ← read_values (Z.to_nat n) b; '(results, b) ← take_be 2 b;
        if decide (formats = 0%Z ∧ results = 0%Z ∧ b = []) then Some vs else None
      else None
  | _ => None
  end.

Definition value_bytes (v : option bytes) : bytes :=
  match v with
  | None => be_split 4 (2 ^ 32 - 1)
  | Some v => be_split 4 (len v) ++ v
  end.
Definition value_fits (v : option bytes) : Prop :=
  match v with None => True | Some v => (len v < 2 ^ 31)%Z end.

Lemma read_values_write vs rest :
  Forall value_fits vs → read_values (length vs) (mjoin (value_bytes <$> vs) ++ rest) = Some (vs, rest).
Proof.
  induction 1 as [|v vs Hv _ IH]; [done|]. cbn [length read_values].
  change (mjoin (value_bytes <$> v :: vs)) with (value_bytes v ++ mjoin (value_bytes <$> vs)).
  destruct v as [v|]; cbn [value_bytes value_fits] in *; rewrite <-!(assoc_L (++)).
  - unfold len in *. rewrite take_be_split by (change (256 ^ Z.of_nat 4)%Z with (2 ^ 32)%Z; lia).
    cbn [mbind option_bind]. destruct (Z.eqb_spec (Z.of_nat (length v)) (2 ^ 32 - 1)); [lia|].
    rewrite Nat2Z.id, length_app. destruct (Nat.ltb_spec (length v + length (mjoin (value_bytes <$> vs) ++ rest)) (length v)); [lia|].
    by rewrite take_app_length, drop_app_length, IH.
  - rewrite take_be_split by (change (256 ^ Z.of_nat 4)%Z with (2 ^ 32)%Z; lia).
    cbn [mbind option_bind]. rewrite Z.eqb_refl. by rewrite IH.
Qed.

Section values.
Context (utf8 : bytes → bytes).

Lemma bind_params_ok ps : ∀ b,
  bind_params utf8 ps = Ok b ↔
    Forall value_fits (param_value utf8 <$> ps) ∧ b = mjoin (value_bytes <$> (param_value utf8 <$> ps)).
Proof.
  induction ps as [|p ps IH]; intros b; cbn [bind_params].
  - split; [by intros [= <-]|by intros [_ ->]].
  - change (param_value utf8 <$> p :: ps) with (param_value utf8 p :: (param_value utf8 <$> ps)).
    change (mjoin (value_bytes <$> (param_value utf8 p :: (param_value utf8 <$> ps)))) with
      (value_bytes (param_value utf8 p) ++ mjoin (value_bytes <$> (param_value utf8 <$> ps))).
    rewrite Forall_cons.
    assert (∀ x, bind_param utf8 p = Ok x ↔ value_fits (param_value utf8 p) ∧
      x = value_bytes (param_value utf8 p)) as Hp.
    { intros x. unfold bind_param. destruct (param_value utf8 p) as [v|]; cbn [value_fits value_bytes].
      - unfold int32, len. destruct (Z.ltb_spec (Z.of_nat (length v)) (2 ^ 31)).
        + destruct (Z.leb_spec (- 2 ^ 31) (Z.of_nat (length v))); [|lia]. cbn.
          rewrite Z.mod_small by lia. split; [by intros [= <-]|by intros [_ ->]].
        + rewrite andb_false_r. cbn. split; [done|lia].
      - split; [by intros [= <-]|by intros [_ ->]]. }
    split.
    + intros (x & Hx & (y & Hy & [= <-])%result_bind_ok)%result_bind_ok.
      apply Hp in Hx as [? ->]. apply IH in Hy as [? ->]. done.
    + intros [[Hv Hvs] ->]. apply result_bind_ok. eexists. split; [by apply Hp|].
      apply result_bind_ok. eexists. split; [by apply IH|done].
Qed.

Lemma read_bind_layout n vs :
  (0 <= n < 2 ^ 16)%Z → n = Z.of_nat (length vs) → Forall value_fits vs →
  read_bind ([NUL; NUL] ++ be_split 2 0 ++ be_split 2 n ++ mjoin (value_bytes <$> vs) ++ be_split 2 0)
    = Some vs.
Proof.
  intros Hn -> Hvs. unfold read_bind. cbn [app]. rewrite decide_True by done.
  rewrite take_be_split by done. cbn [mbind option_bind].
  rewrite take_be_split by done. cbn [mbind option_bind].
  rewrite Nat2Z.id, read_values_write by done. cbn [mbind option_bind].
  rewrite <-(app_nil_r (be_split 2 0)), take_be_split by done. cbn [mbind option_bind].
  by rewrite decide_True.
Qed.

(** ** Parsing without reading outside *)

Lemma index_nul_bound b off n : index_nul b off = Some n → off <= n < length b.
Proof.
  unfold index_nul. intros (i & Hi & ->)%fmap_Some.
  assert (i < length (drop off b)) as Hlt.
  { revert i Hi. generalize (drop off b). intros l. induction l as [|c l IH]; intros i; cbn [indexOf]; [done|].
    case_decide; [intros [= <-]; cbn; lia|]. intros (j & Hj%IH & ->)%fmap_Some. cbn. lia. }
  rewrite length_drop in Hlt. lia.
Qed.

Lemma parse_fields_safe count : ∀ body offset, ∃ fs, parse_fields utf8 count body offset = Ok fs ∧
  length fs <= count.
Proof.
  induction count as [|count IH]; intros body offset; cbn [parse_fields]; [by exists []|].
  destruct (Nat.leb_spec (length body) offset); [exists []; cbn; split; [done|lia]|].
  destruct (index_nul body offset) as [e|] eqn:E; [|exists []; cbn; split; [done|lia]].
  destruct (Nat.ltb_spec (length body) (e + 1 + 18)); [exists []; cbn; split; [done|lia]|].
  destruct (read_be_safe 4 body (e + 1 + 6)) as [oid Ho]; [lia|]. unfold readUInt32BE.
  rewrite Ho. cbn. destruct (IH body (e + 1 + 18)) as (fs & -> & Hle). cbn.
  eexists. split; [done|]. cbn. lia.
Qed.

Lemma parse_columns_safe count : ∀ i fields body offset row,
  ∃ r, parse_columns utf8 count i fields body offset row = Ok r ∧ length r <= length row + count.
Proof.
  induction count as [|count IH]; intros i fields body offset row; cbn [parse_columns].
  { exists row. split; [done|lia]. }
  destruct (Nat.ltb_spec (length body) (offset + 4)); [exists row; split; [done|lia]|].
  destruct (read_be_safe 4 body offset) as [z Hz]; [lia|].
  unfold readInt32BE, readUInt32BE. rewrite Hz. cbn [mbind result_bind].
  set (l := if (z <? 2 ^ 31)%Z then z else (z - 2 ^ 32)%Z).
  assert (∀ k v, length (jm_set k v row) <= S (length row)) as Hset.
  { intros k v. clear. induction row as [|[k' v'] row IHr]; cbn; [lia|]. case_decide; cbn; lia. }
  destruct (l =? -1)%Z.
  - destruct (IH (S i) fields body (offset + 4) (jm_set (col_name fields i) None row)) as (r & -> & Hr).
    exists r. split; [done|]. specialize (Hset (col_name fields i) None). lia.
  - destruct ((l <? 0) || _)%Z; [exists row; split; [done|lia]|].
    edestruct IH as (r & -> & Hr). exists r. split; [done|].
    etrans; [exact Hr|]. etrans; [apply Nat.add_le_mono_r, Hset|]. lia.
Qed.
End values.

(** ** Rows as a server writes them *)

Record column : Type := {
  c_name : bytes;
  c_table : bytes;      (* table and attribute number, 6 bytes *)
  c_oid : Z;
  c_format : bytes      (* size, modifier and format, 8 bytes *)
}.
Definition column_ok (utf8 : bytes → bytes) (c : column) : Prop :=
  (NUL ∉ c_name c) ∧ utf8 (c_name c) = c_name c ∧ length (c_table c) = 6 ∧
  (0 <= c_oid c < 2 ^ 32)%Z ∧ length (c_format c) = 8.
Definition value_ok (utf8 : bytes → bytes) (v : option bytes) : Prop :=
  match v with None => True | Some v => utf8 v = v ∧ (len v < 2 ^ 31)%Z end.

Definition encode_column (c : column) : bytes :=
  c_name c ++ [NUL] ++ c_table c ++ be_split 4 (c_oid c) ++ c_format c.
Definition encode_description (cs : list column) : bytes :=
  be_split 2 (Z.of_nat (length cs)) ++ mjoin (encode_column <$> cs).
Definition encode_row (vs : list (option bytes)) : bytes :=
  be_split 2 (Z.of_nat (length vs)) ++ mjoin (value_bytes <$> vs).
Definition described (c : column) : FieldDescriptor :=
  {| f_name := c_name c; typeOid := c_oid c |}.

Section rows.
Context (utf8 : bytes → bytes).

Lemma index_nul_at pre name rest :
  NUL ∉ name → index_nul (pre ++ name ++ NUL :: rest) (length pre) = Some (length pre + length name).
Proof.
  intros Hn. unfold index_nul. rewrite drop_app_length.
  by rewrite (proj2 (indexOf_spec NUL _ (length name))); [|exists name, rest].
Qed.

Lemma slice_at pre x rest : slice (pre ++ x ++ rest) (length pre) (length pre + length x) = x.
Proof.
  unfold slice. rewrite drop_app_length.
  replace (length pre + length x - length pre) with (length x) by lia. apply take_app_length.
Qed.

Lemma parse_fields_write cs : Forall (column_ok utf8) cs → ∀ pre,
  parse_fields utf8 (length cs) (pre ++ mjoin (encode_column <$> cs)) (length pre) =
    Ok (described <$> cs).
Proof.
  induction 1 as [|c cs (Hn & Hu & H6 & Ho & H8) _ IH]; intros pre; [done|].
  cbn [length parse_fields].
  change (mjoin (encode_column <$> c :: cs)) with (encode_column c ++ mjoin (encode_column <$> cs)).
  set (rest := mjoin (encode_column <$> cs)) in *.
  assert (length (encode_column c) = length (c_name c) + 19) as Hl.
  { unfold encode_column. rewrite !length_app, be_split_length, H6, H8. cbn. lia. }
  destruct (Nat.leb_spec (length (pre ++ encode_column c ++ rest)) (length pre)) as [H|_];
    [rewrite !length_app in H; lia|].
  assert (pre ++ encode_column c ++ rest = pre ++ c_name c ++ NUL :: (c_table c ++
    be_split 4 (c_oid c) ++ c_format c) ++ rest) as E.
  { unfold encode_column. by rewrite <-!(assoc_L (++)). }
  rewrite E at 1. rewrite index_nul_at by done.
  destruct (Nat.ltb_spec (length (pre ++ encode_column c ++ rest)) (length pre + length (c_name c) + 1 + 18))
    as [H|_]; [rewrite !length_app in H; lia|].
  assert (pre ++ encode_column c ++ rest = (pre ++ c_name c ++ [NUL] ++ c_table c) ++
    be_split 4 (c_oid c) ++ c_format c ++ rest) as E2.
  { unfold encode_column. by rewrite <-!(assoc_L (++)). }
  assert (readUInt32BE (pre ++ encode_column c ++ rest) (length pre + length (c_name c) + 1 + 6) =
    Ok (c_oid c)) as ->.
  { rewrite E2. replace (length pre + length (c_name c) + 1 + 6) with
      (length (pre ++ c_name c ++ [NUL] ++ c_table c)) by (rewrite !length_app; cbn; lia).
    unfold readUInt32BE. rewrite read_be_app by apply be_split_length. by rewrite be32. }
  cbn [mbind result_bind].
  replace (length pre + length (c_name c) + 1 + 18) with (length (pre ++ encode_column c))
    by (rewrite length_app; lia).
  rewrite (assoc_L (++) pre), IH. cbn. rewrite <-(assoc_L (++)), E, slice_at, Hu. done.
Qed.

Lemma parseRowDescription_write cs :
  Forall (column_ok utf8) cs → (Z.of_nat (length cs) < 2 ^ 16)%Z →
  parseRowDescription utf8 (encode_description cs) = Ok (described <$> cs).
Proof.
  intros Hcs Hn. unfold parseRowDescription, encode_description.
  set (h := be_split 2 (Z.of_nat (length cs))).
  assert (length h = 2) as H2 by apply be_split_length.
  rewrite length_app. destruct (Nat.ltb_spec (length h + length (mjoin (encode_column <$> cs))) 2); [lia|].
  pose proof (read_be_app 2 [] h (mjoin (encode_column <$> cs)) H2) as Hr. cbn [app length] in Hr.
  unfold readUInt16BE. rewrite Hr. cbn [mbind result_bind].
  unfold h at 1. rewrite be16, Nat2Z.id by lia. rewrite <-H2. by apply parse_fields_write.
Qed.

Lemma parse_columns_write vs : Forall (value_ok utf8) vs → ∀ fields i pre row,
  length fields = i + length vs →
  NoDup (jm_keys row ++ (f_name <$> drop i fields)) →
  parse_columns utf8 (length vs) i fields (pre ++ mjoin (value_bytes <$> vs)) (length pre) row =
    Ok (row ++ zip (f_name <$> drop i fields) vs).
Proof.
  induction 1 as [|v vs Hv _ IH]; intros fields i pre row Hl Hnd.
  { cbn. by rewrite zip_with_nil_r, app_nil_r. }
  cbn [length parse_columns].
  change (mjoin (value_bytes <$> v :: vs)) with (value_bytes v ++ mjoin (value_bytes <$> vs)).
  set (rest := mjoin (value_bytes <$> vs)) in *.
  destruct (lookup_lt_is_Some_2 fields i) as [f Hf]; [cbn in Hl; lia|].
  rewrite (drop_S _ _ _ Hf) in Hnd |- *. cbn [fmap list_fmap zip_with] in *.
  assert (col_name fields i = f_name f) as -> by (unfold col_name; by rewrite Hf).
  assert (f_name f ∉ jm_keys row) as Hfresh.
  { apply NoDup_app in Hnd as (_ & Hd & _). intros Hin. by eapply Hd; [|left]. }
  assert (∀ w, NoDup (jm_keys (row ++ [(f_name f, w)]) ++ (f_name <$> drop (S i) fields))) as Hnd'.
  { intros w. unfold jm_keys in *. rewrite fmap_app. cbn. by rewrite <-(assoc_L (++)). }
  destruct (Nat.ltb_spec (length (pre ++ value_bytes v ++ rest)) (length pre + 4)) as [H|_].
  { rewrite !length_app in H. destruct v; cbn [value_bytes] in H;
      rewrite ?length_app, be_split_length in H; lia. }
  assert (∀ z x, (0 <= z < 2 ^ 32)%Z → readInt32BE (pre ++ be_split 4 z ++ x) (length pre) =
    Ok (if (z <? 2 ^ 31) then z else z - 2 ^ 32)%Z) as Hread.
  { intros z x Hz. unfold readInt32BE, readUInt32BE. rewrite read_be_app by apply be_split_length.
    cbn [mbind result_bind]. by rewrite be32. }
  destruct v as [v|]; cbn [value_bytes value_ok] in *.
  - destruct Hv as [Hu Hfit]. rewrite <-!(assoc_L (++)). unfold len in *. rewrite Hread by lia.
    destruct (Z.ltb_spec (Z.of_nat (length v)) (2 ^ 31)); [|lia]. cbn [mbind result_bind].
    destruct (Z.eqb_spec (Z.of_nat (length v)) (-1)); [lia|].
    destruct (Z.ltb_spec (Z.of_nat (length v)) 0); [lia|]. cbn [orb].
    rewrite !length_app, be_split_length. rewrite Nat2Z.id.
    destruct (Z.ltb_spec (Z.of_nat (length pre + (4 + (length v + length rest))))
      (Z.of_nat (length pre + 4) + Z.of_nat (length v))); [lia|].
    set (pre' := pre ++ be_split 4 (Z.of_nat (length v))).
    assert (length pre + 4 = length pre') as -> by (unfold pre'; by rewrite length_app, be_split_length).
    rewrite (assoc_L (++) pre). fold pre'. rewrite slice_at, Hu, jm_set_None by by apply jm_get_None.
    rewrite (assoc_L (++) pre'), <-length_app, IH; [|cbn in Hl; lia|done].
    by rewrite <-(assoc_L (++)).
  - rewrite Hread by lia. cbn [mbind result_bind]. 
    change (if (2 ^ 32 - 1 <? 2 ^ 31) then 2 ^ 32 - 1 else 2 ^ 32 - 1 - 2 ^ 32)%Z with (-1)%Z.
    rewrite Z.eqb_refl, jm_set_None by by apply jm_get_None.
    replace (length pre + 4) with (length (pre ++ be_split 4 (2 ^ 32 - 1)))
      by (by rewrite length_app, be_split_length).
    rewrite (assoc_L (++) pre), IH; [|cbn in Hl; lia|done]. by rewrite <-(assoc_L (++)).
Qed.
End rows.

(** ** Properties *)

(** A message that a peer writes. *)
Definition wire_message (m : ascii * bytes) (b : bytes) : Prop := tagged m.1 m.2 = Ok b.

Lemma frames_messages ms bs :
  Forall2 wire_message ms bs → frames (mjoin bs) = (ms, []).
Proof.
  intros H. apply (drain_written next_frame). eapply Forall2_impl; [exact H|].
  intros [t body] b Hm rest. by apply tagged_frame.
Qed.

(** however the network cuts a sequence of messages into chunks, the connection takes
    exactly these messages from its buffer, in order, and keeps nothing. *)
Theorem messages_survive_chunking (ms : list (ascii * bytes)) (bs : list bytes)
    (chunks : list bytes)
    (Hms : Forall2 wire_message ms bs) (Hc : mjoin chunks = mjoin bs) :
  foldl (receive next_frame) ([], []) chunks = (ms, []).
Proof. rewrite (receive_drain next_frame), Hc. exact (frames_messages ms bs Hms). Qed.

(** a Bind message that is built is one frame from which the server reads back the
    values of the parameters, null or text; it is built exactly when there are fewer than
    2^16 of them, each below 2^31 bytes and all below the limit of a message. *)
Theorem bind_roundtrip (utf8 : bytes → bytes) (params : list param) :
  match buildBindMessage utf8 params with
  | Ok m => ∃ body, frames m = ([("B"%char, body)], []) ∧
      read_bind body = Some (param_value utf8 <$> params)
  | Throw _ => ¬ ((Z.of_nat (length params) < 2 ^ 16)%Z ∧
      Forall value_fits (param_value utf8 <$> params) ∧
      (12 + len (mjoin (value_bytes <$> (param_value utf8 <$> params))) < 2 ^ 32)%Z)
  end.
Proof.
  unfold buildBindMessage.
  destruct (uint16 (Z.of_nat (length params))) as [n|[]] eqn:En; cbn [mbind result_bind].
  2: { intros [Hn _]. unfold uint16 in En.
       destruct (Z.leb_spec 0 (Z.of_nat (length params))), (Z.ltb_spec (Z.of_nat (length params)) (2 ^ 16));
         done || lia. }
  apply uint16_ok in En as [Hn ->].
  destruct (bind_params utf8 params) as [ps|[]] eqn:Ep; cbn [mbind result_bind].
  2: { intros (_ & Hv & _).
       assert (bind_params utf8 params = Ok (mjoin (value_bytes <$> (param_value utf8 <$> params)))) as E
         by by apply bind_params_ok. congruence. }
  apply bind_params_ok in Ep as [Hv ->].
  destruct (tagged "B"%char _) as [m|[]] eqn:Et.
  - pose proof (tagged_frame _ _ _ [] Et) as Hf. rewrite app_nil_r in Hf.
    eexists. unfold frames. rewrite (drain_unfold next_frame), Hf. split; [done|].
    apply read_bind_layout; [done| |done]. by rewrite length_fmap.
  - intros (_ & _ & Hl). unfold tagged, len in *.
    rewrite !length_app, !be_split_length in Et. cbn [length] in Et. unfold uint32 in Et.
    match type of Et with context [(?z <? 2 ^ 32)%Z] => destruct (Z.ltb_spec z (2 ^ 32)); [|lia] end.
    match type of Et with context [(0 <=? ?z)%Z] => destruct (Z.leb_spec 0 z); [|lia] end.
    done.
Qed.

(** the row description and the rows of a result are read as the server wrote them: a
    row is the map from the names of the columns to their values. *)
Theorem rows_roundtrip (utf8 : bytes → bytes) (cols : list column) (vs : list (option bytes))
    (Hcols : Forall (column_ok utf8) cols) (Hnames : NoDup (c_name <$> cols))
    (Hn : (Z.of_nat (length cols) < 2 ^ 16)%Z)
    (Hlen : length vs = length cols) (Hvs : Forall (value_ok utf8) vs) :
  ∃ fields, parseRowDescription utf8 (encode_description cols) = Ok fields ∧
    parseDataRow utf8 fields (encode_row vs) = Ok (zip (c_name <$> cols) vs).
Proof.
  exists (described <$> cols). split; [by apply parseRowDescription_write|].
  unfold parseDataRow, encode_row. set (h := be_split 2 (Z.of_nat (length vs))).
  assert (length h = 2) as H2 by apply be_split_length.
  rewrite length_app. destruct (Nat.ltb_spec (length h + length (mjoin (value_bytes <$> vs))) 2); [lia|].
  pose proof (read_be_app 2 [] h (mjoin (value_bytes <$> vs)) H2) as Hr. cbn [app length] in Hr.
  unfold readUInt16BE. rewrite Hr. cbn [mbind result_bind].
  unfold h at 1. rewrite be16, Nat2Z.id by lia. rewrite <-H2.
  assert (f_name <$> drop 0 (described <$> cols) = c_name <$> cols) as E
    by (rewrite drop_0, <-list_fmap_compose; done).
  rewrite (parse_columns_write utf8 vs Hvs _ 0 h []); [by rewrite E|..].
  - by rewrite length_fmap.
  - by rewrite E.
Qed.

(** Reading a row description or a row never reads outside the message. *)
Lemma rows_bounded (utf8 : bytes → bytes) (fields : list FieldDescriptor) (body : bytes) :
  (∃ fs, parseRowDescription utf8 body = Ok fs ∧ (Z.of_nat (length fs) < 2 ^ 16)%Z) ∧
  (∃ row, parseDataRow utf8 fields body = Ok row ∧ (Z.of_nat (length row) < 2 ^ 16)%Z).
Proof.
  assert (length body < 2 ∨ ∃ z, readUInt16BE body 0 = Ok z ∧ 2 <= length body ∧ (0 <= z < 2 ^ 16)%Z)
    as [Hs|(z & Hz & Hl & Hb)].
  { destruct (le_lt_dec 2 (length body)) as [Hl|]; [right|by left].
    unfold readUInt16BE, read_be. destruct (Nat.leb_spec (0 + 2) (length body)); [|lia].
    eexists. split; [done|]. split; [done|].
    pose proof (be_combine_range (take 2 (drop 0 body))) as Hr.
    rewrite drop_0, length_take_le in Hr by lia. by rewrite drop_0. }
  - unfold parseRowDescription, parseDataRow. destruct (Nat.ltb_spec (length body) 2); [|lia].
    split; exists []; split; done.
  - unfold parseRowDescription, parseDataRow. destruct (Nat.ltb_spec (length body) 2); [lia|].
    rewrite Hz. cbn [mbind result_bind]. split.
    + destruct (parse_fields_safe utf8 (Z.to_nat z) body 2) as (fs & -> & ?). exists fs.
      split; [done|lia].
    + destruct (parse_columns_safe utf8 (Z.to_nat z) 0 fields body 2 []) as (r & -> & ?). exists r.
      cbn [length] in *. split; [done|lia].
Qed.

Lemma parse_description_total utf8 body : ∃ f, parseRowDescription utf8 body = Ok f.
Proof. destruct (rows_bounded utf8 [] body) as [(f & -> & _) _]. by exists f. Qed.
Lemma parse_row_total utf8 fields body : ∃ row, parseDataRow utf8 fields body = Ok row.
Proof. destruct (rows_bounded utf8 fields body) as [_ (row & -> & _)]. by exists row. Qed.

(** whatever bytes a server sends, reading a row description or a row never reads
    outside the message: it gives at most as many fields or columns as the count says. *)
Theorem malformed_rows_are_safe (utf8 : bytes → bytes) (fields : list FieldDescriptor) (body : bytes) :
  (∃ fs, parseRowDescription utf8 body = Ok fs ∧ (Z.of_nat (length fs) < 2 ^ 16)%Z) ∧
  (∃ row, parseDataRow utf8 fields body = Ok row ∧ (Z.of_nat (length row) < 2 ^ 16)%Z).
Proof. apply rows_bounded. Qed.

(** ** Examples *)

Definition sample_columns : list column :=
  [{| c_name := str "id"; c_table := be_split 6 0; c_oid := 23; c_format := be_split 8 0 |};
   {| c_name := str "name"; c_table := be_split 6 0; c_oid := 25; c_format := be_split 8 0 |}].

Lemma rows_roundtrip_witness :
  ∃ fields, parseRowDescription id (encode_description sample_columns) = Ok fields ∧
    parseDataRow id fields (encode_row [Some (str "7"); None]) =
      Ok [(str "id", Some (str "7")); (str "name", None)].
Proof.
  refine (rows_roundtrip id sample_columns [Some (str "7"); None] _ _ _ eq_refl _).
  - repeat (apply Forall_cons_2; [split_and!; [apply (bool_decide_unpack _); vm_compute; exact I|
      reflexivity|reflexivity|vm_compute; discriminate|reflexivity|reflexivity]|]). constructor.
  - apply (bool_decide_unpack _). vm_compute. exact I.
  - reflexivity.
  - repeat (apply Forall_cons_2; [try (split; reflexivity); exact I|]). constructor.
Defined.

Lemma messages_survive_chunking_witness :
  ∃ b1 b2, wire_message ("Q"%char, str "x") b1 ∧ wire_message ("S"%char, []) b2 ∧
    foldl (receive next_frame) ([], []) [take 3 b1; drop 3 b1 ++ take 1 b2; drop 1 b2] =
      ([("Q"%char, str "x"); ("S"%char, [])], []).
Proof.
  destruct (tagged "Q"%char (str "x")) as [b1|] eqn:E1; [|vm_compute in E1; discriminate E1].
  destruct (tagged "S"%char []) as [b2|] eqn:E2; [|vm_compute in E2; discriminate E2].
  exists b1, b2. split; [exact E1|]. split; [exact E2|].
  refine (messages_survive_chunking _ [b1; b2] _ _ _).
  - repeat constructor; assumption.
  - vm_compute in E1, E2. injection E1 as <-. injection E2 as <-. reflexivity.
Defined.
