(* ===== verification/PgConnection.v ===== *)
(** * The PostgreSQL connection

    Models [PgConnection] of src/packages/postgres/src/wire.ts: the states of a connection,
    the gate that serializes commands, the handling of messages with the callbacks of
    queries and streams, and authentication.  An event is a call, a continuation after the
    gate (a microtask), a chunk of the socket, its error or its end; what the code does to
    the outside (bytes written, promises settled, rows pushed) is a log.  Cryptography,
    base64, the normal form of the password and the nonce are arguments.  The timeout of
    [connect] and the back-pressure of streams are not modelled. *)

From Stdlib Require Import Ascii String.
From S2P Require Import Prelude JsText JsMap Bytes PgWire.

#[local] Open Scope list_scope.
Open Scope nat_scope.

Abbreviation bytes := (list ascii) (only parsing).

(** ** Data *)

Inductive PgState : Type := connecting | authenticating | ready | query | closed.

#[export] Instance pgstate_eq_dec : EqDecision PgState.
Proof. solve_decision. Defined.

Inductive auth_failure : Type :=
| MD5Unsupported | NoScramMechanism | UnexpectedContinue | UnexpectedFinal | MalformedFirst
| NonceMismatch | BadSaltOrIterations | PasswordProhibited | NoVerifier (reason : bytes)
| SignatureMismatch | UnsupportedMethod (method : Z) | ResponseTooLarge.

Inductive pg_error : Type :=
| ServerError (message detail : bytes)
| NotReady (s : PgState)
| SocketFailed
| ClosedUnexpectedly
| OutOfRange
| AuthFailed (reason : auth_failure).

Inductive command : Type :=
| Query (id : nat) (sql : bytes) (params : list param)
| Stream (id : nat) (sql : bytes).

Abbreviation PgRow := (list (bytes * option bytes)).

Inductive effect : Type :=
| Write (b : bytes)
| Destroy
| Connected
| ConnectRejected (e : pg_error)
| Resolved (id : nat) (rows : list PgRow) (command : bytes) (rowCount : Z)
| Rejected (id : nat) (e : pg_error)
| StreamRow (id : nat) (row : PgRow)
| StreamEnd (id : nat)
| StreamFailed (id : nat) (e : pg_error).

Record ScramState : Type := {
  clientFirstMessageBare : bytes;
  clientNonce : bytes;
  serverFirstMessage : bytes;
  saltedPassword : bytes;
  authMessage : bytes
}.

Record Conn : Type := {
  state : PgState;
  buffer : bytes;
  fields : list FieldDescriptor;
  scramState : option ScramState;
  queryResolve : option nat;
  queryReject : option nat;
  queryRows : list PgRow;
  queryCommand : bytes;
  streamTarget : option nat;
  authResolve : bool;
  authReject : bool;
  busy : bool;
  gateWaiters : list command;
  tasks : list command;          (* continuations of [_acquire] *)
  log : list effect
}.

Record PgConnectOptions : Type := { user : bytes; password : bytes; database : bytes; nonce : bytes }.

Definition set_state (s : PgState) (c : Conn) : Conn :=
  {| state := s; buffer := buffer c; fields := fields c; scramState := scramState c;
     queryResolve := queryResolve c; queryReject := queryReject c; queryRows := queryRows c;
     queryCommand := queryCommand c; streamTarget := streamTarget c; authResolve := authResolve c;
     authReject := authReject c; busy := busy c; gateWaiters := gateWaiters c; tasks := tasks c;
     log := log c |}.
Definition set_buffer (b : bytes) (c : Conn) : Conn :=
  {| state := state c; buffer := b; fields := fields c; scramState := scramState c;
     queryResolve := queryResolve c; queryReject := queryReject c; queryRows := queryRows c;
     queryCommand := queryCommand c; streamTarget := streamTarget c; authResolve := authResolve c;
     authReject := authReject c; busy := busy c; gateWaiters := gateWaiters c; tasks := tasks c;
     log := log c |}.
Definition set_fields (f : list FieldDescriptor) (c : Conn) : Conn :=
  {| state := state c; buffer := buffer c; fields := f; scramState := scramState c;
     queryResolve := queryResolve c; queryReject := queryReject c; queryRows := queryRows c;
     queryCommand := queryCommand c; streamTarget := streamTarget c; authResolve := authResolve c;
     authReject := authReject c; busy := busy c; gateWaiters := gateWaiters c; tasks := tasks c;
     log := log c |}.
Definition set_scram (s : option ScramState) (c : Conn) : Conn :=
  {| state := state c; buffer := buffer c; fields := fields c; scramState := s;
     queryResolve := queryResolve c; queryReject := queryReject c; queryRows := queryRows c;
     queryCommand := queryCommand c; streamTarget := streamTarget c; authResolve := authResolve c;
     authReject := authReject c; busy := busy c; gateWaiters := gateWaiters c; tasks := tasks c;
     log := log c |}.
(** [queryResolve], [queryReject] and [streamTarget]. *)
Definition set_target (res rej str : option nat) (c : Conn) : Conn :=
  {| state := state c; buffer := buffer c; fields := fields c; scramState := scramState c;
     queryResolve := res; queryReject := rej; queryRows := queryRows c;
     queryCommand := queryCommand c; streamTarget := str; authResolve := authResolve c;
     authReject := authReject c; busy := busy c; gateWaiters := gateWaiters c; tasks := tasks c;
     log := log c |}.
Definition set_rows (r : list PgRow) (c : Conn) : Conn :=
  {| state := state c; buffer := buffer c; fields := fields c; scramState := scramState c;
     queryResolve := queryResolve c; queryReject := queryReject c; queryRows := r;
     queryCommand := queryCommand c; streamTarget := streamTarget c; authResolve := authResolve c;
     authReject := authReject c; busy := busy c; gateWaiters := gateWaiters c; tasks := tasks c;
     log := log c |}.
Definition set_command (cmd : bytes) (c : Conn) : Conn :=
  {| state := state c; buffer := buffer c; fields := fields c; scramState := scramState c;
     queryResolve := queryResolve c; queryReject := queryReject c; queryRows := queryRows c;
     queryCommand := cmd; streamTarget := streamTarget c; authResolve := authResolve c;
     authReject := authReject c; busy := busy c; gateWaiters := gateWaiters c; tasks := tasks c;
     log := log c |}.
Definition set_auth (res rej : bool) (c : Conn) : Conn :=
  {| state := state c; buffer := buffer c; fields := fields c; scramState := scramState c;
     queryResolve := queryResolve c; queryReject := queryReject c; queryRows := queryRows c;
     queryCommand := queryCommand c; streamTarget := streamTarget c; authResolve := res;
     authReject := rej; busy := busy c; gateWaiters := gateWaiters c; tasks := tasks c;
     log := log c |}.
Definition set_gate (b : bool) (ws ts : list command) (c : Conn) : Conn :=
  {| state := state c; buffer := buffer c; fields := fields c; scramState := scramState c;
     queryResolve := queryResolve c; queryReject := queryReject c; queryRows := queryRows c;
     queryCommand := queryCommand c; streamTarget := streamTarget c; authResolve := authResolve c;
     authReject := authReject c; busy := b; gateWaiters := ws; tasks := ts; log := log c |}.
Definition emit (e : effect) (c : Conn) : Conn :=
  {| state := state c; buffer := buffer c; fields := fields c; scramState := scramState c;
     queryResolve := queryResolve c; queryReject := queryReject c; queryRows := queryRows c;
     queryCommand := queryCommand c; streamTarget := streamTarget c; authResolve := authResolve c;
     authReject := authReject c; busy := busy c; gateWaiters := gateWaiters c; tasks := tasks c;
     log := log c ++ [e] |}.

Definition new_conn : Conn :=
  {| state := connecting; buffer := []; fields := []; scramState := None; queryResolve := None;
     queryReject := None; queryRows := []; queryCommand := []; streamTarget := None;
     authResolve := true; authReject := true; busy := false; gateWaiters := []; tasks := [];
     log := [] |}.

(** ** The gate *)

Definition acquire (cmd : command) (c : Conn) : Conn :=
  if busy c then set_gate true (gateWaiters c ++ [cmd]) (tasks c) c
  else set_gate true (gateWaiters c) (tasks c ++ [cmd]) c.
Definition release (c : Conn) : Conn :=
  match gateWaiters c with
  | next :: ws => set_gate (busy c) ws (tasks c ++ [next]) c
  | [] => set_gate false [] (tasks c) c
  end.
Definition drainGate (c : Conn) : Conn := set_gate false [] (tasks c ++ gateWaiters c) c.

(** ** Settling *)

Definition reject_auth (e : pg_error) (c : Conn) : Conn :=
  if authReject c then set_auth (authResolve c) false (emit (ConnectRejected e) c) else c.

(** Reject the query, fail the stream: what an error or the end of the socket does. *)
Definition fail_targets (e : pg_error) (c : Conn) : Conn :=
  let c := match queryReject c with
           | Some id => set_target (queryResolve c) None (streamTarget c) (emit (Rejected id e) c)
           | None => c
           end in
  match streamTarget c with
  | Some id => set_target (queryResolve c) (queryReject c) None (emit (StreamFailed id e) c)
  | None => c
  end.

(** The number that a command tag ends in, exactly (a [Number] is exact below 2^53). *)
Definition tag_count (cmd : bytes) : option Z :=
  match (span_digits (drop_spaces (reverse cmd))).1 with
  | [] => None
  | ds => Some (digits_value (reverse ds))
  end.

(** ** Messages *)

Section connection.
Context (utf8 : bytes → bytes).
Context (hmac : bytes → bytes → bytes) (sha256 : bytes → bytes) (hi : bytes → bytes → Z → bytes).
Context (base64 unbase64 : bytes → bytes) (nfkc : bytes → bytes) (code_points : bytes → list Z).

Definition readyForQuery (c : Conn) : Conn :=
  match state c with
  | authenticating =>
      let c := set_state ready c in
      if authResolve c then set_auth false (authReject c) (emit Connected c) else c
  | s =>
      let c :=
        if decide (s = query) then
          let rows := queryRows c in
          let cmd := queryCommand c in
          let settle :=
            match streamTarget c, queryResolve c with
            | Some id, _ => [StreamEnd id]
            | None, Some id =>
                [Resolved id rows cmd (default (Z.of_nat (length rows)) (tag_count cmd))]
            | None, None => []
            end in
          let c := set_fields [] (set_target None None None (set_command [] (set_rows []
                     (set_state ready c)))) in
          foldl (λ c e, emit e c) c settle
        else c in
      if busy c then release c else c
  end.

Definition dataRow (body : bytes) (c : Conn) : result range_error Conn :=
  row ← parseDataRow utf8 (fields c) body;
  Ok (match streamTarget c with
      | Some id => emit (StreamRow id row) c
      | None => set_rows (queryRows c ++ [row]) c
      end).

(** The tag without its final zero. *)
Definition drop_nul (b : bytes) : bytes :=
  match last b with
  | Some c => if decide (c = NUL) then removelast b else b
  | None => b
  end.

Definition errorResponse (body : bytes) (c : Conn) : Conn :=
  let e := ServerError (parseError utf8 body).1 (parseError utf8 body).2 in
  match state c with
  | authenticating => reject_auth e c
  | s =>
      let c := if decide (s = query) then set_state ready c else c in
      match streamTarget c, queryReject c with
      | Some id, _ => set_target None (queryReject c) None (emit (StreamFailed id e) c)
      | None, Some id => set_target None None None (emit (Rejected id e) c)
      | None, None => set_target None None None c
      end
  end.

(** *** Authentication *)

Definition write (m : result range_error bytes) (c : Conn) : result range_error Conn :=
  b ← m; Ok (emit (Write b) c).

Definition sasl_start (opts : PgConnectOptions) (body : bytes) (c : Conn) : result range_error Conn :=
  if decide (str "SCRAM-SHA-256" ∈ parseSASLMechanisms utf8 (drop 4 body)) then
    let bare := str "n=" ++ user opts ++ str ",r=" ++ nonce opts in
    let c := set_scram (Some {| clientFirstMessageBare := bare; clientNonce := nonce opts;
                                serverFirstMessage := []; saltedPassword := []; authMessage := [] |}) c in
    write (buildSASLInitialResponse (str "SCRAM-SHA-256") (str "n,," ++ bare)) c
  else Ok (reject_auth (AuthFailed NoScramMechanism) c).

(** What the client answers to the first message of the server. *)
Definition clientFinal (salted : bytes) (s : ScramState) (serverFirst serverNonce : bytes) :
    bytes * bytes :=
  let withoutProof := str "c=biws,r=" ++ serverNonce in
  let authMessage := clientFirstMessageBare s ++ str "," ++ serverFirst ++ str "," ++ withoutProof in
  let clientKey := hmac salted (str "Client Key") in
  let signature := hmac (sha256 clientKey) authMessage in
  (authMessage, withoutProof ++ str ",p=" ++ base64 (xorBuffers clientKey signature)).

Definition nonempty (o : option bytes) : option bytes :=
  match o with Some [] => None | _ => o end.

Definition sasl_continue (opts : PgConnectOptions) (body : bytes) (c : Conn) : result range_error Conn :=
  match scramState c with
  | None => Ok (reject_auth (AuthFailed UnexpectedContinue) c)
  | Some s =>
      let first := utf8 (drop 4 body) in
      let s := {| clientFirstMessageBare := clientFirstMessageBare s; clientNonce := clientNonce s;
                  serverFirstMessage := first; saltedPassword := saltedPassword s;
                  authMessage := authMessage s |} in
      let c := set_scram (Some s) c in
      let params := parseScramParams first in
      match nonempty (jm_get (str "r") params), nonempty (jm_get (str "s") params),
            nonempty (jm_get (str "i") params) with
      | Some r, Some salt64, Some its =>
          if negb (is_prefix (clientNonce s) r) then Ok (reject_auth (AuthFailed NonceMismatch) c)
          else
            let salt := unbase64 salt64 in
            match parseInt its with
            | Some iterations =>
                if bool_decide (salt = []) || (iterations <? 4096)%Z || (10000000 <? iterations)%Z
                then Ok (reject_auth (AuthFailed BadSaltOrIterations) c)
                else
                  let pw := nfkc (password opts) in
                  if negb (validateSASLprep (code_points pw))
                  then Ok (reject_auth (AuthFailed PasswordProhibited) c)
                  else
                    let salted := hi pw salt iterations in
                    let final := clientFinal salted s first r in
                    let s := {| clientFirstMessageBare := clientFirstMessageBare s;
                                clientNonce := clientNonce s; serverFirstMessage := first;
                                saltedPassword := salted; authMessage := final.1 |} in
                    write (buildSASLResponse final.2) (set_scram (Some s) c)
            | None => Ok (reject_auth (AuthFailed BadSaltOrIterations) c)
            end
      | _, _, _ => Ok (reject_auth (AuthFailed MalformedFirst) c)
      end
  end.

Definition serverSignature (s : ScramState) : bytes :=
  hmac (hmac (saltedPassword s) (str "Server Key")) (authMessage s).

Definition sasl_final (body : bytes) (c : Conn) : Conn :=
  match scramState c with
  | None => reject_auth (AuthFailed UnexpectedFinal) c
  | Some s =>
      let params := parseScramParams (utf8 (drop 4 body)) in
      match nonempty (jm_get (str "v") params) with
      | None =>
          reject_auth (AuthFailed (NoVerifier (default (str "SCRAM authentication failed (no verifier)")
            (jm_get (str "e") params)))) c
      | Some v =>
          if decide (unbase64 v = serverSignature s) then set_scram None c
          else reject_auth (AuthFailed SignatureMismatch) c
      end
  end.

Definition handleAuth (opts : PgConnectOptions) (body : bytes) (c : Conn) : result range_error Conn :=
  t ← readUInt32BE body 0;
  if (t =? 0)%Z then Ok c
  else if (t =? 3)%Z then write (buildPasswordMessage (password opts)) c
  else if (t =? 5)%Z then Ok (emit Destroy (reject_auth (AuthFailed MD5Unsupported) c))
  else if (t =? 10)%Z then sasl_start opts body c
  else if (t =? 11)%Z then sasl_continue opts body c
  else if (t =? 12)%Z then Ok (sasl_final body c)
  else Ok (reject_auth (AuthFailed (UnsupportedMethod t)) c).

Definition handleMessage (opts : PgConnectOptions) (t : ascii) (body : bytes) (c : Conn) :
    result range_error Conn :=
  if decide (t = "R"%char) then handleAuth opts body c
  else if decide (t = "Z"%char) then Ok (readyForQuery c)
  else if decide (t = "T"%char) then
    f ← parseRowDescription utf8 body; Ok (set_fields f c)
  else if decide (t = "D"%char) then dataRow body c
  else if decide (t = "C"%char) then Ok (set_command (drop_nul (utf8 body)) c)
  else if decide (t = "I"%char) then Ok (set_command [] c)
  else if decide (t = "E"%char) then Ok (errorResponse body c)
  else Ok c.

Fixpoint processBuffer (fuel : nat) (opts : PgConnectOptions) (c : Conn) : result range_error Conn :=
  match fuel with
  | O => Ok c
  | S fuel =>
      match next_frame (buffer c) with
      | None => Ok c
      | Some (t, body, rest) =>
          c ← handleMessage opts t body (set_buffer rest c); processBuffer fuel opts c
      end
  end.

Definition MAX_AUTH_BUFFER : Z := 64 * 1024.

(** ** Events *)

(** What is written for a command: a simple query, or the extended protocol when there are
    parameters. *)
Definition command_message (cmd : command) : result range_error bytes :=
  match cmd with
  | Query _ sql ((_ :: _) as params) =>
      p ← buildParseMessage sql; d ← buildDescribeMessage; b ← buildBindMessage utf8 params;
      e ← buildExecuteMessage; s ← buildSyncMessage; Ok (p ++ d ++ b ++ e ++ s)
  | Query _ sql [] | Stream _ sql => buildQueryMessage sql
  end.

(** The continuation of a call that holds the gate. *)
Definition dispatch (cmd : command) (c : Conn) : Conn :=
  if decide (state c = ready) then
    match cmd with
    | Query id sql params =>
        let c := set_rows [] (set_target (Some id) (Some id) None (set_state query c)) in
        match command_message cmd with
        | Ok m => emit (Write m) c
        | Throw _ => emit (Rejected id OutOfRange) c
        end
    | Stream id sql =>
        let c := set_rows [] (set_target None None (Some id) (set_state query c)) in
        match command_message cmd with
        | Ok m => emit (Write m) c
        | Throw _ => release (emit (StreamFailed id OutOfRange) c)
        end
    end
  else
    match cmd with
    | Query id _ _ => emit (Rejected id (NotReady (state c))) (release c)
    | Stream id _ => release (emit (StreamFailed id (NotReady (state c))) c)
    end.

Inductive event : Type :=
| SocketConnect
| Chunk (b : bytes)
| SocketError
| SocketClose
| Call (cmd : command)
| Continue                (* the oldest continuation runs *)
| CloseCall.

Definition step (opts : PgConnectOptions) (c : Conn) (e : event) : result range_error Conn :=
  match e with
  | SocketConnect => write (buildStartupMessage (user opts) (database opts)) (set_state authenticating c)
  | Chunk b =>
      if decide (state c = authenticating ∧ (MAX_AUTH_BUFFER < len (buffer c) + len b)%Z)
      then Ok (reject_auth (AuthFailed ResponseTooLarge) (emit Destroy c))
      else
        let c := set_buffer (buffer c ++ b) c in processBuffer (length (buffer c)) opts c
  | SocketError =>
      Ok (drainGate (fail_targets SocketFailed (reject_auth SocketFailed (set_state closed c))))
  | SocketClose => Ok (drainGate (fail_targets ClosedUnexpectedly (set_state closed c)))
  | Call cmd => Ok (acquire cmd c)
  | Continue =>
      match tasks c with
      | cmd :: ts => Ok (dispatch cmd (set_gate (busy c) (gateWaiters c) ts c))
      | [] => Ok c
      end
  | CloseCall =>
      if decide (state c = closed) then Ok c
      else write buildTerminateMessage (set_state closed c)
  end.

Fixpoint run (opts : PgConnectOptions) (c : Conn) (l : list event) : result range_error Conn :=
  match l with
  | [] => Ok c
  | e :: l => c ← step opts c e; run opts c l
  end.
End connection.

(** ** What a response means

    The reading of a response by itself: the effects for its command, row after row, with
    the description and the tag that are current. *)

Record reader : Type := {
  rd_fields : list FieldDescriptor;
  rd_rows : list PgRow;
  rd_command : bytes;
  rd_failed : bool
}.

Section responses.
Context (utf8 : bytes → bytes).
Abbreviation message := (ascii * bytes)%type.

Definition fail_effect (cmd : command) (e : pg_error) : effect :=
  match cmd with Query id _ _ => Rejected id e | Stream id _ => StreamFailed id e end.

Definition read_msg (cmd : command) (m : message) (rd : reader) : list effect * reader :=
  let '(t, body) := m in
  if decide (t = "T"%char) then
    match parseRowDescription utf8 body with
    | Ok f => ([], {| rd_fields := f; rd_rows := rd_rows rd; rd_command := rd_command rd;
                      rd_failed := rd_failed rd |})
    | Throw _ => ([], rd)
    end
  else if decide (t = "D"%char) then
    match parseDataRow utf8 (rd_fields rd) body with
    | Ok row =>
        match cmd, rd_failed rd with
        | Stream id _, false => ([StreamRow id row], rd)
        | _, _ => ([], {| rd_fields := rd_fields rd; rd_rows := rd_rows rd ++ [row];
                          rd_command := rd_command rd; rd_failed := rd_failed rd |})
        end
    | Throw _ => ([], rd)
    end
  else if decide (t = "C"%char) then
    ([], {| rd_fields := rd_fields rd; rd_rows := rd_rows rd;
            rd_command := drop_nul (utf8 body); rd_failed := rd_failed rd |})
  else if decide (t = "I"%char) then
    ([], {| rd_fields := rd_fields rd; rd_rows := rd_rows rd; rd_command := [];
            rd_failed := rd_failed rd |})
  else if decide (t = "E"%char) then
    if rd_failed rd then ([], rd)
    else ([fail_effect cmd (ServerError (parseError utf8 body).1 (parseError utf8 body).2)],
          {| rd_fields := rd_fields rd; rd_rows := rd_rows rd; rd_command := rd_command rd;
             rd_failed := true |})
  else ([], rd).

Fixpoint read_msgs (cmd : command) (ms : list message) (rd : reader) : list effect * reader :=
  match ms with
  | [] => ([], rd)
  | m :: ms =>
      let r := read_msg cmd m rd in
      let r' := read_msgs cmd ms r.2 in (r.1 ++ r'.1, r'.2)
  end.

Definition final_effect (cmd : command) (rd : reader) : list effect :=
  if rd_failed rd then []
  else match cmd with
       | Query id _ _ =>
           [Resolved id (rd_rows rd) (rd_command rd)
              (default (Z.of_nat (length (rd_rows rd))) (tag_count (rd_command rd)))]
       | Stream id _ => [StreamEnd id]
       end.

Definition start_reading (f : list FieldDescriptor) (tag : bytes) : reader :=
  {| rd_fields := f; rd_rows := []; rd_command := tag; rd_failed := false |}.

Definition meaning_from (cmd : command) (ms : list message) (rd : reader) : list effect :=
  (read_msgs cmd ms rd).1 ++ final_effect cmd (read_msgs cmd ms rd).2.
Definition meaning (cmd : command) (ms : list message) : list effect :=
  meaning_from cmd ms (start_reading [] []).

(** A response, without its final ReadyForQuery: it describes its rows and says how it
    ended, so that it means the same whatever came before. *)
Definition plain (m : message) : Prop := m.1 ≠ "R"%char ∧ m.1 ≠ "Z"%char.
Definition complete (ms : list message) : Prop :=
  Forall plain ms ∧ ∀ cmd f tag, meaning_from cmd ms (start_reading f tag) = meaning cmd ms.

(** A simple criterion: rows come after a description, and there is a tag, an empty answer
    or an error. *)
Fixpoint rows_described (ms : list message) : bool :=
  match ms with
  | [] => true
  | m :: ms => if decide (m.1 = "T"%char) then true
               else if decide (m.1 = "D"%char) then false else rows_described ms
  end.
Definition ends (m : message) : Prop := m.1 = "C"%char ∨ m.1 = "I"%char ∨ m.1 = "E"%char.

Lemma read_msgs_app cmd ms ms' : ∀ rd,
  read_msgs cmd (ms ++ ms') rd =
    ((read_msgs cmd ms rd).1 ++ (read_msgs cmd ms' (read_msgs cmd ms rd).2).1,
     (read_msgs cmd ms' (read_msgs cmd ms rd).2).2).
Proof.
  induction ms as [|m ms IH]; intros rd; cbn [app read_msgs]; [apply surjective_pairing|].
  rewrite IH. cbn [fst snd]. by rewrite (assoc_L (++)).
Qed.

(** *** Responses that stand by themselves *)

Definition same_result (rd rd' : reader) : Prop :=
  rd_rows rd = rd_rows rd' ∧ rd_failed rd = rd_failed rd'.

Lemma read_msg_same cmd m rd rd' :
  same_result rd rd' → (rd_fields rd = rd_fields rd' ∨ m.1 ≠ "D"%char) →
  (read_msg cmd m rd).1 = (read_msg cmd m rd').1 ∧
  same_result (read_msg cmd m rd).2 (read_msg cmd m rd').2 ∧
  (rd_fields rd = rd_fields rd' ∨ m.1 = "T"%char →
   rd_fields (read_msg cmd m rd).2 = rd_fields (read_msg cmd m rd').2) ∧
  (rd_failed rd = true → rd_failed (read_msg cmd m rd).2 = true) ∧
  (ends m ∨ rd_command rd = rd_command rd' ∨ rd_failed rd = true →
   rd_command (read_msg cmd m rd).2 = rd_command (read_msg cmd m rd').2 ∨
   rd_failed (read_msg cmd m rd).2 = true).
Proof.
  destruct m as [t body], rd as [f r tag fl], rd' as [f' r' tag' fl']. unfold same_result, ends.
  cbn [fst snd rd_rows rd_failed rd_fields rd_command]. intros [<- <-] Hf. unfold read_msg.
  case_decide as HT; [subst t|].
  { destruct (parse_description_total utf8 body) as [g ->]. cbn. naive_solver. }
  case_decide as HD; [subst t|].
  { destruct Hf as [->|]; [|done]. cbn [rd_fields].
    destruct (parse_row_total utf8 f' body) as [row ->].
    destruct cmd, fl; cbn; naive_solver. }
  case_decide as HC; [subst t; cbn; naive_solver|].
  case_decide as HI; [subst t; cbn; naive_solver|].
  case_decide as HE; [subst t; destruct fl; cbn; naive_solver|].
  cbn. naive_solver.
Qed.

Lemma read_same cmd ms : ∀ rd rd',
  same_result rd rd' → (rd_fields rd = rd_fields rd' ∨ rows_described ms = true) →
  (read_msgs cmd ms rd).1 = (read_msgs cmd ms rd').1 ∧
  same_result (read_msgs cmd ms rd).2 (read_msgs cmd ms rd').2 ∧
  (Exists ends ms ∨ rd_command rd = rd_command rd' ∨ rd_failed rd = true →
   rd_command (read_msgs cmd ms rd).2 = rd_command (read_msgs cmd ms rd').2 ∨
   rd_failed (read_msgs cmd ms rd).2 = true).
Proof.
  induction ms as [|m ms IH]; intros rd rd' Hsame Hd; cbn [read_msgs].
  { split; [done|]. split; [done|]. intros [H|H]; [by inversion H|done]. }
  assert (rd_fields rd = rd_fields rd' ∨ m.1 ≠ "D"%char) as Hm.
  { destruct Hd as [|Hd]; [by left|right]. intros E. cbn in Hd. rewrite E in Hd. done. }
  destruct (read_msg_same cmd m rd rd' Hsame Hm) as (He & Hs & Hf & Hfl & Hc).
  assert (rd_fields (read_msg cmd m rd).2 = rd_fields (read_msg cmd m rd').2 ∨
    rows_described ms = true) as Hd'.
  { destruct Hd as [Hd|Hd]; [left; apply Hf; by left|]. cbn in Hd.
    case_decide; [left; apply Hf; by right|]. case_decide; [done|by right]. }
  destruct (IH _ _ Hs Hd') as (He' & Hs' & Hc'). cbn [fst snd]. rewrite He, He'.
  split; [done|]. split; [done|]. intros [H|H].
  - apply Exists_cons in H as [H|H]; apply Hc'; [right; apply Hc|]; by left.
  - apply Hc'. right. apply Hc. by right.
Qed.

Lemma standard_complete ms :
  Forall plain ms → rows_described ms = true → Exists ends ms → complete ms.
Proof.
  intros Hp Hd He. split; [done|]. intros cmd f tag. unfold meaning, meaning_from.
  destruct (read_same cmd ms (start_reading f tag) (start_reading [] [])) as (H1 & [H2 H3] & H4);
    [done|by right|].
  rewrite H1. f_equal. unfold final_effect. rewrite <- H2, <- H3.
  destruct H4 as [-> | ->]; [by left| |]; done.
Qed.

(** *** The connection while a response arrives *)

Context (hmac : bytes → bytes → bytes) (sha256 : bytes → bytes) (hi : bytes → bytes → Z → bytes).
Context (base64 unbase64 : bytes → bytes) (nfkc : bytes → bytes) (code_points : bytes → list Z).
Context (opts : PgConnectOptions).
Abbreviation handleMessage :=
  (handleMessage utf8 hmac sha256 hi base64 unbase64 nfkc code_points opts).

Definition inflight (cmd : command) (rd : reader) (c : Conn) : Prop :=
  fields c = rd_fields rd ∧ queryRows c = rd_rows rd ∧ queryCommand c = rd_command rd ∧
  busy c = true ∧ tasks c = [] ∧
  if rd_failed rd then
    state c = ready ∧ queryResolve c = None ∧ queryReject c = None ∧ streamTarget c = None
  else
    state c = query ∧
    match cmd with
    | Query id _ _ => queryResolve c = Some id ∧ queryReject c = Some id ∧ streamTarget c = None
    | Stream id _ => queryResolve c = None ∧ queryReject c = None ∧ streamTarget c = Some id
    end.

Lemma handle_plain cmd rd c t body :
  inflight cmd rd c → plain (t, body) →
  ∃ c', handleMessage t body c = Ok c' ∧ inflight cmd (read_msg cmd (t, body) rd).2 c' ∧
    log c' = log c ++ (read_msg cmd (t, body) rd).1 ∧ gateWaiters c' = gateWaiters c ∧
    buffer c' = buffer c.
Proof.
  intros (Hf & Hr & Hc & Hb & Ht & Hs) [HR HZ]. cbn [fst] in HR, HZ.
  unfold PgConnection.handleMessage, read_msg.
  rewrite (decide_False (P := t = "R"%char)), (decide_False (P := t = "Z"%char)) by done.
  case_decide.
  { destruct (parse_description_total utf8 body) as [f ->]. cbn. eexists. split; [done|].
    rewrite app_nil_r. split; [|done]. by split_and!. }
  case_decide.
  { unfold dataRow. rewrite Hf. destruct (parse_row_total utf8 (rd_fields rd) body) as [row ->].
    cbn [mbind result_bind]. eexists. split; [done|].
    destruct cmd as [id sql ps|id sql], (rd_failed rd) eqn:Hfail; destruct Hs as (Hst & Hq1 & Hq2 & Hq3);
      rewrite Hq3; cbn [fst snd]; rewrite ?app_nil_r; (split; [|done]);
      unfold inflight; cbn; rewrite ?Hfail, ?Hr; by split_and!. }
  case_decide.
  { eexists. split; [done|]. rewrite app_nil_r. split; [|done]. by split_and!. }
  case_decide.
  { eexists. split; [done|]. rewrite app_nil_r. split; [|done]. by split_and!. }
  case_decide.
  { eexists. split; [done|]. unfold errorResponse.
    destruct cmd as [id sql ps|id sql], (rd_failed rd) eqn:Hfail; destruct Hs as (Hst & Hq1 & Hq2 & Hq3);
      rewrite Hst; cbn [streamTarget queryReject set_state]; rewrite ?decide_True, ?decide_False by done;
      cbn [streamTarget queryReject set_state]; rewrite ?Hq2, ?Hq3;
      cbn [fst snd]; rewrite ?app_nil_r; (split; [|done]); unfold inflight; cbn; rewrite ?Hfail; by split_and!. }
  eexists. split; [done|]. rewrite app_nil_r. split; [|done]. by split_and!.
Qed.

(** The final ReadyForQuery settles the command and hands the gate on. *)
Definition handed_on (ws : list command) (c : Conn) : Prop :=
  state c = ready ∧
  match ws with
  | [] => busy c = false ∧ gateWaiters c = [] ∧ tasks c = []
  | next :: ws => busy c = true ∧ gateWaiters c = ws ∧ tasks c = [next]
  end.

Lemma release_handed ws c :
  state c = ready → busy c = true → tasks c = [] → gateWaiters c = ws → handed_on ws (release c).
Proof.
  intros Hs Hb Ht Hw. unfold release, handed_on. rewrite Hw, Ht. destruct ws; cbn; by split_and!.
Qed.

Lemma handle_ready cmd rd c body :
  inflight cmd rd c →
  ∃ c', handleMessage "Z"%char body c = Ok c' ∧ handed_on (gateWaiters c) c' ∧
    log c' = log c ++ final_effect cmd rd ∧ buffer c' = buffer c.
Proof.
  intros (Hf & Hr & Hc & Hb & Ht & Hs). eexists. split; [done|].
  unfold readyForQuery, final_effect.
  assert (∀ c', log (release c') = log c') as Hlog by (intros c'; unfold release; by destruct (gateWaiters c')).
  assert (∀ c', buffer (release c') = buffer c') as Hbuf by (intros c'; unfold release; by destruct (gateWaiters c')).
  destruct (rd_failed rd).
  - destruct Hs as (Hst & _). rewrite Hst. rewrite decide_False by done. rewrite Hb, Hlog, Hbuf, app_nil_r.
    split; [by apply release_handed|done].
  - destruct Hs as [Hst Hq]. rewrite Hst, decide_True by done.
    destruct cmd as [id sql ps|id sql]; destruct Hq as (Hq1 & Hq2 & Hq3); rewrite Hq3, ?Hq1;
      cbn [foldl busy emit set_fields set_target set_command set_rows set_state];
      rewrite Hb, Hlog, Hbuf, ?Hr, ?Hc; (split; [by apply release_handed|done]).
Qed.

(** *** Chunks *)

Abbreviation processBuffer :=
  (processBuffer utf8 hmac sha256 hi base64 unbase64 nfkc code_points).

(** While a response and its ReadyForQuery arrive in pieces: what is left of them is in the
    buffer and on the wire, and no frame of the buffer is left unread. *)
Definition arriving (cmd : command) (rd : reader) (l : list effect) (ws : list command)
    (ms : list message) (zb p : bytes) (c : Conn) : Prop :=
  inflight cmd rd c ∧ log c = l ∧ gateWaiters c = ws ∧
  buffer c ++ p = wires (ms ++ [("Z"%char, zb)]).

Lemma processBuffer_arriving cmd zb p ws : ∀ ms fuel rd l c,
  Forall plain ms → Forall fits ms → fits ("Z"%char, zb) →
  arriving cmd rd l ws ms zb p c → length (buffer c) ≤ fuel →
  ∃ c', processBuffer fuel opts c = Ok c' ∧
    ((∃ ms1 ms2, ms = ms1 ++ ms2 ∧ next_frame (buffer c') = None ∧
        arriving cmd (read_msgs cmd ms1 rd).2 (l ++ (read_msgs cmd ms1 rd).1) ws ms2 zb p c') ∨
     (handed_on ws c' ∧ buffer c' = [] ∧ p = [] ∧ log c' = l ++ meaning_from cmd ms rd)).
Proof.
  assert (∀ ms rd l c, next_frame (buffer c) = None → arriving cmd rd l ws ms zb p c →
    ∃ ms1 ms2, ms = ms1 ++ ms2 ∧ next_frame (buffer c) = None ∧
      arriving cmd (read_msgs cmd ms1 rd).2 (l ++ (read_msgs cmd ms1 rd).1) ws ms2 zb p c) as Hstop.
  { intros ms rd l c E Ha. exists [], ms. cbn [read_msgs fst snd]. by rewrite app_nil_r. }
  induction ms as [|m ms IH]; intros fuel rd l c Hp Hf Hz Ha Hfuel.
  all: destruct (next_frame (buffer c)) as [[[t body] rest]|] eqn:E;
    [|exists c; split; [destruct fuel; cbn; by rewrite ?E|left; by apply Hstop]].
  all: destruct fuel as [|fuel]; [destruct (buffer c); [done|cbn in Hfuel; lia]|].
  all: cbn [PgConnection.processBuffer]; rewrite E; pose proof (next_frame_shorter _ _ _ _ E) as Hlt.
  all: destruct Ha as (Hin & Hl & Hw & Hb).
  - destruct (next_frame_prefix _ p [("Z"%char, zb)] _ _ _ ltac:(by apply Forall_singleton) Hb E)
      as (ms' & [= <- <- <-] & Hrest).
    apply app_nil in Hrest as [-> ->].
    destruct (handle_ready cmd rd (set_buffer [] c) zb Hin) as (c1 & -> & H1 & H2 & H3).
    cbn [mbind result_bind].
    exists c1. split; [destruct fuel; cbn; by rewrite ?H3|]. right.
    cbn [set_buffer gateWaiters log buffer] in *. rewrite Hw in H1. by rewrite H2, Hl.
  - apply Forall_cons in Hp as [Hm Hp]. apply Forall_cons in Hf as [Hfm Hf].
    destruct (next_frame_prefix _ p ((m :: ms) ++ [("Z"%char, zb)]) _ _ _
      ltac:(apply Forall_app; split; [by constructor|by apply Forall_singleton]) Hb E)
      as (ms' & [= -> <-] & Hrest).
    destruct (handle_plain cmd rd (set_buffer rest c) t body Hin Hm) as (c1 & -> & H1 & H2 & H3 & H4).
    cbn [mbind result_bind]. cbn [set_buffer gateWaiters log buffer] in *.
    destruct (IH fuel (read_msg cmd (t, body) rd).2 (l ++ (read_msg cmd (t, body) rd).1) c1)
      as (c' & Hc' & Hres); [done..| |rewrite H4; lia|].
    { split; [done|]. by rewrite H2, H3, H4, Hl. }
    exists c'. split; [done|]. destruct Hres as [(ms1 & ms2 & -> & Hn & Ha)|(Ha & Hbuf & Hp' & Hlog)].
    + left. exists ((t, body) :: ms1), ms2. cbn [read_msgs fst snd]. rewrite (assoc_L (++)). by split_and!.
    + right. split_and!; [done..|]. rewrite Hlog. unfold meaning_from. cbn [read_msgs fst snd].
      by rewrite <-!(assoc_L (++)).
Qed.
End responses.
