(* ===== verification/PgSession.v ===== *)
(** * Commands and a PostgreSQL server

    The connection of PgConnection together with a server: commands are called at any
    moment, the continuations run when the event loop gets to them, and the server answers
    each command it receives with a response and a ReadyForQuery, whose bytes arrive in
    pieces of any size. *)

From Stdlib Require Import Ascii String.
From S2P Require Import Prelude JsText JsMap Bytes PgWire PgConnection.

#[local] Open Scope list_scope.
Open Scope nat_scope.

Section session.
Context (utf8 : bytes → bytes).
Context (hmac : bytes → bytes → bytes) (sha256 : bytes → bytes) (hi : bytes → bytes → Z → bytes).
Context (base64 unbase64 : bytes → bytes) (nfkc : bytes → bytes) (code_points : bytes → list Z).
Context (opts : PgConnectOptions).
Abbreviation message := (ascii * bytes)%type.
Abbreviation step := (step utf8 hmac sha256 hi base64 unbase64 nfkc code_points opts).

(** The server: what it answers to the n-th command, and the state byte of ReadyForQuery. *)
Context (responses : nat → list message) (zb : bytes).

Record session : Type := {
  conn : Conn;
  wire : bytes;        (* sent by the server and not arrived *)
  sent : nat           (* the commands the server has received *)
}.

Inductive happening : Type :=
| HCall (cmd : command)
| HContinue
| HBytes (n : nat).    (* the next n bytes arrive *)

Definition serve_step (s : session) (h : happening) : result range_error session :=
  match h with
  | HCall cmd =>
      c ← step (conn s) (Call cmd); Ok {| conn := c; wire := wire s; sent := sent s |}
  | HContinue =>
      c ← step (conn s) Continue;
      match tasks (conn s) with
      | [] => Ok {| conn := c; wire := wire s; sent := sent s |}
      | _ :: _ =>
          Ok {| conn := c; wire := wire s ++ wires (responses (sent s) ++ [("Z"%char, zb)]);
                sent := S (sent s) |}
      end
  | HBytes n =>
      c ← step (conn s) (Chunk (take n (wire s)));
      Ok {| conn := c; wire := drop n (wire s); sent := sent s |}
  end.
Fixpoint serve (s : session) (hs : list happening) : result range_error session :=
  match hs with
  | [] => Ok s
  | h :: hs => s ← serve_step s h; serve s hs
  end.

Definition called (h : happening) : list command :=
  match h with HCall cmd => [cmd] | _ => [] end.
Definition calls (hs : list happening) : list command := hs ≫= called.

(** What the callers see: everything but what is written to the socket. *)
Definition is_write (e : effect) : bool := match e with Write _ => true | _ => false end.
Definition answers (l : list effect) : list effect := filter (λ e, is_write e = false) l.

(** The n-th command is answered by the n-th response. *)
Fixpoint expected (n : nat) (cs : list command) : list effect :=
  match cs with
  | [] => []
  | cmd :: cs => meaning utf8 cmd (responses n) ++ expected (S n) cs
  end.

Definition idle (c : Conn) : Prop := handed_on [] c ∧ buffer c = [].
Definition sendable (cmd : command) : Prop := ∃ m, command_message utf8 cmd = Ok m.

Lemma expected_app cs cs' : ∀ n, expected n (cs ++ cs') = expected n cs ++ expected (n + length cs) cs'.
Proof.
  induction cs as [|cmd cs IH]; intros n; cbn [app expected length]; [by rewrite Nat.add_0_r|].
  by rewrite IH, (assoc_L (++)), Nat.add_succ_r.
Qed.

Lemma answers_app l l' : answers (l ++ l') = answers l ++ answers l'.
Proof. apply filter_app. Qed.

Lemma answers_silent l : Forall (λ e, is_write e = false) l → answers l = l.
Proof. induction 1 as [|e l He _ IH]; [done|]. unfold answers in *. by rewrite filter_cons_True, IH. Qed.

Lemma read_msgs_silent cmd ms : ∀ rd, Forall (λ e, is_write e = false) (read_msgs utf8 cmd ms rd).1.
Proof.
  induction ms as [|m ms IH]; intros rd; cbn [read_msgs fst]; [constructor|].
  apply Forall_app. split; [|apply IH]. destruct m as [t body]. unfold read_msg.
  repeat case_match; cbn; repeat constructor; by destruct cmd.
Qed.

Lemma meaning_silent cmd ms rd : Forall (λ e, is_write e = false) (meaning_from utf8 cmd ms rd).
Proof.
  apply Forall_app. split; [apply read_msgs_silent|]. unfold final_effect.
  repeat case_match; repeat constructor.
Qed.

(** ** The invariant

    The calls are those before, which are answered, and those that wait; in between there is
    the one whose response is arriving. *)

Definition resting (start : list effect) (cs : list command) (s : session) : Prop :=
  ∃ before waiting, cs = before ++ waiting ∧ sent s = length before ∧ wire s = [] ∧
    buffer (conn s) = [] ∧ handed_on waiting (conn s) ∧
    answers (log (conn s)) = start ++ expected 0 before.
Definition answering (start : list effect) (cs : list command) (s : session) : Prop :=
  ∃ before cmd waiting ms1 ms2 f tag l, cs = before ++ cmd :: waiting ∧ sent s = S (length before) ∧
    responses (length before) = ms1 ++ ms2 ∧ next_frame (buffer (conn s)) = None ∧
    arriving cmd (read_msgs utf8 cmd ms1 (start_reading f tag)).2 l waiting ms2 zb (wire s) (conn s) ∧
    answers l = start ++ expected 0 before ++ (read_msgs utf8 cmd ms1 (start_reading f tag)).1.

Context (Hresponses : ∀ n, complete utf8 (responses n) ∧ Forall fits (responses n)).
Context (Hzb : fits ("Z"%char, zb)).

Lemma call_kept start cs s cmd :
  resting start cs s ∨ answering start cs s →
  ∃ s', serve_step s (HCall cmd) = Ok s' ∧
    (resting start (cs ++ [cmd]) s' ∨ answering start (cs ++ [cmd]) s').
Proof.
  intros H. eexists. split; [done|].
  destruct H as [(before & waiting & -> & Hs & Hw & Hb & Hh & Hl)|
    (before & cur & waiting & ms1 & ms2 & f & tag & l & -> & Hs & Hr & Hn & Ha & Hl)].
  - left. exists before, (waiting ++ [cmd]). cbn [conn sent wire]. rewrite (assoc_L (++)).
    unfold acquire. destruct waiting as [|next ws], Hh as (Hst & Hbusy & Hg & Ht); rewrite Hbusy; cbn;
      rewrite ?Hg, ?Ht; by split_and!.
  - right. exists before, cur, (waiting ++ [cmd]), ms1, ms2, f, tag, l. cbn [conn sent wire].
    rewrite <-(assoc_L (++)). destruct Ha as ((Hf & Hq & Hc & Hbusy & Ht & Hrest) & Hlog & Hg & Hb).
    unfold acquire. rewrite Hbusy. unfold arriving, inflight.
    cbn [log set_gate gateWaiters buffer fields queryRows queryCommand busy tasks state queryResolve
      queryReject streamTarget]. rewrite Hg. by split_and!.
Qed.

Lemma continue_kept start cs s :
  Forall sendable cs → resting start cs s ∨ answering start cs s →
  ∃ s', serve_step s HContinue = Ok s' ∧ (resting start cs s' ∨ answering start cs s').
Proof.
  intros Hsend. intros [(before & waiting & -> & Hs & Hw & Hb & Hh & Hl)|
    (before & cur & waiting & ms1 & ms2 & f & tag & l & -> & Hs & Hr & Hn & Ha & Hl)].
  - destruct waiting as [|next ws], Hh as (Hst & Hbusy & Hg & Ht).
    + exists s. unfold serve_step. cbn [PgConnection.step]. rewrite Ht. destruct s. split; [done|left].
      exists before, []. by split_and!.
    + apply Forall_app in Hsend as [_ [[m Hm] _]%Forall_cons].
      unfold serve_step. cbn [PgConnection.step]. rewrite Ht. cbn [mbind result_bind].
      eexists. split; [done|]. right.
      exists before, next, ws, [], (responses (sent s)), (fields (conn s)), (queryCommand (conn s)),
        (log (conn s) ++ [Write m]).
      cbn [conn sent wire]. rewrite Hs, Hw.
      unfold dispatch. cbn [state set_gate]. rewrite Hst, decide_True by done.
      assert (answers (log (conn s) ++ [Write m]) = start ++ expected 0 before) as Ha.
      { rewrite answers_app, Hl. by rewrite app_nil_r. }
      rewrite Ha. cbn [read_msgs fst snd]. rewrite !app_nil_r.
      destruct next as [id sql ps|id sql]; rewrite Hm; cbn -[wires]; rewrite Hb;
        unfold arriving, inflight; cbn -[wires next_frame expected];
        rewrite Hb, ?Hg, ?Hbusy; by split_and!.
  - destruct Ha as ((Hf & Hq & Hc & Hbusy & Ht & Hrest) & Hlog & Hg & Hb).
    exists s. unfold serve_step. cbn [PgConnection.step]. rewrite Ht. destruct s. split; [done|right].
    exists before, cur, waiting, ms1, ms2, f, tag, l. by split_and!.
Qed.

Lemma chunk_outside_auth c b :
  state c ≠ authenticating →
  step c (Chunk b) =
    processBuffer utf8 hmac sha256 hi base64 unbase64 nfkc code_points
      (length (buffer c ++ b)) opts (set_buffer (buffer c ++ b) c).
Proof. intros Hc. cbn [PgConnection.step]. rewrite decide_False by naive_solver. done. Qed.

Lemma bytes_kept start cs s n :
  resting start cs s ∨ answering start cs s →
  ∃ s', serve_step s (HBytes n) = Ok s' ∧ (resting start cs s' ∨ answering start cs s').
Proof.
  intros [(before & waiting & -> & Hs & Hw & Hb & Hh & Hl)|
    (before & cur & waiting & ms1 & ms2 & f & tag & l & -> & Hs & Hr & Hn & Ha & Hl)].
  - unfold serve_step. rewrite Hw, take_nil, drop_nil.
    rewrite chunk_outside_auth by (destruct Hh as [-> _]; done). rewrite Hb. cbn [app length].
    eexists. split; [done|]. left. exists before, waiting. by split_and!.
  - set (rd := (read_msgs utf8 cur ms1 (start_reading f tag)).2) in *.
    destruct (Hresponses (length before)) as [[Hp Hm] Hf]. rewrite Hr in Hp, Hf, Hm.
    apply Forall_app in Hp as [_ Hp], Hf as [_ Hf].
    pose proof Ha as (Hin & Hlog & Hg & Hb).
    assert (state (conn s) ≠ authenticating) as Hauth.
    { destruct Hin as (_ & _ & _ & _ & _ & Hst). destruct (rd_failed rd), Hst as [-> _]; done. }
    unfold serve_step. rewrite chunk_outside_auth by done.
    set (c := set_buffer (buffer (conn s) ++ take n (wire s)) (conn s)).
    assert (arriving cur rd l waiting ms2 zb (drop n (wire s)) c) as Hc.
    { split; [done|]. subst c. cbn [log set_buffer gateWaiters buffer].
      rewrite <-(assoc_L (++)), take_drop. by split_and!. }
    destruct (processBuffer_arriving utf8 hmac sha256 hi base64 unbase64 nfkc code_points opts
      cur zb (drop n (wire s)) waiting ms2 (length (buffer c)) rd l c Hp Hf Hzb Hc ltac:(done))
      as (c' & Hc' & Hres).
    change (buffer c) with (buffer (conn s) ++ take n (wire s)) in Hc'. rewrite Hc'.
    cbn [mbind result_bind]. eexists. split; [done|].
    destruct Hres as [(ms3 & ms4 & -> & Hn' & Ha')|(Hh & Hbuf & Hwire & Hlog')].
    + right. exists before, cur, waiting, (ms1 ++ ms3), ms4, f, tag,
        (l ++ (read_msgs utf8 cur ms3 rd).1). cbn [conn sent wire].
      rewrite Hr, (assoc_L (++)), answers_app, Hl, answers_silent by apply read_msgs_silent.
      rewrite read_msgs_app. cbn [fst snd]. rewrite <-!(assoc_L (++)). by split_and!.
    + left. exists (before ++ [cur]), waiting. cbn [conn sent wire].
      rewrite <-(assoc_L (++)), length_app. cbn [length app].
      split_and!; [done|rewrite Hs; lia|done..|].
      rewrite Hlog', answers_app, Hl, answers_silent by apply meaning_silent.
      rewrite expected_app. cbn [expected]. rewrite app_nil_r, Nat.add_0_l, Hr.
      rewrite <-(Hm cur f tag). unfold meaning_from. fold rd. rewrite read_msgs_app. cbn [fst snd].
      fold rd. by rewrite <-!(assoc_L (++)).
Qed.

Lemma serve_kept start hs : ∀ cs s,
  Forall sendable (cs ++ calls hs) → resting start cs s ∨ answering start cs s →
  ∃ s', serve s hs = Ok s' ∧ (resting start (cs ++ calls hs) s' ∨ answering start (cs ++ calls hs) s').
Proof.
  induction hs as [|h hs IH]; intros cs s Hsend H; cbn [serve].
  { rewrite app_nil_r. by exists s. }
  change (calls (h :: hs)) with (called h ++ calls hs) in *. rewrite (assoc_L (++)) in Hsend |- *.
  assert (∃ s', serve_step s h = Ok s' ∧
    (resting start (cs ++ called h) s' ∨ answering start (cs ++ called h) s')) as (s' & -> & Hs').
  { destruct h as [cmd| |n]; cbn [called]; rewrite ?app_nil_r.
    - by apply call_kept.
    - apply continue_kept; [|done]. cbn [called] in Hsend. rewrite app_nil_r in Hsend.
      by apply Forall_app in Hsend as [? _].
    - by apply bytes_kept. }
  by apply IH.
Qed.

(** C7: commands and responses are paired.  On an idle connection to a server that answers
    each command with one complete response whose messages fit their length field, whatever
    commands are called that can be sent (at most 65535 parameters and a body that fits its
    length field) and whenever their continuations run, and however the bytes of the
    responses are cut into chunks, nothing is thrown, and what the callers see is, in the
    order of the calls, what the response to each command means by itself: its rows, its
    count or its error, and nothing of another command.  When no continuation is left and
    every byte has arrived, every call has been answered. *)
Theorem commands_paired c hs :
  idle c → Forall sendable (calls hs) →
  ∃ s seen, serve {| conn := c; wire := []; sent := 0 |} hs = Ok s ∧
    answers (log (conn s)) = answers (log c) ++ seen ∧
    seen `prefix_of` expected 0 (calls hs) ∧
    (wire s = [] → tasks (conn s) = [] → seen = expected 0 (calls hs)).
Proof.
  intros [Hh Hb] Hsend.
  destruct (serve_kept (answers (log c)) hs [] {| conn := c; wire := []; sent := 0 |})
    as (s & Hs & H); [done| |].
  { left. exists [], []. cbn [conn wire sent expected]. rewrite !app_nil_r. by split_and!. }
  cbn [app] in H. exists s.
  destruct H as [(before & waiting & Hcs & _ & _ & _ & Hw & Hl)|
    (before & cur & waiting & ms1 & ms2 & f & tag & l & Hcs & _ & Hr & Hn & Ha & Hl)];
    rewrite Hcs, expected_app.
  - eexists. split; [done|]. split; [done|]. split; [by apply prefix_app_r|].
    intros _ Ht. destruct waiting; [by rewrite app_nil_r|]. destruct Hw as (_ & _ & _ & Ht').
    by rewrite Ht in Ht'.
  - destruct Ha as (_ & Hlog & _ & Hbuf). exists (expected 0 before ++ (read_msgs utf8 cur ms1 (start_reading f tag)).1).
    split; [done|]. rewrite Hlog. split; [done|]. cbn [expected]. rewrite Nat.add_0_l, Hr.
    destruct (Hresponses (length before)) as [[_ Hm] Hf]. rewrite Hr in Hm, Hf.
    rewrite <-(Hm cur f tag). unfold meaning_from. rewrite read_msgs_app. cbn [fst snd].
    split; [apply prefix_app; rewrite <-!(assoc_L (++)); by apply prefix_app_r|].
    intros Hw _. rewrite Hw, app_nil_r in Hbuf. apply Forall_app in Hf as [_ Hf].
    rewrite Hbuf in Hn. destruct ms2 as [|m ms2]; cbn [app] in Hn.
    + by rewrite next_frame_wires in Hn.
    + apply Forall_cons in Hf as [Hfm _]. by rewrite next_frame_wires in Hn.
Qed.

(** ** The end of the socket *)

Abbreviation run := (run utf8 hmac sha256 hi base64 unbase64 nfkc code_points opts).

Definition continues (n : nat) : list event := replicate n Continue.

Lemma session_run_app l l' : ∀ c, run c (l ++ l') = (c ← run c l; run c l').
Proof.
  induction l as [|e l IH]; intros c; [done|]. cbn [app PgConnection.run].
  destruct (step c e) as [c'|]; [apply IH|done].
Qed.

(** Continuations on a closed connection. *)
Lemma closed_continuations ts : ∀ c,
  state c = closed → gateWaiters c = [] → tasks c = ts → (ts = [] → busy c = false) →
  ∃ c', run c (continues (length ts)) = Ok c' ∧
    log c' = log c ++ ((λ cmd, fail_effect cmd (NotReady closed)) <$> ts) ∧
    state c' = closed ∧ gateWaiters c' = [] ∧ tasks c' = [] ∧ busy c' = false.
Proof.
  induction ts as [|cmd ts IH]; intros c Hs Hg Ht Hb.
  { exists c. rewrite app_nil_r. split; [done|]. by split_and!; [done..|apply Hb]. }
  cbn [length continues replicate PgConnection.run PgConnection.step]. rewrite Ht.
  cbn [mbind result_bind].
  set (c0 := set_gate (busy c) (gateWaiters c) ts c).
  assert (∃ c1, dispatch utf8 cmd c0 = c1 ∧ log c1 = log c ++ [fail_effect cmd (NotReady closed)] ∧
    state c1 = closed ∧ gateWaiters c1 = [] ∧ tasks c1 = ts ∧ busy c1 = false)
    as (c1 & -> & Hl1 & Hs1 & Hg1 & Ht1 & Hb1).
  { eexists. split; [done|]. unfold dispatch. subst c0. cbn [state set_gate].
    rewrite Hs, decide_False by done.
    destruct cmd as [id sql ps|id sql]; unfold release; cbn; rewrite Hg, ?Hs; cbn; by split_and!. }
  destruct (IH c1 Hs1 Hg1 Ht1 (λ _, Hb1)) as (c' & Hrun & Hl & Hrest).
  exists c'. split; [exact Hrun|]. split; [|done]. rewrite Hl, Hl1. by rewrite <-(assoc_L (++)).
Qed.

(** What the end of the socket does at once. *)
Definition lost (e : event) : option pg_error :=
  match e with
  | SocketError => Some SocketFailed
  | SocketClose => Some ClosedUnexpectedly
  | _ => None
  end.
Definition failures (e : event) (err : pg_error) (c : Conn) : list effect :=
  match e with
  | SocketError => if authReject c then [ConnectRejected err] else []
  | _ => []
  end ++
  match queryReject c with Some id => [Rejected id err] | None => [] end ++
  match streamTarget c with Some id => [StreamFailed id err] | None => [] end.

(** when the socket fails or closes, in whatever state, nothing is left hanging: the
    running query or stream fails, then every command that holds or waits for the gate is
    rejected in order, and so is every later one. *)
Theorem closed_rejects_everyone c e err later :
  lost e = Some err →
  ∃ c', run c (e :: continues (length (tasks c ++ gateWaiters c)) ++
               (later ≫= λ cmd, [Call cmd; Continue])) = Ok c' ∧
    log c' = log c ++ failures e err c ++
      ((λ cmd, fail_effect cmd (NotReady closed)) <$> (tasks c ++ gateWaiters c) ++ later) ∧
    tasks c' = [] ∧ gateWaiters c' = [].
Proof.
  intros He. cbn [PgConnection.run].
  assert (∃ c1, step c e = Ok c1 ∧ log c1 = log c ++ failures e err c ∧ state c1 = closed ∧
    gateWaiters c1 = [] ∧ tasks c1 = tasks c ++ gateWaiters c ∧ busy c1 = false)
    as (c1 & -> & Hl1 & Hs1 & Hg1 & Ht1 & Hb1).
  { destruct e; try done; injection He as <-; (eexists; split; [done|]);
      unfold fail_targets, reject_auth, failures; cbn;
      destruct (authReject c); cbn; destruct (queryReject c); cbn; destruct (streamTarget c); cbn;
      rewrite <-?(assoc_L (++)), ?app_nil_r; by split_and!. }
  cbn [mbind result_bind]. rewrite session_run_app.
  destruct (closed_continuations _ c1 Hs1 Hg1 Ht1 (λ _, Hb1)) as (c2 & -> & Hl2 & Hs2 & Hg2 & Ht2 & Hb2).
  cbn [mbind result_bind].
  assert (∀ l, log c ++ failures e err c ++ ((λ cmd, fail_effect cmd (NotReady closed)) <$>
    (tasks c ++ gateWaiters c) ++ l) = log c2 ++ ((λ cmd, fail_effect cmd (NotReady closed)) <$> l)) as E.
  { intros l. by rewrite fmap_app, Hl2, Hl1, <-!(assoc_L (++)). }
  rewrite E. clear E.
  clear -Hs2 Hg2 Ht2 Hb2. revert c2 Hs2 Hg2 Ht2 Hb2.
  induction later as [|cmd later IH]; intros c2 Hs2 Hg2 Ht2 Hb2.
  { exists c2. rewrite app_nil_r. by split_and!. }
  change ((cmd :: later) ≫= λ cmd, [Call cmd; Continue]) with
    ([Call cmd] ++ [Continue] ++ (later ≫= λ cmd, [Call cmd; Continue])).
  rewrite session_run_app. cbn [PgConnection.run PgConnection.step mbind result_bind].
  set (c3 := acquire cmd c2).
  assert (log c3 = log c2 ∧ state c3 = closed ∧ gateWaiters c3 = [] ∧ tasks c3 = [cmd])
    as (Hl3 & Hs3 & Hg3 & Ht3).
  { unfold c3, acquire. rewrite Hb2. cbn. by rewrite Ht2. }
  rewrite session_run_app.
  destruct (closed_continuations [cmd] c3 Hs3 Hg3 Ht3 ltac:(done)) as (c4 & Hc4 & Hl4 & Hs4 & Hg4 & Ht4 & Hb4).
  change [Continue] with (continues (length [cmd])). rewrite Hc4. cbn [mbind result_bind].
  destruct (IH c4 Hs4 Hg4 Ht4 Hb4) as (c' & Hrun & Hl & Hrest).
  exists c'. split; [exact Hrun|]. split; [|done]. rewrite Hl, Hl4, Hl3. by rewrite <-(assoc_L (++)).
Qed.

(** ** What goes wrong *)

(** More than 65535 parameters: the message cannot be built, the caller's promise is
    rejected, but nothing gives the gate back: the next command waits for ever. *)
Lemma too_many_parameters_hang c id sql params next n :
  idle c → (2 ^ 16 <= Z.of_nat (length params))%Z →
  ∃ c', run c ([Call (Query id sql params); Continue; Call next] ++ continues n) = Ok c' ∧
    answers (log c') = answers (log c) ++ [Rejected id OutOfRange] ∧
    state c' = query ∧ busy c' = true ∧ gateWaiters c' = [next] ∧ tasks c' = [].
Proof.
  intros [(Hs & Hb & Hg & Ht) _] Hn.
  assert (∃ x, command_message utf8 (Query id sql params) = Throw x) as [x Hx].
  { destruct params as [|p ps]; [cbn in Hn; lia|]. cbn [command_message].
    destruct (buildParseMessage sql) as [m|x]; cbn [mbind result_bind]; [|by eexists].
    assert (∃ d, buildDescribeMessage = Ok d) as [d ->] by (by eexists). cbn [mbind result_bind].
    unfold buildBindMessage. destruct (uint16 _) as [x|x] eqn:E; [|by eexists].
    apply uint16_ok in E. lia. }
  rewrite session_run_app. cbn [PgConnection.run PgConnection.step mbind result_bind].
  assert (acquire (Query id sql params) c = set_gate true [] [Query id sql params] c) as ->.
  { unfold acquire. by rewrite Hb, Hg, Ht. }
  cbn [tasks set_gate mbind result_bind].
  unfold dispatch. cbn [state set_gate]. rewrite Hs, decide_True by done. rewrite Hx.
  cbn [PgConnection.run PgConnection.step mbind result_bind].
  set (c1 := acquire next _).
  assert (run c1 (continues n) = Ok c1) as ->.
  { induction n as [|n IH]; [done|]. exact IH. }
  exists c1. split; [done|]. subst c1. unfold acquire. cbn.
  rewrite answers_app. by split_and!.
Qed.

(** An authentication request of fewer than four bytes is read outside the buffer: the
    handler of the socket's data throws, whatever the state. *)
Lemma short_authentication_throws c body :
  length body < 4 →
  handleMessage utf8 hmac sha256 hi base64 unbase64 nfkc code_points opts "R"%char body c =
    Throw RangeError.
Proof.
  intros Hl. unfold handleMessage. rewrite decide_True by done. unfold handleAuth, readUInt32BE, read_be.
  by destruct (Nat.leb_spec (0 + 4) (length body)); [lia|].
Qed.

(** AuthenticationOk ends the handshake at any point of it: the connection is ready although
    the server has not shown its signature. *)
Lemma ok_without_signature c :
  state c = authenticating → authResolve c = true →
  ∃ c', (c ← handleMessage utf8 hmac sha256 hi base64 unbase64 nfkc code_points opts "R"%char
              (be_split 4 0) c;
         handleMessage utf8 hmac sha256 hi base64 unbase64 nfkc code_points opts "Z"%char
              ["I"%char] c) = Ok c' ∧
    state c' = ready ∧ log c' = log c ++ [Connected] ∧ scramState c' = scramState c.
Proof.
  intros Hs Ha.
  change (handleMessage utf8 hmac sha256 hi base64 unbase64 nfkc code_points opts "R"%char
    (be_split 4 0) c) with (Ok (E := range_error) c). cbn [mbind result_bind].
  eexists. split; [done|]. unfold readyForQuery. rewrite Hs. cbn. by rewrite Ha.
Qed.
End session.

(** ** Examples *)

Definition idle_conn : Conn := set_state ready new_conn.

Definition sample_responses (n : nat) : list (ascii * bytes) :=
  match n with
  | O => [("T"%char, encode_description sample_columns);
          ("D"%char, encode_row [Some (str "7"); None]);
          ("D"%char, encode_row [Some (str "8"); Some (str "x")]);
          ("C"%char, str "SELECT 2" ++ [NUL])]
  | 1 => [("E"%char, str "SERROR" ++ [NUL] ++ str "Mbad" ++ [NUL; NUL])]
  | _ => [("T"%char, encode_description (take 1 sample_columns));
          ("D"%char, encode_row [Some (str "9")]); ("C"%char, str "SELECT 1" ++ [NUL])]
  end.

Definition sample_calls : list happening :=
  [HCall (Query 1 (str "select 1") []); HCall (Query 2 (str "select $1") [PText (str "a"); PNull]);
   HContinue; HBytes 3; HBytes 70; HCall (Stream 3 (str "select 3")); HBytes 1000;
   HContinue; HBytes 6; HBytes 100; HContinue; HBytes 50; HBytes 100].

Definition sample_serve :=
  serve id (λ k m, k ++ m) id (λ p s _, p ++ s) id id id (λ _, []) 
    {| user := str "u"; password := str "p"; database := str "d"; nonce := str "n" |}
    sample_responses ["I"%char].

Lemma sample_responses_complete n : complete id (sample_responses n) ∧ Forall fits (sample_responses n).
Proof.
  split.
  - apply standard_complete.
    + destruct n as [|[|n]]; repeat constructor; discriminate.
    + by destruct n as [|[|n]].
    + destruct n as [|[|n]]; cbn [sample_responses];
        [do 3 apply Exists_cons_tl|idtac|do 2 apply Exists_cons_tl]; apply Exists_cons_hd;
        unfold ends; tauto.
  - destruct n as [|[|n]]; repeat (apply Forall_cons_2; [vm_compute; reflexivity|]); constructor.
Qed.

Lemma commands_paired_witness :
  ∃ s, sample_serve {| conn := idle_conn; wire := []; sent := 0 |} sample_calls = Ok s ∧
    answers (log (conn s)) =
      [Resolved 1 [[(str "id", Some (str "7")); (str "name", None)];
                   [(str "id", Some (str "8")); (str "name", Some (str "x"))]] (str "SELECT 2") 2;
       Rejected 2 (ServerError (str "bad") []);
       StreamRow 3 [(str "id", Some (str "9"))]; StreamEnd 3].
Proof.
  destruct (commands_paired id (λ k m, k ++ m) id (λ p s _, p ++ s) id id id (λ _, [])
    {| user := str "u"; password := str "p"; database := str "d"; nonce := str "n" |}
    sample_responses ["I"%char] sample_responses_complete eq_refl idle_conn sample_calls)
    as (s & seen & Hs & Hl & _ & Hd).
  - split; [repeat split|]; reflexivity.
  - repeat (apply Forall_cons_2; [eexists; vm_compute; reflexivity|]). constructor.
  - exists s. split; [exact Hs|]. rewrite Hl. vm_compute in Hs. injection Hs as <-.
    rewrite (Hd eq_refl eq_refl). vm_compute. reflexivity.
Defined.

Lemma closed_rejects_everyone_witness :
  ∃ c', run id (λ k m, k ++ m) id (λ p s _, p ++ s) id id id (λ _, [])
      {| user := str "u"; password := str "p"; database := str "d"; nonce := str "n" |}
      (set_target (Some 1) (Some 1) None (set_gate true [Stream 3 []] [] (set_state query new_conn)))
      [SocketClose; Continue; Call (Query 4 [] []); Continue] = Ok c' ∧
    log c' = [Rejected 1 ClosedUnexpectedly; StreamFailed 3 (NotReady closed);
              Rejected 4 (NotReady closed)].
Proof.
  destruct (closed_rejects_everyone id (λ k m, k ++ m) id (λ p s _, p ++ s) id id id (λ _, [])
      {| user := str "u"; password := str "p"; database := str "d"; nonce := str "n" |}
      (set_target (Some 1) (Some 1) None (set_gate true [Stream 3 []] [] (set_state query new_conn)))
      SocketClose ClosedUnexpectedly [Query 4 [] []] eq_refl) as (c' & H1 & H2 & _).
  exists c'. split; [exact H1|exact H2].
Defined.
