(* ===== verification/PgScram.v ===== *)
(** * SCRAM-SHA-256 against an honest server

    The authentication of PgConnection with a server that follows RFC 5802: it lists its
    mechanisms, sends a nonce, a salt and a count, checks the proof of the client and sends
    its signature.  What is used of the environment is documented behaviour: [utf8] keeps
    ASCII, base64 is decoded to what was encoded and writes its alphabet, HMAC-SHA-256 has
    32 bytes. *)

From Stdlib Require Import Ascii String.
From S2P Require Import Prelude JsText JsMap Bytes PgWire PgConnection.

#[local] Open Scope list_scope.
Open Scope nat_scope.

Definition is_ascii (c : ascii) : Prop := (code c < 128)%Z.

(** A text that can be a value of a SCRAM message. *)
Definition scram_value (v : bytes) : Prop := Forall is_ascii v ∧ (","%char ∉ v).

Lemma scram_part_set k v params :
  scram_part params (k :: "="%char :: v) =
    if decide (k = "="%char) then params else jm_set [k] v params.
Proof. unfold scram_part. cbn [indexOf]. case_decide as H; [by subst|]. by rewrite decide_True. Qed.

Lemma xor_twice a b : length a = length b → xorBuffers (xorBuffers a b) b = a.
Proof.
  unfold xorBuffers. revert b.
  induction a as [|x a IH]; intros [|y b]; cbn; try done. intros [= H]. rewrite IH by done. f_equal.
  rewrite N_ascii_embedding.
  - by rewrite N.lxor_assoc, N.lxor_nilpotent, N.lxor_0_r, ascii_N_embedding.
  - pose proof (N_ascii_bounded x) as Hx. pose proof (N_ascii_bounded y) as Hy.
    destruct (N.eq_dec (N.lxor (N_of_ascii x) (N_of_ascii y)) 0) as [->|Hn]; [done|].
    apply (N.log2_lt_cancel _ 256). apply N.le_lt_trans with (2 := eq_refl : (7 < N.log2 256)%N).
    etrans; [apply N.log2_lxor|]. apply N.max_lub; apply N.lt_succ_r;
      (destruct (N.eq_dec (N_of_ascii x) 0) as [E1|E1], (N.eq_dec (N_of_ascii y) 0) as [E2|E2]);
      rewrite ?E1, ?E2; try done; apply N.log2_lt_pow2; lia.
Qed.

(** *** The list of mechanisms *)

Definition encode_mechanisms (ms : list bytes) : bytes := mjoin ((λ m, m ++ [NUL]) <$> ms) ++ [NUL].

Lemma sasl_mechanisms_write (utf8 : bytes → bytes) ms :
  Forall (λ m, m ≠ [] ∧ (NUL ∉ m) ∧ utf8 m = m) ms → ∀ fuel pre,
  length (encode_mechanisms ms) <= fuel →
  sasl_mechanisms utf8 fuel (pre ++ encode_mechanisms ms) (length pre) = ms.
Proof.
  induction 1 as [|m ms (Hne & Hnul & Hu) _ IH]; intros fuel pre Hf.
  - destruct fuel as [|fuel]; [cbn in Hf; lia|]. cbn [sasl_mechanisms].
    change (encode_mechanisms []) with ([] ++ NUL :: []).
    destruct (Nat.leb_spec (length (pre ++ [] ++ [NUL])) (length pre)) as [H|_];
      [rewrite length_app in H; cbn in H; lia|].
    rewrite index_nul_at by (by apply not_elem_of_nil). cbn [length]. by rewrite decide_True by lia.
  - assert (encode_mechanisms (m :: ms) = m ++ NUL :: encode_mechanisms ms) as E.
    { unfold encode_mechanisms. cbn. by rewrite <-!(assoc_L (++)). }
    rewrite E in *. rewrite length_app in Hf. cbn [length] in Hf.
    destruct fuel as [|fuel]; [lia|]. cbn [sasl_mechanisms].
    destruct (Nat.leb_spec (length (pre ++ m ++ NUL :: encode_mechanisms ms)) (length pre)) as [H|_];
      [rewrite !length_app in H; cbn in H; lia|].
    rewrite index_nul_at by done. rewrite slice_at, Hu.
    assert (0 < length m) by (destruct m; [done|cbn; lia]).
    rewrite decide_False by lia. f_equal.
    rewrite <-(IH fuel (pre ++ m ++ [NUL])) at 2 by lia. f_equal.
    + by rewrite <-!(assoc_L (++)).
    + rewrite !length_app. cbn. lia.
Qed.

(** ** The handshake *)

Section scram.
Context (utf8 : bytes → bytes).
Context (hmac : bytes → bytes → bytes) (sha256 : bytes → bytes) (hi : bytes → bytes → Z → bytes).
Context (base64 unbase64 : bytes → bytes) (nfkc : bytes → bytes) (code_points : bytes → list Z).
Context (opts : PgConnectOptions).
Abbreviation handleAuth := (handleAuth utf8 hmac sha256 hi base64 unbase64 nfkc code_points opts).

(** The documented behaviour of the environment. *)
Context (Hutf8 : ∀ t, Forall is_ascii t → utf8 t = t).
Context (Hbase64 : ∀ b, unbase64 (base64 b) = b ∧ scram_value (base64 b) ∧
  length b <= length (base64 b) <= 2 * length b + 4).
Context (Hhmac : ∀ k m, length (hmac k m) = 32).

(** *** What the server does *)

Definition server_first (r salt : bytes) (its : Z) : bytes :=
  str "r=" ++ r ++ str ",s=" ++ base64 salt ++ str ",i=" ++ show its.
Definition server_final (signature : bytes) : bytes := str "v=" ++ base64 signature.

Definition client_first_bare : bytes := str "n=" ++ user opts ++ str ",r=" ++ nonce opts.
Definition client_without_proof (r : bytes) : bytes := str "c=biws,r=" ++ r.
Definition auth_message (r salt : bytes) (its : Z) : bytes :=
  client_first_bare ++ str "," ++ server_first r salt its ++ str "," ++ client_without_proof r.

(** The check of a proof against what the server stores of the password, and its
    signature. *)
Definition proof_accepted (salted auth proof : bytes) : Prop :=
  let stored := sha256 (hmac salted (str "Client Key")) in
  sha256 (xorBuffers proof (hmac stored auth)) = stored.
Definition signature_of (salted auth : bytes) : bytes := hmac (hmac salted (str "Server Key")) auth.

(** *** Parsing *)

Lemma parse_server_first r salt its :
  (0 <= its)%Z → ","%char ∉ r →
  parseScramParams (server_first r salt its) =
    [(str "r", r); (str "s", base64 salt); (str "i", show its)].
Proof.
  intros Hi Hr. unfold parseScramParams, server_first.
  destruct (Hbase64 salt) as (_ & [_ Hs] & _).
  assert (str "r=" ++ r ++ str ",s=" ++ base64 salt ++ str ",i=" ++ show its =
    ("r"%char :: "="%char :: r) ++ ","%char :: ("s"%char :: "="%char :: base64 salt) ++ ","%char ::
    ("i"%char :: "="%char :: show its)) as -> by (cbn; by rewrite <-?(assoc_L (++))).
  assert (∀ a l, a ≠ ","%char → ","%char ∉ l → ","%char ∉ a :: "="%char :: l) as Hcons.
  { intros a l Ha Hl. rewrite !not_elem_of_cons. split_and!; done. }
  rewrite !split_on_app, split_on_none by (apply Hcons; [done|try done]; by apply not_digit_show).
  cbn [foldl]. rewrite !scram_part_set. done.
Qed.

Lemma parse_server_final signature :
  parseScramParams (server_final signature) = [(str "v", base64 signature)].
Proof.
  unfold parseScramParams, server_final. destruct (Hbase64 signature) as (_ & [_ Hs] & _).
  change (str "v=" ++ base64 signature) with ("v"%char :: "="%char :: base64 signature).
  rewrite split_on_none by (rewrite !not_elem_of_cons; split_and!; done).
  cbn [foldl]. by rewrite scram_part_set.
Qed.

Lemma base64_nonempty b : b ≠ [] → base64 b ≠ [].
Proof.
  intros Hb E. destruct (Hbase64 b) as (_ & _ & Hl). rewrite E in Hl. destruct b; [done|]. cbn in Hl. lia.
Qed.

Lemma nonempty_some v : v ≠ [] → nonempty (Some v) = Some v.
Proof. by destruct v. Qed.

Lemma ascii_app a b : Forall is_ascii a → Forall is_ascii b → Forall is_ascii (a ++ b).
Proof. intros. by apply Forall_app. Qed.
Lemma ascii_show n : (0 <= n)%Z → Forall is_ascii (show n).
Proof.
  intros Hn. destruct (show_digits n Hn) as [Hd _]. eapply Forall_impl; [exact Hd|].
  intros c Hc. unfold is_ascii, is_digit in *. lia.
Qed.

Lemma server_first_ascii r salt its :
  (0 <= its)%Z → Forall is_ascii r → Forall is_ascii (server_first r salt its).
Proof.
  intros Hi Hr. unfold server_first. destruct (Hbase64 salt) as (_ & [Hs _] & _).
  repeat apply ascii_app; try done; [repeat constructor..|by apply ascii_show].
Qed.

(** *** The messages *)

Lemma uint32_len z : (0 <= z < 2 ^ 32)%Z → uint32 z = Ok (be_split 4 z).
Proof. intros Hz. by apply uint32_ok. Qed.

Lemma tagged_ok t body : (len body < 2 ^ 31)%Z → tagged t body = Ok (wire_of (t, body)).
Proof.
  intros H. unfold tagged, wire_of. cbn [fst snd].
  by rewrite uint32_len by (unfold len in *; lia).
Qed.

Definition auth_body (t : Z) (data : bytes) : bytes := be_split 4 t ++ data.

Lemma auth_body_read t data :
  (0 <= t < 2 ^ 32)%Z → readUInt32BE (auth_body t data) 0 = Ok t ∧ drop 4 (auth_body t data) = data.
Proof.
  intros Ht. unfold auth_body, readUInt32BE. split.
  - pose proof (read_be_app 4 [] (be_split 4 t) data (be_split_length 4 t)) as H.
    cbn [app length] in H. by rewrite H, be32.
  - by rewrite drop_app_length' by by rewrite be_split_length.
Qed.

Definition scram_started : ScramState :=
  {| clientFirstMessageBare := client_first_bare; clientNonce := nonce opts;
     serverFirstMessage := []; saltedPassword := []; authMessage := [] |}.
Definition scram_proved (r salt : bytes) (its : Z) : ScramState :=
  {| clientFirstMessageBare := client_first_bare; clientNonce := nonce opts;
     serverFirstMessage := server_first r salt its;
     saltedPassword := hi (nfkc (password opts)) salt its; authMessage := auth_message r salt its |}.

Definition initial_response : bytes :=
  wire_of ("p"%char, str "SCRAM-SHA-256" ++ [NUL] ++
    be_split 4 (len (str "n,," ++ client_first_bare)) ++ str "n,," ++ client_first_bare).
Definition final_response (r proof : bytes) : bytes :=
  wire_of ("p"%char, client_without_proof r ++ str ",p=" ++ base64 proof).

Lemma start_step ms c :
  Forall (λ m, m ≠ [] ∧ (NUL ∉ m) ∧ utf8 m = m) ms → str "SCRAM-SHA-256" ∈ ms →
  (len (user opts) + len (nonce opts) < 2 ^ 30)%Z →
  handleAuth (auth_body 10 (encode_mechanisms ms)) c =
    Ok (emit (Write initial_response) (set_scram (Some scram_started) c)).
Proof.
  intros Hms Hin Hlen. unfold PgConnection.handleAuth.
  destruct (auth_body_read 10 (encode_mechanisms ms) ltac:(lia)) as [-> Hd]. cbn [mbind result_bind].
  change (10 =? 0)%Z with false. change (10 =? 3)%Z with false. change (10 =? 5)%Z with false.
  change (10 =? 10)%Z with true. cbn [negb]. unfold sasl_start. rewrite Hd.
  unfold parseSASLMechanisms.
  pose proof (sasl_mechanisms_write utf8 ms Hms _ [] (le_n _)) as E. cbn [app length] in E.
  rewrite E. clear E.
  rewrite decide_True by done. unfold buildSASLInitialResponse.
  fold client_first_bare. unfold initial_response.
  assert (len (str "n,," ++ client_first_bare) < 2 ^ 30 + 10)%Z as Hb.
  { unfold len, client_first_bare in *. rewrite !length_app.
    cbn [str list_ascii_of_string length]. lia. }
  set (first := str "n,," ++ client_first_bare) in *.
  rewrite uint32_len by (unfold len in *; lia).
  cbn [mbind result_bind]. rewrite tagged_ok; [done|].
  unfold len in *. rewrite !length_app, be_split_length. cbn [str list_ascii_of_string length]. lia.
Qed.

Lemma continue_step c snonce salt its :
  let r := nonce opts ++ snonce in
  scramState c = Some scram_started →
  scram_value (nonce opts) → nonce opts ≠ [] → scram_value snonce → salt ≠ [] →
  (4096 <= its <= 10000000)%Z →
  validateSASLprep (code_points (nfkc (password opts))) = true →
  (len (nonce opts) + len snonce < 2 ^ 30)%Z →
  ∃ proof, proof_accepted (hi (nfkc (password opts)) salt its) (auth_message r salt its) proof ∧
    handleAuth (auth_body 11 (server_first r salt its)) c =
      Ok (emit (Write (final_response r proof)) (set_scram (Some (scram_proved r salt its)) c)).
Proof.
  intros r Hst [Hna Hnc] Hne [Hsa Hsc] Hsalt Hits Hprep Hlen.
  set (salted := hi (nfkc (password opts)) salt its).
  set (key := hmac salted (str "Client Key")).
  exists (xorBuffers key (hmac (sha256 key) (auth_message r salt its))).
  split; [unfold proof_accepted; cbv zeta; fold key; rewrite xor_twice; [done|by unfold key; rewrite !Hhmac]|].
  assert (Forall is_ascii r) as Hra by by apply ascii_app.
  assert (","%char ∉ r) as Hrc by (intros Hx; apply elem_of_app in Hx as [Hx|Hx]; [exact (Hnc Hx)|exact (Hsc Hx)]).
  unfold PgConnection.handleAuth.
  destruct (auth_body_read 11 (server_first r salt its) ltac:(lia)) as [-> Hd]. cbn [mbind result_bind].
  change (11 =? 0)%Z with false. change (11 =? 3)%Z with false. change (11 =? 5)%Z with false.
  change (11 =? 10)%Z with false. change (11 =? 11)%Z with true. cbn iota.
  unfold sasl_continue. rewrite Hst, Hd, Hutf8 by (apply server_first_ascii; [lia|done]).
  rewrite parse_server_first by (lia || done).
  set (params := [(str "r", r); (str "s", base64 salt); (str "i", show its)]).
  change (jm_get (str "r") params) with (Some r).
  change (jm_get (str "s") params) with (Some (base64 salt)).
  change (jm_get (str "i") params) with (Some (show its)).
  rewrite !nonempty_some; [|by apply show_digits; lia|by apply base64_nonempty|].
  2: { subst r. destruct (nonce opts); done. }
  cbn [clientNonce scram_started]. subst r. rewrite is_prefix_app. cbn [negb].
  set (r := nonce opts ++ snonce) in *.
  destruct (Hbase64 salt) as [-> _].
  rewrite <-(app_nil_r (show its)) at 1. assert (10000001 < INFINITY_FROM)%Z as Hinf by done.
  rewrite parseInt_show; [|lia|done].
  rewrite bool_decide_false by done.
  destruct (Z.ltb_spec its 4096); [lia|]. destruct (Z.ltb_spec 10000000 its); [lia|]. cbn [orb].
  rewrite Hprep. cbn [negb]. fold salted. unfold clientFinal. cbn [clientFirstMessageBare fst snd].
  fold (client_without_proof r). change (clientFirstMessageBare scram_started) with client_first_bare.
  fold (auth_message r salt its). fold key.
  unfold buildSASLResponse. rewrite tagged_ok; [done|].
  destruct (Hbase64 (xorBuffers key (hmac (sha256 key) (auth_message r salt its)))) as (_ & _ & Hl).
  unfold len, client_without_proof. unfold len in Hlen. rewrite !length_app.
  assert (length (xorBuffers key (hmac (sha256 key) (auth_message r salt its))) = 32) as H32.
  { unfold xorBuffers. rewrite length_zip_with. unfold key. by rewrite !Hhmac. }
  rewrite H32 in Hl. unfold r at 1. rewrite length_app. cbn [str list_ascii_of_string length]. lia.
Qed.

Lemma final_step c s v :
  scramState c = Some s → v ≠ [] →
  handleAuth (auth_body 12 (server_final v)) c =
    Ok (if decide (v = serverSignature hmac s) then set_scram None c
        else reject_auth (AuthFailed SignatureMismatch) c).
Proof.
  intros Hst Hv. unfold PgConnection.handleAuth.
  destruct (auth_body_read 12 (server_final v) ltac:(lia)) as [-> Hd]. cbn [mbind result_bind].
  change (12 =? 0)%Z with false. change (12 =? 3)%Z with false. change (12 =? 5)%Z with false.
  change (12 =? 10)%Z with false. change (12 =? 11)%Z with false. change (12 =? 12)%Z with true. cbn iota.
  unfold sasl_final. destruct (Hbase64 v) as (Hun & [Ha _] & _).
  rewrite Hst, Hd, Hutf8, parse_server_final by (apply ascii_app; [repeat constructor|done]).
  change (jm_get (str "v") [(str "v", base64 v)]) with (Some (base64 v)).
  rewrite nonempty_some by by apply base64_nonempty. by rewrite Hun.
Qed.

(** C26: with a server that follows RFC 5802 and stores the user's password, the proof that
    the client sends is the one the server accepts; after it the client takes exactly the
    server's signature and refuses every other one. *)
Theorem scram_handshake c ms snonce salt its
    (Hms : Forall (λ m, m ≠ [] ∧ (NUL ∉ m) ∧ utf8 m = m) ms) (Hin : str "SCRAM-SHA-256" ∈ ms)
    (Hnonce : scram_value (nonce opts) ∧ nonce opts ≠ []) (Hsnonce : scram_value snonce)
    (Hsalt : salt ≠ []) (Hits : (4096 <= its <= 10000000)%Z)
    (Hprep : validateSASLprep (code_points (nfkc (password opts))) = true)
    (Hlen : (len (user opts) + len (nonce opts) + len snonce < 2 ^ 30)%Z) :
  let r := nonce opts ++ snonce in
  let salted := hi (nfkc (password opts)) salt its in
  let auth := auth_message r salt its in
  ∃ proof c', proof_accepted salted auth proof ∧
    (c ← handleAuth (auth_body 10 (encode_mechanisms ms)) c;
     handleAuth (auth_body 11 (server_first r salt its)) c) = Ok c' ∧
    log c' = log c ++ [Write initial_response; Write (final_response r proof)] ∧
    authReject c' = authReject c ∧
    ∀ v, v ≠ [] →
      handleAuth (auth_body 12 (server_final v)) c' =
        Ok (if decide (v = signature_of salted auth) then set_scram None c'
            else reject_auth (AuthFailed SignatureMismatch) c').
Proof.
  intros r salted auth. destruct Hnonce as [Hn Hne]. unfold len in Hlen.
  rewrite start_step by (unfold len; done || lia). cbn [mbind result_bind].
  set (c1 := emit (Write initial_response) (set_scram (Some scram_started) c)).
  destruct (continue_step c1 snonce salt its) as (proof & Hproof & Hc); [done..|unfold len; lia|].
  exists proof. eexists. split; [exact Hproof|]. split; [exact Hc|].
  split; [by cbn; rewrite <-(assoc_L (++))|]. split; [done|].
  intros v Hv. by rewrite (final_step _ (scram_proved r salt its)).
Qed.
End scram.

(** ** An instance *)

Definition hex_digit (n : Z) : ascii := nth (Z.to_nat n) (str "0123456789abcdef") NUL.
Definition hex_value (c : ascii) : Z := Z.of_nat (default 0 (indexOf c (str "0123456789abcdef"))).
Definition hex_of (c : ascii) : bytes := [hex_digit (code c / 16); hex_digit (code c mod 16)].
Fixpoint hex (b : bytes) : bytes :=
  match b with [] => [] | c :: b => hex_of c ++ hex b end.
Fixpoint unhex (t : bytes) : bytes :=
  match t with
  | a :: b :: t => byte (hex_value a * 16 + hex_value b) :: unhex t
  | _ => []
  end.
Definition toy_hmac (k m : bytes) : bytes := take 32 (m ++ k ++ replicate 32 "x"%char).

Lemma hex_ok b :
  unhex (hex b) = b ∧ scram_value (hex b) ∧ length b <= length (hex b) <= 2 * length b + 4.
Proof.
  induction b as [|c b (IH & [Ha Hc] & Hl)]; [split_and!; [done|split; [constructor|apply not_elem_of_nil]|cbn; lia..]|].
  assert (unhex (hex_of c) = [c] ∧ Forall is_ascii (hex_of c) ∧ (","%char ∉ hex_of c)) as (H1 & H2 & H3).
  { destruct c as [[] [] [] [] [] [] [] []];
      (split; [reflexivity|split; [repeat constructor|apply (bool_decide_unpack _); vm_compute; exact I]]). }
  cbn [hex]. unfold scram_value. split_and!.
  - cbn in H1 |- *. injection H1 as ->. by rewrite IH.
  - by apply ascii_app.
  - intros H. apply elem_of_app in H as [H|H]; [exact (H3 H)|exact (Hc H)].
  - rewrite length_app. cbn. lia.
  - rewrite length_app. cbn. lia.
Qed.

Lemma toy_hmac_length k m : length (toy_hmac k m) = 32.
Proof. unfold toy_hmac. rewrite length_take, !length_app, length_replicate. lia. Qed.

Definition sample_opts : PgConnectOptions :=
  {| user := str "app"; password := str "secret"; database := str "db"; nonce := str "abc" |}.
Definition sample_handleAuth :=
  handleAuth id toy_hmac id (λ p s _, p ++ s) hex unhex id (map code) sample_opts.

Lemma scram_handshake_witness :
  ∃ proof c', proof_accepted toy_hmac id (str "secretxyz")
      (auth_message hex sample_opts (str "abcdef") (str "xyz") 4096) proof ∧
    (c ← sample_handleAuth (auth_body 10 (encode_mechanisms [str "SCRAM-SHA-256"])) new_conn;
     sample_handleAuth (auth_body 11 (server_first hex (str "abcdef") (str "xyz") 4096)) c) = Ok c' ∧
    log c' = [Write (initial_response sample_opts); Write (final_response hex (str "abcdef") proof)].
Proof.
  destruct (scram_handshake id toy_hmac id (λ p s _, p ++ s) hex unhex id (map code) sample_opts
    (λ t _, eq_refl) hex_ok toy_hmac_length new_conn [str "SCRAM-SHA-256"] (str "def") (str "xyz") 4096)
    as (proof & c' & H1 & H2 & H3 & _).
  - repeat constructor; [discriminate|apply (bool_decide_unpack _); vm_compute; exact I].
  - left.
  - split; [split|discriminate]; [repeat constructor|apply (bool_decide_unpack _); vm_compute; exact I].
  - split; [repeat constructor|apply (bool_decide_unpack _); vm_compute; exact I].
  - discriminate.
  - lia.
  - reflexivity.
  - vm_compute. reflexivity.
  - exists proof, c'. split; [exact H1|]. split; [exact H2|exact H3].
Defined.
