(* ===== verification/AmqpCodec.v ===== *)
(** * AMQP 0-9-1: the wire codec

    Models src/packages/core/src/transports/rabbitmq/codec.ts: the field encodings of
    [AmqpWriter] and [AmqpReader], the frame builders, and the incremental [FrameDecoder].

    A method of the writer is given by the bytes that it appends; a reader by the bytes
    from its offset on (an offset behind the end reads as the end: every read there throws
    or is empty).  A JavaScript string is given by its UTF-8 bytes. *)

From Stdlib Require Import Ascii String.
From S2P Require Import Prelude JsText JsInt Bytes.

Open Scope Z_scope.
#[local] Open Scope list_scope.

#[local] Abbreviation bytes := (list ascii) (only parsing).

Definition FRAME_METHOD : Z := 1.
Definition FRAME_HEADER : Z := 2.
Definition FRAME_BODY : Z := 3.
Definition FRAME_HEARTBEAT : Z := 8.
Definition FRAME_END : Z := 206.

Record RawFrame : Type := { frame_type : Z; channel : Z; payload : bytes }.

Definition PROTOCOL_HEADER : bytes := byte <$> [65; 77; 81; 80; 0; 0; 9; 1].

Inductive amqp_error : Type :=
| OutOfRange                          (* [RangeError] of a read or a write *)
| ShortStringTooLong
| FrameEndMismatch (end_ : Z)
| NotConnected.

Definition amqp {A} (r : result range_error A) : result amqp_error A :=
  match r with Ok a => Ok a | Throw _ => Throw OutOfRange end.

(** ** Writer *)

Definition octet (v : Z) : bytes := [byte (Z.land v 255)].
Definition shortUint (v : Z) : bytes := be_split 2 (Z.land v 65535).
Definition longUint (v : Z) : bytes := be_split 4 (to_uint32 v).
Definition longLong (v : Z) : result amqp_error bytes :=
  if (0 <=? v) && (v <? 2 ^ 64) then Ok (be_split 8 v) else Throw OutOfRange.

Definition shortStr (s : bytes) : result amqp_error bytes :=
  if (255 <? length s)%nat then Throw ShortStringTooLong else Ok (octet (len s) ++ s).
Definition longStr (s : bytes) : bytes := longUint (len s) ++ s.

(** The values of a field table: strings, booleans, integers, objects (arrays included)
    given by their entries, and everything else, which is sent as void. *)
Inductive field : Type :=
| FString (s : bytes)
| FBool (b : bool)
| FInt (z : Z)
| FTable (entries : list (bytes * field))
| FVoid.

Section entries.
Context (write : field → result amqp_error bytes).
Fixpoint write_entries (es : list (bytes * field)) : result amqp_error bytes :=
  match es with
  | [] => Ok []
  | (k, v) :: es =>
      kb ← shortStr k; vb ← write v; rest ← write_entries es; Ok (kb ++ vb ++ rest)
  end.
End entries.

Fixpoint write_field (v : field) : result amqp_error bytes :=
  match v with
  | FString s => Ok (octet 83 ++ longStr s)
  | FBool b => Ok (octet 116 ++ octet (if b then 1 else 0))
  | FInt z => b ← amqp (int32 z); Ok (octet 73 ++ b)
  | FTable es => body ← write_entries write_field es; Ok (octet 70 ++ longUint (len body) ++ body)
  | FVoid => Ok (octet 86)
  end.
Definition table (obj : list (bytes * field)) : result amqp_error bytes :=
  body ← write_entries write_field obj; Ok (longUint (len body) ++ body).

(** The loop of [bits] at flag [i] with the octet so far. *)
Fixpoint bits_from (i : nat) (acc : Z) (flags : list bool) : bytes :=
  match flags with
  | [] => if (i mod 8 =? 0)%nat then [] else octet acc
  | f :: flags =>
      let acc := if f then Z.lor acc (Z.shiftl 1 (Z.of_nat (i mod 8))) else acc in
      if (S i mod 8 =? 0)%nat then octet acc ++ bits_from (S i) 0 flags
      else bits_from (S i) acc flags
  end.
Definition bits (flags : list bool) : bytes := bits_from 0 0 flags.

(** ** Reader *)

Definition reader (A : Type) : Type := bytes → result amqp_error (A * bytes).
#[export] Instance reader_ret : MRet reader := λ A a b, Ok (a, b).
#[export] Instance reader_bind : MBind reader := λ A B f m b,
  match m b with Ok (a, rest) => f a rest | Throw e => Throw e end.

Definition read_uint (n : nat) : reader Z := λ b,
  match take_be n b with Some r => Ok r | None => Throw OutOfRange end.
Definition read_octet : reader Z := read_uint 1.
Definition read_shortUint : reader Z := read_uint 2.
Definition read_longUint : reader Z := read_uint 4.
Definition read_longLong : reader Z := read_uint 8.

(** [subarray(offset, offset + len)], which stops at the end of the buffer, and the move of
    the offset, which does not. *)
Definition read_bytes (n : Z) : reader bytes := λ b, Ok (take (Z.to_nat n) b, drop (Z.to_nat n) b).

Section utf8.
Context (utf8 : bytes → bytes).      (* [toString('utf8')] *)
Definition read_shortStr : reader bytes :=
  n ← read_octet; s ← read_bytes n; mret (utf8 s).
End utf8.
Definition read_longStr : reader bytes := n ← read_longUint; read_bytes n.
Definition skipTable : reader unit := n ← read_longUint; _ ← read_bytes n; mret tt.
Definition read_bit : reader bool := v ← read_octet; mret (Z.land v 1 =? 1).

(** ** Frames *)

Definition uint8 (z : Z) : result range_error bytes :=
  if (0 <=? z) && (z <? 2 ^ 8) then Ok (be_split 1 z) else Throw RangeError.

Definition buildFrame (type channel : Z) (payload : bytes) : result amqp_error bytes :=
  t ← amqp (uint8 type); c ← amqp (uint16 channel); l ← amqp (uint32 (len payload));
  Ok (t ++ c ++ l ++ payload ++ [byte FRAME_END]).

Definition buildMethodFrame (channel classId methodId : Z) (args : bytes) :=
  buildFrame FRAME_METHOD channel (shortUint classId ++ shortUint methodId ++ args).

(** The properties that a content header can carry. *)
Record Properties : Type := { contentType : option bytes; deliveryMode : option Z }.

Definition buildHeaderFrame (channel classId bodySize : Z) (properties : Properties) :
    result amqp_error bytes :=
  size ← longLong bodySize;
  let flags := Z.lor (if contentType properties is Some _ then 32768 else 0)
                     (if deliveryMode properties is Some _ then 4096 else 0) in
  ct ← (match contentType properties with Some t => shortStr t | None => Ok [] end);
  let dm := match deliveryMode properties with Some m => octet m | None => [] end in
  buildFrame FRAME_HEADER channel
    (shortUint classId ++ shortUint 0 ++ size ++ shortUint flags ++ ct ++ dm).

Definition buildBodyFrame (channel : Z) (body : bytes) := buildFrame FRAME_BODY channel body.
Definition buildHeartbeat : result amqp_error bytes := buildFrame FRAME_HEARTBEAT 0 [].

(** [FrameDecoder.next]: the frame and the rest of the buffer, [None] when no frame is
    complete. *)
Definition next (buf : bytes) : result amqp_error (option (RawFrame * bytes)) :=
  if (length buf <? 7)%nat then Ok None
  else
    type ← amqp (read_be 1 buf 0);
    channel ← amqp (readUInt16BE buf 1);
    size ← amqp (readUInt32BE buf 3);
    if len buf <? 7 + size + 1 then Ok None
    else
      let n := Z.to_nat size in
      end_ ← amqp (read_be 1 buf (7 + n));
      if end_ =? FRAME_END then
        Ok (Some ({| frame_type := type; channel := channel; payload := take n (drop 7 buf) |},
                  drop (7 + n + 1) buf))
      else Throw (FrameEndMismatch end_).

(** [push] appends the chunk. *)
Definition push (buf chunk : bytes) : bytes := buf ++ chunk.

Definition readMethodHeader : reader (Z * Z) :=
  classId ← read_shortUint; methodId ← read_shortUint; mret (classId, methodId).

(** ** What the reader reads back *)

Lemma read_uint_split n z rest :
  0 <= z < 256 ^ Z.of_nat n → read_uint n (be_split n z ++ rest) = Ok (z, rest).
Proof. intros Hz. unfold read_uint. by rewrite take_be_split. Qed.

Lemma land_range z n : 0 <= n → 0 <= Z.land z (Z.ones n) < 2 ^ n.
Proof. intros Hn. rewrite Z.land_ones by done. apply Z.mod_pos_bound. lia. Qed.

Lemma byte_split z : [byte z] = be_split 1 z.
Proof. done. Qed.

Lemma read_octet_octet v rest : read_octet (octet v ++ rest) = Ok (Z.land v 255, rest).
Proof. unfold octet. rewrite byte_split. apply read_uint_split. apply (land_range v 8). lia. Qed.

Lemma read_shortUint_shortUint v rest :
  read_shortUint (shortUint v ++ rest) = Ok (Z.land v 65535, rest).
Proof. apply read_uint_split. apply (land_range v 16). lia. Qed.

Lemma read_longUint_longUint v rest : read_longUint (longUint v ++ rest) = Ok (to_uint32 v, rest).
Proof. apply read_uint_split. unfold to_uint32. apply Z.mod_pos_bound. lia. Qed.

Lemma read_longLong_longLong v b rest :
  longLong v = Ok b → read_longLong (b ++ rest) = Ok (v, rest).
Proof.
  unfold longLong. destruct (Z.leb_spec 0 v), (Z.ltb_spec v (2 ^ 64)); try discriminate.
  intros <-%Ok_inj. by apply read_uint_split.
Qed.

Lemma land_small v n : 0 <= n → 0 <= v < 2 ^ n → Z.land v (Z.ones n) = v.
Proof. intros. rewrite Z.land_ones by done. by apply Z.mod_small. Qed.

Lemma read_bytes_app s rest : read_bytes (len s) (s ++ rest) = Ok (s, rest).
Proof. unfold read_bytes, len. by rewrite Nat2Z.id, take_app_length, drop_app_length. Qed.

Lemma read_shortStr_shortStr utf8 s b rest :
  shortStr s = Ok b → read_shortStr utf8 (b ++ rest) = Ok (utf8 s, rest).
Proof.
  unfold shortStr. destruct (Nat.ltb_spec 255 (length s)); [discriminate|]. intros <-%Ok_inj.
  rewrite <-(assoc_L (++)). unfold read_shortStr, mbind, reader_bind.
  rewrite read_octet_octet. change 255 with (Z.ones 8).
  rewrite land_small by (unfold len; lia). by rewrite read_bytes_app.
Qed.

Lemma read_longStr_longStr s rest :
  len s < 2 ^ 32 → read_longStr (longStr s ++ rest) = Ok (s, rest).
Proof.
  intros Hs. unfold longStr. rewrite <-(assoc_L (++)). unfold read_longStr, mbind, reader_bind.
  rewrite read_longUint_longUint, to_uint32_small by (unfold len in *; lia). apply read_bytes_app.
Qed.

Lemma skipTable_table obj b rest :
  table obj = Ok b → len b < 2 ^ 32 → skipTable (b ++ rest) = Ok (tt, rest).
Proof.
  unfold table. intros (body & _ & <-%Ok_inj)%result_bind_ok Hb.
  unfold len in Hb. rewrite length_app in Hb. unfold longUint in Hb. rewrite be_split_length in Hb.
  rewrite <-(assoc_L (++)). unfold skipTable, mbind, reader_bind.
  rewrite read_longUint_longUint, to_uint32_small by (unfold len; lia).
  by rewrite read_bytes_app.
Qed.

(** ** Field tables, as a peer reads them

    The grammar of AMQP tables, restricted to the types that the writer uses.  Names and
    texts are compared as bytes. *)

Section grammar.
Context (value : reader field).
Fixpoint parse_entries (n : nat) (b : bytes) : result amqp_error (list (bytes * field)) :=
  match n, b with
  | _, [] => Ok []
  | O, _ => Throw OutOfRange
  | S n, _ =>
      r ← read_shortStr id b; v ← value r.2; es ← parse_entries n v.2; Ok ((r.1, v.1) :: es)
  end.
End grammar.

Definition parse_long (v : Z) : Z := if v <? 2 ^ 31 then v else v - 2 ^ 32.

Definition whole {A} (r : result amqp_error A) : reader A := λ rest,
  match r with Ok a => Ok (a, rest) | Throw e => Throw e end.

(** A table of entries, whose values are read by [value]. *)
Definition parse_entries_of (value : nat → reader field) : reader (list (bytes * field)) :=
  body ← read_longStr; whole (parse_entries (value (length body)) (length body) body).

Definition parse_tagged (value : reader field) (tag : Z) : reader field :=
  match tag with
  | 83 => s ← read_longStr; mret (FString s)
  | 116 => v ← read_octet; mret (FBool (negb (v =? 0)))
  | 73 => v ← read_longUint; mret (FInt (parse_long v))
  | 70 => es ← parse_entries_of (λ _, value); mret (FTable es)
  | 86 => mret FVoid
  | _ => λ _, Throw OutOfRange
  end.
Fixpoint parse_value (fuel : nat) : reader field :=
  match fuel with
  | O => λ _, Throw OutOfRange
  | S fuel => tag ← read_octet; parse_tagged (parse_value fuel) tag
  end.
Definition parse_table : reader (list (bytes * field)) := parse_entries_of parse_value.

Lemma shortStr_length s b : shortStr s = Ok b → (1 <= length b)%nat.
Proof. unfold shortStr. case_match; [discriminate|]. intros <-%Ok_inj. cbn. lia. Qed.

Lemma write_field_length v b : write_field v = Ok b → (1 <= length b)%nat.
Proof.
  destruct v; cbn [write_field]; try (intros <-%Ok_inj; cbn; lia).
  - intros (x & _ & <-%Ok_inj)%result_bind_ok. cbn. lia.
  - intros (x & _ & <-%Ok_inj)%result_bind_ok. cbn. lia.
Qed.

Lemma parse_entries_written value es : ∀ b n,
  (∀ v vb rest, (length vb <= length b)%nat → write_field v = Ok vb → value (vb ++ rest) = Ok (v, rest)) →
  write_entries write_field es = Ok b → (length b <= n)%nat →
  parse_entries value n b = Ok es.
Proof.
  induction es as [|[k v] es IH]; intros b n Hv; cbn [write_entries].
  - intros <-%Ok_inj _. by destruct n.
  - intros (kb & Hk & (vb & Hvb & (rb & Hr & <-%Ok_inj)%result_bind_ok)%result_bind_ok)%result_bind_ok Hn.
    rewrite !length_app in Hn. pose proof (shortStr_length _ _ Hk) as H1.
    pose proof (write_field_length _ _ Hvb) as H2. destruct n as [|n]; [lia|].
    destruct kb as [|c kb]; [cbn in H1; lia|]. cbn [app parse_entries].
    change (c :: kb ++ vb ++ rb) with ((c :: kb) ++ vb ++ rb).
    rewrite (read_shortStr_shortStr _ _ _ _ Hk). cbn [mbind result_bind fst snd].
    rewrite (Hv v vb); [|rewrite !length_app; lia|done]. cbn [mbind result_bind fst snd].
    rewrite (IH rb n); [done| |done|lia].
    intros v' vb' rest Hle. apply Hv. rewrite !length_app. lia.
Qed.

Lemma parse_long_mod z : - 2 ^ 31 <= z < 2 ^ 31 → parse_long (z mod 2 ^ 32) = z.
Proof.
  intros Hz. unfold parse_long. destruct (Z.le_gt_cases 0 z).
  - rewrite Z.mod_small by lia. destruct (Z.ltb_spec z (2 ^ 31)); lia.
  - replace (z mod 2 ^ 32) with (z + 2 ^ 32).
    + destruct (Z.ltb_spec (z + 2 ^ 32) (2 ^ 31)); lia.
    + rewrite <-(Z.mod_add z 1) by lia. rewrite Z.mod_small; lia.
Qed.

Lemma parse_entries_of_written value es body rest :
  len body < 2 ^ 32 → write_entries write_field es = Ok body →
  (∀ v vb rest, (length vb <= length body)%nat → write_field v = Ok vb →
    value (length body) (vb ++ rest) = Ok (v, rest)) →
  parse_entries_of value ((longUint (len body) ++ body) ++ rest) = Ok (es, rest).
Proof.
  intros Hl Hes Hv. unfold parse_entries_of, mbind, reader_bind.
  change (longUint (len body) ++ body) with (longStr body). rewrite read_longStr_longStr by done.
  by rewrite (parse_entries_written _ es).
Qed.

Lemma table_body_length z b : length (longUint z ++ b) = (4 + length b)%nat.
Proof. rewrite length_app. unfold longUint. by rewrite be_split_length. Qed.

Lemma parse_value_written fuel : ∀ v b rest,
  (length b <= fuel)%nat → len b < 2 ^ 32 → write_field v = Ok b →
  parse_value fuel (b ++ rest) = Ok (v, rest).
Proof.
  induction fuel as [|fuel IH]; intros v b rest Hb Hl Hw.
  { apply write_field_length in Hw. lia. }
  assert (∀ t x k, Z.land t 255 = t → parse_value (S fuel) ((octet t ++ x) ++ k) =
    parse_tagged (parse_value fuel) t (x ++ k)) as Htag.
  { intros t x k Ht. rewrite <-(assoc_L (++)). cbn [parse_value]. unfold mbind, reader_bind.
    by rewrite read_octet_octet, Ht. }
  destruct v as [s|flag|z|es|]; cbn [write_field] in Hw.
  - apply Ok_inj in Hw as <-. unfold len in Hl. rewrite length_app in Hl. unfold longStr in Hl.
    rewrite table_body_length in Hl. rewrite Htag by done. cbn [parse_tagged].
    unfold mbind, reader_bind. by rewrite read_longStr_longStr by (unfold len; lia).
  - apply Ok_inj in Hw as <-. rewrite Htag by done. cbn [parse_tagged].
    unfold mbind, reader_bind. rewrite read_octet_octet. by destruct flag.
  - apply result_bind_ok in Hw as (zb & Hz & <-%Ok_inj). unfold int32, amqp in Hz.
    destruct (Z.leb_spec (- 2 ^ 31) z), (Z.ltb_spec z (2 ^ 31)); try discriminate.
    apply Ok_inj in Hz as <-. rewrite Htag by done. cbn [parse_tagged].
    unfold mbind, reader_bind, read_longUint. rewrite (read_uint_split 4) by (apply Z.mod_pos_bound; lia).
    unfold mret, reader_ret. by rewrite parse_long_mod.
  - apply result_bind_ok in Hw as (body & Hes & <-%Ok_inj).
    unfold len in Hl. rewrite length_app, table_body_length in Hb, Hl. cbn [length octet] in Hb.
    rewrite Htag by done. cbn [parse_tagged]. unfold mbind at 1, reader_bind.
    rewrite (parse_entries_of_written _ es body); [done|unfold len; lia|done|].
    intros v' vb rest' Hle. apply IH; [lia|unfold len; lia].
  - apply Ok_inj in Hw as <-. by apply (Htag 86 []).
Qed.

Lemma table_read_back obj b rest :
  table obj = Ok b → len b < 2 ^ 32 → parse_table (b ++ rest) = Ok (obj, rest).
Proof.
  unfold table. intros (body & Hes & <-%Ok_inj)%result_bind_ok Hl.
  unfold len in Hl. rewrite table_body_length in Hl.
  apply parse_entries_of_written; [unfold len; lia|done|].
  intros v vb rest' Hle. apply parse_value_written; [done|unfold len; lia].
Qed.

(** ** Frames on the wire *)

Lemma read_be_grow n b x off z : read_be n b off = Ok z → read_be n (b ++ x) off = Ok z.
Proof.
  unfold read_be. rewrite length_app. destruct (Nat.leb_spec (off + n) (length b)); [|discriminate].
  intros <-%Ok_inj. destruct (Nat.leb_spec (off + n) (length b + length x)); [|lia].
  by rewrite drop_app_le, take_app_le by (rewrite ?length_drop; lia).
Qed.

Lemma amqp_ok {A} (r : result range_error A) a : amqp r = Ok a ↔ r = Ok a.
Proof. destruct r; cbn; split; intros; congruence. Qed.

(** A decoded frame, part by part. *)
Lemma next_parts b :
  next b ≠ Ok None →
  ∃ t c size e, read_be 1 b 0 = Ok t ∧ readUInt16BE b 1 = Ok c ∧ readUInt32BE b 3 = Ok size ∧
    0 <= size ∧ 7 + size + 1 <= len b ∧ read_be 1 b (7 + Z.to_nat size) = Ok e ∧
    next b = if e =? FRAME_END then
        Ok (Some ({| frame_type := t; channel := c; payload := take (Z.to_nat size) (drop 7 b) |},
                  drop (7 + Z.to_nat size + 1) b))
      else Throw (FrameEndMismatch e).
Proof.
  unfold next. destruct (Nat.ltb_spec (length b) 7) as [|H7]; [done|].
  destruct (read_be_safe 1 b 0) as [t Ht]; [lia|]. destruct (read_be_safe 2 b 1) as [c Hc]; [lia|].
  destruct (read_be_safe 4 b 3) as [size Hsize]; [lia|]. intros Hn.
  unfold readUInt16BE, readUInt32BE in *. rewrite Ht, Hc, Hsize in *.
  cbn [amqp mbind result_bind] in *.
  destruct (Z.ltb_spec (len b) (7 + size + 1)) as [|Hl]; [done|].
  assert (0 <= size) as Hpos.
  { unfold read_be in Hsize. case_match; [|discriminate]. apply Ok_inj in Hsize as <-.
    apply be_combine_range. }
  destruct (read_be_safe 1 b (7 + Z.to_nat size)) as [e He]; [unfold len in Hl; lia|].
  exists t, c, size, e. rewrite He. by split_and!.
Qed.

Lemma next_grow b x r : next b = r → r ≠ Ok None →
  next (b ++ x) = match r with Ok (Some (f, rest)) => Ok (Some (f, rest ++ x)) | r => r end.
Proof.
  intros Hr Hne. destruct (next_parts b) as (t & c & size & e & Ht & Hc & Hs & H0 & Hl & He & En);
    [congruence|].
  assert (next (b ++ x) = if e =? FRAME_END then
      Ok (Some ({| frame_type := t; channel := c; payload := take (Z.to_nat size) (drop 7 (b ++ x)) |},
                drop (7 + Z.to_nat size + 1) (b ++ x)))
    else Throw (FrameEndMismatch e)) as ->.
  { unfold next. unfold len in Hl |- *. rewrite length_app.
    destruct (Nat.ltb_spec (length b + length x) 7); [lia|].
    unfold readUInt16BE, readUInt32BE in *.
    rewrite (read_be_grow 1 b x 0 t), (read_be_grow 2 b x 1 c), (read_be_grow 4 b x 3 size) by done.
    cbn [amqp mbind result_bind].
    destruct (Z.ltb_spec (Z.of_nat (length b + length x)) (7 + size + 1)); [lia|].
    by rewrite (read_be_grow 1 b x _ e). }
  subst r. rewrite En. unfold len in Hl. destruct (e =? FRAME_END); [|done].
  rewrite !drop_app_le, take_app_le by (rewrite ?length_drop; lia). done.
Qed.

(** [next] without its throw: a decoder that has stopped for good. *)
Definition next_ok (buf : bytes) : option (RawFrame * bytes) :=
  match next buf with Ok o => o | Throw _ => None end.

#[export] Instance next_ok_framing : Framing next_ok.
Proof.
  split; unfold next_ok.
  - intros b f rest Hn. destruct (next b) as [[p|]|] eqn:E; [|done..]. injection Hn as ->.
    destruct (next_parts b) as (t & c & size & e & _ & _ & _ & H0 & Hl & _ & En); [congruence|].
    rewrite E in En. destruct (e =? FRAME_END); [|done]. injection En as _ ->.
    unfold len in Hl. rewrite length_drop. lia.
  - intros b x f rest Hn. destruct (next b) as [[p|]|] eqn:E; [|done..]. injection Hn as ->.
    by rewrite (next_grow b x _ E).
Qed.

Lemma uint8_ok z b : uint8 z = Ok b ↔ 0 <= z < 2 ^ 8 ∧ b = be_split 1 z.
Proof.
  unfold uint8. destruct (Z.leb_spec 0 z), (Z.ltb_spec z (2 ^ 8)); cbn [andb]; split;
    try (intros <-%Ok_inj; split; [lia|done]); try (intros [? ->]; done || lia); discriminate.
Qed.

Lemma buildFrame_next t c p b rest :
  buildFrame t c p = Ok b →
  next (b ++ rest) = Ok (Some ({| frame_type := t; channel := c; payload := p |}, rest)).
Proof.
  unfold buildFrame.
  intros (tb & [Ht ->]%amqp_ok%uint8_ok & (cb & [Hc ->]%amqp_ok%uint16_ok &
    (lb & [Hl ->]%amqp_ok%uint32_ok & <-%Ok_inj)%result_bind_ok)%result_bind_ok)%result_bind_ok.
  assert (∀ n z, length (be_split n z) = n) as Hlen by (intros; apply be_split_length).
  unfold next. rewrite <-!(assoc_L (++)). rewrite !length_app, !Hlen. cbn [length].
  destruct (Nat.ltb_spec (1 + (2 + (4 + (length p + (1 + length rest))))) 7); [lia|].
  set (tail := p ++ [byte FRAME_END] ++ rest).
  assert (read_be 1 (be_split 1 t ++ be_split 2 c ++ be_split 4 (len p) ++ tail) 0 = Ok t) as ->.
  { pose proof (read_be_app 1 [] (be_split 1 t) (be_split 2 c ++ be_split 4 (len p) ++ tail)) as E.
    cbn [app length] in E. rewrite E by done. by rewrite be_combine_split, Z.mod_small by done. }
  assert (readUInt16BE (be_split 1 t ++ be_split 2 c ++ be_split 4 (len p) ++ tail) 1 = Ok c) as ->.
  { pose proof (read_be_app 2 (be_split 1 t) (be_split 2 c) (be_split 4 (len p) ++ tail)) as E.
    rewrite !Hlen in E. unfold readUInt16BE. rewrite E by done. by rewrite be16. }
  assert (readUInt32BE (be_split 1 t ++ be_split 2 c ++ be_split 4 (len p) ++ tail) 3 = Ok (len p)) as ->.
  { pose proof (read_be_app 4 (be_split 1 t ++ be_split 2 c) (be_split 4 (len p)) tail) as E.
    rewrite !length_app, !Hlen, <-!(assoc_L (++)) in E. change (1 + 2)%nat with 3%nat in E.
    unfold readUInt32BE. rewrite E by done. by rewrite be32. }
  cbn [amqp mbind result_bind]. unfold len at 1. rewrite !length_app, !Hlen. subst tail.
  rewrite !length_app. cbn [length].
  destruct (Z.ltb_spec (Z.of_nat (1 + (2 + (4 + (length p + (1 + length rest)))))) (7 + len p + 1));
    [unfold len in *; lia|].
  unfold len. rewrite Nat2Z.id.
  set (h := be_split 1 t ++ be_split 2 c ++ be_split 4 (Z.of_nat (length p))).
  assert (length h = 7%nat) as Hh by (unfold h; rewrite !length_app, !Hlen; done).
  assert (be_split 1 t ++ be_split 2 c ++ be_split 4 (Z.of_nat (length p)) ++ p ++ [byte FRAME_END] ++ rest
    = (h ++ p) ++ [byte FRAME_END] ++ rest) as -> by (unfold h; by rewrite <-!(assoc_L (++))).
  assert (7 + length p = length (h ++ p))%nat as -> by (rewrite length_app; lia).
  rewrite (read_be_app 1) by done. cbn [amqp mbind result_bind]. 
  assert ((be_combine [byte FRAME_END] =? FRAME_END) = true) as -> by done. do 2 f_equal.
  rewrite <-(assoc_L (++)). rewrite (drop_app_length' h) by done. rewrite take_app_length.
  rewrite (assoc_L (++) h p), (assoc_L (++) (h ++ p)), drop_app_length' by (rewrite !length_app; cbn; lia).
  done.
Qed.

Lemma buildFrame_ok t c p :
  0 <= t < 2 ^ 8 → 0 <= c < 2 ^ 16 → len p < 2 ^ 32 → ∃ b, buildFrame t c p = Ok b.
Proof.
  intros Ht Hc Hl. unfold buildFrame.
  assert (uint8 t = Ok (be_split 1 t)) as -> by by apply uint8_ok.
  assert (uint16 c = Ok (be_split 2 c)) as -> by by apply uint16_ok.
  assert (uint32 (len p) = Ok (be_split 4 (len p))) as ->.
  { apply uint32_ok. split; [unfold len in *; lia|done]. }
  by eexists.
Qed.

Lemma buildFrame_wire t c p b :
  buildFrame t c p = Ok b →
  frame_wire next_ok {| frame_type := t; channel := c; payload := p |} b.
Proof. intros Hb rest. unfold next_ok. by rewrite (buildFrame_next _ _ _ _ _ Hb). Qed.

(** ** Flags *)

Lemma testbit_set acc k i f :
  0 <= i → 0 <= k →
  Z.testbit (if f : bool then Z.lor acc (Z.shiftl 1 k) else acc) i =
  (Z.testbit acc i || (f && (i =? k)))%bool.
Proof.
  intros Hi Hk. destruct f; [|by rewrite orb_false_r]. rewrite Z.lor_spec, Z.shiftl_1_l.
  f_equal. rewrite Z.pow2_bits_eqb by done. cbn. apply Z.eqb_sym.
Qed.

Lemma octet_bits v k : 0 <= k < 8 → Z.testbit (code (byte (Z.land v 255))) k = Z.testbit v k.
Proof.
  intros Hk. rewrite code_byte. change 256 with (2 ^ 8). rewrite Z.mod_pow2_bits_low by lia.
  change 255 with (Z.ones 8). rewrite Z.land_spec, Z.ones_spec_low, andb_true_r by lia. done.
Qed.

Lemma mod_succ8 i : (S i mod 8 = 0 ∧ i mod 8 = 7 ∨ S i mod 8 = S (i mod 8) ∧ i mod 8 < 7)%nat.
Proof.
  pose proof (Nat.div_mod_eq i 8). pose proof (Nat.mod_upper_bound i 8 ltac:(lia)).
  destruct (decide (i mod 8 = 7)%nat) as [E|].
  - left. split; [|done]. symmetry. apply (Nat.mod_unique _ _ (S (i / 8))); lia.
  - right. split; [|lia]. symmetry. apply (Nat.mod_unique _ _ (i / 8)); lia.
Qed.

(** The octet in progress ends up with the flags that it has so far. *)
Lemma bits_from_first flags : ∀ i acc, (0 < i mod 8)%nat →
  ∃ c rest, bits_from i acc flags = c :: rest ∧
    ∀ k, (k < i mod 8)%nat → Z.testbit (code c) (Z.of_nat k) = Z.testbit acc (Z.of_nat k).
Proof.
  induction flags as [|f flags IH]; intros i acc Hi; cbn [bits_from];
    pose proof (Nat.mod_upper_bound i 8 ltac:(lia)).
  - destruct (Nat.eqb_spec (i mod 8) 0); [lia|]. do 2 eexists. split; [done|].
    intros k Hk. apply octet_bits. lia.
  - set (acc' := if f then _ else _).
    assert (∀ k, (k < i mod 8)%nat → Z.testbit acc' (Z.of_nat k) = Z.testbit acc (Z.of_nat k)) as Hacc.
    { intros k Hk. unfold acc'. rewrite testbit_set by lia.
      destruct (Z.eqb_spec (Z.of_nat k) (Z.of_nat (i mod 8))); [lia|]. by rewrite andb_false_r, orb_false_r. }
    destruct (Nat.eqb_spec (S i mod 8) 0).
    + do 2 eexists. split; [done|]. intros k Hk. rewrite octet_bits by lia. by apply Hacc.
    + destruct (mod_succ8 i) as [|[E _]]; [lia|]. destruct (IH (S i) acc') as (c & rest & -> & Hc); [lia|].
      exists c, rest. split; [done|]. intros k Hk. rewrite Hc by lia. by apply Hacc.
Qed.

Lemma bits_from_spec flags : ∀ i acc j f,
  (∀ k, (i mod 8 <= k)%nat → Z.testbit acc (Z.of_nat k) = false) → flags !! j = Some f →
  ∃ c, bits_from i acc flags !! ((i mod 8 + j) / 8)%nat = Some c ∧
    Z.testbit (code c) (Z.of_nat ((i mod 8 + j) mod 8)) = f.
Proof.
  induction flags as [|g flags IH]; intros i acc j f Hacc Hj; [done|].
  pose proof (Nat.mod_upper_bound i 8 ltac:(lia)) as Hi.
  cbn [bits_from]. set (acc' := if g then _ else _).
  assert (Z.testbit acc' (Z.of_nat (i mod 8)) = g) as Hg.
  { unfold acc'. rewrite testbit_set, Hacc, Z.eqb_refl, andb_true_r by lia. done. }
  assert (∀ k, (S (i mod 8) <= k)%nat → Z.testbit acc' (Z.of_nat k) = false) as Hacc'.
  { intros k Hk. unfold acc'. rewrite testbit_set, Hacc by lia.
    destruct (Z.eqb_spec (Z.of_nat k) (Z.of_nat (i mod 8))); [lia|]. by rewrite andb_false_r. }
  destruct j as [|j]; cbn [lookup list_lookup] in Hj.
  - injection Hj as <-. rewrite Nat.add_0_r, Nat.div_small, Nat.Div0.mod_mod by lia.
    destruct (Nat.eqb_spec (S i mod 8) 0).
    + eexists. split; [done|]. by rewrite octet_bits by lia.
    + destruct (mod_succ8 i) as [|[E _]]; [lia|].
      destruct (bits_from_first flags (S i) acc') as (c & rest & -> & Hc); [lia|].
      exists c. split; [done|]. by rewrite Hc by lia.
  - destruct (mod_succ8 i) as [[E E7]|[E Elt]]; rewrite E.
    + destruct (IH (S i) 0 j f) as (c & Hl & Hc); [intros; apply Z.testbit_0_l|done|].
      rewrite E in Hl, Hc. exists c. cbn [Nat.eqb].
      replace (i mod 8 + S j)%nat with (j + 1 * 8)%nat by lia.
      rewrite Nat.div_add, Nat.Div0.mod_add by lia. split; [|done].
      unfold octet. replace (j / 8 + 1)%nat with (S (j / 8)) by lia. done.
    + destruct (IH (S i) acc' j f) as (c & Hl & Hc); [intros k Hk; apply Hacc'; lia|done|].
      rewrite E in Hl, Hc. exists c. cbn [Nat.eqb].
      replace (i mod 8 + S j)%nat with (S (i mod 8) + j)%nat by lia. done.
Qed.

(** ** Properties *)

(** A frame and what its builder writes. *)
Definition frame_built (f : RawFrame) (b : bytes) : Prop :=
  buildFrame (frame_type f) (channel f) (payload f) = Ok b.

Lemma frame_built_wire f b : frame_built f b → frame_wire next_ok f b.
Proof. destruct f. apply buildFrame_wire. Qed.

Lemma frames_built_wires fs bs : Forall2 frame_built fs bs → Forall2 (frame_wire next_ok) fs bs.
Proof. intros H. eapply Forall2_impl; [exact H|apply frame_built_wire]. Qed.

Lemma next_stuck later e : ∀ bad, next bad = Throw e → next (foldl push bad later) = Throw e.
Proof.
  induction later as [|x later IH]; intros bad Hbad; [done|]. cbn [foldl]. apply IH.
  exact (next_grow bad x _ Hbad ltac:(done)).
Qed.

(** However the network cuts a sequence of built frames into chunks, the decoder yields
    exactly these frames in order and keeps nothing; and if an octet other than the frame
    end follows where one belongs, [next] throws the same error for whatever comes after:
    the decoder never gets past it. *)
Theorem amqp_frames_roundtrip (fs : list RawFrame) (bs chunks : list bytes) (bad : bytes) e
    (Hfs : Forall2 frame_built fs bs) (Hc : mjoin chunks = mjoin bs ++ bad)
    (Hbad : bad = [] ∨ next bad = Throw e) :
  foldl (receive next_ok) ([], []) chunks = (fs, bad) ∧
  (bad ≠ [] → ∀ later, next (foldl push bad later) = Throw e).
Proof.
  split.
  - rewrite (receive_drain next_ok), Hc, (framing_wires next_ok fs) by by apply frames_built_wires.
    assert (drain next_ok bad = ([], bad)) as ->; [|by rewrite app_nil_r].
    rewrite (drain_unfold next_ok). unfold next_ok. by destruct Hbad as [-> | ->].
  - intros Hne later. destruct Hbad as [|Hbad]; [done|]. by apply next_stuck.
Qed.

(** a field table that is written is read back entry by entry by the grammar of AMQP, and
    [skipTable] skips exactly it. *)
Theorem tables_roundtrip (obj : list (bytes * field)) (b rest : bytes)
    (Hb : table obj = Ok b) (Hl : len b < 2 ^ 32) :
  parse_table (b ++ rest) = Ok (obj, rest) ∧ skipTable (b ++ rest) = Ok (tt, rest).
Proof. split; [by apply table_read_back|by apply (skipTable_table obj)]. Qed.

(** flag [j] is bit [j mod 8] of octet [j / 8]. *)
Theorem bits_exact (flags : list bool) (j : nat) (f : bool) (Hj : flags !! j = Some f) :
  ∃ c, bits flags !! (j / 8)%nat = Some c ∧ Z.testbit (code c) (Z.of_nat (j mod 8)) = f.
Proof.
  apply (bits_from_spec flags 0 0 j f); [intros; apply Z.testbit_0_l|done].
Qed.

(** ** Examples and witnesses *)

Definition heartbeat : RawFrame := {| frame_type := FRAME_HEARTBEAT; channel := 0; payload := [] |}.
Definition body_ab : RawFrame :=
  {| frame_type := FRAME_BODY; channel := 1; payload := byte <$> [97; 98] |}.

Example heartbeat_octets : buildHeartbeat = Ok (byte <$> [8; 0; 0; 0; 0; 0; 0; 206]).
Proof. reflexivity. Qed.

Definition client_props : list (bytes * field) :=
  [(byte <$> [112], FString (byte <$> [115])); (byte <$> [113], FTable [(byte <$> [114], FBool true)]);
   (byte <$> [116], FInt (-5)); (byte <$> [118], FVoid)].

Lemma amqp_frames_roundtrip_witness :
  foldl (receive next_ok) ([], [])
    [byte <$> [8; 0; 0; 0; 0]; byte <$> [0; 0; 206; 3; 0; 1; 0; 0; 0; 2; 97]; byte <$> [98; 206; 3];
     byte <$> [0; 1; 0; 0; 0; 0; 7]] =
    ([heartbeat; body_ab], byte <$> [3; 0; 1; 0; 0; 0; 0; 7]) ∧
  next (foldl push (byte <$> [3; 0; 1; 0; 0; 0; 0; 7]) [byte <$> [206]]) = Throw (FrameEndMismatch 7).
Proof.
  pose proof (amqp_frames_roundtrip [heartbeat; body_ab]
    [byte <$> [8; 0; 0; 0; 0; 0; 0; 206]; byte <$> [3; 0; 1; 0; 0; 0; 2; 97; 98; 206]]
    [byte <$> [8; 0; 0; 0; 0]; byte <$> [0; 0; 206; 3; 0; 1; 0; 0; 0; 2; 97]; byte <$> [98; 206; 3];
     byte <$> [0; 1; 0; 0; 0; 0; 7]] (byte <$> [3; 0; 1; 0; 0; 0; 0; 7]) (FrameEndMismatch 7)) as H.
  destruct H as [H1 H2].
  - repeat constructor.
  - reflexivity.
  - right. reflexivity.
  - split; [exact H1|]. apply (H2 ltac:(discriminate) [byte <$> [206]]).
Defined.

Lemma tables_roundtrip_witness :
  ∃ b, table client_props = Ok b ∧ parse_table b = Ok (client_props, []).
Proof.
  destruct (table client_props) as [b|] eqn:E; [|vm_compute in E; discriminate E].
  exists b. split; [reflexivity|].
  destruct (tables_roundtrip client_props b [] E) as [H _].
  - vm_compute in E. injection E as <-. reflexivity.
  - rewrite app_nil_r in H. exact H.
Defined.

Lemma bits_exact_witness :
  ∃ c, bits [false; true; false; false; false] !! 0%nat = Some c ∧ Z.testbit (code c) 1 = true.
Proof. exact (bits_exact [false; true; false; false; false] 1 true eq_refl). Defined.
