(* ===== verification/AmqpConnection.v ===== *)
(** * The AMQP connection

    Models [AmqpConnection] of src/packages/core/src/transports/rabbitmq/connection.ts: the
    handshake, synchronous methods with the table of waiters, publisher confirms, the
    assembly of deliveries, and the loop of [_onData] over the frame decoder.

    Every method is a computation that changes the connection, may throw, and leaves a log
    of what it does outside: bytes written, promises settled, handlers called, events
    emitted.  What it did before a throw stays done.  A promise of the class is named by its
    caller; what the code awaits after it ([after_consume], [after_confirms],
    [after_channel_open]) is a step of its own, which runs when the loop over the received
    frames is over.  The keys of the two tables of resolvers are their contents instead of
    the texts built from them; handlers and listeners return.  TLS, the connect timeout
    and the timer of heartbeats are not modelled. *)

From Stdlib Require Import Ascii String.
From S2P Require Import Prelude JsText JsMap JsInt Bytes AmqpCodec.

Open Scope Z_scope.
#[local] Open Scope list_scope.

#[local] Abbreviation bytes := (list ascii) (only parsing).

(** ** Data *)

Record AmqpOptions : Type := {
  username : bytes; password : bytes; vhost : bytes; heartbeatSeconds : Z;
}.

Record DeliveredMessage : Type := {
  deliveryTag : Z; redelivered : bool; m_exchange : bytes; m_routingKey : bytes; m_body : bytes;
}.

(** Promises of synchronous methods: the opening of the channel, and the callers'. *)
Inductive rpc_id : Type := OpenChannel | Caller (id : nat).

Inductive conn_error : Type :=
| Failed (e : amqp_error)
| ServerClosed (code_ : Z) (text : bytes).

Inductive effect : Type :=
| Write (b : bytes)
| Reply (p : rpc_id) (args : bytes)       (* the promise of [_rpc] is resolved *)
| RpcRejected (p : rpc_id) (e : amqp_error)
| Confirmed (tag : Z) | Nacked (tag : Z)  (* the promise that [publish] awaits *)
| Deliver (h : nat) (m : DeliveredMessage)
| ErrorEvent (e : conn_error)
| Opened | Disconnected | Closed | Destroyed.

(** The keys of [confirmWaiters]: the tag, and [rej:] with the tag. *)
Inductive confirm_key : Type := KTag (t : Z) | KRej (t : Z).
#[export] Instance confirm_key_eq_dec : EqDecision confirm_key.
Proof. solve_decision. Defined.

(** A resolver of a publish: it resolves or rejects the promise of the tag. *)
Record resolver : Type := { rejects : bool; of_tag : Z }.
Definition answer (nack : bool) (t : Z) : effect := if nack then Nacked t else Confirmed t.
Definition settle (r : resolver) : effect := answer (rejects r) (of_tag r).
Definition resolving (t : Z) : resolver := {| rejects := false; of_tag := t |}.
Definition rejecting (t : Z) : resolver := {| rejects := true; of_tag := t |}.

Record Pending : Type := {
  p_tag : bytes; p_msg : DeliveredMessage; p_bodySize : Z; p_chunks : list bytes;
}.

(** [socket]: there is one and it is not destroyed. *)
Record conn : Type := {
  socket : bool;
  closing : bool;
  heartbeatTimer : bool;
  waiters : list (Z * Z * rpc_id);
  nextPublishTag : Z;
  confirmWaiters : list (confirm_key * resolver);
  confirmEnabled : bool;
  pendingDelivery : option Pending;
  consumers : list (bytes * nat);
}.

Definition set_socket (b : bool) (c : conn) : conn :=
  {| socket := b; closing := closing c; heartbeatTimer := heartbeatTimer c; waiters := waiters c;
     nextPublishTag := nextPublishTag c; confirmWaiters := confirmWaiters c;
     confirmEnabled := confirmEnabled c; pendingDelivery := pendingDelivery c; consumers := consumers c |}.
Definition set_closing (b : bool) (c : conn) : conn :=
  {| socket := socket c; closing := b; heartbeatTimer := heartbeatTimer c; waiters := waiters c;
     nextPublishTag := nextPublishTag c; confirmWaiters := confirmWaiters c;
     confirmEnabled := confirmEnabled c; pendingDelivery := pendingDelivery c; consumers := consumers c |}.
Definition set_timer (b : bool) (c : conn) : conn :=
  {| socket := socket c; closing := closing c; heartbeatTimer := b; waiters := waiters c;
     nextPublishTag := nextPublishTag c; confirmWaiters := confirmWaiters c;
     confirmEnabled := confirmEnabled c; pendingDelivery := pendingDelivery c; consumers := consumers c |}.
Definition set_waiters (w : list (Z * Z * rpc_id)) (c : conn) : conn :=
  {| socket := socket c; closing := closing c; heartbeatTimer := heartbeatTimer c; waiters := w;
     nextPublishTag := nextPublishTag c; confirmWaiters := confirmWaiters c;
     confirmEnabled := confirmEnabled c; pendingDelivery := pendingDelivery c; consumers := consumers c |}.
Definition set_confirms (n : Z) (w : list (confirm_key * resolver)) (c : conn) : conn :=
  {| socket := socket c; closing := closing c; heartbeatTimer := heartbeatTimer c; waiters := waiters c;
     nextPublishTag := n; confirmWaiters := w;
     confirmEnabled := confirmEnabled c; pendingDelivery := pendingDelivery c; consumers := consumers c |}.
Definition set_enabled (b : bool) (c : conn) : conn :=
  {| socket := socket c; closing := closing c; heartbeatTimer := heartbeatTimer c; waiters := waiters c;
     nextPublishTag := nextPublishTag c; confirmWaiters := confirmWaiters c;
     confirmEnabled := b; pendingDelivery := pendingDelivery c; consumers := consumers c |}.
Definition set_pending (p : option Pending) (c : conn) : conn :=
  {| socket := socket c; closing := closing c; heartbeatTimer := heartbeatTimer c; waiters := waiters c;
     nextPublishTag := nextPublishTag c; confirmWaiters := confirmWaiters c;
     confirmEnabled := confirmEnabled c; pendingDelivery := p; consumers := consumers c |}.
Definition set_consumers (l : list (bytes * nat)) (c : conn) : conn :=
  {| socket := socket c; closing := closing c; heartbeatTimer := heartbeatTimer c; waiters := waiters c;
     nextPublishTag := nextPublishTag c; confirmWaiters := confirmWaiters c;
     confirmEnabled := confirmEnabled c; pendingDelivery := pendingDelivery c; consumers := l |}.

(** A connection before [connect]. *)
Definition new_connection : conn :=
  {| socket := false; closing := false; heartbeatTimer := false; waiters := [];
     nextPublishTag := 1; confirmWaiters := []; confirmEnabled := false;
     pendingDelivery := None; consumers := [] |}.

(** ** The computations *)

Record outcome (A : Type) : Type := Outcome {
  log : list effect; after : conn; returned : result amqp_error A;
}.
Arguments Outcome {A}. Arguments log {A}. Arguments after {A}. Arguments returned {A}.

Definition M (A : Type) : Type := conn → outcome A.
#[export] Instance M_ret : MRet M := λ A a c, Outcome [] c (Ok a).
#[export] Instance M_bind : MBind M := λ A B f m c,
  match returned (m c) with
  | Ok a => let o := f a (after (m c)) in Outcome (log (m c) ++ log o) (after o) (returned o)
  | Throw e => Outcome (log (m c)) (after (m c)) (Throw e)
  end.

Definition emit (e : effect) : M unit := λ c, Outcome [e] c (Ok tt).
Definition get : M conn := λ c, Outcome [] c (Ok c).
Definition modify (f : conn → conn) : M unit := λ c, Outcome [] (f c) (Ok tt).
Definition throwing {A} (r : result amqp_error A) : M A := λ c, Outcome [] c r.
Definition parse {A} (r : reader A) (b : bytes) : M A := λ c, Outcome [] c (fst <$> r b).

(** An async method: a throw rejects its promise. *)
Definition async (p : rpc_id) (m : M unit) : M unit := λ c,
  match returned (m c) with
  | Ok _ => m c
  | Throw e => Outcome (log (m c) ++ [RpcRejected p e]) (after (m c)) (Ok tt)
  end.

Definition CH : Z := 1.

Definition send (frame : bytes) : M unit :=
  c ← get; if socket c then emit (Write frame) else throwing (Throw NotConnected).

(** The executor of the promise: the waiter is there before the frame is sent. *)
Definition rpc (p : rpc_id) (frame : bytes) (expectClass expectMethod : Z) : M unit :=
  modify (λ c, set_waiters (jm_set (expectClass, expectMethod) p (waiters c)) c) ;;
  async p (send frame).

Section connection.
Context (utf8 : bytes → bytes) (opts : AmqpOptions).

(** ** Handshake *)

Definition str (s : string) : bytes := list_ascii_of_string s.

Definition clientProps : list (bytes * field) :=
  [(str "product", FString (str "street-framework")); (str "platform", FString (str "node"));
   (str "version", FString (str "1.0")); (str "information", FString (str "AMQP 0-9-1"))].

Definition sendStartOk : M unit :=
  args ← throwing (t ← table clientProps; m ← shortStr (str "PLAIN"); l ← shortStr (str "en_US");
    Ok (t ++ m ++ longStr ([NUL] ++ username opts ++ [NUL] ++ password opts) ++ l));
  f ← throwing (buildMethodFrame 0 10 11 args); send f.

Definition tune : reader (Z * Z) :=
  channelMax ← read_shortUint; frameMax ← read_longUint; _ ← read_shortUint; mret (channelMax, frameMax).

Definition sendTuneOkAndOpen (args : bytes) : M unit :=
  t ← parse tune args;
  let frameMax := if t.2 =? 0 then 131072 else t.2 in
  f ← throwing (buildMethodFrame 0 10 31
    (shortUint t.1 ++ longUint frameMax ++ shortUint (heartbeatSeconds opts)));
  send f ;;
  open ← throwing (v ← shortStr (vhost opts); e ← shortStr []; Ok (v ++ e ++ octet 0));
  f ← throwing (buildMethodFrame 0 10 40 open); send f.

Definition afterConnectionOpen : M unit :=
  f ← throwing (e ← shortStr []; buildMethodFrame CH 20 10 e); rpc OpenChannel f 20 11.

(** The continuation of the opened channel. *)
Definition startHeartbeat : M unit :=
  if heartbeatSeconds opts <=? 0 then mret tt else modify (set_timer true).
Definition after_channel_open : M unit := startHeartbeat ;; emit Opened.

Definition close_reason : reader (Z * bytes) :=
  c ← read_shortUint; t ← read_shortStr utf8; mret (c, t).
Definition handleServerClose (args : bytes) : M unit :=
  r ← parse close_reason args;
  f ← throwing (buildMethodFrame 0 10 51 []); send f ;;
  emit (ErrorEvent (ServerClosed r.1 r.2)).

Definition onClose : M unit :=
  modify (set_timer false) ;;
  c ← get; (if closing c then mret tt else emit Disconnected) ;; emit Closed.

(** ** Declarations *)

Definition declareExchange (p : rpc_id) (name type : bytes) (durable : bool) : M unit :=
  async p (
    args ← throwing (n ← shortStr name; t ← shortStr type; e ← table [];
      Ok (shortUint 0 ++ n ++ t ++ bits [false; durable; false; false; false] ++ e));
    f ← throwing (buildMethodFrame CH 40 10 args); rpc p f 40 11).

(** [messageTtlMs] an integer. *)
Definition queue_args (deadLetterExchange : bytes) (messageTtlMs : option Z) : list (bytes * field) :=
  (match deadLetterExchange with [] => [] | d => [(str "x-dead-letter-exchange", FString d)] end) ++
  (match messageTtlMs with None => [] | Some t => [(str "x-message-ttl", FInt t)] end).
Definition declareQueue (p : rpc_id) (name : bytes) (durable : bool) (deadLetterExchange : bytes)
    (messageTtlMs : option Z) : M unit :=
  async p (
    args ← throwing (n ← shortStr name; t ← table (queue_args deadLetterExchange messageTtlMs);
      Ok (shortUint 0 ++ n ++ bits [false; durable; false; false; false] ++ t));
    f ← throwing (buildMethodFrame CH 50 10 args); rpc p f 50 11).
(** What [declareQueue] returns, from the reply. *)
Definition declared_queue (args : bytes) : result amqp_error bytes := fst <$> read_shortStr utf8 args.

Definition bindQueue (p : rpc_id) (queue exchange routingKey : bytes) : M unit :=
  async p (
    args ← throwing (q ← shortStr queue; e ← shortStr exchange; r ← shortStr routingKey; t ← table [];
      Ok (shortUint 0 ++ q ++ e ++ r ++ octet 0 ++ t));
    f ← throwing (buildMethodFrame CH 50 20 args); rpc p f 50 21).

Definition enableConfirms (p : rpc_id) : M unit :=
  c ← get;
  if confirmEnabled c then emit (Reply p [])
  else f ← throwing (buildMethodFrame CH 85 10 (octet 0)); rpc p f 85 11.
Definition after_confirms : M unit := modify (set_enabled true).

Definition setQos (p : rpc_id) (prefetchCount : Z) : M unit :=
  f ← throwing (buildMethodFrame CH 60 10 (longUint 0 ++ shortUint prefetchCount ++ octet 0));
  rpc p f 60 11.

(** ** Publish *)

(** The tag of this publish, and its resolvers. *)
Definition take_tag : M (option Z) :=
  c ← get;
  if confirmEnabled c then
    let tag := nextPublishTag c in
    modify (set_confirms (tag + 1)
      (jm_set (KRej tag) (rejecting tag) (jm_set (KTag tag) (resolving tag) (confirmWaiters c)))) ;;
    mret (Some tag)
  else mret None.

(** Returns what is then awaited: the confirm of the tag, or nothing. *)
Definition publish (exchange routingKey body : bytes) (persistent : bool) (content_type : bytes) :
    M (option Z) :=
  args ← throwing (e ← shortStr exchange; r ← shortStr routingKey;
    Ok (shortUint 0 ++ e ++ r ++ bits [false; false]));
  let props := {| contentType := match content_type with [] => None | t => Some t end;
                  deliveryMode := if persistent then Some 2 else None |} in
  tag ← take_tag;
  f ← throwing (buildMethodFrame CH 60 40 args); send f ;;
  f ← throwing (buildHeaderFrame CH 60 (len body) props); send f ;;
  (if 0 <? len body then f ← throwing (buildBodyFrame CH body); send f else mret tt) ;;
  mret tag.

Definition confirm_args : reader (Z * bool) :=
  tag ← read_longLong; multiple ← read_bit; mret (tag, multiple).

Definition resolveTag (nack : bool) (t : Z) : M unit :=
  c ← get;
  (match jm_get (if nack then KRej t else KTag t) (confirmWaiters c) with
   | Some r => emit (settle r)
   | None => mret tt
   end) ;;
  modify (λ c, set_confirms (nextPublishTag c)
    (jm_delete (KRej t) (jm_delete (KTag t) (confirmWaiters c))) c).

(** Over the keys as they are when the loop starts. *)
Fixpoint resolve_upto (nack : bool) (tag : Z) (keys : list confirm_key) : M unit :=
  match keys with
  | [] => mret tt
  | KRej _ :: keys => resolve_upto nack tag keys
  | KTag t :: keys =>
      (if t <=? tag then resolveTag nack t else mret tt) ;; resolve_upto nack tag keys
  end.

Definition handleConfirm (args : bytes) (nack : bool) : M unit :=
  r ← parse confirm_args args;
  let '(tag, multiple) := r : Z * bool in
  if multiple then c ← get; resolve_upto nack tag (jm_keys (confirmWaiters c))
  else resolveTag nack tag.

(** ** Consume *)

Definition consume (p : rpc_id) (queue : bytes) (noAck : bool) : M unit :=
  async p (
    args ← throwing (q ← shortStr queue; e ← shortStr []; t ← table [];
      Ok (shortUint 0 ++ q ++ e ++ bits [false; noAck; false; false] ++ t));
    f ← throwing (buildMethodFrame CH 60 20 args); rpc p f 60 21).
Definition after_consume (h : nat) (args : bytes) : M unit :=
  tag ← parse (read_shortStr utf8) args;
  modify (λ c, set_consumers (jm_set tag h (consumers c)) c).

Definition delivery : reader (bytes * DeliveredMessage) :=
  consumerTag ← read_shortStr utf8;
  tag ← read_longLong;
  again ← read_bit;
  exchange ← read_shortStr utf8;
  routingKey ← read_shortStr utf8;
  mret (consumerTag, {| deliveryTag := tag; redelivered := again; m_exchange := exchange;
                        m_routingKey := routingKey; m_body := [] |}).

Definition beginDelivery (args : bytes) : M unit :=
  d ← parse delivery args;
  modify (set_pending (Some {| p_tag := d.1; p_msg := d.2; p_bodySize := 0; p_chunks := [] |})).

Definition finishDelivery : M unit :=
  c ← get;
  match pendingDelivery c with
  | None => mret tt
  | Some p =>
      modify (set_pending None) ;;
      let m := {| deliveryTag := deliveryTag (p_msg p); redelivered := redelivered (p_msg p);
                  m_exchange := m_exchange (p_msg p); m_routingKey := m_routingKey (p_msg p);
                  m_body := mjoin (p_chunks p) |} in
      match jm_get (p_tag p) (consumers c) with
      | Some h => emit (Deliver h m)
      | None => mret tt
      end
  end.

Definition handleHeader (payload : bytes) : M unit :=
  c ← get;
  match pendingDelivery c with
  | None => mret tt
  | Some p =>
      bodySize ← throwing (amqp (read_be 8 payload 4));
      modify (set_pending (Some {| p_tag := p_tag p; p_msg := p_msg p; p_bodySize := bodySize;
                                   p_chunks := p_chunks p |})) ;;
      if bodySize =? 0 then finishDelivery else mret tt
  end.

Definition handleBody (payload : bytes) : M unit :=
  c ← get;
  match pendingDelivery c with
  | None => mret tt
  | Some p =>
      let chunks := p_chunks p ++ [payload] in
      modify (set_pending (Some {| p_tag := p_tag p; p_msg := p_msg p; p_bodySize := p_bodySize p;
                                   p_chunks := chunks |})) ;;
      if p_bodySize p <=? len (mjoin chunks) then finishDelivery else mret tt
  end.

Definition ack (deliveryTag : Z) : M unit :=
  f ← throwing (t ← longLong deliveryTag; buildMethodFrame CH 60 80 (t ++ bits [false])); send f.
Definition nack (deliveryTag : Z) (requeue : bool) : M unit :=
  f ← throwing (t ← longLong deliveryTag; buildMethodFrame CH 60 120 (t ++ bits [false; requeue]));
  send f.

(** A throw while it says goodbye is ignored. *)
Definition close : M unit :=
  modify (set_closing true) ;; modify (set_timer false) ;;
  c ← get;
  (if socket c then
     f ← throwing (t ← shortStr (str "OK"); buildMethodFrame 0 10 50 (shortUint 200 ++ t ++ shortUint 0 ++ shortUint 0));
     send f ;; emit Destroyed
   else mret tt) ;;
  modify (set_socket false).
Definition simulateDrop : M unit :=
  c ← get; if socket c then modify (set_socket false) ;; emit Destroyed else mret tt.

(** ** Frames *)

(** A synchronous reply. *)
Definition wake (classId methodId : Z) (args : bytes) : M unit :=
  c ← get;
  match jm_get (classId, methodId) (waiters c) with
  | None => mret tt
  | Some p =>
      modify (λ c, set_waiters (jm_delete (classId, methodId) (waiters c)) c) ;;
      emit (Reply p args)
  end.

Definition handleMethod (payload : bytes) : M unit :=
  h ← throwing (readMethodHeader payload);
  let '(classId, methodId, args) := h in
  if (classId =? 10) && (methodId =? 10) then sendStartOk
  else if (classId =? 10) && (methodId =? 30) then sendTuneOkAndOpen args
  else if (classId =? 10) && (methodId =? 41) then afterConnectionOpen
  else if (classId =? 10) && (methodId =? 50) then handleServerClose args
  else if (classId =? 60) && (methodId =? 60) then beginDelivery args
  else if (classId =? 60) && (methodId =? 80) then handleConfirm args false
  else if (classId =? 60) && (methodId =? 120) then handleConfirm args true
  else wake classId methodId args.

Definition handleFrame (f : RawFrame) : M unit :=
  if frame_type f =? FRAME_HEARTBEAT then mret tt
  else if frame_type f =? FRAME_HEADER then handleHeader (payload f)
  else if frame_type f =? FRAME_BODY then handleBody (payload f)
  else if negb (frame_type f =? FRAME_METHOD) then mret tt
  else handleMethod (payload f).

(** [_handleFrame] in its [try]. *)
Definition guarded (f : RawFrame) : M unit := λ c,
  let o := handleFrame f c in
  match returned o with
  | Ok _ => o
  | Throw e => Outcome (log o ++ [ErrorEvent (Failed e)]) (after o) (Ok tt)
  end.

(** The loop of [_onData] over the buffer of the decoder, which a throw of [next] leaves. *)
Fixpoint process (fuel : nat) (buf : bytes) : M bytes :=
  match fuel with
  | O => mret buf
  | S fuel =>
      match next buf with
      | Throw _ | Ok None => mret buf
      | Ok (Some (f, rest)) => guarded f ;; process fuel rest
      end
  end.
(** The buffer afterwards, and the error that [_onData] throws. *)
Definition onData (buf chunk : bytes) (c : conn) : outcome bytes * option amqp_error :=
  let o := process (length (push buf chunk)) (push buf chunk) c in
  (o, match returned o with
      | Ok rest => match next rest with Throw e => Some e | Ok _ => None end
      | Throw _ => None
      end).
End connection.

(** ** Events

    What happens to a connection: the calls of its methods, the socket, and the
    continuations of what it awaits. *)

Inductive event : Type :=
| Connect | SocketReady | Data (chunk : bytes) | SocketClosed
| ChannelOpened | ConfirmsSelected | ConsumeOk (h : nat) (args : bytes)
| DeclareExchange (p : rpc_id) (name type : bytes) (durable : bool)
| DeclareQueue (p : rpc_id) (name : bytes) (durable : bool) (dlx : bytes) (ttl : option Z)
| BindQueue (p : rpc_id) (queue exchange routingKey : bytes)
| EnableConfirms (p : rpc_id) | SetQos (p : rpc_id) (n : Z)
| Publish (exchange routingKey body : bytes) (persistent : bool) (content_type : bytes)
| Consume (p : rpc_id) (queue : bytes) (noAck : bool)
| Ack (tag : Z) | Nack (tag : Z) (requeue : bool)
| Close | Drop.

(** The beginning of [connect], and its [onSocketReady]. *)
Definition connect : M unit := modify (set_closing false) ;; modify (set_socket true).
Definition onSocketReady : M unit := emit (Write PROTOCOL_HEADER).

Section events.
Context (utf8 : bytes → bytes) (opts : AmqpOptions).

Definition call (e : event) : M unit :=
  match e with
  | Connect => connect
  | SocketReady => onSocketReady
  | Data _ => mret tt
  | SocketClosed => modify (set_socket false) ;; onClose
  | ChannelOpened => after_channel_open opts
  | ConfirmsSelected => after_confirms
  | ConsumeOk h args => after_consume utf8 h args
  | DeclareExchange p name type durable => declareExchange p name type durable
  | DeclareQueue p name durable dlx ttl => declareQueue p name durable dlx ttl
  | BindQueue p queue exchange routingKey => bindQueue p queue exchange routingKey
  | EnableConfirms p => enableConfirms p
  | SetQos p n => setQos p n
  | Publish exchange routingKey body persistent ct =>
      _ ← publish exchange routingKey body persistent ct; mret tt
  | Consume p queue noAck => consume p queue noAck
  | Ack tag => ack tag
  | Nack tag requeue => nack tag requeue
  | Close => close
  | Drop => simulateDrop
  end.

(** The log, the connection and the buffer of its decoder. *)
Definition step (s : list effect * conn * bytes) (e : event) : list effect * conn * bytes :=
  let '(l, c, buf) := s in
  match e with
  | Data chunk =>
      let o := (onData utf8 opts buf chunk c).1 in
      (l ++ log o, after o, match returned o with Ok rest => rest | Throw _ => buf end)
  | _ => let o := call e c in (l ++ log o, after o, buf)
  end.
Definition run (es : list event) : list effect * conn * bytes := foldl step ([], new_connection, []) es.
End events.

(** ** Running computations *)

Lemma bind_ok {A B} (m : M A) (f : A → M B) c a c' l :
  m c = Outcome l c' (Ok a) →
  (m ≫= f) c = Outcome (l ++ log (f a c')) (after (f a c')) (returned (f a c')).
Proof. intros E. unfold mbind, M_bind. by rewrite E. Qed.

Lemma bind_quiet {A B} (m : M A) (f : A → M B) c a c' :
  m c = Outcome [] c' (Ok a) → (m ≫= f) c = f a c'.
Proof. intros E. rewrite (bind_ok _ _ _ _ _ _ E). by destruct (f a c'). Qed.

Lemma bind_parse {A B} (r : reader A) b a rest (f : A → M B) c :
  r b = Ok (a, rest) → (parse r b ≫= f) c = f a c.
Proof. intros E. apply bind_quiet. unfold parse. by rewrite E. Qed.

Lemma throwing_ok_bind {A B} (a : A) (f : A → M B) c : (throwing (Ok a) ≫= f) c = f a c.
Proof. by apply bind_quiet. Qed.

Section running.
Context (utf8 : bytes → bytes) (opts : AmqpOptions).
#[local] Abbreviation guarded := (guarded utf8 opts).
#[local] Abbreviation process := (process utf8 opts).
#[local] Abbreviation onData := (onData utf8 opts).

Fixpoint handle_all (fs : list RawFrame) : M unit :=
  match fs with [] => mret tt | f :: fs => guarded f ;; handle_all fs end.

Lemma guarded_returns f c : returned (guarded f c) = Ok tt.
Proof.
  unfold AmqpConnection.guarded. cbv zeta.
  destruct (returned (handleFrame utf8 opts f c)) as [[]|] eqn:E; [exact E|done].
Qed.

Lemma guarded_bind {B} f (m : M B) c :
  (guarded f ;; m) c =
  Outcome (log (guarded f c) ++ log (m (after (guarded f c)))) (after (m (after (guarded f c))))
    (returned (m (after (guarded f c)))).
Proof. unfold mbind, M_bind. by rewrite guarded_returns. Qed.

Lemma handle_all_returns fs : ∀ c, returned (handle_all fs c) = Ok tt.
Proof. induction fs as [|f fs IH]; intros c; [done|]. cbn [handle_all]. rewrite guarded_bind. apply IH. Qed.

Lemma handle_all_app fs fs' c :
  handle_all (fs ++ fs') c =
  Outcome (log (handle_all fs c) ++ log (handle_all fs' (after (handle_all fs c))))
    (after (handle_all fs' (after (handle_all fs c)))) (Ok tt).
Proof.
  revert c. induction fs as [|f fs IH]; intros c; cbn [app handle_all].
  - cbn. pose proof (handle_all_returns fs' c) as E. destruct (handle_all fs' c). cbn in *. by rewrite E.
  - rewrite !guarded_bind, IH. cbn [log after returned]. by rewrite (assoc_L (++)).
Qed.

(** The loop handles the frames that the decoder yields. *)
Lemma process_frames fuel : ∀ buf c, (length buf <= fuel)%nat →
  process fuel buf c =
  Outcome (log (handle_all (drain next_ok buf).1 c)) (after (handle_all (drain next_ok buf).1 c))
    (Ok (drain next_ok buf).2).
Proof.
  induction fuel as [|fuel IH]; intros buf c Hle.
  - destruct buf; [done|cbn in Hle; lia].
  - cbn [AmqpConnection.process]. rewrite (drain_unfold next_ok).
    assert (next_ok buf = match next buf with Ok o => o | Throw _ => None end) as -> by done.
    destruct (next buf) as [[[f rest]|]|e] eqn:E; cbn [fst snd]; [|done..].
    assert (length rest < length buf)%nat as Hlt.
    { apply (framing_shorter (next := next_ok) buf f). unfold next_ok. by rewrite E. }
    cbn [fst snd handle_all]. rewrite !guarded_bind, IH by lia. done.
Qed.

(** Chunk after chunk: the log, the connection and the buffer of its decoder. *)
Definition on_chunk (s : list effect * conn * bytes) (chunk : bytes) : list effect * conn * bytes :=
  step utf8 opts s (Data chunk).

Lemma chunks_handled chunks c :
  foldl on_chunk ([], c, []) chunks =
  (log (handle_all (drain next_ok (mjoin chunks)).1 c),
   after (handle_all (drain next_ok (mjoin chunks)).1 c), (drain next_ok (mjoin chunks)).2).
Proof.
  induction chunks as [|chunk chunks IH] using rev_ind; [done|].
  rewrite foldl_app, IH, join_app. cbn [foldl].
  assert (mjoin [chunk] = chunk) as -> by apply app_nil_r.
  rewrite (drain_app next_ok chunk). cbn [fst snd]. rewrite handle_all_app.
  unfold on_chunk, step, AmqpConnection.onData, push. by rewrite process_frames.
Qed.

(** Chunks of built frames: the frames are handled in order. *)
Lemma built_frames_handled fs bs chunks c :
  Forall2 frame_built fs bs → mjoin chunks = mjoin bs →
  foldl on_chunk ([], c, []) chunks = (log (handle_all fs c), after (handle_all fs c), []).
Proof.
  intros Hfs Hc. rewrite chunks_handled, Hc, (drain_written next_ok fs); [done|].
  by apply frames_built_wires.
Qed.
End running.

(** ** Deliveries *)

Definition is_heartbeat (f : RawFrame) : Prop := frame_type f = FRAME_HEARTBEAT.
#[export] Instance is_heartbeat_dec f : Decision (is_heartbeat f).
Proof. apply Z.eq_dec. Defined.

(** What a broker writes for a message: Basic.Deliver, the content header, the body in pieces. *)
Definition deliver_args (ct : bytes) (m : DeliveredMessage) : result amqp_error bytes :=
  t ← shortStr ct; d ← longLong (deliveryTag m); e ← shortStr (m_exchange m); r ← shortStr (m_routingKey m);
  Ok (t ++ d ++ octet (if redelivered m then 1 else 0) ++ e ++ r).
Definition method_frame (ch classId methodId : Z) (args : bytes) : RawFrame :=
  {| frame_type := FRAME_METHOD; channel := ch; payload := shortUint classId ++ shortUint methodId ++ args |}.
Definition header_frame (ch size : Z) (properties : bytes) : RawFrame :=
  {| frame_type := FRAME_HEADER; channel := ch;
     payload := shortUint 60 ++ shortUint 0 ++ be_split 8 size ++ properties |}.
Definition body_frame (ch : Z) (piece : bytes) : RawFrame :=
  {| frame_type := FRAME_BODY; channel := ch; payload := piece |}.

Section frames.
Context (utf8 : bytes → bytes) (opts : AmqpOptions).
#[local] Abbreviation handleFrame := (handleFrame utf8 opts).
#[local] Abbreviation guarded := (guarded utf8 opts).
#[local] Abbreviation handle_all := (handle_all utf8 opts).

Lemma guarded_heartbeat f c : is_heartbeat f → guarded f c = Outcome [] c (Ok tt).
Proof. unfold is_heartbeat, AmqpConnection.guarded, AmqpConnection.handleFrame. by intros ->. Qed.

Lemma handle_all_no_heartbeats fs : ∀ c,
  handle_all fs c = handle_all (filter (λ f, ¬ is_heartbeat f) fs) c.
Proof.
  induction fs as [|f fs IH]; intros c; [done|]. rewrite filter_cons. cbn [AmqpConnection.handle_all].
  destruct (decide (is_heartbeat f)) as [Hf|Hf].
  - rewrite guarded_bind, (guarded_heartbeat f c) by done. cbn [log after app].
    rewrite decide_False by tauto. rewrite IH. by destruct (handle_all _ c).
  - rewrite decide_True by done. cbn [AmqpConnection.handle_all]. by rewrite !guarded_bind, IH.
Qed.

Lemma guarded_ok f c l c' : handleFrame f c = Outcome l c' (Ok tt) → guarded f c = Outcome l c' (Ok tt).
Proof. intros E. unfold AmqpConnection.guarded. by rewrite E. Qed.

Lemma handle_all_cons f fs c l c' :
  handleFrame f c = Outcome l c' (Ok tt) →
  handle_all (f :: fs) c = Outcome (l ++ log (handle_all fs c')) (after (handle_all fs c')) (Ok tt).
Proof.
  intros E%guarded_ok. cbn [AmqpConnection.handle_all]. rewrite guarded_bind, E. cbn [log after].
  by rewrite handle_all_returns.
Qed.

Lemma method_frame_handled ch classId methodId args c :
  0 <= classId < 2 ^ 16 → 0 <= methodId < 2 ^ 16 →
  readMethodHeader (payload (method_frame ch classId methodId args)) = Ok ((classId, methodId), args) ∧
  handleFrame (method_frame ch classId methodId args) c =
  handleMethod utf8 opts (payload (method_frame ch classId methodId args)) c.
Proof.
  intros H1 H2. split; [|done]. unfold readMethodHeader, mbind, reader_bind, method_frame. cbn [payload].
  rewrite !read_shortUint_shortUint. change 65535 with (Z.ones 16). by rewrite !land_small by lia.
Qed.

Lemma deliver_read ct m args :
  deliver_args ct m = Ok args →
  delivery utf8 args = Ok ((utf8 ct, {| deliveryTag := deliveryTag m; redelivered := redelivered m;
    m_exchange := utf8 (m_exchange m); m_routingKey := utf8 (m_routingKey m); m_body := [] |}), []).
Proof.
  unfold deliver_args.
  intros (t & Ht & (d & Hd & (e & He & (r & Hr & <-%Ok_inj)%result_bind_ok)%result_bind_ok)
    %result_bind_ok)%result_bind_ok.
  unfold delivery, mbind, reader_bind, read_bit.
  rewrite (read_shortStr_shortStr _ _ _ _ Ht), (read_longLong_longLong _ _ _ Hd).
  unfold mbind, reader_bind. rewrite read_octet_octet.
  unfold mret, reader_ret. rewrite (read_shortStr_shortStr _ _ _ _ He).
  rewrite <-(app_nil_r r), (read_shortStr_shortStr _ _ _ _ Hr). by destruct (redelivered m).
Qed.

Definition awaiting (ct : bytes) (m : DeliveredMessage) (size : Z) (chunks : list bytes) : Pending :=
  {| p_tag := utf8 ct;
     p_msg := {| deliveryTag := deliveryTag m; redelivered := redelivered m;
                 m_exchange := utf8 (m_exchange m); m_routingKey := utf8 (m_routingKey m); m_body := [] |};
     p_bodySize := size; p_chunks := chunks |}.
Definition received (m : DeliveredMessage) (body : bytes) : DeliveredMessage :=
  {| deliveryTag := deliveryTag m; redelivered := redelivered m;
     m_exchange := utf8 (m_exchange m); m_routingKey := utf8 (m_routingKey m); m_body := body |}.

(** The call of the handler, when there is one for the consumer tag. *)
Definition handed_over (ct : bytes) (m : DeliveredMessage) (body : bytes) (c : conn) : list effect :=
  match jm_get (utf8 ct) (consumers c) with
  | Some h => [Deliver h (received m body)]
  | None => []
  end.

Lemma deliver_handled ch ct m args c :
  deliver_args ct m = Ok args →
  handleFrame (method_frame ch 60 60 args) c =
  Outcome [] (set_pending (Some (awaiting ct m 0 [])) c) (Ok tt).
Proof.
  intros Hargs. destruct (method_frame_handled ch 60 60 args c) as [Hh ->]; [lia..|].
  unfold handleMethod. rewrite Hh, throwing_ok_bind. cbn [andb Z.eqb Pos.eqb].
  unfold beginDelivery. by rewrite (bind_parse _ _ _ _ _ _ (deliver_read _ _ _ Hargs)).
Qed.

Lemma finish_exact ct m size chunks c :
  pendingDelivery c = Some (awaiting ct m size chunks) →
  finishDelivery c = Outcome (handed_over ct m (mjoin chunks) c) (set_pending None c) (Ok tt).
Proof.
  intros E. unfold finishDelivery. rewrite (bind_quiet get _ c c c), E by done.
  rewrite (bind_quiet (modify _) _ c tt (set_pending None c)) by done.
  unfold handed_over. cbn [p_tag awaiting consumers set_pending]. by destruct (jm_get (utf8 ct) (consumers c)).
Qed.

Lemma header_handled ch ct m size0 size properties c :
  pendingDelivery c = Some (awaiting ct m size0 []) → 0 <= size < 2 ^ 64 →
  handleFrame (header_frame ch size properties) c =
  if size =? 0 then Outcome (handed_over ct m [] c) (set_pending None c) (Ok tt)
  else Outcome [] (set_pending (Some (awaiting ct m size [])) c) (Ok tt).
Proof.
  intros E Hs. change (handleFrame (header_frame ch size properties) c)
    with (handleHeader (shortUint 60 ++ shortUint 0 ++ be_split 8 size ++ properties) c).
  unfold handleHeader. rewrite (bind_quiet get _ c c c), E by done.
  pose proof (read_be_app 8 (shortUint 60 ++ shortUint 0) (be_split 8 size) properties (be_split_length 8 size)) as Hr.
  rewrite <-(assoc_L (++)) in Hr. change (length (shortUint 60 ++ shortUint 0)) with 4%nat in Hr.
  rewrite Hr. cbn [amqp]. rewrite be_combine_split, Z.mod_small by done. rewrite throwing_ok_bind.
  set (c1 := set_pending (Some (awaiting ct m size [])) c).
  rewrite (bind_quiet (modify _) _ c tt c1) by done. destruct (size =? 0); [|done].
  by rewrite (finish_exact ct m size []).
Qed.

Lemma body_handled ch ct m size chunks piece c :
  pendingDelivery c = Some (awaiting ct m size chunks) →
  handleFrame (body_frame ch piece) c =
  if size <=? len (mjoin (chunks ++ [piece]))
  then Outcome (handed_over ct m (mjoin (chunks ++ [piece])) c) (set_pending None c) (Ok tt)
  else Outcome [] (set_pending (Some (awaiting ct m size (chunks ++ [piece]))) c) (Ok tt).
Proof.
  intros E. change (handleFrame (body_frame ch piece) c) with (handleBody piece c).
  unfold handleBody. rewrite (bind_quiet get _ c c c), E by done. cbn [p_chunks p_tag p_msg p_bodySize awaiting].
  set (c1 := set_pending (Some (awaiting ct m size (chunks ++ [piece]))) c).
  rewrite (bind_quiet (modify _) _ c tt c1) by done. case_match; [|done].
  by rewrite (finish_exact ct m size (chunks ++ [piece])).
Qed.

Lemma bodies_handled ch ct m size pieces : ∀ chunks c,
  pendingDelivery c = Some (awaiting ct m size chunks) → Forall (λ p, p ≠ []) pieces → pieces ≠ [] →
  size = len (mjoin (chunks ++ pieces)) →
  handle_all (body_frame ch <$> pieces) c =
  Outcome (handed_over ct m (mjoin (chunks ++ pieces)) c) (set_pending None c) (Ok tt).
Proof.
  induction pieces as [|piece pieces IH]; intros chunks c E Hne Hp Hsize; [done|].
  apply Forall_cons in Hne as [Hpiece Hne]. rewrite fmap_cons.
  pose proof (body_handled ch ct m size chunks piece c E) as Hb.
  destruct pieces as [|piece' pieces].
  - rewrite <-Hsize, Z.leb_refl in Hb. rewrite (handle_all_cons _ _ _ _ _ Hb). cbn. by rewrite app_nil_r.
  - assert (0 < len (mjoin (piece' :: pieces))) as Hmore.
    { apply Forall_cons in Hne as [Hp' _]. change (mjoin (piece' :: pieces)) with (piece' ++ mjoin pieces).
      unfold len. rewrite length_app. destruct piece'; [done|]. cbn. lia. }
    assert (mjoin (chunks ++ piece :: piece' :: pieces) = mjoin (chunks ++ [piece]) ++ mjoin (piece' :: pieces)) as Ej.
    { rewrite <-join_app, <-(assoc_L (++)). done. }
    rewrite Ej in Hsize. unfold len in Hsize, Hmore. rewrite length_app in Hsize.
    destruct (Z.leb_spec size (len (mjoin (chunks ++ [piece])))) as [Hle|Hgt]; [unfold len in Hle; lia|].
    rewrite (handle_all_cons _ _ _ _ _ Hb), (IH (chunks ++ [piece])); [|done|done|done|].
    + rewrite <-(assoc_L (++)). done.
    + rewrite <-(assoc_L (++)). cbn [app]. rewrite Ej. unfold len. by rewrite length_app.
Qed.
End frames.

(** ** What a computation never does

    [keeps I Q m]: [m] keeps [I] and everything it does satisfies [Q]. *)

Definition keeps (I : conn → Prop) (Q : effect → Prop) {A} (m : M A) : Prop :=
  ∀ c, I c → I (after (m c)) ∧ Forall Q (log (m c)).

Section keeps.
Context (I : conn → Prop) (Q : effect → Prop).

Lemma keeps_bind {A B} (m : M A) (f : A → M B) :
  keeps I Q m → (∀ a, keeps I Q (f a)) → keeps I Q (m ≫= f).
Proof.
  intros Hm Hf c Hc. destruct (Hm c Hc) as [H1 H2]. unfold mbind, M_bind.
  destruct (returned (m c)) as [a|]; [|done]. cbn [log after]. destruct (Hf a _ H1).
  split; [done|]. by apply Forall_app.
Qed.
Lemma keeps_silent {A} (m : M A) : (∀ c, after (m c) = c ∧ log (m c) = []) → keeps I Q m.
Proof. intros H c Hc. destruct (H c) as [-> ->]. by split. Qed.
Lemma keeps_emit e : Q e → keeps I Q (emit e).
Proof. intros He c Hc. split; [done|]. by constructor. Qed.
Lemma keeps_modify f : (∀ c, I c → I (f c)) → keeps I Q (modify f).
Proof. intros Hf c Hc. split; [by apply Hf|constructor]. Qed.
Lemma keeps_async p m : (∀ e, Q (RpcRejected p e)) → keeps I Q m → keeps I Q (async p m).
Proof.
  intros He Hm c Hc. unfold async. destruct (Hm c Hc). destruct (returned (m c)); [done|].
  cbn. split; [done|]. apply Forall_app. split; [done|]. by constructor.
Qed.
End keeps.

(** A promise that no waiter holds: nothing but a call that names it can bring it back. *)
Section lost.
Context (utf8 : bytes → bytes) (opts : AmqpOptions) (n : nat).

Definition lost (c : conn) : Prop := jm_all (λ p, p ≠ Caller n) (waiters c).
Definition not_replied (e : effect) : Prop := ∀ args, e ≠ Reply (Caller n) args.

Ltac keeps_steps :=
  intros; repeat first
    [ solve [eauto with keeps]
    | match goal with |- keeps _ _ (_ ≫= _) => apply keeps_bind; [|intros ?; cbv beta] end
    | apply keeps_emit; intros ?; (discriminate || congruence)
    | apply keeps_silent; intros; split; reflexivity
    | apply keeps_modify; intros ? Hkeep; exact Hkeep
    | apply keeps_async; [intros ? ?; discriminate|]
    | match goal with |- keeps _ _ (match ?x with _ => _ end) => destruct x end ].

Create HintDb keeps.

Lemma keeps_send f : keeps lost not_replied (send f).
Proof. unfold send. keeps_steps. Qed.
#[local] Hint Resolve keeps_send : keeps.
Lemma keeps_rpc p f a b : p ≠ Caller n → keeps lost not_replied (rpc p f a b).
Proof.
  intros Hp. unfold rpc. apply keeps_bind; [|keeps_steps].
  apply keeps_modify. intros c Hc. by apply jm_all_set.
Qed.
#[local] Hint Resolve keeps_rpc : keeps.
Lemma keeps_open f a b : keeps lost not_replied (rpc OpenChannel f a b).
Proof. by apply keeps_rpc. Qed.
#[local] Hint Resolve keeps_open : keeps.
Lemma keeps_resolveTag nack t : keeps lost not_replied (resolveTag nack t).
Proof.
  unfold resolveTag. keeps_steps. apply keeps_emit. intros args.
  match goal with r : resolver |- _ => destruct r as [[] t'] end; discriminate.
Qed.
#[local] Hint Resolve keeps_resolveTag : keeps.
Lemma keeps_resolve_upto nack tag keys : keeps lost not_replied (resolve_upto nack tag keys).
Proof. induction keys as [|[t|t] keys IH]; cbn [resolve_upto]; keeps_steps. Qed.
#[local] Hint Resolve keeps_resolve_upto : keeps.
Lemma keeps_finishDelivery : keeps lost not_replied finishDelivery.
Proof. unfold finishDelivery. keeps_steps. Qed.
#[local] Hint Resolve keeps_finishDelivery : keeps.

Lemma keeps_wake a b args : keeps lost not_replied (wake a b args).
Proof.
  intros c Hc. unfold wake. rewrite (bind_quiet get _ c c c) by done.
  destruct (jm_get (a, b) (waiters c)) as [p|] eqn:E; [|by split; [|constructor]].
  rewrite (bind_quiet (modify _) _ c tt (set_waiters (jm_delete (a, b) (waiters c)) c)) by done.
  split; [by apply jm_all_delete|]. constructor; [|constructor]. intros args' [= -> _].
  by apply (jm_all_get _ _ _ _ Hc) in E.
Qed.
#[local] Hint Resolve keeps_wake : keeps.
Lemma keeps_handleMethod payload : keeps lost not_replied (handleMethod utf8 opts payload).
Proof.
  unfold handleMethod, sendStartOk, sendTuneOkAndOpen, afterConnectionOpen, handleServerClose,
    beginDelivery, handleConfirm. keeps_steps.
Qed.
#[local] Hint Resolve keeps_handleMethod : keeps.
Lemma keeps_handleFrame f : keeps lost not_replied (handleFrame utf8 opts f).
Proof. unfold handleFrame, handleHeader, handleBody. keeps_steps. Qed.
Lemma keeps_guarded f : keeps lost not_replied (guarded utf8 opts f).
Proof.
  intros c Hc. destruct (keeps_handleFrame f c Hc). unfold guarded. cbv zeta.
  destruct (returned _); [done|]. cbn [log after]. split; [done|]. apply Forall_app. split; [done|].
  constructor; [intros args; discriminate|constructor].
Qed.
#[local] Hint Resolve keeps_guarded : keeps.
Lemma keeps_process fuel : ∀ buf, keeps lost not_replied (process utf8 opts fuel buf).
Proof. induction fuel as [|fuel IH]; intros buf; cbn [process]; keeps_steps. Qed.

(** A call of a synchronous method. *)
Definition caller (e : event) : option rpc_id :=
  match e with
  | DeclareExchange p _ _ _ | DeclareQueue p _ _ _ _ | BindQueue p _ _ _ | EnableConfirms p
  | SetQos p _ | Consume p _ _ => Some p
  | _ => None
  end.

Lemma keeps_call e : caller e ≠ Some (Caller n) → keeps lost not_replied (call utf8 opts e).
Proof.
  intros Hp. destruct e; cbn [caller] in Hp; cbn [call];
    try (assert (p ≠ Caller n) by congruence);
    unfold connect, onSocketReady, onClose, after_channel_open, startHeartbeat, after_confirms,
      after_consume, declareExchange, declareQueue, bindQueue, enableConfirms, setQos, consume, ack,
      nack, close, simulateDrop, publish, take_tag; keeps_steps.
Qed.

Lemma keeps_steps_of es : ∀ l c buf,
  lost c → Forall (λ e, caller e ≠ Some (Caller n)) es →
  ∃ l', (foldl (step utf8 opts) (l, c, buf) es).1.1 = l ++ l' ∧ Forall not_replied l'.
Proof.
  induction es as [|e es IH]; intros l c buf Hc Hes; [exists []; by rewrite app_nil_r|].
  apply Forall_cons in Hes as [He Hes]. cbn [foldl].
  assert (∃ l1 c1 buf1, step utf8 opts (l, c, buf) e = (l ++ l1, c1, buf1) ∧ lost c1 ∧ Forall not_replied l1)
    as (l1 & c1 & buf1 & -> & Hc1 & Hl1).
  { pose proof (keeps_call e He c Hc). destruct e; (do 3 eexists; split; [reflexivity|]); try done.
    apply keeps_process, Hc. }
  destruct (IH (l ++ l1) c1 buf1 Hc1 Hes) as (l' & -> & Hl'). exists (l1 ++ l').
  rewrite (assoc_L (++)). split; [done|]. by apply Forall_app.
Qed.
End lost.

(** ** Properties *)

Lemma rpc_connected p f a b c : socket c = true →
  rpc p f a b c = Outcome [Write f] (set_waiters (jm_set (a, b) p (waiters c)) c) (Ok tt).
Proof.
  intros Hs. unfold rpc. rewrite (bind_quiet (modify _) _ c tt (set_waiters (jm_set (a, b) p (waiters c)) c)) by done.
  unfold async, send. rewrite (bind_quiet get _ _ (set_waiters (jm_set (a, b) p (waiters c)) c)
    (set_waiters (jm_set (a, b) p (waiters c)) c)) by done.
  cbn [set_waiters socket]. by rewrite Hs.
Qed.

(** Of two calls of [declareExchange] on a connected socket. *)
Lemma declare_connected p name type d c :
  socket c = true → (length name <= 255)%nat ∧ (length type <= 255)%nat →
  ∃ f, declareExchange p name type d c =
    Outcome [Write f] (set_waiters (jm_set (40, 11) p (waiters c)) c) (Ok tt).
Proof.
  intros Hs [Hn Ht]. set (args := shortUint 0 ++ (octet (len name) ++ name) ++ (octet (len type) ++ type) ++
    bits [false; d; false; false; false] ++ be_split 4 0).
  assert (∃ f, buildMethodFrame CH 40 10 args = Ok f) as [f Hf].
  { apply buildFrame_ok; [done|done|]. unfold args, len, shortUint, octet. rewrite !length_app, !be_split_length.
    assert (length (bits [false; d; false; false; false]) = 1%nat) as -> by by destruct d.
    cbn [length]. lia. }
  exists f. unfold declareExchange, async. unfold shortStr.
  destruct (Nat.ltb_spec 255 (length name)), (Nat.ltb_spec 255 (length type)); try lia.
  change (table []) with (Ok (E:=amqp_error) (be_split 4 0)).
  cbn [mbind result_bind]. rewrite !throwing_ok_bind. fold args. rewrite Hf, throwing_ok_bind.
  by rewrite rpc_connected.
Qed.

(** What a broker reads from the arguments of Basic.Publish, and from the flags and
    properties of a content header. *)
Definition publish_fields : reader (bytes * bytes) :=
  _ ← read_shortUint; e ← read_shortStr id; r ← read_shortStr id; mret (e, r).
Definition optional {A} (b : bool) (r : reader A) : reader (option A) :=
  if b then a ← r; mret (Some a) else mret None.
Definition header_properties : reader (option bytes * option Z) :=
  flags ← read_shortUint;
  ct ← optional (Z.testbit flags 15) (read_shortStr id);
  dm ← optional (Z.testbit flags 12) read_octet;
  mret (ct, dm).

Lemma send_bind {B} f (m : M B) c : socket c = true →
  (send f ;; m) c = Outcome (Write f :: log (m c)) (after (m c)) (returned (m c)).
Proof.
  intros Hs. assert (send f c = Outcome [Write f] c (Ok tt)) as E.
  { unfold send. rewrite (bind_quiet get _ c c c) by done. by rewrite Hs. }
  by rewrite (bind_ok _ _ _ _ _ _ E).
Qed.

Lemma take_tag_exact c : ∃ tag c', take_tag c = Outcome [] c' (Ok tag) ∧ socket c' = socket c.
Proof.
  unfold take_tag. rewrite (bind_quiet get _ c c c) by done.
  destruct (confirmEnabled c); do 2 eexists; split; reflexivity.
Qed.

Lemma shortStr_ok s : (length s <= 255)%nat → shortStr s = Ok (octet (len s) ++ s).
Proof. intros H. unfold shortStr. destruct (Nat.ltb_spec 255 (length s)); [lia|done]. Qed.

(** The header of a publish, and what the broker reads from it. *)
Lemma header_built size persistent ct :
  0 <= size < 2 ^ 64 → (length ct <= 255)%nat →
  let props := {| contentType := match ct with [] => None | t => Some t end;
                  deliveryMode := if persistent : bool then Some 2 else None |} in
  ∃ b encoded, buildHeaderFrame CH 60 size props = Ok b ∧
    frame_built (header_frame CH size encoded) b ∧
    header_properties encoded = Ok ((contentType props, deliveryMode props), []).
Proof.
  intros Hs Hct props. unfold buildHeaderFrame.
  assert (longLong size = Ok (be_split 8 size)) as ->.
  { unfold longLong. destruct (Z.leb_spec 0 size), (Z.ltb_spec size (2 ^ 64)); try lia. done. }
  cbn [mbind result_bind].
  assert (∃ cb, match contentType props with Some t => shortStr t | None => Ok [] end = Ok cb ∧
    (length cb <= 256)%nat ∧ ∀ rest,
    optional (match contentType props with Some _ => true | None => false end) (read_shortStr id) (cb ++ rest) =
      Ok (contentType props, rest)) as (cb & -> & Hcb & Hread).
  { subst props. destruct ct as [|a ct]; cbn [contentType]; [exists []; split; [done|]; split; [cbn; lia|done]|].
    rewrite shortStr_ok by done. eexists. split; [done|]. split; [unfold octet; rewrite length_app; cbn in *; lia|].
    intros rest. unfold optional, mbind, reader_bind.
    by rewrite (read_shortStr_shortStr id (a :: ct) _ rest (shortStr_ok _ Hct)). }
  cbn [mbind result_bind]. set (flags := Z.lor _ _).
  set (dm := match deliveryMode props with Some m => octet m | None => [] end).
  assert (flags = Z.land flags 65535 ∧
    Z.testbit flags 15 = match contentType props with Some _ => true | None => false end ∧
    Z.testbit flags 12 = persistent) as (Hf & H15 & H12).
  { subst flags props. by destruct ct, persistent. }
  destruct (buildFrame_ok FRAME_HEADER CH (shortUint 60 ++ shortUint 0 ++ be_split 8 size ++ shortUint flags ++ cb ++ dm))
    as [b Hb]; [done|done| |].
  { unfold len, shortUint. rewrite !length_app, !be_split_length.
    assert (length dm <= 1)%nat by (subst dm props; by destruct persistent; cbn; lia). lia. }
  exists b, (shortUint flags ++ cb ++ dm). split; [exact Hb|]. split; [exact Hb|].
  unfold header_properties, mbind, reader_bind. rewrite read_shortUint_shortUint, <-Hf, H15, H12.
  rewrite Hread. subst dm props. by destruct persistent.
Qed.

(** A publish up to its content header, on a connected socket. *)
Lemma publish_begins exchange routingKey body persistent ct c :
  socket c = true → (length exchange <= 255)%nat → (length routingKey <= 255)%nat →
  ∃ args b tag c', frame_built (method_frame CH 60 40 args) b ∧
    fst <$> publish_fields args = Ok (exchange, routingKey) ∧
    take_tag c = Outcome [] c' (Ok tag) ∧ socket c' = true ∧
    publish exchange routingKey body persistent ct c =
    let rest := (f ← throwing (buildHeaderFrame CH 60 (len body)
        {| contentType := match ct with [] => None | t => Some t end;
           deliveryMode := if persistent then Some 2 else None |});
      send f ;;
      (if 0 <? len body then f ← throwing (buildBodyFrame CH body); send f else mret tt) ;;
      mret tag) c' in
    Outcome (Write b :: log rest) (after rest) (returned rest).
Proof.
  intros Hs He Hr.
  set (args := shortUint 0 ++ (octet (len exchange) ++ exchange) ++ (octet (len routingKey) ++ routingKey) ++
    bits [false; false]).
  destruct (buildFrame_ok FRAME_METHOD CH (shortUint 60 ++ shortUint 40 ++ args)) as [f1 H1]; [done|done| |].
  { unfold args, len, shortUint, octet. rewrite !length_app, !be_split_length. cbn [length bits bits_from]. cbn. lia. }
  destruct (take_tag_exact c) as (tag & c' & Et & Hs'). exists args, f1, tag, c'.
  split; [exact H1|]. split; [|split; [done|split; [congruence|]]].
  - unfold publish_fields, mbind, reader_bind, args. rewrite read_shortUint_shortUint.
    rewrite (read_shortStr_shortStr id exchange _ _ (shortStr_ok _ He)).
    by rewrite (read_shortStr_shortStr id routingKey _ _ (shortStr_ok _ Hr)).
  - unfold publish. rewrite !shortStr_ok by done. cbn [mbind result_bind]. rewrite throwing_ok_bind.
    rewrite (bind_quiet take_tag _ c tag c' Et). fold args.
    assert (buildMethodFrame CH 60 40 args = Ok f1) as -> by exact H1.
    by rewrite throwing_ok_bind, send_bind by congruence.
Qed.

Section properties.
Context (utf8 : bytes → bytes) (opts : AmqpOptions).

(** The frames of one message. *)
Definition content (ch : Z) (args properties : bytes) (pieces : list bytes) : list RawFrame :=
  method_frame ch 60 60 args :: header_frame ch (len (mjoin pieces)) properties :: (body_frame ch <$> pieces).

Lemma content_handled ch ct m args properties pieces c :
  deliver_args ct m = Ok args → Forall (λ p, p ≠ []) pieces → len (mjoin pieces) < 2 ^ 64 →
  handle_all utf8 opts (content ch args properties pieces) c =
  Outcome (handed_over utf8 ct m (mjoin pieces) c) (set_pending None c) (Ok tt).
Proof.
  intros Hargs Hne Hl. unfold content.
  rewrite (handle_all_cons _ _ _ _ _ _ _ (deliver_handled utf8 opts ch ct m args c Hargs)).
  set (c1 := set_pending _ c).
  assert (0 <= len (mjoin pieces) < 2 ^ 64) as Hsize by (unfold len in *; lia).
  pose proof (header_handled utf8 opts ch ct m 0 _ properties c1 eq_refl Hsize) as Hh.
  destruct pieces as [|piece pieces]; [rewrite (handle_all_cons _ _ _ _ _ _ _ Hh); cbn [app fmap list_fmap handle_all mret M_ret log after]; by rewrite app_nil_r|].
  destruct (Z.eqb_spec (len (mjoin (piece :: pieces))) 0) as [E|_].
  { apply Forall_cons in Hne as [Hp _]. change (mjoin (piece :: pieces)) with (piece ++ mjoin pieces) in E.
    unfold len in E. rewrite length_app in E. destruct piece; [done|]. cbn in E. lia. }
  rewrite (handle_all_cons _ _ _ _ _ _ _ Hh).
  rewrite (bodies_handled utf8 opts ch ct m _ (piece :: pieces) []) by done. done.
Qed.

(** However the bytes of a message are cut, split over body frames and mixed with
    heartbeats, the handler of its consumer is called once with the whole message, and the
    connection is as it was; a message for a consumer tag that is not known is dropped. *)
Theorem delivery_assembled ch ct m args properties (pieces bs chunks : list bytes) (fs : list RawFrame) c
    (Hargs : deliver_args ct m = Ok args) (Hne : Forall (λ p, p ≠ []) pieces)
    (Hl : len (mjoin pieces) < 2 ^ 64)
    (Hfs : filter (λ f, ¬ is_heartbeat f) fs = content ch args properties pieces)
    (Hbs : Forall2 frame_built fs bs) (Hc : mjoin chunks = mjoin bs) :
  foldl (on_chunk utf8 opts) ([], c, []) chunks =
  (match jm_get (utf8 ct) (consumers c) with
   | Some h => [Deliver h (received utf8 m (mjoin pieces))]
   | None => []
   end, set_pending None c, []).
Proof.
  rewrite (built_frames_handled utf8 opts fs bs chunks c Hbs Hc).
  by rewrite handle_all_no_heartbeats, Hfs, (content_handled _ ct m).
Qed.

(** When the reply to Basic.Consume and a first message come in one chunk, the message is
    handled before the handler is registered: it is dropped, and never acknowledged. *)
Theorem early_delivery_is_dropped ch ct m args ctb properties (pieces bs : list bytes) chunk p h c
    (Hargs : deliver_args ct m = Ok args) (Hct : shortStr ct = Ok ctb) (Hne : Forall (λ p, p ≠ []) pieces)
    (Hl : len (mjoin pieces) < 2 ^ 64)
    (Hw : jm_get (60, 21) (waiters c) = Some p) (Hnew : jm_get (utf8 ct) (consumers c) = None)
    (Hbs : Forall2 frame_built (method_frame ch 60 21 ctb :: content ch args properties pieces) bs)
    (Hc : chunk = mjoin bs) :
  let '(l, c', _) := foldl (step utf8 opts) ([], c, []) [Data chunk; ConsumeOk h ctb] in
  l = [Reply p ctb] ∧ pendingDelivery c' = None ∧ jm_get (utf8 ct) (consumers c') = Some h.
Proof.
  cbn [foldl]. change (step utf8 opts ([], c, []) (Data chunk)) with (foldl (on_chunk utf8 opts) ([], c, []) [chunk]).
  rewrite (built_frames_handled utf8 opts _ bs [chunk] c Hbs) by (rewrite Hc; cbn; apply app_nil_r).
  set (c1 := set_waiters (jm_delete (60, 21) (waiters c)) c).
  assert (handleFrame utf8 opts (method_frame ch 60 21 ctb) c = Outcome [Reply p ctb] c1 (Ok tt)) as Hok.
  { destruct (method_frame_handled utf8 opts ch 60 21 ctb c) as [Hh ->]; [lia..|].
    unfold handleMethod. rewrite Hh, throwing_ok_bind. cbn [andb Z.eqb Pos.eqb]. unfold wake.
    rewrite (bind_quiet get _ c c c), Hw by done. by rewrite (bind_quiet (modify _) _ c tt c1) by done. }
  rewrite (handle_all_cons _ _ _ _ _ _ _ Hok), (content_handled ch ct m) by done.
  unfold handed_over. cbn [consumers c1 set_waiters log after]. rewrite Hnew.
  cbn [step call]. unfold after_consume.
  pose proof (read_shortStr_shortStr utf8 ct ctb [] Hct) as Hr. rewrite app_nil_r in Hr.
  rewrite (bind_parse _ _ _ _ _ _ Hr). cbn. split; [done|]. split; [done|]. apply jm_get_set_eq.
Qed.

(** Of two calls of the same method that are in flight together, the first is never
    answered: the second takes its place among the waiters. *)
Theorem concurrent_calls_lose_one n p2 name1 type1 d1 name2 type2 d2 l c buf (es : list event)
    (Hs : socket c = true) (Hfresh : lost n c) (Hp2 : p2 ≠ Caller n)
    (H1 : (length name1 <= 255)%nat ∧ (length type1 <= 255)%nat)
    (H2 : (length name2 <= 255)%nat ∧ (length type2 <= 255)%nat)
    (Hes : Forall (λ e, caller e ≠ Some (Caller n)) es) :
  ∃ l', (foldl (step utf8 opts) (l, c, buf)
      (DeclareExchange (Caller n) name1 type1 d1 :: DeclareExchange p2 name2 type2 d2 :: es)).1.1 = l ++ l' ∧
    Forall (not_replied n) l'.
Proof.
  destruct (declare_connected (Caller n) name1 type1 d1 c Hs H1) as [f1 E1].
  set (c1 := set_waiters (jm_set (40, 11) (Caller n) (waiters c)) c) in E1.
  destruct (declare_connected p2 name2 type2 d2 c1 Hs H2) as [f2 E2].
  set (c2 := set_waiters _ c1) in E2.
  assert (lost n c2) as Hlost.
  { unfold lost. cbn [c2 c1 set_waiters waiters]. rewrite jm_set_set. by apply jm_all_set. }
  cbn [foldl step call]. rewrite E1. cbn [log after]. rewrite E2. cbn [log after].
  destruct (keeps_steps_of utf8 opts n es ((l ++ [Write f1]) ++ [Write f2]) c2 buf Hlost Hes) as (l' & -> & Hl').
  exists ([Write f1; Write f2] ++ l'). rewrite !(assoc_L (++)), <-(assoc_L (++) l). split; [done|].
  apply Forall_app. split; [repeat constructor; intros args; discriminate|done].
Qed.

(** A publish on a connected socket writes three frames (two for an empty body) from which
    the broker reads the exchange, the routing key, the size, the properties and the body:
    the whole body in one frame, whatever maximum was negotiated. *)
Theorem publish_on_the_wire exchange routingKey body persistent ct c
    (Hs : socket c = true) (He : (length exchange <= 255)%nat) (Hr : (length routingKey <= 255)%nat)
    (Hct : (length ct <= 255)%nat) (Hb : len body < 2 ^ 32) :
  ∃ bs args encoded,
    log (publish exchange routingKey body persistent ct c) = Write <$> bs ∧
    returned (publish exchange routingKey body persistent ct c) = returned (take_tag c) ∧
    drain next_ok (mjoin bs) =
      ([method_frame CH 60 40 args; header_frame CH (len body) encoded] ++
       (match body with [] => [] | _ => [body_frame CH body] end), []) ∧
    fst <$> publish_fields args = Ok (exchange, routingKey) ∧
    header_properties encoded =
      Ok ((match ct with [] => None | t => Some t end, if persistent then Some 2 else None), []).
Proof.
  destruct (publish_begins exchange routingKey body persistent ct c) as
    (args & f1 & tag & c' & H1 & Hargs & Et & Hs' & E); [done..|].
  destruct (header_built (len body) persistent ct) as (f2 & encoded & H2 & Hw2 & Hp); [unfold len in *; lia|done|].
  destruct (buildFrame_ok FRAME_BODY CH body) as [f3 H3]; [done|done|done|].
  exists ([f1; f2] ++ match body with [] => [] | _ => [f3] end), args, encoded.
  assert (publish exchange routingKey body persistent ct c =
    Outcome (Write <$> ([f1; f2] ++ match body with [] => [] | _ => [f3] end)) c' (Ok tag)) as ->.
  { rewrite E, H2, throwing_ok_bind, send_bind by done. destruct body as [|x body]; [done|].
    assert ((0 <? len (x :: body)) = true) as -> by (apply Z.ltb_lt; unfold len; cbn [length]; lia).
    assert (buildBodyFrame CH (x :: body) = Ok f3) as -> by exact H3.
    assert ((f ← throwing (Ok f3); send f) c' = Outcome [Write f3] c' (Ok tt)) as Eb.
    { rewrite throwing_ok_bind. unfold send. rewrite (bind_quiet get _ c' c' c') by done. by rewrite Hs'. }
    by rewrite (bind_ok _ _ _ _ _ _ Eb). }
  rewrite Et. split; [done|]. split; [done|]. split; [|done].
  apply (drain_written next_ok), frames_built_wires. destruct body; repeat constructor; done.
Qed.

(** A content type that is too long is found out after the method frame has been written:
    the broker waits for a header that does not come, and reads the next method instead. *)
Theorem long_content_type_desyncs exchange routingKey body persistent ct c
    (Hs : socket c = true) (He : (length exchange <= 255)%nat) (Hr : (length routingKey <= 255)%nat)
    (Hct : (255 < length ct)%nat) (Hb : len body < 2 ^ 64) :
  ∃ b args, log (publish exchange routingKey body persistent ct c) = [Write b] ∧
    frame_built (method_frame CH 60 40 args) b ∧
    returned (publish exchange routingKey body persistent ct c) = Throw ShortStringTooLong.
Proof.
  destruct (publish_begins exchange routingKey body persistent ct c) as
    (args & f1 & tag & c' & H1 & _ & _ & _ & ->); [done..|]. exists f1, args.
  assert (buildHeaderFrame CH 60 (len body) {| contentType := match ct with [] => None | t => Some t end;
    deliveryMode := if persistent then Some 2 else None |} = Throw ShortStringTooLong) as ->; [|done].
  unfold buildHeaderFrame, longLong.
  destruct (Z.leb_spec 0 (len body)), (Z.ltb_spec (len body) (2 ^ 64)); try (unfold len in *; lia).
  destruct ct as [|x ct]; [cbn in Hct; lia|]. cbn [andb mbind result_bind contentType]. unfold shortStr.
  destruct (Nat.ltb_spec 255 (length (x :: ct))); [done|lia].
Qed.

(** Channel.Close, with which a broker refuses a declaration, is not handled: nothing
    changes, and the call that it answers waits on. *)
Theorem channel_close_is_ignored ch args c (Hw : jm_get (20, 40) (waiters c) = None) :
  handleFrame utf8 opts (method_frame ch 20 40 args) c = Outcome [] c (Ok tt).
Proof.
  destruct (method_frame_handled utf8 opts ch 20 40 args c) as [Hh ->]; [lia..|].
  unfold handleMethod. rewrite Hh, throwing_ok_bind. cbn [andb Z.eqb Pos.eqb].
  unfold wake. rewrite (bind_quiet get _ c c c) by done. by rewrite Hw.
Qed.
End properties.

(** ** Examples and witnesses *)

Definition as_guest : AmqpOptions :=
  {| username := str "guest"; password := str "guest"; vhost := str "/"; heartbeatSeconds := 60 |}.

Definition built (f : RawFrame) : bytes :=
  match buildFrame (frame_type f) (channel f) (payload f) with Ok b => b | Throw _ => [] end.
Definition is_write (e : effect) : bool := match e with Write _ => true | _ => false end.

(** Start, Tune, Open-Ok and the channel's Open-Ok open the connection. *)
Example handshake_opens :
  let '(l, c, buf) := run (λ b, b) as_guest
    [Connect; SocketReady; Data (built (method_frame 0 10 10 []));
     Data (built (method_frame 0 10 30 (shortUint 0 ++ longUint 0 ++ shortUint 30)));
     Data (built (method_frame 0 10 41 [])); Data (built (method_frame 1 20 11 (longUint 0))); ChannelOpened] in
  filter (λ e, is_write e = false) l = [Reply OpenChannel (longUint 0); Opened] ∧
  length l = 7%nat ∧ heartbeatTimer c = true ∧ waiters c = [] ∧ buf = [].
Proof. vm_compute. done. Qed.

Definition connected : conn := set_consumers [(str "c1", 7%nat)] (set_socket true new_connection).
Definition order_placed : DeliveredMessage :=
  {| deliveryTag := 3; redelivered := false; m_exchange := str "street.events";
     m_routingKey := str "order"; m_body := [] |}.
Definition args_of (ct : bytes) (m : DeliveredMessage) : bytes :=
  match deliver_args ct m with Ok b => b | Throw _ => [] end.

Lemma delivery_assembled_witness :
  foldl (on_chunk (λ b, b) as_guest) ([], connected, [])
    (let wire := mjoin (built <$> (heartbeat :: content 1 (args_of (str "c1") order_placed) (shortUint 0) [str "he"; str "y"])) in
     [take 30 wire; drop 30 wire]) =
  ([Deliver 7 (received (λ b, b) order_placed (str "hey"))], connected, []).
Proof.
  set (args := args_of (str "c1") order_placed).
  apply (delivery_assembled (λ b, b) as_guest 1 (str "c1") order_placed args (shortUint 0) [str "he"; str "y"]
    (built <$> (heartbeat :: content 1 args (shortUint 0) [str "he"; str "y"])) _
    (heartbeat :: content 1 args (shortUint 0) [str "he"; str "y"])).
  - reflexivity.
  - repeat constructor; discriminate.
  - reflexivity.
  - reflexivity.
  - repeat constructor.
  - cbn [mjoin list_join]. rewrite app_nil_r. apply take_drop.
Defined.

Lemma publish_on_the_wire_witness :
  ∃ bs args encoded,
    log (publish (str "x") (str "k") (str "hi") true [] connected) = Write <$> bs ∧
    drain next_ok (mjoin bs) =
      ([method_frame CH 60 40 args; header_frame CH 2 encoded; body_frame CH (str "hi")], []).
Proof.
  destruct (publish_on_the_wire (str "x") (str "k") (str "hi") true [] connected) as
    (bs & args & encoded & H1 & _ & H2 & _); [reflexivity|cbn; lia..|reflexivity|].
  exists bs, args, encoded. split; [exact H1|exact H2].
Defined.

Lemma early_delivery_is_dropped_witness :
  let c := set_consumers [] (set_waiters [((60, 21), Caller 0)] connected) in
  let args := args_of (str "c1") order_placed in
  let ctb := octet 2 ++ str "c1" in
  let chunk := mjoin (built <$> (method_frame 1 60 21 ctb :: content 1 args (shortUint 0) [str "hey"])) in
  (foldl (step (λ b, b) as_guest) ([], c, []) [Data chunk; ConsumeOk 7 ctb]).1.1 = [Reply (Caller 0) ctb].
Proof.
  intros c args ctb chunk.
  pose proof (early_delivery_is_dropped (λ b, b) as_guest 1 (str "c1") order_placed args ctb (shortUint 0) [str "hey"]
    (built <$> (method_frame 1 60 21 ctb :: content 1 args (shortUint 0) [str "hey"])) chunk (Caller 0) 7 c) as H.
  destruct (foldl _ _ _) as [[l c'] buf']. apply H.
  - reflexivity.
  - reflexivity.
  - repeat constructor; discriminate.
  - reflexivity.
  - reflexivity.
  - reflexivity.
  - repeat constructor.
  - reflexivity.
Defined.

Lemma concurrent_calls_lose_one_witness :
  ∃ l', (foldl (step (λ b, b) as_guest) ([], connected, [])
    [DeclareExchange (Caller 1) (str "a") (str "topic") true;
     DeclareExchange (Caller 2) (str "b") (str "topic") true;
     Data (built (method_frame 1 40 11 [])); Data (built (method_frame 1 40 11 []))]).1.1 = l' ∧
    Forall (not_replied 1) l'.
Proof.
  apply (concurrent_calls_lose_one (λ b, b) as_guest 1 (Caller 2) (str "a") (str "topic") true
    (str "b") (str "topic") true [] connected [] [Data _; Data _]).
  - reflexivity.
  - constructor.
  - discriminate.
  - cbn. lia.
  - cbn. lia.
  - repeat constructor; discriminate.
Defined.
