(* ===== verification/AmqpConfirms.v ===== *)
(** * Publisher confirms of the AMQP connection

    The table of resolvers of AmqpConnection.v as the set of tags that are outstanding, over
    every sequence of events; and what a confirm of the broker settles. *)

From Stdlib Require Import Ascii String.
From S2P Require Import Prelude JsText JsMap JsInt Bytes AmqpCodec AmqpConnection.

Open Scope Z_scope.
#[local] Open Scope list_scope.

#[local] Abbreviation bytes := (list ascii) (only parsing).

(** ** The table

    [confirmWaiters] is a table of the tags that are outstanding, each with its two
    resolvers. *)

Definition entries_of (t : Z) : list (confirm_key * resolver) := [(KTag t, resolving t); (KRej t, rejecting t)].
Fixpoint confirm_table (tags : list Z) : list (confirm_key * resolver) :=
  match tags with [] => [] | t :: tags => entries_of t ++ confirm_table tags end.

Definition key_tag (k : confirm_key) : option Z := match k with KTag t => Some t | KRej _ => None end.
Definition outstanding (c : conn) : list Z := omap key_tag (jm_keys (confirmWaiters c)).
Definition settled_tag (e : effect) : option Z :=
  match e with Confirmed t | Nacked t => Some t | _ => None end.
Definition settled (l : list effect) : list Z := omap settled_tag l.

(** The table is that of some tags below the next one. *)
Definition confirms_ok (c : conn) : Prop :=
  ∃ tags, confirmWaiters c = confirm_table tags ∧ NoDup tags ∧ Forall (λ t, t < nextPublishTag c) tags.

Lemma table_outstanding tags : omap key_tag (jm_keys (confirm_table tags)) = tags.
Proof. induction tags as [|t tags IH]; [done|]. cbn. by f_equal. Qed.

Lemma table_get t tags :
  jm_get (KTag t) (confirm_table tags) = (if decide (t ∈ tags) then Some (resolving t) else None) ∧
  jm_get (KRej t) (confirm_table tags) = (if decide (t ∈ tags) then Some (rejecting t) else None).
Proof.
  induction tags as [|u tags [IH1 IH2]]; [done|]. cbn [confirm_table entries_of app jm_get].
  destruct (decide (t = u)) as [->|Hne].
  - split; repeat case_decide; done || set_solver.
  - rewrite !(decide_False (P := _ = _)) by congruence. rewrite IH1, IH2.
    destruct (decide (t ∈ tags)) as [Hin|Hin].
    + by rewrite !decide_True by by right.
    + rewrite !decide_False; [done|..]; intros [->|]%elem_of_cons; done.
Qed.

Lemma table_delete t tags :
  NoDup tags →
  jm_delete (KRej t) (jm_delete (KTag t) (confirm_table tags)) = confirm_table (filter (λ u, u ≠ t) tags).
Proof.
  induction tags as [|u tags IH]; [done|]. intros [Hu Hnd]%NoDup_cons.
  cbn [confirm_table entries_of app jm_delete]. rewrite filter_cons. destruct (decide (u = t)) as [->|Hne].
  - rewrite decide_True by done. cbn [jm_delete]. rewrite decide_True by done.
    rewrite decide_False by tauto. f_equal. symmetry. apply filter_all. rewrite Forall_forall. by intros v Hv ->.
  - rewrite !(decide_False (P := _ = _)) by congruence. cbn [jm_delete].
    rewrite !(decide_False (P := _ = _)) by congruence. rewrite IH by done. by rewrite decide_True by done.
Qed.

Lemma table_snoc t tags :
  t ∉ tags →
  jm_set (KRej t) (rejecting t) (jm_set (KTag t) (resolving t) (confirm_table tags)) = confirm_table (tags ++ [t]).
Proof.
  induction tags as [|u tags IH]; intros Ht.
  - cbn. by rewrite decide_False by done.
  - apply not_elem_of_cons in Ht as [Hne Ht]. cbn [app confirm_table entries_of jm_set].
    rewrite !(decide_False (P := _ = _)) by congruence. cbn [jm_set].
    rewrite !(decide_False (P := _ = _)) by congruence. by rewrite IH.
Qed.

Lemma confirms_outstanding c : confirms_ok c →
  confirmWaiters c = confirm_table (outstanding c) ∧ NoDup (outstanding c) ∧
  Forall (λ t, t < nextPublishTag c) (outstanding c).
Proof. intros (tags & E & Hnd & Hlt). unfold outstanding. by rewrite E, table_outstanding. Qed.

(** What settling a tag leaves. *)
Definition drop_tags (P : Z → Prop) `{!∀ t, Decision (P t)} (c : conn) : conn :=
  set_confirms (nextPublishTag c) (confirm_table (filter (λ t, ¬ P t) (outstanding c))) c.

Lemma resolveTag_exact nack t c : confirms_ok c →
  resolveTag nack t c =
  Outcome (if decide (t ∈ outstanding c) then [answer nack t] else []) (drop_tags (λ u, u = t) c) (Ok tt).
Proof.
  intros (E & Hnd & _)%confirms_outstanding. unfold resolveTag, get, mbind, M_bind. cbn [returned after log].
  assert (jm_get (if nack then KRej t else KTag t) (confirmWaiters c) =
    if decide (t ∈ outstanding c) then Some {| rejects := nack; of_tag := t |} else None) as ->.
  { rewrite E. pose proof (table_get t (outstanding c)) as [H1 H2]. by destruct nack. }
  destruct (decide (t ∈ outstanding c)); cbn; unfold drop_tags; by rewrite <-(table_delete t), <-E.
Qed.

Lemma drop_tags_ok P `{!∀ t, Decision (P t)} c : confirms_ok c → confirms_ok (drop_tags P c).
Proof.
  intros (_ & Hnd & Hlt)%confirms_outstanding. exists (filter (λ t, ¬ P t) (outstanding c)).
  split; [done|]. split; [by apply NoDup_filter|by apply Forall_filter_keep].
Qed.

Lemma drop_tags_outstanding P `{!∀ t, Decision (P t)} c :
  outstanding (drop_tags P c) = filter (λ t, ¬ P t) (outstanding c).
Proof. apply table_outstanding. Qed.

(** Every tag that is taken is settled once or outstanding: what a computation keeps. *)
Definition ledger {A} (m : M A) : Prop := ∀ c, confirms_ok c →
  confirms_ok (after (m c)) ∧ nextPublishTag c <= nextPublishTag (after (m c)) ∧
  settled (log (m c)) ++ outstanding (after (m c)) ≡ₚ
    outstanding c ++ seqZ (nextPublishTag c) (nextPublishTag (after (m c)) - nextPublishTag c).

Create HintDb ledger.

Lemma settled_app l1 l2 : settled (l1 ++ l2) = settled l1 ++ settled l2.
Proof. apply omap_app. Qed.

Lemma ledger_bind {A B} (m : M A) (f : A → M B) :
  ledger m → (∀ a, ledger (f a)) → ledger (m ≫= f).
Proof.
  intros Hm Hf c Hc. destruct (Hm c Hc) as (Hc1 & Hn1 & Hp1). unfold mbind, M_bind.
  destruct (returned (m c)) as [a|e]; [|done]. cbn [log after].
  destruct (Hf a (after (m c)) Hc1) as (Hc2 & Hn2 & Hp2). split; [done|]. split; [lia|].
  rewrite settled_app, <-(assoc_L (++)), Hp2, (assoc_L (++)), Hp1, <-(assoc_L (++)).
  revert Hn1 Hn2. generalize (nextPublishTag c), (nextPublishTag (after (m c))),
    (nextPublishTag (after (f a (after (m c))))). intros n n1 n2 Hn1 Hn2.
  replace (n2 - n) with ((n1 - n) + (n2 - n1)) by lia. rewrite seqZ_app by lia.
  by replace (n + (n1 - n)) with n1 by lia.
Qed.

(** Computations that leave the confirms alone. *)
Lemma ledger_quiet {A} (m : M A) :
  (∀ c, settled (log (m c)) = [] ∧ confirmWaiters (after (m c)) = confirmWaiters c ∧
    nextPublishTag (after (m c)) = nextPublishTag c) → ledger m.
Proof.
  intros H c (tags & E & Hnd & Hlt). destruct (H c) as (H1 & H2 & H3).
  unfold confirms_ok, outstanding. rewrite H1, H2, H3. split; [by exists tags|]. split; [done|].
  by rewrite Z.sub_diag, app_nil_r.
Qed.

Lemma ledger_ret {A} (a : A) : ledger (mret a).
Proof. by apply ledger_quiet. Qed.
Lemma ledger_throwing {A} (r : result amqp_error A) : ledger (throwing r).
Proof. by apply ledger_quiet. Qed.
Lemma ledger_parse {A} (r : reader A) b : ledger (parse r b).
Proof. by apply ledger_quiet. Qed.
Lemma ledger_get : ledger get.
Proof. by apply ledger_quiet. Qed.
Lemma ledger_emit e : settled_tag e = None → ledger (emit e).
Proof. intros E. apply ledger_quiet. intros c. cbn. by rewrite E. Qed.
Lemma ledger_modify f :
  (∀ c, confirmWaiters (f c) = confirmWaiters c ∧ nextPublishTag (f c) = nextPublishTag c) →
  ledger (modify f).
Proof. intros H. apply ledger_quiet. intros c. cbn. by destruct (H c). Qed.
Lemma ledger_async p m : ledger m → ledger (async p m).
Proof.
  intros Hm c Hc. unfold async. destruct (Hm c Hc) as (H1 & H2 & H3).
  destruct (returned (m c)); [done|]. cbn [log after]. split; [done|]. split; [done|].
  rewrite settled_app. cbn. by rewrite app_nil_r.
Qed.

#[export] Hint Resolve ledger_ret ledger_throwing ledger_parse ledger_get ledger_async : ledger.

(** Follows the structure of a computation. *)
Ltac ledger_steps :=
  intros; repeat first
    [ solve [eauto with ledger]
    | apply ledger_emit; reflexivity
    | apply ledger_modify; intros; split; reflexivity
    | apply ledger_async
    | apply ledger_bind; [|intros ?]
    | match goal with |- ledger (match ?x with _ => _ end) => destruct x end ].

Lemma ledger_send f : ledger (send f).
Proof. unfold send. ledger_steps. Qed.
#[export] Hint Resolve ledger_send : ledger.
Lemma ledger_rpc p f a b : ledger (rpc p f a b).
Proof. unfold rpc. ledger_steps. Qed.
#[export] Hint Resolve ledger_rpc : ledger.

Lemma settled_answer (b : bool) nack t : settled (if b then [answer nack t] else []) = if b then [t] else [].
Proof. by destruct b, nack. Qed.

Lemma remove_tag (t : Z) l : NoDup l →
  (if decide (t ∈ l) then [t] else []) ++ filter (λ u, ¬ u = t) l ≡ₚ l.
Proof.
  intros Hnd. destruct (decide (t ∈ l)) as [Hin|Hin]; cbn [app].
  - rewrite (Permutation_filter_split (λ u, u = t) l) at 2. change [t] with ([t] ++ []).
    change (t :: filter (λ u, ¬ u = t) l) with ([t] ++ filter (λ u, ¬ u = t) l).
    apply Permutation_app_tail. symmetry.
    pose proof (filter_key_unique id l t) as E. unfold id in E. rewrite E; [done| |done]. by rewrite list_fmap_id.
  - rewrite filter_all; [done|]. rewrite Forall_forall. by intros u Hu ->.
Qed.

Lemma ledger_resolveTag nack t : ledger (resolveTag nack t).
Proof.
  intros c Hc. rewrite resolveTag_exact by done. cbn [log after].
  split; [by apply drop_tags_ok|]. cbn [drop_tags set_confirms nextPublishTag]. split; [done|].
  rewrite Z.sub_diag, app_nil_r, drop_tags_outstanding.
  destruct (confirms_outstanding c Hc) as (_ & Hnd & _).
  pose proof (remove_tag t (outstanding c) Hnd) as Hp. revert Hp.
  by destruct (decide (t ∈ outstanding c)), nack.
Qed.

Lemma ledger_take_tag : ledger take_tag.
Proof.
  intros c Hc. unfold take_tag, get, mbind, M_bind. cbn [returned after log app].
  destruct (confirmEnabled c) eqn:En; [|by apply ledger_ret]. cbn [modify mret M_ret log after returned app].
  destruct Hc as (tags & E & Hnd & Hlt).
  assert (nextPublishTag c ∉ tags) as Hn.
  { intros Hin. rewrite Forall_forall in Hlt. specialize (Hlt _ Hin). cbn in Hlt. lia. }
  unfold confirms_ok, outstanding. cbn [set_confirms confirmWaiters nextPublishTag].
  rewrite E, table_snoc, !table_outstanding by done. split; [|split; [lia|]].
  - exists (tags ++ [nextPublishTag c]). split; [done|].
    split; [apply NoDup_app; split_and!; [done|set_solver|apply NoDup_singleton]|].
    apply Forall_app. split; [|constructor; [cbn; lia|constructor]].
    eapply Forall_impl; [exact Hlt|]. cbn. lia.
  - replace (nextPublishTag c + 1 - nextPublishTag c) with 1 by lia. done.
Qed.
#[export] Hint Resolve ledger_resolveTag ledger_take_tag : ledger.

Lemma ledger_resolve_upto nack tag keys : ledger (resolve_upto nack tag keys).
Proof. induction keys as [|[t|t] keys IH]; cbn [resolve_upto]; ledger_steps. Qed.
#[export] Hint Resolve ledger_resolve_upto : ledger.

Section all_operations.
Context (utf8 : bytes → bytes) (opts : AmqpOptions).

Lemma ledger_handleConfirm args nack : ledger (handleConfirm args nack).
Proof. unfold handleConfirm. ledger_steps. Qed.
Lemma ledger_finishDelivery : ledger finishDelivery.
Proof. unfold finishDelivery. ledger_steps. Qed.
#[local] Hint Resolve ledger_handleConfirm ledger_finishDelivery : ledger.
Lemma ledger_handleMethod payload : ledger (handleMethod utf8 opts payload).
Proof.
  unfold handleMethod, sendStartOk, sendTuneOkAndOpen, afterConnectionOpen, handleServerClose, beginDelivery.
  ledger_steps.
Qed.
#[local] Hint Resolve ledger_handleMethod : ledger.
Lemma ledger_handleFrame f : ledger (handleFrame utf8 opts f).
Proof. unfold handleFrame, handleHeader, handleBody. ledger_steps. Qed.
Lemma ledger_guarded f : ledger (guarded utf8 opts f).
Proof.
  intros c Hc. destruct (ledger_handleFrame f c Hc) as (H1 & H2 & H3).
  unfold guarded. cbv zeta. destruct (returned _); [done|]. cbn [log after]. split; [done|]. split; [done|].
  rewrite settled_app. cbn. by rewrite app_nil_r.
Qed.
#[local] Hint Resolve ledger_guarded : ledger.
Lemma ledger_process fuel : ∀ buf, ledger (process utf8 opts fuel buf).
Proof. induction fuel as [|fuel IH]; intros buf; cbn [process]; ledger_steps. Qed.
Lemma ledger_publish exchange routingKey body persistent ct :
  ledger (publish exchange routingKey body persistent ct).
Proof. unfold publish. ledger_steps. Qed.
#[local] Hint Resolve ledger_process ledger_publish : ledger.
Lemma ledger_call e : ledger (call utf8 opts e).
Proof.
  destruct e; cbn [call];
    unfold connect, onSocketReady, onClose, after_channel_open, startHeartbeat, after_confirms,
      after_consume, declareExchange, declareQueue, bindQueue, enableConfirms, setQos, consume, ack,
      nack, close, simulateDrop; ledger_steps.
Qed.

Lemma ledger_step l c buf e l' c' buf' :
  step utf8 opts (l, c, buf) e = (l', c', buf') → confirms_ok c →
  ∃ l1, l' = l ++ l1 ∧ confirms_ok c' ∧ nextPublishTag c <= nextPublishTag c' ∧
    settled l1 ++ outstanding c' ≡ₚ
      outstanding c ++ seqZ (nextPublishTag c) (nextPublishTag c' - nextPublishTag c).
Proof.
  intros Hstep Hc. cbn [step] in Hstep.
  destruct e; apply pair_equal_spec in Hstep as [[<- <-]%pair_equal_spec _]; (eexists; split; [reflexivity|]);
    first [exact (ledger_call _ c Hc) | exact (ledger_process _ _ c Hc)].
Qed.

Lemma run_ledger es :
  let '(l, c, _) := run utf8 opts es in
  confirms_ok c ∧ 1 <= nextPublishTag c ∧
  settled l ++ outstanding c ≡ₚ seqZ 1 (nextPublishTag c - 1).
Proof.
  unfold run. induction es as [|e es IH] using rev_ind.
  - cbn. split; [exists []; repeat constructor|]. done.
  - rewrite foldl_app. cbn [foldl]. destruct (foldl _ _ es) as [[l c] buf].
    destruct (step utf8 opts (l, c, buf) e) as [[l' c'] buf'] eqn:E.
    destruct IH as (Hc & Hn & Hp). destruct (ledger_step _ _ _ _ _ _ _ E Hc) as (l1 & -> & Hc' & Hn' & Hp').
    split; [done|]. split; [lia|]. rewrite settled_app, <-(assoc_L (++)), Hp', (assoc_L (++)), Hp.
    revert Hn Hn'. generalize (nextPublishTag c), (nextPublishTag c'). intros n n' Hn Hn'.
    replace (n' - 1) with ((n - 1) + (n' - n)) by lia. rewrite seqZ_app by lia.
    by replace (1 + (n - 1)) with n by lia.
Qed.
End all_operations.

(** ** What a confirm settles *)

Lemma drop_tags_none P `{!∀ t, Decision (P t)} c :
  confirms_ok c → Forall (λ t, ¬ P t) (outstanding c) → drop_tags P c = c.
Proof.
  intros (E & _)%confirms_outstanding Hn. unfold drop_tags. rewrite filter_all, <-E by done. by destruct c.
Qed.

Lemma drop_tags_twice P `{!∀ t, Decision (P t)} Q `{!∀ t, Decision (Q t)} c :
  (∀ t, Q t → P t) → drop_tags P (drop_tags Q c) = drop_tags P c.
Proof.
  intros HQP. unfold drop_tags at 1 3. rewrite drop_tags_outstanding.
  rewrite list_filter_filter_l by auto. done.
Qed.

Lemma resolve_upto_exact nack tag tags : ∀ c before,
  confirms_ok c → outstanding c = before ++ tags → Forall (λ t, ¬ t <= tag) before →
  resolve_upto nack tag (jm_keys (confirm_table tags)) c =
  Outcome (answer nack <$> filter (λ t, t <= tag) tags) (drop_tags (λ t, t <= tag) c) (Ok tt).
Proof.
  induction tags as [|t tags IH]; intros c before Hc Hout Hb.
  - rewrite app_nil_r in Hout. rewrite drop_tags_none by (rewrite ?Hout; done). done.
  - cbn [confirm_table entries_of app jm_keys fmap list_fmap fst resolve_upto]. rewrite filter_cons.
    change ((confirm_table tags).*1) with (jm_keys (confirm_table tags)).
    destruct (Z.leb_spec t tag) as [Hle|Hgt].
    + rewrite decide_True by done. unfold mbind, M_bind. rewrite resolveTag_exact by done.
      cbn [returned log after].
      destruct (confirms_outstanding c Hc) as (_ & Hnd & _). rewrite Hout in Hnd.
      apply NoDup_app in Hnd as (_ & Hdis & [Ht Hnd]%NoDup_cons).
      rewrite (IH _ before); [|by apply drop_tags_ok| |done].
      * cbn [log after returned]. rewrite drop_tags_twice by (intros ? ->; done).
        rewrite decide_True by (rewrite Hout; apply elem_of_app; right; left). done.
      * rewrite drop_tags_outstanding, Hout, filter_app, filter_cons, decide_False by tauto.
        rewrite !filter_all; [done|..]; rewrite Forall_forall.
        -- by intros u Hu ->.
        -- intros u Hu ->. apply (Hdis t Hu). left.
    + rewrite decide_False by lia. rewrite (bind_quiet (mret tt) _ c tt c) by done.
      rewrite (IH c (before ++ [t])); [done|done|by rewrite Hout, <-(assoc_L (++))|].
      apply Forall_app. split; [done|]. constructor; [cbn; lia|constructor].
Qed.

(** The tags that a confirm is about. *)
Definition confirmed_by (tag : Z) (multiple : bool) (t : Z) : Prop := if multiple then t <= tag else t = tag.
#[export] Instance confirmed_by_dec tag multiple t : Decision (confirmed_by tag multiple t).
Proof. destruct multiple; cbn; apply _. Defined.

Lemma filter_one (t : Z) l : NoDup l → filter (λ u, u = t) l = if decide (t ∈ l) then [t] else [].
Proof.
  intros Hnd. destruct (decide (t ∈ l)) as [Hin|Hin].
  - pose proof (filter_key_unique id l t) as E. unfold id in E. apply E; [by rewrite list_fmap_id|done].
  - apply filter_none. rewrite Forall_forall. by intros u Hu ->.
Qed.

Lemma handleConfirm_exact args tag multiple rest nack c :
  confirm_args args = Ok ((tag, multiple), rest) → confirms_ok c →
  handleConfirm args nack c =
  Outcome (answer nack <$> filter (confirmed_by tag multiple) (outstanding c))
    (drop_tags (confirmed_by tag multiple) c) (Ok tt).
Proof.
  intros Hargs Hc. destruct (confirms_outstanding c Hc) as (E & Hnd & _).
  unfold handleConfirm. rewrite (bind_parse _ _ _ _ _ _ Hargs). destruct multiple.
  - rewrite (bind_quiet get _ c c c) by done. rewrite E at 1.
    apply (resolve_upto_exact nack tag (outstanding c) c []); done.
  - rewrite resolveTag_exact by done. unfold confirmed_by at 1. 
    rewrite (filter_iff_in _ (λ u, u = tag)) by done. rewrite filter_one by done.
    by destruct (decide (tag ∈ outstanding c)).
Qed.

(** ** Properties *)

(** A Basic.Ack or Basic.Nack of the broker. *)
Definition confirm_frame (ch : Z) (nack : bool) (tag : Z) (multiple : bool) : RawFrame :=
  {| frame_type := FRAME_METHOD; channel := ch;
     payload := shortUint 60 ++ shortUint (if nack then 120 else 80) ++ be_split 8 tag ++
                octet (if multiple then 1 else 0) |}.

Lemma confirm_frame_handled utf8 opts ch nack tag multiple c :
  0 <= tag < 2 ^ 64 →
  handleFrame utf8 opts (confirm_frame ch nack tag multiple) c =
  handleConfirm (be_split 8 tag ++ octet (if multiple then 1 else 0)) nack c.
Proof.
  intros Ht. unfold handleFrame. cbn [frame_type confirm_frame payload]. 
  change (FRAME_METHOD =? FRAME_HEARTBEAT) with false. change (FRAME_METHOD =? FRAME_HEADER) with false.
  change (FRAME_METHOD =? FRAME_BODY) with false. change (FRAME_METHOD =? FRAME_METHOD) with true.
  cbn [negb]. unfold handleMethod.
  set (args := be_split 8 tag ++ _).
  assert (readMethodHeader (shortUint 60 ++ shortUint (if nack then 120 else 80) ++ args) =
    Ok ((60, if nack then 120 else 80), args)) as ->.
  { unfold readMethodHeader, mbind, reader_bind. rewrite read_shortUint_shortUint.
    rewrite read_shortUint_shortUint. by destruct nack. }
  rewrite throwing_ok_bind. by destruct nack.
Qed.

Lemma confirm_args_read tag (multiple : bool) rest :
  0 <= tag < 2 ^ 64 →
  confirm_args (be_split 8 tag ++ octet (if multiple : bool then 1 else 0) ++ rest) = Ok ((tag, multiple), rest).
Proof.
  intros Ht. unfold confirm_args, mbind, reader_bind, read_longLong, read_bit.
  rewrite read_uint_split by done. unfold mbind, reader_bind. rewrite read_octet_octet. by destruct multiple.
Qed.

Section properties.
Context (utf8 : bytes → bytes) (opts : AmqpOptions).

(** C15: Whatever happens to a connection, every tag that a publish took is either settled, and
    then once, or outstanding; and an ack or nack of the broker settles, in the order of the
    publishes, exactly the outstanding tags that it is about: one, or all up to it. *)
Theorem confirms_settle_once (es : list event) ch nack tag multiple (Ht : 0 <= tag < 2 ^ 64) :
  let '(l, c, _) := run utf8 opts es in
  settled l ++ outstanding c ≡ₚ seqZ 1 (nextPublishTag c - 1) ∧
  let o := handleFrame utf8 opts (confirm_frame ch nack tag multiple) c in
  log o = answer nack <$> filter (confirmed_by tag multiple) (outstanding c) ∧
  outstanding (after o) = filter (λ t, ¬ confirmed_by tag multiple t) (outstanding c) ∧
  returned o = Ok tt.
Proof.
  pose proof (run_ledger utf8 opts es) as H. destruct (run utf8 opts es) as [[l c] buf].
  destruct H as (Hc & _ & Hp). split; [done|]. cbv zeta. rewrite confirm_frame_handled by done.
  pose proof (confirm_args_read tag multiple [] Ht) as Ha. rewrite app_nil_r in Ha.
  rewrite (handleConfirm_exact _ _ _ _ _ _ Ha Hc). cbn [log after returned].
  by rewrite drop_tags_outstanding.
Qed.

(** When the socket ends, no publish and no synchronous method that waits is told: their
    promises stay as they are, on a connection that is not used again. *)
Theorem dropped_publishes_wait (es : list event) :
  let '(l, c, _) := run utf8 opts es in
  let '(l', c', _) := run utf8 opts (es ++ [SocketClosed]) in
  l' = l ++ (if closing c then [] else [Disconnected]) ++ [Closed] ∧
  outstanding c' = outstanding c ∧ waiters c' = waiters c.
Proof.
  unfold run. rewrite foldl_app. destruct (foldl _ _ es) as [[l c] buf]. cbn [foldl step call].
  unfold onClose, mbind, M_bind. cbn. by destruct (closing c).
Qed.
End properties.

(** ** Witness *)

Definition guest : AmqpOptions :=
  {| username := []; password := []; vhost := []; heartbeatSeconds := 60 |}.
Definition three_published : list event :=
  [Connect; ConfirmsSelected; Publish [] [] [] true []; Publish [] [] [] true []; Publish [] [] [] true []].

Lemma confirms_settle_once_witness :
  let '(l, c, _) := run (λ b, b) guest three_published in
  log (handleFrame (λ b, b) guest (confirm_frame 1 false 2 true) c) = [Confirmed 1; Confirmed 2].
Proof.
  pose proof (confirms_settle_once (λ b, b) guest three_published 1 false 2 true ltac:(lia)) as H.
  destruct (run (λ b, b) guest three_published) as [[l c] buf] eqn:E.
  destruct H as (_ & Hlog & _). rewrite Hlog. vm_compute in E. injection E as <- <- <-. reflexivity.
Defined.
