(* ===== verification/RabbitMq.v ===== *)
(** * The RabbitMQ transport: reconnecting, publishing, consuming

    Models src/packages/core/src/transports/rabbitmq/index.ts: the connection manager with
    its retry loops, the publisher and the consumer over it.

    The manager is a transition system: a loop of [_connectWithRetry] is connecting or
    sleeps between attempts, and the events are the calls of [get], [onReconnect] and
    [close], the outcomes of [connect] and the ends of sockets (a socket that could not be
    connected closes like any other).  Connections are named by numbers; what happens on
    one is AmqpConnection.v. *)

From Stdlib Require Import Ascii String.
From S2P Require Import Prelude JsText JsMap Bytes AmqpCodec AmqpConnection.

Open Scope Z_scope.
#[local] Open Scope list_scope.

#[local] Abbreviation bytes := (list ascii) (only parsing).

(** ** The connection manager *)

Record RabbitMqOptions : Type := { reconnectBaseMs : Z; reconnectMaxMs : Z }.

Inductive loop : Type :=
| Connecting (k : nat)             (* awaits [connect] of connection [k] *)
| Sleeping (delay : Z).

Record manager : Type := {
  m_conn : option nat;
  connectPromise : option nat;     (* the loop whose promise it is *)
  m_closed : bool;
  attempts : nat;
  onReady : list nat;              (* callbacks *)
  loops : list (nat * loop);
  opened : list nat;               (* connections whose socket is open *)
  called : list (nat * nat);       (* callbacks that were called, with the connection *)
  rejected : list nat;             (* loops that threw *)
  fresh_loop : nat;
  fresh_conn : nat;
}.

Definition new_manager : manager :=
  {| m_conn := None; connectPromise := None; m_closed := false; attempts := 0; onReady := [];
     loops := []; opened := []; called := []; rejected := []; fresh_loop := 0; fresh_conn := 0 |}.

(** [conn?.connected]. *)
Definition connected_now (m : manager) : option nat :=
  match m_conn m with
  | Some k => if decide (k ∈ opened m) then Some k else None
  | None => None
  end.

(** One turn of the loop, up to the [await] of [connect]. *)
Definition attempt (id : nat) (m : manager) : manager :=
  if m_closed m then
    {| m_conn := m_conn m; connectPromise := connectPromise m; m_closed := m_closed m;
       attempts := attempts m; onReady := onReady m; loops := jm_delete id (loops m);
       opened := opened m; called := called m; rejected := rejected m ++ [id];
       fresh_loop := fresh_loop m; fresh_conn := fresh_conn m |}
  else
    {| m_conn := m_conn m; connectPromise := connectPromise m; m_closed := m_closed m;
       attempts := attempts m; onReady := onReady m;
       loops := jm_set id (Connecting (fresh_conn m)) (loops m);
       opened := opened m; called := called m; rejected := rejected m;
       fresh_loop := fresh_loop m; fresh_conn := S (fresh_conn m) |}.

(** [get]: the connection, the promise of a loop, or a new loop. *)
Definition get (m : manager) : manager :=
  match connected_now m, connectPromise m with
  | Some _, _ | _, Some _ => m
  | None, None =>
      let id := fresh_loop m in
      attempt id
        {| m_conn := m_conn m; connectPromise := Some id; m_closed := m_closed m;
           attempts := attempts m; onReady := onReady m; loops := loops m; opened := opened m;
           called := called m; rejected := rejected m; fresh_loop := S id; fresh_conn := fresh_conn m |}
  end.

Definition onDisconnect (m : manager) : manager :=
  let m := {| m_conn := None; connectPromise := None; m_closed := m_closed m; attempts := attempts m;
              onReady := onReady m; loops := loops m; opened := opened m; called := called m;
              rejected := rejected m; fresh_loop := fresh_loop m; fresh_conn := fresh_conn m |} in
  if m_closed m then m else get m.

(** The [catch] of the loop. *)
Definition failed (opts : RabbitMqOptions) (id : nat) (m : manager) : manager :=
  let delay := Z.min (reconnectBaseMs opts * 2 ^ Z.of_nat (attempts m)) (reconnectMaxMs opts) in
  {| m_conn := m_conn m; connectPromise := connectPromise m; m_closed := m_closed m;
     attempts := S (attempts m); onReady := onReady m; loops := jm_set id (Sleeping delay) (loops m);
     opened := opened m; called := called m; rejected := rejected m; fresh_loop := fresh_loop m;
     fresh_conn := fresh_conn m |}.

(** After [connect]: the callbacks are taken out of the list and called. *)
Definition established (id k : nat) (m : manager) : manager :=
  {| m_conn := Some k; connectPromise := None; m_closed := m_closed m; attempts := 0; onReady := [];
     loops := jm_delete id (loops m); opened := opened m ++ [k];
     called := called m ++ ((λ cb, (cb, k)) <$> onReady m); rejected := rejected m;
     fresh_loop := fresh_loop m; fresh_conn := fresh_conn m |}.

Definition set_onReady (l : list nat) (m : manager) : manager :=
  {| m_conn := m_conn m; connectPromise := connectPromise m; m_closed := m_closed m;
     attempts := attempts m; onReady := l; loops := loops m; opened := opened m; called := called m;
     rejected := rejected m; fresh_loop := fresh_loop m; fresh_conn := fresh_conn m |}.
Definition set_opened (l : list nat) (m : manager) : manager :=
  {| m_conn := m_conn m; connectPromise := connectPromise m; m_closed := m_closed m;
     attempts := attempts m; onReady := onReady m; loops := loops m; opened := l; called := called m;
     rejected := rejected m; fresh_loop := fresh_loop m; fresh_conn := fresh_conn m |}.
Definition set_closed (m : manager) : manager :=
  {| m_conn := None; connectPromise := connectPromise m; m_closed := true;
     attempts := attempts m; onReady := onReady m; loops := loops m;
     opened := match m_conn m with Some k => filter (λ k', k' ≠ k) (opened m) | None => opened m end;
     called := called m; rejected := rejected m; fresh_loop := fresh_loop m; fresh_conn := fresh_conn m |}.

Inductive manager_event : Type :=
| Get
| OnReconnect (cb : nat)
| ConnectFailed (id : nat)
| SocketEnd (k : nat)          (* of a connection that was not closed by [close] *)
| WakeUp (id : nat)
| ConnectDone (id : nat)
| CloseManager.

Section manager.
Context (opts : RabbitMqOptions).

(** [CloseManager] ends the socket of the connection, whose 'disconnect' is not emitted. *)
Definition manager_step (e : manager_event) (m : manager) : manager :=
  match e with
  | Get => get m
  | OnReconnect cb => set_onReady (onReady m ++ [cb]) m
  | ConnectFailed id =>
      match jm_get id (loops m) with Some (Connecting _) => failed opts id m | _ => m end
  | SocketEnd k => onDisconnect (set_opened (filter (λ k', k' ≠ k) (opened m)) m)
  | WakeUp id =>
      match jm_get id (loops m) with Some (Sleeping _) => attempt id m | _ => m end
  | ConnectDone id =>
      match jm_get id (loops m) with Some (Connecting k) => established id k m | _ => m end
  | CloseManager => set_closed m
  end.
Definition manager_run (es : list manager_event) (m : manager) : manager :=
  foldl (λ m e, manager_step e m) m es.
End manager.

(** ** Publisher and consumer: their calls on a connection *)

Section calls.
Context (exchange : bytes).

Inductive conn_call : Type :=
| CDeclareExchange (name : bytes) (type : bytes)
| CEnableConfirms
| CDeclareQueue (queue : bytes) (deadLetterExchange : option bytes)
| CBindQueue (queue exchange routingKey : bytes)
| CSetQos (n : Z)
| CConsume (queue : bytes)
| CPublish (exchange routingKey body : bytes) (persistent : bool) (content_type : bytes)
| CAck (tag : Z) | CNack (tag : Z) (requeue : bool).

(** [RabbitMqPublisher.publish]: its calls on the connection, and [exchangeReady] after it. *)
Definition publisher_publish (exchangeReady : bool) (routingKey body : bytes) : list conn_call * bool :=
  ((if exchangeReady then [] else [CDeclareExchange exchange (str "topic"); CEnableConfirms]) ++
   [CPublish exchange routingKey body true (str "application/json")], true).

Record ConsumerOptions : Type := {
  queue : bytes; routingKeys : list bytes; deadLetterExchange : option bytes; prefetch : Z;
}.
(** [start] of [RabbitMqConsumer.consume]. *)
Definition consumer_start (o : ConsumerOptions) : list conn_call :=
  CDeclareExchange exchange (str "topic") ::
  (match deadLetterExchange o with Some d => [CDeclareExchange d (str "fanout")] | None => [] end) ++
  CDeclareQueue (queue o) (deadLetterExchange o) ::
  ((λ rk, CBindQueue (queue o) exchange rk) <$> routingKeys o) ++
  [CSetQos (prefetch o); CConsume (queue o)].

(** The callback of a delivery, by whether the handler succeeds. *)
Definition on_delivery (handled : bool) (tag : Z) : conn_call :=
  if handled then CAck tag else CNack tag false.

(** [RabbitMqTransport.subscribe]: the consumer of a topic, with the process id. *)
Definition subscription (topic : bytes) (pid : Z) : ConsumerOptions :=
  {| queue := str "street." ++ topic ++ str "." ++ show pid; routingKeys := [topic];
     deadLetterExchange := Some (exchange ++ str ".dlx"); prefetch := 50 |}.
End calls.

(** ** Callbacks *)

Definition registered (es : list manager_event) : list nat :=
  omap (λ e, match e with OnReconnect cb => Some cb | _ => None end) es.

Lemma get_callbacks m : called (get m) = called m ∧ onReady (get m) = onReady m.
Proof.
  unfold get. destruct (connected_now m); [done|]. destruct (connectPromise m); [done|].
  unfold attempt. cbn. by destruct (m_closed m).
Qed.

Lemma step_callbacks opts e m :
  (called (manager_step opts e m)).*1 ++ onReady (manager_step opts e m) =
  (called m).*1 ++ onReady m ++ registered [e].
Proof.
  assert (∀ l : list nat, l ++ [] = l) as Hnil by apply app_nil_r.
  destruct e; cbn [manager_step registered omap list_omap]; rewrite ?Hnil.
  - by destruct (get_callbacks m) as [-> ->].
  - done.
  - repeat case_match; done.
  - unfold onDisconnect. cbn [m_closed set_opened].
    destruct (m_closed m); [done|]. rewrite !(proj1 (get_callbacks _)), !(proj2 (get_callbacks _)). done.
  - repeat case_match; try done. unfold attempt. by destruct (m_closed m).
  - repeat case_match; try done. cbn [established called onReady]. rewrite fmap_app, Hnil.
    f_equal. rewrite <-list_fmap_compose. unfold compose. cbn [fst]. by rewrite list_fmap_id.
  - done.
Qed.

(** ** Properties *)

(** every callback that is registered is called once at most: at the first connection that
    is established after it.  A consumer that is to resume after reconnects registers once. *)
Theorem callbacks_called_once opts (es : list manager_event) :
  (called (manager_run opts es new_manager)).*1 ++ onReady (manager_run opts es new_manager) = registered es.
Proof.
  unfold manager_run. induction es as [|e es IH] using rev_ind; [done|].
  rewrite foldl_app. cbn [foldl]. rewrite step_callbacks, (assoc_L (++)), IH.
  unfold registered. by rewrite omap_app.
Qed.

(** [n] failures, each of the connection that the previous one started. *)
Fixpoint failures (n : nat) (first : nat) : list manager_event :=
  match n with
  | O => []
  | S n => ConnectFailed first :: SocketEnd first :: failures n (S first)
  end.

Definition asleep (opts : RabbitMqOptions) (l : loop) : Prop :=
  ∃ d, l = Sleeping d ∧ d <= reconnectMaxMs opts.

(** The loops of a manager that fails: all but the last sleep. *)
Definition failing (opts : RabbitMqOptions) (n : nat) (m : manager) : Prop :=
  m_conn m = None ∧ m_closed m = false ∧ opened m = [] ∧
  fresh_loop m = S n ∧ fresh_conn m = S n ∧
  ∃ sleepers, loops m = sleepers ++ [(n, Connecting n)] ∧ length sleepers = n ∧
    Forall (λ e, (e.1 < n)%nat ∧ asleep opts e.2) sleepers.

Lemma keys_below {V} n (P : V → Prop) (m : list (nat * V)) :
  Forall (λ e, (e.1 < n)%nat ∧ P e.2) m → n ∉ jm_keys m.
Proof.
  intros Hm (e & E & Hin)%list_elem_of_fmap. rewrite Forall_forall in Hm.
  destruct (Hm _ Hin) as [Hlt _]. lia.
Qed.

Lemma failing_step opts n m :
  failing opts n m → failing opts (S n) (manager_run opts [ConnectFailed n; SocketEnd n] m).
Proof.
  intros (Hc & Hcl & Ho & Hl & Hk & sleepers & Hs & Hn & Hall).
  pose proof (keys_below n (asleep opts) sleepers Hall) as Hnk.
  unfold manager_run. cbn [foldl manager_step]. rewrite Hs, jm_get_middle by done.
  unfold failed. set (d := Z.min _ _). rewrite Hs, jm_set_middle by done.
  unfold onDisconnect, get, connected_now, attempt.
  cbn [set_opened m_conn m_closed connectPromise attempts onReady loops opened called rejected fresh_loop fresh_conn].
  rewrite Hcl, Hl, Hk, Ho. cbn [connectPromise fresh_loop m_closed fresh_conn loops].
  split; [done|]. split; [done|]. split; [done|]. split; [done|]. split; [done|].
  assert (Forall (λ e, (e.1 < S n)%nat ∧ asleep opts e.2) (sleepers ++ [(n, Sleeping d)])) as Hall'.
  { apply Forall_app. split.
    - eapply Forall_impl; [exact Hall|]. intros e [? ?]. split; [lia|done].
    - repeat constructor. exists d. split; [done|apply Z.le_min_r]. }
  exists (sleepers ++ [(n, Sleeping d)]). cbn [loops]. split_and!.
  - rewrite jm_set_None; [done|]. by apply jm_get_None, (keys_below _ (asleep opts)).
  - rewrite length_app, Hn. cbn. lia.
  - done.
Qed.

Lemma failures_snoc n : ∀ k, failures (S n) k = failures n k ++ [ConnectFailed (k + n); SocketEnd (k + n)].
Proof.
  induction n as [|n IH]; intros k; [by cbn; rewrite Nat.add_0_r|].
  change (failures (S (S n)) k) with (ConnectFailed k :: SocketEnd k :: failures (S n) (S k)).
  rewrite IH. cbn [failures app]. by rewrite Nat.add_succ_r.
Qed.

(** While the broker cannot be reached, every failed attempt leaves its loop asleep and
    starts another one, which connects at once: after [n] failures in a row there are [n]
    loops that will each connect again, and one that is connecting without having waited. *)
Theorem failures_multiply_loops opts (n : nat) :
  let m := manager_run opts (Get :: failures n 0) new_manager in
  m_conn m = None ∧ ∃ sleepers, loops m = sleepers ++ [(n, Connecting n)] ∧ length sleepers = n ∧
    Forall (λ e, asleep opts e.2) sleepers.
Proof.
  cbv zeta. assert (failing opts n (manager_run opts (Get :: failures n 0) new_manager)) as Hf.
  { induction n as [|n IH].
    - repeat split. exists []. repeat split. constructor.
    - rewrite failures_snoc. change (Get :: failures n 0 ++ ?l) with ((Get :: failures n 0) ++ l).
      unfold manager_run. rewrite foldl_app. by apply failing_step. }
  destruct Hf as (Hc & _ & _ & _ & _ & sleepers & Hl & Hn & Hall). split; [done|].
  exists sleepers. split; [done|]. split; [done|]. eapply Forall_impl; [exact Hall|]. by intros e [].
Qed.

(** A loop that is left over wakes up and connects although there is a connection: the new
    one takes its place, and the old one stays open. *)
Theorem late_loop_replaces_connection opts id d k m
    (Hid : jm_get id (loops m) = Some (Sleeping d)) (Hcl : m_closed m = false)
    (Hk : k ∈ opened m) (Hlt : (k < fresh_conn m)%nat) :
  let m' := manager_run opts [WakeUp id; ConnectDone id] m in
  m_conn m' = Some (fresh_conn m) ∧ fresh_conn m ≠ k ∧ k ∈ opened m'.
Proof.
  cbv zeta. unfold manager_run. cbn [foldl manager_step]. rewrite Hid. unfold attempt. rewrite Hcl.
  cbn [loops]. rewrite jm_get_set_eq. cbn [established m_conn opened]. split; [done|]. split; [lia|].
  set_solver.
Qed.

(** A publisher that has published before asks for confirms on no later connection: on a
    new one its publish waits for nothing. *)
Theorem republish_is_unconfirmed exchange routingKey body c
    (Hnew : confirmEnabled c = false) (Hs : socket c = true)
    (He : (length exchange <= 255)%nat) (Hr : (length routingKey <= 255)%nat) (Hb : len body < 2 ^ 32) :
  (publisher_publish exchange true routingKey body).1 =
    [CPublish exchange routingKey body true (str "application/json")] ∧
  returned (publish exchange routingKey body true (str "application/json") c) = Ok None.
Proof.
  split; [done|].
  destruct (publish_begins exchange routingKey body true (str "application/json") c Hs He Hr)
    as (args & b & tag & c' & _ & _ & Et & Hs' & E).
  destruct (header_built (len body) true (str "application/json")) as (f2 & encoded & H2 & _ & _);
    [unfold len in *; lia|cbn; lia|].
  destruct (buildFrame_ok FRAME_BODY CH body) as [f3 H3]; [done..|].
  rewrite E, H2, throwing_ok_bind, send_bind by done. cbn [returned].
  assert (tag = None ∧ c' = c) as [-> ->].
  { unfold take_tag in Et. rewrite (bind_quiet AmqpConnection.get _ c c c), Hnew in Et by done.
    by apply (f_equal (λ o, (returned o, after o))) in Et as [= -> ->]. }
  destruct (0 <? len body); [|done].
  assert (buildBodyFrame CH body = Ok f3) as -> by exact H3.
  rewrite (bind_ok _ _ c tt c [Write f3]); [done|]. rewrite throwing_ok_bind.
  unfold send. rewrite (bind_quiet AmqpConnection.get _ c c c) by done. by rewrite Hs'.
Qed.

(** The consumer of a topic registers for one reconnect: it resumes on the second
    connection, and on the third nobody consumes. *)
Example consumer_resumes_once :
  let opts := {| reconnectBaseMs := 500; reconnectMaxMs := 30000 |} in
  let m := manager_run opts
    [Get; ConnectDone 0; OnReconnect 9; SocketEnd 0; ConnectDone 1; SocketEnd 1; ConnectDone 2] new_manager in
  m_conn m = Some 2%nat ∧ called m = [(9%nat, 1%nat)] ∧ onReady m = [].
Proof. vm_compute. done. Qed.
