(* ===== verification/MysqlWire.v ===== *)
(** * The MySQL wire protocol: packets

    Models the codecs of src/packages/core/src/database/mysql/wire.ts: length-encoded
    integers, packets, the greeting and its response, column definitions, OK and error
    packets, text and binary rows, and the packet that executes a statement; and the
    scrambles of auth-scramble.ts.

    Buffers are lists of bytes and texts are given by their UTF-8 bytes; [utf8] is
    [toString('utf8')].  The hashes are arguments, and so is [show_float], the text of the
    IEEE number that some bytes encode.  A read outside the buffer throws, but [body[i]]
    is [undefined] there ([octet]). *)

From Stdlib Require Import Ascii String.
From S2P Require Import Prelude JsText JsMap JsInt Bytes.

Open Scope Z_scope.
#[local] Open Scope list_scope.

#[local] Abbreviation bytes := (list ascii) (only parsing).
#[local] Abbreviation res := (result range_error).

Definition CLIENT_PROTOCOL_41 : Z := 512.
Definition CLIENT_SECURE_CONNECTION : Z := 32768.
Definition CLIENT_PLUGIN_AUTH : Z := 524288.
Definition CLIENT_PLUGIN_AUTH_LENENC_DATA : Z := 2097152.
Definition CLIENT_CONNECT_WITH_DB : Z := 8.
Definition CLIENT_LONG_FLAG : Z := 4.
Definition COM_QUIT : Z := 1.
Definition COM_QUERY : Z := 3.
Definition COM_STMT_PREPARE : Z := 22.
Definition COM_STMT_EXECUTE : Z := 23.
Definition COM_STMT_CLOSE : Z := 25.
Definition FIELD_TYPE_NULL : Z := 6.
Definition FIELD_TYPE_VARCHAR : Z := 15.
Definition PLUGIN_NATIVE : bytes := list_ascii_of_string "mysql_native_password".
Definition PLUGIN_SHA2 : bytes := list_ascii_of_string "caching_sha2_password".

(** ** Length-encoded integers *)

(** Eight bytes are read by their lower four. *)
Definition readLenEncInt : reader Z :=
  first ← read_uint 1;
  if first <? 251 then mret first
  else if first =? 252 then read_le 2
  else if first =? 253 then read_le 3
  else v ← read_le 4; _ ← skip 4; mret v.

Definition writeLenEncInt (v : Z) : res bytes :=
  if v <? 251 then Ok [byte v]
  else if v <=? 65535 then b ← write_le 2 v; Ok (byte 252 :: b)
  else b ← write_le 3 v; Ok (byte 253 :: b).

(** ** Packets *)

Definition wrapPacket (body : bytes) (seq : Z) : res bytes :=
  l ← write_le 3 (len body); Ok (l ++ [byte (Z.land seq 255)] ++ body).

(** One turn of [_processBuffer]: the sequence id and the body. *)
Definition next_packet (b : bytes) : option (Z * bytes * bytes) :=
  if len b <? 4 then None
  else
    let bodyLen := le_combine (take 3 b) in
    if len b <? 4 + bodyLen then None
    else Some (code (nth 3 b NUL), take (Z.to_nat bodyLen) (drop 4 b), drop (Z.to_nat (4 + bodyLen)) b).

(** ** Texts in a packet *)

(** [body.toString('utf8', s, e)], before decoding. *)
Definition text_between (b : bytes) (s e : Z) : bytes := take (Z.to_nat (e - s)) (drop (Z.to_nat s) b).
(** [body.indexOf(0, off)]. *)
Definition index_nul (b : bytes) (off : Z) : Z :=
  match indexOf NUL (drop (Z.to_nat off) b) with Some i => off + Z.of_nat i | None => -1 end.
(** [body[off]]. *)
Definition octet : reader (option Z) := λ buf off, Ok (code <$> buf !! Z.to_nat off, off + 1).
Definition here : reader Z := λ buf off, Ok (off, off).
Definition size : reader Z := λ buf off, Ok (len buf, off).

Section texts.
Context (utf8 : bytes → bytes).

Definition nul_text : reader bytes := λ buf off,
  let e := index_nul buf off in Ok (utf8 (text_between buf off e), e + 1).
(** The text up to a NUL, or to the end. *)
Definition name_from (buf : bytes) (off : Z) : bytes :=
  let e := index_nul buf off in
  utf8 (if e =? -1 then text_between buf off (len buf) else text_between buf off e).
Definition lenenc_text : reader bytes := n ← readLenEncInt; b ← r_slice n; mret (utf8 b).
Definition skip_lenenc : reader unit := n ← readLenEncInt; skip n.

(** ** The greeting *)

Record ServerGreeting : Type := {
  protocolVersion : option Z; serverVersion : bytes; connectionId : Z; authPluginData : bytes;
  capabilityFlags : Z; charset : option Z; statusFlags_ : Z; authPluginName : bytes;
}.

Definition seed_of (adl : Z) (part1 part2 : bytes) : bytes :=
  take (Z.to_nat (Z.max 0 (adl - 1))) (part1 ++ part2).

(** With no length of the seed everything after it is [NaN], and empty. *)
Definition greeting_tail (part1 : bytes) (adl : option Z) : reader (bytes * bytes) := λ buf off,
  match adl with
  | None => Ok (([], []), off)
  | Some d =>
      let n := Z.max 13 (d - 8) in
      let part2 := subarray buf (off + 10) (off + 10 + n) in
      let off := off + 10 + n in
      Ok ((seed_of d part1 part2, if off <? len buf then name_from buf off else []), off)
  end.

Definition read_greeting : reader ServerGreeting :=
  pv ← octet; version ← nul_text; id ← read_le 4; part1 ← r_slice 8; _ ← skip 1;
  capLow ← read_le 2; cs ← octet; status ← read_le 2; capHigh ← read_le 2;
  adl ← octet; r ← greeting_tail part1 adl;
  mret {| protocolVersion := pv; serverVersion := version; connectionId := id;
          authPluginData := r.1; capabilityFlags := Z.lor capLow (to_int32 (Z.shiftl capHigh 16));
          charset := cs; statusFlags_ := status; authPluginName := r.2 |}.
Definition parseServerGreeting (body : bytes) : res ServerGreeting := fst <$> read_greeting body 0.

Definition buildHandshakeResponse (user database authResponse pluginName : bytes) (charset : Z) : res bytes :=
  let capabilities := Z.lor CLIENT_PROTOCOL_41 (Z.lor CLIENT_SECURE_CONNECTION (Z.lor CLIENT_PLUGIN_AUTH
    (Z.lor CLIENT_PLUGIN_AUTH_LENENC_DATA (Z.lor CLIENT_CONNECT_WITH_DB CLIENT_LONG_FLAG)))) in
  cap ← write_le 4 capabilities;
  maxPkt ← write_le 4 1073741824;
  authLen ← writeLenEncInt (len authResponse);
  wrapPacket (cap ++ maxPkt ++ [byte charset] ++ replicate 23 NUL ++ (user ++ [NUL]) ++ authLen ++
    authResponse ++ (database ++ [NUL]) ++ (pluginName ++ [NUL])) 1.

(** ** Columns, OK and errors *)

Record ColumnDef : Type := { c_name : bytes; fieldType : Z }.

Definition read_column : reader ColumnDef :=
  _ ← skip_lenenc; _ ← skip_lenenc; _ ← skip_lenenc; _ ← skip_lenenc;
  n ← lenenc_text; _ ← skip_lenenc; _ ← skip (1 + 2 + 4);
  t ← octet; mret {| c_name := n; fieldType := default 0 t |}.
Definition parseColumnDef (body : bytes) : res ColumnDef := fst <$> read_column body 0.

Record OkPacket : Type := { affectedRows : Z; lastInsertId : Z; statusFlags : Z }.
Definition read_ok : reader OkPacket :=
  ar ← readLenEncInt; li ← readLenEncInt; off ← here; n ← size;
  s ← (if off + 2 <=? n then read_le 2 else mret 0);
  mret {| affectedRows := ar; lastInsertId := li; statusFlags := s |}.
Definition parseOkPacket (body : bytes) : res OkPacket := fst <$> read_ok body 1.

(** The code and the message; a NUL at the end is dropped. *)
Definition drop_last_nul (b : bytes) : bytes :=
  match rev b with c :: r => if decide (c = NUL) then rev r else b | [] => b end.
Definition parseErrPacket (body : bytes) : res (Z * bytes) :=
  r ← read_le 2 body 1;
  let msgStart : nat := if bool_decide (code <$> body !! 3%nat = Some 35) then 9%nat else 3%nat in
  Ok (r.1, drop_last_nul (utf8 (drop msgStart body))).

(** ** Rows *)

#[local] Abbreviation row := (list (bytes * option bytes)) (only parsing).

Fixpoint text_row (cols : list ColumnDef) (r : row) : reader row :=
  match cols with
  | [] => mret r
  | c :: cols => λ buf off,
      if len buf <=? off then Ok (r, off)
      else if bool_decide (code <$> buf !! Z.to_nat off = Some 251) then
        text_row cols (jm_set (c_name c) None r) buf (off + 1)
      else (v ← lenenc_text; text_row cols (jm_set (c_name c) (Some v) r)) buf off
  end.
Definition parseTextRow (cols : list ColumnDef) (body : bytes) : res row := fst <$> text_row cols [] body 0.

Definition show_int (z : Z) : bytes := if z <? 0 then byte 45 :: show (- z) else show z.

Definition read_int_le (n : nat) : reader bytes := z ← read_le n; mret (show_int (signed n z)).

Context (show_float : bytes → bytes).
Definition read_float (n : nat) : reader bytes := λ buf off,
  if off + Z.of_nat n <=? len buf then Ok (show_float (subarray buf off (off + Z.of_nat n)), off + Z.of_nat n)
  else Throw RangeError.

(** The value of a column that is not null. *)
Definition binary_value (t : Z) : reader (option bytes) :=
  if t =? FIELD_TYPE_NULL then mret None
  else
    v ← (if t =? 1 then read_int_le 1
         else if (t =? 2) || (t =? 13) then read_int_le 2
         else if (t =? 3) || (t =? 9) then read_int_le 4
         else if t =? 8 then read_int_le 8
         else if t =? 4 then read_float 4
         else if t =? 5 then read_float 8
         else lenenc_text);
    mret (Some v).

(** Bit [i + 2] of the bitmap; past its end nothing is null. *)
Definition null_bit (bitmap : bytes) (i : nat) : bool :=
  match bitmap !! ((i + 2) / 8)%nat with
  | Some c => Z.testbit (code c) (Z.of_nat ((i + 2) mod 8)%nat)
  | None => false
  end.

Fixpoint binary_columns (bitmap : bytes) (i : nat) (cols : list ColumnDef) (r : row) : reader row :=
  match cols with
  | [] => mret r
  | c :: cols => λ buf off,
      if null_bit bitmap i || (len buf <=? off) then
        binary_columns bitmap (S i) cols (jm_set (c_name c) None r) buf off
      else (v ← binary_value (fieldType c); binary_columns bitmap (S i) cols (jm_set (c_name c) v r)) buf off
  end.
Definition bitmap_length (n : nat) : Z := Z.of_nat ((n + 7) / 8)%nat.
Definition binary_row (cols : list ColumnDef) : reader row :=
  bitmap ← r_slice (bitmap_length (length cols + 2)); binary_columns bitmap 0 cols [].
Definition parseBinaryRow (cols : list ColumnDef) (body : bytes) : res row := fst <$> binary_row cols body 1.
End texts.

(** ** Executing a statement *)

(** A parameter: [null] or [undefined]; a number that is an integer; another number, by its
    eight bytes; a boolean; anything else by the text of [String]. *)
Inductive param : Type := PNull | PInt (z : Z) | PDouble (eight : bytes) | PBool (b : bool) | PText (s : bytes).

Definition param_text (p : param) : bytes :=
  match p with PBool b => [if b then byte 49 else byte 48] | PText s => s | _ => [] end.
Definition param_type (p : param) : Z :=
  match p with PNull => FIELD_TYPE_NULL | PInt _ => 3 | PDouble _ => 5 | PBool _ | PText _ => FIELD_TYPE_VARCHAR end.
Definition param_value (p : param) : res bytes :=
  match p with
  | PNull => Ok []
  | PInt z => write_int_le 4 z
  | PDouble b => Ok b
  | PBool _ | PText _ => l ← writeLenEncInt (len (param_text p)); Ok (l ++ param_text p)
  end.
Definition is_null (p : param) : bool := match p with PNull => true | _ => false end.

(** [nullBitmap[i / 8] |= 1 << (i % 8)] for the nulls, from the [i]-th one on. *)
Fixpoint mark_nulls (i : nat) (nulls : list bool) (bitmap : list Z) : list Z :=
  match nulls with
  | [] => bitmap
  | b :: nulls =>
      mark_nulls (S i) nulls
        (if b then alter (λ o, Z.lor o (Z.shiftl 1 (Z.of_nat (i mod 8)))) (i / 8)%nat bitmap else bitmap)
  end.
Definition null_bitmap (params : list param) : bytes :=
  byte <$> mark_nulls 0 (is_null <$> params) (replicate (Z.to_nat (bitmap_length (length params))) 0).

Fixpoint param_values (params : list param) : res bytes :=
  match params with
  | [] => Ok []
  | p :: params => v ← param_value p; rest ← param_values params; Ok (v ++ rest)
  end.
Definition buildStmtExecutePacket (stmtId : Z) (params : list param) : res bytes :=
  vals ← param_values params;
  id ← write_le 4 stmtId;
  Ok (byte COM_STMT_EXECUTE :: id ++ [NUL] ++ le_split 4 1 ++ null_bitmap params ++ [byte 1] ++
      mjoin ((λ p, [byte (param_type p); NUL]) <$> params) ++ vals).

(** ** Scrambles *)

Section scrambles.
Context (sha1 sha256 : bytes → bytes).
Definition xor_bytes (n : nat) (a b : bytes) : bytes :=
  (λ i, byte (Z.lxor (code (nth i a NUL)) (code (nth i b NUL)))) <$> seq 0 n.
Definition nativePasswordHash (password seed : bytes) : bytes :=
  let hash1 := sha1 password in
  let hash2 := sha1 hash1 in
  let hash3 := sha1 (seed ++ hash2) in
  xor_bytes 20 hash1 hash3.
Definition sha2PasswordHash (password seed : bytes) : bytes :=
  match password with
  | [] => []
  | _ =>
      let a := sha256 password in
      let b := sha256 a in
      let c := sha256 (b ++ seed) in
      xor_bytes 32 a c
  end.
End scrambles.

(** ** Length-encoded integers and texts are read back *)

Lemma read_uint1 z : 0 <= z < 256 → reads (read_uint 1) z [byte z].
Proof. intros Hz. by apply (reads_uint 1). Qed.

Lemma reads_lenenc v w : 0 <= v → writeLenEncInt v = Ok w → reads readLenEncInt v w.
Proof.
  unfold writeLenEncInt, readLenEncInt. intros Hv.
  destruct (Z.ltb_spec v 251); [|destruct (Z.leb_spec v 65535)].
  - intros <-%Ok_inj. rewrite <-(app_nil_r [byte v]). apply (reads_bind _ _ v); [apply read_uint1; lia|].
    destruct (Z.ltb_spec v 251); [apply reads_ret|lia].
  - intros (b & [_ ->]%write_le_ok & <-%Ok_inj)%result_bind_ok.
    apply (reads_bind _ _ 252 _ [byte 252]); [by apply read_uint1|]. cbn -[read_le]. apply reads_le. lia.
  - intros (b & [Hb ->]%write_le_ok & <-%Ok_inj)%result_bind_ok.
    apply (reads_bind _ _ 253 _ [byte 253]); [by apply read_uint1|]. cbn -[read_le]. by apply reads_le.
Qed.

(** A text as a server writes it. *)
Definition w_lenenc (s : bytes) : res bytes := l ← writeLenEncInt (len s); Ok (l ++ s).

Lemma writeLenEncInt_head v w : 0 <= v → writeLenEncInt v = Ok w →
  ∃ b w', w = byte b :: w' ∧ 0 <= b < 254 ∧ b ≠ 251 ∧ (b = 0 ↔ v = 0).
Proof.
  unfold writeLenEncInt. intros Hv. destruct (Z.ltb_spec v 251); [|destruct (Z.leb_spec v 65535)].
  - intros <-%Ok_inj. exists v, []. split; [done|lia].
  - intros (b & _ & <-%Ok_inj)%result_bind_ok. exists 252, b. split; [done|lia].
  - intros (b & _ & <-%Ok_inj)%result_bind_ok. exists 253, b. split; [done|lia].
Qed.

Lemma reads_lenenc_text utf8 s w : utf8 s = s → w_lenenc s = Ok w → reads (lenenc_text utf8) s w.
Proof.
  intros Hu. unfold w_lenenc. intros (l & Hl & <-%Ok_inj)%result_bind_ok.
  apply (reads_bind _ _ (len s)); [by apply reads_lenenc; [apply len_nonneg|]|].
  rewrite <-Hu at 2. apply (reads_map (r_slice _) utf8), reads_slice.
Qed.

Lemma reads_skip_lenenc s w : w_lenenc s = Ok w → reads skip_lenenc tt w.
Proof.
  unfold w_lenenc. intros (l & Hl & <-%Ok_inj)%result_bind_ok.
  apply (reads_bind _ _ (len s)); [by apply reads_lenenc; [apply len_nonneg|]|apply reads_skip].
Qed.

(** ** Packets *)

Lemma wrapPacket_wire body seq w :
  wrapPacket body seq = Ok w → frame_wire next_packet (Z.land seq 255, body) w.
Proof.
  unfold wrapPacket. intros (l & [Hl ->]%write_le_ok & <-%Ok_inj)%result_bind_ok rest.
  unfold next_packet. rewrite <-!(assoc_L (++)). set (tail := [_] ++ body ++ rest).
  assert (length (le_split 3 (len body)) = 3%nat) as H3 by apply le_split_length.
  assert (0 <= Z.land seq 255 < 256) as Hs by (change 255 with (Z.ones 8); rewrite Z.land_ones by lia; apply Z.mod_pos_bound; lia).
  rewrite take_app_length' by done. rewrite le_combine_split by done.
  assert (len (le_split 3 (len body) ++ tail) = 4 + len body + len rest) as ->.
  { unfold tail. rewrite !len_app, len_le_split. change (len [_]) with 1. lia. }
  pose proof (len_nonneg body). pose proof (len_nonneg rest).
  destruct (Z.ltb_spec (4 + len body + len rest) 4); [lia|].
  destruct (Z.ltb_spec (4 + len body + len rest) (4 + len body)); [lia|].
  do 2 f_equal; [f_equal|].
  - rewrite app_nth2 by lia. rewrite H3. unfold tail. cbn [Nat.sub nth app]. rewrite code_byte. by apply Z.mod_small.
  - replace 4%nat with (length (le_split 3 (len body)) + 1)%nat by lia.
    rewrite drop_app_add. unfold tail. rewrite drop_app_length' by done. unfold len. by rewrite Nat2Z.id, take_app_length.
  - replace (Z.to_nat (4 + len body)) with (length (le_split 3 (len body)) + (1 + length body))%nat by (unfold len in *; lia).
    rewrite drop_app_add. unfold tail. rewrite drop_app_add', drop_app_length; done.
Qed.

#[export] Instance packets_framing : Framing next_packet.
Proof.
  split.
  - intros b [seq body] rest. unfold next_packet. destruct (Z.ltb_spec (len b) 4); [done|].
    destruct (Z.ltb_spec (len b) (4 + le_combine (take 3 b))) as [|Hl]; [done|]. intros [= _ _ <-].
    pose proof (be_combine_range (rev (take 3 b))). unfold le_combine, len in *. rewrite length_drop. lia.
  - intros b x [seq body] rest. unfold next_packet. rewrite len_app. pose proof (len_nonneg x).
    destruct (Z.ltb_spec (len b) 4); [done|]. destruct (Z.ltb_spec (len b + len x) 4); [lia|].
    assert (3 < length b)%nat by (unfold len in *; lia).
    rewrite take_app_le by lia. pose proof (be_combine_range (rev (take 3 b))) as Hr. unfold le_combine in *.
    destruct (Z.ltb_spec (len b) (4 + be_combine (rev (take 3 b)))) as [|Hl]; [done|].
    destruct (Z.ltb_spec (len b + len x) (4 + be_combine (rev (take 3 b)))); [lia|]. intros [= <- <- <-].
    rewrite app_nth1 by done. rewrite !drop_app_le by (unfold len in *; lia).
    rewrite take_app_le; [done|]. rewrite length_drop. unfold len in *. lia.
Qed.

(** ** Null bitmaps *)

Definition bit_at (bitmap : list Z) (k : nat) : bool :=
  match bitmap !! (k / 8)%nat with Some b => Z.testbit b (Z.of_nat (k mod 8)) | None => false end.

Lemma bit_at_mark (i k : nat) bitmap : (i / 8 < length bitmap)%nat →
  bit_at (alter (λ o, Z.lor o (Z.shiftl 1 (Z.of_nat (i mod 8)))) (i / 8)%nat bitmap) k =
  bit_at bitmap k || (k =? i)%nat.
Proof.
  intros Hi. unfold bit_at. destruct (decide (i / 8 = k / 8)%nat) as [E|Hne].
  - rewrite E, list_lookup_alter. rewrite E in Hi. apply lookup_lt_is_Some_2 in Hi as [b ->].
    cbn [fmap option_fmap option_map]. rewrite decide_True by done. rewrite Z.lor_spec. f_equal. rewrite Z.shiftl_1_l, Z.pow2_bits_eqb by lia.
    destruct (Nat.eqb_spec k i) as [->|Hne]; [apply Z.eqb_refl|]. apply Z.eqb_neq.
    pose proof (Nat.div_mod_eq i 8). pose proof (Nat.div_mod_eq k 8). lia.
  - rewrite list_lookup_alter, decide_False by done. destruct (Nat.eqb_spec k i) as [->|]; [done|]. by rewrite orb_false_r.
Qed.

Lemma mark_nulls_length nulls : ∀ i bitmap, length (mark_nulls i nulls bitmap) = length bitmap.
Proof. induction nulls as [|[] nulls IH]; intros i bitmap; cbn [mark_nulls]; [done|..]; by rewrite IH, ?length_alter. Qed.

Lemma bit_at_nulls nulls : ∀ i bitmap k,
  (i + length nulls <= 8 * length bitmap)%nat →
  bit_at (mark_nulls i nulls bitmap) k =
  bit_at bitmap k || ((i <=? k)%nat && default false (nulls !! (k - i)%nat)).
Proof.
  induction nulls as [|b nulls IH]; intros i bitmap k Hl; cbn [mark_nulls].
  { rewrite lookup_nil. cbn. by rewrite andb_false_r, orb_false_r. }
  cbn [length] in Hl.
  assert (i / 8 < length bitmap)%nat as Hi by (apply Nat.Div0.div_lt_upper_bound; lia).
  rewrite IH by (destruct b; rewrite ?length_alter; lia).
  assert (bit_at (if b then alter (λ o, Z.lor o (Z.shiftl 1 (Z.of_nat (i mod 8)))) (i / 8)%nat bitmap else bitmap) k =
    bit_at bitmap k || ((k =? i)%nat && b)) as ->.
  { destruct b; [rewrite andb_true_r; by apply bit_at_mark|by rewrite andb_false_r, orb_false_r]. }
  rewrite <-orb_assoc. f_equal. destruct (Nat.eqb_spec k i) as [->|Hne].
  - rewrite Nat.sub_diag. destruct (Nat.leb_spec (S i) i), (Nat.leb_spec i i); try lia.
    cbn. by rewrite orb_false_r.
  - cbn [andb orb]. destruct (Nat.leb_spec (S i) k), (Nat.leb_spec i k); try lia.
    replace (k - i)%nat with (S (k - S i)) by lia. done.
Qed.

Lemma bit_at_zeros n k : bit_at (replicate n 0) k = false.
Proof.
  unfold bit_at. destruct (replicate n 0 !! (k / 8)%nat) as [b|] eqn:E; [|done].
  apply lookup_replicate in E as [-> _]. apply Z.bits_0.
Qed.

(** Bit [k] of a bitmap as bytes. *)
Definition byte_bit (bitmap : bytes) (k : nat) : bool :=
  match bitmap !! (k / 8)%nat with Some c => Z.testbit (code c) (Z.of_nat (k mod 8)%nat) | None => false end.

Lemma byte_bit_bytes bitmap k : byte_bit (byte <$> bitmap) k = bit_at bitmap k.
Proof.
  unfold byte_bit, bit_at. rewrite list_lookup_fmap. destruct (bitmap !! (k / 8)%nat) as [b|]; [|done]. cbn.
  rewrite code_byte. change 256 with (2 ^ 8). apply Z.mod_pow2_bits_low.
  pose proof (Nat.mod_upper_bound k 8). lia.
Qed.

(** The bitmap of some nulls, with [first] free bits before them. *)
Definition bitmap_of (first : nat) (nulls : list bool) : bytes :=
  byte <$> mark_nulls first nulls (replicate (Z.to_nat (bitmap_length (first + length nulls))) 0).

Lemma len_bitmap first nulls : len (bitmap_of first nulls) = bitmap_length (first + length nulls).
Proof.
  unfold bitmap_of, len. rewrite length_fmap, mark_nulls_length, length_replicate. unfold bitmap_length. lia.
Qed.

Lemma bitmap_bit first nulls k :
  byte_bit (bitmap_of first nulls) (first + k) = default false (nulls !! k).
Proof.
  unfold bitmap_of. rewrite byte_bit_bytes, bit_at_nulls.
  - rewrite bit_at_zeros. destruct (Nat.leb_spec first (first + k)); [|lia]. cbn [orb andb].
    by replace (first + k - first)%nat with k by lia.
  - rewrite length_replicate. unfold bitmap_length. rewrite Nat2Z.id.
    pose proof (Nat.div_mod_eq (first + length nulls + 7) 8). pose proof (Nat.mod_upper_bound (first + length nulls + 7) 8). lia.
Qed.

(** ** Integers of a row and of parameters *)

Lemma write_int_le_ok n z w : write_int_le n z = Ok w → w = le_split n (z mod 256 ^ Z.of_nat n) ∧
  - 2 ^ (8 * Z.of_nat n - 1) <= z < 2 ^ (8 * Z.of_nat n - 1).
Proof. unfold write_int_le. intros (b & [Hz ->]%write_int_ok & <-%Ok_inj)%result_bind_ok. done. Qed.

Lemma reads_signed_le n z w : (0 < n)%nat → write_int_le n z = Ok w →
  reads (v ← read_le n; mret (signed n v)) z w.
Proof.
  intros Hn [-> Hz]%write_int_le_ok. rewrite <-(signed_mod n z) at 1 by done.
  apply reads_map, reads_le, Z.mod_pos_bound. lia.
Qed.

Lemma reads_int_le n z w : (0 < n)%nat → write_int_le n z = Ok w → reads (read_int_le n) (show_int z) w.
Proof.
  intros Hn [-> Hz]%write_int_le_ok. unfold read_int_le. rewrite <-(signed_mod n z) at 1 by done.
  apply (reads_map (read_le n) (λ v, show_int (signed n v))), reads_le, Z.mod_pos_bound. lia.
Qed.

(** ** Columns as a server writes them *)

Record server_column : Type := {
  s_catalog : bytes; s_schema : bytes; s_table : bytes; s_orgTable : bytes; s_name : bytes; s_orgName : bytes;
  s_length : bytes;      (* the length of the rest, character set and column length, 7 bytes *)
  s_type : Z;
  s_rest : bytes;        (* flags, decimals, filler *)
}.
Definition w_column (c : server_column) : res bytes :=
  cat ← w_lenenc (s_catalog c); sch ← w_lenenc (s_schema c); tab ← w_lenenc (s_table c);
  org ← w_lenenc (s_orgTable c); name ← w_lenenc (s_name c); on ← w_lenenc (s_orgName c);
  Ok (cat ++ sch ++ tab ++ org ++ name ++ on ++ s_length c ++ byte (s_type c) :: s_rest c).
Definition column_ok (utf8 : bytes → bytes) (c : server_column) : Prop :=
  utf8 (s_name c) = s_name c ∧ length (s_length c) = 7%nat ∧ 0 <= s_type c < 256.
Definition described (c : server_column) : ColumnDef := {| c_name := s_name c; fieldType := s_type c |}.

Lemma reads_octet z : 0 <= z < 256 → reads octet (Some z) [byte z].
Proof.
  intros Hz pre post. unfold octet, len at 1. rewrite Nat2Z.id.
  rewrite (lookup_app_r pre) by lia. rewrite Nat.sub_diag. cbn. rewrite code_byte, Z.mod_small by done. done.
Qed.

(** What a reader reads it reads at the beginning, whatever comes next. *)
Lemma reads_start {A} (r : reader A) a w rest : reads r a w → fst <$> r (w ++ rest) 0 = Ok a.
Proof. intros H. pose proof (H [] rest) as E. change (len []) with 0 in E. cbn [app] in E. by rewrite E. Qed.

Lemma parseColumnDef_write utf8 c w : column_ok utf8 c → w_column c = Ok w → parseColumnDef utf8 w = Ok (described c).
Proof.
  intros (Hu & H7 & Ht). unfold w_column.
  intros (cat & H1 & H)%result_bind_ok. apply result_bind_ok in H as (sch & H2 & H).
  apply result_bind_ok in H as (tab & H3 & H). apply result_bind_ok in H as (org & H4 & H).
  apply result_bind_ok in H as (name & H5 & H). apply result_bind_ok in H as (on & H6 & <-%Ok_inj).
  unfold parseColumnDef.
  replace (cat ++ sch ++ tab ++ org ++ name ++ on ++ s_length c ++ byte (s_type c) :: s_rest c)
    with ((cat ++ sch ++ tab ++ org ++ name ++ on ++ s_length c ++ [byte (s_type c)] ++ []) ++ s_rest c)
    by (by rewrite <-!(assoc_L (++))).
  apply reads_start. unfold read_column.
  apply (reads_bind _ _ tt); [by apply (reads_skip_lenenc (s_catalog c))|].
  apply (reads_bind _ _ tt); [by apply (reads_skip_lenenc (s_schema c))|].
  apply (reads_bind _ _ tt); [by apply (reads_skip_lenenc (s_table c))|].
  apply (reads_bind _ _ tt); [by apply (reads_skip_lenenc (s_orgTable c))|].
  apply (reads_bind _ _ (s_name c)); [by apply reads_lenenc_text|].
  apply (reads_bind _ _ tt); [by apply (reads_skip_lenenc (s_orgName c))|].
  apply (reads_bind _ _ tt).
  { replace (1 + 2 + 4) with (len (s_length c)) by (unfold len; lia). apply reads_skip. }
  apply (reads_bind _ _ (Some (s_type c))); [by apply reads_octet|]. apply reads_ret.
Qed.

(** ** Rows as a server writes them *)

Definition w_cell (v : option bytes) : res bytes :=
  match v with None => Ok [byte 251] | Some s => w_lenenc s end.
Fixpoint w_text_row (vs : list (option bytes)) : res bytes :=
  match vs with [] => Ok [] | v :: vs => c ← w_cell v; r ← w_text_row vs; Ok (c ++ r) end.
Definition cell_ok (utf8 : bytes → bytes) (v : option bytes) : Prop :=
  match v with None => True | Some s => utf8 s = s end.

Lemma w_lenenc_head s w : w_lenenc s = Ok w →
  ∃ b w', w = byte b :: w' ∧ 0 <= b < 254 ∧ b ≠ 251 ∧ (b = 0 ↔ s = []).
Proof.
  unfold w_lenenc. intros (l & Hl & <-%Ok_inj)%result_bind_ok.
  apply writeLenEncInt_head in Hl as (b & w' & -> & Hb & Hne & Hz); [|apply len_nonneg].
  exists b, (w' ++ s). split; [done|]. split; [done|]. split; [done|]. rewrite Hz. unfold len.
  destruct s; cbn; split; intros; (done || lia).
Qed.

Lemma lookup_at pre (c : ascii) rest : (pre ++ c :: rest) !! Z.to_nat (len pre) = Some c.
Proof. unfold len. rewrite Nat2Z.id. by apply list_lookup_middle. Qed.

Section rows.
Context (utf8 : bytes → bytes).

Lemma text_row_write vs : Forall (cell_ok utf8) vs → ∀ cols w pre r,
  w_text_row vs = Ok w → length cols = length vs →
  NoDup (jm_keys r ++ (c_name <$> cols)) →
  text_row utf8 cols r (pre ++ w) (len pre) = Ok (r ++ zip (c_name <$> cols) vs, len pre + len w).
Proof.
  induction 1 as [|v vs Hv _ IH]; intros cols w pre r Hw Hl Hnd.
  - apply Ok_inj in Hw as <-. destruct cols; [|done]. cbn. by rewrite !app_nil_r, Z.add_0_r.
  - cbn [w_text_row] in Hw. apply result_bind_ok in Hw as (c & Hc & Hw). apply result_bind_ok in Hw as (w' & Hw & <-%Ok_inj).
    destruct cols as [|col cols]; [done|]. cbn [text_row]. injection Hl as Hl. cbn [fmap list_fmap zip_with] in *.
    assert (c_name col ∉ jm_keys r) as Hfresh.
    { apply NoDup_app in Hnd as (_ & Hd & _). intros Hin. by eapply Hd; [|left]. }
    assert (∀ x, NoDup (jm_keys (r ++ [(c_name col, x)]) ++ (c_name <$> cols))) as Hnd'.
    { intros x. unfold jm_keys in *. rewrite fmap_app. cbn. by rewrite <-(assoc_L (++)). }
    rewrite !len_app. pose proof (len_nonneg w'). pose proof (len_nonneg pre).
    assert (∀ x off, off = len (pre ++ c) →
      text_row utf8 cols (jm_set (c_name col) x r) (pre ++ c ++ w') off =
      Ok (r ++ (c_name col, x) :: zip (c_name <$> cols) vs, len pre + (len c + len w'))) as Hrest.
    { intros x off ->. rewrite (assoc_L (++) pre), jm_set_None by by apply jm_get_None.
      rewrite IH by done. rewrite <-(assoc_L (++)), len_app. do 2 f_equal. lia. }
    destruct v as [s|]; cbn [w_cell cell_ok] in *.
    + pose proof (w_lenenc_head _ _ Hc) as (b & c' & -> & Hb & Hne & _).
      assert (1 <= len (byte b :: c')) by (unfold len; cbn [length]; lia).
      destruct (Z.leb_spec (len pre + (len (byte b :: c') + len w')) (len pre)); [lia|].
      assert ((pre ++ (byte b :: c') ++ w') !! Z.to_nat (len pre) = Some (byte b)) as -> by exact (lookup_at pre _ (c' ++ w')).
      cbn [fmap option_fmap option_map]. rewrite code_byte, Z.mod_small by lia.
      rewrite bool_decide_eq_false_2 by congruence.
      pose proof (reads_lenenc_text utf8 s _ Hv Hc pre w') as E. unfold mbind, cursor_bind. rewrite E.
      apply Hrest. by rewrite len_app.
    + apply Ok_inj in Hc as <-. change (len [byte 251]) with 1 in *.
      destruct (Z.leb_spec (len pre + (1 + len w')) (len pre)); [lia|].
      assert ((pre ++ [byte 251] ++ w') !! Z.to_nat (len pre) = Some (byte 251)) as -> by exact (lookup_at pre _ w').
      rewrite bool_decide_eq_true_2 by done. apply Hrest. by rewrite len_app.
Qed.

Lemma parseTextRow_write cols vs w :
  Forall (cell_ok utf8) vs → w_text_row vs = Ok w → length cols = length vs → NoDup (c_name <$> cols) →
  parseTextRow utf8 cols w = Ok (zip (c_name <$> cols) vs).
Proof.
  intros Hv Hw Hl Hnd. unfold parseTextRow. pose proof (text_row_write vs Hv cols w [] [] Hw Hl Hnd) as E.
  cbn [app] in E. change (len []) with 0 in E. by rewrite E.
Qed.

(** *** Binary rows *)

Inductive dbval : Type := VInt (z : Z) | VText (s : bytes).
Definition show_val (v : dbval) : bytes := match v with VInt z => show_int z | VText s => s end.
Definition shown (v : option dbval) : option bytes := show_val <$> v.

(** The bytes of an integer of a column type. *)
Definition int_width (t : Z) : option nat :=
  if t =? 1 then Some 1%nat else if (t =? 2) || (t =? 13) then Some 2%nat
  else if (t =? 3) || (t =? 9) then Some 4%nat else if t =? 8 then Some 8%nat else None.

Definition w_value (t : Z) (v : dbval) : res bytes :=
  match v, int_width t with
  | VInt z, Some n => write_int_le n z
  | VText s, None => w_lenenc s
  | _, _ => Throw RangeError
  end.
Fixpoint w_cells (cols : list ColumnDef) (vs : list (option dbval)) : res bytes :=
  match cols, vs with
  | c :: cols, v :: vs =>
      b ← (match v with None => Ok [] | Some v => w_value (fieldType c) v end); r ← w_cells cols vs; Ok (b ++ r)
  | _, _ => Ok []
  end.
Definition is_none {A} (v : option A) : bool := match v with None => true | Some _ => false end.
Definition w_binary_row (cols : list ColumnDef) (vs : list (option dbval)) : res bytes :=
  cells ← w_cells cols vs; Ok (NUL :: bitmap_of 2 (is_none <$> vs) ++ cells).

(** A value that is not a float, nor of the type of nulls. *)
Definition typed (c : ColumnDef) (v : option dbval) : Prop :=
  match v with
  | Some (VText s) => utf8 s = s ∧ fieldType c ≠ FIELD_TYPE_NULL ∧ fieldType c ≠ 4 ∧ fieldType c ≠ 5
  | _ => True
  end.

Context (show_float : bytes → bytes).

Lemma reads_binary_value c v w :
  typed c (Some v) → w_value (fieldType c) v = Ok w →
  reads (binary_value utf8 show_float (fieldType c)) (Some (show_val v)) w ∧ w ≠ [].
Proof.
  intros Ht Hw. unfold w_value, int_width in Hw. unfold binary_value. unfold FIELD_TYPE_NULL in *.
  assert (∀ n z, (0 < n)%nat → write_int_le n z = Ok w →
    reads (x ← read_int_le n; mret (Some x)) (Some (show_int z)) w ∧ w ≠ []) as Hint.
  { intros n z Hn Hz. split; [apply (reads_map _ Some); by apply reads_int_le|].
    apply write_int_le_ok in Hz as [-> _]. intros E. apply (f_equal length) in E. rewrite le_split_length in E. cbn in E. lia. }
  destruct v as [z|s]; cbn [typed show_val] in *.
  - destruct (Z.eqb_spec (fieldType c) 1) as [E|_]; [rewrite E; by apply (Hint 1%nat); [lia|]|].
    destruct (Z.eqb_spec (fieldType c) 2) as [E|_]; cbn [orb] in *; [rewrite E; by apply (Hint 2%nat); [lia|]|].
    destruct (Z.eqb_spec (fieldType c) 13) as [E|_]; cbn [orb] in *; [rewrite E; by apply (Hint 2%nat); [lia|]|].
    destruct (Z.eqb_spec (fieldType c) 3) as [E|_]; cbn [orb] in *; [rewrite E; by apply (Hint 4%nat); [lia|]|].
    destruct (Z.eqb_spec (fieldType c) 9) as [E|_]; cbn [orb] in *; [rewrite E; by apply (Hint 4%nat); [lia|]|].
    destruct (Z.eqb_spec (fieldType c) 8) as [E|_]; [rewrite E; by apply (Hint 8%nat); [lia|]|done].
  - destruct Ht as (Hu & H6 & H4 & H5). unfold FIELD_TYPE_NULL in H6. apply Z.eqb_neq in H4, H5, H6. rewrite H6, H4, H5.
    destruct (fieldType c =? 1); [done|]. destruct ((fieldType c =? 2) || (fieldType c =? 13)); [done|].
    destruct ((fieldType c =? 3) || (fieldType c =? 9)); [done|]. destruct (fieldType c =? 8); [done|].
    split; [apply (reads_map _ Some); by apply reads_lenenc_text|]. apply w_lenenc_head in Hw as (b & w' & -> & _). done.
Qed.

Lemma binary_columns_write bitmap vs : ∀ cols i w pre r,
  w_cells cols vs = Ok w → Forall2 typed cols vs →
  (∀ k v, vs !! k = Some v → byte_bit bitmap (i + k + 2) = is_none v) →
  NoDup (jm_keys r ++ (c_name <$> cols)) →
  binary_columns utf8 show_float bitmap i cols r (pre ++ w) (len pre) =
  Ok (r ++ zip (c_name <$> cols) (shown <$> vs), len pre + len w).
Proof.
  induction vs as [|v vs IH]; intros cols i w pre r Hw Ht Hb Hnd.
  - apply Forall2_nil_inv_r in Ht as ->. apply Ok_inj in Hw as <-. cbn. by rewrite !app_nil_r, Z.add_0_r.
  - apply Forall2_cons_inv_r in Ht as (col & cols' & Hc & Ht & ->). cbn [w_cells] in Hw.
    apply result_bind_ok in Hw as (c & Hv & Hw). apply result_bind_ok in Hw as (w' & Hw & <-%Ok_inj).
    cbn [binary_columns fmap list_fmap zip_with] in *.
    assert (c_name col ∉ jm_keys r) as Hfresh.
    { apply NoDup_app in Hnd as (_ & Hd & _). intros Hin. by eapply Hd; [|left]. }
    assert (∀ x off, off = len (pre ++ c) →
      binary_columns utf8 show_float bitmap (S i) cols' (jm_set (c_name col) x r) (pre ++ c ++ w') off =
      Ok (r ++ (c_name col, x) :: zip (c_name <$> cols') (shown <$> vs), len pre + (len c + len w'))) as Hrest.
    { intros x off ->. rewrite (assoc_L (++) pre), jm_set_None by by apply jm_get_None.
      rewrite (IH _ (S i)); [rewrite <-(assoc_L (++)), len_app; do 2 f_equal; lia|done|done| |].
      - intros k y Hk. rewrite <-(Hb (S k) y Hk). f_equal. lia.
      - unfold jm_keys in *. rewrite fmap_app. cbn. by rewrite <-(assoc_L (++)). }
    assert (null_bit bitmap i = is_none v) as ->.
    { rewrite <-(Hb 0%nat v) by done. unfold null_bit, byte_bit. by rewrite Nat.add_0_r. }
    rewrite len_app. destruct v as [v|]; unfold shown at 1; cbn [is_none orb fmap option_fmap option_map].
    + pose proof (reads_binary_value col v c Hc Hv) as [Hr Hne].
      assert (1 <= len c) by (destruct c; [done|unfold len; cbn [length]; lia]). pose proof (len_nonneg w').
      rewrite len_app. destruct (Z.leb_spec (len pre + (len c + len w')) (len pre)); [lia|].
      unfold mbind, cursor_bind. rewrite (Hr pre w'). apply Hrest. by rewrite len_app.
    + apply Ok_inj in Hv as <-. apply Hrest. by rewrite app_nil_r.
Qed.

Lemma parseBinaryRow_write cols vs w :
  w_binary_row cols vs = Ok w → Forall2 typed cols vs → NoDup (c_name <$> cols) →
  parseBinaryRow utf8 show_float cols w = Ok (zip (c_name <$> cols) (shown <$> vs)).
Proof.
  unfold w_binary_row. intros (cells & Hw & <-%Ok_inj)%result_bind_ok Ht Hnd.
  pose proof (Forall2_length _ _ _ Ht) as Hl. unfold parseBinaryRow, binary_row.
  pose proof (len_bitmap 2 (is_none <$> vs)) as Hn. rewrite length_fmap, <-Hl in Hn.
  replace (2 + length cols)%nat with (length cols + 2)%nat in Hn by lia. rewrite <-Hn.
  change (NUL :: bitmap_of 2 (is_none <$> vs) ++ cells) with ([NUL] ++ bitmap_of 2 (is_none <$> vs) ++ cells).
  unfold mbind, cursor_bind. change 1 with (len [NUL]) at 1. rewrite (reads_slice (bitmap_of 2 (is_none <$> vs)) [NUL] cells).
  rewrite (assoc_L (++)), <-len_app.
  rewrite (binary_columns_write _ vs cols 0 cells _ []); try done.
  intros k v Hk. replace (0 + k + 2)%nat with (2 + k)%nat by lia. rewrite bitmap_bit, list_lookup_fmap, Hk. done.
Qed.
End rows.

(** ** Parameters as a server reads them *)

Section server.
Context (utf8 : bytes → bytes).

Definition server_value (t : Z) : reader param :=
  if t =? 3 then v ← read_le 4; mret (PInt (signed 4 v))
  else if t =? 5 then b ← r_slice 8; mret (PDouble b)
  else s ← lenenc_text utf8; mret (PText s).
Fixpoint server_params (bitmap : bytes) (k : nat) (types : list Z) : reader (list param) :=
  match types with
  | [] => mret []
  | t :: types =>
      p ← (if byte_bit bitmap k then mret PNull else server_value t);
      ps ← server_params bitmap (S k) types; mret (p :: ps)
  end.
(** A COM_STMT_EXECUTE for a statement of [n] parameters. *)
Definition server_execute (n : nat) : reader (Z * list param) :=
  _ ← read_uint 1; id ← read_le 4; _ ← skip 1; _ ← read_le 4;
  bitmap ← r_slice (bitmap_length n); _ ← read_uint 1;
  types ← read_times (t ← read_uint 1; _ ← skip 1; mret t) n;
  ps ← server_params bitmap 0 types; mret (id, ps).

(** What the server gets: booleans are the texts 0 and 1. *)
Definition sent (p : param) : param := match p with PBool _ => PText (param_text p) | _ => p end.
Definition param_ok (p : param) : Prop :=
  match p with PDouble b => length b = 8%nat | PText s => utf8 s = s | PBool b => utf8 (param_text p) = param_text p | _ => True end.
Definition param_fits (p : param) : Prop :=
  match p with PInt z => - 2 ^ 31 <= z < 2 ^ 31 | PText s => len s < 2 ^ 24 | _ => True end.

Lemma writeLenEncInt_fits v : 0 <= v → (∃ w, writeLenEncInt v = Ok w) ↔ v < 2 ^ 24.
Proof.
  intros Hv. unfold writeLenEncInt. destruct (Z.ltb_spec v 251); [split; [lia|by eauto]|].
  destruct (Z.leb_spec v 65535).
  - assert (write_le 2 v = Ok (le_split 2 v)) as E by (apply write_le_ok; split; [lia|done]).
    split; [lia|]. intros _. rewrite E. by eexists.
  - split.
    + intros (w & (b & [Hb _]%write_le_ok & _)%result_bind_ok). lia.
    + intros Hb. assert (write_le 3 v = Ok (le_split 3 v)) as E by (apply write_le_ok; split; [lia|done]).
      rewrite E. by eexists.
Qed.

Lemma param_value_fits p : (∃ w, param_value p = Ok w) ↔ param_fits p.
Proof.
  assert (∀ s : bytes, (∃ w, w_lenenc s = Ok w) ↔ len s < 2 ^ 24) as Ht.
  { intros s. rewrite <-(writeLenEncInt_fits (len s)) by apply len_nonneg. unfold w_lenenc. split.
    - intros (w & (l & Hl & _)%result_bind_ok). by eauto.
    - intros [l Hl]. rewrite Hl. by eexists. }
  destruct p as [|z|b|b|s]; cbn [param_value param_fits param_text]; try (split; [done|by eauto]).
  - unfold write_int_le. split.
    + intros (w & (b & [Hb _]%write_int_ok & _)%result_bind_ok). exact Hb.
    + intros Hb. assert (write_int 4 z = Ok (be_split 4 (z mod 256 ^ Z.of_nat 4))) as E by (by apply write_int_ok).
      rewrite E. by eexists.
  - apply Ht.
Qed.

Lemma reads_server_value p w : param_ok p → is_null p = false → param_value p = Ok w →
  reads (server_value (param_type p)) (sent p) w.
Proof.
  intros Hok Hn Hw. destruct p as [|z|b|b|s]; [done|..]; cbn [param_type param_value sent param_ok] in *.
    unfold server_value. cbn [Z.eqb Pos.eqb].
    apply write_int_le_ok in Hw as [-> Hz]. rewrite <-(signed_mod 4 z) at 1 by (lia || exact Hz).
    apply (reads_map (read_le 4) (λ v, PInt (signed 4 v))), reads_le, Z.mod_pos_bound. lia.
  - apply Ok_inj in Hw as <-. unfold server_value. cbn [Z.eqb Pos.eqb].
    replace 8 with (len b) by (unfold len; lia). apply (reads_map (r_slice _) PDouble), reads_slice.
  - apply (reads_map (lenenc_text utf8) PText). by apply reads_lenenc_text.
  - apply (reads_map (lenenc_text utf8) PText). by apply reads_lenenc_text.
Qed.

Lemma reads_server_params bitmap ps : ∀ k w,
  Forall param_ok ps → param_values ps = Ok w →
  (∀ j p, ps !! j = Some p → byte_bit bitmap (k + j) = is_null p) →
  reads (server_params bitmap k (param_type <$> ps)) (sent <$> ps) w.
Proof.
  induction ps as [|p ps IH]; intros k w Hok Hw Hb.
  - apply Ok_inj in Hw as <-. apply reads_ret.
  - apply Forall_cons in Hok as [Hp Hok]. cbn [param_values] in Hw.
    apply result_bind_ok in Hw as (v & Hv & Hw). apply result_bind_ok in Hw as (rest & Hw & <-%Ok_inj).
    cbn [fmap list_fmap server_params]. apply (reads_bind _ _ (sent p)).
    + rewrite <-(Nat.add_0_r k), (Hb 0%nat p) by done. destruct (is_null p) eqn:En.
      * destruct p; try discriminate. apply Ok_inj in Hv as <-. apply reads_ret.
      * by apply reads_server_value.
    + apply (reads_map _ (cons (sent p))). apply IH; [done|done|].
      intros j q Hj. rewrite <-(Hb (S j) q) by done. f_equal. lia.
Qed.

Lemma reads_types (ps : list param) :
  reads (read_times (t ← read_uint 1; _ ← skip 1; mret t) (length ps)) (param_type <$> ps)
    (mjoin ((λ p, [byte (param_type p); NUL]) <$> ps)).
Proof.
  induction ps as [|p ps IH]; [apply reads_ret|]. cbn [length read_times fmap list_fmap].
  change (mjoin ([byte (param_type p); NUL] :: ((λ p, [byte (param_type p); NUL]) <$> ps)))
    with (([byte (param_type p)] ++ [NUL] ++ []) ++ mjoin ((λ p, [byte (param_type p); NUL]) <$> ps)).
  apply (reads_bind _ _ (param_type p)).
  - apply (reads_bind _ _ (param_type p)); [apply read_uint1; destruct p; split; (discriminate || reflexivity)|].
    apply (reads_bind _ _ tt); [apply (reads_skip [NUL])|apply reads_ret].
  - apply (reads_map _ (cons (param_type p))), IH.
Qed.
End server.

Lemma null_bitmap_of params : null_bitmap params = bitmap_of 0 (is_null <$> params).
Proof. unfold null_bitmap, bitmap_of. by rewrite length_fmap. Qed.

Lemma param_values_fit ps : (∃ w, param_values ps = Ok w) ↔ Forall param_fits ps.
Proof.
  induction ps as [|p ps IH]; cbn [param_values]; [split; [done|by eauto]|].
  rewrite Forall_cons, <-IH, <-param_value_fits. split.
  - intros (w & (v & Hv & (rest & Hr & _)%result_bind_ok)%result_bind_ok). by eauto.
  - intros [[v ->] [rest ->]]. by eexists.
Qed.

(** ** The greeting as a server writes it *)

Record server_greeting : Type := {
  g_protocol : Z; g_version : bytes; g_id : Z; g_seed : bytes; g_capabilities : Z; g_charset : Z; g_status : Z; g_plugin : bytes;
}.
(** The seed has twenty bytes, in two parts, and is followed by a NUL. *)
Definition w_greeting (g : server_greeting) : bytes :=
  [byte (g_protocol g)] ++ (g_version g ++ [NUL]) ++ le_split 4 (g_id g) ++ (take 8 (g_seed g)) ++ [NUL] ++
  (le_split 2 (g_capabilities g mod 65536)) ++ [byte (g_charset g)] ++ le_split 2 (g_status g) ++
  (le_split 2 (g_capabilities g / 65536)) ++ [byte 21] ++ replicate 10 NUL ++ (drop 8 (g_seed g) ++ [NUL]) ++ (g_plugin g ++ [NUL]).
Definition greeting_ok (utf8 : bytes → bytes) (g : server_greeting) : Prop :=
  0 <= g_protocol g < 256 ∧ (NUL ∉ g_version g) ∧ utf8 (g_version g) = g_version g ∧ 0 <= g_id g < 2 ^ 32 ∧
  length (g_seed g) = 20%nat ∧ 0 <= g_capabilities g < 2 ^ 31 ∧ 0 <= g_charset g < 256 ∧ 0 <= g_status g < 65536 ∧
  (NUL ∉ g_plugin g) ∧ utf8 (g_plugin g) = g_plugin g.
Definition greeting_read (g : server_greeting) : ServerGreeting :=
  {| protocolVersion := Some (g_protocol g); serverVersion := g_version g; connectionId := g_id g; authPluginData := g_seed g;
     capabilityFlags := g_capabilities g; charset := Some (g_charset g); statusFlags_ := g_status g; authPluginName := g_plugin g |}.

Lemma nul_index_at pre s post : NUL ∉ s → index_nul (pre ++ s ++ NUL :: post) (len pre) = len pre + len s.
Proof.
  intros Hs. unfold index_nul, len at 1. rewrite Nat2Z.id, drop_app_length.
  by rewrite (proj2 (indexOf_spec NUL _ (length s))) by by exists s, post.
Qed.

Lemma text_between_at pre s post : text_between (pre ++ s ++ post) (len pre) (len pre + len s) = s.
Proof.
  unfold text_between. replace (len pre + len s - len pre) with (len s) by lia.
  unfold len. by rewrite !Nat2Z.id, drop_app_length, take_app_length.
Qed.

Lemma reads_nul_text utf8 s : NUL ∉ s → utf8 s = s → reads (nul_text utf8) s (s ++ [NUL]).
Proof.
  intros Hs Hu pre post. unfold nul_text. rewrite <-(assoc_L (++) s). cbn [app].
  rewrite nul_index_at, text_between_at, Hu by done. rewrite len_app. change (len [NUL]) with 1. do 2 f_equal. lia.
Qed.

(** [reads] without the offset after it. *)
Definition reads_to {A} (r : reader A) (a : A) (w : bytes) : Prop := ∀ pre post, fst <$> r (pre ++ w ++ post) (len pre) = Ok a.

Lemma reads_then {A B} (r : reader A) (f : A → reader B) a b w1 w2 :
  reads r a w1 → reads_to (f a) b w2 → reads_to (r ≫= f) b (w1 ++ w2).
Proof.
  intros H1 H2 pre post. unfold mbind, cursor_bind. rewrite <-(assoc_L (++) w1), H1.
  specialize (H2 (pre ++ w1) post). by rewrite <-(assoc_L (++)), len_app in H2.
Qed.

Lemma reads_greeting_tail utf8 seed plugin : length seed = 20%nat → NUL ∉ plugin → utf8 plugin = plugin →
  reads_to (greeting_tail utf8 (take 8 seed) (Some 21)) (seed, plugin) (replicate 10 NUL ++ (drop 8 seed ++ [NUL]) ++ (plugin ++ [NUL])).
Proof.
  intros Hs Hp Hu pre post. unfold greeting_tail. cbv beta iota zeta. change (Z.max 13 (21 - 8)) with 13.
  set (part2 := drop 8 seed ++ [NUL]). assert (len part2 = 13) as H13 by (unfold part2, len; rewrite length_app, length_drop, Hs; done).
  pose proof (subarray_middle (pre ++ replicate 10 NUL) part2 ((plugin ++ [NUL]) ++ post)) as E.
  rewrite len_app, H13 in E. change (len (replicate 10 NUL)) with 10 in E. rewrite <-!(assoc_L (++)) in E. rewrite <-!(assoc_L (++)). rewrite E.
  pose proof (len_nonneg pre). pose proof (len_nonneg plugin). pose proof (len_nonneg post).
  match goal with |- context [?a <? ?b] => destruct (Z.ltb_spec a b) as [_|Hle] end.
  2: { exfalso. rewrite !len_app, H13 in Hle. change (len (replicate 10 NUL)) with 10 in Hle. change (len [NUL]) with 1 in Hle. lia. }
  unfold name_from. set (pre' := pre ++ replicate 10 NUL ++ part2).
  assert (len pre' = len pre + 10 + 13) as Hl by (unfold pre'; rewrite !len_app, H13; change (len (replicate 10 NUL)) with 10; lia).
  rewrite <-Hl.
  replace (pre ++ replicate 10 NUL ++ part2 ++ plugin ++ [NUL] ++ post) with (pre' ++ plugin ++ NUL :: post)
    by (unfold pre'; by rewrite <-!(assoc_L (++))).
  rewrite nul_index_at by done. pose proof (len_nonneg pre'). destruct (Z.eqb_spec (len pre' + len plugin) (-1)); [lia|].
  rewrite text_between_at, Hu. cbn [fmap result_fmap fst]. unfold seed_of, part2.
  rewrite (assoc_L (++)), take_drop. change (Z.to_nat (Z.max 0 (21 - 1))) with 20%nat. rewrite <-Hs, take_app_length. done.
Qed.

Lemma parseServerGreeting_write utf8 g : greeting_ok utf8 g → parseServerGreeting utf8 (w_greeting g) = Ok (greeting_read g).
Proof.
  intros (Hpv & Hv & Hvu & Hid & Hseed & Hcap & Hcs & Hst & Hp & Hpu).
  assert (reads_to (read_greeting utf8) (greeting_read g) (w_greeting g)) as H.
  2: { specialize (H [] []). cbn [app] in H. rewrite app_nil_r in H. exact H. }
  unfold read_greeting, w_greeting.
  eapply reads_then; [by apply reads_octet|]. eapply reads_then; [by apply reads_nul_text|].
  eapply reads_then; [apply reads_le; lia|].
  assert (len (take 8 (g_seed g)) = 8) as H8 by (unfold len; rewrite length_take, Hseed; done).
  rewrite <-H8 at 1. eapply reads_then; [apply reads_slice|]. eapply reads_then; [apply (reads_skip [NUL])|].
  eapply reads_then; [apply reads_le; change (256 ^ Z.of_nat 2) with 65536; apply Z.mod_pos_bound; lia|].
  eapply reads_then; [by apply reads_octet|]. eapply reads_then; [by apply reads_le|].
  eapply reads_then; [apply reads_le; split; [by apply Z.div_pos; lia|apply Z.div_lt_upper_bound; lia]|].
  eapply reads_then; [by apply reads_octet|]. intros pre post. unfold mbind, cursor_bind.
  pose proof (reads_greeting_tail utf8 (g_seed g) (g_plugin g) Hseed Hp Hpu pre post) as E.
  destruct (greeting_tail utf8 (take 8 (g_seed g)) (Some 21) _ (len pre)) as [[r off]|]; [|discriminate].
  cbn in E. apply Ok_inj in E as ->. cbn. unfold greeting_read. do 2 f_equal.
  assert (0 <= g_capabilities g / 65536 < 32768) as Hd by (split; [apply Z.div_pos; lia|apply Z.div_lt_upper_bound; lia]).
  rewrite Z.shiftl_mul_pow2 by lia. unfold to_int32. rewrite to_uint32_small by lia.
  destruct (Z.ltb_spec (g_capabilities g / 65536 * 2 ^ 16) (2 ^ 31)); [|lia].
  pose proof (Z.div_mod (g_capabilities g) 65536 ltac:(lia)). pose proof (Z.mod_pos_bound (g_capabilities g) 65536 ltac:(lia)).
  rewrite <-Z.shiftl_mul_pow2 by lia. rewrite <-Z.lxor_lor, <-Z.add_nocarry_lxor.
  - rewrite Z.shiftl_mul_pow2 by lia. lia.
  - apply Z.bits_inj'. intros i Hi. rewrite Z.land_spec, Z.bits_0. destruct (Z.lt_ge_cases i 16).
    + by rewrite (Z.shiftl_spec_low _ 16 i), andb_false_r by lia.
    + rewrite (Z.mod_pow2_bits_high _ 16) by lia. done.
  - apply Z.bits_inj'. intros i Hi. rewrite Z.land_spec, Z.bits_0. destruct (Z.lt_ge_cases i 16).
    + by rewrite (Z.shiftl_spec_low _ 16 i), andb_false_r by lia.
    + rewrite (Z.mod_pow2_bits_high _ 16) by lia. done.
Qed.

(** ** Properties *)

(** A statement is executed with exactly the values that were passed: from the packet that is
    built the server reads back the statement and every parameter, null, integer, double or
    text; and it is built exactly when the integers fit 32 bits and the texts 24-bit lengths,
    otherwise it throws. *)
Theorem execute_roundtrip (utf8 : bytes → bytes) (stmtId : Z) (params : list param)
    (Hid : 0 <= stmtId < 2 ^ 32) (Hok : Forall (param_ok utf8) params) :
  match buildStmtExecutePacket stmtId params with
  | Ok b => server_execute utf8 (length params) b 0 = Ok ((stmtId, sent <$> params), len b)
  | Throw _ => ¬ Forall param_fits params
  end.
Proof.
  unfold buildStmtExecutePacket. destruct (param_values params) as [vals|[]] eqn:Ev; cbn [mbind result_bind].
  2: { rewrite <-param_values_fit. intros [w Hw]. congruence. }
  assert (write_le 4 stmtId = Ok (le_split 4 stmtId)) as -> by (by apply write_le_ok). cbn [mbind result_bind].
  assert (∀ A (r : reader A) a w, reads r a w → r w 0 = Ok (a, len w)) as Hwhole.
  { intros A r a w H. pose proof (H [] []) as E. cbn [app] in E. rewrite app_nil_r in E. exact E. }
  apply Hwhole. unfold server_execute.
  apply (reads_bind _ _ COM_STMT_EXECUTE _ [byte COM_STMT_EXECUTE]); [by apply read_uint1|].
  apply (reads_bind _ _ stmtId); [by apply reads_le|].
  apply (reads_bind _ _ tt); [apply (reads_skip [NUL])|].
  apply (reads_bind _ _ 1); [by apply reads_le|].
  rewrite null_bitmap_of. pose proof (len_bitmap 0 (is_null <$> params)) as Hl. rewrite length_fmap in Hl.
  cbn [plus] in Hl. rewrite <-Hl.
  apply (reads_bind _ _ (bitmap_of 0 (is_null <$> params))); [apply reads_slice|].
  apply (reads_bind _ _ 1 _ [byte 1]); [by apply read_uint1|].
  apply (reads_bind _ _ (param_type <$> params)); [apply reads_types|].
  apply (reads_map _ (pair stmtId)). apply reads_server_params; [done|done|].
  intros j p Hj. by rewrite bitmap_bit, list_lookup_fmap, Hj.
Qed.

(** A row of the binary protocol is read as the server wrote it: every null, every integer of
    the width of its column and every text. *)
Theorem binary_rows_roundtrip (utf8 show_float : bytes → bytes) (cols : list ColumnDef) (vs : list (option dbval)) (w : bytes)
    (Hw : w_binary_row cols vs = Ok w) (Ht : Forall2 (typed utf8) cols vs) (Hnd : NoDup (c_name <$> cols)) :
  parseBinaryRow utf8 show_float cols w = Ok (zip (c_name <$> cols) (shown <$> vs)).
Proof. by apply parseBinaryRow_write. Qed.

(** The client reads the version, the seed, the flags and the plugin of a server from the greeting
    that it writes. *)
Theorem greeting_roundtrip (utf8 : bytes → bytes) (g : server_greeting) (Hg : greeting_ok utf8 g) :
  parseServerGreeting utf8 (w_greeting g) = Ok (greeting_read g).
Proof. by apply parseServerGreeting_write. Qed.

(** ** Witnesses *)

Definition sample_greeting : server_greeting :=
  {| g_protocol := 10; g_version := list_ascii_of_string "8.0.36"; g_id := 7; g_seed := replicate 20 (byte 65);
     g_capabilities := 524800; g_charset := 33; g_status := 2; g_plugin := PLUGIN_NATIVE |}.

Lemma sample_greeting_ok : greeting_ok id sample_greeting.
Proof. split_and!; try (cbn; lia); try reflexivity; apply (bool_decide_unpack _); vm_compute; exact I. Qed.

Lemma greeting_roundtrip_witness : parseServerGreeting id (w_greeting sample_greeting) = Ok (greeting_read sample_greeting).
Proof. apply (greeting_roundtrip id sample_greeting). exact sample_greeting_ok. Defined.

Lemma execute_roundtrip_witness :
  match buildStmtExecutePacket 7 [PInt (-2); PNull; PBool true; PText (byte <$> [104; 105])] with
  | Ok b => server_execute id 4 b 0 = Ok ((7, [PInt (-2); PNull; PText [byte 49]; PText (byte <$> [104; 105])]), len b)
  | Throw _ => False
  end.
Proof.
  exact (execute_roundtrip id 7 [PInt (-2); PNull; PBool true; PText (byte <$> [104; 105])]
    ltac:(lia) ltac:(repeat constructor)).
Defined.

Definition sample_columns : list ColumnDef :=
  [{| c_name := byte <$> [105]; fieldType := 3 |}; {| c_name := byte <$> [110]; fieldType := 253 |};
   {| c_name := byte <$> [122]; fieldType := 8 |}].
Definition sample_values : list (option dbval) := [Some (VInt (-1)); Some (VText (byte <$> [97])); None].
Definition sample_row : bytes := match w_binary_row sample_columns sample_values with Ok w => w | Throw _ => [] end.

Lemma binary_rows_roundtrip_witness :
  parseBinaryRow id id sample_columns sample_row =
  Ok [(byte <$> [105], Some (byte <$> [45; 49])); (byte <$> [110], Some (byte <$> [97])); (byte <$> [122], None)].
Proof.
  refine (binary_rows_roundtrip id id sample_columns sample_values sample_row _ _ _).
  - reflexivity.
  - repeat constructor; cbn; discriminate.
  - apply (bool_decide_unpack _). vm_compute. exact I.
Defined.
