(* ===== verification/Act.v ===== *)
(** * Computations of an object

    A method of a stateful object that may throw and acts outside: [act St Ev Err A] maps the
    state to the list of what it did outside ([Ev]: bytes written, promises settled), the state
    after it, and what it returned or threw.  What it did before a throw stays done.
    MysqlConnection.v is written in it. *)

From S2P Require Import Prelude.

#[local] Open Scope list_scope.

Record outcome (St Ev Err A : Type) : Type := Outcome { log : list Ev; after : St; returned : result Err A }.
Arguments Outcome {St Ev Err A}. Arguments log {St Ev Err A}.
Arguments after {St Ev Err A}. Arguments returned {St Ev Err A}.

Definition act (St Ev Err A : Type) : Type := St → outcome St Ev Err A.

Section act.
Context {St Ev Err : Type}.
#[local] Abbreviation M := (act St Ev Err).

#[export] Instance act_ret : MRet M := λ A a s, Outcome [] s (Ok a).
#[export] Instance act_bind : MBind M := λ A B f m s,
  match returned (m s) with
  | Ok a => let o := f a (after (m s)) in Outcome (log (m s) ++ log o) (after o) (returned o)
  | Throw e => Outcome (log (m s)) (after (m s)) (Throw e)
  end.

Definition emit (e : Ev) : M unit := λ s, Outcome [e] s (Ok tt).
Definition get : M St := λ s, Outcome [] s (Ok s).
Definition modify (f : St → St) : M unit := λ s, Outcome [] (f s) (Ok tt).
Definition lift {A} (r : result Err A) : M A := λ s, Outcome [] s r.
Definition throw {A} (e : Err) : M A := lift (Throw e).
(** [if (b) m]. *)
Definition when (b : bool) (m : M unit) : M unit := if b then m else mret tt.

Lemma bind_run {A B} (m : M A) (f : A → M B) s l s' a :
  m s = Outcome l s' (Ok a) →
  (m ≫= f) s = Outcome (l ++ log (f a s')) (after (f a s')) (returned (f a s')).
Proof. intros E. unfold mbind, act_bind. by rewrite E. Qed.

Lemma bind_silent {A B} (m : M A) (f : A → M B) s s' a :
  m s = Outcome [] s' (Ok a) → (m ≫= f) s = f a s'.
Proof. intros E. rewrite (bind_run _ _ _ _ _ _ E). by destruct (f a s'). Qed.

Lemma bind_throws {A B} (m : M A) (f : A → M B) s l s' e :
  m s = Outcome l s' (Throw e) → (m ≫= f) s = Outcome l s' (Throw e).
Proof. intros E. unfold mbind, act_bind. by rewrite E. Qed.

Lemma bind_get {B} (f : St → M B) s : (get ≫= f) s = f s s.
Proof. by apply bind_silent. Qed.
Lemma bind_modify {B} g (f : unit → M B) s : (modify g ≫= f) s = f tt (g s).
Proof. by apply bind_silent. Qed.
Lemma act_bind_ok {A B} (a : A) (f : A → M B) s : (lift (Ok a) ≫= f) s = f a s.
Proof. by apply bind_silent. Qed.
Lemma bind_emit {B} e (f : unit → M B) s :
  (emit e ≫= f) s = Outcome (e :: log (f tt s)) (after (f tt s)) (returned (f tt s)).
Proof. done. Qed.

(** One after the other. *)
Fixpoint each {X} (m : X → M unit) (l : list X) : M unit :=
  match l with [] => mret tt | x :: l => m x ;; each m l end.

Lemma each_app {X} (m : X → M unit) l1 l2 s :
  each m (l1 ++ l2) s = (each m l1 ;; each m l2) s.
Proof.
  revert s. induction l1 as [|x l1 IH]; intros s; cbn [app each]; [by rewrite (bind_silent (mret tt) _ s s tt)|].
  unfold mbind, act_bind. destruct (returned (m x s)) as [[]|e]; [|done]. rewrite IH. unfold mbind, act_bind.
  destruct (returned (each m l1 (after (m x s)))) as [[]|e]; [|done]. cbn [log after returned]. by rewrite (assoc_L (++)).
Qed.
End act.
