(* ===== verification/MysqlConnection.v ===== *)
(** * The MySQL connection

    Models [MysqlConnection] of src/packages/core/src/database/mysql/wire.ts: authentication,
    text and prepared queries with the packets that answer them, streams of rows, and the end
    of the socket.

    Every method is a computation of Act.v on the connection.  A promise is named by its
    caller.  What [_execPrepared] awaits is a step of its own: [Prepared] and [Executed] are
    the settling of the inner promises, and [continue] goes on when the loop over the received
    packets is over.  [seq] is 0 whenever it is used, and [sha2State] and [sha2Seed] are never
    read; the backpressure of streams, the timeout and the change of dialect are not modelled. *)

From Stdlib Require Import Ascii String.
From S2P Require Import Prelude JsText JsMap JsInt Bytes MysqlWire Act.

Open Scope Z_scope.
#[local] Open Scope list_scope.

#[local] Abbreviation bytes := (list ascii) (only parsing).
#[local] Abbreviation row := (list (bytes * option bytes)) (only parsing).

(** ** Data *)

Record MysqlConnectOptions : Type := { user : bytes; password : bytes; database : bytes }.

Inductive mysql_error : Type :=
| ServerError (code_ : Z) (message : bytes)
| OutOfRange                       (* a [RangeError] of a buffer *)
| NotReady | ClosedUnexpectedly | SocketFailed | CleartextRequested | UnexpectedPrepare.

Inductive ConnState : Type := Connecting | Authenticating | Ready | InQuery | Closed.

Record DbResult : Type := { rows : list row; rowCount : Z; command : bytes }.

(** [q_caller]: none for the query of a stream. *)
Record PendingQuery : Type := { q_caller : option nat; q_rows : list row; q_command : bytes }.

Record PendingPrepare : Type := {
  pp_caller : nat; pp_params : list param; pp_command : bytes;     (* what [_execPrepared] goes on with *)
  stmtId : Z; numParams : nat; numColumns : nat;                   (* 0: not there yet *)
  paramDefs : list ColumnDef; colDefs : list ColumnDef;
  paramsReceived : nat; pp_colsReceived : nat;
}.

(** A statement that is being executed, and its caller. *)
Record PendingExec : Type := { e_stmt : Z; e_query : PendingQuery }.

(** [columns], [colCount], [colsReceived], [expectEof]; the same four of the binary protocol. *)
Record result_set : Type := { columns : list ColumnDef; colCount : Z; colsReceived : Z; expectRows : bool }.
Definition no_result : result_set := {| columns := []; colCount := 0; colsReceived := 0; expectRows := false |}.

Inductive effect : Type :=
| Write (b : bytes)
| Connected | ConnectFailed (e : mysql_error)
| Settled (caller : nat) (r : result mysql_error DbResult)
| Prepared (caller : nat) (stmt : Z) (params : list param) (command : bytes)
| Executed (caller : nat) (stmt : Z) (r : result mysql_error DbResult)
| Row (stream : nat) (r : row) | StreamEnd (stream : nat) (e : option mysql_error)
| Destroyed.

Record conn : Type := {
  socket : bool;
  state : ConnState;
  greeting : option ServerGreeting;
  authResolve : bool; authReject : bool;
  pendingQuery : option PendingQuery;
  streamTarget : option nat;
  text : result_set;
  pendingPrepare : option PendingPrepare;
  inExec : bool;
  exec : result_set;
  execPendingQuery : option PendingExec;
  lastSeq : Z;
}.

Definition set_socket (b : bool) (c : conn) : conn :=
  {| socket := b; state := state c; greeting := greeting c; authResolve := authResolve c;
     authReject := authReject c; pendingQuery := pendingQuery c; streamTarget := streamTarget c; text := text c;
     pendingPrepare := pendingPrepare c; inExec := inExec c; exec := exec c; execPendingQuery := execPendingQuery c;
     lastSeq := lastSeq c |}.
Definition set_state (s : ConnState) (c : conn) : conn :=
  {| socket := socket c; state := s; greeting := greeting c; authResolve := authResolve c;
     authReject := authReject c; pendingQuery := pendingQuery c; streamTarget := streamTarget c; text := text c;
     pendingPrepare := pendingPrepare c; inExec := inExec c; exec := exec c; execPendingQuery := execPendingQuery c;
     lastSeq := lastSeq c |}.
Definition set_lastSeq (n : Z) (c : conn) : conn :=
  {| socket := socket c; state := state c; greeting := greeting c; authResolve := authResolve c;
     authReject := authReject c; pendingQuery := pendingQuery c; streamTarget := streamTarget c; text := text c;
     pendingPrepare := pendingPrepare c; inExec := inExec c; exec := exec c; execPendingQuery := execPendingQuery c;
     lastSeq := n |}.
Definition set_auth (g : option ServerGreeting) (res rej : bool) (c : conn) : conn :=
  {| socket := socket c; state := state c; greeting := g; authResolve := res;
     authReject := rej; pendingQuery := pendingQuery c; streamTarget := streamTarget c; text := text c;
     pendingPrepare := pendingPrepare c; inExec := inExec c; exec := exec c; execPendingQuery := execPendingQuery c;
     lastSeq := lastSeq c |}.
Definition set_query (q : option PendingQuery) (st : option nat) (c : conn) : conn :=
  {| socket := socket c; state := state c; greeting := greeting c; authResolve := authResolve c;
     authReject := authReject c; pendingQuery := q; streamTarget := st; text := text c;
     pendingPrepare := pendingPrepare c; inExec := inExec c; exec := exec c; execPendingQuery := execPendingQuery c;
     lastSeq := lastSeq c |}.
Definition set_text (t : result_set) (c : conn) : conn :=
  {| socket := socket c; state := state c; greeting := greeting c; authResolve := authResolve c;
     authReject := authReject c; pendingQuery := pendingQuery c; streamTarget := streamTarget c; text := t;
     pendingPrepare := pendingPrepare c; inExec := inExec c; exec := exec c; execPendingQuery := execPendingQuery c;
     lastSeq := lastSeq c |}.
Definition set_prepare (p : option PendingPrepare) (c : conn) : conn :=
  {| socket := socket c; state := state c; greeting := greeting c; authResolve := authResolve c;
     authReject := authReject c; pendingQuery := pendingQuery c; streamTarget := streamTarget c; text := text c;
     pendingPrepare := p; inExec := inExec c; exec := exec c; execPendingQuery := execPendingQuery c;
     lastSeq := lastSeq c |}.
Definition set_exec (b : bool) (t : result_set) (q : option PendingExec) (c : conn) : conn :=
  {| socket := socket c; state := state c; greeting := greeting c; authResolve := authResolve c;
     authReject := authReject c; pendingQuery := pendingQuery c; streamTarget := streamTarget c; text := text c;
     pendingPrepare := pendingPrepare c; inExec := b; exec := t; execPendingQuery := q;
     lastSeq := lastSeq c |}.

(** The loop over the received packets keeps the buffer ([link]); the rest of the connection
    is as [_connect] leaves it. *)
Definition new_connection : conn :=
  {| socket := true; state := Connecting; greeting := None; authResolve := true; authReject := true;
     pendingQuery := None; streamTarget := None; text := no_result; pendingPrepare := None;
     inExec := false; exec := no_result; execPendingQuery := None; lastSeq := 0 |}.

#[local] Abbreviation M := (act conn effect mysql_error).

Definition ranged {A} (r : result range_error A) : M A :=
  match r with Ok a => mret a | Throw _ => throw OutOfRange end.
(** [this.socket?.write(b)]. *)
Definition write (b : bytes) : M unit := c ← get; when (socket c) (emit (Write b)).

Definition text_or (a b : bytes) : bytes := match a with [] => b | _ => a end.

Section connection.
Context (utf8 show_float sha1 sha256 : bytes → bytes) (opts : MysqlConnectOptions).

(** ** Authentication *)

Definition auth_response (plugin seed : bytes) : bytes :=
  if bool_decide (plugin = PLUGIN_SHA2) then sha2PasswordHash sha256 (password opts) seed
  else match password opts with [] => [] | _ => nativePasswordHash sha1 (password opts) seed end.

Definition reject_auth (e : mysql_error) : M unit :=
  c ← get;
  when (authReject c) (emit (ConnectFailed e) ;; modify (set_auth (greeting c) (authResolve c) false)).

(** [AuthSwitchRequest]: the plugin and the seed. *)
Definition auth_switch (body : bytes) : bytes * bytes :=
  let nameEnd := index_nul body 1 in
  let newPlugin := utf8 (if nameEnd =? -1 then text_between body 1 (len body) else text_between body 1 nameEnd) in
  (newPlugin, subarray body (nameEnd + 1) (len body - 1)).

Definition handleAuthPacket (body : bytes) (firstByte : Z) : M unit :=
  c ← get;
  match greeting c with
  | None =>
      g ← ranged (parseServerGreeting utf8 body);
      modify (set_auth (Some g) (authResolve c) (authReject c)) ;;
      let plugin := text_or (authPluginName g) PLUGIN_NATIVE in
      let authResp := auth_response plugin (authPluginData g) in
      response ← ranged (buildHandshakeResponse (user opts) (database opts) authResp plugin 33);
      write response
  | Some g =>
      if firstByte =? 255 then
        e ← ranged (parseErrPacket utf8 body); reject_auth (ServerError e.1 e.2)
      else if firstByte =? 0 then
        modify (set_state Ready) ;;
        when (authResolve c) (emit Connected ;; modify (set_auth (Some g) false (authReject c)))
      else if firstByte =? 1 then
        if bool_decide (code <$> body !! 1%nat = Some 4) then
          reject_auth CleartextRequested ;;
          modify (set_state Closed) ;;
          when (socket c) (emit Destroyed)
        else mret tt
      else if firstByte =? 254 then
        let '(newPlugin, newSeed) := auth_switch body in
        pkt ← ranged (wrapPacket (auth_response newPlugin newSeed) (lastSeq c + 1)); write pkt
      else mret tt
  end.

(** ** Prepared statements *)

Definition completePrepare (pp : PendingPrepare) : M unit :=
  modify (set_prepare None) ;; modify (set_state Ready) ;;
  emit (Prepared (pp_caller pp) (stmtId pp) (pp_params pp) (pp_command pp)).

Definition is_eof (body : bytes) (firstByte : Z) : bool := (firstByte =? 254) && (len body <? 9).
(** [EOF], or an [OK] in its place. *)
Definition is_end (body : bytes) (firstByte : Z) : bool :=
  is_eof body firstByte || ((firstByte =? 0) && (len body <? 9)).

Definition with_header (id : Z) (np nc : nat) (pp : PendingPrepare) : PendingPrepare :=
  {| pp_caller := pp_caller pp; pp_params := pp_params pp; pp_command := pp_command pp; stmtId := id;
     numParams := np; numColumns := nc; paramDefs := []; colDefs := []; paramsReceived := 0; pp_colsReceived := 0 |}.
Definition with_param (d : ColumnDef) (pp : PendingPrepare) : PendingPrepare :=
  {| pp_caller := pp_caller pp; pp_params := pp_params pp; pp_command := pp_command pp; stmtId := stmtId pp;
     numParams := numParams pp; numColumns := numColumns pp; paramDefs := paramDefs pp ++ [d]; colDefs := colDefs pp;
     paramsReceived := S (paramsReceived pp); pp_colsReceived := pp_colsReceived pp |}.
Definition with_col (d : ColumnDef) (pp : PendingPrepare) : PendingPrepare :=
  {| pp_caller := pp_caller pp; pp_params := pp_params pp; pp_command := pp_command pp; stmtId := stmtId pp;
     numParams := numParams pp; numColumns := numColumns pp; paramDefs := paramDefs pp; colDefs := colDefs pp ++ [d];
     paramsReceived := paramsReceived pp; pp_colsReceived := S (pp_colsReceived pp) |}.

Definition handlePreparePacket (pp : PendingPrepare) (body : bytes) (firstByte : Z) : M unit :=
  if firstByte =? 255 then
    e ← ranged (parseErrPacket utf8 body);
    modify (set_prepare None) ;; modify (set_state Ready) ;;
    emit (Settled (pp_caller pp) (Throw (ServerError e.1 e.2)))
  else if stmtId pp =? 0 then
    if negb (firstByte =? 0) then emit (Settled (pp_caller pp) (Throw UnexpectedPrepare))
    else
      id ← ranged (read_le 4 body 1); modify (set_prepare (Some (with_header id.1 0 0 pp))) ;;
      np ← ranged (read_le 2 body 5); modify (set_prepare (Some (with_header id.1 (Z.to_nat np.1) 0 pp))) ;;
      nc ← ranged (read_le 2 body 7);
      let pp := with_header id.1 (Z.to_nat np.1) (Z.to_nat nc.1) pp in
      modify (set_prepare (Some pp)) ;;
      when ((numParams pp =? 0)%nat && (numColumns pp =? 0)%nat) (completePrepare pp)
  else if (paramsReceived pp <? numParams pp)%nat then
    if is_end body firstByte then mret tt
    else d ← ranged (parseColumnDef utf8 body); modify (set_prepare (Some (with_param d pp)))
  else if is_end body firstByte then
    when (numColumns pp <=? pp_colsReceived pp)%nat (completePrepare pp)
  else if (pp_colsReceived pp <? numColumns pp)%nat then
    d ← ranged (parseColumnDef utf8 body); modify (set_prepare (Some (with_col d pp)))
  else mret tt.

(** ** Text results *)

Definition settle (q : option PendingQuery) (r : PendingQuery → result mysql_error DbResult) : M unit :=
  match q with
  | Some q => match q_caller q with Some id => emit (Settled id (r q)) | None => mret tt end
  | None => mret tt
  end.
Definition selected (q : PendingQuery) : result mysql_error DbResult :=
  Ok {| rows := q_rows q; rowCount := Z.of_nat (length (q_rows q));
        command := text_or (q_command q) (list_ascii_of_string "SELECT") |}.
Definition done_ok (ok : OkPacket) (q : PendingQuery) : result mysql_error DbResult :=
  Ok {| rows := q_rows q; rowCount := affectedRows ok; command := text_or (q_command q) (list_ascii_of_string "OK") |}.
Definition push_row (r : row) (q : PendingQuery) : PendingQuery :=
  {| q_caller := q_caller q; q_rows := q_rows q ++ [r]; q_command := q_command q |}.

Definition handleQueryPacket (body : bytes) (firstByte : Z) : M unit :=
  c ← get;
  let t := text c in
  match pendingPrepare c with
  | Some pp => handlePreparePacket pp body firstByte
  | None =>
      if firstByte =? 255 then
        e ← ranged (parseErrPacket utf8 body);
        modify (set_state Ready) ;;
        match streamTarget c with
        | Some st => emit (StreamEnd st (Some (ServerError e.1 e.2))) ;; modify (set_query (pendingQuery c) None)
        | None => settle (pendingQuery c) (λ _, Throw (ServerError e.1 e.2)) ;; modify (set_query None None)
        end
      else if (firstByte =? 0) && (colCount t =? 0) && negb (expectRows t) then
        ok ← ranged (parseOkPacket body);
        modify (set_state Ready) ;;
        modify (set_query None (streamTarget c)) ;; settle (pendingQuery c) (done_ok ok)
      else if is_eof body firstByte || ((firstByte =? 0) && expectRows t) then
        if negb (expectRows t) then
          modify (set_text {| columns := columns t; colCount := colCount t; colsReceived := colsReceived t; expectRows := true |})
        else
          modify (set_state Ready) ;; modify (set_query None None) ;; modify (set_text no_result) ;;
          match streamTarget c with
          | Some st => emit (StreamEnd st None)
          | None => settle (pendingQuery c) selected
          end
      else if (colCount t =? 0) && (colsReceived t =? 0) && negb (expectRows t) && negb (firstByte =? 0) then
        n ← ranged (readLenEncInt body 0);
        modify (set_text {| columns := []; colCount := n.1; colsReceived := 0; expectRows := expectRows t |})
      else if colsReceived t <? colCount t then
        d ← ranged (parseColumnDef utf8 body);
        modify (set_text {| columns := columns t ++ [d]; colCount := colCount t; colsReceived := colsReceived t + 1;
                            expectRows := expectRows t |})
      else if expectRows t then
        r ← ranged (parseTextRow utf8 (columns t) body);
        match streamTarget c, pendingQuery c with
        | Some st, _ => emit (Row st r)
        | None, Some q => modify (set_query (Some (push_row r q)) None)
        | None, None => mret tt
        end
      else mret tt
  end.

(** ** Binary results *)

Definition executed (q : option PendingExec) (r : PendingQuery → result mysql_error DbResult) : M unit :=
  match q with
  | Some e => match q_caller (e_query e) with Some id => emit (Executed id (e_stmt e) (r (e_query e))) | None => mret tt end
  | None => mret tt
  end.
(** The state, then the end of the execution. *)
Definition end_exec : M unit := modify (set_state Ready) ;; modify (set_exec false no_result None).

Definition handleExecPacket (body : bytes) (firstByte : Z) : M unit :=
  c ← get;
  let t := exec c in
  if firstByte =? 255 then
    e ← ranged (parseErrPacket utf8 body);
    end_exec ;; executed (execPendingQuery c) (λ _, Throw (ServerError e.1 e.2))
  else if (firstByte =? 0) && (colCount t =? 0) && negb (expectRows t) then
    ok ← ranged (parseOkPacket body);
    end_exec ;;
    executed (execPendingQuery c)
      (λ q, Ok {| rows := []; rowCount := affectedRows ok; command := text_or (q_command q) (list_ascii_of_string "OK") |})
  else if is_eof body firstByte then
    if negb (expectRows t) then
      modify (set_exec (inExec c) {| columns := columns t; colCount := colCount t; colsReceived := colsReceived t; expectRows := true |}
        (execPendingQuery c))
    else end_exec ;; executed (execPendingQuery c) selected
  else if (colCount t =? 0) && negb (expectRows t) then
    n ← ranged (readLenEncInt body 0);
    modify (set_exec (inExec c) {| columns := []; colCount := n.1; colsReceived := 0; expectRows := false |} (execPendingQuery c))
  else if colsReceived t <? colCount t then
    d ← ranged (parseColumnDef utf8 body);
    modify (set_exec (inExec c) {| columns := columns t ++ [d]; colCount := colCount t; colsReceived := colsReceived t + 1;
                                   expectRows := expectRows t |} (execPendingQuery c))
  else if expectRows t then
    r ← ranged (parseBinaryRow utf8 show_float (columns t) body);
    match execPendingQuery c with
    | Some e => modify (set_exec (inExec c) t (Some {| e_stmt := e_stmt e; e_query := push_row r (e_query e) |}))
    | None => mret tt
    end
  else mret tt.

(** ** Packets *)

Definition handlePacket (body : bytes) : M unit :=
  match body with
  | [] => mret tt
  | b :: _ =>
      let firstByte := code b in
      c ← get;
      match state c with
      | Authenticating => handleAuthPacket body firstByte
      | InQuery => if inExec c then handleExecPacket body firstByte else handleQueryPacket body firstByte
      | _ => mret tt
      end
  end.

(** The body of the loop of [_processBuffer], for a packet that has been taken. *)
Definition packet (p : Z * bytes) : M unit := modify (set_lastSeq p.1) ;; handlePacket p.2.

(** The bytes that are not a packet yet, and the connection. *)
Definition link : Type := bytes * conn.

(** [_processBuffer]; [fuel] is the length of the buffer. *)
Fixpoint processBuffer (fuel : nat) (b : bytes) (c : conn) : outcome link effect mysql_error unit :=
  match fuel with
  | O => Outcome [] (b, c) (Ok tt)
  | S fuel =>
      match next_packet b with
      | None => Outcome [] (b, c) (Ok tt)
      | Some (p, rest) =>
          let o := packet p c in
          match returned o with
          | Ok _ => let r := processBuffer fuel rest (after o) in Outcome (log o ++ log r) (after r) (returned r)
          | Throw e => Outcome (log o) (rest, after o) (Throw e)
          end
      end
  end.
Definition onData (chunk : bytes) (l : link) : outcome link effect mysql_error unit :=
  processBuffer (length (l.1 ++ chunk)) (l.1 ++ chunk) l.2.

(** ** Queries *)

(** [sql.trimStart().split(/\s+/)[0].toUpperCase()], on ASCII. *)
Definition is_white (c : ascii) : bool := ((9 <=? code c) && (code c <=? 13)) || (code c =? 32).
Fixpoint drop_white (l : bytes) : bytes :=
  match l with c :: l' => if is_white c then drop_white l' else l | [] => [] end.
Fixpoint first_word (l : bytes) : bytes :=
  match l with c :: l' => if is_white c then [] else c :: first_word l' | [] => [] end.
Definition upper (c : ascii) : ascii := if (97 <=? code c) && (code c <=? 122) then byte (code c - 32) else c.
Definition command_of (sql : bytes) : bytes := upper <$> first_word (drop_white sql).

(** An executor of a promise: what it throws rejects the promise. *)
Definition executor (on_throw : mysql_error → M unit) (m : M unit) : M unit := λ c,
  match returned (m c) with
  | Ok _ => m c
  | Throw e => let o := on_throw e (after (m c)) in Outcome (log (m c) ++ log o) (after o) (returned o)
  end.
Definition rejecting (id : nat) (m : M unit) : M unit := executor (λ e, emit (Settled id (Throw e))) m.

Definition send_command (cmd : Z) (body : bytes) : M unit :=
  pkt ← ranged (wrapPacket (byte cmd :: body) 0); write pkt.

Definition queryText (id : nat) (sql : bytes) : M unit :=
  modify (set_state InQuery) ;; modify (set_text no_result) ;;
  c ← get;
  modify (set_query (Some {| q_caller := Some id; q_rows := []; q_command := command_of sql |}) (streamTarget c)) ;;
  rejecting id (send_command COM_QUERY sql).

Definition prepare (id : nat) (sql : bytes) (params : list param) : M unit :=
  modify (set_state InQuery) ;;
  modify (set_prepare (Some {| pp_caller := id; pp_params := params; pp_command := command_of sql; stmtId := 0;
    numParams := 0; numColumns := 0; paramDefs := []; colDefs := []; paramsReceived := 0; pp_colsReceived := 0 |})) ;;
  rejecting id (send_command COM_STMT_PREPARE sql).

Definition query (id : nat) (sql : bytes) (params : list param) : M unit :=
  c ← get;
  match state c with
  | Ready => match params with [] => queryText id sql | _ => prepare id sql params end
  | _ => emit (Settled id (Throw NotReady))
  end.

Definition stmtClose (stmt : Z) : M unit :=
  b ← ranged (write_le 4 stmt); send_command COM_STMT_CLOSE b.

(** [finally], then the outer promise. *)
Definition finish (id : nat) (stmt : Z) (r : result mysql_error DbResult) : M unit :=
  rejecting id (stmtClose stmt ;; emit (Settled id r)).

Definition execute (id : nat) (stmt : Z) (params : list param) (command : bytes) : M unit :=
  modify (set_state InQuery) ;;
  modify (set_exec true no_result
    (Some {| e_stmt := stmt; e_query := {| q_caller := Some id; q_rows := []; q_command := command |} |})) ;;
  executor (λ e, finish id stmt (Throw e)) (
    body ← ranged (buildStmtExecutePacket stmt params);
    pkt ← ranged (wrapPacket body 0); write pkt).

(** What goes on after an inner promise of [_execPrepared] has settled. *)
Definition continue (e : effect) : M unit :=
  match e with
  | Prepared id stmt params command => execute id stmt params command
  | Executed id stmt r => finish id stmt r
  | _ => mret tt
  end.

Definition queryStream (id : nat) (sql : bytes) : M unit :=
  c ← get;
  match state c with
  | Ready =>
      modify (set_state InQuery) ;; modify (set_text no_result) ;;
      modify (set_query (Some {| q_caller := None; q_rows := []; q_command := list_ascii_of_string "SELECT" |}) (Some id)) ;;
      send_command COM_QUERY sql
  | _ => throw NotReady
  end.

(** ** The socket *)

Definition onConnect : M unit := modify (set_state Authenticating).

Definition fail_pending (e : mysql_error) : M unit :=
  c ← get;
  settle (pendingQuery c) (λ _, Throw e) ;;
  (match streamTarget c with Some st => emit (StreamEnd st (Some e)) | None => mret tt end) ;;
  modify (set_query None None).
Definition onSocketError : M unit :=
  modify (set_state Closed) ;; reject_auth SocketFailed ;; fail_pending SocketFailed.
Definition onSocketClose : M unit := modify (set_state Closed) ;; fail_pending ClosedUnexpectedly.

Definition close : M unit :=
  c ← get;
  match state c with
  | Closed => mret tt
  | _ =>
      modify (set_state Closed) ;;
      (if socket c then
         pkt ← ranged (wrapPacket [byte COM_QUIT] 0); emit (Write pkt) ;; emit Destroyed
       else mret tt) ;;
      modify (set_socket false)
  end.

(** ** Events *)

Inductive event : Type :=
| Connect | Data (chunk : bytes) | Query (id : nat) (sql : bytes) (params : list param)
| Stream (id : nat) (sql : bytes) | SocketError | SocketClose | Close.

(** A method of the connection leaves the buffer alone. *)
Definition on_conn (m : M unit) (l : link) : outcome link effect mysql_error unit :=
  let o := m l.2 in Outcome (log o) (l.1, after o) (returned o).

Definition handle (e : event) (l : link) : outcome link effect mysql_error unit :=
  match e with
  | Connect => on_conn onConnect l
  | Data chunk => onData chunk l
  | Query id sql params => on_conn (query id sql params) l
  | Stream id sql => on_conn (queryStream id sql) l
  | SocketError => on_conn onSocketError l
  | SocketClose => on_conn onSocketClose l
  | Close => on_conn close l
  end.

(** An event, and the continuations of the promises that it settled. *)
Definition step (e : event) (l : link) : list effect * link :=
  let o := handle e l in
  let k := on_conn (each continue (log o)) (after o) in (log o ++ log k, after k).

(** A run: what it did and where it ends; an event that throws leaves what it did. *)
Fixpoint run (es : list event) (l : link) : list effect * link :=
  match es with
  | [] => ([], l)
  | e :: es => let o := step e l in let r := run es o.2 in (o.1 ++ r.1, r.2)
  end.
End connection.

(** ** The network does not matter *)

Section properties.
Context (utf8 show_float sha1 sha256 : bytes → bytes) (opts : MysqlConnectOptions).
#[local] Abbreviation packet := (packet utf8 show_float sha1 sha256 opts).
#[local] Abbreviation processBuffer := (processBuffer utf8 show_float sha1 sha256 opts).
#[local] Abbreviation onData := (onData utf8 show_float sha1 sha256 opts).
#[local] Abbreviation run := (run utf8 show_float sha1 sha256 opts).

(** Packets that are taken without a throw. *)
Definition taken (ps : list (Z * bytes)) (c : conn) (l : list effect) (c' : conn) : Prop :=
  each packet ps c = Outcome l c' (Ok tt).

Lemma taken_nil c : taken [] c [] c.
Proof. done. Qed.
Lemma taken_cons p ps c l1 c1 l2 c2 :
  packet p c = Outcome l1 c1 (Ok tt) → taken ps c1 l2 c2 → taken (p :: ps) c (l1 ++ l2) c2.
Proof. unfold taken. intros H1 H2. cbn [each]. by rewrite (bind_run _ _ _ _ _ _ H1), H2. Qed.
Lemma taken_app ps1 ps2 c l1 c1 l2 c2 : taken ps1 c l1 c1 → taken ps2 c1 l2 c2 → taken (ps1 ++ ps2) c (l1 ++ l2) c2.
Proof. unfold taken. intros H1 H2. by rewrite each_app, (bind_run _ _ _ _ _ _ H1), H2. Qed.

Lemma taken_cons_inv p ps c l c' : taken (p :: ps) c l c' →
  ∃ l1 c1 l2, packet p c = Outcome l1 c1 (Ok tt) ∧ taken ps c1 l2 c' ∧ l = l1 ++ l2.
Proof.
  unfold taken. cbn [each]. unfold mbind, act_bind. destruct (packet p c) as [l1 c1 [[]|e]]; cbn [returned log after]; [|done].
  intros [= <- <- Hr]. exists l1, c1, (log (each packet ps c1)). split; [done|]. split; [|done].
  destruct (each packet ps c1) as [l2 c2 r]. cbn in *. by subst.
Qed.

Lemma taken_app_inv ps1 ps2 c l c' : taken (ps1 ++ ps2) c l c' →
  ∃ l1 c1 l2, taken ps1 c l1 c1 ∧ taken ps2 c1 l2 c' ∧ l = l1 ++ l2.
Proof.
  revert c l. induction ps1 as [|p ps1 IH]; intros c l H; cbn [app] in H; [by exists [], c, l|].
  apply taken_cons_inv in H as (l1 & c1 & l2 & H1 & H2 & ->). apply IH in H2 as (l3 & c2 & l4 & H3 & H4 & ->).
  exists (l1 ++ l3), c2, l4. split; [by eapply taken_cons|]. split; [done|]. by rewrite (assoc_L (++)).
Qed.

Lemma processBuffer_drain fuel : ∀ b c l c',
  (length b <= fuel)%nat → taken (drain next_packet b).1 c l c' →
  processBuffer fuel b c = Outcome l ((drain next_packet b).2, c') (Ok tt).
Proof.
  induction fuel as [|fuel IH]; intros b c l c' Hb H.
  - destruct b; [|cbn in Hb; lia]. by injection H as <- <-.
  - rewrite (drain_unfold next_packet) in H |- *. cbn [MysqlConnection.processBuffer].
    destruct (next_packet b) as [[p rest]|] eqn:E; cbn [fst snd] in *; [|by injection H as <- <-].
    apply taken_cons_inv in H as (l1 & c1 & l2 & H1 & H2 & ->). rewrite H1. cbn [returned after log].
    apply framing_shorter in E. by rewrite (IH rest c1 l2 c') by (lia || done).
Qed.

(** An effect after which nothing of a prepared statement goes on. *)
Definition inert (e : effect) : Prop := match e with Prepared _ _ _ _ | Executed _ _ _ => False | _ => True end.

Lemma continue_inert l c : Forall inert l → each continue l c = Outcome [] c (Ok tt).
Proof.
  induction 1 as [|e l He _ IH]; [done|]. cbn [each]. rewrite (bind_silent _ _ c c tt); [exact IH|]. by destruct e.
Qed.

(** However a sequence of packets is cut into chunks, it has the effects of the packets. *)
Lemma run_chunks chunks : ∀ b c l c',
  next_packet b = None → taken (drain next_packet (b ++ mjoin chunks)).1 c l c' → Forall inert l →
  run (Data <$> chunks) (b, c) = (l, ((drain next_packet (b ++ mjoin chunks)).2, c')).
Proof.
  induction chunks as [|chunk chunks IH]; intros b c l c' Hb H Hl.
  - change (mjoin []) with (@nil ascii) in *. rewrite app_nil_r, (drain_unfold next_packet), Hb in H |- *. by injection H as <- <-.
  - change (mjoin (chunk :: chunks)) with (chunk ++ mjoin chunks) in *.
    rewrite (assoc_L (++)), (drain_app next_packet) in H |- *. cbn [fst snd] in *.
    apply taken_app_inv in H as (l1 & c1 & l2 & H1 & H2 & ->). apply Forall_app in Hl as [Hl1 Hl2].
    cbn [fmap list_fmap MysqlConnection.run].
    assert (step utf8 show_float sha1 sha256 opts (Data chunk) (b, c) = (l1, ((drain next_packet (b ++ chunk)).2, c1))) as ->.
    { unfold step. cbn [handle].
      assert (onData chunk (b, c) = Outcome l1 ((drain next_packet (b ++ chunk)).2, c1) (Ok tt)) as ->
        by (unfold MysqlConnection.onData; cbn [fst snd]; by apply processBuffer_drain).
      unfold on_conn. cbn [log after fst snd]. rewrite continue_inert by done. cbn [log after]. by rewrite app_nil_r. }
    cbn [fst snd].
    rewrite (IH _ c1 l2 c'); [done|apply (drain_rest next_packet)|done|done].
Qed.

(** ** Text results *)

Definition receiving (t : result_set) (q : PendingQuery) (c : conn) : Prop :=
  state c = InQuery ∧ inExec c = false ∧ pendingPrepare c = None ∧ streamTarget c = None ∧ pendingQuery c = Some q ∧ text c = t.
Definition idle (c : conn) : Prop :=
  state c = Ready ∧ inExec c = false ∧ pendingPrepare c = None ∧ streamTarget c = None ∧ pendingQuery c = None.

Lemma packet_query t q c s b body : receiving t q c → 0 <= b < 256 →
  packet (s, byte b :: body) c = handleQueryPacket utf8 (byte b :: body) b (set_lastSeq s c).
Proof.
  intros (Hs & Hi & _) Hb. unfold MysqlConnection.packet. rewrite bind_modify. unfold handlePacket. cbn [snd].
  rewrite bind_get. cbn [state inExec set_lastSeq]. rewrite Hs, Hi, code_byte, Z.mod_small by done. done.
Qed.

Ltac open_query H :=
  rewrite (packet_query _ _ _ _ _ _ H) by lia; unfold handleQueryPacket; rewrite bind_get;
  destruct H as (Hs & Hi & Hp & Ht & Hq & Hx); cbn [pendingPrepare text streamTarget pendingQuery set_lastSeq];
  rewrite Hp, Hx, ?Ht, ?Hq.

Definition head_ok (b : Z) : Prop := 0 <= b < 254.

Lemma head_not_end b body : head_ok b → (b =? 255) = false ∧ is_eof body b = false.
Proof.
  intros Hb. unfold is_eof, head_ok in *. destruct (Z.eqb_spec b 255); [lia|]. destruct (Z.eqb_spec b 254); [lia|]. done.
Qed.

Definition counted (n : Z) : result_set := {| columns := []; colCount := n; colsReceived := 0; expectRows := false |}.

Lemma take_count c q s n w : receiving no_result q c → 1 <= n → writeLenEncInt n = Ok w →
  ∃ c', packet (s, w) c = Outcome [] c' (Ok tt) ∧ receiving (counted n) q c' ∧ socket c' = socket c.
Proof.
  intros H Hn Hw. pose proof Hw as Hw'. apply writeLenEncInt_head in Hw' as (b & w' & -> & Hb & _ & Hz); [|lia].
  open_query H. destruct (head_not_end b (byte b :: w') Hb) as [-> ->].
  destruct (Z.eqb_spec b 0) as [Hb0|Hb0]; [apply Hz in Hb0; lia|]. cbn [andb orb negb colCount colsReceived expectRows no_result].
  pose proof (reads_lenenc n _ ltac:(lia) Hw [] []) as E. cbn [app] in E. rewrite app_nil_r in E. change (len []) with 0 in E.
  rewrite E. eexists. split; [reflexivity|]. split; [|done]. by split_and!.
Qed.

Lemma take_column c q s t col w : receiving t q c → column_ok utf8 col → w_column col = Ok w →
  0 <= colsReceived t < colCount t → expectRows t = false →
  ∃ c', packet (s, w) c = Outcome [] c' (Ok tt) ∧ socket c' = socket c ∧
    receiving {| columns := columns t ++ [described col]; colCount := colCount t; colsReceived := colsReceived t + 1;
                 expectRows := false |} q c'.
Proof.
  intros H Hok Hw Hr He. pose proof (parseColumnDef_write utf8 col w Hok Hw) as Hparse.
  unfold w_column in Hw. apply result_bind_ok in Hw as (cat & Hcat & Hw).
  apply w_lenenc_head in Hcat as (b & w' & -> & Hb & _).
  repeat (apply result_bind_ok in Hw as (? & _ & Hw)). apply Ok_inj in Hw as <-. cbn [app] in *.
  open_query H. match goal with |- context [is_eof ?x b] => destruct (head_not_end b x Hb) as [-> ->] end.
  rewrite He. destruct (Z.eqb_spec (colCount t) 0); [lia|]. rewrite !andb_false_r. cbn [andb orb negb].
  destruct (Z.ltb_spec (colsReceived t) (colCount t)); [|lia]. rewrite Hparse.
  eexists. split; [reflexivity|]. split; [done|]. by split_and!.
Qed.

Lemma take_columns q cols ws : Forall2 (λ col w, column_ok utf8 col ∧ w_column col = Ok w) cols ws →
  ∀ c t (ss : list Z), receiving t q c → 0 <= colsReceived t → colCount t = colsReceived t + Z.of_nat (length cols) →
  expectRows t = false → length ss = length ws →
  ∃ c', taken (zip ss ws) c [] c' ∧ socket c' = socket c ∧
    receiving {| columns := columns t ++ (described <$> cols); colCount := colCount t; colsReceived := colCount t;
                 expectRows := false |} q c'.
Proof.
  induction 1 as [|col w cols ws [Hok Hw] _ IH]; intros c t ss H Hr Hn He Hl; destruct ss as [|s ss]; try discriminate.
  - exists c. split; [done|]. split; [done|]. destruct t; cbn in *. rewrite app_nil_r. subst. by rewrite Z.add_0_r in H |- *.
  - cbn [length] in Hn. edestruct (take_column c q s t col w) as (c1 & H1 & H2 & H3); [done..|lia|done|].
    injection Hl as Hl. edestruct (IH c1 _ ss H3) as (c2 & H4 & H5 & H6); cbn [colsReceived colCount expectRows columns] in *; [lia|lia|done|done|].
    exists c2. split; [by eapply (taken_cons _ _ _ [] _ [])|]. split; [congruence|].
    by rewrite <-(assoc_L (++)) in H6.
Qed.

Definition eof_packet (w : bytes) : Prop := ∃ e, w = byte 254 :: e ∧ len e < 8.

Lemma eof_test w e : w = byte 254 :: e → len e < 8 → is_eof w 254 = true.
Proof. intros -> He. unfold is_eof. change (len (byte 254 :: e)) with (len ([byte 254] ++ e)). rewrite len_app. change (len [byte 254]) with 1. cbn. apply Z.ltb_lt. lia. Qed.

Lemma take_columns_end c q s t w : receiving t q c → eof_packet w → expectRows t = false →
  ∃ c', packet (s, w) c = Outcome [] c' (Ok tt) ∧ socket c' = socket c ∧
    receiving {| columns := columns t; colCount := colCount t; colsReceived := colsReceived t; expectRows := true |} q c'.
Proof.
  intros H (e & Hw & He) Hx'. pose proof (eof_test w e Hw He) as Heof. subst w. open_query H. rewrite Heof, Hx'.
  cbn [Z.eqb Pos.eqb andb orb negb]. eexists. split; [reflexivity|]. split; [done|]. by split_and!.
Qed.

(** The rows before the first one whose first value is an empty text. *)
Definition empty_first (vs : list (option bytes)) : bool := match vs with Some [] :: _ => true | _ => false end.

Definition good_row (n : nat) (vs : list (option bytes)) : Prop :=
  length vs = n ∧ (0 < n)%nat ∧ Forall (cell_ok utf8) vs.

Lemma w_text_row_head vs w n : good_row n vs → w_text_row vs = Ok w →
  ∃ b w', w = byte b :: w' ∧ head_ok b ∧ (b = 0 ↔ empty_first vs = true).
Proof.
  intros (Hl & Hn & _) Hw. destruct vs as [|v vs]; [cbn in Hl; lia|]. cbn [w_text_row] in Hw.
  apply result_bind_ok in Hw as (c & Hc & (r & _ & <-%Ok_inj)%result_bind_ok). destruct v as [s|]; cbn [w_cell] in Hc.
  - apply w_lenenc_head in Hc as (b & w' & -> & Hb & _ & Hz). exists b, (w' ++ r). split; [done|]. split; [done|].
    rewrite Hz. cbn. destruct s; done.
  - apply Ok_inj in Hc as <-. exists 251, r. split; [done|]. split; [unfold head_ok; lia|]. done.
Qed.

(** Reading rows: the columns are all there. *)
Definition in_rows (cols : list ColumnDef) (t : result_set) : Prop :=
  columns t = cols ∧ 0 < colCount t ∧ colsReceived t = colCount t ∧ expectRows t = true.

Lemma take_row c q s t cols vs w : receiving t q c → in_rows cols t → NoDup (c_name <$> cols) →
  good_row (length cols) vs → w_text_row vs = Ok w → empty_first vs = false →
  ∃ c', packet (s, w) c = Outcome [] c' (Ok tt) ∧ socket c' = socket c ∧
    receiving t (push_row (zip (c_name <$> cols) vs) q) c'.
Proof.
  intros H (Hcols & Hn & Hr & He) Hnd Hg Hw Hem.
  pose proof (parseTextRow_write utf8 cols vs w) as Hparse. destruct Hg as (Hl & Hpos & Hok).
  specialize (Hparse Hok Hw (eq_sym Hl) Hnd).
  apply (w_text_row_head vs w (length cols)) in Hw as (b & w' & -> & Hb & Hz); [|done].
  assert (b ≠ 0) as Hb0 by (intros E; apply Hz in E; congruence).
  unfold head_ok in Hb. open_query H. destruct (head_not_end b (byte b :: w')) as [-> ->]; [done|].
  rewrite He, Hr, Hcols. destruct (Z.eqb_spec b 0); [done|]. rewrite !andb_false_r. cbn [andb orb negb].
  destruct (Z.ltb_spec (colCount t) (colCount t)); [lia|]. rewrite Hparse.
  eexists. split; [reflexivity|]. split; [done|]. by split_and!.
Qed.

(** The packet that ends the rows: an EOF, or what is taken for one. *)
Lemma take_rows_end c q s t cols w id : receiving t q c → in_rows cols t → q_caller q = Some id →
  (eof_packet w ∨ ∃ w', w = byte 0 :: w') →
  ∃ c', packet (s, w) c = Outcome [Settled id (selected q)] c' (Ok tt) ∧ idle c' ∧ socket c' = socket c.
Proof.
  intros H (Hcols & Hn & Hr & He) Hid Hw.
  assert (∃ b w', w = byte b :: w' ∧ 0 <= b < 256 ∧ (b =? 255) = false ∧ is_eof w b || (b =? 0) = true) as (b & w' & -> & Hb & H255 & Hend).
  { destruct Hw as [(e & -> & Hlen)|[w' ->]].
    - exists 254, e. by rewrite (eof_test _ e) by done.
    - exists 0, w'. split; [done|]. split; [lia|]. split; [done|]. by rewrite orb_true_r. }
  open_query H. rewrite H255, He, !andb_true_r, Hend, andb_false_r. cbn [negb].
  unfold settle. rewrite Hid. eexists. split; [reflexivity|]. split; [|done]. by split_and!.
Qed.

Lemma take_idle ps : ∀ c, idle c → ∃ c', taken ps c [] c' ∧ idle c' ∧ socket c' = socket c.
Proof.
  induction ps as [|[s body] ps IH]; intros c Hc; [by exists c|].
  assert (packet (s, body) c = Outcome [] (set_lastSeq s c) (Ok tt)) as E.
  { unfold MysqlConnection.packet. rewrite bind_modify. cbn [snd]. unfold handlePacket. destruct body; [done|].
    rewrite bind_get. cbn [state set_lastSeq]. destruct Hc as [-> _]. done. }
  destruct (IH (set_lastSeq s c)) as (c' & H1 & H2 & H3); [exact Hc|]. exists c'.
  split; [by eapply (taken_cons _ _ _ [] _ [])|]. done.
Qed.

Definition push_rows (rs : list row) (q : PendingQuery) : PendingQuery :=
  {| q_caller := q_caller q; q_rows := q_rows q ++ rs; q_command := q_command q |}.

Lemma take_rows cols t rs ws : in_rows cols t → NoDup (c_name <$> cols) →
  Forall2 (λ vs w, (good_row (length cols) vs ∧ w_text_row vs = Ok w) ∧ empty_first vs = false) rs ws →
  ∀ c q ss, receiving t q c → length ss = length ws →
  ∃ c', taken (zip ss ws) c [] c' ∧ socket c' = socket c ∧
    receiving t (push_rows ((λ vs, zip (c_name <$> cols) vs) <$> rs) q) c'.
Proof.
  intros Ht Hnd. induction 1 as [|vs w rs ws [[Hg Hw] Hem] _ IH]; intros c q ss H Hl; destruct ss as [|s ss]; try discriminate.
  - exists c. split; [done|]. split; [done|]. destruct q; unfold push_rows. cbn. by rewrite app_nil_r.
  - injection Hl as Hl. edestruct (take_row c q s t cols vs w) as (c1 & H1 & H2 & H3); [done..|].
    edestruct (IH c1 _ ss H3) as (c2 & H4 & H5 & H6); [done|]. exists c2.
    split; [by eapply (taken_cons _ _ _ [] _ [])|]. split; [congruence|].
    destruct q; unfold push_rows, push_row in *. cbn in *. by rewrite <-(assoc_L (++)) in H6.
Qed.

(** What a server sends for a query that returns rows. *)
Definition text_packets (cols : list server_column) (rs : list (list (option bytes))) (bodies : list bytes) : Prop :=
  ∃ wn wcs e1 wrs e2,
    bodies = [wn] ++ wcs ++ [e1] ++ wrs ++ [e2] ∧
    writeLenEncInt (Z.of_nat (length cols)) = Ok wn ∧ cols ≠ [] ∧
    Forall2 (λ col w, column_ok utf8 col ∧ w_column col = Ok w) cols wcs ∧ eof_packet e1 ∧
    Forall2 (λ vs w, good_row (length cols) vs ∧ w_text_row vs = Ok w) rs wrs ∧ eof_packet e2.

Definition sent_as (p : Z * bytes) (w : bytes) : Prop := wrapPacket p.2 p.1 = Ok w ∧ 0 <= p.1 < 256.

Lemma sent_drain ps ws : Forall2 sent_as ps ws → drain next_packet (mjoin ws) = (ps, []).
Proof.
  intros H. apply (drain_written next_packet). eapply Forall2_impl; [exact H|].
  intros [s body] w [Hw Hs] rest. cbn [fst snd] in *. rewrite (wrapPacket_wire _ _ _ Hw rest).
  change 255 with (Z.ones 8). by rewrite Z.land_ones, Z.mod_small by lia.
Qed.

Lemma zip_parts (ps : list (Z * bytes)) : zip ps.*1 ps.*2 = ps.
Proof. induction ps as [|[s b] ps IH]; [done|]. cbn. by rewrite IH. Qed.

Definition named (cols : list server_column) (vs : list (option bytes)) : row := zip (s_name <$> cols) vs.

Lemma snd_app_inv {A B} (l : list (A * B)) k1 k2 :
  l.*2 = k1 ++ k2 → ∃ l1 l2, l = l1 ++ l2 ∧ l1.*2 = k1 ∧ l2.*2 = k2.
Proof. intros (l1 & l2 & -> & -> & ->)%fmap_app_inv. by exists l1, l2. Qed.

Lemma Forall2_with {A B} (P : A → B → Prop) (Q : A → Prop) l k :
  Forall2 P l k → Forall Q l → Forall2 (λ x y, P x y ∧ Q x) l k.
Proof. induction 1; intros HQ; [constructor|]. apply Forall_cons in HQ as [? ?]. constructor; auto. Qed.

(** The rows of the result are those before the first row that begins with an empty text. *)
Lemma text_result_until c q id cols good rest ps bodies :
  receiving no_result q c → q_caller q = Some id → NoDup (s_name <$> cols) →
  text_packets cols (good ++ rest) bodies → ps.*2 = bodies →
  Forall (λ vs, empty_first vs = false) good → match rest with [] => True | bad :: _ => empty_first bad = true end →
  ∃ c', taken ps c [Settled id (selected (push_rows (named cols <$> good) q))] c' ∧ idle c' ∧ socket c' = socket c.
Proof.
  intros H Hid Hnd (wn & wcs & e1 & wrs & e2 & -> & Hn & Hne & Hcols & He1 & Hrs & He2) Hps Hgood Hbad.
  apply snd_app_inv in Hps as (pn & ps1 & -> & Hpn & Hps). destruct pn as [|[s0 w0] [|]]; try discriminate.
  injection Hpn as ->.
  apply snd_app_inv in Hps as (pc & ps2 & -> & <- & Hps). apply snd_app_inv in Hps as (pe & ps3 & -> & Hpe & Hps).
  destruct pe as [|[s1 w1] [|]]; try discriminate. injection Hpe as ->.
  assert (1 <= Z.of_nat (length cols)) as Hpos by (destruct cols; [done|cbn; lia]).
  destruct (take_count c q s0 _ wn H Hpos Hn) as (c1 & T1 & R1 & S1).
  destruct (take_columns q cols pc.*2 Hcols c1 _ pc.*1 R1) as (c2 & T2 & S2 & R2);
    cbn [colsReceived colCount expectRows columns counted]; [lia|lia|done|by rewrite !length_fmap|].
  rewrite zip_parts in T2. cbn [columns colCount counted app] in R2.
  destruct (take_columns_end c2 q s1 _ e1 R2 He1) as (c3 & T3 & S3 & R3); [done|]. cbn [columns colCount colsReceived] in R3.
  set (cds := described <$> cols) in *.
  assert (c_name <$> cds = s_name <$> cols) as Hnames by (unfold cds; rewrite <-list_fmap_compose; done).
  assert (length cds = length cols) as Hlen by apply length_fmap. rewrite <-Hlen in Hrs.
  match type of R3 with receiving ?t _ _ => assert (in_rows cds t) as Hin by (split_and!; (done || cbn; lia)) end.
  apply Forall2_app_inv_l in Hrs as (wg & wb & Hg & Hb & ->). rewrite <-!(assoc_L (++)) in Hps.
  apply snd_app_inv in Hps as (pg & ps4 & -> & <- & Hps).
  destruct (take_rows cds _ good pg.*2 Hin ltac:(by rewrite Hnames) (Forall2_with _ _ _ _ Hg Hgood) c3 q pg.*1 R3)
    as (c4 & T4 & S4 & R4); [by rewrite !length_fmap|]. rewrite zip_parts in T4.
  assert (∃ s5 w5 ps5, ps4 = (s5, w5) :: ps5 ∧ (eof_packet w5 ∨ ∃ w', w5 = byte 0 :: w')) as (s5 & w5 & ps5 & -> & Hend).
  { destruct Hb as [|bad w rest wb [Hgb Hwb] _].
    - destruct ps4 as [|[s5 w5] ps5]; [discriminate|]. injection Hps as -> _. exists s5, e2, ps5. by eauto.
    - destruct ps4 as [|[s5 w5] ps5]; [discriminate|]. injection Hps as -> _. exists s5, w, ps5. split; [done|]. right.
      apply (w_text_row_head bad w (length cds)) in Hwb as (b & w' & -> & _ & Hz); [|done]. apply Hz in Hbad as ->. by eexists. }
  destruct (take_rows_end c4 _ s5 _ cds w5 id R4 Hin Hid Hend) as (c5 & T5 & I5 & S5).
  destruct (take_idle ps5 c5 I5) as (c6 & T6 & I6 & S6). exists c6.
  split; [|split; [done|congruence]].
  change ([(s0, wn)] ++ pc ++ [(s1, e1)] ++ pg ++ (s5, w5) :: ps5) with ((s0, wn) :: pc ++ (s1, e1) :: pg ++ (s5, w5) :: ps5).
  change [Settled id (selected (push_rows (named cols <$> good) q))]
    with ([] ++ [] ++ [] ++ [] ++ [Settled id (selected (push_rows (named cols <$> good) q))] ++ []).
  eapply taken_cons; [exact T1|]. eapply taken_app; [exact T2|]. eapply taken_cons; [exact T3|].
  eapply taken_app; [exact T4|]. eapply taken_cons; [|exact T6]. rewrite T5. do 5 f_equal. by rewrite Hnames.
Qed.

(** ** Starting a query *)

Definition text_query (id : nat) (sql : bytes) : PendingQuery :=
  {| q_caller := Some id; q_rows := []; q_command := command_of sql |}.

Lemma write_ok b c : socket c = true → write b c = Outcome [Write b] c (Ok tt).
Proof. intros H. unfold write. by rewrite bind_get, H. Qed.

Lemma send_command_ok cmd body pkt c : socket c = true → wrapPacket (byte cmd :: body) 0 = Ok pkt →
  send_command cmd body c = Outcome [Write pkt] c (Ok tt).
Proof. intros H E. unfold send_command. rewrite E. cbn [ranged]. rewrite (bind_silent (mret pkt) _ c c pkt) by done. by apply write_ok. Qed.

Lemma step_queryText id sql pkt c : idle c → socket c = true → wrapPacket (byte COM_QUERY :: sql) 0 = Ok pkt →
  ∃ c', step utf8 show_float sha1 sha256 opts (Query id sql []) ([], c) = ([Write pkt], ([], c')) ∧
    receiving no_result (text_query id sql) c' ∧ socket c' = true.
Proof.
  intros (Hs & Hi & Hp & Ht & Hq) Hsock Hpkt.
  set (c' := set_query (Some (text_query id sql)) None (set_text no_result (set_state InQuery c))).
  assert (query id sql [] c = Outcome [Write pkt] c' (Ok tt)) as E.
  { unfold query. rewrite bind_get, Hs. unfold queryText. rewrite !bind_modify, bind_get, bind_modify.
    cbn [streamTarget set_text set_state]. rewrite Ht. unfold rejecting, executor.
    by rewrite (send_command_ok COM_QUERY sql pkt) by done. }
  exists c'. split; [|by split_and!]. unfold step. cbn [handle]. unfold on_conn. cbn [snd]. rewrite E. done.
Qed.

Lemma run_text id sql pkt c chunks ps ws l :
  idle c → socket c = true → wrapPacket (byte COM_QUERY :: sql) 0 = Ok pkt →
  Forall2 sent_as ps ws → mjoin chunks = mjoin ws → Forall inert l →
  (∀ c1, receiving no_result (text_query id sql) c1 → socket c1 = true → ∃ c', taken ps c1 l c' ∧ idle c' ∧ socket c' = socket c1) →
  ∃ c', run (Query id sql [] :: (Data <$> chunks)) ([], c) = (Write pkt :: l, ([], c')) ∧ idle c' ∧ socket c' = true.
Proof.
  intros Hc Hs Hpkt Hps Hj Hl Htaken. destruct (step_queryText id sql pkt c Hc Hs Hpkt) as (c1 & E1 & R1 & S1).
  destruct (Htaken c1 R1 S1) as (c2 & T2 & I2 & S2). exists c2. split; [|split; [done|congruence]].
  cbn [MysqlConnection.run]. rewrite E1. cbn [fst snd].
  rewrite (run_chunks chunks [] c1 l c2); cbn [app]; [|done| |done].
  - by rewrite Hj, (sent_drain ps ws).
  - by rewrite Hj, (sent_drain ps ws).
Qed.

(** ** Prepared statements *)

(** [k] definitions have been received of the [np] parameters and [nc] columns; the counts are read
    into each other's fields. *)
Definition preparing (pp : PendingPrepare) (id : Z) (np nc k : nat) (c : conn) : Prop :=
  state c = InQuery ∧ inExec c = false ∧ ∃ pp', pendingPrepare c = Some pp' ∧
    pp_caller pp' = pp_caller pp ∧ pp_params pp' = pp_params pp ∧ pp_command pp' = pp_command pp ∧ stmtId pp' = id ∧
    numParams pp' = nc ∧ numColumns pp' = np ∧ paramsReceived pp' = (k `min` nc)%nat ∧ pp_colsReceived pp' = (k - nc)%nat.

Lemma packet_prepare pp c s b body : state c = InQuery → inExec c = false → pendingPrepare c = Some pp → 0 <= b < 256 →
  packet (s, byte b :: body) c = handlePreparePacket utf8 pp (byte b :: body) b (set_lastSeq s c).
Proof.
  intros Hs Hi Hp Hb. unfold MysqlConnection.packet. rewrite bind_modify. unfold handlePacket. cbn [snd].
  rewrite bind_get. cbn [state inExec set_lastSeq]. rewrite Hs, Hi, code_byte, Z.mod_small by done.
  unfold handleQueryPacket. rewrite bind_get. cbn [pendingPrepare set_lastSeq]. by rewrite Hp.
Qed.

Lemma prepare_definition pp id np nc k c s col w : preparing pp id np nc k c → id ≠ 0 → (k < np + nc)%nat →
  column_ok utf8 col → w_column col = Ok w →
  ∃ c', packet (s, w) c = Outcome [] c' (Ok tt) ∧ preparing pp id np nc (S k) c' ∧ socket c' = socket c.
Proof.
  intros (Hs & Hi & pp' & Hp & H1 & H2 & H3 & Hid & Hnp & Hnc & Hpr & Hcr) Hne Hk Hok Hw.
  pose proof (parseColumnDef_write utf8 col w Hok Hw) as Hparse. destruct Hok as (_ & H7 & _).
  assert (∃ b w', w = byte b :: w' ∧ head_ok b ∧ 9 <= len w) as (b & w' & -> & Hb & Hlen).
  { unfold w_column in Hw. apply result_bind_ok in Hw as (cat & Hcat & Hw).
    apply w_lenenc_head in Hcat as (b & w' & -> & Hb & _).
    repeat (apply result_bind_ok in Hw as (? & _ & Hw)). apply Ok_inj in Hw as <-.
    eexists b, _. split; [reflexivity|]. split; [done|]. unfold len. rewrite !length_app. cbn [length]. lia. }
  rewrite (packet_prepare pp' c s b w') by (unfold head_ok in Hb; (done || lia)).
  destruct (head_not_end b (byte b :: w') Hb) as [H255 Heof].
  assert (is_end (byte b :: w') b = false) as Hend.
  { unfold is_end. rewrite Heof. destruct (Z.ltb_spec (len (byte b :: w')) 9); [lia|]. by rewrite andb_false_r. }
  unfold handlePreparePacket. rewrite H255, Hend, Hparse, Hid, Hnp, Hnc, Hpr, Hcr.
  destruct (Z.eqb_spec id 0); [done|]. destruct (Nat.ltb_spec (k `min` nc) nc).
  - eexists. split; [reflexivity|]. split; [|done]. split; [done|]. split; [done|].
    eexists. split; [reflexivity|].
    cbn [pp_caller pp_params pp_command stmtId numParams numColumns paramsReceived pp_colsReceived with_param with_col].
    rewrite ?Hpr, ?Hcr. split_and!; try done; lia.
  - destruct (Nat.ltb_spec (k - nc) np); [|lia].
    eexists. split; [reflexivity|]. split; [|done]. split; [done|]. split; [done|].
    eexists. split; [reflexivity|].
    cbn [pp_caller pp_params pp_command stmtId numParams numColumns paramsReceived pp_colsReceived with_param with_col].
    rewrite ?Hpr, ?Hcr. split_and!; try done; lia.
Qed.

Lemma prepare_definitions pp id np nc cols ws : Forall2 (λ col w, column_ok utf8 col ∧ w_column col = Ok w) cols ws →
  ∀ c k ss, preparing pp id np nc k c → id ≠ 0 → (k + length cols <= np + nc)%nat → length ss = length ws →
  ∃ c', taken (zip ss ws) c [] c' ∧ preparing pp id np nc (k + length cols) c' ∧ socket c' = socket c.
Proof.
  induction 1 as [|col w cols ws [Hok Hw] _ IH]; intros c k ss H Hne Hk Hl; destruct ss as [|s ss]; try discriminate.
  - exists c. cbn [length]. rewrite Nat.add_0_r. done.
  - cbn [length] in *. edestruct (prepare_definition pp id np nc k c s col w) as (c1 & T1 & R1 & S1); [done..|lia|done|done|].
    edestruct (IH c1 (S k) ss R1 Hne) as (c2 & T2 & R2 & S2); [lia|lia|]. exists c2.
    split; [by eapply (taken_cons _ _ _ [] _ [])|]. split; [|congruence]. by replace (k + S (length cols))%nat with (S k + length cols)%nat by lia.
Qed.

Lemma prepare_eof pp id np nc k c s w : preparing pp id np nc k c → id ≠ 0 → eof_packet w →
  ∃ c', packet (s, w) c =
      Outcome (if (k <? np + nc)%nat then [] else [Prepared (pp_caller pp) id (pp_params pp) (pp_command pp)]) c' (Ok tt) ∧
    socket c' = socket c ∧
    (if (k <? np + nc)%nat then preparing pp id np nc k c' else state c' = Ready ∧ pendingPrepare c' = None).
Proof.
  intros (Hs & Hi & pp' & Hp & H1 & H2 & H3 & Hid & Hnp & Hnc & Hpr & Hcr) Hne (e & Hw & He).
  pose proof (eof_test w e Hw He) as Heof. subst w. rewrite (packet_prepare pp' c s 254 e) by (done || lia).
  unfold handlePreparePacket, is_end. rewrite Heof, Hid, Hnp, Hnc, Hpr, Hcr. cbn [Z.eqb Pos.eqb orb].
  destruct (Z.eqb_spec id 0); [done|].
  assert (preparing pp id np nc k (set_lastSeq s c)) as Hsame by (split; [done|]; split; [done|]; exists pp'; by split_and!).
  destruct (Nat.ltb_spec k (np + nc)).
  - eexists. split; [|split; [|exact Hsame]]; [|done]. destruct (Nat.ltb_spec (k `min` nc) nc); [done|].
    destruct (Nat.leb_spec np (k - nc)); [lia|done].
  - destruct (Nat.ltb_spec (k `min` nc) nc); [lia|]. destruct (Nat.leb_spec np (k - nc)); [|lia].
    unfold completePrepare. cbn [when]. rewrite !bind_modify. rewrite H1, H2, H3, Hid.
    eexists. split; [reflexivity|]. done.
Qed.

(** COM_STMT_PREPARE_OK: the identifier, the columns, the parameters. *)
Definition prepare_ok (id : Z) (np nc : nat) (rest : bytes) : bytes :=
  byte 0 :: le_split 4 id ++ le_split 2 (Z.of_nat nc) ++ le_split 2 (Z.of_nat np) ++ rest.

(** A block of definitions, with the EOF that ends it when there are any. *)
Definition block (cols : list server_column) (bodies : list bytes) : Prop :=
  (cols = [] ∧ bodies = []) ∨
  (cols ≠ [] ∧ ∃ ws e, bodies = ws ++ [e] ∧ eof_packet e ∧ Forall2 (λ col w, column_ok utf8 col ∧ w_column col = Ok w) cols ws).

(** What a server sends for a statement that it prepares. *)
Definition prepare_packets (id : Z) (params cols : list server_column) (bodies : list bytes) : Prop :=
  ∃ rest b1 b2, bodies = prepare_ok id (length params) (length cols) rest :: b1 ++ b2 ∧ block params b1 ∧ block cols b2.

Definition new_prepare (id : nat) (sql : bytes) (params : list param) : PendingPrepare :=
  {| pp_caller := id; pp_params := params; pp_command := command_of sql; stmtId := 0;
     numParams := 0; numColumns := 0; paramDefs := []; colDefs := []; paramsReceived := 0; pp_colsReceived := 0 |}.

Lemma read_at {A} (r : reader A) a pre w post off : reads r a w → off = len pre → ∃ off', r (pre ++ w ++ post) off = Ok (a, off').
Proof. intros H ->. rewrite H. by eexists. Qed.

(** The last packet of a block, after [k] definitions. *)
Definition last_effect (pp : PendingPrepare) (id : Z) (total k : nat) : list effect :=
  if (k <? total)%nat then [] else [Prepared (pp_caller pp) id (pp_params pp) (pp_command pp)].

Lemma prepare_block pp id np nc k c cols bodies ps : preparing pp id np nc k c → id ≠ 0 → block cols bodies → ps.*2 = bodies →
  cols ≠ [] → (k + length cols <= np + nc)%nat →
  ∃ front l c1 c', ps = front ++ [l] ∧ taken front c [] c1 ∧
    packet l c1 = Outcome (last_effect pp id (np + nc) (k + length cols)) c' (Ok tt) ∧ socket c' = socket c ∧
    (if (k + length cols <? np + nc)%nat then preparing pp id np nc (k + length cols) c'
     else state c' = Ready ∧ pendingPrepare c' = None).
Proof.
  intros H Hid [[-> _]|[_ (ws & e & -> & He & Hws)]] Hps Hne Hk; [done|].
  apply snd_app_inv in Hps as (pw & pe & -> & <- & Hpe). destruct pe as [|[s1 w1] [|]]; try discriminate. injection Hpe as ->.
  destruct (prepare_definitions pp id np nc cols pw.*2 Hws c k pw.*1 H Hid Hk) as (c1 & T1 & R1 & S1); [by rewrite !length_fmap|].
  rewrite zip_parts in T1. destruct (prepare_eof pp id np nc _ c1 s1 e R1 Hid He) as (c2 & E2 & S2 & R2).
  exists pw, (s1, e), c1, c2. split; [done|]. split; [done|]. split; [exact E2|]. split; [congruence|exact R2].
Qed.

Lemma prepare_start pp c s id np nc rest :
  state c = InQuery → inExec c = false → pendingPrepare c = Some pp → stmtId pp = 0 →
  0 < id < 2 ^ 32 → Z.of_nat np < 2 ^ 16 → Z.of_nat nc < 2 ^ 16 →
  ∃ c', packet (s, prepare_ok id np nc rest) c = Outcome (last_effect pp id (np + nc) 0) c' (Ok tt) ∧ socket c' = socket c ∧
    (if (0 <? np + nc)%nat then preparing pp id np nc 0 c' else state c' = Ready ∧ pendingPrepare c' = None).
Proof.
  intros Hs Hi Hp H0 Hid Hnp Hnc. unfold prepare_ok. rewrite (packet_prepare pp) by (done || lia).
  unfold handlePreparePacket. rewrite H0. cbn [Z.eqb Pos.eqb negb].
  set (a := le_split 4 id). set (b := le_split 2 (Z.of_nat nc)). set (d := le_split 2 (Z.of_nat np)).
  assert (len a = 4 ∧ len b = 2) as [La Lb] by (split; apply len_le_split).
  destruct (read_at (read_le 4) id [byte 0] a (b ++ d ++ rest) 1) as [o1 E1]; [apply reads_le; lia|done|].
  destruct (read_at (read_le 2) (Z.of_nat nc) ([byte 0] ++ a) b (d ++ rest) 5) as [o2 E2];
    [apply reads_le; lia|rewrite len_app, La; done|].
  destruct (read_at (read_le 2) (Z.of_nat np) ([byte 0] ++ a ++ b) d rest 7) as [o3 E3];
    [apply reads_le; lia|rewrite !len_app, La, Lb; done|].
  rewrite <-!(assoc_L (++)) in E2. rewrite <-!(assoc_L (++)) in E3.
  change ([byte 0] ++ a ++ b ++ d ++ rest) with (byte 0 :: a ++ b ++ d ++ rest) in *.
  rewrite E1, E2, E3. cbn [ranged]. rewrite !(bind_silent (mret _) _ _ _ _ eq_refl), !bind_modify. cbn [fst].
  rewrite !(bind_silent (mret _) _ _ _ _ eq_refl), !bind_modify, !(bind_silent (mret _) _ _ _ _ eq_refl), !bind_modify.
  cbn [numParams numColumns with_header fst]. rewrite !Nat2Z.id. unfold last_effect.
  destruct (Nat.ltb_spec 0 (np + nc)).
  - assert ((nc =? 0)%nat && (np =? 0)%nat = false) as ->.
    { destruct (Nat.eqb_spec nc 0), (Nat.eqb_spec np 0); try done; lia. }
    eexists. split; [reflexivity|]. split; [done|]. split; [done|]. split; [done|].
    eexists. split; [reflexivity|]. by split_and!.
  - assert (np = 0%nat ∧ nc = 0%nat) as [-> ->] by lia. eexists. split; [reflexivity|]. done.
Qed.

Lemma prepare_taken pp c id params cols ps bodies :
  state c = InQuery → inExec c = false → pendingPrepare c = Some pp → stmtId pp = 0 →
  0 < id < 2 ^ 32 → Z.of_nat (length params) < 2 ^ 16 → Z.of_nat (length cols) < 2 ^ 16 →
  prepare_packets id params cols bodies → ps.*2 = bodies →
  ∃ front l c1 c', ps = front ++ [l] ∧ taken front c [] c1 ∧
    packet l c1 = Outcome [Prepared (pp_caller pp) id (pp_params pp) (pp_command pp)] c' (Ok tt) ∧
    state c' = Ready ∧ pendingPrepare c' = None ∧ socket c' = socket c.
Proof.
  intros Hs Hi Hp H0 Hid Hnp Hnc (rest & b1 & b2 & -> & Hb1 & Hb2) Hps.
  destruct ps as [|[s w] ps]; [discriminate|]. injection Hps as -> Hps.
  set (np := length params) in *. set (nc := length cols) in *.
  destruct (prepare_start pp c s id np nc rest) as (c1 & T1 & S1 & R1); [done..|].
  apply snd_app_inv in Hps as (p1 & p2 & -> & Hp1 & Hp2). assert (id ≠ 0) as Hne by lia. unfold last_effect in T1.
  destruct (decide (params = [])) as [Ep|Ep].
  - destruct Hb1 as [[_ ->]|[? _]]; [|done]. apply fmap_nil_inv in Hp1 as ->. cbn [app].
    assert (np = 0%nat) as Enp by (unfold np; by rewrite Ep). destruct (decide (cols = [])) as [Ec|Ec].
    + destruct Hb2 as [[_ ->]|[? _]]; [|done]. apply fmap_nil_inv in Hp2 as ->.
      assert (nc = 0%nat) as Enc by (unfold nc; by rewrite Ec). rewrite Enp, Enc in T1, R1 |- *. cbn in T1, R1.
      exists [], (s, prepare_ok id 0 0 rest), c, c1. split; [done|]. split; [done|]. split; [exact T1|]. by split_and!; try apply R1.
    + assert (0 < nc)%nat by (unfold nc; destruct cols; [done|cbn; lia]).
      destruct (Nat.ltb_spec 0 (np + nc)); [|lia].
      destruct (prepare_block pp id np nc 0 c1 cols b2 p2 R1 Hne Hb2 Hp2 Ec) as (front & l & c2 & c3 & -> & T2 & E3 & S3 & R3); [fold nc; lia|].
      fold nc in E3, R3. unfold last_effect in E3. destruct (Nat.ltb_spec (0 + nc) (np + nc)); [lia|].
      exists ((s, prepare_ok id np nc rest) :: front), l, c2, c3. split; [done|].
      split; [by eapply (taken_cons _ _ _ [] _ [])|]. split; [exact E3|]. split_and!; [apply R3..|congruence].
  - assert (0 < np)%nat by (unfold np; destruct params; [done|cbn; lia]).
    destruct (Nat.ltb_spec 0 (np + nc)); [|lia].
    destruct (prepare_block pp id np nc 0 c1 params b1 p1 R1 Hne Hb1 Hp1 Ep) as (f1 & l1 & c2 & c3 & -> & T2 & E3 & S3 & R3); [fold np; lia|].
    fold np in E3, R3. unfold last_effect in E3. cbn [plus] in E3, R3. destruct (decide (cols = [])) as [Ec|Ec].
    + destruct Hb2 as [[_ ->]|[? _]]; [|done]. apply fmap_nil_inv in Hp2 as ->. rewrite app_nil_r.
      assert (nc = 0%nat) as Enc by (unfold nc; by rewrite Ec). rewrite Enc, Nat.add_0_r, Nat.ltb_irrefl in E3, R3.
      exists ((s, prepare_ok id np nc rest) :: f1), l1, c2, c3. split; [done|].
      split; [by eapply (taken_cons _ _ _ [] _ [])|]. split; [exact E3|]. split_and!; [apply R3..|congruence].
    + assert (0 < nc)%nat by (unfold nc; destruct cols; [done|cbn; lia]). destruct (Nat.ltb_spec np (np + nc)); [|lia].
      destruct (prepare_block pp id np nc np c3 cols b2 p2 R3 Hne Hb2 Hp2 Ec) as (f2 & l2 & c4 & c5 & -> & T4 & E5 & S5 & R5); [done|].
      fold nc in E5, R5. unfold last_effect in E5. rewrite Nat.ltb_irrefl in E5, R5.
      exists ((s, prepare_ok id np nc rest) :: (f1 ++ [l1]) ++ f2), l2, c4, c5. split; [by rewrite (assoc_L (++))|].
      split; [|split; [exact E5|split_and!; [apply R5..|congruence]]].
      eapply (taken_cons _ _ _ [] _ []); [exact T1|]. eapply (taken_app _ _ _ [] _ []); [|exact T4].
      eapply (taken_app _ _ _ [] _ []); [exact T2|]. by eapply (taken_cons _ _ _ [] _ []).
Qed.

(** ** After the socket *)

(** Nothing that happens to a closed connection settles a query that it does not start. *)
Definition over (c : conn) : Prop := state c = Closed ∧ pendingQuery c = None ∧ streamTarget c = None.
Definition unrelated (id : nat) (e : event) : Prop :=
  match e with Connect => False | Query id' _ _ => id' ≠ id | _ => True end.
Definition settles (id : nat) (e : effect) : Prop := match e with Settled id' _ => id' = id | _ => False end.

Lemma over_packet p c : over c → packet p c = Outcome [] (set_lastSeq p.1 c) (Ok tt).
Proof.
  intros (Hs & _). unfold MysqlConnection.packet. rewrite bind_modify. unfold handlePacket. destruct p.2; [done|].
  rewrite bind_get. cbn [state set_lastSeq]. by rewrite Hs.
Qed.

Lemma over_process fuel : ∀ b c, over c →
  ∃ b' c', processBuffer fuel b c = Outcome [] (b', c') (Ok tt) ∧ over c'.
Proof.
  induction fuel as [|fuel IH]; intros b c Hc; cbn [MysqlConnection.processBuffer]; [by eexists _, _|].
  destruct (next_packet b) as [[p rest]|]; [|by eexists _, _]. rewrite over_packet by done. cbn [returned after log].
  destruct (IH rest (set_lastSeq p.1 c)) as (b' & c' & -> & Hc'); [exact Hc|]. by eexists _, _.
Qed.

Definition quiet (id : nat) (l : list effect) : Prop := Forall (λ e, ¬ settles id e ∧ inert e) l.

Lemma fail_nothing e c : pendingQuery c = None → streamTarget c = None →
  fail_pending e c = Outcome [] (set_query None None c) (Ok tt).
Proof. intros Hq Ht. unfold fail_pending. by rewrite bind_get, Hq, Ht. Qed.

Lemma error_quiet id c : pendingQuery c = None → streamTarget c = None →
  ∃ l c', onSocketError c = Outcome l c' (Ok tt) ∧ quiet id l ∧ over c'.
Proof.
  intros Hq Ht. unfold onSocketError. rewrite bind_modify. unfold reject_auth.
  destruct (authReject c) eqn:Ea.
  - eexists [ConnectFailed SocketFailed], _. split; [|split; [apply Forall_singleton; by split; [intros []|]|]].
    + erewrite bind_run; [|by rewrite bind_get; cbn [authReject set_state]; rewrite Ea].
      rewrite fail_nothing by done. reflexivity.
    + done.
  - eexists [], _. split; [|split; [constructor|]].
    + erewrite bind_run; [|by rewrite bind_get; cbn [authReject set_state]; rewrite Ea].
      rewrite fail_nothing by done. reflexivity.
    + done.
Qed.

Lemma over_step id e l : over l.2 → unrelated id e →
  quiet id (step utf8 show_float sha1 sha256 opts e l).1 ∧ over (step utf8 show_float sha1 sha256 opts e l).2.2.
Proof.
  intros Hc He. pose proof Hc as (Hs & Hq & Ht).
  assert (∀ o : outcome link effect mysql_error unit, handle utf8 show_float sha1 sha256 opts e l = o → quiet id (log o) → over (after o).2 →
    quiet id (step utf8 show_float sha1 sha256 opts e l).1 ∧ over (step utf8 show_float sha1 sha256 opts e l).2.2) as Hstep.
  { intros o Ho Hl Ho'. unfold step. rewrite Ho. unfold on_conn. cbn [log after fst snd].
    rewrite continue_inert by (eapply Forall_impl; [exact Hl|]; by intros ? []). cbn [log after fst snd].
    by rewrite app_nil_r. }
  destruct e as [|chunk|id' sql ps|sid sql| | |]; cbn [handle unrelated] in *; [done|..].
  - destruct (over_process (length (l.1 ++ chunk)) (l.1 ++ chunk) l.2 Hc) as (b' & c' & E & Hc'). by eapply Hstep; [exact E|constructor|].
  - assert (query id' sql ps l.2 = Outcome [Settled id' (Throw NotReady)] l.2 (Ok tt)) as E by (unfold query; by rewrite bind_get, Hs).
    eapply Hstep; [unfold on_conn; by rewrite E| |done]. repeat constructor. intros E'. cbn in E'. congruence.
  - assert (queryStream sid sql l.2 = Outcome [] l.2 (Throw NotReady)) as E by (unfold queryStream; by rewrite bind_get, Hs).
    eapply Hstep; [unfold on_conn; by rewrite E|constructor|done].
  - destruct (error_quiet id l.2 Hq Ht) as (lg & c' & E & H1 & H2). by eapply Hstep; [unfold on_conn; by rewrite E|..].
  - assert (onSocketClose l.2 = Outcome [] (set_query None None (set_state Closed l.2)) (Ok tt)) as E
      by (unfold onSocketClose; rewrite bind_modify; by apply fail_nothing).
    eapply Hstep; [unfold on_conn; by rewrite E|constructor|done].
  - assert (close l.2 = Outcome [] l.2 (Ok tt)) as E by (unfold close; by rewrite bind_get, Hs).
    eapply Hstep; [unfold on_conn; by rewrite E|constructor|done].
Qed.

Lemma over_run id es : ∀ l, over l.2 → Forall (unrelated id) es → quiet id (run es l).1.
Proof.
  induction es as [|e es IH]; intros l Hl Hes; cbn [MysqlConnection.run]; [constructor|].
  apply Forall_cons in Hes as [He Hes]. destruct (over_step id e l Hl He) as [H1 H2].
  apply Forall_app. split; [exact H1|]. by apply IH.
Qed.

(** A connection on which only a prepared statement of [id] is under way. *)
Definition only_statement (id : nat) (c : conn) : Prop :=
  state c = InQuery ∧ pendingQuery c = None ∧ streamTarget c = None ∧
  ((∃ pp, pendingPrepare c = Some pp ∧ pp_caller pp = id) ∨ (∃ e, execPendingQuery c = Some e ∧ q_caller (e_query e) = Some id)).

Lemma lost_socket id c b : only_statement id c →
  quiet id (step utf8 show_float sha1 sha256 opts SocketError (b, c)).1 ∧ over (step utf8 show_float sha1 sha256 opts SocketError (b, c)).2.2.
Proof.
  intros (Hs & Hq & Ht & _). destruct (error_quiet id c Hq Ht) as (l & c' & E & H1 & H2).
  unfold step. cbn [handle]. unfold on_conn. cbn [snd]. rewrite E. cbn [log after fst snd].
  rewrite continue_inert by (eapply Forall_impl; [exact H1|]; by intros ? []). cbn [log after]. by rewrite app_nil_r.
Qed.
End properties.

(** ** Properties *)

Section theorems.
Context (utf8 show_float sha1 sha256 : bytes → bytes) (opts : MysqlConnectOptions).
#[local] Abbreviation run := (run utf8 show_float sha1 sha256 opts).
#[local] Abbreviation taken := (taken utf8 show_float sha1 sha256 opts).
#[local] Abbreviation packet := (packet utf8 show_float sha1 sha256 opts).

(** C16: A query without parameters is settled once, with every row that the server sent under the
    names of its columns, however the network cuts the answer, and the connection is ready for
    the next one; provided that no row begins with an empty text. *)
Theorem text_query_exact id sql pkt c cols (rs : list (list (option bytes))) (bodies : list bytes)
    (ps : list (Z * bytes)) (ws chunks : list bytes)
    (Hc : idle c) (Hs : socket c = true) (Hpkt : wrapPacket (byte COM_QUERY :: sql) 0 = Ok pkt)
    (Hp : text_packets utf8 cols rs bodies) (Hnd : NoDup (s_name <$> cols))
    (Hrs : Forall (λ vs, empty_first vs = false) rs)
    (Hps : ps.*2 = bodies) (Hws : Forall2 sent_as ps ws) (Hj : mjoin chunks = mjoin ws) :
  ∃ c', run (Query id sql [] :: (Data <$> chunks)) ([], c) =
      ([Write pkt; Settled id (Ok {| rows := named cols <$> rs; rowCount := Z.of_nat (length rs);
          command := text_or (command_of sql) (list_ascii_of_string "SELECT") |})], ([], c')) ∧
    idle c' ∧ socket c' = true.
Proof.
  apply (run_text utf8 show_float sha1 sha256 opts id sql pkt c chunks ps ws); try done; [by repeat constructor|].
  intros c1 R1 S1. rewrite <-(app_nil_r rs) in Hp.
  destruct (text_result_until utf8 show_float sha1 sha256 opts c1 _ id cols rs [] ps bodies R1 eq_refl Hnd Hp Hps Hrs I)
    as (c' & T & I' & S'). exists c'. split; [|done]. unfold selected, push_rows in T. cbn [q_rows q_command text_query app] in T.
  by rewrite length_fmap in T.
Qed.

(** The first row that begins with an empty text ends the result: the query is settled with
    the rows before it, and the rest of the answer is dropped. *)
Theorem empty_first_value_ends_result id sql pkt c cols (good : list (list (option bytes))) bad
    (rest : list (list (option bytes))) (bodies : list bytes)
    (ps : list (Z * bytes)) (ws chunks : list bytes)
    (Hc : idle c) (Hs : socket c = true) (Hpkt : wrapPacket (byte COM_QUERY :: sql) 0 = Ok pkt)
    (Hp : text_packets utf8 cols (good ++ bad :: rest) bodies) (Hnd : NoDup (s_name <$> cols))
    (Hgood : Forall (λ vs, empty_first vs = false) good) (Hbad : empty_first bad = true)
    (Hps : ps.*2 = bodies) (Hws : Forall2 sent_as ps ws) (Hj : mjoin chunks = mjoin ws) :
  ∃ c', run (Query id sql [] :: (Data <$> chunks)) ([], c) =
      ([Write pkt; Settled id (Ok {| rows := named cols <$> good; rowCount := Z.of_nat (length good);
          command := text_or (command_of sql) (list_ascii_of_string "SELECT") |})], ([], c')) ∧
    idle c' ∧ socket c' = true.
Proof.
  apply (run_text utf8 show_float sha1 sha256 opts id sql pkt c chunks ps ws); try done; [by repeat constructor|].
  intros c1 R1 S1.
  destruct (text_result_until utf8 show_float sha1 sha256 opts c1 _ id cols good (bad :: rest) ps bodies R1 eq_refl Hnd Hp Hps Hgood Hbad)
    as (c' & T & I' & S'). exists c'. split; [|done]. unfold selected, push_rows in T. cbn [q_rows q_command text_query app] in T.
  by rewrite length_fmap in T.
Qed.

(** A statement is prepared exactly by the last packet that the server sends for it, for any
    number of parameters and columns, although their counts are read into each other's fields. *)
Theorem prepare_completes_at_the_end pp c id params cols (ps : list (Z * bytes)) (bodies : list bytes)
    (Hs : state c = InQuery) (Hi : inExec c = false) (Hp : pendingPrepare c = Some pp) (H0 : stmtId pp = 0)
    (Hid : 0 < id < 2 ^ 32) (Hnp : Z.of_nat (length params) < 2 ^ 16) (Hnc : Z.of_nat (length cols) < 2 ^ 16)
    (Hb : prepare_packets utf8 id params cols bodies) (Hps : ps.*2 = bodies) :
  ∃ front last c1 c', ps = front ++ [last] ∧ taken front c [] c1 ∧
    packet last c1 = Outcome [Prepared (pp_caller pp) id (pp_params pp) (pp_command pp)] c' (Ok tt) ∧
    state c' = Ready ∧ pendingPrepare c' = None ∧ socket c' = socket c.
Proof. by apply (prepare_taken utf8 show_float sha1 sha256 opts pp c id params cols ps bodies). Qed.

(** A parameter that cannot be sent, an integer beyond 32 bits for instance, rejects its query and
    leaves the connection in the middle of it: every later query is refused as not ready. *)
Theorem unsendable_parameter_wedges id stmt params cmd (c : conn)
    (Hs : socket c = true) (Hstmt : 0 <= stmt < 2 ^ 32) (Hp : ¬ Forall param_fits params) :
  ∃ c' w, execute id stmt params cmd c = Outcome [Write w; Settled id (Throw OutOfRange)] c' (Ok tt) ∧
    ∀ id' sql' ps', query id' sql' ps' c' = Outcome [Settled id' (Throw NotReady)] c' (Ok tt).
Proof.
  set (c' := set_exec true no_result
    (Some {| e_stmt := stmt; e_query := {| q_caller := Some id; q_rows := []; q_command := cmd |} |}) (set_state InQuery c)).
  set (b := byte COM_STMT_CLOSE :: le_split 4 stmt).
  assert (write_le 3 (len b) = Ok (le_split 3 (len b))) as Hb by (apply write_le_ok; by vm_compute).
  exists c', (le_split 3 (len b) ++ [byte 0] ++ b). split; [|done].
  assert (∃ e, param_values params = Throw e) as [[] He].
  { destruct (param_values params) as [w|e] eqn:E; [|by eexists]. exfalso. apply Hp, param_values_fit. by eexists. }
  unfold execute. rewrite !bind_modify. fold c'. unfold executor, buildStmtExecutePacket. rewrite He. cbn [mbind result_bind].
  assert (finish id stmt (Throw OutOfRange) c' = Outcome [Write (le_split 3 (len b) ++ [byte 0] ++ b); Settled id (Throw OutOfRange)] c' (Ok tt)) as E.
  { assert (stmtClose stmt c' = Outcome [Write (le_split 3 (len b) ++ [byte 0] ++ b)] c' (Ok tt)) as Eclose.
    { unfold stmtClose. assert (write_le 4 stmt = Ok (le_split 4 stmt)) as -> by (by apply write_le_ok). cbn [ranged].
      rewrite (bind_silent (mret _) _ c' c' _ eq_refl). apply send_command_ok; [done|]. fold b. unfold wrapPacket. by rewrite Hb. }
    unfold finish, rejecting, executor. rewrite (bind_run _ _ _ _ _ _ Eclose). done. }
  rewrite !(bind_throws (ranged (Throw RangeError)) _ c' [] c' OutOfRange) by done. cbn [returned log after app]. by rewrite E.
Qed.

(** When the socket is lost while a statement is being prepared or executed, its query is never
    settled, whatever happens afterwards. *)
Theorem lost_statement_is_never_settled id c b (es : list event)
    (Hc : only_statement id c) (Hes : Forall (unrelated id) es) :
  Forall (λ e, ¬ settles id e) (run (SocketError :: SocketClose :: es) (b, c)).1.
Proof.
  destruct (lost_socket utf8 show_float sha1 sha256 opts id c b Hc) as [H1 H2].
  assert (quiet id (run (SocketError :: SocketClose :: es) (b, c)).1) as H; [|by eapply Forall_impl; [exact H|]; intros ? []].
  cbn [MysqlConnection.run]. apply Forall_app. split; [exact H1|].
  apply (over_run utf8 show_float sha1 sha256 opts id (SocketClose :: es)); [exact H2|]. by constructor.
Qed.

(** With a server that uses the native plugin the connection answers the greeting with the scramble
    of the password and is ready after the OK, however the greeting and the OK are cut. *)
Theorem login_native g resp ok (ps : list (Z * bytes)) (ws chunks : list bytes)
    (Hg : greeting_ok utf8 g) (Hplugin : g_plugin g = PLUGIN_NATIVE) (Hpw : password opts ≠ [])
    (Hresp : buildHandshakeResponse (user opts) (database opts) (nativePasswordHash sha1 (password opts) (g_seed g)) PLUGIN_NATIVE 33 = Ok resp)
    (Hps : ps.*2 = [w_greeting g; byte 0 :: ok]) (Hws : Forall2 sent_as ps ws) (Hj : mjoin chunks = mjoin ws) :
  ∃ c', run (Connect :: (Data <$> chunks)) ([], new_connection) = ([Write resp; Connected], ([], c')) ∧ idle c' ∧ socket c' = true.
Proof.
  destruct ps as [|[s1 w1] [|[s2 w2] [|]]]; try discriminate. injection Hps as -> ->.
  set (c0 := set_state Authenticating new_connection).
  set (c1 := set_auth (Some (greeting_read g)) true true (set_lastSeq s1 c0)).
  set (c2 := set_auth (Some (greeting_read g)) false true (set_state Ready (set_lastSeq s2 c1))).
  assert (packet (s1, w_greeting g) c0 = Outcome [Write resp] c1 (Ok tt)) as E1.
  { unfold MysqlConnection.packet. rewrite bind_modify. cbn [fst snd]. unfold handlePacket.
    destruct (w_greeting g) as [|b w] eqn:Ew; [discriminate|]. rewrite bind_get. cbn [state set_lastSeq c0 set_state].
    unfold handleAuthPacket. rewrite bind_get. cbn [greeting set_lastSeq set_state c0 new_connection].
    rewrite <-Ew, parseServerGreeting_write by done. cbn [ranged]. rewrite (bind_silent (mret _) _ _ _ _ eq_refl), bind_modify.
    cbn [authPluginName greeting_read authPluginData]. rewrite Hplugin. cbn [text_or].
    assert (text_or PLUGIN_NATIVE PLUGIN_NATIVE = PLUGIN_NATIVE) as -> by done.
    assert (auth_response sha1 sha256 opts PLUGIN_NATIVE (g_seed g) = nativePasswordHash sha1 (password opts) (g_seed g)) as ->.
    { unfold auth_response. rewrite bool_decide_eq_false_2 by (by vm_compute). by destruct (password opts). }
    rewrite Hresp. cbn [ranged]. rewrite (bind_silent (mret _) _ _ _ _ eq_refl). by apply write_ok. }
  assert (packet (s2, byte 0 :: ok) c1 = Outcome [Connected] c2 (Ok tt)) as E2 by done.
  exists c2. split; [|by split_and!]. cbn [MysqlConnection.run].
  assert (step utf8 show_float sha1 sha256 opts Connect ([], new_connection) = ([], ([], c0))) as -> by done. cbn [fst snd app].
  rewrite (run_chunks utf8 show_float sha1 sha256 opts chunks [] c0 [Write resp; Connected] c2); cbn [app]; try done.
  - by rewrite Hj, (sent_drain _ ws Hws).
  - rewrite Hj, (sent_drain _ ws Hws). cbn [fst]. apply (taken_cons _ _ _ _ _ _ _ _ [Write resp] _ [Connected] _ E1).
    apply (taken_cons _ _ _ _ _ _ _ _ [Connected] _ [] _ E2). apply taken_nil.
  - by repeat constructor.
Qed.
End theorems.

(** ** Witnesses *)

Definition bytes_of (r : result range_error bytes) : bytes := match r with Ok w => w | Throw _ => [] end.
Definition sample_opts : MysqlConnectOptions := {| user := [byte 117]; password := [byte 112]; database := [byte 100] |}.
Definition col_a : server_column :=
  {| s_catalog := list_ascii_of_string "def"; s_schema := [byte 100]; s_table := [byte 116]; s_orgTable := [byte 116];
     s_name := [byte 97]; s_orgName := [byte 97]; s_length := replicate 7 (byte 12); s_type := 253; s_rest := replicate 5 NUL |}.
Definition eof : bytes := byte 254 :: replicate 4 NUL.
Definition result_bodies (rs : list (list (option bytes))) : list bytes :=
  [bytes_of (writeLenEncInt 1)] ++ [bytes_of (w_column col_a)] ++ [eof] ++ ((λ vs, bytes_of (w_text_row vs)) <$> rs) ++ [eof].
Definition packets_of (bodies : list bytes) : list (Z * bytes) := imap (λ i b, (Z.of_nat i, b)) bodies.
Definition wires_of (bodies : list bytes) : list bytes := (λ p, bytes_of (wrapPacket p.2 p.1)) <$> packets_of bodies.
Definition ready_conn : conn := set_state Ready new_connection.
Definition select : bytes := list_ascii_of_string "select a".
Definition select_packet : bytes := bytes_of (wrapPacket (byte COM_QUERY :: select) 0).
Definition sample_run := MysqlConnection.run id id id id sample_opts.

(** The name of the column with a text. *)
Definition row_a (s : bytes) : row := [([byte 97], Some s)].

Lemma col_a_ok : column_ok id col_a ∧ w_column col_a = Ok (bytes_of (w_column col_a)).
Proof. split; [split_and!; (reflexivity || (cbn; lia))|reflexivity]. Qed.

Lemma eof_ok : eof_packet eof.
Proof. by exists (replicate 4 NUL). Qed.

Lemma sample_packets (rs : list (list (option bytes))) :
  Forall (λ vs, good_row id 1 vs ∧ w_text_row vs = Ok (bytes_of (w_text_row vs))) rs →
  text_packets id [col_a] rs (result_bodies rs).
Proof.
  intros H. exists (bytes_of (writeLenEncInt 1)), [bytes_of (w_column col_a)], eof, ((λ vs, bytes_of (w_text_row vs)) <$> rs), eof.
  split; [done|]. split; [done|]. split; [done|]. split; [repeat constructor; apply col_a_ok|]. split; [exact eof_ok|].
  split; [|exact eof_ok]. by apply Forall2_fmap_r, Forall_Forall2_diag.
Qed.

Lemma text_query_exact_witness :
  (sample_run (Query 1 select [] :: [Data (mjoin (wires_of (result_bodies [[Some [byte 120]]; [None]])))]) ([], ready_conn)).1 =
  [Write select_packet; Settled 1 (Ok {| rows := [row_a [byte 120]; [([byte 97], None)]]; rowCount := 2; command := list_ascii_of_string "SELECT" |})].
Proof.
  set (rs := [[Some [byte 120]]; [None]]).
  destruct (text_query_exact id id id id sample_opts 1 select select_packet ready_conn [col_a] rs (result_bodies rs)
    (packets_of (result_bodies rs)) (wires_of (result_bodies rs)) [mjoin (wires_of (result_bodies rs))]) as (c' & E & _).
  - split_and!; reflexivity.
  - reflexivity.
  - vm_compute. reflexivity.
  - apply sample_packets. repeat constructor.
  - apply (bool_decide_unpack _). vm_compute. exact I.
  - repeat constructor.
  - vm_compute. reflexivity.
  - repeat (constructor; [split; [vm_compute; reflexivity|vm_compute; split; [discriminate|reflexivity]]|]). constructor.
  - unfold mjoin. cbn [list_join]. apply app_nil_r.
  - unfold sample_run. cbn [fmap list_fmap] in E. rewrite E. vm_compute. reflexivity.
Defined.

Lemma empty_first_value_ends_result_witness :
  (sample_run (Query 1 select [] :: [Data (mjoin (wires_of (result_bodies [[Some [byte 120]]; [Some []]; [Some [byte 121]]])))]) ([], ready_conn)).1 =
  [Write select_packet; Settled 1 (Ok {| rows := [row_a [byte 120]]; rowCount := 1; command := list_ascii_of_string "SELECT" |})].
Proof.
  set (rs := [[Some [byte 120]]; [Some []]; [Some [byte 121]]]).
  destruct (empty_first_value_ends_result id id id id sample_opts 1 select select_packet ready_conn [col_a]
    [[Some [byte 120]]] [Some []] [[Some [byte 121]]] (result_bodies rs)
    (packets_of (result_bodies rs)) (wires_of (result_bodies rs)) [mjoin (wires_of (result_bodies rs))]) as (c' & E & _).
  - split_and!; reflexivity.
  - reflexivity.
  - vm_compute. reflexivity.
  - apply sample_packets. repeat constructor.
  - apply (bool_decide_unpack _). vm_compute. exact I.
  - repeat constructor.
  - reflexivity.
  - vm_compute. reflexivity.
  - repeat (constructor; [split; [vm_compute; reflexivity|vm_compute; split; [discriminate|reflexivity]]|]). constructor.
  - unfold mjoin. cbn [list_join]. apply app_nil_r.
  - unfold sample_run. cbn [fmap list_fmap] in E. rewrite E. vm_compute. reflexivity.
Defined.

Definition preparing_conn : conn := set_prepare (Some (new_prepare 3 select [PInt 5])) (set_state InQuery new_connection).
Definition prepare_bodies : list bytes :=
  prepare_ok 9 1 2 [NUL; NUL; NUL] :: ([bytes_of (w_column col_a)] ++ [eof]) ++ ([bytes_of (w_column col_a); bytes_of (w_column col_a)] ++ [eof]).

Lemma prepare_completes_at_the_end_witness :
  ∃ front last c1 c', packets_of prepare_bodies = front ++ [last] ∧ taken id id id id sample_opts front preparing_conn [] c1 ∧
    packet id id id id sample_opts last c1 = Outcome [Prepared 3 9 [PInt 5] (list_ascii_of_string "SELECT")] c' (Ok tt) ∧ state c' = Ready.
Proof.
  destruct (prepare_completes_at_the_end id id id id sample_opts (new_prepare 3 select [PInt 5]) preparing_conn 9 [col_a] [col_a; col_a]
    (packets_of prepare_bodies) prepare_bodies) as (front & last & c1 & c' & H1 & H2 & H3 & H4 & _);
    [reflexivity|reflexivity|reflexivity|reflexivity|lia|cbn; lia|cbn; lia| |vm_compute; reflexivity|].
  - exists [NUL; NUL; NUL], ([bytes_of (w_column col_a)] ++ [eof]), ([bytes_of (w_column col_a); bytes_of (w_column col_a)] ++ [eof]).
    split; [reflexivity|]. split; right; (split; [discriminate|]).
    + exists [bytes_of (w_column col_a)], eof. split; [reflexivity|]. split; [exact eof_ok|]. repeat constructor; apply col_a_ok.
    + exists [bytes_of (w_column col_a); bytes_of (w_column col_a)], eof. split; [reflexivity|]. split; [exact eof_ok|].
      repeat constructor; apply col_a_ok.
  - exists front, last, c1, c'. split; [exact H1|]. split; [exact H2|]. split; [exact H3|exact H4].
Defined.

Lemma unsendable_parameter_wedges_witness :
  ∃ c' w, execute 4 9 [PInt 2147483648] [] ready_conn = Outcome [Write w; Settled 4 (Throw OutOfRange)] c' (Ok tt) ∧
    query 5 select [] c' = Outcome [Settled 5 (Throw NotReady)] c' (Ok tt).
Proof.
  destruct (unsendable_parameter_wedges 4 9 [PInt 2147483648] [] ready_conn) as (c' & w & E & H);
    [reflexivity|lia|intros H; apply Forall_cons in H as [H _]; cbn in H; lia|].
  exists c', w. split; [exact E|apply H].
Defined.

Lemma lost_statement_is_never_settled_witness :
  Forall (λ e, ¬ settles 3 e) (sample_run [SocketError; SocketClose; Query 4 select []; Close] ([], preparing_conn)).1.
Proof.
  apply (lost_statement_is_never_settled id id id id sample_opts 3 preparing_conn [] [Query 4 select []; Close]).
  - split; [reflexivity|]. split; [reflexivity|]. split; [reflexivity|]. left. by exists (new_prepare 3 select [PInt 5]).
  - repeat constructor. discriminate.
Defined.

Definition login_response : bytes :=
  bytes_of (buildHandshakeResponse [byte 117] [byte 100] (nativePasswordHash id [byte 112] (g_seed sample_greeting)) PLUGIN_NATIVE 33).
Definition login_bodies : list bytes := [w_greeting sample_greeting; byte 0 :: replicate 6 NUL].

Lemma login_native_witness :
  (sample_run [Connect; Data (mjoin (wires_of login_bodies))] ([], new_connection)).1 = [Write login_response; Connected].
Proof.
  destruct (login_native id id id id sample_opts sample_greeting login_response (replicate 6 NUL) (packets_of login_bodies)
    (wires_of login_bodies) [mjoin (wires_of login_bodies)]) as (c' & E & _).
  - exact sample_greeting_ok.
  - reflexivity.
  - discriminate.
  - vm_compute. reflexivity.
  - vm_compute. reflexivity.
  - repeat (constructor; [split; [vm_compute; reflexivity|vm_compute; split; [discriminate|reflexivity]]|]). constructor.
  - unfold mjoin. cbn [list_join]. apply app_nil_r.
  - unfold sample_run. cbn [fmap list_fmap] in E. by rewrite E.
Defined.

(** A stream whose statement returns no rows never ends, and takes the rows of the next query, which is
    never settled. *)
Example stream_without_rows_takes_next_result :
  let ok := mjoin (wires_of [replicate 7 NUL]) in
  let next := mjoin (wires_of (result_bodies [[Some [byte 120]]])) in
  (sample_run [Stream 8 select; Data ok; Query 9 select []; Data next] ([], ready_conn)).1 =
  [Write select_packet; Write select_packet; Row 8 (row_a [byte 120]); StreamEnd 8 None].
Proof. vm_compute. reflexivity. Qed.

(** What is left of a result that ended early is taken for the answer to the next query. *)
Example rest_of_result_answers_next_query :
  let ws := wires_of (result_bodies [[Some []]; [Some [byte 120]]]) in
  (sample_run [Query 1 select []; Data (mjoin (take 4 ws)); Query 2 select []; Data (mjoin (drop 4 ws));
     Data (mjoin (wires_of (result_bodies [[Some [byte 121]]])))] ([], ready_conn)).1 =
  [Write select_packet; Settled 1 (Ok {| rows := []; rowCount := 0; command := list_ascii_of_string "SELECT" |}); Write select_packet].
Proof. vm_compute. reflexivity. Qed.

(** A whole prepared query. *)
Example prepared_query_runs :
  let prepared := mjoin (wires_of prepare_bodies) in
  let answer := mjoin (wires_of [[byte 1]; bytes_of (w_column col_a); eof; bytes_of (w_binary_row [described col_a] [Some (VText [byte 120])]); eof]) in
  omap (λ e, match e with Settled i r => Some (i, r) | _ => None end)
    (sample_run [Query 3 select [PInt 5]; Data prepared; Data answer] ([], ready_conn)).1 =
  [(3%nat, Ok {| rows := [row_a [byte 120]]; rowCount := 1; command := list_ascii_of_string "SELECT" |})].
Proof. vm_compute. reflexivity. Qed.
