(* ===== verification/KafkaWire.v ===== *)
(** * Kafka: the wire primitives

    Models src/packages/core/src/transports/kafka/primitives.ts: the big-endian writer and
    reader with nullable texts and bytes, zigzag varints, and CRC-32C.

    A method of the writer is given by the bytes that it appends, or throws.  The reader is
    a buffer and an offset; a read outside the buffer throws.  A JavaScript string is given
    by its UTF-8 bytes. *)

From Stdlib Require Import Ascii String.
From S2P Require Import Prelude JsText JsInt Bytes.

Open Scope Z_scope.
#[local] Open Scope list_scope.

#[local] Abbreviation bytes := (list ascii) (only parsing).
#[local] Abbreviation res := (result range_error).

(** ** Writer *)

Definition w_int8 := write_int 1.
Definition w_int16 := write_int 2.
Definition w_int32 := write_int 4.
Definition w_int64 := write_int 8.
Definition w_uint32 (v : Z) : bytes := be_split 4 (to_uint32 v).

Definition w_string (s : option bytes) : res bytes :=
  match s with
  | None => w_int16 (-1)
  | Some s => l ← w_int16 (len s); Ok (l ++ s)
  end.
Definition w_bytes (b : option bytes) : res bytes :=
  match b with
  | None => w_int32 (-1)
  | Some b => l ← w_int32 (len b); Ok (l ++ b)
  end.

(** [BigInt.asUintN(64, (v << 1n) ^ (v >> 63n))]. *)
Definition zigzag (v : Z) : Z := Z.lxor (Z.shiftl v 1) (Z.shiftr v 63) mod 2 ^ 64.

(** The loop over groups of seven bits; 64 bits are at most ten groups. *)
Fixpoint varint_groups (fuel : nat) (zz : Z) : bytes :=
  match fuel with
  | O => []
  | S fuel =>
      let b := Z.land zz 127 in
      let zz' := Z.shiftr zz 7 in
      if zz' =? 0 then [byte b] else byte (Z.lor b 128) :: varint_groups fuel zz'
  end.
Definition w_varint (v : Z) : bytes := varint_groups 10 (zigzag v).

(** ** Reader *)

Definition r_int8 : reader Z := read_int 1.
Definition r_int16 : reader Z := read_int 2.
Definition r_int32 : reader Z := read_int 4.
Definition r_uint32 : reader Z := read_uint 4.
Definition r_int64 : reader Z := read_int 8.

Section utf8.
Context (utf8 : bytes → bytes).      (* [toString('utf8')] *)
Definition r_string : reader (option bytes) :=
  n ← r_int16;
  if n =? -1 then mret None else s ← r_slice n; mret (Some (utf8 s)).
End utf8.
Definition r_bytes : reader (option bytes) :=
  n ← r_int32;
  if n =? -1 then mret None else b ← r_slice n; mret (Some b).

(** The groups of a varint; every one is an octet of the buffer. *)
Fixpoint read_groups (fuel : nat) (shift acc : Z) : reader Z :=
  match fuel with
  | O => λ _ _, Throw RangeError
  | S fuel =>
      b ← read_uint 1;
      let acc := Z.lor acc (Z.shiftl (Z.land b 127) shift) in
      if Z.land b 128 =? 0 then mret acc else read_groups fuel (shift + 7) acc
  end.
Definition unzigzag (r : Z) : Z := Z.lxor (Z.shiftr r 1) (- Z.land r 1).
Definition r_varint : reader Z := λ buf off,
  (z ← read_groups (S (length buf)) 0 0; mret (unzigzag z)) buf off.

Section array.
Context {A : Type} (read : reader A).
Definition r_array : reader (list A) :=
  count ← r_int32; if count <? 0 then mret [] else read_times read (Z.to_nat count).
End array.

(** ** CRC-32C *)

Definition CASTAGNOLI : Z := 2197175160.     (* 0x82f63b78 *)

(** The body of the loop that fills the table, on JavaScript numbers. *)
Definition table_step (c : Z) : Z :=
  if Z.land c 1 =? 0 then Z.shiftr (to_uint32 c) 1
  else js_xor CASTAGNOLI (Z.shiftr (to_uint32 c) 1).
Definition CRC32C_TABLE : list Z :=
  (λ n, to_uint32 (Nat.iter 8 table_step (Z.of_nat n))) <$> seq 0 256.

Definition crc_step (crc : Z) (b : Z) : Z :=
  to_uint32 (js_xor (CRC32C_TABLE !!! Z.to_nat (Z.land (js_xor crc b) 255)) (Z.shiftr (to_uint32 crc) 8)).
Definition crc32c (buf : bytes) : Z :=
  to_uint32 (js_xor (foldl crc_step 4294967295 (code <$> buf)) 4294967295).

(** ** Examples *)

Example crc_check_value : crc32c (list_ascii_of_string "123456789") = 3808858755.   (* 0xe3069283 *)
Proof. vm_compute. reflexivity. Qed.
Example varint_minus_one : w_varint (-1) = [byte 1].
Proof. reflexivity. Qed.
Example varint_300 : w_varint 300 = byte <$> [216; 4].
Proof. reflexivity. Qed.

(** ** What the reader reads back *)

Lemma reads_string utf8 s w : w_string s = Ok w → reads (r_string utf8) (utf8 <$> s) w.
Proof.
  unfold w_string, r_string. destruct s as [s|].
  - intros (l & Hl & <-%Ok_inj)%result_bind_ok. apply (reads_bind _ _ (len s)); [by apply reads_int; [lia|]|].
    destruct (Z.eqb_spec (len s) (-1)); [pose proof (len_nonneg s); lia|]. apply (reads_map (r_slice _) (λ x, Some (utf8 x))), reads_slice.
  - intros Hl. rewrite <-(app_nil_r w). apply (reads_bind _ _ (-1)); [by apply reads_int; [lia|]|apply reads_ret].
Qed.

Lemma reads_bytes b w : w_bytes b = Ok w → reads r_bytes b w.
Proof.
  unfold w_bytes, r_bytes. destruct b as [b|].
  - intros (l & Hl & <-%Ok_inj)%result_bind_ok. apply (reads_bind _ _ (len b)); [by apply reads_int; [lia|]|].
    destruct (Z.eqb_spec (len b) (-1)); [pose proof (len_nonneg b); lia|].
    apply (reads_map (r_slice _) Some), reads_slice.
  - intros Hl. rewrite <-(app_nil_r w). apply (reads_bind _ _ (-1)); [by apply reads_int; [lia|]|apply reads_ret].
Qed.

(** ** Varints *)

Lemma zigzag_nonneg v : 0 <= v < 2 ^ 63 → zigzag v = 2 * v.
Proof.
  intros Hv. unfold zigzag. rewrite Z.shiftr_div_pow2, Z.div_small, Z.lxor_0_r, Z.shiftl_mul_pow2 by lia.
  rewrite Z.mod_small; lia.
Qed.
Lemma zigzag_neg v : - 2 ^ 63 <= v < 0 → zigzag v = - 2 * v - 1.
Proof.
  intros Hv. unfold zigzag. rewrite Z.shiftr_div_pow2 by lia.
  assert (v / 2 ^ 63 = -1) as -> by (symmetry; apply (Z.div_unique_pos _ _ _ (v + 2 ^ 63)); lia).
  rewrite Z.lxor_m1_r, Z.shiftl_mul_pow2 by lia. unfold Z.lnot. rewrite Z.mod_small; lia.
Qed.

Lemma zigzag_range v : 0 <= zigzag v < 2 ^ 64.
Proof. apply Z.mod_pos_bound. lia. Qed.

Lemma unzigzag_zigzag v : - 2 ^ 63 <= v < 2 ^ 63 → unzigzag (zigzag v) = v.
Proof.
  intros Hv. unfold unzigzag. rewrite Z.shiftr_div_pow2 by lia.
  assert (Z.land (zigzag v) 1 = zigzag v mod 2) as -> by exact (Z.land_ones (zigzag v) 1 ltac:(lia)).
  destruct (Z.le_gt_cases 0 v).
  - rewrite zigzag_nonneg by lia. change (2 ^ 1) with 2.
    rewrite (Z.mul_comm 2 v), Z.div_mul, Z.mod_mul by lia. apply Z.lxor_0_r.
  - rewrite zigzag_neg by lia. change (2 ^ 1) with 2.
    replace (- 2 * v - 1) with (1 + (- v - 1) * 2) by lia. rewrite Z.div_add, Z.mod_add by lia.
    change (- (1 mod 2)) with (-1). rewrite Z.lxor_m1_r. unfold Z.lnot. change (1 / 2) with 0. lia.
Qed.

Lemma lor_shifted acc b shift :
  0 <= shift → 0 <= acc < 2 ^ shift → 0 <= b → Z.lor acc (Z.shiftl b shift) = acc + b * 2 ^ shift.
Proof.
  intros Hs Ha Hb. assert (Z.land acc (Z.shiftl b shift) = 0) as Hl.
  { apply Z.bits_inj'. intros i Hi. rewrite Z.land_spec, Z.bits_0. destruct (Z.lt_ge_cases i shift).
    - by rewrite (Z.shiftl_spec_low b shift i), andb_false_r by lia.
    - rewrite <-(Z.mod_small acc (2 ^ shift)) by lia. by rewrite Z.mod_pow2_bits_high by lia. }
  rewrite <-Z.lxor_lor, <-Z.add_nocarry_lxor by done. by rewrite Z.shiftl_mul_pow2.
Qed.

Lemma group_parts zz : 0 <= zz → Z.land zz 127 = zz mod 128 ∧ Z.shiftr zz 7 = zz / 128.
Proof.
  intros. change 127 with (Z.ones 7). rewrite Z.land_ones, Z.shiftr_div_pow2 by lia. done.
Qed.

(** The octets of a group: the last one, and one that is continued. *)
Definition octet_facts (b : Z) : bool :=
  (Z.land b 127 =? b) && (Z.land b 128 =? 0) && (Z.land (Z.lor b 128) 127 =? b) &&
  negb (Z.land (Z.lor b 128) 128 =? 0) && (0 <=? Z.lor b 128) && (Z.lor b 128 <? 256).
Lemma octets b : 0 <= b < 128 → octet_facts b = true.
Proof.
  intros Hb. assert (Forall (λ b, octet_facts b = true) (seqZ 0 128)) as H
    by (apply (bool_decide_unpack _); vm_compute; exact I).
  rewrite Forall_forall in H. apply H, elem_of_seqZ. lia.
Qed.

Lemma reads_groups fuel : ∀ fuel' zz shift acc,
  (0 < fuel)%nat → 0 <= zz < 2 ^ (7 * Z.of_nat fuel) → 0 <= shift → 0 <= acc < 2 ^ shift →
  (length (varint_groups fuel zz) <= fuel')%nat →
  reads (read_groups fuel' shift acc) (acc + zz * 2 ^ shift) (varint_groups fuel zz).
Proof.
  induction fuel as [|fuel IH]; intros fuel' zz shift acc Hf Hzz Hs Ha Hlen; [lia|].
  destruct (group_parts zz) as [Eb Ez]; [lia|]. cbn [varint_groups] in Hlen |- *. rewrite Eb, Ez in Hlen |- *.
  pose proof (Z.mod_pos_bound zz 128 ltac:(lia)) as Hmod. pose proof (Z.div_mod zz 128 ltac:(lia)) as Hdm.
  pose proof (octets (zz mod 128) Hmod) as Ho. unfold octet_facts in Ho.
  set (b := zz mod 128) in *. set (q := zz / 128) in *. reflect_bools.
  destruct fuel' as [|fuel']; [case_match; cbn in Hlen; lia|]. cbn [read_groups].
  destruct (Z.eqb_spec q 0) as [E0|E0].
  - change [byte b] with ([byte b] ++ []). eapply reads_bind; [apply reads_byte; lia|]. cbv beta zeta.
    replace (Z.land b 127) with b by done. replace (Z.land b 128) with 0 by done.
    rewrite lor_shifted by lia. replace zz with b by lia. apply reads_ret.
  - assert (0 < q) as Hq by (pose proof (Z.div_pos zz 128 ltac:(lia) ltac:(lia)); fold q in H; lia).
    change (byte (Z.lor b 128) :: varint_groups fuel q) with ([byte (Z.lor b 128)] ++ varint_groups fuel q).
    eapply reads_bind; [apply reads_byte; lia|]. cbv beta zeta.
    destruct (Z.eqb_spec (Z.land (Z.lor b 128) 128) 0); [done|].
    replace (Z.land (Z.lor b 128) 127) with b by done. rewrite lor_shifted by lia.
    assert (2 ^ (shift + 7) = 128 * 2 ^ shift) as Ep by (rewrite Z.pow_add_r by lia; lia).
    replace (acc + zz * 2 ^ shift) with (acc + b * 2 ^ shift + q * 2 ^ (shift + 7)) by (rewrite Ep; nia).
    assert (q < 2 ^ (7 * Z.of_nat fuel)) as Hql.
    { apply Z.div_lt_upper_bound; [lia|]. change 128 with (2 ^ 7). rewrite <-Z.pow_add_r by lia.
      eapply Z.lt_le_trans; [apply Hzz|]. apply Z.pow_le_mono_r; lia. }
    apply IH; [|lia|lia|rewrite Ep; nia|cbn in Hlen; lia].
    destruct fuel; [|lia]. cbn in Hql. lia.
Qed.

Lemma reads_varint v : - 2 ^ 63 <= v < 2 ^ 63 → reads r_varint v (w_varint v).
Proof.
  intros Hv pre post. unfold r_varint, w_varint.
  pose proof (zigzag_range v) as Hz.
  set (w := varint_groups 10 (zigzag v)).
  assert (length w <= S (length (pre ++ w ++ post)))%nat as Hlen by (rewrite !length_app; lia).
  revert Hlen. generalize (S (length (pre ++ w ++ post))) as fuel. intros fuel Hlen.
  pose proof (reads_groups 10 fuel (zigzag v) 0 0 ltac:(lia) ltac:(lia) ltac:(lia) ltac:(lia) Hlen) as H.
  fold w in H. replace (0 + zigzag v * 2 ^ 0) with (zigzag v) in H by lia.
  pose proof (reads_map _ unzigzag _ _ H pre post) as E. rewrite unzigzag_zigzag in E by done. exact E.
Qed.

(** ** CRC-32C is the bitwise division *)

(** One bit of the reflected division, and eight for every byte. *)
Definition crc_bit (c : Z) : Z := if Z.odd c then Z.lxor CASTAGNOLI (Z.shiftr c 1) else Z.shiftr c 1.
Definition crc_reference (buf : bytes) : Z :=
  Z.lxor (foldl (λ crc b, Nat.iter 8 crc_bit (Z.lxor crc b)) 4294967295 (code <$> buf)) 4294967295.

(** Arithmetic with divisions by constants. *)
Ltac divlia := Z.to_euclidean_division_equations; lia.

Lemma crc_bit_linear a b : 0 <= a → 0 <= b → crc_bit (Z.lxor a b) = Z.lxor (crc_bit a) (crc_bit b).
Proof.
  intros Ha Hb. unfold crc_bit. rewrite Z.shiftr_lxor.
  rewrite <-!Z.bit0_odd, Z.lxor_spec, !Z.bit0_odd.
  destruct (Z.odd a), (Z.odd b); cbn [xorb]; apply Z.bits_inj'; intros i Hi; rewrite !Z.lxor_spec;
    destruct (Z.testbit CASTAGNOLI i), (Z.testbit (Z.shiftr a 1) i), (Z.testbit (Z.shiftr b 1) i); done.
Qed.

Lemma lxor_bound n a b : 0 <= n → 0 <= a < 2 ^ n → 0 <= b < 2 ^ n → 0 <= Z.lxor a b < 2 ^ n.
Proof.
  intros Hn Ha Hb. assert (Z.lxor a b = Z.lxor a b mod 2 ^ n) as ->; [|apply Z.mod_pos_bound; lia].
  rewrite <-Z.land_ones by lia. apply Z.bits_inj'. intros i Hi.
  rewrite <-(Z.mod_small a (2 ^ n)), <-(Z.mod_small b (2 ^ n)), <-!Z.land_ones by lia.
  rewrite ?Z.land_spec, ?Z.lxor_spec, ?Z.land_spec.
  by destruct (Z.testbit a i), (Z.testbit b i), (Z.testbit (Z.ones n) i).
Qed.

Lemma crc_bit_bound c : 0 <= c < 2 ^ 32 → 0 <= crc_bit c < 2 ^ 32.
Proof.
  intros Hc. unfold crc_bit.
  assert (0 <= Z.shiftr c 1 < 2 ^ 32) as Hs.
  { rewrite Z.shiftr_div_pow2 by lia. change (2 ^ 1) with 2. divlia. }
  destruct (Z.odd c); [|done]. apply lxor_bound; [lia| |done]. unfold CASTAGNOLI. lia.
Qed.

Lemma iter_bound n c : 0 <= c < 2 ^ 32 → 0 <= Nat.iter n crc_bit c < 2 ^ 32.
Proof. intros Hc. induction n; [done|]. by apply crc_bit_bound. Qed.

Lemma iter_linear n a b :
  0 <= a < 2 ^ 32 → 0 <= b < 2 ^ 32 →
  Nat.iter n crc_bit (Z.lxor a b) = Z.lxor (Nat.iter n crc_bit a) (Nat.iter n crc_bit b).
Proof.
  intros Ha Hb. induction n as [|n IH]; [done|]. rewrite !Nat.iter_succ, IH.
  apply crc_bit_linear; by apply iter_bound.
Qed.

(** Zero bits are shifted out. *)
Lemma iter_shifted n : ∀ h, 0 <= h → Nat.iter n crc_bit (h * 2 ^ Z.of_nat n) = h.
Proof.
  induction n as [|n IH]; intros h Hh; [cbn; lia|]. rewrite Nat.iter_succ_r.
  rewrite Nat2Z.inj_succ, Z.pow_succ_r by lia. unfold crc_bit at 2.
  replace (h * (2 * 2 ^ Z.of_nat n)) with (2 * (h * 2 ^ Z.of_nat n)) by lia.
  assert (Z.odd (2 * (h * 2 ^ Z.of_nat n)) = false) as -> by (rewrite Z.odd_mul; done).
  rewrite Z.shiftr_div_pow2 by lia. change (2 ^ 1) with 2. rewrite Z.mul_comm, Z.div_mul by lia. by apply IH.
Qed.

Lemma iter8_split c : 0 <= c < 2 ^ 32 →
  Nat.iter 8 crc_bit c = Z.lxor (Nat.iter 8 crc_bit (Z.land c 255)) (Z.shiftr c 8).
Proof.
  intros Hc. assert (Z.land c 255 = c mod 256) as -> by exact (Z.land_ones c 8 ltac:(lia)).
  assert (Z.shiftr c 8 = c / 256) as -> by exact (Z.shiftr_div_pow2 c 8 ltac:(lia)).
  pose proof (Z.div_mod c 256 ltac:(lia)). pose proof (Z.mod_pos_bound c 256 ltac:(lia)).
  assert (0 <= c / 256) as Hd by divlia.
  assert (c = Z.lxor (c mod 256) (c / 256 * 2 ^ Z.of_nat 8)) as E.
  { pose proof (lor_shifted (c mod 256) (c / 256) 8 ltac:(lia) ltac:(lia) ltac:(lia)) as El.
    rewrite Z.shiftl_mul_pow2 in El by lia. change (2 ^ Z.of_nat 8) with (2 ^ 8).
    rewrite <-Z.add_nocarry_lxor; [change (2 ^ 8) with 256; lia|]. 
    change (c mod 256) with (c mod 2 ^ 8). rewrite <-Z.land_ones, <-Z.shiftl_mul_pow2 by lia.
    apply Z.bits_inj'. intros i Hi. rewrite !Z.land_spec, Z.bits_0. destruct (Z.lt_ge_cases i 8).
    - by rewrite (Z.shiftl_spec_low (c / 256) 8 i), andb_false_r by lia.
    - by rewrite (Z.ones_spec_high 8 i), andb_false_r by lia. }
  rewrite E at 1. rewrite iter_linear; [by rewrite iter_shifted by done|lia|].
  change (2 ^ Z.of_nat 8) with 256. lia.
Qed.

Lemma to_uint32_odd z : Z.odd (to_uint32 z) = Z.odd z.
Proof.
  unfold to_uint32. rewrite <-!Z.bit0_odd. by rewrite Z.mod_pow2_bits_low by lia.
Qed.

Lemma table_step_bit c : to_uint32 (table_step c) = crc_bit (to_uint32 c).
Proof.
  unfold table_step, crc_bit. rewrite to_uint32_odd.
  assert (Z.land c 1 = c mod 2) as -> by exact (Z.land_ones c 1 ltac:(lia)).
  rewrite Zmod_odd. pose proof (Z.mod_pos_bound c (2 ^ 32) ltac:(lia)) as Hc. fold (to_uint32 c) in Hc.
  assert (to_uint32 (Z.shiftr (to_uint32 c) 1) = Z.shiftr (to_uint32 c) 1) as Hs.
  { apply to_uint32_small. rewrite Z.shiftr_div_pow2 by lia. change (2 ^ 1) with 2. divlia. }
  destruct (Z.odd c); cbn [Z.eqb]; [|done]. by rewrite to_uint32_xor, Hs.
Qed.

Lemma table_entry n : (n < 256)%nat → CRC32C_TABLE !!! n = Nat.iter 8 crc_bit (Z.of_nat n).
Proof.
  intros Hn. unfold CRC32C_TABLE. apply list_lookup_total_correct. rewrite list_lookup_fmap, lookup_seq_lt by done.
  cbn [fmap option_map option_fmap]. f_equal. rewrite Nat.add_0_l.
  rewrite <-(to_uint32_small (Z.of_nat n)) at 2 by lia. generalize (Z.of_nat n) as z. intros z.
  generalize 8%nat as k. induction k as [|k IH]; [done|]. by rewrite !Nat.iter_succ, table_step_bit, IH.
Qed.

Lemma crc_step_bits crc b : 0 <= crc < 2 ^ 32 → 0 <= b < 256 →
  crc_step crc b = Nat.iter 8 crc_bit (Z.lxor crc b).
Proof.
  intros Hcrc Hb. assert (0 <= Z.lxor crc b < 2 ^ 32) as Hx by (apply lxor_bound; lia).
  assert (Z.land (js_xor crc b) 255 = Z.land (Z.lxor crc b) 255) as El.
  { assert (to_uint32 (js_xor crc b) = Z.lxor crc b) as <- by (rewrite to_uint32_xor, !to_uint32_small by lia; done).
    unfold to_uint32. rewrite <-Z.land_ones by lia. change 255 with (Z.ones 8).
    apply Z.bits_inj'. intros i Hi. rewrite !Z.land_spec. destruct (Z.lt_ge_cases i 8).
    - by rewrite (Z.ones_spec_low 32 i), andb_true_r by lia.
    - by rewrite (Z.ones_spec_high 8 i), !andb_false_r by lia. }
  unfold crc_step. rewrite El. rewrite (to_uint32_small crc) by done.
  assert (0 <= Z.land (Z.lxor crc b) 255 < 256) as Hl.
  { assert (Z.land (Z.lxor crc b) 255 = Z.lxor crc b mod 256) as -> by exact (Z.land_ones (Z.lxor crc b) 8 ltac:(lia)). divlia. }
  rewrite table_entry, Z2Nat.id by lia.
  rewrite to_uint32_xor, (to_uint32_small (Nat.iter _ _ _)) by (apply iter_bound; lia).
  rewrite (iter8_split (Z.lxor crc b)) by done. f_equal.
  rewrite Z.shiftr_lxor. assert (Z.shiftr b 8 = 0) as -> by (rewrite Z.shiftr_div_pow2 by lia; apply Z.div_small; lia).
  rewrite Z.lxor_0_r. apply to_uint32_small. rewrite Z.shiftr_div_pow2 by lia. change (2 ^ 8) with 256. divlia.
Qed.

Lemma crc_loop l : ∀ crc, 0 <= crc < 2 ^ 32 → Forall (λ b, 0 <= b < 256) l →
  foldl crc_step crc l = foldl (λ crc b, Nat.iter 8 crc_bit (Z.lxor crc b)) crc l ∧
  0 <= foldl crc_step crc l < 2 ^ 32.
Proof.
  induction l as [|b l IH]; intros crc Hcrc Hl; [done|]. apply Forall_cons in Hl as [Hb Hl].
  cbn [foldl]. rewrite crc_step_bits by done. apply IH; [|done]. apply iter_bound, lxor_bound; lia.
Qed.

Lemma crc_exact buf : crc32c buf = crc_reference buf.
Proof.
  unfold crc32c, crc_reference. destruct (crc_loop (code <$> buf) 4294967295) as [<- Hb]; [lia| |].
  - apply Forall_fmap, Forall_forall. intros c _. cbn. pose proof (code_range c). lia.
  - by rewrite to_uint32_xor, !to_uint32_small by lia.
Qed.

(** ** Properties *)

(** The table-driven checksum is the bitwise division by the Castagnoli polynomial, for
    every buffer: the signed and unsigned views of JavaScript numbers do not show. *)
Theorem crc32c_is_crc (buf : bytes) : crc32c buf = crc_reference buf ∧ 0 <= crc32c buf < 2 ^ 32.
Proof. split; [apply crc_exact|]. unfold crc32c, to_uint32. apply Z.mod_pos_bound. lia. Qed.

Lemma varint_groups_length fuel : ∀ z, (length (varint_groups fuel z) <= fuel)%nat.
Proof.
  induction fuel as [|fuel IH]; intros z; cbn [varint_groups]; [done|].
  case_match; cbn [length]; [lia|]. pose proof (IH (Z.shiftr z 7)). lia.
Qed.

(** a varint of 64 bits takes at most ten bytes and is read back wherever it is. *)
Theorem varint_roundtrip (v : Z) (pre post : bytes) (Hv : - 2 ^ 63 <= v < 2 ^ 63) :
  r_varint (pre ++ w_varint v ++ post) (len pre) = Ok (v, len pre + len (w_varint v)) ∧
  len (w_varint v) <= 10.
Proof.
  split; [by apply reads_varint|]. pose proof (varint_groups_length 10 (zigzag v)). unfold len, w_varint. lia.
Qed.

Lemma varint_roundtrip_witness :
  r_varint ([byte 9] ++ w_varint (- 2 ^ 63) ++ [byte 7]) 1 = Ok (- 2 ^ 63, 11).
Proof.
  pose proof (varint_roundtrip (- 2 ^ 63) [byte 9] [byte 7] ltac:(lia)) as [H _]. exact H.
Defined.
