(* ===== verification/KafkaRecords.v ===== *)
(** * Kafka: record batches

    Models src/packages/core/src/transports/kafka/recordbatch.ts: the encoder of one
    uncompressed batch (format 2), and the decoder of what a fetch returns, a sequence of
    batches of which the last one can be cut.  [Date.now()] is an argument. *)

From Stdlib Require Import Ascii String.
From S2P Require Import Prelude JsText JsInt Bytes KafkaWire.

Open Scope Z_scope.
#[local] Open Scope list_scope.

#[local] Abbreviation bytes := (list ascii) (only parsing).
#[local] Abbreviation res := (result range_error).

Record KafkaRecord : Type := {
  key : option bytes; value : option bytes; offset : option Z; timestamp : option Z;
}.

Definition MAGIC : Z := 2.

Record BatchOptions : Type := { producerId : Z; producerEpoch : Z; baseSequence : Z }.

(** ** Encoder *)

Definition w_nullable (b : option bytes) : bytes :=
  match b with None => w_varint (-1) | Some b => w_varint (len b) ++ b end.

Definition encode_record (i : Z) (r : KafkaRecord) : res bytes :=
  attributes ← w_int8 0;
  let body := attributes ++ w_varint 0 ++ w_varint i ++ w_nullable (key r) ++ w_nullable (value r) ++ w_varint 0 in
  Ok (w_varint (len body) ++ body).
Fixpoint encode_records (i : Z) (rs : list KafkaRecord) : res bytes :=
  match rs with
  | [] => Ok []
  | r :: rs => b ← encode_record i r; rest ← encode_records (i + 1) rs; Ok (b ++ rest)
  end.

(** What the checksum covers. *)
Definition after_crc (now : Z) (opts : BatchOptions) (rs : list KafkaRecord) : res bytes :=
  records ← encode_records 0 rs;
  attributes ← w_int16 0;
  lastOffsetDelta ← w_int32 (Z.of_nat (length rs) - 1);
  firstTimestamp ← w_int64 now;
  maxTimestamp ← w_int64 now;
  pid ← w_int64 (producerId opts);
  epoch ← w_int16 (producerEpoch opts);
  sequence ← w_int32 (baseSequence opts);
  count ← w_int32 (Z.of_nat (length rs));
  Ok (attributes ++ lastOffsetDelta ++ firstTimestamp ++ maxTimestamp ++ pid ++ epoch ++ sequence ++
      count ++ records).

Definition encodeRecordBatch (now : Z) (opts : BatchOptions) (rs : list KafkaRecord) : res bytes :=
  rest ← after_crc now opts rs;
  epoch ← w_int32 (-1);
  magic ← w_int8 MAGIC;
  let body := epoch ++ magic ++ w_uint32 (crc32c rest) ++ rest in
  baseOffset ← w_int64 0;
  batchLength ← w_int32 (len body);
  Ok (baseOffset ++ batchLength ++ body).

(** ** Decoder *)

Definition r_nullable : reader (option bytes) :=
  n ← r_varint;
  if n <? 0 then mret None else b ← remaining n; _ ← skip n; mret (Some b).
Definition skip_nullable : reader unit :=
  n ← r_varint; if 0 <=? n then skip n else mret tt.
Definition skip_record_header : reader unit := _ ← skip_nullable; skip_nullable.

Definition read_record (baseOffset firstTimestamp : Z) : reader KafkaRecord :=
  _ ← r_varint;
  _ ← r_int8;
  tsDelta ← r_varint;
  offsetDelta ← r_varint;
  k ← r_nullable;
  v ← r_nullable;
  headerCount ← r_varint;
  _ ← read_times skip_record_header (Z.to_nat headerCount);
  mret {| key := k; value := v; offset := Some (baseOffset + offsetDelta);
          timestamp := Some (firstTimestamp + tsDelta) |}.

(** Magic, first timestamp and number of records. *)
Definition batch_header : reader (Z * Z * Z) :=
  _ ← r_int32;
  magic ← r_int8;
  _ ← r_uint32;
  _ ← r_int16;
  _ ← r_int32;
  firstTimestamp ← r_int64;
  _ ← r_int64;
  _ ← r_int64;
  _ ← r_int16;
  _ ← r_int32;
  count ← r_int32;
  mret (magic, firstTimestamp, count).

Definition read_batch (baseOffset : Z) : reader (list KafkaRecord) :=
  h ← batch_header;
  let '(magic, firstTimestamp, count) := h in
  if negb (magic =? MAGIC) then mret []
  else read_times (read_record baseOffset firstTimestamp) (Z.to_nat count).

Fixpoint decode_from (fuel : nat) (buf : bytes) (off : Z) : res (list KafkaRecord) :=
  match fuel with
  | O => Ok []
  | S fuel =>
      if off + 12 <=? len buf then
        baseOffset ← r_int64 buf off;
        batchLength ← r_int32 buf (off + 8);
        let batchEnd := off + 12 + batchLength.1 in
        if (batchLength.1 <=? 0) || (len buf <? batchEnd) then Ok []
        else
          records ← read_batch baseOffset.1 (subarray buf (off + 12) batchEnd) 0;
          rest ← decode_from fuel buf batchEnd;
          Ok (records.1 ++ rest)
      else Ok []
  end.
Definition decodeRecordBatches (buf : bytes) : res (list KafkaRecord) := decode_from (S (length buf)) buf 0.

(** ** Round trip of records *)

Lemma reads_nullable b : len (w_nullable b) < 2 ^ 63 → reads r_nullable b (w_nullable b).
Proof.
  intros Hl. unfold r_nullable, w_nullable in *. destruct b as [b|].
  - rewrite len_app in Hl. pose proof (len_nonneg b). pose proof (len_nonneg (w_varint (len b))).
    apply (reads_bind _ _ (len b)); [by apply reads_varint; lia|].
    destruct (Z.ltb_spec (len b) 0); [lia|]. intros pre post.
    pose proof (reads_remaining b pre post) as E. revert E. unfold mbind, cursor_bind, remaining, skip, mret, cursor_ret.
    intros [= ->]. done.
  - rewrite <-(app_nil_r (w_varint (-1))). apply (reads_bind _ _ (-1)); [by apply reads_varint|apply reads_ret].
Qed.

Definition decoded (base now i : Z) (r : KafkaRecord) : KafkaRecord :=
  {| key := key r; value := value r; offset := Some (base + i); timestamp := Some now |}.

Lemma reads_record base now i r w :
  0 <= i < 2 ^ 63 → len w < 2 ^ 63 → encode_record i r = Ok w →
  reads (read_record base now) (decoded base now i r) w.
Proof.
  intros Hi Hl. unfold encode_record. change (w_int8 0) with (Ok (E:=range_error) [byte 0]). cbn [mbind result_bind].
  set (body := [byte 0] ++ _). intros <-%Ok_inj. rewrite len_app in Hl.
  pose proof (len_nonneg (w_varint (len body))). pose proof (len_nonneg body).
  unfold read_record. apply (reads_bind _ _ (len body)); [by apply reads_varint; lia|].
  assert (len body < 2 ^ 63) as Hb by lia. clear Hl. unfold body in Hb |- *. rewrite !len_app in Hb.
  assert (len [byte 0] = 1) as E1 by done.
  pose proof (len_nonneg (w_varint i)). pose proof (len_nonneg (w_nullable (key r))).
  pose proof (len_nonneg (w_nullable (value r))).
  assert (∀ v, 0 <= len (w_varint v)) as Hv by (intros; apply len_nonneg).
  apply (reads_bind _ _ 0); [by apply (reads_int 1); [lia|]|].
  apply (reads_bind _ _ 0); [by apply reads_varint|]. apply (reads_bind _ _ i); [by apply reads_varint; lia|].
  apply (reads_bind _ _ (key r)); [apply reads_nullable; pose proof (Hv 0); lia|].
  apply (reads_bind _ _ (value r)); [apply reads_nullable; pose proof (Hv 0); lia|].
  rewrite <-(app_nil_r (w_varint 0)). apply (reads_bind _ _ 0); [by apply reads_varint|].
  change (Z.to_nat 0) with 0%nat. cbn [read_times].
  intros pre post. unfold mbind, cursor_bind, mret, cursor_ret, decoded. rewrite !Z.add_0_r. done.
Qed.

Fixpoint decoded_all (base now i : Z) (rs : list KafkaRecord) : list KafkaRecord :=
  match rs with [] => [] | r :: rs => decoded base now i r :: decoded_all base now (i + 1) rs end.

Lemma reads_records base now rs : ∀ i w,
  0 <= i → i + Z.of_nat (length rs) < 2 ^ 63 → len w < 2 ^ 63 → encode_records i rs = Ok w →
  reads (read_times (read_record base now) (length rs)) (decoded_all base now i rs) w.
Proof.
  induction rs as [|r rs IH]; intros i w Hi Hn Hl; cbn [encode_records decoded_all length read_times].
  - intros <-%Ok_inj. apply reads_ret.
  - intros (b & Hb & (rest & Hr & <-%Ok_inj)%result_bind_ok)%result_bind_ok. cbn [length] in Hn.
    rewrite len_app in Hl. pose proof (len_nonneg b). pose proof (len_nonneg rest).
    eapply reads_bind; [eapply reads_record; [| |exact Hb]; lia|].
    apply (reads_map _ (λ l, decoded base now i r :: l)). apply IH; [lia|lia|lia|done].
Qed.

(** ** Round trip of batches *)

(** What a broker stores: the offset that it assigns, in place of the first eight bytes. *)
Definition assign (base : Z) (w : bytes) : bytes := be_split 8 (base mod 2 ^ 64) ++ drop 8 w.

(** An encoded batch, part by part. *)
Lemma encode_parts now opts rs w :
  encodeRecordBatch now opts rs = Ok w →
  ∃ head records, w = be_split 8 0 ++ be_split 4 (len (head ++ records)) ++ head ++ records ∧
    len (head ++ records) < 2 ^ 31 ∧ 0 < len head ∧ Z.of_nat (length rs) < 2 ^ 31 ∧
    encode_records 0 rs = Ok records ∧
    reads batch_header (MAGIC, now, Z.of_nat (length rs)) head.
Proof.
  unfold encodeRecordBatch, after_crc.
  intros (rest & Hrest & (epoch & Hepoch & (magic & Hmagic & (bo & Hbo & (bl & Hbl & <-%Ok_inj)
    %result_bind_ok)%result_bind_ok)%result_bind_ok)%result_bind_ok)%result_bind_ok.
  apply result_bind_ok in Hrest as (records & Hrec & Hrest).
  apply result_bind_ok in Hrest as (a1 & H1 & Hrest). apply result_bind_ok in Hrest as (a2 & H2 & Hrest).
  apply result_bind_ok in Hrest as (a3 & H3 & Hrest). apply result_bind_ok in Hrest as (a4 & H4 & Hrest).
  apply result_bind_ok in Hrest as (a5 & H5 & Hrest). apply result_bind_ok in Hrest as (a6 & H6 & Hrest).
  apply result_bind_ok in Hrest as (a7 & H7 & Hrest). apply result_bind_ok in Hrest as (a8 & H8 & Hrest).
  apply Ok_inj in Hrest. set (crc := w_uint32 (crc32c rest)) in *.
  set (head := epoch ++ magic ++ crc ++ a1 ++ a2 ++ a3 ++ a4 ++ a5 ++ a6 ++ a7 ++ a8).
  assert (epoch ++ magic ++ crc ++ rest = head ++ records) as E.
  { rewrite <-Hrest. unfold head. by rewrite <-!(assoc_L (++)). }
  rewrite E in Hbl |- *. apply write_int_ok in Hbl as [Hbl ->]. apply write_int_ok in Hbo as [_ ->].
  exists head, records. pose proof (len_nonneg (head ++ records)).
  change (2 ^ (8 * Z.of_nat 4 - 1)) with (2 ^ 31) in Hbl.
  split; [rewrite (Z.mod_small (len _)) by (change (256 ^ Z.of_nat 4) with (2 ^ 32); lia); done|].
  split; [lia|]. split.
  { unfold head. rewrite len_app, (len_write_int _ _ _ Hepoch). pose proof (len_nonneg (magic ++ crc ++ a1 ++ a2 ++ a3 ++ a4 ++ a5 ++ a6 ++ a7 ++ a8)). lia. }
  split; [pose proof (proj1 (write_int_ok _ _ _) H8); lia|].
  split; [done|]. unfold batch_header, head.
  eapply reads_bind; [by apply reads_int; [lia|]|]. eapply reads_bind; [by apply reads_int; [lia|]|].
  eapply reads_bind; [apply reads_uint, Z.mod_pos_bound; lia|].
  do 7 (eapply reads_bind; [by apply reads_int; [lia|]|]).
  apply (reads_map _ (λ n, (MAGIC, now, n))). by apply reads_int; [lia|].
Qed.

Lemma reads_whole {A} (r : reader A) a w : reads r a w → r w 0 = Ok (a, len w).
Proof. intros H. specialize (H [] []). rewrite app_nil_r in H. exact H. Qed.

(** A stored batch: its two length fields, and the rest, which is read as its records. *)
Lemma assigned_parts base now opts rs w :
  encodeRecordBatch now opts rs = Ok w →
  ∃ body, assign base w = be_split 8 (base mod 2 ^ 64) ++ be_split 4 (len body) ++ body ∧
    0 < len body < 2 ^ 31 ∧ len w = 12 + len body ∧
    read_batch base body 0 = Ok (decoded_all base now 0 rs, len body).
Proof.
  intros (head & records & -> & Hl & Hh & Hn & Hrec & Hhead)%encode_parts. exists (head ++ records).
  pose proof (len_nonneg head). pose proof (len_nonneg records).
  split; [unfold assign; by rewrite drop_app_length'|].
  split; [rewrite len_app in *; lia|]. split; [rewrite !len_app, !len_be_split; lia|].
  apply reads_whole. unfold read_batch. eapply reads_bind; [exact Hhead|]. cbn [negb Z.eqb MAGIC Pos.eqb].
  rewrite Nat2Z.id. rewrite len_app in Hl. apply reads_records; [lia|lia|lia|done].
Qed.

Lemma r_int64_at pre base rest : - 2 ^ 63 <= base < 2 ^ 63 →
  r_int64 (pre ++ be_split 8 (base mod 2 ^ 64) ++ rest) (len pre) = Ok (base, len pre + 8).
Proof.
  intros Hb. apply (reads_int 8 base (be_split 8 (base mod 2 ^ 64)) ltac:(lia) (proj2 (write_int_ok 8 base _) (conj Hb eq_refl)) pre rest).
Qed.

Lemma r_int32_at pre n rest : 0 <= n < 2 ^ 31 →
  r_int32 (pre ++ be_split 4 n ++ rest) (len pre) = Ok (n, len pre + 4).
Proof.
  intros Hn. assert (w_int32 n = Ok (be_split 4 n)) as Hw.
  { apply write_int_ok. split; [lia|]. by rewrite Z.mod_small by lia. }
  exact (reads_int 4 n _ ltac:(lia) Hw pre rest).
Qed.

Lemma decode_stored fuel pre base now opts rs w post :
  encodeRecordBatch now opts rs = Ok w → - 2 ^ 63 <= base < 2 ^ 63 →
  decode_from (S fuel) (pre ++ assign base w ++ post) (len pre) =
  rest ← decode_from fuel (pre ++ assign base w ++ post) (len (pre ++ assign base w));
  Ok (decoded_all base now 0 rs ++ rest).
Proof.
  intros Hw Hb. destruct (assigned_parts base now opts rs w Hw) as (body & Ea & Hl & _ & Hread).
  assert (len (assign base w) = 12 + len body) as Elen by (rewrite Ea, !len_app, !len_be_split; lia).
  cbn [decode_from]. rewrite !len_app, Elen. pose proof (len_nonneg pre). pose proof (len_nonneg post).
  destruct (Z.leb_spec (len pre + 12) (len pre + (12 + len body + len post))); [|lia].
  rewrite Ea, <-!(assoc_L (++)), r_int64_at by done. cbn [mbind result_bind].
  set (h := be_split 8 (base mod 2 ^ 64)).
  assert (r_int32 (pre ++ h ++ be_split 4 (len body) ++ body ++ post) (len pre + 8) = Ok (len body, len pre + 8 + 4)) as ->.
  { pose proof (r_int32_at (pre ++ h) (len body) (body ++ post) ltac:(lia)) as E.
    rewrite <-(assoc_L (++)), len_app in E. exact E. }
  cbn [mbind result_bind fst snd].
  destruct (Z.leb_spec (len body) 0); [lia|].
  destruct (Z.ltb_spec (len pre + (12 + len body + len post)) (len pre + 12 + len body)); [lia|]. cbn [orb].
  assert (subarray (pre ++ h ++ be_split 4 (len body) ++ body ++ post) (len pre + 12) (len pre + 12 + len body) = body) as ->.
  { pose proof (subarray_middle (pre ++ h ++ be_split 4 (len body)) body post) as E.
    rewrite !len_app, !len_be_split, <-!(assoc_L (++)) in E. unfold h in E at 2. rewrite len_be_split in E.
    replace (len pre + (Z.of_nat 8 + Z.of_nat 4)) with (len pre + 12) in E by lia. exact E. }
  rewrite Hread. cbn [fst mbind result_bind].
  by replace (len pre + 12 + len body) with (len pre + (12 + len body)) by lia.
Qed.

(** A batch that is cut ends the decoding. *)
Lemma decode_cut fuel pre base now opts rs w n :
  encodeRecordBatch now opts rs = Ok w → - 2 ^ 63 <= base < 2 ^ 63 → (n < length w)%nat →
  decode_from fuel (pre ++ take n (assign base w)) (len pre) = Ok [].
Proof.
  intros Hw Hb Hn. destruct fuel as [|fuel]; [done|].
  destruct (assigned_parts base now opts rs w Hw) as (body & Ea & Hl & Hlen & _).
  cbn [decode_from]. rewrite !len_app.
  assert (length (assign base w) = length w) as El.
  { assert (len (assign base w) = len w) as E by (rewrite Ea, !len_app, !len_be_split; lia). unfold len in E. lia. }
  assert (len (take n (assign base w)) = Z.of_nat n) as En by (unfold len; rewrite length_take; lia).
  rewrite En. destruct (Z.leb_spec (len pre + 12) (len pre + Z.of_nat n)); [|done].
  set (h := be_split 8 (base mod 2 ^ 64)) in *.
  assert (take n (assign base w) = h ++ be_split 4 (len body) ++ take (n - 12) body) as ->.
  { assert (length h = 8%nat) as Hh by apply be_split_length.
    rewrite Ea, !take_app, Hh, be_split_length. f_equal; [apply take_ge; lia|].
    f_equal; [apply take_ge; rewrite be_split_length; lia|]. f_equal. lia. }
  assert (r_int64 (pre ++ h ++ be_split 4 (len body) ++ take (n - 12) body) (len pre) = Ok (base, len pre + 8)) as ->
    by by apply r_int64_at.
  cbn [mbind result_bind].
  assert (r_int32 (pre ++ h ++ be_split 4 (len body) ++ take (n - 12) body) (len pre + 8) = Ok (len body, len pre + 8 + 4)) as ->.
  { pose proof (r_int32_at (pre ++ h) (len body) (take (n - 12) body) ltac:(lia)) as E.
    rewrite <-(assoc_L (++)), len_app in E. exact E. }
  cbn [mbind result_bind fst snd]. destruct (Z.ltb_spec (len pre + Z.of_nat n) (len pre + 12 + len body)); [by rewrite orb_true_r|].
  unfold len in *. lia.
Qed.

(** ** Properties *)

(** A batch with the offset that the broker gives it. *)
Record stored : Type := { at_ : Z; now_ : Z; with_ : BatchOptions; records_ : list KafkaRecord }.
Definition stored_as (b : stored) (w : bytes) : Prop :=
  - 2 ^ 63 <= at_ b < 2 ^ 63 ∧ ∃ e, encodeRecordBatch (now_ b) (with_ b) (records_ b) = Ok e ∧ w = assign (at_ b) e.
Definition stored_records (b : stored) : list KafkaRecord := decoded_all (at_ b) (now_ b) 0 (records_ b).

Lemma decode_all last n e bs ws : ∀ fuel pre,
  Forall2 stored_as bs ws → - 2 ^ 63 <= at_ last < 2 ^ 63 →
  encodeRecordBatch (now_ last) (with_ last) (records_ last) = Ok e → (n < length e)%nat →
  (length bs < fuel)%nat →
  decode_from fuel (pre ++ mjoin ws ++ take n (assign (at_ last) e)) (len pre) = Ok (mjoin (stored_records <$> bs)).
Proof.
  intros fuel pre H. revert fuel pre. induction H as [|b w bs ws (Hb & e' & He' & ->) _ IH]; intros fuel pre Hlast He Hn Hf.
  - by eapply decode_cut.
  - destruct fuel as [|fuel]; [cbn in Hf; lia|].
    change (mjoin (assign (at_ b) e' :: ws)) with (assign (at_ b) e' ++ mjoin ws). rewrite <-(assoc_L (++)).
    rewrite (decode_stored fuel pre (at_ b) (now_ b) (with_ b) (records_ b) e') by done.
    rewrite (assoc_L (++)), IH by (done || cbn in Hf; lia). done.
Qed.

(** From any sequence of encoded batches, at whatever offsets the broker stored them, the
    decoder reads the keys and values of all records in order with their offsets and
    timestamps; a last batch that is cut anywhere is left out. *)
Theorem batches_roundtrip (bs : list stored) (ws : list bytes) (last : stored) (w : bytes) (n : nat)
    (Hbs : Forall2 stored_as bs ws) (Hlast : stored_as last w) (Hcut : (n < length w)%nat) :
  decodeRecordBatches (mjoin ws ++ take n w) = Ok (mjoin (stored_records <$> bs)).
Proof.
  destruct Hlast as (Hb & e & He & ->). unfold decodeRecordBatches.
  assert (length (assign (at_ last) e) = length e) as El.
  { destruct (assigned_parts (at_ last) _ _ _ _ He) as (body & Ea & _ & Hl & _).
    assert (len (assign (at_ last) e) = len e) as E by (rewrite Ea, !len_app, !len_be_split; lia). unfold len in E. lia. }
  apply (decode_all last n e bs ws _ [] Hbs Hb He); [lia|]. rewrite length_app.
  assert (length bs <= length (mjoin ws))%nat; [|lia]. clear -Hbs.
  induction Hbs as [|b w bs ws (_ & e & He & ->) _ IH]; [done|].
  change (mjoin (assign (at_ b) e :: ws)) with (assign (at_ b) e ++ mjoin ws).
  unfold assign. rewrite !length_app, be_split_length. cbn [length]. lia.
Qed.

Lemma read_uint_short n buf off : len buf < off + Z.of_nat n → read_uint n buf off = Throw RangeError.
Proof.
  intros H. unfold read_uint. destruct (Z.leb_spec (off + Z.of_nat n) (len buf)); [lia|]. by rewrite andb_false_r.
Qed.
Lemma read_uint_next n buf off :
  0 <= off → off + Z.of_nat n <= len buf → ∃ z, read_uint n buf off = Ok (z, off + Z.of_nat n).
Proof.
  intros H1 H2. unfold read_uint. destruct (Z.leb_spec 0 off), (Z.leb_spec (off + Z.of_nat n) (len buf)); try lia.
  by eexists.
Qed.

Lemma short_header buf : len buf < 49 → batch_header buf 0 = Throw RangeError.
Proof.
  intros H. unfold batch_header, r_int32, r_int8, r_uint32, r_int16, r_int64, read_int, mbind, cursor_bind, mret, cursor_ret.
  repeat match goal with
  | |- context [read_uint ?n buf ?off] =>
      destruct (Z.le_gt_cases (off + Z.of_nat n) (len buf)) as [?H|?H];
      [destruct (read_uint_next n buf off) as [? ->]; [lia|lia|]|by rewrite (read_uint_short n buf off) by lia]
  end. lia.
Qed.

(** Messages of an older format are meant to be skipped, but one that is shorter than the
    header of format 2 makes the whole decoding throw, before its magic is looked at. *)
Theorem short_old_message_throws (base : Z) (body rest : bytes)
    (Hb : - 2 ^ 63 <= base < 2 ^ 63) (Hl : 0 < len body < 49) :
  decodeRecordBatches (be_split 8 (base mod 2 ^ 64) ++ be_split 4 (len body) ++ body ++ rest) = Throw RangeError.
Proof.
  unfold decodeRecordBatches. cbn [decode_from]. set (h := be_split 8 (base mod 2 ^ 64)).
  set (buf := h ++ be_split 4 (len body) ++ body ++ rest).
  assert (len buf = 12 + len body + len rest) as El.
  { unfold buf, h. rewrite !len_app, !len_be_split. lia. }
  pose proof (len_nonneg rest). rewrite El. destruct (Z.leb_spec (0 + 12) (12 + len body + len rest)); [|lia].
  assert (r_int64 buf 0 = Ok (base, 8)) as -> by exact (r_int64_at [] base (be_split 4 (len body) ++ body ++ rest) Hb).
  cbn [mbind result_bind].
  assert (r_int32 buf (0 + 8) = Ok (len body, 12)) as -> by exact (r_int32_at h (len body) (body ++ rest) ltac:(lia)).
  cbn [mbind result_bind fst snd].
  destruct (Z.leb_spec (len body) 0), (Z.ltb_spec (12 + len body + len rest) (0 + 12 + len body)); try lia.
  cbn [orb].
  assert (subarray buf (0 + 12) (0 + 12 + len body) = body) as ->.
  { pose proof (subarray_middle (h ++ be_split 4 (len body)) body rest) as E. rewrite <-(assoc_L (++)) in E. exact E. }
  assert (read_batch base body 0 = Throw RangeError) as ->; [|done].
  unfold read_batch, mbind, cursor_bind. by rewrite short_header by lia.
Qed.

(** ** Witnesses *)

Definition plain : BatchOptions := {| producerId := -1; producerEpoch := -1; baseSequence := -1 |}.
Definition rec_of (k v : option bytes) : KafkaRecord := {| key := k; value := v; offset := None; timestamp := None |}.
Definition two : stored :=
  {| at_ := 41; now_ := 1700000000000; with_ := plain;
     records_ := [rec_of None (Some (byte <$> [104; 105])); rec_of (Some (byte <$> [107])) None] |}.
Definition wire_of (b : stored) : bytes :=
  match encodeRecordBatch (now_ b) (with_ b) (records_ b) with Ok e => assign (at_ b) e | Throw _ => [] end.

Lemma batches_roundtrip_witness :
  decodeRecordBatches (mjoin [wire_of two] ++ take 40 (wire_of two)) =
  Ok [{| key := None; value := Some (byte <$> [104; 105]); offset := Some 41; timestamp := Some 1700000000000 |};
      {| key := Some (byte <$> [107]); value := None; offset := Some 42; timestamp := Some 1700000000000 |}].
Proof.
  assert (stored_as two (wire_of two)) as Hs.
  { unfold stored_as, wire_of.
    destruct (encodeRecordBatch (now_ two) (with_ two) (records_ two)) as [e|] eqn:E; [|vm_compute in E; discriminate E].
    split; [cbn; lia|]. by exists e. }
  rewrite (batches_roundtrip [two] [wire_of two] two (wire_of two) 40); [reflexivity|apply Forall2_cons_2; [exact Hs|apply Forall2_nil_2]|exact Hs|].
  vm_compute. lia.
Defined.
