(* ===== verification/KafkaConnection.v ===== *)
(** * Kafka: a broker connection

    Models src/packages/core/src/transports/kafka/connection.ts: requests with their
    correlation ids, the loop that takes responses from the buffer, and the callbacks that
    wait for them.  A request is named by its caller; connecting and TLS are not modelled. *)

From Stdlib Require Import Ascii String.
From S2P Require Import Prelude JsText JsMap JsInt Bytes KafkaWire.

Open Scope Z_scope.
#[local] Open Scope list_scope.

#[local] Abbreviation bytes := (list ascii) (only parsing).

Inductive kafka_error : Type := Range | NotConnected.
Definition ranged {A} (r : result range_error A) : result kafka_error A :=
  match r with Ok a => Ok a | Throw _ => Throw Range end.

Inductive effect : Type :=
| Write (b : bytes)
| Answered (id : nat) (body : bytes).

Record connection : Type := {
  socket : bool;
  corr : Z;
  buf : bytes;
  pending : list (Z * nat);
}.

Definition new_connection : connection := {| socket := true; corr := 0; buf := []; pending := [] |}.

Section requests.
Context (clientId : bytes).

(** The correlation id is taken before the header is written, which can throw; the promise
    is only made after it. *)
Definition request (id : nat) (apiKey apiVersion : Z) (body : result range_error bytes) (c : connection) :
    list effect * connection * result kafka_error unit :=
  if negb (socket c) then ([], c, Throw NotConnected)
  else
    let c1 := {| socket := socket c; corr := corr c + 1; buf := buf c; pending := pending c |} in
    let framed :=
      k ← w_int16 apiKey; v ← w_int16 apiVersion; i ← w_int32 (corr c); cl ← w_string (Some clientId);
      b ← body;
      let all := k ++ v ++ i ++ cl ++ b in
      l ← w_int32 (len all); Ok (l ++ all) in
    match framed with
    | Throw _ => ([], c1, Throw Range)
    | Ok f =>
        ([Write f], {| socket := socket c; corr := corr c + 1; buf := buf c;
                       pending := jm_set (corr c) id (pending c) |}, Ok tt)
    end.
End requests.

(** A response and the rest of the buffer.  A negative size is not refused. *)
Definition next_response (b : bytes) : option (bytes * bytes) :=
  if len b <? 4 then None
  else
    let size := signed 4 (be_combine (take 4 b)) in
    if len b <? 4 + size then None
    else Some (subarray b 4 (4 + size), subarray b (4 + size) (len b)).

Definition set_buf (b : bytes) (c : connection) : connection :=
  {| socket := socket c; corr := corr c; buf := b; pending := pending c |}.
Definition set_pending (p : list (Z * nat)) (c : connection) : connection :=
  {| socket := socket c; corr := corr c; buf := buf c; pending := p |}.

(** One response: its callback, if there is one, is removed and called. *)
Definition answer (frame : bytes) (c : connection) : result range_error (list effect * connection) :=
  i ← r_int32 frame 0;
  match jm_get i.1 (pending c) with
  | Some id =>
      Ok ([Answered id (subarray frame 4 (len frame))], set_pending (jm_delete i.1 (pending c)) c)
  | None => Ok ([], c)
  end.

(** The loop of [_onData]; a throw leaves it with the frame already taken. *)
Fixpoint process (fuel : nat) (c : connection) : list effect * connection * bool :=
  match fuel with
  | O => ([], c, false)
  | S fuel =>
      match next_response (buf c) with
      | None => ([], c, false)
      | Some (frame, rest) =>
          let c := set_buf rest c in
          match answer frame c with
          | Throw _ => ([], c, true)
          | Ok (l, c) => let '(l', c', t) := process fuel c in (l ++ l', c', t)
          end
      end
  end.
Definition onData (chunk : bytes) (c : connection) : list effect * connection * bool :=
  let c := set_buf (buf c ++ chunk) c in process (S (length (buf c))) c.

(** The socket is destroyed; there is no handler for its end. *)
Definition close (c : connection) : connection :=
  {| socket := false; corr := corr c; buf := buf c; pending := pending c |}.

(** ** Responses on the wire *)

Definition response : Type := Z * bytes.
Definition response_ok (r : response) : Prop :=
  - 2 ^ 31 <= r.1 < 2 ^ 31 ∧ len r.2 < 2 ^ 31 - 4.
Definition frame_of (r : response) : bytes := be_split 4 (r.1 mod 2 ^ 32) ++ r.2.
Definition response_wire (r : response) : bytes := be_split 4 (len (frame_of r)) ++ frame_of r.

Lemma frame_length r : len (frame_of r) = 4 + len r.2.
Proof. unfold frame_of. by rewrite len_app, len_be_split. Qed.

Lemma next_response_wire r rest : response_ok r →
  next_response (response_wire r ++ rest) = Some (frame_of r, rest).
Proof.
  intros [_ Hl]. unfold next_response. pose proof (len_nonneg r.2). pose proof (len_nonneg rest).
  assert (take 4 (response_wire r ++ rest) = be_split 4 (len (frame_of r))) as ->.
  { unfold response_wire. rewrite <-(assoc_L (++)). by apply (take_app_length' _ _ 4). }
  assert (signed 4 (be_combine (be_split 4 (len (frame_of r)))) = len (frame_of r)) as ->.
  { rewrite frame_length, be32 by lia. unfold signed. destruct (Z.ltb_spec (4 + len r.2) (2 ^ (8 * Z.of_nat 4 - 1))); [done|].
    change (2 ^ (8 * Z.of_nat 4 - 1)) with (2 ^ 31) in *. lia. }
  assert (len (response_wire r ++ rest) = 4 + len (frame_of r) + len rest) as El.
  { unfold response_wire. rewrite !len_app, len_be_split. lia. }
  rewrite El, frame_length. destruct (Z.ltb_spec (4 + (4 + len r.2) + len rest) 4); [lia|].
  destruct (Z.ltb_spec (4 + (4 + len r.2) + len rest) (4 + (4 + len r.2))); [lia|].
  f_equal. f_equal.
  - pose proof (subarray_middle (be_split 4 (len (frame_of r))) (frame_of r) rest) as E.
    rewrite len_be_split, frame_length in E. unfold response_wire. rewrite <-(assoc_L (++)), frame_length. exact E.
  - pose proof (subarray_middle (response_wire r) rest []) as E. rewrite app_nil_r in E.
    assert (len (response_wire r) = 4 + (4 + len r.2)) as E1.
    { unfold response_wire. rewrite len_app, len_be_split, frame_length. lia. }
    rewrite E1 in E. rewrite frame_length in El. exact E.
Qed.

Lemma answer_response r c : response_ok r →
  answer (frame_of r) c =
  Ok (match jm_get r.1 (pending c) with
      | Some id => ([Answered id r.2], set_pending (jm_delete r.1 (pending c)) c)
      | None => ([], c)
      end).
Proof.
  intros [Hr _]. unfold answer.
  assert (w_int32 r.1 = Ok (be_split 4 (r.1 mod 2 ^ 32))) as Hw by by apply write_int_ok.
  pose proof (reads_int 4 r.1 _ ltac:(lia) Hw [] r.2) as E. unfold r_int32, frame_of.
  change (len []) with 0 in E. cbn [app] in E. rewrite E. cbn [mbind result_bind fst].
  assert (subarray (be_split 4 (r.1 mod 2 ^ 32) ++ r.2) 4 (len (be_split 4 (r.1 mod 2 ^ 32) ++ r.2)) = r.2) as ->.
  { pose proof (subarray_middle (be_split 4 (r.1 mod 2 ^ 32)) r.2 []) as Es.
    rewrite app_nil_r, len_be_split in Es. rewrite len_app, len_be_split. exact Es. }
  by destruct (jm_get r.1 (pending c)).
Qed.

(** The beginning of a sequence of responses holds no response, or the first one. *)
Lemma next_prefix b p rs :
  Forall response_ok rs → b ++ p = mjoin (response_wire <$> rs) →
  next_response b = None ∨
  ∃ r rs' rest, rs = r :: rs' ∧ next_response b = Some (frame_of r, rest) ∧
    b = response_wire r ++ rest ∧ rest ++ p = mjoin (response_wire <$> rs').
Proof.
  intros Hrs Hb. destruct rs as [|r rs].
  { apply app_eq_nil in Hb as [-> _]. by left. }
  apply Forall_cons in Hrs as [Hr Hrs]. rewrite fmap_cons in Hb.
  change (mjoin (response_wire r :: (response_wire <$> rs))) with
    (response_wire r ++ mjoin (response_wire <$> rs)) in Hb.
  destruct (Z.le_gt_cases (len (response_wire r)) (len b)) as [Hle|Hgt].
  - right. assert (∃ rest, b = response_wire r ++ rest) as [rest ->].
    { exists (drop (length (response_wire r)) b). rewrite <-(take_drop (length (response_wire r)) b) at 1. f_equal.
      assert (take (length (response_wire r)) (b ++ p) = response_wire r) as E by (rewrite Hb; apply take_app_length).
      rewrite take_app_le in E; [done|]. unfold len in Hle. lia. }
    exists r, rs, rest. rewrite <-(assoc_L (++)) in Hb. apply app_inv_head in Hb.
    by rewrite next_response_wire.
  - left. unfold next_response. destruct (Z.ltb_spec (len b) 4); [done|].
    assert (take 4 b = be_split 4 (len (frame_of r))) as ->.
    { rewrite <-(take_app_le b p) by (unfold len in *; lia). rewrite Hb. unfold response_wire.
      rewrite <-(assoc_L (++)). by apply (take_app_length' _ _ 4). }
    destruct Hr as [_ Hl]. pose proof (len_nonneg r.2). rewrite frame_length, be32 by lia.
    unfold signed. change (2 ^ (8 * Z.of_nat 4 - 1)) with (2 ^ 31).
    destruct (Z.ltb_spec (4 + len r.2) (2 ^ 31)); [|lia].
    unfold response_wire in Hgt. rewrite len_app, len_be_split, frame_length in Hgt.
    destruct (Z.ltb_spec (len b) (4 + (4 + len r.2))); [done|lia].
Qed.

(** What responses do to the requests that wait. *)
Fixpoint answers (rs : list response) (p : list (Z * nat)) : list effect * list (Z * nat) :=
  match rs with
  | [] => ([], p)
  | r :: rs =>
      match jm_get r.1 p with
      | Some id => let a := answers rs (jm_delete r.1 p) in (Answered id r.2 :: a.1, a.2)
      | None => answers rs p
      end
  end.

Lemma kafka_answers_app rs1 rs2 : ∀ p,
  answers (rs1 ++ rs2) p = ((answers rs1 p).1 ++ (answers rs2 (answers rs1 p).2).1, (answers rs2 (answers rs1 p).2).2).
Proof.
  induction rs1 as [|r rs1 IH]; intros p; cbn [app answers]; [exact (surjective_pairing _)|].
  destruct (jm_get r.1 p); [|apply IH]. by rewrite IH.
Qed.

Lemma process_prefix fuel : ∀ c p rs,
  (length (buf c) < fuel)%nat → Forall response_ok rs → buf c ++ p = mjoin (response_wire <$> rs) →
  ∃ rs1 rs2 rest, rs = rs1 ++ rs2 ∧ rest ++ p = mjoin (response_wire <$> rs2) ∧ next_response rest = None ∧
    process fuel c = ((answers rs1 (pending c)).1,
      set_buf rest (set_pending (answers rs1 (pending c)).2 c), false).
Proof.
  induction fuel as [|fuel IH]; intros c p rs Hf Hrs Hb; [lia|]. cbn [process].
  destruct (next_prefix (buf c) p rs Hrs Hb) as [Hn|(r & rs' & rest & -> & Hn & Hbuf & Hrest)]; rewrite Hn.
  - exists [], rs, (buf c). cbn [answers fst snd app]. split_and!; try done. by destruct c.
  - apply Forall_cons in Hrs as [Hr Hrs]. rewrite answer_response by done. cbn [pending set_buf].
    assert (length rest < length (buf c))%nat as Hlt.
    { rewrite Hbuf, length_app. unfold response_wire. rewrite length_app, be_split_length. lia. }
    destruct (jm_get r.1 (pending c)) as [id|] eqn:Eid.
    + destruct (IH (set_pending (jm_delete r.1 (pending c)) (set_buf rest c)) p rs') as
        (rs1 & rs2 & rest' & -> & H1 & H2 & E); [cbn; lia|done|done|].
      exists (r :: rs1), rs2, rest'. rewrite E. cbn [pending set_pending answers]. rewrite Eid. by split_and!.
    + destruct (IH (set_buf rest c) p rs') as (rs1 & rs2 & rest' & -> & H1 & H2 & E); [cbn; lia|done|done|].
      exists (r :: rs1), rs2, rest'. rewrite E. cbn [pending set_buf answers]. rewrite Eid. by split_and!.
Qed.

(** ** Properties *)

Definition on_chunk (s : list effect * connection * bool) (chunk : bytes) : list effect * connection * bool :=
  let '(l, c, t) := s in let '(l', c', t') := onData chunk c in (l ++ l', c', t || t').

(** However the responses of a broker are cut into chunks, and in whatever order they come,
    each is given to the request with its correlation id, once, and nothing is thrown; a
    response that nobody waits for is dropped. *)
Theorem responses_correlated (c : connection) (rs : list response) (chunks : list bytes)
    (Hbuf : buf c = []) (Hrs : Forall response_ok rs)
    (Hc : mjoin chunks = mjoin (response_wire <$> rs)) :
  foldl on_chunk ([], c, false) chunks =
  ((answers rs (pending c)).1, set_pending (answers rs (pending c)).2 c, false).
Proof.
  assert (∀ chunks p, mjoin chunks ++ p = mjoin (response_wire <$> rs) →
    ∃ rs1 rs2 rest, rs = rs1 ++ rs2 ∧ rest ++ p = mjoin (response_wire <$> rs2) ∧ next_response rest = None ∧
      foldl on_chunk ([], c, false) chunks = ((answers rs1 (pending c)).1,
        set_buf rest (set_pending (answers rs1 (pending c)).2 c), false)) as H.
  { clear Hc chunks. intros chunks. induction chunks as [|chunk chunks IH] using rev_ind; intros p Hp.
    - exists [], rs, []. split_and!; try done. cbn. rewrite <-Hbuf. by destruct c.
    - rewrite join_app in Hp. assert (mjoin [chunk] = chunk) as E1 by apply app_nil_r.
      rewrite E1, <-(assoc_L (++)) in Hp.
      destruct (IH (chunk ++ p) Hp) as (rs1 & rs2 & rest & -> & Hrest & _ & E).
      rewrite foldl_app, E. cbn [foldl on_chunk]. unfold onData. cbn [buf set_buf].
      apply Forall_app in Hrs as [_ Hrs2]. rewrite (assoc_L (++)) in Hrest.
      match goal with |- context [process ?fuel ?c1] =>
        destruct (process_prefix fuel c1 p rs2) as (rs3 & rs4 & rest' & -> & H1 & H2 & Ep) end;
        [cbn; lia|done|done|].
      rewrite Ep. exists (rs1 ++ rs3), rs4, rest'. rewrite kafka_answers_app. cbn [fst snd pending set_buf set_pending].
      split_and!; try done. by rewrite (assoc_L (++)). }
  destruct (H chunks []) as (rs1 & rs2 & rest & E & Hrest & Hn & ->); [by rewrite app_nil_r|].
  rewrite app_nil_r in Hrest. destruct rs2 as [|r rs2].
  - cbn in Hrest. subst rest. rewrite app_nil_r in E. subst rs1. by rewrite <-Hbuf; destruct c.
  - subst rs. apply Forall_app in Hrs as [_ Hrs]. apply Forall_cons in Hrs as [Hr _].
    rewrite Hrest, fmap_cons in Hn.
    change (mjoin (response_wire r :: (response_wire <$> rs2))) with
      (response_wire r ++ mjoin (response_wire <$> rs2)) in Hn. by rewrite next_response_wire in Hn.
Qed.

Lemma responses_correlated_witness :
  let c := {| socket := true; corr := 2; buf := []; pending := [(0, 10%nat); (1, 11%nat)] |} in
  let wire := mjoin (response_wire <$> [(1, [byte 7]); (0, [byte 8; byte 9])]) in
  foldl on_chunk ([], c, false) [take 3 wire; drop 3 wire] =
  ([Answered 11 [byte 7]; Answered 10 [byte 8; byte 9]], set_pending [] c, false).
Proof.
  intros c wire.
  apply (responses_correlated c [(1, [byte 7]); (0, [byte 8; byte 9])] [take 3 wire; drop 3 wire]).
  - reflexivity.
  - repeat constructor; cbn; lia.
  - cbn [mjoin list_join]. rewrite app_nil_r. apply take_drop.
Defined.
