(* ===== verification/KafkaClient.v ===== *)
(** * Kafka: the client

    Models [KafkaClient] of src/packages/core/src/transports/kafka/client.ts: the requests
    and the parsing of their responses, the cached metadata with the resolution of leaders,
    and the retry loops.

    The network is an argument: [dial] opens a connection, [alive] tells whether it still is,
    and [ask] exchanges one request on it (KafkaConnection.v), acting on a state of their
    own; pauses between attempts are steps of [pause].  Texts are given by their bytes. *)

From Stdlib Require Import Ascii String.
From S2P Require Import Prelude JsText JsMap JsInt Bytes KafkaWire KafkaRecords.

Open Scope Z_scope.
#[local] Open Scope list_scope.

#[local] Abbreviation bytes := (list ascii) (only parsing).

(** ** Data *)

Record KafkaBroker : Type := { nodeId : Z; host : bytes; port : Z }.
Record PartitionMeta : Type := { p_error : Z; partition : Z; leader : Z; replicas : list Z; isr : list Z }.
Record TopicMeta : Type := { t_error : Z; name : bytes; partitions : list PartitionMeta }.
Record ClusterMeta : Type := { brokers : list KafkaBroker; controllerId : Z; topics : list TopicMeta }.

Inductive operation : Type :=
| OpInitProducerId | OpProduce | OpFetch | OpListOffsets | OpFindCoordinator | OpOffsetCommit | OpOffsetFetch.
Inductive client_error : Type :=
| ProtocolError (code_ : Z) (op : operation)
| BadResponse                        (* a [RangeError] of the reader or the writer *)
| Unreachable                        (* no connection, or a request that failed *)
| BrokerNotFound (id : Z)
| NoLeader (topic : bytes) (partition : Z).

Definition METADATA : Z := 3.
Definition PRODUCE : Z := 0.
Definition FETCH : Z := 1.
Definition LIST_OFFSETS : Z := 2.
Definition OFFSET_COMMIT : Z := 8.
Definition OFFSET_FETCH : Z := 9.
Definition FIND_COORDINATOR : Z := 10.
Definition INIT_PRODUCER_ID : Z := 22.

(** ** Requests and responses *)

#[local] Abbreviation wres := (result range_error bytes).

Fixpoint w_strings (l : list bytes) : wres :=
  match l with [] => Ok [] | s :: l => b ← w_string (Some s); r ← w_strings l; Ok (b ++ r) end.
Definition metadata_request (ts : list bytes) : wres :=
  n ← w_int32 (Z.of_nat (length ts)); l ← w_strings ts; Ok (n ++ l).

Section utf8.
Context (utf8 : bytes → bytes).

Definition text : reader bytes := s ← r_string utf8; mret (default [] s).
Definition read_broker : reader KafkaBroker :=
  id ← r_int32; h ← text; p ← r_int32; _ ← r_string utf8; mret {| nodeId := id; host := h; port := p |}.
Definition read_partition : reader PartitionMeta :=
  e ← r_int16; p ← r_int32; l ← r_int32; rs ← r_array r_int32; is_ ← r_array r_int32;
  mret {| p_error := e; partition := p; leader := l; replicas := rs; isr := is_ |}.
(** [for (let i = 0; i < count; i++)], for a count that was read. *)
Definition read_counted {A} (r : reader A) : reader (list A) :=
  n ← r_int32; read_times r (Z.to_nat n).
Definition read_topic : reader TopicMeta :=
  e ← r_int16; n ← text; _ ← r_int8; ps ← read_counted read_partition;
  mret {| t_error := e; name := n; partitions := ps |}.
Definition metadata_response : reader ClusterMeta :=
  bs ← read_counted read_broker; c ← r_int32; ts ← read_counted read_topic;
  mret {| brokers := bs; controllerId := c; topics := ts |}.

(** The results of one partition, and of all partitions of all topics. *)
Definition per_partition {A} (r : reader A) : reader (list A) :=
  l ← read_counted (_ ← r_string utf8; read_counted r); mret (mjoin l).

Definition produce_request (topic : bytes) (p acks timeoutMs : Z) (batch : bytes) : wres :=
  a ← w_string None; b ← w_int16 acks; c ← w_int32 timeoutMs; d ← w_int32 1; e ← w_string (Some topic);
  f ← w_int32 1; g ← w_int32 p; h ← w_bytes (Some batch);
  Ok (a ++ b ++ c ++ d ++ e ++ f ++ g ++ h).
(** Error and base offset of each partition. *)
Definition produce_response : reader (list (Z * Z)) :=
  l ← per_partition (_ ← r_int32; e ← r_int16; o ← r_int64; _ ← r_int64; mret (e, o));
  _ ← r_int32; mret l.

Definition fetch_request (topic : bytes) (p maxWaitMs maxBytes fetchOffset : Z) : wres :=
  a ← w_int32 (-1); b ← w_int32 maxWaitMs; c ← w_int32 1; d ← w_int32 maxBytes; e ← w_int8 0;
  f ← w_int32 1; g ← w_string (Some topic); h ← w_int32 1; i ← w_int32 p; j ← w_int64 fetchOffset;
  k ← w_int32 maxBytes; Ok (a ++ b ++ c ++ d ++ e ++ f ++ g ++ h ++ i ++ j ++ k).

Definition list_offsets_request (topic : bytes) (p timestamp : Z) : wres :=
  a ← w_int32 (-1); b ← w_int32 1; c ← w_string (Some topic); d ← w_int32 1; e ← w_int32 p;
  f ← w_int64 timestamp; Ok (a ++ b ++ c ++ d ++ e ++ f).
Definition coordinator_response : reader (result Z KafkaBroker) :=
  err ← r_int16;
  if err =? 0 then id ← r_int32; h ← text; p ← r_int32; mret (Ok {| nodeId := id; host := h; port := p |})
  else mret (Throw err).
Definition commit_request (groupId topic : bytes) (p offset_ : Z) : wres :=
  a ← w_string (Some groupId); b ← w_int32 (-1); c ← w_string (Some []); d ← w_int64 (-1);
  e ← w_int32 1; f ← w_string (Some topic); g ← w_int32 1; h ← w_int32 p; i ← w_int64 offset_;
  j ← w_string None; Ok (a ++ b ++ c ++ d ++ e ++ f ++ g ++ h ++ i ++ j).
Definition offset_fetch_request (groupId topic : bytes) (p : Z) : wres :=
  a ← w_string (Some groupId); b ← w_int32 1; c ← w_string (Some topic); d ← w_int32 1; e ← w_int32 p;
  Ok (a ++ b ++ c ++ d ++ e).
Definition init_producer_request : wres :=
  a ← w_string None; b ← w_int32 60000; Ok (a ++ b).
End utf8.

(** ** The client *)

Section client.
Context {W : Type} (utf8 : bytes → bytes).
Context (dial : bytes → Z → W → option nat * W).
Context (alive : nat → W → bool).
Context (ask : nat → Z → Z → bytes → W → option bytes * W).
Context (pause : Z → W → W).
Context (bootstrap : list (bytes * Z)).

Record client : Type := {
  meta : option ClusterMeta;
  connections : list (bytes * Z * nat);
  world : W;
}.
Definition set_meta (m : ClusterMeta) (c : client) : client :=
  {| meta := Some m; connections := connections c; world := world c |}.
Definition set_connections (l : list (bytes * Z * nat)) (c : client) : client :=
  {| meta := meta c; connections := l; world := world c |}.
Definition set_world (w : W) (c : client) : client :=
  {| meta := meta c; connections := connections c; world := w |}.

Definition M (A : Type) : Type := client → result client_error A * client.
#[export] Instance client_ret : MRet M := λ A a c, (Ok a, c).
#[export] Instance client_bind : MBind M := λ A B f m c,
  match m c with (Ok a, c) => f a c | (Throw e, c) => (Throw e, c) end.
Definition throw {A} (e : client_error) : M A := λ c, (Throw e, c).
Definition get : M client := λ c, (Ok c, c).
Definition modify (f : client → client) : M unit := λ c, (Ok tt, f c).
Definition sleep (ms : Z) : M unit := modify (λ c, set_world (pause ms (world c)) c).
(** [try ... catch]. *)
Definition attempt {A} (m : M A) : M (result client_error A) := λ c, let '(r, c) := m c in (Ok r, c).

(** [_conn]: a connection that is alive, or a new one. *)
Definition conn (h : bytes) (p : Z) : M nat :=
  c ← get;
  let fresh : M nat :=
    match dial h p (world c) with
    | (Some k, w) => modify (λ c, set_connections (jm_set (h, p) k (connections c)) (set_world w c)) ;; mret k
    | (None, w) => modify (set_world w) ;; throw Unreachable
    end in
  match jm_get (h, p) (connections c) with
  | Some k => if alive k (world c) then mret k else fresh
  | None => fresh
  end.

Fixpoint any_of (l : list (bytes * Z)) : M nat :=
  match l with
  | [] => throw Unreachable
  | (h, p) :: l => r ← attempt (conn h p); match r with Ok k => mret k | Throw _ => any_of l end
  end.
Definition anyConn : M nat := any_of bootstrap.

(** [conn.request] and the parsing of its response, on a reader at its beginning. *)
Definition request {A} (k : nat) (api version : Z) (body : wres) (r : reader A) : M A :=
  match body with
  | Throw _ => throw BadResponse
  | Ok b =>
      c ← get;
      let '(reply, w) := ask k api version b (world c) in
      modify (set_world w) ;;
      match reply with
      | None => throw Unreachable
      | Some resp => match r resp 0 with Ok (a, _) => mret a | Throw _ => throw BadResponse end
      end
  end.

Definition metadata (ts : list bytes) : M ClusterMeta :=
  k ← anyConn;
  m ← request k METADATA 1 (metadata_request ts) (metadata_response utf8);
  modify (set_meta m) ;; mret m.

Definition find_topic (topic : bytes) (m : ClusterMeta) : option TopicMeta :=
  List.find (λ t, bool_decide (name t = topic)) (topics m).
Definition find_partition (p : Z) (t : TopicMeta) : option PartitionMeta :=
  List.find (λ q, partition q =? p) (partitions t).
Definition lookup_partition (topic : bytes) (p : Z) (m : ClusterMeta) : option PartitionMeta :=
  find_topic topic m ≫= find_partition p.

Definition brokerById (id : Z) : M KafkaBroker :=
  c ← get;
  match meta c ≫= λ m, List.find (λ b, nodeId b =? id) (brokers m) with
  | Some b => mret b
  | None => throw (BrokerNotFound id)
  end.

(** Not yet a partition to send to. *)
Definition unsettled (pm : option PartitionMeta) : bool :=
  match pm with None => true | Some p => (leader p <? 0) || negb (p_error p =? 0) end.

Fixpoint await_leader (attempts : nat) (topic : bytes) (p : Z) (pm : option PartitionMeta) :
    M (option PartitionMeta) :=
  if unsettled pm then
    match attempts with
    | O => mret pm
    | S attempts =>
        sleep 200 ;; m ← metadata [topic]; await_leader attempts topic p (lookup_partition topic p m)
    end
  else mret pm.

(** The metadata that is cached, after fetching it when there is none. *)
Definition cached (topic : bytes) : M ClusterMeta :=
  c ← get; match meta c with Some m => mret m | None => metadata [topic] end.

Definition leaderFor (topic : bytes) (p : Z) : M KafkaBroker :=
  m ← cached topic;
  m ← (match find_topic topic m with Some _ => mret m | None => metadata [topic] end);
  pm ← await_leader 25 topic p (lookup_partition topic p m);
  match pm with
  | None => throw (NoLeader topic p)
  | Some q => if leader q <? 0 then throw (NoLeader topic p) else brokerById (leader q)
  end.

(** ** Operations *)

Record ProduceOptions : Type := { acks : Z; timeoutMs : Z; batch_options : BatchOptions }.

(** The last error of the partitions, and the last offset. *)
Definition produce (now : Z) (topic : bytes) (p : Z) (records : list KafkaRecord) (o : ProduceOptions) : M Z :=
  b ← leaderFor topic p;
  k ← conn (host b) (port b);
  match encodeRecordBatch now (batch_options o) records with
  | Throw _ => throw BadResponse
  | Ok batch =>
      l ← request k PRODUCE 3 (produce_request topic p (acks o) (timeoutMs o) batch) (produce_response utf8);
      let err := foldl (λ e r, if r.1 =? 0 then e else r.1) 0 l in
      if negb (err =? 0) then throw (ProtocolError err OpProduce)
      else mret (foldl (λ _ r, r.2) (-1) l)
  end.

(** One partition of a fetch response: it throws when the partition has an error. *)
Record FetchState : Type := { f_records : list KafkaRecord; highWatermark : Z }.
Definition fetch_partition : reader (Z * Z * option bytes) :=
  _ ← r_int32; err ← r_int16; hw ← r_int64; _ ← r_int64; aborted ← r_int32;
  _ ← read_times (_ ← r_int64; r_int64) (Z.to_nat aborted);
  set_ ← r_bytes; mret (err, hw, set_).
Definition from_offset (fetchOffset : Z) (r : KafkaRecord) : bool := fetchOffset <=? default 0 (offset r).
Fixpoint fetch_results (fetchOffset : Z) (l : list (Z * Z * option bytes)) (s : FetchState) :
    result client_error FetchState :=
  match l with
  | [] => Ok s
  | (err, hw, set_) :: l =>
      if negb (err =? 0) then Throw (ProtocolError err OpFetch)
      else
        match set_ with
        | None | Some [] => fetch_results fetchOffset l {| f_records := f_records s; highWatermark := hw |}
        | Some b =>
            match decodeRecordBatches b with
            | Throw _ => Throw BadResponse
            | Ok rs => fetch_results fetchOffset l
                {| f_records := f_records s ++ List.filter (from_offset fetchOffset) rs; highWatermark := hw |}
            end
        end
  end.
(** The whole response is parsed first; what the code throws while it parses comes earlier
    there only when a later partition is malformed as well. *)
Definition fetch (topic : bytes) (p maxWaitMs maxBytes fetchOffset : Z) : M FetchState :=
  b ← leaderFor topic p;
  k ← conn (host b) (port b);
  l ← request k FETCH 4 (fetch_request topic p maxWaitMs maxBytes fetchOffset)
        (_ ← r_int32; per_partition utf8 fetch_partition);
  match fetch_results fetchOffset l {| f_records := []; highWatermark := 0 |} with
  | Ok s => mret s
  | Throw e => throw e
  end.

(** [n] attempts; a transient error is retried after [between]. *)
Section retry.
Context {A : Type} (op : M A) (transient : client_error → bool) (between : nat → M unit).
Fixpoint retrying (n done_ : nat) : M A :=
  match n with
  | O => op
  | S n =>
      r ← attempt op;
      match r with
      | Ok a => mret a
      | Throw e =>
          if transient e then between done_ ;; (match n with O => throw e | S _ => retrying n (S done_) end)
          else throw e
      end
  end.
End retry.

Definition code_in (l : list Z) (e : client_error) : bool :=
  match e with ProtocolError c _ => bool_decide (c ∈ l) | _ => false end.
Definition TRANSIENT_LEADER_ERRORS : list Z := [5; 6; 9].
Definition TRANSIENT_COORDINATOR_ERRORS : list Z := [14; 15; 16].

(** The first error of the partitions is thrown; the last value is returned. *)
Fixpoint last_value (op : operation) (l : list (Z * Z)) (acc : Z) : result client_error Z :=
  match l with
  | [] => Ok acc
  | (err, v) :: l => if negb (err =? 0) then Throw (ProtocolError err op) else last_value op l v
  end.
Definition returning {A} (r : result client_error A) : M A :=
  match r with Ok a => mret a | Throw e => throw e end.

Definition list_offset_once (topic : bytes) (p timestamp : Z) : M Z :=
  b ← leaderFor topic p;
  k ← conn (host b) (port b);
  l ← request k LIST_OFFSETS 1 (list_offsets_request topic p timestamp)
        (per_partition utf8 (_ ← r_int32; e ← r_int16; _ ← r_int64; o ← r_int64; mret (e, o)));
  returning (last_value OpListOffsets l (-1)).
Definition listOffset (topic : bytes) (p timestamp : Z) : M Z :=
  retrying (list_offset_once topic p timestamp) (code_in TRANSIENT_LEADER_ERRORS)
    (λ i, _ ← attempt (metadata [topic]); sleep (Z.min (200 * (Z.of_nat i + 1)) 1500)) 12 0.

Definition find_coordinator_once (groupId : bytes) : M KafkaBroker :=
  k ← anyConn;
  r ← request k FIND_COORDINATOR 0 (w_string (Some groupId)) (coordinator_response utf8);
  match r with Ok b => mret b | Throw err => throw (ProtocolError err OpFindCoordinator) end.
Definition findCoordinator (groupId : bytes) : M KafkaBroker :=
  retrying (find_coordinator_once groupId) (code_in TRANSIENT_COORDINATOR_ERRORS)
    (λ i, sleep (Z.min (250 * (Z.of_nat i + 1)) 1500)) 12 0.

Definition withCoordinatorRetry {A} (op : M A) : M A :=
  retrying op (code_in TRANSIENT_COORDINATOR_ERRORS) (λ i, sleep (Z.min (250 * (Z.of_nat i + 1)) 1500)) 12 0.

Definition initProducerId : M (Z * Z) :=
  withCoordinatorRetry (
    k ← anyConn;
    r ← request k INIT_PRODUCER_ID 0 init_producer_request
          (_ ← r_int32; err ← r_int16;
           if negb (err =? 0) then mret (Throw err) else i ← r_int64; e ← r_int16; mret (Ok (i, e)));
    match r with Ok a => mret a | Throw err => throw (ProtocolError err OpInitProducerId) end).

Definition commitOffset (groupId topic : bytes) (p off : Z) : M unit :=
  withCoordinatorRetry (
    b ← findCoordinator groupId;
    k ← conn (host b) (port b);
    l ← request k OFFSET_COMMIT 2 (commit_request groupId topic p off)
          (per_partition utf8 (_ ← r_int32; e ← r_int16; mret (e, 0)));
    _ ← returning (last_value OpOffsetCommit l 0); mret tt).

Definition fetchOffset (groupId topic : bytes) (p : Z) : M Z :=
  withCoordinatorRetry (
    b ← findCoordinator groupId;
    k ← conn (host b) (port b);
    l ← request k OFFSET_FETCH 1 (offset_fetch_request groupId topic p)
          (per_partition utf8 (_ ← r_int32; o ← r_int64; _ ← r_string utf8; e ← r_int16; mret (e, o)));
    returning (last_value OpOffsetFetch l (-1))).
End client.

(** ** Leaders *)

Section leaders.
Context {W : Type} (utf8 : bytes → bytes).
Context (dial : bytes → Z → W → option nat * W) (alive : nat → W → bool).
Context (ask : nat → Z → Z → bytes → W → option bytes * W) (pause : Z → W → W).
Context (bootstrap : list (bytes * Z)).
#[local] Abbreviation metadata := (metadata utf8 dial alive ask bootstrap).
#[local] Abbreviation cached := (cached utf8 dial alive ask bootstrap).
#[local] Abbreviation await_leader := (await_leader utf8 dial alive ask pause bootstrap).
#[local] Abbreviation leaderFor := (leaderFor utf8 dial alive ask pause bootstrap).

Lemma bind_inv {A B} (m : M (W:=W) A) (f : A → M B) c b c' :
  (m ≫= f) c = (Ok b, c') → ∃ a c1, m c = (Ok a, c1) ∧ f a c1 = (Ok b, c').
Proof. unfold mbind, client_bind. destruct (m c) as [[a|e] c1]; [eauto|discriminate]. Qed.

Lemma ok_bind {A B} (m : M (W:=W) A) (f : A → M B) c a c' : m c = (Ok a, c') → (m ≫= f) c = f a c'.
Proof. intros E. unfold mbind, client_bind. by rewrite E. Qed.

Lemma metadata_cached ts c m c' : metadata ts c = (Ok m, c') → meta c' = Some m.
Proof.
  unfold KafkaClient.metadata. intros (k & c1 & _ & H)%bind_inv. apply bind_inv in H as (m' & c2 & _ & H).
  apply bind_inv in H as ([] & c3 & Hm & H). injection Hm as <-. by injection H as -> <-.
Qed.

Lemma cached_meta topic c m c' : cached topic c = (Ok m, c') → meta c' = Some m.
Proof.
  unfold KafkaClient.cached. intros (c1 & c2 & Hg & H)%bind_inv. injection Hg as <- <-.
  destruct (meta c) as [m'|] eqn:E; [by injection H as <- <-|by eapply metadata_cached].
Qed.

Lemma await_leader_meta topic p attempts : ∀ m c pm c',
  meta c = Some m → await_leader attempts topic p (lookup_partition topic p m) c = (Ok pm, c') →
  ∃ m', meta c' = Some m' ∧ pm = lookup_partition topic p m'.
Proof.
  induction attempts as [|attempts IH]; intros m c pm c' Hm; cbn [KafkaClient.await_leader];
    destruct (unsettled (lookup_partition topic p m)); try (intros [= <- <-]; by exists m).
  intros ([] & c1 & _ & H)%bind_inv. apply bind_inv in H as (m' & c2 & Hm' & H).
  eapply IH; [|exact H]. by eapply metadata_cached.
Qed.

Lemma find_in {A} (f : A → bool) l a : List.find f l = Some a → a ∈ l ∧ f a = true.
Proof. intros [H1 H2]%List.find_some. split; [by apply list_elem_of_In|done]. Qed.

Lemma brokerById_sound id (c : client (W:=W)) b c' :
  brokerById id c = (Ok b, c') → c' = c ∧ ∃ m, meta c = Some m ∧ b ∈ brokers m ∧ nodeId b = id.
Proof.
  unfold brokerById. intros (c1 & c2 & Hg & H)%bind_inv. injection Hg as <- <-.
  destruct (meta c) as [m|] eqn:Em; [|discriminate]. cbn [mbind option_bind] in H.
  destruct (List.find _ (brokers m)) as [b'|] eqn:E; [|discriminate]. injection H as -> <-.
  apply find_in in E as [Hin Hid%Z.eqb_eq]. split; [done|]. by exists m.
Qed.
End leaders.

(** Connections and requests leave the metadata alone. *)
Section same_meta.
Context {W : Type}.
Definition same_meta {A} (m : M (W:=W) A) : Prop := ∀ c, meta (m c).2 = meta c.

Lemma same_meta_bind {A B} (m : M (W:=W) A) (f : A → M B) :
  same_meta m → (∀ a, same_meta (f a)) → same_meta (m ≫= f).
Proof.
  intros Hm Hf c. unfold mbind, client_bind. specialize (Hm c). destruct (m c) as [[a|e] c1]; [|done].
  by rewrite (Hf a c1).
Qed.
Lemma same_meta_ret {A} (a : A) : same_meta (mret a).
Proof. done. Qed.
Lemma same_meta_throw {A} e : same_meta (throw (A:=A) e).
Proof. done. Qed.
Lemma same_meta_get : same_meta get.
Proof. done. Qed.
Lemma same_meta_modify f : (∀ c, meta (f c) = meta c) → same_meta (modify f).
Proof. intros Hf c. apply Hf. Qed.
#[local] Hint Resolve same_meta_ret same_meta_throw same_meta_get : core.

Ltac meta_steps :=
  intros; repeat first
    [ solve [auto]
    | apply same_meta_modify; done
    | match goal with |- same_meta (_ ≫= _) => apply same_meta_bind; [|intros; cbv beta] end
    | match goal with |- same_meta (match ?x with _ => _ end) => destruct x end ].

Lemma same_meta_conn dial alive h p : same_meta (conn dial alive h p).
Proof. unfold conn. meta_steps. Qed.
Lemma same_meta_request {A} ask k api v body (r : reader A) : same_meta (request ask k api v body r).
Proof. unfold request. meta_steps. Qed.
End same_meta.

(** ** Metadata as a broker writes it *)

Definition w_broker (b : KafkaBroker) : wres :=
  i ← w_int32 (nodeId b); h ← w_string (Some (host b)); p ← w_int32 (port b); r ← w_string None;
  Ok (i ++ h ++ p ++ r).
Section lists.
Context {A : Type} (write : A → wres).
Fixpoint w_each (l : list A) : wres :=
  match l with [] => Ok [] | a :: l => b ← write a; r ← w_each l; Ok (b ++ r) end.
Definition w_list (l : list A) : wres := n ← w_int32 (Z.of_nat (length l)); b ← w_each l; Ok (n ++ b).
End lists.
Definition w_partition (p : PartitionMeta) : wres :=
  e ← w_int16 (p_error p); i ← w_int32 (partition p); l ← w_int32 (leader p);
  rs ← w_list w_int32 (replicas p); is_ ← w_list w_int32 (isr p); Ok (e ++ i ++ l ++ rs ++ is_).
Definition w_topic (t : TopicMeta) : wres :=
  e ← w_int16 (t_error t); n ← w_string (Some (name t)); i ← w_int8 0; ps ← w_list w_partition (partitions t);
  Ok (e ++ n ++ i ++ ps).
Definition w_metadata (m : ClusterMeta) : wres :=
  bs ← w_list w_broker (brokers m); c ← w_int32 (controllerId m); ts ← w_list w_topic (topics m);
  Ok (bs ++ c ++ ts).

(** [r] reads back what [write] writes. *)
Definition inverse {A} (write : A → wres) (r : reader A) : Prop := ∀ a w, write a = Ok w → reads r a w.

Lemma inverse_each {A} (write : A → wres) r l : inverse write r → ∀ w,
  w_each write l = Ok w → reads (read_times r (length l)) l w.
Proof.
  intros Hr. induction l as [|a l IH]; intros w; cbn [w_each length read_times].
  - intros <-%Ok_inj. apply reads_ret.
  - intros (b & Hb & (rest & Hrest & <-%Ok_inj)%result_bind_ok)%result_bind_ok.
    eapply reads_bind; [by apply Hr|]. apply (reads_map _ (cons a)). by apply IH.
Qed.

Lemma inverse_counted {A} (write : A → wres) r : inverse write r → inverse (w_list write) (read_counted r).
Proof.
  intros Hr l w (n & Hn & (b & Hb & <-%Ok_inj)%result_bind_ok)%result_bind_ok.
  eapply reads_bind; [by apply reads_int; [lia|]|]. cbv beta. rewrite Nat2Z.id. by eapply inverse_each.
Qed.
Lemma inverse_array {A} (write : A → wres) r : inverse write r → inverse (w_list write) (r_array r).
Proof.
  intros Hr l w (n & Hn & (b & Hb & <-%Ok_inj)%result_bind_ok)%result_bind_ok.
  eapply reads_bind; [by apply reads_int; [lia|]|]. cbv beta.
  destruct (Z.ltb_spec (Z.of_nat (length l)) 0); [lia|]. rewrite Nat2Z.id. by eapply inverse_each.
Qed.

Lemma reads_text s w : w_string (Some s) = Ok w → reads (text id) s w.
Proof.
  intros Hw. exact (reads_map (r_string id) (default []) (Some s) w (reads_string id (Some s) w Hw)).
Qed.

(** Chains the fields of a record. *)
Ltac read_fields :=
  repeat (eapply reads_bind;
    [first [by apply reads_int; [lia|] | by apply reads_text | by apply reads_string | by eauto] |]; cbv beta).

Lemma inverse_broker : inverse w_broker (read_broker id).
Proof.
  intros b w. unfold w_broker, read_broker.
  intros (i & Hi & (h & Hh & (p & Hp & (r & Hr & <-%Ok_inj)%result_bind_ok)%result_bind_ok)%result_bind_ok)%result_bind_ok.
  read_fields. destruct b. exact (reads_map (r_string id) (λ _, {| nodeId := _; host := _; port := _ |}) None r (reads_string id None r Hr)).
Qed.

Lemma inverse_int32 : inverse w_int32 r_int32.
Proof. intros a w Hw. apply reads_int; [lia|done]. Qed.

Lemma inverse_partition : inverse w_partition read_partition.
Proof.
  intros p w. unfold w_partition, read_partition.
  intros (e & He & (i & Hi & (l & Hl & (rs & Hrs & (is_ & His & <-%Ok_inj)%result_bind_ok)%result_bind_ok)
    %result_bind_ok)%result_bind_ok)%result_bind_ok.
  read_fields. eapply reads_bind; [by apply (inverse_array _ _ inverse_int32)|]. cbv beta.
  destruct p. apply (reads_map _ (λ x, {| p_error := _; partition := _; leader := _; replicas := _; isr := x |})).
  by apply (inverse_array _ _ inverse_int32).
Qed.

Lemma inverse_topic : inverse w_topic (read_topic id).
Proof.
  intros t w. unfold w_topic, read_topic.
  intros (e & He & (n & Hn & (i & Hi & (ps & Hps & <-%Ok_inj)%result_bind_ok)%result_bind_ok)%result_bind_ok)%result_bind_ok.
  read_fields. destruct t. apply (reads_map _ (λ x, {| t_error := _; name := _; partitions := x |})).
  by apply (inverse_counted _ _ inverse_partition).
Qed.

(** ** Properties *)

(** Metadata as a broker writes it, topics with their partitions and replica sets, is parsed
    back as it was written. *)
Theorem metadata_roundtrip (m : ClusterMeta) (w : bytes) (Hw : w_metadata m = Ok w) :
  metadata_response id w 0 = Ok (m, len w).
Proof.
  apply reads_whole. revert Hw. unfold w_metadata, metadata_response.
  intros (bs & Hbs & (c & Hc & (ts & Hts & <-%Ok_inj)%result_bind_ok)%result_bind_ok)%result_bind_ok.
  eapply reads_bind; [by apply (inverse_counted _ _ inverse_broker)|]. cbv beta. read_fields.
  destruct m. apply (reads_map _ (λ x, {| brokers := _; controllerId := _; topics := x |})).
  by apply (inverse_counted _ _ inverse_topic).
Qed.

Section properties.
Context {W : Type} (utf8 : bytes → bytes).
Context (dial : bytes → Z → W → option nat * W) (alive : nat → W → bool).
Context (ask : nat → Z → Z → bytes → W → option bytes * W) (pause : Z → W → W).
Context (bootstrap : list (bytes * Z)).

(** The broker that [leaderFor] returns is the elected leader of the partition in the
    metadata that the client then has. *)
Theorem leader_is_known topic p (c c' : client (W:=W)) b
    (H : leaderFor utf8 dial alive ask pause bootstrap topic p c = (Ok b, c')) :
  ∃ m q, meta c' = Some m ∧ lookup_partition topic p m = Some q ∧
    leader q = nodeId b ∧ 0 <= nodeId b ∧ b ∈ brokers m.
Proof.
  unfold leaderFor in H. apply bind_inv in H as (m & c1 & Hm%cached_meta & H).
  apply bind_inv in H as (m2 & c2 & Hm2 & H).
  assert (meta c2 = Some m2) as Hc2.
  { destruct (find_topic topic m); [by injection Hm2 as <- <-|by eapply metadata_cached]. }
  apply bind_inv in H as (pm & c3 & Hpm & H).
  apply (await_leader_meta utf8 dial alive ask pause bootstrap) in Hpm as (m3 & Hm3 & ->); [|done].
  destruct (lookup_partition topic p m3) as [q|] eqn:Eq; [|discriminate].
  destruct (leader q <? 0) eqn:El; [discriminate|]. apply Z.ltb_ge in El.
  apply brokerById_sound in H as (-> & m4 & Hm4 & Hin & Hid). rewrite Hm3 in Hm4. injection Hm4 as <-.
  exists m3, q. by rewrite Hid.
Qed.

Lemma leader_kept topic p (c : client (W:=W)) m q b
    (Hm : meta c = Some m) (Hq : lookup_partition topic p m = Some q)
    (Hl : 0 <= leader q) (He : p_error q = 0)
    (Hb : List.find (λ b, nodeId b =? leader q) (brokers m) = Some b) :
  leaderFor utf8 dial alive ask pause bootstrap topic p c = (Ok b, c).
Proof.
  unfold leaderFor.
  assert (cached utf8 dial alive ask bootstrap topic c = (Ok m, c)) as Hc.
  { unfold cached. rewrite (ok_bind get _ c c c) by done. by rewrite Hm. }
  rewrite (ok_bind _ _ _ _ _ Hc). pose proof Hq as Hq'. unfold lookup_partition in Hq'.
  destruct (find_topic topic m) as [t|]; [|discriminate].
  rewrite (ok_bind (mret m) _ c m c) by done. rewrite Hq.
  assert (unsettled (Some q) = false) as Hu.
  { unfold unsettled. rewrite He. destruct (Z.ltb_spec (leader q) 0); [lia|done]. }
  assert (await_leader utf8 dial alive ask pause bootstrap 25 topic p (Some q) c = (Ok (Some q), c)) as Ha
    by (cbn [await_leader]; by rewrite Hu).
  rewrite (ok_bind _ _ _ _ _ Ha). destruct (Z.ltb_spec (leader q) 0); [lia|].
  unfold brokerById. rewrite (ok_bind get _ c c c) by done. rewrite Hm. cbn [mbind option_bind]. by rewrite Hb.
Qed.

(** As long as the cached entry of a partition looks healthy, [leaderFor] returns it and
    asks nobody: no error of the broker that it names makes the client look again. *)
Theorem cached_leader_is_kept topic p (c : client (W:=W)) m q b
    (Hm : meta c = Some m) (Hq : lookup_partition topic p m = Some q)
    (Hl : 0 <= leader q) (He : p_error q = 0)
    (Hb : List.find (λ b, nodeId b =? leader q) (brokers m) = Some b) :
  leaderFor utf8 dial alive ask pause bootstrap topic p c = (Ok b, c).
Proof. by apply (leader_kept topic p c m q b). Qed.

(** A produce that the broker refuses, because it no longer leads the partition for instance,
    goes to the same broker when it is retried: the cache is as it was. *)
Theorem refused_produce_keeps_leader now topic p rs o (c c' : client (W:=W)) m q b err op
    (Hm : meta c = Some m) (Hq : lookup_partition topic p m = Some q)
    (Hl : 0 <= leader q) (He : p_error q = 0)
    (Hb : List.find (λ b, nodeId b =? leader q) (brokers m) = Some b)
    (Hr : produce utf8 dial alive ask pause bootstrap now topic p rs o c = (Throw (ProtocolError err op), c')) :
  leaderFor utf8 dial alive ask pause bootstrap topic p c' = (Ok b, c').
Proof.
  apply (leader_kept topic p c' m q b); try done. rewrite <-Hm.
  apply (f_equal snd) in Hr. cbn [snd] in Hr. rewrite <-Hr. unfold produce.
  assert (∀ f : KafkaBroker → M (W:=W) Z, (leaderFor utf8 dial alive ask pause bootstrap topic p ≫= f) c = f b c) as ->.
  { intros f. apply ok_bind. by apply (leader_kept topic p c m q b). }
  apply (same_meta_bind (conn dial alive (host b) (port b))); [apply same_meta_conn|]. intros k.
  destruct (encodeRecordBatch _ _ _); [|apply same_meta_throw].
  apply same_meta_bind; [apply same_meta_request|]. intros l.
  destruct (negb _); [apply same_meta_throw|apply same_meta_ret].
Qed.
End properties.

(** ** Witnesses *)

Definition one_broker : ClusterMeta :=
  {| brokers := [{| nodeId := 7; host := byte <$> [104]; port := 9092 |}]; controllerId := 7;
     topics := [{| t_error := 0; name := byte <$> [116];
                   partitions := [{| p_error := 0; partition := 0; leader := 7; replicas := [7; 8]; isr := [7] |}] |}] |}.
Definition metadata_bytes : bytes := match w_metadata one_broker with Ok w => w | Throw _ => [] end.

Lemma metadata_roundtrip_witness : metadata_response id metadata_bytes 0 = Ok (one_broker, len metadata_bytes).
Proof. apply metadata_roundtrip. reflexivity. Defined.

(** A network with one broker, which answers every request with its metadata. *)
Definition only_metadata : nat → Z → Z → bytes → unit → option bytes * unit := λ _ _ _ _ _, (Some metadata_bytes, tt).

Lemma leader_is_known_witness :
  let c := {| meta := None; connections := []; world := tt |} in
  let r := leaderFor id (λ _ _ _, (Some 0%nat, tt)) (λ _ _, true) only_metadata (λ _ _, tt)
    [(byte <$> [104], 9092)] (byte <$> [116]) 0 c in
  ∃ m q, meta r.2 = Some m ∧ lookup_partition (byte <$> [116]) 0 m = Some q ∧ leader q = 7 ∧ 0 <= 7.
Proof.
  intros c r. destruct (leader_is_known id (λ _ _ _, (Some 0%nat, tt)) (λ _ _, true) only_metadata (λ _ _, tt)
    [(byte <$> [104], 9092)] (byte <$> [116]) 0 c r.2 {| nodeId := 7; host := byte <$> [104]; port := 9092 |})
    as (m & q & H1 & H2 & H3 & H4 & _).
  - vm_compute. reflexivity.
  - exists m, q. split; [exact H1|]. split; [exact H2|]. split; [exact H3|exact H4].
Defined.
