(* ===== verification/KafkaGate.v ===== *)
(** * Kafka: readiness

    Models [awaitTopicReady] and [CoordinatorReadinessGate] of
    src/packages/core/src/transports/kafka/client.ts: the loops that wait for the cluster to
    be ready, against the clock of the world.

    [Date.now()] is [clock]; two reads with no await between them see the same time. *)

From Stdlib Require Import Ascii String.
From S2P Require Import Prelude JsText JsMap JsInt Bytes KafkaWire KafkaRecords KafkaClient.

Open Scope Z_scope.
#[local] Open Scope list_scope.

#[local] Abbreviation bytes := (list ascii) (only parsing).

Section readiness.
Context {W : Type} (utf8 : bytes → bytes).
Context (dial : bytes → Z → W → option nat * W).
Context (alive : nat → W → bool).
Context (ask : nat → Z → Z → bytes → W → option bytes * W).
Context (pause : Z → W → W).
Context (bootstrap : list (bytes * Z)).
Context (clock : W → Z).
#[local] Abbreviation M := (KafkaClient.M (W:=W)).
#[local] Abbreviation metadata := (metadata utf8 dial alive ask bootstrap).
#[local] Abbreviation findCoordinator := (findCoordinator utf8 dial alive ask pause bootstrap).

(** ** Waiting for a topic *)

Definition partition_ready (p : PartitionMeta) : bool :=
  (p_error p =? 0) && (0 <=? leader p) && (1 <=? length (isr p))%nat.
Definition topic_ready (minPartitions : nat) (tm : option TopicMeta) : bool :=
  match tm with
  | None => false
  | Some t => (t_error t =? 0) && (minPartitions <=? length (partitions t))%nat && forallb partition_ready (partitions t)
  end.

Inductive readiness : Type := Ready | NotReady | Waiting.

(** [Waiting]: the fuel ran out. *)
Fixpoint await_ready (fuel : nat) (topic : bytes) (minPartitions : nat) (deadline : Z) : M readiness :=
  match fuel with
  | O => mret Waiting
  | S fuel =>
      m ← metadata [topic];
      if topic_ready minPartitions (find_topic topic m) then mret Ready
      else
        c ← get;
        if deadline <? clock (world c) then mret NotReady
        else sleep pause 200 ;; await_ready fuel topic minPartitions deadline
  end.
Definition awaitTopicReady (fuel : nat) (topic : bytes) (minPartitions : nat) (timeoutMs : Z) : M readiness :=
  c ← get; await_ready fuel topic minPartitions (clock (world c) + timeoutMs).

(** ** The gate of a consumer group *)

Definition CONSUMER_OFFSETS_TOPIC : bytes := list_ascii_of_string "__consumer_offsets".

Record CoordinatorGateResult : Type := {
  ready : bool; findCoordinatorOk : bool; offsetsTopicStable : bool; waitedMs : Z; offsetsPreserved : bool;
}.
Record gate_options : Type := { timeoutMs : Z; group : bytes; pollIntervalMs : Z }.

Definition stable (m : ClusterMeta) : bool :=
  match find_topic CONSUMER_OFFSETS_TOPIC m with
  | None => false
  | Some t => (t_error t =? 0) && (1 <=? length (partitions t))%nat &&
      forallb (λ p, (p_error p =? 0) && (0 <=? leader p)) (partitions t)
  end.
Definition check_offsets_topic : M bool :=
  r ← attempt (metadata [CONSUMER_OFFSETS_TOPIC]);
  mret (match r with Ok m => stable m | Throw _ => false end).

(** The two probes of a turn; one that has succeeded is not repeated. *)
Definition probe (o : gate_options) (fc ot : bool) : M (bool * bool) :=
  fc ← (if fc then mret true
        else r ← attempt (findCoordinator (group o)); mret (match r with Ok _ => true | Throw _ => false end));
  ot ← (if fc && negb ot then check_offsets_topic else mret ot);
  mret (fc, ot).

Definition gate_result (start now : Z) (fc ot ok : bool) : CoordinatorGateResult :=
  {| ready := ok; findCoordinatorOk := fc; offsetsTopicStable := ot; waitedMs := now - start; offsetsPreserved := true |}.

(** [None]: the fuel ran out. *)
Fixpoint gate_loop (fuel : nat) (o : gate_options) (start : Z) (fc ot : bool) : M (option CoordinatorGateResult) :=
  match fuel with
  | O => mret None
  | S fuel =>
      '(fc, ot) ← probe o fc ot;
      c ← get;
      let now := clock (world c) in
      if fc && ot then mret (Some (gate_result start now fc ot true))
      else if start + timeoutMs o <=? now then mret (Some (gate_result start now fc ot false))
      else
        sleep pause (Z.min (pollIntervalMs o) (Z.max 0 (start + timeoutMs o - now))) ;;
        gate_loop fuel o start fc ot
  end.
Definition gate (fuel : nat) (o : gate_options) : M (option CoordinatorGateResult) :=
  c ← get; gate_loop fuel o (clock (world c)) false false.

(** ** What these operations leave alone *)

Section keeps.
Context (P : W → Prop).
Context (P_dial : ∀ h p w, P w → P (dial h p w).2).
Context (P_ask : ∀ k api v b w, api = METADATA ∨ api = FIND_COORDINATOR → P w → P (ask k api v b w).2).
Context (P_pause : ∀ ms w, 0 <= ms → P w → P (pause ms w)).

Definition keeps {A} (m : M A) : Prop := ∀ c, P (world c) → P (world (m c).2).

Lemma keeps_ret {A} (a : A) : keeps (mret a).
Proof. by intros c. Qed.
Lemma keeps_throw {A} e : keeps (throw (A:=A) e).
Proof. by intros c. Qed.
Lemma keeps_get : keeps get.
Proof. by intros c. Qed.
Lemma gate_keeps_bind {A B} (m : M A) (f : A → M B) : keeps m → (∀ a, keeps (f a)) → keeps (m ≫= f).
Proof.
  intros Hm Hf c Hc. unfold mbind, client_bind. specialize (Hm c Hc). destruct (m c) as [[a|e] c1]; [|done]. by apply Hf.
Qed.
Lemma keeps_attempt {A} (m : M A) : keeps m → keeps (attempt m).
Proof. intros Hm c Hc. unfold attempt. specialize (Hm c Hc). by destruct (m c) as [r c1]. Qed.
Lemma keeps_sleep ms : 0 <= ms → keeps (sleep pause ms).
Proof. intros Hms c Hc. by apply P_pause. Qed.

Lemma keeps_conn h p : keeps (conn dial alive h p).
Proof.
  assert (∀ c0, P (world c0) → keeps (match dial h p (world c0) with
      | (Some k, w) => modify (λ c, set_connections (jm_set (h, p) k (connections c)) (set_world w c)) ;; mret k
      | (None, w) => modify (set_world w) ;; throw Unreachable end)) as Hfresh.
  { intros c0 H0 c Hc. pose proof (P_dial h p (world c0) H0) as H. by destruct (dial h p (world c0)) as [[k|] w]. }
  intros c Hc. unfold conn. rewrite (ok_bind get _ c c c) by done.
  destruct (jm_get (h, p) (connections c)) as [k|]; [|by apply Hfresh].
  destruct (alive k (world c)); [done|by apply Hfresh].
Qed.

Lemma keeps_any l : keeps (any_of dial alive l).
Proof.
  induction l as [|[h p] l IH]; [apply keeps_throw|]. cbn [any_of].
  apply gate_keeps_bind; [apply keeps_attempt, keeps_conn|]. intros [k|e]; [apply keeps_ret|exact IH].
Qed.

Lemma keeps_request {A} k api v body (r : reader A) :
  api = METADATA ∨ api = FIND_COORDINATOR → keeps (request ask k api v body r).
Proof.
  intros Hapi c Hc. unfold request. destruct body as [b|]; [|done]. rewrite (ok_bind get _ c c c) by done.
  pose proof (P_ask k api v b (world c) Hapi Hc) as H. destruct (ask k api v b (world c)) as [[resp|] w]; [|exact H].
  rewrite (ok_bind (modify (set_world w)) _ c tt (set_world w c)) by done. by destruct (r resp 0) as [[a off]|].
Qed.

Lemma keeps_metadata ts : keeps (metadata ts).
Proof.
  apply gate_keeps_bind; [apply keeps_any|]. intros k. apply gate_keeps_bind; [apply keeps_request; by left|]. intros m.
  apply gate_keeps_bind; [by intros c|]. intros []. apply keeps_ret.
Qed.

Lemma keeps_retrying {A} (op : M A) tr between n : keeps op → (∀ i, keeps (between i)) → ∀ i, keeps (retrying op tr between n i).
Proof.
  intros Hop Hb. induction n as [|n IH]; intros i; [exact Hop|]. cbn [retrying].
  apply gate_keeps_bind; [by apply keeps_attempt|]. intros [a|e]; [apply keeps_ret|]. destruct (tr e); [|apply keeps_throw].
  apply gate_keeps_bind; [apply Hb|]. intros []. destruct n; [apply keeps_throw|apply IH].
Qed.

Lemma keeps_findCoordinator g : keeps (findCoordinator g).
Proof.
  apply keeps_retrying.
  - apply gate_keeps_bind; [apply keeps_any|]. intros k. apply gate_keeps_bind; [apply keeps_request; by right|].
    intros [b|e]; [apply keeps_ret|apply keeps_throw].
  - intros i. apply keeps_sleep. lia.
Qed.

Lemma keeps_probe o fc ot : keeps (probe o fc ot).
Proof.
  apply gate_keeps_bind.
  { destruct fc; [apply keeps_ret|]. apply gate_keeps_bind; [apply keeps_attempt, keeps_findCoordinator|]. intros r. apply keeps_ret. }
  intros fc'. apply gate_keeps_bind; [|intros ot'; apply keeps_ret].
  destruct (fc' && negb ot); [|apply keeps_ret].
  apply gate_keeps_bind; [apply keeps_attempt, keeps_metadata|]. intros r. apply keeps_ret.
Qed.

Context (o : gate_options) (Hpoll : 0 <= pollIntervalMs o).

Lemma keeps_gate_loop fuel : ∀ start fc ot, keeps (gate_loop fuel o start fc ot).
Proof.
  induction fuel as [|fuel IH]; intros start fc ot; cbn [gate_loop]; [apply keeps_ret|].
  apply gate_keeps_bind; [apply keeps_probe|]. intros [fc' ot']. apply gate_keeps_bind; [apply keeps_get|]. intros c. cbv zeta.
  destruct (fc' && ot'); [apply keeps_ret|]. case_match; [apply keeps_ret|].
  apply gate_keeps_bind; [apply keeps_sleep; lia|]. intros []. apply IH.
Qed.
End keeps.

(** Nothing in these operations throws out of the gate. *)
Lemma attempt_ok {A} (m : M A) c : ∃ r c', attempt m c = (Ok r, c').
Proof. unfold attempt. destruct (m c) as [r c']. by eexists _, _. Qed.

Lemma probe_ok o fc ot c : ∃ fc' ot' c', probe o fc ot c = (Ok (fc', ot'), c').
Proof.
  unfold probe.
  assert (∃ fc' c1, (if fc then mret true else r ← attempt (findCoordinator (group o));
      mret (match r with Ok _ => true | Throw _ => false end)) c = (Ok fc', c1)) as (fc' & c1 & E).
  { destruct fc; [by eexists _, _|]. destruct (attempt_ok (findCoordinator (group o)) c) as (r & c' & E).
    rewrite (ok_bind _ _ _ _ _ E). by eexists _, _. }
  rewrite (ok_bind _ _ _ _ _ E).
  assert (∃ ot' c2, (if fc' && negb ot then check_offsets_topic else mret ot) c1 = (Ok ot', c2)) as (ot' & c2 & E').
  { destruct (fc' && negb ot); [|by eexists _, _]. unfold check_offsets_topic.
    destruct (attempt_ok (metadata [CONSUMER_OFFSETS_TOPIC]) c1) as (r & c' & E2). rewrite (ok_bind _ _ _ _ _ E2). by eexists _, _. }
  rewrite (ok_bind _ _ _ _ _ E'). by eexists _, _, _.
Qed.

(** ** Time *)

(** Requests take time, and a pause takes at least what it is given. *)
Class ClockLaws : Prop := {
  dial_time h p w : clock w <= clock (dial h p w).2;
  ask_time k api v b w : clock w <= clock (ask k api v b w).2;
  pause_time ms w : 0 <= ms → clock w + ms <= clock (pause ms w);
}.
Context {Hclock : ClockLaws}.

Lemma probe_time o fc ot c : clock (world c) <= clock (world (probe o fc ot c).2).
Proof.
  apply (keeps_probe (λ w, clock (world c) <= clock w)); [| | |lia].
  - intros h p w Hw. pose proof (dial_time h p w). lia.
  - intros k api v b w _ Hw. pose proof (ask_time k api v b w). lia.
  - intros ms w Hms Hw. pose proof (pause_time ms w Hms). lia.
Qed.

Lemma gate_loop_returns fuel : ∀ o start fc ot c,
  0 < pollIntervalMs o → start + timeoutMs o - clock (world c) < Z.of_nat fuel → (0 < fuel)%nat →
  ∃ r c', gate_loop fuel o start fc ot c = (Ok (Some r), c') ∧ (ready r = findCoordinatorOk r && offsetsTopicStable r) ∧
    (ready r = false → timeoutMs o <= waitedMs r).
Proof.
  induction fuel as [|fuel IH]; intros o start fc ot c Hpoll Ht Hpos; [lia|]. cbn [gate_loop].
  pose proof (probe_time o fc ot c) as Hp. destruct (probe_ok o fc ot c) as (fc' & ot' & c1 & E).
  rewrite E in Hp. cbn [snd] in Hp. rewrite (ok_bind _ _ _ _ _ E), (ok_bind get _ c1 c1 c1) by done. cbv zeta.
  destruct (fc' && ot') eqn:Eb; [by eexists _, _|]. destruct (Z.leb_spec (start + timeoutMs o) (clock (world c1))) as [Hle|Hlt].
  - eexists _, _. split; [done|]. split; [done|]. cbn [waitedMs gate_result]. lia.
  - set (ms := Z.min _ _). assert (1 <= ms) as Hms by lia.
    rewrite (ok_bind (sleep pause ms) _ c1 tt (set_world (pause ms (world c1)) c1)) by done.
    pose proof (pause_time ms (world c1) ltac:(lia)) as Hpause.
    apply IH; [done| |]; cbn [world set_world]; lia.
Qed.
End readiness.

(** ** Properties *)

Section theorems.
Context {W : Type} (utf8 : bytes → bytes).
Context (dial : bytes → Z → W → option nat * W) (alive : nat → W → bool).
Context (ask : nat → Z → Z → bytes → W → option bytes * W) (pause : Z → W → W).
Context (bootstrap : list (bytes * Z)) (clock : W → Z).

(** The gate always answers, and one turn per millisecond of its budget is enough: it is ready
    exactly when a coordinator was found and the offsets topic was stable, and it gives up no
    sooner than its budget is spent. *)
Theorem gate_answers {Hclock : ClockLaws dial ask pause clock} (o : gate_options) (c : client (W:=W))
    (Hpoll : 0 < pollIntervalMs o) (Ht : 0 <= timeoutMs o) :
  ∃ r c', gate utf8 dial alive ask pause bootstrap clock (S (Z.to_nat (timeoutMs o))) o c = (Ok (Some r), c') ∧
    ready r = findCoordinatorOk r && offsetsTopicStable r ∧ (ready r = false → timeoutMs o <= waitedMs r).
Proof.
  unfold gate. rewrite (ok_bind get _ c c c) by done. apply gate_loop_returns; [done|done|lia|lia].
Qed.

(** The gate only reads: whatever of the cluster connections, metadata and coordinator requests
    leave alone, the committed offsets in particular, the gate leaves alone. *)
Theorem gate_only_reads (P : W → Prop) (fuel : nat) (o : gate_options) (c : client (W:=W))
    (P_dial : ∀ h p w, P w → P (dial h p w).2)
    (P_ask : ∀ k api v b w, api = METADATA ∨ api = FIND_COORDINATOR → P w → P (ask k api v b w).2)
    (P_pause : ∀ ms w, 0 <= ms → P w → P (pause ms w))
    (Hpoll : 0 <= pollIntervalMs o) (Hc : P (world c)) :
  P (world (gate utf8 dial alive ask pause bootstrap clock fuel o c).2).
Proof.
  unfold gate. rewrite (ok_bind get _ c c c) by done. by apply keeps_gate_loop.
Qed.

Lemma await_ready_meta fuel : ∀ topic n deadline (c c' : client (W:=W)),
  await_ready utf8 dial alive ask pause bootstrap clock fuel topic n deadline c = (Ok Ready, c') →
  ∃ m, meta c' = Some m ∧ topic_ready n (find_topic topic m) = true.
Proof.
  induction fuel as [|fuel IH]; intros topic n deadline c c'; cbn [await_ready]; [discriminate|].
  intros (m & c1 & Hm & H)%bind_inv. apply metadata_cached in Hm. destruct (topic_ready n (find_topic topic m)) eqn:E.
  - injection H as <-. by exists m.
  - apply bind_inv in H as (c2 & c3 & Hg & H). injection Hg as <- <-. case_match; [discriminate|].
    apply bind_inv in H as ([] & c4 & _ & H). by eapply IH.
Qed.

(** After [awaitTopicReady] has returned, the client asks nobody for the leader of a partition
    of the topic: it is the one of the metadata that was awaited. *)
Theorem ready_topic_needs_no_lookup fuel topic n ms (c c' : client (W:=W)) m t q b
    (H : awaitTopicReady utf8 dial alive ask pause bootstrap clock fuel topic n ms c = (Ok Ready, c'))
    (Hm : meta c' = Some m) (Ht : find_topic topic m = Some t)
    (Hq : find_partition (partition q) t = Some q)
    (Hb : List.find (λ b, nodeId b =? leader q) (brokers m) = Some b) :
  (n <= length (partitions t))%nat ∧
  leaderFor utf8 dial alive ask pause bootstrap topic (partition q) c' = (Ok b, c').
Proof.
  unfold awaitTopicReady in H. apply bind_inv in H as (c0 & c1 & _ & H). apply await_ready_meta in H as (m' & Hm' & Hr).
  rewrite Hm in Hm'. injection Hm' as <-. rewrite Ht in Hr. cbn [topic_ready] in Hr.
  apply andb_true_iff in Hr as [Hr Hall]. apply andb_true_iff in Hr as [_ Hn%Nat.leb_le]. split; [done|].
  rewrite forallb_forall in Hall. pose proof Hq as Hin. apply find_in in Hin as [Hin _].
  apply list_elem_of_In, Hall, andb_true_iff in Hin as [Hin _]. apply andb_true_iff in Hin as [He%Z.eqb_eq Hl%Z.leb_le].
  apply (leader_kept utf8 dial alive ask pause bootstrap topic (partition q) c' m q b); try done.
  unfold lookup_partition. by rewrite Ht.
Qed.
End theorems.

(** ** Witnesses *)

(** A world that is a clock and the offset that is committed; nobody answers. *)
Definition no_coordinator : nat → Z → Z → bytes → Z * Z → option bytes * (Z * Z) :=
  λ _ _ _ _ w, (None, (w.1 + 1, w.2)).
Definition one_dial : bytes → Z → Z * Z → option nat * (Z * Z) := λ _ _ w, (Some 0%nat, w).
Definition tick : Z → Z * Z → Z * Z := λ ms w, (w.1 + ms, w.2).
Definition short_gate : gate_options := {| timeoutMs := 5; group := byte <$> [103]; pollIntervalMs := 2 |}.
Definition idle_client : client (W:=Z * Z) := {| meta := None; connections := []; world := (100, 42) |}.

#[local] Instance tick_laws : ClockLaws one_dial no_coordinator tick fst.
Proof.
  split.
  - intros h p w. apply Z.le_refl.
  - intros k api v b w. cbn. lia.
  - intros ms w _. apply Z.le_refl.
Qed.

Lemma gate_answers_witness :
  ∃ r c', gate id one_dial (λ _ _, true) no_coordinator tick [(byte <$> [104], 9092)] fst 6 short_gate idle_client = (Ok (Some r), c') ∧
    ready r = findCoordinatorOk r && offsetsTopicStable r ∧ (ready r = false → 5 <= waitedMs r).
Proof.
  apply (gate_answers id one_dial (λ _ _, true) no_coordinator tick [(byte <$> [104], 9092)] fst short_gate idle_client);
    [reflexivity|discriminate].
Defined.

Lemma gate_only_reads_witness :
  (world (gate id one_dial (λ _ _, true) no_coordinator tick [(byte <$> [104], 9092)] fst 6 short_gate idle_client).2).2 = 42.
Proof.
  apply (gate_only_reads id one_dial (λ _ _, true) no_coordinator tick [(byte <$> [104], 9092)] fst (λ w, w.2 = 42) 6 short_gate idle_client).
  - intros h p w H. exact H.
  - intros k api v b w _ H. exact H.
  - intros ms w _ H. exact H.
  - discriminate.
  - reflexivity.
Defined.

Lemma ready_topic_needs_no_lookup_witness :
  let r := awaitTopicReady id (λ _ _ _, (Some 0%nat, tt)) (λ _ _, true) only_metadata (λ _ _, tt)
    [(byte <$> [104], 9092)] (λ _, 0) 3 (byte <$> [116]) 1 1000 {| meta := None; connections := []; world := tt |} in
  (1 <= 1)%nat ∧
  leaderFor id (λ _ _ _, (Some 0%nat, tt)) (λ _ _, true) only_metadata (λ _ _, tt) [(byte <$> [104], 9092)] (byte <$> [116]) 0 r.2
  = (Ok {| nodeId := 7; host := byte <$> [104]; port := 9092 |}, r.2).
Proof.
  intros r. apply (ready_topic_needs_no_lookup id (λ _ _ _, (Some 0%nat, tt)) (λ _ _, true) only_metadata (λ _ _, tt)
    [(byte <$> [104], 9092)] (λ _, 0) 3 (byte <$> [116]) 1 1000 {| meta := None; connections := []; world := tt |} r.2 one_broker
    {| t_error := 0; name := byte <$> [116];
       partitions := [{| p_error := 0; partition := 0; leader := 7; replicas := [7; 8]; isr := [7] |}] |}
    {| p_error := 0; partition := 0; leader := 7; replicas := [7; 8]; isr := [7] |}); vm_compute; reflexivity.
Defined.
