(* ===== verification/KafkaProducer.v ===== *)
(** * Kafka: the producer

    Models [KafkaProducer] of src/packages/core/src/transports/kafka/index.ts: the buffered
    records per topic, the flushes that are in flight, sequence numbers of the idempotent
    producer, and retries.

    The producer is a transition system.  A flush of a topic takes the buffered records and
    goes on at its awaits: the producer id, then one produce per partition with its retries.
    Records are named by the promise of their [send].  What [client.produce] does is the
    outcome that an event names; the timer is an event. *)

From Stdlib Require Import Ascii String.
From S2P Require Import Prelude JsText JsMap.

Open Scope Z_scope.
#[local] Open Scope list_scope.

(** ** Data *)

Record ProducerOptions : Type := { batchSize : nat; idempotent : bool; maxRetries : nat }.

Record PendingRecord : Type := { r_partition : Z; r_id : nat }.

(** A flush: awaits the producer id, or the produce of its first group, with the attempts
    that failed and the sequence number that it read when the group started. *)
Inductive flush : Type :=
| AwaitsId (topic : string) (records : list PendingRecord)
| Producing (topic : string) (sequence : Z) (attempt : nat) (group : Z * list PendingRecord)
    (rest : list (Z * list PendingRecord))
| Done.

Inductive effect : Type :=
| Produce (topic : string) (partition sequence : Z) (ids : list nat)
| Resolve (id : nat)
| Reject (id : nat).

Inductive init_state : Type := NotAsked | Asked | InitFailed.

Record producer : Type := {
  batches : list (string * list PendingRecord);
  rr : list (string * Z);
  closed : bool;
  producerId : option Z;             (* -1n, or the id *)
  initPromise : init_state;
  sequences : list (string * Z * Z);
  flushes : list flush;
  timer : bool;
  effects : list effect;
}.

Definition new_producer : producer :=
  {| batches := []; rr := []; closed := false; producerId := None; initPromise := NotAsked;
     sequences := []; flushes := []; timer := false; effects := [] |}.

Section producer.
Context (o : ProducerOptions).

(** ** The groups of a flush *)

(** A [Map] from partitions to records in insertion order. *)
Definition group_by_partition (l : list PendingRecord) : list (Z * list PendingRecord) :=
  foldl (λ m r, jm_set (r_partition r) (default [] (jm_get (r_partition r) m) ++ [r]) m) [] l.

Definition ids (l : list PendingRecord) : list nat := r_id <$> l.

Definition sequence_of (topic : string) (p : Z) (s : producer) : Z :=
  if idempotent o then default 0 (jm_get (topic, p) (sequences s)) else -1.

(** The produce of the first group, with the sequence number as it is now. *)
Definition start_group (topic : string) (groups : list (Z * list PendingRecord)) (s : producer) :
    flush * list effect :=
  match groups with
  | [] => (Done, [])
  | (p, prs) :: rest =>
      let n := sequence_of topic p s in
      (Producing topic n 0 (p, prs) rest, [Produce topic p n (ids prs)])
  end.

(** ** Updates *)

Definition with_flush (i : nat) (f : flush) (l : list effect) (s : producer) : producer :=
  {| batches := batches s; rr := rr s; closed := closed s; producerId := producerId s;
     initPromise := initPromise s; sequences := sequences s; flushes := <[i := f]> (flushes s);
     timer := timer s; effects := effects s ++ l |}.
Definition with_sequence (k : string * Z) (n : Z) (s : producer) : producer :=
  {| batches := batches s; rr := rr s; closed := closed s; producerId := producerId s;
     initPromise := initPromise s; sequences := jm_set k n (sequences s); flushes := flushes s;
     timer := timer s; effects := effects s |}.
Definition with_init (i : init_state) (id : option Z) (s : producer) : producer :=
  {| batches := batches s; rr := rr s; closed := closed s; producerId := id;
     initPromise := i; sequences := sequences s; flushes := flushes s;
     timer := timer s; effects := effects s |}.
Definition with_timer (b : bool) (s : producer) : producer :=
  {| batches := batches s; rr := rr s; closed := closed s; producerId := producerId s;
     initPromise := initPromise s; sequences := sequences s; flushes := flushes s;
     timer := b; effects := effects s |}.
Definition with_batch (topic : string) (l : list PendingRecord) (s : producer) : producer :=
  {| batches := jm_set topic l (batches s); rr := rr s; closed := closed s; producerId := producerId s;
     initPromise := initPromise s; sequences := sequences s; flushes := flushes s;
     timer := timer s; effects := effects s |}.
Definition add_flush (f : flush) (l : list effect) (s : producer) : producer :=
  {| batches := batches s; rr := rr s; closed := closed s; producerId := producerId s;
     initPromise := initPromise s; sequences := sequences s; flushes := flushes s ++ [f];
     timer := timer s; effects := effects s ++ l |}.

(** [_flushTopic] up to its first await that waits: the buffered records are taken out; an
    idempotent producer without an id asks for one, once. *)
Definition flushTopic (topic : string) (s : producer) : producer :=
  match jm_get topic (batches s) with
  | None | Some [] => s
  | Some l =>
      let s := with_batch topic [] s in
      if negb (idempotent o) || bool_decide (is_Some (producerId s)) then
        let '(f, e) := start_group topic (group_by_partition l) s in add_flush f e s
      else
        add_flush (AwaitsId topic l) []
          (with_init (match initPromise s with NotAsked => Asked | i => i end) None s)
  end.

(** [flush]: every topic. *)
Definition flush_all (s : producer) : producer :=
  foldl (λ s t, flushTopic t s) (with_timer false s) (jm_keys (batches s)).

(** The executor of [send]. *)
Definition enqueue (topic : string) (r : PendingRecord) (s : producer) : producer :=
  let l := default [] (jm_get topic (batches s)) ++ [r] in
  let s := with_batch topic l s in
  if (batchSize o <=? length l)%nat then flushTopic topic s
  else if timer s then s else with_timer true s.

(** The partition of a record that names none: round robin over the count of the metadata. *)
Definition next_partition (topic : string) (count : Z) (s : producer) : Z * producer :=
  let cur := default 0 (jm_get topic (rr s)) in
  (cur mod count,
   {| batches := batches s; rr := jm_set topic (cur + 1) (rr s); closed := closed s;
      producerId := producerId s; initPromise := initPromise s; sequences := sequences s;
      flushes := flushes s; timer := timer s; effects := effects s |}).

Inductive event : Type :=
| Send (topic : string) (id : nat) (partition : option Z) (count : Z)
| Timer
| Flush
| Close
| IdArrives (id : Z)                (* initProducerId returns *)
| IdFails
| IdAwaited (i : nat)               (* flush [i] goes on after the promise of the id *)
| Acked (i : nat)                   (* the produce of flush [i] returns *)
| Failed (i : nat).                 (* it throws; the pause before a retry is over *)

(** A send checks [closed] when it is called; with no partition it then awaits the metadata,
    and is one step here because nothing it does afterwards checks again. *)
Definition step (s : producer) (e : event) : producer :=
  match e with
  | Send topic id partition count =>
      if closed s then
        {| batches := batches s; rr := rr s; closed := closed s; producerId := producerId s;
           initPromise := initPromise s; sequences := sequences s; flushes := flushes s;
           timer := timer s; effects := effects s ++ [Reject id] |}
      else
        match partition with
        | Some p => enqueue topic {| r_partition := p; r_id := id |} s
        | None =>
            let '(p, s) := next_partition topic (Z.max 1 count) s in
            enqueue topic {| r_partition := p; r_id := id |} s
        end
  | Timer => if timer s then flush_all s else s
  | Flush => flush_all s
  | Close => flush_all
      {| batches := batches s; rr := rr s; closed := true; producerId := producerId s;
         initPromise := initPromise s; sequences := sequences s; flushes := flushes s;
         timer := timer s; effects := effects s |}
  | IdArrives id => match initPromise s with Asked => with_init Asked (Some id) s | _ => s end
  | IdFails => match initPromise s, producerId s with Asked, None => with_init InitFailed None s | _, _ => s end
  | IdAwaited i =>
      match flushes s !! i with
      | Some (AwaitsId topic l) =>
          match producerId s, initPromise s with
          | Some _, _ =>
              let '(f, e) := start_group topic (group_by_partition l) s in with_flush i f e s
          | None, InitFailed => with_flush i Done [] s     (* [_flushTopic] throws *)
          | None, _ => s
          end
      | _ => s
      end
  | Acked i =>
      match flushes s !! i with
      | Some (Producing topic n _ (p, prs) rest) =>
          let s := if idempotent o then with_sequence (topic, p) (n + Z.of_nat (length prs)) s else s in
          let '(f, e) := start_group topic rest s in
          with_flush i f ((Resolve <$> ids prs) ++ e) s
      | _ => s
      end
  | Failed i =>
      match flushes s !! i with
      | Some (Producing topic n attempt (p, prs) rest) =>
          if (maxRetries o <=? attempt)%nat then
            let '(f, e) := start_group topic rest s in with_flush i f ((Reject <$> ids prs) ++ e) s
          else with_flush i (Producing topic n (S attempt) (p, prs) rest) [Produce topic p n (ids prs)] s
      | _ => s
      end
  end.
Definition run (es : list event) : producer := foldl step new_producer es.
End producer.

(** ** Where a record is *)

Definition group_ids (g : list (Z * list PendingRecord)) : list nat := jm_collect (λ _ l, ids l) g.
Definition flush_ids (f : flush) : list nat :=
  match f with
  | AwaitsId _ l => ids l
  | Producing _ _ _ (_, prs) rest => ids prs ++ group_ids rest
  | Done => []
  end.
Definition buffered (s : producer) : list nat := jm_collect (λ _ l, ids l) (batches s).
Definition in_flight (s : producer) : list nat := flushes s ≫= flush_ids.
Definition settled_id (e : effect) : option nat :=
  match e with Resolve id | Reject id => Some id | Produce _ _ _ _ => None end.
Definition settled (l : list effect) : list nat := omap settled_id l.
(** Buffered, in flight, or settled. *)
Definition accounted (s : producer) : list nat := buffered s ++ in_flight s ++ settled (effects s).

Lemma ids_app l1 l2 : ids (l1 ++ l2) = ids l1 ++ ids l2.
Proof. apply fmap_app. Qed.
Lemma settled_effects_app l1 l2 : settled (l1 ++ l2) = settled l1 ++ settled l2.
Proof. apply omap_app. Qed.
Lemma settled_all (f : nat → effect) (l : list nat) :
  (∀ id, settled_id (f id) = Some id) → settled (f <$> l) = l.
Proof. intros Hf. unfold settled. induction l as [|id l IH]; [done|]. cbn. by rewrite Hf, IH. Qed.

Lemma group_by_partition_ids l : group_ids (group_by_partition l) ≡ₚ ids l.
Proof.
  unfold group_by_partition, group_ids.
  assert (∀ m, jm_collect (λ _ l, ids l)
    (foldl (λ m r, jm_set (r_partition r) (default [] (jm_get (r_partition r) m) ++ [r]) m) m l) ≡ₚ
    ids l ++ jm_collect (λ _ l, ids l) m) as H; [|by rewrite H, app_nil_r].
  induction l as [|r l IH]; intros m; cbn [foldl]; [done|]. rewrite IH.
  rewrite (jm_collect_grow (λ _ l, ids l) [] (λ _, eq_refl) _ _ m [r_id r]).
  - cbn. by rewrite Permutation_middle.
  - rewrite ids_app. cbn. apply Permutation_app_comm.
Qed.

Section conservation.
Context (o : ProducerOptions).

Lemma start_group_ids topic g s :
  flush_ids (start_group o topic g s).1 = group_ids g ∧ settled (start_group o topic g s).2 = [].
Proof. by destruct g as [|[p prs] g]. Qed.

Lemma add_flush_accounted f l s :
  settled l = [] → accounted (add_flush f l s) ≡ₚ flush_ids f ++ accounted s.
Proof.
  intros Hl. unfold accounted, in_flight, buffered, add_flush. cbn [batches flushes effects].
  rewrite bind_app, settled_effects_app, Hl, app_nil_r. cbn. rewrite app_nil_r.
  rewrite <-(assoc_L (++)), (Permutation_app_swap_app (flushes s ≫= flush_ids)). apply Permutation_app_swap_app.
Qed.

Lemma with_flush_accounted i f l s f0 :
  flushes s !! i = Some f0 → flush_ids f0 ≡ₚ flush_ids f ++ settled l →
  accounted (with_flush i f l s) ≡ₚ accounted s.
Proof.
  intros Hi Hf. unfold accounted, in_flight, buffered, with_flush. cbn [batches flushes effects]. f_equiv.
  pose proof (lookup_lt_Some _ _ _ Hi) as Hlt. rewrite settled_effects_app.
  rewrite (insert_take_drop (flushes s) i f) by done. rewrite <-(take_drop_middle (flushes s) i f0 Hi) at 3.
  rewrite !bind_app, !bind_cons, Hf, <-!(assoc_L (++)). f_equiv. f_equiv.
  set (a := drop _ _ ≫= _). rewrite (Permutation_app_comm (settled (effects s))).
  by rewrite (Permutation_app_swap_app a).
Qed.

Lemma with_batch_accounted topic l s extra :
  ids l ≡ₚ extra ++ ids (default [] (jm_get topic (batches s))) →
  accounted (with_batch topic l s) ≡ₚ extra ++ accounted s.
Proof.
  intros Hl. unfold accounted, buffered, in_flight. cbn [with_batch batches flushes effects].
  rewrite (jm_collect_grow (λ _ l, ids l) [] (λ _, eq_refl) _ _ _ _ Hl). by rewrite <-(assoc_L (++)).
Qed.

Lemma flushTopic_accounted topic s : accounted (flushTopic o topic s) ≡ₚ accounted s.
Proof.
  unfold flushTopic. destruct (jm_get topic (batches s)) as [[|r l]|] eqn:E; [done| |done].
  assert (ids (r :: l) ++ accounted (with_batch topic [] s) ≡ₚ accounted s) as Hb.
  { unfold accounted, buffered, in_flight. cbn [with_batch batches flushes effects].
    rewrite (jm_collect_shrink (λ _ l, ids l) [] (λ _, eq_refl) topic [] (batches s) (ids (r :: l))).
    - by rewrite <-(assoc_L (++)).
    - rewrite E. cbn [default]. by rewrite app_nil_r. }
  destruct (_ || _)%bool.
  - pose proof (start_group_ids topic (group_by_partition (r :: l)) (with_batch topic [] s)) as [H1 H2].
    destruct (start_group _ _ _ _) as [f e]. cbn [fst snd] in *.
    by rewrite add_flush_accounted, H1, group_by_partition_ids.
  - rewrite add_flush_accounted by done. cbn [flush_ids]. exact Hb.
Qed.

Lemma flush_all_accounted s : accounted (flush_all o s) ≡ₚ accounted s.
Proof.
  unfold flush_all. assert (∀ l s, accounted (foldl (λ s t, flushTopic o t s) s l) ≡ₚ accounted s) as H.
  { induction l as [|t l IH]; intros s'; cbn [foldl]; [done|]. by rewrite IH, flushTopic_accounted. }
  by rewrite H.
Qed.

Lemma enqueue_accounted topic r s : accounted (enqueue o topic r s) ≡ₚ r_id r :: accounted s.
Proof.
  unfold enqueue. set (l := default [] _ ++ [r]).
  assert (accounted (with_batch topic l s) ≡ₚ [r_id r] ++ accounted s) as Hb.
  { apply with_batch_accounted. unfold l. rewrite ids_app. apply Permutation_app_comm. }
  destruct (batchSize o <=? length l)%nat; [by rewrite flushTopic_accounted|].
  destruct (timer (with_batch topic l s)); exact Hb.
Qed.

(** The producer id has not failed. *)
Definition no_failure (s : producer) : Prop := initPromise s ≠ InitFailed.

Lemma flushTopic_no_failure topic s : no_failure s → no_failure (flushTopic o topic s).
Proof.
  intros H. unfold flushTopic, no_failure in *. destruct (jm_get topic (batches s)) as [[|r l]|]; [done| |done].
  destruct (_ || _)%bool; [by destruct (start_group _ _ _ _)|]. cbn [initPromise add_flush with_init with_batch].
  by destruct (initPromise s).
Qed.
Lemma flush_all_no_failure s : no_failure s → no_failure (flush_all o s).
Proof.
  unfold flush_all. generalize (jm_keys (batches s)) as l. intros l H.
  assert (no_failure (with_timer false s)) as H1 by done. revert H1. generalize (with_timer false s). clear H.
  induction l as [|t l IH]; intros s' H; cbn [foldl]; [done|]. by apply IH, flushTopic_no_failure.
Qed.
Lemma enqueue_no_failure topic r s : no_failure s → no_failure (enqueue o topic r s).
Proof.
  intros H. unfold enqueue. case_match; [by apply flushTopic_no_failure|]. by case_match.
Qed.

Definition sent (e : event) : option nat := match e with Send _ id _ _ => Some id | _ => None end.

Lemma step_accounted s e : no_failure s → e ≠ IdFails →
  no_failure (step o s e) ∧ accounted (step o s e) ≡ₚ option_list (sent e) ++ accounted s.
Proof.
  intros Hs He. destruct e as [topic id p count| | | |id| |i|i|i]; cbn [step sent option_list app].
  - destruct (closed s).
    { split; [done|]. unfold accounted. cbn [batches flushes effects]. rewrite settled_effects_app. cbn.
      rewrite !(assoc_L (++)). symmetry. rewrite <-Permutation_cons_append. done. }
    destruct p as [p|]; [split; [by apply enqueue_no_failure|by rewrite enqueue_accounted]|].
    destruct (next_partition topic (Z.max 1 count) s) as [p s'] eqn:E. unfold next_partition in E.
    injection E as _ <-. split; [by apply enqueue_no_failure|]. by rewrite enqueue_accounted.
  - destruct (timer s); [|done]. split; [by apply flush_all_no_failure|apply flush_all_accounted].
  - split; [by apply flush_all_no_failure|apply flush_all_accounted].
  - split; [by apply flush_all_no_failure|by rewrite flush_all_accounted].
  - by destruct (initPromise s).
  - done.
  - destruct (flushes s !! i) as [[topic l|topic n a [p prs] rest|]|] eqn:Ei; try done.
    pose proof Hs as Hs0. unfold no_failure in Hs0. destruct (producerId s); [|by destruct (initPromise s)].
    pose proof (start_group_ids topic (group_by_partition l) s) as [H1 H2].
    destruct (start_group _ _ _ _) as [f e']. cbn [fst snd] in *. split; [done|].
    rewrite (with_flush_accounted i f e' s _ Ei); [done|]. cbn [flush_ids].
    by rewrite H1, H2, app_nil_r, group_by_partition_ids.
  - destruct (flushes s !! i) as [[topic l|topic n a [p prs] rest|]|] eqn:Ei; try done.
    set (s1 := if idempotent o then _ else s).
    assert (flushes s1 !! i = flushes s !! i ∧ accounted s1 = accounted s ∧ initPromise s1 = initPromise s)
      as (E1 & E2 & E3) by (unfold s1; by destruct (idempotent o)).
    pose proof (start_group_ids topic rest s1) as [H1 H2].
    destruct (start_group o topic rest s1) as [f e']. cbn [fst snd] in *.
    split; [unfold no_failure in *; cbn [with_flush initPromise]; by rewrite E3|].
    rewrite (with_flush_accounted i f _ s1 (Producing topic n a (p, prs) rest)); [by rewrite E2|by rewrite E1|].
    rewrite settled_effects_app, H2, app_nil_r, (settled_all Resolve) by done. cbn [flush_ids]. rewrite H1. apply Permutation_app_comm.
  - destruct (flushes s !! i) as [[topic l|topic n a [p prs] rest|]|] eqn:Ei; try done.
    destruct (maxRetries o <=? a)%nat.
    + pose proof (start_group_ids topic rest s) as [H1 H2].
      destruct (start_group o topic rest s) as [f e']. cbn [fst snd] in *. split; [done|].
      rewrite (with_flush_accounted i f _ s _ Ei); [done|].
      rewrite settled_effects_app, H2, app_nil_r, (settled_all Reject) by done. cbn [flush_ids]. rewrite H1. apply Permutation_app_comm.
    + split; [done|]. rewrite (with_flush_accounted i _ _ s _ Ei); [done|]. cbn. by rewrite app_nil_r.
Qed.
End conservation.

(** ** Properties *)

Definition sends (es : list event) : list nat := omap sent es.

(** Whatever the order of sends, flushes, answers and failures, and however flushes overlap,
    every record that was sent is buffered, in flight, resolved or rejected, and that once,
    as long as the broker gives the producer its id. *)
Theorem records_accounted o (es : list event) (Hes : Forall (λ e, e ≠ IdFails) es) :
  accounted (run o es) ≡ₚ sends es.
Proof.
  assert (no_failure (run o es) ∧ accounted (run o es) ≡ₚ sends es) as [_ H]; [|exact H].
  unfold run. induction es as [|e es IH] using rev_ind; [done|].
  apply Forall_app in Hes as [Hes He]. apply Forall_cons in He as [He _].
  destruct (IH Hes) as [H1 H2]. rewrite foldl_app. cbn [foldl].
  destruct (step_accounted o (foldl (step o) new_producer es) e H1 He) as [H3 H4]. split; [done|].
  rewrite H4, H2. unfold sends. rewrite omap_app. cbn. rewrite Permutation_app_comm.
  destruct (sent e); cbn; by rewrite ?app_nil_r.
Qed.

(** Two flushes of one partition that overlap give both batches the same sequence number:
    a broker that removes duplicates takes the second for a repetition of the first. *)
Theorem overlapping_flushes_share_sequence o s topic p (l1 l2 : list PendingRecord) id
    (Hi : idempotent o = true) (Hid : producerId s = Some id)
    (H1 : jm_get topic (batches s) = Some l1) (Hn1 : l1 ≠ []) (Hn2 : l2 ≠ [])
    (Hp : Forall (λ r, r_partition r = p) (l1 ++ l2)) :
  effects (flushTopic o topic (with_batch topic l2 (flushTopic o topic s))) =
  effects s ++ [Produce topic p (sequence_of o topic p s) (ids l1); Produce topic p (sequence_of o topic p s) (ids l2)].
Proof.
  assert (∀ l, l ≠ [] → Forall (λ r, r_partition r = p) l → group_by_partition l = [(p, l)]) as Hg.
  { intros l. unfold group_by_partition. induction l as [|r l IH] using rev_ind; [done|]. intros _ [Hl Hr]%Forall_app.
    apply Forall_cons in Hr as [<- _]. rewrite foldl_app. cbn [foldl].
    destruct (decide (l = [])) as [->|Hne]; [done|]. rewrite IH by done. cbn [jm_get jm_set].
    by rewrite !decide_True by done. }
  apply Forall_app in Hp as [Hp1 Hp2].
  assert (∀ s l, producerId s = Some id → jm_get topic (batches s) = Some l → l ≠ [] →
    Forall (λ r, r_partition r = p) l →
    flushTopic o topic s = add_flush (Producing topic (sequence_of o topic p s) 0 (p, l) [])
      [Produce topic p (sequence_of o topic p s) (ids l)] (with_batch topic [] s)) as Hf.
  { intros s' l Hid' Hl Hne Hp. unfold flushTopic. rewrite Hl. destruct l as [|r l]; [done|].
    cbn [with_batch producerId]. rewrite Hid', Hi. cbn [negb orb]. rewrite bool_decide_eq_true_2 by eauto.
    by rewrite Hg. }
  rewrite (Hf s l1) by done. rewrite (Hf _ l2); [|done|apply jm_get_set_eq|done|done].
  cbn [add_flush with_batch effects]. rewrite <-(assoc_L (++)). unfold sequence_of. by rewrite Hi.
Qed.

(** When the id of the producer does not come, the records that wait for it are neither
    buffered nor in flight any more, and their sends are never answered. *)
Example failed_id_orphans_records :
  let o := {| batchSize := 1; idempotent := true; maxRetries := 3 |} in
  let s := run o [Send "t" 1 (Some 0) 1; IdFails; IdAwaited 0; Flush; Close] in
  effects s = [] ∧ flushes s = [Done] ∧ jm_get "t"%string (batches s) = Some [].
Proof. vm_compute. done. Qed.

Lemma records_accounted_witness :
  accounted (run {| batchSize := 2; idempotent := true; maxRetries := 1 |}
    [Send "t" 1 None 3; Send "t" 2 None 3; IdArrives 9; IdAwaited 0; Acked 0; Send "t" 3 (Some 0) 3; Failed 0])
  ≡ₚ [1%nat; 2%nat; 3%nat].
Proof.
  apply (records_accounted {| batchSize := 2; idempotent := true; maxRetries := 1 |}
    [Send "t" 1 None 3; Send "t" 2 None 3; IdArrives 9; IdAwaited 0; Acked 0; Send "t" 3 (Some 0) 3; Failed 0]).
  repeat constructor; discriminate.
Defined.

Lemma overlapping_flushes_share_sequence_witness :
  let o := {| batchSize := 1; idempotent := true; maxRetries := 0 |} in
  let s := with_batch "t" [{| r_partition := 0; r_id := 1 |}] (with_init Asked (Some 9) new_producer) in
  effects (flushTopic o "t" (with_batch "t" [{| r_partition := 0; r_id := 2 |}] (flushTopic o "t" s))) =
  [Produce "t" 0 0 [1%nat]; Produce "t" 0 0 [2%nat]].
Proof.
  intros o s.
  rewrite (overlapping_flushes_share_sequence o s "t" 0 [{| r_partition := 0; r_id := 1 |}]
    [{| r_partition := 0; r_id := 2 |}] 9); [reflexivity|reflexivity|reflexivity|reflexivity|discriminate|discriminate|].
  repeat constructor.
Defined.
