(* ===== verification/KafkaConsumer.v ===== *)
(** * Kafka: the consumer

    Models [KafkaConsumer] of src/packages/core/src/transports/kafka/index.ts: the starting
    offsets, and the poll loop with its handler and commits.

    The client and the handler are arguments that act on a state of their own, in which
    [running] is read as well ([stop] can come at any await); what the loop does is a log.
    [FetchLaws] is what the loop needs of the client: a fetch returns a beginning of the
    records from an offset on.  The client of KafkaClient.v keeps it ([client_laws]) with a
    broker that keeps [BrokerLaws], the promise of the other side of the wire: a fetch is
    answered by whole batches of the log in order, the last of which may be cut. *)

From Stdlib Require Import Ascii String.
From S2P Require Import Prelude JsText JsMap JsInt Bytes KafkaWire KafkaRecords KafkaClient.

Open Scope Z_scope.
#[local] Open Scope list_scope.

Inductive action : Type :=
| Handled (partition offset : Z)
| Committed (partition offset : Z).

Definition offset_of (r : KafkaRecord) : Z := default 0 (offset r).

Section consumer.
Context {W : Type}.
Context (fetch : Z → Z → W → option (list KafkaRecord) * W).      (* [None]: it throws *)
Context (handler : Z → KafkaRecord → W → bool * W).
Context (commit : Z → Z → W → bool * W).
Context (running : W → bool).
Context (pause : W → W).
Context (autoCommit : bool).

Record consumer : Type := { offsets : list (Z * Z); log : list action; world : W }.

Definition set_world (w : W) (s : consumer) : consumer :=
  {| offsets := offsets s; log := log s; world := w |}.
Definition handled (p off : Z) (w : W) (s : consumer) : consumer :=
  {| offsets := jm_set p (off + 1) (offsets s); log := log s ++ [Handled p off]; world := w |}.
Definition committed (p off : Z) (w : W) (s : consumer) : consumer :=
  {| offsets := offsets s; log := log s ++ [Committed p off]; world := w |}.

(** [committed >= 0n], or the first or the last offset of the partition. *)
Definition startOffset (stored : Z) (fromBeginning : bool) (earliest latest : Z) : Z :=
  if 0 <=? stored then stored else if fromBeginning then earliest else latest.

(** The loop over the records: whether the handler threw, whether there was data. *)
Fixpoint handle_records (p : Z) (rs : list KafkaRecord) (any : bool) (s : consumer) : bool * bool * consumer :=
  match rs with
  | [] => (true, any, s)
  | r :: rs =>
      if negb (running (world s)) then (true, any, s)
      else
        match handler p r (world s) with
        | (true, w) => handle_records p rs true (handled p (offset_of r) w s)
        | (false, w) => (false, any, set_world w s)
        end
  end.

(** One partition of a pass; [anyData] is that of the whole pass. *)
Definition poll_partition (p : Z) (any : bool) (s : consumer) : bool * consumer :=
  let from := default 0 (jm_get p (offsets s)) in
  match fetch p from (world s) with
  | (None, w) => (any, set_world (pause w) s)
  | (Some rs, w) =>
      let '(ok, any, s) := handle_records p rs any (set_world w s) in
      if negb ok then (any, set_world (pause (world s)) s)
      else if any && autoCommit then
        let off := default 0 (jm_get p (offsets s)) in
        match commit p off (world s) with
        | (true, w) => (any, committed p off w s)
        | (false, w) => (any, set_world (pause w) s)
        end
      else (any, s)
  end.

Fixpoint pass (ps : list Z) (any : bool) (s : consumer) : bool * consumer :=
  match ps with
  | [] => (any, s)
  | p :: ps =>
      if negb (running (world s)) then (any, s)
      else let '(any, s) := poll_partition p any s in pass ps any s
  end.

(** [n] turns of the loop. *)
Fixpoint polls (n : nat) (ps : list Z) (s : consumer) : consumer :=
  match n with
  | O => s
  | S n =>
      if negb (running (world s)) then s
      else
        let '(any, s) := pass ps false s in
        polls n ps (if any then s else set_world (pause (world s)) s)
  end.

(** [commit]. *)
Definition commit_now (p : Z) (s : consumer) : consumer :=
  match jm_get p (offsets s) with
  | Some off => match commit p off (world s) with (true, w) => committed p off w s | (false, w) => set_world w s end
  | None => s
  end.

(** ** What a fetch promises *)

Class FetchLaws (stored : Z → list KafkaRecord) : Prop := {
  stored_ascending p : StronglySorted (λ r r', offset_of r < offset_of r') (stored p);
  fetch_prefix p from w rs w' :
    fetch p from w = (Some rs, w') → ∃ rest, filter (λ r, from <= offset_of r) (stored p) = rs ++ rest;
}.

Context (stored : Z → list KafkaRecord) {Hlaws : FetchLaws stored} (start : Z → Z).

(** Every record of a partition from the start up to an offset has been handled. *)
Definition all_handled (p upto : Z) (l : list action) : Prop :=
  ∀ r, r ∈ stored p → start p <= offset_of r < upto → Handled p (offset_of r) ∈ l.

(** Commits come after the handling of all that they cover. *)
Definition commits_after (l : list action) : Prop :=
  ∀ l1 p o l2, l = l1 ++ Committed p o :: l2 → all_handled p o l1.

Record sound (s : consumer) : Prop := {
  sound_offsets p o : jm_get p (offsets s) = Some o → all_handled p o (log s);
  sound_commits : commits_after (log s);
}.

Lemma all_handled_more p o l l' : all_handled p o l → all_handled p o (l ++ l').
Proof. intros H r Hr Ho. apply elem_of_app. left. by apply H. Qed.

Lemma commits_after_snoc l a :
  commits_after l → (∀ p o, a = Committed p o → all_handled p o l) → commits_after (l ++ [a]).
Proof.
  intros Hl Ha l1 p o l2 E. destruct l2 as [|b l2 _] using rev_ind.
  - apply app_inj_tail in E as [-> E]. by apply Ha.
  - rewrite app_comm_cons, (assoc_L (++)) in E. apply app_inj_tail in E as [-> _]. by apply (Hl l1 p o l2).
Qed.

Lemma set_world_sound w s : sound s → sound (set_world w s).
Proof. by intros []. Qed.

Lemma committed_sound p off w s :
  sound s → jm_get p (offsets s) = Some off → sound (committed p off w s).
Proof.
  intros [H1 H2] Hp. split; cbn [committed offsets log].
  - intros p' o Hp'. by apply all_handled_more, H1.
  - apply commits_after_snoc; [done|]. intros p' o [= <- <-]. by apply H1.
Qed.

(** The next record of a fetch: everything before it is behind the offset. *)
Lemma ascending_next {A} (f : A → Z) l cur r rs :
  StronglySorted (λ x y, f x < f y) l → filter (λ x, cur <= f x) l = r :: rs →
  filter (λ x, f r + 1 <= f x) l = rs ∧ ∀ x, x ∈ l → cur <= f x < f r + 1 → x = r.
Proof.
  induction 1 as [|y l Hs IH Hall]; [done|]. rewrite !filter_cons. rewrite Forall_forall in Hall.
  destruct (decide (cur <= f y)) as [Hy|Hy].
  - intros [= -> E]. rewrite decide_False by lia. split.
    + rewrite <-E. apply filter_iff_in. intros x Hx. specialize (Hall x Hx). lia.
    + intros x [->|Hx]%elem_of_cons Hb; [done|]. specialize (Hall x Hx). lia.
  - intros E. destruct (IH E) as [E' Hu].
    assert (cur <= f r) as Hr.
    { assert (r ∈ filter (λ x, cur <= f x) l) as Hin by (rewrite E; left). by apply list_elem_of_filter in Hin as [? _]. }
    rewrite decide_False by lia. split; [done|]. intros x [->|Hx]%elem_of_cons Hb; [lia|by apply Hu].
Qed.

Lemma handle_records_sound p rs : ∀ any s cur rest,
  sound s → jm_get p (offsets s) = Some cur →
  filter (λ r, cur <= offset_of r) (stored p) = rs ++ rest →
  sound (handle_records p rs any s).2 ∧ is_Some (jm_get p (offsets (handle_records p rs any s).2)).
Proof.
  induction rs as [|r rs IH]; intros any s cur rest Hs Hp Hf; cbn [handle_records]; [by eauto|].
  destruct (negb (running (world s))); [by eauto|]. destruct (handler p r (world s)) as [[] w].
  - cbn [app] in Hf. destruct (ascending_next offset_of (stored p) cur r (rs ++ rest) (stored_ascending p) Hf) as [Hf' Hu].
    apply (IH true _ (offset_of r + 1) rest); [|apply jm_get_set_eq|exact Hf'].
    destruct Hs as [H1 H2]. split; cbn [handled offsets log].
    + intros p' o Hp'. destruct (decide (p' = p)) as [->|Hne].
      * rewrite jm_get_set_eq in Hp'. injection Hp' as <-. intros x Hx Hb.
        destruct (Z.lt_ge_cases (offset_of x) cur) as [Hlt|Hge].
        -- apply elem_of_app. left. apply (H1 p cur Hp x Hx). lia.
        -- rewrite (Hu x Hx) by lia. apply elem_of_app. right. left.
      * rewrite jm_get_set_ne in Hp' by done. by apply all_handled_more, H1.
    + by apply commits_after_snoc.
  - split; [by apply set_world_sound|]. by eauto.
Qed.

Lemma handle_records_keeps q p rs : ∀ any s,
  is_Some (jm_get q (offsets s)) → is_Some (jm_get q (offsets (handle_records p rs any s).2)).
Proof.
  induction rs as [|r rs IH]; intros any s Hq; cbn [handle_records]; [done|].
  destruct (negb (running (world s))); [done|]. destruct (handler p r (world s)) as [[] w]; [|done].
  apply IH. cbn [handled offsets]. destruct (decide (q = p)) as [->|Hne].
  - rewrite jm_get_set_eq. by eexists.
  - by rewrite jm_get_set_ne.
Qed.

Lemma poll_partition_sound p any s :
  sound s → is_Some (jm_get p (offsets s)) → sound (poll_partition p any s).2.
Proof.
  intros Hs [cur Hp]. unfold poll_partition. rewrite Hp. unfold default at 1, from_option at 1, id at 1.
  destruct (fetch p cur (world s)) as [[rs|] w] eqn:E; [|by apply set_world_sound].
  apply fetch_prefix in E as [rest Hf].
  pose proof (handle_records_sound p rs any (set_world w s) cur rest (set_world_sound _ _ Hs) Hp Hf) as [H1 [cur' H2]].
  destruct (handle_records p rs any (set_world w s)) as [[ok any'] s1]. cbn [snd] in *.
  destruct ok; cbn [negb]; [|by apply set_world_sound]. destruct (any' && autoCommit); [|done].
  rewrite H2. unfold default, from_option, id. destruct (commit p cur' (world s1)) as [[] w']; [by apply committed_sound|by apply set_world_sound].
Qed.

Lemma poll_partition_keeps q p any s :
  is_Some (jm_get q (offsets s)) → is_Some (jm_get q (offsets (poll_partition p any s).2)).
Proof.
  intros Hq. unfold poll_partition. destruct (fetch p _ (world s)) as [[rs|] w]; [|done].
  pose proof (handle_records_keeps q p rs any (set_world w s) Hq) as H.
  destruct (handle_records p rs any (set_world w s)) as [[ok any'] s1]. cbn [snd] in H.
  destruct ok; cbn [negb]; [|done]. destruct (any' && autoCommit); [|done]. by destruct (commit p _ (world s1)) as [[] w'].
Qed.

(** The assigned partitions have an offset, so the assertions of the loop hold. *)
Definition assigned (ps : list Z) (s : consumer) : Prop := ∀ p, p ∈ ps → is_Some (jm_get p (offsets s)).

Section loop_rule.
Context (I : consumer → Prop) (I_world : ∀ w s, I s → I (set_world w s)).
Context (I_partition : ∀ p any s, I s → is_Some (jm_get p (offsets s)) → I (poll_partition p any s).2).

Lemma pass_inv ps0 ps : ∀ any s,
  ps ⊆ ps0 → I s → assigned ps0 s → I (pass ps any s).2 ∧ assigned ps0 (pass ps any s).2.
Proof.
  induction ps as [|p ps IH]; intros any s Hin Hs Ha; cbn [pass]; [done|]. destruct (negb (running (world s))); [done|].
  assert (p ∈ ps0) as Hp by (apply Hin; left).
  pose proof (I_partition p any s Hs (Ha p Hp)) as H1.
  pose proof (λ q Hq, poll_partition_keeps q p any s (Ha q Hq)) as H2.
  destruct (poll_partition p any s) as [any' s']. apply IH; [set_solver|done|exact H2].
Qed.

Lemma polls_inv ps n : ∀ s, I s → assigned ps s → I (polls n ps s).
Proof.
  induction n as [|n IH]; intros s Hs Ha; cbn [polls]; [done|]. destruct (negb (running (world s))); [done|].
  destruct (pass_inv ps ps false s (reflexivity _) Hs Ha) as [H1 H2].
  destruct (pass ps false s) as [any s']. destruct any; apply IH; [done..|by apply I_world|done].
Qed.
End loop_rule.

Lemma commit_now_sound p s : sound s → sound (commit_now p s).
Proof.
  intros Hs. unfold commit_now. destruct (jm_get p (offsets s)) as [off|] eqn:E; [|done].
  destruct (commit p off (world s)) as [[] w]; [by apply committed_sound|by apply set_world_sound].
Qed.

(** ** A record the handler never accepts *)

Section poison.
Context (p : Z) (r : KafkaRecord) (Hr : r ∈ stored p) (Hbad : ∀ w, (handler p r w).1 = false).

(** The partition is still at or before the record. *)
Record blocked (s : consumer) : Prop := {
  blocked_offset cur : jm_get p (offsets s) = Some cur → cur <= offset_of r;
  blocked_log o : Handled p o ∈ log s → o < offset_of r;
}.

Lemma blocked_set_world w s : blocked s → blocked (set_world w s).
Proof. by intros []. Qed.

Lemma blocked_committed q off w s : blocked s → blocked (committed q off w s).
Proof.
  intros [H1 H2]. split; [exact H1|]. cbn [committed log]. intros o [Ho|Ho]%elem_of_app; [by apply H2|].
  by apply list_elem_of_singleton in Ho.
Qed.

Lemma handled_other q off w s : p ≠ q → blocked s → blocked (handled q off w s).
Proof.
  intros Hne [H1 H2]. split; cbn [handled offsets log].
  - rewrite jm_get_set_ne by done. exact H1.
  - intros o [Ho|Ho]%elem_of_app; [by apply H2|]. apply list_elem_of_singleton in Ho. by injection Ho.
Qed.

Lemma handle_records_blocked q rs : ∀ any s cur rest,
  blocked s → jm_get q (offsets s) = Some cur →
  filter (λ r, cur <= offset_of r) (stored q) = rs ++ rest →
  blocked (handle_records q rs any s).2.
Proof.
  induction rs as [|x rs IH]; intros any s cur rest Hs Hq Hf; cbn [handle_records]; [done|].
  destruct (negb (running (world s))); [done|]. destruct (handler q x (world s)) as [[] w] eqn:E; [|by apply blocked_set_world].
  cbn [app] in Hf. destruct (ascending_next offset_of (stored q) cur x (rs ++ rest) (stored_ascending q) Hf) as [Hf' Hu].
  apply (IH true _ (offset_of x + 1) rest); [|apply jm_get_set_eq|exact Hf'].
  destruct (decide (p = q)) as [<-|Hne]; [|by apply handled_other]. pose proof (blocked_offset s Hs cur Hq) as Hc.
  assert (offset_of x < offset_of r) as Hlt.
  { destruct (Z.lt_ge_cases (offset_of x) (offset_of r)) as [|Hge]; [done|].
    pose proof (Hbad (world s)) as Hb. rewrite (Hu r Hr), E in Hb by lia. discriminate. }
  split; cbn [handled offsets log].
  - intros c. rewrite jm_get_set_eq. intros [= <-]. lia.
  - intros o [Ho|Ho]%elem_of_app; [by apply Hs|]. apply list_elem_of_singleton in Ho. injection Ho as ->. done.
Qed.

Lemma poll_partition_blocked q any s :
  blocked s → is_Some (jm_get q (offsets s)) → blocked (poll_partition q any s).2.
Proof.
  intros Hs [cur Hq]. unfold poll_partition. rewrite Hq. unfold default at 1, from_option at 1, id at 1.
  destruct (fetch q cur (world s)) as [[rs|] w] eqn:E; [|by apply blocked_set_world].
  apply fetch_prefix in E as [rest Hf].
  pose proof (handle_records_blocked q rs any (set_world w s) cur rest (blocked_set_world _ _ Hs) Hq Hf) as H1.
  destruct (handle_records q rs any (set_world w s)) as [[ok any'] s1]. cbn [snd] in H1.
  destruct ok; cbn [negb]; [|by apply blocked_set_world]. destruct (any' && autoCommit); [|done].
  destruct (commit q _ (world s1)) as [[] w']; [by apply blocked_committed|by apply blocked_set_world].
Qed.
End poison.

(** The state in which [run] enters the loop. *)
Definition started (ps : list Z) (w : W) : consumer :=
  {| offsets := fold_left (λ m p, jm_set p (start p) m) ps []; log := []; world := w |}.

Lemma started_offsets ps : ∀ m p,
  jm_get p (fold_left (λ m p, jm_set p (start p) m) ps m) = if decide (p ∈ ps) then Some (start p) else jm_get p m.
Proof.
  induction ps as [|q ps IH]; intros m p; cbn [fold_left].
  - rewrite decide_False by apply not_elem_of_nil. done.
  - rewrite IH. destruct (decide (p ∈ ps)) as [Hp|Hp].
    + rewrite decide_True; [done|by right].
    + destruct (decide (p = q)) as [->|Hne].
      * rewrite decide_True by left. apply jm_get_set_eq.
      * rewrite decide_False by (intros [?|?]%elem_of_cons; done). by apply jm_get_set_ne.
Qed.

Lemma started_sound ps w : sound (started ps w) ∧ assigned ps (started ps w).
Proof.
  split; [split|].
  - intros p o Hp. cbn [started offsets] in Hp. rewrite started_offsets in Hp. case_decide; [|done].
    injection Hp as <-. intros r _ Hr. lia.
  - intros l1 p o l2 E. by destruct l1.
  - intros p Hp. cbn [started offsets]. rewrite started_offsets, decide_True by done. by eexists.
Qed.

(** Whatever fetches, commits and handler calls fail, and wherever the loop is stopped, an
    offset is committed only when the handler has returned for all that it covers. *)
Lemma polls_sound (ps : list Z) (w : W) (n : nat) : sound (polls n ps (started ps w)).
Proof.
  destruct (started_sound ps w) as [Hs Ha].
  exact (polls_inv sound set_world_sound poll_partition_sound ps n _ Hs Ha).
Qed.

(** A record that the handler rejects every time stops its partition for good: the loop retries
    it on every turn and nothing at or after it is ever handled. *)
Theorem failing_record_blocks (ps : list Z) (w : W) (n : nat) (p : Z) (r : KafkaRecord) (o : Z)
    (Hr : r ∈ stored p) (Hstart : start p <= offset_of r) (Hbad : ∀ w, (handler p r w).1 = false)
    (Ho : Handled p o ∈ log (polls n ps (started ps w))) : o < offset_of r.
Proof.
  destruct (started_sound ps w) as [_ Ha]. apply (blocked_log p r (polls n ps (started ps w))); [|exact Ho].
  apply (polls_inv (blocked p r) (blocked_set_world p r) (poll_partition_blocked p r Hr Hbad)); [|done]. split.
  - intros cur Hc. cbn [started offsets] in Hc. rewrite started_offsets in Hc. case_decide; [|done]. by injection Hc as <-.
  - intros o' Ho'. by apply elem_of_nil in Ho'.
Qed.
End consumer.

(** ** The client keeps the promise *)

(** What a broker writes of one partition in the response to a fetch.  There are no aborted
    transactions when nobody asks for committed records only: their array is null. *)
Record FetchAnswer : Type := {
  fa_throttle : Z; fa_topic : list ascii; fa_partition : Z; fa_error : Z;
  fa_highWatermark : Z; fa_lastStable : Z; fa_recordSet : option (list ascii)
}.
Definition w_fetch_response (a : FetchAnswer) : result range_error (list ascii) :=
  t ← w_int32 (fa_throttle a); topics ← w_int32 1; s ← w_string (Some (fa_topic a));
  count ← w_int32 1; p ← w_int32 (fa_partition a); e ← w_int16 (fa_error a);
  h ← w_int64 (fa_highWatermark a); l ← w_int64 (fa_lastStable a); aborted ← w_int32 (-1);
  b ← w_bytes (fa_recordSet a);
  Ok (t ++ topics ++ s ++ count ++ p ++ e ++ h ++ l ++ aborted ++ b).

(** The parser of [fetch] reads it back. *)
Lemma reads_fetch_response utf8 a w :
  w_fetch_response a = Ok w →
  reads (_ ← r_int32; per_partition utf8 fetch_partition)
    [(fa_error a, fa_highWatermark a, fa_recordSet a)] w.
Proof.
  unfold w_fetch_response.
  intros (t & Ht & H)%result_bind_ok. apply result_bind_ok in H as (n1 & H1 & H).
  apply result_bind_ok in H as (s & Hs & H). apply result_bind_ok in H as (n2 & H2 & H).
  apply result_bind_ok in H as (p & Hp & H). apply result_bind_ok in H as (e & He & H).
  apply result_bind_ok in H as (h & Hh & H). apply result_bind_ok in H as (l & Hl & H).
  apply result_bind_ok in H as (n3 & H3 & H). apply result_bind_ok in H as (b & Hb & <-%Ok_inj).
  assert (reads fetch_partition (fa_error a, fa_highWatermark a, fa_recordSet a)
    (p ++ e ++ h ++ l ++ n3 ++ b)) as Hpart.
  { unfold fetch_partition. do 5 (eapply reads_bind; [by apply reads_int; [lia|]|]; cbv beta).
    change (read_times _ (Z.to_nat (-1))) with (mret (M:=reader) ([] : list Z)).
    apply (reads_bind _ _ [] _ [] b); [apply reads_ret|]. cbv beta.
    apply (reads_map r_bytes (λ x, (fa_error a, fa_highWatermark a, x))). by apply reads_bytes. }
  eapply reads_bind; [by apply reads_int; [lia|]|]. cbv beta. unfold per_partition.
  replace [(fa_error a, fa_highWatermark a, fa_recordSet a)]
    with (mjoin [[(fa_error a, fa_highWatermark a, fa_recordSet a)]]) by done.
  apply (reads_map _ mjoin). unfold read_counted at 1.
  eapply reads_bind; [by apply reads_int; [lia|]|]. cbv beta. change (Z.to_nat 1) with 1%nat.
  cbn [read_times].
  replace (s ++ n2 ++ p ++ e ++ h ++ l ++ n3 ++ b) with ((s ++ n2 ++ p ++ e ++ h ++ l ++ n3 ++ b) ++ [])
    by apply app_nil_r.
  eapply reads_bind; [|apply (reads_map (mret []) (cons _)), reads_ret].
  eapply reads_bind; [by apply reads_string|]. cbv beta. unfold read_counted.
  eapply reads_bind; [by apply reads_int; [lia|]|]. cbv beta. change (Z.to_nat 1) with 1%nat.
  cbn [read_times]. rewrite <-(app_nil_r (p ++ e ++ h ++ l ++ n3 ++ b)).
  eapply reads_bind; [exact Hpart|]. apply (reads_map (mret []) (cons _)), reads_ret.
Qed.

(** What a broker may send of the log of a partition to a fetch from an offset: whole batches
    one after another, from one at or before the first that reaches the offset, and the
    beginning of a last one, cut where the limit on bytes falls. *)
Definition sent_from (log : list stored) (from : Z) (b : option (list ascii)) : Prop :=
  match b with
  | None | Some [] => True
  | Some b => ∃ before sent after ws cut w n, log = before ++ sent ++ after ∧
      Forall (λ x, ∀ r, r ∈ stored_records x → offset_of r < from) before ∧
      Forall2 stored_as sent ws ∧ stored_as cut w ∧ (n < length w)%nat ∧ b = mjoin ws ++ take n w
  end.

Section broker.
Context {W : Type} (utf8 : list ascii → list ascii).
Context (dial : list ascii → Z → W → option nat * W) (alive : nat → W → bool).
Context (ask : nat → Z → Z → list ascii → W → option (list ascii) * W) (pause : Z → W → W).
Context (bootstrap : list (list ascii * Z)) (topic : list ascii) (maxWaitMs maxBytes : Z).

(** The fetch of the poll loop, by the client. *)
Definition client_fetch (p from : Z) (c : client (W:=W)) : option (list KafkaRecord) * client (W:=W) :=
  match fetch utf8 dial alive ask pause bootstrap topic p maxWaitMs maxBytes from c with
  | (Ok s, c) => (Some (f_records s), c)
  | (Throw _, c) => (None, c)
  end.

(** The promise of the broker: a partition is a log of batches in the format of the encoder,
    with ascending offsets (all that are ever appended to it), and a fetch that is answered
    without an error is answered from this log. *)
Class BrokerLaws (log : Z → list stored) : Prop := {
  log_ascending p :
    StronglySorted (λ r r', offset_of r < offset_of r') (mjoin (stored_records <$> log p));
  fetch_answered k p from body w resp w' :
    fetch_request topic p maxWaitMs maxBytes from = Ok body → ask k FETCH 4 body w = (Some resp, w') →
    ∃ a, w_fetch_response a = Ok resp ∧ (fa_error a = 0 → sent_from (log p) from (fa_recordSet a));
}.

Lemma list_filter_from from l : List.filter (from_offset from) l = filter (λ r, from <= offset_of r) l.
Proof.
  induction l as [|r l IH]; [done|]. cbn [List.filter]. rewrite filter_cons, IH. unfold from_offset.
  fold (offset_of r). by destruct (Z.leb_spec from (offset_of r)), (decide (from <= offset_of r)); try lia.
Qed.

(** One answered partition: the records from the offset on, or the error. *)
Lemma results_of_sent log from err hw b s :
  fetch_results from [(err, hw, b)] {| f_records := []; highWatermark := 0 |} = Ok s →
  (err = 0 → sent_from log from b) →
  ∃ rest, filter (λ r, from <= offset_of r) (mjoin (stored_records <$> log)) = f_records s ++ rest.
Proof.
  cbn [fetch_results]. destruct (Z.eqb_spec err 0) as [He|]; [|done]. cbn [negb]. intros Hs Hb.
  specialize (Hb He). destruct b as [[|x b]|]; [injection Hs as <-; by eexists| |injection Hs as <-; by eexists].
  destruct Hb as (before & sent & after & ws & cut & w & n & -> & Hbefore & Hsent & Hcut & Hn & Eb).
  rewrite Eb, (batches_roundtrip sent ws cut w n Hsent Hcut Hn) in Hs. injection Hs as <-. cbn [f_records].
  rewrite list_filter_from, !fmap_app, !join_app, !filter_app.
  exists (filter (λ r, from <= offset_of r) (mjoin (stored_records <$> after))).
  rewrite (filter_none _ (mjoin (stored_records <$> before))); [done|].
  apply Forall_forall. intros r (x' & Hr & (y & -> & Hy)%list_elem_of_fmap)%list_elem_of_join.
  rewrite Forall_forall in Hbefore. specialize (Hbefore y Hy r Hr). lia.
Qed.

#[export] Instance client_laws log `{!BrokerLaws log} :
  FetchLaws client_fetch (λ p, mjoin (stored_records <$> log p)).
Proof.
  split; [apply log_ascending|]. intros p from c rs c'. unfold client_fetch.
  destruct (fetch _ _ _ _ _ _ _ _ _ _ _ c) as [[s|e] c1] eqn:E; [|done]. intros [= <- <-].
  unfold fetch in E. apply bind_inv in E as (b & c2 & _ & E). apply bind_inv in E as (k & c3 & _ & E).
  apply bind_inv in E as (l & c4 & Hreq & E). unfold request in Hreq.
  destruct (fetch_request topic p maxWaitMs maxBytes from) as [body|] eqn:Ebody; [|done].
  apply bind_inv in Hreq as (c5 & c6 & Hget & Hreq). injection Hget as <- <-.
  destruct (ask k FETCH 4 body (KafkaClient.world c3)) as [[resp|] w'] eqn:Eask; cycle 1.
  { by apply bind_inv in Hreq as ([] & c7 & _ & Hreq). }
  destruct (fetch_answered _ _ _ _ _ _ _ Ebody Eask) as (a & Ha & Hsent).
  apply bind_inv in Hreq as ([] & c7 & _ & Hreq).
  rewrite (reads_whole _ _ _ (reads_fetch_response utf8 a resp Ha)) in Hreq. injection Hreq as <- _.
  destruct (fetch_results _ _ _) as [s'|] eqn:Er; [|done]. injection E as -> _.
  by eapply results_of_sent.
Qed.

Context (log : Z → list stored) `{!BrokerLaws log}.
Context (handler : Z → KafkaRecord → client (W:=W) → bool * client (W:=W)).
Context (commit : Z → Z → client (W:=W) → bool * client (W:=W)).
Context (running : client (W:=W) → bool) (wait : client (W:=W) → client (W:=W)) (autoCommit : bool).
Context (start : Z → Z).

(** C29: A committed offset never covers a record the handler has not finished with, over the
    client of the repository and a broker that answers fetches from logs of batches as the
    encoder writes them ([BrokerLaws]): however many turns the loop takes, whatever fetches,
    commits and handler calls fail, and wherever it is stopped, when an offset of a partition
    is committed the handler has returned for every record of the log from the starting
    offset up to it. *)
Theorem commit_covers_handled_only (ps : list Z) (c : client (W:=W)) (n : nat) (p : Z) :
  let s := polls client_fetch handler commit running wait autoCommit n ps (started start ps c) in
  let stored p := mjoin (stored_records <$> log p) in
  commits_after stored start (KafkaConsumer.log s) ∧
  commits_after stored start (KafkaConsumer.log (commit_now commit p s)).
Proof.
  cbv zeta. pose proof (polls_sound client_fetch handler commit running wait autoCommit
    (λ p, mjoin (stored_records <$> log p)) start ps c n) as H.
  split; [apply H|]. by apply commit_now_sound.
Qed.
End broker.

(** ** Witnesses *)

(** A partition with offsets 3, 5 and 6; the handler rejects 6. *)
Definition record_at (o : Z) : KafkaRecord := {| key := None; value := None; timestamp := None; offset := Some o |}.
Definition three (p : Z) : list KafkaRecord := [record_at 3; record_at 5; record_at 6].
Definition fetch_two (p from : Z) (w : nat) : option (list KafkaRecord) * nat :=
  (if Nat.even w then Some (take 2 (filter (λ r, from <= offset_of r) (three p))) else None, S w).
Definition not_six (p : Z) (r : KafkaRecord) (w : nat) : bool * nat := (negb (offset_of r =? 6), w).
Definition commit_ok (p o : Z) (w : nat) : bool * nat := (true, w).
Definition after_polls (n : nat) : consumer (W:=nat) :=
  polls fetch_two not_six commit_ok (λ _, true) id true n [0] (started (λ _, 3) [0] 0%nat).

Lemma three_laws : FetchLaws fetch_two three.
Proof.
  split.
  - intros p. repeat constructor.
  - intros p from w rs w'. unfold fetch_two. destruct (Nat.even w); [|done]. intros [= <- _].
    exists (drop 2 (filter (λ r, from <= offset_of r) (three p))). by rewrite take_drop.
Qed.

(** A network with one broker that tells its metadata and sends the log of a partition, two
    records at the offsets 41 and 42, with the beginning of a batch after it; the world counts
    the requests.  The handler throws on the record at 42 until the third request. *)
Definition sample_answer : FetchAnswer :=
  {| fa_throttle := 0; fa_topic := byte <$> [116]; fa_partition := 0; fa_error := 0;
     fa_highWatermark := 43; fa_lastStable := 43;
     fa_recordSet := Some (mjoin [wire_of two] ++ take 40 (wire_of two)) |}.
Definition answer_bytes : list ascii := match w_fetch_response sample_answer with Ok w => w | Throw _ => [] end.
Definition sample_ask (k : nat) (api version : Z) (body : list ascii) (w : nat) : option (list ascii) * nat :=
  (Some (if api =? FETCH then answer_bytes else metadata_bytes), S w).
Definition sample_log (p : Z) : list stored := [two].
Definition second_try (p : Z) (r : KafkaRecord) (c : client (W:=nat)) : bool * client (W:=nat) :=
  (negb ((offset_of r =? 42) && (KafkaClient.world c <? 3)%nat), c).
Definition sample_polls (n : nat) : consumer (W:=client (W:=nat)) :=
  polls (client_fetch id (λ _ _ w, (Some 0%nat, w)) (λ _ _, true) sample_ask (λ _ w, w)
           [(byte <$> [104], 9092)] (byte <$> [116]) 1000 1048576)
    second_try (λ _ _ c, (true, c)) (λ _, true) id true n [0]
    (started (λ _, 41) [0] {| meta := None; connections := []; KafkaClient.world := 0%nat |}).

Lemma two_stored : stored_as two (wire_of two).
Proof.
  unfold stored_as, wire_of.
  destruct (encodeRecordBatch (now_ two) (with_ two) (records_ two)) as [e|] eqn:E; [|vm_compute in E; discriminate E].
  split; [cbn; lia|]. by exists e.
Qed.

Lemma sample_broker : BrokerLaws sample_ask (byte <$> [116]) 1000 1048576 sample_log.
Proof.
  split.
  - intros p. repeat constructor.
  - intros k p from body w resp w' _ [= <- _]. exists sample_answer. split; [vm_compute; reflexivity|].
    intros _. exists [], [two], [], [wire_of two], two, (wire_of two), 40%nat.
    split; [done|]. split; [by apply Forall_nil_2|].
    split; [apply Forall2_cons_2; [exact two_stored|apply Forall2_nil_2]|]. split; [exact two_stored|].
    split; [vm_compute; lia|done].
Qed.

Lemma commit_covers_handled_only_witness :
  KafkaConsumer.log (sample_polls 4) = [Handled 0 41; Handled 0 42; Committed 0 43] ∧
  commits_after (λ p, mjoin (stored_records <$> sample_log p)) (λ _, 41) (KafkaConsumer.log (sample_polls 4)).
Proof.
  split; [vm_compute; reflexivity|].
  exact (proj1 (commit_covers_handled_only id (λ _ _ w, (Some 0%nat, w)) (λ _ _, true) sample_ask (λ _ w, w)
    [(byte <$> [104], 9092)] (byte <$> [116]) 1000 1048576 sample_log (BrokerLaws0 := sample_broker)
    second_try (λ _ _ c, (true, c)) (λ _, true) id true (λ _, 41) [0]
    {| meta := None; connections := []; KafkaClient.world := 0%nat |} 4 0)).
Defined.

Lemma failing_record_blocks_witness : Handled 0 5 ∈ log (after_polls 4) ∧ 5 < offset_of (record_at 6).
Proof.
  assert (Handled 0 5 ∈ log (after_polls 4)) as H by (vm_compute; right; left).
  split; [exact H|].
  refine (failing_record_blocks fetch_two not_six commit_ok (λ _, true) id true three (Hlaws := three_laws)
    (λ _, 3) [0] 0%nat 4 0 (record_at 6) 5 _ _ _ H); [right; right; left|vm_compute; discriminate|done].
Defined.
