(* ===== verification/Channels.v ===== *)
(** * Realtime channels

    Models src/packages/websocket/src/channels.ts ([ChannelHub]) over the sockets of
    src/packages/websocket/src/server.ts ([StreetSocket]): named channels, members with
    several connections each, presence and typing events, and the clean-up when a socket
    closes.

    A connection is its id.  Sending to a socket whose buffer is full closes it at once,
    and the close handler that [bind] has registered disconnects it from the hub in the
    middle of the broadcast; that disconnection broadcasts in turn.  The functions that
    broadcast take what a failing send does as an argument, and [on_close] ties the knot
    with fuel: every level of it closes one more connection, so the number of bound
    connections is enough.  A [state] that the code holds while it broadcasts is looked up
    by the name of its channel, as nothing in a broadcast creates a channel; an iteration
    over a [Map] visits the entries that are still there when their turn comes. *)

From Stdlib Require Import String.
From S2P Require Import Prelude JsMap.

#[local] Open Scope list_scope.
Open Scope nat_scope.

(** ** Data *)

Inductive ChannelEvent : Type :=
| PresenceJoin (channel memberId : string)
| PresenceLeave (channel memberId : string)
| Typing (channel memberId : string) (typing : bool)
| Published (type payload : string).

Record ChannelState : Type := {
  members : list (string * list nat);
  conns : list nat;
  typing : list (string * option nat)        (* the timer of an entry *)
}.

Record Hub : Type := {
  channels : list (string * ChannelState);
  connChannels : list (nat * list string);
  timers : list (nat * (string * string));   (* pending timers *)
  nextTimer : nat;
  closed : list nat;
  broken : list nat;                         (* open sockets whose next send fails *)
  bound : list nat;
  delivered : list (nat * ChannelEvent)
}.

Inductive hub_error : Type := NameRequired (field : string).

Definition hub0 : Hub :=
  {| channels := []; connChannels := []; timers := []; nextTimer := 0; closed := [];
     broken := []; bound := []; delivered := [] |}.

Definition set_channels (cs : list (string * ChannelState)) (w : Hub) : Hub :=
  {| channels := cs; connChannels := connChannels w; timers := timers w; nextTimer := nextTimer w;
     closed := closed w; broken := broken w; bound := bound w; delivered := delivered w |}.
Definition set_connChannels (cc : list (nat * list string)) (w : Hub) : Hub :=
  {| channels := channels w; connChannels := cc; timers := timers w; nextTimer := nextTimer w;
     closed := closed w; broken := broken w; bound := bound w; delivered := delivered w |}.
Definition set_timers (ts : list (nat * (string * string))) (n : nat) (w : Hub) : Hub :=
  {| channels := channels w; connChannels := connChannels w; timers := ts; nextTimer := n;
     closed := closed w; broken := broken w; bound := bound w; delivered := delivered w |}.
Definition set_sockets (cl br bd : list nat) (w : Hub) : Hub :=
  {| channels := channels w; connChannels := connChannels w; timers := timers w;
     nextTimer := nextTimer w; closed := cl; broken := br; bound := bd; delivered := delivered w |}.
Definition deliver (c : nat) (e : ChannelEvent) (w : Hub) : Hub :=
  {| channels := channels w; connChannels := connChannels w; timers := timers w;
     nextTimer := nextTimer w; closed := closed w; broken := broken w; bound := bound w;
     delivered := delivered w ++ [(c, e)] |}.

Definition no_state : ChannelState := {| members := []; conns := []; typing := [] |}.

Definition state_of (ch : string) (w : Hub) : ChannelState := default no_state (jm_get ch (channels w)).
Definition conns_of (ch : string) (w : Hub) : list nat := conns (state_of ch w).
Definition members_of (ch m : string) (w : Hub) : list nat :=
  default [] (jm_get m (members (state_of ch w))).
Definition chans_of (c : nat) (w : Hub) : list string := default [] (jm_get c (connChannels w)).

Definition set_state (ch : string) (st : ChannelState) (w : Hub) : Hub :=
  set_channels (jm_set ch st (channels w)) w.

Definition clearTimeout (timer : option nat) (w : Hub) : Hub :=
  match timer with
  | Some t => set_timers (jm_delete t (timers w)) (nextTimer w) w
  | None => w
  end.

(** ** Broadcasting and leaving *)

Section broadcasting.
(** What a send to a full socket does: the close of the connection. *)
Context (on_close : nat → Hub → Hub).

Definition send (e : ChannelEvent) (c : nat) (w : Hub) : Hub :=
  if decide (c ∈ closed w) then w
  else if decide (c ∈ broken w) then on_close c w
  else deliver c e w.

Definition broadcast (ch : string) (e : ChannelEvent) (exceptConnId : option nat)
    (exceptConns : list nat) (w : Hub) : Hub :=
  foldl (λ w c, if decide (c ∈ conns_of ch w) then
                  if decide (exceptConnId = Some c) then w
                  else if decide (c ∈ exceptConns) then w
                  else send e c w
                else w) w (conns_of ch w).

(** A connection taken from a member of a channel, and the member with its last one. *)
Definition without (m : string) (c : nat) (st : ChannelState) : ChannelState :=
  let set := set_delete c (default [] (jm_get m (members st))) in
  if decide (set = []) then
    {| members := jm_delete m (members st); conns := set_delete c (conns st);
       typing := jm_delete m (typing st) |}
  else {| members := jm_set m set (members st); conns := set_delete c (conns st); typing := typing st |}.

Definition forget_channel (c : nat) (ch : string) (w : Hub) : Hub :=
  match jm_get c (connChannels w) with
  | Some chans => set_connChannels (jm_set c (set_delete ch chans) (connChannels w)) w
  | None => w
  end.

(** [removeConnFromChannel] up to the broadcast, with [nowAbsent]. *)
Definition unlink (ch m : string) (c : nat) (w : Hub) : Hub * bool :=
  let st := state_of ch w in
  let nowAbsent := bool_decide (set_delete c (default [] (jm_get m (members st))) = []) in
  let w := forget_channel c ch w in
  let w := if nowAbsent then clearTimeout (mjoin (jm_get m (typing st))) w else w in
  (set_state ch (without m c st) w, nowAbsent).

(** Drop a channel without connections and members. *)
Definition drop_empty (ch : string) (w : Hub) : Hub :=
  let st := state_of ch w in
  if decide (conns st = [] ∧ members st = []) then set_channels (jm_delete ch (channels w)) w else w.

Definition removeConnFromChannel (ch m : string) (c : nat) (w : Hub) : Hub * bool :=
  let st := state_of ch w in
  if decide (c ∈ members_of ch m w) then
    let r := unlink ch m c w in
    let w := if r.2 then broadcast ch (PresenceLeave ch m) (Some c) [] r.1 else r.1 in
    (drop_empty ch w, r.2)
  else
    let w := forget_channel c ch w in
    (set_state ch {| members := members st; conns := set_delete c (conns st); typing := typing st |} w,
     false).

Definition disconnect_channel (c : nat) (ch : string) (w : Hub) : Hub :=
  foldl (λ w m, if decide (c ∈ members_of ch m w) then (removeConnFromChannel ch m c w).1 else w)
    w (jm_keys (members (state_of ch w))).

Definition disconnect (c : nat) (w : Hub) : Hub :=
  match jm_get c (connChannels w) with
  | None => w
  | Some chans =>
      let w := foldl (λ w ch, disconnect_channel c ch w) w chans in
      set_connChannels (jm_delete c (connChannels w)) w
  end.
End broadcasting.

(** [_onClose] of a socket: once, then the handlers. *)
Fixpoint on_close (fuel : nat) (c : nat) (w : Hub) : Hub :=
  if decide (c ∈ closed w) then w
  else
    let w := set_sockets (closed w ++ [c]) (broken w) (bound w) w in
    if decide (c ∈ bound w) then
      match fuel with O => w | S fuel => disconnect (on_close fuel) c w end
    else w.

Definition socketClosed (c : nat) (w : Hub) : Hub := on_close (length (bound w)) c w.

(** ** The operations *)

Definition requireName (value field : string) : result hub_error string :=
  if decide (value = EmptyString) then Throw (NameRequired field) else Ok value.

Definition with_conn (m : string) (c : nat) (st : ChannelState) : ChannelState :=
  {| members := jm_set m (set_add c (default [] (jm_get m (members st)))) (members st);
     conns := set_add c (conns st); typing := typing st |}.
Definition link (ch m : string) (c : nat) (w : Hub) : Hub :=
  set_state ch (with_conn m c (state_of ch w))
    (set_connChannels (jm_set c (set_add ch (chans_of c w)) (connChannels w)) w).

Definition join (ch m : string) (c : nat) (w : Hub) : result hub_error (Hub * bool) :=
  ch ← requireName ch "channel"; m ← requireName m "memberId";
  let newlyPresent := bool_decide (members_of ch m w = []) in
  let w := link ch m c w in
  Ok (if newlyPresent
      then broadcast (on_close (length (bound w))) ch (PresenceJoin ch m) (Some c) [] w else w,
      newlyPresent).

Definition leave (ch m : string) (c : nat) (w : Hub) : Hub * bool :=
  match jm_get ch (channels w) with
  | None => (w, false)
  | Some _ => removeConnFromChannel (on_close (length (bound w))) ch m c w
  end.

(** [bind] when the connection has closed already disconnects it at once. *)
Definition bind (c : nat) (w : Hub) : Hub :=
  if decide (c ∈ closed w) then disconnect (on_close (length (bound w))) c w
  else set_sockets (closed w) (broken w) (set_add c (bound w)) w.

Definition publish (ch type payload : string) (exceptConnId : option nat) (exceptMemberId : string)
    (w : Hub) : Hub :=
  match jm_get ch (channels w) with
  | None => w
  | Some _ =>
      let exceptConns := if decide (exceptMemberId = EmptyString) then []
                         else members_of ch exceptMemberId w in
      broadcast (on_close (length (bound w))) ch (Published type payload) exceptConnId exceptConns w
  end.

Definition presence (ch : string) (w : Hub) : list string :=
  (filter (λ e, e.2 ≠ []) (members (state_of ch w))).*1.
Definition isPresent (ch m : string) (w : Hub) : bool := negb (bool_decide (members_of ch m w = [])).
Definition memberCount (ch : string) (w : Hub) : nat := length (presence ch w).
Definition connectionCount (ch : string) (w : Hub) : nat := length (conns_of ch w).
Definition typingMembers (ch : string) (w : Hub) : list string := jm_keys (typing (state_of ch w)).
Definition channelNames (w : Hub) : list string := jm_keys (channels w).

Section typing.
Context (typingTtl : bool).     (* [typingTtlMs > 0] *)

Definition setTyping (ch m : string) (b : bool) (conn : option nat) (w : Hub) : result hub_error Hub :=
  ch ← requireName ch "channel"; m ← requireName m "memberId";
  let st := state_of ch w in
  let w := clearTimeout (mjoin (jm_get m (typing st))) w in
  let w :=
    if b then
      let t := nextTimer w in
      let w := if typingTtl then set_timers (timers w ++ [(t, (ch, m))]) (S t) w else w in
      set_state ch {| members := members st; conns := conns st;
                      typing := jm_set m (if typingTtl then Some t else None) (typing st) |} w
    else set_state ch {| members := members st; conns := conns st;
                         typing := jm_delete m (typing st) |} w in
  Ok (broadcast (on_close (length (bound w))) ch (Typing ch m b) conn [] w).

(** A timer of a typing indicator fires. *)
Definition fire (t : nat) (w : Hub) : result hub_error Hub :=
  match jm_get t (timers w) with
  | None => Ok w
  | Some (ch, m) => setTyping ch m false None (set_timers (jm_delete t (timers w)) (nextTimer w) w)
  end.

(** ** Histories *)

Inductive hub_op : Type :=
| Join (ch m : string) (c : nat)
| Leave (ch m : string) (c : nat)
| Bind (c : nat)
| Publish (ch type payload : string) (exceptConnId : option nat) (exceptMemberId : string)
| SetTyping (ch m : string) (b : bool) (conn : option nat)
| Fire (t : nat)
| SocketClosed (c : nat)       (* the peer closes *)
| SocketFull (c : nat).        (* from now on sends to it fail *)

(** A call that throws leaves the hub as it was. *)
Definition hub_step (w : Hub) (op : hub_op) : Hub :=
  match op with
  | Join ch m c => match join ch m c w with Ok r => r.1 | Throw _ => w end
  | Leave ch m c => (leave ch m c w).1
  | Bind c => bind c w
  | Publish ch t p ec em => publish ch t p ec em w
  | SetTyping ch m b conn => match setTyping ch m b conn w with Ok w' => w' | Throw _ => w end
  | Fire t => match fire t w with Ok w' => w' | Throw _ => w end
  | SocketClosed c => socketClosed c w
  | SocketFull c => set_sockets (closed w) (broken w ++ [c]) (bound w) w
  end.
End typing.

(** ** Who is where

    The hub represents a relation between channels, members and connections. *)

Definition rel (w : Hub) (ch m : string) (c : nat) : Prop := c ∈ members_of ch m w.

#[export] Instance rel_dec w ch m c : Decision (rel w ch m c).
Proof. unfold rel. apply _. Defined.

(** Sets are not empty and hold nothing twice, the connections of a channel are those of
    its members, and a connection has one member in it. *)
Definition in_state (st : ChannelState) (m : string) (c : nat) : Prop :=
  c ∈ default [] (jm_get m (members st)).
Definition state_ok (st : ChannelState) : Prop :=
  jm_wf (members st) ∧ NoDup (conns st) ∧
  (∀ m l, jm_get m (members st) = Some l → l ≠ [] ∧ NoDup l) ∧
  (∀ c, c ∈ conns st ↔ ∃ m, in_state st m c) ∧
  (∀ m m' c, in_state st m c → in_state st m' c → m = m').

Record wf (w : Hub) : Prop := {
  wf_channels : jm_wf (channels w);
  wf_connChannels : jm_wf (connChannels w);
  wf_state ch : state_ok (state_of ch w);
  wf_chans c ch : ch ∈ chans_of c w ↔ ∃ m, rel w ch m c;
  wf_bound ch m c : rel w ch m c → c ∈ bound w
}.

Lemma state_of_set_eq ch st w : state_of ch (set_state ch st w) = st.
Proof. unfold state_of, set_state. cbn. by rewrite jm_get_set_eq. Qed.
Lemma state_of_set_ne ch ch' st w : ch ≠ ch' → state_of ch (set_state ch' st w) = state_of ch w.
Proof. intros. unfold state_of, set_state. cbn. by rewrite jm_get_set_ne. Qed.

Lemma no_state_ok : state_ok no_state.
Proof.
  unfold state_ok, in_state, no_state. cbn. split_and!; try constructor; try done.
  - by intros ?%elem_of_nil.
  - by intros [? ?%elem_of_nil].
  - intros ??? ?%elem_of_nil. done.
Qed.

Lemma hub0_wf : wf hub0.
Proof.
  split.
  - constructor.
  - constructor.
  - intros ch. apply no_state_ok.
  - intros c ch. split; [by intros ?%elem_of_nil|by intros [m ?%elem_of_nil]].
  - by intros ch m c ?%elem_of_nil.
Qed.

(** *** One channel *)

Lemma without_lookup m c st m' c' :
  state_ok st → in_state (without m c st) m' c' ↔ in_state st m' c' ∧ ¬ (m' = m ∧ c' = c).
Proof.
  intros (Hwf & _). unfold without, in_state.
  set (l := default [] (jm_get m (members st))).
  destruct (decide (set_delete c l = [])) as [E|E]; cbn [members];
    (destruct (decide (m' = m)) as [->|Hm];
      [rewrite ?jm_get_delete_eq, ?jm_get_set_eq by done|rewrite ?jm_get_delete_ne, ?jm_get_set_ne by done; tauto]).
  - split; [by intros ?%elem_of_nil|]. intros [H Hn]. exfalso.
    assert (c' ∈ set_delete c l) as Hin by (apply elem_of_set_delete; naive_solver).
    rewrite E in Hin. by apply elem_of_nil in Hin.
  - cbn [from_option id]. rewrite elem_of_set_delete. fold l. naive_solver.
Qed.

Lemma without_conns m c st : conns (without m c st) = set_delete c (conns st).
Proof. unfold without. by case_decide. Qed.

Lemma without_ok m c st : state_ok st → in_state st m c → state_ok (without m c st).
Proof.
  intros Hok Hin. pose proof Hok as (Hwf & Hnd & Hl & Hc & H1).
  assert (∀ m' c', in_state (without m c st) m' c' ↔ in_state st m' c' ∧ ¬ (m' = m ∧ c' = c)) as Hi
    by (intros; by apply without_lookup).
  split_and!.
  - unfold without. case_decide; cbn; eauto with street.
  - rewrite without_conns. by apply NoDup_set_delete.
  - intros m' l. unfold without. case_decide as E; cbn [members].
    + destruct (decide (m' = m)) as [->|]; [by rewrite jm_get_delete_eq|].
      rewrite jm_get_delete_ne by done. apply Hl.
    + destruct (decide (m' = m)) as [->|]; [|rewrite jm_get_set_ne by done; apply Hl].
      rewrite jm_get_set_eq. intros [= <-]. split; [done|]. apply NoDup_set_delete.
      unfold in_state in Hin. destruct (jm_get m (members st)) as [l|] eqn:El; [by apply (Hl m)|constructor].
  - intros c'. rewrite without_conns, elem_of_set_delete, Hc. split.
    + intros [Hne [m' Hm']]. exists m'. apply Hi. naive_solver.
    + intros [m' [Hm' Hn]%Hi]. split; [|by exists m']. intros ->. apply Hn. split; [|done].
      by eapply H1.
  - intros m1 m2 c' [? _]%Hi [? _]%Hi. by eapply H1.
Qed.

Lemma with_lookup m c st m' c' :
  in_state (with_conn m c st) m' c' ↔ in_state st m' c' ∨ (m' = m ∧ c' = c).
Proof.
  unfold with_conn, in_state. cbn [members]. destruct (decide (m' = m)) as [->|].
  - rewrite jm_get_set_eq. cbn [from_option id]. rewrite elem_of_set_add. naive_solver.
  - rewrite jm_get_set_ne by done. naive_solver.
Qed.

Lemma with_ok m c st :
  state_ok st → (∀ m', in_state st m' c → m' = m) → state_ok (with_conn m c st).
Proof.
  intros (Hwf & Hnd & Hl & Hc & H1) Hone.
  pose proof (with_lookup m c st) as Hi. split_and!.
  - cbn. auto with street.
  - cbn. by apply NoDup_set_add.
  - intros m' l. cbn [members with_conn]. destruct (decide (m' = m)) as [->|].
    + rewrite jm_get_set_eq. intros [= <-]. split.
      * intros E. assert (c ∈ set_add c (default [] (jm_get m (members st)))) as Hin
          by (apply elem_of_set_add; by left).
        rewrite E in Hin. by apply elem_of_nil in Hin.
      * apply NoDup_set_add. destruct (jm_get m (members st)) eqn:El; [by apply (Hl m)|constructor].
    + rewrite jm_get_set_ne by done. apply Hl.
  - intros c'. cbn [conns with_conn]. rewrite elem_of_set_add, Hc. split.
    + intros [->|[m' ?]]; [exists m|exists m']; apply Hi; tauto.
    + intros [m' [?|[-> ->]]%Hi]; [right; by exists m'|by left].
  - intros m1 m2 c' [A|[-> ->]]%Hi [B|[-> E]]%Hi; [by eapply H1|subst c'; by apply Hone|symmetry; by apply Hone|done].
Qed.

(** *** The hub under changes *)

Lemma wf_same w w' :
  channels w' = channels w → connChannels w' = connChannels w → bound w ⊆ bound w' → wf w → wf w'.
Proof.
  intros Hc Hcc Hb [H1 H2 H3 H4 H5]. split.
  - by rewrite Hc.
  - by rewrite Hcc.
  - intros ch. unfold state_of. rewrite Hc. apply H3.
  - intros c ch. unfold chans_of, rel, members_of, state_of. rewrite Hc, Hcc. apply H4.
  - intros ch m c. unfold rel, members_of, state_of. rewrite Hc. intros H. apply Hb. by eapply H5.
Qed.

(** A hub that has lost the triples of [P], and those of the connections that have closed
    meanwhile. *)
Record after (P : string → string → nat → Prop) (w w' : Hub) : Prop := {
  after_wf : wf w';
  after_bound : bound w' = bound w;
  after_broken : broken w' = broken w;
  after_closed c : c ∈ closed w → c ∈ closed w';
  after_rel ch m c : rel w' ch m c ↔ rel w ch m c ∧ ¬ P ch m c ∧ (c ∈ closed w' → c ∈ closed w)
}.
Definition none (_ _ : string) (_ : nat) : Prop := False.

Lemma after_same w w' :
  wf w → channels w' = channels w → connChannels w' = connChannels w → bound w' = bound w →
  broken w' = broken w → closed w' = closed w → after none w w'.
Proof.
  intros Hw Hc Hcc Hb Hbr Hcl. split; [|done..| |].
  - eapply wf_same; [done|done|by rewrite Hb|done].
  - by rewrite Hcl.
  - intros ch m c. unfold rel, members_of, state_of, none. rewrite Hc, Hcl. tauto.
Qed.

Lemma after_refl w : wf w → after none w w.
Proof. intros. by apply after_same. Qed.

Lemma after_trans P Q w1 w2 w3 :
  after P w1 w2 → after Q w2 w3 → after (λ ch m c, P ch m c ∨ Q ch m c) w1 w3.
Proof.
  intros [A1 A2 A3 A4 A5] [B1 B2 B3 B4 B5]. split; [done|congruence|congruence|auto|].
  intros ch m c. rewrite B5, A5. specialize (A4 c). specialize (B4 c). tauto.
Qed.

Lemma after_iff P Q w w' :
  (∀ ch m c, rel w ch m c → P ch m c ↔ Q ch m c) → after P w w' → after Q w w'.
Proof.
  intros H [A1 A2 A3 A4 A5]. split; [done..|]. intros ch m c. rewrite A5. specialize (H ch m c). tauto.
Qed.

Lemma after_none_r P w1 w2 w3 : after P w1 w2 → after none w2 w3 → after P w1 w3.
Proof. intros A B. eapply after_iff; [|by eapply after_trans]. unfold none. tauto. Qed.
Lemma after_none_l P w1 w2 w3 : after none w1 w2 → after P w2 w3 → after P w1 w3.
Proof. intros A B. eapply after_iff; [|by eapply after_trans]. unfold none. tauto. Qed.

(** The bound connections that are still open. *)
Definition open (w : Hub) : nat := length (filter (λ c, c ∉ closed w) (bound w)).

Lemma after_open P w w' : after P w w' → open w' ≤ open w.
Proof.
  intros [_ Hb _ Hc _]. unfold open. rewrite Hb. apply filter_length_impl. intros c Hn Hin. auto.
Qed.

(** What the close of a connection by a failing send must do. *)
Definition on_close_ok (onc : nat → Hub → Hub) (n : nat) : Prop :=
  ∀ c w, wf w → open w ≤ n → c ∈ bound w → c ∉ closed w → after none w (onc c w).

Lemma foldl_after {A} (P : string → string → nat → Prop) (f : Hub → A → Hub) l w w1 :
  after P w w1 → (∀ w1 x, after P w w1 → after P w (f w1 x)) → after P w (foldl f w1 l).
Proof. intros Ha Hf. revert w1 Ha. induction l as [|x l IH]; intros w1 Ha; cbn; auto. Qed.

Section closing.
Context (onc : nat → Hub → Hub) (n : nat) (Honc : on_close_ok onc n).

Lemma send_ok e c w : wf w → open w ≤ n → c ∈ bound w → after none w (send onc e c w).
Proof.
  intros Hw Hn Hb. unfold send. case_decide; [by apply after_refl|].
  case_decide; [by apply Honc|by apply after_same].
Qed.

Lemma conns_bound ch c w : wf w → c ∈ conns_of ch w → c ∈ bound w.
Proof.
  intros Hw Hc. destruct (wf_state w Hw ch) as (_ & _ & _ & Hcs & _).
  apply Hcs in Hc as [m Hm]. by eapply wf_bound.
Qed.

Lemma broadcast_ok ch e ec ecs w : wf w → open w ≤ n → after none w (broadcast onc ch e ec ecs w).
Proof.
  intros Hw Hn. unfold broadcast. generalize (conns_of ch w). intros l.
  apply (foldl_after none); [by apply after_refl|]. intros w1 c Ha.
  repeat case_decide; try done. eapply after_none_r; [exact Ha|].
  pose proof (after_open _ _ _ Ha). apply send_ok; [by eapply after_wf|lia|].
  eapply conns_bound; [by eapply after_wf|done].
Qed.

Lemma chans_forget c ch c' ch' w :
  ch' ∈ chans_of c' (forget_channel c ch w) ↔ ch' ∈ chans_of c' w ∧ ¬ (c' = c ∧ ch' = ch).
Proof.
  unfold forget_channel, chans_of. destruct (jm_get c (connChannels w)) as [l|] eqn:E.
  - cbn [connChannels set_connChannels]. destruct (decide (c' = c)) as [->|Hne].
    + rewrite jm_get_set_eq, E. cbn [from_option id]. rewrite elem_of_set_delete. naive_solver.
    + rewrite jm_get_set_ne by done. naive_solver.
  - split; [|tauto]. intros H. split; [done|]. intros [-> ->]. rewrite E in H. by apply elem_of_nil in H.
Qed.

Lemma forget_same c ch w :
  channels (forget_channel c ch w) = channels w ∧ bound (forget_channel c ch w) = bound w ∧
  broken (forget_channel c ch w) = broken w ∧ closed (forget_channel c ch w) = closed w ∧
  (jm_wf (connChannels w) → jm_wf (connChannels (forget_channel c ch w))).
Proof. unfold forget_channel. case_match; cbn; split_and!; auto with street. Qed.

Lemma clear_same t w :
  channels (clearTimeout t w) = channels w ∧ connChannels (clearTimeout t w) = connChannels w ∧
  bound (clearTimeout t w) = bound w ∧ broken (clearTimeout t w) = broken w ∧
  closed (clearTimeout t w) = closed w.
Proof. by destruct t. Qed.

(** What [unlink] leaves: one state, the channels of one connection. *)
Lemma unlink_spec ch m c w :
  let w' := (unlink ch m c w).1 in
  channels w' = jm_set ch (without m c (state_of ch w)) (channels w) ∧
  connChannels w' = connChannels (forget_channel c ch w) ∧
  bound w' = bound w ∧ broken w' = broken w ∧ closed w' = closed w.
Proof.
  unfold unlink. destruct (forget_same c ch w) as (H1 & H2 & H3 & H4 & _).
  destruct (bool_decide _); cbn; [|by rewrite H1].
  destruct (clear_same (mjoin (jm_get m (typing (state_of ch w)))) (forget_channel c ch w))
    as (K1 & K2 & K3 & K4 & K5). by rewrite K1, K2, K3, K4, K5, H1.
Qed.

Lemma unlink_ok ch m c w :
  wf w → rel w ch m c → after (λ ch' m' d, ch' = ch ∧ m' = m ∧ d = c) w (unlink ch m c w).1.
Proof.
  intros Hw Hr. destruct (unlink_spec ch m c w) as (Hch & Hcc & Hb & Hbr & Hcl).
  set (w' := (unlink ch m c w).1) in *.
  assert (∀ ch' m' d, rel w' ch' m' d ↔ rel w ch' m' d ∧ ¬ (ch' = ch ∧ m' = m ∧ d = c)) as Hrel.
  { intros ch' m' d. unfold rel, members_of, state_of. rewrite Hch.
    destruct (decide (ch' = ch)) as [->|]; [|rewrite jm_get_set_ne by done; tauto].
    rewrite jm_get_set_eq. cbn [from_option id].
    pose proof (without_lookup m c (state_of ch w) m' d (wf_state w Hw ch)) as Hl.
    unfold in_state in Hl. rewrite Hl. unfold state_of. tauto. }
  split; [|done..|by rewrite Hcl|intros; rewrite Hrel, Hcl; tauto].
  split.
  - rewrite Hch. apply jm_set_wf, (wf_channels w Hw).
  - rewrite Hcc. apply forget_same, (wf_connChannels w Hw).
  - intros ch'. unfold state_of. rewrite Hch. destruct (decide (ch' = ch)) as [->|].
    + rewrite jm_get_set_eq. cbn [from_option id]. apply without_ok; [apply (wf_state w Hw)|done].
    + rewrite jm_get_set_ne by done. apply (wf_state w Hw).
  - intros d ch'. unfold chans_of. rewrite Hcc. fold (chans_of d (forget_channel c ch w)).
    rewrite chans_forget, (wf_chans w Hw). setoid_rewrite Hrel. split.
    + intros [[m' Hm'] Hn]. exists m'. naive_solver.
    + intros (m' & Hm' & Hn). split; [by exists m'|]. intros [-> ->]. apply Hn. split_and!; [done| |done].
      destruct (wf_state w Hw ch) as (_ & _ & _ & _ & H1). by eapply H1.
  - intros ch' m' d [? _]%Hrel. rewrite Hb. by eapply (wf_bound w Hw).
Qed.

Lemma drop_empty_ok ch w : wf w → after none w (drop_empty ch w).
Proof.
  intros Hw. unfold drop_empty. case_decide as E; [|by apply after_refl]. destruct E as [Ec Em].
  set (w' := set_channels (jm_delete ch (channels w)) w).
  assert (∀ ch', state_of ch' w' = if decide (ch' = ch) then no_state else state_of ch' w) as Hst.
  { intros ch'. unfold state_of, w'. cbn. case_decide as E; [subst ch'|by rewrite jm_get_delete_ne].
    by rewrite jm_get_delete_eq by apply (wf_channels w Hw). }
  assert (∀ ch' m d, rel w' ch' m d ↔ rel w ch' m d) as Hrel.
  { intros ch' m d. unfold rel, members_of. rewrite Hst. case_decide as E; [subst ch'|done].
    by rewrite Em. }
  split; [|done..|intros; rewrite Hrel; unfold none; tauto]. split.
  - cbn. apply jm_delete_wf, (wf_channels w Hw).
  - apply (wf_connChannels w Hw).
  - intros ch'. rewrite Hst. case_decide; [apply no_state_ok|apply (wf_state w Hw)].
  - intros d ch'. setoid_rewrite Hrel. apply (wf_chans w Hw).
  - intros ch' m d ?%Hrel. by eapply (wf_bound w Hw).
Qed.

Lemma remove_conn_ok ch m c w :
  wf w → open w ≤ n → rel w ch m c →
  after (λ ch' m' d, ch' = ch ∧ m' = m ∧ d = c) w (removeConnFromChannel onc ch m c w).1.
Proof.
  intros Hw Hn Hr. unfold removeConnFromChannel. rewrite decide_True by done. cbn [fst].
  pose proof (unlink_ok ch m c w Hw Hr) as Ha. destruct (unlink ch m c w) as [w1 b].
  cbn [fst snd] in *. pose proof (after_open _ _ _ Ha).
  assert (after none w1 (if b then broadcast onc ch (PresenceLeave ch m) (Some c) [] w1 else w1)) as Hb.
  { destruct b; [apply broadcast_ok; [by eapply after_wf|lia]|apply after_refl; by eapply after_wf]. }
  eapply after_none_r; [by eapply after_none_r|]. apply drop_empty_ok. by eapply after_wf.
Qed.

Lemma disconnect_channel_ok c ch w :
  wf w → open w ≤ n →
  after (λ ch' _ d, ch' = ch ∧ d = c) w (disconnect_channel onc c ch w).
Proof.
  intros Hw Hn. unfold disconnect_channel.
  assert (∀ ms w, wf w → open w ≤ n → after (λ ch' m' d, ch' = ch ∧ d = c ∧ m' ∈ ms) w
    (foldl (λ w m, if decide (c ∈ members_of ch m w) then (removeConnFromChannel onc ch m c w).1 else w)
      w ms)) as Hloop.
  { clear w Hw Hn. induction ms as [|m ms IH]; intros w Hw Hn; cbn [foldl].
    - eapply after_iff; [|by apply after_refl]. intros ch' m d _. rewrite elem_of_nil. unfold none. tauto.
    - case_decide as Hr.
      + pose proof (remove_conn_ok ch m c w Hw Hn Hr) as Ha. pose proof (after_open _ _ _ Ha).
        eapply after_iff; [|eapply after_trans; [exact Ha|apply IH; [by eapply after_wf|lia]]].
        intros ch' m' d _. rewrite elem_of_cons. naive_solver.
      + eapply after_iff; [|by apply IH]. intros ch' m' d Hr'. rewrite elem_of_cons.
        split; [tauto|]. intros (-> & -> & [->|?]); done. }
  eapply after_iff; [|by apply Hloop]. intros ch' m' d Hr. split; [tauto|]. intros [-> ->].
  split_and!; [done..|]. apply jm_get_in_keys. unfold rel, members_of in Hr.
  destruct (jm_get m' (members (state_of ch w))); [done|]. by apply elem_of_nil in Hr.
Qed.

Lemma disconnect_ok c w :
  wf w → open w ≤ n → after (λ _ _ d, d = c) w (disconnect onc c w).
Proof.
  intros Hw Hn. unfold disconnect. destruct (jm_get c (connChannels w)) as [chans|] eqn:E.
  2: { eapply after_iff; [|by apply after_refl]. intros ch m d Hr. split; [done|]. intros ->.
       assert (ch ∈ chans_of c w) as Hin by (apply (wf_chans w Hw); by exists m).
       unfold chans_of in Hin. rewrite E in Hin. by apply elem_of_nil in Hin. }
  assert (∀ chs w, wf w → open w ≤ n → after (λ ch' _ d, d = c ∧ ch' ∈ chs) w
    (foldl (λ w ch, disconnect_channel onc c ch w) w chs)) as Hloop.
  { clear w Hw Hn E. induction chs as [|ch chs IH]; intros w Hw Hn; cbn [foldl].
    - eapply after_iff; [|by apply after_refl]. intros ch' m d _. rewrite elem_of_nil. unfold none. tauto.
    - pose proof (disconnect_channel_ok c ch w Hw Hn) as Ha. pose proof (after_open _ _ _ Ha).
      eapply after_iff; [|eapply after_trans; [exact Ha|apply IH; [by eapply after_wf|lia]]].
      intros ch' m' d _. cbn. rewrite elem_of_cons. naive_solver. }
  assert (∀ ch m, rel w ch m c → ch ∈ chans) as Hall.
  { intros ch m Hr. assert (ch ∈ chans_of c w) as Hin by (apply (wf_chans w Hw); by exists m).
    unfold chans_of in Hin. by rewrite E in Hin. }
  assert (after (λ _ _ d, d = c) w (foldl (λ w ch, disconnect_channel onc c ch w) w chans)) as Ha.
  { eapply after_iff; [|by apply Hloop]. intros ch m d Hr. split; [tauto|]. intros ->. eauto. }
  set (w1 := foldl _ _ _) in *. destruct Ha as [A1 A2 A3 A4 A5].
  split; [|done..]. split.
  - apply (wf_channels w1 A1).
  - cbn. apply jm_delete_wf, (wf_connChannels w1 A1).
  - apply (wf_state w1 A1).
  - intros d ch. change (rel (set_connChannels (jm_delete c (connChannels w1)) w1) ch) with (rel w1 ch).
    unfold chans_of. cbn [connChannels set_connChannels]. destruct (decide (d = c)) as [->|].
    + rewrite jm_get_delete_eq by apply (wf_connChannels w1 A1).
      split; [by intros ?%elem_of_nil|]. intros [m Hm]. apply A5 in Hm. tauto.
    + rewrite jm_get_delete_ne by done. apply (wf_chans w1 A1).
  - apply (wf_bound w1 A1).
Qed.
End closing.

(** The fuel is enough: closing a connection leaves fewer open ones for the closes that its
    events cause. *)
Lemma on_close_ok_fuel : ∀ n, on_close_ok (on_close n) n.
Proof.
  induction n as [|n IH]; intros c w Hw Hn Hb Hc; cbn [on_close]; rewrite decide_False by done.
  - exfalso. unfold open in Hn. apply Nat.le_0_r, length_zero_iff_nil in Hn.
    assert (c ∈ filter (λ c, c ∉ closed w) (bound w)) as Hin by by apply list_elem_of_filter.
    rewrite Hn in Hin. by apply elem_of_nil in Hin.
  - rewrite decide_True by done. set (w1 := set_sockets (closed w ++ [c]) (broken w) (bound w) w).
    assert (wf w1) as Hw1 by by apply (wf_same w).
    assert (open w1 ≤ n) as Hn1.
    { assert (open w1 < open w); [|lia]. unfold open. cbn [closed bound w1 set_sockets].
      apply (filter_length_strict _ _ _ c).
      - intros x Hx Hin. apply Hx. apply elem_of_app. by left.
      - done.
      - done.
      - intros Hx. apply Hx. apply elem_of_app. right. by left. }
    destruct (disconnect_ok (on_close n) n IH c w1 Hw1 Hn1) as [A1 A2 A3 A4 A5].
    split; [done..| |].
    + intros d Hd. apply A4. cbn. apply elem_of_app. by left.
    + intros ch m d. rewrite A5. change (rel w1 ch m d) with (rel w ch m d). unfold none.
      cbn [closed w1 set_sockets]. rewrite elem_of_app, list_elem_of_singleton.
      assert (c ∈ closed (disconnect (on_close n) c w1)) as Hcin.
      { apply A4. cbn. apply elem_of_app. right. by left. }
      destruct (decide (d = c)) as [->|]; tauto.
Qed.

Lemma open_bound w : open w ≤ length (bound w).
Proof. apply length_filter. Qed.

(** *** The operations *)

Abbreviation closing w := (on_close (length (bound w))).

Lemma broadcast_after ch e ec ecs w : wf w → after none w (broadcast (closing w) ch e ec ecs w).
Proof. intros. apply (broadcast_ok _ (length (bound w))); [apply on_close_ok_fuel|done|apply open_bound]. Qed.

Lemma link_ok ch m c w :
  wf w → c ∈ bound w → (∀ m', rel w ch m' c → m' = m) →
  wf (link ch m c w) ∧ closed (link ch m c w) = closed w ∧ bound (link ch m c w) = bound w ∧
  ∀ ch' m' d, rel (link ch m c w) ch' m' d ↔ rel w ch' m' d ∨ (ch' = ch ∧ m' = m ∧ d = c).
Proof.
  intros Hw Hb Hone. set (w' := link ch m c w).
  assert (∀ ch' m' d, rel w' ch' m' d ↔ rel w ch' m' d ∨ (ch' = ch ∧ m' = m ∧ d = c)) as Hrel.
  { intros ch' m' d. unfold rel, members_of, w', link. destruct (decide (ch' = ch)) as [->|].
    - rewrite state_of_set_eq. pose proof (with_lookup m c (state_of ch w) m' d) as Hl.
      unfold in_state in Hl. rewrite Hl. tauto.
    - rewrite state_of_set_ne by done. change (state_of ch' (set_connChannels _ w)) with (state_of ch' w).
      tauto. }
  split; [|done]. split.
  - cbn. apply jm_set_wf, (wf_channels w Hw).
  - cbn. apply jm_set_wf, (wf_connChannels w Hw).
  - intros ch'. unfold w', link. destruct (decide (ch' = ch)) as [->|].
    + rewrite state_of_set_eq. apply with_ok; [apply (wf_state w Hw)|done].
    + rewrite state_of_set_ne by done. apply (wf_state w Hw).
  - intros d ch'. setoid_rewrite Hrel.
    assert (ch' ∈ chans_of d w' ↔ ch' ∈ chans_of d w ∨ (d = c ∧ ch' = ch)) as ->.
    { unfold chans_of, w', link. cbn [connChannels set_state set_channels set_connChannels].
      destruct (decide (d = c)) as [->|]; [|rewrite jm_get_set_ne by done; tauto].
      rewrite jm_get_set_eq. cbn [from_option id]. rewrite elem_of_set_add. unfold chans_of. naive_solver. }
    rewrite (wf_chans w Hw). split.
    + intros [[m' ?]|[-> ->]]; [exists m'; tauto|exists m; tauto].
    + intros (m' & [?|(-> & -> & ->)]); [left; by exists m'|tauto].
  - intros ch' m' d [?|(-> & -> & ->)]%Hrel; [by eapply (wf_bound w Hw)|done].
Qed.

(** A change of the typing indicators. *)
Lemma typing_after ch t w :
  wf w → after none w
    (set_state ch {| members := members (state_of ch w); conns := conns (state_of ch w); typing := t |} w).
Proof.
  intros Hw. set (st := {| members := _ |}). set (w' := set_state ch st w).
  assert (∀ ch', members (state_of ch' w') = members (state_of ch' w) ∧
    conns (state_of ch' w') = conns (state_of ch' w)) as Hst.
  { intros ch'. unfold w'. destruct (decide (ch' = ch)) as [->|].
    - by rewrite state_of_set_eq.
    - by rewrite state_of_set_ne. }
  assert (∀ ch' m d, rel w' ch' m d ↔ rel w ch' m d) as Hrel.
  { intros ch' m d. unfold rel, members_of. by rewrite (proj1 (Hst ch')). }
  split; [|done..|intros; rewrite Hrel; unfold none; tauto]. split.
  - cbn. apply jm_set_wf, (wf_channels w Hw).
  - apply (wf_connChannels w Hw).
  - intros ch'. pose proof (wf_state w Hw ch') as H. unfold state_ok, in_state in *.
    destruct (Hst ch') as [-> ->]. exact H.
  - intros d ch'. setoid_rewrite Hrel. apply (wf_chans w Hw).
  - intros ch' m d ?%Hrel. by eapply (wf_bound w Hw).
Qed.

Lemma clear_after t w : wf w → after none w (clearTimeout t w).
Proof. intros. destruct (clear_same t w) as (? & ? & ? & ? & ?). by apply after_same. Qed.

Lemma setTyping_after ttl ch m b conn w :
  wf w → match setTyping ttl ch m b conn w with Ok w' => after none w w' | Throw _ => True end.
Proof.
  intros Hw. unfold setTyping, requireName.
  destruct (decide (ch = EmptyString)); [exact I|]. cbn [mbind result_bind].
  destruct (decide (m = EmptyString)); [exact I|]. cbn [mbind result_bind].
  set (w1 := clearTimeout _ w). assert (after none w w1) as H1 by by apply clear_after.
  assert (state_of ch w1 = state_of ch w) as E.
  { unfold state_of, w1. by rewrite (proj1 (clear_same _ w)). }
  rewrite <-E. set (w2 := if b then _ else _).
  assert (after none w1 w2) as H2.
  { subst w2. pose proof (after_wf _ _ _ H1) as Hw1. destruct b; [|by apply typing_after].
    destruct ttl; [|by apply typing_after].
    set (w1' := set_timers _ _ w1).
    change (state_of ch w1) with (state_of ch w1').
    apply (after_none_l none w1 w1'); [by apply after_same|]. apply typing_after.
    by apply (wf_same w1). }
  eapply after_none_l; [by eapply after_none_r|]. apply broadcast_after. by eapply after_wf.
Qed.

Lemma fire_after ttl t w :
  wf w → match fire ttl t w with Ok w' => after none w w' | Throw _ => True end.
Proof.
  intros Hw. unfold fire. destruct (jm_get t (timers w)) as [[ch m]|]; [|by apply after_refl].
  set (w1 := set_timers _ _ w). assert (after none w w1) as H1 by by apply after_same.
  pose proof (setTyping_after ttl ch m false None w1 (after_wf _ _ _ H1)) as H2.
  destruct (setTyping ttl ch m false None w1); [|done]. by eapply after_none_l.
Qed.

Lemma publish_after ch t p ec em w : wf w → after none w (publish ch t p ec em w).
Proof.
  intros Hw. unfold publish. case_match; [by apply broadcast_after|by apply after_refl].
Qed.

(** Leaving under the right member, or not being there. *)
Lemma leave_after ch m c w :
  wf w → (∀ m', rel w ch m' c → m' = m) →
  after (λ ch' m' d, ch' = ch ∧ m' = m ∧ d = c) w (leave ch m c w).1.
Proof.
  intros Hw Hone. unfold leave.
  assert (¬ rel w ch m c → after none w w → after (λ ch' m' d, ch' = ch ∧ m' = m ∧ d = c) w w) as Hno.
  { intros Hr Ha. eapply after_iff; [|exact Ha]. unfold none. naive_solver. }
  destruct (jm_get ch (channels w)) as [st|] eqn:E.
  2: { apply Hno; [|by apply after_refl]. unfold rel, members_of, state_of. rewrite E.
       by intros ?%elem_of_nil. }
  destruct (decide (rel w ch m c)) as [Hr|Hr].
  { apply (remove_conn_ok _ (length (bound w))); [apply on_close_ok_fuel|done|apply open_bound|done]. }
  assert (c ∉ conns_of ch w) as Hc.
  { intros Hin. destruct (wf_state w Hw ch) as (_ & _ & _ & Hcs & _).
    apply Hcs in Hin as [m' Hm']. apply Hr. by rewrite <-(Hone m' Hm'). }
  unfold removeConnFromChannel. rewrite decide_False by done. cbn [fst].
  assert (set_delete c (conns (state_of ch w)) = conns (state_of ch w)) as ->.
  { apply filter_all. apply Forall_forall. intros d Hd ->. done. }
  apply (after_iff none); [intros ch' m' d Hr'; unfold none; split; [done|]; by intros (-> & -> & ->)|].
  assert (after none w (forget_channel c ch w)) as H1; [|eapply after_none_r; [exact H1|]].
  - destruct (forget_same c ch w) as (H1 & H2 & H3 & H4 & H5).
    assert (∀ ch' m' d, rel (forget_channel c ch w) ch' m' d ↔ rel w ch' m' d) as Hrel
      by (intros; unfold rel, members_of, state_of; by rewrite H1).
    split; [|done..|by rewrite H4|intros; rewrite Hrel, H4; unfold none; tauto]. split.
    + rewrite H1. apply (wf_channels w Hw).
    + apply H5, (wf_connChannels w Hw).
    + intros ch'. unfold state_of. rewrite H1. apply (wf_state w Hw).
    + intros d ch'. setoid_rewrite Hrel. rewrite chans_forget, (wf_chans w Hw). split; [tauto|].
      intros [m' Hm']. split; [by exists m'|]. intros [-> ->]. apply Hr. by rewrite <-(Hone m' Hm').
    + intros ch' m' d ?%Hrel. rewrite H2. by eapply (wf_bound w Hw).
  - assert (state_of ch w = state_of ch (forget_channel c ch w)) as ->.
    { unfold state_of. by rewrite (proj1 (forget_same c ch w)). }
    apply typing_after. by eapply after_wf.
Qed.

(** ** The abstract hub

    A relation that grows by joins and shrinks by leaves; who is present is read off it and
    the sockets that are open. *)

Definition triple : Type := (string * string * nat).

Definition spec_step (A : list triple) (op : hub_op) : list triple :=
  match op with
  | Join ch m c => if decide (ch = EmptyString ∨ m = EmptyString) then A else A ++ [(ch, m, c)]
  | Leave ch m c => set_delete (ch, m, c) A
  | _ => A
  end.
Definition joined (ops : list hub_op) : list triple := foldl spec_step [] ops.

(** How a server uses the hub: connections are bound and open when they join, join a
    channel under one member and leave it under the same. *)
Definition allowed (w : Hub) (op : hub_op) : Prop :=
  match op with
  | Join ch m c => c ∈ bound w ∧ (c ∉ closed w) ∧ ∀ m', rel w ch m' c → m' = m
  | Leave ch m c => ∀ m', rel w ch m' c → m' = m
  | Bind c => c ∉ closed w
  | _ => True
  end.
Fixpoint all_allowed (ttl : bool) (w : Hub) (ops : list hub_op) : Prop :=
  match ops with
  | [] => True
  | op :: ops => allowed w op ∧ all_allowed ttl (hub_step ttl w op) ops
  end.

Definition represents (A : list triple) (w : Hub) : Prop :=
  wf w ∧ ∀ ch m c, rel w ch m c ↔ (ch, m, c) ∈ A ∧ (c ∉ closed w).

Lemma represents_none A w w' : represents A w → after none w w' → represents A w'.
Proof.
  intros [Hw Hr] [H1 H2 H3 H4 H5]. split; [done|]. intros ch m c. rewrite H5, Hr. unfold none.
  specialize (H4 c). tauto.
Qed.

Lemma represents_socketClosed A c w : represents A w → represents A (socketClosed c w).
Proof.
  intros HA. destruct (HA) as [Hw Hr]. unfold socketClosed.
  destruct (decide (c ∈ closed w)) as [Hc|Hc].
  { destruct (length (bound w)); cbn [on_close]; by rewrite decide_True by done. }
  destruct (decide (c ∈ bound w)) as [Hb|Hb].
  { eapply represents_none; [exact HA|]. apply (on_close_ok_fuel (length (bound w))); try done.
    apply open_bound. }
  assert (on_close (length (bound w)) c w = set_sockets (closed w ++ [c]) (broken w) (bound w) w) as ->.
  { destruct (length (bound w)); cbn [on_close]; by rewrite !decide_False by done. }
  split; [by apply (wf_same w)|]. intros ch m d.
  change (rel w ch m d ↔ (ch, m, d) ∈ A ∧ (d ∉ closed w ++ [c])).
  rewrite Hr, elem_of_app, list_elem_of_singleton. split; [|tauto].
  intros [HA' Hd]. split; [done|]. intros [?|Hdc]; [done|]. subst d. apply Hb.
  eapply (wf_bound w Hw ch m). by apply Hr.
Qed.

Lemma represents_step ttl A w op :
  represents A w → allowed w op → represents (spec_step A op) (hub_step ttl w op).
Proof.
  intros HA Hop. pose proof HA as [Hw Hr].
  destruct op as [ch m c|ch m c|c|ch t p ec em|ch m b conn|t|c|c]; cbn [hub_step spec_step allowed] in *.
  - destruct Hop as (Hb & Hc & Hone). unfold join, requireName.
    destruct (decide (ch = EmptyString)) as [->|Hch]; [by rewrite decide_True by by left|].
    destruct (decide (m = EmptyString)) as [->|Hm]; [by rewrite decide_True by by right|].
    rewrite decide_False by tauto. cbn [mbind result_bind fst].
    destruct (link_ok ch m c w Hw Hb Hone) as (Hw1 & Hcl & Hbd & Hrel).
    assert (represents (A ++ [(ch, m, c)]) (link ch m c w)) as H1.
    { split; [done|]. intros ch' m' d. rewrite Hrel, Hr, Hcl, elem_of_app, list_elem_of_singleton.
      naive_solver. }
    case_match; [|done]. eapply represents_none; [exact H1|by apply broadcast_after].
  - pose proof (leave_after ch m c w Hw Hop) as [H1 H2 H3 H4 H5]. split; [done|].
    intros ch' m' d. rewrite H5, Hr, elem_of_set_delete. specialize (H4 d). naive_solver.
  - unfold bind. rewrite decide_False by done. split; [|done].
    apply (wf_same w); [done..| |done]. intros d Hd. by apply elem_of_set_add; right.
  - eapply represents_none; [exact HA|by apply publish_after].
  - pose proof (setTyping_after ttl ch m b conn w Hw) as H.
    destruct (setTyping ttl ch m b conn w); [by eapply represents_none|done].
  - pose proof (fire_after ttl t w Hw) as H.
    destruct (fire ttl t w); [by eapply represents_none|done].
  - by apply represents_socketClosed.
  - split; [by apply (wf_same w)|done].
Qed.

Lemma represents_run ttl ops : ∀ A w,
  represents A w → all_allowed ttl w ops →
  represents (foldl spec_step A ops) (foldl (hub_step ttl) w ops).
Proof.
  induction ops as [|op ops IH]; intros A w HA; cbn; [done|]. intros [H1 H2].
  apply IH; [by apply represents_step|done].
Qed.

Lemma presence_spec ch w m : wf w → m ∈ presence ch w ↔ ∃ c, rel w ch m c.
Proof.
  intros Hw. destruct (wf_state w Hw ch) as (Hk & _ & Hl & _).
  unfold presence. rewrite list_elem_of_fmap. split.
  - intros ([m' l] & -> & [Hne Hin]%list_elem_of_filter). cbn [fst snd] in *.
    destruct l as [|c l]; [done|]. exists c. unfold rel, members_of.
    rewrite (jm_elem_get _ _ _ Hk Hin). by left.
  - intros [c Hc]. unfold rel, members_of in Hc.
    destruct (jm_get m (members (state_of ch w))) as [l|] eqn:E; [|by apply elem_of_nil in Hc].
    exists (m, l). split; [done|]. apply list_elem_of_filter. split; [by apply (Hl m)|by apply jm_get_elem].
Qed.

(** C10: presence is exact.  Over any history of joins, leaves, messages, typing indicators,
    timers, sockets that close and sockets that fail in the middle of a broadcast, in which
    only open connections that were bound join, and a connection joins and leaves a channel
    as one member ([all_allowed]; [wrong_leave_leaves_ghost] shows a leave as another), the
    members present in a channel are those with a connection that has joined, has not left
    and is still open, each once; the connections of the channel are these; and a connection
    that has closed is in no channel any more. *)
Theorem presence_exact ttl ops :
  all_allowed ttl hub0 ops →
  let w := foldl (hub_step ttl) hub0 ops in
  ∀ ch,
    NoDup (presence ch w) ∧ NoDup (conns_of ch w) ∧
    (∀ m, m ∈ presence ch w ↔ ∃ c, (ch, m, c) ∈ joined ops ∧ (c ∉ closed w)) ∧
    (∀ c, c ∈ conns_of ch w ↔ ∃ m, (ch, m, c) ∈ joined ops ∧ (c ∉ closed w)) ∧
    (∀ c, c ∈ closed w → ch ∉ chans_of c w).
Proof.
  intros Hops w ch.
  destruct (represents_run ttl ops [] hub0) as [Hw Hr]; [|done|].
  { split; [apply hub0_wf|]. intros ? ? ?. unfold rel, members_of, state_of. cbn.
    rewrite !elem_of_nil. tauto. }
  fold (joined ops) in Hr. fold w in Hw, Hr.
  pose proof (wf_state w Hw ch) as (Hk & Hnd & Hl & Hcs & _). split_and!.
  - unfold presence. eapply sublist_NoDup; [exact Hk|]; apply fmap_sublist, sublist_filter.
  - done.
  - intros m. rewrite presence_spec by done. by setoid_rewrite Hr.
  - intros c. unfold conns_of. rewrite Hcs. unfold in_state. setoid_rewrite <-Hr. done.
  - intros c Hc Hin. apply (wf_chans w Hw) in Hin as [m Hm]. apply Hr in Hm as [_ ?]. done.
Qed.

(** A broadcast to sockets that take it. *)
Lemma broadcast_plain onc ch e ec ecs w :
  (∀ c, c ∈ conns_of ch w → c ∉ broken w) →
  broadcast onc ch e ec ecs w =
    foldl (λ w c, deliver c e w) w
      (filter (λ c, (c ∉ closed w) ∧ ec ≠ Some c ∧ (c ∉ ecs)) (conns_of ch w)).
Proof.
  intros Hbr. unfold broadcast.
  assert (∀ l w1, l ⊆ conns_of ch w → channels w1 = channels w → closed w1 = closed w →
    broken w1 = broken w →
    foldl (λ w c, if decide (c ∈ conns_of ch w) then
                  if decide (ec = Some c) then w
                  else if decide (c ∈ ecs) then w
                  else send onc e c w
                else w) w1 l =
    foldl (λ w c, deliver c e w) w1 (filter (λ c, (c ∉ closed w) ∧ ec ≠ Some c ∧ (c ∉ ecs)) l)) as H;
    [|by apply H].
  induction l as [|c l IH]; intros w1 Hl Hch Hcl Hb; [done|]. cbn [foldl]. rewrite filter_cons.
  assert (c ∈ conns_of ch w) as Hc by (apply Hl; by left).
  assert (conns_of ch w1 = conns_of ch w) as -> by (unfold conns_of, state_of; by rewrite Hch).
  rewrite decide_True by done.
  assert (l ⊆ conns_of ch w) as Hl' by (intros x Hx; apply Hl; by right).
  unfold send. rewrite Hcl, Hb.
  destruct (decide (ec = Some c)); [rewrite (decide_False (P := _ ∧ _)) by tauto; by apply IH|].
  destruct (decide (c ∈ ecs)); [rewrite (decide_False (P := _ ∧ _)) by tauto; by apply IH|].
  destruct (decide (c ∈ closed w)); [rewrite (decide_False (P := _ ∧ _)) by tauto; by apply IH|].
  rewrite (decide_False (P := c ∈ broken w)) by by apply Hbr.
  rewrite decide_True by tauto. cbn [foldl]. by apply IH.
Qed.

Lemma deliver_all e l w : delivered (foldl (λ w c, deliver c e w) w l) = delivered w ++ ((λ c, (c, e)) <$> l).
Proof.
  revert w. induction l as [|c l IH]; intros w; cbn; [by rewrite app_nil_r|].
  rewrite IH. cbn. by rewrite <-(assoc_L (++)).
Qed.

(** a member who opens a second connection and then loses the first stays present
    without a flicker: neither the join nor the leave tells anybody anything. *)
Theorem reconnect_is_silent w ch m c c' :
  wf w → ch ≠ EmptyString → m ≠ EmptyString → rel w ch m c → c' ∈ bound w → c ≠ c' →
  (∀ m', ¬ rel w ch m' c') →
  ∃ w1 w2, join ch m c' w = Ok (w1, false) ∧ leave ch m c w1 = (w2, false) ∧
    delivered w2 = delivered w ∧ closed w2 = closed w ∧
    (∀ d, rel w2 ch m d ↔ (rel w ch m d ∧ d ≠ c) ∨ d = c').
Proof.
  intros Hw Hch Hm Hr Hb Hne Hno.
  destruct (link_ok ch m c' w Hw Hb) as (Hw1 & Hcl & Hbd & Hrel); [by intros m' ?%Hno|].
  set (w1 := link ch m c' w) in *. exists w1.
  assert (join ch m c' w = Ok (w1, false)) as ->.
  { unfold join, requireName. destruct (decide (ch = EmptyString)); [done|].
    cbn [mbind result_bind]. destruct (decide (m = EmptyString)); [done|]. cbn [mbind result_bind].
    rewrite bool_decide_false; [done|]. intros E. unfold rel in Hr. rewrite E in Hr.
    by apply elem_of_nil in Hr. }
  assert (rel w1 ch m c) as Hr1 by (apply Hrel; by left).
  assert (rel w1 ch m c') as Hr1' by (apply Hrel; by right).
  pose proof (unlink_ok ch m c w1 Hw1 Hr1) as [U1 U2 U3 U4 U5].
  destruct (unlink_spec ch m c w1) as (_ & _ & _ & _ & Ucl).
  assert ((unlink ch m c w1).2 = false) as Hfalse.
  { unfold unlink. cbn [snd]. apply bool_decide_false. intros E.
    assert (c' ∈ set_delete c (default [] (jm_get m (members (state_of ch w1))))) as Hin
      by (apply elem_of_set_delete; done).
    rewrite E in Hin. by apply elem_of_nil in Hin. }
  assert (delivered (unlink ch m c w1).1 = delivered w1) as Hdel.
  { clear -Hfalse. unfold unlink in *. cbn [fst snd] in *. rewrite Hfalse. unfold forget_channel.
    by destruct (jm_get c (connChannels w1)). }
  assert (drop_empty ch (unlink ch m c w1).1 = (unlink ch m c w1).1) as Hdrop.
  { unfold drop_empty. rewrite decide_False; [done|]. intros [_ E].
    assert (rel (unlink ch m c w1).1 ch m c') as Hin.
    { apply U5. split; [done|]. split; [by intros (_ & _ & E2)|by rewrite Ucl]. }
    unfold rel, members_of in Hin. rewrite E in Hin. by apply elem_of_nil in Hin. }
  exists (unlink ch m c w1).1. split; [done|]. split_and!.
  - unfold leave. assert (is_Some (jm_get ch (channels w1))) as [st ->].
    { unfold w1, link. cbn. rewrite jm_get_set_eq. by eexists. }
    unfold removeConnFromChannel. rewrite decide_True by done. by rewrite Hfalse, Hdrop.
  - by rewrite Hdel.
  - by rewrite Ucl.
  - intros d. rewrite U5, Hrel, Ucl. clear -Hne. destruct (decide (d = c')), (decide (d = c)); subst; tauto.
Qed.

(** a message reaches every open connection of its channel but the excepted ones, each
    once and in the order they joined, and changes nothing else, when their sockets take
    it; a channel that does not exist delivers nothing. *)
Theorem publish_reaches_everyone w ch t p ec em :
  (∀ c, c ∈ conns_of ch w → c ∉ broken w) →
  let w' := publish ch t p ec em w in
  delivered w' = delivered w ++ ((λ c, (c, Published t p)) <$>
    filter (λ c, (c ∉ closed w) ∧ ec ≠ Some c ∧
              (em = EmptyString ∨ (c ∉ members_of ch em w))) (conns_of ch w)) ∧
  channels w' = channels w ∧ closed w' = closed w.
Proof.
  intros Hbr w'. unfold w', publish.
  destruct (jm_get ch (channels w)) as [st|] eqn:E.
  2: { assert (conns_of ch w = []) as -> by (unfold conns_of, state_of; by rewrite E).
       by rewrite app_nil_r. }
  rewrite broadcast_plain by done. split.
  - rewrite deliver_all. do 2 f_equal. apply list_filter_iff. intros c.
    case_decide; [subst em|]; rewrite ?elem_of_nil; naive_solver.
  - generalize (filter (λ c, (c ∉ closed w) ∧ ec ≠ Some c ∧
      (c ∉ (if decide (em = EmptyString) then [] else members_of ch em w))) (conns_of ch w)).
    clear. intros l. revert w. induction l as [|c l IH]; intros w; [done|]. cbn [foldl].
    destruct (IH (deliver c (Published t p) w)) as [-> ->]. done.
Qed.

(** ** What goes wrong *)

(** Leaving a channel under a name the connection did not join it with takes the connection
    from the channel, but not from the member that it belongs to: that member stays present
    when the socket closes. *)
Lemma wrong_leave_leaves_ghost ttl :
  let w := foldl (hub_step ttl) hub0
    [Bind 1; Join "room" "ann" 1; Leave "room" "bob" 1; SocketClosed 1] in
  presence "room" w = ["ann"%string] ∧ conns_of "room" w = [] ∧ closed w = [1].
Proof. by vm_compute. Qed.

(** A typing indicator creates its channel, which nothing drops: a channel without a
    connection stays among the names, also when the timer has fired. *)
Lemma typing_channel_stays :
  let w := foldl (hub_step true) hub0 [SetTyping "room" "ann" true None; Fire 0] in
  channelNames w = ["room"%string] ∧ conns_of "room" w = [] ∧ typingMembers "room" w = [] ∧
  timers w = [].
Proof. by vm_compute. Qed.

(** ** Examples *)

(** A slow socket is closed by the message it cannot take, and its member leaves, in the
    middle of the broadcast. *)
Definition sample_history : list hub_op :=
  [Bind 1; Bind 2; Bind 3; Join "room" "ann" 1; Join "room" "bob" 2; Join "room" "cyd" 3;
   SocketFull 2; Publish "room" "text" "hi" None ""; Leave "room" "cyd" 3].

Lemma one_member w ch m c :
  Forall (λ e, c ∈ e.2 → e.1 = m) (members (state_of ch w)) → ∀ m', rel w ch m' c → m' = m.
Proof.
  intros H m' Hm'. unfold rel, members_of in Hm'.
  destruct (jm_get m' (members (state_of ch w))) as [l|] eqn:E; [|by apply elem_of_nil in Hm'].
  rewrite Forall_forall in H. by apply (H (m', l)); [apply jm_get_elem|].
Qed.

Lemma presence_exact_witness :
  let w := foldl (hub_step true) hub0 sample_history in
  (∀ m, m ∈ presence "room" w ↔ ∃ c, ("room"%string, m, c) ∈ joined sample_history ∧ (c ∉ closed w)) ∧
  presence "room" w = ["ann"%string] ∧ closed w = [2] ∧
  delivered w = [(1, PresenceJoin "room" "bob"); (1, PresenceJoin "room" "cyd");
                 (2, PresenceJoin "room" "cyd"); (1, Published "text" "hi");
                 (1, PresenceLeave "room" "bob"); (3, PresenceLeave "room" "bob");
                 (3, Published "text" "hi"); (1, PresenceLeave "room" "cyd")].
Proof.
  assert (all_allowed true hub0 sample_history) as Hall.
  { cbn [all_allowed sample_history allowed]. split_and!; try exact I; try apply one_member;
      apply (bool_decide_unpack _); vm_compute; exact I. }
  destruct (presence_exact true sample_history Hall "room") as (_ & _ & H & _).
  split; [exact H|]. vm_compute. repeat split.
Defined.

Lemma publish_reaches_everyone_witness :
  let w := foldl (hub_step true) hub0
    [Bind 1; Bind 2; Bind 3; Join "room" "ann" 1; Join "room" "bob" 2; Join "room" "bob" 3] in
  (∀ c, c ∈ conns_of "room" w → c ∉ broken w) ∧
  delivered (publish "room" "text" "hi" None "bob" w) = delivered w ++ [(1, Published "text" "hi")] ∧
  delivered (publish "room" "text" "hi" None "ann" w) =
    delivered w ++ [(2, Published "text" "hi"); (3, Published "text" "hi")].
Proof.
  assert (∀ c, c ∈ conns_of "room" (foldl (hub_step true) hub0
    [Bind 1; Bind 2; Bind 3; Join "room" "ann" 1; Join "room" "bob" 2; Join "room" "bob" 3]) →
    c ∉ broken (foldl (hub_step true) hub0
    [Bind 1; Bind 2; Bind 3; Join "room" "ann" 1; Join "room" "bob" 2; Join "room" "bob" 3])) as H.
  { intros c _. vm_compute. intros Hc. inversion Hc. }
  split; [exact H|]. split; [vm_compute; reflexivity|].
  destruct (publish_reaches_everyone _ "room" "text" "hi" None "ann" H) as [E _].
  rewrite E. vm_compute. reflexivity.
Defined.

Lemma reconnect_is_silent_witness :
  let w := foldl (hub_step true) hub0 [Bind 1; Bind 2; Join "room" "ann" 1] in
  ∃ w1 w2, join "room" "ann" 2 w = Ok (w1, false) ∧ leave "room" "ann" 1 w1 = (w2, false) ∧
    delivered w2 = [].
Proof.
  destruct (reconnect_is_silent (foldl (hub_step true) hub0 [Bind 1; Bind 2; Join "room" "ann" 1])
    "room" "ann" 1 2) as (w1 & w2 & H1 & H2 & H3 & _).
  - apply (represents_run true [Bind 1; Bind 2; Join "room" "ann" 1] [] hub0).
    + split; [exact hub0_wf|]. intros ch m c. split; [intros H; inversion H|intros [H _]; inversion H].
    + cbn [all_allowed allowed]. split_and!; try exact I; try apply one_member;
        apply (bool_decide_unpack _); vm_compute; exact I.
  - discriminate.
  - discriminate.
  - apply (bool_decide_unpack _); vm_compute; exact I.
  - apply (bool_decide_unpack _); vm_compute; exact I.
  - discriminate.
  - intros m' Hm'. assert (m' = "ghost"%string) as E.
    { revert Hm'. apply one_member. apply (bool_decide_unpack _); vm_compute; exact I. }
    subst m'. vm_compute in Hm'. inversion Hm'.
  - exists w1, w2. split; [exact H1|]. split; [exact H2|]. rewrite H3. vm_compute. reflexivity.
Defined.
