(* ===== verification/BinaryHeap.v ===== *)
(** * [BinaryHeap]: the array heap of the in-memory queue driver

    Models the class [BinaryHeap] of src/packages/queue/src/drivers/memory.ts: the
    array [items] as a list, [push], [pop], [siftDown] and [drainWhile] as
    functions of it.  The loops of [push] and [siftDown] recurse on the index, with
    the measures that make them end.  The comparator is a parameter; [CompareOk] is
    the interface its instances promise. *)

From Equations Require Import Equations.
From S2P Require Import Prelude.

Open Scope nat_scope.

(** What a comparator promises: its sign is a total preorder. *)
Class CompareOk {T : Type} (compare : T → T → Z) : Prop := {
  compare_flip : ∀ a b, (compare a b < 0)%Z ↔ (0 < compare b a)%Z;
  compare_trans : ∀ a b c,
    (compare a b <= 0)%Z → (compare b c <= 0)%Z → (compare a c <= 0)%Z;
}.

Section binary_heap.
  Context {T : Type} (compare : T → T → Z).
  Implicit Types (items : list T) (x y : T) (i j n : nat).

(** ** Operations *)

Definition heap_size (items : list T) : nat := length items.
Definition peek (items : list T) : option T := items !! 0.

(** [[items[i], items[j]] = [items[j], items[i]]] *)
Definition swap (items : list T) (i j : nat) (a b : T) : list T :=
  <[i := b]> (<[j := a]> items).

Definition parent (i : nat) : nat := (i - 1) / 2.

Lemma parent_lt i : parent (S i) < S i.
Proof.
  unfold parent. replace (S i - 1) with i by lia.
  apply Nat.lt_succ_r, Nat.Div0.div_le_upper_bound. lia.
Qed.

(** The loop of [push], from index [i]. *)
Equations? sift_up (items : list T) (i : nat) : list T by wf i lt :=
  sift_up items 0 := items;
  sift_up items (S i') with items !! S i' => {
    | None => items
    | Some a with items !! parent (S i') => {
      | None => items
      | Some b with (compare a b <? 0)%Z => {
        | true => sift_up (swap items (S i') (parent (S i')) a b) (parent (S i'))
        | false => items } } }.
Proof. apply parent_lt. Qed.

Definition push (items : list T) (item : T) : list T :=
  sift_up (items ++ [item]) (length items).

(** One comparison of [siftDown]: the candidate [c] replaces [smallest] when it is
    in range and strictly before it. *)
Definition smaller (items : list T) (c smallest : nat) : nat :=
  match items !! c, items !! smallest with
  | Some a, Some b => if (compare a b <? 0)%Z then c else smallest
  | _, _ => smallest
  end.

Definition smallest_child (items : list T) (i : nat) : nat :=
  smaller items (2 * i + 2) (smaller items (2 * i + 1) i).

Lemma smaller_cases items c s :
  smaller items c s = s ∨ smaller items c s = c ∧ c < length items.
Proof.
  unfold smaller. destruct (items !! c) eqn:Hc; [|by left].
  apply lookup_lt_Some in Hc. destruct (items !! s); [|by left].
  destruct (compare _ _ <? 0)%Z; auto.
Qed.

Lemma smallest_child_gt items i :
  smallest_child items i ≠ i →
  i < smallest_child items i < length items.
Proof.
  unfold smallest_child.
  destruct (smaller_cases items (2 * i + 1) i) as [E|[E ?]]; rewrite E;
    destruct (smaller_cases items (2 * i + 2) i) as [E'|[E' ?]];
    destruct (smaller_cases items (2 * i + 2) (2 * i + 1)) as [E''|[E'' ?]];
    rewrite ?E', ?E''; lia.
Qed.

Lemma swap_length items i j a b : length (swap items i j a b) = length items.
Proof. unfold swap. by rewrite !length_insert. Qed.

Equations? sift_down (items : list T) (i : nat) : list T
  by wf (length items - i) lt :=
  sift_down items i with decide (smallest_child items i = i) => {
    | left _ => items
    | right Hne with items !! i => {
      | None => items
      | Some a with items !! smallest_child items i => {
        | None => items
        | Some b => sift_down (swap items i (smallest_child items i) a b)
                              (smallest_child items i) } } }.
Proof.
  rewrite swap_length. pose proof (smallest_child_gt items i Hne). lia.
Qed.

Definition pop (items : list T) : option T * list T :=
  match items !! 0 with
  | None => (None, items)
  | Some top =>
      match last items with
      | None => (None, items)
      | Some l =>
          let items' := take (length items - 1) items in
          if 0 <? length items' then (Some top, sift_down (<[0 := l]> items') 0)
          else (Some top, items')
      end
  end.

(** ** Order and permutation facts *)

Lemma parent_iff i j : parent (S j) = i ↔ S j = 2 * i + 1 ∨ S j = 2 * i + 2.
Proof. unfold parent. replace (S j - 1) with j by lia.
  pose proof (Nat.div_mod_eq j 2). pose proof (Nat.mod_upper_bound j 2). lia. Qed.

Lemma insert_Permutation items i a b :
  items !! i = Some a → a :: <[i := b]> items ≡ₚ b :: items.
Proof.
  intros H. rewrite (insert_take_drop items i b) by (by eapply lookup_lt_Some).
  rewrite <-(take_drop_middle items i a) at 3 by done.
  rewrite <-!Permutation_middle. apply Permutation_swap.
Qed.

Lemma swap_Permutation items i j a b :
  items !! i = Some a → items !! j = Some b → swap items i j a b ≡ₚ items.
Proof.
  intros Hi Hj. unfold swap. apply (Permutation_cons_inv (a := a)).
  rewrite (insert_Permutation (<[j := a]> items) i a b).
  - by apply insert_Permutation.
  - rewrite list_lookup_insert. apply lookup_lt_Some in Hj. case_decide; naive_solver.
Qed.

Lemma swap_lookup items i j a b k :
  items !! i = Some a → items !! j = Some b →
  swap items i j a b !! k =
    if decide (k = i) then Some b else if decide (k = j) then Some a else items !! k.
Proof.
  intros Hi%lookup_lt_Some Hj%lookup_lt_Some. unfold swap.
  rewrite !list_lookup_insert, length_insert.
  repeat case_decide; naive_solver.
Qed.

(** ** The heap invariant *)

Definition before (a b : T) : Prop := (compare a b <= 0)%Z.

Definition heap_ok (items : list T) : Prop :=
  ∀ j a b, items !! S j = Some a → items !! parent (S j) = Some b → before b a.

(** The invariant with a hole at [i]: [i] may be smaller than its parent
    ([sift_up]), or larger than its children ([sift_down]); in both cases the
    parent of [i] is before the children of [i]. *)
Definition bridge (items : list T) (i : nat) : Prop :=
  ∀ j a b, i ≠ 0 → parent (S j) = i → items !! S j = Some a →
    items !! parent i = Some b → before b a.
Definition up_ok (items : list T) (i : nat) : Prop :=
  (∀ j a b, S j ≠ i → items !! S j = Some a → items !! parent (S j) = Some b →
    before b a) ∧ bridge items i.
Definition down_ok (items : list T) (i : nat) : Prop :=
  (∀ j a b, parent (S j) ≠ i → items !! S j = Some a →
    items !! parent (S j) = Some b → before b a) ∧ bridge items i.

Context `{!CompareOk compare}.

Lemma before_refl a : before a a.
Proof. unfold before. pose proof (compare_flip a a). lia. Qed.
Lemma before_trans a b c : before a b → before b c → before a c.
Proof. apply compare_trans. Qed.
Lemma before_total a b : (compare a b < 0)%Z ∨ before b a.
Proof. unfold before. pose proof (compare_flip a b). lia. Qed.
Lemma lt_before a b : (compare a b < 0)%Z → before a b.
Proof. unfold before. lia. Qed.
#[local] Hint Resolve before_refl before_trans lt_before : street.

Lemma up_step items i a b :
  items !! S i = Some a → items !! parent (S i) = Some b → (compare a b < 0)%Z →
  up_ok items (S i) → up_ok (swap items (S i) (parent (S i)) a b) (parent (S i)).
Proof.
  intros Ha Hb Hlt%lt_before [Hother Hbridge].
  pose proof (parent_lt i) as Hp. split.
  - intros j x y Hj. pose proof (parent_lt j).
    rewrite !swap_lookup by done. intros Hx Hy.
    repeat case_decide; simplify_eq; try lia; eauto with street.
    apply before_trans with b; [done|]. apply (Hother j x b); congruence.
  - intros j x y Hp0 Hj. pose proof (parent_lt j).
    destruct (parent (S i)) as [|p] eqn:Hpar; [done|].
    pose proof (parent_lt p). rewrite !swap_lookup by congruence. intros Hx Hy.
    assert (before y b) by (apply (Hother p b y); [lia|done|]; by repeat case_decide; try lia).
    repeat case_decide; simplify_eq; try lia; [done|].
    apply before_trans with b; [done|]. apply (Hother j x b); [lia|done|congruence].
Qed.

Lemma sift_up_heap items i : up_ok items i → heap_ok (sift_up items i).
Proof.
  funelim (sift_up items i); intros Hup; try rewrite <-Heqcall;
    [..|by apply H, up_step; [| |apply Z.ltb_lt|]|];
    intros j x y Hx Hy; destruct Hup as [Hother _];
    try (apply (Hother j x y); done);
    (destruct (decide (S j = S i')) as [E|]; [|by apply (Hother j x y)]);
    rewrite E in *; simplify_eq.
  apply Z.ltb_ge in Heq. match goal with |- before ?y ?x => destruct (before_total x y) end; [lia|done].
Qed.

Lemma sift_up_Permutation items i : sift_up items i ≡ₚ items.
Proof.
  funelim (sift_up items i); try rewrite <-Heqcall; try done.
  rewrite H. by apply swap_Permutation.
Qed.

(** ** [push] *)

Lemma push_Permutation items x : push items x ≡ₚ x :: items.
Proof. unfold push. rewrite sift_up_Permutation. by rewrite Permutation_app_comm. Qed.

Lemma push_heap items x : heap_ok items → heap_ok (push items x).
Proof.
  intros Hok. apply sift_up_heap. split.
  - intros j a b Hj Ha Hb. pose proof (parent_lt j).
    pose proof (lookup_lt_Some _ _ _ Ha) as Hl. rewrite length_app in Hl. simpl in Hl.
    rewrite lookup_app_l in Ha, Hb by lia. eauto.
  - intros j a b Hj Hp Ha Hb. pose proof (parent_lt j).
    apply lookup_lt_Some in Ha. rewrite length_app in Ha. simpl in Ha. lia.
Qed.

(** ** [siftDown] *)

Lemma smaller_spec items c s a :
  items !! s = Some a → ∃ b, items !! smaller items c s = Some b ∧ before b a ∧
    (∀ x, items !! c = Some x → before b x).
Proof.
  intros Hs. unfold smaller. rewrite Hs. destruct (items !! c) as [x|] eqn:Hc; [|exists a; split; [done|]; split; [apply before_refl|done]].
  destruct (compare x a <? 0)%Z eqn:Hlt.
  - apply Z.ltb_lt, lt_before in Hlt. exists x. split; [done|]. split; [done|].
    intros ? [= <-]. apply before_refl.
  - apply Z.ltb_ge in Hlt. exists a. repeat split; [done|auto with street|].
    intros ? [= <-]. destruct (before_total x a); [lia|done].
Qed.

Lemma smallest_child_spec items i a :
  items !! i = Some a → ∃ b, items !! smallest_child items i = Some b ∧ before b a ∧
    (∀ j x, parent (S j) = i → items !! S j = Some x → before b x).
Proof.
  intros Ha. unfold smallest_child.
  destruct (smaller_spec items (2 * i + 1) i a Ha) as (b1 & Hb1 & Hle1 & Hc1).
  destruct (smaller_spec items (2 * i + 2) _ b1 Hb1) as (b2 & Hb2 & Hle2 & Hc2).
  exists b2. repeat split; [done|by eapply before_trans|].
  intros j x [E|E]%parent_iff; rewrite E; eauto with street.
Qed.

Lemma smallest_child_parent items i :
  smallest_child items i ≠ i → parent (smallest_child items i) = i.
Proof.
  intros Hne. pose proof (smallest_child_gt items i Hne).
  destruct (smallest_child items i) as [|j] eqn:E; [lia|]. apply parent_iff.
  revert E. unfold smallest_child.
  destruct (smaller_cases items (2 * i + 1) i) as [E1|[E1 ?]]; rewrite E1;
    destruct (smaller_cases items (2 * i + 2) i) as [E2|[E2 ?]];
    destruct (smaller_cases items (2 * i + 2) (2 * i + 1)) as [E3|[E3 ?]];
    rewrite ?E2, ?E3; lia.
Qed.

Lemma down_step items i a b :
  smallest_child items i ≠ i →
  items !! i = Some a → items !! smallest_child items i = Some b →
  down_ok items i →
  down_ok (swap items i (smallest_child items i) a b) (smallest_child items i).
Proof.
  intros Hne Ha Hb [Hother Hbridge].
  pose proof (smallest_child_gt items i Hne) as Hgt.
  pose proof (smallest_child_parent items i Hne) as Hpar.
  destruct (smallest_child_spec items i a Ha) as (b' & Hb' & Hba & Hleast).
  simplify_eq. set (m := smallest_child items i) in *. split.
  - intros j x y Hj. pose proof (parent_lt j). rewrite !swap_lookup by done. intros Hx Hy.
    repeat case_decide; simplify_eq; try lia; try congruence; eauto with street.
    (* the slot [i] itself, seen from its parent *)
    destruct m as [|m']; [lia|]. apply (Hbridge m' x y); (lia || congruence).
  - intros j x y Hm Hj. pose proof (parent_lt j). rewrite !swap_lookup by done.
    rewrite Hpar. intros Hx Hy. repeat case_decide; simplify_eq; try lia.
    apply (Hother j x y); [lia|done|congruence].
Qed.

Lemma down_exit items i :
  smallest_child items i = i → down_ok items i → heap_ok items.
Proof.
  intros Hex [Hother _] j x y Hx Hy.
  destruct (decide (parent (S j) = i)) as [E|]; [|by eapply Hother].
  subst. destruct (smallest_child_spec items _ y Hy) as (b & Hb & _ & Hleast).
  rewrite Hex in Hb. simplify_eq. by eapply Hleast.
Qed.

End binary_heap.

Lemma sift_down_heap {T} (compare : T → T → Z) `{!CompareOk compare} items i :
  down_ok compare items i → heap_ok compare (sift_down compare items i).
Proof.
  funelim (sift_down compare items i); intros Hd; try rewrite <-Heqcall;
    [by eapply down_exit| |by apply H, down_step|].
  - destruct (lookup_lt_is_Some_2 items i) as [a Ha]; [|congruence].
    pose proof (smallest_child_gt compare items i Hne). lia.
  - pose proof (smallest_child_gt compare items i Hne).
    destruct (lookup_lt_is_Some_2 items (smallest_child compare items i)); [lia|congruence].
Qed.

Section heap_pop.
  Context {T : Type} {compare : T → T → Z} `{!CompareOk compare}.
  Implicit Types (items : list T) (x y : T) (i j n : nat).
  #[local] Abbreviation sift_down := (sift_down compare).
  #[local] Abbreviation heap_ok := (heap_ok compare).
  #[local] Abbreviation before := (before compare).
  #[local] Abbreviation pop := (pop compare).
  #[local] Hint Resolve before_refl before_trans lt_before : street.

Lemma sift_down_Permutation items i : sift_down items i ≡ₚ items.
Proof.
  funelim (sift_down items i); try rewrite <-Heqcall; try done.
  rewrite H. by apply swap_Permutation.
Qed.

(** ** [pop] *)

Lemma heap_head_least items x : heap_ok items → items !! 0 = Some x →
  ∀ i y, items !! i = Some y → before x y.
Proof.
  intros Hok H0 i. induction i as [i IH] using lt_wf_ind. intros y Hy.
  destruct i as [|j]; [naive_solver auto with street|].
  pose proof (parent_lt j).
  destruct (lookup_lt_is_Some_2 items (parent (S j))) as [b Hb].
  { apply lookup_lt_Some in Hy. lia. }
  apply (before_trans compare x b y); [by eapply IH|by eapply Hok].
Qed.

Lemma pop_None items : items = [] → pop items = (None, []).
Proof. by intros ->. Qed.

Lemma pop_Some items x : heap_ok items → items !! 0 = Some x →
  ∃ items', pop items = (Some x, items') ∧ items ≡ₚ x :: items' ∧ heap_ok items'
            ∧ Forall (before x) items'.
Proof.
  intros Hok Hx.
  assert (∃ items', pop items = (Some x, items') ∧ items ≡ₚ x :: items' ∧ heap_ok items')
    as (items' & Hpop & Hperm & Hok').
  { unfold pop. rewrite Hx. destruct items as [|z l] using rev_ind; [done|]. clear IHl.
    rewrite last_snoc, length_app. simpl.
    replace (length l + 1 - 1) with (length l) by lia. rewrite take_app_length.
    destruct l as [|x' l']; simpl in Hx |- *; simplify_eq.
    { eexists; split; [done|]. split; [done|]. by intros j a b. }
    eexists; split; [done|]. split.
    { rewrite sift_down_Permutation. by rewrite Permutation_app_comm. }
    apply sift_down_heap; [done|]. split.
    - intros j a b Hj Ha Hb. destruct (parent (S j)) as [|p] eqn:E; [done|].
      apply (Hok j a b); rewrite ?E, lookup_app_l; try done.
      + by apply lookup_lt_Some in Ha.
      + by apply lookup_lt_Some in Hb.
    - by intros j a b ?. }
  exists items'. repeat split; try done. apply Forall_forall. intros y Hy.
  assert (y ∈ items) as [i Hi]%list_elem_of_lookup by (rewrite Hperm; by right).
  by apply (heap_head_least items x Hok Hx i).
Qed.
End heap_pop.

(** ** [drainWhile] *)

Lemma pop_length {T} (compare : T → T → Z) x items :
  length (pop compare (x :: items)).2 = length items.
Proof.
  unfold pop. cbn [lookup list_lookup]. destruct (last (x :: items)) eqn:Hl.
  - assert (length (take (length (x :: items) - 1) (x :: items)) = length items) as Ht.
    { rewrite length_take. simpl. lia. }
    rewrite Ht. case_match; cbn [snd]; [|exact Ht].
    by rewrite (Permutation_length (sift_down_Permutation _ _)), length_insert.
  - by apply last_None in Hl.
Qed.

Equations? drain_while {T} (compare : T → T → Z) (holds : T → bool)
    (items : list T) : list T * list T by wf (length items) lt :=
  drain_while compare holds [] := ([], []);
  drain_while compare holds (top :: rest) with holds top => {
    | false => ([], top :: rest)
    | true =>
        let popped := pop compare (top :: rest) in
        let drained := drain_while compare holds popped.2 in
        (option_list popped.1 ++ drained.1, drained.2) }.
Proof. unfold popped. rewrite pop_length. simpl. lia. Qed.

Lemma drain_while_spec {T} (compare : T → T → Z) `{!CompareOk compare}
    (holds : T → bool) (items : list T) :
  (∀ a b, before compare a b → holds b = true → holds a = true) →
  heap_ok compare items →
  let '(drained, rest) := drain_while compare holds items in
  items ≡ₚ drained ++ rest ∧ heap_ok compare rest ∧
  Forall (λ x, holds x = true) drained ∧
  Forall (λ x, holds x = false) rest ∧
  StronglySorted (before compare) drained.
Proof.
  intros Hdown. funelim (drain_while compare holds items); intros Hok;
    try rewrite <-Heqcall.
  - repeat split; [constructor|done..|constructor].
  - destruct (pop_Some (top :: rest) top Hok eq_refl) as (items' & Hpop & Hperm & Hok' & Hmin).
    simpl in *. rewrite Hpop in *. specialize (H _ Hdown Hok'). cbn [snd fst] in *.
    destruct (drain_while compare holds items') as [d r]. cbn [snd fst option_list] in *.
    destruct H as (Hp & Hr & Hd & Hn & Hs). simpl.
    rewrite Hp in Hmin. apply Forall_app in Hmin as [Hmin _].
    repeat split; [by rewrite Hperm, Hp|done|by constructor|done|by constructor].
  - repeat split; [done|done|constructor| |constructor].
    apply Forall_forall. intros y [i Hi]%list_elem_of_lookup.
    destruct (holds y) eqn:Hy; [|done].
    rewrite (Hdown top y) in Heq; [done| |done].
    by apply (heap_head_least (top :: rest) top Hok eq_refl i).
Qed.

(** ** Refinement: the array heap implements a sorted list

    The abstract priority queue is the list of its elements in the order they leave
    it; inserting puts an element after those that are not after it. *)
Section refinement.
Context {T : Type} (compare : T → T → Z) `{!CompareOk compare}.
Implicit Types (items l : list T) (x y : T).

Fixpoint insert_sorted (x : T) (l : list T) : list T :=
  match l with
  | [] => [x]
  | y :: l' => if (compare x y <? 0)%Z then x :: y :: l' else y :: insert_sorted x l'
  end.

Record pq_rep (items l : list T) : Prop := {
  rep_heap : heap_ok compare items;
  rep_perm : items ≡ₚ l;
  rep_sorted : StronglySorted (before compare) l;
}.

Lemma insert_sorted_Permutation x l : insert_sorted x l ≡ₚ x :: l.
Proof.
  induction l as [|y l IH]; simpl; [done|]. case_match; [done|].
  by rewrite IH, Permutation_swap.
Qed.

Lemma insert_sorted_sorted x l :
  StronglySorted (before compare) l → StronglySorted (before compare) (insert_sorted x l).
Proof.
  induction 1 as [|y l Hs IH Hall]; simpl; [by repeat constructor|].
  destruct (compare x y <? 0)%Z eqn:Hlt.
  - apply Z.ltb_lt, lt_before in Hlt. constructor; [by constructor|].
    constructor; [done|]. eapply Forall_impl; [exact Hall|].
    intros z. by apply before_trans.
  - apply Z.ltb_ge in Hlt. constructor; [done|].
    rewrite insert_sorted_Permutation. constructor; [|done].
    destruct (before_total compare x y); [lia|done].
Qed.

Lemma pq_rep_push items l x :
  pq_rep items l → pq_rep (push compare items x) (insert_sorted x l).
Proof.
  intros [Hh Hp Hs]. constructor.
  - by apply push_heap.
  - by rewrite push_Permutation, insert_sorted_Permutation, Hp.
  - by apply insert_sorted_sorted.
Qed.

Lemma pq_rep_pop items l :
  (∀ a b, a ∈ items → b ∈ items → compare a b = 0%Z → a = b) →
  pq_rep items l →
  match l with
  | [] => pop compare items = (None, [])
  | x :: l' => ∃ items', pop compare items = (Some x, items') ∧ pq_rep items' l'
  end.
Proof.
  intros Hanti [Hh Hp Hs]. destruct l as [|x l'].
  { apply Permutation_nil_r in Hp as ->. done. }
  destruct items as [|top rest]; [by apply Permutation_nil_cons in Hp|].
  destruct (pop_Some (top :: rest) top Hh eq_refl) as (items' & Hpop & Hperm & Hok' & Hmin).
  apply StronglySorted_inv in Hs as [Hs Hall].
  assert (top = x) as ->.
  { assert (x ∈ top :: items') as Hx by (rewrite <-Hperm, Hp; left).
    assert (top ∈ x :: l') as Ht by (rewrite <-Hp; left).
    apply Hanti; [left|rewrite Hp; left|].
    rewrite Forall_forall in Hmin, Hall. unfold before in *.
    apply elem_of_cons in Hx as [->|Hx]; [by pose proof (compare_flip top top); lia|].
    apply elem_of_cons in Ht as [->|Ht]; [by pose proof (compare_flip x x); lia|].
    specialize (Hmin x Hx). specialize (Hall top Ht). pose proof (compare_flip x top).
    pose proof (compare_flip top x). lia. }
  exists items'. split; [done|]. constructor; [done| |done].
  apply (Permutation_cons_inv (a := x)). by rewrite <-Hperm.
Qed.
End refinement.

#[export] Hint Resolve push_heap pq_rep_push : street.

(** ** Runs of operations *)

Inductive heap_op (T : Type) : Type :=
| HPush (x : T)
| HPop.
Arguments HPush {T} x.
Arguments HPop {T}.

Section runs.
Context {T : Type} (compare : T → T → Z) `{!CompareOk compare}.

(** The values a sequence of operations returns, on the array heap and on the
    sorted list. *)
Fixpoint heap_run (ops : list (heap_op T)) (items : list T) : list (option T) :=
  match ops with
  | [] => []
  | HPush x :: ops => heap_run ops (push compare items x)
  | HPop :: ops => let r := pop compare items in r.1 :: heap_run ops r.2
  end.

Fixpoint spec_run (ops : list (heap_op T)) (l : list T) : list (option T) :=
  match ops with
  | [] => []
  | HPush x :: ops => spec_run ops (insert_sorted compare x l)
  | HPop :: ops => head l :: spec_run ops (tail l)
  end.

Fixpoint pushed (ops : list (heap_op T)) : list T :=
  match ops with
  | [] => []
  | HPush x :: ops => x :: pushed ops
  | HPop :: ops => pushed ops
  end.

Lemma heap_run_rep ops items l (U : list T) :
  (∀ a b, a ∈ U → b ∈ U → compare a b = 0%Z → a = b) →
  items ⊆ U → pushed ops ⊆ U → pq_rep compare items l →
  heap_run ops items = spec_run ops l.
Proof.
  intros Hanti. revert items l. induction ops as [|[x|] ops IH]; intros items l HU Hp Hrep;
    simpl in *; [done| |].
  - apply IH; [|set_solver|by apply pq_rep_push].
    intros y. rewrite push_Permutation. set_solver.
  - pose proof (pq_rep_pop compare items l) as Hpop.
    destruct l as [|x l']; simpl; (ospecialize* Hpop; [set_solver|done|]).
    + rewrite Hpop. simpl. f_equal. apply IH; [set_solver|done|]. constructor; [by intros ???|done|constructor].
    + destruct Hpop as (items' & Hpop & Hrep'). rewrite Hpop. simpl. f_equal.
      apply IH; [|done|done]. intros y Hy. apply HU.
      rewrite (rep_perm _ _ _ Hrep). right. by rewrite <-(rep_perm _ _ _ Hrep').
Qed.
End runs.

(** C12: The array heap is indistinguishable from a sorted list: for any comparator
    that is a total preorder and tells the pushed items apart, every sequence of
    [push] and [pop] calls on the array, starting empty, returns what the same
    sequence returns on a list kept sorted (the least item first, [undefined] when
    empty). *)
Theorem heap_runs_as_sorted_list {T} (compare : T → T → Z) (ops : list (heap_op T)) :
  CompareOk compare →
  (∀ a b, a ∈ pushed ops → b ∈ pushed ops → compare a b = 0%Z → a = b) →
  heap_run compare ops [] = spec_run compare ops [].
Proof.
  intros Hok Hanti. apply heap_run_rep with (U := pushed ops); [done|done|set_solver|done|].
  constructor; [by intros ???|done|constructor].
Qed.

#[export] Instance Zsub_CompareOk : CompareOk Z.sub.
Proof. split; intros; lia. Qed.

Lemma heap_runs_as_sorted_list_witness :
  heap_run Z.sub [HPush 3; HPush 1; HPop; HPush 2; HPop; HPop; HPop]%Z [] =
    [Some 1; Some 2; Some 3; None]%Z.
Proof.
  rewrite (heap_runs_as_sorted_list Z.sub [HPush 3; HPush 1; HPop; HPush 2; HPop; HPop; HPop]%Z);
    [reflexivity|apply Zsub_CompareOk|intros; lia].
Defined.

(** [drainWhile] with a predicate that is closed under "before" takes out of a
    heap exactly the items that satisfy it, in heap order, leaving a heap of the
    others: nothing is lost or duplicated. *)
Lemma drain_while_exact {T} (compare : T → T → Z) (holds : T → bool) (items : list T) :
  CompareOk compare →
  (∀ a b, before compare a b → holds b = true → holds a = true) →
  heap_ok compare items →
  let '(drained, rest) := drain_while compare holds items in
  drained ≡ₚ filter (λ x, holds x = true) items ∧
  rest ≡ₚ filter (λ x, ¬ holds x = true) items ∧
  heap_ok compare rest ∧ StronglySorted (before compare) drained.
Proof.
  intros Hok Hdown Hheap. pose proof (drain_while_spec compare holds items Hdown Hheap) as Hs.
  destruct (drain_while compare holds items) as [d r].
  destruct Hs as (Hp & Hr & Hd & Hn & Hs). repeat split; [| |done|done].
  - rewrite Hp, filter_app, (filter_all _ d), (filter_none _ r), app_nil_r; [done| |done].
    eapply Forall_impl; [exact Hn|]. by intros ? ->.
  - rewrite Hp, filter_app, (filter_none _ d), (filter_all _ r); [done| |].
    + eapply Forall_impl; [exact Hn|]. by intros ? ->.
    + eapply Forall_impl; [exact Hd|]. naive_solver.
Qed.
