(* ===== verification/QueueJob.v ===== *)
(** * Job envelopes, durations and the retry engine of @streetjs/queue

    Models src/packages/queue/src/job.ts (options, envelopes, [resolveMaxAttempts],
    [buildEnvelope]), src/packages/queue/src/retry.ts ([computeBackoffDelay],
    [onFailure]) and the duration parser they share, [parseWindow] of
    src/packages/ratelimit/src/ratelimit.ts.

    Times and delays are JavaScript numbers; they are exact rationals here (no
    rounding, no overflow to [Infinity]).  Counters and priorities are integers.
    [randomUUID()], [clock()] and [rng()] are arguments: the value the call
    returned. *)

From Stdlib Require Export QArith Qround Qpower Qminmax Lqa.
From Stdlib Require Import Ascii String.
From S2P Require Import Prelude.
From S2P Require Export JsText.

(** The field names of the model, and their source names when they differ:
    [o_*] are the fields of [JobOptions], [b_*] of [BackoffPolicy], [e_*] of
    [JobEnvelope]. *)

(** ** Durations *)

Inductive duration : Type :=
| DMs (ms : Q)            (* a number: milliseconds *)
| DText (text : string).  (* a human string such as "5m" *)

(** The failures these modules throw, by throw site. *)
Inductive queue_error : Type :=
| InvalidWindowNumber (w : Q)
| InvalidWindowText (w : string).

(** *** [parseWindow] *)

(** [WINDOW_UNIT_MS]; a missing unit is ["ms"]. *)
Definition WINDOW_UNIT_MS (unit : string) : option Z :=
  if String.eqb unit "" then Some 1%Z
  else if String.eqb unit "ms" then Some 1%Z
  else if String.eqb unit "s" then Some 1000%Z
  else if String.eqb unit "m" then Some 60000%Z
  else if String.eqb unit "h" then Some 3600000%Z
  else if String.eqb unit "d" then Some 86400000%Z
  else None.

(** [WINDOW_RE]: digits, an optional fraction, an optional unit, the end of the
    text; the value is the decimal the digits write. *)
Definition window_match (l : list ascii) : option (Q * Z) :=
  let '(int_part, rest) := span_digits l in
  match int_part with
  | [] => None
  | _ =>
      let '(frac, rest') :=
        match rest with
        | "."%char :: r =>
            let '(f, r') := span_digits r in
            match f with [] => ([], rest) | _ => (f, r') end
        | _ => ([], rest)
        end in
      match WINDOW_UNIT_MS (string_of_list_ascii (lower <$> rest')) with
      | Some unit =>
          Some ((digits_value (int_part ++ frac) # 1) / ((10 # 1) ^ Z.of_nat (List.length frac)),
                unit)%Q
      | None => None
      end
  end.

Definition parseWindow_number (w : Q) : result queue_error Z :=
  if Qle_bool w 0 then Throw (InvalidWindowNumber w) else Ok (Qfloor w).

Definition parseWindow_text (w : string) : result queue_error Z :=
  match window_match (trim (list_ascii_of_string w)) with
  | None => Throw (InvalidWindowText w)
  | Some (value, unit) =>
      let ms := (value * inject_Z unit)%Q in
      if Qle_bool ms 0 then Throw (InvalidWindowText w) else Ok (Qfloor ms)
  end.

Definition parseWindow (w : duration) : result queue_error Z :=
  match w with
  | DMs q => parseWindow_number q
  | DText s => parseWindow_text s
  end.

(** [parseDuration] of retry.ts and [resolveDurationMs] of job.ts: a number is
    used as it is, a string is parsed. *)
Definition parseDuration (d : duration) : result queue_error Q :=
  match d with
  | DMs q => Ok q
  | DText s => inject_Z <$> parseWindow (DText s)
  end.

Definition resolveDurationMs (d : option duration) : result queue_error (option Q) :=
  match d with
  | None => Ok None
  | Some d => Some <$> parseDuration d
  end.

(** ** Options, envelopes *)

Inductive strategy : Type := Fixed | Exponential.

Record BackoffPolicy : Type := {
  b_strategy : strategy;
  b_delay : duration;
  b_multiplier : option Q;
  b_maxDelay : option duration;
  b_jitter : option Q;
}.

Record JobOptions : Type := {
  o_queue : option string;
  o_delay : option duration;
  o_runAt : option Q;
  o_priority : option Z;
  o_maxAttempts : option Z;
  o_retries : option Z;
  o_backoff : option BackoffPolicy;
  o_timeout : option duration;
  o_dedupeKey : option string;
}.

Definition no_options : JobOptions :=
  Build_JobOptions None None None None None None None None None.

(** [{ ...a, ...b }]: the fields present in [b] override those of [a]. *)
Definition or_else {A} (b a : option A) : option A :=
  match b with Some x => Some x | None => a end.
Definition merge_options (a b : JobOptions) : JobOptions := {|
  o_queue := or_else (o_queue b) (o_queue a);
  o_delay := or_else (o_delay b) (o_delay a);
  o_runAt := or_else (o_runAt b) (o_runAt a);
  o_priority := or_else (o_priority b) (o_priority a);
  o_maxAttempts := or_else (o_maxAttempts b) (o_maxAttempts a);
  o_retries := or_else (o_retries b) (o_retries a);
  o_backoff := or_else (o_backoff b) (o_backoff a);
  o_timeout := or_else (o_timeout b) (o_timeout a);
  o_dedupeKey := or_else (o_dedupeKey b) (o_dedupeKey a);
|}.

(** An envelope is an object that the driver's heaps, its lease map and the
    reservations handed to workers share, and [attempts] is the field they update
    through it.  [e_ref] is the identity of the object; its current [attempts] is
    kept in a store indexed by [e_ref] (see [QueueMemory]). *)
Record JobEnvelope (P : Type) : Type := {
  e_ref : nat;
  e_id : string;
  e_type : string;
  e_queue : string;
  e_payload : P;
  e_priority : Z;
  e_maxAttempts : Z;
  e_backoff : option BackoffPolicy;
  e_timeoutMs : option Q;
  e_enqueuedAt : Q;
  e_seq : Z;
  e_dedupeKey : option string;
  e_tenantId : option string;
}.
Arguments e_ref {P}. Arguments e_id {P}. Arguments e_type {P}. Arguments e_queue {P}.
Arguments e_payload {P}. Arguments e_priority {P}. Arguments e_maxAttempts {P}.
Arguments e_backoff {P}. Arguments e_timeoutMs {P}. Arguments e_enqueuedAt {P}.
Arguments e_seq {P}. Arguments e_dedupeKey {P}. Arguments e_tenantId {P}.

Record Job (P : Type) : Type := {
  j_type : string;
  j_payload : P;
  j_options : JobOptions;
}.
Arguments j_type {P}. Arguments j_payload {P}. Arguments j_options {P}.

Definition DEFAULT_QUEUE : string := "default".
Definition DEFAULT_PRIORITY : Z := 0%Z.
Definition DEFAULT_MAX_ATTEMPTS : Z := 1%Z.

Definition resolveMaxAttempts (options : JobOptions) : Z :=
  match o_retries options with
  | Some retries => (retries + 1)%Z
  | None => default DEFAULT_MAX_ATTEMPTS (o_maxAttempts options)
  end.

(** The object created has [attempts] 0; [ref] is its identity, [uuid] and [now]
    what [randomUUID()] and [clock()] returned. *)
Definition buildEnvelope {P} (job : Job P) (options : JobOptions)
    (ref : nat) (uuid : string) (now : Q) (seq : Z) : result queue_error (JobEnvelope P) :=
  let merged := merge_options (j_options job) options in
  timeoutMs ← resolveDurationMs (o_timeout merged);
  Ok {| e_ref := ref;
        e_id := uuid;
        e_type := j_type job;
        e_queue := default DEFAULT_QUEUE (o_queue merged);
        e_payload := j_payload job;
        e_priority := default DEFAULT_PRIORITY (o_priority merged);
        e_maxAttempts := resolveMaxAttempts merged;
        e_backoff := o_backoff merged;
        e_timeoutMs := timeoutMs;
        e_enqueuedAt := now;
        e_seq := seq;
        e_dedupeKey := o_dedupeKey merged;
        e_tenantId := None |}.

(** ** The retry engine *)

Inductive RetryDecision : Type :=
| Retry (runAt : Q)
| DeadLetter.

Definition DEFAULT_BACKOFF : BackoffPolicy := {|
  b_strategy := Exponential;
  b_delay := DMs 1000;
  b_multiplier := Some 2%Q;
  b_maxDelay := Some (DMs 30000);
  b_jitter := None;
|}.

(** [rng] is the value the random source returned, in [[0, 1)]. *)
Definition applyJitter (capped : Q) (jitter : option Q) (rng : Q) : Q :=
  let fraction := default 0%Q jitter in
  let factor := (1 + (2 * rng - 1) * fraction)%Q in
  (capped * factor)%Q.

Definition computeBackoffDelay (attempts : Z) (backoff : BackoffPolicy) (rng : Q) :
    result queue_error Q :=
  base ← parseDuration (b_delay backoff);
  let raw :=
    match b_strategy backoff with
    | Exponential => (base * default 2%Q (b_multiplier backoff) ^ (attempts - 1))%Q
    | Fixed => base
    end in
  capped ← match b_maxDelay backoff with
           | Some d => m ← parseDuration d; Ok (Qmin raw m)
           | None => Ok raw
           end;
  Ok (applyJitter capped (b_jitter backoff) rng).

Definition onFailure {P} (envelope : JobEnvelope P) (attempts : Z) (options : JobOptions)
    (defaultBackoff : option BackoffPolicy) (now rng : Q) : result queue_error RetryDecision :=
  if (e_maxAttempts envelope <=? attempts)%Z then Ok DeadLetter
  else
    let backoff := default DEFAULT_BACKOFF
      (or_else (o_backoff options) (or_else (e_backoff envelope) defaultBackoff)) in
    delay ← computeBackoffDelay attempts backoff rng;
    Ok (Retry (now + delay)%Q).

(** ** Lemmas *)

(** The units the parser knows, as they are written. *)
Definition unit_text (u : string) : Prop :=
  u = "ms" ∨ u = "s" ∨ u = "m" ∨ u = "h" ∨ u = "d" ∨ u = "".

(** *** The bounds of a delay *)

Definition capped_delay (attempts : Z) (b : BackoffPolicy) : result queue_error Q :=
  base ← parseDuration (b_delay b);
  let raw :=
    match b_strategy b with
    | Exponential => (base * default 2%Q (b_multiplier b) ^ (attempts - 1))%Q
    | Fixed => base
    end in
  match b_maxDelay b with
  | Some d => m ← parseDuration d; Ok (Qmin raw m)
  | None => Ok raw
  end.

Lemma computeBackoffDelay_capped attempts b rng :
  computeBackoffDelay attempts b rng =
    (λ c, applyJitter c (b_jitter b) rng) <$> capped_delay attempts b.
Proof.
  unfold computeBackoffDelay, capped_delay.
  destruct (parseDuration (b_delay b)); simpl; [|done].
  destruct (b_maxDelay b); simpl; [|done]. by destruct (parseDuration _).
Qed.

Lemma applyJitter_bounds c j rng :
  (0 <= c)%Q → (0 <= j <= 1)%Q → (0 <= rng < 1)%Q →
  (c * (1 - j) <= applyJitter c (Some j) rng <= c * (1 + j))%Q.
Proof.
  intros Hc [Hj0 Hj1] [Hr0 Hr1]. unfold applyJitter. simpl.
  split; rewrite !(Qmult_comm c); apply Qmult_le_compat_r; try done; nra.
Qed.

Lemma trim_digits_unit ds u :
  Forall (λ c, is_digit c = true) ds → ds ≠ [] → unit_text u →
  trim (ds ++ list_ascii_of_string u) = ds ++ list_ascii_of_string u.
Proof.
  intros Hds Hne Hu. apply trim_id.
  - destruct ds as [|c ds]; [done|]. apply Forall_cons in Hds as [Hc _]. by apply digit_not_space.
  - rewrite reverse_app. destruct Hu as [->|[->|[->|[->|[->| ->]]]]]; try reflexivity.
    cbn. destruct ds as [|c ds] using rev_ind; [done|].
    rewrite reverse_snoc. apply Forall_app in Hds as [_ Hc].
    apply Forall_cons in Hc as [Hc _]. by apply digit_not_space.
Qed.

Lemma window_match_digits_unit ds u :
  Forall (λ c, is_digit c = true) ds → ds ≠ [] → unit_text u →
  ∃ mult, WINDOW_UNIT_MS u = Some mult ∧ (0 < mult)%Z ∧
    ∃ q, window_match (ds ++ list_ascii_of_string u) = Some (q, mult) ∧
      (q == inject_Z (digits_value ds))%Q.
Proof.
  intros Hds Hne Hu. unfold window_match.
  rewrite span_digits_app; [|done|by destruct Hu as [->|[->|[->|[->|[->| ->]]]]]].
  destruct ds as [|c ds]; [done|].
  destruct Hu as [->|[->|[->|[->|[->| ->]]]]]; simpl;
    (eexists; split; [reflexivity|]; split; [lia|]; eexists; split; [reflexivity|]);
    rewrite app_nil_r; unfold inject_Z, Qdiv; simpl; field.
Qed.

Lemma Qfloor_mult_int q n m :
  (q == inject_Z n)%Q → Qfloor (q * inject_Z m) = (n * m)%Z.
Proof. intros ->. rewrite <-inject_Z_mult. apply Qfloor_Z. Qed.

(** Parsing a whole number of a known unit gives that number of the unit's
    milliseconds; the zero duration is rejected. *)
Theorem parseWindow_whole_units (ds : list ascii) (u : string) :
  Forall (λ c, is_digit c = true) ds → ds ≠ [] → unit_text u →
  ∃ mult, WINDOW_UNIT_MS u = Some mult ∧
    let text := string_of_list_ascii (ds ++ list_ascii_of_string u) in
    parseWindow (DText text) =
      if (digits_value ds =? 0)%Z then Throw (InvalidWindowText text)
      else Ok (digits_value ds * mult)%Z.
Proof.
  intros Hds Hne Hu.
  destruct (window_match_digits_unit ds u Hds Hne Hu) as (mult & Hm & Hpos & q & Hw & Hq).
  exists mult. split; [done|]. simpl. unfold parseWindow_text.
  rewrite list_ascii_of_string_of_list_ascii, trim_digits_unit, Hw by done.
  pose proof (digits_value_nonneg ds Hds).
  assert (Qle_bool (q * inject_Z mult) 0 = true ↔ digits_value ds = 0%Z) as Hle.
  { rewrite Qle_bool_iff, Hq, <-inject_Z_mult. change 0%Q with (inject_Z 0).
    rewrite <-Zle_Qle. nia. }
  destruct (Z.eqb_spec (digits_value ds) 0) as [Hz|Hz].
  - by rewrite (proj2 Hle Hz).
  - destruct (Qle_bool _ 0); [by destruct Hz; apply Hle|].
    by rewrite (Qfloor_mult_int q (digits_value ds)).
Qed.

Lemma parseWindow_whole_units_witness :
  parseWindow (DText "30s") = Ok 30000%Z.
Proof.
  destruct (parseWindow_whole_units ["3"; "0"]%char "s") as (mult & Hm & H).
  - repeat constructor.
  - done.
  - right. by left.
  - vm_compute in Hm. injection Hm as <-. exact H.
Defined.

(** [parseWindow] never returns a negative duration, and its result is 0 exactly
    for the positive durations below one millisecond: the guard rejects
    non-positive values before rounding down, not after, so ["0.5ms"] is accepted
    as the window 0. *)
Theorem parseWindow_rounds_to_zero :
  (∀ w n, parseWindow w = Ok n → (0 <= n)%Z) ∧
  (∀ q, parseWindow (DMs q) = Ok 0%Z ↔ (0 < q < 1)%Q) ∧
  parseWindow (DText "0.5ms") = Ok 0%Z.
Proof.
  assert (∀ q, Qle_bool q 0 = false ↔ (0 < q)%Q) as Hpos.
  { intros q. rewrite <-not_true_iff_false, Qle_bool_iff. split; intros; lra. }
  assert (∀ q, (0 <= q)%Q → (0 <= Qfloor q)%Z) as Hfloor.
  { intros q Hq. change 0%Z with (Qfloor 0). by apply Qfloor_resp_le. }
  split; [|split]; [| |reflexivity].
  - intros [q|t] n; simpl.
    + unfold parseWindow_number. case_match eqn:E; [done|]. intros [= <-].
      apply Hpos in E. apply Hfloor. lra.
    + unfold parseWindow_text. case_match; [|done]. case_match. case_match eqn:E; [done|].
      apply Hpos in E. intros <-%Ok_inj.
      apply (Hfloor (_ * _)%Q). lra.
  - intros q. simpl. unfold parseWindow_number. case_match eqn:E.
    + apply Qle_bool_iff in E. split; [done|lra].
    + apply Hpos in E. split; [intros Hf%Ok_inj|intros [_ Hlt]; f_equal].
      * split; [done|]. pose proof (Qlt_floor q) as Hl. rewrite Hf in Hl. exact Hl.
      * assert (Qfloor q < 1)%Z; [|pose proof (Hfloor q ltac:(lra)); lia].
        rewrite Zlt_Qlt. pose proof (Qfloor_le q). unfold inject_Z in *. lra.
Qed.

(** The decision after a failed attempt: a job whose attempts are used up is
    dead-lettered; otherwise it is retried no earlier than [(1 - j)] and no later
    than [(1 + j)] times the capped backoff delay after now, where [j] is the jitter
    fraction, and without jitter exactly after that delay. *)
Theorem onFailure_decision {P} (env : JobEnvelope P) (attempts : Z) (o : JobOptions)
    (dflt : option BackoffPolicy) (b : BackoffPolicy) (capped now rng : Q) :
  b = default DEFAULT_BACKOFF (or_else (o_backoff o) (or_else (e_backoff env) dflt)) →
  capped_delay attempts b = Ok capped → (0 <= capped)%Q →
  (0 <= default 0%Q (b_jitter b) <= 1)%Q → (0 <= rng < 1)%Q →
  if (e_maxAttempts env <=? attempts)%Z
  then onFailure env attempts o dflt now rng = Ok DeadLetter
  else ∃ delay, onFailure env attempts o dflt now rng = Ok (Retry (now + delay)%Q) ∧
    (capped * (1 - default 0 (b_jitter b)) <= delay <= capped * (1 + default 0 (b_jitter b)))%Q ∧
    (b_jitter b = None → delay == capped)%Q.
Proof.
  intros Hb Hc Hc0 Hj Hr. unfold onFailure. case_match; [done|].
  rewrite <-Hb, computeBackoffDelay_capped, Hc. simpl. eexists; split; [reflexivity|].
  split; [by apply (applyJitter_bounds capped (default 0%Q (b_jitter b)) rng)|].
  intros ->. unfold applyJitter. simpl. ring.
Qed.

Lemma onFailure_decision_witness :
  let env := Build_JobEnvelope unit 0 "id" "mail" "default" () 0 3 None None 0 0 None None in
  ∃ delay, onFailure env 2 no_options None 10 (1 # 4) = Ok (Retry (10 + delay)%Q) ∧
    (delay == 2000)%Q.
Proof.
  intros env.
  destruct (onFailure_decision env 2 no_options None DEFAULT_BACKOFF (2000 # 1) 10 (1 # 4))
    as (delay & H1 & _ & H2); try reflexivity; try (simpl; lra).
  exists delay. split; [exact H1|by apply H2].
Defined.
