(* ===== verification/QueueMemory.v ===== *)
(** * [MemoryDriver]: the in-process queue driver of @streetjs/queue

    Models src/packages/queue/src/drivers/memory.ts: the ready and delayed heaps per
    queue, the lease map, the dead-letter lists and every operation on them.  The
    [Map]s are the insertion-ordered maps of [JsMap], the heaps the array heaps of
    [BinaryHeap].

    An envelope is shared by reference between the heaps, the leases and the
    reservations given to workers, and [attempts] is updated through it; so the
    driver state carries the store [attempts_of] from the identity of an envelope
    object to its current [attempts].  [randomUUID()] and [Date.now()] are
    arguments. *)

From S2P Require Import Prelude JsMap BinaryHeap QueueJob.

Open Scope nat_scope.

Section memory_driver.
  Context {P : Type}.
  Implicit Types (queue token : string) (now : Q).

(** ** State *)

Record SerializedError : Type := {
  err_name : string;
  err_message : string;
  err_stack : option string;
}.

Record DelayedEntry : Type := {
  d_envelope : JobEnvelope P;
  d_runAt : Q;
}.

Record LeaseRecord : Type := {
  l_envelope : JobEnvelope P;
  l_queue : string;
  l_leaseExpiresAt : Q;
}.

Record Reservation : Type := {
  r_envelope : JobEnvelope P;
  r_token : string;
  r_queue : string;
  r_leaseExpiresAt : Q;
}.

Record DeadLetterRecord : Type := {
  dl_id : string;
  dl_type : string;
  dl_queue : string;
  dl_payload : P;
  dl_attempts : Z;
  dl_maxAttempts : Z;
  dl_backoff : option BackoffPolicy;
  dl_error : SerializedError;
  dl_enqueuedAt : Q;
  dl_failedAt : Q;
}.

Record MemoryDriver : Type := {
  ready : list (string * list (JobEnvelope P));
  delayed : list (string * list DelayedEntry);
  reserved : list (string * LeaseRecord);
  dead : list (string * list DeadLetterRecord);
  attempts_of : gmap nat Z;
}.

Definition empty_driver : MemoryDriver := Build_MemoryDriver [] [] [] [] ∅.

Definition set_ready d x := Build_MemoryDriver x (delayed d) (reserved d) (dead d) (attempts_of d).
Definition set_delayed d x := Build_MemoryDriver (ready d) x (reserved d) (dead d) (attempts_of d).
Definition set_reserved d x := Build_MemoryDriver (ready d) (delayed d) x (dead d) (attempts_of d).
Definition set_dead d x := Build_MemoryDriver (ready d) (delayed d) (reserved d) x (attempts_of d).
Definition set_attempts d x := Build_MemoryDriver (ready d) (delayed d) (reserved d) (dead d) x.

(** The [attempts] field of an envelope object. *)
Definition attempts (d : MemoryDriver) (e : JobEnvelope P) : Z :=
  default 0%Z (attempts_of d !! e_ref e).

(** ** Orderings *)

Definition compareReady (a b : JobEnvelope P) : Z :=
  if (e_priority a =? e_priority b)%Z then (e_seq a - e_seq b)%Z
  else (e_priority b - e_priority a)%Z.

(** The sign of the difference of two times. *)
Definition compareDelayed (a b : DelayedEntry) : Z :=
  if Qeq_bool (d_runAt a) (d_runAt b)
  then (e_seq (d_envelope a) - e_seq (d_envelope b))%Z
  else Z.sgn (Qnum (d_runAt a - d_runAt b)).

(** ** The per-queue structures, created on first use *)

Definition readyHeap (queue : string) (d : MemoryDriver) : list (JobEnvelope P) :=
  default [] (jm_get queue (ready d)).
Definition delayedHeap (queue : string) (d : MemoryDriver) : list DelayedEntry :=
  default [] (jm_get queue (delayed d)).
Definition deadList (queue : string) (d : MemoryDriver) : list DeadLetterRecord :=
  default [] (jm_get queue (dead d)).

Definition push_ready (queue : string) (e : JobEnvelope P) (d : MemoryDriver) : MemoryDriver :=
  set_ready d (jm_set queue (push compareReady (readyHeap queue d) e) (ready d)).
Definition push_delayed (queue : string) (x : DelayedEntry) (d : MemoryDriver) : MemoryDriver :=
  set_delayed d (jm_set queue (push compareDelayed (delayedHeap queue d) x) (delayed d)).
Definition push_dead (queue : string) (r : DeadLetterRecord) (d : MemoryDriver) : MemoryDriver :=
  set_dead d (jm_set queue (deadList queue d ++ [r]) (dead d)).

(** ** Operations *)

Definition enqueue (queue : string) (e : JobEnvelope P) (d : MemoryDriver) : MemoryDriver :=
  push_ready queue e d.

Definition enqueueDelayed (queue : string) (e : JobEnvelope P) (runAt : Q)
    (d : MemoryDriver) : MemoryDriver :=
  push_delayed queue {| d_envelope := e; d_runAt := runAt |} d.

(** One step of the loop over the leases. *)
Definition reclaim_one (now : Q) (d : MemoryDriver) (kv : string * LeaseRecord) : MemoryDriver :=
  let '(token, lease) := kv in
  if Qle_bool (l_leaseExpiresAt lease) now
  then push_ready (l_queue lease) (l_envelope lease)
         (set_reserved d (jm_delete token (reserved d)))
  else d.

Definition reclaimExpiredLeases (now : Q) (d : MemoryDriver) : MemoryDriver :=
  foldl (reclaim_one now) d (reserved d).

(** The first queue, in the order given, with a ready job. *)
Fixpoint first_ready (queues : list string) (d : MemoryDriver) : option string :=
  match queues with
  | [] => None
  | q :: qs => match readyHeap q d with [] => first_ready qs d | _ => Some q end
  end.

Definition reserve (queues : list string) (visibilityMs now : Q) (token : string)
    (d : MemoryDriver) : option Reservation * MemoryDriver :=
  let d := reclaimExpiredLeases now d in
  match first_ready queues d with
  | None => (None, d)
  | Some queue =>
      let '(top, rest) := pop compareReady (readyHeap queue d) in
      match top with
      | None => (None, d)
      | Some e =>
          let d := set_ready d (jm_set queue rest (ready d)) in
          let d := set_attempts d (<[e_ref e := (attempts d e + 1)%Z]> (attempts_of d)) in
          let leaseExpiresAt := (now + visibilityMs)%Q in
          let lease := {| l_envelope := e; l_queue := queue;
                          l_leaseExpiresAt := leaseExpiresAt |} in
          let d := set_reserved d (jm_set token lease (reserved d)) in
          (Some {| r_envelope := e; r_token := token; r_queue := queue;
                   r_leaseExpiresAt := leaseExpiresAt |}, d)
      end
  end.

Definition ack (r : Reservation) (d : MemoryDriver) : MemoryDriver :=
  set_reserved d (jm_delete (r_token r) (reserved d)).

Definition nack (r : Reservation) (runAt : option Q) (d : MemoryDriver) : MemoryDriver :=
  let existed := jm_has (r_token r) (reserved d) in
  let d := set_reserved d (jm_delete (r_token r) (reserved d)) in
  if negb existed then d
  else match runAt with
       | Some t => push_delayed (r_queue r) {| d_envelope := r_envelope r; d_runAt := t |} d
       | None => push_ready (r_queue r) (r_envelope r) d
       end.

(** One queue of [promoteDue]: drain the due entries, push them in order. *)
Definition due (now : Q) (x : DelayedEntry) : bool := Qle_bool (d_runAt x) now.

Definition promote_queue (now : Q) (acc : Z * MemoryDriver)
    (kv : string * list DelayedEntry) : Z * MemoryDriver :=
  let '(promoted, d) := acc in
  let '(queue, heap) := kv in
  let '(drained, rest) := drain_while compareDelayed (due now) heap in
  let d := set_delayed d (jm_set queue rest (delayed d)) in
  ((promoted + Z.of_nat (length drained))%Z,
   foldl (λ d x, push_ready queue (d_envelope x) d) d drained).

Definition promoteDue (now : Q) (d : MemoryDriver) : Z * MemoryDriver :=
  foldl (promote_queue now) (0%Z, d) (delayed d).

(** [now] is [Date.now()]. *)
Definition moveToDeadLetter (r : Reservation) (error : SerializedError) (now : Q)
    (d : MemoryDriver) : MemoryDriver :=
  let d := set_reserved d (jm_delete (r_token r) (reserved d)) in
  let e := r_envelope r in
  push_dead (r_queue r)
    {| dl_id := e_id e; dl_type := e_type e; dl_queue := r_queue r;
       dl_payload := e_payload e; dl_attempts := attempts d e;
       dl_maxAttempts := e_maxAttempts e; dl_backoff := e_backoff e;
       dl_error := error; dl_enqueuedAt := e_enqueuedAt e; dl_failedAt := now |} d.

Definition listDeadLetters (queue : option string) (limit : Z) (d : MemoryDriver) :
    list DeadLetterRecord :=
  let records := match queue with
                 | Some q => deadList q d
                 | None => mjoin (jm_values (dead d))
                 end in
  if (0 <=? limit)%Z then take (Z.to_nat limit) records else records.

(** [findIndex] and [splice]: the first record with the id, and the list without it. *)
Fixpoint take_record (jobId : string) (l : list DeadLetterRecord) :
    option (DeadLetterRecord * list DeadLetterRecord) :=
  match l with
  | [] => None
  | r :: l' =>
      if String.eqb (dl_id r) jobId then Some (r, l')
      else match take_record jobId l' with
           | Some (x, l'') => Some (x, r :: l'')
           | None => None
           end
  end.

Fixpoint remove_dead_in (jobId : string) (m : list (string * list DeadLetterRecord)) :
    option (DeadLetterRecord * list (string * list DeadLetterRecord)) :=
  match m with
  | [] => None
  | (q, l) :: m' =>
      match take_record jobId l with
      | Some (x, l') => Some (x, (q, l') :: m')
      | None => match remove_dead_in jobId m' with
                | Some (x, m'') => Some (x, (q, l) :: m'')
                | None => None
                end
      end
  end.

Definition removeDeadLetter (jobId : string) (d : MemoryDriver) :
    option DeadLetterRecord * MemoryDriver :=
  match remove_dead_in jobId (dead d) with
  | Some (x, m) => (Some x, set_dead d m)
  | None => (None, d)
  end.

Definition flushDeadLetters (queue : option string) (d : MemoryDriver) : Z * MemoryDriver :=
  match queue with
  | Some q =>
      match jm_get q (dead d) with
      | Some l => (Z.of_nat (length l), set_dead d (jm_set q [] (dead d)))
      | None => (0%Z, d)
      end
  | None =>
      (sumZ ((λ l, Z.of_nat (length l)) <$> jm_values (dead d)),
       set_dead d ((λ kv, (kv.1, [])) <$> dead d))
  end.

Definition countReserved (queue : string) (d : MemoryDriver) : Z :=
  Z.of_nat (length (filter (λ l, l_queue l = queue) (jm_values (reserved d)))).

Record QueueStats : Type := {
  s_ready : Z; s_delayed : Z; s_deadLettered : Z; s_reserved : Z;
}.

Definition total_size {A} (m : list (string * list A)) : Z :=
  sumZ ((λ l, Z.of_nat (length l)) <$> jm_values m).

Definition stats (queue : option string) (d : MemoryDriver) : QueueStats :=
  match queue with
  | Some q => {| s_ready := Z.of_nat (length (readyHeap q d));
                 s_delayed := Z.of_nat (length (delayedHeap q d));
                 s_deadLettered := Z.of_nat (length (deadList q d));
                 s_reserved := countReserved q d |}
  | None => {| s_ready := total_size (ready d); s_delayed := total_size (delayed d);
               s_deadLettered := total_size (dead d);
               s_reserved := Z.of_nat (length (reserved d)) |}
  end.

Definition purge (queue : option string) (d : MemoryDriver) : Z * MemoryDriver :=
  match queue with
  | Some q =>
      ((Z.of_nat (length (readyHeap q d)) + Z.of_nat (length (delayedHeap q d)))%Z,
       set_delayed (set_ready d (jm_delete q (ready d))) (jm_delete q (delayed d)))
  | None =>
      ((total_size (ready d) + total_size (delayed d))%Z, set_delayed (set_ready d []) [])
  end.
End memory_driver.

Arguments MemoryDriver : clear implicits.
Arguments Reservation : clear implicits.
Arguments DelayedEntry : clear implicits.
Arguments LeaseRecord : clear implicits.
Arguments DeadLetterRecord : clear implicits.

(** ** The orderings are total preorders *)

Lemma Qsgn_minus_lt (a b : Q) : (Z.sgn (Qnum (a - b)) < 0)%Z ↔ (a < b)%Q.
Proof. unfold Qlt, Qminus, Qplus, Qopp. simpl. lia. Qed.
Lemma Qsgn_minus_gt (a b : Q) : (0 < Z.sgn (Qnum (a - b)))%Z ↔ (b < a)%Q.
Proof. unfold Qlt, Qminus, Qplus, Qopp. simpl. lia. Qed.

#[export] Instance compareReady_ok {P} : CompareOk (@compareReady P).
Proof.
  unfold compareReady.
  split; intros; repeat case_match; reflect_bools; lia.
Qed.

Lemma compareDelayed_lt {P} (a b : DelayedEntry P) :
  (compareDelayed a b < 0)%Z ↔
  (d_runAt a < d_runAt b)%Q ∨
  (d_runAt a == d_runAt b)%Q ∧ (e_seq (d_envelope a) < e_seq (d_envelope b))%Z.
Proof.
  unfold compareDelayed. destruct (Qeq_bool _ _) eqn:E.
  - apply Qeq_bool_iff in E. rewrite E. split; [intros; right; split; [reflexivity|lia]|].
    intros [H|[_ H]]; [by apply Qlt_irrefl in H|lia].
  - rewrite Qsgn_minus_lt. apply Qeq_bool_neq in E. naive_solver.
Qed.

Lemma compareDelayed_gt {P} (a b : DelayedEntry P) :
  (0 < compareDelayed a b)%Z ↔ (compareDelayed b a < 0)%Z.
Proof.
  rewrite compareDelayed_lt. unfold compareDelayed. destruct (Qeq_bool _ _) eqn:E.
  - apply Qeq_bool_iff in E. rewrite E. split; [intros; right; split; [reflexivity|lia]|].
    intros [H|[_ H]]; [by apply Qlt_irrefl in H|lia].
  - rewrite Qsgn_minus_gt. apply Qeq_bool_neq in E. split; [naive_solver|].
    intros [?|[H _]]; [done|]. by rewrite H in E.
Qed.

Lemma compareDelayed_le {P} (a b : DelayedEntry P) :
  before compareDelayed a b ↔
  (d_runAt a < d_runAt b)%Q ∨
  (d_runAt a == d_runAt b)%Q ∧ (e_seq (d_envelope a) <= e_seq (d_envelope b))%Z.
Proof.
  unfold before. rewrite Z.le_ngt, compareDelayed_gt, compareDelayed_lt.
  destruct (Q_dec (d_runAt a) (d_runAt b)) as [[H|H]|H].
  - split; [by left|]. intros _ [?|[H' _]]; [lra|]. rewrite H' in H. by apply Qlt_irrefl in H.
  - split; [intros Hn; destruct Hn; by left|]. intros [?|[H' _]]; [lra|].
    rewrite H' in H. by apply Qlt_irrefl in H.
  - rewrite H. split; [intros Hn; right; split; [reflexivity|]|].
    + apply Z.le_ngt. intros ?. apply Hn. right. split; [reflexivity|done].
    + intros [H1|[_ H1]] [H2|[_ H2]]; try (by apply Qlt_irrefl in H1); try (by apply Qlt_irrefl in H2); lia.
Qed.

#[export] Instance compareDelayed_ok {P} : CompareOk (@compareDelayed P).
Proof.
  split; [intros a b; symmetry; apply compareDelayed_gt|].
  intros a b c Hab Hbc. apply compareDelayed_le in Hab, Hbc. apply compareDelayed_le.
  destruct Hab as [Hab|[Hab ?]], Hbc as [Hbc|[Hbc ?]].
  - left. lra.
  - left. by rewrite <-Hbc.
  - left. by rewrite Hab.
  - right. split; [by rewrite Hab|lia].
Qed.

Lemma due_down_closed {P} now (a b : DelayedEntry P) :
  before compareDelayed a b → due now b = true → due now a = true.
Proof.
  unfold due. rewrite compareDelayed_le, !Qle_bool_iff.
  intros [?|[E _]] ?; [lra|]. by rewrite E.
Qed.
#[export] Hint Resolve due_down_closed : street.

(** ** The invariant of the driver *)

Section driver_invariant.
Context {P : Type}.
Implicit Types (d : MemoryDriver P) (r : Reservation P) (e : JobEnvelope P).

Record driver_ok (d : MemoryDriver P) : Prop := {
  ok_ready_keys : jm_wf (ready d);
  ok_delayed_keys : jm_wf (delayed d);
  ok_reserved_keys : jm_wf (reserved d);
  ok_dead_keys : jm_wf (dead d);
  ok_ready : ∀ q, heap_ok compareReady (readyHeap q d);
  ok_delayed : ∀ q, heap_ok compareDelayed (delayedHeap q d);
}.

Lemma heap_ok_nil {T} (compare : T → T → Z) : heap_ok compare [].
Proof. by intros j a b. Qed.

Lemma readyHeap_set d q q' h :
  readyHeap q' (set_ready d (jm_set q h (ready d))) =
    if decide (q' = q) then h else readyHeap q' d.
Proof.
  unfold readyHeap. simpl. case_decide; subst; [by rewrite jm_get_set_eq|].
  by rewrite jm_get_set_ne.
Qed.

Lemma delayedHeap_set d q q' h :
  delayedHeap q' (set_delayed d (jm_set q h (delayed d))) =
    if decide (q' = q) then h else delayedHeap q' d.
Proof.
  unfold delayedHeap. simpl. case_decide; subst; [by rewrite jm_get_set_eq|].
  by rewrite jm_get_set_ne.
Qed.

Lemma set_ready_ok d q h :
  driver_ok d → heap_ok compareReady h →
  driver_ok (set_ready d (jm_set q h (ready d))).
Proof.
  intros [] Hh. split; simpl; auto with street.
  intros q'. rewrite readyHeap_set. by case_decide.
Qed.

Lemma set_delayed_ok d q h :
  driver_ok d → heap_ok compareDelayed h →
  driver_ok (set_delayed d (jm_set q h (delayed d))).
Proof.
  intros [] Hh. split; simpl; auto with street.
  intros q'. rewrite delayedHeap_set. by case_decide.
Qed.

Lemma push_ready_ok q e d : driver_ok d → driver_ok (push_ready q e d).
Proof. intros Hd. apply set_ready_ok; [done|]. apply push_heap; [apply _|apply Hd]. Qed.

Lemma push_delayed_ok q x d : driver_ok d → driver_ok (push_delayed q x d).
Proof. intros Hd. apply set_delayed_ok; [done|]. apply push_heap; [apply _|apply Hd]. Qed.

Lemma delete_reserved_ok token d :
  driver_ok d → driver_ok (set_reserved d (jm_delete token (reserved d))).
Proof. intros []. split; simpl; auto with street. Qed.

Lemma set_reserved_ok token l d :
  driver_ok d → driver_ok (set_reserved d (jm_set token l (reserved d))).
Proof. intros []. split; simpl; auto with street. Qed.

Lemma set_attempts_ok x d : driver_ok d → driver_ok (set_attempts d x).
Proof. intros []. by split. Qed.

Lemma push_dead_ok q x d : driver_ok d → driver_ok (push_dead q x d).
Proof. intros []. split; simpl; auto with street. Qed.

Lemma reclaim_one_ok now d kv : driver_ok d → driver_ok (reclaim_one now d kv).
Proof.
  intros Hd. destruct kv as [token l]. simpl. case_match; [|done].
  by apply push_ready_ok, delete_reserved_ok.
Qed.

Lemma foldl_ok {A} (f : MemoryDriver P → A → MemoryDriver P) l d :
  (∀ d x, driver_ok d → driver_ok (f d x)) → driver_ok d → driver_ok (foldl f d l).
Proof. intros Hf. revert d. induction l; simpl; auto. Qed.

Lemma reclaim_ok now d : driver_ok d → driver_ok (reclaimExpiredLeases now d).
Proof. apply foldl_ok. intros. by apply reclaim_one_ok. Qed.

Lemma first_ready_Some queues d q :
  first_ready queues d = Some q →
  readyHeap q d ≠ [] ∧ ∃ before after, queues = before ++ q :: after ∧
    Forall (λ q', readyHeap q' d = []) before.
Proof.
  induction queues as [|q' qs IH]; simpl; [done|]. destruct (readyHeap q' d) eqn:Hq.
  - intros (Hne & b & a & -> & Hall)%IH. split; [done|]. exists (q' :: b), a.
    split; [done|]. by constructor.
  - intros [= ->]. rewrite Hq. split; [done|]. by exists [], qs.
Qed.

Lemma first_ready_None queues d :
  first_ready queues d = None ↔ Forall (λ q, readyHeap q d = []) queues.
Proof.
  induction queues as [|q qs IH]; simpl; [by split; [constructor|]|].
  rewrite Forall_cons. destruct (readyHeap q d) eqn:Hq; naive_solver.
Qed.

(** What [reserve] does, once the expired leases are back. *)
Lemma reserve_cases queues vis now token d :
  driver_ok d →
  let d1 := reclaimExpiredLeases now d in
  (first_ready queues d1 = None ∧ reserve queues vis now token d = (None, d1)) ∨
  ∃ q e rest, first_ready queues d1 = Some q ∧
    readyHeap q d1 ≡ₚ e :: rest ∧ heap_ok compareReady rest ∧
    Forall (before compareReady e) rest ∧
    reserve queues vis now token d =
      (Some (Build_Reservation e token q (now + vis)%Q),
       set_reserved
         (set_attempts (set_ready d1 (jm_set q rest (ready d1)))
            (<[e_ref e := (attempts d1 e + 1)%Z]> (attempts_of d1)))
         (jm_set token (Build_LeaseRecord e q (now + vis)%Q) (reserved d1))).
Proof.
  intros Hd d1. unfold reserve. fold d1. assert (driver_ok d1) as Hd1 by by apply reclaim_ok.
  destruct (first_ready queues d1) as [q|] eqn:Hf; [right|by left].
  destruct (first_ready_Some _ _ _ Hf) as [Hne _].
  destruct (readyHeap q d1) as [|e h] eqn:Hq; [done|].
  destruct (pop_Some (compare := compareReady) (e :: h) e) as (rest & Hpop & Hperm & Hrest & Hmin).
  { rewrite <-Hq. apply Hd1. }
  { done. }
  exists q, e, rest. by rewrite Hpop, Hq.
Qed.

Lemma reserve_ok queues vis now token d :
  driver_ok d → driver_ok (reserve queues vis now token d).2.
Proof.
  intros Hd. assert (driver_ok (reclaimExpiredLeases now d)) by by apply reclaim_ok.
  destruct (reserve_cases queues vis now token d Hd) as [[_ ->]|(q & e & rest & _ & _ & Hr & _ & ->)];
    [done|]. simpl. apply (set_reserved_ok _ _ (set_attempts (set_ready _ _) _)).
  by apply set_attempts_ok, set_ready_ok.
Qed.

Lemma ack_ok r d : driver_ok d → driver_ok (ack r d).
Proof. apply delete_reserved_ok. Qed.

Lemma nack_ok r runAt d : driver_ok d → driver_ok (nack r runAt d).
Proof.
  intros Hd. unfold nack. destruct (jm_has _ _), runAt; simpl;
    auto using delete_reserved_ok, push_ready_ok, push_delayed_ok.
Qed.

Lemma moveToDeadLetter_ok r err now d : driver_ok d → driver_ok (moveToDeadLetter r err now d).
Proof. intros. by apply push_dead_ok, delete_reserved_ok. Qed.
End driver_invariant.

#[export] Hint Resolve push_ready_ok push_delayed_ok push_dead_ok reserve_ok ack_ok
  nack_ok moveToDeadLetter_ok reclaim_ok : street.

(** ** The leases that expire, the delayed jobs that are due *)

Section driver_walks.
Context {P : Type}.
Implicit Types (d : MemoryDriver P) (e : JobEnvelope P) (q : string).

Definition expired (now : Q) (kv : string * LeaseRecord P) : Prop :=
  Qle_bool (l_leaseExpiresAt kv.2) now = true.
#[export] Instance expired_dec now kv : Decision (expired now kv).
Proof. unfold expired. apply _. Defined.

(** The envelopes of queue [q] among expired leases, in the order of the map. *)
Definition expired_jobs (now : Q) (q : string) (l : list (string * LeaseRecord P)) :
    list (JobEnvelope P) :=
  l_envelope <$> (filter (λ l, l_queue l = q) (filter (expired now) l).*2).

Lemma readyHeap_push q q' e d :
  readyHeap q' (push_ready q e d) =
    if decide (q' = q) then push compareReady (readyHeap q d) e else readyHeap q' d.
Proof. unfold push_ready. apply readyHeap_set. Qed.

Lemma reclaim_walk now l : ∀ d pre,
  reserved d = pre ++ l → jm_wf (reserved d) →
  let d' := foldl (reclaim_one now) d l in
  reserved d' = pre ++ filter (λ kv, ¬ expired now kv) l ∧
  delayed d' = delayed d ∧ dead d' = dead d ∧ attempts_of d' = attempts_of d ∧
  ∀ q, readyHeap q d' ≡ₚ readyHeap q d ++ expired_jobs now q l.
Proof.
  unfold expired_jobs. induction l as [|[token lease] l IH]; intros d pre Hres Hwf; simpl.
  { repeat split; [done|]. intros q. by rewrite app_nil_r. }
  rewrite Hres in Hwf. destruct (jm_wf_middle _ _ _ _ Hwf) as [Hpre _].
  rewrite !filter_cons. destruct (decide (expired now (token, lease))) as [He|He];
    rewrite ?(decide_False (P := ¬ _)), ?(decide_True (P := ¬ _)) by tauto; unfold expired in He; simpl in He.
  - rewrite He.
    set (d1 := push_ready _ _ _).
    assert (reserved d1 = pre ++ l) as Hres1.
    { simpl. by rewrite Hres, jm_delete_middle. }
    destruct (IH d1 pre Hres1) as (H1 & H2 & H3 & H4 & H5).
    { rewrite Hres1. rewrite <-(jm_delete_middle pre token lease l) by done. by apply jm_delete_wf. }
    repeat split; [done..|]. intros q. rewrite H5. unfold d1. rewrite readyHeap_push, fmap_cons, filter_cons. simpl.
    destruct (decide (q = l_queue lease)) as [->|Hne].
    + rewrite (decide_True (P := l_queue lease = l_queue lease)) by done.
      rewrite push_Permutation. csimpl. by rewrite <-Permutation_middle.
    + by rewrite (decide_False (P := l_queue lease = q)) by congruence.
  - destruct (Qle_bool _ _); [done|].
    destruct (IH d (pre ++ [(token, lease)])) as (H1 & H2 & H3 & H4 & H5).
    { by rewrite Hres, <-(assoc_L (++)). }
    { by rewrite Hres. }
    rewrite H1, <-(assoc_L (++)). done.
Qed.

Lemma reclaim_spec now d :
  driver_ok d →
  let d' := reclaimExpiredLeases now d in
  reserved d' = filter (λ kv, ¬ expired now kv) (reserved d) ∧
  delayed d' = delayed d ∧ dead d' = dead d ∧ attempts_of d' = attempts_of d ∧
  ∀ q, readyHeap q d' ≡ₚ readyHeap q d ++ expired_jobs now q (reserved d).
Proof. intros Hd. apply (reclaim_walk now (reserved d) d []); [done|apply Hd]. Qed.

Lemma push_all_ready q l : ∀ d,
  let d' := foldl (λ d (x : DelayedEntry P), push_ready q (d_envelope x) d) d l in
  delayed d' = delayed d ∧ reserved d' = reserved d ∧ dead d' = dead d ∧
  attempts_of d' = attempts_of d ∧
  ∀ q', readyHeap q' d' ≡ₚ readyHeap q' d ++ (if decide (q' = q) then d_envelope <$> l else []).
Proof.
  induction l as [|x l IH]; intros d; simpl.
  { repeat split. intros q'. case_decide; by rewrite app_nil_r. }
  destruct (IH (push_ready q (d_envelope x) d)) as (H1 & H2 & H3 & H4 & H5).
  repeat split; [done..|]. intros q'. rewrite H5, readyHeap_push. case_decide; [|done]. subst.
  rewrite push_Permutation. csimpl. by rewrite <-Permutation_middle.
Qed.

Definition heap_rest (now : Q) (h : list (DelayedEntry P)) : list (DelayedEntry P) :=
  (drain_while compareDelayed (due now) h).2.
Definition heap_due (now : Q) (h : list (DelayedEntry P)) : list (DelayedEntry P) :=
  (drain_while compareDelayed (due now) h).1.

(** The envelopes of queue [q] that are due among delayed entries. *)
Definition due_jobs (now : Q) (q : string) (l : list (string * list (DelayedEntry P))) :
    list (JobEnvelope P) :=
  l ≫= (λ kv, if decide (kv.1 = q) then d_envelope <$> heap_due now kv.2 else []).

Lemma promote_walk now l : ∀ n d pre,
  delayed d = pre ++ l → jm_wf (delayed d) →
  let '(n', d') := foldl (promote_queue now) (n, d) l in
  delayed d' = pre ++ ((λ kv, (kv.1, heap_rest now kv.2)) <$> l) ∧
  reserved d' = reserved d ∧ dead d' = dead d ∧ attempts_of d' = attempts_of d ∧
  n' = (n + sumZ ((λ kv, Z.of_nat (length (heap_due now kv.2))) <$> l))%Z ∧
  ∀ q, readyHeap q d' ≡ₚ readyHeap q d ++ due_jobs now q l.
Proof.
  unfold due_jobs, heap_rest, heap_due.
  induction l as [|[q h] l IH]; intros n d pre Hdel Hwf; simpl.
  { repeat split; [done|unfold sumZ; simpl; lia|]. intros q. by rewrite app_nil_r. }
  rewrite Hdel in Hwf. destruct (jm_wf_middle _ _ _ _ Hwf) as [Hpre _].
  destruct (drain_while compareDelayed (due now) h) as [drained rest] eqn:Hdrain.
  set (d1 := set_delayed _ _).
  assert (delayed d1 = (pre ++ [(q, rest)]) ++ l) as Hd1.
  { simpl. by rewrite Hdel, jm_set_middle, <-(assoc_L (++)). }
  destruct (push_all_ready q drained d1) as (H1 & H2 & H3 & H4 & H5).
  set (d2 := foldl _ d1 drained) in *.
  specialize (IH (n + Z.of_nat (length drained))%Z d2 (pre ++ [(q, rest)])).
  destruct (foldl (promote_queue now) _ l) as [n' d'].
  destruct IH as (I1 & I2 & I3 & I4 & I5 & I6).
  { by rewrite H1. }
  { rewrite H1. simpl. rewrite Hdel. by apply jm_set_wf. }
  rewrite I1, I2, I3, I4, <-(assoc_L (++)), H2, H3, H4. csimpl. repeat split.
  { rewrite sumZ_cons. simpl. lia. }
  intros q'. rewrite I6, H5. change (readyHeap q' d1) with (readyHeap q' d).
  rewrite <-(assoc_L (++)). apply Permutation_app_head.
  destruct (decide (q' = q)); [by rewrite decide_True|by rewrite decide_False by congruence].
Qed.

Lemma due_jobs_get now q l :
  jm_wf l → due_jobs now q l = d_envelope <$> heap_due now (default [] (jm_get q l)).
Proof.
  unfold jm_wf, jm_keys, due_jobs. induction l as [|[k h] l IH]; csimpl; [done|].
  intros [Hni Hnd]%NoDup_cons. rewrite IH by done.
  destruct (decide (k = q)) as [->|Hne]; [|by rewrite decide_False by congruence].
  rewrite decide_True by done. apply jm_get_None in Hni. rewrite Hni. simpl.
  unfold heap_due at 2. by rewrite app_nil_r.
Qed.
End driver_walks.

(** ** Where the jobs are

    [jobs d] lists the id of every job the driver holds, once per place: waiting,
    delayed, leased, dead-lettered. *)

Section driver_jobs.
Context {P : Type}.
Implicit Types (d : MemoryDriver P) (r : Reservation P) (e : JobEnvelope P).

Definition all_ready d : list (JobEnvelope P) := jm_collect (λ _ h, h) (ready d).
Definition all_delayed d : list (JobEnvelope P) :=
  d_envelope <$> jm_collect (λ _ h, h) (delayed d).
Definition all_leased d : list (JobEnvelope P) := l_envelope <$> jm_values (reserved d).
Definition all_dead d : list (DeadLetterRecord P) := jm_collect (λ _ l, l) (dead d).

(** A view of everything the driver holds: [f] of every envelope, [g] of every record. *)
Context {A : Type} {f : JobEnvelope P → A} {g : DeadLetterRecord P → A}.

Definition items d : list A :=
  (f <$> all_ready d) ++ (f <$> all_delayed d) ++ (f <$> all_leased d) ++
  (g <$> all_dead d).

Lemma all_ready_push q e d : all_ready (push_ready q e d) ≡ₚ e :: all_ready d.
Proof.
  apply (jm_collect_grow (λ _ h, h) [] (λ _, eq_refl) q _ _ [e]).
  by rewrite push_Permutation.
Qed.

Lemma all_delayed_push q x d : all_delayed (push_delayed q x d) ≡ₚ d_envelope x :: all_delayed d.
Proof.
  unfold all_delayed. rewrite <-fmap_cons. apply fmap_Permutation.
  apply (jm_collect_grow (λ _ h, h) [] (λ _, eq_refl) q _ _ [x]).
  by rewrite push_Permutation.
Qed.

Lemma all_dead_push q x d : all_dead (push_dead q x d) ≡ₚ x :: all_dead d.
Proof.
  apply (jm_collect_grow (λ _ h, h) [] (λ _, eq_refl) q _ _ [x]).
  unfold deadList. by rewrite Permutation_app_comm.
Qed.

Lemma all_ready_pop q gone rest d :
  readyHeap q d ≡ₚ gone ++ rest →
  all_ready d ≡ₚ gone ++ all_ready (set_ready d (jm_set q rest (ready d))).
Proof. apply (jm_collect_shrink (λ _ h, h) [] (λ _, eq_refl)). Qed.

Lemma all_delayed_pop q gone rest d :
  delayedHeap q d ≡ₚ gone ++ rest →
  all_delayed d ≡ₚ
    (d_envelope <$> gone) ++ all_delayed (set_delayed d (jm_set q rest (delayed d))).
Proof.
  intros H. unfold all_delayed. rewrite <-fmap_app. apply fmap_Permutation.
  by apply (jm_collect_shrink (λ _ h, h) [] (λ _, eq_refl)).
Qed.

Lemma all_leased_delete token l d :
  jm_get token (reserved d) = Some l →
  all_leased d ≡ₚ
    l_envelope l :: all_leased (set_reserved d (jm_delete token (reserved d))).
Proof.
  intros H. apply jm_delete_Permutation, (fmap_Permutation snd) in H.
  by apply (fmap_Permutation l_envelope) in H.
Qed.

Lemma jobs_push_ready q e d : items (push_ready q e d) ≡ₚ f e :: items d.
Proof. unfold items. by rewrite all_ready_push. Qed.

Lemma jobs_push_delayed q x d : items (push_delayed q x d) ≡ₚ f (d_envelope x) :: items d.
Proof. unfold items. rewrite all_delayed_push. apply Permutation_mid2. Qed.

Lemma jobs_push_dead q x d : items (push_dead q x d) ≡ₚ g x :: items d.
Proof. unfold items. rewrite all_dead_push. apply Permutation_mid4. Qed.

Lemma jobs_delete_lease token l d :
  jm_get token (reserved d) = Some l →
  items d ≡ₚ f (l_envelope l) :: items (set_reserved d (jm_delete token (reserved d))).
Proof.
  intros H. apply all_leased_delete in H. unfold items.
  set (d' := set_reserved _ _) in *.
  change (all_ready d') with (all_ready d). change (all_delayed d') with (all_delayed d).
  change (all_dead d') with (all_dead d). rewrite H. apply Permutation_mid3.
Qed.

Lemma jobs_add_lease token l d :
  jm_get token (reserved d) = None →
  items (set_reserved d (jm_set token l (reserved d))) ≡ₚ f (l_envelope l) :: items d.
Proof.
  intros H. unfold items, all_leased, jm_values. simpl. rewrite jm_set_None by done.
  rewrite !fmap_app. csimpl. rewrite <-!(assoc_L (++)). apply Permutation_mid4.
Qed.

Lemma delete_absent_lease token d :
  jm_has token (reserved d) = false → set_reserved d (jm_delete token (reserved d)) = d.
Proof.
  unfold jm_has. destruct (jm_get _ _) eqn:H; [done|]. intros _.
  rewrite jm_delete_None by done. by destruct d.
Qed.

(** *** Reclaiming leases and promoting delayed items lose and duplicate nothing *)

Lemma reclaim_one_jobs now d token l :
  jm_get token (reserved d) = Some l → items (reclaim_one now d (token, l)) ≡ₚ items d.
Proof.
  intros H. simpl. case_match; [|done].
  by rewrite jobs_push_ready, <-(jobs_delete_lease token l d H).
Qed.

Lemma reclaim_one_reserved now d token l token' :
  token' ≠ token →
  jm_get token' (reserved (reclaim_one now d (token, l))) = jm_get token' (reserved d).
Proof. intros. simpl. case_match; [|done]. simpl. by apply jm_get_delete_ne. Qed.

Lemma reclaim_jobs now d : driver_ok d → items (reclaimExpiredLeases now d) ≡ₚ items d.
Proof.
  intros Hd. unfold reclaimExpiredLeases.
  assert (∀ l d, jm_wf l → (∀ k v, (k, v) ∈ l → jm_get k (reserved d) = Some v) →
    items (foldl (reclaim_one now) d l) ≡ₚ items d) as Hwalk.
  { induction l as [|[token l] ls IH]; intros d0 Hwf Hget; [done|]. cbn [foldl].
    apply NoDup_cons in Hwf as [Hni Hwf].
    rewrite IH; [apply reclaim_one_jobs, Hget; left|done|].
    intros k v Hkv. rewrite reclaim_one_reserved; [apply Hget; by right|].
    intros ->. apply Hni, list_elem_of_fmap. by exists (token, v). }
  apply Hwalk; [apply Hd|]. intros k v. apply jm_elem_get, Hd.
Qed.

Lemma push_all_jobs q l : ∀ d,
  items (foldl (λ d (x : DelayedEntry P), push_ready q (d_envelope x) d) d l) ≡ₚ
    (f <$> (d_envelope <$> l)) ++ items d.
Proof.
  induction l as [|x l IH]; intros d; csimpl; [done|].
  by rewrite IH, jobs_push_ready, <-Permutation_middle.
Qed.

Lemma promote_queue_jobs now n d q h :
  driver_ok d → jm_get q (delayed d) = Some h →
  let '(_, d') := promote_queue now (n, d) (q, h) in
  items d' ≡ₚ items d ∧ driver_ok d' ∧
  ∀ q', q' ≠ q → jm_get q' (delayed d') = jm_get q' (delayed d).
Proof.
  intros Hd Hq. simpl. assert (delayedHeap q d = h) as Hh by by unfold delayedHeap; rewrite Hq.
  pose proof (drain_while_spec compareDelayed (due now) h (due_down_closed now)) as Hspec.
  rewrite <-Hh in Hspec at 1. specialize (Hspec (ok_delayed d Hd q)).
  destruct (drain_while compareDelayed (due now) h) as [drained rest].
  destruct Hspec as (Hp & Hrest & _). rewrite <-Hh in Hp.
  set (d1 := set_delayed _ _). assert (driver_ok d1) by by apply set_delayed_ok.
  assert (items d ≡ₚ (f <$> (d_envelope <$> drained)) ++ items d1) as Hj.
  { pose proof (all_delayed_pop q drained rest d Hp) as Hj. fold d1 in Hj. unfold items.
    change (all_ready d1) with (all_ready d). change (all_leased d1) with (all_leased d).
    change (all_dead d1) with (all_dead d). rewrite Hj, fmap_app.
    rewrite <-!(assoc_L (++)). by rewrite Permutation_app_swap_app. }
  split; [by rewrite push_all_jobs|]. split.
  { apply foldl_ok; [|done]. intros. by apply push_ready_ok. }
  intros q' Hne. destruct (push_all_ready q drained d1) as (-> & _).
  by apply jm_get_set_ne.
Qed.

Lemma promote_jobs now d :
  driver_ok d → items (promoteDue now d).2 ≡ₚ items d ∧ driver_ok (promoteDue now d).2.
Proof.
  intros Hd. unfold promoteDue.
  assert (∀ l n d, driver_ok d → jm_wf l → (∀ k v, (k, v) ∈ l → jm_get k (delayed d) = Some v) →
    let d' := (foldl (promote_queue now) (n, d) l).2 in items d' ≡ₚ items d ∧ driver_ok d') as Hwalk.
  { induction l as [|[q h] l IH]; intros n d0 Hok Hwf Hget; [done|]. cbn [foldl].
    apply NoDup_cons in Hwf as [Hni Hwf].
    pose proof (promote_queue_jobs now n d0 q h Hok (Hget q h ltac:(left))) as Hq.
    destruct (promote_queue now (n, d0) (q, h)) as [n' d']. destruct Hq as (Hj & Hok' & Hne).
    destruct (IH n' d' Hok' Hwf) as [Hj' Hok'']; [|by rewrite Hj'].
    intros k v Hkv. rewrite Hne; [apply Hget; by right|].
    intros ->. apply Hni, list_elem_of_fmap. by exists (q, v). }
  apply Hwalk; [done|apply Hd|]. intros k v. apply jm_elem_get, Hd.
Qed.
End driver_jobs.

(** The ids of the jobs the driver holds, with multiplicity. *)
Arguments items {P A} f g d.
Abbreviation jobs := (items e_id dl_id).

(** *** Operations of the dead-letter queue and [purge] *)

Section driver_admin.
Context {P : Type}.
Implicit Types (d : MemoryDriver P) (r : Reservation P).

Lemma take_record_Some jobId (l l' : list (DeadLetterRecord P)) x :
  take_record jobId l = Some (x, l') → l ≡ₚ x :: l' ∧ dl_id x = jobId.
Proof.
  revert l'. induction l as [|y l IH]; intros l'; simpl; [done|].
  destruct (String.eqb _ _) eqn:E.
  { intros [= <- <-]. by apply String.eqb_eq in E. }
  destruct (take_record jobId l) as [[z l'']|]; [|done]. intros [= <- <-].
  destruct (IH l'' eq_refl) as [-> ?]. split; [apply Permutation_swap|done].
Qed.

Lemma take_record_None jobId (l : list (DeadLetterRecord P)) :
  take_record jobId l = None ↔ jobId ∉ (dl_id <$> l).
Proof.
  induction l as [|y l IH]; csimpl; [split; [intros _; apply not_elem_of_nil|done]|].
  rewrite not_elem_of_cons. destruct (String.eqb _ _) eqn:E.
  - apply String.eqb_eq in E. naive_solver.
  - apply String.eqb_neq in E. destruct (take_record jobId l) as [[]|]; naive_solver.
Qed.

Lemma remove_dead_in_Some jobId (m m' : list (string * list (DeadLetterRecord P))) x :
  remove_dead_in jobId m = Some (x, m') →
  jm_collect (λ _ l, l) m ≡ₚ x :: jm_collect (λ _ l, l) m' ∧ dl_id x = jobId ∧
  jm_keys m' = jm_keys m.
Proof.
  unfold jm_keys. revert m'. induction m as [|[q l] m IH]; intros m'; simpl; [done|].
  destruct (take_record jobId l) as [[y l']|] eqn:Ht.
  - intros [= <- <-]. apply take_record_Some in Ht as [Hp ?].
    split; [|done]. unfold jm_collect. csimpl. by rewrite Hp.
  - destruct (remove_dead_in jobId m) as [[y m'']|]; [|done]. intros [= <- <-].
    destruct (IH m'' eq_refl) as (Hp & ? & Hk). csimpl. rewrite Hk. split; [|done].
    unfold jm_collect in *. csimpl. rewrite Hp. symmetry. apply Permutation_middle.
Qed.

Lemma remove_dead_in_None jobId (m : list (string * list (DeadLetterRecord P))) :
  remove_dead_in jobId m = None ↔ jobId ∉ (dl_id <$> jm_collect (λ _ l, l) m).
Proof.
  unfold jm_collect. induction m as [|[q l] m IH]; csimpl.
  { split; [intros _; apply not_elem_of_nil|done]. }
  rewrite fmap_app, not_elem_of_app, <-take_record_None, <-IH.
  destruct (take_record jobId l) as [[]|], (remove_dead_in jobId m) as [[]|]; naive_solver.
Qed.

Lemma removeDeadLetter_ok jobId d : driver_ok d → driver_ok (removeDeadLetter jobId d).2.
Proof.
  intros Hd. unfold removeDeadLetter. destruct (remove_dead_in _ _) as [[x m]|] eqn:H; [|done].
  apply remove_dead_in_Some in H as (_ & _ & Hk). destruct Hd. split; try done.
  unfold jm_wf. simpl. by rewrite Hk.
Qed.

Lemma jobs_set_dead d m : jobs (set_dead d m) =
  (e_id <$> all_ready d) ++ (e_id <$> all_delayed d) ++ (e_id <$> all_leased d) ++
  (dl_id <$> jm_collect (λ _ l, l) m).
Proof. done. Qed.

Lemma removeDeadLetter_jobs jobId d :
  jobs d ≡ₚ (match (removeDeadLetter jobId d).1 with Some x => [dl_id x] | None => [] end) ++
    jobs (removeDeadLetter jobId d).2.
Proof.
  unfold removeDeadLetter. destruct (remove_dead_in _ _) as [[x m]|] eqn:H; [|done].
  apply remove_dead_in_Some in H as (Hp & _ & _). cbn [fst snd].
  rewrite jobs_set_dead. unfold items, all_dead. rewrite Hp.
  exact (Permutation_mid4 (dl_id x) (e_id <$> all_ready d) (e_id <$> all_delayed d)
           (e_id <$> all_leased d) _).
Qed.

Definition flushed (queue : option string) d : list (DeadLetterRecord P) :=
  match queue with Some q => deadList q d | None => all_dead d end.

Lemma clear_all_collect (m : list (string * list (DeadLetterRecord P))) :
  jm_collect (λ _ l, l) ((λ kv, (kv.1, [])) <$> m) = ([] : list (DeadLetterRecord P)).
Proof. unfold jm_collect. by induction m. Qed.

Lemma flush_ok queue d : driver_ok d → driver_ok (flushDeadLetters queue d).2.
Proof.
  intros []. unfold flushDeadLetters. destruct queue as [q|]; [destruct (jm_get q (dead d))|];
    split; simpl; auto with street.
  unfold jm_wf. by rewrite (jm_keys_fmap (λ _, [])).
Qed.

Lemma total_size_collect {A} (m : list (string * list A)) :
  total_size m = Z.of_nat (length (jm_collect (λ _ l, l) m)).
Proof.
  unfold total_size, jm_collect, jm_values. induction m as [|[k l] m IH]; csimpl; [done|].
  rewrite sumZ_cons, IH, length_app. lia.
Qed.

Lemma flush_spec queue d :
  let '(n, d') := flushDeadLetters queue d in
  n = Z.of_nat (length (flushed queue d)) ∧ jobs d ≡ₚ (dl_id <$> flushed queue d) ++ jobs d'.
Proof.
  unfold flushDeadLetters, flushed, deadList. destruct queue as [q|].
  - destruct (jm_get q (dead d)) as [l|] eqn:Hq; [|done]. split; [done|]. simpl.
    rewrite jobs_set_dead. unfold items, all_dead.
    rewrite (jm_collect_shrink (λ _ l, l) [] (λ _, eq_refl) q [] (dead d) l).
    + rewrite fmap_app. apply Permutation_app_mid4.
    + rewrite Hq. simpl. by rewrite app_nil_r.
  - split; [apply total_size_collect|]. rewrite jobs_set_dead, clear_all_collect. unfold items.
    simpl. solve_Permutation.
Qed.

(** The jobs a [purge] drops: those waiting and delayed. *)
Definition purged (queue : option string) d : list (JobEnvelope P) :=
  match queue with
  | Some q => readyHeap q d ++ (d_envelope <$> delayedHeap q d)
  | None => all_ready d ++ all_delayed d
  end.

Lemma purge_ok queue d : driver_ok d → driver_ok (purge queue d).2.
Proof.
  intros Hd. pose proof Hd as []. destruct queue as [q|]; split; simpl; auto with street;
    try (by apply NoDup_nil_2); intros q'; try apply heap_ok_nil.
  - unfold readyHeap. simpl. destruct (decide (q' = q)) as [->|];
      [by rewrite jm_get_delete_eq by done; apply heap_ok_nil|by rewrite jm_get_delete_ne; [apply Hd|]].
  - unfold delayedHeap. simpl. destruct (decide (q' = q)) as [->|];
      [by rewrite jm_get_delete_eq by done; apply heap_ok_nil|by rewrite jm_get_delete_ne; [apply Hd|]].
Qed.

Lemma purge_spec queue d :
  let '(n, d') := purge queue d in
  n = Z.of_nat (length (purged queue d)) ∧ jobs d ≡ₚ (e_id <$> purged queue d) ++ jobs d'.
Proof.
  unfold purge, purged. destruct queue as [q|].
  - split; [rewrite length_app, length_fmap; lia|]. unfold items, all_ready, all_delayed. simpl.
    rewrite (jm_collect_default (λ _ h, h) [] (λ _, eq_refl) q (ready d)).
    rewrite (jm_collect_default (λ _ h, h) [] (λ _, eq_refl) q (delayed d)).
    unfold readyHeap, delayedHeap. rewrite !fmap_app, <-!(assoc_L (++)).
    apply Permutation_app_head. by rewrite Permutation_app_swap_app.
  - rewrite !total_size_collect. unfold items, all_ready, all_delayed.
    split; [rewrite length_app, length_fmap; lia|].
    by rewrite fmap_app, <-!(assoc_L (++)).
Qed.
End driver_admin.
#[export] Hint Resolve removeDeadLetter_ok flush_ok purge_ok : street.

(** ** Runs of the driver

    The clients of a driver: producers enqueue, workers reserve and then finish the
    job they hold ([ack], [nack], [moveToDeadLetter]), the scheduler promotes,
    operators replay, flush and purge.  A world carries the reservations handed out
    so far, the ids enqueued and the ids that left the driver, and the ids that a worker
    without a lease has put among the dead letters a second time. *)

Section driver_runs.
Context {P : Type}.
Implicit Types (d : MemoryDriver P) (r : Reservation P).

Record World : Type := {
  w_driver : MemoryDriver P;
  w_issued : list (Reservation P);
  w_in : list string;
  w_out : list string;
  w_twice : list string;
}.

Definition initial_world : World := Build_World empty_driver [] [] [] [].

(** Whether the lease of a reservation is still the worker's. *)
Definition held r d : bool := jm_has (r_token r) (reserved d).

(** A step: tokens are fresh ([randomUUID]), and a completion names a reservation that
    was issued, whether or not its lease is still held. *)
Inductive driver_step : World → World → Prop :=
| step_enqueue d rs i o t q e :
    driver_step (Build_World d rs i o t) (Build_World (enqueue q e d) rs (e_id e :: i) o t)
| step_enqueueDelayed d rs i o t q e runAt :
    driver_step (Build_World d rs i o t)
      (Build_World (enqueueDelayed q e runAt d) rs (e_id e :: i) o t)
| step_reserve d d' rs i o t queues vis now token res :
    token ∉ (r_token <$> rs) →
    reserve queues vis now token d = (res, d') →
    driver_step (Build_World d rs i o t) (Build_World d' (option_list res ++ rs) i o t)
| step_ack d rs i o t r :
    r ∈ rs →
    driver_step (Build_World d rs i o t)
      (Build_World (ack r d) rs i
         ((if held r d then [e_id (r_envelope r)] else []) ++ o) t)
| step_nack d rs i o t r runAt :
    r ∈ rs →
    driver_step (Build_World d rs i o t) (Build_World (nack r runAt d) rs i o t)
| step_moveToDeadLetter d rs i o t r err now :
    r ∈ rs →
    driver_step (Build_World d rs i o t)
      (Build_World (moveToDeadLetter r err now d) rs i o
         ((if held r d then [] else [e_id (r_envelope r)]) ++ t))
| step_promoteDue d rs i o t now :
    driver_step (Build_World d rs i o t) (Build_World (promoteDue now d).2 rs i o t)
| step_removeDeadLetter d d' rs i o t jobId x :
    removeDeadLetter jobId d = (x, d') →
    driver_step (Build_World d rs i o t)
      (Build_World d' rs i ((dl_id <$> option_list x) ++ o) t)
| step_flush d rs i o t queue :
    driver_step (Build_World d rs i o t)
      (Build_World (flushDeadLetters queue d).2 rs i ((dl_id <$> flushed queue d) ++ o) t)
| step_purge d rs i o t queue :
    driver_step (Build_World d rs i o t)
      (Build_World (purge queue d).2 rs i ((e_id <$> purged queue d) ++ o) t).

(** Every lease belongs to an issued reservation. *)
Definition leases_issued (rs : list (Reservation P)) d : Prop :=
  ∀ token l, jm_get token (reserved d) = Some l →
    ∃ r, r ∈ rs ∧ r_token r = token ∧ r_envelope r = l_envelope l.

Record world_ok (w : World) : Prop := {
  world_driver_ok : driver_ok (w_driver w);
  world_tokens : NoDup (r_token <$> w_issued w);
  world_leases : leases_issued (w_issued w) (w_driver w);
  world_jobs : w_in w ++ w_twice w ≡ₚ w_out w ++ jobs (w_driver w);
}.

(** Operations other than [reserve] create no lease. *)
Definition leases_sub d d' : Prop :=
  ∀ token l, jm_get token (reserved d') = Some l → jm_get token (reserved d) = Some l.

Lemma jm_get_delete_sub {V} k k' v (m : list (string * V)) :
  jm_wf m → jm_get k (jm_delete k' m) = Some v → jm_get k m = Some v.
Proof.
  intros Hwf. destruct (decide (k = k')) as [->|]; [by rewrite jm_get_delete_eq|].
  by rewrite jm_get_delete_ne.
Qed.

Lemma reclaim_leases now d : driver_ok d → leases_sub d (reclaimExpiredLeases now d).
Proof.
  intros Hd token l. destruct (reclaim_spec now d Hd) as (-> & _).
  apply jm_get_filter_sub, Hd.
Qed.

Lemma ack_leases r d : driver_ok d → leases_sub d (ack r d).
Proof. intros Hd token l. apply jm_get_delete_sub, Hd. Qed.

Lemma nack_leases r runAt d : driver_ok d → leases_sub d (nack r runAt d).
Proof.
  intros Hd token l. unfold nack. destruct (jm_has _ _), runAt; apply jm_get_delete_sub, Hd.
Qed.

Lemma promote_leases now d : driver_ok d → leases_sub d (promoteDue now d).2.
Proof.
  intros Hd token l. pose proof (promote_walk now (delayed d) 0 d [] eq_refl (ok_delayed_keys d Hd)) as H.
  unfold promoteDue. destruct (foldl _ _ _) as [n d']. cbn [snd]. by destruct H as (_ & -> & _).
Qed.

Lemma removeDeadLetter_leases jobId d : leases_sub d (removeDeadLetter jobId d).2.
Proof. intros token l. unfold removeDeadLetter. by destruct (remove_dead_in _ _) as [[]|]. Qed.

Lemma flush_leases queue d : leases_sub d (flushDeadLetters queue d).2.
Proof. intros token l. unfold flushDeadLetters. destruct queue as [q|]; [|done]. by destruct (jm_get q (dead d)). Qed.

Lemma purge_leases queue d : leases_sub d (purge queue d).2.
Proof. intros token l. by destruct queue. Qed.

Lemma leases_issued_sub d d' rs :
  leases_issued rs d → leases_sub d d' → leases_issued rs d'.
Proof. intros H Hs token l Hl. apply H. by apply Hs. Qed.

(** The lease of an issued reservation is on the reservation's envelope. *)
Lemma held_lease rs r d :
  NoDup (r_token <$> rs) → leases_issued rs d → r ∈ rs → held r d = true →
  ∃ l, jm_get (r_token r) (reserved d) = Some l ∧ l_envelope l = r_envelope r.
Proof.
  unfold held, jm_has. intros Hnd Hall Hr Hh.
  destruct (jm_get (r_token r) (reserved d)) as [l|] eqn:Hl; [|done].
  exists l. split; [done|]. destruct (Hall _ _ Hl) as (r' & Hr' & Ht & <-).
  apply list_elem_of_lookup in Hr as [i Hi], Hr' as [j Hj].
  assert (i = j) as ->; [|congruence].
  apply (NoDup_lookup _ i j (r_token r) Hnd); by rewrite list_lookup_fmap, ?Hi, ?Hj; csimpl; rewrite ?Ht.
Qed.

Lemma ack_jobs {A} {f : JobEnvelope P → A} {g} d r l :
  jm_get (r_token r) (reserved d) = Some l → l_envelope l = r_envelope r →
  items f g d ≡ₚ f (r_envelope r) :: items f g (ack r d).
Proof. intros H <-. by apply jobs_delete_lease. Qed.

Lemma nack_jobs {A} {f : JobEnvelope P → A} {g} d r l runAt :
  jm_get (r_token r) (reserved d) = Some l → l_envelope l = r_envelope r →
  items f g (nack r runAt d) ≡ₚ items f g d.
Proof.
  intros H E. unfold nack, jm_has. rewrite H. simpl.
  rewrite (jobs_delete_lease _ _ _ H), E. destruct runAt; [apply jobs_push_delayed|apply jobs_push_ready].
Qed.

Lemma moveToDeadLetter_jobs d r err now :
  jobs (moveToDeadLetter r err now d) ≡ₚ
    e_id (r_envelope r) :: jobs (set_reserved d (jm_delete (r_token r) (reserved d))).
Proof. exact (jobs_push_dead (f := e_id) (g := dl_id) _ _ _). Qed.

Lemma reserve_jobs {A} {f : JobEnvelope P → A} {g} queues vis now token d :
  driver_ok d → jm_get token (reserved d) = None →
  items f g (reserve queues vis now token d).2 ≡ₚ items f g d.
Proof.
  intros Hd Hfresh. pose proof (reclaim_jobs (f := f) (g := g) now d Hd) as Hj.
  pose proof (reclaim_leases now d Hd token) as Hl.
  destruct (reserve_cases queues vis now token d Hd)
    as [[_ ->]|(q & e & rest & _ & Hp & _ & _ & ->)]; [done|]. cbn [snd].
  set (d1 := reclaimExpiredLeases now d) in *.
  set (d2 := set_attempts _ _).
  rewrite <-Hj. transitivity (f e :: items f g d2).
  { apply (jobs_add_lease token (Build_LeaseRecord e q (now + vis)%Q) d2).
    change (reserved d2) with (reserved d1).
    destruct (jm_get token (reserved d1)) as [l|] eqn:E; [|done].
    specialize (Hl l eq_refl). congruence. }
  unfold items. change (all_ready d2) with (all_ready (set_ready d1 (jm_set q rest (ready d1)))).
  by rewrite (all_ready_pop q [e] rest d1 Hp).
Qed.

Lemma reserve_leases queues vis now token d rs :
  driver_ok d → token ∉ (r_token <$> rs) → NoDup (r_token <$> rs) → leases_issued rs d →
  let '(res, d') := reserve queues vis now token d in
  leases_issued (option_list res ++ rs) d' ∧ NoDup (r_token <$> option_list res ++ rs).
Proof.
  intros Hd Ht Hnd Hl. pose proof (reclaim_leases now d Hd) as Hsub.
  destruct (reserve_cases queues vis now token d Hd)
    as [[_ ->]|(q & e & rest & _ & _ & _ & _ & ->)]; cbn [option_list app].
  { split; [|done]. by apply (leases_issued_sub d). }
  split; [|csimpl; by constructor]. intros k l. cbn [reserved set_reserved].
  destruct (decide (k = token)) as [->|Hne].
  - rewrite jm_get_set_eq. intros [= <-]. eexists. split; [by left|done].
  - rewrite jm_get_set_ne by done. intros H%Hsub%Hl. destruct H as (r & ? & ?).
    exists r. split; [by right|done].
Qed.

Lemma reserve_token_free token d rs :
  token ∉ (r_token <$> rs) → leases_issued rs d → jm_get token (reserved d) = None.
Proof.
  intros Ht Hl. destruct (jm_get token (reserved d)) as [l|] eqn:E; [|done].
  apply Hl in E as (r & Hr & <- & _). destruct Ht. apply list_elem_of_fmap. eauto.
Qed.

Lemma driver_step_ok w w' : world_ok w → driver_step w w' → world_ok w'.
Proof.
  intros [Hd Ht Hl Hj] Hstep. destruct Hstep as
    [d rs i o t q e|d rs i o t q e runAt|d d' rs i o t queues vis now token res Hfresh Hres
    |d rs i o t r Hr|d rs i o t r runAt Hr|d rs i o t r err now Hr|d rs i o t now
    |d d' rs i o t jobId x Hx|d rs i o t queue|d rs i o t queue]; simpl in *.
  - split; simpl; [by apply push_ready_ok|done..|]. unfold enqueue.
    rewrite jobs_push_ready, Hj. apply Permutation_middle.
  - split; simpl; [by apply push_delayed_ok|done..|]. unfold enqueueDelayed.
    rewrite jobs_push_delayed, Hj. apply Permutation_middle.
  - pose proof (reserve_leases queues vis now token d rs Hd Hfresh Ht Hl) as Hrl.
    pose proof (reserve_ok queues vis now token d Hd) as Hok.
    pose proof (reserve_jobs (f := e_id) (g := dl_id) queues vis now token d Hd) as Hjobs.
    rewrite Hres in *. destruct Hrl. split; [done..|]. simpl in *.
    rewrite Hj, Hjobs; [done|]. by apply (reserve_token_free token d rs).
  - split; simpl; [by apply ack_ok|done|by apply (leases_issued_sub d), ack_leases|].
    rewrite Hj. destruct (held r d) eqn:Hh.
    + destruct (held_lease rs r d Ht Hl Hr Hh) as (l & Hg & He).
      rewrite (ack_jobs d r l Hg He). simpl. symmetry. apply Permutation_middle.
    + unfold ack. by rewrite delete_absent_lease.
  - split; simpl; [by apply nack_ok|done|by apply (leases_issued_sub d), nack_leases|].
    rewrite Hj. destruct (held r d) eqn:Hh.
    + destruct (held_lease rs r d Ht Hl Hr Hh) as (l & Hg & He).
      by rewrite (nack_jobs d r l runAt Hg He).
    + unfold nack. unfold held in Hh. by rewrite Hh, delete_absent_lease.
  - split; simpl; [by apply moveToDeadLetter_ok|done|by apply (leases_issued_sub d), ack_leases|].
    rewrite moveToDeadLetter_jobs. destruct (held r d) eqn:Hh; simpl.
    + destruct (held_lease rs r d Ht Hl Hr Hh) as (l & Hg & He).
      by rewrite Hj, (jobs_delete_lease _ _ _ Hg), He.
    + rewrite delete_absent_lease by done. rewrite <-Permutation_middle, Hj. apply Permutation_middle.
  - destruct (promote_jobs (f := e_id) (g := dl_id) now d Hd) as [Hp Hok].
    split; simpl; [done|done|by apply (leases_issued_sub d), promote_leases|]. by rewrite Hj, Hp.
  - pose proof (removeDeadLetter_ok jobId d Hd) as Hok.
    pose proof (removeDeadLetter_jobs jobId d) as Hjobs.
    pose proof (removeDeadLetter_leases jobId d) as Hsub. rewrite Hx in *.
    split; simpl in *; [done|done|by apply (leases_issued_sub d)|].
    rewrite Hj, Hjobs. destruct x; [symmetry; apply Permutation_middle|done].
  - pose proof (flush_spec queue d) as Hf. pose proof (flush_ok queue d Hd) as Hok.
    pose proof (flush_leases queue d) as Hsub. destruct (flushDeadLetters queue d) as [n d'].
    split; simpl in *; [done|done|by apply (leases_issued_sub d)|].
    destruct Hf as [_ Hf]. rewrite Hj, Hf. solve_Permutation.
  - pose proof (purge_spec queue d) as Hf. pose proof (purge_ok queue d Hd) as Hok.
    pose proof (purge_leases queue d) as Hsub. destruct (purge queue d) as [n d'].
    split; simpl in *; [done|done|by apply (leases_issued_sub d)|].
    destruct Hf as [_ Hf]. rewrite Hj, Hf. solve_Permutation.
Qed.

Lemma empty_driver_ok : driver_ok (@empty_driver P).
Proof. split; try (by apply NoDup_nil_2); intros q; apply heap_ok_nil. Qed.

Lemma driver_run_ok w : rtc driver_step initial_world w → world_ok w.
Proof.
  intros H. assert (world_ok initial_world) as H0.
  { split; simpl; [apply empty_driver_ok|by apply NoDup_nil_2|done|done]. }
  induction H as [|w1 w2 w3 Hs _ IH]; [done|]. by eapply IH, driver_step_ok.
Qed.
End driver_runs.

(** ** The properties of the driver *)

(** C2: No job is lost, and none is duplicated but by one defect.  Along any run of
    producers, workers, the scheduler and operators, with lease tokens that do not repeat
    (they are random UUIDs), leases that expire and completions that come after their lease
    is gone, the ids enqueued and those that a
    worker has dead-lettered after its lease was gone ([w_twice]) are exactly, with
    multiplicity, those acknowledged, replayed, flushed or purged together with those
    the driver holds: ready, delayed, leased or dead-lettered.  So nothing disappears,
    and each job is in one place and once, but for one more record among the dead
    letters for each such late [moveToDeadLetter]. *)
Theorem jobs_conserved {P} (w : World) :
  rtc driver_step (@initial_world P) w →
  w_in w ++ w_twice w ≡ₚ w_out w ++ jobs (w_driver w) ∧ driver_ok (w_driver w).
Proof. intros H%driver_run_ok. split; apply H. Qed.

Definition sample_job (id : string) (ref : nat) (priority seq : Z) : JobEnvelope unit :=
  {| e_ref := ref; e_id := id; e_type := "mail"; e_queue := "q"; e_payload := tt;
     e_priority := priority; e_maxAttempts := 1; e_backoff := None; e_timeoutMs := None;
     e_enqueuedAt := 0; e_seq := seq; e_dedupeKey := None; e_tenantId := None |}.

Lemma jobs_conserved_witness :
  let a := sample_job "a" 0 0 0 in
  let d := enqueue "q" a empty_driver in
  let d' := (reserve ["q"] 10 5 "t" d).2 in
  let r := Build_Reservation a "t" "q" 15 in
  ["a"] ≡ₚ ["a"] ++ jobs (ack r d') ∧ driver_ok (ack r d').
Proof.
  cbv zeta. set (a := sample_job "a" 0 0 0).
  apply (jobs_conserved (Build_World
    (ack (Build_Reservation a "t" "q" 15) (reserve ["q"] 10 5 "t" (enqueue "q" a empty_driver)).2)
    [Build_Reservation a "t" "q" 15] ["a"] ["a"] [])).
  eapply rtc_l; [eapply (step_enqueue _ _ _ _ _ "q" a)|].
  eapply rtc_l; [eapply (step_reserve _ _ _ _ _ _ ["q"] 10 5 "t");
    [apply not_elem_of_nil|vm_compute; reflexivity]|].
  eapply rtc_l; [eapply (step_ack _ _ _ _ _ (Build_Reservation a "t" "q" 15)); vm_compute; left|].
  vm_compute. apply rtc_refl.
Defined.

(** C38: [reserve] takes the best job of the first non-empty queue.  With the jobs of
    a queue being those ready and those whose lease expired, the queue served is the
    first of the list that has one; the job handed out has the highest priority
    there and the lowest sequence number among those of its priority; the others
    stay; its attempt count goes up by one and the lease is recorded under the
    token.  The answer is [null] only when every queue asked for is empty. *)
Theorem reserve_order {P} (queues : list string) (vis now : Q) (token : string)
    (d : MemoryDriver P) :
  driver_ok d →
  let candidates q := readyHeap q d ++ expired_jobs now q (reserved d) in
  match reserve queues vis now token d with
  | (None, _) => Forall (λ q, candidates q = []) queues
  | (Some r, d') =>
      (∃ pre post, queues = pre ++ r_queue r :: post ∧ Forall (λ q, candidates q = []) pre) ∧
      candidates (r_queue r) ≡ₚ r_envelope r :: readyHeap (r_queue r) d' ∧
      (∀ q, q ≠ r_queue r → readyHeap q d' ≡ₚ candidates q) ∧
      Forall (λ e, (e_priority e < e_priority (r_envelope r))%Z ∨
                   e_priority e = e_priority (r_envelope r) ∧
                   (e_seq (r_envelope r) <= e_seq e)%Z) (readyHeap (r_queue r) d') ∧
      attempts d' (r_envelope r) = (attempts d (r_envelope r) + 1)%Z ∧
      jm_get token (reserved d') =
        Some (Build_LeaseRecord (r_envelope r) (r_queue r) (now + vis)%Q)
  end.
Proof.
  intros Hd candidates. destruct (reclaim_spec now d Hd) as (_ & _ & _ & Hatt & Hready).
  set (d1 := reclaimExpiredLeases now d) in *.
  assert (∀ q, readyHeap q d1 = [] → candidates q = []) as Hnil.
  { intros q Hq. specialize (Hready q). rewrite Hq in Hready. by apply Permutation_nil_l in Hready. }
  destruct (reserve_cases queues vis now token d Hd)
    as [[Hf ->]|(q & e & rest & Hf & Hp & _ & Hmin & ->)]; fold d1 in Hf.
  { apply first_ready_None in Hf. by eapply Forall_impl. }
  fold d1 in Hp |- *. cbn [r_queue r_envelope]. set (d' := set_reserved _ _).
  assert (∀ q', readyHeap q' d' = if decide (q' = q) then rest else readyHeap q' d1) as Hd'.
  { intros q'. apply (readyHeap_set d1). }
  destruct (first_ready_Some _ _ _ Hf) as (_ & pre & post & -> & Hpre).
  repeat split.
  - exists pre, post. split; [done|]. by eapply Forall_impl.
  - rewrite Hd', decide_True by done. unfold candidates. by rewrite <-Hp, <-Hready.
  - intros q' Hne. by rewrite Hd', decide_False, Hready by done.
  - rewrite Hd', decide_True by done. eapply Forall_impl; [exact Hmin|].
    intros x. unfold before, compareReady. case_match; reflect_bools; lia.
  - unfold attempts. rewrite <-Hatt. unfold d'. cbn [attempts_of set_reserved set_attempts].
    by rewrite lookup_insert_eq.
  - apply jm_get_set_eq.
Qed.

Lemma reserve_order_witness :
  match reserve ["p"; "q"] 10 5 "t"
          (enqueue "q" (sample_job "b" 1 2 1) (enqueue "q" (sample_job "a" 0 1 0) empty_driver)) with
  | (Some r, _) => e_id (r_envelope r) = "b"
  | _ => False
  end ∧
  let d := enqueue "q" (sample_job "b" 1 2 1) (enqueue "q" (sample_job "a" 0 1 0) empty_driver) in
  (∃ pre post, ["p"; "q"] = pre ++ "q" :: post ∧
     Forall (λ q, readyHeap q d ++ expired_jobs 5 q (reserved d) = []) pre).
Proof.
  split; [reflexivity|]. cbv zeta.
  set (d := enqueue _ _ _).
  assert (driver_ok d) as Hd by by apply push_ready_ok, push_ready_ok, empty_driver_ok.
  exact (proj1 (reserve_order ["p"; "q"] 10 5 "t" d Hd)).
Defined.

(** [promoteDue] moves exactly the due jobs.  In every queue the delayed entries
    with [runAt <= now] become ready and the others stay delayed; the number
    returned is the number moved over all queues; leases, dead letters and attempt
    counts are untouched. *)
Theorem promoteDue_exact {P} (now : Q) (d : MemoryDriver P) :
  driver_ok d →
  let '(n, d') := promoteDue now d in
  (∀ q, delayedHeap q d' ≡ₚ filter (λ x, ¬ due now x = true) (delayedHeap q d)) ∧
  (∀ q, readyHeap q d' ≡ₚ
        readyHeap q d ++ (d_envelope <$> filter (λ x, due now x = true) (delayedHeap q d))) ∧
  n = sumZ ((λ kv, Z.of_nat (length (filter (λ x, due now x = true) kv.2))) <$> delayed d) ∧
  reserved d' = reserved d ∧ dead d' = dead d ∧ attempts_of d' = attempts_of d.
Proof.
  intros Hd. pose proof (promote_walk now (delayed d) 0%Z d [] eq_refl (ok_delayed_keys d Hd)) as H.
  unfold promoteDue. destruct (foldl _ _ _) as [n d']. destruct H as (Hdel & Hr & Hde & Ha & Hn & Hq).
  assert (∀ q h, jm_get q (delayed d) = Some h →
    heap_due now h ≡ₚ filter (λ x, due now x = true) h ∧
    heap_rest now h ≡ₚ filter (λ x, ¬ due now x = true) h) as Hdrain.
  { intros q h Hqh. pose proof (ok_delayed d Hd q) as Hh. unfold delayedHeap in Hh.
    rewrite Hqh in Hh.
    pose proof (drain_while_exact compareDelayed (due now) h compareDelayed_ok (due_down_closed now) Hh) as Hx.
    unfold heap_due, heap_rest. destruct (drain_while _ _ h). by destruct Hx as (? & ? & _). }
  split; [|split; [|split]]; [| | |done].
  - intros q. unfold delayedHeap. rewrite Hdel. simpl. rewrite (jm_get_fmap (heap_rest now)).
    destruct (jm_get q (delayed d)) as [h|] eqn:E; [|done]. simpl. by apply (Hdrain q).
  - intros q. rewrite Hq. apply Permutation_app_head.
    rewrite (due_jobs_get now q (delayed d) (ok_delayed_keys d Hd)). unfold delayedHeap.
    destruct (jm_get q (delayed d)) as [h|] eqn:E; [|done]. simpl.
    apply fmap_Permutation. by apply (Hdrain q).
  - rewrite Hn. apply sumZ_map_ext. intros [q h] Hin. simpl.
    destruct (Hdrain q h) as [Hx _]; [by apply jm_elem_get; [apply Hd|]|]. by rewrite Hx.
Qed.

Lemma promoteDue_exact_witness :
  let d := enqueueDelayed "q" (sample_job "b" 1 0 1) 9
             (enqueueDelayed "q" (sample_job "a" 0 0 0) 4 empty_driver) in
  (promoteDue 5 d).1 = 1%Z ∧ readyHeap "q" (promoteDue 5 d).2 ≡ₚ [sample_job "a" 0 0 0].
Proof.
  cbv zeta. set (d := enqueueDelayed _ _ _ _).
  assert (driver_ok d) as Hd by by apply push_delayed_ok, push_delayed_ok, empty_driver_ok.
  pose proof (promoteDue_exact 5 d Hd) as H.
  split; [reflexivity|].
  transitivity (readyHeap "q" d ++
    (d_envelope <$> filter (λ x, due 5 x = true) (delayedHeap "q" d))); [|reflexivity].
  destruct (promoteDue 5 d) as [n d'] in *. destruct H as (_ & H & _). apply H.
Defined.

(** Completing a job whose lease is gone.  When the lease expired and the job went
    back to its queue (or was completed already), [ack] and [nack] change nothing,
    but [moveToDeadLetter] still appends a record: the job is then in the driver
    twice, dead-lettered and waiting. *)
Theorem stale_completions {P} (d : MemoryDriver P) r err now runAt :
  held r d = false →
  ack r d = d ∧ nack r runAt d = d ∧
  jobs (moveToDeadLetter r err now d) ≡ₚ e_id (r_envelope r) :: jobs d.
Proof.
  intros Hh. pose proof (delete_absent_lease _ _ Hh) as Hd. unfold held in Hh. repeat split.
  - done.
  - unfold nack. by rewrite Hh, Hd.
  - by rewrite moveToDeadLetter_jobs, Hd.
Qed.

Lemma stale_completions_witness :
  let e := sample_job "a" 0 0 0 in
  let r := Build_Reservation e "t" "q" 1 in
  let d := (reserve [] 1 2 "t2" (reserve ["q"] 1 0 "t" (enqueue "q" e empty_driver)).2).2 in
  readyHeap "q" d = [e] ∧
  jobs (moveToDeadLetter r (Build_SerializedError "Error" "boom" None) 3 d) ≡ₚ ["a"; "a"].
Proof.
  split; [reflexivity|].
  set (d := snd _). set (r := Build_Reservation _ _ _ _). set (err := Build_SerializedError _ _ _).
  assert (held r d = false) as Hh by reflexivity.
  exact (proj2 (proj2 (stale_completions d r err 3 None Hh))).
Defined.

(** A worker that takes the job at times 0, 1, 2, ... with a lease of length 1 and
    never completes it. *)
Definition take_at {P} (q : string) (tok : nat → string) (d : MemoryDriver P) (k : nat) :
    MemoryDriver P :=
  (reserve [q] 1 (inject_Z (Z.of_nat k)) (tok k) d).2.

Lemma push_nil {P} (e : JobEnvelope P) : push compareReady [] e = [e].
Proof. reflexivity. Qed.

Lemma pop_singleton {P} (e : JobEnvelope P) : pop compareReady [e] = (Some e, []).
Proof. reflexivity. Qed.

(** The job is waiting, or its lease has expired. *)
Lemma reserve_waiting {P} q (e : JobEnvelope P) (vis now : Q) token (att : gmap nat Z) :
  (reserve [q] vis now token (Build_MemoryDriver [(q, [e])] [] [] [] att)).2 =
    Build_MemoryDriver [(q, [])] [] [(token, Build_LeaseRecord e q (now + vis)%Q)] []
      (<[e_ref e := (default 0%Z (att !! e_ref e) + 1)%Z]> att).
Proof.
  unfold reserve. simpl. unfold readyHeap. simpl. rewrite !decide_True by done. simpl.
  rewrite decide_True by done. change (default [] (Some [e])) with [e]. rewrite pop_singleton, decide_True by done. reflexivity.
Qed.

Lemma reclaim_leased {P} q (e : JobEnvelope P) (now t : Q) token (att : gmap nat Z) :
  (t <= now)%Q →
  reclaimExpiredLeases now (Build_MemoryDriver [(q, [])] [] [(token, Build_LeaseRecord e q t)] [] att) =
    Build_MemoryDriver [(q, [e])] [] [] [] att.
Proof.
  intros Ht%Qle_bool_iff. unfold reclaimExpiredLeases, reclaim_one. simpl. rewrite Ht.
  unfold push_ready, readyHeap. simpl. rewrite !decide_True by done. simpl.
  by rewrite push_nil.
Qed.

Lemma reserve_reclaimed {P} queues vis now token (d : MemoryDriver P) :
  reclaimExpiredLeases now (reclaimExpiredLeases now d) = reclaimExpiredLeases now d →
  reserve queues vis now token d = reserve queues vis now token (reclaimExpiredLeases now d).
Proof. intros H. unfold reserve. by rewrite H. Qed.

Lemma take_at_state {P} q tok (e : JobEnvelope P) n :
  let t := inject_Z (Z.of_nat n) in
  foldl (take_at q tok) (enqueue q e empty_driver) (seq 0 (S n)) =
    Build_MemoryDriver [(q, [])] [] [(tok n, Build_LeaseRecord e q (t + 1)%Q)] []
      (<[e_ref e := Z.of_nat (S n)]> ∅).
Proof.
  induction n as [|n IH]; cbv zeta.
  - change (enqueue q e empty_driver) with (Build_MemoryDriver [(q, [e])] [] [] [] ∅).
    cbn [seq foldl]. unfold take_at. rewrite reserve_waiting. by rewrite lookup_empty.
  - rewrite seq_S, foldl_app, IH. clear IH. cbn [Nat.add foldl]. unfold take_at.
    assert (inject_Z (Z.of_nat n) + 1 <= inject_Z (Z.of_nat (S n)))%Q as Ht.
    { rewrite (Nat2Z.inj_succ n). unfold Z.succ. rewrite inject_Z_plus. apply Qle_refl. }
    rewrite reserve_reclaimed by (by rewrite (reclaim_leased q e _ _ _ _ Ht)).
    rewrite (reclaim_leased q e _ _ _ _ Ht).
    rewrite reserve_waiting, lookup_insert_eq, insert_insert_eq. unfold default, from_option, id.
    by replace (Z.of_nat (S n) + 1)%Z with (Z.of_nat (S (S n))) by lia.
Qed.

(** Deliveries are not bounded by [maxAttempts].  A job whose workers let the
    lease expire is handed out again every time, whatever its [maxAttempts]: after
    n deliveries its attempt count is n and the next [reserve] hands it out once
    more. *)
Theorem lease_expiry_ignores_maxAttempts {P} q tok (e : JobEnvelope P) (n : nat) :
  let d := foldl (take_at q tok) (enqueue q e empty_driver) (seq 0 n) in
  attempts d e = Z.of_nat n ∧
  r_envelope <$> (reserve [q] 1 (inject_Z (Z.of_nat n)) (tok n) d).1 = Some e.
Proof.
  set (d := foldl _ _ _). cbv zeta.
  assert (∀ m, attempts (foldl (take_at q tok) (enqueue q e empty_driver) (seq 0 m)) e =
    Z.of_nat m) as Hatt.
  { intros [|m]; [by unfold attempts; simpl; rewrite lookup_empty|].
    rewrite take_at_state. unfold attempts. simpl. by rewrite lookup_insert_eq. }
  split; [apply Hatt|].
  assert (driver_ok d) as Hd.
  { apply foldl_ok; [intros; by apply reserve_ok|]. apply push_ready_ok, empty_driver_ok. }
  assert ((reserve [q] 1 (inject_Z (Z.of_nat n)) (tok n) d).2 =
    foldl (take_at q tok) (enqueue q e empty_driver) (seq 0 (S n))) as Hs.
  { by rewrite seq_S, foldl_app. }
  destruct (reserve_cases [q] 1 (inject_Z (Z.of_nat n)) (tok n) d Hd)
    as [[_ Hr]|(q' & e' & rest & _ & _ & _ & _ & Hr)]; rewrite Hr in *; cbn [fst snd fmap option_fmap option_map] in *.
  - apply (f_equal (λ d, attempts d e)) in Hs. rewrite (Hatt (S n)) in Hs.
    destruct (reclaim_spec (inject_Z (Z.of_nat n)) d Hd) as (_ & _ & _ & Ha & _).
    unfold attempts in Hs. rewrite Ha in Hs. specialize (Hatt n). unfold attempts in Hatt.
    unfold d in Hs. lia.
  - rewrite take_at_state in Hs. apply (f_equal (λ d, jm_get (tok n) (reserved d))) in Hs.
    cbn [reserved set_reserved jm_get] in Hs. rewrite jm_get_set_eq, decide_True in Hs by done.
    by simplify_eq.
Qed.
