(* ===== verification/RateStore.v ===== *)
(** * Sliding-window rate limiting

    Models [InMemoryRateLimitStore] of src/packages/store/src/store.ts (the window of
    timestamps per key, its per-key cap, the eviction of the oldest key, the periodic
    sweep) and the admission check that [rateLimit] of
    src/packages/ratelimit/src/ratelimit.ts makes on it: count, then hit when the
    quota allows.  The store is the [Map] from keys to timestamp arrays; the arrays
    never leave it, so they are values.  Times are rationals (milliseconds). *)

From Stdlib Require Import QArith Lqa.
From S2P Require Import Prelude JsMap.

Open Scope nat_scope.

(** ** The store *)

Record StoreOptions : Type := {
  maxKeys : nat;
  maxRequestsPerKey : nat;
}.

Definition DEFAULT_MAX_KEYS : nat := 100 * 1000.
Definition DEFAULT_MAX_REQUESTS_PER_KEY : nat := 1000.

Definition window_store : Type := list (string * list Q).

(** [_prune]: the leading timestamps below the cutoff go. *)
Fixpoint prune (timestamps : list Q) (cutoff : Q) : list Q :=
  match timestamps with
  | [] => []
  | t :: ts => if Qle_bool cutoff t then timestamps else prune ts cutoff
  end.

(** The timestamps of a key, the oldest key evicted when a new one does not fit. *)
Definition timestamps_of (opts : StoreOptions) (key : string) (store : window_store) :
    list Q * window_store :=
  match jm_get key store with
  | Some timestamps => (timestamps, store)
  | None =>
      let store :=
        if maxKeys opts <=? length store
        then match jm_keys store with
             | firstKey :: _ => jm_delete firstKey store
             | [] => store
             end
        else store in
      ([], jm_set key [] store)
  end.

Definition hit (opts : StoreOptions) (key : string) (nowMs windowMs : Q)
    (store : window_store) : nat * window_store :=
  let cutoff := (nowMs - windowMs)%Q in
  let '(timestamps, store) := timestamps_of opts key store in
  let timestamps := prune timestamps cutoff in
  let timestamps :=
    if length timestamps <? maxRequestsPerKey opts then timestamps ++ [nowMs] else timestamps in
  (length timestamps, jm_set key timestamps store).

Definition count (key : string) (nowMs windowMs : Q) (store : window_store) : nat :=
  let cutoff := (nowMs - windowMs)%Q in
  match jm_get key store with
  | None => 0
  | Some timestamps => length (filter (λ t, Qle_bool cutoff t = true) timestamps)
  end.

Definition reset (key : string) (store : window_store) : window_store := jm_delete key store.

Definition store_size (store : window_store) : nat := length store.

(** The periodic sweep visits the entries once, dropping the emptied keys. *)
Definition sweep_one (cutoff : Q) (store : window_store) (kv : string * list Q) : window_store :=
  let '(key, timestamps) := kv in
  let timestamps := prune timestamps cutoff in
  match timestamps with
  | [] => jm_delete key store
  | _ => jm_set key timestamps store
  end.

Definition sweep (nowMs retentionMs : Q) (store : window_store) : window_store :=
  foldl (sweep_one (nowMs - retentionMs)) store store.

(** ** Admission *)

(** [rateLimit]'s handler up to [next()]: [None] is the 429 answer, [Some n] the
    allowance left ([X-RateLimit-Remaining]). *)
Definition rate_check (opts : StoreOptions) (max : nat) (windowMs : Q)
    (key : string) (now : Q) (store : window_store) : option nat * window_store :=
  let current := count key now windowMs store in
  if max <=? current then (None, store)
  else let '(n, store) := hit opts key now windowMs store in (Some (max - n), store).

(** A sequence of requests; the requests admitted, in order. *)
Fixpoint admitted (opts : StoreOptions) (max : nat) (windowMs : Q)
    (requests : list (string * Q)) (store : window_store) : list (string * Q) :=
  match requests with
  | [] => []
  | (key, now) :: rest =>
      let '(answer, store) := rate_check opts max windowMs key now store in
      match answer with
      | Some _ => (key, now) :: admitted opts max windowMs rest store
      | None => admitted opts max windowMs rest store
      end
  end.

(** ** Lemmas *)

Definition ascending (l : list Q) : Prop := StronglySorted Qle l.

Lemma ascending_app l1 l2 :
  ascending (l1 ++ l2) ↔ ascending l1 ∧ ascending l2 ∧ ∀ x y, x ∈ l1 → y ∈ l2 → (x <= y)%Q.
Proof.
  unfold ascending. induction l1 as [|a l1 IH]; simpl.
  { split; [|naive_solver]. intros H. split; [constructor|]. split; [done|].
    by intros x y ?%not_elem_of_nil. }
  split.
  - intros H. inversion_clear H as [|? ? Hs Ha]. apply IH in Hs as (H1 & H2 & H3).
    rewrite Forall_app in Ha. destruct Ha as [Ha1 Ha2].
    split; [by constructor|]. split; [done|]. intros x y [->|Hx]%elem_of_cons Hy; [|auto].
    by apply (Forall_forall (Qle a) l2).
  - intros (H1 & H2 & H3). inversion_clear H1 as [|? ? Hs Ha]. constructor.
    + apply IH. split; [done|]. split; [done|]. intros x y Hx. apply H3. by right.
    + apply Forall_app. split; [done|]. apply Forall_forall. intros y Hy. apply H3; [left|done].
Qed.

Lemma prune_ascending l cutoff :
  ascending l →
  l = filter (λ t, ¬ Qle_bool cutoff t = true) l ++ prune l cutoff ∧
  prune l cutoff = filter (λ t, Qle_bool cutoff t = true) l ∧
  ascending (prune l cutoff).
Proof.
  unfold ascending. induction l as [|t l IH]; simpl; [done|]. intros Hs.
  inversion_clear Hs as [|? ? Hl Ha]. rewrite !filter_cons.
  destruct (Qle_bool cutoff t) eqn:E.
  - rewrite decide_False by tauto. rewrite decide_True by done.
    assert (Forall (λ t, Qle_bool cutoff t = true) l) as Hall.
    { eapply Forall_impl; [exact Ha|]. intros x Hx. apply Qle_bool_iff in E.
      apply Qle_bool_iff. simpl in Hx. lra. }
    rewrite filter_none, (filter_all (λ t, Qle_bool cutoff t = true)) by
      (done || (eapply Forall_impl; [exact Hall|]; simpl; tauto)).
    split; [done|]. split; [done|by constructor].
  - rewrite (decide_True (P := ¬ _)) by done. rewrite (decide_False (P := _ = true)) by done.
    destruct (IH Hl) as (H1 & H2 & H3). simpl. split; [by f_equal|done].
Qed.

(** The times at which a key was admitted. *)
Definition times (k : string) (l : list (string * Q)) : list Q := (filter (λ r, r.1 = k) l).*2.

Lemma times_snoc k l k' t :
  times k (l ++ [(k', t)]) = times k l ++ (if decide (k' = k) then [t] else []).
Proof.
  unfold times. rewrite filter_app, fmap_app. f_equal. rewrite filter_cons. simpl.
  destruct (decide (k' = k)); done.
Qed.

Section limiter.
Context (opts : StoreOptions) (max : nat) (W : Q) (keys : list string).
Hypothesis max_fits : max <= maxRequestsPerKey opts.
Hypothesis keys_fit : length keys <= maxKeys opts.

(** Never more than [max] of the times lie in a window of length [W] ending at one
    of them. *)
Definition window_ok (l : list Q) : Prop :=
  ∀ pre s post, l = pre ++ s :: post →
    length (filter (λ t, Qle_bool (s - W) t = true) (pre ++ [s])) <= max.

(** What the store knows of the requests admitted so far, the last request having
    been at time [last]. *)
Record limiter_ok (store : window_store) (adm : list (string * Q)) (last : Q) : Prop := {
  lim_wf : jm_wf store;
  lim_keys : ∀ k, k ∈ jm_keys store → k ∈ keys;
  lim_times : ∀ k, ∃ dropped,
    times k adm = dropped ++ default [] (jm_get k store) ∧
    Forall (λ t, (t < last - W)%Q) dropped;
  lim_ascending : ∀ k, ascending (times k adm);
  lim_past : ∀ k, Forall (λ t, (t <= last)%Q) (times k adm);
  lim_window : ∀ k, window_ok (times k adm);
}.

(** A new key always fits: the keys in the store are other keys of [keys]. *)
Lemma timestamps_no_eviction key store :
  jm_wf store → (∀ k, k ∈ jm_keys store → k ∈ keys) → key ∈ keys →
  timestamps_of opts key store =
    (default [] (jm_get key store),
     if jm_has key store then store else jm_set key [] store).
Proof.
  intros Hwf Hsub Hkey. unfold timestamps_of, jm_has.
  destruct (jm_get key store) as [ts|] eqn:Hg; [done|]. simpl.
  destruct (maxKeys opts <=? length store) eqn:E; [|done]. apply Nat.leb_le in E. exfalso.
  assert (key ∉ jm_keys store) as Hni by by apply jm_get_None.
  assert (length (key :: jm_keys store) <= length keys) as Hlen.
  { apply submseteq_length, NoDup_submseteq; [by constructor|].
    intros k [->|?]%elem_of_cons; auto. }
  unfold jm_keys in Hlen. simpl in Hlen. rewrite length_fmap in Hlen. lia.
Qed.

Definition in_window (now t : Q) : Prop := Qle_bool (now - W) t = true.
#[local] Instance in_window_dec now t : Decision (in_window now t).
Proof. unfold in_window. apply _. Defined.

(** The count of the store is the number of admissions in the window. *)
Lemma count_admitted store adm last k now :
  limiter_ok store adm last → (last <= now)%Q →
  count k now W store = length (filter (in_window now) (times k adm)) ∧
  length (prune (default [] (jm_get k store)) (now - W)) = count k now W store.
Proof.
  intros Hok Hle. destruct (lim_times _ _ _ Hok k) as (dropped & Heq & Hdrop).
  pose proof (lim_ascending _ _ _ Hok k) as Hasc. rewrite Heq in Hasc.
  apply ascending_app in Hasc as (_ & Hasc & _).
  assert (count k now W store = length (filter (in_window now) (default [] (jm_get k store)))) as Hc.
  { unfold count. by destruct (jm_get k store). }
  split.
  - rewrite Hc, Heq, filter_app, (filter_none _ dropped); [done|].
    eapply Forall_impl; [exact Hdrop|]. intros t Ht Hin. unfold in_window in Hin.
    apply Qle_bool_iff in Hin. simpl in Ht. lra.
  - rewrite Hc. by destruct (prune_ascending _ (now - W) Hasc) as (_ & -> & _).
Qed.

Lemma rate_check_ok store adm last k now :
  limiter_ok store adm last → (last <= now)%Q → k ∈ keys →
  let '(answer, store') := rate_check opts max W k now store in
  (answer = None ↔ max <= count k now W store) ∧
  limiter_ok store' (adm ++ (if answer is Some _ then [(k, now)] else [])) now.
Proof.
  intros Hok Hle Hk. destruct (count_admitted store adm last k now Hok Hle) as [Hcnt Hpr].
  unfold rate_check. destruct (max <=? count k now W store) eqn:E; reflect_bools.
  { split; [done|]. rewrite app_nil_r. destruct Hok as [H1 H2 H3 H4 H5 H6]. split; try done.
    - intros k'. destruct (H3 k') as (dr & Heq & Hdr). exists dr. split; [done|].
      eapply Forall_impl; [exact Hdr|]. simpl. intros; lra.
    - intros k'. eapply Forall_impl; [exact (H5 k')|]. simpl. intros; lra. }
  unfold hit. rewrite (timestamps_no_eviction k store (lim_wf _ _ _ Hok) (lim_keys _ _ _ Hok) Hk).
  set (ts := default [] (jm_get k store)) in *.
  set (store1 := if jm_has k store then store else jm_set k [] store).
  rewrite (proj2 (Nat.ltb_lt _ _)) by lia.
  split; [naive_solver lia|].
  set (ts' := prune ts (now - W) ++ [now]).
  assert (∀ k', jm_get k' (jm_set k ts' store1) = if decide (k' = k) then Some ts' else jm_get k' store) as Hget.
  { intros k'. unfold store1. case_decide; subst; [by rewrite jm_get_set_eq|].
    rewrite jm_get_set_ne by done. destruct (jm_has k store); [done|by rewrite jm_get_set_ne]. }
  destruct Hok as [H1 H2 H3 H4 H5 H6].
  destruct (H3 k) as (dr & Heq & Hdr). fold ts in Heq.
  assert (ascending ts) as Hts.
  { pose proof (H4 k) as Ha. rewrite Heq in Ha. by apply ascending_app in Ha as (_ & ? & _). }
  destruct (prune_ascending ts (now - W) Hts) as (Hsplit & Hfilter & Hprune).
  assert (∀ k', (k' ≠ k → times k' (adm ++ [(k, now)]) = times k' adm)) as Hother.
  { intros k' Hne. rewrite times_snoc, decide_False, app_nil_r; congruence. }
  assert (times k (adm ++ [(k, now)]) = times k adm ++ [now]) as Hself.
  { by rewrite times_snoc, decide_True. }
  split.
  - unfold store1. apply jm_set_wf. destruct (jm_has k store); [done|by apply jm_set_wf].
  - intros k'. rewrite jm_get_in_keys, Hget. case_decide; [by subst|].
    rewrite <-jm_get_in_keys. apply H2.
  - intros k'. rewrite Hget. destruct (decide (k' = k)) as [->|Hne].
    + exists (dr ++ filter (λ t, ¬ Qle_bool (now - W) t = true) ts).
      rewrite Hself, Heq. simpl. unfold ts'. split.
      { rewrite Hsplit at 1. by rewrite <-!(assoc_L (++)). }
      apply Forall_app. split; [eapply Forall_impl; [exact Hdr|]; simpl; intros; lra|].
      apply Forall_forall. intros t Ht. apply list_elem_of_filter in Ht as [Ht _].
      destruct (Qlt_le_dec t (now - W)) as [?|Hge]; [done|]. destruct Ht. by apply Qle_bool_iff.
    + rewrite Hother by done. destruct (H3 k') as (dr' & Heq' & Hdr'). exists dr'. split; [done|].
      eapply Forall_impl; [exact Hdr'|]. simpl. intros; lra.
  - intros k'. destruct (decide (k' = k)) as [->|Hne]; [|by rewrite Hother].
    rewrite Hself. apply ascending_app. split; [done|]. split; [repeat constructor|].
    intros x y Hx ->%list_elem_of_singleton. pose proof (H5 k) as Hp.
    rewrite Forall_forall in Hp. specialize (Hp x Hx). simpl in Hp. lra.
  - intros k'. destruct (decide (k' = k)) as [->|Hne]; [rewrite Hself|rewrite Hother by done].
    + apply Forall_app. split; [|constructor; [apply Qle_refl|constructor]].
      eapply Forall_impl; [exact (H5 k)|]. simpl. intros; lra.
    + eapply Forall_impl; [exact (H5 k')|]. simpl. intros; lra.
  - intros k'. destruct (decide (k' = k)) as [->|Hne]; [|by rewrite Hother].
    rewrite Hself. intros pre s post Hl. destruct (list_snoc_inv post) as [->|(post' & z & ->)].
    + apply app_inj_tail in Hl as [<- <-]. rewrite filter_app, length_app.
      change (length (filter (in_window now) (times k adm)) + length (filter (in_window now) [now]) <= max).
      rewrite <-Hcnt. pose proof (length_filter (in_window now) [now]). simpl in *. lia.
    + rewrite app_comm_cons, (assoc_L (++)) in Hl. apply app_inj_tail in Hl as [Hl _].
      by apply (H6 k pre s post').
Qed.

(** The reference limiter keeps the whole log of admissions. *)
Definition log_admits (adm : list (string * Q)) (k : string) (now : Q) : bool :=
  length (filter (in_window now) (times k adm)) <? max.

Fixpoint log_limiter (reqs adm : list (string * Q)) : list (string * Q) :=
  match reqs with
  | [] => []
  | (k, now) :: rest =>
      if log_admits adm k now then (k, now) :: log_limiter rest (adm ++ [(k, now)])
      else log_limiter rest adm
  end.

Lemma admitted_ok reqs : ∀ store adm last,
  limiter_ok store adm last →
  Forall (λ r, r.1 ∈ keys) reqs → ascending (last :: reqs.*2) →
  admitted opts max W reqs store = log_limiter reqs adm ∧
  ∃ store' last', limiter_ok store' (adm ++ admitted opts max W reqs store) last'.
Proof.
  induction reqs as [|[k now] reqs IH]; intros store adm last Hok Hk Hasc; simpl.
  { rewrite app_nil_r. split; [done|]. by exists store, last. }
  apply Forall_cons in Hk as [Hk Hks]. inversion_clear Hasc as [|? ? Hs Ha]. csimpl in *.
  apply Forall_cons in Ha as [Hle _].
  pose proof (rate_check_ok store adm last k now Hok Hle Hk) as Hstep.
  destruct (count_admitted store adm last k now Hok Hle) as [Hcnt _].
  destruct (rate_check opts max W k now store) as [answer store1].
  destruct Hstep as [Hans Hok1]. rewrite Hcnt in Hans. unfold log_admits.
  destruct (IH store1 _ now Hok1 Hks Hs) as (Heq & store' & last' & Hok').
  destruct answer.
  - rewrite (proj2 (Nat.ltb_lt _ _)), Heq; [|destruct (Nat.lt_ge_cases (length (filter (in_window now) (times k adm))) max) as [|Hge]; [done|by apply Hans in Hge]].
    split; [done|]. exists store', last'. by rewrite <-Heq, <-(assoc_L (++)) in *.
  - rewrite (proj2 (Nat.ltb_ge _ _)) by by apply Hans. rewrite app_nil_r in *.
    split; [done|]. by exists store', last'.
Qed.

Lemma window_any l t0 :
  ascending l → window_ok l →
  length (filter (λ t, Qle_bool t0 t = true ∧ Qle_bool t (t0 + W) = true) l) <= max.
Proof.
  intros Hasc Hwin. set (F := λ t, Qle_bool t0 t = true ∧ Qle_bool t (t0 + W) = true).
  destruct (filter_last F l) as [Hnone|(pre & s & post & -> & Hs & Hpost)].
  { rewrite Hnone. apply Nat.le_0_l. }
  etransitivity; [|apply (Hwin pre s post eq_refl)].
  rewrite app_cons_snoc, filter_app, (filter_none F post), app_nil_r by done.
  apply filter_length_impl. intros t Ht [H1 H2]. apply Qle_bool_iff in H1. apply Qle_bool_iff.
  destruct Hs as [_ Hs]. apply Qle_bool_iff in Hs. clear max_fits keys_fit. lra.
Qed.
End limiter.

Lemma limiter_start max W keys r reqs :
  limiter_ok max W keys [] [] (r : string * Q).2 ∧
  (ascending ((r :: reqs).*2) → ascending (r.2 :: (r :: reqs).*2)).
Proof.
  split.
  - split; [by apply NoDup_nil_2|by intros k ?%not_elem_of_nil|intros k; by exists []|
      intros k; constructor|intros k; constructor|intros k [|? ?] s post; done].
  - unfold ascending. csimpl. intros H. pose proof H as H'. inversion_clear H' as [|? ? Hs Ha].
    constructor; [done|]. constructor; [apply Qle_refl|done].
Qed.


(** The quota holds in every window.  Under the same conditions no closed
    interval of length [W], wherever it starts, contains more than [max] admissions
    of one key. *)
Theorem limiter_window_bound opts max W keys (reqs : list (string * Q)) k (t0 : Q) :
  max <= maxRequestsPerKey opts → length keys <= maxKeys opts →
  Forall (λ r, r.1 ∈ keys) reqs → ascending (reqs.*2) →
  length (filter (λ t, Qle_bool t0 t = true ∧ Qle_bool t (t0 + W) = true)
            (times k (admitted opts max W reqs []))) <= max.
Proof.
  intros Hmax Hkeys Hin Hasc. destruct reqs as [|r reqs]; [simpl; lia|].
  destruct (limiter_start max W keys r reqs) as [Hok Hstart].
  destruct (admitted_ok opts max W keys Hmax Hkeys (r :: reqs) [] [] r.2 Hok Hin (Hstart Hasc))
    as (_ & store' & last' & Hok').
  apply window_any; apply Hok'.
Qed.

Definition sample_requests : list (string * Q) :=
  [("a", 0); ("a", 1); ("b", 1); ("a", 2); ("a", 6)]%Q.
Definition sample_store : StoreOptions := {| maxKeys := 10; maxRequestsPerKey := 5 |}.


Lemma limiter_window_bound_witness :
  length (filter (λ t, Qle_bool 1 t = true ∧ Qle_bool t (1 + 5) = true)
            (times "a" (admitted sample_store 2 5 sample_requests []))) <= 2.
Proof.
  apply (limiter_window_bound sample_store 2 5 ["a"; "b"]); simpl; try lia.
  - apply (bool_decide_unpack _). vm_compute. exact I.
  - repeat constructor; by apply Qle_bool_iff.
Defined.

(** ** A quota above the per-key cap *)

Definition capped (opts : StoreOptions) (store : window_store) : Prop :=
  Forall (λ kv, length kv.2 <= maxRequestsPerKey opts) store.

Lemma capped_set opts k v store :
  length v <= maxRequestsPerKey opts → capped opts store → capped opts (jm_set k v store).
Proof.
  unfold capped. intros Hv. induction 1 as [|[k' v'] store Hk Hs IH]; simpl; [by repeat constructor|].
  case_decide; by constructor.
Qed.

Lemma capped_delete opts k store : capped opts store → capped opts (jm_delete k store).
Proof.
  unfold capped. induction 1 as [|[k' v'] store Hk Hs IH]; simpl; [done|]. case_decide; [done|by constructor].
Qed.

Lemma capped_get opts k v store :
  capped opts store → jm_get k store = Some v → length v <= maxRequestsPerKey opts.
Proof.
  unfold capped. intros Hc Hg%jm_get_elem. rewrite Forall_forall in Hc. by apply (Hc (k, v)).
Qed.

Lemma prune_length l cutoff : length (prune l cutoff) <= length l.
Proof. induction l; simpl; [done|]. case_match; simpl; lia. Qed.

Lemma hit_capped opts k now W store :
  capped opts store → capped opts (hit opts k now W store).2.
Proof.
  intros Hc. unfold hit, timestamps_of. destruct (jm_get k store) as [ts|] eqn:Hg.
  - pose proof (capped_get opts k ts store Hc Hg). pose proof (prune_length ts (now - W)).
    cbn [snd]. apply capped_set; [|done]. case_match; reflect_bools; rewrite ?length_app; simpl; lia.
  - cbn [snd]. apply capped_set.
    { simpl. case_match; reflect_bools; simpl; lia. }
    apply capped_set; [simpl; lia|]. case_match; [|done].
    destruct (jm_keys store); [done|by apply capped_delete].
Qed.

(** A quota above the per-key cap never rejects.  When [max] exceeds
    [maxRequestsPerKey] (1000 by default), the stored count can never reach [max]
    and every request of every sequence is admitted, however fast they come. *)
Theorem limiter_never_rejects opts max W (reqs : list (string * Q)) :
  maxRequestsPerKey opts < max → admitted opts max W reqs [] = reqs.
Proof.
  intros Hmax. assert (∀ store, capped opts store → admitted opts max W reqs store = reqs) as H;
    [|apply H; constructor].
  induction reqs as [|[k now] reqs IH]; intros store Hc; simpl; [done|]. unfold rate_check.
  assert (count k now W store <= maxRequestsPerKey opts) as Hcnt.
  { unfold count. destruct (jm_get k store) as [ts|] eqn:Hg; [|lia].
    pose proof (capped_get opts k ts store Hc Hg).
    pose proof (length_filter (λ t, Qle_bool (now - W) t = true) ts). lia. }
  rewrite (proj2 (Nat.leb_gt _ _)) by lia.
  pose proof (hit_capped opts k now W store Hc) as Hc'.
  destruct (hit opts k now W store) as [n store']. by rewrite IH.
Qed.

Lemma limiter_never_rejects_witness :
  admitted {| maxKeys := 10; maxRequestsPerKey := 2 |} 3 5 (repeat ("a", 0%Q) 50) [] =
    repeat ("a", 0%Q) 50.
Proof. apply limiter_never_rejects. simpl. lia. Defined.
