(* ===== verification/QueueWorker.v ===== *)
(** * The queue worker

    Models src/packages/queue/src/middleware.ts ([composeMiddleware]) and
    src/packages/queue/src/worker.ts: the execution of one reservation
    ([executeReservation], [admitUnderRateLimit], [runWithTimeout], [handleFailure],
    [deadLetterPermanent]) over the [QueueDriver] interface, and the pump that
    reserves up to the concurrency bound ([start], [stop], [pump]) as a transition
    function on the worker's loop state.

    The handler is user code: a middleware is a finite interaction tree that may call
    [next], the outcome of a handler run (how long it takes, whether it throws) is an
    argument.  Clock readings are arguments too. *)

From Stdlib Require Import Ascii.
From S2P Require Import Prelude JsMap BinaryHeap QueueJob QueueMemory RateStore.

Open Scope nat_scope.

(** ** The middleware pipeline *)

Section middleware.
Context {U : Type}.

(** A middleware at work on the state [U] that the context and the payload stand
    for: it ends, normally or by throwing, or calls [next()] and goes on with what
    the call did. *)
Inductive activity : Type :=
| Done (r : result string unit) (s : U)
| CallNext (s : U) (k : result string unit → U → activity).

Definition QueueMiddleware : Type := U → activity.
Definition Handler : Type := U → result string unit * U.

(** The closure state of one run: [lastIndex], and the indices invoked so far. *)
Record chain_state : Type := {
  lastIndex : Z;
  invoked : list Z;
  user : U;
}.

Fixpoint run_activity (next : chain_state → result string unit * chain_state)
    (a : activity) (c : chain_state) : result string unit * chain_state :=
  match a with
  | Done r s => (r, Build_chain_state (lastIndex c) (invoked c) s)
  | CallNext s k =>
      let '(r, c) := next (Build_chain_state (lastIndex c) (invoked c) s) in
      run_activity next (k r (user c)) c
  end.

Fixpoint invoke (chain : list QueueMiddleware) (handler : Handler) (index : Z)
    (c : chain_state) : result string unit * chain_state :=
  if (index <=? lastIndex c)%Z
  then (Throw "next() called multiple times in a queue middleware.", c)
  else
    let c := Build_chain_state index (invoked c ++ [index]) (user c) in
    match chain with
    | middleware :: rest =>
        run_activity (invoke rest handler (index + 1)%Z) (middleware (user c)) c
    | [] =>
        let '(r, s) := handler (user c) in
        (r, Build_chain_state (lastIndex c) (invoked c) s)
    end.

Definition composeMiddleware (chain : list QueueMiddleware) (handler : Handler) (s : U) :
    result string unit * chain_state :=
  invoke chain handler 0 (Build_chain_state (-1) [] s).
End middleware.
Arguments activity : clear implicits.
Arguments QueueMiddleware : clear implicits.
Arguments Handler : clear implicits.
Arguments chain_state : clear implicits.

(** ** The driver as the worker sees it *)

(** What the worker asks of a driver, with the view of the jobs it holds. *)
Class QueueDriver (P D : Type) : Type := {
  qd_ack : Reservation P → D → D;
  qd_nack : Reservation P → option Q → D → D;
  qd_moveToDeadLetter : Reservation P → SerializedError → Q → D → D;
  qd_attempts : D → JobEnvelope P → Z;
  qd_set_attempts : JobEnvelope P → Z → D → D;
  qd_jobs : D → list string;
  qd_held : Reservation P → D → Prop;
}.

(** The promise of a driver: completing a held reservation removes the job, putting it
    back or dead-lettering it keeps it. *)
Class QueueDriverLaws (P D : Type) `{QueueDriver P D} : Prop := {
  ack_law r d : qd_held r d → qd_jobs d ≡ₚ e_id (r_envelope r) :: qd_jobs (qd_ack r d);
  nack_law r t d : qd_held r d → qd_jobs (qd_nack r t d) ≡ₚ qd_jobs d;
  dead_law r err t d : qd_held r d → qd_jobs (qd_moveToDeadLetter r err t d) ≡ₚ qd_jobs d;
  set_attempts_law r e n d : qd_held r d → qd_held r (qd_set_attempts e n d) ∧
    qd_jobs (qd_set_attempts e n d) = qd_jobs d;
  attempts_law e n d : qd_attempts (qd_set_attempts e n d) e = n;
  nack_attempts_law r t e d : qd_attempts (qd_nack r t d) e = qd_attempts d e;
}.

#[export] Instance MemoryDriver_driver P : QueueDriver P (MemoryDriver P) := {
  qd_ack := ack;
  qd_nack := nack;
  qd_moveToDeadLetter := moveToDeadLetter;
  qd_attempts := attempts;
  qd_set_attempts e n d := set_attempts d (<[e_ref e := n]> (attempts_of d));
  qd_jobs := jobs;
  qd_held r d := ∃ l, jm_get (r_token r) (reserved d) = Some l ∧ l_envelope l = r_envelope r;
}.

#[export] Instance MemoryDriver_laws P : QueueDriverLaws P (MemoryDriver P).
Proof.
  split; simpl.
  - intros r d (l & Hg & <-). by apply jobs_delete_lease.
  - intros r t d (l & Hg & He). by apply (nack_jobs d r l t).
  - intros r err t d (l & Hg & He). rewrite moveToDeadLetter_jobs, <-He. symmetry.
    by apply jobs_delete_lease.
  - done.
  - intros e n d. unfold attempts. simpl. by rewrite lookup_insert_eq.
  - intros r t e d. unfold nack. by destruct (jm_has _ _), t.
Qed.

(** ** Executing a reservation *)

Section execution.
Context {P D : Type} `{QueueDriver P D}.

(** How JavaScript prints a number. *)
Variable number_to_string : Q → string.

Record JobExecutionContext : Type := {
  ctx_id : string;
  ctx_type : string;
  ctx_queue : string;
  ctx_attempt : Z;
  ctx_maxAttempts : Z;
  ctx_enqueuedAt : Q;
  ctx_tenantId : option string;
}.

Inductive queue_event : Type :=
| JobStarted (ctx : JobExecutionContext)
| JobCompleted (ctx : JobExecutionContext) (durationMs : Q)
| JobFailed (ctx : JobExecutionContext) (error : SerializedError)
| JobRetry (ctx : JobExecutionContext) (error : SerializedError) (nextRunAt : Q)
    (nextAttempt : Z)
| JobTimeout (ctx : JobExecutionContext) (timeoutMs : Q).

Record ResolvedRateLimit : Type := {
  rl_requests : nat;
  rl_windowMs : Q;
}.

(** What the worker changes: the driver, the window store, the facade's dedupe keys
    and its own counters; [w_events] is the log of emitted events. *)
Record worker_state : Type := {
  w_drv : D;
  w_store : window_store;
  w_dedupe : list (string * string);
  w_processed : nat;
  w_failed : nat;
  w_events : list queue_event;
}.

Record worker_config : Type := {
  handlers : list string;
  defaultBackoff : option BackoffPolicy;
  rateLimits : list (string * ResolvedRateLimit);
  rateLimitStore : option StoreOptions;
}.

(** A run of the composed handler: how long it takes, [None] when it never settles,
    and its outcome. *)
Record handler_run : Type := {
  settles_after : option Q;
  outcome : result SerializedError unit;
}.

(** The clock readings of one execution, in their order, and the random number. *)
Record readings : Type := {
  t_rate : Q;
  t_start : Q;
  t_end : Q;
  t_dead : Q;
  rng : Q;
}.

Definition emit (e : queue_event) (w : worker_state) : worker_state :=
  Build_worker_state (w_drv w) (w_store w) (w_dedupe w) (w_processed w) (w_failed w)
    (w_events w ++ [e]).
Definition set_drv (d : D) (w : worker_state) : worker_state :=
  Build_worker_state d (w_store w) (w_dedupe w) (w_processed w) (w_failed w) (w_events w).
Definition set_store (s : window_store) (w : worker_state) : worker_state :=
  Build_worker_state (w_drv w) s (w_dedupe w) (w_processed w) (w_failed w) (w_events w).
Definition count_processed (w : worker_state) : worker_state :=
  Build_worker_state (w_drv w) (w_store w) (w_dedupe w) (S (w_processed w)) (w_failed w)
    (w_events w).
Definition count_failed (w : worker_state) : worker_state :=
  Build_worker_state (w_drv w) (w_store w) (w_dedupe w) (w_processed w) (S (w_failed w))
    (w_events w).

(** The facade's [dedupeRegistryKey] and [releaseDedupeKey] hook. *)
Definition dedupeRegistryKey (queue dedupeKey : string) : string :=
  queue +:+ String (ascii_of_nat 0) dedupeKey.

Definition releaseDedupeKey (queue dedupeKey : string) (jobId : option string)
    (active : list (string * string)) : list (string * string) :=
  let key := dedupeRegistryKey queue dedupeKey in
  match jobId with
  | None => jm_delete key active
  | Some id => if decide (jm_get key active = Some id) then jm_delete key active else active
  end.

Definition releaseDedupe (r : Reservation P) (w : worker_state) : worker_state :=
  match e_dedupeKey (r_envelope r) with
  | Some key =>
      Build_worker_state (w_drv w) (w_store w)
        (releaseDedupeKey (r_queue r) key (Some (e_id (r_envelope r))) (w_dedupe w))
        (w_processed w) (w_failed w) (w_events w)
  | None => w
  end.

Definition buildContext (r : Reservation P) (w : worker_state) : JobExecutionContext :=
  let e := r_envelope r in
  {| ctx_id := e_id e; ctx_type := e_type e; ctx_queue := r_queue r;
     ctx_attempt := qd_attempts (w_drv w) e; ctx_maxAttempts := e_maxAttempts e;
     ctx_enqueuedAt := e_enqueuedAt e; ctx_tenantId := e_tenantId e |}.

Definition admitUnderRateLimit (cfg : worker_config) (r : Reservation P) (now : Q)
    (w : worker_state) : bool * worker_state :=
  match jm_get (r_queue r) (rateLimits cfg), rateLimitStore cfg with
  | Some limit, Some opts =>
      let inWindow := count (r_queue r) now (rl_windowMs limit) (w_store w) in
      if rl_requests limit <=? inWindow
      then
        let e := r_envelope r in
        let d := qd_set_attempts e (qd_attempts (w_drv w) e - 1)%Z (w_drv w) in
        (false, set_drv (qd_nack r (Some (now + rl_windowMs limit)%Q) d) w)
      else (true, set_store (hit opts (r_queue r) now (rl_windowMs limit) (w_store w)).2 w)
  | _, _ => (true, w)
  end.

(** The race of the handler against the timer; a handler that settles at the very
    time of the timeout has lost it.  [None] when nothing settles. *)
Definition runWithTimeout (ctx : JobExecutionContext) (run : handler_run)
    (timeoutMs : option Q) (w : worker_state) :
    option (result SerializedError unit * worker_state) :=
  match timeoutMs, settles_after run with
  | None, None => None
  | None, Some _ => Some (outcome run, w)
  | Some t, settles =>
      let in_time := match settles with Some h => negb (Qle_bool t h) | None => false end in
      if in_time then Some (outcome run, w)
      else Some (Throw {| err_name := "Error";
                          err_message := "Job " +:+ quoted (ctx_type ctx) +:+
                            " exceeded its per-attempt timeout of " +:+
                            number_to_string t +:+ "ms.";
                          err_stack := None |}, emit (JobTimeout ctx t) w)
  end.

Definition deadLetterPermanent (r : Reservation P) (ctx : JobExecutionContext)
    (error : SerializedError) (now : Q) (w : worker_state) : worker_state :=
  let w := set_drv (qd_moveToDeadLetter r error now (w_drv w)) w in
  emit (JobFailed ctx error) (releaseDedupe r (count_failed w)).

Definition handleFailure (cfg : worker_config) (r : Reservation P)
    (ctx : JobExecutionContext) (error : SerializedError) (now dead rng : Q)
    (w : worker_state) : result queue_error worker_state :=
  let attempts := qd_attempts (w_drv w) (r_envelope r) in
  decision ← onFailure (r_envelope r) attempts no_options
               (Some (default DEFAULT_BACKOFF (defaultBackoff cfg))) now rng;
  match decision with
  | Retry runAt =>
      let w := set_drv (qd_nack r (Some runAt) (w_drv w)) w in
      Ok (emit (JobRetry ctx error runAt (qd_attempts (w_drv w) (r_envelope r) + 1)%Z) w)
  | DeadLetter =>
      let w := set_drv (qd_moveToDeadLetter r error dead (w_drv w)) w in
      Ok (emit (JobFailed ctx error) (releaseDedupe r (count_failed w)))
  end.

(** [None] while the handler has not settled. *)
Definition executeReservation (cfg : worker_config) (r : Reservation P)
    (run : handler_run) (t : readings) (w : worker_state) :
    option (result queue_error worker_state) :=
  let '(admitted, w) := admitUnderRateLimit cfg r (t_rate t) w in
  if negb admitted then Some (Ok w)
  else
    let envelope := r_envelope r in
    let ctx := buildContext r w in
    let w := emit (JobStarted ctx) w in
    if decide (e_type envelope ∈ handlers cfg)
    then
      match runWithTimeout ctx run (e_timeoutMs envelope) w with
      | None => None
      | Some (Ok _, w) =>
          let w := count_processed (set_drv (qd_ack r (w_drv w)) w) in
          let w := releaseDedupe r w in
          Some (Ok (emit (JobCompleted ctx (t_end t - t_start t)%Q) w))
      | Some (Throw err, w) => Some (handleFailure cfg r ctx err (t_end t) (t_dead t) (rng t) w)
      end
    else
      Some (Ok (deadLetterPermanent r ctx
        {| err_name := "Error";
           err_message := "No handler registered for job type " +:+
                          quoted (e_type envelope) +:+ ".";
           err_stack := None |} (t_dead t) w)).
End execution.

(** ** The pump *)

Inductive pump_phase : Type := Idle | AwaitReady | AwaitReserve.

(** [promises] are the executions in flight ([inFlightPromises], [inFlight] their
    number); [stopping] is the snapshot each pending [stop()] waits for, [resolved]
    the number of calls of [stop] that have returned. *)
Record pump_state : Type := {
  running : bool;
  phase : pump_phase;
  readyChecked : bool;
  concurrency : nat;
  stopWhenEmpty : bool;
  promises : list nat;
  started : nat;
  stopping : list (list nat);
}.

Definition inFlight (s : pump_state) : nat := length (promises s).

Definition idle_worker (concurrency : nat) (stopWhenEmpty : bool) : pump_state :=
  Build_pump_state false Idle false concurrency stopWhenEmpty [] 0 [].

Definition set_phase (p : pump_phase) (s : pump_state) : pump_state :=
  Build_pump_state (running s) p (readyChecked s) (concurrency s) (stopWhenEmpty s)
    (promises s) (started s) (stopping s).

Definition start (s : pump_state) : pump_state :=
  Build_pump_state true (phase s) (readyChecked s) (concurrency s) (stopWhenEmpty s)
    (promises s) (started s) (stopping s).

(** [stop] waits for the promises in flight when it is called. *)
Definition stop (s : pump_state) : pump_state :=
  Build_pump_state false (phase s) (readyChecked s) (concurrency s) (stopWhenEmpty s)
    (promises s) (started s) (stopping s ++ [promises s]).

(** The loop condition of [pump]. *)
Definition loop_check (s : pump_state) : pump_state :=
  if running s && (inFlight s <? concurrency s) then set_phase AwaitReserve s
  else set_phase Idle s.

Inductive pump_event : Type :=
| Start | Stop
| Tick                      (* a scheduled microtask calls [pump] *)
| DriverReady | DriverFailed  (* [await this.ctx.ready] settles *)
| Reserved | NothingReady     (* [await this.driver.reserve(...)] settles *)
| Finished (job : nat).       (* an execution settles *)

Definition mark_ready (s : pump_state) : pump_state :=
  Build_pump_state (running s) (phase s) true (concurrency s) (stopWhenEmpty s)
    (promises s) (started s) (stopping s).

(** [None] when the event cannot happen in the state. *)
Definition pump_step (s : pump_state) (e : pump_event) : option pump_state :=
  match e, phase s with
  | Start, _ => Some (start s)
  | Stop, _ => Some (stop s)
  | Tick, Idle =>
      if negb (running s) then Some s
      else if readyChecked s then Some (loop_check s)
      else Some (set_phase AwaitReady s)
  | Tick, _ => Some s
  | DriverReady, AwaitReady =>
      let s := mark_ready s in
      Some (if running s then loop_check s else set_phase Idle s)
  | DriverFailed, AwaitReady =>
      Some (Build_pump_state false Idle (readyChecked s) (concurrency s) (stopWhenEmpty s)
              (promises s) (started s) (stopping s))
  | Reserved, AwaitReserve =>
      Some (loop_check
        (Build_pump_state (running s) (phase s) (readyChecked s) (concurrency s)
           (stopWhenEmpty s) (promises s ++ [started s]) (S (started s)) (stopping s)))
  | NothingReady, AwaitReserve =>
      Some (set_phase Idle (if stopWhenEmpty s && (inFlight s =? 0) then stop s else s))
  | Finished job, _ =>
      if decide (job ∈ promises s)
      then Some (Build_pump_state (running s) (phase s) (readyChecked s) (concurrency s)
                   (stopWhenEmpty s) (filter (λ j, j ≠ job) (promises s)) (started s)
                   (stopping s))
      else None
  | _, _ => None
  end.

Fixpoint pump_run (s : pump_state) (es : list pump_event) : option pump_state :=
  match es with
  | [] => Some s
  | e :: es => match pump_step s e with Some s' => pump_run s' es | None => None end
  end.

(** A call of [stop] has returned when none of the promises it waits for is left. *)
Definition stop_resolved (s : pump_state) (snapshot : list nat) : Prop :=
  Forall (λ job, job ∉ promises s) snapshot.

(** ** The pipeline: order and single execution *)

Section middleware_order.
Context {U : Type}.
Implicit Types (c : chain_state U).

Definition in_order c : Prop :=
  (-1 <= lastIndex c)%Z ∧
  invoked c = Z.of_nat <$> seq 0 (Z.to_nat (lastIndex c + 1)).

(** A continuation that keeps the order and goes no further than index [hi]. *)
Definition steps_to (hi : Z) (c c' : chain_state U) : Prop :=
  in_order c' ∧ (lastIndex c <= lastIndex c' <= Z.max (lastIndex c) hi)%Z.

Lemma run_activity_order next hi a : ∀ c lo,
  (∀ c, in_order c → (lo <= lastIndex c)%Z → steps_to hi c (next c).2) →
  in_order c → (lo <= lastIndex c)%Z → steps_to hi c (run_activity next a c).2.
Proof.
  induction a as [r s|s k IH]; intros c lo Hnext Hc Hlo; simpl.
  { split; [exact Hc|]. simpl. lia. }
  pose proof (Hnext (Build_chain_state (lastIndex c) (invoked c) s) Hc Hlo) as Hn.
  destruct (next _) as [r c1]. simpl in *. destruct Hn as [Hc1 Hb1]. simpl in Hb1.
  destruct (IH r (user c1) c1 lo Hnext Hc1 ltac:(lia)) as [Hc2 Hb2].
  split; [done|lia].
Qed.

Lemma invoke_order chain handler : ∀ index c,
  in_order c → (0 <= index)%Z → (index <= lastIndex c + 1)%Z →
  steps_to (index + Z.of_nat (length chain)) c (invoke chain handler index c).2.
Proof.
  induction chain as [|mw chain IH]; intros index c Hc H0 Hi; simpl;
    destruct (index <=? lastIndex c)%Z eqn:E; reflect_bools;
    try (split; [done|simpl; lia]).
  - destruct (handler (user c)) as [r s]. split; simpl; [|lia].
    destruct Hc as [Hlo Hlog]. assert (index = lastIndex c + 1)%Z as -> by lia.
    split; simpl; [lia|]. rewrite Hlog.
    replace (Z.to_nat (lastIndex c + 1 + 1)) with (S (Z.to_nat (lastIndex c + 1))) by lia.
    rewrite seq_S, fmap_app. simpl. do 2 f_equal. lia.
  - set (c1 := Build_chain_state index (invoked c ++ [index]) (user c)).
    assert (index = lastIndex c + 1)%Z as Hidx by lia.
    assert (in_order c1) as Hc1.
    { destruct Hc as [Hlo Hlog]. split; simpl; [lia|]. rewrite Hlog, Hidx.
      replace (Z.to_nat (lastIndex c + 1 + 1)) with (S (Z.to_nat (lastIndex c + 1))) by lia.
      rewrite seq_S, fmap_app. simpl. do 2 f_equal. lia. }
    destruct (run_activity_order (invoke chain handler (index + 1)%Z)
      (index + 1 + Z.of_nat (length chain)) (mw (user c)) c1 index) as [Hc2 Hb2]; [|done|simpl; lia|].
    { intros c' Hc' Hlo'. apply IH; [done|lia|lia]. }
    split; [done|]. simpl in Hb2. lia.
Qed.
End middleware_order.

(** The pipeline runs in registration order, each part at most once.  Whatever the
    middleware do (throw, return early, call [next] any number of times), the indices
    invoked are 0, 1, 2, ... without gap or repetition, so the handler, index
    [length chain], runs at most once and only after every middleware called
    [next]. *)
Theorem middleware_in_order {U} (chain : list (QueueMiddleware U)) (handler : Handler U) (s : U) :
  ∃ n, n <= length chain + 1 ∧
    invoked (composeMiddleware chain handler s).2 = Z.of_nat <$> seq 0 n.
Proof.
  destruct (invoke_order chain handler 0 (Build_chain_state (-1) [] s)) as [[H1 H2] H3];
    [split; simpl; [lia|done]|lia|simpl; lia|].
  eexists. split; [|exact H2]. simpl in H3. unfold composeMiddleware in *. lia.
Qed.

(** ** Executions *)

Section execution_spec.
Context {P D : Type} `{QueueDriverLaws P D}.
Variable number_to_string : Q → string.
Implicit Types (w : worker_state (D := D)) (r : Reservation P).

Lemma releaseDedupe_frame r w :
  let w' := releaseDedupe r w in
  w_drv w' = w_drv w ∧ w_processed w' = w_processed w ∧ w_failed w' = w_failed w ∧
  w_events w' = w_events w.
Proof. unfold releaseDedupe. by destruct (e_dedupeKey _). Qed.

Lemma admit_spec cfg r now w :
  let '(admitted, w') := admitUnderRateLimit cfg r now w in
  w_processed w' = w_processed w ∧ w_failed w' = w_failed w ∧ w_events w' = w_events w ∧
  w_dedupe w' = w_dedupe w ∧
  if admitted then w_drv w' = w_drv w
  else
    ∃ limit opts, jm_get (r_queue r) (rateLimits cfg) = Some limit ∧
      rateLimitStore cfg = Some opts ∧
      rl_requests limit <= count (r_queue r) now (rl_windowMs limit) (w_store w) ∧
      (qd_held r (w_drv w) → qd_jobs (w_drv w') ≡ₚ qd_jobs (w_drv w)) ∧
      qd_attempts (w_drv w') (r_envelope r) = (qd_attempts (w_drv w) (r_envelope r) - 1)%Z.
Proof.
  unfold admitUnderRateLimit.
  destruct (jm_get _ _) as [limit|], (rateLimitStore cfg) as [opts|]; try done.
  destruct (_ <=? _) eqn:E; [|done]. apply Nat.leb_le in E. simpl.
  repeat split. exists limit, opts. repeat split; [done..| |].
  - intros Hh. destruct (set_attempts_law r (r_envelope r)
      (qd_attempts (w_drv w) (r_envelope r) - 1) (w_drv w) Hh) as [Hh' <-].
    by apply nack_law.
  - rewrite nack_attempts_law. apply attempts_law.
Qed.

Lemma runWithTimeout_spec ctx run timeoutMs w :
  match runWithTimeout number_to_string ctx run timeoutMs w with
  | None => timeoutMs = None ∧ settles_after run = None
  | Some (res, w') =>
      w_drv w' = w_drv w ∧ w_processed w' = w_processed w ∧ w_failed w' = w_failed w ∧
      ((res = outcome run ∧ w_events w' = w_events w ∧
        match timeoutMs, settles_after run with
        | Some t, Some h => (h < t)%Q
        | Some _, None => False
        | None, _ => True
        end) ∨
       ∃ t err, res = Throw err ∧ timeoutMs = Some t ∧ w_events w' = w_events w ++ [JobTimeout ctx t] ∧
         match settles_after run with Some h => (t <= h)%Q | None => True end)
  end.
Proof.
  unfold runWithTimeout. destruct timeoutMs as [t|], (settles_after run) as [h|]; simpl.
  - destruct (Qle_bool t h) eqn:E; simpl.
    + repeat split. right. apply Qle_bool_iff in E. eauto 10.
    + repeat split. left. repeat split. apply Qnot_le_lt. intros Hle%Qle_bool_iff. congruence.
  - repeat split. right. eauto 10.
  - repeat split. by left.
  - done.
Qed.

Inductive execution_outcome r w w' : Prop :=
| Completed ctx dur mid :
    w_events w' = w_events w ++ JobStarted ctx :: mid ++ [JobCompleted ctx dur] →
    (qd_held r (w_drv w) → qd_jobs (w_drv w) ≡ₚ e_id (r_envelope r) :: qd_jobs (w_drv w')) →
    w_processed w' = S (w_processed w) → w_failed w' = w_failed w →
    execution_outcome r w w'
| Deferred :
    w_events w' = w_events w →
    (qd_held r (w_drv w) → qd_jobs (w_drv w') ≡ₚ qd_jobs (w_drv w)) →
    w_processed w' = w_processed w → w_failed w' = w_failed w →
    qd_attempts (w_drv w') (r_envelope r) = (qd_attempts (w_drv w) (r_envelope r) - 1)%Z →
    execution_outcome r w w'
| Retried ctx mid err runAt n :
    w_events w' = w_events w ++ JobStarted ctx :: mid ++ [JobRetry ctx err runAt n] →
    (qd_held r (w_drv w) → qd_jobs (w_drv w') ≡ₚ qd_jobs (w_drv w)) →
    w_processed w' = w_processed w → w_failed w' = w_failed w →
    (qd_attempts (w_drv w) (r_envelope r) < e_maxAttempts (r_envelope r))%Z →
    execution_outcome r w w'
| DeadLettered ctx mid err :
    w_events w' = w_events w ++ JobStarted ctx :: mid ++ [JobFailed ctx err] →
    (qd_held r (w_drv w) → qd_jobs (w_drv w') ≡ₚ qd_jobs (w_drv w)) →
    w_processed w' = w_processed w → w_failed w' = S (w_failed w) →
    execution_outcome r w w'.

Lemma handleFailure_spec cfg r ctx err now dead rng w0 w mid :
  w_drv w = w_drv w0 → w_processed w = w_processed w0 →
  w_failed w = w_failed w0 → w_events w = w_events w0 ++ JobStarted ctx :: mid →
  match handleFailure cfg r ctx err now dead rng w with
  | Ok w' => execution_outcome r w0 w'
  | Throw _ =>
      ∃ attempts rng e, computeBackoffDelay attempts
        (default DEFAULT_BACKOFF (or_else (e_backoff (r_envelope r))
           (Some (default DEFAULT_BACKOFF (defaultBackoff cfg))))) rng = Throw e
  end.
Proof.
  intros Hd Hp Hf He. unfold handleFailure, onFailure.
  destruct (_ <=? _)%Z eqn:E; simpl.
  - destruct (releaseDedupe_frame r (count_failed
      (set_drv (qd_moveToDeadLetter r err dead (w_drv w)) w))) as (F1 & F2 & F3 & F4).
    apply (DeadLettered r w0 _ ctx mid err); simpl; rewrite ?F1, ?F2, ?F3, ?F4; simpl; rewrite ?Hd.
    + by rewrite He, <-(assoc_L (++)).
    + by intros Hheld; apply dead_law.
    + done.
    + by rewrite Hf.
  - destruct (computeBackoffDelay _ _ _) as [delay|e] eqn:Eb; simpl; [|by eauto].
    reflect_bools. eapply (Retried r w0 _ ctx mid err); simpl; rewrite ?Hd.
    + by rewrite He, <-(assoc_L (++)).
    + by intros Hheld; apply nack_law.
    + done.
    + done.
    + by rewrite <-Hd.
Qed.

(** C19: What one execution does.  Against any driver that keeps its promises, an execution
    of a reservation ends in one of four ways, each with its events and counters: completed,
    deferred by the rate limit (not started, the attempt given back), retried (only below
    [maxAttempts]) or dead-lettered.  If the lease of the reservation is held when the
    execution acts on the driver, with nothing in between, a completed job leaves the driver
    and in the other three cases the driver holds the same jobs as before, this one
    included; without the lease nothing is said of the jobs ([stale_completions] in
    QueueMemory says what happens).  It fails to end only when the handler never settles and
    the job has no timeout; it throws only on an unreadable backoff duration. *)
Theorem execution_outcomes cfg r run t w :
  match executeReservation number_to_string cfg r run t w with
  | None => e_timeoutMs (r_envelope r) = None ∧ settles_after run = None
  | Some (Ok w') => execution_outcome r w w'
  | Some (Throw _) =>
      ∃ attempts rng e, computeBackoffDelay attempts
        (default DEFAULT_BACKOFF (or_else (e_backoff (r_envelope r))
           (Some (default DEFAULT_BACKOFF (defaultBackoff cfg))))) rng = Throw e
  end.
Proof.
  unfold executeReservation.
  pose proof (admit_spec cfg r (t_rate t) w) as Hadm.
  destruct (admitUnderRateLimit cfg r (t_rate t) w) as [[|] w1];
    destruct Hadm as (Hp & Hf & He & _ & Hd); simpl.
  2: { destruct Hd as (limit & opts & _ & _ & _ & Hj & Ha). apply Deferred; auto. }
  set (ctx := buildContext r w1). case_decide as Hh.
  2: { destruct (releaseDedupe_frame r (count_failed (set_drv (qd_moveToDeadLetter r
         (Build_SerializedError "Error" ("No handler registered for job type " +:+
            quoted (e_type (r_envelope r)) +:+ ".") None) (t_dead t) (w_drv w1))
         (emit (JobStarted ctx) w1)))) as (F1 & F2 & F3 & F4).
       eapply (DeadLettered r w _ ctx []); simpl; rewrite ?F1, ?F2, ?F3, ?F4; simpl; rewrite ?Hd.
       - by rewrite He, <-(assoc_L (++)).
       - by intros Hheld; apply dead_law.
       - done.
       - by rewrite Hf. }
  pose proof (runWithTimeout_spec ctx run (e_timeoutMs (r_envelope r)) (emit (JobStarted ctx) w1)) as Hr.
  destruct (runWithTimeout _ _ _ _ _) as [[[[]|err] w2]|]; [| |done];
    destruct Hr as (Hd2 & Hp2 & Hf2 & He2); simpl in *.
  - destruct (releaseDedupe_frame r (count_processed (set_drv (qd_ack r (w_drv w2)) w2)))
      as (F1 & F2 & F3 & F4).
    destruct He2 as [(_ & He2 & _)|(? & ? & ? & _)]; [|done].
    eapply (Completed r w _ ctx _ []); simpl; rewrite ?F1, ?F2, ?F3, ?F4; simpl; rewrite ?Hd2, ?Hd.
    + by rewrite He2, He, <-(assoc_L (++)).
    + by intros Hheld; apply ack_law.
    + by rewrite Hp2, Hp.
    + by rewrite Hf2.
  - assert (∃ mid, w_events w2 = w_events w ++ JobStarted ctx :: mid) as [mid Hmid].
    { destruct He2 as [(_ & He2 & _)|(t0 & ? & _ & _ & He2 & _)]; rewrite He2, He, <-?(assoc_L (++));
        simpl; eauto. }
    apply (handleFailure_spec cfg r ctx err _ _ _ w w2 mid); [congruence..|done].
Qed.
End execution_spec.

Definition sample_reservation : Reservation unit :=
  Build_Reservation (sample_job "a" 0 0 0) "t" "q" (5 + 10).
Definition sample_worker : worker_state :=
  Build_worker_state (reserve ["q"] 10 5 "t" (enqueue "q" (sample_job "a" 0 0 0) empty_driver)).2
    [] [] 0 0 [].
Definition sample_config : worker_config := Build_worker_config ["mail"] None [] None.
Definition sample_execution : option (result queue_error worker_state) :=
  executeReservation (λ _, "n") sample_config sample_reservation
    (Build_handler_run (Some 3%Q) (Ok tt)) (Build_readings 5 5 8 8 0) sample_worker.

Lemma execution_outcomes_witness :
  qd_held sample_reservation (w_drv sample_worker) ∧
  match sample_execution with
  | Some (Ok w') => execution_outcome sample_reservation sample_worker w'
  | _ => False
  end.
Proof.
  split; [eexists; split; vm_compute; reflexivity|].
  pose proof (execution_outcomes (λ _, "n") sample_config sample_reservation
    (Build_handler_run (Some 3%Q) (Ok tt)) (Build_readings 5 5 8 8 0) sample_worker) as H.
  fold sample_execution in H. destruct sample_execution as [[w'|]|] eqn:E; [exact H| |];
    vm_compute in E; discriminate E.
Defined.

(** ** The pump: the concurrency bound, and what [stop] waits for *)

Record pump_ok (s : pump_state) : Prop := {
  pump_bound : inFlight s <= concurrency s;
  pump_room : phase s = AwaitReserve → inFlight s < concurrency s;
  pump_ids : NoDup (promises s);
  pump_fresh : Forall (λ j, j < started s) (promises s);
}.

Lemma loop_check_ok s :
  inFlight s <= concurrency s → NoDup (promises s) → Forall (λ j, j < started s) (promises s) →
  pump_ok (loop_check s).
Proof.
  intros. unfold loop_check. destruct (running s && _) eqn:E; [|by split]. reflect_bools. by split.
Qed.

Lemma reserved_ok s :
  pump_ok s → phase s = AwaitReserve →
  pump_ok (loop_check
    (Build_pump_state (running s) AwaitReserve (readyChecked s) (concurrency s)
       (stopWhenEmpty s) (promises s ++ [started s]) (S (started s)) (stopping s))).
Proof.
  intros [Hb Hr Hn Hf] Hph. unfold inFlight in *. apply loop_check_ok; unfold inFlight; simpl.
  - rewrite length_app. simpl. specialize (Hr Hph). lia.
  - apply NoDup_app. split; [done|]. split; [|apply NoDup_singleton].
    intros j Hj ->%list_elem_of_singleton. rewrite Forall_forall in Hf. specialize (Hf _ Hj). lia.
  - apply Forall_app. split; [|repeat constructor; lia]. eapply Forall_impl; [exact Hf|]. simpl. lia.
Qed.

Lemma finished_ok s job ph :
  pump_ok s → phase s = ph →
  pump_ok (Build_pump_state (running s) ph (readyChecked s) (concurrency s)
    (stopWhenEmpty s) (filter (λ j, j ≠ job) (promises s)) (started s) (stopping s)).
Proof.
  intros [Hb Hr Hn Hf] <-. pose proof (length_filter (λ j, j ≠ job) (promises s)).
  unfold inFlight in *. split; unfold inFlight; simpl.
  - lia.
  - intros Hp. specialize (Hr Hp). lia.
  - by apply NoDup_filter.
  - rewrite Forall_forall in *. intros x Hx. apply list_elem_of_filter in Hx as [_ Hx]. auto.
Qed.

Lemma pump_step_ok s e s' : pump_ok s → pump_step s e = Some s' → pump_ok s'.
Proof.
  intros Hok Hs. pose proof Hok as [Hb Hr Hn Hf]. unfold pump_step in Hs.
  destruct e, (phase s) eqn:Hph; repeat case_match; simplify_eq;
    auto using reserved_ok, finished_ok;
    try (by apply loop_check_ok); by split; simpl; congruence || auto.
Qed.

Lemma pump_step_concurrency s e s' : pump_step s e = Some s' → concurrency s' = concurrency s.
Proof.
  unfold pump_step, loop_check. intros Hs.
  destruct e, (phase s); repeat case_match; by simplify_eq.
Qed.

Lemma pump_run_ok es : ∀ s s', pump_ok s → pump_run s es = Some s' →
  pump_ok s' ∧ concurrency s' = concurrency s.
Proof.
  induction es as [|e es IH]; intros s s' Hok; simpl; [by intros [= <-]|].
  destruct (pump_step s e) as [s1|] eqn:Hs; [|done]. intros Hrun.
  destruct (IH s1 s' (pump_step_ok s e s1 Hok Hs) Hrun) as [? ->].
  by rewrite (pump_step_concurrency s e s1 Hs).
Qed.

(** Never more than [concurrency] executions at a time.  In every run of the pump,
    whatever the interleaving of wake-ups, reservations, completions, [start] and
    [stop], the executions in flight number at most [concurrency], each is one of
    the reservations made, and a reservation is outstanding only while there is room
    for its job. *)
Theorem pump_concurrency_bound conc stop_empty es s :
  pump_run (idle_worker conc stop_empty) es = Some s →
  inFlight s <= conc ∧ NoDup (promises s) ∧ Forall (λ j, j < started s) (promises s) ∧
  (phase s = AwaitReserve → inFlight s < conc).
Proof.
  intros Hrun. destruct (pump_run_ok es (idle_worker conc stop_empty) s) as [[] Hc]; [|done|].
  - split; simpl; [unfold inFlight; simpl; lia|done|by apply NoDup_nil_2|constructor].
  - simpl in Hc. by rewrite Hc in *.
Qed.

Definition sample_events : list pump_event :=
  [Start; Tick; DriverReady; Reserved; Reserved; Tick; Finished 0; Tick; Reserved].

Lemma pump_concurrency_bound_witness :
  let s := Build_pump_state true Idle true 2 false [1; 2] 3 [] in
  pump_run (idle_worker 2 false) sample_events = Some s ∧ inFlight s <= 2.
Proof.
  assert (pump_run (idle_worker 2 false) sample_events =
    Some (Build_pump_state true Idle true 2 false [1; 2] 3 [])) as H by (vm_compute; reflexivity).
  split; [exact H|]. apply (pump_concurrency_bound 2 false sample_events _ H).
Defined.

(** While stopped, only an outstanding reservation can still start a job. *)
Definition may_start (s : pump_state) : nat :=
  started s + match phase s with AwaitReserve => 1 | _ => 0 end.

Lemma loop_check_stopped s : running s = false → loop_check s = set_phase Idle s.
Proof. unfold loop_check. by intros ->. Qed.

Lemma stopped_step s e s1 :
  running s = false → e ≠ Start → pump_step s e = Some s1 →
  running s1 = false ∧ may_start s1 <= may_start s.
Proof.
  intros Hrun He Hs. unfold pump_step in Hs. unfold may_start.
  destruct e; [done|..].
  - simplify_eq. split; [done|simpl; lia].
  - rewrite Hrun in Hs. destruct (phase s) eqn:E; simplify_eq/=; rewrite ?E; split; auto; lia.
  - destruct (phase s) eqn:E; [done| |done]. simpl in Hs. rewrite Hrun in Hs.
    simplify_eq. split; [done|simpl; lia].
  - destruct (phase s) eqn:E; [done| |done]. simplify_eq. split; [done|simpl; lia].
  - destruct (phase s) eqn:E; [done..|]. rewrite loop_check_stopped in Hs by done.
    simplify_eq. split; [done|simpl; lia].
  - destruct (phase s) eqn:E; [done..|]. simplify_eq.
    destruct (stopWhenEmpty s && _); (split; [done|simpl; lia]).
  - destruct (decide (job ∈ promises s)); [|by destruct (phase s)].
    destruct (phase s) eqn:E; simplify_eq; simpl; rewrite ?E; (split; [done|lia]).
Qed.

Lemma stopped_run es : ∀ s s',
  running s = false → Forall (λ e, e ≠ Start) es → pump_run s es = Some s' →
  may_start s' <= may_start s.
Proof.
  induction es as [|e es IH]; intros s s' Hrun Hes; simpl; [by intros [= <-]|].
  apply Forall_cons in Hes as [He Hes].
  destruct (pump_step s e) as [s1|] eqn:Hs; [|done]. intros Hr.
  destruct (stopped_step s e s1 Hrun He Hs) as [Hn Hle].
  pose proof (IH s1 s' Hn Hes Hr). lia.
Qed.

(** [stop] does not drain a reservation under way.  Once stopped and not started
    again, a worker starts at most one more job; but it may start that one after the
    promise of [stop()] has resolved: [stop] waits for the executions in flight when
    it is called, and a [reserve] outstanding at that time still hands its job to
    [executeReservation]. *)
Theorem stop_leaves_one_start :
  (∀ s es s', running s = false → Forall (λ e, e ≠ Start) es → pump_run s es = Some s' →
     started s' <= S (started s)) ∧
  (∃ s s', pump_run (idle_worker 1 false) [Start; Tick; DriverReady; Stop] = Some s ∧
     running s = false ∧ inFlight s = 0 ∧ Forall (stop_resolved s) (stopping s) ∧
     pump_step s Reserved = Some s' ∧ running s' = false ∧ inFlight s' = 1).
Proof.
  split.
  - intros s es s' Hr Hes Hrun. pose proof (stopped_run es s s' Hr Hes Hrun) as Hm.
    unfold may_start in Hm. destruct (phase s), (phase s'); lia.
  - do 2 eexists. split; [reflexivity|]. repeat split. repeat constructor.
Qed.
