(* ===== verification/QueueFacade.v ===== *)
(** * The queue facade: dispatch, deduplication, the dead-letter operations

    Models src/packages/queue/src/facade.ts over the memory driver: [dispatch] with its
    dedupe registry, the resolution of the due time, the dead-letter API and the rate
    limit configuration.  Handlers, listeners and the life cycle of workers and timers
    are not modelled.  The registry is shared with the workers, which release a key when its job
    is completed or dead-lettered ([QueueWorker.releaseDedupe]). *)

From Stdlib Require Import QArith.
From stdpp Require Import pretty.
From S2P Require Import Prelude JsMap BinaryHeap QueueJob QueueMemory RateStore QueueWorker.

Open Scope nat_scope.

Section facade.
Context {P : Type}.

Record QueueFacade : Type := {
  fc_driver : MemoryDriver P;
  activeDedupeKeys : list (string * string);
  fc_seq : Z;
  dispatchCount : nat;
}.

Definition new_facade : QueueFacade :=
  {| fc_driver := empty_driver; activeDedupeKeys := []; fc_seq := 0%Z; dispatchCount := 0 |}.

Definition with_driver (d : MemoryDriver P) (f : QueueFacade) : QueueFacade :=
  {| fc_driver := d; activeDedupeKeys := activeDedupeKeys f; fc_seq := fc_seq f;
     dispatchCount := dispatchCount f |}.
Definition with_keys (keys : list (string * string)) (f : QueueFacade) : QueueFacade :=
  {| fc_driver := fc_driver f; activeDedupeKeys := keys; fc_seq := fc_seq f;
     dispatchCount := dispatchCount f |}.

(** [this.seq++]. *)
Definition nextSeq (f : QueueFacade) : Z * QueueFacade :=
  (fc_seq f, {| fc_driver := fc_driver f; activeDedupeKeys := activeDedupeKeys f;
                fc_seq := (fc_seq f + 1)%Z; dispatchCount := dispatchCount f |}).

Definition count_dispatch (f : QueueFacade) : QueueFacade :=
  {| fc_driver := fc_driver f; activeDedupeKeys := activeDedupeKeys f; fc_seq := fc_seq f;
     dispatchCount := dispatchCount f + 1 |}.

(** What one dispatch takes from outside: the identity and the id of the new envelope,
    and the clock readings for [enqueuedAt], the delay and the comparison. *)
Record dispatch_inputs : Type := {
  di_ref : nat;
  di_uuid : string;
  di_built : Q;
  di_due : Q;
  di_now : Q;
}.

Definition resolveRunAt (merged : JobOptions) (now : Q) : result queue_error (option Q) :=
  match o_runAt merged with
  | Some t => Ok (Some t)
  | None =>
      match o_delay merged with
      | Some delay => delayMs ← parseDuration delay; Ok (Some (now + delayMs)%Q)
      | None => Ok None
      end
  end.

Definition enqueueEnvelope (queue : string) (envelope : JobEnvelope P) (merged : JobOptions)
    (inputs : dispatch_inputs) (d : MemoryDriver P) : result queue_error (MemoryDriver P) :=
  runAt ← resolveRunAt merged (di_due inputs);
  match runAt with
  | Some t =>
      if Qle_bool t (di_now inputs) then Ok (enqueue queue envelope d)
      else Ok (enqueueDelayed queue envelope t d)
  | None => Ok (enqueue queue envelope d)
  end.

Definition with_queue (queue : option string) (o : JobOptions) : JobOptions :=
  {| o_queue := queue; o_delay := o_delay o; o_runAt := o_runAt o; o_priority := o_priority o;
     o_maxAttempts := o_maxAttempts o; o_retries := o_retries o; o_backoff := o_backoff o;
     o_timeout := o_timeout o; o_dedupeKey := o_dedupeKey o |}.

(** Build the envelope and enqueue it; the sequence number is used up even when that
    throws. *)
Definition build_and_enqueue (queue : string) (job : Job P) (resolvedOptions merged : JobOptions)
    (inputs : dispatch_inputs) (reserve_key : JobEnvelope P → QueueFacade → QueueFacade)
    (release_key : JobEnvelope P → QueueFacade → QueueFacade) (f : QueueFacade) :
    result queue_error string * QueueFacade :=
  let '(seq, f) := nextSeq f in
  match buildEnvelope job resolvedOptions (di_ref inputs) (di_uuid inputs) (di_built inputs)
          seq with
  | Throw e => (Throw e, f)
  | Ok envelope =>
      let f := reserve_key envelope f in
      match enqueueEnvelope queue envelope merged inputs (fc_driver f) with
      | Throw e => (Throw e, release_key envelope f)
      | Ok d => (Ok (e_id envelope), with_driver d f)
      end
  end.

Definition dispatch (defaultQueue : option string) (job : Job P) (options : JobOptions)
    (inputs : dispatch_inputs) (f : QueueFacade) : result queue_error string * QueueFacade :=
  let f := count_dispatch f in
  let merged := merge_options (j_options job) options in
  let queue := default (default DEFAULT_QUEUE defaultQueue) (o_queue merged) in
  let resolvedOptions :=
    match o_queue merged, defaultQueue with
    | None, Some q => with_queue (Some q) options
    | _, _ => options
    end in
  match o_dedupeKey merged with
  | Some dedupeKey =>
      let key := dedupeRegistryKey queue dedupeKey in
      match jm_get key (activeDedupeKeys f) with
      | Some existingId => (Ok existingId, f)
      | None =>
          build_and_enqueue queue job resolvedOptions merged inputs
            (λ envelope f, with_keys (jm_set key (e_id envelope) (activeDedupeKeys f)) f)
            (λ envelope f, with_keys (releaseDedupeKey queue dedupeKey (Some (e_id envelope))
                                        (activeDedupeKeys f)) f) f
      end
  | None =>
      build_and_enqueue queue job resolvedOptions merged inputs (λ _ f, f) (λ _ f, f) f
  end.

(** ** Dead letters *)

(** A new object with [attempts] 0; [ref] is its identity. *)
Definition rebuildEnvelope (record : DeadLetterRecord P) (ref : nat) (seq : Z) : JobEnvelope P :=
  {| e_ref := ref; e_id := dl_id record; e_type := dl_type record; e_queue := dl_queue record;
     e_payload := dl_payload record; e_priority := DEFAULT_PRIORITY;
     e_maxAttempts := dl_maxAttempts record; e_backoff := dl_backoff record;
     e_timeoutMs := None; e_enqueuedAt := dl_enqueuedAt record; e_seq := seq;
     e_dedupeKey := None; e_tenantId := None |}.

(** [None] when no record has the id. *)
Definition retry_record (jobId : string) (ref : nat) (f : QueueFacade) : bool * QueueFacade :=
  let '(record, d) := removeDeadLetter jobId (fc_driver f) in
  match record with
  | None => (false, with_driver d f)
  | Some record =>
      let '(seq, f) := nextSeq (with_driver d f) in
      (true, with_driver (enqueue (dl_queue record) (rebuildEnvelope record ref seq)
                            (fc_driver f)) f)
  end.

Definition retry (jobId : string) (ref : nat) (f : QueueFacade) : QueueFacade :=
  (retry_record jobId ref f).2.

Definition DEFAULT_DEAD_LETTER_LIST_LIMIT : Z := 9007199254740991.

(** [refs] are the identities of the new envelopes. *)
Fixpoint retry_each (records : list (DeadLetterRecord P)) (refs : nat → nat) (n : nat)
    (f : QueueFacade) : nat * QueueFacade :=
  match records with
  | [] => (0, f)
  | record :: records =>
      let '(did, f) := retry_record (dl_id record) (refs n) f in
      let '(m, f) := retry_each records refs (n + 1) f in
      (if did : bool then m + 1 else m, f)
  end.

Definition retryAll (queue : option string) (refs : nat → nat) (f : QueueFacade) :
    nat * QueueFacade :=
  retry_each (listDeadLetters queue DEFAULT_DEAD_LETTER_LIST_LIMIT (fc_driver f)) refs 0 f.

Definition flush (queue : option string) (f : QueueFacade) : Z * QueueFacade :=
  let '(n, d) := flushDeadLetters queue (fc_driver f) in (n, with_driver d f).

Definition list_dead (queue : option string) (limit : option Z) (f : QueueFacade) :
    list (DeadLetterRecord P) :=
  listDeadLetters queue (default DEFAULT_DEAD_LETTER_LIST_LIMIT limit) (fc_driver f).

(** ** A worker of the facade *)

(** Execute a reservation with the facade's driver and registry. *)
Definition execute (number_to_string : Q → string) (cfg : worker_config)
    (r : Reservation P) (run : handler_run) (t : readings) (store : window_store)
    (f : QueueFacade) : QueueFacade :=
  match executeReservation number_to_string cfg r run t
          (Build_worker_state (fc_driver f) store (activeDedupeKeys f) 0 0 []) with
  | Some (Ok w) => with_keys (w_dedupe w) (with_driver (w_drv w) f)
  | _ => f
  end.
End facade.

Arguments QueueFacade : clear implicits.

(** [resolveRateLimits]. *)
Fixpoint resolve_limits (entries : list (string * (nat * duration))) :
    result queue_error (list (string * ResolvedRateLimit)) :=
  match entries with
  | [] => Ok []
  | (queue, (requests, window)) :: entries =>
      windowMs ← parseDuration window;
      rest ← resolve_limits entries;
      Ok ((queue, {| rl_requests := requests; rl_windowMs := windowMs |}) :: rest)
  end.
Definition resolveRateLimits (rateLimits : option (list (string * (nat * duration)))) :
    result queue_error (option (list (string * ResolvedRateLimit))) :=
  match rateLimits with
  | None => Ok None
  | Some entries => Some <$> resolve_limits entries
  end.

(** ** Every job is stored under its own queue *)

Section placement.
Context {P : Type}.
Implicit Types (d : MemoryDriver P) (e : JobEnvelope P).

Record placed d : Prop := {
  placed_ready : ∀ q e, e ∈ readyHeap q d → e_queue e = q;
  placed_delayed : ∀ q x, x ∈ delayedHeap q d → e_queue (d_envelope x) = q;
  placed_leased : ∀ token l, jm_get token (reserved d) = Some l →
    e_queue (l_envelope l) = l_queue l;
}.

Lemma placed_push_ready e d : placed d → placed (push_ready (e_queue e) e d).
Proof.
  intros [Hr Hd Hl]. split; [|done..]. intros q x. rewrite readyHeap_push.
  case_decide as Hq; [|by apply Hr]. subst q. rewrite push_Permutation.
  intros [->|Hx]%elem_of_cons; [done|]. by apply Hr.
Qed.

Lemma placed_push_delayed x d :
  placed d → placed (push_delayed (e_queue (d_envelope x)) x d).
Proof.
  intros [Hr Hd Hl]. split; [done| |done]. intros q y. unfold push_delayed.
  rewrite delayedHeap_set. case_decide as Hq; [|by apply Hd]. subst q.
  rewrite push_Permutation. intros [->|Hx]%elem_of_cons; [done|]. by apply Hd.
Qed.

Lemma placed_delete_lease token d :
  driver_ok d → placed d → placed (set_reserved d (jm_delete token (reserved d))).
Proof.
  intros Hok [Hr Hd Hl]. split; [done..|]. intros t l Ht. apply (Hl t).
  by apply (jm_get_delete_sub _ token); [apply Hok|].
Qed.

Lemma placed_reclaim now d : driver_ok d → placed d → placed (reclaimExpiredLeases now d).
Proof.
  intros Hok [Hr Hd Hl].
  destruct (reclaim_spec now d Hok) as (Hres & Hdel & _ & _ & Hready). split.
  - intros q e. rewrite Hready. intros [He|He]%elem_of_app; [by apply Hr|].
    unfold expired_jobs in He. apply list_elem_of_fmap in He as (l & -> & Hin).
    apply list_elem_of_filter in Hin as [<- Hin].
    apply list_elem_of_fmap in Hin as ([t l'] & -> & Hin).
    apply list_elem_of_filter in Hin as [_ Hin]. apply (Hl t). apply jm_elem_get; [apply Hok|done].
  - intros q x. unfold delayedHeap. rewrite Hdel. apply Hd.
  - intros t l. rewrite Hres. intros Ht. apply (Hl t).
    by apply jm_get_filter_sub in Ht; [|apply Hok].
Qed.

Lemma placed_reserve queues vis now token d :
  driver_ok d → placed d → placed (reserve queues vis now token d).2.
Proof.
  intros Hok Hp. pose proof (placed_reclaim now d Hok Hp) as Hp1.
  destruct (reserve_cases queues vis now token d Hok)
    as [[_ ->]|(q & e & rest & _ & Hperm & _ & _ & ->)]; [done|]. cbn [snd].
  set (d1 := reclaimExpiredLeases now d) in *. destruct Hp1 as [Hr Hd Hl]. split.
  - intros q' x. change (readyHeap q' _) with (readyHeap q' (set_ready d1 (jm_set q rest (ready d1)))).
    rewrite readyHeap_set. case_decide as Hq; [|by apply Hr]. subst q'. intros Hx.
    apply Hr. rewrite Hperm. by right.
  - done.
  - intros t l. simpl. destruct (decide (t = token)) as [->|Hne].
    + rewrite jm_get_set_eq. intros [= <-]. simpl. apply Hr. rewrite Hperm. left.
    + rewrite jm_get_set_ne by done. apply Hl.
Qed.

Lemma placed_promote now d : driver_ok d → placed d → placed (promoteDue now d).2.
Proof.
  intros Hok [Hr Hd Hl].
  pose proof (promote_walk now (delayed d) 0 d [] eq_refl (ok_delayed_keys d Hok)) as Hw.
  unfold promoteDue. destruct (foldl _ _ _) as [n d']. cbn [snd].
  destruct Hw as (Hdel & Hres & _ & _ & _ & Hready).
  assert (∀ q x, x ∈ heap_due now (delayedHeap q d) ++ heap_rest now (delayedHeap q d) →
    e_queue (d_envelope x) = q) as Hsplit.
  { intros q x Hx. apply Hd. unfold heap_due, heap_rest in Hx.
    pose proof (drain_while_spec compareDelayed (due now) (delayedHeap q d)
      (due_down_closed now) (ok_delayed d Hok q)) as Hspec.
    destruct (drain_while _ _ _) as [dr rest]. cbn [fst snd] in Hx.
    destruct Hspec as [-> _]. done. }
  split.
  - intros q e. rewrite Hready. intros [He|He]%elem_of_app; [by apply Hr|].
    rewrite due_jobs_get in He by apply Hok. apply list_elem_of_fmap in He as (x & -> & Hx).
    apply Hsplit. apply elem_of_app. by left.
  - intros q x. unfold delayedHeap. rewrite Hdel. simpl.
    rewrite (jm_get_fmap (heap_rest now)). unfold delayedHeap in Hsplit.
    destruct (jm_get q (delayed d)) as [h|] eqn:Hq; simpl; [|by intros Hx%elem_of_nil].
    intros Hx. apply Hsplit. rewrite Hq. apply elem_of_app. by right.
  - intros t l. rewrite Hres. apply Hl.
Qed.
End placement.

(** ** One live job for each dedupe key *)

Section dedupe.
Context {P : Type} (number_to_string : Q → string).
Implicit Types (d : MemoryDriver P) (f : QueueFacade P) (r : Reservation P).

(** The registry entry an envelope stands for. *)
Definition dedupe_entry (e : JobEnvelope P) : option (string * string) :=
  (λ key, (dedupeRegistryKey (e_queue e) key, e_id e)) <$> e_dedupeKey e.

(** The entries of the jobs that are ready, delayed or leased. *)
Definition live_entries d : list (string * string) :=
  omap id (items dedupe_entry (λ _, None) d).

(** The worker's reservation still has its lease. *)
Definition holds_lease r d : Prop :=
  ∃ l, jm_get (r_token r) (reserved d) = Some l ∧ l_envelope l = r_envelope r ∧
    l_queue l = r_queue r.

(** The registry [active] knows every live job that has a key, and no two of them share
    one. *)
Record registry_ok d (active : list (string * string)) : Prop := {
  ro_driver : driver_ok d;
  ro_placed : placed d;
  ro_wf : jm_wf active;
  ro_unique : NoDup (live_entries d).*1;
  ro_known : ∀ key jobId, (key, jobId) ∈ live_entries d → jm_get key active = Some jobId;
}.

Lemma live_entries_same d d' :
  items dedupe_entry (λ _, None) d' ≡ₚ items dedupe_entry (λ _, None) d →
  live_entries d' ≡ₚ live_entries d.
Proof. unfold live_entries. by intros ->. Qed.

(** A step that keeps the jobs and the registry. *)
Lemma registry_same d d' active :
  registry_ok d active → driver_ok d' → placed d' →
  items dedupe_entry (λ _, None) d' ≡ₚ items dedupe_entry (λ _, None) d →
  registry_ok d' active.
Proof.
  intros [_ _ Hwf Hu Hk] Hd Hp Hi%live_entries_same. split; [done..| |].
  - by rewrite Hi.
  - intros key jobId. rewrite Hi. apply Hk.
Qed.

(** A job that leaves takes its key with it. *)
Lemma registry_release d d' active r :
  registry_ok d active → driver_ok d' → placed d' → r_queue r = e_queue (r_envelope r) →
  items dedupe_entry (λ _, None) d ≡ₚ
    dedupe_entry (r_envelope r) :: items dedupe_entry (λ _, None) d' →
  registry_ok d' (match e_dedupeKey (r_envelope r) with
                  | Some key => releaseDedupeKey (r_queue r) key (Some (e_id (r_envelope r))) active
                  | None => active
                  end).
Proof.
  intros [_ _ Hwf Hu Hk] Hd Hp Hq Hi. unfold dedupe_entry at 2 in Hi.
  assert (live_entries d ≡ₚ option_list (dedupe_entry (r_envelope r)) ++ live_entries d') as Hl.
  { unfold live_entries. rewrite Hi. unfold dedupe_entry.
    by destruct (e_dedupeKey (r_envelope r)). }
  unfold dedupe_entry in Hl. destruct (e_dedupeKey (r_envelope r)) as [key|]; simpl in Hl.
  2: { split; [done..|by rewrite <-Hl|]. intros k j. rewrite <-Hl. apply Hk. }
  rewrite Hl in Hu. csimpl in Hu. apply NoDup_cons in Hu as [Hni Hu].
  unfold releaseDedupeKey. rewrite Hq. case_decide as Hact.
  - split; [done..|by apply jm_delete_wf|done|]. intros k j Hin.
    rewrite jm_get_delete_ne; [apply Hk; rewrite Hl; by right|].
    intros ->. apply Hni. apply list_elem_of_fmap. by exists (dedupeRegistryKey (e_queue (r_envelope r)) key, j).
  - destruct Hact. apply Hk. rewrite Hl. left.
Qed.

Lemma holds_queue r d : placed d → holds_lease r d → r_queue r = e_queue (r_envelope r).
Proof. intros Hp (l & Hl & <- & <-). symmetry. by eapply placed_leased. Qed.

Lemma placed_ack r d : driver_ok d → placed d → placed (ack r d).
Proof. apply placed_delete_lease. Qed.

Lemma placed_nack r runAt d :
  driver_ok d → placed d → holds_lease r d → placed (nack r runAt d).
Proof.
  intros Hok Hp Hh. pose proof (holds_queue r d Hp Hh) as Hq.
  pose proof (placed_delete_lease (r_token r) d Hok Hp) as Hp1.
  unfold nack. destruct (negb _); [done|]. rewrite Hq. destruct runAt.
  - by apply (placed_push_delayed {| d_envelope := r_envelope r; d_runAt := _ |}).
  - by apply placed_push_ready.
Qed.

Lemma placed_set_dead d m : placed d → placed (set_dead d m).
Proof. by intros []. Qed.
Lemma placed_dead r err now d : driver_ok d → placed d → placed (moveToDeadLetter r err now d).
Proof. intros Hok Hp. by apply placed_set_dead, placed_delete_lease. Qed.

Lemma live_set_dead d m :
  omap id (items dedupe_entry (λ _, None) (set_dead d m)) = live_entries d.
Proof.
  unfold live_entries, items. rewrite !omap_app. do 3 f_equal.
  transitivity (@nil (string * string)).
  - generalize (all_dead (set_dead d m)). induction l; simpl; done.
  - generalize (all_dead d). induction l; simpl; done.
Qed.

Lemma registry_set_dead d m active :
  registry_ok d active → driver_ok (set_dead d m) → registry_ok (set_dead d m) active.
Proof.
  intros [Hd Hp Hwf Hu Hk] Hd'. split; [done|by apply placed_set_dead|done|..];
    unfold live_entries at 1; rewrite live_set_dead; done.
Qed.

(** ** What dispatch does *)

(** Enqueue under the envelope's own queue. *)
Definition enqueued (e : JobEnvelope P) d d' : Prop :=
  d' = push_ready (e_queue e) e d ∨
  ∃ runAt, d' = push_delayed (e_queue e) {| d_envelope := e; d_runAt := runAt |} d.

Lemma enqueueEnvelope_enqueued queue e merged inputs d d' :
  queue = e_queue e → enqueueEnvelope queue e merged inputs d = Ok d' → enqueued e d d'.
Proof.
  intros ->. unfold enqueueEnvelope. destruct (resolveRunAt _ _) as [[t|]|err]; simpl; [|..|done].
  - destruct (Qle_bool _ _); intros [= <-]; [by left|right; by exists t].
  - intros [= <-]. by left.
Qed.

Lemma enqueued_items e d d' :
  driver_ok d → placed d → enqueued e d d' →
  driver_ok d' ∧ placed d' ∧
  items dedupe_entry (λ _, None) d' ≡ₚ dedupe_entry e :: items dedupe_entry (λ _, None) d.
Proof.
  intros Hok Hp [->|[runAt ->]].
  - split; [by apply push_ready_ok|]. split; [by apply placed_push_ready|]. apply jobs_push_ready.
  - split; [by apply push_delayed_ok|].
    split; [by apply (placed_push_delayed {| d_envelope := e; d_runAt := runAt |})|].
    apply (jobs_push_delayed (e_queue e) {| d_envelope := e; d_runAt := runAt |}).
Qed.

(** A new job with a key that the registry did not know. *)
Lemma registry_enqueue_key d d' active e key :
  registry_ok d active → e_dedupeKey e = Some key →
  jm_get (dedupeRegistryKey (e_queue e) key) active = None → enqueued e d d' →
  registry_ok d' (jm_set (dedupeRegistryKey (e_queue e) key) (e_id e) active).
Proof.
  intros [Hok Hp Hwf Hu Hk] Hkey Hnone Henq.
  destruct (enqueued_items e d d' Hok Hp Henq) as (Hok' & Hp' & Hi).
  set (K := dedupeRegistryKey _ _) in *.
  assert (live_entries d' ≡ₚ (K, e_id e) :: live_entries d) as Hl.
  { unfold live_entries. rewrite Hi. unfold dedupe_entry at 1. by rewrite Hkey. }
  assert (∀ j, (K, j) ∉ live_entries d) as Hfresh.
  { intros j Hin. apply Hk in Hin. congruence. }
  split; [done..|by apply jm_set_wf| |].
  - rewrite Hl. csimpl. constructor; [|done].
    intros Hin. apply list_elem_of_fmap in Hin as ([k j] & Heq & Hin). simpl in Heq. subst k.
    by apply (Hfresh j).
  - intros k j. rewrite Hl. intros [Heq|Hin]%elem_of_cons.
    + injection Heq as -> ->. apply jm_get_set_eq.
    + rewrite jm_get_set_ne; [by apply Hk|]. intros ->. by apply (Hfresh j).
Qed.

Lemma registry_enqueue_plain d d' active e :
  registry_ok d active → e_dedupeKey e = None → enqueued e d d' → registry_ok d' active.
Proof.
  intros [Hok Hp Hwf Hu Hk] Hkey Henq.
  destruct (enqueued_items e d d' Hok Hp Henq) as (Hok' & Hp' & Hi).
  assert (live_entries d' ≡ₚ live_entries d) as Hl.
  { unfold live_entries. rewrite Hi. unfold dedupe_entry at 1. by rewrite Hkey. }
  split; [done..|by rewrite Hl|]. intros k j. rewrite Hl. apply Hk.
Qed.

(** The queue a dispatch resolves, and the options its envelope is built from. *)
Definition dispatch_queue (defaultQueue : option string) (job : Job P) (options : JobOptions) :
    string :=
  default (default DEFAULT_QUEUE defaultQueue) (o_queue (merge_options (j_options job) options)).
Definition resolved_options (defaultQueue : option string) (job : Job P)
    (options : JobOptions) : JobOptions :=
  match o_queue (merge_options (j_options job) options), defaultQueue with
  | None, Some q => with_queue (Some q) options
  | _, _ => options
  end.

Lemma dispatch_envelope dq (job : Job P) options ref uuid now seq e :
  buildEnvelope job (resolved_options dq job options) ref uuid now seq = Ok e →
  e_queue e = dispatch_queue dq job options ∧
  e_dedupeKey e = o_dedupeKey (merge_options (j_options job) options).
Proof.
  unfold buildEnvelope, resolved_options, dispatch_queue.
  destruct (o_queue (merge_options (j_options job) options)) as [q|] eqn:Hq.
  - destruct (resolveDurationMs _) as [ms|err]; [|done]. intros [= <-]. simpl.
    simpl in Hq. by rewrite Hq.
  - destruct dq as [q|]; (destruct (resolveDurationMs _) as [ms|err]; [|done]);
      intros [= <-]; simpl; simpl in Hq; by rewrite ?Hq.
Qed.

Lemma dispatch_ok dq job options inputs f :
  registry_ok (fc_driver f) (activeDedupeKeys f) →
  let f' := (dispatch dq job options inputs f).2 in
  registry_ok (fc_driver f') (activeDedupeKeys f').
Proof.
  intros Hok. unfold dispatch. fold (dispatch_queue dq job options).
  change (match o_queue (merge_options (j_options job) options), dq with
          | None, Some q => with_queue (Some q) options | _, _ => options end)
    with (resolved_options dq job options).
  set (merged := merge_options (j_options job) options).
  assert (∀ ref uuid now seq e,
    buildEnvelope job (resolved_options dq job options) ref uuid now seq = Ok e →
    e_queue e = dispatch_queue dq job options ∧ e_dedupeKey e = o_dedupeKey merged) as Hbuild
    by (intros; by eapply dispatch_envelope).
  unfold build_and_enqueue, nextSeq, count_dispatch.
  cbn [fc_driver activeDedupeKeys fc_seq dispatchCount].
  destruct (o_dedupeKey merged) as [key|] eqn:Hkey.
  - destruct (jm_get _ (activeDedupeKeys f)) as [existing|] eqn:Hact; [done|].
    destruct (buildEnvelope _ _ _ _ _ _) as [e|err] eqn:Hb; simpl; [|done].
    destruct (Hbuild _ _ _ _ _ Hb) as [Hq He]. rewrite <-Hq in *.
    destruct (enqueueEnvelope _ _ _ _ _) as [d'|err] eqn:Henq; simpl.
    + apply (registry_enqueue_key (fc_driver f)); [done..|].
      exact (enqueueEnvelope_enqueued _ e merged inputs _ _ eq_refl Henq).
    + unfold releaseDedupeKey. rewrite jm_get_set_eq, decide_True by done.
      destruct Hok as [H1 H2 H3 H4 H5]. split; [done..| |done|].
      { apply jm_delete_wf. by apply jm_set_wf. }
      intros k j Hin. apply H5 in Hin as Hk.
      rewrite jm_get_delete_ne, jm_get_set_ne; [done|..]; intros ->; congruence.
  - destruct (buildEnvelope _ _ _ _ _ _) as [e|err] eqn:Hb; simpl; [|done].
    destruct (Hbuild _ _ _ _ _ Hb) as [Hq He]. rewrite <-Hq in *.
    destruct (enqueueEnvelope _ _ _ _ _) as [d'|err] eqn:Henq; simpl; [|done].
    apply (registry_enqueue_plain (fc_driver f) d' _ e); [done..|].
    exact (enqueueEnvelope_enqueued _ e merged inputs _ _ eq_refl Henq).
Qed.

(** ** What a worker and the operators do *)

Lemma holds_driver_held r d : holds_lease r d → qd_held r d.
Proof. intros (l & ? & ? & _). by exists l. Qed.

Lemma registry_nack d active r runAt n :
  registry_ok d active → holds_lease r d →
  registry_ok (nack r runAt (set_attempts d n)) active.
Proof.
  intros Hok (l & Hl & He & Hq). pose proof (ro_driver _ _ Hok) as Hd.
  assert (driver_ok (set_attempts d n)) as Hd1 by by apply set_attempts_ok.
  assert (placed (set_attempts d n)) as Hp1 by by destruct (ro_placed _ _ Hok).
  apply (registry_same d); [done|by apply nack_ok|apply placed_nack; [done..|by exists l]|].
  by rewrite (nack_jobs (set_attempts d n) r l runAt Hl He).
Qed.

Lemma registry_ack d active r :
  registry_ok d active → holds_lease r d →
  registry_ok (ack r d)
    (match e_dedupeKey (r_envelope r) with
     | Some key => releaseDedupeKey (r_queue r) key (Some (e_id (r_envelope r))) active
     | None => active
     end).
Proof.
  intros Hok Hh. pose proof (holds_queue r d (ro_placed _ _ Hok) Hh) as Hq.
  destruct Hok as [Hd Hp ? ? ?], Hh as (l & Hl & He & _).
  apply (registry_release d); [done|by apply ack_ok|by apply placed_ack|done|].
  by apply (ack_jobs d r l).
Qed.

Lemma registry_dead d active r err now :
  registry_ok d active → holds_lease r d →
  registry_ok (moveToDeadLetter r err now d)
    (match e_dedupeKey (r_envelope r) with
     | Some key => releaseDedupeKey (r_queue r) key (Some (e_id (r_envelope r))) active
     | None => active
     end).
Proof.
  intros Hok Hh. pose proof (registry_ack d active r Hok Hh) as Hack.
  apply (registry_set_dead _ (dead (moveToDeadLetter r err now d))) in Hack; [exact Hack|].
  destruct (ack_ok r d (ro_driver _ _ Hok)).
  destruct (moveToDeadLetter_ok r err now d (ro_driver _ _ Hok)). by split.
Qed.

Lemma set_attempts_same d : set_attempts d (attempts_of d) = d.
Proof. by destruct d. Qed.

(** Executing a reservation that still has its lease. *)
Lemma execute_ok cfg r run t store f :
  registry_ok (fc_driver f) (activeDedupeKeys f) → holds_lease r (fc_driver f) →
  let f' := execute number_to_string cfg r run t store f in
  registry_ok (fc_driver f') (activeDedupeKeys f').
Proof.
  intros Hok Hh. unfold execute, executeReservation, admitUnderRateLimit.
  set (w0 := Build_worker_state _ _ _ _ _ _).
  assert (∀ w : worker_state, w_drv w = fc_driver f → w_dedupe w = activeDedupeKeys f →
    let f' := match (let ctx := buildContext r w in
                     let w := emit (JobStarted ctx) w in
                     if decide (e_type (r_envelope r) ∈ handlers cfg)
                     then match runWithTimeout number_to_string ctx run (e_timeoutMs (r_envelope r)) w with
                          | None => None
                          | Some (Ok _, w) =>
                              Some (Ok (emit (JobCompleted ctx (t_end t - t_start t)%Q)
                                (releaseDedupe r (count_processed (set_drv (qd_ack r (w_drv w)) w)))))
                          | Some (Throw err, w) =>
                              Some (handleFailure cfg r ctx err (t_end t) (t_dead t) (rng t) w)
                          end
                     else Some (Ok (deadLetterPermanent r ctx
                            {| err_name := "Error";
                               err_message := "No handler registered for job type " +:+
                                 quoted (e_type (r_envelope r)) +:+ ".";
                               err_stack := None |} (t_dead t) w)))
              with Some (Ok w) => with_keys (w_dedupe w) (with_driver (w_drv w) f) | _ => f end in
    registry_ok (fc_driver f') (activeDedupeKeys f')) as Hrun.
  { intros w Hd Ha. cbv zeta. case_decide.
    - assert (∀ ctx w1 out, runWithTimeout number_to_string ctx run (e_timeoutMs (r_envelope r))
        (emit (JobStarted ctx) w) = Some (out, w1) →
        w_drv w1 = fc_driver f ∧ w_dedupe w1 = activeDedupeKeys f) as Htime.
      { intros ctx w1 out. unfold runWithTimeout.
        destruct (e_timeoutMs _), (settles_after run); try case_match; intros; simplify_eq; done. }
      destruct (runWithTimeout _ _ _ _ _) as [[[[]|err] w1]|] eqn:Hr; [| |done];
        destruct (Htime _ _ _ Hr) as [Hd1 Ha1].
      + pose proof (registry_ack _ _ r Hok Hh) as Hack. unfold releaseDedupe.
        destruct (e_dedupeKey (r_envelope r)); simpl; by rewrite Hd1, Ha1.
      + unfold handleFailure. destruct (onFailure _ _ _ _ _ _) as [[runAt|]|e0]; simpl; [| |done].
        * pose proof (registry_nack _ _ r (Some runAt) (attempts_of (fc_driver f)) Hok Hh) as Hn.
          rewrite set_attempts_same in Hn. by rewrite Hd1, Ha1.
        * pose proof (registry_dead _ _ r err (t_dead t) Hok Hh) as Hdead. unfold releaseDedupe.
          destruct (e_dedupeKey (r_envelope r)); simpl; by rewrite Hd1, Ha1.
    - unfold deadLetterPermanent, releaseDedupe. simpl.
      match goal with |- context [moveToDeadLetter r ?err _ _] =>
        pose proof (registry_dead _ _ r err (t_dead t) Hok Hh) as Hdead end.
      destruct (e_dedupeKey (r_envelope r)); simpl; by rewrite Hd, Ha. }
  destruct (jm_get _ _) as [limit|], (rateLimitStore cfg) as [opts|]; try by apply Hrun.
  destruct (_ <=? _); [|by apply Hrun]. simpl.
  by apply (registry_nack _ _ r (Some _) (<[_:=_]> _) Hok Hh).
Qed.

Lemma retry_record_ok jobId ref f :
  registry_ok (fc_driver f) (activeDedupeKeys f) →
  let f' := (retry_record jobId ref f).2 in
  registry_ok (fc_driver f') (activeDedupeKeys f').
Proof.
  intros Hok. unfold retry_record, removeDeadLetter.
  pose proof (removeDeadLetter_ok jobId (fc_driver f) (ro_driver _ _ Hok)) as Hrem.
  unfold removeDeadLetter in Hrem.
  destruct (remove_dead_in jobId (dead (fc_driver f))) as [[x m]|]; simpl in *; [|done].
  apply (registry_enqueue_plain (set_dead (fc_driver f) m) _ _ (rebuildEnvelope x ref (fc_seq f)));
    [by apply registry_set_dead|done|by left].
Qed.

Lemma retry_each_ok records refs : ∀ n f,
  registry_ok (fc_driver f) (activeDedupeKeys f) →
  let f' := (retry_each records refs n f).2 in
  registry_ok (fc_driver f') (activeDedupeKeys f').
Proof.
  induction records as [|x records IH]; intros n f Hok; simpl; [done|].
  pose proof (retry_record_ok (dl_id x) (refs n) f Hok) as H1.
  destruct (retry_record _ _ f) as [did f1]. specialize (IH (n + 1) f1 H1).
  by destruct (retry_each records refs (n + 1) f1).
Qed.

(** What producers, workers, the scheduler and operators do to the queue. *)
Inductive facade_event : Type :=
| FDispatch (dq : option string) (job : Job P) (options : JobOptions) (inputs : dispatch_inputs)
| FReserve (queues : list string) (vis now : Q) (tok : string)
| FExecute (cfg : worker_config) (r : Reservation P) (run : handler_run) (t : readings) (store : window_store)
| FPromote (now : Q)
| FRetry (jobId : string) (ref : nat)
| FRetryAll (queue : option string) (refs : nat → nat)
| FFlush (queue : option string).

Definition facade_step (f : QueueFacade P) (e : facade_event) : QueueFacade P :=
  match e with
  | FDispatch dq job options inputs => (dispatch dq job options inputs f).2
  | FReserve queues vis now tok => with_driver (reserve queues vis now tok (fc_driver f)).2 f
  | FExecute cfg r run t store => execute number_to_string cfg r run t store f
  | FPromote now => with_driver (promoteDue now (fc_driver f)).2 f
  | FRetry jobId ref => retry jobId ref f
  | FRetryAll queue refs => (retryAll queue refs f).2
  | FFlush queue => (flush queue f).2
  end.
Definition facade_steps : QueueFacade P → list facade_event → QueueFacade P := foldl facade_step.

(** Lease tokens are fresh, and an execution ends while its worker has the lease. *)
Definition in_lease (f : QueueFacade P) (e : facade_event) : Prop :=
  match e with
  | FReserve _ _ _ tok => jm_get tok (reserved (fc_driver f)) = None
  | FExecute _ r _ _ _ => holds_lease r (fc_driver f)
  | _ => True
  end.
Fixpoint all_in_lease (f : QueueFacade P) (es : list facade_event) : Prop :=
  match es with [] => True | e :: es => in_lease f e ∧ all_in_lease (facade_step f e) es end.

Lemma facade_step_ok f e :
  in_lease f e → registry_ok (fc_driver f) (activeDedupeKeys f) →
  registry_ok (fc_driver (facade_step f e)) (activeDedupeKeys (facade_step f e)).
Proof.
  destruct e as [dq job options inputs|queues vis now tok|cfg r run t store|now
    |jobId ref|queue refs|queue]; cbn [in_lease facade_step]; intros Hh Hok.
  - by apply dispatch_ok.
  - pose proof (ro_driver _ _ Hok) as Hd. apply (registry_same (fc_driver f)); [done|..].
    + by apply reserve_ok.
    + apply placed_reserve; [done|apply Hok].
    + by apply reserve_jobs.
  - by apply execute_ok.
  - pose proof (ro_driver _ _ Hok) as Hd.
    destruct (promote_jobs (f := dedupe_entry) (g := λ _, None) now (fc_driver f) Hd) as [Hj Hd'].
    apply (registry_same (fc_driver f)); [done|done|apply placed_promote; [done|apply Hok]|done].
  - by apply retry_record_ok.
  - by apply retry_each_ok.
  - pose proof (flush_ok queue (fc_driver f) (ro_driver _ _ Hok)) as Hd. unfold flush.
    unfold flushDeadLetters in *.
    destruct queue as [q|]; [destruct (jm_get q (dead (fc_driver f)))|]; simpl in *;
      try done; by apply registry_set_dead.
Qed.

Lemma facade_steps_ok es : ∀ f,
  all_in_lease f es → registry_ok (fc_driver f) (activeDedupeKeys f) →
  registry_ok (fc_driver (facade_steps f es)) (activeDedupeKeys (facade_steps f es)).
Proof.
  induction es as [|e es IH]; intros f; [done|]. intros [He Hes] Hok.
  apply (IH (facade_step f e) Hes). by apply facade_step_ok.
Qed.

Lemma new_facade_ok : registry_ok (fc_driver (@new_facade P)) (activeDedupeKeys (@new_facade P)).
Proof.
  split; [apply empty_driver_ok| |by apply NoDup_nil_2|by apply NoDup_nil_2|].
  - split; intros * Hin; [by apply elem_of_nil in Hin..|done].
  - intros k j Hin. by apply elem_of_nil in Hin.
Qed.
End dedupe.

(** C20: A dedupe key never covers two live jobs, as long as workers keep their leases.
    Along any history of dispatches, reservations, executions, promotions and dead-letter
    operations in which every execution ends while the lease of its reservation lasts and
    the token of a lease is not that of another ([all_in_lease]; [stale_ack_breaks_dedupe] shows what a late one does), no two jobs that
    are ready, delayed or leased have the same dedupe key in the same queue; and a dispatch
    with the key of a live job returns the id of that job, counts the dispatch and changes
    nothing else. *)
Theorem dedupe_one_live {P} (number_to_string : Q → string) (es : list (facade_event (P := P))) :
  all_in_lease number_to_string new_facade es →
  let f := facade_steps number_to_string new_facade es in
  NoDup (live_entries (fc_driver f)).*1 ∧
  ∀ dq job options inputs key jobId,
    o_dedupeKey (merge_options (j_options job) options) = Some key →
    (dedupeRegistryKey (dispatch_queue dq job options) key, jobId) ∈ live_entries (fc_driver f) →
    dispatch dq job options inputs f = (Ok jobId, count_dispatch f).
Proof.
  intros Hes f. pose proof (facade_steps_ok number_to_string es _ Hes new_facade_ok) as Hrun.
  fold f in Hrun. split; [apply Hrun|].
  intros dq job options inputs key jobId Hkey Hin. unfold dispatch. rewrite Hkey.
  fold (dispatch_queue dq job options). cbn [activeDedupeKeys count_dispatch].
  by rewrite (ro_known _ _ Hrun _ _ Hin).
Qed.

Definition no_number (q : Q) : string := "n".

(** A dispatch of a job with the dedupe key k. *)
Definition keyed (key : string) : JobOptions :=
  {| o_queue := None; o_delay := None; o_runAt := None; o_priority := None;
     o_maxAttempts := None; o_retries := None; o_backoff := None; o_timeout := None;
     o_dedupeKey := Some key |}.
Definition sample_mail : Job unit :=
  {| j_type := "mail"; j_payload := tt; j_options := no_options |}.
Definition sample_inputs (ref : nat) (uuid : string) : dispatch_inputs :=
  {| di_ref := ref; di_uuid := uuid; di_built := 0; di_due := 0; di_now := 0 |}.
Definition dispatch_keyed (ref : nat) (uuid : string) (f : QueueFacade unit) :=
  dispatch None sample_mail (keyed "k") (sample_inputs ref uuid) f.

Lemma dedupe_one_live_witness :
  let f := facade_steps no_number new_facade
    [FDispatch None sample_mail (keyed "k") (sample_inputs 0 "a"); FReserve ["default"] 10 0 "t"] in
  live_entries (fc_driver f) = [(dedupeRegistryKey "default" "k", "a")] ∧
  dispatch_keyed 1 "b" f = (Ok "a", count_dispatch f).
Proof.
  cbv zeta. set (es := [_; _]). split; [reflexivity|].
  assert (all_in_lease no_number new_facade es) as Hes by by repeat split.
  apply (proj2 (dedupe_one_live no_number es Hes) _ _ _ _ "k" "a").
  - reflexivity.
  - vm_compute. left.
Defined.

(** A worker that lost its lease breaks deduplication.  Worker A takes the only
    job with the dedupe key k, its lease runs out and the job goes back to its queue;
    when A's handler then ends, its [ack] does nothing, but the key is released all the
    same, since the registry still names the job: the next dispatch with the key is
    accepted while the first job waits, and both jobs are live with the same key. *)
Theorem stale_ack_breaks_dedupe :
  let f1 := (dispatch_keyed 0 "a" new_facade).2 in
  let '(taken, d2) := reserve ["default"] 10 0 "t" (fc_driver f1) in
  ∃ r, taken = Some r ∧
    let d3 := (reserve [] 10 20 "u" d2).2 in
    let f4 := execute no_number (Build_worker_config ["mail"] None [] None) r
                (Build_handler_run (Some 30%Q) (Ok tt)) (Build_readings 0 0 30 30 0) []
                (with_driver d3 f1) in
    readyHeap "default" d3 = [r_envelope r] ∧
    fc_driver f4 = d3 ∧ activeDedupeKeys f4 = [] ∧
    let '(answer, f5) := dispatch_keyed 1 "b" f4 in
    answer = Ok "b" ∧
    live_entries (fc_driver f5) =
      [(dedupeRegistryKey "default" "k", "a"); (dedupeRegistryKey "default" "k", "b")].
Proof. eexists. split; [reflexivity|]. vm_compute. by repeat split. Qed.

(** ** Replaying the dead letters *)

Section replay.
Context {P : Type}.
Implicit Types (x : DeadLetterRecord P) (f : QueueFacade P).

(** The envelopes that records give when they are replayed in order. *)
Definition replays (refs : nat → nat) (n : nat) (seq : Z) (records : list (DeadLetterRecord P)) :
    list (JobEnvelope P) :=
  imap (λ i x, rebuildEnvelope x (refs (n + i)) (seq + Z.of_nat i)) records.

Lemma replays_cons refs n seq x records :
  replays refs n seq (x :: records) =
    rebuildEnvelope x (refs n) seq :: replays refs (n + 1) (seq + 1) records.
Proof.
  unfold replays. rewrite imap_cons. f_equal; [f_equal; [f_equal|]; lia|].
  apply imap_ext. intros i y _. simpl. f_equal; [f_equal|]; lia.
Qed.

Lemma remove_first x rest (m : list (string * list (DeadLetterRecord P))) :
  mjoin (jm_values m) = x :: rest →
  ∃ m', remove_dead_in (dl_id x) m = Some (x, m') ∧ mjoin (jm_values m') = rest.
Proof.
  induction m as [|[q [|y l]] m IH]; simpl; [done|..].
  - intros Hj. destruct (IH Hj) as (m' & -> & <-). by eexists.
  - intros [= -> <-]. rewrite String.eqb_refl. by eexists.
Qed.

Lemma retry_each_replays refs records : ∀ n f,
  mjoin (jm_values (dead (fc_driver f))) = records →
  let '(m, f') := retry_each records refs n f in
  m = length records ∧
  mjoin (jm_values (dead (fc_driver f'))) = [] ∧
  delayed (fc_driver f') = delayed (fc_driver f) ∧
  reserved (fc_driver f') = reserved (fc_driver f) ∧
  activeDedupeKeys f' = activeDedupeKeys f ∧
  ∀ q, readyHeap q (fc_driver f') ≡ₚ
    filter (λ e, e_queue e = q) (replays refs n (fc_seq f) records) ++ readyHeap q (fc_driver f).
Proof.
  induction records as [|x records IH]; intros n f Hj; [done|].
  destruct (remove_first _ _ _ Hj) as (m' & Hrem & Hj').
  cbn [retry_each]. unfold retry_record, removeDeadLetter, nextSeq. rewrite Hrem.
  cbn [fc_driver with_driver fc_seq activeDedupeKeys dispatchCount].
  set (e := rebuildEnvelope x (refs n) (fc_seq f)).
  match goal with |- context [retry_each records refs (n + 1) ?g] =>
    set (f1 := g); specialize (IH (n + 1) f1) end.
  specialize (IH Hj'). destruct (retry_each records refs (n + 1) f1) as [m f'].
  destruct IH as (-> & Hdead & Hdel & Hres & Hkeys & Hready). simpl.
  split; [lia|]. repeat split; [done..|]. intros q.
  rewrite Hready, replays_cons, filter_cons. unfold enqueue. fold e.
  change (readyHeap q (fc_driver f1)) with (readyHeap q (push_ready (e_queue e) e (fc_driver f))).
  change (fc_seq f1) with (fc_seq f + 1)%Z.
  rewrite readyHeap_push. destruct (decide (e_queue e = q)) as [<-|Hq].
  - rewrite decide_True, push_Permutation by done. simpl. by rewrite <-Permutation_middle.
  - by rewrite decide_False by congruence.
Qed.
End replay.

(** [retryAll] replays every dead letter exactly once.  It answers the number of
    records, leaves no record behind and does not touch delayed or leased jobs or the
    dedupe keys; each record is back in the queue it failed in, in the order of the
    list, as an envelope with its id, payload and attempt ceiling, the default
    priority, no dedupe key and a fresh sequence number. *)
Theorem retryAll_replays_each_once {P} (refs : nat → nat) (f : QueueFacade P) :
  let records := mjoin (jm_values (dead (fc_driver f))) in
  (Z.of_nat (length records) <= DEFAULT_DEAD_LETTER_LIST_LIMIT)%Z →
  let '(n, f') := retryAll None refs f in
  n = length records ∧
  list_dead None None f' = [] ∧
  delayed (fc_driver f') = delayed (fc_driver f) ∧
  reserved (fc_driver f') = reserved (fc_driver f) ∧
  activeDedupeKeys f' = activeDedupeKeys f ∧
  ∀ q, readyHeap q (fc_driver f') ≡ₚ
    filter (λ e, e_queue e = q) (replays refs 0 (fc_seq f) records) ++ readyHeap q (fc_driver f).
Proof.
  intros records Hlen. unfold retryAll, listDeadLetters. fold records.
  change (0 <=? DEFAULT_DEAD_LETTER_LIST_LIMIT)%Z with true. cbv beta iota.
  rewrite take_ge by lia.
  pose proof (retry_each_replays refs records 0 f eq_refl) as H.
  destruct (retry_each records refs 0 f) as [n f'].
  destruct H as (Hn & Hdead & Hrest). split; [done|]. split; [|done].
  unfold list_dead, listDeadLetters. rewrite Hdead. case_match; [by rewrite take_nil|done].
Qed.

(** One dead letter, and the job replayed. *)
Definition dead_facade : QueueFacade unit :=
  let f := (dispatch_keyed 0 "a" new_facade).2 in
  match reserve ["default"] 10 0 "t" (fc_driver f) with
  | (Some r, d) =>
      with_driver (moveToDeadLetter r (Build_SerializedError "Error" "boom" None) 1 d) f
  | (None, d) => f
  end.

Lemma retryAll_replays_each_once_witness :
  let '(n, f') := retryAll None S dead_facade in
  n = 1 ∧ list_dead None None f' = [] ∧
  (e_id <$> readyHeap "default" (fc_driver f')) ≡ₚ ["a"].
Proof.
  assert (Z.of_nat (length (mjoin (jm_values (dead (fc_driver dead_facade))))) <=
    DEFAULT_DEAD_LETTER_LIST_LIMIT)%Z as Hlen by (vm_compute; discriminate).
  pose proof (retryAll_replays_each_once S dead_facade Hlen) as H.
  destruct (retryAll None S dead_facade) as [n f'].
  destruct H as (Hn & Hl & _ & _ & _ & Hq). split; [exact Hn|]. split; [exact Hl|].
  rewrite (Hq "default"). reflexivity.
Defined.
