(* ===== verification/Scheduler.v ===== *)
(** * Cron timers and the queue's scheduled fires

    Models [CronScheduler] of src/packages/core/src/jobs/scheduler.ts (registration,
    [start], [stop], [_schedule], [_fire] with its re-entrancy guard) as a transition
    system over timers and runs in flight, and [Scheduler] of
    src/packages/queue/src/scheduler.ts: [fire] under its distributed lock.

    Whether a cron expression has a next time is an argument; the parsing and the search
    of the core scheduler are not modelled here.  The lock is an interface, as in the
    source. *)

From Stdlib Require Import QArith Qround.
From stdpp Require Import pretty.
From S2P Require Import Prelude JsText JsMap.

Open Scope nat_scope.

(** ** [CronScheduler] *)

Record CronEntry : Type := {
  ce_timer : option nat;    (* the handle of [entry.timer] *)
  ce_running : bool;
}.

(** The scheduler's fields, the timers of the event loop that have not fired (a handle
    and the entry whose callback it runs), the calls of [entry.fn] in flight. *)
Record CronScheduler : Type := {
  cs_jobs : list (string * CronEntry);
  cs_started : bool;
  cs_timers : list (nat * string);
  cs_next : nat;
  cs_flying : list string;
}.

Definition new_cron : CronScheduler := Build_CronScheduler [] false [] 0 [].

Section cron_scheduler.
Context (has_next : string → bool).

Definition set_cron_entry (name : string) (e : CronEntry) (s : CronScheduler) : CronScheduler :=
  {| cs_jobs := jm_set name e (cs_jobs s); cs_started := cs_started s;
     cs_timers := cs_timers s; cs_next := cs_next s; cs_flying := cs_flying s |}.

(** [register]: a new entry, which forgets an old one of the name. *)
Definition register_cron (name : string) (s : CronScheduler) : CronScheduler :=
  set_cron_entry name {| ce_timer := None; ce_running := false |} s.

(** [_schedule]: [setTimeout], its handle stored in the entry. *)
Definition schedule_entry (name : string) (s : CronScheduler) : CronScheduler :=
  if cs_started s && has_next name then
    match jm_get name (cs_jobs s) with
    | Some e =>
        {| cs_jobs := jm_set name {| ce_timer := Some (cs_next s); ce_running := ce_running e |}
                        (cs_jobs s);
           cs_started := cs_started s; cs_timers := cs_timers s ++ [(cs_next s, name)];
           cs_next := cs_next s + 1; cs_flying := cs_flying s |}
    | None => s
    end
  else s.

Definition start_cron (s : CronScheduler) : CronScheduler :=
  foldl (λ s name, schedule_entry name s)
    {| cs_jobs := cs_jobs s; cs_started := true; cs_timers := cs_timers s;
       cs_next := cs_next s; cs_flying := cs_flying s |}
    (jm_keys (cs_jobs s)).

(** [clearTimeout] of an entry's timer. *)
Definition clear_entry (name : string) (s : CronScheduler) : CronScheduler :=
  match jm_get name (cs_jobs s) with
  | Some {| ce_timer := Some h; ce_running := r |} =>
      {| cs_jobs := jm_set name {| ce_timer := None; ce_running := r |} (cs_jobs s);
         cs_started := cs_started s;
         cs_timers := filter (λ t, t.1 ≠ h) (cs_timers s);
         cs_next := cs_next s; cs_flying := cs_flying s |}
  | _ => s
  end.

Definition stop_cron (s : CronScheduler) : CronScheduler :=
  foldl (λ s name, clear_entry name s)
    {| cs_jobs := cs_jobs s; cs_started := false; cs_timers := cs_timers s;
       cs_next := cs_next s; cs_flying := cs_flying s |}
    (jm_keys (cs_jobs s)).

(** The callback of a timer: [_fire] up to the call of [entry.fn]. *)
Definition timer_fires (h : nat) (s : CronScheduler) : CronScheduler :=
  match jm_get h (cs_timers s) with
  | None => s
  | Some name =>
      let s := {| cs_jobs := cs_jobs s; cs_started := cs_started s;
                  cs_timers := filter (λ t, t.1 ≠ h) (cs_timers s);
                  cs_next := cs_next s; cs_flying := cs_flying s |} in
      if negb (cs_started s) then s
      else
        match jm_get name (cs_jobs s) with
        | Some e =>
            if ce_running e then schedule_entry name s
            else
              let s := set_cron_entry name {| ce_timer := ce_timer e; ce_running := true |} s in
              {| cs_jobs := cs_jobs s; cs_started := cs_started s; cs_timers := cs_timers s;
                 cs_next := cs_next s; cs_flying := cs_flying s ++ [name] |}
        | None => s
        end
  end.

(** [entry.fn] settles: the rest of [_fire]. *)
Definition run_settles (name : string) (s : CronScheduler) : CronScheduler :=
  if decide (name ∈ cs_flying s) then
    match jm_get name (cs_jobs s) with
    | Some e =>
        let s := set_cron_entry name {| ce_timer := ce_timer e; ce_running := false |} s in
        schedule_entry name
          {| cs_jobs := cs_jobs s; cs_started := cs_started s; cs_timers := cs_timers s;
             cs_next := cs_next s;
             cs_flying := filter (λ n, n ≠ name) (cs_flying s) |}
    | None => s
    end
  else s.

(** Steps of a scheduler that is registered before it is started, as the queue uses it,
    and started again only when no run is in flight. *)
Inductive cron_step : CronScheduler → CronScheduler → Prop :=
| cron_register name s :
    jm_get name (cs_jobs s) = None → cs_started s = false →
    cron_step s (register_cron name s)
| cron_start s : cs_started s = false → cs_flying s = [] → cron_step s (start_cron s)
| cron_stop s : cron_step s (stop_cron s)
| cron_timer h s : cron_step s (timer_fires h s)
| cron_settle name s : cron_step s (run_settles name s).
End cron_scheduler.

(** ** One timer or one run for each entry *)

Section cron_facts.
Context (has_next : string → bool).
Implicit Types (s : CronScheduler) (name : string).

Definition timers_of name s : list (nat * string) := filter (λ t, t.2 = name) (cs_timers s).

(** The timers and runs of one entry. *)
Definition entry_ok s name : Prop :=
  match jm_get name (cs_jobs s) with
  | Some e =>
      if ce_running e then (name ∈ cs_flying s ∧ timers_of name s = [])
      else ((name ∉ cs_flying s) ∧
           (timers_of name s = [] ∨
             ∃ h, ce_timer e = Some h ∧ timers_of name s = [(h, name)]))
  | None => (name ∉ cs_flying s) ∧ timers_of name s = []
  end.

Record cron_ok s : Prop := {
  ck_jobs : jm_wf (cs_jobs s);
  ck_handles : NoDup (jm_keys (cs_timers s));
  ck_next : Forall (λ t, t.1 < cs_next s) (cs_timers s);
  ck_flying : NoDup (cs_flying s);
  ck_entries : ∀ name, entry_ok s name;
}.

Lemma timers_elem s h name : (h, name) ∈ cs_timers s ↔ (h, name) ∈ timers_of name s.
Proof. unfold timers_of. rewrite list_elem_of_filter. simpl. tauto. Qed.

Lemma NoDup_filter_eq_le (name : string) l : NoDup l → length (filter (λ n, n = name) l) <= 1.
Proof.
  induction 1 as [|n l Hni _ IH]; [simpl; lia|]. rewrite filter_cons. case_decide; [|done].
  subst. rewrite filter_none; [simpl; lia|]. apply Forall_forall. by intros m Hm ->.
Qed.

Lemma schedule_ok name s :
  cron_ok s → timers_of name s = [] → name ∉ cs_flying s →
  cron_ok (schedule_entry has_next name s) ∧
  cs_flying (schedule_entry has_next name s) = cs_flying s ∧
  cs_started (schedule_entry has_next name s) = cs_started s ∧
  jm_keys (cs_jobs (schedule_entry has_next name s)) = jm_keys (cs_jobs s) ∧
  ∀ name', name' ≠ name → timers_of name' (schedule_entry has_next name s) = timers_of name' s.
Proof.
  intros [Hj Hh Hn Hf He] Ht Hni. unfold schedule_entry.
  destruct (cs_started s && has_next name); [|by split].
  destruct (jm_get name (cs_jobs s)) as [e|] eqn:Hg; [|by split].
  split; [|split; [done|split; [done|split; [by eapply jm_keys_set_present|]]]].
  2: { intros name' Hne. unfold timers_of. cbn [cs_timers].
       rewrite filter_app, filter_cons_False, app_nil_r by (simpl; congruence). done. }
  split; cbn [cs_jobs cs_timers cs_next cs_flying]; [by apply jm_set_wf| | |done|].
  - unfold jm_keys. rewrite fmap_app. apply NoDup_app. split; [done|]. split; [|apply NoDup_singleton].
    csimpl. intros h Hin%list_elem_of_fmap Hh'%list_elem_of_singleton.
    destruct Hin as (t & Ht' & Hin). rewrite Forall_forall in Hn. specialize (Hn _ Hin).
    simpl in *. lia.
  - apply Forall_app. split; [|apply Forall_singleton; simpl; lia].
    eapply Forall_impl; [exact Hn|]. simpl. lia.
  - intros name'. specialize (He name'). unfold entry_ok, timers_of in *.
    cbn [cs_jobs cs_timers cs_flying].
    destruct (decide (name' = name)) as [->|Hne].
    + rewrite jm_get_set_eq. rewrite Hg in He. cbn [ce_running ce_timer]. destruct (ce_running e); [by destruct He|].
      split; [done|]. right. eexists. split; [done|]. by rewrite filter_app, Ht, filter_cons_True.
    + rewrite jm_get_set_ne by done. by rewrite filter_app, filter_cons_False, app_nil_r by (simpl; congruence).
Qed.

Lemma start_fold names : ∀ s,
  cron_ok s → NoDup names → (∀ name, name ∈ names → timers_of name s = [] ∧ name ∉ cs_flying s) →
  cron_ok (foldl (λ s name, schedule_entry has_next name s) s names) ∧
  cs_started (foldl (λ s name, schedule_entry has_next name s) s names) = cs_started s.
Proof.
  induction names as [|name names IH]; intros s Hs Hnd Hall; [done|].
  apply NoDup_cons in Hnd as [Hni Hnd]. destruct (Hall name ltac:(left)) as [Ht Hf].
  destruct (schedule_ok name s Hs Ht Hf) as (Hok & Hfly & Hst & _ & Hoth). cbn [foldl].
  destruct (IH (schedule_entry has_next name s) Hok Hnd) as [? Hst']; [|by rewrite Hst', Hst].
  intros name' Hin. rewrite Hoth, Hfly; [apply Hall; by right|]. by intros ->.
Qed.

Lemma clear_entry_ok name s :
  cron_ok s →
  cron_ok (clear_entry name s) ∧
  timers_of name (clear_entry name s) = [] ∧
  cs_flying (clear_entry name s) = cs_flying s ∧
  cs_started (clear_entry name s) = cs_started s ∧
  jm_keys (cs_jobs (clear_entry name s)) = jm_keys (cs_jobs s) ∧
  ∀ name', timers_of name' s = [] → timers_of name' (clear_entry name s) = [].
Proof.
  intros [Hj Hh Hn Hf He]. pose proof (He name) as Hent. unfold entry_ok in Hent.
  unfold clear_entry. destruct (jm_get name (cs_jobs s)) as [[[h|] r]|] eqn:Hg.
  2, 3: (split; [done|]); split; [|by repeat split]; simpl in *;
    repeat match goal with
    | H : context [if ?b then _ else _] |- _ => destruct b
    | H : _ ∧ _ |- _ => destruct H
    | H : _ ∨ _ |- _ => destruct H
    | H : ∃ _, _ |- _ => destruct H
    end; done.
  assert (∀ name', timers_of name' {| cs_jobs := jm_set name {| ce_timer := None; ce_running := r |} (cs_jobs s);
     cs_started := cs_started s; cs_timers := filter (λ t, t.1 ≠ h) (cs_timers s);
     cs_next := cs_next s; cs_flying := cs_flying s |} = filter (λ t, t.1 ≠ h) (timers_of name' s))
    as Htim.
  { intros. unfold timers_of. cbn [cs_timers]. rewrite !list_filter_filter.
    apply list_filter_iff. tauto. }
  simpl in Hent. assert (r = false → timers_of name s = [] ∨ timers_of name s = [(h, name)]) as Hname.
  { intros Hr. rewrite Hr in Hent. destruct Hent as [_ [|(h' & Hh' & ?)]]; [by left|right].
    injection Hh' as <-. done. }
  assert (r = false → filter (λ t, t.1 ≠ h) (timers_of name s) = []) as Hclear.
  { intros Hr. destruct (Hname Hr) as [-> | ->]; [done|]. by rewrite filter_cons_False by (simpl; tauto). }
  split; [|split; [|split; [done|split; [done|split]]]].
  - split; cbn [cs_jobs cs_timers cs_next cs_flying]; [by apply jm_set_wf| | |done|].
    + eapply sublist_NoDup; [exact Hh|]. apply fmap_sublist, sublist_filter.
    + apply Forall_forall. intros t [_ Ht]%list_elem_of_filter. rewrite Forall_forall in Hn. auto.
    + intros name'. unfold entry_ok. rewrite Htim. cbn [cs_jobs cs_flying].
      destruct (decide (name' = name)) as [->|Hne].
      * rewrite jm_get_set_eq. cbn [ce_running ce_timer]. destruct r.
        { destruct Hent as [? ->]. by split. }
        destruct Hent as [? _]. split; [done|]. left. auto.
      * rewrite jm_get_set_ne by done. specialize (He name'). unfold entry_ok in He.
        destruct (jm_get name' (cs_jobs s)) as [e'|]; [destruct (ce_running e')|].
        -- destruct He as [? ->]. by split.
        -- destruct He as [? Hor]. split; [done|]. destruct Hor as [->|(h' & Hh' & Heq)]; [by left|].
           rewrite Heq. destruct (decide (h' = h)) as [->|].
           ++ left. by rewrite filter_cons_False by (simpl; tauto).
           ++ right. exists h'. by rewrite filter_cons_True.
        -- destruct He as [? ->]. by split.
  - rewrite Htim. destruct r; [by destruct Hent as [_ ->]|by apply Hclear].
  - by eapply jm_keys_set_present.
  - intros name' Hnil. by rewrite Htim, Hnil.
Qed.

Lemma clear_fold names : ∀ s,
  cron_ok s →
  cron_ok (foldl (λ s name, clear_entry name s) s names) ∧
  cs_started (foldl (λ s name, clear_entry name s) s names) = cs_started s ∧
  jm_keys (cs_jobs (foldl (λ s name, clear_entry name s) s names)) = jm_keys (cs_jobs s) ∧
  ∀ name, name ∈ names ∨ timers_of name s = [] →
    timers_of name (foldl (λ s name, clear_entry name s) s names) = [].
Proof.
  induction names as [|name names IH]; intros s Hs; cbn [foldl].
  { split; [done|]. split; [done|]. split; [done|]. by intros name [?%elem_of_nil|]. }
  destruct (clear_entry_ok name s Hs) as (Hok & Hclr & _ & Hst & Hk & Hkeep).
  destruct (IH (clear_entry name s) Hok) as (H1 & H2 & H3 & H4).
  split; [done|]. split; [congruence|]. split; [congruence|]. intros name' [Hin|Hnil].
  - apply elem_of_cons in Hin as [->|Hin]; apply H4; [by right|by left].
  - apply H4. right. by apply Hkeep.
Qed.

(** A timer belongs to an entry that is registered and not running. *)
Lemma timer_entry h name s :
  cron_ok s → (h, name) ∈ cs_timers s →
  timers_of name s = [(h, name)] ∧ (name ∉ cs_flying s) ∧
  ∃ e, jm_get name (cs_jobs s) = Some e ∧ ce_running e = false.
Proof.
  intros [_ _ _ _ He] Hin%timers_elem. specialize (He name). unfold entry_ok in He.
  destruct (jm_get name (cs_jobs s)) as [e|]; [destruct (ce_running e) eqn:Hr|].
  - destruct He as [_ Heq]. rewrite Heq in Hin. by apply elem_of_nil in Hin.
  - destruct He as [? [Heq|(h' & _ & Heq)]]; rewrite Heq in Hin.
    + by apply elem_of_nil in Hin.
    + apply list_elem_of_singleton in Hin. injection Hin as ->. split; [done|].
      split; [done|]. by exists e.
  - destruct He as [_ Heq]. rewrite Heq in Hin. by apply elem_of_nil in Hin.
Qed.

Definition drop_timer (h : nat) s : CronScheduler :=
  {| cs_jobs := cs_jobs s; cs_started := cs_started s;
     cs_timers := filter (λ t, t.1 ≠ h) (cs_timers s);
     cs_next := cs_next s; cs_flying := cs_flying s |}.

Lemma timers_of_drop h name s :
  timers_of name (drop_timer h s) = filter (λ t, t.1 ≠ h) (timers_of name s).
Proof.
  unfold timers_of. cbn [cs_timers drop_timer]. rewrite !list_filter_filter.
  apply list_filter_iff. tauto.
Qed.

Lemma drop_timer_ok h s : cron_ok s → cron_ok (drop_timer h s).
Proof.
  intros [Hj Hh Hn Hf He]. split; cbn [cs_jobs cs_timers cs_next cs_flying drop_timer];
    [done| | |done|].
  - eapply sublist_NoDup; [exact Hh|]. apply fmap_sublist, sublist_filter.
  - apply Forall_forall. intros t [_ Ht]%list_elem_of_filter. rewrite Forall_forall in Hn. auto.
  - intros name. specialize (He name). unfold entry_ok in *. rewrite timers_of_drop.
    cbn [cs_jobs cs_flying drop_timer].
    destruct (jm_get name (cs_jobs s)) as [e|]; [destruct (ce_running e)|].
    + destruct He as [? ->]. by split.
    + destruct He as [? Hor]. split; [done|]. destruct Hor as [->|(h' & Hh' & ->)]; [by left|].
      rewrite filter_cons. case_decide; [right; by exists h'|by left].
    + destruct He as [? ->]. by split.
Qed.

(** An entry without timers is registered, starts to run or settles. *)
Lemma set_cron_entry_ok name e fl s :
  cron_ok s → timers_of name s = [] → NoDup fl →
  (∀ name', name' ≠ name → name' ∈ fl ↔ name' ∈ cs_flying s) →
  (if ce_running e then name ∈ fl else name ∉ fl) →
  cron_ok {| cs_jobs := jm_set name e (cs_jobs s); cs_started := cs_started s;
             cs_timers := cs_timers s; cs_next := cs_next s; cs_flying := fl |}.
Proof.
  intros [Hj Hh Hn Hf He] Ht Hnd Hfl Hr. split; simpl; [by apply jm_set_wf|done..|].
  intros name'. specialize (He name'). unfold entry_ok in *. cbn [cs_jobs cs_flying].
  match goal with |- context [timers_of name' ?s'] =>
    change (timers_of name' s') with (timers_of name' s) end.
  destruct (decide (name' = name)) as [->|Hne].
  - rewrite jm_get_set_eq. destruct (ce_running e); [by split|]. split; [done|by left].
  - rewrite jm_get_set_ne by done. pose proof (Hfl name' Hne).
    destruct (jm_get name' (cs_jobs s)) as [e'|]; [destruct (ce_running e')|]; tauto.
Qed.

Lemma timer_fires_ok h s : cron_ok s → cron_ok (timer_fires has_next h s).
Proof.
  intros Hs. unfold timer_fires. destruct (jm_get h (cs_timers s)) as [name|] eqn:Hg; [|done].
  apply jm_get_elem in Hg. destruct (timer_entry h name s Hs Hg) as (Ht & Hni & e & He & Hr).
  fold (drop_timer h s). pose proof (drop_timer_ok h s Hs) as Hd.
  destruct (negb (cs_started (drop_timer h s))); [done|].
  change (cs_jobs (drop_timer h s)) with (cs_jobs s). rewrite He, Hr.
  apply (set_cron_entry_ok name {| ce_timer := ce_timer e; ce_running := true |}
    (cs_flying s ++ [name]) (drop_timer h s) Hd).
  - rewrite timers_of_drop, Ht. by rewrite filter_cons_False by (simpl; tauto).
  - apply NoDup_app. split; [apply Hs|]. split; [|apply NoDup_singleton].
    intros n Hn ->%list_elem_of_singleton. done.
  - intros n Hne. cbn [cs_flying drop_timer]. rewrite elem_of_app, list_elem_of_singleton. naive_solver.
  - simpl. apply elem_of_app. right. left.
Qed.

Lemma run_settles_ok name s : cron_ok s → cron_ok (run_settles has_next name s).
Proof.
  intros Hs. unfold run_settles. case_decide as Hfly; [|done].
  pose proof (ck_entries s Hs name) as Hent. unfold entry_ok in Hent.
  destruct (jm_get name (cs_jobs s)) as [e|] eqn:Hg; [|done].
  destruct (ce_running e) eqn:Hr; [|by destruct Hent].
  destruct Hent as [_ Ht]. apply schedule_ok; [|done|].
  - apply (set_cron_entry_ok name {| ce_timer := ce_timer e; ce_running := false |}
      (filter (λ n, n ≠ name) (cs_flying s)) s Hs Ht).
    + apply NoDup_filter, Hs.
    + intros n Hne. rewrite list_elem_of_filter. tauto.
    + simpl. rewrite list_elem_of_filter. tauto.
  - simpl. rewrite list_elem_of_filter. tauto.
Qed.

Lemma stop_ok s : cron_ok s → cron_ok (stop_cron s) ∧ cs_started (stop_cron s) = false ∧
  cs_timers (stop_cron s) = [].
Proof.
  intros Hs. unfold stop_cron. set (s0 := Build_CronScheduler _ _ _ _ _).
  assert (cron_ok s0) as H0 by by destruct Hs.
  destruct (clear_fold (jm_keys (cs_jobs s)) s0 H0) as (H1 & H2 & H3 & H4).
  split; [done|]. split; [by rewrite H2|]. apply elem_of_nil_inv. intros [h name] Hin.
  destruct (timer_entry h name _ H1 Hin) as (Ht & _ & e & He & _).
  assert (name ∈ jm_keys (cs_jobs s)) as Hk.
  { change (jm_keys (cs_jobs s)) with (jm_keys (cs_jobs s0)). rewrite <-H3.
    apply jm_get_in_keys. by exists e. }
  rewrite H4 in Ht by by left. done.
Qed.

Lemma cron_step_ok s s' :
  cron_step has_next s s' → cron_ok s → (cs_started s = false → cs_timers s = []) →
  cron_ok s' ∧ (cs_started s' = false → cs_timers s' = []).
Proof.
  intros [name s1 Hnone Hst|s1 Hst Hidle|s1|h s1|name s1] Hs Htim.
  - specialize (Htim Hst). split; [|done]. pose proof (ck_entries s1 Hs name) as Hent.
    unfold entry_ok in Hent. rewrite Hnone in Hent. destruct Hent as [Hni Ht].
    exact (set_cron_entry_ok name {| ce_timer := None; ce_running := false |} (cs_flying s1) s1 Hs Ht
      (ck_flying _ Hs) (λ n _, iff_refl _) Hni).
  - specialize (Htim Hst). unfold start_cron. set (s0 := Build_CronScheduler _ _ _ _ _).
    assert (cron_ok s0) as H0 by by destruct Hs.
    destruct (start_fold (jm_keys (cs_jobs s1)) s0 H0) as [H1 H2].
    + apply Hs.
    + intros name _. unfold timers_of. simpl. rewrite Htim, Hidle. split; [done|apply not_elem_of_nil].
    + split; [done|]. rewrite H2. done.
  - destruct (stop_ok s1 Hs) as (H1 & H2 & H3). by split.
  - split; [by apply timer_fires_ok|]. unfold timer_fires, schedule_entry, set_cron_entry.
    destruct (jm_get h (cs_timers s1)); [|done]. simpl.
    destruct (cs_started s1) eqn:Hst; simpl; [|by intros _; rewrite Htim].
    repeat case_match; simpl in *; congruence.
  - split; [by apply run_settles_ok|]. unfold run_settles, schedule_entry, set_cron_entry.
    repeat case_match; simpl in *; try done; reflect_bools; congruence.
Qed.
End cron_facts.

(** A cron entry has one timer or one run, never more.  Over any registrations, starts,
    stops, timers and settled runs, as long as the scheduler is started again only when
    no run is in flight, every entry has at most one timer pending or one call of its
    function in flight; and a stopped scheduler has no timer left. *)
Theorem cron_no_overlap has_next s :
  rtc (cron_step has_next) new_cron s →
  (∀ name, length (timers_of name s) + length (filter (λ n, n = name) (cs_flying s)) <= 1) ∧
  (cs_started s = false → cs_timers s = []).
Proof.
  intros Hrun. assert (cron_ok new_cron) as H0.
  { split; [apply NoDup_nil_2|apply NoDup_nil_2|constructor|apply NoDup_nil_2|].
    intros name. unfold entry_ok. simpl. by split; [apply not_elem_of_nil|]. }
  assert (cron_ok s ∧ (cs_started s = false → cs_timers s = [])) as [[Hj Hh Hn Hf He] Htim].
  { revert H0. assert (cs_started new_cron = false → cs_timers new_cron = []) as Hnew by done.
    revert Hnew. induction Hrun as [|s1 s2 s3 Hstep _ IH]; [done|]. intros Hnew Hok.
    by destruct (cron_step_ok has_next s1 s2 Hstep Hok Hnew) as [? ?]; apply IH. }
  split; [|done]. intros name. specialize (He name). unfold entry_ok in He.
  assert (name ∉ cs_flying s → filter (λ n, n = name) (cs_flying s) = []) as Hnone.
  { intros Hni. apply filter_none. apply Forall_forall. intros n Hin ->. done. }
  destruct (jm_get name (cs_jobs s)) as [e|]; [destruct (ce_running e)|].
  - destruct He as [_ ->]. simpl. apply NoDup_filter_eq_le. done.
  - destruct He as [Hni Hor]. rewrite (Hnone Hni). destruct Hor as [->|(h & _ & ->)]; simpl; lia.
  - destruct He as [Hni ->]. rewrite (Hnone Hni). simpl. lia.
Qed.

Lemma cron_no_overlap_witness :
  let s := timer_fires (λ _, true) 0 (start_cron (λ _, true) (register_cron "cron#0" new_cron)) in
  cs_flying s = ["cron#0"] ∧
  length (timers_of "cron#0" s) + length (filter (λ n, n = "cron#0") (cs_flying s)) <= 1.
Proof.
  cbv zeta. split; [reflexivity|]. apply (cron_no_overlap (λ _, true)).
  eapply rtc_l; [by apply (cron_register _ "cron#0")|].
  eapply rtc_l; [by apply cron_start|].
  eapply rtc_l; [by apply (cron_timer _ 0)|]. apply rtc_refl.
Defined.

(** Restarting while a run is in flight doubles the timer.  A scheduler that is stopped
    and started again before a run settles arms a timer for the entry at [start] and a
    second one when the run settles; from then on both re-arm themselves, so every tick
    calls the function twice. *)
Lemma restart_doubles_timers :
  let next := λ _ : string, true in
  let run h s := run_settles next "job" (timer_fires next h s) in
  let s := run_settles next "job" (start_cron next (stop_cron (timer_fires next 0
             (start_cron next (register_cron "job" new_cron))))) in
  (timers_of "job" s).*1 = [1; 2] ∧ cs_flying s = [] ∧
  cs_flying (timer_fires next 1 s) = ["job"] ∧
  cs_flying (timer_fires next 2 (run 1 s)) = ["job"] ∧
  (timers_of "job" (run 2 (run 1 s))).*1 = [3; 4].
Proof. vm_compute. by repeat split. Qed.

(** ** [Scheduler.fire] and its lock *)

(** The distributed lock: [tryAcquire key ttlMs] at a time answers a handle or [null]. *)
Class SchedulerLock (L H : Type) : Type := {
  tryAcquire : string → Q → Q → L → option H * L;
  release : H → L → L;
}.

(** What the scheduler relies on: a key is granted when nobody holds it, it is not
    granted again before its TTL unless it is released, and a release frees it. *)
Class SchedulerLockLaws (L H : Type) `{SchedulerLock L H} : Type := {
  lock_free : string → L → Prop;
  acquire_free key ttl now l : lock_free key l →
    ∃ h, (tryAcquire key ttl now l).1 = Some h ∧
      lock_free key (release h (tryAcquire key ttl now l).2);
  acquire_held key ttl now l h ttl' now' :
    (tryAcquire key ttl now l).1 = Some h → (now' < now + ttl)%Q →
    tryAcquire key ttl' now' (tryAcquire key ttl now l).2 =
      (None, (tryAcquire key ttl now l).2);
}.

Definition DEFAULT_LOCK_TTL_MS : Q := 55000.

Definition tickKey (name : string) (now : Q) : string :=
  "queue-cron:" +:+ name +:+ ":" +:+ pretty (Qfloor (now / 60000)).

Section fire.
Context {L H W : Type} `{SchedulerLock L H} (dispatch : W → W).

(** [fire] up to the [await] of the dispatch, and from there on: another instance can run
    in between. *)
Definition fire_begin (name : string) (ttl now : Q) (l : L) : option H * L :=
  tryAcquire (tickKey name now) ttl now l.
Definition fire_end (handle : option H) (lw : L * W) : L * W :=
  match handle with
  | Some h => (release h lw.1, dispatch lw.2)
  | None => lw
  end.

(** The whole of [fire]; without a lock it only dispatches. *)
Definition fire (locked : bool) (name : string) (ttl now : Q) (lw : L * W) : L * W :=
  if locked then
    let '(handle, l) := fire_begin name ttl now lw.1 in fire_end handle (l, lw.2)
  else (lw.1, dispatch lw.2).
End fire.

(** The tick lock keeps apart overlapping fires only.  While one instance is between
    acquiring the lock of a tick and releasing it, within the TTL, a fire of the same
    tick dispatches nothing; but the lock is released as soon as the dispatch returns:
    [n] instances that fire the schedule one after the other within the same minute all
    dispatch it, [n] times. *)
Theorem tick_lock_excludes_overlap_only {L H W} `{SchedulerLockLaws L H}
    (dispatch : W → W) (name : string) (ttl : Q) (l : L) (w : W) :
  (∀ t t' h l1, fire_begin name ttl t l = (Some h, l1) →
     tickKey name t' = tickKey name t → (t' < t + ttl)%Q →
     fire dispatch true name ttl t' (l1, w) = (l1, w)) ∧
  (∀ (minute : Z) (times : list Q),
     lock_free ("queue-cron:" +:+ name +:+ ":" +:+ pretty minute) l →
     Forall (λ t, Qfloor (t / 60000) = minute) times →
     (foldl (λ lw t, fire dispatch true name ttl t lw) (l, w) times).2 =
       Nat.iter (length times) dispatch w).
Proof.
  split.
  - intros t t' h l1 Hb Hkey Ht. unfold fire, fire_begin in *. cbn [fst snd]. rewrite Hkey.
    pose proof (acquire_held (tickKey name t) ttl t l h ttl t') as Hheld.
    rewrite Hb in Hheld. cbn [fst snd] in Hheld. by rewrite (Hheld eq_refl Ht).
  - intros minute times Hfree Hall. revert l w Hfree.
    induction Hall as [|t times Ht _ IH]; intros l w Hfree; [done|].
    cbn [foldl length]. rewrite Nat.iter_succ_r.
    unfold fire at 2, fire_begin, tickKey. rewrite Ht.
    destruct (acquire_free _ ttl t l Hfree) as (h & Hh & Hrel). cbn [fst snd].
    destruct (tryAcquire _ ttl t l) as [o l1]. cbn [fst snd] in *. subst o.
    by apply IH.
Qed.

(** The lock of the scheduler's tests: a set of keys, the TTL is not used. *)
#[export] Instance set_lock : SchedulerLock (list string) string := {
  tryAcquire key _ _ held := if decide (key ∈ held) then (None, held) else (Some key, key :: held);
  release key held := filter (λ k, k ≠ key) held;
}.

#[export] Instance set_lock_laws : SchedulerLockLaws (list string) string.
Proof.
  refine {| lock_free := λ key held, key ∉ held |}.
  - intros key ttl now held Hfree. simpl. rewrite decide_False by done. exists key.
    split; [done|]. simpl. rewrite list_elem_of_filter. tauto.
  - intros key ttl now held h ttl' now' Hh _. simpl in *. destruct (decide (key ∈ held)); [done|].
    simpl. rewrite decide_True by left. done.
Defined.

(** Three instances fire within the same minute. *)
Lemma tick_lock_excludes_overlap_only_witness :
  (foldl (λ lw t, fire (λ n, S n) true "cron#0" DEFAULT_LOCK_TTL_MS t lw) ([] : list string, 0)
    [60000; 60010; 61000]%Q).2 = 3.
Proof.
  refine (proj2 (tick_lock_excludes_overlap_only (λ n, S n) "cron#0" DEFAULT_LOCK_TTL_MS
    ([] : list string) 0) 1%Z [60000; 60010; 61000]%Q _ _).
  - apply not_elem_of_nil.
  - repeat constructor.
Defined.
