(* ===== verification/CircuitBreaker.v ===== *)
(** * The gateway's circuit breaker

    Models src/packages/gateway/src/circuit-breaker.ts: the three-state machine per key
    (CLOSED, OPEN, HALF_OPEN), its lazy time-based transition and the bookkeeping of
    failure streaks and probe successes.  [this.clock()] is read at most twice per
    operation: once when the entry is resolved and once when the circuit opens; both
    readings are arguments. *)

From Stdlib Require Import QArith Lqa.
From S2P Require Import Prelude JsMap.

Open Scope Z_scope.

Inductive CircuitState : Type := Closed | Open | HalfOpen.

#[export] Instance CircuitState_eq_dec : EqDecision CircuitState.
Proof. solve_decision. Defined.

Record CircuitEntry : Type := {
  c_state : CircuitState;
  c_failures : Z;
  c_successes : Z;
  c_openedAt : Q;
}.

Record CircuitBreakerPolicy : Type := {
  p_failureThreshold : Q;
  p_openMs : Q;
  p_halfOpenSuccesses : option Q;
}.

Record CircuitBreaker : Type := {
  failureThreshold : Z;
  openMs : Q;
  halfOpenSuccesses : Z;
  entries : list (string * CircuitEntry);
}.

(** [Math.trunc] *)
Definition trunc (q : Q) : Z := Z.quot (Qnum q) (Zpos (Qden q)).

Definition new_breaker (policy : CircuitBreakerPolicy) : CircuitBreaker :=
  {| failureThreshold := Z.max 1 (trunc (p_failureThreshold policy));
     openMs := if Qle_bool 0 (p_openMs policy) then p_openMs policy else 0%Q;
     halfOpenSuccesses := Z.max 1 (trunc (default 1%Q (p_halfOpenSuccesses policy)));
     entries := [] |}.

Definition set_entry (key : string) (e : CircuitEntry) (b : CircuitBreaker) : CircuitBreaker :=
  Build_CircuitBreaker (failureThreshold b) (openMs b) (halfOpenSuccesses b)
    (jm_set key e (entries b)).

Definition fresh_entry : CircuitEntry := Build_CircuitEntry Closed 0 0 0.

(** The lazy OPEN to HALF_OPEN transition at time [now]. *)
Definition resolve_entry (openMs now : Q) (e : CircuitEntry) : CircuitEntry :=
  match c_state e with
  | Open =>
      if Qle_bool openMs (now - c_openedAt e)
      then Build_CircuitEntry HalfOpen (c_failures e) 0 (c_openedAt e)
      else e
  | _ => e
  end.

Definition resolve (key : string) (now : Q) (b : CircuitBreaker) :
    CircuitEntry * CircuitBreaker :=
  let entry := default fresh_entry (jm_get key (entries b)) in
  let entry := resolve_entry (openMs b) now entry in
  (entry, set_entry key entry b).

Definition open_entry (now : Q) (e : CircuitEntry) : CircuitEntry :=
  Build_CircuitEntry Open 0 0 now.
Definition close_entry (e : CircuitEntry) : CircuitEntry := fresh_entry.

Definition state (key : string) (now : Q) (b : CircuitBreaker) : CircuitState * CircuitBreaker :=
  let '(entry, b) := resolve key now b in (c_state entry, b).

Definition canRequest (key : string) (now : Q) (b : CircuitBreaker) : bool * CircuitBreaker :=
  let '(entry, b) := resolve key now b in
  (bool_decide (c_state entry ≠ Open), b).

Definition success_entry (halfOpenSuccesses : Z) (e : CircuitEntry) : CircuitEntry :=
  match c_state e with
  | HalfOpen =>
      let e := Build_CircuitEntry HalfOpen (c_failures e) (c_successes e + 1) (c_openedAt e) in
      if halfOpenSuccesses <=? c_successes e then close_entry e else e
  | Closed => Build_CircuitEntry Closed 0 (c_successes e) (c_openedAt e)
  | Open => e
  end.

Definition onSuccess (key : string) (now : Q) (b : CircuitBreaker) : CircuitBreaker :=
  let '(entry, b) := resolve key now b in
  set_entry key (success_entry (halfOpenSuccesses b) entry) b.

(** [now2] is the clock reading of [open]. *)
Definition failure_entry (failureThreshold : Z) (now2 : Q) (e : CircuitEntry) : CircuitEntry :=
  match c_state e with
  | HalfOpen => open_entry now2 e
  | Closed =>
      let e := Build_CircuitEntry Closed (c_failures e + 1) (c_successes e) (c_openedAt e) in
      if failureThreshold <=? c_failures e then open_entry now2 e else e
  | Open => e
  end.

Definition onFailure (key : string) (now now2 : Q) (b : CircuitBreaker) : CircuitBreaker :=
  let '(entry, b) := resolve key now b in
  set_entry key (failure_entry (failureThreshold b) now2 entry) b.

(** ** Runs *)

Inductive breaker_op : Type :=
| OpState (key : string) (now : Q)
| OpCanRequest (key : string) (now : Q)
| OpSuccess (key : string) (now : Q)
| OpFailure (key : string) (now now2 : Q).

Definition op_key (op : breaker_op) : string :=
  match op with
  | OpState k _ | OpCanRequest k _ | OpSuccess k _ | OpFailure k _ _ => k
  end.
Definition op_time (op : breaker_op) : Q :=
  match op with
  | OpState _ t | OpCanRequest _ t | OpSuccess _ t | OpFailure _ t _ => t
  end.

Definition breaker_step (b : CircuitBreaker) (op : breaker_op) : CircuitBreaker :=
  match op with
  | OpState k t => (state k t b).2
  | OpCanRequest k t => (canRequest k t b).2
  | OpSuccess k t => onSuccess k t b
  | OpFailure k t t2 => onFailure k t t2 b
  end.

Definition breaker_run (b : CircuitBreaker) (ops : list breaker_op) : CircuitBreaker :=
  foldl breaker_step b ops.

(** The effect of an operation on the entry of its key. *)
Definition entry_step (b : CircuitBreaker) (op : breaker_op) (e : CircuitEntry) : CircuitEntry :=
  let e := resolve_entry (openMs b) (op_time op) e in
  match op with
  | OpState _ _ | OpCanRequest _ _ => e
  | OpSuccess _ _ => success_entry (halfOpenSuccesses b) e
  | OpFailure _ _ t2 => failure_entry (failureThreshold b) t2 e
  end.

Definition entry_of (key : string) (b : CircuitBreaker) : CircuitEntry :=
  default fresh_entry (jm_get key (entries b)).

Definition same_config (b b' : CircuitBreaker) : Prop :=
  failureThreshold b' = failureThreshold b ∧ openMs b' = openMs b ∧
  halfOpenSuccesses b' = halfOpenSuccesses b.

#[export] Instance same_config_equiv : Equivalence same_config.
Proof. unfold same_config. split; [easy|intros ? ? (? & ? & ?); easy|]. intros ? ? ? (? & ? & ?) (? & ? & ?). repeat split; congruence. Qed.

(** An operation acts on its own key only. *)
Lemma breaker_step_spec b op :
  same_config b (breaker_step b op) ∧
  ∀ key, entry_of key (breaker_step b op) =
    if decide (key = op_key op) then entry_step b op (entry_of key b) else entry_of key b.
Proof.
  split; [by destruct op|]. intros key. unfold entry_of.
  case_decide as Hk; destruct op as [k t|k t|k t|k t t2]; simpl in *; subst;
    rewrite ?jm_get_set_eq, ?jm_get_set_ne by done; done.
Qed.

Lemma breaker_step_wf b op : jm_wf (entries b) → jm_wf (entries (breaker_step b op)).
Proof. intros H. destruct op; simpl; auto with street. Qed.

Lemma breaker_run_config ops : ∀ b, same_config b (breaker_run b ops).
Proof.
  induction ops as [|op ops IH]; intros b; simpl; [done|].
  etransitivity; [apply (breaker_step_spec b op)|apply IH].
Qed.

(** ** The invariant of an entry *)

Record entry_ok (b : CircuitBreaker) (e : CircuitEntry) : Prop := {
  ok_closed : c_state e = Closed → 0 <= c_failures e < failureThreshold b ∧ c_successes e = 0;
  ok_open : c_state e = Open → c_failures e = 0 ∧ c_successes e = 0;
  ok_half : c_state e = HalfOpen →
    c_failures e = 0 ∧ 0 <= c_successes e < halfOpenSuccesses b;
}.

Lemma fresh_ok b : 1 <= failureThreshold b → entry_ok b fresh_entry.
Proof. split; simpl; [lia|done..]. Qed.

Lemma entry_step_ok b op e :
  1 <= failureThreshold b → 1 <= halfOpenSuccesses b → entry_ok b e → entry_ok b (entry_step b op e).
Proof.
  intros Hf Hh [H1 H2 H3].
  assert (entry_ok b (resolve_entry (openMs b) (op_time op) e)) as [G1 G2 G3].
  { unfold resolve_entry. destruct (c_state e) eqn:Es; [by split; rewrite ?Es| |by split; rewrite ?Es].
    destruct (Qle_bool _ _); [|by split; rewrite ?Es].
    split; simpl; [done|done|]. intros _. destruct (H2 eq_refl). lia. }
  unfold entry_step. set (e' := resolve_entry _ _ _) in *.
  destruct op; [by split|by split| |];
    unfold success_entry, failure_entry; destruct (c_state e') eqn:Es; simpl;
    try case_match; reflect_bools; simpl in *; split; simpl; intros; try congruence;
    try destruct (G1 eq_refl); try destruct (G2 eq_refl); try destruct (G3 eq_refl); lia.
Qed.

Lemma breaker_run_ok ops : ∀ b,
  1 <= failureThreshold b → 1 <= halfOpenSuccesses b → jm_wf (entries b) →
  (∀ k, entry_ok b (entry_of k b)) →
  jm_wf (entries (breaker_run b ops)) ∧
  ∀ k, entry_ok (breaker_run b ops) (entry_of k (breaker_run b ops)).
Proof.
  induction ops as [|op ops IH]; intros b Hf Hh Hwf Hok; simpl; [done|].
  destruct (breaker_step_spec b op) as [(C1 & C2 & C3) Hstep].
  apply IH; [by rewrite C1|by rewrite C3|by apply breaker_step_wf|].
  intros k. rewrite Hstep.
  assert (∀ e, entry_ok b e → entry_ok (breaker_step b op) e) as Hmono.
  { intros e []. split; rewrite ?C1, ?C3; auto. }
  apply Hmono. case_decide; [|done]. by apply entry_step_ok.
Qed.

Lemma new_breaker_ok policy :
  1 <= failureThreshold (new_breaker policy) ∧ 1 <= halfOpenSuccesses (new_breaker policy) ∧
  jm_wf (entries (new_breaker policy)) ∧ ∀ k, entry_of k (new_breaker policy) = fresh_entry.
Proof. simpl. repeat split; [lia|lia|apply NoDup_nil_2]. Qed.

(** The counters stay in their bounds.  After any sequence of operations on any
    keys at any times, every key has one entry; a CLOSED circuit counts fewer failures
    than the threshold, an OPEN one has no counters, a HALF_OPEN one counts fewer probe
    successes than it takes to close. *)
Theorem breaker_invariant policy ops :
  let b := breaker_run (new_breaker policy) ops in
  jm_wf (entries b) ∧ ∀ k, entry_ok b (entry_of k b).
Proof.
  destruct (new_breaker_ok policy) as (Hf & Hh & Hwf & Hfresh).
  apply breaker_run_ok; [done..|]. intros k. rewrite Hfresh. by apply fresh_ok.
Qed.

(** The outcomes recorded for a key, [true] for a success, and the length of the
    streak of failures they end with. *)
Definition feedback1 (key : string) (op : breaker_op) : list bool :=
  match op with
  | OpSuccess k _ => if decide (k = key) then [true] else []
  | OpFailure k _ _ => if decide (k = key) then [false] else []
  | _ => []
  end.
Definition feedback (key : string) (ops : list breaker_op) : list bool :=
  ops ≫= feedback1 key.
Definition trailing (os : list bool) : Z :=
  foldl (λ n (ok : bool), if ok then 0 else n + 1) 0 os.

Lemma trailing_snoc os ok : trailing (os ++ [ok]) = if ok then 0 else trailing os + 1.
Proof. unfold trailing. by rewrite foldl_app. Qed.

Lemma closed_step b op key n :
  entry_of key b = Build_CircuitEntry Closed n 0 0 →
  let n' := foldl (λ n (ok : bool), if ok then 0 else n + 1) n (feedback1 key op) in
  (n' < failureThreshold b →
   entry_of key (breaker_step b op) = Build_CircuitEntry Closed n' 0 0) ∧
  (failureThreshold b <= n' → n < failureThreshold b → 1 <= failureThreshold b →
   ∃ t t2, op = OpFailure key t t2 ∧
     entry_of key (breaker_step b op) = Build_CircuitEntry Open 0 0 t2).
Proof.
  intros He n'. destruct (breaker_step_spec b op) as [_ Hs]. rewrite Hs, He. subst n'.
  destruct op as [k t|k t|k t|k t t2]; simpl; [split; [by case_decide|lia]..| |].
  - destruct (decide (key = k)) as [->|Hne].
    + rewrite decide_True by done. simpl. split; [done|lia].
    + rewrite decide_False by congruence. simpl. split; [done|lia].
  - destruct (decide (key = k)) as [->|Hne].
    + rewrite decide_True by done. simpl. unfold entry_step. simpl. unfold failure_entry. simpl.
      split; intros; [by rewrite (proj2 (Z.leb_gt _ _)) by lia|].
      rewrite (proj2 (Z.leb_le _ _)) by lia. by exists t, t2.
    + rewrite decide_False by congruence. simpl. split; [done|lia].
Qed.

(** The circuit trips exactly at the threshold.  As long as no streak of consecutive
    failures of a key (among its own outcomes, whatever happens to other keys and
    however often it is queried) reaches the threshold, its circuit is CLOSED and
    counts the current streak; the failure that makes the streak reach the threshold
    opens it at that time. *)
Theorem breaker_trips_at_threshold policy key ops :
  let b0 := new_breaker policy in
  (∀ pre post, ops = pre ++ post → trailing (feedback key pre) < failureThreshold b0) →
  let b := breaker_run b0 ops in
  entry_of key b = Build_CircuitEntry Closed (trailing (feedback key ops)) 0 0 ∧
  ∀ t t2, trailing (feedback key ops) + 1 = failureThreshold b0 →
    entry_of key (onFailure key t t2 b) = Build_CircuitEntry Open 0 0 t2.
Proof.
  intros b0 Hpre b. assert (entry_of key b = Build_CircuitEntry Closed (trailing (feedback key ops)) 0 0) as He.
  { subst b. induction ops as [|op ops IH] using rev_ind; [done|].
    unfold breaker_run. rewrite foldl_app. simpl.
    destruct (closed_step (breaker_run b0 ops) op key (trailing (feedback key ops))) as [Hc _].
    { apply IH. intros pre post ->. apply (Hpre pre (post ++ [op])). by rewrite <-(assoc_L (++)). }
    assert (trailing (feedback key (ops ++ [op])) =
      foldl (λ n (ok : bool), if ok then 0 else n + 1) (trailing (feedback key ops)) (feedback1 key op)) as Ht.
    { unfold feedback, trailing. rewrite bind_app, foldl_app. simpl. by rewrite app_nil_r. }
    rewrite <-Ht in Hc. apply Hc.
    destruct (breaker_run_config ops b0) as [-> _].
    apply (Hpre (ops ++ [op]) []). by rewrite app_nil_r. }
  split; [done|]. intros t t2 Ht.
  destruct (breaker_run_config ops b0) as [Hthr _]. fold b in Hthr.
  destruct (closed_step b (OpFailure key t t2) key _ He) as [_ Ho].
  destruct Ho as (t' & t2' & Heq & Ho); simpl; rewrite ?decide_True by done; simpl;
    rewrite ?Hthr; [lia|lia|apply (new_breaker_ok policy)|]. simplify_eq. exact Ho.
Qed.

Definition sample_policy : CircuitBreakerPolicy := Build_CircuitBreakerPolicy 2 100 (Some 2%Q).

Lemma breaker_trips_at_threshold_witness :
  let ops := [OpFailure "a" 0 0; OpSuccess "a" 1; OpFailure "b" 1 1; OpFailure "a" 2 2]%Q in
  entry_of "a" (onFailure "a" 3 3 (breaker_run (new_breaker sample_policy) ops)) =
    Build_CircuitEntry Open 0 0 3.
Proof.
  apply (breaker_trips_at_threshold sample_policy "a"); [|reflexivity].
  intros pre post H. do 5 (destruct pre as [|? pre]; simplify_eq/=; try reflexivity).
Defined.

(** ** The open window and the probes *)

Lemma open_kept b op key t0 :
  entry_of key b = Build_CircuitEntry Open 0 0 t0 →
  (op_key op = key → (op_time op < t0 + openMs b)%Q) →
  entry_of key (breaker_step b op) = Build_CircuitEntry Open 0 0 t0.
Proof.
  intros He Ht. destruct (breaker_step_spec b op) as [_ Hs]. rewrite Hs, He.
  case_decide as Hk; [|done]. symmetry in Hk. specialize (Ht Hk).
  unfold entry_step, resolve_entry. simpl.
  assert (Qle_bool (openMs b) (op_time op - t0) = false) as ->; [|by destruct op].
  destruct (Qle_bool _ _) eqn:E; [|done]. apply Qle_bool_iff in E. lra.
Qed.

(** An open circuit sheds for [openMs], then probes.  From the time [t0] it opened
    and whatever is reported meanwhile, every request before [t0 + openMs] is refused;
    the first query at or after that time finds the circuit HALF_OPEN, with no probe
    success counted yet, and lets the request through. *)
Theorem breaker_sheds_then_probes b key t0 ops t :
  entry_of key b = Build_CircuitEntry Open 0 0 t0 →
  Forall (λ op, op_key op = key → (op_time op < t0 + openMs b)%Q) ops →
  let b' := breaker_run b ops in
  ((t < t0 + openMs b)%Q → (canRequest key t b').1 = false) ∧
  ((t0 + openMs b <= t)%Q →
     (canRequest key t b').1 = true ∧
     entry_of key (canRequest key t b').2 = Build_CircuitEntry HalfOpen 0 0 t0).
Proof.
  intros He Hops b'.
  assert (entry_of key b' = Build_CircuitEntry Open 0 0 t0) as He'.
  { subst b'. revert b He Hops. induction ops as [|op ops IH]; intros b He Hops; [done|].
    apply Forall_cons in Hops as [Hop Hops]. simpl. apply IH; [by apply open_kept|].
    destruct (breaker_step_spec b op) as [(_ & -> & _) _]. done. }
  destruct (breaker_run_config ops b) as (_ & Hcfg & _). fold b' in Hcfg.
  unfold canRequest, resolve. fold (entry_of key b'). rewrite He', Hcfg. unfold resolve_entry. simpl.
  split; intros Ht.
  - assert (Qle_bool (openMs b) (t - t0) = false) as ->; [|done].
    destruct (Qle_bool _ _) eqn:E; [|done]. apply Qle_bool_iff in E. lra.
  - rewrite (proj2 (Qle_bool_iff _ _)) by lra. split; [done|].
    unfold entry_of. simpl. by rewrite jm_get_set_eq.
Qed.

Lemma breaker_sheds_then_probes_witness :
  let b := breaker_run (new_breaker sample_policy) [OpFailure "a" 0 0; OpFailure "a" 5 5]%Q in
  let b' := breaker_run b [OpSuccess "a" 6; OpFailure "a" 50 50]%Q in
  (canRequest "a" 104 b').1 = false ∧ (canRequest "a" 105 b').1 = true.
Proof.
  assert (entry_of "a" (breaker_run (new_breaker sample_policy)
    [OpFailure "a" 0 0; OpFailure "a" 5 5]%Q) = Build_CircuitEntry Open 0 0 5) as H by reflexivity.
  assert (Forall (λ op, op_key op = "a" → (op_time op < 5 + openMs
    (breaker_run (new_breaker sample_policy) [OpFailure "a" 0 0; OpFailure "a" 5 5]%Q))%Q)
    [OpSuccess "a" 6; OpFailure "a" 50 50]%Q) as Hops by (repeat constructor; simpl; lra).
  split.
  - apply (breaker_sheds_then_probes _ "a" 5 _ 104 H Hops). simpl. lra.
  - apply (breaker_sheds_then_probes _ "a" 5 _ 105 H Hops). simpl. lra.
Defined.

Fixpoint successes (key : string) (ts : list Q) (b : CircuitBreaker) : CircuitBreaker :=
  match ts with
  | [] => b
  | t :: ts => successes key ts (onSuccess key t b)
  end.

(** Closing takes exactly [halfOpenSuccesses] probe successes in a row.  From a
    HALF_OPEN circuit with no success counted, fewer successes leave it HALF_OPEN,
    that many close it with cleared counters, and a failure after fewer re-opens it
    with the timer restarted. *)
Theorem breaker_probes key b t0 ts :
  entry_of key b = Build_CircuitEntry HalfOpen 0 0 t0 →
  let n := Z.of_nat (length ts) in
  let b' := successes key ts b in
  (n < halfOpenSuccesses b →
     entry_of key b' = Build_CircuitEntry HalfOpen 0 n t0 ∧
     ∀ t t2, entry_of key (onFailure key t t2 b') = Build_CircuitEntry Open 0 0 t2) ∧
  (n = halfOpenSuccesses b → 0 < n → entry_of key b' = fresh_entry).
Proof.
  intros He n b'.
  assert (∀ ts b k, entry_of key b = Build_CircuitEntry HalfOpen 0 k t0 →
    (k + Z.of_nat (length ts) < halfOpenSuccesses b →
       entry_of key (successes key ts b) = Build_CircuitEntry HalfOpen 0 (k + Z.of_nat (length ts)) t0) ∧
    (k + Z.of_nat (length ts) = halfOpenSuccesses b → (0 < length ts)%nat →
       entry_of key (successes key ts b) = fresh_entry)) as Hind.
  { clear. induction ts as [|t ts IH]; intros b k He.
    { simpl. rewrite Z.add_0_r. split; [done|lia]. }
    destruct (breaker_step_spec b (OpSuccess key t)) as [(_ & _ & Hcfg) Hs].
    specialize (Hs key). rewrite decide_True, He in Hs by done.
    cbn [breaker_step entry_step op_time] in Hs. unfold resolve_entry, success_entry in Hs. simpl in Hs.
    cbn [breaker_step] in Hcfg. cbn [successes length]. rewrite Nat2Z.inj_succ.
    destruct (halfOpenSuccesses b <=? k + 1) eqn:E; reflect_bools.
    - split; [lia|]. intros Hk _. destruct ts as [|t' ts]; [done|]. cbn [length] in *. lia.
    - destruct (IH (onSuccess key t b) (k + 1) Hs) as [IH1 IH2]. rewrite Hcfg in IH1, IH2.
      replace (k + Z.succ (Z.of_nat (length ts))) with (k + 1 + Z.of_nat (length ts)) by lia.
      split; [done|]. intros Hk _. destruct ts; [cbn [length] in *; lia|]. apply IH2; [done|simpl; lia]. }
  destruct (Hind ts b 0 He) as [H1 H2]. rewrite Z.add_0_l in H1, H2. split.
  - intros Hn. specialize (H1 Hn). split; [done|]. intros t t2.
    destruct (breaker_step_spec b' (OpFailure key t t2)) as [_ Hs]. specialize (Hs key).
    rewrite decide_True in Hs by done. subst b'. by rewrite H1 in Hs.
  - intros Hn Hpos. apply H2; [done|lia].
Qed.

Lemma breaker_probes_witness :
  let b := (canRequest "a" 200 (breaker_run (new_breaker sample_policy)
             [OpFailure "a" 0 0; OpFailure "a" 5 5]%Q)).2 in
  entry_of "a" (successes "a" [201%Q; 202%Q] b) = fresh_entry.
Proof.
  refine (proj2 (breaker_probes "a" _ 5 [201%Q; 202%Q] _) _ _); reflexivity.
Defined.
