(* ===== verification/Balancer.v ===== *)
(** * The gateway's load balancers

    Models src/packages/gateway/src/balancer.ts: round robin, least connections, random
    and smooth weighted round robin, each with its scheduling state.  A JavaScript
    number that may be infinite or NaN is a [jsnum]; the random source and the map of
    live connections are arguments. *)

From Stdlib Require Import QArith Qround Lqa.
From S2P Require Import Prelude JsMap.

Open Scope Z_scope.

Inductive jsnum : Type := Fin (q : Q) | NonFinite.

Record UpstreamTarget : Type := {
  t_id : string;
  t_url : string;
  t_weight : option jsnum;
}.

#[export] Instance jsnum_eq_dec : EqDecision jsnum.
Proof.
  intros [[n d]|] [[n' d']|]; [|right; congruence|right; congruence|by left].
  destruct (decide (n = n')), (decide (d = d')); subst; [by left|right; congruence..].
Defined.
#[export] Instance UpstreamTarget_eq_dec : EqDecision UpstreamTarget.
Proof. solve_decision. Defined.

Definition normalizeWeight (target : UpstreamTarget) : Z :=
  match t_weight target with
  | Some (Fin raw) => let floored := Qfloor raw in if floored <? 1 then 1 else floored
  | _ => 1
  end.

(** ** Round robin *)

Definition rr_pick (candidates : list UpstreamTarget) (cursor : nat) :
    option UpstreamTarget * nat :=
  match candidates with
  | [] => (None, cursor)
  | _ =>
      let index := (cursor mod length candidates)%nat in
      (candidates !! index, ((cursor + 1) mod length candidates)%nat)
  end.

(** [n] successive picks from the same candidates. *)
Fixpoint rr_picks (candidates : list UpstreamTarget) (n : nat) (cursor : nat) :
    list UpstreamTarget * nat :=
  match n with
  | O => ([], cursor)
  | S n =>
      let '(t, cursor) := rr_pick candidates cursor in
      let '(ts, cursor) := rr_picks candidates n cursor in
      (option_list t ++ ts, cursor)
  end.

(** ** Least connections *)

Definition live_count (liveConnections : list (string * Z)) (t : UpstreamTarget) : Z :=
  default 0 (jm_get (t_id t) liveConnections).

Definition lc_step (live : list (string * Z)) (acc : UpstreamTarget * Z)
    (candidate : UpstreamTarget) : UpstreamTarget * Z :=
  let '(best, bestCount) := acc in
  let count := live_count live candidate in
  if count <? bestCount then (candidate, count) else (best, bestCount).

Definition lc_pick (candidates : list UpstreamTarget) (live : list (string * Z)) :
    option UpstreamTarget :=
  match candidates with
  | [] => None
  | best :: rest => Some (foldl (lc_step live) (best, live_count live best) rest).1
  end.

(** ** Random *)

Definition EPSILON : Q := (1 # 2 ^ 52)%Q.

Definition random_pick (candidates : list UpstreamTarget) (rng : jsnum) : option UpstreamTarget :=
  match candidates with
  | [] => None
  | _ =>
      let r := match rng with
               | Fin r => if Qle_bool 0 r then r else 0%Q
               | NonFinite => 0%Q
               end in
      let r := if Qle_bool 1 r then (1 - EPSILON)%Q else r in
      let index := Qfloor (r * inject_Z (Z.of_nat (length candidates))) in
      candidates !! Z.to_nat index
  end.

(** ** Smooth weighted round robin *)

Definition credits : Type := list (string * Z).

Definition prune_credits (candidates : list UpstreamTarget) (current : credits) : credits :=
  foldl (λ cur id, if decide (id ∈ t_id <$> candidates) then cur else jm_delete id cur)
    current (jm_keys current).

Record wrr_scan : Type := {
  totalWeight : Z;
  best : option UpstreamTarget;
  bestCurrent : Z;
  current : credits;
}.

Definition wrr_visit (s : wrr_scan) (candidate : UpstreamTarget) : wrr_scan :=
  let weight := normalizeWeight candidate in
  let next := default 0 (jm_get (t_id candidate) (current s)) + weight in
  let current := jm_set (t_id candidate) next (current s) in
  if match best s with None => true | Some _ => bestCurrent s <? next end
  then Build_wrr_scan (totalWeight s + weight) (Some candidate) next current
  else Build_wrr_scan (totalWeight s + weight) (best s) (bestCurrent s) current.

Definition wrr_pick (candidates : list UpstreamTarget) (cur : credits) :
    option UpstreamTarget * credits :=
  match candidates with
  | [] => (None, cur)
  | _ =>
      let cur := prune_credits candidates cur in
      let s := foldl wrr_visit (Build_wrr_scan 0 None 0 cur) candidates in
      match best s with
      | None => (None, current s)
      | Some b => (Some b, jm_set (t_id b) (bestCurrent s - totalWeight s) (current s))
      end
  end.

Fixpoint wrr_picks (candidates : list UpstreamTarget) (n : nat) (cur : credits) :
    list UpstreamTarget * credits :=
  match n with
  | O => ([], cur)
  | S n =>
      let '(t, cur) := wrr_pick candidates cur in
      let '(ts, cur) := wrr_picks candidates n cur in
      (option_list t ++ ts, cur)
  end.

(** ** Lemmas *)

Lemma normalizeWeight_pos t : 1 <= normalizeWeight t.
Proof. unfold normalizeWeight. repeat case_match; reflect_bools; lia. Qed.

Lemma rr_picks_spec candidates n : ∀ cursor,
  candidates ≠ [] →
  rr_picks candidates n cursor =
    (mjoin ((λ i, option_list (candidates !! ((cursor + i) mod length candidates)%nat)) <$> seq 0 n),
     match n with O => cursor | _ => ((cursor + n) mod length candidates)%nat end).
Proof.
  intros cursor Hne. assert (length candidates ≠ 0%nat) as Hl by by destruct candidates.
  revert cursor. induction n as [|n IH]; intros cursor; [done|]. cbn [rr_picks].
  unfold rr_pick at 1. destruct candidates as [|c0 cs] eqn:Hc; [done|]. rewrite <-Hc in *.
  rewrite IH. cbn [seq]. rewrite <-fmap_S_seq. csimpl. rewrite <-list_fmap_compose.
  rewrite Nat.add_0_r. f_equal.
  - f_equal. f_equal. apply list_fmap_ext. intros i x _. simpl. do 2 f_equal.
    rewrite Nat.Div0.add_mod_idemp_l. f_equal. lia.
  - destruct n; [done|]. rewrite Nat.Div0.add_mod_idemp_l. f_equal. lia.
Qed.

Lemma mjoin_option_list {A} (l : list A) (ks : list nat) :
  Forall (λ i, (i < length l)%nat) ks →
  length (mjoin ((λ i, option_list (l !! i)) <$> ks)) = length ks.
Proof.
  induction 1 as [|i ks Hi _ IH]; csimpl; [done|].
  destruct (lookup_lt_is_Some_2 l i Hi) as [x ->]. simpl. by rewrite IH.
Qed.

Lemma mjoin_option_list_seq {A} (l : list A) :
  mjoin ((λ i, option_list (l !! i)) <$> seq 0 (length l)) = l.
Proof.
  induction l as [|x l IH]; [done|]. cbn [length seq]. rewrite <-fmap_S_seq. csimpl.
  rewrite <-list_fmap_compose. simpl. f_equal. exact IH.
Qed.

(** The residues of [n] successive numbers are all the residues. *)
Lemma mod_window n c :
  n ≠ 0%nat → (λ i, (c + i) mod n)%nat <$> seq 0 n ≡ₚ seq 0 n.
Proof.
  intros Hn. symmetry. apply submseteq_length_Permutation; [|by rewrite length_fmap, !length_seq].
  apply NoDup_submseteq; [apply NoDup_seq|].
  intros k Hk%elem_of_seq. apply list_elem_of_fmap.
  exists ((k + n - c mod n) mod n)%nat. pose proof (Nat.mod_upper_bound c n Hn).
  split.
  - rewrite Nat.Div0.add_mod_idemp_r. rewrite <-(Nat.Div0.add_mod_idemp_l c).
    replace (c mod n + (k + n - c mod n))%nat with (k + 1 * n)%nat by lia.
    rewrite Nat.Div0.mod_add, Nat.mod_small; lia.
  - apply elem_of_seq. split; [lia|]. simpl. by apply Nat.mod_upper_bound.
Qed.

(** Round robin is fair over any window.  Wherever the cursor is, as many
    consecutive picks as there are candidates choose every candidate exactly once. *)
Theorem rr_fair candidates cursor :
  candidates ≠ [] → (rr_picks candidates (length candidates) cursor).1 ≡ₚ candidates.
Proof.
  intros Hne. rewrite rr_picks_spec by done. cbn [fst].
  assert (length candidates ≠ 0%nat) as Hl by by destruct candidates.
  transitivity (mjoin ((λ i, option_list (candidates !! i)) <$> seq 0 (length candidates)));
    [|by rewrite mjoin_option_list_seq].
  rewrite <-(mod_window (length candidates) cursor Hl) at 2. by rewrite <-list_fmap_compose.
Qed.

Definition target (id : string) (weight : Z) : UpstreamTarget :=
  Build_UpstreamTarget id "http://127.0.0.1" (Some (Fin (inject_Z weight))).

Lemma rr_fair_witness :
  (rr_picks [target "a" 1; target "b" 1; target "c" 1] 3 2).1 ≡ₚ
    [target "a" 1; target "b" 1; target "c" 1].
Proof. apply (rr_fair [target "a" 1; target "b" 1; target "c" 1] 2). done. Defined.

(** ** Least connections *)

Lemma lc_foldl live rest : ∀ pre b,
  b ∈ pre → Forall (λ t, live_count live b <= live_count live t) pre →
  (∃ p q, pre = p ++ b :: q ∧ Forall (λ t, live_count live b < live_count live t) p) →
  let '(best, n) := foldl (lc_step live) (b, live_count live b) rest in
  n = live_count live best ∧
  ∃ p q, pre ++ rest = p ++ best :: q ∧
    Forall (λ t, live_count live best < live_count live t) p ∧
    Forall (λ t, live_count live best <= live_count live t) q.
Proof.
  induction rest as [|c rest IH]; intros pre b Hb Hmin (p & q & -> & Hp); simpl.
  { rewrite app_nil_r. split; [done|]. exists p, q. split; [done|]. split; [done|].
    apply Forall_app in Hmin as [_ Hmin]. by apply Forall_cons in Hmin as [_ ?]. }
  destruct (live_count live c <? live_count live b) eqn:E; reflect_bools.
  - rewrite (app_cons_snoc (p ++ b :: q) rest c). apply IH.
    + apply elem_of_app. right. left.
    + apply Forall_app. split; [|by repeat constructor].
      eapply Forall_impl; [exact Hmin|]. simpl. lia.
    + exists (p ++ b :: q), []. split; [done|].
      eapply Forall_impl; [exact Hmin|]. simpl. lia.
  - rewrite (app_cons_snoc (p ++ b :: q) rest c). apply IH.
    + apply elem_of_app. by left.
    + apply Forall_app. split; [done|]. repeat constructor. lia.
    + exists p, (q ++ [c]). by rewrite <-(assoc_L (++)).
Qed.

(** Least connections takes the least loaded candidate, the first among equals:
    every candidate before the chosen one has more live connections, every one after
    it at least as many. *)
Theorem lc_pick_least candidates live :
  match lc_pick candidates live with
  | None => candidates = []
  | Some best =>
      ∃ p q, candidates = p ++ best :: q ∧
        Forall (λ t, live_count live best < live_count live t) p ∧
        Forall (λ t, live_count live best <= live_count live t) q
  end.
Proof.
  destruct candidates as [|b rest]; [done|]. simpl.
  pose proof (lc_foldl live rest [b] b ltac:(left) ltac:(by repeat constructor)) as H.
  destruct (foldl _ _ _) as [best n]. destruct H as [_ H]; [by exists [], []|]. exact H.
Qed.

(** ** Random *)

(** The random balancer always answers and is proportional.  For a non-empty list
    it picks a candidate whatever the random source returns (infinite, NaN, negative
    and too large values included); for [r] in [[0, 1)] it picks the [i]-th candidate
    exactly when [r] lies in the [i]-th of the equal slices of the interval. *)
Theorem random_pick_slices candidates rng :
  candidates ≠ [] →
  is_Some (random_pick candidates rng) ∧
  ∀ r i, rng = Fin r → (0 <= r < 1)%Q → (i < length candidates)%nat →
    let n := inject_Z (Z.of_nat (length candidates)) in
    (inject_Z (Z.of_nat i) <= r * n < inject_Z (Z.of_nat i) + 1)%Q →
    random_pick candidates rng = candidates !! i.
Proof.
  intros Hne. unfold random_pick. destruct candidates as [|c0 cs] eqn:Hc; [done|].
  rewrite <-Hc in *. clear c0 cs Hc.
  assert (0 < inject_Z (Z.of_nat (length candidates)))%Q as Hn.
  { change 0%Q with (inject_Z 0). rewrite <-Zlt_Qlt. destruct candidates; [done|simpl; lia]. }
  split.
  - set (r0 := match rng with Fin r => _ | NonFinite => _ end).
    assert (0 <= r0)%Q as H0.
    { subst r0. destruct rng as [q|]; [|apply Qle_refl]. destruct (Qle_bool 0 q) eqn:E; [|apply Qle_refl].
      by apply Qle_bool_iff in E. }
    set (r := if Qle_bool 1 r0 then _ else _).
    assert (0 <= r < 1)%Q as [Hr0 Hr1].
    { subst r. destruct (Qle_bool 1 r0) eqn:E; [unfold EPSILON; split; [|reflexivity]; by apply Qle_bool_iff|].
      split; [done|]. apply Qnot_le_lt. intros ?%Qle_bool_iff. congruence. }
    apply lookup_lt_is_Some_2.
    assert (Qfloor (r * inject_Z (Z.of_nat (length candidates))) < Z.of_nat (length candidates)) as Hlt.
    { rewrite Zlt_Qlt. eapply Qle_lt_trans; [apply Qfloor_le|].
      rewrite <-(Qmult_1_l (inject_Z _)) at 2. by apply Qmult_lt_r. }
    assert (length candidates ≠ 0%nat) by by destruct candidates. lia.
  - set (n := inject_Z _). intros r i -> [Hr0 Hr1] Hi [Hlo Hhi].
    assert (Qle_bool 0 r = true) as -> by by apply Qle_bool_iff.
    assert (Qle_bool 1 r = false) as ->.
    { destruct (Qle_bool 1 r) eqn:E; [|done]. apply Qle_bool_iff in E. lra. }
    f_equal. assert (Qfloor (r * n) = Z.of_nat i) as ->; [|lia].
    pose proof (Qfloor_le (r * n)) as H1. pose proof (Qlt_floor (r * n)) as H2.
    assert (inject_Z (Z.of_nat i) < inject_Z (Qfloor (r * n) + 1))%Q as H3 by lra.
    rewrite <-Zlt_Qlt in H3.
    assert (inject_Z (Qfloor (r * n)) < inject_Z (Z.of_nat i + 1))%Q as H4.
    { rewrite inject_Z_plus. change (inject_Z 1) with 1%Q. lra. }
    rewrite <-Zlt_Qlt in H4. lia.
Qed.

Lemma random_pick_slices_witness :
  random_pick [target "a" 1; target "b" 1; target "c" 1; target "d" 1] (Fin (3 # 5)) =
    Some (target "c" 1) ∧
  is_Some (random_pick [target "a" 1] NonFinite).
Proof.
  split.
  - refine (proj2 (random_pick_slices [target "a" 1; target "b" 1; target "c" 1; target "d" 1]
      (Fin (3 # 5)) _) (3 # 5)%Q 2%nat eq_refl _ _ _); try done; simpl; lia || (split; reflexivity || (intros ?; discriminate)).
  - by apply (random_pick_slices [target "a" 1] NonFinite).
Defined.

(** ** Weighted round robin: the credits of the candidates *)

Lemma wrr_pick_nonempty candidates cur :
  candidates ≠ [] →
  wrr_pick candidates cur =
    let s := foldl wrr_visit (Build_wrr_scan 0 None 0 (prune_credits candidates cur)) candidates in
    match best s with
    | None => (None, current s)
    | Some b => (Some b, jm_set (t_id b) (bestCurrent s - totalWeight s) (current s))
    end.
Proof. by destruct candidates. Qed.

Section weighted.
Context (candidates : list UpstreamTarget).
Hypothesis distinct : NoDup (t_id <$> candidates).

Definition credit (cur : credits) (t : UpstreamTarget) : Z := default 0 (jm_get (t_id t) cur).
Definition weights (l : list UpstreamTarget) : Z := sumZ (normalizeWeight <$> l).

Lemma same_id t t' : t ∈ candidates → t' ∈ candidates → t_id t = t_id t' → t = t'.
Proof.
  intros [i Hi]%list_elem_of_lookup [j Hj]%list_elem_of_lookup Hid.
  assert (i = j) as ->; [|congruence].
  apply (NoDup_lookup _ i j (t_id t) distinct); rewrite list_lookup_fmap, ?Hi, ?Hj; csimpl; congruence.
Qed.

Lemma prune_credit cur t : t ∈ candidates → credit (prune_credits candidates cur) t = credit cur t.
Proof.
  intros Ht. unfold prune_credits, credit. f_equal.
  generalize (jm_keys cur) as ids. intros ids. revert cur.
  induction ids as [|id ids IH]; intros cur; simpl; [done|].
  rewrite IH. case_decide as Hin; [done|]. apply jm_get_delete_ne.
  intros Heq. apply Hin. rewrite <-Heq. apply list_elem_of_fmap. eauto.
Qed.

(** The scan over the candidates still to visit. *)
Lemma wrr_scan_spec l : ∀ s,
  NoDup (t_id <$> l) → l ⊆ candidates →
  let s' := foldl wrr_visit s l in
  totalWeight s' = totalWeight s + weights l ∧
  (∀ t, t ∈ candidates → credit (current s') t =
     credit (current s) t + if decide (t ∈ l) then normalizeWeight t else 0) ∧
  (∀ t, t ∈ l → credit (current s) t + normalizeWeight t <= bestCurrent s') ∧
  (best s ≠ None → bestCurrent s <= bestCurrent s') ∧
  ((best s' = best s ∧ bestCurrent s' = bestCurrent s ∧ (best s = None → l = [])) ∨
   ∃ t, t ∈ l ∧ best s' = Some t ∧ bestCurrent s' = credit (current s) t + normalizeWeight t).
Proof.
  unfold weights. induction l as [|c l IH]; intros s Hnd Hsub; cbn [foldl].
  { repeat split; [unfold sumZ; simpl; lia|intros; rewrite decide_False by apply not_elem_of_nil; lia|
      by intros t ?%not_elem_of_nil|lia|by left]. }
  csimpl in Hnd. apply NoDup_cons in Hnd as [Hni Hnd].
  assert (c ∈ candidates) as Hc by (apply Hsub; left).
  assert (l ⊆ candidates) as Hl by (intros t Ht; apply Hsub; by right).
  destruct (IH (wrr_visit s c) Hnd Hl) as (I1 & I2 & I3 & I4 & I5).
  set (next := credit (current s) c + normalizeWeight c).
  assert (totalWeight (wrr_visit s c) = totalWeight s + normalizeWeight c) as V1.
  { unfold wrr_visit. by case_match. }
  assert (∀ t, t ∈ candidates → credit (current (wrr_visit s c)) t =
    if decide (t = c) then next else credit (current s) t) as V2.
  { intros t Ht. assert (current (wrr_visit s c) = jm_set (t_id c) next (current s)) as ->
      by (unfold wrr_visit; by case_match).
    unfold credit. case_decide as Hd; [subst; by rewrite jm_get_set_eq|].
    rewrite jm_get_set_ne; [done|]. intros Hid. apply Hd. by apply same_id. }
  assert (next <= bestCurrent (wrr_visit s c) ∧ (best s ≠ None → bestCurrent s <= bestCurrent (wrr_visit s c))
    ∧ best (wrr_visit s c) ≠ None ∧
    ((best (wrr_visit s c) = best s ∧ bestCurrent (wrr_visit s c) = bestCurrent s ∧ best s ≠ None) ∨
     (best (wrr_visit s c) = Some c ∧ bestCurrent (wrr_visit s c) = next))) as (V3 & V4 & V5 & V6).
  { unfold wrr_visit. fold (credit (current s) c). fold next. destruct (best s); simpl.
    - destruct (bestCurrent s <? next) eqn:E; simpl; reflect_bools; (repeat split; [lia|lia|done|]); auto.
    - repeat split; [lia|done|done|]. by right. }
  split; [rewrite I1, V1, fmap_cons, sumZ_cons; lia|]. split; [|split; [|split]].
  - intros t Ht. rewrite I2, V2 by done. destruct (decide (t = c)) as [->|Hne].
    + rewrite decide_False by (intros Hin; apply Hni, list_elem_of_fmap; eauto).
      rewrite decide_True by left. subst next. lia.
    + destruct (decide (t ∈ l)); [rewrite decide_True by by right|rewrite decide_False by set_solver]; done.
  - intros t [->|Ht]%elem_of_cons; [specialize (I4 V5); fold next; lia|].
    specialize (I3 t Ht). rewrite V2 in I3 by auto.
    rewrite decide_False in I3; [done|]. intros ->. apply Hni, list_elem_of_fmap. eauto.
  - intros Hb. specialize (I4 V5). specialize (V4 Hb). lia.
  - destruct I5 as [(E1 & E2 & _)|(t & Ht & E1 & E2)].
    + rewrite E1, E2. destruct V6 as [(-> & -> & ?)|[-> ->]]; [left; done|].
      right. exists c. split; [left|done].
    + right. exists t. split; [by right|]. rewrite E1, E2, V2 by auto. rewrite decide_False; [done|].
      intros ->. apply Hni, list_elem_of_fmap. eauto.
Qed.

Lemma wrr_pick_spec cur :
  candidates ≠ [] →
  ∃ b, b ∈ candidates ∧ (wrr_pick candidates cur).1 = Some b ∧
    (∀ t, t ∈ candidates → credit cur t + normalizeWeight t <= credit cur b + normalizeWeight b) ∧
    ∀ t, t ∈ candidates → credit (wrr_pick candidates cur).2 t =
      credit cur t + normalizeWeight t - if decide (t = b) then weights candidates else 0.
Proof.
  intros Hne. set (cur0 := prune_credits candidates cur).
  destruct (wrr_scan_spec candidates (Build_wrr_scan 0 None 0 cur0) distinct ltac:(done))
    as (S1 & S2 & S3 & _ & S5). simpl in *.
  destruct S5 as [(_ & _ & Hnil)|(b & Hb & E1 & E2)]; [by rewrite Hnil in Hne|].
  assert (wrr_pick candidates cur = (Some b,
    let s := foldl wrr_visit (Build_wrr_scan 0 None 0 cur0) candidates in
    jm_set (t_id b) (bestCurrent s - totalWeight s) (current s))) as ->.
  { rewrite wrr_pick_nonempty by done. fold cur0. cbv zeta. by rewrite E1. }
  exists b. split; [done|]. split; [done|]. simpl. split.
  - intros t Ht. specialize (S3 t Ht). rewrite E2 in S3. unfold cur0 in *.
    rewrite !prune_credit in S3 by done. done.
  - intros t Ht. unfold credit. destruct (decide (t = b)) as [->|Hd].
    + rewrite jm_get_set_eq. simpl. rewrite E2, S1. unfold cur0. rewrite prune_credit by done.
      unfold credit. lia.
    + rewrite jm_get_set_ne by (intros Hid; apply Hd; by apply same_id).
      fold (credit (current (foldl wrr_visit (Build_wrr_scan 0 None 0 cur0) candidates)) t).
      rewrite S2, decide_True by done. unfold cur0. rewrite prune_credit by done. unfold credit. lia.
Qed.

Definition chosen (t : UpstreamTarget) (picks : list UpstreamTarget) : Z :=
  Z.of_nat (length (filter (λ x, x = t) picks)).

Lemma chosen_cons t b picks : chosen t (b :: picks) = (if decide (t = b) then 1 else 0) + chosen t picks.
Proof.
  unfold chosen. rewrite filter_cons. destruct (decide (b = t)) as [->|]; simpl.
  - rewrite decide_True by done. lia.
  - rewrite decide_False by congruence. lia.
Qed.

(** The credits after [n] picks. *)
Lemma wrr_picks_credit n : ∀ cur,
  candidates ≠ [] → (∀ t, t ∈ candidates → - weights candidates < credit cur t) →
  sumZ (credit cur <$> candidates) = 0 →
  let '(picks, cur') := wrr_picks candidates n cur in
  picks ⊆ candidates ∧ length picks = n ∧
  (∀ t, t ∈ candidates → - weights candidates < credit cur' t ∧
    credit cur' t = credit cur t + Z.of_nat n * normalizeWeight t - weights candidates * chosen t picks) ∧
  sumZ (credit cur' <$> candidates) = 0.
Proof.
  induction n as [|n IH]; intros cur Hne Hlow Hsum; cbn [wrr_picks].
  { repeat split; [intros t ?%not_elem_of_nil; done|auto|unfold chosen; simpl; lia|done]. }
  destruct (wrr_pick_spec cur Hne) as (b & Hb & Hpick & Hmax & Hcred).
  destruct (wrr_pick candidates cur) as [t0 cur1]. simpl in Hpick, Hcred. subst t0.
  assert (0 < credit cur b + normalizeWeight b) as Hpos.
  { apply Z.nle_gt. intros Hle.
    assert (sumZ ((λ t, credit cur t + normalizeWeight t) <$> candidates) <= sumZ ((λ _, 0) <$> candidates)) as Hs.
    { apply sumZ_le. intros t Ht. specialize (Hmax t Ht). lia. }
    rewrite sumZ_map_add, sumZ_map_const, Hsum in Hs. fold (weights candidates) in Hs.
    assert (Z.of_nat (length candidates) <= weights candidates) as Hw.
    { unfold weights. replace (Z.of_nat (length candidates)) with (1 * Z.of_nat (length candidates)) by lia.
      rewrite <-sumZ_map_const. apply sumZ_le. intros. apply normalizeWeight_pos. }
    destruct candidates; [done|]. simpl in *. lia. }
  assert (∀ t, t ∈ candidates → - weights candidates < credit cur1 t) as Hlow1.
  { intros t Ht. rewrite Hcred by done. specialize (Hlow t Ht). pose proof (normalizeWeight_pos t).
    case_decide; [subst; lia|lia]. }
  assert (sumZ (credit cur1 <$> candidates) = 0) as Hsum1.
  { rewrite (sumZ_map_ext _ (λ t, (credit cur t + normalizeWeight t) +
      (if decide (t = b) then - weights candidates else 0))).
    - rewrite sumZ_map_add, sumZ_map_add, Hsum. fold (weights candidates).
      rewrite (sumZ_single b (- weights candidates) candidates); [lia| |done].
      by apply NoDup_fmap_1 in distinct.
    - intros t Ht. rewrite Hcred by done. case_decide; lia. }
  specialize (IH cur1 Hne Hlow1 Hsum1).
  destruct (wrr_picks candidates n cur1) as [picks cur']. destruct IH as (I1 & I2 & I3 & I4).
  simpl. split; [|split; [by f_equal|split; [|done]]].
  - intros t [->|Ht]%elem_of_cons; auto.
  - intros t Ht. destruct (I3 t Ht) as [L E]. split; [done|].
    rewrite chosen_cons, E, Hcred by done. case_decide; lia.
Qed.

Lemma sum_chosen picks :
  NoDup candidates → picks ⊆ candidates →
  sumZ ((λ t, chosen t picks) <$> candidates) = Z.of_nat (length picks).
Proof.
  intros Hnd. induction picks as [|b picks IH]; intros Hsub.
  { rewrite (sumZ_map_ext _ (λ _, 0)); [by rewrite sumZ_map_const|done]. }
  rewrite (sumZ_map_ext _ (λ t, (if decide (t = b) then 1 else 0) + chosen t picks)).
  - rewrite sumZ_map_add, IH by (intros t Ht; apply Hsub; by right).
    rewrite (sumZ_single b 1 candidates Hnd) by (apply Hsub; left). simpl. lia.
  - intros t _. apply chosen_cons.
Qed.
End weighted.

(** Weighted round robin is exact over a cycle.  From a fresh balancer and for
    candidates with distinct ids, a cycle of as many picks as the sum of the
    (normalized) weights picks every candidate exactly as often as its weight, and
    leaves every credit at zero, so the next cycle starts afresh. *)
Theorem wrr_exact_cycle candidates :
  candidates ≠ [] → NoDup (t_id <$> candidates) →
  let W := weights candidates in
  let '(picks, cur) := wrr_picks candidates (Z.to_nat W) [] in
  Z.of_nat (length picks) = W ∧
  ∀ t, t ∈ candidates → chosen t picks = normalizeWeight t ∧ credit cur t = 0.
Proof.
  intros Hne Hnd W.
  assert (0 < W) as HW.
  { subst W. unfold weights. destruct candidates as [|c cs]; [done|]. csimpl. rewrite sumZ_cons.
    pose proof (normalizeWeight_pos c).
    pose proof (sumZ_le (λ _, 0) normalizeWeight cs) as Hs. rewrite sumZ_map_const in Hs.
    specialize (Hs ltac:(intros t _; pose proof (normalizeWeight_pos t); lia)). lia. }
  pose proof (wrr_picks_credit candidates Hnd (Z.to_nat W) [] Hne) as H.
  destruct (wrr_picks candidates (Z.to_nat W) []) as [picks cur].
  destruct H as (Hsub & Hlen & Hcred & _).
  { intros t _. unfold credit. simpl. fold W. lia. }
  { unfold credit. simpl. rewrite sumZ_map_const. lia. }
  fold W in Hcred. split; [lia|].
  assert (∀ t, t ∈ candidates → chosen t picks = normalizeWeight t) as Hex.
  { apply (sumZ_le_eq (λ t, chosen t picks) normalizeWeight candidates).
    - intros t Ht. destruct (Hcred t Ht) as [Hlow Heq]. unfold credit at 2 in Heq. simpl in Heq.
      rewrite Z2Nat.id in Heq by lia. rewrite Heq in Hlow. nia.
    - fold (weights candidates). fold W. rewrite sum_chosen; [lia| |done].
      by apply NoDup_fmap_1 in Hnd. }
  intros t Ht. split; [auto|]. destruct (Hcred t Ht) as [_ ->]. rewrite Hex by done.
  unfold credit. simpl. rewrite Z2Nat.id by lia. lia.
Qed.

Lemma wrr_exact_cycle_witness :
  let cs := [target "a" 5; target "b" 1; target "c" 1] in
  t_id <$> (wrr_picks cs 7 []).1 = ["a"; "a"; "b"; "a"; "c"; "a"; "a"] ∧
  chosen (target "a" 5) (wrr_picks cs 7 []).1 = 5.
Proof.
  split; [reflexivity|].
  assert (NoDup (t_id <$> [target "a" 5; target "b" 1; target "c" 1])) as Hnd.
  { apply (bool_decide_unpack _). vm_compute. exact I. }
  pose proof (wrr_exact_cycle [target "a" 5; target "b" 1; target "c" 1] ltac:(done) Hnd) as H.
  change (Z.to_nat _) with 7%nat in H.
  destruct (wrr_picks [target "a" 5; target "b" 1; target "c" 1] 7 []) as [picks cur].
  exact (proj1 (proj2 H (target "a" 5) ltac:(left))).
Defined.
