(* ===== verification/GatewayRouter.v ===== *)
(** * The gateway's route matcher and retry loop

    Models src/packages/gateway/src/router.ts and retry.ts.  Paths and patterns are lists
    of code units below 256.  The regular-expression engine is an argument: [regex_exec
    pattern path] are the capture groups of [^(?:pattern)$] on the path.  Of retry.ts the
    delay and [runWithRetry] are modelled with exact rationals; an attempt is its outcome,
    and the race of [withTimeout] is part of it. *)

From Stdlib Require Import Ascii String QArith Qround Lqa.
From S2P Require Import Prelude JsText.

Open Scope Z_scope.

Abbreviation text := (list ascii) (only parsing).

Definition SLASH : ascii := "/"%char.
Definition STAR : ascii := "*"%char.

Inductive RouteMatchKind : Type := KStatic | KPrefix | KWildcard | KRegex.

Inductive LoadBalancerStrategyName : Type :=
| RoundRobin | LeastConnections | Random | WeightedRoundRobin.

Record RouteConfig : Type := {
  pattern : text;
  kind : option RouteMatchKind;
  priority : option Z;
  methods : option (list text);
  service : string;
  strategy : option LoadBalancerStrategyName
}.

Definition startsWith (l p : text) : bool := is_prefix p l.
Definition endsWith (l p : text) : bool := is_prefix (reverse p) (reverse l).

Definition upper (c : ascii) : ascii :=
  if (97 <=? code c) && (code c <=? 122) then ascii_of_N (N_of_ascii c - 32) else c.
Definition toUpperCase (l : text) : text := upper <$> l.

(** [parts.join("/")] *)
Fixpoint join (parts : list text) : text :=
  match parts with
  | [] => []
  | [p] => p
  | p :: parts => p ++ SLASH :: join parts
  end.

Definition resolveKind (route : RouteConfig) : RouteMatchKind :=
  match kind route with
  | Some k => k
  | None => if endsWith (pattern route) [SLASH; STAR] then KWildcard else KStatic
  end.

Definition stripQuery (path : text) : text :=
  match indexOf "?"%char path with None => path | Some q => take q path end.

Definition REGEX_META : list ascii :=
  ["\"; "^"; "$"; "."; "|"; "?"; "*"; "+"; "("; ")"; "["; "]"; "{"; "}"]%char.

Fixpoint literal_run (l : text) : Z :=
  match l with
  | [] => 0
  | c :: l => if decide (c ∈ REGEX_META) then 0 else 1 + literal_run l
  end.

Definition specificity (route : RouteConfig) : Z :=
  match resolveKind route with
  | KStatic | KPrefix => Z.of_nat (length (pattern route))
  | KWildcard =>
      match indexOf STAR (pattern route) with
      | None => Z.of_nat (length (pattern route))
      | Some star => Z.of_nat star
      end
  | KRegex => literal_run (pattern route)
  end.

(** The loop of [matchWildcard]: the segments of the pattern to come, and those of the path
    from [ui] on. *)
Fixpoint match_segments (pSegs uSegs : list text) : option (list text) :=
  match pSegs with
  | [] => match uSegs with [] => Some [] | _ => None end
  | seg :: pSegs =>
      match uSegs with
      | [] => None
      | u :: us =>
          if decide (seg = [STAR]) then
            match pSegs with
            | [] => Some [join (u :: us)]
            | _ => (u ::.) <$> match_segments pSegs us
            end
          else if decide (u = seg) then match_segments pSegs us else None
      end
  end.
Definition matchWildcard (pattern path : text) : option (list text) :=
  match_segments (split_on SLASH pattern) (split_on SLASH path).

Definition methodAllows (route : RouteConfig) (method : option text) : bool :=
  match methods route with
  | None | Some [] => true
  | Some ms =>
      match method with
      | None => true
      | Some m => existsb (λ m', bool_decide (toUpperCase m' = toUpperCase m)) ms
      end
  end.

Definition isCanonicalRequestPath (path : text) : bool :=
  bool_decide (path = [SLASH]) || negb (endsWith path [SLASH]).

Section router.
Context (regex_exec : text → text → option (list (option text))).

Definition tryMatch (route : RouteConfig) (path : text) : option (list text) :=
  match resolveKind route with
  | KStatic => if decide (path = pattern route) then Some [] else None
  | KPrefix =>
      if decide (path = pattern route) then Some []
      else
        let withSlash := if endsWith (pattern route) [SLASH] then pattern route
                         else pattern route ++ [SLASH] in
        if startsWith path withSlash && (Nat.ltb (length withSlash) (length path))
        then Some [] else None
  | KWildcard => matchWildcard (pattern route) path
  | KRegex =>
      (λ groups : list (option text), (λ g, default [] g) <$> groups)
        <$> regex_exec (pattern route) path
  end.

Record best_match : Type := {
  b_route : RouteConfig;
  b_params : list text;
  b_priority : Z;
  b_specificity : Z
}.

(** One turn of the loop of [match]. *)
Definition consider (path : text) (method : option text) (best : option best_match)
    (route : RouteConfig) : option best_match :=
  if methodAllows route method then
    match tryMatch route path with
    | None => best
    | Some params =>
        let prio := default 0 (priority route) in
        let spec := specificity route in
        let found := Some {| b_route := route; b_params := params;
                             b_priority := prio; b_specificity := spec |} in
        match best with
        | None => found
        | Some b =>
            if (b_priority b <? prio) || ((prio =? b_priority b) && (b_specificity b <? spec))
            then found else best
        end
    end
  else best.

Definition route_match (routes : list RouteConfig) (path : text) (method : option text) :
    option (RouteConfig * list text) :=
  let cleanPath := stripQuery path in
  if isCanonicalRequestPath cleanPath then
    (λ b, (b_route b, b_params b)) <$> foldl (consider cleanPath method) None routes
  else None.
End router.

(** ** Retry *)

Record RetryPolicy : Type := {
  maxAttempts : Q;
  baseDelayMs : option Q;
  multiplier : option Q;
  maxDelayMs : option Q;
  retryMethods : option (list text)
}.

Definition computeRetryDelay (policy : RetryPolicy) (attempt : positive) : Q :=
  let raw := (default 0 (baseDelayMs policy) *
              Qpower (default 2 (multiplier policy)) (Zpos attempt - 1))%Q in
  let capped := match maxDelayMs policy with
                | Some cap => if Qle_bool raw cap then raw else cap
                | None => raw
                end in
  if Qle_bool 0 capped then capped else 0%Q.

Section retry.
Context {T E : Type} (attempt : nat → result E T) (isRetryable : E → bool).

Definition retry_limit (policy : RetryPolicy) : nat := Z.to_nat (Z.max 1 (Qfloor (maxAttempts policy))).

Definition methodAllowed (policy : RetryPolicy) (method : option text) : bool :=
  match retryMethods policy with
  | None => true
  | Some ms =>
      match method with
      | None => false
      | Some m => existsb (λ m', bool_decide (toUpperCase m' = toUpperCase m)) ms
      end
  end.

(** The loop from attempt [n], with [left] attempts to go: the delays waited and how it
    ends. *)
Fixpoint retry_loop (policy : RetryPolicy) (allowed : bool) (n remaining : nat) :
    list Q * option (result E T) :=
  match remaining with
  | O => ([], None)
  | S remaining =>
      match attempt n with
      | Ok v => ([], Some (Ok v))
      | Throw err =>
          if (retry_limit policy <=? n)%nat || negb allowed || negb (isRetryable err)
          then ([], Some (Throw err))
          else
            let r := retry_loop policy allowed (S n) remaining in
            (computeRetryDelay policy (Pos.of_nat n) :: r.1, r.2)
      end
  end.
Definition runWithRetry (policy : RetryPolicy) (method : option text) :
    list Q * option (result E T) :=
  retry_loop policy (methodAllowed policy method) 1 (retry_limit policy).
End retry.

(** ** Wildcards

    The path a pattern stands for when its stars are filled with parameters: an inner star
    takes one segment, a trailing one a whole tail. *)

Fixpoint fill_segments (pSegs params : list text) : option (list text) :=
  match pSegs with
  | [] => match params with [] => Some [] | _ => None end
  | seg :: pSegs =>
      if decide (seg = [STAR]) then
        match params with
        | [] => None
        | x :: params =>
            match pSegs with
            | [] => match params with [] => Some (split_on SLASH x) | _ => None end
            | _ => if decide (SLASH ∈ x) then None else (x ::.) <$> fill_segments pSegs params
            end
        end
      else (seg ::.) <$> fill_segments pSegs params
  end.
Definition fill (pattern : text) (params : list text) : option text :=
  join <$> fill_segments (split_on SLASH pattern) params.

Lemma split_on_free sep l : Forall (λ s, sep ∉ s) (split_on sep l).
Proof.
  induction l as [|c l IH]; cbn; [apply Forall_singleton, not_elem_of_nil|].
  case_decide; [apply Forall_cons; split; [apply not_elem_of_nil|done]|].
  destruct (split_on sep l) as [|p ps]; [by apply Forall_singleton; set_solver|].
  apply Forall_cons in IH as [Hp Hps]. apply Forall_cons. split; [|done]. set_solver.
Qed.

Lemma join_cons p ps : ps ≠ [] → join (p :: ps) = p ++ SLASH :: join ps.
Proof. by destruct ps. Qed.

Lemma join_split l : join (split_on SLASH l) = l.
Proof.
  induction l as [|c l IH]; [done|]. cbn [split_on]. pose proof (split_on_nonempty SLASH l) as Hne.
  case_decide as Hc; [by rewrite join_cons, IH, Hc by done|].
  destruct (split_on SLASH l) as [|p ps]; [done|]. rewrite <-IH. by destruct ps.
Qed.

Lemma split_join l : Forall (λ s, SLASH ∉ s) l → l ≠ [] → split_on SLASH (join l) = l.
Proof.
  induction 1 as [|p ps Hp Hps IH]; [done|]. intros _. destruct ps as [|q ps]; [by apply split_on_none|].
  rewrite join_cons, split_on_app by done. by rewrite IH.
Qed.

Lemma match_segments_fill pSegs : ∀ uSegs params,
  Forall (λ s, SLASH ∉ s) uSegs →
  match_segments pSegs uSegs = Some params ↔ fill_segments pSegs params = Some uSegs.
Proof.
  induction pSegs as [|seg pSegs IH]; intros uSegs params Hu; cbn [match_segments fill_segments].
  { destruct uSegs, params; naive_solver. }
  destruct uSegs as [|u us]; cbn [match_segments].
  - split; [done|]. repeat case_decide; destruct params as [|x params]; try done.
    + destruct pSegs; [destruct params; [intros [= Hj]; by apply split_on_nonempty in Hj|done]|].
      destruct (decide (SLASH ∈ x)); [done|]. by intros (? & _ & ?)%fmap_Some.
    + by intros (? & _ & ?)%fmap_Some.
    + by intros (? & _ & ?)%fmap_Some.
  - apply Forall_cons in Hu as [Hs Hu]. destruct (decide (seg = [STAR])) as [->|Hne].
    + destruct pSegs as [|seg' pSegs'].
      * split.
        -- intros Hj. assert (params = [join (u :: us)]) as -> by congruence.
           rewrite split_join; [done|by constructor|done].
        -- destruct params as [|x [|]]; try done. intros [= Hj]. by rewrite <-Hj, join_split.
      * destruct params as [|x params].
        { split; [|done]. by intros (? & _ & ?)%fmap_Some. }
        split.
        -- intros (ps & Hps & [= -> ->])%fmap_Some. rewrite decide_False by done.
           apply IH in Hps; [|done]. by rewrite Hps.
        -- destruct (decide (SLASH ∈ x)); [done|]. intros (qs & Hqs & [= -> ->])%fmap_Some.
           apply IH in Hqs; [|done]. by rewrite Hqs.
    + destruct (decide (u = seg)) as [->|Hus].
      * rewrite IH by done. split; [by intros ->|]. intros (qs & Hqs & [= ->])%fmap_Some. done.
      * split; [done|]. intros (qs & Hqs & [= ? ->])%fmap_Some. done.
Qed.

Lemma fill_segments_free pSegs : ∀ params l,
  Forall (λ s, SLASH ∉ s) pSegs → fill_segments pSegs params = Some l →
  Forall (λ s, SLASH ∉ s) l ∧ (pSegs ≠ [] → l ≠ []).
Proof.
  induction pSegs as [|seg pSegs IH]; intros params l Hp; cbn [fill_segments].
  { destruct params; [|done]. by intros [= <-]. }
  apply Forall_cons in Hp as [Hs Hp]. case_decide.
  - destruct params as [|x params]; [done|]. destruct pSegs as [|seg' pSegs'].
    + destruct params; [|done]. intros [= <-]. split; [apply split_on_free|].
      intros _. apply split_on_nonempty.
    + case_decide; [done|]. intros (qs & Hqs & ->)%fmap_Some.
      destruct (IH _ _ Hp Hqs). split; [by constructor|done].
  - intros (qs & Hqs & ->)%fmap_Some. destruct (IH _ _ Hp Hqs). split; [by constructor|done].
Qed.

(** ** Selection *)

Section selection.
Context (regex_exec : text → text → option (list (option text))).
Context (path : text) (method : option text).

Definition admits (r : RouteConfig) (params : list text) : Prop :=
  methodAllows r method = true ∧ tryMatch regex_exec r path = Some params.

(** The later route [r'] loses against [r]; the earlier one loses strictly. *)
Definition rank (r : RouteConfig) : Z * Z := (default 0 (priority r), specificity r).
Definition rank_lt (a b : Z * Z) : Prop := a.1 < b.1 ∨ (a.1 = b.1 ∧ a.2 < b.2).

Definition wins (routes : list RouteConfig) (i : nat) (r : RouteConfig) : Prop :=
  ∀ j r' ps, routes !! j = Some r' → admits r' ps →
    if (j <? i)%nat then rank_lt (rank r') (rank r) else ¬ rank_lt (rank r) (rank r').

Definition selected (routes : list RouteConfig) (best : option best_match) : Prop :=
  match best with
  | None => ∀ j r ps, routes !! j = Some r → ¬ admits r ps
  | Some b =>
      rank (b_route b) = (b_priority b, b_specificity b) ∧
      ∃ i, routes !! i = Some (b_route b) ∧ admits (b_route b) (b_params b) ∧
        wins routes i (b_route b)
  end.

Lemma consider_selected routes r best :
  selected routes best → selected (routes ++ [r]) (consider regex_exec path method best r).
Proof.
  intros Hs. unfold consider.
  assert ((∀ ps, ¬ admits r ps) → selected (routes ++ [r]) best) as Hskip.
  { intros Hn. destruct best as [b|]; cbn in *.
    - destruct Hs as (Hr & i & Hi & Ha & Hw). split; [done|]. exists i.
      split; [by apply lookup_app_l_Some|]. split; [done|]. intros j r' ps Hj Ha'.
      apply lookup_app_Some in Hj as [Hj|[_ Hj]]; [by eapply Hw|].
      apply list_lookup_singleton_Some in Hj as [_ <-]. by destruct (Hn ps).
    - intros j r' ps Hj. apply lookup_app_Some in Hj as [Hj|[_ Hj]]; [by eapply Hs|].
      apply list_lookup_singleton_Some in Hj as [_ <-]. apply Hn. }
  destruct (methodAllows r method) eqn:Hm; [|apply Hskip; intros ps [? _]; congruence].
  destruct (tryMatch regex_exec r path) as [params|] eqn:Ht;
    [|apply Hskip; intros ps [_ ?]; congruence].
  assert (admits r params) as Har by done.
  set (found := {| b_route := r; b_params := params; b_priority := default 0 (priority r);
                   b_specificity := specificity r |}).
  assert ((∀ j r' ps, routes !! j = Some r' → admits r' ps → rank_lt (rank r') (rank r)) →
    selected (routes ++ [r]) (Some found)) as Htake.
  { intros Hlt. split; [done|]. exists (length routes). split; [by apply list_lookup_middle|].
    split; [done|]. intros j r' ps Hj Ha'.
    apply lookup_app_Some in Hj as [Hj|[Hge Hj]].
    - apply lookup_lt_Some in Hj as Hlt'. rewrite (proj2 (Nat.ltb_lt _ _) Hlt'). by eapply Hlt.
    - apply list_lookup_singleton_Some in Hj as [Hz <-]. rewrite (proj2 (Nat.ltb_ge _ _) Hge).
      unfold rank_lt. cbn. lia. }
  destruct best as [b|]; [|apply Htake; intros j r' ps Hj Ha; by destruct (Hs j r' ps)].
  destruct Hs as (Hr & i & Hi & Ha & Hw).
  destruct (_ || _) eqn:Hc.
  - assert (rank_lt (rank (b_route b)) (rank r)) as Hlt.
    { rewrite Hr. unfold rank_lt. cbn. apply orb_true_iff in Hc as [Hc|Hc]; reflect_bools; lia. }
    apply Htake. intros j r' ps Hj Ha'. specialize (Hw j r' ps Hj Ha').
    unfold rank_lt in *. case_match; lia.
  - assert (¬ rank_lt (rank (b_route b)) (rank r)) as Hlt.
    { rewrite Hr. unfold rank_lt. cbn. apply orb_false_iff in Hc as [Hc1 Hc2].
      apply Z.ltb_ge in Hc1. apply andb_false_iff in Hc2 as [Hc2|Hc2]; reflect_bools; lia. }
    split; [done|]. exists i. split; [by apply lookup_app_l_Some|]. split; [done|].
    intros j r' ps Hj Ha'. apply lookup_app_Some in Hj as [Hj|[Hge Hj]]; [by eapply Hw|].
    apply list_lookup_singleton_Some in Hj as [_ <-]. apply lookup_lt_Some in Hi.
    assert ((j <? i)%nat = false) as -> by (apply Nat.ltb_ge; lia). done.
Qed.

Lemma foldl_selected routes : selected routes (foldl (consider regex_exec path method) None routes).
Proof.
  induction routes as [|r routes IH] using rev_ind; [by intros j r ps|].
  rewrite foldl_app. by apply consider_selected.
Qed.
End selection.

(** ** Properties *)

(** matching a wildcard pattern inverts filling it: a path matches with given
    parameters exactly when it is the pattern with its stars replaced by them, an inner
    star by one segment and a trailing star by any tail. *)
Theorem wildcard_inverts_fill (pat path : text) (params : list text) :
  matchWildcard pat path = Some params ↔ fill pat params = Some path.
Proof.
  unfold matchWildcard, fill. rewrite match_segments_fill by apply split_on_free. split.
  - intros ->. cbn. by rewrite join_split.
  - intros (l & Hl & ->)%fmap_Some. rewrite Hl. f_equal. symmetry.
    destruct (fill_segments_free _ _ _ (split_on_free SLASH pat) Hl) as [Hf Hne].
    apply split_join; [done|]. apply Hne, split_on_nonempty.
Qed.

(** the router answers with a route that admits the request and that no other beats:
    priority first, then specificity, then the order of declaration; it answers null
    exactly when the path is not canonical or no route admits it. *)
Theorem match_selects_best (regex_exec : text → text → option (list (option text)))
    (routes : list RouteConfig) (path : text) (method : option text) :
  match route_match regex_exec routes path method with
  | None =>
      isCanonicalRequestPath (stripQuery path) = false ∨
      ∀ j r ps, routes !! j = Some r → ¬ admits regex_exec (stripQuery path) method r ps
  | Some (r, ps) =>
      isCanonicalRequestPath (stripQuery path) = true ∧
      ∃ i, routes !! i = Some r ∧ admits regex_exec (stripQuery path) method r ps ∧
        wins regex_exec (stripQuery path) method routes i r
  end.
Proof.
  unfold route_match. destruct (isCanonicalRequestPath (stripQuery path)); [|by left].
  pose proof (foldl_selected regex_exec (stripQuery path) method routes) as Hs.
  destruct (foldl _ None routes) as [b|]; cbn in *; [|by right].
  split; [done|]. by destruct Hs as [_ Hs].
Qed.

Lemma computeRetryDelay_bounds policy n :
  (0 <= computeRetryDelay policy n)%Q ∧
  ∀ cap, maxDelayMs policy = Some cap → (0 <= cap)%Q → (computeRetryDelay policy n <= cap)%Q.
Proof.
  unfold computeRetryDelay. split.
  - case_match eqn:E; [by apply Qle_bool_iff|apply Qle_refl].
  - intros cap -> Hcap. repeat case_match; try done; try apply Qle_refl.
    by apply Qle_bool_iff.
Qed.

Section retry_claims.
Context {T E : Type} (attempt : nat → result E T) (isRetryable : E → bool).

Definition goes_on (policy : RetryPolicy) (allowed : bool) (j : nat) : Prop :=
  (j < retry_limit policy)%nat ∧ allowed = true ∧ ∃ e, attempt j = Throw e ∧ isRetryable e = true.

Lemma retry_loop_spec policy allowed remaining : ∀ n,
  (n + remaining = S (retry_limit policy))%nat → (1 <= remaining)%nat → (1 <= n)%nat →
  ∃ k, (n <= k <= retry_limit policy)%nat ∧
    retry_loop attempt isRetryable policy allowed n remaining =
      ((λ j, computeRetryDelay policy (Pos.of_nat j)) <$> List.seq n (k - n), Some (attempt k)) ∧
    (∀ j, (n <= j < k)%nat → goes_on policy allowed j) ∧
    ¬ goes_on policy allowed k.
Proof.
  induction remaining as [|remaining IH]; intros n Hsum Hr Hn; [lia|]. cbn [retry_loop].
  assert (¬ goes_on policy allowed n → ∃ k, (n <= k <= retry_limit policy)%nat ∧
    ([], Some (attempt n)) =
      ((λ j, computeRetryDelay policy (Pos.of_nat j)) <$> List.seq n (k - n), Some (attempt k)) ∧
    (∀ j, (n <= j < k)%nat → goes_on policy allowed j) ∧ ¬ goes_on policy allowed k) as Hstop.
  { intros Hng. exists n. rewrite Nat.sub_diag. split; [lia|]. split; [done|]. split; [lia|done]. }
  destruct (attempt n) as [v|e] eqn:Ea.
  { rewrite <-Ea in Hstop. rewrite <-Ea. apply Hstop. intros (_ & _ & e & He & _). congruence. }
  destruct (_ || _) eqn:Hc.
  - apply Hstop. intros (Hlt & -> & e' & He & Hre). rewrite Ea in He. injection He as ->.
    rewrite Hre in Hc. cbn in Hc. rewrite !orb_false_r in Hc. apply Nat.leb_le in Hc. lia.
  - apply orb_false_iff in Hc as [Hc He]. apply orb_false_iff in Hc as [Hc Hal].
    apply Nat.leb_gt in Hc. apply negb_false_iff in He, Hal.
    destruct (IH (S n)) as (k & Hk & Hl & Hgo & Hng); [lia..|].
    exists k. split; [lia|]. split; [|split; [|done]].
    + rewrite Hl. replace (k - n)%nat with (S (k - S n)) by lia. done.
    + intros j Hj. destruct (decide (j = n)) as [->|]; [|apply Hgo; lia].
      split; [lia|]. split; [done|]. by exists e.
Qed.

(** a request is attempted once or more and at most [maxAttempts] times: it ends with
    the outcome of the first attempt that succeeds, is not retryable, is of a method not
    allowed or is the last, after waiting the backoff of each attempt before it, which
    is never negative nor above its cap. *)
Theorem retry_outcome (policy : RetryPolicy) (method : option text) :
  let allowed := methodAllowed policy method in
  ∃ k, (1 <= k <= retry_limit policy)%nat ∧
    runWithRetry attempt isRetryable policy method =
      ((λ j, computeRetryDelay policy (Pos.of_nat j)) <$> List.seq 1 (k - 1), Some (attempt k)) ∧
    (∀ j, (1 <= j < k)%nat → goes_on policy allowed j) ∧ ¬ goes_on policy allowed k ∧
    (∀ j cap, maxDelayMs policy = Some cap → (0 <= cap)%Q →
       (0 <= computeRetryDelay policy (Pos.of_nat j) <= cap)%Q).
Proof.
  cbv zeta. unfold runWithRetry. assert (1 <= retry_limit policy)%nat by (unfold retry_limit; lia).
  destruct (retry_loop_spec policy (methodAllowed policy method) (retry_limit policy) 1)
    as (k & Hk & Hl & Hgo & Hng); [lia..|].
  exists k. split; [done|]. split; [done|]. split; [done|]. split; [done|].
  intros j cap Hcap Hpos. destruct (computeRetryDelay_bounds policy (Pos.of_nat j)) as [H0 H1].
  split; [done|]. by apply H1.
Qed.
End retry_claims.
