(* ===== verification/Gateway.v ===== *)
(** * The gateway's request pipeline from routing to the forward

    Models steps 5 and 9 to 11 of [handle] in src/packages/gateway/src/gateway.ts, the
    health registry of health.ts and [createBalancer] of balancer.ts: a request is routed,
    a healthy target of its service is picked by the balancer of its strategy, the circuit
    of the target is asked, and the forward is counted on the target while it runs.  A
    request is two steps, up to the await of the forward and after it, so requests
    interleave.  The steps before (body limit, CORS, versions, rate limit, authentication)
    and the response after are not modelled; the outcome of the forward with its retries
    is an argument of the second step. *)

From Stdlib Require Import Ascii String QArith.
From stdpp Require Import strings.
From S2P Require Import Prelude JsMap CircuitBreaker Balancer GatewayRouter.

Open Scope Z_scope.

(** ** Health *)

Inductive HealthState : Type := Healthy | Unhealthy | Unknown.
#[export] Instance HealthState_eq_dec : EqDecision HealthState.
Proof. solve_decision. Defined.

Definition HealthRegistry : Type := list (string * HealthState).

Definition setState (targetId : string) (st : HealthState) (h : HealthRegistry) :
    HealthRegistry := jm_set targetId st h.
Definition eligible (h : HealthRegistry) (t : UpstreamTarget) : bool :=
  bool_decide (jm_get (t_id t) h ≠ Some Unhealthy).
Definition filterHealthy (targets : list UpstreamTarget) (h : HealthRegistry) :
    list UpstreamTarget := filter (λ t, eligible h t = true) targets.

(** How a probe ends: the checker answers, fails, or the timeout is first. *)
Inductive probe_outcome : Type := Checked (ok : bool) | CheckFailed | TimedOut.
Definition probeOne (targetId : string) (o : probe_outcome) (h : HealthRegistry) :
    HealthRegistry :=
  setState targetId (match o with Checked true => Healthy | _ => Unhealthy end) h.

(** ** Balancers *)

Inductive balancer : Type :=
| BRoundRobin (cursor : nat)
| BLeastConnections
| BRandom
| BWeighted (cur : credits).

Definition createBalancer (name : LoadBalancerStrategyName) : balancer :=
  match name with
  | RoundRobin => BRoundRobin 0
  | LeastConnections => BLeastConnections
  | Random => BRandom
  | WeightedRoundRobin => BWeighted []
  end.

Definition balancer_pick (rng : jsnum) (candidates : list UpstreamTarget)
    (live : list (string * Z)) (b : balancer) : option UpstreamTarget * balancer :=
  match b with
  | BRoundRobin cursor => let r := rr_pick candidates cursor in (r.1, BRoundRobin r.2)
  | BLeastConnections => (lc_pick candidates live, b)
  | BRandom => (random_pick candidates rng, b)
  | BWeighted cur => let r := wrr_pick candidates cur in (r.1, BWeighted r.2)
  end.

(** ** The gateway *)

Record ServiceConfig : Type := {
  s_targets : list UpstreamTarget;
  s_strategy : option LoadBalancerStrategyName
}.

Record in_flight : Type := { f_key : string; f_target : UpstreamTarget }.

Record Gateway : Type := {
  services : list (string * ServiceConfig);
  breaker : CircuitBreaker;
  health : HealthRegistry;
  balancers : list (string * LoadBalancerStrategyName * balancer);
  liveConnections : list (string * Z);
  flights : list in_flight           (* the forwards awaited *)
}.

Inductive GatewayError : Type :=
| RouteNotFound | NoHealthyUpstream (service : string) | CircuitIsOpen (key : string).

Definition set_balancers l (g : Gateway) : Gateway :=
  {| services := services g; breaker := breaker g; health := health g; balancers := l;
     liveConnections := liveConnections g; flights := flights g |}.
Definition set_breaker b (g : Gateway) : Gateway :=
  {| services := services g; breaker := b; health := health g; balancers := balancers g;
     liveConnections := liveConnections g; flights := flights g |}.
Definition set_health h (g : Gateway) : Gateway :=
  {| services := services g; breaker := breaker g; health := h; balancers := balancers g;
     liveConnections := liveConnections g; flights := flights g |}.
Definition set_flights l (g : Gateway) : Gateway :=
  {| services := services g; breaker := breaker g; health := health g;
     balancers := balancers g; liveConnections := liveConnections g; flights := l |}.

Definition bump (targetId : string) (delta : Z) (g : Gateway) : Gateway :=
  let next := Z.max 0 (default 0 (jm_get targetId (liveConnections g)) + delta) in
  {| services := services g; breaker := breaker g; health := health g;
     balancers := balancers g; liveConnections := jm_set targetId next (liveConnections g);
     flights := flights g |}.

#[export] Instance strategy_eq_dec : EqDecision LoadBalancerStrategyName.
Proof. solve_decision. Defined.

(** [balancerFor]: the key is the service with the strategy. *)
Definition effective_strategy (svc : ServiceConfig) (route : RouteConfig) :
    LoadBalancerStrategyName :=
  match strategy route with
  | Some s => s
  | None => default RoundRobin (s_strategy svc)
  end.
Definition balancerFor (svc : ServiceConfig) (route : RouteConfig) (g : Gateway) : balancer :=
  default (createBalancer (effective_strategy svc route))
    (jm_get (service route, effective_strategy svc route) (balancers g)).

Definition breaker_key (svc : string) (t : UpstreamTarget) : string := svc +:+ "::" +:+ t_id t.

(** Steps 9 to 11 up to the await of the forward. *)
Definition select_upstream (route : RouteConfig) (rng : jsnum) (now : Q) (g : Gateway) :
    result GatewayError in_flight * Gateway :=
  match jm_get (service route) (services g) with
  | None => (Throw (NoHealthyUpstream (service route)), g)
  | Some svc =>
      let healthy := filterHealthy (s_targets svc) (health g) in
      let r := balancer_pick rng healthy (liveConnections g) (balancerFor svc route g) in
      let g := set_balancers
                 (jm_set (service route, effective_strategy svc route) r.2 (balancers g)) g in
      match r.1 with
      | None => (Throw (NoHealthyUpstream (service route)), g)
      | Some target =>
          let key := breaker_key (service route) target in
          let '(ok, b) := canRequest key now (breaker g) in
          let g := set_breaker b g in
          if ok then
            let f := {| f_key := key; f_target := target |} in
            (Ok f, set_flights (flights g ++ [f]) (bump (t_id target) 1 g))
          else (Throw (CircuitIsOpen key), g)
      end
  end.

(** Step 5 and then the selection. *)
Definition begin_request (regex_exec : text → text → option (list (option text)))
    (routes : list RouteConfig) (path : text) (method : text) (rng : jsnum) (now : Q)
    (g : Gateway) : result GatewayError in_flight * Gateway :=
  match route_match regex_exec routes path (Some method) with
  | None => (Throw RouteNotFound, g)
  | Some (route, _) => select_upstream route rng now g
  end.

(** After the forward: the circuit learns the outcome and the count goes down. *)
Definition end_request (i : nat) (ok : bool) (now now2 : Q) (g : Gateway) : Gateway :=
  match flights g !! i with
  | None => g
  | Some f =>
      let b := if ok then onSuccess (f_key f) now (breaker g)
               else onFailure (f_key f) now now2 (breaker g) in
      bump (t_id (f_target f)) (-1) (set_flights (delete i (flights g)) (set_breaker b g))
  end.

Inductive gateway_event : Type :=
| GBegin (path method : text) (rng : jsnum) (now : Q)
| GEnd (i : nat) (ok : bool) (now now2 : Q)
| GProbe (targetId : string) (o : probe_outcome).

Section gateway.
Context (regex_exec : text → text → option (list (option text))) (routes : list RouteConfig).

Definition gateway_step (g : Gateway) (e : gateway_event) : Gateway :=
  match e with
  | GBegin path method rng now => (begin_request regex_exec routes path method rng now g).2
  | GEnd i ok now now2 => end_request i ok now now2 g
  | GProbe targetId o => set_health (probeOne targetId o (health g)) g
  end.
Definition gateway_run (g : Gateway) (l : list gateway_event) : Gateway :=
  foldl gateway_step g l.

Definition new_gateway (svcs : list (string * ServiceConfig)) (policy : CircuitBreakerPolicy) :
    Gateway :=
  {| services := svcs; breaker := new_breaker policy; health := []; balancers := [];
     liveConnections := []; flights := [] |}.

(** ** The live counts *)

Definition flights_on (id : string) (g : Gateway) : Z :=
  Z.of_nat (length (filter (λ f, t_id (f_target f) = id) (flights g))).
Definition live (id : string) (g : Gateway) : Z := default 0 (jm_get id (liveConnections g)).
Definition counted (g : Gateway) : Prop := ∀ id, live id g = flights_on id g.

Lemma live_bump id id' d g :
  live id (bump id' d g) = if decide (id = id') then Z.max 0 (live id' g + d) else live id g.
Proof.
  unfold live, bump. cbn [liveConnections]. case_decide as Hd.
  - subst. by rewrite jm_get_set_eq.
  - by rewrite jm_get_set_ne.
Qed.

Lemma counted_same g g' :
  counted g → liveConnections g' = liveConnections g → flights g' = flights g → counted g'.
Proof. intros H Hl Hf id. unfold live, flights_on. rewrite Hl, Hf. apply H. Qed.

Lemma counted_select route rng now g :
  counted g → counted (select_upstream route rng now g).2.
Proof.
  intros Hc. unfold select_upstream. destruct (jm_get (service route) (services g)) as [svc|]; [|done].
  destruct (balancer_pick _ _ _ _) as [[target|] b]; cbn [fst snd]; [|by apply (counted_same g)].
  destruct (canRequest _ _ _) as [[] br]; [|by apply (counted_same g)].
  intros id. unfold flights_on. cbn [snd flights set_flights].
  change (flights (bump _ 1 _)) with (flights g).
  rewrite filter_app, length_app, filter_cons, filter_nil. cbn [f_target].
  change (live id (set_flights _ ?x)) with (live id x). rewrite live_bump.
  change (live ?k (set_breaker _ (set_balancers _ g))) with (live k g).
  cbn [flights set_breaker set_balancers].
  pose proof (Hc id) as Hid. unfold flights_on in Hid. case_decide as Hd.
  - subst. rewrite decide_True by done. cbn [length]. rewrite Hid. lia.
  - rewrite decide_False by congruence. cbn [length]. lia.
Qed.

Lemma filter_delete_length {A} (P : A → Prop) `{!∀ x, Decision (P x)} (l : list A) i x :
  l !! i = Some x →
  length (filter P l) = (length (filter P (delete i l)) + (if decide (P x) then 1 else 0))%nat.
Proof.
  intros Hi. rewrite delete_take_drop. rewrite <-(take_drop_middle l i x Hi) at 1.
  rewrite !filter_app, filter_cons, !length_app. case_decide; cbn [length]; lia.
Qed.

Lemma counted_end i ok now now2 g : counted g → counted (end_request i ok now now2 g).
Proof.
  intros Hc. unfold end_request. destruct (flights g !! i) as [f|] eqn:Hi; [|done].
  intros id. unfold flights_on. change (flights (bump _ _ (set_flights ?l _))) with l.
  rewrite live_bump. change (live ?k (set_flights _ (set_breaker _ g))) with (live k g).
  pose proof (Hc id) as Hid. unfold flights_on in Hid.
  rewrite (filter_delete_length _ _ _ _ Hi) in Hid. cbn beta in Hid.
  repeat case_decide; try congruence; subst; lia.
Qed.

Lemma counted_step g e : counted g → counted (gateway_step g e).
Proof.
  intros Hc. destruct e as [path method rng now|i ok now now2|id o]; cbn [gateway_step].
  - unfold begin_request. destruct (route_match _ _ _ _) as [[route ps]|]; [|done].
    by apply counted_select.
  - by apply counted_end.
  - by apply (counted_same g).
Qed.

Lemma counted_run l : ∀ g, counted g → counted (gateway_run g l).
Proof. induction l as [|e l IH]; intros g Hc; [done|]. by apply IH, counted_step. Qed.

(** ** Picks *)

Lemma wrr_best_in (l : list UpstreamTarget) (all : list UpstreamTarget) : ∀ s,
  (∀ x, x ∈ l → x ∈ all) → (∀ b, best s = Some b → b ∈ all) →
  ∀ b, best (foldl wrr_visit s l) = Some b → b ∈ all.
Proof.
  induction l as [|x l IH]; intros s Hl Hs b; [apply Hs|]. cbn [foldl]. apply IH.
  - intros y Hy. apply Hl. by right.
  - intros b'. unfold wrr_visit. case_match; cbn; [intros [= <-]; apply Hl; left|apply Hs].
Qed.

Lemma balancer_pick_in rng candidates lv b t :
  (balancer_pick rng candidates lv b).1 = Some t → t ∈ candidates.
Proof.
  destruct b as [cursor| | |cur]; cbn [balancer_pick fst].
  - unfold rr_pick. destruct candidates as [|c l]; [done|]. apply list_elem_of_lookup_2.
  - intros H. pose proof (lc_pick_least candidates lv) as Hl. rewrite H in Hl.
    destruct Hl as (p & q & -> & _). apply elem_of_app. right. left.
  - unfold random_pick. destruct candidates as [|c l]; [done|]. apply list_elem_of_lookup_2.
  - destruct candidates as [|c l]; [done|]. rewrite wrr_pick_nonempty by done. cbv zeta.
    set (s := foldl _ _ _). destruct (best s) as [b|] eqn:Eb; [|done].
    cbn [fst]. intros [= <-]. by eapply (wrr_best_in (c :: l) (c :: l)); [..|exact Eb].
Qed.

(** ** Properties *)

(** over every interleaving of requests, ends of forwards and probes, the live count of
    a target is the number of forwards that run on it, and is never cut off at zero. *)
Theorem live_counts_forwards (svcs : list (string * ServiceConfig))
    (policy : CircuitBreakerPolicy) (l : list gateway_event) (id : string) :
  live id (gateway_run (new_gateway svcs policy) l) =
    flights_on id (gateway_run (new_gateway svcs policy) l).
Proof. by apply counted_run. Qed.

(** whatever happened before, a request is only forwarded to a target of its route's
    service that no probe marked unhealthy and whose circuit is not open; under least
    connections no such healthy target has fewer forwards running. *)
Theorem forwards_are_eligible (svcs : list (string * ServiceConfig))
    (policy : CircuitBreakerPolicy) (l : list gateway_event)
    (path method : text) (rng : jsnum) (now : Q) (f : in_flight) (g' : Gateway) :
  let g := gateway_run (new_gateway svcs policy) l in
  begin_request regex_exec routes path method rng now g = (Ok f, g') →
  ∃ route ps svc,
    route_match regex_exec routes path (Some method) = Some (route, ps) ∧
    jm_get (service route) (services g) = Some svc ∧
    f_target f ∈ s_targets svc ∧ jm_get (t_id (f_target f)) (health g) ≠ Some Unhealthy ∧
    (canRequest (breaker_key (service route) (f_target f)) now (breaker g)).1 = true ∧
    (balancerFor svc route g = BLeastConnections →
     ∀ t, t ∈ s_targets svc → jm_get (t_id t) (health g) ≠ Some Unhealthy →
       flights_on (t_id (f_target f)) g <= flights_on (t_id t) g).
Proof.
  cbv zeta. set (g := gateway_run _ l). assert (counted g) as Hc by by apply counted_run.
  unfold begin_request. destruct (route_match _ _ _ _) as [[route ps]|]; [|done].
  unfold select_upstream. destruct (jm_get (service route) (services g)) as [svc|] eqn:Es; [|done].
  set (hs := filterHealthy (s_targets svc) (health g)).
  set (r := balancer_pick rng hs (liveConnections g) (balancerFor svc route g)).
  destruct r.1 as [target|] eqn:Er; [|done]. cbn [breaker set_balancers].
  destruct (canRequest _ _ _) as [[] br] eqn:Ec; [|done]. intros [= <- _].
  pose proof (balancer_pick_in _ _ _ _ _ Er) as Hin. unfold hs, filterHealthy in Hin.
  apply list_elem_of_filter in Hin as [Hh Hin]. apply bool_decide_eq_true in Hh.
  exists route, ps, svc. split; [done|]. split; [done|]. split; [done|]. split; [done|].
  split; [cbn [f_target]; by rewrite Ec|]. intros Hlc t Ht Hht.
  unfold r in Er. rewrite Hlc in Er. cbn [balancer_pick fst] in Er.
  pose proof (lc_pick_least hs (liveConnections g)) as Hl. rewrite Er in Hl.
  destruct Hl as (p & q & Hhs & Hp & Hq). rewrite <-!Hc. cbn [f_target].
  assert (t ∈ hs) as Hths.
  { apply list_elem_of_filter. split; [by apply bool_decide_eq_true|done]. }
  rewrite Hhs in Hths. rewrite Forall_forall in Hp, Hq. unfold live, live_count in *.
  apply elem_of_app in Hths as [H|[->|H]%elem_of_cons]; [|lia|].
  - specialize (Hp t H). lia.
  - by apply Hq.
Qed.
End gateway.

(** ** A concrete gateway *)

Definition sample_target (id : string) : UpstreamTarget :=
  {| t_id := id; t_url := "http://up"; t_weight := None |}.
Definition sample_route (p : text) (svc : string) : RouteConfig :=
  {| pattern := p; kind := None; priority := None; methods := None; service := svc;
     strategy := Some LeastConnections |}.
Definition sample_services : list (string * ServiceConfig) :=
  [("api", {| s_targets := [sample_target "a"; sample_target "b"; sample_target "c"];
              s_strategy := None |});
   ("web", {| s_targets := [sample_target "a"; sample_target "d"]; s_strategy := None |})]%string.
Definition sample_policy : CircuitBreakerPolicy :=
  {| p_failureThreshold := 1; p_openMs := 100; p_halfOpenSuccesses := None |}.
Definition path_of (s : string) : text := list_ascii_of_string s.
Definition sample_routes : list RouteConfig :=
  [sample_route (path_of "/api/*") "api"; sample_route (path_of "/web/*") "web"].
Definition no_regex (p path : text) : option (list (option text)) := None.

(** Two forwards run; a third request goes to the idle target that is healthy. *)
Lemma forwards_are_eligible_witness :
  ∃ f g', begin_request no_regex sample_routes (path_of "/api/x") (path_of "GET") NonFinite 5
    (gateway_run no_regex sample_routes (new_gateway sample_services sample_policy)
       [GProbe "b" TimedOut; GBegin (path_of "/api/x") (path_of "GET") NonFinite 1]) = (Ok f, g') ∧
    t_id (f_target f) = "c"%string.
Proof.
  destruct (begin_request no_regex sample_routes (path_of "/api/x") (path_of "GET") NonFinite 5
    (gateway_run no_regex sample_routes (new_gateway sample_services sample_policy)
       [GProbe "b" TimedOut; GBegin (path_of "/api/x") (path_of "GET") NonFinite 1]))
    as [[f|e] g'] eqn:E; [|vm_compute in E; discriminate E].
  exists f, g'. split; [exact eq_refl|].
  destruct (forwards_are_eligible no_regex sample_routes sample_services sample_policy
    [GProbe "b" TimedOut; GBegin (path_of "/api/x") (path_of "GET") NonFinite 1]
    (path_of "/api/x") (path_of "GET") NonFinite 5 f g' E)
    as (route & ps & svc & Hr & Hs & Hin & Hh & Hc & Hmin).
  vm_compute in E. injection E as <- <-. exact eq_refl.
Defined.

(** The live counts are kept by target id alone: the forwards of one service count against
    the target of another service that has the same id. *)
Lemma live_counts_cross_services :
  (begin_request no_regex sample_routes (path_of "/web/x") (path_of "GET") NonFinite 5
    (gateway_run no_regex sample_routes (new_gateway sample_services sample_policy)
       [GBegin (path_of "/api/x") (path_of "GET") NonFinite 1])).1 =
  Ok {| f_key := "web::d"%string; f_target := sample_target "d" |}.
Proof. vm_compute. exact eq_refl. Qed.

(** A target whose circuit is open is picked all the same, and the request refused though
    another target of the service is healthy and closed. *)
Lemma open_circuit_is_picked :
  (begin_request no_regex sample_routes (path_of "/api/x") (path_of "GET") NonFinite 5
    (gateway_run no_regex sample_routes (new_gateway sample_services sample_policy)
       [GBegin (path_of "/api/x") (path_of "GET") NonFinite 1; GEnd 0 false 2 2])).1 =
  Throw (CircuitIsOpen "api::a"%string).
Proof. vm_compute. exact eq_refl. Qed.
