(* ===== verification/JsDate.v ===== *)
(** * ECMAScript dates in UTC

    The time values of [Date] and the fields [getUTCMonth], [getUTCDate], ..., by the
    arithmetic with which the language defines them, and the setters [setUTCMonth] and
    [setUTCFullYear].  The time values are unbounded here (a [Date] is invalid from 8.64e15
    milliseconds on).  The lemmas give the ranges of the fields, and that a day is the start
    of its year and month plus its date. *)

From S2P Require Import Prelude.

(** ** Fields *)

Definition msPerMinute : Z := 60000%Z.
Definition msPerDay : Z := 86400000%Z.

Definition Day (t : Z) : Z := (t / msPerDay)%Z.
Definition DayFromYear (y : Z) : Z :=
  (365 * (y - 1970) + (y - 1969) / 4 - (y - 1901) / 100 + (y - 1601) / 400)%Z.

(** The year of a day: the estimate is at most one off. *)
Definition YearFromDay (d : Z) : Z :=
  let y := (1970 + 400 * d / 146097)%Z in
  if (DayFromYear (y + 1) <=? d)%Z then (y + 1)%Z
  else if (d <? DayFromYear y)%Z then (y - 1)%Z
  else y.

Definition leap (y : Z) : Z := (DayFromYear (y + 1) - DayFromYear y - 365)%Z.

(** The day of the year on which each month begins. *)
Definition starts (l : Z) : list Z :=
  [0; 31; 59 + l; 90 + l; 120 + l; 151 + l; 181 + l; 212 + l; 243 + l; 273 + l; 304 + l;
   334 + l]%Z.
Definition month_starts (y : Z) : list Z := starts (leap y).

Definition day_within_year (d : Z) : Z := (d - DayFromYear (YearFromDay d))%Z.

(** The months that begin on the day of the year or before it. *)
Definition months_begun (d : Z) : list Z :=
  filter (λ s, s <= day_within_year d)%Z (month_starts (YearFromDay d)).

Definition getUTCMonth (t : Z) : Z := (Z.of_nat (length (months_begun (Day t))) - 1)%Z.
Definition getUTCDate (t : Z) : Z :=
  (day_within_year (Day t) - default 0 (last (months_begun (Day t))) + 1)%Z.
Definition getUTCDay (t : Z) : Z := ((Day t + 4) mod 7)%Z.
Definition getUTCHours (t : Z) : Z := (t / 3600000 mod 24)%Z.
Definition getUTCMinutes (t : Z) : Z := (t / 60000 mod 60)%Z.

(** ** Setters

    [MakeDay]: months beyond the year carry over, and so do dates beyond the month. *)
Definition MakeDay (year month date : Z) : Z :=
  let y := (year + month / 12)%Z in
  (DayFromYear y + default 0 (month_starts y !! Z.to_nat (month mod 12)) + date - 1)%Z.
Definition TimeWithinDay (t : Z) : Z := (t mod msPerDay)%Z.
Definition MakeDate (day time : Z) : Z := (day * msPerDay + time)%Z.

Definition getUTCFullYear (t : Z) : Z := YearFromDay (Day t).
Definition setUTCMonth (t month : Z) : Z :=
  MakeDate (MakeDay (getUTCFullYear t) month (getUTCDate t)) (TimeWithinDay t).
Definition setUTCFullYear (t year : Z) : Z :=
  MakeDate (MakeDay year (getUTCMonth t) (getUTCDate t)) (TimeWithinDay t).

(** ** The date arithmetic is right *)

Lemma YearFromDay_spec d :
  (DayFromYear (YearFromDay d) <= d < DayFromYear (YearFromDay d + 1))%Z.
Proof.
  unfold YearFromDay. set (y := (1970 + 400 * d / 146097)%Z).
  assert (DayFromYear (y - 1) <= d < DayFromYear (y + 2))%Z as Hy.
  { unfold DayFromYear, y. Z.div_mod_to_equations. lia. }
  destruct (Z.leb_spec (DayFromYear (y + 1)) d); [replace (y + 1 + 1)%Z with (y + 2)%Z by lia; lia|].
  destruct (Z.ltb_spec d (DayFromYear y)); [|lia].
  replace (y - 1 + 1)%Z with y by lia. lia.
Qed.

Lemma leap_range y : (leap y = 0 ∨ leap y = 1)%Z.
Proof. unfold leap, DayFromYear. Z.div_mod_to_equations. lia. Qed.

(** The months begin in order: from the first that has not begun on, none has. *)
Ltac walk_months :=
  rewrite filter_cons; case_decide;
  [try walk_months | rewrite filter_none by (repeat constructor; lia)]; simpl; try lia.

(** The month and the date of a day: a month of the year, and a day of that month. *)
Lemma utc_date_range t :
  (0 <= getUTCMonth t <= 11)%Z ∧ (1 <= getUTCDate t <= 31)%Z ∧ (0 <= getUTCDay t <= 6)%Z ∧
  (0 <= getUTCHours t <= 23)%Z ∧ (0 <= getUTCMinutes t <= 59)%Z.
Proof.
  assert (0 <= day_within_year (Day t) < 365 + leap (YearFromDay (Day t)))%Z as Hd.
  { unfold day_within_year, leap. pose proof (YearFromDay_spec (Day t)). lia. }
  assert (0 <= getUTCMonth t <= 11 ∧ 1 <= getUTCDate t <= 31)%Z as [? ?].
  { unfold getUTCMonth, getUTCDate, months_begun, month_starts, starts.
    destruct (leap_range (YearFromDay (Day t))) as [Hl|Hl]; rewrite Hl in *; clear Hl;
      generalize dependent (day_within_year (Day t)); intros d Hd; walk_months. }
  unfold getUTCDay, getUTCHours, getUTCMinutes.
  Z.div_mod_to_equations; lia.
Qed.

Lemma day_within_range d : (0 <= day_within_year d < 365 + leap (YearFromDay d))%Z.
Proof. unfold day_within_year, leap. pose proof (YearFromDay_spec d). lia. Qed.

Lemma DayFromYear_mono y y' : (y <= y')%Z → (DayFromYear y <= DayFromYear y')%Z.
Proof. unfold DayFromYear. intros. Z.div_mod_to_equations. lia. Qed.

Lemma YearFromDay_unique y d : (DayFromYear y <= d < DayFromYear (y + 1))%Z → YearFromDay d = y.
Proof.
  intros Hd. pose proof (YearFromDay_spec d) as Hs.
  destruct (Z.lt_trichotomy (YearFromDay d) y) as [H|[H|H]]; [|done|].
  - pose proof (DayFromYear_mono (YearFromDay d + 1) y). lia.
  - pose proof (DayFromYear_mono (y + 1) (YearFromDay d)). lia.
Qed.

Lemma Day_MakeDate d t : (0 <= t < msPerDay)%Z → Day (MakeDate d t) = d.
Proof. unfold Day, MakeDate, msPerDay. intros. rewrite Z.div_add_l by lia. rewrite Z.div_small by lia. lia. Qed.

Lemma TimeWithinDay_MakeDate d t : (0 <= t < msPerDay)%Z → TimeWithinDay (MakeDate d t) = t.
Proof.
  unfold TimeWithinDay, MakeDate, msPerDay. intros. rewrite Z.add_comm, Z.mod_add by lia.
  by apply Z.mod_small.
Qed.

Lemma TimeWithinDay_range t : (0 <= TimeWithinDay t < msPerDay)%Z.
Proof. unfold TimeWithinDay, msPerDay. apply Z.mod_pos_bound. lia. Qed.

Lemma MakeDate_Day t : MakeDate (Day t) (TimeWithinDay t) = t.
Proof. unfold MakeDate, Day, TimeWithinDay, msPerDay. pose proof (Z.div_mod t 86400000). lia. Qed.

(** The month of a day of the year is the one in which it lies: checked day by day, for
    common and for leap years. *)
Definition month_number (l d : Z) : nat := length (filter (λ s, s <= d)%Z (starts l)) - 1.
Definition month_start (l : Z) (m : nat) : Z := default (365 + l)%Z (starts l !! m).
Definition month_ok (l d : Z) : Prop :=
  let m := month_number l d in
  (m <= 11)%nat ∧ length (filter (λ s, s <= d)%Z (starts l)) = S m ∧
  last (filter (λ s, s <= d)%Z (starts l)) = starts l !! m ∧
  (month_start l m <= d < month_start l (S m))%Z.

Lemma month_of_day l d : (l = 0 ∨ l = 1)%Z → (0 <= d < 365 + l)%Z → month_ok l d.
Proof.
  intros Hl Hd.
  assert (∀ l, (l = 0 ∨ l = 1)%Z → Forall (month_ok l) (seqZ 0 (365 + l))) as Hall.
  { unfold month_ok. intros ? [-> | ->]; apply (bool_decide_unpack _); vm_compute; exact I. }
  specialize (Hall l Hl). rewrite Forall_forall in Hall. apply Hall, elem_of_seqZ. lia.
Qed.

Lemma getUTCMonth_number t : getUTCMonth t = Z.of_nat (month_number (leap (getUTCFullYear t)) (day_within_year (Day t))).
Proof.
  unfold getUTCMonth, months_begun, month_starts.
  destruct (month_of_day (leap (YearFromDay (Day t))) (day_within_year (Day t))) as (_ & Hlen & _);
    [apply leap_range|apply day_within_range|].
  change (getUTCFullYear t) with (YearFromDay (Day t)). lia.
Qed.

Lemma getUTCDate_start t :
  getUTCDate t = (day_within_year (Day t) -
    month_start (leap (getUTCFullYear t)) (month_number (leap (getUTCFullYear t)) (day_within_year (Day t))) + 1)%Z.
Proof.
  unfold getUTCDate, months_begun, month_starts.
  destruct (month_of_day (leap (YearFromDay (Day t))) (day_within_year (Day t))) as (Hm & _ & Hlast & _);
    [apply leap_range|apply day_within_range|].
  change (getUTCFullYear t) with (YearFromDay (Day t)). rewrite Hlast. unfold month_start.
  destruct (lookup_lt_is_Some_2 (starts (leap (YearFromDay (Day t)))) (month_number (leap (YearFromDay (Day t))) (day_within_year (Day t)))) as [s ->];
    [change (length (starts _)) with 12%nat; lia|done].
Qed.

Lemma month_number_start l (m : nat) date :
  (l = 0 ∨ l = 1)%Z → (m <= 11)%nat → (1 <= date <= month_start l (S m) - month_start l m)%Z →
  month_number l (month_start l m + date - 1) = m.
Proof.
  intros Hl Hm Hd.
  assert (∀ l, (l = 0 ∨ l = 1)%Z → Forall (λ m : nat, Forall (λ date,
    month_number l (month_start l m + date - 1) = m)
    (seqZ 1 (month_start l (S m) - month_start l m))) (seq 0 12)) as Hall.
  { intros ? [-> | ->]; apply (bool_decide_unpack _); vm_compute; exact I. }
  specialize (Hall l Hl). rewrite Forall_forall in Hall. specialize (Hall m).
  rewrite Forall_forall in Hall. apply Hall; [apply elem_of_seq; lia|apply elem_of_seqZ; lia].
Qed.

Lemma month_start_range l (m : nat) :
  (l = 0 ∨ l = 1)%Z → (m <= 11)%nat → (0 <= month_start l m < month_start l (S m) ∧ month_start l (S m) <= 365 + l)%Z.
Proof.
  intros Hl Hm.
  assert (∀ l, (l = 0 ∨ l = 1)%Z → Forall (λ m : nat, 0 <= month_start l m < month_start l (S m) ∧
    month_start l (S m) <= 365 + l)%Z (seq 0 12)) as Hall.
  { intros ? [-> | ->]; apply (bool_decide_unpack _); vm_compute; exact I. }
  specialize (Hall l Hl). rewrite Forall_forall in Hall. apply Hall, elem_of_seq. lia.
Qed.

Lemma MakeDay_month y (m : nat) date :
  (m <= 11)%nat → MakeDay y (Z.of_nat m) date = (DayFromYear y + month_start (leap y) m + date - 1)%Z.
Proof.
  intros Hm. unfold MakeDay. rewrite Z.div_small, Z.mod_small, Z.add_0_r, Nat2Z.id by lia.
  unfold month_start, month_starts.
  destruct (lookup_lt_is_Some_2 (starts (leap y)) m) as [s ->]; [|done].
  change (length (starts _)) with 12%nat. lia.
Qed.

(** The month after December is January of the next year. *)
Lemma MakeDay_next y (m : nat) date :
  (m <= 11)%nat →
  MakeDay y (Z.of_nat m + 1) date = (DayFromYear y + month_start (leap y) (S m) + date - 1)%Z.
Proof.
  intros Hm. replace (Z.of_nat m + 1)%Z with (Z.of_nat (S m)) by lia.
  destruct (decide (m = 11%nat)) as [->|Hne]; [|by apply MakeDay_month; lia].
  unfold MakeDay. change (Z.of_nat 12 / 12)%Z with 1%Z. change (Z.to_nat (Z.of_nat 12 mod 12)) with O.
  unfold month_start, month_starts, leap. cbn [lookup list_lookup starts from_option id]. lia.
Qed.

(** The fields of a day that is given by year, month and a date of that month. *)
Lemma fields_of_day y (m : nat) date time :
  (m <= 11)%nat → (1 <= date <= month_start (leap y) (S m) - month_start (leap y) m)%Z →
  (0 <= time < msPerDay)%Z →
  let t := MakeDate (DayFromYear y + month_start (leap y) m + date - 1) time in
  getUTCFullYear t = y ∧ getUTCMonth t = Z.of_nat m ∧ getUTCDate t = date ∧ TimeWithinDay t = time.
Proof.
  intros Hm Hdate Htime t. pose proof (leap_range y) as Hl.
  pose proof (month_start_range (leap y) m Hl Hm) as Hr.
  assert (Day t = DayFromYear y + month_start (leap y) m + date - 1)%Z as Hday by by apply Day_MakeDate.
  assert (TimeWithinDay t = time) as Ht by by apply TimeWithinDay_MakeDate.
  clearbody t.
  assert (YearFromDay (Day t) = y) as Hy.
  { apply YearFromDay_unique. rewrite Hday. unfold leap in *. lia. }
  assert (day_within_year (Day t) = month_start (leap y) m + date - 1)%Z as Hw.
  { unfold day_within_year. rewrite Hy. lia. }
  change (getUTCFullYear t = y) in Hy.
  split; [done|]. rewrite getUTCMonth_number, getUTCDate_start, Hy, Hw, month_number_start by done.
  split; [done|]. split; [lia|]. done.
Qed.

(** A day is the start of its year and month, plus its date, and the date is one of that
    month. *)
Lemma day_of_fields t :
  ∃ m : nat, getUTCMonth t = Z.of_nat m ∧ (m <= 11)%nat ∧
    let y := getUTCFullYear t in
    (1 <= getUTCDate t <= month_start (leap y) (S m) - month_start (leap y) m)%Z ∧
    Day t = (DayFromYear y + month_start (leap y) m + getUTCDate t - 1)%Z.
Proof.
  exists (month_number (leap (getUTCFullYear t)) (day_within_year (Day t))).
  split; [apply getUTCMonth_number|].
  destruct (month_of_day (leap (getUTCFullYear t)) (day_within_year (Day t))) as (Hm & _ & _ & Hr);
    [apply leap_range|apply day_within_range|].
  split; [done|]. intros y. rewrite getUTCDate_start. fold y in Hr |- *.
  assert (YearFromDay (Day t) = y) as Hy by reflexivity.
  unfold day_within_year in *. rewrite Hy in *. clearbody y. lia.
Qed.
