(* ===== verification/Cron.v ===== *)
(** * The cron expressions of the workflow engine

    Models the end of src/packages/workflow/src/context.ts: [parseCronField], and
    [computeNextCronTime], which searches the next minute (in UTC) that a five-field
    expression matches, one minute after the other for 366 * 4 days.  The fields of a
    date are those of JsDate.v. *)

From Stdlib Require Import Ascii String QArith Qround.
From S2P Require Import Prelude JsText JsMap JsDate.

(** ** Parsing *)

Definition text (l : list ascii) : string := string_of_list_ascii l.

Definition cron_error (expression : string) (reason : string) : string :=
  "Invalid cron expression " +:+ quoted expression +:+ ": " +:+ reason.

(** [for (let value = rangeStart; value <= rangeEnd; value += step) values.add(value)]. *)
Fixpoint add_range (fuel : nat) (value rangeEnd step : Z) (values : list Z) : list Z :=
  match fuel with
  | O => values
  | S fuel =>
      if (value <=? rangeEnd)%Z
      then add_range fuel (value + step) rangeEnd step (set_add value values)
      else values
  end.

(** The bounds of a part whose step has been read. *)
Definition part_bounds (rangePart : list ascii) (stepped : bool) (part : list ascii)
    (min max : Z) (expression : string) : result string (Z * Z) :=
  if decide (rangePart = ["*"%char]) then Ok (min, max)
  else
    match split_on "-" rangePart with
    | [bound] =>
        let out_of_range :=
          Throw (cron_error expression ("value " +:+ quoted (text bound) +:+ " out of range " +:+
                   text (show min) +:+ "-" +:+ text (show max) +:+ ".")) in
        match parseInt bound with
        | Some value =>
            if (value <? min)%Z || (max <? value)%Z then out_of_range
            else Ok (value, if stepped then max else value)
        | None => out_of_range
        end
    | [low; high] =>
        let invalid_range :=
          Throw (cron_error expression ("invalid range " +:+ quoted (text rangePart) +:+ ".")) in
        match parseInt low, parseInt high with
        | Some rangeStart, Some rangeEnd =>
            if (rangeStart <? min)%Z || (max <? rangeEnd)%Z || (rangeEnd <? rangeStart)%Z
            then invalid_range
            else Ok (rangeStart, rangeEnd)
        | _, _ => invalid_range
        end
    | _ => Throw (cron_error expression ("invalid field " +:+ quoted (text part) +:+ "."))
    end.

(** The step of a part, 1 when it has none. *)
Definition part_step (stepPart : option (list ascii)) : option Z :=
  match stepPart with None => Some 1%Z | Some s => parseInt s end.

(** One part of a comma list: the values are added to the set. *)
Definition parse_part (part : list ascii) (min max : Z) (expression : string) (values : list Z) :
    result string (list Z) :=
  let pieces := split_on "/" part in
  let rangePart := default [] (pieces !! 0) in
  let stepPart := pieces !! 1 in
  let invalid_step :=
    Throw (cron_error expression ("invalid step in " +:+ quoted (text part) +:+ ".")) in
  match part_step stepPart with
  | None => invalid_step
  | Some step =>
      if (step <=? 0)%Z then invalid_step
      else
        bounds ← part_bounds rangePart (bool_decide (is_Some stepPart)) part min max expression;
        let '(rangeStart, rangeEnd) := bounds in
        Ok (add_range (Z.to_nat (rangeEnd - rangeStart + 1)) rangeStart rangeEnd step values)
  end.

Fixpoint parse_parts (parts : list (list ascii)) (min max : Z) (expression : string)
    (values : list Z) : result string (list Z) :=
  match parts with
  | [] => Ok values
  | part :: parts =>
      values ← parse_part part min max expression values;
      parse_parts parts min max expression values
  end.

Definition parseCronField (field : list ascii) (min max : Z) (expression : string) :
    result string (list Z) :=
  parse_parts (split_on "," field) min max expression [].

Record cron_fields : Type := {
  minutes : list Z;
  hours : list Z;
  daysOfMonth : list Z;
  months : list Z;
  daysOfWeek : list Z;
}.

Definition parse_cron (expression : string) : result string cron_fields :=
  match split_spaces false (trim (list_ascii_of_string expression)) with
  | [f0; f1; f2; f3; f4] =>
      minutes ← parseCronField f0 0 59 expression;
      hours ← parseCronField f1 0 23 expression;
      daysOfMonth ← parseCronField f2 1 31 expression;
      months ← parseCronField f3 1 12 expression;
      daysOfWeek ← parseCronField f4 0 6 expression;
      Ok (Build_cron_fields minutes hours daysOfMonth months daysOfWeek)
  | _ =>
      Throw (cron_error expression
        ("expected 5 space-separated fields (minute hour day-of-month month day-of-week)."))
  end.

(** ** Searching *)

Definition has (values : list Z) (v : Z) : bool := bool_decide (v ∈ values).

(** The condition of the loop, at the time [cursor]. *)
Definition cron_matches (f : cron_fields) (cursor : Z) : bool :=
  let matchesMonth := has (months f) (getUTCMonth cursor + 1) in
  let matchesMinute := has (minutes f) (getUTCMinutes cursor) in
  let matchesHour := has (hours f) (getUTCHours cursor) in
  let matchesDom := has (daysOfMonth f) (getUTCDate cursor) in
  let matchesDow := has (daysOfWeek f) (getUTCDay cursor) in
  let domRestricted := length (daysOfMonth f) <? 31 in
  let dowRestricted := length (daysOfWeek f) <? 7 in
  let matchesDay :=
    if domRestricted && dowRestricted then matchesDom || matchesDow
    else matchesDom && matchesDow in
  matchesMonth && matchesDay && matchesHour && matchesMinute.

Definition maxIterations : Z := (366 * 4 * 24 * 60)%Z.

Fixpoint scan (f : cron_fields) (n : nat) (cursor : Z) : option Z :=
  match n with
  | O => None
  | S n => if cron_matches f cursor then Some cursor else scan f n (cursor + msPerMinute)
  end.

(** The top of the next minute strictly after [fromMs]. *)
Definition next_minute (fromMs : Q) : Z :=
  (Qfloor (fromMs / 60000) * 60000 + 60000)%Z.

Definition next_fire (f : cron_fields) (fromMs : Q) : Z :=
  default (next_minute fromMs) (scan f (Z.to_nat maxIterations) (next_minute fromMs)).

Definition computeNextCronTime (expression : string) (fromMs : Q) : result string Z :=
  fields ← parse_cron expression; Ok (next_fire fields fromMs).

(** ** What a field means *)

(** [v] is reached from [start] by whole steps without passing [stop]. *)
Definition in_range (start stop step v : Z) : Prop :=
  (start <= v <= stop ∧ (v - start) mod step = 0)%Z.

Lemma in_range_next start stop step v :
  (0 < step)%Z → (start <= stop)%Z →
  in_range start stop step v ↔ v = start ∨ in_range (start + step) stop step v.
Proof.
  intros Hs Hle. unfold in_range.
  replace (v - (start + step))%Z with (v - start + (-1) * step)%Z by lia.
  rewrite Z.mod_add by lia. split.
  - intros [Hv Hm]. destruct (decide (v = start)) as [|Hne]; [by left|right].
    apply Z.mod_divide in Hm as [k Hk]; [|lia]. assert (0 < k)%Z by nia.
    assert (1 * step <= k * step)%Z by (apply Z.mul_le_mono_nonneg_r; lia). split; [lia|].
    rewrite Hk. apply Z.mod_mul. lia.
  - intros [->|[Hv Hm]]; [|split; [lia|done]]. rewrite Z.sub_diag, Z.mod_0_l; lia.
Qed.

Lemma add_range_spec fuel : ∀ start stop step values,
  (0 < step)%Z → (stop - start < Z.of_nat fuel)%Z → NoDup values →
  NoDup (add_range fuel start stop step values) ∧
  ∀ v, v ∈ add_range fuel start stop step values ↔ v ∈ values ∨ in_range start stop step v.
Proof.
  induction fuel as [|fuel IH]; intros start stop step values Hs Hf Hnd; cbn [add_range].
  - split; [done|]. intros v. unfold in_range. split; [by left|]. intros [|]; [done|lia].
  - destruct (Z.leb_spec start stop) as [Hle|Hgt].
    + destruct (IH (start + step)%Z stop step (set_add start values)) as [H1 H2];
        [done|lia|by apply NoDup_set_add|].
      split; [done|]. intros v. rewrite H2, elem_of_set_add, (in_range_next start) by done. tauto.
    + split; [done|]. intros v. unfold in_range. split; [by left|]. intros [|]; [done|lia].
Qed.

(** Whatever text is accepted as the bounds of a part, they lie within the field's. *)
Lemma part_bounds_in rangePart stepped part min max e a b :
  (min <= max)%Z → part_bounds rangePart stepped part min max e = Ok (a, b) →
  (min <= a <= b ∧ b <= max)%Z.
Proof.
  intros Hmm. unfold part_bounds. case_decide; [intros [= <- <-]; lia|].
  destruct (split_on _ _) as [|low [|high [|]]]; try done.
  - destruct (parseInt low) as [v|]; [|done]. destruct (_ || _) eqn:E; [done|].
    intros [= <- <-]. reflect_bools. destruct stepped; lia.
  - destruct (parseInt low) as [v|], (parseInt high) as [w|]; try done.
    destruct (_ || _) eqn:E; [done|]. intros [= <- <-]. reflect_bools. lia.
Qed.

Lemma parse_part_in part min max e values values' :
  (min <= max)%Z → NoDup values → parse_part part min max e values = Ok values' →
  NoDup values' ∧ values ⊆ values' ∧ values' ≠ [] ∧
  ∀ v, v ∈ values' → v ∈ values ∨ (min <= v <= max)%Z.
Proof.
  intros Hmm Hnd. unfold parse_part. destruct (part_step _) as [step|]; [|done].
  destruct (Z.leb_spec step 0); [done|].
  destruct (part_bounds _ _ _ _ _ _) as [[a b]|] eqn:Hb; [|done]. simpl. intros [= <-].
  apply part_bounds_in in Hb; [|done].
  destruct (add_range_spec (Z.to_nat (b - a + 1)) a b step values) as [H1 H2]; [lia|lia|done|].
  split; [done|]. split; [intros v Hv; apply H2; by left|]. split.
  - intros Hnil. assert (a ∈ @nil Z) as Hin; [|by apply elem_of_nil in Hin].
    rewrite <-Hnil. apply H2. right. unfold in_range. rewrite Z.sub_diag, Z.mod_0_l; lia.
  - intros v [|Hv]%H2; [by left|right]. unfold in_range in Hv. lia.
Qed.

Lemma parse_parts_in parts min max e : ∀ values values',
  (min <= max)%Z → NoDup values → parse_parts parts min max e values = Ok values' →
  NoDup values' ∧ values ⊆ values' ∧ (parts ≠ [] → values' ≠ []) ∧
  ∀ v, v ∈ values' → v ∈ values ∨ (min <= v <= max)%Z.
Proof.
  induction parts as [|part parts IH]; intros values values' Hmm Hnd; cbn [parse_parts].
  { intros [= <-]. split; [done|]. split; [done|]. split; [done|]. by left. }
  destruct (parse_part part min max e values) as [vs|] eqn:Hp; [|done]. simpl. intros Hps.
  apply parse_part_in in Hp as (H1 & H2 & H3 & H4); [|done..].
  apply IH in Hps as (K1 & K2 & _ & K4); [|done..].
  split; [done|]. split; [by etrans|]. split.
  - intros _ ->. destruct vs as [|v vs]; [done|]. by specialize (K2 v ltac:(left)) as ?%elem_of_nil.
  - intros v [Hv|Hv]%K4; [by apply H4|by right].
Qed.

(** An accepted field is a set of values of the field, and not empty. *)
Lemma parseCronField_in field min max e values :
  (min <= max)%Z → parseCronField field min max e = Ok values →
  NoDup values ∧ values ≠ [] ∧ Forall (λ v, min <= v <= max)%Z values.
Proof.
  intros Hmm Hp. apply parse_parts_in in Hp as (H1 & _ & H3 & H4); [|done|by apply NoDup_nil_2].
  split; [done|]. split; [apply H3, split_on_nonempty|].
  apply Forall_forall. intros v [Hv|Hv]%H4; [by apply elem_of_nil in Hv|done].
Qed.

(** ** Printing fields and reading them back *)

Inductive cron_base : Type :=
| B_star
| B_value (v : Z)
| B_range (a b : Z).

Record cron_part : Type := { base : cron_base; step : option Z }.

Definition print_base (b : cron_base) : list ascii :=
  match b with
  | B_star => ["*"%char]
  | B_value v => show v
  | B_range a b => show a ++ "-"%char :: show b
  end.
Definition print_part (p : cron_part) : list ascii :=
  match step p with
  | None => print_base (base p)
  | Some s => print_base (base p) ++ "/"%char :: show s
  end.
Fixpoint print_field (p : cron_part) (parts : list cron_part) : list ascii :=
  match parts with
  | [] => print_part p
  | p' :: parts => print_part p ++ ","%char :: print_field p' parts
  end.

(** The range a part stands for; a value with a step goes on to the end of the field. *)
Definition part_range (min max : Z) (p : cron_part) : Z * Z :=
  match base p with
  | B_star => (min, max)
  | B_value v => (v, match step p with None => v | Some _ => max end)
  | B_range a b => (a, b)
  end.
Definition denotes (min max : Z) (p : cron_part) (v : Z) : Prop :=
  in_range (part_range min max p).1 (part_range min max p).2 (default 1%Z (step p)) v.

(** A part with its numbers in the bounds of the field. *)
Definition part_ok (min max : Z) (p : cron_part) : Prop :=
  (min <= (part_range min max p).1 <= (part_range min max p).2 ∧
   (part_range min max p).2 <= max ∧ 0 < default 1 (step p) < INFINITY_FROM)%Z.

Section print.
Context (min max : Z) (Hmin : (0 <= min)%Z) (Hmax : (max < INFINITY_FROM)%Z).

Lemma print_base_not sep p :
  part_ok min max p → is_digit sep = false → sep ≠ "*"%char → sep ≠ "-"%char →
  sep ∉ print_base (base p).
Proof.
  intros [Hr _] Hd Hs Hm. unfold part_range in Hr.
  destruct (base p) as [|v|a b]; simpl in *.
  - set_solver.
  - apply not_digit_show; [lia|done].
  - rewrite elem_of_app, elem_of_cons. pose proof (not_digit_show sep a ltac:(lia) Hd).
    pose proof (not_digit_show sep b ltac:(lia) Hd). naive_solver.
Qed.

Lemma print_part_not sep p :
  part_ok min max p → is_digit sep = false → sep ≠ "*"%char → sep ≠ "-"%char →
  sep ≠ "/"%char → sep ∉ print_part p.
Proof.
  intros Hok Hd Hs Hm Hsl. pose proof (print_base_not sep p Hok Hd Hs Hm). unfold print_part.
  destruct Hok as (_ & _ & Hst). destruct (step p) as [s|]; simpl in Hst; [|done].
  rewrite elem_of_app, elem_of_cons. pose proof (not_digit_show sep s ltac:(lia) Hd). naive_solver.
Qed.

Lemma part_step_print p :
  part_ok min max p → part_step (show <$> step p) = Some (default 1%Z (step p)).
Proof.
  intros (_ & _ & Hs). destruct (step p) as [s|]; simpl in *; [|done].
  rewrite <-(app_nil_r (show s)). by rewrite parseInt_show by (lia || done).
Qed.

Lemma part_bounds_print p part e :
  part_ok min max p →
  part_bounds (print_base (base p)) (bool_decide (is_Some (show <$> step p))) part min max e =
    Ok (part_range min max p).
Proof.
  intros (Hr & Hle & _). unfold part_range in *. unfold part_bounds.
  assert (∀ n, (0 <= n < INFINITY_FROM)%Z → parseInt (show n) = Some n) as Hparse.
  { intros n Hn. rewrite <-(app_nil_r (show n)). by apply parseInt_show. }
  assert (∀ n l, (0 <= n)%Z → show n ++ l ≠ ["*"%char]) as Hstar.
  { intros n l Hn Heq. destruct (show_digits n Hn) as [Hd Hne].
    destruct (show n) as [|c ds]; [done|]. injection Heq as -> _. by inversion Hd. }
  destruct (base p) as [|v|a b]; simpl in *.
  - done.
  - rewrite decide_False by (rewrite <-(app_nil_r (show v)); apply Hstar; lia).
    rewrite split_on_none by (apply not_digit_show; [lia|done]).
    rewrite Hparse by lia. destruct (Z.ltb_spec v min); [lia|]. destruct (Z.ltb_spec max v); [lia|].
    simpl. by destruct (step p).
  - rewrite decide_False by (apply Hstar; lia).
    rewrite split_on_app, split_on_none by (apply not_digit_show; [lia|done]).
    rewrite !Hparse by lia. destruct (Z.ltb_spec a min); [lia|].
    destruct (Z.ltb_spec max b); [lia|]. by destruct (Z.ltb_spec b a); [lia|].
Qed.

Lemma parse_part_print p e values :
  part_ok min max p → NoDup values →
  ∃ values', parse_part (print_part p) min max e values = Ok values' ∧ NoDup values' ∧
    ∀ v, v ∈ values' ↔ v ∈ values ∨ denotes min max p v.
Proof.
  intros Hok Hnd. pose proof (print_base_not "/" p Hok eq_refl ltac:(done) ltac:(done)) as Hb.
  assert (split_on "/" (print_part p) = print_base (base p) :: option_list (show <$> step p)) as Hsp.
  { unfold print_part. destruct Hok as (_ & _ & Hst).
    destruct (step p) as [s|]; simpl; [|by apply split_on_none].
    simpl in Hst. by rewrite split_on_app, (split_on_none "/" (show s))
      by (try apply not_digit_show; done || lia). }
  unfold parse_part. rewrite Hsp.
  change (default [] ((print_base (base p) :: _) !! 0)) with (print_base (base p)).
  replace ((print_base (base p) :: option_list (show <$> step p)) !! 1) with (show <$> step p)
    by (by destruct (step p)).
  rewrite part_step_print, part_bounds_print by done. simpl.
  unfold denotes. destruct Hok as (Hr & Hle & Hst).
  destruct (Z.leb_spec (default 1%Z (step p)) 0); [lia|].
  destruct (part_range min max p) as [a b]. simpl in *.
  destruct (add_range_spec (Z.to_nat (b - a + 1)) a b (default 1%Z (step p)) values)
    as [H1 H2]; [lia|lia|done|]. by eexists.
Qed.

Lemma parse_parts_print parts p e : ∀ values,
  Forall (part_ok min max) (p :: parts) → NoDup values →
  ∃ values', parse_parts (split_on "," (print_field p parts)) min max e values = Ok values' ∧
    NoDup values' ∧
    ∀ v, v ∈ values' ↔ v ∈ values ∨ Exists (λ p, denotes min max p v) (p :: parts).
Proof.
  revert p. induction parts as [|p' parts IH]; intros p values Hok Hnd;
    apply Forall_cons in Hok as [Hp Hok];
    pose proof (print_part_not "," p Hp eq_refl ltac:(done) ltac:(done) ltac:(done)) as Hc;
    destruct (parse_part_print p e values Hp Hnd) as (vs & Hv & Hnd' & Hin); cbn [print_field].
  - rewrite split_on_none by done. cbn [parse_parts]. rewrite Hv. simpl. exists vs.
    split; [done|]. split; [done|]. intros v. rewrite Hin, Exists_cons, Exists_nil. tauto.
  - rewrite split_on_app by done. cbn [parse_parts]. rewrite Hv. simpl.
    destruct (IH p' vs Hok Hnd') as (ws & Hw & Hnd'' & Hin'). exists ws.
    split; [done|]. split; [done|]. intros v. rewrite Hin', Hin, (Exists_cons _ p). tauto.
Qed.
End print.

(** Cron fields mean what they say.  A field printed from parts (stars, values and
    ranges, each with an optional step, separated by commas) whose numbers lie in the
    bounds of the field is accepted, and the set read back has exactly the values that
    a part denotes; and whatever text is accepted, its set is not empty and within the
    bounds. *)
Theorem cron_field_roundtrip (min max : Z) (expression : string) :
  (0 <= min <= max)%Z → (max < INFINITY_FROM)%Z →
  (∀ p parts, Forall (part_ok min max) (p :: parts) →
     ∃ values, parseCronField (print_field p parts) min max expression = Ok values ∧
       ∀ v, v ∈ values ↔ Exists (λ q, denotes min max q v) (p :: parts)) ∧
  (∀ field values, parseCronField field min max expression = Ok values →
     NoDup values ∧ values ≠ [] ∧ Forall (λ v, min <= v <= max)%Z values).
Proof.
  intros Hmm Hmax. split.
  - intros p parts Hok. unfold parseCronField.
    destruct (parse_parts_print min max ltac:(lia) Hmax parts p expression [] Hok
      (NoDup_nil_2)) as (vs & Hv & _ & Hin).
    exists vs. split; [done|]. intros v. rewrite Hin, elem_of_nil. tauto.
  - intros field values. apply parseCronField_in. lia.
Qed.

Lemma cron_field_roundtrip_witness :
  let parts := [{| base := B_star; step := Some 20%Z |}; {| base := B_range 3 5; step := None |}] in
  print_field {| base := B_value 50; step := Some 7%Z |} parts = list_ascii_of_string "50/7,*/20,3-5" ∧
  ∃ values, parseCronField (list_ascii_of_string "50/7,*/20,3-5") 0 59 "e" = Ok values ∧
    ∀ v, v ∈ values ↔
      Exists (λ q, denotes 0 59 q v) ({| base := B_value 50; step := Some 7%Z |} :: parts).
Proof.
  cbv zeta. split; [reflexivity|].
  assert (0 <= 0 <= 59)%Z as H1 by lia. assert (59 < INFINITY_FROM)%Z as H2 by reflexivity.
  refine (proj1 (cron_field_roundtrip 0 59 "e" H1 H2) {| base := B_value 50; step := Some 7%Z |}
    [{| base := B_star; step := Some 20%Z |}; {| base := B_range 3 5; step := None |}] _).
  repeat apply Forall_cons_2; try apply Forall_nil_2; unfold part_ok; simpl;
    (split; [lia|split; [lia|split; [lia|reflexivity]]]).
Defined.

(** ** The next time a cron expression fires *)

Lemma next_minute_spec fromMs :
  (fromMs < inject_Z (next_minute fromMs))%Q ∧ (next_minute fromMs mod 60000 = 0)%Z ∧
  ∀ u, (u mod 60000 = 0)%Z → (fromMs < inject_Z u)%Q → (next_minute fromMs <= u)%Z.
Proof.
  unfold next_minute. set (n := Qfloor (fromMs / 60000)).
  assert (inject_Z n <= fromMs / 60000)%Q as Hlo by apply Qfloor_le.
  assert (fromMs / 60000 < inject_Z (n + 1))%Q as Hhi by apply Qlt_floor.
  assert (fromMs / 60000 * 60000 == fromMs)%Q as He by (field; discriminate).
  assert (inject_Z n * 60000 <= fromMs)%Q as Hlo'.
  { rewrite <-He. apply Qmult_le_compat_r; [done|discriminate]. }
  assert (fromMs < inject_Z (n + 1) * 60000)%Q as Hhi'.
  { rewrite <-He. apply Qmult_lt_compat_r; [reflexivity|done]. }
  change 60000%Q with (inject_Z 60000) in *. rewrite <-inject_Z_mult in *.
  split; [|split].
  - by replace (n * 60000 + 60000)%Z with ((n + 1) * 60000)%Z by lia.
  - replace (n * 60000 + 60000)%Z with ((n + 1) * 60000)%Z by lia. apply Z.mod_mul. lia.
  - intros u Hu Hlt. apply Z.mod_divide in Hu as [k ->]; [|lia].
    assert (n * 60000 < k * 60000)%Z as Hk; [|lia].
    rewrite Zlt_Qlt. by eapply Qle_lt_trans.
Qed.

Lemma scan_spec f n : ∀ cursor, (cursor mod 60000 = 0)%Z →
  match scan f n cursor with
  | Some t => cron_matches f t = true ∧ (t mod 60000 = 0)%Z ∧
      (cursor <= t < cursor + Z.of_nat n * 60000)%Z ∧
      ∀ u, (u mod 60000 = 0)%Z → (cursor <= u < t)%Z → cron_matches f u = false
  | None => ∀ u, (u mod 60000 = 0)%Z → (cursor <= u < cursor + Z.of_nat n * 60000)%Z →
      cron_matches f u = false
  end.
Proof.
  induction n as [|n IH]; intros cursor Hc; cbn [scan]; [intros; lia|].
  destruct (cron_matches f cursor) eqn:Hm;
    [split; [done|]; split; [done|]; split; [|intros]; lia|].
  assert ((cursor + msPerMinute) mod 60000 = 0)%Z as Hc'.
  { unfold msPerMinute. clear IH. Z.div_mod_to_equations. lia. }
  assert (∀ u, (u mod 60000 = 0)%Z → (cursor <= u)%Z → u = cursor ∨ (cursor + msPerMinute <= u)%Z)
    as Hstep.
  { unfold msPerMinute in *. clear IH. intros u Hu Hle. Z.div_mod_to_equations. lia. }
  specialize (IH _ Hc'). unfold msPerMinute in *.
  destruct (scan f n _) as [t|].
  - destruct IH as (H1 & H2 & H3 & H4). split; [done|]. split; [done|]. split; [lia|].
    intros u Hu Hr. destruct (Hstep u Hu ltac:(lia)) as [->|]; [done|]. apply H4; [done|lia].
  - intros u Hu Hr. destruct (Hstep u Hu ltac:(lia)) as [->|]; [done|]. apply IH; [done|lia].
Qed.

(** The search always finds a time in the future. *)
Lemma next_fire_future f fromMs : (fromMs < inject_Z (next_fire f fromMs))%Q.
Proof.
  destruct (next_minute_spec fromMs) as (Hlt & Hmod & _). unfold next_fire.
  pose proof (scan_spec f (Z.to_nat maxIterations) (next_minute fromMs) Hmod) as Hs.
  destruct (scan _ _ _) as [t|]; [|done]. destruct Hs as (_ & _ & [Hle _] & _).
  eapply Qlt_le_trans; [exact Hlt|]. by rewrite <-Zle_Qle.
Qed.

(** [computeNextCronTime] finds the next minute that matches.  For an expression it
    accepts, the time it returns is a whole minute strictly after [fromMs]; it matches
    the fields, and no earlier minute after [fromMs] does; or no minute of the next
    366 * 4 days matches and it is the first minute after [fromMs]. *)
Theorem cron_next_fire expression fromMs t :
  computeNextCronTime expression fromMs = Ok t →
  ∃ f, parse_cron expression = Ok f ∧ (t mod 60000 = 0)%Z ∧ (fromMs < inject_Z t)%Q ∧
    ((cron_matches f t = true ∧
      ∀ u, (u mod 60000 = 0)%Z → (fromMs < inject_Z u)%Q → (u < t)%Z →
        cron_matches f u = false) ∨
     (t = next_minute fromMs ∧
      ∀ u, (u mod 60000 = 0)%Z → (fromMs < inject_Z u)%Q →
        (u < t + maxIterations * msPerMinute)%Z → cron_matches f u = false)).
Proof.
  unfold computeNextCronTime. destruct (parse_cron expression) as [f|]; [|done].
  simpl. intros <-%Ok_inj. exists f. split; [done|].
  destruct (next_minute_spec fromMs) as (_ & Hmod & Hleast).
  pose proof (next_fire_future f fromMs) as Hfut. unfold next_fire in *.
  pose proof (scan_spec f (Z.to_nat maxIterations) (next_minute fromMs) Hmod) as Hs.
  destruct (scan _ _ _) as [t|]; cbn [default] in *.
  - destruct Hs as (H1 & H2 & H3 & H4). split; [done|]. split; [done|]. left. split; [done|].
    intros u Hu Hlt Hut. apply H4; [done|]. split; [by apply Hleast|done].
  - split; [done|]. split; [done|]. right. split; [done|]. intros u Hu Hlt Hut.
    apply Hs; [done|]. split; [by apply Hleast|]. unfold maxIterations, msPerMinute in *. lia.
Qed.

(** Friday 00:00 after the end of February 2024. *)
Lemma cron_next_fire_witness :
  ∃ f, parse_cron "*/15 0,12 1-7/2 * 5" = Ok f ∧ cron_matches f 1709251200000 = true ∧
    ∀ u, (u mod 60000 = 0)%Z → (1709164800000 < inject_Z u)%Q → (u < 1709251200000)%Z →
      cron_matches f u = false.
Proof.
  assert (computeNextCronTime "*/15 0,12 1-7/2 * 5" 1709164800000 = Ok 1709251200000%Z) as H
    by (vm_compute; reflexivity).
  destruct (cron_next_fire _ _ _ H) as (f & Hf & _ & _ & [[H1 H2]|[H1 H2]]);
    [exists f; split; [exact Hf|]; split; [exact H1|exact H2]|].
  vm_compute in H1. discriminate H1.
Defined.
