(* ===== verification/Journal.v ===== *)
(** * The workflow journal: durable execution by deterministic replay

    Models src/packages/workflow/src/journal.ts ([Journal.process], [setState],
    [readState], [commit], [buildRecord]) and the data model of
    src/packages/workflow/src/types.ts.

    A workflow function is an interaction tree: it issues commands, reads durable state
    and ends by returning or throwing; whatever a command throws (a recorded error, a
    suspension, an integrity error) is handed to the function, which may catch it as
    JavaScript code can.  Effects act on an abstract external world [W], so "the effect
    was not executed again" is "the world did not change"; the clock is a function of
    the world.  The store is an interface ([WorkflowStore]), its promise the class
    [LosslessStore]. *)

From Stdlib Require Import QArith.
From S2P Require Import Prelude JsMap.

Open Scope nat_scope.
Set Warnings "-register-all".

(** ** Values and the durable data model *)

(** JavaScript values at rest; [undefined] is a value of its own. *)
Inductive jsval : Type :=
| JUndefined
| JNull
| JBool (b : bool)
| JNum (n : Z)
| JStr (s : string)
| JBytes (bytes : list Z)
| JArr (l : list jsval)
| JObj (fields : list (string * jsval)).

Inductive RunStatus : Type :=
| running | waiting | paused | completed | failed | compensating | compensated | cancelled.

#[export] Instance RunStatus_eq_dec : EqDecision RunStatus.
Proof. solve_decision. Defined.

Definition TERMINAL : list RunStatus := [completed; failed; compensated; cancelled].

Record SerializedError : Type := {
  err_name : string;
  err_message : string;
  err_stack : option string;
}.

Inductive CommandKind : Type :=
| k_activity | k_parallel_all | k_parallel_race | k_parallel_map | k_sleep | k_waitUntil
| k_cron | k_interval | k_queue_dispatch | k_queue_execute | k_events_publish
| k_events_waitFor | k_events_subscribe | k_storage_put | k_storage_get | k_storage_delete
| k_storage_move | k_storage_copy | k_realtime_broadcast | k_state_set.

#[export] Instance CommandKind_eq_dec : EqDecision CommandKind.
Proof. solve_decision. Defined.

Inductive CommandStatus : Type := c_completed | c_failed | c_waiting.

#[export] Instance CommandStatus_eq_dec : EqDecision CommandStatus.
Proof. solve_decision. Defined.

Definition metadata : Type := list (string * jsval).

(** [r_result = None] is a record without the key [result]; [Some JUndefined] a record
    whose [result] is [undefined]. *)
Record CommandRecord : Type := {
  r_seq : nat;
  r_kind : CommandKind;
  r_status : CommandStatus;
  r_attempts : Z;
  r_result : option jsval;
  r_error : option SerializedError;
  r_metadata : option metadata;
  r_compensated : option bool;
  r_nextAttemptAt : option Q;
  r_timerExpiresAt : option Q;
  r_waitingFor : option string;
  r_startedAt : option Q;
  r_completedAt : option Q;
}.

Inductive HistoryEvent : Type :=
| run_started (at_ : Q) (input : jsval)
| run_status (at_ : Q) (from to : RunStatus)
| activity_started (at_ : Q) (seq : nat) (attempt : Z) (md : option metadata)
| activity_completed (at_ : Q) (seq : nat) (res : jsval)
| activity_failed (at_ : Q) (seq : nat) (attempt : Z) (error : SerializedError)
| retry_scheduled (at_ : Q) (seq : nat) (attempt : Z) (delayMs nextAttemptAt : Q)
| compensation_started (at_ : Q) (seq : nat)
| compensation_completed (at_ : Q) (seq : nat)
| compensation_failed (at_ : Q) (seq : nat) (error : SerializedError)
| signal_received (at_ : Q) (name : string) (payload : jsval)
| timer_set (at_ : Q) (seq : nat) (expiresAt : Q)
| timer_fired (at_ : Q) (seq : nat)
| publish_failed (at_ : Q) (event : string) (error : SerializedError).

Record RecordedSignal : Type := {
  s_name : string;
  s_payload : jsval;
  s_receivedAt : Q;
  s_consumed : bool;
}.

Record WorkflowRun : Type := {
  runId : string;
  definition : string;
  status : RunStatus;
  input : jsval;
  output : option jsval;
  commands : list CommandRecord;
  nextSeq : nat;
  state : list (string * jsval);
  pendingSignals : list RecordedSignal;
  history : list HistoryEvent;
  createdAt : Q;
  updatedAt : Q;
}.

(** ** The store interface *)

Class WorkflowStore (ST : Type) : Type := {
  ws_save : WorkflowRun → ST → ST;
  ws_load : string → ST → option WorkflowRun;
}.

(** What the journal relies on: a saved run is read back as it was. *)
Class LosslessStore (ST : Type) `{WorkflowStore ST} : Prop := {
  load_save_eq run s : ws_load (runId run) (ws_save run s) = Some run;
  load_save_ne run id s : id ≠ runId run → ws_load id (ws_save run s) = ws_load id s;
}.

(** ** The journal *)

(** What a command can throw into the workflow function. *)
Inductive thrown : Type :=
| TError (e : SerializedError)
| TIntegrity (seq : nat)
| TSuspension (seq : nat) (kind : CommandKind) (waitingFor : option string)
    (timerExpiresAt : option Q).

Inductive settled : Type :=
| CompletedOutcome (res : jsval)
| FailedOutcome (error : SerializedError)
| WaitingOutcome (waitingFor : option string) (timerExpiresAt : option Q).

(** The fields that an outcome's [record] may set.  Its type in the code is
    [Partial<CommandRecord>]; left out here are [seq], [kind], [status], [result] and
    [error], by which replay recognises a command and its outcome.  No caller in the
    repository sets a [record]. *)
Record ExtraFields : Type := {
  x_attempts : option Z;
  x_metadata : option metadata;
  x_compensated : option bool;
  x_nextAttemptAt : option Q;
  x_timerExpiresAt : option Q;
  x_waitingFor : option string;
  x_startedAt : option Q;
  x_completedAt : option Q;
}.

Record CommandOutcome : Type := {
  o_settled : settled;
  o_attempts : option Z;
  o_history : option (list HistoryEvent);
  o_runStatus : option RunStatus;
  o_statePatch : option (list (string * jsval));
  o_record : option ExtraFields;
}.

Definition outcome_status (o : CommandOutcome) : CommandStatus :=
  match o_settled o with
  | CompletedOutcome _ => c_completed
  | FailedOutcome _ => c_failed
  | WaitingOutcome _ _ => c_waiting
  end.

(** Object spread [{ ...state, ...patch }]. *)
Definition merge_state (st patch : list (string * jsval)) : list (string * jsval) :=
  foldl (λ m kv, jm_set kv.1 kv.2 m) st patch.

Section journal.
Context {W : Type} (clock : W → Q).

(** A command: its kind, its metadata and its effect, which sees the snapshot of the
    journal, the [seq] and the start time; an effect may also throw. *)
Record CommandSpec : Type := {
  c_kind : CommandKind;
  c_metadata : option metadata;
  c_execute : WorkflowRun → nat → Q → W → result thrown CommandOutcome * W;
}.

Definition or_else {A} (a b : option A) : option A :=
  match a with Some _ => a | None => b end.

Definition buildRecord (spec : CommandSpec) (seq : nat) (startedAt settledAt : Q)
    (outcome : CommandOutcome) (previous : option CommandRecord) : CommandRecord :=
  let attempts :=
    match o_attempts outcome with
    | Some n => n
    | None => match o_settled outcome with
              | WaitingOutcome _ _ => default 0%Z (r_attempts <$> previous)
              | _ => 1%Z
              end
    end in
  let extra {A} (get : ExtraFields → option A) (own : option A) : option A :=
    or_else (o_record outcome ≫= get) own in      (* [Object.assign(record, outcome.record)] *)
  {| r_seq := seq;
     r_kind := c_kind spec;
     r_status := outcome_status outcome;
     r_attempts := default attempts (o_record outcome ≫= x_attempts);
     r_result := match o_settled outcome with CompletedOutcome v => Some v | _ => None end;
     r_error := match o_settled outcome with FailedOutcome e => Some e | _ => None end;
     r_metadata := extra x_metadata (or_else (c_metadata spec) (previous ≫= r_metadata));
     r_compensated := o_record outcome ≫= x_compensated;
     r_nextAttemptAt := o_record outcome ≫= x_nextAttemptAt;
     r_timerExpiresAt :=
       extra x_timerExpiresAt (match o_settled outcome with WaitingOutcome _ t => t | _ => None end);
     r_waitingFor :=
       extra x_waitingFor (match o_settled outcome with WaitingOutcome w _ => w | _ => None end);
     r_startedAt := extra x_startedAt (or_else (previous ≫= r_startedAt) (Some startedAt));
     r_completedAt :=
       extra x_completedAt (match o_settled outcome with
                            | WaitingOutcome _ _ => None
                            | _ => Some settledAt
                            end) |}.

(** [deserializeError] of a recorded error, as the error the function sees. *)
Definition deserializeError (e : option SerializedError) : SerializedError :=
  default {| err_name := "Error"; err_message := "Workflow command failed.";
             err_stack := None |} e.

Context {ST : Type} `{WorkflowStore ST}.

(** The journal of a run: the snapshot and the replay cursor; and what survives it,
    the store and the world. *)
Record journal : Type := {
  j_run : WorkflowRun;
  j_cursor : nat;
  j_store : ST;
  j_world : W;
}.

Definition open_journal (run : WorkflowRun) (s : ST) (w : W) : journal :=
  Build_journal run 0 s w.

Definition replaying (j : journal) : bool := j_cursor j <? length (commands (j_run j)).

Definition advance (j : journal) : journal :=
  Build_journal (j_run j) (j_cursor j + 1) (j_store j) (j_world j).

(** Replay of a recorded, settled command. *)
Definition replay_command (spec : CommandSpec) (recorded : CommandRecord) (j : journal) :
    result thrown jsval * journal :=
  let j := advance j in
  if decide (r_kind recorded ≠ c_kind spec) then (Throw (TIntegrity (r_seq recorded)), j)
  else match r_status recorded with
       | c_completed =>
           match r_result recorded with
           | Some v => (Ok v, j)
           | None => (Throw (TIntegrity (r_seq recorded)), j)
           end
       | _ => (Throw (TError (deserializeError (r_error recorded))), j)
       end.

(** The snapshot after a live command. *)
Definition record_outcome (run : WorkflowRun) (cmds : list CommandRecord) (next : nat)
    (outcome : CommandOutcome) (settledAt : Q) : WorkflowRun :=
  {| runId := runId run; definition := definition run;
     status := default (status run) (o_runStatus outcome);
     input := input run; output := output run;
     commands := cmds; nextSeq := next;
     state := match o_statePatch outcome with
              | Some patch => merge_state (state run) patch
              | None => state run
              end;
     pendingSignals := pendingSignals run;
     history := history run ++ default [] (o_history outcome);
     createdAt := createdAt run; updatedAt := settledAt |}.

(** A brand-new command ([previous = None]) or a parked wait run again. *)
Definition live_command (spec : CommandSpec) (previous : option CommandRecord) (j : journal) :
    result thrown jsval * journal :=
  let run := j_run j in
  let index := j_cursor j in
  let seq := match previous with Some r => r_seq r | None => nextSeq run end in
  let startedAt := clock (j_world j) in
  let '(executed, w) := c_execute spec run seq startedAt (j_world j) in
  match executed with
  | Throw t => (Throw t, Build_journal run index (j_store j) w)
  | Ok outcome =>
  let settledAt := clock w in
  let nextRecord := buildRecord spec seq startedAt settledAt outcome previous in
  let cmds := match previous with
              | Some _ => <[index := nextRecord]> (commands run)
              | None => commands run ++ [nextRecord]
              end in
  let next := match previous with Some _ => nextSeq run | None => nextSeq run + 1 end in
  let persisted := record_outcome run cmds next outcome settledAt in
  let s := ws_save persisted (j_store j) in
  match o_settled outcome with
  | CompletedOutcome v => (Ok v, Build_journal persisted (index + 1) s w)
  | FailedOutcome e =>
      (Throw (TError (deserializeError (Some e))), Build_journal persisted (index + 1) s w)
  | WaitingOutcome wf t =>
      (Throw (TSuspension seq (c_kind spec) wf t), Build_journal persisted index s w)
  end end.

Definition process (spec : CommandSpec) (j : journal) : result thrown jsval * journal :=
  match commands (j_run j) !! j_cursor j with
  | Some recorded =>
      match r_status recorded with
      | c_waiting => live_command spec (Some recorded) j
      | _ => replay_command spec recorded j
      end
  | None => live_command spec None j
  end.

Definition readState (key : string) (j : journal) : jsval :=
  default JUndefined (jm_get key (state (j_run j))).

Definition plain_outcome (s : settled) : CommandOutcome :=
  {| o_settled := s; o_attempts := None; o_history := None; o_runStatus := None;
     o_statePatch := None; o_record := None |}.

Definition setState (key : string) (value : jsval) : CommandSpec :=
  {| c_kind := k_state_set;
     c_metadata := Some [("key", JStr key)];
     c_execute := λ _ _ _ w,
       (Ok {| o_settled := CompletedOutcome JUndefined; o_attempts := None; o_history := None;
              o_runStatus := None; o_statePatch := Some [(key, value)]; o_record := None |},
        w) |}.

Record RunPatch : Type := {
  p_status : option RunStatus;
  p_output : option jsval;
  p_history : option (list HistoryEvent);
}.

Definition commit (patch : RunPatch) (j : journal) : journal :=
  let run := j_run j in
  let persisted :=
    {| runId := runId run; definition := definition run;
       status := default (status run) (p_status patch);
       input := input run; output := or_else (p_output patch) (output run);
       commands := commands run; nextSeq := nextSeq run; state := state run;
       pendingSignals := pendingSignals run;
       history := history run ++ default [] (p_history patch);
       createdAt := createdAt run; updatedAt := clock (j_world j) |} in
  Build_journal persisted (j_cursor j) (ws_save persisted (j_store j)) (j_world j).

(** ** Workflow functions *)

Inductive workflow : Type :=
| Return (v : jsval)
| Raise (t : thrown)
| Do (spec : CommandSpec) (k : result thrown jsval → workflow)
| Read (key : string) (k : jsval → workflow).

(** Driving a function to its end. *)
Fixpoint drive (f : workflow) (j : journal) : result thrown jsval * journal :=
  match f with
  | Return v => (Ok v, j)
  | Raise t => (Throw t, j)
  | Do spec k => let '(r, j) := process spec j in drive (k r) j
  | Read key k => drive (k (readState key j)) j
  end.

(** Driving it until the process dies, after [n] commands: what is left is the store
    and the world. *)
Fixpoint drive_until_crash (n : nat) (f : workflow) (j : journal) : ST * W :=
  match f with
  | Return _ | Raise _ => (j_store j, j_world j)
  | Do spec k =>
      match n with
      | O => (j_store j, j_world j)
      | S n => let '(r, j) := process spec j in drive_until_crash n (k r) j
      end
  | Read key k => drive_until_crash n (k (readState key j)) j
  end.

(** Resuming: the snapshot is loaded and the function is invoked from the top. *)
Definition resume (f : workflow) (id : string) (s : ST) (w : W) :
    option (result thrown jsval * journal) :=
  run ← ws_load id s; Some (drive f (open_journal run s w)).
End journal.

Definition new_run (id def : string) (input : jsval) (now : Q) : WorkflowRun :=
  {| runId := id; definition := def; status := running; input := input; output := None;
     commands := []; nextSeq := 0; state := []; pendingSignals := [];
     history := [run_started now input]; createdAt := now; updatedAt := now |}.

Arguments CommandSpec : clear implicits.
Arguments workflow : clear implicits.
Arguments journal W ST : clear implicits.

(** ** The journal stays in order *)

Record run_ok (r : WorkflowRun) : Prop := {
  run_seqs : r_seq <$> commands r = seq 0 (length (commands r));
  run_next : nextSeq r = length (commands r);
}.

Section journal_facts.
Context {W : Type} (clock : W → Q) {ST : Type} `{LosslessStore ST}.
Implicit Types (j : journal W ST) (spec : CommandSpec W) (f : workflow W).

(** The cursor points into the journal; only the last command can be waiting, and it
    has not been passed. *)
Record journal_ok (j : journal W ST) : Prop := {
  jo_run : run_ok (j_run j);
  jo_cursor : j_cursor j <= length (commands (j_run j));
  jo_waiting : ∀ i c, commands (j_run j) !! i = Some c → r_status c = c_waiting →
    S i = length (commands (j_run j)) ∧ j_cursor j <= i;
  jo_store : ws_load (runId (j_run j)) (j_store j) = Some (j_run j);
}.

Lemma outcome_settled_status o :
  outcome_status o = match o_settled o with
                     | CompletedOutcome _ => c_completed
                     | FailedOutcome _ => c_failed
                     | WaitingOutcome _ _ => c_waiting
                     end.
Proof. done. Qed.

Lemma live_command_new_ok spec j :
  journal_ok j → commands (j_run j) !! j_cursor j = None →
  journal_ok (live_command clock spec None j).2.
Proof.
  intros [[Hs Hn] Hc Hw Hst] Hnone. apply lookup_ge_None in Hnone.
  assert (j_cursor j = length (commands (j_run j))) as Hcur by lia.
  unfold live_command. destruct (c_execute _ _ _ _ _) as [[o|t] w]; [|by split].
  set (rec := buildRecord _ _ _ _ _ _). set (run' := record_outcome _ _ _ _ _).
  assert (run_ok run') as Hrun'.
  { split; simpl; rewrite length_app; simpl; [|lia].
    rewrite fmap_app, seq_app, Hs. f_equal. unfold rec. simpl. by rewrite Hn. }
  assert (r_status rec = outcome_status o) as Hrec by done.
  assert (∀ cur, cur <= S (j_cursor j) →
    (outcome_status o = c_waiting → cur = j_cursor j) →
    journal_ok (Build_journal run' cur (ws_save run' (j_store j)) w)) as Hok.
  { intros cur Hle Hwait. split; simpl; [done|rewrite length_app; simpl; lia| |exact (load_save_eq run' (j_store j))].
    intros i c Hi Hst'. rewrite length_app; simpl.
    apply lookup_app_Some in Hi as [Hi|[Hge Hi]].
    - destruct (Hw i c Hi Hst') as [Hlen Hcu]. apply lookup_lt_Some in Hi. lia.
    - apply list_lookup_singleton_Some in Hi as [Hi <-].
      rewrite Hrec in Hst'. specialize (Hwait Hst'). lia. }
  rewrite outcome_settled_status in Hok.
  destruct (o_settled o); apply Hok; try lia; done.
Qed.

Lemma live_command_reuse_ok spec j r :
  journal_ok j → commands (j_run j) !! j_cursor j = Some r → r_status r = c_waiting →
  journal_ok (live_command clock spec (Some r) j).2.
Proof.
  intros [[Hs Hn] Hc Hw Hst] Hr Hwait. destruct (Hw _ _ Hr Hwait) as [Hlast _].
  unfold live_command. destruct (c_execute _ _ _ _ _) as [[o|t] w]; [|by split].
  set (rec := buildRecord _ _ _ _ _ _). set (run' := record_outcome _ _ _ _ _).
  assert (run_ok run') as Hrun'.
  { split; simpl; rewrite length_insert; [|done].
    rewrite list_fmap_insert. rewrite list_insert_id; [done|]. simpl.
    by rewrite list_lookup_fmap, Hr. }
  assert (∀ cur, cur <= S (j_cursor j) →
    (outcome_status o = c_waiting → cur = j_cursor j) →
    journal_ok (Build_journal run' cur (ws_save run' (j_store j)) w)) as Hok.
  { intros cur Hle Hwt. split; simpl; [done|rewrite length_insert; lia| |exact (load_save_eq run' (j_store j))].
    intros i c Hi Hst'. rewrite length_insert.
    apply list_lookup_insert_Some in Hi as [(<- & <- & _)|[Hne Hi]].
    - specialize (Hwt Hst'). lia.
    - destruct (Hw i c Hi Hst') as [Hlen _]. lia. }
  rewrite outcome_settled_status in Hok.
  destruct (o_settled o); apply Hok; try lia; done.
Qed.

Lemma replay_ok spec r j :
  journal_ok j → commands (j_run j) !! j_cursor j = Some r → r_status r ≠ c_waiting →
  journal_ok (replay_command spec r j).2 ∧ j_run (replay_command spec r j).2 = j_run j ∧
  j_store (replay_command spec r j).2 = j_store j ∧ j_world (replay_command spec r j).2 = j_world j.
Proof.
  intros [Hrun Hc Hw Hst] Hr Hns.
  assert (journal_ok (advance j)) as Hadv.
  { apply lookup_lt_Some in Hr as Hlt. split; simpl; [done|lia| |done].
    intros i c Hi Hwait. destruct (Hw i c Hi Hwait) as [? Hle]. split; [done|].
    destruct (decide (i = j_cursor j)) as [->|]; [congruence|lia]. }
  unfold replay_command. case_decide; [done|]. destruct (r_status r); [|done|done].
  by destruct (r_result r).
Qed.

Lemma process_ok spec j : journal_ok j → journal_ok (process clock spec j).2.
Proof.
  intros Hok. unfold process. destruct (commands (j_run j) !! j_cursor j) as [r|] eqn:Hr.
  - destruct (r_status r) eqn:Hs.
    + by apply replay_ok; rewrite ?Hs.
    + by apply replay_ok; rewrite ?Hs.
    + by apply live_command_reuse_ok.
  - by apply live_command_new_ok.
Qed.

Lemma drive_ok f : ∀ j, journal_ok j → journal_ok (drive clock f j).2.
Proof.
  induction f as [v|t|spec k IH|key k IH]; intros j Hok; simpl; [done|done| |by apply IH].
  pose proof (process_ok spec j Hok) as Hp. destruct (process clock spec j) as [r j1]. by apply IH.
Qed.
End journal_facts.

Lemma new_run_ok id def v now : run_ok (new_run id def v now).
Proof. done. Qed.

Lemma open_journal_ok {W ST} `{LosslessStore ST} run (s : ST) (w : W) :
  run_ok run → Forall (λ c, r_status c ≠ c_waiting) (commands run) →
  ws_load (runId run) s = Some run → journal_ok (open_journal run s w).
Proof.
  intros Hrun Hall Hload. split; simpl; [done|lia| |done].
  intros i c Hi Hc. rewrite Forall_forall in Hall. apply list_elem_of_lookup_2 in Hi.
  by destruct (Hall c Hi).
Qed.

(** ** Crash and replay *)

Section replay.
Context {W : Type} (clock : W → Q) {ST : Type} `{LosslessStore ST}.
Implicit Types (j : journal W ST) (spec : CommandSpec W).

(** An effect that does not throw but reports its failures as outcomes, which the
    journal records, and does not write the keys [K] of the durable state. *)
Definition recorded_effect (K : list string) spec : Prop := ∀ run seq now w,
  match (c_execute spec run seq now w).1 with
  | Ok o => ∀ patch, o_statePatch o = Some patch → Forall (λ kv, kv.1 ∉ K) patch
  | Throw _ => False
  end.

(** A function of recorded effects whose durable reads are of keys it never writes,
    and that lets a suspension end it. *)
Fixpoint replayable (K : list string) (f : workflow W) : Prop :=
  match f with
  | Return _ | Raise _ => True
  | Do spec k =>
      recorded_effect K spec ∧
      (∀ q kd a b, k (Throw (TSuspension q kd a b)) = Raise (TSuspension q kd a b)) ∧
      ∀ r, replayable K (k r)
  | Read key k => key ∈ K ∧ ∀ v, replayable K (k v)
  end.

Definition same_on (K : list string) (r1 r2 : WorkflowRun) : Prop :=
  ∀ key, key ∈ K → jm_get key (state r1) = jm_get key (state r2).

Definition unparked (r : WorkflowRun) : Prop :=
  Forall (λ c, r_status c ≠ c_waiting) (commands r).

Lemma merge_state_other (K : list string) patch : ∀ st,
  Forall (λ kv : string * jsval, kv.1 ∉ K) patch →
  ∀ key, key ∈ K → jm_get key (merge_state st patch) = jm_get key st.
Proof.
  induction patch as [|[k v] patch IH]; intros st Hall key Hkey; [done|].
  apply Forall_cons in Hall as [Hk Hall]. change (merge_state st ((k, v) :: patch)) with
    (merge_state (jm_set k v st) patch).
  rewrite IH by done. apply jm_get_set_ne. intros ->. done.
Qed.

(** A live command at the frontier: what it records is what replaying it gives. *)
Lemma live_command_replays K spec j (k : result thrown jsval → workflow W) :
  j_cursor j = length (commands (j_run j)) →
  recorded_effect K spec →
  let '(r, j1) := live_command clock spec None j in
  ∃ rec, commands (j_run j1) = commands (j_run j) ++ [rec] ∧ runId (j_run j1) = runId (j_run j) ∧
    same_on K (j_run j1) (j_run j) ∧
    ws_load (runId (j_run j)) (j_store j1) = Some (j_run j1) ∧
    if decide (r_status rec = c_waiting)
    then ∃ q kd a b, r = Throw (TSuspension q kd a b)
    else j_cursor j1 = length (commands (j_run j1)) ∧
      ∀ R s w, commands R !! j_cursor j = Some rec →
        process clock spec (Build_journal R (j_cursor j) s w) =
          (r, Build_journal R (j_cursor j1) s w).
Proof.
  intros Hcur Hpatch. unfold live_command.
  specialize (Hpatch (j_run j) (nextSeq (j_run j)) (clock (j_world j)) (j_world j)).
  destruct (c_execute spec _ _ _ _) as [[o|t] w] eqn:Hex; simpl in Hpatch; [|done].
  set (rec := buildRecord spec _ _ _ o None). set (run' := record_outcome _ _ _ _ _).
  assert (same_on K run' (j_run j)) as Hsame.
  { intros key Hkey. simpl. destruct (o_statePatch o) as [patch|]; [|done].
    apply (merge_state_other K); [by apply Hpatch|done]. }
  pose proof (load_save_eq run' (j_store j)) as Hload.
  assert (r_kind rec = c_kind spec) as Hkind by done.
  assert (r_status rec = outcome_status o) as Hst by done.
  assert (r_result rec = match o_settled o with CompletedOutcome v => Some v | _ => None end)
    as Hres by done.
  assert (r_error rec = match o_settled o with FailedOutcome e => Some e | _ => None end)
    as Herr by done.
  rewrite outcome_settled_status in Hst. subst run'. clearbody rec.
  unfold process, replay_command. destruct (o_settled o) as [v|e|wf t];
    exists rec; (split; [done|]); (split; [done|]); (split; [done|]); (split; [exact Hload|]).
  - rewrite decide_False by congruence. split; [simpl; rewrite length_app; simpl; lia|].
    intros R s w' HR. simpl. rewrite HR, Hst. simpl. rewrite decide_False by congruence.
    by rewrite Hres.
  - rewrite decide_False by congruence. split; [simpl; rewrite length_app; simpl; lia|].
    intros R s w' HR. simpl. rewrite HR, Hst. simpl. rewrite decide_False by congruence.
    by rewrite Herr.
  - rewrite decide_True by done. eauto.
Qed.

Lemma crash_replay K f : ∀ n j,
  replayable K f → j_cursor j = length (commands (j_run j)) →
  ws_load (runId (j_run j)) (j_store j) = Some (j_run j) →
  let '(s, w) := drive_until_crash clock n f j in
  ∃ R, ws_load (runId (j_run j)) s = Some R ∧
    (unparked R →
       commands (j_run j) `prefix_of` commands R ∧ same_on K R (j_run j) ∧
       drive clock f (Build_journal R (j_cursor j) s w) = drive clock f j).
Proof.
  assert (∀ f j, j_cursor j = length (commands (j_run j)) →
    ws_load (runId (j_run j)) (j_store j) = Some (j_run j) →
    ∃ R, ws_load (runId (j_run j)) (j_store j) = Some R ∧
    (unparked R → commands (j_run j) `prefix_of` commands R ∧ same_on K R (j_run j) ∧
       drive clock f (Build_journal R (j_cursor j) (j_store j) (j_world j)) = drive clock f j)) as Hnow.
  { intros f0 j _ Hload. exists (j_run j). repeat split; [done..|]. by destruct j. }
  induction f as [v|t|spec k IH|key k IH]; intros n j Hf Hcur Hload;
    [by apply (Hnow (Return v))|by apply (Hnow (Raise t))| |].
  - destruct n as [|n]; [by apply (Hnow (Do spec k))|]. cbn [drive_until_crash drive].
    destruct Hf as (Hpatch & Hsusp & Hk).
    assert (commands (j_run j) !! j_cursor j = None) as Hnone by (apply lookup_ge_None; lia).
    pose proof (live_command_replays K spec j k Hcur Hpatch) as Hlive.
    unfold process at 1 3. rewrite Hnone.
    destruct (live_command clock spec None j) as [r j1].
    destruct Hlive as (rec & Hcmds & Hid & Hsame & Hload1 & Hrec).
    destruct (decide (r_status rec = c_waiting)) as [Hw|Hw].
    + destruct Hrec as (q & kd & a & b & ->). rewrite Hsusp. cbn [drive_until_crash].
      exists (j_run j1). split; [done|]. intros Hun. exfalso.
      unfold unparked in Hun. rewrite Hcmds, Forall_app, Forall_cons in Hun. tauto.
    + destruct Hrec as [Hcur1 Hreplay]. rewrite <-Hid in Hload1.
      specialize (IH r n j1 (Hk r) Hcur1 Hload1). rewrite Hid in IH.
      destruct (drive_until_crash clock n (k r) j1) as [s w].
      destruct IH as (R & HR & IH). exists R. split; [done|]. intros Hun.
      destruct (IH Hun) as (Hpre & HsameR & Hdrive). rewrite Hcmds in Hpre.
      split; [by eapply prefix_app_l|]. split.
      { intros key Hkey. rewrite HsameR by done. by apply Hsame. }
      rewrite (Hreplay R s w); [done|].
      destruct Hpre as [l ->]. rewrite <-(assoc_L (++)), lookup_app_r, Hcur by lia.
      by rewrite Nat.sub_diag.
  - destruct Hf as [Hkey Hk]. cbn [drive_until_crash drive].
    specialize (IH (readState key j) n j (Hk _) Hcur Hload).
    destruct (drive_until_crash clock n (k (readState key j)) j) as [s w].
    destruct IH as (R & HR & IH). exists R. split; [done|]. intros Hun.
    destruct (IH Hun) as (Hpre & Hsame & Hdrive). split; [done|]. split; [done|].
    replace (readState key (Build_journal R (j_cursor j) s w)) with (readState key j); [done|].
    unfold readState. simpl. by rewrite Hsame.
Qed.
End replay.

(** C1: Crash and replay are invisible to a replayable function.  A run is driven from a
    fresh snapshot and the process dies between two commands, after any number [n] of them,
    leaving only the store and the world.  If the run is not parked on a wait, the store
    reads back exactly what was saved (the memory store does, the Redis store drops an
    undefined result) and the function is replayable - its effects report their failures as
    outcomes, as activities do, instead of throwing, it reads only durable keys it never
    writes, and it lets suspensions pass - then loading the snapshot and invoking the
    function again from the top ends exactly as the run that was never interrupted: same
    result or error, same journal, same store, same world, so no recorded effect was
    executed twice and none was skipped. *)
Theorem crash_resume_equiv {W ST} (clock : W → Q) `{LosslessStore ST} K (f : workflow W) n
    run (s0 : ST) (w0 : W) :
  replayable K f → commands run = [] → ws_load (runId run) s0 = Some run →
  let j0 := open_journal run s0 w0 in
  let '(s, w) := drive_until_crash clock n f j0 in
  (∀ R, ws_load (runId run) s = Some R → unparked R) →
  resume clock f (runId run) s w = Some (drive clock f j0).
Proof.
  intros Hf Hempty Hload j0.
  pose proof (crash_replay clock K f n j0 Hf) as Hr.
  destruct (drive_until_crash clock n f j0) as [s w]. intros Hun.
  destruct Hr as (R & HR & Hdrive); [subst j0; simpl; by rewrite Hempty|done|].
  unfold resume. simpl in HR. rewrite HR. simpl. f_equal.
  apply Hdrive. by apply Hun.
Qed.

(** The journal numbers commands in the order they are issued and is persisted
    before the function goes on.  Driving any function from a journal in order, for
    any mix of replayed, live and parked commands, ends with the commands numbered 0,
    1, 2, ... without gap, [nextSeq] the next number, at most the last one waiting, and
    the store holding exactly the snapshot the journal holds. *)
Theorem journal_in_order {W ST} (clock : W → Q) `{LosslessStore ST} (f : workflow W)
    (j : journal W ST) :
  journal_ok j →
  let run := j_run (drive clock f j).2 in
  r_seq <$> commands run = seq 0 (length (commands run)) ∧
  nextSeq run = length (commands run) ∧
  (∀ i c, commands run !! i = Some c → r_status c = c_waiting → S i = length (commands run)) ∧
  ws_load (runId run) (j_store (drive clock f j).2) = Some run.
Proof.
  intros Hok. destruct (drive_ok clock f j Hok) as [[] _ Hw Hst]. repeat split; [done..| |done].
  intros i c Hi Hc. by apply (Hw i c).
Qed.
