(* ===== verification/Bridges.v ===== *)
(** * The bridges of a workflow: storage, queue, events and realtime

    Models src/packages/workflow/src/integrations/ (storage.ts with its idempotence keys
    and their FNV-1a hash, queue.ts, events.ts, realtime.ts) and the journaled commands
    of src/packages/workflow/src/context.ts that call them ([ctx.storage],
    [ctx.queue.dispatch], [ctx.events.publish], [ctx.realtime.broadcast]).  The services
    behind the bridges are arguments: functions on a world.  Not modelled: [subscribe],
    which runs outside the journal, and the running of activities through a queue. *)

From Stdlib Require Import Ascii String QArith.
From S2P Require Import Prelude JsText JsMap JsInt Journal.

Open Scope nat_scope.

(** [n.toString(16)] of a natural number. *)
Definition hex_char (d : Z) : ascii := ascii_of_N (Z.to_N (if (d <? 10)%Z then 48 + d else 87 + d)).
Fixpoint hex_fuel (fuel : nat) (n : Z) (acc : list ascii) : list ascii :=
  match fuel with
  | O => acc
  | S fuel =>
      let acc := hex_char (n mod 16) :: acc in
      if (n <? 16)%Z then acc else hex_fuel fuel (n / 16) acc
  end.
Definition show_hex (n : Z) : string := string_of_list_ascii (hex_fuel (S (Z.to_nat (Z.log2 n))) n []).

(** ** Idempotence keys *)

(** The arguments of a storage operation: absent, a text, bytes, or any other value,
    given by what [JSON.stringify] answers, [None] when it throws. *)
Inductive argument : Type :=
| A_undefined
| A_text (s : string)
| A_bytes (bytes : list Z)
| A_json (json : option string).

Definition show_nat (n : nat) : string := string_of_list_ascii (show (Z.of_nat n)).

(** [token]. *)
Definition token_of (value : argument) : string :=
  match value with
  | A_undefined => "u"
  | A_text s => "s" +:+ show_nat (String.length s) +:+ ":" +:+ show_hex (fnv1a s)
  | A_bytes bytes => "b" +:+ show_nat (length bytes) +:+ ":" +:+ show_hex (fnv1aBytes bytes)
  | A_json (Some json) => "j:" +:+ json
  | A_json None => "j:unserializable"
  end.

Definition keyOf (op : string) (args : list argument) : string :=
  op +:+ ":" +:+ String.concat "|" (token_of <$> args).

Definition config_error (message : string) : SerializedError :=
  {| err_name := "WorkflowConfigError"; err_message := message; err_stack := None |}.

(** ** The services *)

Inductive content : Type := C_text (s : string) | C_bytes (bytes : list Z).

Definition content_argument (c : content) : argument :=
  match c with C_text s => A_text s | C_bytes b => A_bytes b end.
Definition options_argument (o : option (option string)) : argument :=
  match o with None => A_undefined | Some json => A_json json end.

Section services.
Context {W : Type}.

(** A call of a service: it resolves or rejects, and acts on the world.  The options of
    [put] are known by their JSON text. *)
Definition call (A : Type) : Type := W → result SerializedError A * W.

Record StorageLike : Type := {
  st_put : string → content → option (option string) → call unit;
  st_get : string → call jsval;
  st_delete : string → call unit;
  st_move : string → string → call unit;
  st_copy : string → string → call unit;
}.
Record QueueLike : Type := { q_dispatch : string → jsval → call string }.
Record EventsLike : Type := { ev_publish : string → jsval → call unit }.
Record RealtimeLike : Type := { rt_broadcast : string → string → jsval → call unit }.

(** ** The storage bridge *)

Inductive mutation : Type :=
| M_put (key : string) (c : content) (options : option (option string))
| M_delete (key : string)
| M_move (from to : string)
| M_copy (from to : string).

Definition op_name (m : mutation) : string :=
  match m with
  | M_put _ _ _ => "put" | M_delete _ => "delete" | M_move _ _ => "move" | M_copy _ _ => "copy"
  end.
Definition op_args (m : mutation) : list argument :=
  match m with
  | M_put key c options => [A_text key; content_argument c; options_argument options]
  | M_delete key => [A_text key]
  | M_move from to | M_copy from to => [A_text from; A_text to]
  end.
Definition mutation_key (m : mutation) : string := keyOf (op_name m) (op_args m).

Definition effect_of (storage : StorageLike) (m : mutation) : call unit :=
  match m with
  | M_put key c options => st_put storage key c options
  | M_delete key => st_delete storage key
  | M_move from to => st_move storage from to
  | M_copy from to => st_copy storage from to
  end.

(** The keys applied so far in this run, and the world. *)
Record bridged : Type := { applied : list string; bw_world : W }.

Definition applyOnce (op : string) (args : list argument) (effect : call unit) (b : bridged) :
    result SerializedError unit * bridged :=
  let key := keyOf op args in
  if decide (key ∈ applied b) then (Ok tt, b)
  else
    match effect (bw_world b) with
    | (Ok _, w) => (Ok tt, {| applied := key :: applied b; bw_world := w |})
    | (Throw e, w) => (Throw e, {| applied := applied b; bw_world := w |})
    end.

Definition unwired (operation : string) : SerializedError :=
  config_error ("ctx.storage." +:+ operation +:+
    " was called but no StorageLike bridge is configured; supply a storage bridge in the workflow configuration to use ctx.storage.").

(** [put], [delete], [move] and [copy] of the surface. *)
Definition storage_mutate (storage : option StorageLike) (m : mutation) (b : bridged) :
    result SerializedError unit * bridged :=
  match storage with
  | None => (Throw (unwired (op_name m)), b)
  | Some storage => applyOnce (op_name m) (op_args m) (effect_of storage m) b
  end.

Definition storage_get (storage : option StorageLike) (key : string) (b : bridged) :
    result SerializedError jsval * bridged :=
  match storage with
  | None => (Throw (unwired "get"), b)
  | Some storage =>
      let '(r, w) := st_get storage key (bw_world b) in
      (r, {| applied := applied b; bw_world := w |})
  end.

(** ** The other bridges *)

Definition queue_dispatch (queue : option QueueLike) (job : string) (payload : jsval) :
    call string := λ w,
  match queue with
  | None =>
      (Throw (config_error ("ctx.queue.dispatch(" +:+ quoted job +:+
         ") was called but no QueueLike bridge is wired; supply `bridges.queue` in the workflow configuration to dispatch background jobs.")), w)
  | Some queue => q_dispatch queue job payload w
  end.

(** [publish]: the failure the hook [onPublishFailure] is handed, if any. *)
Definition events_publish (events : option EventsLike) (event : string) (payload : jsval) (w : W) :
    result SerializedError (option SerializedError) * W :=
  match events with
  | None =>
      (Throw (config_error ("ctx.events.publish was called but no EventsLike bridge is wired; supply `bridges.events` in the workflow configuration to publish, wait for, or subscribe to events.")), w)
  | Some events =>
      match ev_publish events event payload w with
      | (Ok _, w) => (Ok None, w)
      | (Throw e, w) => (Ok (Some e), w)
      end
  end.

Definition DEFAULT_BROADCAST_EVENT : string := "workflow.broadcast".
Definition WORKFLOW_LIFECYCLE_CHANNEL : string := "workflow".

(** A failure of the broadcast is ignored. *)
Definition safeBroadcast (realtime : RealtimeLike) (channel event : string) (payload : jsval)
    (w : W) : W := (rt_broadcast realtime channel event payload w).2.

Definition realtime_broadcast (realtime : option RealtimeLike) (channel : string)
    (payload : jsval) : call unit := λ w,
  match realtime with
  | None =>
      (Throw (config_error ("ctx.realtime.broadcast(" +:+ quoted channel +:+
         ") was called but no RealtimeLike bridge is wired; supply `bridges.realtime` in the workflow configuration to broadcast to connected clients.")), w)
  | Some realtime => (Ok tt, safeBroadcast realtime channel DEFAULT_BROADCAST_EVENT payload w)
  end.

(** [{ ...extra, runId, event }]. *)
Definition broadcastLifecycle (realtime : option RealtimeLike) (event runId : string)
    (extra : list (string * jsval)) (w : W) : W :=
  match realtime with
  | None => w
  | Some realtime =>
      safeBroadcast realtime WORKFLOW_LIFECYCLE_CHANNEL event
        (JObj (jm_set "event" (JStr event) (jm_set "runId" (JStr runId) extra))) w
  end.

(** ** The journaled commands *)

Definition rejected {A} (r : result SerializedError A) (f : A → CommandOutcome) :
    result thrown CommandOutcome :=
  match r with Ok a => Ok (f a) | Throw e => Throw (TError e) end.

Definition mutation_kind (m : mutation) : CommandKind :=
  match m with
  | M_put _ _ _ => k_storage_put | M_delete _ => k_storage_delete
  | M_move _ _ => k_storage_move | M_copy _ _ => k_storage_copy
  end.

Definition void_outcome : CommandOutcome := plain_outcome (CompletedOutcome JUndefined).

Definition storage_command (storage : option StorageLike) (m : mutation) : CommandSpec bridged :=
  {| c_kind := mutation_kind m; c_metadata := None;
     c_execute := λ _ _ _ b,
       let '(r, b) := storage_mutate storage m b in (rejected r (λ _, void_outcome), b) |}.
Definition get_command (storage : option StorageLike) (key : string) : CommandSpec bridged :=
  {| c_kind := k_storage_get; c_metadata := None;
     c_execute := λ _ _ _ b,
       let '(r, b) := storage_get storage key b in
       (rejected r (λ v, plain_outcome (CompletedOutcome v)), b) |}.

Definition dispatch_command (queue : option QueueLike) (job : string) (payload : jsval) :
    CommandSpec W :=
  {| c_kind := k_queue_dispatch; c_metadata := None;
     c_execute := λ _ _ _ w,
       let '(r, w) := queue_dispatch queue job payload w in
       (rejected r (λ jobId, plain_outcome (CompletedOutcome (JStr jobId))), w) |}.

(** The failure is recorded with the time of the hook's call. *)
Definition publish_command (clock : W → Q) (events : option EventsLike) (event : string)
    (payload : jsval) : CommandSpec W :=
  {| c_kind := k_events_publish; c_metadata := None;
     c_execute := λ _ _ _ w,
       let '(r, w) := events_publish events event payload w in
       (rejected r (λ failure,
          {| o_settled := CompletedOutcome JUndefined; o_attempts := None;
             o_history := (λ e, [publish_failed (clock w) event e]) <$> failure;
             o_runStatus := None; o_statePatch := None; o_record := None |}), w) |}.

Definition broadcast_command (realtime : option RealtimeLike) (channel : string)
    (payload : jsval) : CommandSpec W :=
  {| c_kind := k_realtime_broadcast; c_metadata := None;
     c_execute := λ _ _ _ w,
       let '(r, w) := realtime_broadcast realtime channel payload w in
       (rejected r (λ _, void_outcome), w) |}.
End services.

Arguments call : clear implicits.
Arguments StorageLike : clear implicits.
Arguments bridged : clear implicits.

(** ** The hash *)

(** The hash of the idempotence keys is 32-bit FNV-1a.  The loop of [^=] and
    [Math.imul], which works on signed 32-bit integers, and the final [>>> 0] compute
    the hash that the definition on unsigned integers gives, a number below 2^32. *)
Theorem fnv1a_is_fnv (bytes : list Z) :
  Forall (λ c, 0 <= c < 2 ^ 32)%Z bytes →
  fnv1aBytes bytes = fnv_reference bytes ∧ (0 <= fnv1aBytes bytes < 2 ^ 32)%Z.
Proof.
  intros Hb. split; [by apply fnv_loop|apply fnv_bound].
Qed.

Lemma fnv1a_is_fnv_witness :
  fnv1a "foobar" = fnv_reference (char_codes "foobar") ∧ fnv1a "foobar" = 0xbf9cf968%Z.
Proof.
  assert (Forall (λ c, 0 <= c < 2 ^ 32)%Z (char_codes "foobar")) as H.
  { change (char_codes "foobar") with [102; 111; 111; 98; 97; 114]%Z.
    repeat (apply Forall_cons_2; [lia|]). apply Forall_nil_2. }
  split; [exact (proj1 (fnv1a_is_fnv _ H))|vm_compute; reflexivity].
Defined.

(** ** Running mutations through the bridge *)

Section storage.
Context {W : Type} (storage : StorageLike W).
Implicit Types (m : mutation) (b : bridged W).

Definition bridge_step b m : bridged W := (storage_mutate (Some storage) m b).2.
Definition direct_step (w : W) m : W := (effect_of storage m w).2.

Lemma bridge_applies b m w :
  mutation_key m ∉ applied b → effect_of storage m (bw_world b) = (Ok tt, w) →
  bridge_step b m = {| applied := mutation_key m :: applied b; bw_world := w |}.
Proof.
  intros Hni He. unfold bridge_step, storage_mutate, applyOnce.
  rewrite decide_False by done. by rewrite He.
Qed.

Lemma bridge_fresh b m :
  mutation_key m ∉ applied b →
  bw_world (bridge_step b m) = direct_step (bw_world b) m ∧
  (∀ k, k ∈ applied (bridge_step b m) → k = mutation_key m ∨ k ∈ applied b).
Proof.
  intros Hni. unfold bridge_step, direct_step, storage_mutate, applyOnce.
  rewrite decide_False by done. destruct (effect_of storage m (bw_world b)) as [[[]|e] w]; simpl.
  - split; [done|]. intros k [->|?]%elem_of_cons; [by left|by right].
  - split; [done|]. intros k ?. by right.
Qed.

Lemma bridge_repeat b m : mutation_key m ∈ applied b → bridge_step b m = b.
Proof.
  intros Hin. unfold bridge_step, storage_mutate, applyOnce. by rewrite decide_True.
Qed.

Lemma bridge_distinct ms : ∀ b,
  NoDup (mutation_key <$> ms) → Forall (λ m, mutation_key m ∉ applied b) ms →
  bw_world (foldl bridge_step b ms) = foldl direct_step (bw_world b) ms.
Proof.
  induction ms as [|m ms IH]; intros b Hnd Hni; [done|]. csimpl in Hnd.
  apply NoDup_cons in Hnd as [Hm Hnd]. apply Forall_cons in Hni as [Hb Hni].
  destruct (bridge_fresh b m Hb) as [Hw Ha]. cbn [foldl]. rewrite IH, Hw; [done|done|].
  apply Forall_forall. intros m' Hin Hk%Ha. destruct Hk as [Hk|Hk].
  - apply Hm. rewrite <-Hk. by apply list_elem_of_fmap_2.
  - rewrite Forall_forall in Hni. by apply (Hni m').
Qed.
End storage.

(** The storage bridge is transparent to distinct operations.  Mutations whose
    idempotence keys are pairwise different reach the storage in order, each exactly
    once, the failing ones included: the storage ends as if it had been called directly;
    and an operation that has succeeded is not applied again. *)
Theorem storage_bridge_transparent {W} (storage : StorageLike W) (ms : list mutation) (w : W) :
  NoDup (mutation_key <$> ms) →
  let b := foldl (bridge_step storage) {| applied := []; bw_world := w |} ms in
  bw_world b = foldl (direct_step storage) w ms ∧
  ∀ m b', (storage_mutate (Some storage) m b).1 = Ok tt →
    b' = bridge_step storage b m → bridge_step storage b' m = b'.
Proof.
  intros Hnd b. split.
  - unfold b. apply (bridge_distinct storage ms {| applied := []; bw_world := w |}); [done|].
    apply Forall_forall. intros m _ Hin. by apply elem_of_nil in Hin.
  - intros m b' Hok ->. apply bridge_repeat. revert Hok.
    unfold bridge_step, storage_mutate, applyOnce. fold (mutation_key m).
    case_decide; [done|]. destruct (effect_of storage m (bw_world b)) as [[[]|e] w']; [|done].
    intros _. left.
Qed.

(** What is stored under each key; [put] stores and [delete] removes. *)
Class StoredContent {W} (storage : StorageLike W) (stored : string → W → option content) :
    Prop := {
  put_stores key c o w : ∃ w', st_put storage key c o w = (Ok tt, w') ∧ stored key w' = Some c;
  delete_removes key w : ∃ w', st_delete storage key w = (Ok tt, w') ∧ stored key w' = None;
}.

Lemma key_delete_put key key' c o : mutation_key (M_delete key) ≠ mutation_key (M_put key' c o).
Proof. done. Qed.

(** Repeating an operation can lose it.  The bridge never repeats an operation of
    the run with the same arguments, also when the storage has changed in between: after
    [put(k, a); put(k, b); put(k, a)] the storage holds b and after
    [put(k, a); delete(k); put(k, a)] nothing, and a [put] of other content with the
    same key text is dropped; called directly, the storage holds what was put last. *)
Theorem storage_repeat_is_lost {W} (storage : StorageLike W) stored
    `{!StoredContent storage stored} (key : string) (a b : content) (w : W) :
  let put c := M_put key c None in
  let run ms := bw_world (foldl (bridge_step storage) {| applied := []; bw_world := w |} ms) in
  (∀ ms, stored key (foldl (direct_step storage) w (ms ++ [put a])) = Some a) ∧
  (mutation_key (put a) ≠ mutation_key (put b) →
     stored key (run [put a; put b; put a]) = Some b) ∧
  stored key (run [put a; M_delete key; put a]) = None ∧
  (mutation_key (put a) = mutation_key (put b) → stored key (run [put a; put b]) = Some a).
Proof.
  intros put run.
  destruct (put_stores key a None w) as (wa & Ha & Sa).
  set (b1 := {| applied := [mutation_key (put a)]; bw_world := wa |}).
  assert (bridge_step storage {| applied := []; bw_world := w |} (put a) = b1) as Hfirst
    by (apply bridge_applies; [apply not_elem_of_nil|done]).
  unfold run. cbn [foldl]. rewrite Hfirst. split; [|split; [|split]].
  - intros ms. rewrite foldl_snoc.
    destruct (put_stores key a None (foldl (direct_step storage) w ms)) as (w' & Hw & Hs).
    unfold direct_step at 1, put. cbn [effect_of]. by rewrite Hw.
  - intros Hne. destruct (put_stores key b None wa) as (wb & Hb & Sb).
    rewrite (bridge_applies storage b1 (put b) wb);
      [|by intros Hin%list_elem_of_singleton; apply Hne|done].
    rewrite bridge_repeat; [done|]. right. left.
  - destruct (delete_removes key wa) as (wd & Hd & Sd).
    rewrite (bridge_applies storage b1 (M_delete key) wd);
      [|by intros Hin%list_elem_of_singleton; apply key_delete_put in Hin|done].
    rewrite bridge_repeat; [done|]. right. left.
  - intros Heq. rewrite bridge_repeat; [done|]. rewrite <-Heq. left.
Qed.

(** A storage in memory. *)
Definition memory_storage : StorageLike (gmap string content) :=
  let copy from to w :=
    match w !! from with Some c => <[to := c]> w | None => w end in
  {| st_put := λ key c _ w, (Ok tt, <[key := c]> w);
     st_get := λ key w, (Ok match w !! key with Some (C_text s) => JStr s
                            | Some (C_bytes b) => JBytes b | None => JUndefined end, w);
     st_delete := λ key w, (Ok tt, delete key w);
     st_move := λ from to w, (Ok tt, delete from (copy from to w));
     st_copy := λ from to w, (Ok tt, copy from to w) |}.

#[export] Instance memory_storage_stored :
  StoredContent memory_storage (λ key w, w !! key).
Proof.
  split; intros; eexists; (split; [reflexivity|]); [apply lookup_insert_eq|apply lookup_delete_eq].
Qed.

Lemma storage_bridge_transparent_witness :
  let ms := [M_put "a" (C_text "x") None; M_copy "a" "b"; M_delete "a"; M_move "b" "c"] in
  bw_world (foldl (bridge_step memory_storage) {| applied := []; bw_world := ∅ |} ms) =
    {["c" := C_text "x"]}.
Proof.
  cbv zeta.
  assert (NoDup (mutation_key <$> [M_put "a" (C_text "x") None; M_copy "a" "b"; M_delete "a";
    M_move "b" "c"])) as Hnd by (apply (bool_decide_unpack _); vm_compute; exact I).
  rewrite (proj1 (storage_bridge_transparent memory_storage _ ∅ Hnd)). reflexivity.
Defined.

(** The last [put] of "draft" is lost, and so is the content whose hash collides. *)
Lemma storage_repeat_is_lost_witness :
  let run ms := bw_world (foldl (bridge_step memory_storage)
                            {| applied := []; bw_world := ∅ |} ms) in
  let put s := M_put "doc" (C_text s) None in
  run [put "draft"; put "final"; put "draft"] !! "doc" = Some (C_text "final") ∧
  run [put "draft"; M_delete "doc"; put "draft"] !! "doc" = None ∧
  run [put "paid 53924 by 02361"; put "paid 20720 by 67395"] !! "doc" =
    Some (C_text "paid 53924 by 02361").
Proof.
  cbv zeta.
  assert (mutation_key (M_put "doc" (C_text "draft") None) ≠
          mutation_key (M_put "doc" (C_text "final") None)) as Hne by (vm_compute; discriminate).
  assert (mutation_key (M_put "doc" (C_text "paid 53924 by 02361") None) =
          mutation_key (M_put "doc" (C_text "paid 20720 by 67395") None)) as Heq
    by (vm_compute; reflexivity).
  destruct (storage_repeat_is_lost memory_storage (λ key w, w !! key) "doc" (C_text "draft")
    (C_text "final") ∅) as (_ & H2 & H3 & _).
  destruct (storage_repeat_is_lost memory_storage (λ key w, w !! key) "doc"
    (C_text "paid 53924 by 02361") (C_text "paid 20720 by 67395") ∅) as (_ & _ & _ & H4).
  split; [exact (H2 Hne)|]. split; [exact H3|exact (H4 Heq)].
Defined.

(** ** The commands *)

(** [ctx.events.publish] never fails once a bridge is wired: whatever [publish] of the
    bridge does, the command completes, and exactly a failure is recorded in its
    history. *)
Lemma publish_completes {W} (clock : W → Q) events event payload run seq now (w : W) :
  let '(r, w1) := ev_publish events event payload w in
  c_execute (publish_command clock (Some events) event payload) run seq now w =
    (Ok {| o_settled := CompletedOutcome JUndefined; o_attempts := None;
           o_history := match r with
                        | Ok _ => None
                        | Throw e => Some [publish_failed (clock w1) event e]
                        end;
           o_runStatus := None; o_statePatch := None; o_record := None |}, w1).
Proof.
  unfold publish_command, events_publish. cbn [c_execute].
  by destruct (ev_publish events event payload w) as [[[]|e] w1].
Qed.
