(* ===== verification/WorkflowStores.v ===== *)
(** * The workflow stores

    Models src/packages/workflow/src/store.ts ([MemoryWorkflowStore]) and
    src/packages/workflow/src/redis/index.ts ([RedisWorkflowStore], its tagged JSON
    encoding and its key and set layout), both as instances of the journal's
    [WorkflowStore] interface.  The memory store clones the snapshot on the way in and
    out ([structuredClone] is the identity on the values of the model); the Redis store
    writes [JSON.stringify(run, replacer)], represented by the run that
    [JSON.parse(_, reviver)] makes of it.  Base64 is the platform's [Buffer] and a
    parameter. *)

From Stdlib Require Import QArith Ascii.
From S2P Require Import Prelude JsMap Journal.

Open Scope nat_scope.

(** ** The memory store *)

Definition memory_store : Type := list (string * WorkflowRun).

Inductive store_error : Type := PersistenceError (operation id : string).

Record WorkflowSummary : Type := {
  sum_runId : string;
  sum_definition : string;
  sum_status : RunStatus;
}.

Definition summary (run : WorkflowRun) : WorkflowSummary :=
  {| sum_runId := runId run; sum_definition := definition run; sum_status := status run |}.

Definition mem_save (run : WorkflowRun) (s : memory_store) : memory_store :=
  jm_set (runId run) run s.
Definition mem_load (id : string) (s : memory_store) : option WorkflowRun := jm_get id s.

Definition push_history (event : HistoryEvent) (run : WorkflowRun) : WorkflowRun :=
  {| runId := runId run; definition := definition run; status := status run;
     input := input run; output := output run; commands := commands run;
     nextSeq := nextSeq run; state := state run; pendingSignals := pendingSignals run;
     history := history run ++ [event]; createdAt := createdAt run;
     updatedAt := updatedAt run |}.

Definition mem_append (id : string) (event : HistoryEvent) (s : memory_store) :
    result store_error memory_store :=
  match jm_get id s with
  | None => Throw (PersistenceError "append" id)
  | Some stored => Ok (jm_set id (push_history event stored) s)
  end.

Definition mem_list (s : memory_store) : list WorkflowSummary := summary <$> jm_values s.
Definition mem_listIncomplete (s : memory_store) : list WorkflowRun :=
  filter (λ run, status run ∉ TERMINAL) (jm_values s).

#[export] Instance memory_WorkflowStore : WorkflowStore memory_store := {
  ws_save := mem_save;
  ws_load := mem_load;
}.

#[export] Instance memory_lossless : LosslessStore memory_store.
Proof.
  split; intros; simpl; unfold mem_load, mem_save.
  - apply jm_get_set_eq.
  - by apply jm_get_set_ne.
Qed.

(** ** The Redis store: values *)

Definition U8_TAG : string := "__u8b64__".

Section redis.
Variables (b64_encode : list Z → string) (b64_decode : string → list Z).

(** [JSON.stringify(value, replacer)] as a tree: [None] where the text has nothing,
    for a property whose value is [undefined]. *)
Fixpoint to_json (v : jsval) : option jsval :=
  match v with
  | JUndefined => None
  | JNull | JBool _ | JNum _ | JStr _ => Some v
  | JBytes b => Some (JObj [(U8_TAG, JStr (b64_encode b))])
  | JArr l =>
      Some (JArr (map (λ x, match to_json x with Some y => y | None => JNull end) l))
  | JObj fields =>
      Some (JObj (flat_map (λ kv,
        match kv with
        | (key, x) => match to_json x with Some y => [(key, y)] | None => [] end
        end) fields))
  end.

(** [JSON.parse(text, reviver)]: the reviver sees every value after its parts. *)
Fixpoint revive (v : jsval) : jsval :=
  match v with
  | JArr l => JArr (map revive l)
  | JObj fields =>
      let fields := map (λ kv, match kv with (key, x) => (key, revive x) end) fields in
      match jm_get U8_TAG fields with
      | Some (JStr b64) => JBytes (b64_decode b64)
      | _ => JObj fields
      end
  | _ => v
  end.

Definition json_image (v : jsval) : option jsval := revive <$> to_json v.

(** Reading a property that the text has lost gives [undefined]. *)
Definition json_field (v : jsval) : jsval := default JUndefined (json_image v).

Definition json_object (fields : list (string * jsval)) : list (string * jsval) :=
  omap (λ kv, (λ v, (kv.1, v)) <$> json_image kv.2) fields.

Definition json_command (c : CommandRecord) : CommandRecord :=
  {| r_seq := r_seq c; r_kind := r_kind c; r_status := r_status c;
     r_attempts := r_attempts c; r_result := r_result c ≫= json_image;
     r_error := r_error c; r_metadata := json_object <$> r_metadata c;
     r_compensated := r_compensated c; r_nextAttemptAt := r_nextAttemptAt c;
     r_timerExpiresAt := r_timerExpiresAt c; r_waitingFor := r_waitingFor c;
     r_startedAt := r_startedAt c; r_completedAt := r_completedAt c |}.

Definition json_event (e : HistoryEvent) : HistoryEvent :=
  match e with
  | run_started at_ v => run_started at_ (json_field v)
  | activity_started at_ seq attempt md =>
      activity_started at_ seq attempt (json_object <$> md)
  | activity_completed at_ seq v => activity_completed at_ seq (json_field v)
  | signal_received at_ name v => signal_received at_ name (json_field v)
  | _ => e
  end.

Definition json_signal (s : RecordedSignal) : RecordedSignal :=
  {| s_name := s_name s; s_payload := json_field (s_payload s);
     s_receivedAt := s_receivedAt s; s_consumed := s_consumed s |}.

(** [deserializeRun(serializeRun(run))]. *)
Definition json_run (run : WorkflowRun) : WorkflowRun :=
  {| runId := runId run; definition := definition run; status := status run;
     input := json_field (input run); output := output run ≫= json_image;
     commands := json_command <$> commands run; nextSeq := nextSeq run;
     state := json_object (state run);
     pendingSignals := json_signal <$> pendingSignals run;
     history := json_event <$> history run;
     createdAt := createdAt run; updatedAt := updatedAt run |}.

(** ** The Redis store: keys and operations *)

Record redis_store : Type := {
  keyPrefix : string;
  kv : list (string * WorkflowRun);
  sets : list (string * list string);
}.

Definition runKey (s : redis_store) (id : string) : string := keyPrefix s +:+ "run:" +:+ id.
Definition indexKey (s : redis_store) : string := keyPrefix s +:+ "index".
Definition incompleteKey (s : redis_store) : string := keyPrefix s +:+ "incomplete".

Definition redis_set (key : string) (run : WorkflowRun) (s : redis_store) : redis_store :=
  Build_redis_store (keyPrefix s) (jm_set key run (kv s)) (sets s).
Definition sMembers (key : string) (s : redis_store) : list string :=
  default [] (jm_get key (sets s)).
Definition sAdd (key member : string) (s : redis_store) : redis_store :=
  if decide (member ∈ sMembers key s) then s
  else Build_redis_store (keyPrefix s) (kv s)
         (jm_set key (sMembers key s ++ [member]) (sets s)).
Definition sRem (key member : string) (s : redis_store) : redis_store :=
  Build_redis_store (keyPrefix s) (kv s)
    (jm_set key (filter (λ m, m ≠ member) (sMembers key s)) (sets s)).

Definition redis_save (run : WorkflowRun) (s : redis_store) : redis_store :=
  let s := redis_set (runKey s (runId run)) (json_run run) s in
  let s := sAdd (indexKey s) (runId run) s in
  if decide (status run ∈ TERMINAL)
  then sRem (incompleteKey s) (runId run) s
  else sAdd (incompleteKey s) (runId run) s.

Definition redis_load (id : string) (s : redis_store) : option WorkflowRun :=
  jm_get (runKey s id) (kv s).

Definition redis_append (id : string) (event : HistoryEvent) (s : redis_store) :
    result store_error redis_store :=
  match redis_load id s with
  | None => Throw (PersistenceError "append" id)
  | Some existing => Ok (redis_set (runKey s id) (json_run (push_history event existing)) s)
  end.

Definition redis_list (s : redis_store) : list WorkflowSummary :=
  omap (λ id, summary <$> redis_load id s) (sMembers (indexKey s) s).

Definition redis_listIncomplete (s : redis_store) : list WorkflowRun :=
  omap (λ id, run ← redis_load id s; if decide (status run ∉ TERMINAL) then Some run else None)
    (sMembers (incompleteKey s) s).

#[local] Instance redis_WorkflowStore : WorkflowStore redis_store := {
  ws_save := redis_save;
  ws_load := redis_load;
}.

(** ** What survives the JSON round trip *)

(** No [undefined] and no object carrying the binary tag, at any depth. *)
Fixpoint plain (v : jsval) : Prop :=
  match v with
  | JUndefined => False
  | JNull | JBool _ | JNum _ | JStr _ | JBytes _ => True
  | JArr l => fold_right (λ x P, plain x ∧ P) True l
  | JObj fields =>
      jm_get U8_TAG fields = None ∧
      fold_right (λ kv P, match kv with (_, x) => plain x end ∧ P) True fields
  end.

Hypothesis b64_roundtrip : ∀ b, b64_decode (b64_encode b) = b.

Lemma json_image_plain : ∀ v, plain v → json_image v = Some v.
Proof.
  unfold json_image. fix IH 1. intros v Hv. destruct v as [| |b|n|s|b|l|fields]; try done.
  - simpl in *. rewrite b64_roundtrip. done.
  - cbn [to_json revive fmap option_fmap option_map]. do 2 f_equal.
    rewrite map_map. cbn [plain] in Hv. revert l Hv. fix IHl 1. intros [|x l]; [done|].
    simpl. intros [Hx Hl]. specialize (IH x Hx). destruct (to_json x) as [y|]; [|done].
    simpl in IH. injection IH as ->. f_equal. by apply IHl.
  - cbn [to_json revive fmap option_fmap option_map]. destruct Hv as [Htag Hv].
    match goal with |- context [map ?f (flat_map ?g fields)] =>
      assert (map f (flat_map g fields) = fields) as -> end.
    { clear Htag. revert fields Hv. fix IHl 1. intros [|[key x] fields]; [done|].
      simpl. intros [Hx Hl]. specialize (IH x Hx). destruct (to_json x) as [y|]; [|done].
      simpl in IH. injection IH as Hy. simpl. rewrite Hy. f_equal. by apply IHl. }
    by rewrite Htag.
Qed.
End redis.

Section redis_facts.
Variables (b64_encode : list Z → string) (b64_decode : string → list Z).
Hypothesis b64_roundtrip : ∀ b, b64_decode (b64_encode b) = b.

Definition plain_fields (l : list (string * jsval)) : Prop := Forall (λ kv, plain kv.2) l.

Definition plain_event (e : HistoryEvent) : Prop :=
  match e with
  | run_started _ v | activity_completed _ _ v | signal_received _ _ v => plain v
  | activity_started _ _ _ (Some md) => plain_fields md
  | _ => True
  end.

Definition plain_command (c : CommandRecord) : Prop :=
  (∀ v, r_result c = Some v → plain v) ∧ (∀ md, r_metadata c = Some md → plain_fields md).

Record plain_run (run : WorkflowRun) : Prop := {
  pl_input : plain (input run);
  pl_output : ∀ v, output run = Some v → plain v;
  pl_commands : Forall plain_command (commands run);
  pl_state : plain_fields (state run);
  pl_signals : Forall (λ s, plain (s_payload s)) (pendingSignals run);
  pl_history : Forall plain_event (history run);
}.

Lemma json_field_plain v : plain v → json_field b64_encode b64_decode v = v.
Proof. intros Hv. unfold json_field. by rewrite (json_image_plain _ _ b64_roundtrip v Hv). Qed.

Lemma json_object_plain l : plain_fields l → json_object b64_encode b64_decode l = l.
Proof.
  unfold json_object. induction 1 as [|[k v] l Hv _ IH]; [done|]. csimpl in *.
  rewrite (json_image_plain _ _ b64_roundtrip v Hv). simpl. by rewrite IH.
Qed.

Lemma json_option_plain (o : option jsval) :
  (∀ v, o = Some v → plain v) → o ≫= json_image b64_encode b64_decode = o.
Proof.
  destruct o as [v|]; [|done]. intros H. simpl.
  by rewrite (json_image_plain _ _ b64_roundtrip v (H v eq_refl)).
Qed.

Lemma json_command_plain c : plain_command c → json_command b64_encode b64_decode c = c.
Proof.
  intros [Hr Hm]. destruct c as [q k st a r e m x n t wf sa ca]. unfold json_command. simpl in *.
  rewrite (json_option_plain r Hr). destruct m as [md|]; [|done]. simpl.
  by rewrite (json_object_plain md (Hm md eq_refl)).
Qed.

Lemma json_event_plain e : plain_event e → json_event b64_encode b64_decode e = e.
Proof.
  destruct e as [| |? ? ? [md|]| | | | | | | | | |]; simpl; intros He; try done;
    by rewrite ?json_field_plain, ?json_object_plain by done.
Qed.

Lemma fmap_id_Forall {A} (P : A → Prop) (f : A → A) l :
  (∀ x, P x → f x = x) → Forall P l → f <$> l = l.
Proof. intros Hf. induction 1 as [|x l Hx _ IH]; csimpl; [done|]. by rewrite Hf, IH. Qed.

Lemma json_run_plain run : plain_run run → json_run b64_encode b64_decode run = run.
Proof.
  intros [H1 H2 H3 H4 H5 H6]. destruct run as [id df st inp out cmds nx sta sig hist ca ua].
  unfold json_run. simpl in *.
  rewrite (json_field_plain inp H1), (json_option_plain out H2), (json_object_plain sta H4).
  rewrite (fmap_id_Forall _ _ _ json_command_plain H3).
  rewrite (fmap_id_Forall _ _ _ json_event_plain H6).
  rewrite (fmap_id_Forall (λ s, plain (s_payload s))); [done| |done].
  intros [n p r c] Hp. unfold json_signal. simpl in *. by rewrite json_field_plain.
Qed.

Lemma string_app_inj (p a b : string) : p +:+ a = p +:+ b → a = b.
Proof. induction p as [|c p IH]; [done|]. intros H. apply IH. by injection H. Qed.

Lemma sMembers_sAdd s key member key' m :
  m ∈ sMembers key' (sAdd key member s) ↔ m ∈ sMembers key' s ∨ (key' = key ∧ m = member).
Proof.
  unfold sAdd. case_decide as Hin.
  { split; [by left|]. intros [?|[-> ->]]; done. }
  unfold sMembers at 1. cbn [sets]. destruct (decide (key' = key)) as [->|Hne].
  - rewrite jm_get_set_eq. simpl. rewrite elem_of_app, list_elem_of_singleton. naive_solver.
  - rewrite jm_get_set_ne by done. fold (sMembers key' s). naive_solver.
Qed.

Lemma sMembers_sRem s key member key' m :
  m ∈ sMembers key' (sRem key member s) ↔
    m ∈ sMembers key' s ∧ ¬ (key' = key ∧ m = member).
Proof.
  unfold sRem. unfold sMembers at 1. cbn [sets]. destruct (decide (key' = key)) as [->|Hne].
  - rewrite jm_get_set_eq. simpl. rewrite list_elem_of_filter. naive_solver.
  - rewrite jm_get_set_ne by done. fold (sMembers key' s). naive_solver.
Qed.

Lemma sAdd_kv key m s : kv (sAdd key m s) = kv s ∧ keyPrefix (sAdd key m s) = keyPrefix s.
Proof. unfold sAdd. by case_decide. Qed.

Lemma redis_save_kv run s :
  kv (redis_save b64_encode b64_decode run s) = jm_set (runKey s (runId run)) (json_run b64_encode b64_decode run) (kv s) ∧
  keyPrefix (redis_save b64_encode b64_decode run s) = keyPrefix s.
Proof.
  unfold redis_save. case_decide; simpl; rewrite ?(proj1 (sAdd_kv _ _ _)), ?(proj2 (sAdd_kv _ _ _));
    simpl; by rewrite ?(proj1 (sAdd_kv _ _ _)), ?(proj2 (sAdd_kv _ _ _)).
Qed.

Lemma redis_load_save run s id :
  redis_load id (redis_save b64_encode b64_decode run s) =
    if decide (id = runId run) then Some (json_run b64_encode b64_decode run) else redis_load id s.
Proof.
  unfold redis_load, runKey. destruct (redis_save_kv run s) as [-> ->].
  case_decide as Hid; [subst; apply jm_get_set_eq|]. apply jm_get_set_ne.
  unfold runKey. intros Heq. apply Hid. by do 2 apply string_app_inj in Heq.
Qed.
End redis_facts.

(** The Redis store is substitutable on JSON-safe runs.  A run whose values hold no
    [undefined] and no object with the binary tag is read back exactly as saved,
    binary values included; other runs are untouched; the run is indexed, and it is in
    the incomplete set exactly when its status is not terminal, the other ids of that
    set staying as they were. *)
Theorem redis_lossless_on_plain (enc : list Z → string) (dec : string → list Z) run s :
  (∀ b, dec (enc b) = b) → plain_run run →
  let s' := redis_save enc dec run s in
  redis_load (runId run) s' = Some run ∧
  (∀ id, id ≠ runId run → redis_load id s' = redis_load id s) ∧
  runId run ∈ sMembers (indexKey s') s' ∧
  (runId run ∈ sMembers (incompleteKey s') s' ↔ status run ∉ TERMINAL) ∧
  (∀ id, id ≠ runId run →
     id ∈ sMembers (incompleteKey s') s' ↔ id ∈ sMembers (incompleteKey s) s).
Proof.
  intros Hb Hrun s'. unfold s'.
  destruct (redis_save_kv enc dec run s) as [_ Hpre].
  split; [rewrite redis_load_save, decide_True by done; by rewrite json_run_plain|].
  split; [intros id Hid; by rewrite redis_load_save, decide_False by done|].
  unfold indexKey, incompleteKey. rewrite Hpre.
  assert (keyPrefix s +:+ "index" ≠ keyPrefix s +:+ "incomplete") as Hkeys
    by (by intros ?%string_app_inj).
  unfold redis_save. unfold indexKey, incompleteKey. cbn [redis_set keyPrefix].
  rewrite (proj2 (sAdd_kv _ _ _)). cbn [redis_set keyPrefix].
  case_decide as Hterm.
  - split; [rewrite sMembers_sRem, sMembers_sAdd; naive_solver|].
    split; [rewrite sMembers_sRem; naive_solver|].
    intros id Hid. rewrite sMembers_sRem, sMembers_sAdd. unfold sMembers at 1. cbn [redis_set sets].
    fold (sMembers (keyPrefix s +:+ "incomplete") s). naive_solver.
  - split; [rewrite !sMembers_sAdd; naive_solver|].
    split; [rewrite !sMembers_sAdd; naive_solver|].
    intros id Hid. rewrite !sMembers_sAdd. unfold sMembers at 1. cbn [redis_set sets].
    fold (sMembers (keyPrefix s +:+ "incomplete") s). naive_solver.
Qed.

Definition empty_redis : redis_store := Build_redis_store "workflow:" [] [].
Definition sample_run (v : jsval) : WorkflowRun := new_run "r1" "order" v 0.

(** An encoding of byte lists as strings that can be undone. *)
Fixpoint bits (p : positive) : string :=
  match p with
  | xH => EmptyString
  | xO p => String "0"%char (bits p)
  | xI p => String "1"%char (bits p)
  end.
Fixpoint unbits (s : string) : positive :=
  match s with
  | EmptyString => xH
  | String c s => if Ascii.eqb c "0"%char then xO (unbits s) else xI (unbits s)
  end.
Definition sample_enc (b : list Z) : string := bits (encode b).
Definition sample_dec (s : string) : list Z := default [] (decode (unbits s)).

Lemma sample_roundtrip b : sample_dec (sample_enc b) = b.
Proof.
  unfold sample_dec, sample_enc.
  assert (∀ p, unbits (bits p) = p) as -> by (induction p; simpl; congruence).
  by rewrite decode_encode.
Qed.

Lemma redis_lossless_on_plain_witness :
  let run := sample_run (JObj [("id", JNum 7); ("tags", JArr [JStr "a"; JNull; JBytes [1%Z]])]) in
  redis_load "r1" (redis_save sample_enc sample_dec run empty_redis) = Some run.
Proof.
  intros run. refine (proj1 (redis_lossless_on_plain sample_enc sample_dec run empty_redis
    sample_roundtrip _)).
  split; repeat constructor; done.
Defined.

(** ** What the journal makes of the stores *)

(** A void command does not survive the Redis store.  A workflow that sets a
    durable value and returns, driven over a Redis store whatever the encoding of
    bytes, ends normally; but if the process dies after the command and the run is
    resumed, the replay finds the completed command without its recorded result (the
    property [result: undefined] is dropped by the JSON text) and throws a
    ResumeIntegrityError. *)
Theorem redis_void_result_breaks_resume enc dec (key : string) (v : jsval) (now : Q) :
  let store := redis_WorkflowStore enc dec in
  let run := sample_run JNull in
  let f := Do (setState key v) (λ r, match r with Ok _ => Return JNull | Throw t => Raise t end) in
  let j0 := open_journal run (redis_save enc dec run empty_redis) tt in
  (drive (λ _ : unit, now) f j0).1 = Ok JNull ∧
  let '(s, w) := drive_until_crash (λ _ : unit, now) 1 f j0 in
  fst <$> resume (λ _ : unit, now) f "r1" s w = Some (Throw (TIntegrity 0)).
Proof. split; reflexivity. Qed.

(** An activity that records its name in the world. *)
Definition do_activity (name : string) : CommandSpec (list string) :=
  {| c_kind := k_activity; c_metadata := None;
     c_execute := λ _ _ _ w,
       (Ok (plain_outcome (CompletedOutcome (JStr name))), w ++ [name]) |}.

Definition on_ok {W} (r : result thrown jsval) (f : workflow W) : workflow W :=
  match r with Ok _ => f | Throw t => Raise t end.

(** [if (!ctx.state.get("charged")) { await charge; await ctx.state.set("charged", true) }
    await ship] *)
Definition charge_then_ship : workflow (list string) :=
  let ship := Do (do_activity "ship") (λ r, on_ok r (Return JNull)) in
  Read "charged" (λ v,
    match v with
    | JBool true => ship
    | _ => Do (do_activity "charge") (λ r,
             on_ok r (Do (setState "charged" (JBool true)) (λ r, on_ok r ship)))
    end).

(** Durable reads are not replayed.  A workflow that guards an activity by a durable
    flag it then sets performs both of its activities when it is not interrupted; if
    the process dies after the flag is set, the resumed run reads the flag as already
    set, takes the other branch, matches its second activity with the record of the
    first and completes without ever having executed the second one. *)
Theorem state_reads_diverge_on_replay (now : Q) :
  let clock := λ _ : list string, now in
  let run := sample_run JNull in
  let j0 := open_journal run (mem_save run []) [] in
  let '(s, w) := drive_until_crash clock 2 charge_then_ship j0 in
  ((drive clock charge_then_ship j0).1 = Ok JNull ∧
   j_world (drive clock charge_then_ship j0).2 = ["charge"; "ship"]) ∧
  (w = ["charge"] ∧
   (λ '(r, j), (r, j_world j)) <$> resume clock charge_then_ship "r1" s w =
     Some (Ok JNull, ["charge"])).
Proof. repeat split; reflexivity. Qed.

(** [try { await ctx.storage.put(key, content) } catch {}
    await audit], where the storage rejects. *)
Definition rejected_put : CommandSpec (list string) :=
  {| c_kind := k_storage_put; c_metadata := None;
     c_execute := λ _ _ _ w,
       (Throw (TError {| err_name := "Error"; err_message := "storage is down";
                         err_stack := None |}), w) |}.

Definition put_then_audit : workflow (list string) :=
  Do rejected_put (λ _, Do (do_activity "audit") (λ r, on_ok r (Return JNull))).

(** The failure of an effect that is not an activity is not journaled.  A workflow
    that catches the rejection of a storage put and goes on to an activity records only
    the activity; if the process dies after it and the run is resumed, the replayed put
    meets the record of the activity, the integrity error is caught in place of the
    rejection, and the activity, although recorded as completed, is executed a second
    time. *)
Theorem uncaught_effect_repeats_activity (now : Q) :
  let clock := λ _ : list string, now in
  let run := sample_run JNull in
  let j0 := open_journal run (mem_save run []) [] in
  let '(s, w) := drive_until_crash clock 2 put_then_audit j0 in
  j_world (drive clock put_then_audit j0).2 = ["audit"] ∧ w = ["audit"] ∧
  (λ '(r, j), (r, j_world j)) <$> resume clock put_then_audit "r1" s w =
    Some (Ok JNull, ["audit"; "audit"]).
Proof. repeat split; reflexivity. Qed.

(** Two activities in a row. *)
Definition charge_and_ship : workflow (list string) :=
  Do (do_activity "charge") (λ r, on_ok r
    (Do (do_activity "ship") (λ r, on_ok r (Return (JStr "done"))))).

Lemma charge_and_ship_replayable K : replayable K charge_and_ship.
Proof.
  split; [by intros ? ? ? ? ? [=]|]. split; [done|]. intros [v|t]; [|done].
  split; [by intros ? ? ? ? ? [=]|]. split; [done|]. by intros [v'|t].
Qed.

Lemma crash_resume_equiv_witness :
  let run := sample_run JNull in
  let j0 := open_journal run (mem_save run []) [] in
  let '(s, w) := drive_until_crash (λ _ : list string, 0%Q) 1 charge_and_ship j0 in
  w = ["charge"] ∧
  resume (λ _, 0%Q) charge_and_ship "r1" s w = Some (drive (λ _, 0%Q) charge_and_ship j0).
Proof.
  intros run j0.
  pose proof (crash_resume_equiv (λ _ : list string, 0%Q) [] charge_and_ship 1 run
    (mem_save run []) [] (charge_and_ship_replayable []) eq_refl eq_refl) as H.
  fold j0 in H. destruct (drive_until_crash _ 1 charge_and_ship j0) as [s w] eqn:E.
  vm_compute in E. injection E as <- <-. split; [reflexivity|]. apply H.
  intros R HR. vm_compute in HR. injection HR as <-. repeat constructor; done.
Defined.

Lemma journal_in_order_witness :
  let run := sample_run JNull in
  let j0 := open_journal run (mem_save run []) [] in
  let run' := j_run (drive (λ _ : list string, 0%Q) charge_and_ship j0).2 in
  r_seq <$> commands run' = seq 0 (length (commands run')) ∧ length (commands run') = 2.
Proof.
  split; [|reflexivity].
  refine (proj1 (journal_in_order (λ _ : list string, 0%Q) charge_and_ship _ _)).
  apply open_journal_ok; [done|constructor|reflexivity].
Defined.
