(* ===== verification/Executor.v ===== *)
(** * The workflow activity executor

    Models src/packages/workflow/src/backoff.ts ([computeBackoff]) and the attempt loop
    of src/packages/workflow/src/executor.ts ([ActivityExecutor.run], [commandSpec]).
    One attempt ([runAttempt]: middleware, timeout race, queue or direct call) is an
    argument acting on the external world, as are waiting a delay, the random source
    and the cancellation signal; what the loop decides and records is modelled in
    full. *)

From Stdlib Require Import QArith Qpower Qminmax Lqa.
From S2P Require Import Prelude JsMap Journal.

Open Scope Z_scope.

Inductive Backoff : Type :=
| B_fixed (delayMs : Q)
| B_linear (baseMs maxDelayMs : Q)
| B_exponential (baseMs multiplier maxDelayMs : Q)
| B_jitter (maxDelayMs : Q).

Definition computeBackoff (policy : Backoff) (attempt : Z) (rng : Q) : Q :=
  match policy with
  | B_fixed delayMs => delayMs
  | B_linear baseMs maxDelayMs => Qmin (baseMs * inject_Z attempt) maxDelayMs
  | B_exponential baseMs multiplier maxDelayMs =>
      Qmin (baseMs * multiplier ^ (attempt - 1)) maxDelayMs
  | B_jitter maxDelayMs => Qmin (rng * maxDelayMs) maxDelayMs
  end.

Record RetryPolicy : Type := {
  maxAttempts : Z;
  backoff : Backoff;
}.

Section executor.
Context {W : Type} (clock : W → Q).

(** The parts of the world the loop uses besides the clock: waiting, the cancellation
    signal of the run, the random source. *)
Record runtime_env : Type := {
  delay : Q → W → W;
  aborted : W → bool;
  rng : W → Q;
}.

(** One activity: an attempt with its number, its options. *)
Record activity_request : Type := {
  attempt_fn : Z → W → result SerializedError jsval * W;
  a_retry : option RetryPolicy;
  a_metadata : option metadata;
}.

Definition attempt_limit (req : activity_request) : Z :=
  match a_retry req with Some retry => Z.max 1 (maxAttempts retry) | None => 1 end.

Definition terminal_failure (lastError : option SerializedError) (attempt : Z)
    (hist : list HistoryEvent) : CommandOutcome :=
  {| o_settled := FailedOutcome (default
       {| err_name := "Error"; err_message := "Activity failed with no recorded error.";
          err_stack := None |} lastError);
     o_attempts := Some attempt; o_history := Some hist; o_runStatus := None;
     o_statePatch := None; o_record := None |}.

(** [n] is [maxAttempts - attempt], the number of times the loop condition can still
    hold. *)
Fixpoint attempts_loop (env : runtime_env) (req : activity_request) (seq n : nat)
    (attempt : Z) (hist : list HistoryEvent) (lastError : option SerializedError) (w : W) :
    CommandOutcome * W :=
  match n with
  | O => (terminal_failure lastError attempt hist, w)
  | S n =>
      let attempt := attempt + 1 in
      let hist := hist ++ [activity_started (clock w) seq attempt (a_metadata req)] in
      let '(r, w) := attempt_fn req attempt w in
      match r with
      | Ok value =>
          let hist := hist ++ [activity_completed (clock w) seq value] in
          ({| o_settled := CompletedOutcome value; o_attempts := Some attempt;
              o_history := Some hist; o_runStatus := None; o_statePatch := None;
              o_record := None |}, w)
      | Throw error =>
          let failedAt := clock w in
          let hist := hist ++ [activity_failed failedAt seq attempt error] in
          match a_retry req with
          | Some retry =>
              if attempt <? attempt_limit req
              then
                let delayMs := computeBackoff (backoff retry) attempt (rng env w) in
                let hist := hist ++ [retry_scheduled failedAt seq attempt delayMs
                                       (failedAt + delayMs)%Q] in
                let w := delay env delayMs w in
                if aborted env w
                then (terminal_failure (Some error) attempt hist, w)
                else attempts_loop env req seq n attempt hist (Some error) w
              else (terminal_failure (Some error) attempt hist, w)
          | None => (terminal_failure (Some error) attempt hist, w)
          end
      end
  end.

Definition executor_run (env : runtime_env) (req : activity_request) (seq : nat) (w : W) :
    CommandOutcome * W :=
  attempts_loop env req seq (Z.to_nat (attempt_limit req)) 0 [] None w.

Definition commandSpec (env : runtime_env) (req : activity_request) : CommandSpec W :=
  {| c_kind := k_activity; c_metadata := a_metadata req;
     c_execute := λ _ seq _ w, let '(o, w) := executor_run env req seq w in (Ok o, w) |}.

(** ** What the loop records *)

Definition started_attempt (e : HistoryEvent) : option Z :=
  match e with activity_started _ _ a _ => Some a | _ => None end.
Definition starts (hist : list HistoryEvent) : list Z := omap started_attempt hist.

Lemma starts_app h1 h2 : starts (h1 ++ h2) = starts h1 ++ starts h2.
Proof. apply omap_app. Qed.

(** How an outcome ends the loop. *)
Definition ends_well (env : runtime_env) (req : activity_request) (seq : nat)
    (o : CommandOutcome) (m : Z) (h : list HistoryEvent) (w' : W) : Prop :=
  match o_settled o with
  | CompletedOutcome v => ∃ at_, last h = Some (activity_completed at_ seq v)
  | FailedOutcome e =>
      (∃ at_, activity_failed at_ seq m e ∈ h) ∧
      (m = attempt_limit req ∨ a_retry req = None ∨ aborted env w' = true)
  | WaitingOutcome _ _ => False
  end.

Lemma attempts_loop_spec env req seq n : ∀ attempt hist lastError w,
  Z.of_nat n = attempt_limit req - attempt → (0 < n)%nat →
  let '(o, w') := attempts_loop env req seq n attempt hist lastError w in
  ∃ m h, o_attempts o = Some m ∧ attempt < m <= attempt_limit req ∧
    o_history o = Some (hist ++ h) ∧ starts h = seqZ (attempt + 1) (m - attempt) ∧
    ends_well env req seq o m h w'.
Proof.
  induction n as [|n IH]; intros attempt hist lastError w Hn Hpos; [lia|]. cbn [attempts_loop].
  set (s0 := activity_started _ _ _ _).
  assert (seqZ (attempt + 1) (attempt + 1 - attempt) = [attempt + 1]) as Hone.
  { replace (attempt + 1 - attempt) with 1 by lia. done. }
  destruct (attempt_fn req (attempt + 1) w) as [[value|error] w1].
  { do 2 eexists. split; [reflexivity|]. split; [lia|]. rewrite <-(assoc_L (++)).
    split; [reflexivity|]. split; [by rewrite Hone|]. simpl. by eexists. }
  destruct (a_retry req) as [retry|] eqn:Hretry.
  2: { do 2 eexists. split; [reflexivity|]. split; [lia|]. simpl. rewrite <-(assoc_L (++)).
       split; [reflexivity|]. split; [by rewrite Hone|]. split; [|by auto].
       eexists. right. left. }
  destruct (attempt + 1 <? attempt_limit req) eqn:Hlt; reflect_bools.
  2: { do 2 eexists. split; [reflexivity|]. split; [lia|]. simpl. rewrite <-(assoc_L (++)).
       split; [reflexivity|]. split; [by rewrite Hone|]. split; [|left; lia].
       eexists. right. left. }
  set (w2 := delay env _ w1). destruct (aborted env w2) eqn:Hab.
  { do 2 eexists. split; [reflexivity|]. split; [lia|]. simpl. rewrite <-!(assoc_L (++)).
    split; [reflexivity|]. split; [by rewrite Hone|]. split; [|by auto].
    eexists. right. left. }
  match goal with |- context [attempts_loop env req seq n ?a ?h ?e w2] =>
    specialize (IH a h e w2 ltac:(lia) ltac:(lia)) end.
  destruct (attempts_loop env req seq n _ _ _ w2) as [o w'].
  destruct IH as (m & h & Ho & Hm & Hh & Hs & Hend).
  do 2 eexists. split; [exact Ho|]. split; [lia|]. rewrite Hh, <-!(assoc_L (++)).
  split; [reflexivity|]. cbn [app]. split.
  - transitivity (attempt + 1 :: starts h); [reflexivity|]. rewrite Hs.
    rewrite (seqZ_cons (attempt + 1) (m - attempt)) by lia. f_equal. f_equal; lia.
  - unfold ends_well in *. destruct (o_settled o) as [v|e|]; [| |done].
    + destruct Hend as [at_ Hl]. exists at_. simpl. destruct h; [done|]. exact Hl.
    + destruct Hend as [[at_ Hin] ?]. split; [|done]. exists at_. do 3 right. exact Hin.
Qed.
End executor.

(** An activity is attempted at least once and at most [maxAttempts] times.  The
    outcome counts the attempts, its history starts attempt 1, 2, ... up to that count
    in order, each started once; it is completed with the value of the last attempt,
    or failed with the error of the last attempt, and then the attempts are used up,
    unless there is no retry policy or the run was cancelled during a backoff. *)
Theorem executor_attempts {W} (clock : W → Q) env (req : activity_request (W := W)) seq w :
  let '(o, w') := executor_run clock env req seq w in
  ∃ m h, o_attempts o = Some m ∧ 1 <= m <= attempt_limit req ∧ o_history o = Some h ∧
    starts h = seqZ 1 m ∧ ends_well env req seq o m h w'.
Proof.
  assert (1 <= attempt_limit req) as Hlim by (unfold attempt_limit; destruct (a_retry req); lia).
  pose proof (attempts_loop_spec clock env req seq (Z.to_nat (attempt_limit req)) 0 [] None w
    ltac:(lia) ltac:(lia)) as H.
  unfold executor_run. destruct (attempts_loop _ _ _ _ _ _ _ _ _) as [o w'].
  destruct H as (m & h & Ho & Hm & Hh & Hs & He). rewrite Z.sub_0_r in Hs.
  exists m, h. split; [done|]. split; [lia|]. done.
Qed.
