(* ===== verification/Parallel.v ===== *)
(** * Activities in parallel

    Models [ctx.parallel] of src/packages/workflow/src/context.ts ([all], [race], [map],
    [runParallelChildren], [combineChildren]) over single-attempt activities of the
    executor (src/packages/workflow/src/executor.ts).

    The children start together and settle one after the other, in an order that the
    environment chooses: a list of indexes, completed by the children it leaves out
    ([completion]), so that it is always an order of all the children.  A child acts on
    the world when it settles. *)

From Stdlib Require Import QArith.
From S2P Require Import Prelude JsMap Journal Executor.

Open Scope nat_scope.

(** The order in which [n] children settle. *)
Definition completion (order : list nat) (n : nat) : list nat :=
  let chosen := remove_dups (filter (λ i, i < n) order) in
  chosen ++ filter (λ i, i ∉ chosen) (seq 0 n).

(** An activity without options: what it answers and does when it settles. *)
Abbreviation child W := (W → result SerializedError jsval * W).

Section parallel.
Context {W : Type} (clock : W → Q).

(** [ActivityRunResult]. *)
Record child_result : Type := {
  ch_settled : result SerializedError jsval;
  ch_history : list HistoryEvent;
}.

(** One child without options: a single attempt. *)
Definition settle_child (seq : nat) (startedAt : Q) (c : child W) (w : W) : child_result * W :=
  let '(r, w) := c w in
  ({| ch_settled := r;
      ch_history :=
        [activity_started startedAt seq 1 None;
         match r with
         | Ok v => activity_completed (clock w) seq v
         | Throw e => activity_failed (clock w) seq 1 e
         end] |}, w).

Fixpoint settle_in_order (children : list (child W)) (seq : nat) (startedAt : Q) (order : list nat)
    (settled : gmap nat child_result) (w : W) : gmap nat child_result * W :=
  match order with
  | [] => (settled, w)
  | i :: order =>
      match children !! i with
      | Some c =>
          let '(r, w) := settle_child seq startedAt c w in
          settle_in_order children seq startedAt order (<[i := r]> settled) w
      | None => settle_in_order children seq startedAt order settled w
      end
  end.

(** [Promise.all]: the results in the order of the children. *)
Definition runParallelChildren (children : list (child W)) (order : list nat) (seq_ : nat) (w : W) :
    list child_result * W :=
  let n := length children in
  let '(settled, w) := settle_in_order children seq_ (clock w) (completion order n) ∅ w in
  (omap (λ i, settled !! i) (seq 0 n), w).

Definition combineChildren (results : list child_result) :
    list HistoryEvent * option SerializedError :=
  foldl (λ '(hist, failure) r,
    (hist ++ ch_history r,
     match failure, ch_settled r with
     | None, Throw e => Some e
     | _, _ => failure
     end)) ([], None) results.

Definition child_value (r : child_result) : jsval :=
  match ch_settled r with Ok v => v | Throw _ => JUndefined end.

(** [execute] of [all] and [map]. *)
Definition parallel_outcome (results : list child_result) : CommandOutcome :=
  let '(hist, failure) := combineChildren results in
  {| o_settled := match failure with
                  | Some e => FailedOutcome e
                  | None => CompletedOutcome (JArr (child_value <$> results))
                  end;
     o_attempts := None;
     o_history := if decide (hist = []) then None else Some hist;
     o_runStatus := None; o_statePatch := None; o_record := None |}.

Definition parallel_command (kind : CommandKind) (children : list (child W)) (order : list nat) :
    CommandSpec W :=
  {| c_kind := kind; c_metadata := None;
     c_execute := λ _ seq _ w,
       let '(results, w) := runParallelChildren children order seq w in
       (Ok (parallel_outcome results), w) |}.

Definition parallel_all (children : list (child W)) (order : list nat) : CommandSpec W :=
  parallel_command k_parallel_all children order.
Definition parallel_map {A} (items : list A) (mapper : A → nat → child W) (order : list nat) :
    CommandSpec W :=
  parallel_command k_parallel_map (imap (λ i x, mapper x i) items) order.

(** [Promise.any]: the first child that settles without failing; the children that have
    not settled then go on outside the command. *)
Definition aggregate_error : SerializedError :=
  {| err_name := "AggregateError"; err_message := "All promises were rejected";
     err_stack := None |}.

Fixpoint race_in_order (children : list (child W)) (seq : nat) (startedAt : Q) (order : list nat)
    (w : W) : result SerializedError jsval * W :=
  match order with
  | [] => (Throw aggregate_error, w)
  | i :: order =>
      match children !! i with
      | Some c =>
          let '(r, w) := settle_child seq startedAt c w in
          match ch_settled r with
          | Ok v => (Ok v, w)
          | Throw _ => race_in_order children seq startedAt order w
          end
      | None => race_in_order children seq startedAt order w
      end
  end.

Definition parallel_race (children : list (child W)) (order : list nat) : CommandSpec W :=
  {| c_kind := k_parallel_race; c_metadata := None;
     c_execute := λ _ seq _ w,
       let '(r, w) := race_in_order children seq (clock w) (completion order (length children)) w in
       (Ok (plain_outcome match r with
                          | Ok v => CompletedOutcome v
                          | Throw e => FailedOutcome e
                          end), w) |}.
End parallel.

(** ** The order *)

Lemma completion_perm order n : completion order n ≡ₚ seq 0 n.
Proof.
  unfold completion. set (chosen := remove_dups _).
  assert (NoDup chosen) as Hnd by apply NoDup_remove_dups.
  assert (∀ i, i ∈ chosen → i < n) as Hlt.
  { intros i. unfold chosen. rewrite elem_of_remove_dups, list_elem_of_filter. tauto. }
  apply NoDup_Permutation.
  - apply NoDup_app. split; [done|]. split; [|apply NoDup_filter, NoDup_seq].
    intros i Hi Hf. by apply list_elem_of_filter in Hf as [? _].
  - apply NoDup_seq.
  - intros i. rewrite elem_of_app, list_elem_of_filter, !elem_of_seq. split.
    + intros [Hi%Hlt|[_ ?]]; lia.
    + intros Hi. destruct (decide (i ∈ chosen)); [by left|by right].
Qed.

(** Any order of all the children is one that can happen. *)
Lemma completion_id order n : order ≡ₚ seq 0 n → completion order n = order.
Proof.
  intros Hp. unfold completion.
  assert (NoDup order) as Hnd by (rewrite Hp; apply NoDup_seq).
  assert (filter (λ i, i < n) order = order) as ->.
  { apply filter_all. apply Forall_forall. intros i. rewrite Hp, elem_of_seq. lia. }
  assert (remove_dups order = order) as ->.
  { clear Hp. induction Hnd as [|i order Hni Hnd IH]; [done|]. simpl.
    case_decide; [done|by rewrite IH]. }
  rewrite filter_none; [by rewrite app_nil_r|].
  apply Forall_forall. intros i Hi Hn. apply Hn. by rewrite Hp.
Qed.

(** ** What the children do, in any order *)

Definition failure_of (r : result SerializedError jsval) : option SerializedError :=
  match r with Ok _ => None | Throw e => Some e end.

(** The first failure in the order of the list. *)
Definition first_failure (rs : list (result SerializedError jsval)) : option SerializedError :=
  head (omap failure_of rs).

Definition ok_value (r : result SerializedError jsval) : jsval :=
  match r with Ok v => v | Throw _ => JUndefined end.

(** The two events of an attempt that began at [startedAt] and settled at some time. *)
Definition attempt_events (seq : nat) (startedAt : Q) (r : result SerializedError jsval)
    (hist : list HistoryEvent) : Prop :=
  ∃ at_, hist = [activity_started startedAt seq 1 None;
                 match r with
                 | Ok v => activity_completed at_ seq v
                 | Throw e => activity_failed at_ seq 1 e
                 end].

Section facts.
Context {W : Type} (clock : W → Q).
Implicit Types (children : list (child W)) (w : W).

Definition effect_of_child (c : option (child W)) (w : W) : W :=
  match c with Some c => (c w).2 | None => w end.

(** The effects of the children on the world, in an order. *)
Definition effects_in children (order : list nat) (w : W) : W :=
  foldl (λ w i, effect_of_child (children !! i) w) w order.

Lemma effects_cons children i order w :
  effects_in children (i :: order) w =
    effects_in children order (effect_of_child (children !! i) w).
Proof. done. Qed.

(** What each child answers, whatever the world. *)
Definition answers children (rs : list (result SerializedError jsval)) : Prop :=
  Forall2 (λ c r, ∀ w, (c w).1 = r) children rs.

Definition settled_as (seq : nat) (startedAt : Q) (r : result SerializedError jsval)
    (x : child_result) : Prop :=
  ch_settled x = r ∧ attempt_events seq startedAt r (ch_history x).

Lemma settle_child_spec seq s0 (c : child W) w :
  let '(x, w') := settle_child clock seq s0 c w in
  settled_as seq s0 (c w).1 x ∧ w' = (c w).2.
Proof.
  unfold settle_child. destruct (c w) as [r w']. split; [|done]. split; [done|]. by eexists.
Qed.

Lemma settle_in_order_spec children rs seq s0 order :
  answers children rs → ∀ settled w,
  let '(m, w') := settle_in_order clock children seq s0 order settled w in
  w' = effects_in children order w ∧
  ∀ i, (i ∈ order → ∀ r, rs !! i = Some r → ∃ x, m !! i = Some x ∧ settled_as seq s0 r x) ∧
       (i ∉ order → m !! i = settled !! i).
Proof.
  intros Hans. induction order as [|j order IH]; intros settled w; cbn [settle_in_order].
  { split; [done|]. intros i. split; [by intros ?%elem_of_nil|done]. }
  destruct (children !! j) as [c|] eqn:Hj.
  - pose proof (settle_child_spec seq s0 c w) as Hc.
    destruct (settle_child _ _ _ _ _) as [x w1]. destruct Hc as [Hx ->].
    specialize (IH (<[j:=x]> settled) (c w).2).
    destruct (settle_in_order _ _ _ _ _ _ _) as [m w']. destruct IH as [-> IH].
    split; [by rewrite effects_cons, Hj|]. intros i. destruct (IH i) as [H1 H2].
    split.
    + intros Hi r Hr. destruct (decide (i ∈ order)) as [Hin|Hni]; [by apply H1|].
      apply elem_of_cons in Hi as [->|Hi]; [|done]. exists x.
      rewrite H2 by done. split; [apply lookup_insert_eq|].
      destruct (Forall2_lookup_lr _ _ _ _ _ _ Hans Hj Hr w). done.
    + intros [Hne Hni]%not_elem_of_cons. rewrite H2 by done. by apply lookup_insert_ne.
  - specialize (IH settled w). destruct (settle_in_order _ _ _ _ _ _ _) as [m w'].
    destruct IH as [-> IH]. split; [by rewrite effects_cons, Hj|].
    intros i. destruct (IH i) as [H1 H2]. split.
    + intros [->|Hi]%elem_of_cons r Hr; [|by apply H1].
      apply Forall2_length in Hans. apply lookup_ge_None in Hj. apply lookup_lt_Some in Hr. lia.
    + intros [_ Hni]%not_elem_of_cons. by apply H2.
Qed.

Lemma collect_Forall2 {A B} (P : A → B → Prop) (m : gmap nat B) (l : list A) : ∀ k,
  (∀ i a, l !! i = Some a → ∃ b, m !! (k + i) = Some b ∧ P a b) →
  Forall2 P l (omap (λ i, m !! i) (seq k (length l))).
Proof.
  induction l as [|a l IH]; intros k H; [constructor|]. cbn [length seq omap list_omap].
  destruct (H 0 a eq_refl) as (b & Hb & HP). rewrite Nat.add_0_r in Hb. cbn. rewrite Hb.
  constructor; [done|]. apply (IH (S k)). intros i a' Hi.
  destruct (H (S i) a' Hi) as (b' & Hb' & ?). exists b'. split; [|done].
  by rewrite <-Hb', <-Nat.add_succ_comm.
Qed.

(** Every child settles once; the results are in the order of the children. *)
Lemma run_children children rs order seq w :
  answers children rs →
  let '(results, w') := runParallelChildren clock children order seq w in
  w' = effects_in children (completion order (length children)) w ∧
  Forall2 (settled_as seq (clock w)) rs results.
Proof.
  intros Hans. unfold runParallelChildren.
  pose proof (settle_in_order_spec children rs seq (clock w)
    (completion order (length children)) Hans ∅ w) as H.
  destruct (settle_in_order _ _ _ _ _ _ _) as [m w']. destruct H as [-> H]. split; [done|].
  rewrite (Forall2_length _ _ _ Hans) at 1. apply collect_Forall2. intros i r Hi. simpl.
  apply (proj1 (H i)); [|done]. rewrite completion_perm, elem_of_seq.
  apply lookup_lt_Some in Hi. rewrite (Forall2_length _ _ _ Hans). lia.
Qed.

Lemma combine_spec seq s0 rs results :
  Forall2 (settled_as seq s0) rs results → ∀ hist failure,
  foldl (λ '(hist, failure) r,
    (hist ++ ch_history r,
     match failure, ch_settled r with None, Throw e => Some e | _, _ => failure end))
    (hist, failure) results =
  (hist ++ mjoin (ch_history <$> results), or_else failure (first_failure rs)).
Proof.
  intros Hr. induction Hr as [|r x rs results [Hx _] _ IH]; intros hist failure.
  { csimpl. rewrite app_nil_r. by destruct failure. }
  cbn [foldl]. rewrite IH, Hx. csimpl. rewrite <-(assoc_L (++)). f_equal.
  unfold first_failure. destruct failure, r; reflexivity.
Qed.

Lemma parallel_outcome_spec seq s0 rs results :
  Forall2 (settled_as seq s0) rs results →
  o_settled (parallel_outcome results) =
    match first_failure rs with
    | Some e => FailedOutcome e
    | None => CompletedOutcome (JArr (ok_value <$> rs))
    end ∧
  default [] (o_history (parallel_outcome results)) = mjoin (ch_history <$> results).
Proof.
  intros Hr. unfold parallel_outcome, combineChildren.
  rewrite (combine_spec seq s0 rs results Hr [] None). cbn [or_else app]. split; cbn [o_settled o_history].
  - destruct (first_failure rs); [done|]. do 2 f_equal.
    induction Hr as [|r x rs results [Hx _] _ IH]; [done|]. csimpl. f_equal; [|done].
    unfold child_value. by rewrite Hx.
  - case_decide as Hn; [by rewrite Hn|done].
Qed.

(** The first child that answers a value, in an order of settling. *)
Definition first_value (rs : list (result SerializedError jsval)) (order : list nat) :
    option jsval :=
  head (omap (λ i, match rs !! i with Some (Ok v) => Some v | _ => None end) order).

Lemma race_spec children rs seq s0 order :
  answers children rs → ∀ w,
  (race_in_order clock children seq s0 order w).1 =
    match first_value rs order with Some v => Ok v | None => Throw aggregate_error end.
Proof.
  intros Hans. induction order as [|j order IH]; intros w; [done|]. cbn [race_in_order].
  unfold first_value. cbn [omap list_omap]. destruct (children !! j) as [c|] eqn:Hj.
  - destruct (Forall2_lookup_l _ _ _ _ _ Hans Hj) as (r & Hr & Hc). rewrite Hr.
    pose proof (settle_child_spec seq s0 c w) as Hs.
    destruct (settle_child _ _ _ _ _) as [x w1]. destruct Hs as [[Hx _] ->].
    rewrite Hx, Hc. destruct r as [v|e]; [done|]. apply IH.
  - assert (rs !! j = None) as ->; [|apply IH].
    apply lookup_ge_None. apply lookup_ge_None in Hj. by rewrite <-(Forall2_length _ _ _ Hans).
Qed.
End facts.

(** The outcome of [ctx.parallel.all] and [map] does not depend on the order in which
    the activities settle.  Whatever that order, every activity runs exactly once, also
    after another one has failed; the command completes with their values in the order
    of the list, or fails with the error of the first failing activity of the list; and
    the history has the two events of each activity, in the order of the list. *)
Theorem parallel_all_positional {W} (clock : W → Q) kind (children : list (child W)) rs order
    run seq now w :
  answers children rs →
  let '(executed, w') := c_execute (parallel_command clock kind children order) run seq now w in
  (∃ o hists, executed = Ok o ∧
    o_settled o = match first_failure rs with
                  | Some e => FailedOutcome e
                  | None => CompletedOutcome (JArr (ok_value <$> rs))
                  end ∧
    default [] (o_history o) = mjoin hists ∧
    Forall2 (attempt_events seq (clock w)) rs hists) ∧
  (∃ order', order' ≡ₚ List.seq 0 (length children) ∧ w' = effects_in children order' w).
Proof.
  intros Hans. cbn [c_execute parallel_command].
  pose proof (run_children clock children rs order seq w Hans) as H.
  destruct (runParallelChildren _ _ _ _ _) as [results w']. destruct H as [-> Hr].
  destruct (parallel_outcome_spec seq (clock w) rs results Hr) as [Hs Hh]. split.
  - exists (parallel_outcome results), (ch_history <$> results). split; [done|].
    split; [done|]. split; [done|]. apply Forall2_fmap_r. eapply Forall2_impl; [exact Hr|].
    by intros r x [_ ?].
  - exists (completion order (length children)). split; [apply completion_perm|done].
Qed.

(** [ctx.parallel.race] completes with the value of the activity that is the first
    to settle without failing, in whatever order the activities settle, and fails only
    when every one of them has failed. *)
Theorem parallel_race_first {W} (clock : W → Q) (children : list (child W)) rs order run seq
    now w :
  answers children rs → order ≡ₚ List.seq 0 (length children) →
  o_settled <$> (c_execute (parallel_race clock children order) run seq now w).1 =
    Ok match first_value rs order with
       | Some v => CompletedOutcome v
       | None => FailedOutcome aggregate_error
       end ∧
  (first_value rs order = None ↔ Forall (λ r, is_ok r = false) rs).
Proof.
  intros Hans Hp. cbn [c_execute parallel_race]. rewrite completion_id by done. split.
  - pose proof (race_spec clock children rs seq (clock w) order Hans w) as H.
    destruct (race_in_order _ _ _ _ _ _) as [r w']. cbn [fst] in *. subst r.
    by destruct (first_value rs order).
  - rewrite (Forall2_length _ _ _ Hans) in Hp. unfold first_value. rewrite head_None. split.
    + intros Hnone. apply Forall_lookup. intros i r Hi. destruct r as [v|e]; [|done].
      assert (v ∈ omap (λ i, match rs !! i with Some (Ok v) => Some v | _ => None end) order)
        as Hin; [|rewrite Hnone in Hin; by apply elem_of_nil in Hin].
      apply list_elem_of_omap. exists i. rewrite Hi, Hp, elem_of_seq.
      apply lookup_lt_Some in Hi. split; [lia|done].
    + intros Hall. destruct (omap _ _) as [|v l] eqn:Ho; [done|].
      assert (v ∈ v :: l) as Hin by left. rewrite <-Ho in Hin.
      apply list_elem_of_omap in Hin as (i & _ & Hi). rewrite Forall_lookup in Hall.
      destruct (rs !! i) as [[u|]|] eqn:Hr; [|done..]. by apply Hall in Hr.
Qed.

(** Three activities that leave their name; the second one can fail. *)
Definition named (name : string) (r : result SerializedError jsval) : child (list string) :=
  λ w, (r, w ++ [name]).
Definition boom : SerializedError :=
  {| err_name := "Error"; err_message := "boom"; err_stack := None |}.
Definition sample_clock (w : list string) : Q := inject_Z (Z.of_nat (length w)).
Definition sample_snapshot : WorkflowRun :=
  {| runId := "r1"; definition := "order"; status := running; input := JNull; output := None;
     commands := []; nextSeq := 0; state := []; pendingSignals := []; history := [];
     createdAt := 0; updatedAt := 0 |}.
Definition sample_children (second : result SerializedError jsval) : list (child (list string)) :=
  [named "a" (Ok (JNum 1)); named "b" second; named "c" (Ok (JNum 3))].

Lemma sample_answers second :
  answers (sample_children second) [Ok (JNum 1); second; Ok (JNum 3)].
Proof. by repeat constructor. Qed.

Lemma parallel_all_positional_witness :
  ∃ o w', c_execute (parallel_all sample_clock (sample_children (Throw boom)) [2; 1; 0])
      sample_snapshot 5 0%Q [] = (Ok o, w') ∧
    o_settled o = FailedOutcome boom ∧ w' = ["c"; "b"; "a"].
Proof.
  pose proof (parallel_all_positional sample_clock k_parallel_all (sample_children (Throw boom))
    _ [2; 1; 0] sample_snapshot 5 0%Q [] (sample_answers (Throw boom))) as H.
  unfold parallel_all. destruct (c_execute _ _ _ _ _) as [executed w'] eqn:E.
  destruct H as [(o & hists & -> & Ho & _) _]. exists o, w'. split; [reflexivity|].
  split; [exact Ho|]. vm_compute in E. by injection E as _ <-.
Defined.

Lemma parallel_race_first_witness :
  o_settled <$> (c_execute (parallel_race sample_clock (sample_children (Throw boom)) [1; 2; 0])
    sample_snapshot 5 0%Q []).1 = Ok (CompletedOutcome (JNum 3)).
Proof.
  assert ([1; 2; 0] ≡ₚ List.seq 0 (length (sample_children (Throw boom)))) as Hp
    by (apply (bool_decide_unpack _); vm_compute; exact I).
  exact (proj1 (parallel_race_first sample_clock (sample_children (Throw boom)) _ [1; 2; 0]
    sample_snapshot 5 0%Q [] (sample_answers (Throw boom)) Hp)).
Defined.
