(* ===== verification/Saga.v ===== *)
(** * Saga rollback

    Models src/packages/workflow/src/compensator.ts: the registry of rollbacks
    ([register]), the selection and order of the commands to roll back, and
    [Compensator.compensate] with every snapshot it persists.  A rollback is an argument
    acting on the external world; it resolves, or rejects with an error. *)

From Stdlib Require Import QArith.
From S2P Require Import Prelude JsMap Journal WorkflowStores.

Open Scope nat_scope.

(** [{ ...run, status, commands, history, updatedAt }]. *)
Definition patch_run (run : WorkflowRun) (st : RunStatus) (cmds : list CommandRecord)
    (hist : list HistoryEvent) (at_ : Q) : WorkflowRun :=
  {| runId := runId run; definition := definition run; status := st; input := input run;
     output := output run; commands := cmds; nextSeq := nextSeq run; state := state run;
     pendingSignals := pendingSignals run; history := hist;
     createdAt := createdAt run; updatedAt := at_ |}.

Definition set_compensated (c : CommandRecord) : CommandRecord :=
  {| r_seq := r_seq c; r_kind := r_kind c; r_status := r_status c; r_attempts := r_attempts c;
     r_result := r_result c; r_error := r_error c; r_metadata := r_metadata c;
     r_compensated := Some true; r_nextAttemptAt := r_nextAttemptAt c;
     r_timerExpiresAt := r_timerExpiresAt c; r_waitingFor := r_waitingFor c;
     r_startedAt := r_startedAt c; r_completedAt := r_completedAt c |}.

(** ** The order of rollback *)

(** [command.completedAt ?? command.seq]. *)
Definition completion_key (c : CommandRecord) : Q :=
  default (inject_Z (Z.of_nat (r_seq c))) (r_completedAt c).

(** The comparison of [targets.sort] puts [a] before [b] or leaves them in place. *)
Definition rolls_back_first (a b : CommandRecord) : Prop :=
  if Qeq_bool (completion_key b) (completion_key a) then r_seq b <= r_seq a
  else Qle_bool (completion_key b) (completion_key a) = true.

#[export] Instance rolls_back_first_dec : RelDecision rolls_back_first.
Proof. intros a b. unfold rolls_back_first. destruct (Qeq_bool _ _); apply _. Defined.

Lemma rolls_back_first_iff a b :
  rolls_back_first a b ↔
  (completion_key b < completion_key a)%Q ∨
  (completion_key b == completion_key a)%Q ∧ r_seq b <= r_seq a.
Proof.
  unfold rolls_back_first. destruct (Qeq_bool _ _) eqn:E.
  - apply Qeq_bool_iff in E. rewrite E. split; [by right|].
    intros [Hlt|[_ ?]]; [destruct (Qlt_irrefl _ Hlt)|done].
  - rewrite Qle_bool_iff. apply Qeq_bool_neq in E. split.
    + intros Hle. apply Qle_lteq in Hle as [?|?]; [by left|done].
    + intros [Hlt|[? _]]; [by apply Qlt_le_weak|done].
Qed.

#[export] Instance rolls_back_first_total : Total rolls_back_first.
Proof.
  intros a b. rewrite !rolls_back_first_iff.
  destruct (Q_dec (completion_key b) (completion_key a)) as [[?|?]|He]; [auto..|].
  destruct (decide (r_seq b <= r_seq a)); [auto|].
  right. right. split; [by symmetry|lia].
Qed.

#[export] Instance rolls_back_first_trans : Transitive rolls_back_first.
Proof.
  intros a b c. rewrite !rolls_back_first_iff.
  intros [H1|[H1 ?]] [H2|[H2 ?]].
  - left. by eapply Qlt_trans.
  - left. by rewrite H2.
  - left. by rewrite <-H1.
  - right. split; [by rewrite H2|lia].
Qed.

(** ** The compensator *)

Section saga.
Context {W : Type} (clock : W → Q) {ST : Type} `{WorkflowStore ST}.

Record registration : Type := {
  reg_seq : nat;
  reg_invoke : W → option SerializedError * W;
}.

Record compensator : Type := {
  cp_run : WorkflowRun;
  cp_registrations : list registration;
  cp_store : ST;
  cp_world : W;
}.

Definition new_compensator (run : WorkflowRun) (s : ST) (w : W) : compensator :=
  {| cp_run := run; cp_registrations := []; cp_store := s; cp_world := w |}.

(** [register(seq, rollback, output)]: the output is bound now, and a second
    registration for the same [seq] is ignored. *)
Definition register (seq : nat) (rollback : jsval → W → option SerializedError * W)
    (output : jsval) (c : compensator) : compensator :=
  if decide (seq ∈ reg_seq <$> cp_registrations c) then c
  else {| cp_run := cp_run c;
          cp_registrations := cp_registrations c ++
            [{| reg_seq := seq; reg_invoke := rollback output |}];
          cp_store := cp_store c; cp_world := cp_world c |}.

(** [new Map(registrations.map((r) => [r.seq, r]))]: a later entry replaces an earlier
    one. *)
Definition registered (regs : list registration) (seq : nat) : option registration :=
  foldl (λ acc r, if decide (reg_seq r = seq) then Some r else acc) None regs.

(** Replace the snapshot and persist it. *)
Definition persist (run : WorkflowRun) (c : compensator) : compensator :=
  {| cp_run := run; cp_registrations := cp_registrations c;
     cp_store := ws_save run (cp_store c); cp_world := cp_world c |}.

Definition transition (to : RunStatus) (c : compensator) : compensator :=
  let run := cp_run c in
  if decide (status run = to) then c
  else
    let at_ := clock (cp_world c) in
    persist (patch_run run to (commands run)
      (history run ++ [run_status at_ (status run) to]) at_) c.

Definition appendHistory (event : HistoryEvent) (c : compensator) : compensator :=
  let run := cp_run c in
  persist (patch_run run (status run) (commands run) (history run ++ [event])
    (clock (cp_world c))) c.

(** Not persisted: the next history append does it. *)
Definition markCompensated (seq : nat) (c : compensator) : compensator :=
  let run := cp_run c in
  {| cp_run := patch_run run (status run)
       ((λ cmd, if decide (r_seq cmd = seq) then set_compensated cmd else cmd) <$> commands run)
       (history run) (clock (cp_world c));
     cp_registrations := cp_registrations c; cp_store := cp_store c;
     cp_world := cp_world c |}.

Definition is_target (regs : list registration) (cmd : CommandRecord) : Prop :=
  r_status cmd = c_completed ∧ r_compensated cmd ≠ Some true ∧
  is_Some (registered regs (r_seq cmd)).

#[export] Instance is_target_dec regs cmd : Decision (is_target regs cmd).
Proof. apply _. Defined.

Definition targets (c : compensator) : list CommandRecord :=
  merge_sort rolls_back_first
    (filter (is_target (cp_registrations c)) (commands (cp_run c))).

(** One turn of the loop over the targets. *)
Definition compensate_one (c : compensator) (cmd : CommandRecord) : compensator :=
  match registered (cp_registrations c) (r_seq cmd) with
  | None => c
  | Some r =>
      let c := appendHistory (compensation_started (clock (cp_world c)) (r_seq cmd)) c in
      let '(thrown, w) := reg_invoke r (cp_world c) in
      let c := {| cp_run := cp_run c; cp_registrations := cp_registrations c;
                  cp_store := cp_store c; cp_world := w |} in
      let c := markCompensated (r_seq cmd) c in
      match thrown with
      | None => appendHistory (compensation_completed (clock w) (r_seq cmd)) c
      | Some error => appendHistory (compensation_failed (clock w) (r_seq cmd) error) c
      end
  end.

Definition compensate (c : compensator) : compensator :=
  match targets c with
  | [] => c
  | ts => transition compensated (foldl compensate_one (transition compensating c) ts)
  end.
End saga.

Arguments registration : clear implicits.
Arguments compensator W ST : clear implicits.

(** ** What a rollback does *)

Section saga_facts.
Context {W : Type} (clock : W → Q) {ST : Type} `{LosslessStore ST}.
Implicit Types (c : compensator W ST).

(** The rollbacks run one after the other: what each of them gave, and the world. *)
Fixpoint run_rollbacks (regs : list (registration W)) (w : W) :
    list (nat * option SerializedError) * W :=
  match regs with
  | [] => ([], w)
  | r :: regs =>
      let '(thrown, w) := reg_invoke r w in
      let '(outcomes, w) := run_rollbacks regs w in
      ((reg_seq r, thrown) :: outcomes, w)
  end.

Inductive rollback_event : Type :=
| RB_started (seq : nat)
| RB_completed (seq : nat)
| RB_failed (seq : nat) (error : SerializedError).

Definition rollback_event_of (e : HistoryEvent) : option rollback_event :=
  match e with
  | compensation_started _ seq => Some (RB_started seq)
  | compensation_completed _ seq => Some (RB_completed seq)
  | compensation_failed _ seq error => Some (RB_failed seq error)
  | _ => None
  end.

(** The rollback events of a history, in order and without their times. *)
Definition rollback_events (run : WorkflowRun) : list rollback_event :=
  omap rollback_event_of (history run).

Definition outcome_events (o : nat * option SerializedError) : list rollback_event :=
  [RB_started o.1;
   match o.2 with None => RB_completed o.1 | Some error => RB_failed o.1 error end].

Definition flag_commands (seqs : list nat) (cmds : list CommandRecord) : list CommandRecord :=
  (λ cmd, if decide (r_seq cmd ∈ seqs) then set_compensated cmd else cmd) <$> cmds.

Definition target_registrations (c : compensator W ST) (ts : list CommandRecord) :
    list (registration W) :=
  omap (λ cmd, registered (cp_registrations c) (r_seq cmd)) ts.

Definition stored (c : compensator W ST) : Prop :=
  ws_load (runId (cp_run c)) (cp_store c) = Some (cp_run c).

Lemma registered_seq (regs : list (registration W)) seq r : registered regs seq = Some r → reg_seq r = seq ∧ r ∈ regs.
Proof.
  unfold registered. induction regs as [|r' regs IH] using rev_ind; [done|].
  rewrite foldl_snoc. case_decide as Hs; intros Hr.
  - injection Hr as <-. split; [done|]. apply elem_of_app. right. left.
  - destruct (IH Hr) as [? ?]. split; [done|]. apply elem_of_app. by left.
Qed.

Lemma registered_in (regs : list (registration W)) r :
  NoDup (reg_seq <$> regs) → r ∈ regs → registered regs (reg_seq r) = Some r.
Proof.
  unfold registered. induction regs as [|r' regs IH] using rev_ind; intros Hnd Hin.
  { by apply not_elem_of_nil in Hin. }
  rewrite fmap_app in Hnd. apply NoDup_app in Hnd as (Hnd & Hne & _).
  rewrite foldl_snoc. apply elem_of_app in Hin as [Hin|Hin].
  - rewrite decide_False; [by apply IH|]. intros He.
    apply (Hne (reg_seq r)); [by apply list_elem_of_fmap_2|]. simpl. rewrite He. left.
  - apply list_elem_of_singleton in Hin as ->. by rewrite decide_True.
Qed.

Lemma persist_stored run c : stored (persist run c).
Proof. apply load_save_eq. Qed.

(** One turn of the loop. *)
Lemma compensate_one_spec c cmd r :
  registered (cp_registrations c) (r_seq cmd) = Some r →
  let c' := compensate_one clock c cmd in
  let '(thrown, w) := reg_invoke r (cp_world c) in
  cp_registrations c' = cp_registrations c ∧ cp_world c' = w ∧ stored c' ∧
  runId (cp_run c') = runId (cp_run c) ∧ status (cp_run c') = status (cp_run c) ∧
  commands (cp_run c') = flag_commands [r_seq cmd] (commands (cp_run c)) ∧
  rollback_events (cp_run c') =
    rollback_events (cp_run c) ++ outcome_events (r_seq cmd, thrown).
Proof.
  intros Hr. unfold compensate_one. rewrite Hr. cbn [cp_world appendHistory persist].
  destruct (reg_invoke r (cp_world c)) as [thrown w].
  assert (∀ cmds, (λ x, if decide (r_seq x = r_seq cmd) then set_compensated x else x) <$> cmds
    = flag_commands [r_seq cmd] cmds) as Hflag.
  { intros cmds. apply list_fmap_ext. intros _ x _.
    repeat case_decide; [done| | |done]; set_solver. }
  unfold rollback_events.
  destruct thrown as [error|]; (split; [done|]); (split; [done|]);
    (split; [apply persist_stored|]); (split; [done|]); (split; [done|]); (split; [apply Hflag|]);
    cbn [history patch_run cp_run appendHistory markCompensated persist];
    rewrite !omap_app, <-(assoc_L (++)); reflexivity.
Qed.

Lemma flag_commands_cons s seqs cmds :
  flag_commands seqs (flag_commands [s] cmds) = flag_commands (s :: seqs) cmds.
Proof.
  unfold flag_commands. rewrite <-list_fmap_compose. apply list_fmap_ext. intros _ x _.
  unfold compose. repeat case_decide; simpl in *; try done; set_solver.
Qed.

Lemma flag_commands_nil cmds : flag_commands [] cmds = cmds.
Proof.
  unfold flag_commands. rewrite <-(list_fmap_id cmds) at 2. apply list_fmap_ext.
  intros _ x _. rewrite decide_False; [done|]. apply not_elem_of_nil.
Qed.

(** The whole loop. *)
Lemma compensate_loop ts : ∀ c,
  Forall (λ cmd, is_Some (registered (cp_registrations c) (r_seq cmd))) ts → stored c →
  let c' := foldl (compensate_one clock) c ts in
  let '(outcomes, w) := run_rollbacks (target_registrations c ts) (cp_world c) in
  cp_registrations c' = cp_registrations c ∧ cp_world c' = w ∧ stored c' ∧
  runId (cp_run c') = runId (cp_run c) ∧ status (cp_run c') = status (cp_run c) ∧
  commands (cp_run c') = flag_commands (r_seq <$> ts) (commands (cp_run c)) ∧
  rollback_events (cp_run c') = rollback_events (cp_run c) ++ flat_map outcome_events outcomes.
Proof.
  induction ts as [|cmd ts IH]; intros c Hts Hst.
  { simpl. rewrite flag_commands_nil, app_nil_r. done. }
  apply Forall_cons in Hts as [[r Hr] Hts]. unfold target_registrations.
  change (foldl (compensate_one clock) c (cmd :: ts)) with
    (foldl (compensate_one clock) (compensate_one clock c cmd) ts).
  cbn [omap list_omap]. rewrite Hr. cbn [run_rollbacks].
  pose proof (compensate_one_spec c cmd r Hr) as Hone.
  destruct (reg_invoke r (cp_world c)) as [thrown w].
  destruct Hone as (Hregs & Hw & Hst1 & Hid & Hstat & Hcmds & Hev).
  specialize (IH (compensate_one clock c cmd)). rewrite Hregs in IH. specialize (IH Hts Hst1).
  unfold target_registrations in IH. rewrite Hregs, Hw in IH.
  destruct (run_rollbacks _ w) as [outcomes w'].
  destruct IH as (Hregs' & Hw' & Hst' & Hid' & Hstat' & Hcmds' & Hev').
  split; [congruence|]. split; [done|]. split; [done|]. split; [congruence|].
  split; [congruence|]. split.
  - by rewrite Hcmds', Hcmds, flag_commands_cons.
  - rewrite Hev', Hev, <-(assoc_L (++)). f_equal. simpl.
    apply registered_seq in Hr as [-> _]. reflexivity.
Qed.

Lemma targets_elem c cmd :
  cmd ∈ targets c ↔ cmd ∈ commands (cp_run c) ∧ is_target (cp_registrations c) cmd.
Proof.
  unfold targets. rewrite merge_sort_Permutation, list_elem_of_filter. tauto.
Qed.

Lemma targets_sorted c : StronglySorted rolls_back_first (targets c).
Proof. apply StronglySorted_merge_sort; apply _. Qed.

Lemma transition_spec to c :
  stored c →
  let c' := transition clock to c in
  cp_registrations c' = cp_registrations c ∧ cp_world c' = cp_world c ∧ stored c' ∧
  runId (cp_run c') = runId (cp_run c) ∧ status (cp_run c') = to ∧
  commands (cp_run c') = commands (cp_run c) ∧
  rollback_events (cp_run c') = rollback_events (cp_run c).
Proof.
  intros Hst. unfold transition. case_decide; [done|]. do 2 (split; [done|]).
  split; [apply persist_stored|]. do 3 (split; [done|]). unfold rollback_events.
  simpl. by rewrite omap_app, app_nil_r.
Qed.

(** The run after a rollback that had something to do. *)
Lemma compensate_spec c :
  stored c → targets c ≠ [] →
  let c' := compensate clock c in
  let '(outcomes, w) := run_rollbacks (target_registrations c (targets c)) (cp_world c) in
  cp_registrations c' = cp_registrations c ∧ cp_world c' = w ∧ stored c' ∧
  runId (cp_run c') = runId (cp_run c) ∧ status (cp_run c') = compensated ∧
  commands (cp_run c') = flag_commands (r_seq <$> targets c) (commands (cp_run c)) ∧
  rollback_events (cp_run c') = rollback_events (cp_run c) ++ flat_map outcome_events outcomes.
Proof.
  intros Hst Hne. unfold compensate.
  pose proof (targets_elem c) as Hel. destruct (targets c) as [|t ts] eqn:Ht; [done|].
  destruct (transition_spec compensating c Hst) as (H1 & H2 & H3 & H4 & _ & H6 & H7).
  pose proof (compensate_loop (t :: ts) (transition clock compensating c)) as Hloop.
  unfold target_registrations in *. rewrite H1, H2 in Hloop.
  destruct (run_rollbacks _ _) as [outcomes w].
  destruct Hloop as (L1 & L2 & L3 & L4 & _ & L6 & L7); [|done|].
  { apply Forall_forall. intros cmd Hin. by apply Hel in Hin as (_ & _ & _ & ?). }
  destruct (transition_spec compensated _ L3) as (M1 & M2 & M3 & M4 & M5 & M6 & M7).
  repeat split; [congruence..|done|congruence|done|congruence|congruence].
Qed.

Lemma target_registrations_seqs c :
  reg_seq <$> target_registrations c (targets c) = r_seq <$> targets c.
Proof.
  assert (∀ ts, Forall (λ cmd, is_Some (registered (cp_registrations c) (r_seq cmd))) ts →
    reg_seq <$> target_registrations c ts = r_seq <$> ts) as Hts.
  { induction 1 as [|cmd ts [r Hr] _ IH]; [done|]. unfold target_registrations in *.
    csimpl. rewrite Hr. csimpl. rewrite IH. by apply registered_seq in Hr as [-> _]. }
  apply Hts, Forall_forall. intros cmd Hin. by apply targets_elem in Hin as (_ & _ & _ & ?).
Qed.

Lemma targets_flagged c c' :
  commands (cp_run c') = flag_commands (r_seq <$> targets c) (commands (cp_run c)) →
  cp_registrations c' = cp_registrations c → targets c' = [].
Proof.
  intros Hcmds Hregs. destruct (targets c') as [|cmd ts] eqn:Ht; [done|]. exfalso.
  assert (cmd ∈ targets c') as Hin by (rewrite Ht; left).
  apply targets_elem in Hin as [Hin (Hs & Hc & Hreg)]. rewrite Hcmds in Hin.
  apply list_elem_of_fmap in Hin as (cmd0 & -> & Hin0). rewrite Hregs in Hreg.
  case_decide as Hd; [by simpl in Hc|]. apply Hd, list_elem_of_fmap. exists cmd0.
  split; [done|]. by apply targets_elem.
Qed.
End saga_facts.

(** C8: A saga is rolled back in reverse completion order, each completed compensable
    command once.  When the compensator has something to roll back, the commands it
    selects are exactly the completed ones with a registered rollback that were not
    rolled back before, latest completion first; the rollbacks of these commands run in
    that order, once each and to the end even if some throw; the history records what
    each of them gave, the commands and no others are flagged, the run is [compensated]
    and is what the store holds; and compensating once more does nothing.  *)
Theorem compensate_reverse_once {W ST} (clock : W → Q) `{LosslessStore ST}
    (c : compensator W ST) :
  stored c → targets c ≠ [] →
  let c' := compensate clock c in
  let regs := target_registrations c (targets c) in
  let '(outcomes, w) := run_rollbacks regs (cp_world c) in
  (∀ cmd, cmd ∈ targets c ↔
     cmd ∈ commands (cp_run c) ∧ r_status cmd = c_completed ∧ r_compensated cmd ≠ Some true ∧
     is_Some (registered (cp_registrations c) (r_seq cmd))) ∧
  StronglySorted rolls_back_first (targets c) ∧
  reg_seq <$> regs = r_seq <$> targets c ∧
  cp_world c' = w ∧
  rollback_events (cp_run c') = rollback_events (cp_run c) ++ flat_map outcome_events outcomes ∧
  commands (cp_run c') = flag_commands (r_seq <$> targets c) (commands (cp_run c)) ∧
  status (cp_run c') = compensated ∧ stored c' ∧
  compensate clock c' = c'.
Proof.
  intros Hst Hne c' regs. pose proof (compensate_spec clock c Hst Hne) as Hspec.
  fold c' regs in Hspec. destruct (run_rollbacks regs (cp_world c)) as [outcomes w].
  destruct Hspec as (Hregs & Hw & Hst' & _ & Hs & Hcmds & Hev).
  split; [apply targets_elem|]. split; [apply targets_sorted|].
  split; [apply target_registrations_seqs|]. do 5 (split; [done|]).
  unfold compensate. by rewrite (targets_flagged c c').
Qed.

(** Two completed activities and a third that failed; the rollback of the second one
    throws. *)
Definition sample_command (seq : nat) (st : CommandStatus) (completedAt : Q) : CommandRecord :=
  {| r_seq := seq; r_kind := k_activity; r_status := st; r_attempts := 1%Z;
     r_result := Some (JNum (Z.of_nat seq)); r_error := None; r_metadata := None;
     r_compensated := None; r_nextAttemptAt := None; r_timerExpiresAt := None;
     r_waitingFor := None; r_startedAt := None; r_completedAt := Some completedAt |}.

Definition undo (name : string) (v : jsval) (w : list string) :
    option SerializedError * list string :=
  (match v with
   | JNum 1 => Some {| err_name := "Error"; err_message := "no refund"; err_stack := None |}
   | _ => None
   end, w ++ [name]).

Definition sample_compensator : compensator (list string) memory_store :=
  let run := patch_run (sample_run JNull) running
    [sample_command 0 c_completed 10; sample_command 1 c_completed 20;
     sample_command 2 c_failed 30] [] 30 in
  register 1 (undo "refund") (JNum 1)
    (register 0 (undo "release") (JNum 0) (new_compensator run (mem_save run []) [])).

Lemma compensate_reverse_once_witness :
  let c' := compensate (λ _, 40%Q) sample_compensator in
  (targets sample_compensator ≠ [] ∧ cp_world c' = ["refund"; "release"]) ∧
  compensate (λ _, 40%Q) c' = c'.
Proof.
  assert (stored sample_compensator) as Hst by (vm_compute; reflexivity).
  assert (targets sample_compensator ≠ []) as Hne by (vm_compute; discriminate).
  pose proof (compensate_reverse_once (λ _, 40%Q) sample_compensator Hst Hne) as H.
  cbv zeta in H. destruct (run_rollbacks _ _) as [o w].
  split; [split; [vm_compute; discriminate|vm_compute; reflexivity]|]. apply H.
Defined.
