(* ===== verification/Runtime.v ===== *)
(** * The workflow runtime

    Models src/packages/workflow/src/runtime.ts: the activity adapter that captures
    compensations ([runActivity]), [WorkflowRuntime.drive] and its finalizers, and from
    context.ts the journaled [ctx.activity].

    The rollbacks captured during a drive live in the memory of the process, not in the
    snapshot: they are a second component of the world the commands act on, empty when a
    drive starts. *)

From Stdlib Require Import QArith.
From S2P Require Import Prelude JsMap Journal WorkflowStores Executor Saga.

Open Scope nat_scope.

Section runtime.
Context {W : Type} (clock : W → Q).

Definition rollback_fn : Type := jsval → W → option SerializedError * W.

Record captured : Type := {
  cap_seq : nat;
  cap_rollback : rollback_fn;
  cap_output : jsval;
}.

(** The world of a drive: the external one, and the compensations captured so far. *)
Definition drive_world : Type := W * list captured.
Definition drive_clock (w : drive_world) : Q := clock w.1.

(** [ctx.activity] over [runActivity]: the executor settles the activity (it never
    waits), and a completed one that declares a compensation has it captured with its
    output. *)
Definition activity (env : runtime_env (W := W)) (req : activity_request (W := W))
    (compensate : option rollback_fn) : CommandSpec drive_world :=
  {| c_kind := k_activity;
     c_metadata := a_metadata req;
     c_execute := λ _ seq _ dw,
       let '(o, w) := executor_run clock env req seq dw.1 in
       let compensations :=
         match o_settled o, compensate with
         | CompletedOutcome v, Some rollback =>
             dw.2 ++ [{| cap_seq := seq; cap_rollback := rollback; cap_output := v |}]
         | _, _ => dw.2
         end in
       (Ok {| o_settled := o_settled o; o_attempts := Some (default 1%Z (o_attempts o));
           o_history := o_history o; o_runStatus := None; o_statePatch := None;
           o_record := None |}, (w, compensations)) |}.

(** Any other command of [ctx] leaves the captured compensations alone. *)
Definition plain_command (spec : CommandSpec W) : CommandSpec drive_world :=
  {| c_kind := c_kind spec; c_metadata := c_metadata spec;
     c_execute := λ run seq now dw,
       let '(o, w) := c_execute spec run seq now dw.1 in (o, (w, dw.2)) |}.

Context {ST : Type} `{WorkflowStore ST}.

Record DriveResult : Type := {
  d_run : WorkflowRun;
  d_status : RunStatus;
  d_output : option jsval;
  d_error : option thrown;
}.

(** [patch.output !== undefined]. *)
Definition defined_value (v : jsval) : option jsval :=
  match v with JUndefined => None | _ => Some v end.

Definition status_patch (to : RunStatus) (out : option jsval) (j : journal drive_world ST) :
    RunPatch :=
  {| p_status := Some to; p_output := out;
     p_history := Some [run_status (drive_clock (j_world j)) (status (j_run j)) to] |}.

Definition finalizeCompleted (out : jsval) (j : journal drive_world ST) :
    DriveResult * (ST * W) :=
  let j := commit drive_clock (status_patch completed (defined_value out) j) j in
  ({| d_run := j_run j; d_status := completed; d_output := Some out; d_error := None |},
   (j_store j, (j_world j).1)).

Definition register_captured (c : compensator W ST) (cap : captured) : compensator W ST :=
  register (cap_seq cap) (cap_rollback cap) (cap_output cap) c.

Definition finalizePlainFailure (error : thrown) (j : journal drive_world ST) :
    DriveResult * (ST * W) :=
  let j := commit drive_clock (status_patch failed None j) j in
  ({| d_run := j_run j; d_status := failed; d_output := None; d_error := Some error |},
   (j_store j, (j_world j).1)).

Definition finalizeFailure (error : thrown) (j : journal drive_world ST) :
    DriveResult * (ST * W) :=
  let '(w, compensations) := j_world j in
  match compensations with
  | [] => finalizePlainFailure error j
  | _ =>
      let c := foldl register_captured (new_compensator (j_run j) (j_store j) w)
                 compensations in
      let c := compensate clock c in
      let st := status (cp_run c) in
      if decide (st = compensated ∨ st = compensating)
      then ({| d_run := cp_run c; d_status := st; d_output := None; d_error := None |},
            (cp_store c, cp_world c))
      else finalizePlainFailure error
             (Build_journal (j_run j) (j_cursor j) (cp_store c) (cp_world c, compensations))
  end.

(** The journal a drive starts from, its run put back to [running]. *)
Definition start_drive (run : WorkflowRun) (s : ST) (w : W) : journal drive_world ST :=
  let j := open_journal run s (w, []) in
  if decide (status run = running) then j
  else commit drive_clock (status_patch running None j) j.

Definition finish_drive (r : result thrown jsval) (j : journal drive_world ST) :
    DriveResult * (ST * W) :=
  match r with
  | Ok out => finalizeCompleted out j
  | Throw (TSuspension _ _ _ _) =>
      ({| d_run := j_run j; d_status := status (j_run j); d_output := None;
          d_error := None |}, (j_store j, (j_world j).1))
  | Throw error => finalizeFailure error j
  end.

Definition runtime_drive (fn : jsval → workflow drive_world) (run : WorkflowRun) (s : ST)
    (w : W) : DriveResult * (ST * W) :=
  let '(r, j) := drive drive_clock (fn (input run)) (start_drive run s w) in
  finish_drive r j.
End runtime.

Arguments captured : clear implicits.
Arguments drive_world : clear implicits.
Arguments rollback_fn : clear implicits.

(** ** The captured compensations of a drive *)

Section runtime_facts.
Context {W : Type} (clock : W → Q) {ST : Type} `{LosslessStore ST}.
Implicit Types (j : journal (drive_world W) ST) (spec : CommandSpec (drive_world W)).

(** What the commands of [ctx] do to the captured compensations and to the flag. *)
Definition ctx_command spec : Prop := ∀ run seq now dw,
  match c_execute spec run seq now dw with
  | (Throw _, dw') => dw'.2 = dw.2
  | (Ok o, dw') =>
  o_record o ≫= x_compensated = None ∧
  (dw'.2 = dw.2 ∨
   ∃ rollback v, o_settled o = CompletedOutcome v ∧
     dw'.2 = dw.2 ++ [{| cap_seq := seq; cap_rollback := rollback; cap_output := v |}])
  end.

Fixpoint ctx_workflow (f : workflow (drive_world W)) : Prop :=
  match f with
  | Return _ | Raise _ => True
  | Do spec k => ctx_command spec ∧ ∀ r, ctx_workflow (k r)
  | Read _ k => ∀ v, ctx_workflow (k v)
  end.

Lemma activity_ctx_command env req comp : ctx_command (activity clock env req comp).
Proof.
  intros run seq now [w cs]. simpl. destruct (executor_run _ _ _ _ _) as [o w'].
  split; [done|]. destruct (o_settled o) as [v| |], comp as [rb|]; simpl; eauto.
Qed.

Lemma plain_ctx_command (spec : CommandSpec W) :
  (∀ run seq now w o, (c_execute spec run seq now w).1 = Ok o →
     o_record o ≫= x_compensated = None) →
  ctx_command (plain_command spec).
Proof.
  intros Hc run seq now [w cs]. simpl. specialize (Hc run seq now w).
  destruct (c_execute spec run seq now w) as [[o|t] w']; [|done].
  split; [by apply Hc|by left].
Qed.

Definition unrolled (run : WorkflowRun) (cap : captured W) : Prop :=
  ∃ cmd, commands run !! cap_seq cap = Some cmd ∧ r_status cmd = c_completed ∧
    r_compensated cmd = None.

Record captures_ok j : Prop := {
  co_journal : journal_ok j;
  co_nodup : NoDup (cap_seq <$> (j_world j).2);
  co_unrolled : Forall (unrolled (j_run j)) (j_world j).2;
}.

Lemma unrolled_lt run cap : unrolled run cap → cap_seq cap < length (commands run).
Proof. intros (cmd & Hc & _). by eapply lookup_lt_Some. Qed.

(** A live command that settled at index [cap_seq] of the new list of commands. *)
Lemma live_captures j spec r seq rec dw' o now :
  captures_ok j → ctx_command spec →
  c_execute spec (j_run j) seq now (j_world j) = (Ok o, dw') →
  commands r !! seq = Some rec → r_status rec = outcome_status o →
  r_compensated rec = o_record o ≫= x_compensated →
  (∀ i cmd, commands (j_run j) !! i = Some cmd → r_status cmd = c_completed →
     i ≠ seq ∧ commands r !! i = Some cmd) →
  NoDup (cap_seq <$> dw'.2) ∧ Forall (unrolled r) dw'.2.
Proof.
  intros [Hj Hnd Hun] Hctx Hex Hrec Hst Hcomp Hold.
  specialize (Hctx (j_run j) seq now (j_world j)). rewrite Hex in Hctx. destruct Hctx as [Hnone Hcs].
  assert (Forall (unrolled r) (j_world j).2 ∧ seq ∉ cap_seq <$> (j_world j).2) as [Hun' Hni].
  { split.
    - apply Forall_forall. intros cap Hin. rewrite Forall_forall in Hun.
      destruct (Hun cap Hin) as (cmd & Hc & Hs & ?).
      destruct (Hold _ _ Hc Hs) as [_ Hc']. by exists cmd.
    - intros (cap & -> & Hin)%list_elem_of_fmap. rewrite Forall_forall in Hun.
      destruct (Hun cap Hin) as (cmd & Hc & Hs & _). by destruct (Hold _ _ Hc Hs). }
  destruct Hcs as [->|(rb & v & Ho & ->)]; [done|]. rewrite fmap_app. split.
  - apply NoDup_app. split; [done|]. split; [|apply NoDup_singleton].
    intros x Hx ->%list_elem_of_singleton. done.
  - apply Forall_app. split; [done|]. apply Forall_singleton. exists rec. simpl.
    split; [done|]. rewrite Hst, Hcomp. split; [|done]. unfold outcome_status. by rewrite Ho.
Qed.

Lemma throw_captures j spec seq now t dw' :
  captures_ok j → ctx_command spec →
  c_execute spec (j_run j) seq now (j_world j) = (Throw t, dw') →
  NoDup (cap_seq <$> dw'.2) ∧ Forall (unrolled (j_run j)) dw'.2.
Proof.
  intros [_ Hnd Hun] Hctx Hex. specialize (Hctx (j_run j) seq now (j_world j)).
  rewrite Hex in Hctx. by rewrite Hctx.
Qed.

Lemma run_seq_at run i cmd : run_ok run → commands run !! i = Some cmd → r_seq cmd = i.
Proof.
  intros [Hs _] Hc. assert ((r_seq <$> commands run) !! i = Some (r_seq cmd)) as Hl
    by by rewrite list_lookup_fmap, Hc.
  rewrite Hs in Hl. by apply lookup_seq in Hl as [-> _].
Qed.

Lemma process_captures spec j :
  captures_ok j → ctx_command spec → captures_ok (process (drive_clock clock) spec j).2.
Proof.
  intros Hco Hctx. pose proof (co_journal _ Hco) as Hj.
  pose proof (process_ok (drive_clock clock) spec j Hj) as Hj'.
  assert (NoDup (cap_seq <$> (j_world (process (drive_clock clock) spec j).2).2) ∧
    Forall (unrolled (j_run (process (drive_clock clock) spec j).2))
      (j_world (process (drive_clock clock) spec j).2).2) as [? ?]; [|by split].
  clear Hj'. unfold process.
  destruct (commands (j_run j) !! j_cursor j) as [r|] eqn:Hr.
  - destruct (decide (r_status r = c_waiting)) as [Hw|Hw].
    + rewrite Hw. unfold live_command.
      destruct (c_execute _ _ _ _ _) as [[o|t] dw'] eqn:Hex;
        [|by apply (throw_captures j spec _ _ _ _ Hco Hctx Hex)].
      pose proof (run_seq_at _ _ _ (jo_run _ Hj) Hr) as Hseq.
      rewrite Hseq in Hex.
      edestruct (live_captures j spec (record_outcome (j_run j)
        (<[j_cursor j:=buildRecord spec (r_seq r) (drive_clock clock (j_world j))
          (drive_clock clock dw') o (Some r)]> (commands (j_run j)))
        (nextSeq (j_run j)) o (drive_clock clock dw'))
        (j_cursor j)) as [H1 H2]; [done|done|exact Hex|..].
      { simpl. apply list_lookup_insert_eq. by eapply lookup_lt_Some. }
      { done. } { done. }
      { intros i cmd Hi Hs. assert (i ≠ j_cursor j) by congruence. split; [done|].
        simpl. by rewrite list_lookup_insert_ne. }
      destruct (o_settled o); split; simpl; done.
    + destruct (replay_ok spec r j Hj Hr Hw) as (_ & E1 & _ & E3).
      destruct (r_status r); [..|done]; rewrite E1, E3; split; apply Hco.
  - unfold live_command. destruct (c_execute _ _ _ _ _) as [[o|t] dw'] eqn:Hex;
        [|by apply (throw_captures j spec _ _ _ _ Hco Hctx Hex)].
    pose proof (jo_run _ Hj) as [_ Hnext].
    edestruct (live_captures j spec (record_outcome (j_run j)
        (commands (j_run j) ++ [buildRecord spec (nextSeq (j_run j))
          (drive_clock clock (j_world j)) (drive_clock clock dw') o None])
        (nextSeq (j_run j) + 1) o (drive_clock clock dw'))
        (nextSeq (j_run j))) as [H1 H2]; [done|done|exact Hex|..].
    { simpl. by apply list_lookup_middle. }
    { done. } { done. }
    { intros i cmd Hi _. apply lookup_lt_Some in Hi as Hlt. split; [lia|].
      simpl. by apply lookup_app_l_Some. }
    destruct (o_settled o); split; simpl; done.
Qed.

Lemma drive_captures f : ∀ j,
  captures_ok j → ctx_workflow f → captures_ok (drive (drive_clock clock) f j).2.
Proof.
  induction f as [v|t|spec k IH|key k IH]; intros j Hj Hf; simpl; [done|done| |].
  - destruct Hf as [Hs Hk]. pose proof (process_captures spec j Hj Hs) as Hp.
    destruct (process _ spec j) as [r j1]. apply IH; [done|apply Hk].
  - apply IH; [done|apply Hf].
Qed.

Definition registration_of (cap : captured W) : registration W :=
  {| reg_seq := cap_seq cap; reg_invoke := cap_rollback cap (cap_output cap) |}.

Lemma register_captured_spec run (s : ST) w cs :
  NoDup (cap_seq <$> cs) →
  foldl register_captured (new_compensator run s w) cs =
    {| cp_run := run; cp_registrations := registration_of <$> cs;
       cp_store := s; cp_world := w |}.
Proof.
  induction cs as [|cap cs IH] using rev_ind; intros Hnd; [done|].
  rewrite fmap_app in Hnd. apply NoDup_app in Hnd as (Hnd & Hni & _).
  rewrite foldl_snoc, IH by done. unfold register_captured, register. simpl.
  rewrite decide_False; [by rewrite fmap_app|].
  intros Hin. rewrite <-list_fmap_compose in Hin. apply (Hni (cap_seq cap)); [done|left].
Qed.

(** The registrations the compensator works through are those of the drive. *)
Lemma target_registrations_captured (c : compensator W ST) cs :
  run_ok (cp_run c) → cp_registrations c = registration_of <$> cs →
  NoDup (cap_seq <$> cs) → Forall (unrolled (cp_run c)) cs →
  target_registrations c (targets c) ≡ₚ registration_of <$> cs.
Proof.
  intros Hrun Hregs Hnd Hun. rewrite Forall_forall in Hun.
  assert (reg_seq <$> (registration_of <$> cs) = cap_seq <$> cs) as Hseqs
    by by rewrite <-list_fmap_compose.
  assert (NoDup (r_seq <$> targets c)) as Hndt.
  { unfold targets. rewrite merge_sort_Permutation.
    eapply sublist_NoDup; [|apply fmap_sublist, sublist_filter].
    rewrite (run_seqs _ Hrun). apply NoDup_seq. }
  apply NoDup_Permutation.
  - apply (NoDup_fmap_1 reg_seq). by rewrite target_registrations_seqs.
  - apply (NoDup_fmap_1 reg_seq). by rewrite Hseqs.
  - intros r. unfold target_registrations. rewrite list_elem_of_omap. split.
    + intros (cmd & _ & Hr). rewrite <-Hregs. by apply registered_seq in Hr as [_ ?].
    + intros Hin. apply list_elem_of_fmap in Hin as (cap & -> & Hin).
      destruct (Hun cap Hin) as (cmd & Hc & Hs & Hn).
      pose proof (run_seq_at _ _ _ Hrun Hc) as Hseq.
      assert (registered (cp_registrations c) (r_seq cmd) = Some (registration_of cap)) as Hreg.
      { rewrite Hregs, Hseq. apply (registered_in _ (registration_of cap));
          [by rewrite Hseqs|by apply list_elem_of_fmap_2]. }
      exists cmd. split; [|done]. apply targets_elem. split; [by eapply list_elem_of_lookup_2|].
      split; [done|]. split; [by rewrite Hn|]. by rewrite Hreg.
Qed.

(** How the failure of a drive ends. *)
Definition failure_disposition (j : journal (drive_world W) ST) (error : thrown)
    (d : DriveResult) (w' : W) : Prop :=
  match (j_world j).2 with
  | [] => d_status d = failed ∧ d_error d = Some error ∧ w' = (j_world j).1
  | cs =>
      d_status d = compensated ∧
      ∃ ts regs, StronglySorted rolls_back_first ts ∧
        (∀ cmd, cmd ∈ ts → cmd ∈ commands (j_run j)) ∧
        reg_seq <$> regs = r_seq <$> ts ∧ regs ≡ₚ registration_of <$> cs ∧
        w' = (run_rollbacks regs (j_world j).1).2
  end.

Lemma finalizeFailure_spec error j :
  captures_ok j →
  let '(d, (s', w')) := finalizeFailure clock error j in
  ws_load (runId (j_run j)) s' = Some (d_run d) ∧ status (d_run d) = d_status d ∧
  failure_disposition j error d w'.
Proof.
  intros [Hj Hnd Hun]. unfold failure_disposition, finalizeFailure.
  destruct (j_world j) as [w cs] eqn:Hjw. cbn [fst snd] in *.
  destruct cs as [|cap cs].
  { unfold finalizePlainFailure. simpl. rewrite Hjw. split; [|done].
    match goal with |- ws_load _ (ws_save ?r _) = _ => apply (load_save_eq r) end. }
  set (all := cap :: cs) in *. rewrite register_captured_spec by done.
  set (c := {| cp_run := _ |}).
  assert (stored c) as Hst by apply Hj.
  pose proof (target_registrations_captured c all (jo_run _ Hj) eq_refl Hnd Hun) as Hregs.
  assert (targets c ≠ []) as Hne.
  { intros Hnil. rewrite Hnil in Hregs. by apply Permutation_nil_l in Hregs. }
  pose proof (compensate_spec clock c Hst Hne) as Hspec.
  change (cp_world c) with w in Hspec.
  destruct (run_rollbacks (target_registrations c (targets c)) w) as [outcomes w'] eqn:Hrb.
  destruct Hspec as (_ & Hw & Hst' & Hid & Hs & _).
  rewrite Hs, decide_True by auto. cbn [d_run d_status].
  split; [|split; [done|]].
  { unfold stored in Hst'. by rewrite Hid in Hst'. }
  split; [done|]. exists (targets c), (target_registrations c (targets c)).
  split; [apply targets_sorted|]. split; [by intros cmd [? _]%targets_elem|].
  split; [apply target_registrations_seqs|]. split; [done|]. by rewrite Hrb, Hw.
Qed.

Lemma start_drive_ok run (s : ST) w :
  journal_ok (open_journal run s w) → captures_ok (start_drive clock run s w).
Proof.
  intros [Hrun Hc Hw Hst]. unfold start_drive.
  case_decide; (split; [|by constructor|by constructor]); [by split|].
  split; simpl; [by destruct Hrun|done|done|].
  match goal with |- ws_load _ (ws_save ?r _) = _ => apply (load_save_eq r) end.
Qed.

Lemma process_runId spec j : runId (j_run (process (drive_clock clock) spec j).2) = runId (j_run j).
Proof.
  unfold process, live_command, replay_command.
  repeat first [done | case_match; simpl].
Qed.

Lemma drive_runId f : ∀ j, runId (j_run (drive (drive_clock clock) f j).2) = runId (j_run j).
Proof.
  induction f as [v|t|spec k IH|key k IH]; intros j; simpl; [done|done| |by rewrite IH].
  pose proof (process_runId spec j) as Hp. destruct (process _ spec j) as [r j1].
  by rewrite IH.
Qed.

Lemma start_drive_runId run (s : ST) w : runId (j_run (start_drive clock run s w)) = runId run.
Proof. unfold start_drive. by case_decide. Qed.
End runtime_facts.

(** C3: Every drive of a run ends in one disposition, persisted.  Driving any function
    of [ctx] commands over a well-formed snapshot, whatever its status was: if it
    returns a value the run is [completed] with it; if it suspends the run is left as
    it was parked; if it throws and no activity of this drive has declared a
    compensation the run is [failed]; and if some have, it is [compensated], the
    rollbacks of exactly these activities having run once each, latest completion
    first.  The store holds the snapshot of the result. *)
Theorem drive_dispositions {W ST} (clock : W → Q) `{LosslessStore ST}
    (fn : jsval → workflow (drive_world W)) (run : WorkflowRun) (s : ST) (w : W) :
  journal_ok (open_journal run s w) → ctx_workflow (fn (input run)) →
  let '(r, j) := drive (drive_clock clock) (fn (input run)) (start_drive clock run s w) in
  let '(d, (s', w')) := runtime_drive clock fn run s w in
  ws_load (runId run) s' = Some (d_run d) ∧ status (d_run d) = d_status d ∧
  match r with
  | Ok v => d_status d = completed ∧ d_output d = Some v ∧ w' = (j_world j).1 ∧
      output (d_run d) = or_else (defined_value v) (output (j_run j))
  | Throw (TSuspension _ _ _ _) => d_run d = j_run j ∧ w' = (j_world j).1
  | Throw error => failure_disposition j error d w'
  end.
Proof.
  intros Hj Hf. pose proof (start_drive_ok clock run s w Hj) as Hstart.
  pose proof (drive_captures clock _ _ Hstart Hf) as Hend.
  pose proof (drive_runId clock (fn (input run)) (start_drive clock run s w)) as Hid.
  rewrite start_drive_runId in Hid. unfold runtime_drive.
  destruct (drive _ _ _) as [r j]. cbn [snd] in *. destruct r as [v|t].
  - simpl. rewrite <-Hid. split; [|done].
    match goal with |- ws_load _ (ws_save ?r _) = _ => apply (load_save_eq r) end.
  - pose proof (finalizeFailure_spec clock t j Hend) as Hfail. rewrite Hid in Hfail.
    destruct t as [e|q|q kd wf ex]; cbn [finish_drive];
      [destruct (finalizeFailure _ _ _) as [d [s' w']]; exact Hfail..|].
    simpl. rewrite <-Hid. split; [apply Hend|done].
Qed.

(** ** A sample saga *)

Definition quiet_env : runtime_env (W := list string) :=
  {| delay := λ _ w, w; aborted := λ _, false; rng := λ _, 0%Q |}.

(** An activity that records its name and then returns it or throws. *)
Definition step_request (name : string) (fails : bool) : activity_request (W := list string) :=
  {| attempt_fn := λ _ w,
       (if fails then Throw {| err_name := "Error"; err_message := name; err_stack := None |}
        else Ok (JStr name), w ++ [name]);
     a_retry := None; a_metadata := None |}.

(** [await ctx.activity(reserve, { compensate: release });
     await ctx.activity(charge);   // throws
     return null] *)
Definition reserve_then_charge (_ : jsval) : workflow (drive_world (list string)) :=
  Do (activity (λ _, 0%Q) quiet_env (step_request "reserve" false)
       (Some (λ _ w, (None, w ++ ["release"])))) (λ r, on_ok r
  (Do (activity (λ _, 0%Q) quiet_env (step_request "charge" true) None) (λ r, on_ok r
  (Return JNull)))).

Lemma reserve_then_charge_ctx v : ctx_workflow (reserve_then_charge v).
Proof.
  split; [apply activity_ctx_command|]. intros [x|t]; [|done].
  split; [apply activity_ctx_command|]. by intros [y|t].
Qed.

Lemma drive_dispositions_witness :
  let run := sample_run JNull in
  let '(d, (s', w')) := runtime_drive (λ _, 0%Q) reserve_then_charge run (mem_save run []) [] in
  (d_status d = compensated ∧ w' = ["reserve"; "charge"; "release"]) ∧
  ws_load "r1" s' = Some (d_run d).
Proof.
  pose proof (drive_dispositions (λ _, 0%Q) reserve_then_charge (sample_run JNull)
    (mem_save (sample_run JNull) []) []
    ltac:(by apply open_journal_ok; [done|constructor|reflexivity])
    (reserve_then_charge_ctx _)) as H.
  cbv zeta. destruct (drive _ _ _) as [r j].
  destruct (runtime_drive _ _ _ _ _) as [d [s' w']] eqn:E.
  split; [|exact (proj1 H)]. clear H. vm_compute in E. injection E as <- <- <-. done.
Defined.

(** A resumed saga forgets the rollbacks of replayed activities.  A run whose first
    activity declares a compensation and whose second one fails is compensated when it
    is driven in one go; if the process dies between the two activities and the run is
    driven again from its snapshot, it ends [failed] and the compensation of the first
    activity, still recorded as completed and not compensated, never runs. *)
Theorem resume_forgets_compensations :
  let clock := λ _ : list string, 0%Q in
  let run := sample_run JNull in
  let s0 := mem_save run [] in
  let '(d, (_, w)) := runtime_drive clock reserve_then_charge run s0 [] in
  let '(s1, w1) := drive_until_crash (drive_clock clock) 1 (reserve_then_charge JNull)
                     (start_drive clock run s0 []) in
  (d_status d = compensated ∧ w = ["reserve"; "charge"; "release"]) ∧
  (λ run1, let '(d, (_, w)) := runtime_drive clock reserve_then_charge run1 s1 w1.1 in
     (d_status d, w, (λ c, (r_status c, r_compensated c)) <$> commands (d_run d)))
    <$> ws_load "r1" s1 =
  Some (failed, ["reserve"; "charge"], [(c_completed, None); (c_failed, None)]).
Proof. vm_compute. done. Qed.
