(* ===== verification/Coordinator.v ===== *)
(** * Waiting workflow runs: the signal and timer coordinator

    Models src/packages/workflow/src/coordinator.ts ([SignalTimerCoordinator]) and the
    journaled waits of src/packages/workflow/src/context.ts ([ctx.sleep], [waitUntil],
    [interval], [cron], [ctx.events.waitFor]).  The callback [onResume], which drives the run
    again, is an argument: the engine supplies it. *)

From Stdlib Require Import QArith.
From stdpp Require Import pretty.
From S2P Require Import Prelude JsMap Cron Journal WorkflowStores Saga.

Open Scope nat_scope.

(** ** Timer decisions *)

Record TimerDecision : Type := {
  td_expired : bool;
  td_expiresAt : Q;
}.

(** The decisions, at the time [now] of the clock. *)
Definition evaluateSleep (now durationMs : Q) : TimerDecision :=
  {| td_expired := Qle_bool durationMs 0; td_expiresAt := now + durationMs |}.
Definition evaluateWaitUntil (now atEpochMs : Q) : TimerDecision :=
  {| td_expired := Qle_bool atEpochMs now; td_expiresAt := atEpochMs |}.
Definition isTimerExpired (now expiresAt : Q) : bool := Qle_bool expiresAt now.

Definition timerOutcome (seq : nat) (now expiresAt : Q) : CommandOutcome :=
  if Qle_bool expiresAt now
  then {| o_settled := CompletedOutcome JUndefined; o_attempts := None;
          o_history := Some [timer_fired now seq]; o_runStatus := None;
          o_statePatch := None; o_record := None |}
  else {| o_settled := WaitingOutcome None (Some expiresAt); o_attempts := None;
          o_history := Some [timer_set now seq expiresAt]; o_runStatus := Some waiting;
          o_statePatch := None; o_record := None |}.

(** ** The waits of [ctx] *)

Definition awaits_signal (name : string) (signal : RecordedSignal) : Prop :=
  s_name signal = name ∧ s_consumed signal = false.

#[export] Instance awaits_signal_dec name signal : Decision (awaits_signal name signal).
Proof. unfold awaits_signal. apply _. Defined.

Section waits.
Context {W : Type}.

Definition timer_command (kind : CommandKind) (expiry : Q → Q) : CommandSpec W :=
  {| c_kind := kind; c_metadata := None;
     c_execute := λ _ seq now w, (Ok (timerOutcome seq now (expiry now)), w) |}.

Definition sleep (durationMs : Q) : CommandSpec W :=
  timer_command k_sleep (λ now, now + durationMs)%Q.
Definition interval (durationMs : Q) : CommandSpec W :=
  timer_command k_interval (λ now, now + durationMs)%Q.
Definition waitUntil (atEpochMs : Q) : CommandSpec W :=
  timer_command k_waitUntil (λ _, atEpochMs).

(** An expression that does not parse throws out of [execute]. *)
Definition cron (expression : string) : CommandSpec W :=
  {| c_kind := k_cron; c_metadata := None;
     c_execute := λ _ seq now w,
       (match computeNextCronTime expression now with
        | Ok expiresAt => Ok (timerOutcome seq now (inject_Z expiresAt))
        | Throw message =>
            Throw (TError {| err_name := "Error"; err_message := message; err_stack := None |})
        end, w) |}.

(** [journal.run.pendingSignals.find(...)]. *)
Definition buffered_signal (name : string) (run : WorkflowRun) : option RecordedSignal :=
  head (filter (awaits_signal name) (pendingSignals run)).

Definition waitFor (event : string) (parse : jsval → jsval) : CommandSpec W :=
  {| c_kind := k_events_waitFor; c_metadata := None;
     c_execute := λ run seq now w,
       (Ok match buffered_signal event run with
           | Some signal => plain_outcome (CompletedOutcome (parse (s_payload signal)))
           | None =>
               {| o_settled := WaitingOutcome (Some event) None; o_attempts := None;
                  o_history := None; o_runStatus := Some waiting; o_statePatch := None;
                  o_record := None |}
           end, w) |}.
End waits.

(** ** The coordinator *)

Inductive WaitSpec : Type :=
| W_timer (kind : CommandKind) (seq : nat) (expiresAt : Q)
| W_signal (kind : CommandKind) (seq : nat) (name : string).

Definition wait_seq (wait : WaitSpec) : nat :=
  match wait with W_timer _ seq _ | W_signal _ seq _ => seq end.

Definition toSuspension (wait : WaitSpec) : thrown :=
  match wait with
  | W_timer kind seq expiresAt => TSuspension seq kind None (Some expiresAt)
  | W_signal kind seq name => TSuspension seq kind (Some name) None
  end.

(** [{ ...command, status: "waiting", timerExpiresAt | waitingFor }]. *)
Definition park_patch (wait : WaitSpec) (c : CommandRecord) : CommandRecord :=
  {| r_seq := r_seq c; r_kind := r_kind c; r_status := c_waiting; r_attempts := r_attempts c;
     r_result := r_result c; r_error := r_error c; r_metadata := r_metadata c;
     r_compensated := r_compensated c; r_nextAttemptAt := r_nextAttemptAt c;
     r_timerExpiresAt := match wait with W_timer _ _ e => Some e | _ => r_timerExpiresAt c end;
     r_waitingFor := match wait with W_signal _ _ n => Some n | _ => r_waitingFor c end;
     r_startedAt := r_startedAt c; r_completedAt := r_completedAt c |}.

Definition park_record (wait : WaitSpec) : CommandRecord :=
  park_patch wait
    {| r_seq := wait_seq wait;
       r_kind := match wait with W_timer k _ _ | W_signal k _ _ => k end;
       r_status := c_waiting; r_attempts := 0%Z; r_result := None; r_error := None;
       r_metadata := None; r_compensated := None; r_nextAttemptAt := None;
       r_timerExpiresAt := None; r_waitingFor := None; r_startedAt := None;
       r_completedAt := None |}.

Definition parked_run (wait : WaitSpec) (now : Q) (run : WorkflowRun) : WorkflowRun :=
  let has := existsb (λ c, r_seq c =? wait_seq wait) (commands run) in
  let cmds :=
    if has then (λ c, if decide (r_seq c = wait_seq wait) then park_patch wait c else c)
                  <$> commands run
    else commands run ++ [park_record wait] in
  let run' := patch_run run waiting cmds
    (match wait with
     | W_timer _ seq e => history run ++ [timer_set now seq e]
     | W_signal _ _ _ => history run
     end) now in
  {| runId := runId run'; definition := definition run'; status := status run';
     input := input run'; output := output run'; commands := commands run';
     nextSeq := if has then nextSeq run else Nat.max (nextSeq run) (wait_seq wait + 1);
     state := state run'; pendingSignals := pendingSignals run'; history := history run';
     createdAt := createdAt run'; updatedAt := updatedAt run' |}.

(** [{ ...run, pendingSignals, history, updatedAt }]. *)
Definition with_signals (run : WorkflowRun) (signals : list RecordedSignal)
    (hist : list HistoryEvent) (now : Q) : WorkflowRun :=
  {| runId := runId run; definition := definition run; status := status run;
     input := input run; output := output run; commands := commands run;
     nextSeq := nextSeq run; state := state run; pendingSignals := signals;
     history := hist; createdAt := createdAt run; updatedAt := now |}.

(** The most recent command still waiting. *)
Definition activeWait (run : WorkflowRun) : option CommandRecord :=
  last (filter (λ c, r_status c = c_waiting) (commands run)).

Definition preservedExpiry (run : WorkflowRun) : option Q :=
  activeWait run ≫= r_timerExpiresAt.

Record TimerFiring : Type := {
  f_runId : string;
  f_seq : nat;
  f_expiresAt : Q;
}.

Definition dueTimer (now : Q) (run : WorkflowRun) : option TimerFiring :=
  wait ← activeWait run;
  expiresAt ← r_timerExpiresAt wait;
  if Qle_bool expiresAt now
  then Some {| f_runId := runId run; f_seq := r_seq wait; f_expiresAt := expiresAt |}
  else None.

Definition token (id : string) (seq : nat) : string := id +:+ ":" +:+ pretty (N.of_nat seq).

Inductive SignalDeliveryOutcome : Type := resumed | buffered | ignored.

(** [findIndex]: mark the first buffered signal of the name consumed. *)
Fixpoint consume_first (name : string) (signals : list RecordedSignal) :
    option (jsval * list RecordedSignal) :=
  match signals with
  | [] => None
  | s :: signals =>
      if decide (awaits_signal name s)
      then Some (s_payload s,
                 {| s_name := s_name s; s_payload := s_payload s;
                    s_receivedAt := s_receivedAt s; s_consumed := true |} :: signals)
      else '(payload, signals) ← consume_first name signals; Some (payload, s :: signals)
  end.

Section coordinator.
Context {W : Type} (clock : W → Q) {ST : Type} `{WorkflowStore ST}.

(** What the coordinator works on: the store, the world, and its guard. *)
Record coordinator : Type := {
  co_store : ST;
  co_world : W;
  co_resumed : list string;
}.

Variable onResume : string → coordinator → coordinator.

Definition with_store (s : ST) (c : coordinator) : coordinator :=
  {| co_store := s; co_world := co_world c; co_resumed := co_resumed c |}.

Definition park (run : WorkflowRun) (wait : WaitSpec) (c : coordinator) :
    WorkflowRun * coordinator :=
  let parked := parked_run wait (clock (co_world c)) run in
  (parked, with_store (ws_save parked (co_store c)) c).

Definition resume_wait (id : string) (seq : nat) (c : coordinator) : bool * coordinator :=
  if decide (token id seq ∈ co_resumed c) then (false, c)
  else
    let c := {| co_store := co_store c; co_world := co_world c;
                co_resumed := co_resumed c ++ [token id seq] |} in
    (true, onResume id c).

Definition hasResumed (id : string) (seq : nat) (c : coordinator) : bool :=
  bool_decide (token id seq ∈ co_resumed c).

Definition deliverSignal (id name : string) (payload : jsval) (c : coordinator) :
    (SignalDeliveryOutcome * option WorkflowRun) * coordinator :=
  match ws_load id (co_store c) with
  | None => ((ignored, None), c)
  | Some loaded =>
      if decide (status loaded ∈ TERMINAL) then ((ignored, Some loaded), c)
      else
        let now := clock (co_world c) in
        let updated := with_signals loaded
          (pendingSignals loaded ++ [{| s_name := name; s_payload := payload;
                                        s_receivedAt := now; s_consumed := false |}])
          (history loaded ++ [signal_received now name payload]) now in
        let c := with_store (ws_save updated (co_store c)) c in
        match activeWait updated with
        | Some wait =>
            if decide (status updated = waiting ∧ r_waitingFor wait = Some name)
            then let '(did, c) := resume_wait id (r_seq wait) c in
                 ((if did then resumed else ignored, Some updated), c)
            else ((buffered, Some updated), c)
        | None => ((buffered, Some updated), c)
        end
  end.

Definition tryConsumePending (run : WorkflowRun) (name : string) (c : coordinator) :
    (option jsval * WorkflowRun) * coordinator :=
  match consume_first name (pendingSignals run) with
  | None => ((None, run), c)
  | Some (payload, signals) =>
      let updated := with_signals run signals (history run) (clock (co_world c)) in
      ((Some payload, updated), with_store (ws_save updated (co_store c)) c)
  end.

(** [resumeDueTimers(runs)]. *)
Fixpoint resumeDueTimers (runs : list WorkflowRun) (c : coordinator) :
    list TimerFiring * coordinator :=
  match runs with
  | [] => ([], c)
  | run :: runs =>
      if decide (status run ≠ waiting ∨ status run ∈ TERMINAL) then resumeDueTimers runs c
      else
        match dueTimer (clock (co_world c)) run with
        | None => resumeDueTimers runs c
        | Some due =>
            let '(did, c) := resume_wait (f_runId due) (f_seq due) c in
            let '(fired, c) := resumeDueTimers runs c in
            (if did then due :: fired else fired, c)
        end
  end.
End coordinator.

Arguments coordinator : clear implicits.

(** ** Each wait is resumed at most once *)

Section resume_once.
Context {W : Type} (clock : W → Q) {ST : Type} `{WorkflowStore ST}.
Variable onResume : string → coordinator W ST → coordinator W ST.
Hypothesis onResume_guard : ∀ id c, co_resumed (onResume id c) = co_resumed c.
Implicit Types (c : coordinator W ST).

Inductive coord_op : Type :=
| C_deliver (id name : string) (payload : jsval)
| C_timers (runs : list WorkflowRun)
| C_resume (id : string) (seq : nat).

(** One call of the coordinator, and the waits whose runs it made the engine drive. *)
Definition coord_step (op : coord_op) (c : coordinator W ST) :
    list string * coordinator W ST :=
  match op with
  | C_deliver id name payload =>
      let '((outcome, run), c) := deliverSignal clock onResume id name payload c in
      (match outcome, run ≫= activeWait with
       | resumed, Some wait => [token id (r_seq wait)]
       | _, _ => []
       end, c)
  | C_timers runs =>
      let '(fired, c) := resumeDueTimers clock onResume runs c in
      ((λ f, token (f_runId f) (f_seq f)) <$> fired, c)
  | C_resume id seq =>
      let '(did, c) := resume_wait onResume id seq c in
      (if did : bool then [token id seq] else [], c)
  end.

Fixpoint coord_steps (ops : list coord_op) (c : coordinator W ST) :
    list string * coordinator W ST :=
  match ops with
  | [] => ([], c)
  | op :: ops =>
      let '(t1, c) := coord_step op c in
      let '(t2, c) := coord_steps ops c in (t1 ++ t2, c)
  end.

(** The waits resumed from [c] to [c']: new ones, without repetition, and from then on
    guarded. *)
Definition guards (c c' : coordinator W ST) (tokens : list string) : Prop :=
  co_resumed c' = co_resumed c ++ tokens ∧
  (NoDup (co_resumed c) → NoDup (co_resumed c')).

Lemma guards_refl c : guards c c [].
Proof. split; [by rewrite app_nil_r|done]. Qed.

Lemma guards_trans c1 c2 c3 t1 t2 :
  guards c1 c2 t1 → guards c2 c3 t2 → guards c1 c3 (t1 ++ t2).
Proof. intros [E1 N1] [E2 N2]. split; [by rewrite E2, E1, (assoc_L (++))|auto]. Qed.

Lemma guards_store c s c' t : guards (with_store s c) c' t → guards c c' t.
Proof. done. Qed.

Lemma resume_wait_guards id seq c :
  let '(did, c') := resume_wait onResume id seq c in
  guards c c' (if did : bool then [token id seq] else []).
Proof.
  unfold resume_wait. case_decide as Ht; [apply guards_refl|].
  split; rewrite onResume_guard; simpl; [done|]. intros Hnd.
  apply NoDup_app. split; [done|]. split; [|apply NoDup_singleton].
  intros x Hx ->%list_elem_of_singleton. done.
Qed.

Lemma timers_guards runs : ∀ c,
  let '(fired, c') := resumeDueTimers clock onResume runs c in
  guards c c' ((λ f, token (f_runId f) (f_seq f)) <$> fired).
Proof.
  induction runs as [|run runs IH]; intros c; simpl; [apply guards_refl|].
  case_decide; [apply IH|]. destruct (dueTimer _ run) as [due|]; [|apply IH].
  pose proof (resume_wait_guards (f_runId due) (f_seq due) c) as Hr.
  destruct (resume_wait _ _ _ c) as [did c1]. specialize (IH c1).
  destruct (resumeDueTimers _ _ runs c1) as [fired c2].
  pose proof (guards_trans _ _ _ _ _ Hr IH) as Hg. by destruct did.
Qed.

Lemma coord_step_guards op c :
  let '(tokens, c') := coord_step op c in guards c c' tokens.
Proof.
  destruct op as [id name payload|runs|id seq]; unfold coord_step.
  - unfold deliverSignal. destruct (ws_load id (co_store c)) as [r|]; [|apply guards_refl].
    case_decide; [apply guards_refl|]. cbv zeta.
    set (r' := with_signals _ _ _ _). set (c1 := with_store _ c).
    assert (guards c c1 []) as Hc1 by exact (guards_refl c).
    destruct (activeWait r') as [wait|] eqn:Hw; [|done]. case_decide; [|done].
    pose proof (resume_wait_guards id (r_seq wait) c1) as Hr.
    destruct (resume_wait _ _ _ c1) as [did c2]. apply guards_store in Hr.
    destruct did; [|done]. change (Some r' ≫= activeWait) with (activeWait r'). by rewrite Hw.
  - pose proof (timers_guards runs c) as Ht. by destruct (resumeDueTimers _ _ _ c).
  - pose proof (resume_wait_guards id seq c) as Hr. by destruct (resume_wait _ _ _ c).
Qed.

Lemma coord_steps_guards ops : ∀ c,
  let '(tokens, c') := coord_steps ops c in guards c c' tokens.
Proof.
  induction ops as [|op ops IH]; intros c; simpl; [apply guards_refl|].
  pose proof (coord_step_guards op c) as H1. destruct (coord_step op c) as [t1 c1].
  specialize (IH c1). destruct (coord_steps ops c1) as [t2 c2]. by eapply guards_trans.
Qed.
End resume_once.

(** A wait is resumed exactly once.  Over any sequence of signal deliveries, timer
    scans and direct resumptions, no wait is resumed twice, nor is one that was resumed
    before; and an attempt to resume a wait that was not resumed before always does
    resume it and guards it from then on. *)
Theorem resume_exactly_once {W ST} (clock : W → Q) `{WorkflowStore ST}
    (onResume : string → coordinator W ST → coordinator W ST) (ops : list coord_op)
    (c : coordinator W ST) (id : string) (seq : nat) :
  (∀ id c, co_resumed (onResume id c) = co_resumed c) → NoDup (co_resumed c) →
  let '(tokens, c') := coord_steps clock onResume ops c in
  (NoDup tokens ∧ ∀ t, t ∈ tokens → t ∉ co_resumed c) ∧
  let '(did, c'') := resume_wait onResume id seq c' in
  (did = true ↔ token id seq ∉ co_resumed c ++ tokens) ∧ hasResumed id seq c'' = true.
Proof.
  intros Hon Hnd. pose proof (coord_steps_guards clock onResume Hon ops c) as Hg.
  destruct (coord_steps clock onResume ops c) as [tokens c']. destruct Hg as [Heq Hnd'].
  specialize (Hnd' Hnd). rewrite Heq in Hnd'. apply NoDup_app in Hnd' as (_ & Hdis & Htok).
  split; [split; [done|]; intros t Ht Hc; by apply (Hdis t)|].
  unfold resume_wait, hasResumed. rewrite Heq. case_decide as Hin.
  - split; [by split|]. apply bool_decide_eq_true. by rewrite Heq.
  - split; [done|]. apply bool_decide_eq_true. rewrite Hon. simpl. apply elem_of_app.
    right. left.
Qed.

(** A run parked on the event [go]; resuming it does nothing. *)
Definition parked_sample : WorkflowRun :=
  parked_run (W_signal k_events_waitFor 0 "go") 5 (sample_run JNull).
Definition sample_coordinator : coordinator (list string) memory_store :=
  {| co_store := mem_save parked_sample []; co_world := []; co_resumed := [] |}.

Lemma resume_exactly_once_witness :
  let ops := [C_deliver "r1" "go" JNull; C_deliver "r1" "go" JNull; C_resume "r1" 0] in
  let '(tokens, c') := coord_steps (λ _, 5%Q) (λ _ c, c) ops sample_coordinator in
  tokens = ["r1:0"] ∧ NoDup tokens ∧
  (resume_wait (λ _ c, c) "r1" 0 c').1 = false.
Proof.
  intros ops.
  pose proof (resume_exactly_once (λ _ : list string, 5%Q) (λ _ c, c) ops sample_coordinator
    "r1" 0 ltac:(done) ltac:(constructor)) as H.
  destruct (coord_steps _ _ ops _) as [tokens c'] eqn:E. vm_compute in E.
  injection E as <- <-. split; [reflexivity|]. split; [apply H|reflexivity].
Defined.
