(* ===== verification/Engine.v ===== *)
(** * The workflow engine

    Models src/packages/workflow/src/engine.ts: the lifecycle operations of
    [WorkflowEngineImpl] over the runtime, the coordinator and a store.  An operation of a
    sequence runs to its end before the next one starts; what an operation that is still
    under way does to the store meanwhile, the saving of a snapshot of its run, is a step of
    its own ([Op_saved]), and one theorem interleaves a cancellation with the steps of a
    drive of the same run.  Aborting the in-flight activities of a run is an
    argument acting on the world; result waiters, metrics and realtime broadcasts are
    not modelled. *)

From Stdlib Require Import QArith Lqa FunctionalExtensionality.
From S2P Require Import Prelude JsMap Cron Journal WorkflowStores Executor Saga Runtime Coordinator.

Open Scope nat_scope.

Inductive engine_error : Type :=
| RegistrationError (name : string)
| WorkflowNotFoundError (name : string)
| NothingPersisted (id : string)
| CancelledResumeError (id : string).

(** What the engine asks of a store besides saving and loading. *)
Class ListingStore (ST : Type) : Type := {
  ws_listIncomplete : ST → list WorkflowRun;
}.

#[export] Instance memory_listing : ListingStore memory_store := {
  ws_listIncomplete := mem_listIncomplete;
}.

Section engine.
Context {W : Type} (clock : W → Q) (abort : string → W → W).
Context {ST : Type} `{WorkflowStore ST} `{!ListingStore ST}.

Definition workflow_fn : Type := jsval → workflow (drive_world W).

Record engine : Type := {
  e_registry : list (string * workflow_fn);
  e_coord : coordinator W ST;
  e_autoResumed : list string;
  e_autoResume : bool;
}.

Definition with_coord (c : coordinator W ST) (e : engine) : engine :=
  {| e_registry := e_registry e; e_coord := c; e_autoResumed := e_autoResumed e;
     e_autoResume := e_autoResume e |}.

Definition executeDrive (run : WorkflowRun) (fn : workflow_fn) (c : coordinator W ST) :
    coordinator W ST :=
  let '(_, (s, w)) := runtime_drive clock fn run (co_store c) (co_world c) in
  {| co_store := s; co_world := w; co_resumed := co_resumed c |}.

(** Drive a persisted run again; the [onResume] of the coordinator. *)
Definition driveExisting (registry : list (string * workflow_fn)) (id : string)
    (c : coordinator W ST) : coordinator W ST :=
  match ws_load id (co_store c) with
  | None => c
  | Some run =>
      if decide (status run ∈ TERMINAL ∨ status run = paused) then c
      else match jm_get (definition run) registry with
           | None => c
           | Some fn => executeDrive run fn c
           end
  end.

(** [transition(run, to)]. *)
Definition engine_transition (run : WorkflowRun) (to : RunStatus) (c : coordinator W ST) :
    coordinator W ST :=
  let now := clock (co_world c) in
  with_store (ws_save (patch_run run to (commands run)
    (history run ++ [run_status now (status run) to]) now) (co_store c)) c.

Fixpoint autoResume_runs (registry : list (string * workflow_fn)) (name : string)
    (runs : list WorkflowRun) (done : list string) (c : coordinator W ST) :
    list string * coordinator W ST :=
  match runs with
  | [] => (done, c)
  | run :: runs =>
      if decide (definition run ≠ name ∨ runId run ∈ done ∨ status run = cancelled)
      then autoResume_runs registry name runs done c
      else autoResume_runs registry name runs (done ++ [runId run])
             (driveExisting registry (runId run) c)
  end.

Definition autoResumeDefinition (name : string) (e : engine) : engine :=
  let '(done, c) := autoResume_runs (e_registry e) name
                      (ws_listIncomplete (co_store (e_coord e))) (e_autoResumed e)
                      (e_coord e) in
  {| e_registry := e_registry e; e_coord := c; e_autoResumed := done;
     e_autoResume := e_autoResume e |}.

Definition define (name : string) (fn : workflow_fn) (e : engine) :
    result engine_error unit * engine :=
  match jm_get name (e_registry e) with
  | Some _ => (Throw (RegistrationError name), e)
  | None =>
      let e := {| e_registry := jm_set name fn (e_registry e); e_coord := e_coord e;
                  e_autoResumed := e_autoResumed e; e_autoResume := e_autoResume e |} in
      (Ok tt, if e_autoResume e then autoResumeDefinition name e else e)
  end.

Definition run (name : string) (input : jsval) (id : string) (e : engine) :
    result engine_error string * engine :=
  match jm_get name (e_registry e) with
  | None => (Throw (WorkflowNotFoundError name), e)
  | Some fn =>
      let c := e_coord e in
      let initial := new_run id name input (clock (co_world c)) in
      let c := with_store (ws_save initial (co_store c)) c in
      (Ok id, with_coord (executeDrive initial fn c) e)
  end.

Definition resume (id : string) (e : engine) : result engine_error string * engine :=
  match ws_load id (co_store (e_coord e)) with
  | None => (Throw (NothingPersisted id), e)
  | Some run =>
      if decide (status run = cancelled) then (Throw (CancelledResumeError id), e)
      else if decide (status run ∈ TERMINAL) then (Ok id, e)
      else (Ok id, with_coord (driveExisting (e_registry e) id (e_coord e)) e)
  end.

Definition pause (id : string) (e : engine) : engine :=
  match ws_load id (co_store (e_coord e)) with
  | Some run =>
      if decide (status run = running)
      then with_coord (engine_transition run paused (e_coord e)) e else e
  | None => e
  end.

Definition cancel_run (id : string) (c : coordinator W ST) : coordinator W ST :=
  match ws_load id (co_store c) with
  | Some run =>
      if decide (status run ∈ TERMINAL) then c
      else engine_transition run cancelled
             {| co_store := co_store c; co_world := abort id (co_world c);
                co_resumed := co_resumed c |}
  | None => c
  end.
Definition cancel (id : string) (e : engine) : engine :=
  with_coord (cancel_run id (e_coord e)) e.

(** [newId] is the fresh identifier of the platform. *)
Definition restart (id newId : string) (e : engine) : result engine_error string * engine :=
  match ws_load id (co_store (e_coord e)) with
  | None => (Throw (NothingPersisted id), e)
  | Some r => run (definition r) (input r) newId e
  end.

Definition run_status_of (id : string) (e : engine) : option RunStatus :=
  status <$> ws_load id (co_store (e_coord e)).

Definition signal (id name : string) (payload : jsval) (e : engine) :
    result engine_error unit * engine :=
  let '((_, r), c) := deliverSignal clock (driveExisting (e_registry e)) id name payload
                        (e_coord e) in
  (match r with None => Throw (NothingPersisted id) | Some _ => Ok tt end, with_coord c e).

(** [coordinator.resumeDueTimers()] over the incomplete runs of the store. *)
Definition fire_timers (e : engine) : list TimerFiring * engine :=
  let '(fired, c) := resumeDueTimers clock (driveExisting (e_registry e))
                       (ws_listIncomplete (co_store (e_coord e))) (e_coord e) in
  (fired, with_coord c e).

(** Time goes by, and whatever else happens outside. *)
Definition elapse (w : W) (e : engine) : engine :=
  with_coord {| co_store := co_store (e_coord e); co_world := w;
                co_resumed := co_resumed (e_coord e) |} e.

(** The operations of the public surface, as one step relation, and a save by an operation
    that overlaps them: [executeDrive], [transition] and [deliverSignal] await the store
    between their saves, so that other operations run there. *)
Inductive engine_op : Type :=
| Op_define (name : string) (fn : workflow_fn)
| Op_run (name : string) (input : jsval) (id : string)
| Op_resume (id : string)
| Op_pause (id : string)
| Op_cancel (id : string)
| Op_restart (id newId : string)
| Op_signal (id name : string) (payload : jsval)
| Op_fire_timers
| Op_elapse (w : W)
| Op_saved (x : WorkflowRun).

Definition engine_step (e : engine) (op : engine_op) : engine :=
  match op with
  | Op_define name fn => (define name fn e).2
  | Op_run name input id => (run name input id e).2
  | Op_resume id => (resume id e).2
  | Op_pause id => pause id e
  | Op_cancel id => cancel id e
  | Op_restart id newId => (restart id newId e).2
  | Op_signal id name payload => (signal id name payload e).2
  | Op_fire_timers => (fire_timers e).2
  | Op_elapse w => elapse w e
  | Op_saved x => with_coord (with_store (ws_save x (co_store (e_coord e))) (e_coord e)) e
  end.

Definition engine_steps (e : engine) (ops : list engine_op) : engine :=
  foldl engine_step e ops.
End engine.

Arguments engine : clear implicits.
Arguments engine_op : clear implicits.
Arguments workflow_fn : clear implicits.

(** ** Terminal runs are left alone *)

Section engine_facts.
Context {W : Type} (clock : W → Q) (abort : string → W → W).
Context {ST : Type} `{LosslessStore ST} `{!ListingStore ST}.
Implicit Types (c : coordinator W ST) (e : engine W ST).

(** Every snapshot is filed under its own identifier. *)
Definition coherent (s : ST) : Prop := ∀ id r, ws_load id s = Some r → runId r = id.

Record keeps (id : string) (r : WorkflowRun) (s : ST) : Prop := {
  keeps_coherent : coherent s;
  keeps_load : ws_load id s = Some r;
}.

Lemma save_keeps id r x s : runId x ≠ id → keeps id r s → keeps id r (ws_save x s).
Proof.
  intros Hne [Hc Hl]. split.
  - intros id' y Hy. destruct (decide (id' = runId x)) as [->|Hid].
    + rewrite (load_save_eq x s) in Hy. by injection Hy as <-.
    + rewrite (load_save_ne x id' s Hid) in Hy. by apply Hc.
  - by rewrite (load_save_ne x id s) by congruence.
Qed.

Lemma process_keeps id r spec (j : journal (drive_world W) ST) :
  runId (j_run j) ≠ id → keeps id r (j_store j) →
  keeps id r (j_store (process (drive_clock clock) spec j).2).
Proof.
  intros Hne Hk. unfold process, live_command, replay_command.
  repeat first [done | by apply save_keeps | case_match; simpl].
Qed.

Lemma drive_keeps id r f : ∀ j : journal (drive_world W) ST,
  runId (j_run j) ≠ id → keeps id r (j_store j) →
  keeps id r (j_store (drive (drive_clock clock) f j).2).
Proof.
  induction f as [v|t|spec k IH|key k IH]; intros j Hne Hk; simpl; [done|done| |by apply IH].
  pose proof (process_keeps id r spec j Hne Hk) as Hp.
  pose proof (process_runId clock spec j) as Hid. destruct (process _ spec j) as [x j1].
  cbn [snd] in *. apply IH; [by rewrite Hid|done].
Qed.

(** A compensator saves its own run only. *)
Definition cp_keeps (id : string) (r : WorkflowRun) (c : compensator W ST) : Prop :=
  runId (cp_run c) ≠ id ∧ keeps id r (cp_store c).

Lemma transition_keeps id r to (c : compensator W ST) :
  cp_keeps id r c → cp_keeps id r (transition clock to c).
Proof. intros [? ?]. unfold transition. case_decide; split; simpl; auto using save_keeps. Qed.

Lemma compensate_one_keeps id r (c : compensator W ST) cmd :
  cp_keeps id r c → cp_keeps id r (compensate_one clock c cmd).
Proof.
  intros [? ?]. unfold compensate_one. destruct (registered _ _) as [reg|]; [|done].
  simpl. destruct (reg_invoke reg _) as [[er|] w]; split; simpl; auto using save_keeps.
Qed.

Lemma compensate_keeps id r (c : compensator W ST) :
  cp_keeps id r c → cp_keeps id r (compensate clock c).
Proof.
  intros Hk. unfold compensate. destruct (targets c) as [|t ts]; [done|].
  apply transition_keeps. apply (transition_keeps id r compensating) in Hk.
  revert Hk. generalize (transition clock compensating c). generalize (t :: ts).
  induction l as [|cmd l IH]; intros c0 Hk; simpl; [done|].
  apply IH. by apply compensate_one_keeps.
Qed.

Lemma register_keeps id r (c : compensator W ST) caps :
  cp_keeps id r c → cp_keeps id r (foldl register_captured c caps).
Proof.
  revert c. induction caps as [|cap caps IH]; intros c Hk; simpl; [done|]. apply IH.
  unfold register_captured, register. by case_decide.
Qed.

Lemma finish_keeps id r x (j : journal (drive_world W) ST) :
  runId (j_run j) ≠ id → keeps id r (j_store j) → keeps id r (finish_drive clock x j).2.1.
Proof.
  intros Hne Hk. unfold finish_drive, finalizeCompleted, finalizePlainFailure.
  destruct x as [v|t]; [by apply save_keeps|].
  assert (keeps id r (finalizeFailure clock t j).2.1) as Hf.
  { unfold finalizeFailure, finalizePlainFailure. destruct (j_world j) as [w caps].
    destruct caps as [|cap caps]; [by apply save_keeps|].
    pose proof (compensate_keeps id r _ (register_keeps id r
      (new_compensator (j_run j) (j_store j) w) (cap :: caps) (conj Hne Hk))) as [? Hs].
    case_decide; [done|]. by apply save_keeps. }
  by destruct t.
Qed.

Lemma executeDrive_keeps id r x fn c :
  runId x ≠ id → keeps id r (co_store c) → keeps id r (co_store (executeDrive clock x fn c)).
Proof.
  intros Hne Hk. unfold executeDrive, runtime_drive.
  pose proof (drive_runId clock (fn (input x)) (start_drive clock x (co_store c) (co_world c)))
    as Hid. rewrite start_drive_runId in Hid.
  assert (keeps id r (j_store (start_drive clock x (co_store c) (co_world c)))) as Hst.
  { unfold start_drive. case_decide; [done|]. by apply save_keeps. }
  apply (drive_keeps id r (fn (input x))) in Hst; [|by rewrite start_drive_runId].
  destruct (drive _ _ _) as [res j]. cbn [snd] in *.
  pose proof (finish_keeps id r res j ltac:(congruence) Hst) as Hfin.
  by destruct (finish_drive _ _ _) as [d [s w]].
Qed.

Lemma driveExisting_keeps registry id r id' c :
  status r ∈ TERMINAL → keeps id r (co_store c) →
  keeps id r (co_store (driveExisting clock registry id' c)).
Proof.
  intros Hr Hk. unfold driveExisting.
  destruct (ws_load id' (co_store c)) as [x|] eqn:Hx; [|done]. case_decide as Hd; [done|].
  destruct (jm_get _ _) as [fn|]; [|done]. apply executeDrive_keeps; [|done].
  intros Hid. pose proof (keeps_coherent _ _ _ Hk _ _ Hx) as Hid'.
  rewrite <-Hid', Hid, (keeps_load _ _ _ Hk) in Hx. injection Hx as <-. tauto.
Qed.

(** The guard around the callback does not matter here. *)
Lemma resume_wait_keeps registry id r id' seq c :
  status r ∈ TERMINAL → keeps id r (co_store c) →
  keeps id r (co_store (resume_wait (driveExisting clock registry) id' seq c).2).
Proof.
  intros Hr Hk. unfold resume_wait. case_decide; [done|]. simpl. by apply driveExisting_keeps.
Qed.

Lemma autoResume_keeps registry name id r runs : ∀ done c,
  status r ∈ TERMINAL → keeps id r (co_store c) →
  keeps id r (co_store (autoResume_runs clock registry name runs done c).2).
Proof.
  induction runs as [|x runs IH]; intros dn c Hr Hk; simpl; [done|].
  case_decide; apply IH; auto using driveExisting_keeps.
Qed.

Lemma timers_keeps registry id r runs : ∀ c,
  status r ∈ TERMINAL → keeps id r (co_store c) →
  keeps id r (co_store (resumeDueTimers clock (driveExisting clock registry) runs c).2).
Proof.
  induction runs as [|x runs IH]; intros c Hr Hk; simpl; [done|].
  case_decide; [by apply IH|]. destruct (dueTimer _ _) as [due|]; [|by apply IH].
  pose proof (resume_wait_keeps registry id r (f_runId due) (f_seq due) c Hr Hk) as Hk1.
  destruct (resume_wait _ _ _ c) as [did c1].
  specialize (IH c1 Hr Hk1). by destruct (resumeDueTimers _ _ _ c1).
Qed.

Lemma transition_run_keeps id r x to c :
  runId x ≠ id → keeps id r (co_store c) →
  keeps id r (co_store (engine_transition clock x to c)).
Proof. intros Hne Hk. by apply save_keeps. Qed.

(** A run that is not terminal is not the one that is kept. *)
Lemma keeps_other id r id' x s :
  keeps id r s → status r ∈ TERMINAL → ws_load id' s = Some x → status x ∉ TERMINAL →
  runId x ≠ id.
Proof.
  intros Hk Hr Hx Hns Hid. pose proof (keeps_coherent _ _ _ Hk _ _ Hx) as Hid'.
  rewrite <-Hid', Hid, (keeps_load _ _ _ Hk) in Hx. by injection Hx as <-.
Qed.

Lemma deliver_keeps registry id r id' name payload c :
  status r ∈ TERMINAL → keeps id r (co_store c) →
  keeps id r (co_store
    (deliverSignal clock (driveExisting clock registry) id' name payload c).2).
Proof.
  intros Hr Hk. unfold deliverSignal.
  destruct (ws_load id' (co_store c)) as [x|] eqn:Hx; [|done]. case_decide as Hd; [done|].
  cbv zeta. set (x' := with_signals _ _ _ _). set (c' := with_store _ _).
  assert (keeps id r (co_store c')) as Hk'.
  { apply save_keeps; [|done]. exact (keeps_other id r id' x _ Hk Hr Hx Hd). }
  destruct (activeWait x') as [wait|]; [|done]. case_decide; [|done].
  pose proof (resume_wait_keeps registry id r id' (r_seq wait) c' Hr Hk') as Hk1.
  by destruct (resume_wait _ _ _ c').
Qed.

(** A new run under the identifier, or the save of an operation on it that began before. *)
Definition rewrites (id : string) (op : engine_op W) : Prop :=
  match op with
  | Op_run _ _ id' | Op_restart _ id' => id' = id
  | Op_saved x => runId x = id
  | _ => False
  end.

Lemma run_keeps name input id' id r e :
  id' ≠ id → keeps id r (co_store (e_coord e)) →
  keeps id r (co_store (e_coord (run clock name input id' e).2)).
Proof.
  intros Hne Hk. unfold run. destruct (jm_get name _) as [fn|]; [|done]. simpl.
  apply executeDrive_keeps; [done|]. by apply save_keeps.
Qed.

Lemma engine_step_keeps id r e op :
  status r ∈ TERMINAL → ¬ rewrites id op → keeps id r (co_store (e_coord e)) →
  keeps id r (co_store (e_coord (engine_step clock abort e op))).
Proof.
  intros Hr Hop Hk. destruct op; simpl in *.
  - unfold define. destruct (jm_get _ _); [done|]. cbn [snd]. case_match; [|done].
    unfold autoResumeDefinition. simpl.
    match goal with |- context [autoResume_runs ?cl ?a ?b ?c0 ?d ?e0] =>
      pose proof (autoResume_keeps a b id r c0 d e0 Hr Hk);
      by destruct (autoResume_runs cl a b c0 d e0) end.
  - by apply run_keeps.
  - unfold resume. destruct (ws_load id0 _); [|done]. do 2 (case_decide; [done|]). simpl.
    by apply driveExisting_keeps.
  - unfold pause. destruct (ws_load id0 _) as [x|] eqn:Hx; [|done]. case_decide as Hd; [|done].
    apply transition_run_keeps; [|done]. apply (keeps_other id r id0 x _ Hk Hr Hx).
    rewrite Hd. unfold TERMINAL. set_solver.
  - unfold cancel, cancel_run. simpl. destruct (ws_load id0 _) as [x|] eqn:Hx; [|done].
    case_decide as Hd; [done|]. apply save_keeps; [|done].
    exact (keeps_other id r id0 x _ Hk Hr Hx Hd).
  - unfold restart. destruct (ws_load id0 _); [|done]. by apply run_keeps.
  - unfold signal.
    pose proof (deliver_keeps (e_registry e) id r id0 name payload (e_coord e) Hr Hk).
    by destruct (deliverSignal _ _ _ _ _ _) as [[? ?] ?].
  - unfold fire_timers.
    match goal with |- context [resumeDueTimers ?cl (driveExisting _ ?reg) ?rs ?c0] =>
      pose proof (timers_keeps reg id r rs c0 Hr Hk);
      by destruct (resumeDueTimers cl (driveExisting cl reg) rs c0) end.
  - done.
  - by apply save_keeps.
Qed.
End engine_facts.

(** C39: A terminal run never changes again, over a store that reads back what was saved.
    Once a run is completed, failed,
    compensated or cancelled and no operation on it is under way, no sequence of operations
    of the engine, in any order and at any times (signals and timers for it, resuming,
    pausing or cancelling it, registering its definition again, operations on other runs,
    which may overlap them), changes its snapshot, as long as none of them starts a new run
    under the same identifier. *)
Theorem terminal_runs_never_resume {W ST} (clock : W → Q) (abort : string → W → W)
    `{LosslessStore ST} `{!ListingStore ST} (e : engine W ST) (ops : list (engine_op W))
    (id : string) (r : WorkflowRun) :
  coherent (co_store (e_coord e)) → ws_load id (co_store (e_coord e)) = Some r →
  status r ∈ TERMINAL → Forall (λ op, ¬ rewrites id op) ops →
  ws_load id (co_store (e_coord (engine_steps clock abort e ops))) = Some r.
Proof.
  intros Hc Hl Hr Hops.
  assert (keeps id r (co_store (e_coord e))) as Hk by by split. clear Hc Hl.
  apply keeps_load. revert e Hk. unfold engine_steps.
  induction Hops as [|op ops Hop _ IH]; intros e Hk; simpl; [done|].
  apply IH. by apply engine_step_keeps.
Qed.

(** ** Timers *)

Section timers.
Context {W : Type} (clock : W → Q) {ST : Type} `{LosslessStore ST}.
Variables (kind : CommandKind) (expiry : Q → Q) (k : result thrown jsval → workflow (drive_world W)).
Implicit Types (c : coordinator W ST).

(** A function whose first command is a timer, and that a suspension ends. *)
Definition timer_first (_ : jsval) : workflow (drive_world W) :=
  Do (plain_command (timer_command kind expiry)) k.

Hypothesis k_suspends : ∀ q kd a b,
  k (Throw (TSuspension q kd a b)) = Raise (TSuspension q kd a b).

(** A live run that has not passed its first command. *)
Record at_first (r : WorkflowRun) : Prop := {
  af_live : (status r ∉ TERMINAL) ∧ status r ≠ paused;
  af_first : commands r = [] ∨ (∃ cmd, commands r = [cmd] ∧ r_status cmd = c_waiting);
}.

(** A run parked on a timer that expires at [t]. *)
Record parked_until (t : Q) (r : WorkflowRun) : Prop := {
  pu_status : status r = waiting;
  pu_wait : ∃ cmd, commands r = [cmd] ∧ r_status cmd = c_waiting ∧
    r_timerExpiresAt cmd = Some t;
}.

Lemma parked_at_first t r : parked_until t r → at_first r.
Proof.
  intros [Hs (cmd & Hc & Hw & _)]. split; [|right; eauto]. rewrite Hs.
  unfold TERMINAL. split; [set_solver|done].
Qed.

(** The first command of a run at its first command is executed, again if it was
    parked. *)
Lemma process_timer r (s : ST) w cur_w :
  at_first r → cur_w = (w, []) →
  let j := Build_journal r 0 s cur_w in
  let now := clock w in
  let '(x, j') := process (drive_clock clock) (plain_command (timer_command kind expiry)) j in
  runId (j_run j') = runId r ∧ definition (j_run j') = definition r ∧
  input (j_run j') = input r ∧ output (j_run j') = output r ∧ j_world j' = (w, []) ∧
  j_store j' = ws_save (j_run j') s ∧
  if Qle_bool (expiry now) now
  then x = Ok JUndefined ∧ status (j_run j') = status r
  else ∃ seq, x = Throw (TSuspension seq kind None (Some (expiry now))) ∧
         parked_until (expiry now) (j_run j').
Proof.
  intros [_ Hfirst] -> j now. subst j. unfold process. cbn [j_run j_cursor].
  destruct Hfirst as [Hc|(cmd & Hc & Hw)]; rewrite Hc; cbn [lookup list_lookup].
  - unfold live_command. cbn. unfold timerOutcome, drive_clock. cbn [fst]. fold now. rewrite Hc.
    destruct (Qle_bool (expiry now) now); cbn; (do 6 (split; [done|])); [done|].
    eexists. split; [done|]. split; [done|]. by eexists.
  - rewrite Hw. unfold live_command. cbn.
    unfold timerOutcome, drive_clock. cbn [fst]. fold now. rewrite Hc.
    destruct (Qle_bool (expiry now) now); cbn; (do 6 (split; [done|])); [done|].
    eexists. split; [done|]. split; [done|]. by eexists.
Qed.

Variables (registry : list (string * workflow_fn W)) (id : string).

(** Driving the run again. *)
Lemma redrive_timer r c :
  jm_get (definition r) registry = Some timer_first →
  ws_load id (co_store c) = Some r → runId r = id → at_first r →
  let now := clock (co_world c) in
  let c' := driveExisting clock registry id c in
  if Qle_bool (expiry now) now
  then ∀ v, k (Ok JUndefined) = Return v →
    ∃ r', ws_load id (co_store c') = Some r' ∧ status r' = completed ∧
      output r' = or_else (defined_value v) (output r)
  else ∃ r', ws_load id (co_store c') = Some r' ∧ runId r' = id ∧
    definition r' = definition r ∧ parked_until (expiry now) r'.
Proof.
  intros Hreg Hload Hid Hat now c'. unfold c', driveExisting. rewrite Hload.
  destruct (af_live _ Hat) as [Ht Hp]. rewrite decide_False by tauto. rewrite Hreg.
  unfold executeDrive, runtime_drive.
  assert (∃ r1 s1, start_drive clock r (co_store c) (co_world c) =
    Build_journal r1 0 s1 (co_world c, []) ∧ runId r1 = id ∧ definition r1 = definition r ∧
    output r1 = output r ∧ commands r1 = commands r ∧ status r1 = running)
    as (r1 & s1 & -> & Hid1 & Hdef1 & Hout1 & Hcmds1 & Hst1).
  { unfold start_drive. case_decide; do 2 eexists; (split; [reflexivity|]); done. }
  assert (at_first r1) as Hat1.
  { split; [rewrite Hst1; unfold TERMINAL; split; [set_solver|done]|].
    rewrite Hcmds1. apply Hat. }
  pose proof (process_timer r1 s1 (co_world c) _ Hat1 eq_refl) as Hp1. cbv zeta in Hp1.
  cbn [timer_first drive]. destruct (process _ _ _) as [x j].
  destruct Hp1 as (Hid' & Hdef' & _ & Hout' & Hw' & Hs' & Hcase). fold now in Hcase.
  pose proof (load_save_eq (j_run j) s1) as Hsaved. rewrite Hid', Hid1, <-Hs' in Hsaved.
  destruct (Qle_bool (expiry now) now).
  - destruct Hcase as [-> Hrun]. intros v Hv. rewrite Hv. cbn [drive finish_drive].
    cbn. match goal with |- context [ws_save ?y _] => exists y end.
    split; [|split; [done|simpl; by rewrite Hout', Hout1]].
    rewrite <-Hid1, <-Hid'. match goal with |- ws_load _ (ws_save ?y _) = _ =>
      apply (load_save_eq y) end.
  - destruct Hcase as (seq & -> & Hpark). rewrite k_suspends. cbn.
    exists (j_run j). rewrite Hid', Hdef'. by split.
Qed.

(** Driving it again and again, the outside world being [ws] at these times. *)
Definition redrive_at (c : coordinator W ST) (w : W) : coordinator W ST :=
  driveExisting clock registry id
    {| co_store := co_store c; co_world := w; co_resumed := co_resumed c |}.

Lemma redrives_parked ws : ∀ r c,
  jm_get (definition r) registry = Some timer_first →
  ws_load id (co_store c) = Some r → runId r = id → at_first r →
  Forall (λ w, Qle_bool (expiry (clock w)) (clock w) = false) ws →
  ∃ r', ws_load id (co_store (foldl redrive_at c ws)) = Some r' ∧ runId r' = id ∧
    definition r' = definition r ∧ at_first r' ∧
    ∀ w, last ws = Some w → parked_until (expiry (clock w)) r'.
Proof.
  induction ws as [|w ws IH] using rev_ind; intros r c Hreg Hload Hid Hat Hws.
  { exists r. by do 4 (split; [done|]). }
  apply Forall_app in Hws as [Hws Hw]. rewrite Forall_singleton in Hw.
  destruct (IH r c Hreg Hload Hid Hat Hws) as (r1 & Hload1 & Hid1 & Hdef1 & Hat1 & _).
  rewrite foldl_snoc. rewrite <-Hdef1 in Hreg.
  pose proof (redrive_timer r1 {| co_store := co_store (foldl redrive_at c ws);
    co_world := w; co_resumed := co_resumed (foldl redrive_at c ws) |} Hreg Hload1 Hid1 Hat1)
    as Hstep.
  cbn [co_world] in Hstep. rewrite Hw in Hstep.
  destruct Hstep as (r' & Hl & Hi & Hd & Hp). exists r'. split; [exact Hl|].
  split; [done|]. split; [congruence|]. split; [by eapply parked_at_first|].
  intros w' Hlast. rewrite last_snoc in Hlast. by injection Hlast as <-.
Qed.
End timers.

(** The waits whose expiry is counted from the moment the command runs. *)
Inductive relative_wait {W} : CommandSpec W → (Q → Q) → Prop :=
| rw_sleep d : (0 < d)%Q → relative_wait (sleep d) (λ now, now + d)%Q
| rw_interval d : (0 < d)%Q → relative_wait (interval d) (λ now, now + d)%Q
| rw_cron expression f : parse_cron expression = Ok f →
    relative_wait (cron expression) (λ now, inject_Z (next_fire f now)).

(** Each is a timer that lies in the future whenever it is set. *)
Lemma relative_wait_timer {W} (spec : CommandSpec W) expiry :
  relative_wait spec expiry →
  (∃ kind, spec = timer_command kind expiry) ∧ ∀ now, (now < expiry now)%Q.
Proof.
  intros [d Hd|d Hd|expression f Hf].
  - split; [by exists k_sleep|]. intros now. lra.
  - split; [by exists k_interval|]. intros now. lra.
  - split; [|apply next_fire_future]. exists k_cron. unfold cron, timer_command. f_equal.
    do 4 (apply functional_extensionality; intros ?). unfold computeNextCronTime. by rewrite Hf.
Qed.

(** Waits that count from now never end.  A run whose function starts with a positive
    [ctx.sleep] or [ctx.interval], or with [ctx.cron] of a valid expression, is parked
    again by every drive: whatever the times at which it is driven again and however
    many, it is [waiting], on a timer that lies in the future of its last drive. *)
Theorem relative_waits_never_end {W ST} (clock : W → Q) `{LosslessStore ST} spec expiry k
    registry (id : string) (r : WorkflowRun) (c : coordinator W ST) (ws : list W) (w : W) :
  relative_wait spec expiry →
  (∀ q kd a b, k (Throw (TSuspension q kd a b)) = Raise (TSuspension q kd a b)) →
  jm_get (definition r) registry = Some (λ _, Do (plain_command spec) k) →
  ws_load id (co_store c) = Some r → runId r = id → at_first r →
  ∃ r', ws_load id (co_store (foldl (redrive_at clock registry id) c (ws ++ [w]))) = Some r' ∧
    parked_until (expiry (clock w)) r' ∧ (clock w < expiry (clock w))%Q.
Proof.
  intros [[kind ->] Hfut]%relative_wait_timer Hk Hreg Hload Hid Hat.
  destruct (redrives_parked clock kind expiry k Hk registry id (ws ++ [w]) r c
    Hreg Hload Hid Hat) as (r' & Hl & _ & _ & _ & Hp).
  - apply Forall_forall. intros x _. apply not_true_iff_false. rewrite Qle_bool_iff.
    by apply Qlt_not_le.
  - exists r'. split; [done|]. split; [|done]. apply Hp. apply last_snoc.
Qed.

(** A wait until a time ends at that time.  A run whose function starts by waiting
    until the time [t] and then returns is parked by every drive before [t], with the
    expiry it was given, and completed with the value it returns by the first drive at
    [t] or later. *)
Theorem waitUntil_fires {W ST} (clock : W → Q) `{LosslessStore ST} (t : Q) k registry
    (id : string) (r : WorkflowRun) (c : coordinator W ST) (ws : list W) (w : W) v :
  (∀ q kd a b, k (Throw (TSuspension q kd a b)) = Raise (TSuspension q kd a b)) →
  k (Ok JUndefined) = Return v →
  jm_get (definition r) registry = Some (λ _, Do (plain_command (waitUntil t)) k) →
  ws_load id (co_store c) = Some r → runId r = id → at_first r →
  Forall (λ x, clock x < t)%Q ws → (t <= clock w)%Q →
  (∃ r', ws_load id (co_store (foldl (redrive_at clock registry id) c ws)) = Some r' ∧
     (ws = [] ∨ parked_until t r')) ∧
  (∃ r', ws_load id (co_store (foldl (redrive_at clock registry id) c (ws ++ [w]))) = Some r' ∧
     status r' = completed).
Proof.
  intros Hk Hv Hreg Hload Hid Hat Hws Hw.
  destruct (redrives_parked clock k_waitUntil (λ _, t) k Hk registry id ws r c
    Hreg Hload Hid Hat) as (r1 & Hl1 & Hid1 & Hdef1 & Hat1 & Hp).
  { eapply Forall_impl; [exact Hws|]. intros x Hx. apply not_true_iff_false.
    rewrite Qle_bool_iff. cbv beta in Hx. lra. }
  split.
  - exists r1. split; [done|]. destruct (last ws) as [x|] eqn:Hlast; [right; by apply (Hp x)|].
    left. by apply last_None.
  - rewrite foldl_snoc. rewrite <-Hdef1 in Hreg.
    pose proof (redrive_timer clock k_waitUntil (λ _, t) k Hk registry id r1
      {| co_store := co_store (foldl (redrive_at clock registry id) c ws); co_world := w;
         co_resumed := co_resumed (foldl (redrive_at clock registry id) c ws) |}
      Hreg Hl1 Hid1 Hat1) as Hstep.
    cbn [co_world] in Hstep. apply Qle_bool_iff in Hw. rewrite Hw in Hstep.
    destruct (Hstep v Hv) as (r' & Hl & Hs & _). by exists r'.
Qed.

(** ** A cancellation in the middle of a drive *)

Section interleaving.
Context {W : Type} (clock : W → Q) (abort : string → W → W) {ST : Type} `{LosslessStore ST}.

(** The first [n] commands of a drive: what is left of the function, and the journal. *)
Fixpoint drive_steps (n : nat) (f : workflow (drive_world W))
    (j : journal (drive_world W) ST) : workflow (drive_world W) * journal (drive_world W) ST :=
  match f with
  | Return _ | Raise _ => (f, j)
  | Do spec k =>
      match n with
      | O => (f, j)
      | S n => let '(r, j) := process (drive_clock clock) spec j in drive_steps n (k r) j
      end
  | Read key k => drive_steps n (k (readState key j)) j
  end.

(** The journal with another store under it, and another outside world. *)
Definition outside (s : ST) (w : W) (j : journal (drive_world W) ST) :
    journal (drive_world W) ST :=
  Build_journal (j_run j) (j_cursor j) s (w, (j_world j).2).

(** Two journals that differ at most in the store. *)
Definition same_but_store (j1 j2 : journal (drive_world W) ST) : Prop :=
  j_run j1 = j_run j2 ∧ j_cursor j1 = j_cursor j2 ∧ j_world j1 = j_world j2.

Lemma process_same spec j1 j2 :
  same_but_store j1 j2 →
  (process (drive_clock clock) spec j1).1 = (process (drive_clock clock) spec j2).1 ∧
  same_but_store (process (drive_clock clock) spec j1).2
    (process (drive_clock clock) spec j2).2.
Proof.
  destruct j1 as [r1 c1 s1 w1], j2 as [r2 c2 s2 w2].
  intros (Hr & Hc & Hw). simpl in *. subst r2 c2 w2. unfold same_but_store, process,
    live_command, replay_command. simpl.
  repeat first [done | case_match; simpl in *; simplify_eq].
Qed.

Lemma drive_same f : ∀ j1 j2,
  same_but_store j1 j2 →
  (drive (drive_clock clock) f j1).1 = (drive (drive_clock clock) f j2).1 ∧
  same_but_store (drive (drive_clock clock) f j1).2 (drive (drive_clock clock) f j2).2.
Proof.
  induction f as [v|t|spec k IH|key k IH]; intros j1 j2 Hs; simpl; [done|done| |].
  - destruct (process_same spec j1 j2 Hs) as [Hr Hs'].
    destruct (process _ spec j1) as [r1 j1'], (process _ spec j2) as [r2 j2'].
    simpl in Hr. subst r2. by apply IH.
  - assert (readState key j1 = readState key j2) as -> by (unfold readState; by destruct Hs as [-> _]).
    by apply IH.
Qed.
End interleaving.

(** A cancellation during a drive is lost.  While a run is being driven, after any
    number of its commands, it is cancelled: the engine persists it as [cancelled].  If
    its function goes on and returns, the run the drive ends with is the one it would
    have ended with had the cancellation not been persisted: the store holds it as
    [completed], and nothing in it records the cancellation. *)
Theorem cancel_during_drive_is_lost {W ST} (clock : W → Q) (abort : string → W → W)
    `{LosslessStore ST} (fn : jsval → workflow (drive_world W)) (r : WorkflowRun) (s : ST) (w : W)
    (n : nat) (tokens : list string) (v : jsval) :
  let id := runId r in
  let '(f, j) := drive_steps clock n (fn (input r)) (start_drive clock r s w) in
  ws_load id (j_store j) = Some (j_run j) → runId (j_run j) = id →
  (status (j_run j) ∉ TERMINAL) →
  let c := cancel_run clock abort id
             {| co_store := j_store j; co_world := (j_world j).1; co_resumed := tokens |} in
  let '(res, j') := drive (drive_clock clock) f (outside (co_store c) (co_world c) j) in
  let '(res0, j0) := drive (drive_clock clock) f (outside (j_store j) (co_world c) j) in
  run_status_of id {| e_registry := []; e_coord := c; e_autoResumed := []; e_autoResume := false |}
    = Some cancelled ∧
  (res = Ok v →
    let '(d, (s', _)) := finish_drive clock res j' in
    let '(d0, _) := finish_drive clock res0 j0 in
    ws_load id s' = Some (d_run d) ∧ status (d_run d) = completed ∧ d_run d = d_run d0).
Proof.
  intros id. destruct (drive_steps _ _ _ _) as [f j]. intros Hload Hid Hlive c.
  pose proof (drive_same clock f (outside (co_store c) (co_world c) j)
    (outside (j_store j) (co_world c) j) ltac:(by repeat split)) as [Hres Hsame].
  pose proof (drive_runId clock f (outside (co_store c) (co_world c) j)) as Hid'.
  destruct (drive _ f (outside (co_store c) _ j)) as [res j'].
  destruct (drive _ f (outside (j_store j) _ j)) as [res0 j0]. cbn [fst snd] in *.
  destruct Hsame as (Hr & _ & Hw). split.
  - unfold run_status_of. cbn [e_coord]. subst c. unfold cancel_run. cbn [co_store].
    rewrite Hload, decide_False by done. unfold engine_transition. cbn [co_store with_store].
    rewrite <-Hid. match goal with |- context [ws_load _ (ws_save ?y _)] =>
      change (runId (j_run j)) with (runId y); rewrite (load_save_eq y) end. done.
  - intros ->. subst res0. cbn [finish_drive finalizeCompleted d_run]. split.
    + cbn in Hid'. rewrite <-Hid, <-Hid'. cbn.
      match goal with |- ws_load _ (ws_save ?y _) = _ => apply (load_save_eq y) end.
    + split; [done|]. cbn. by rewrite Hr, Hw.
Qed.

(** ** Signals *)

(** [const a = await ctx.events.waitFor(name); const b = await ctx.events.waitFor(name);
     return [a, b]] *)
Definition wait_twice {W} (name : string) (_ : jsval) : workflow (drive_world W) :=
  let wait := plain_command (waitFor name id) in
  Do wait (λ r, match r with
    | Throw t => Raise t
    | Ok a => Do wait (λ r, match r with Throw t => Raise t | Ok b => Return (JArr [a; b]) end)
    end).

Lemma consume_first_spec name signals :
  match consume_first name signals with
  | None => filter (awaits_signal name) signals = []
  | Some (payload, signals') =>
      ∃ s rest, filter (awaits_signal name) signals = s :: rest ∧ s_payload s = payload ∧
        filter (awaits_signal name) signals' = rest
  end.
Proof.
  induction signals as [|s signals IH]; simpl; [done|]. rewrite filter_cons.
  case_decide as Hs.
  - exists s. eexists. split; [done|]. split; [done|]. rewrite filter_cons, decide_False; [done|].
    by intros [_ ?].
  - destruct (consume_first name signals) as [[payload signals']|]; simpl; [|done].
    destruct IH as (s' & rest & Hf & Hp & Hr). exists s', rest. split; [done|].
    split; [done|]. by rewrite filter_cons, decide_False.
Qed.

(** One signal answers every wait for its name.  A function that waits twice for a
    signal of which exactly one was delivered completes at once, with the payload of
    that one signal twice, and leaves it unconsumed; consumed as the coordinator does
    it ([tryConsumePending]) it would answer the first wait only. *)
Theorem signal_answers_every_wait {W ST} (clock : W → Q) `{LosslessStore ST}
    (r : WorkflowRun) (name : string) (sig : RecordedSignal) (c : coordinator W ST) :
  status r = running → commands r = [] →
  filter (awaits_signal name) (pendingSignals r) = [sig] →
  (let '(d, _) := runtime_drive clock (wait_twice name) r (co_store c) (co_world c) in
   d_status d = completed ∧ d_output d = Some (JArr [s_payload sig; s_payload sig]) ∧
   pendingSignals (d_run d) = pendingSignals r) ∧
  let '((first, r'), c') := tryConsumePending clock r name c in
  let '((second, _), _) := tryConsumePending clock r' name c' in
  first = Some (s_payload sig) ∧ second = None.
Proof.
  intros Hs Hc Hsig.
  assert (buffered_signal name r = Some sig) as Hb by (unfold buffered_signal; by rewrite Hsig).
  split.
  - unfold runtime_drive, start_drive. rewrite decide_True by done.
    cbn. unfold process, live_command. cbn. rewrite Hc. cbn. rewrite Hb. cbn.
    match goal with |- context [buffered_signal name ?x] =>
      change (buffered_signal name x) with (buffered_signal name r) end.
    rewrite Hb. cbn. done.
  - unfold tryConsumePending. pose proof (consume_first_spec name (pendingSignals r)) as Hcs.
    destruct (consume_first name (pendingSignals r)) as [[p sigs]|]; [|congruence].
    destruct Hcs as (s' & rest & Hf & Hp & Hr). rewrite Hsig in Hf. injection Hf as <- <-.
    pose proof (consume_first_spec name sigs) as Hcs2. cbn [pendingSignals with_signals].
    destruct (consume_first name sigs) as [[p2 sigs2]|].
    + destruct Hcs2 as (? & ? & Hf2 & _). congruence.
    + by rewrite Hp.
Qed.

(** ** Samples *)

(** The clock of the samples counts the entries of the world. *)
Definition tick_clock (w : list string) : Q := inject_Z (Z.of_nat (length w)).

(** [await ctx.sleep(d)], then return [null]. *)
Definition then_null {W} (r : result thrown jsval) : workflow W :=
  match r with Ok _ => Return JNull | Throw t => Raise t end.
Definition sleeper : workflow_fn (list string) := λ _, Do (plain_command (sleep 2)) then_null.
Definition alarm : workflow_fn (list string) := λ _, Do (plain_command (waitUntil 2)) then_null.

Definition sample_coord : coordinator (list string) memory_store :=
  {| co_store := mem_save (sample_run JNull) []; co_world := []; co_resumed := [] |}.

Lemma sample_at_first : at_first (sample_run JNull).
Proof. split; [|by left]. unfold TERMINAL. split; [set_solver|done]. Qed.

Definition crontab : workflow_fn (list string) :=
  λ _, Do (plain_command (cron "* * * * *")) then_null.

Lemma relative_waits_never_end_witness :
  (∃ r', ws_load "r1" (co_store (foldl (redrive_at tick_clock [("order", sleeper)] "r1")
     sample_coord ([["a"]; ["a"; "b"; "c"]] ++ [["a"; "b"; "c"; "d"; "e"; "f"]]))) = Some r' ∧
     parked_until (tick_clock ["a"; "b"; "c"; "d"; "e"; "f"] + 2) r') ∧
  (∃ r' f, parse_cron "* * * * *" = Ok f ∧
     ws_load "r1" (co_store (foldl (redrive_at tick_clock [("order", crontab)] "r1")
       sample_coord ([["a"]] ++ [["a"; "b"; "c"]]))) = Some r' ∧
     parked_until (inject_Z (next_fire f (tick_clock ["a"; "b"; "c"]))) r').
Proof.
  split.
  - assert (@relative_wait (list string) (sleep 2) (λ now, now + 2)%Q) as Hw by by apply rw_sleep.
    destruct (relative_waits_never_end tick_clock (sleep 2) _ then_null [("order", sleeper)] "r1"
      (sample_run JNull) sample_coord [["a"]; ["a"; "b"; "c"]] ["a"; "b"; "c"; "d"; "e"; "f"] Hw)
      as (r' & Hl & Hp & _);
      [done|reflexivity|reflexivity|reflexivity|apply sample_at_first|].
    exists r'. split; [exact Hl|exact Hp].
  - destruct (parse_cron "* * * * *") as [f|] eqn:Hf; [|vm_compute in Hf; discriminate Hf].
    destruct (relative_waits_never_end tick_clock (cron "* * * * *") _ then_null
      [("order", crontab)] "r1" (sample_run JNull) sample_coord [["a"]] ["a"; "b"; "c"]
      (rw_cron "* * * * *" f Hf)) as (r' & Hl & Hp & _);
      [done|reflexivity|reflexivity|reflexivity|apply sample_at_first|].
    exists r', f. split; [reflexivity|]. split; [exact Hl|exact Hp].
Defined.

Lemma waitUntil_fires_witness :
  ∃ r', ws_load "r1" (co_store (foldl (redrive_at tick_clock [("order", alarm)] "r1")
    sample_coord ([["a"]] ++ [["a"; "b"]]))) = Some r' ∧ status r' = completed.
Proof.
  refine (proj2 (waitUntil_fires tick_clock 2 then_null [("order", alarm)] "r1"
    (sample_run JNull) sample_coord [["a"]] ["a"; "b"] JNull _ _ _ _ _ sample_at_first _ _)).
  - done.
  - reflexivity.
  - reflexivity.
  - reflexivity.
  - reflexivity.
  - apply Forall_singleton. reflexivity.
  - discriminate.
Defined.

(** [await ctx.activity(reserve); return null] *)
Definition reserve_then_null : workflow_fn (list string) := λ _,
  Do (activity (λ _, 0%Q) quiet_env (step_request "reserve" false) None) then_null.

Lemma memory_coherent (s : memory_store) :
  Forall (λ kv, runId kv.2 = kv.1) s → coherent s.
Proof.
  intros Hall id r Hl. simpl in Hl. unfold mem_load in Hl. apply jm_get_elem in Hl.
  rewrite Forall_forall in Hall. exact (Hall _ Hl).
Qed.

(** The alarm of the run is cancelled; then everything that can reach it happens. *)
Definition cancelled_sample : engine (list string) memory_store :=
  cancel tick_clock (λ _ w, w) "r1"
    (run tick_clock "order" JNull "r1"
      {| e_registry := [("order", alarm)];
         e_coord := {| co_store := []; co_world := []; co_resumed := [] |};
         e_autoResumed := []; e_autoResume := true |}).2.

Lemma terminal_runs_never_resume_witness :
  let ops := [Op_elapse ["a"; "b"]; Op_fire_timers; Op_signal "r1" "go" JNull;
              Op_saved (new_run "r3" "order" JNull 0);
              Op_resume "r1"; Op_pause "r1"; Op_restart "r1" "r2"; Op_cancel "r1"] in
  let e' := engine_steps tick_clock (λ _ w, w) cancelled_sample ops in
  (run_status_of "r1" cancelled_sample = Some cancelled ∧
   run_status_of "r2" e' = Some completed) ∧
  run_status_of "r1" e' = Some cancelled.
Proof.
  intros ops e'. split; [split; reflexivity|].
  assert (coherent (co_store (e_coord cancelled_sample))) as Hc.
  { apply memory_coherent. vm_compute. repeat constructor. }
  assert (∃ r, ws_load "r1" (co_store (e_coord cancelled_sample)) = Some r ∧
    status r = cancelled) as (r & Hr & Hs) by (vm_compute; by eexists).
  subst e'. unfold run_status_of.
  rewrite (terminal_runs_never_resume tick_clock (λ _ w, w) cancelled_sample ops "r1" r Hc Hr);
    [simpl; by rewrite Hs|rewrite Hs; unfold TERMINAL; set_solver|].
  repeat (apply Forall_cons; split; [by intros ?|]). constructor.
Defined.

Lemma cancel_during_drive_is_lost_witness :
  let '(f, j) := drive_steps (λ _, 0%Q) 1 (reserve_then_null JNull)
                   (start_drive (λ _ : list string, 0%Q) (sample_run JNull)
                      (mem_save (sample_run JNull) []) []) in
  let c := cancel_run (λ _, 0%Q) (λ _ w, w) "r1"
             {| co_store := j_store j; co_world := (j_world j).1; co_resumed := [] |} in
  let '(res, j') := drive (drive_clock (λ _, 0%Q)) f (outside (co_store c) (co_world c) j) in
  let '(d, (s', _)) := finish_drive (λ _, 0%Q) res j' in
  status <$> ws_load "r1" (co_store c) = Some cancelled ∧ status (d_run d) = completed.
Proof.
  pose proof (cancel_during_drive_is_lost (λ _ : list string, 0%Q) (λ _ w, w) reserve_then_null
    (sample_run JNull) (mem_save (sample_run JNull) []) [] 1 [] JNull) as H.
  cbv zeta in H |- *. change (input (sample_run JNull)) with JNull in H.
  change (runId (sample_run JNull)) with "r1" in H.
  destruct (drive_steps _ _ _ _) as [f j] eqn:E.
  assert (ws_load "r1" (j_store j) = Some (j_run j) ∧ runId (j_run j) = "r1" ∧
    status (j_run j) = running) as (H1 & H2 & H3)
    by (vm_compute in E; injection E as <- <-; vm_compute; done).
  specialize (H H1 H2). rewrite H3 in H. specialize (H ltac:(unfold TERMINAL; set_solver)).
  set (c := cancel_run _ _ _ _) in *.
  assert ((drive (drive_clock (λ _, 0%Q)) f (outside (co_store c) (co_world c) j)).1 = Ok JNull)
    as Hres by (vm_compute in E; injection E as <- <-; vm_compute; done).
  destruct (drive _ f (outside (co_store c) _ j)) as [res j'].
  destruct (drive _ f (outside (j_store j) _ j)) as [res0 j0].
  destruct H as [Hcanc H]. specialize (H Hres).
  destruct (finish_drive _ res j') as [d [s' w']], (finish_drive _ res0 j0) as [d0 ?].
  split; [exact Hcanc|apply H].
Defined.

(** The run with one signal delivered before its function waits. *)
Definition signalled_sample : WorkflowRun :=
  with_signals (sample_run JNull)
    [{| s_name := "stop"; s_payload := JNull; s_receivedAt := 0; s_consumed := false |};
     {| s_name := "go"; s_payload := JStr "payload"; s_receivedAt := 0; s_consumed := false |}]
    [] 0.

Lemma signal_answers_every_wait_witness :
  let '(d, _) := runtime_drive tick_clock (wait_twice "go") signalled_sample
                   (mem_save signalled_sample []) [] in
  d_output d = Some (JArr [JStr "payload"; JStr "payload"]).
Proof.
  pose proof (signal_answers_every_wait tick_clock signalled_sample "go"
    {| s_name := "go"; s_payload := JStr "payload"; s_receivedAt := 0; s_consumed := false |}
    {| co_store := mem_save signalled_sample []; co_world := []; co_resumed := [] |}
    eq_refl eq_refl eq_refl) as [H _].
  cbn [co_store co_world] in H. destruct (runtime_drive _ _ _ _ _) as [d x]. apply H.
Defined.
