(* ===== verification/Commerce.v ===== *)
(** * Commerce

    Models src/packages/commerce/src/: the in-memory store of store.ts and the service of
    index.ts (products, stock, carts, coupons, checkout, cancellation, reviews).

    The in-memory store resolves each of its calls in one step, and the service awaits them
    one after the other, so that other callers run in between.  A checkout and a
    cancellation are therefore machines that advance by one store call or one answer of the
    payment gateway at a time.  The other methods write once, after they have validated
    their input; they are one step here, as if nobody else ran between their reads and
    their write.  Money and quantities are exact; where the code
    checks [Number.isInteger], the argument is a rational number.  Ids and the clock are
    arguments, and the gateway is the environment: it answers a charge or a refund, or it
    rejects it. *)

From Stdlib Require Import Ascii String QArith Qround.
From S2P Require Import Prelude JsText JsMap.

#[local] Open Scope list_scope.
Open Scope Z_scope.

(** ** Data (types.ts) *)

Record Product : Type := {
  p_id : string; p_name : string; priceCents : Z; p_currency : string; p_active : bool
}.

Record StockLevel : Type := { onHand : Z; reserved : Z; available : Z }.

Record CartLine : Type := { cl_product : Product; cl_quantity : Z; lineTotalCents : Z }.
Record Cart : Type := {
  cart_id : string; cart_lines : list CartLine; subtotalCents : Z; cart_currency : option string
}.

Inductive CouponKind : Type := percent | fixed.
Record Coupon : Type := {
  c_code : string; c_kind : CouponKind; c_value : Q; c_active : bool; minSubtotalCents : Z
}.
Record DiscountResult : Type := { discountCents : Z; totalCents : Z }.

Inductive OrderStatus : Type := paid | cancelled.
Record OrderLine : Type := { ol_product : string; ol_quantity : Z; unitPriceCents : Z }.
Record Order : Type := {
  o_id : string; o_lines : list OrderLine; o_currency : string; o_subtotal : Z;
  o_discount : Z; o_total : Z; o_coupon : option string; paymentId : string;
  o_status : OrderStatus; o_createdAt : Z
}.

Record Review : Type := {
  r_id : string; r_product : string; r_user : string; rating : Z; r_text : string;
  r_createdAt : Z
}.

Inductive commerce_error : Type :=
| NotNonEmpty (field : string)
| NotMoney (field : string)
| NotCount (field : string)
| ProductNotFound (id : string)
| Inactive (id : string)
| CurrencyMismatch (a b : string)
| BadPercent
| CouponInvalid (code : string)
| CouponMinimum (code : string) (min : Z)
| CartEmpty
| InsufficientStock (productId : string) (requested available : Z)
| OrderNotFound (id : string)
| BadRating
| NoStockEntry                       (* [undefined.onHand] *)
| PaymentFailed (reason : string)
| StoreFailed.

(** ** The store (store.ts) *)

Record Store : Type := {
  products : list (string * Product);
  stock : list (string * (Z * Z));           (* on hand, reserved *)
  coupons : list (string * Coupon);
  orders : list (string * Order);
  reviews : list (string * list (string * Review))
}.
Definition empty_store : Store :=
  {| products := []; stock := []; coupons := []; orders := []; reviews := [] |}.

Definition set_products (p : list (string * Product)) (s : Store) : Store :=
  {| products := p; stock := stock s; coupons := coupons s; orders := orders s; reviews := reviews s |}.
Definition set_stock (t : list (string * (Z * Z))) (s : Store) : Store :=
  {| products := products s; stock := t; coupons := coupons s; orders := orders s; reviews := reviews s |}.
Definition set_coupons (c : list (string * Coupon)) (s : Store) : Store :=
  {| products := products s; stock := stock s; coupons := c; orders := orders s; reviews := reviews s |}.
Definition set_orders (o : list (string * Order)) (s : Store) : Store :=
  {| products := products s; stock := stock s; coupons := coupons s; orders := o; reviews := reviews s |}.
Definition set_reviews (r : list (string * list (string * Review))) (s : Store) : Store :=
  {| products := products s; stock := stock s; coupons := coupons s; orders := orders s; reviews := r |}.

(** [insertProduct] and [updateProduct] are the same [set]. *)
Definition insertProduct (p : Product) (s : Store) : Store :=
  set_products (jm_set (p_id p) p (products s)) s.
Definition getProduct (id : string) (s : Store) : option Product := jm_get id (products s).
Definition listProducts (activeOnly : bool) (s : Store) : list Product :=
  let all := jm_values (products s) in
  if activeOnly then filter (λ p, p_active p = true) all else all.

Definition initStock (id : string) (s : Store) : Store :=
  if jm_has id (stock s) then s else set_stock (jm_set id (0, 0) (stock s)) s.
Definition restock (id : string) (q : Z) (s : Store) : result commerce_error Store :=
  match jm_get id (stock s) with
  | Some (oh, rs) => Ok (set_stock (jm_set id (oh + q, rs) (stock s)) s)
  | None => Throw NoStockEntry
  end.
Definition stock_of (id : string) (s : Store) : Z * Z := default (0, 0) (jm_get id (stock s)).
Definition getStock (id : string) (s : Store) : StockLevel :=
  let '(oh, rs) := stock_of id s in {| onHand := oh; reserved := rs; available := oh - rs |}.
Definition reserveStock (id : string) (q : Z) (s : Store) : Store * bool :=
  match jm_get id (stock s) with
  | Some (oh, rs) =>
      if oh - rs <? q then (s, false) else (set_stock (jm_set id (oh, rs + q) (stock s)) s, true)
  | None => (s, false)
  end.
Definition releaseStock (id : string) (q : Z) (s : Store) : Store :=
  match jm_get id (stock s) with
  | Some (oh, rs) => set_stock (jm_set id (oh, Z.max 0 (rs - q)) (stock s)) s
  | None => s
  end.
Definition commitStock (id : string) (q : Z) (s : Store) : Store :=
  match jm_get id (stock s) with
  | Some (oh, rs) => set_stock (jm_set id (Z.max 0 (oh - q), Z.max 0 (rs - q)) (stock s)) s
  | None => s
  end.

Definition insertCoupon (c : Coupon) (s : Store) : Store :=
  set_coupons (jm_set (c_code c) c (coupons s)) s.
(** [insertOrder] and [updateOrder] are the same [set]. *)
Definition insertOrder (o : Order) (s : Store) : Store := set_orders (jm_set (o_id o) o (orders s)) s.
Definition getReview (p u : string) (s : Store) : option Review :=
  byUser ← jm_get p (reviews s); jm_get u byUser.
Definition upsertReview (r : Review) (s : Store) : Store :=
  let byUser := default [] (jm_get (r_product r) (reviews s)) in
  set_reviews (jm_set (r_product r) (jm_set (r_user r) r byUser) (reviews s)) s.
Definition listReviews (p : string) (s : Store) : list Review :=
  jm_values (default [] (jm_get p (reviews s))).

(** ** Validation (index.ts) *)

(** The integer that a number is, if it is one. *)
Definition integer_of (q : Q) : option Z :=
  if decide (Qden (Qred q) = 1%positive) then Some (Qnum (Qred q)) else None.

Definition requireNonEmpty (v field : string) : result commerce_error string :=
  if decide (v = EmptyString) then Throw (NotNonEmpty field) else Ok v.
Definition requireMoney (v : Q) (field : string) : result commerce_error Z :=
  match integer_of v with
  | Some z => if z <? 0 then Throw (NotMoney field) else Ok z
  | None => Throw (NotMoney field)
  end.
Definition requireCount (v : Q) (field : string) : result commerce_error Z :=
  match integer_of v with
  | Some z => if z <=? 0 then Throw (NotCount field) else Ok z
  | None => Throw (NotCount field)
  end.
Definition requireProduct (id : string) (s : Store) : result commerce_error Product :=
  id ← requireNonEmpty id "productId";
  match getProduct id s with Some p => Ok p | None => Throw (ProductNotFound id) end.

(** ** Products, stock, coupons and reviews *)

Definition createProduct (id name : string) (price : Q) (currency : string) (s : Store) :
    result commerce_error (Store * Product) :=
  name ← requireNonEmpty name "name";
  price ← requireMoney price "priceCents";
  let p := {| p_id := id; p_name := name; priceCents := price; p_currency := currency;
              p_active := true |} in
  Ok (initStock id (insertProduct p s), p).
Definition setPrice (id : string) (price : Q) (s : Store) : result commerce_error (Store * Product) :=
  p ← requireProduct id s;
  price ← requireMoney price "priceCents";
  let p := {| p_id := p_id p; p_name := p_name p; priceCents := price; p_currency := p_currency p;
              p_active := p_active p |} in
  Ok (insertProduct p s, p).
Definition deactivateProduct (id : string) (s : Store) : result commerce_error (Store * Product) :=
  p ← requireProduct id s;
  let p := {| p_id := p_id p; p_name := p_name p; priceCents := priceCents p;
              p_currency := p_currency p; p_active := false |} in
  Ok (insertProduct p s, p).
Definition restockProduct (id : string) (q : Q) (s : Store) : result commerce_error (Store * Z) :=
  _ ← requireProduct id s;
  q ← requireCount q "quantity";
  s ← restock id q s; Ok (s, q).
Definition availability (id : string) (s : Store) : result commerce_error StockLevel :=
  _ ← requireProduct id s; Ok (getStock id s).

(** [toUpperCase] on ASCII. *)
Definition upper (c : ascii) : ascii :=
  if (97 <=? code c) && (code c <=? 122) then ascii_of_N (Z.to_N (code c - 32)) else c.
Definition toUpperCase (s : string) : string :=
  string_of_list_ascii (upper <$> list_ascii_of_string s).

Definition createCoupon (code : string) (kind : CouponKind) (value : Q) (min : Z) (s : Store) :
    result commerce_error (Store * Coupon) :=
  code ← requireNonEmpty code "code";
  let c := {| c_code := toUpperCase code; c_kind := kind; c_value := value; c_active := true;
              minSubtotalCents := min |} in
  match kind with
  | percent =>
      if Qle_bool value 0 || negb (Qle_bool value 100) then Throw BadPercent
      else Ok (insertCoupon c s, c)
  | fixed => _ ← requireMoney value "value"; Ok (insertCoupon c s, c)
  end.

Definition discount_of (c : Coupon) (subtotal : Z) : Z :=
  match c_kind c with
  | percent => Qfloor (inject_Z subtotal * c_value c / 100)
  | fixed => Z.min (Qfloor (c_value c)) subtotal       (* the value is an integer *)
  end.
Definition applyCoupon (subtotal : Q) (code : string) (s : Store) :
    result commerce_error DiscountResult :=
  subtotal ← requireMoney subtotal "subtotalCents";
  code ← requireNonEmpty code "code";
  match jm_get (toUpperCase code) (coupons s) with
  | None => Throw (CouponInvalid code)
  | Some c =>
      if negb (c_active c) then Throw (CouponInvalid code)
      else if subtotal <? minSubtotalCents c then Throw (CouponMinimum code (minSubtotalCents c))
      else let d := discount_of c subtotal in
           Ok {| discountCents := d; totalCents := subtotal - d |}
  end.

Definition addReview (p u : string) (v : Q) (text : string) (newId : string) (now : Z) (s : Store) :
    result commerce_error (Store * Review) :=
  _ ← requireProduct p s;
  u ← requireNonEmpty u "userId";
  match integer_of v with
  | Some v =>
      if (v <? 1) || (5 <? v) then Throw BadRating
      else
        let old := getReview p u s in
        let r := {| r_id := match old with Some o => r_id o | None => newId end;
                    r_product := p; r_user := u; rating := v; r_text := text;
                    r_createdAt := match old with Some o => r_createdAt o | None => now end |} in
        Ok (upsertReview r s, r)
  | None => Throw BadRating
  end.
Definition averageRating (p : string) (s : Store) : result commerce_error Q :=
  _ ← requireProduct p s;
  Ok (match listReviews p s with
      | [] => 0%Q
      | all => (inject_Z (sumZ (rating <$> all)) / inject_Z (Z.of_nat (length all)))%Q
      end).

(** ** Carts

    The methods on carts then return [getCart]; here they return the carts.  A call of
    [addToCart] that throws may leave an empty cart, which reads as no cart. *)

Abbreviation carts_t := (list (string * list (string * Z))).

Definition string_le (a b : string) : Prop := String.leb a b = true.
#[export] Instance string_le_dec : RelDecision string_le.
Proof. intros a b. unfold string_le. apply _. Defined.
Definition line_le (a b : CartLine) : Prop := string_le (p_id (cl_product a)) (p_id (cl_product b)).
#[export] Instance line_le_dec : RelDecision line_le.
Proof. intros a b. unfold line_le. apply _. Defined.

(** The lines of a cart whose product exists, with their total and the last currency. *)
Fixpoint read_cart (s : Store) (entries : list (string * Z)) : list CartLine * Z * option string :=
  match entries with
  | [] => ([], 0, None)
  | (id, q) :: entries =>
      let '(lines, subtotal, currency) := read_cart s entries in
      match getProduct id s with
      | None => (lines, subtotal, currency)
      | Some p =>
          let total := priceCents p * q in
          ({| cl_product := p; cl_quantity := q; lineTotalCents := total |} :: lines,
           total + subtotal, Some (default (p_currency p) currency))
      end
  end.
Definition getCart (id : string) (cs : carts_t) (s : Store) : result commerce_error Cart :=
  id ← requireNonEmpty id "cartId";
  let '(lines, subtotal, currency) := read_cart s (default [] (jm_get id cs)) in
  Ok {| cart_id := id; cart_lines := merge_sort line_le lines; subtotalCents := subtotal;
        cart_currency := currency |}.

Definition assertCurrencyMatch (entries : list (string * Z)) (p : Product) (s : Store) :
    result commerce_error unit :=
  foldr (λ e r,
    match getProduct e.1 s with
    | Some q => if decide (p_currency q = p_currency p) then r
                else Throw (CurrencyMismatch (p_currency q) (p_currency p))
    | None => r
    end) (Ok tt) entries.

Definition addToCart (cart id : string) (q : Q) (cs : carts_t) (s : Store) : result commerce_error carts_t :=
  cart ← requireNonEmpty cart "cartId";
  p ← requireProduct id s;
  if negb (p_active p) then Throw (Inactive id)
  else
    q ← requireCount q "quantity";
    let entries := default [] (jm_get cart cs) in
    _ ← assertCurrencyMatch entries p s;
    Ok (jm_set cart (jm_set id (default 0 (jm_get id entries) + q) entries) cs).
Definition setQuantity (cart id : string) (q : Q) (cs : carts_t) (s : Store) : result commerce_error carts_t :=
  cart ← requireNonEmpty cart "cartId";
  _ ← requireProduct id s;
  let entries := default [] (jm_get cart cs) in
  Ok (if Qle_bool q 0 then jm_set cart (jm_delete id entries) cs
      else jm_set cart (jm_set id (Qfloor q) entries) cs).
Definition removeFromCart (cart id : string) (cs : carts_t) : result commerce_error carts_t :=
  cart ← requireNonEmpty cart "cartId";
  Ok (jm_set cart (jm_delete id (default [] (jm_get cart cs))) cs).
Definition clearCart (cart : string) (cs : carts_t) : result commerce_error carts_t :=
  cart ← requireNonEmpty cart "cartId"; Ok (jm_delete cart cs).

(** ** Checkout and cancellation *)

Abbreviation reservation := (string * Z)%type.

Inductive checkout_phase : Type :=
| Reserving (todo : list reservation)
| Charging (orderId : string) (discount : DiscountResult) (coupon : option string)
| Committing (orderId : string) (discount : DiscountResult) (coupon : option string)
    (payment : string) (todo : list reservation)
| Releasing (todo : list reservation) (e : commerce_error)
| Finished (r : result commerce_error Order).

Record Checkout : Type := {
  ck_cart : string;
  ck_lines : list CartLine;
  ck_currency : string;
  ck_subtotal : Z;
  ck_coupon : option string;
  ck_reserved : list reservation;
  ck_phase : checkout_phase
}.

Inductive cancel_phase : Type :=
| Refunding
| Restocking (todo : list OrderLine)
| Cancelled_
| CancelFailed (e : commerce_error).
Record Cancel : Type := { cn_order : Order; cn_phase : cancel_phase }.

(** What the outside sees, and the stock that was delivered or has come back. *)
Inductive effect : Type :=
| Charge (amount : Z) (currency reference : string)
| Paid (reference payment : string)
| Refund (payment : string)
| Supplied (product : string) (quantity : Z)      (* [restock] of the service *)
| Returned (product : string) (quantity : Z)      (* put back by a cancellation *)
| Placed (o : Order).

Record Shop : Type := {
  store : Store;
  carts : carts_t;
  checkouts : list Checkout;
  cancels : list Cancel;
  effects : list effect
}.
Definition empty_shop : Shop :=
  {| store := empty_store; carts := []; checkouts := []; cancels := []; effects := [] |}.

Definition set_store (s : Store) (w : Shop) : Shop :=
  {| store := s; carts := carts w; checkouts := checkouts w; cancels := cancels w; effects := effects w |}.
Definition set_carts (c : carts_t) (w : Shop) : Shop :=
  {| store := store w; carts := c; checkouts := checkouts w; cancels := cancels w; effects := effects w |}.
Definition set_checkouts (c : list Checkout) (w : Shop) : Shop :=
  {| store := store w; carts := carts w; checkouts := c; cancels := cancels w; effects := effects w |}.
Definition set_cancels (c : list Cancel) (w : Shop) : Shop :=
  {| store := store w; carts := carts w; checkouts := checkouts w; cancels := c; effects := effects w |}.
Definition emit (e : effect) (w : Shop) : Shop :=
  {| store := store w; carts := carts w; checkouts := checkouts w; cancels := cancels w;
     effects := effects w ++ [e] |}.

Definition reservation_of (l : CartLine) : reservation := (p_id (cl_product l), cl_quantity l).

Definition in_phase (ph : checkout_phase) (c : Checkout) : Checkout :=
  {| ck_cart := ck_cart c; ck_lines := ck_lines c; ck_currency := ck_currency c;
     ck_subtotal := ck_subtotal c; ck_coupon := ck_coupon c; ck_reserved := ck_reserved c;
     ck_phase := ph |}.
Definition with_reserved (r : list reservation) (c : Checkout) : Checkout :=
  {| ck_cart := ck_cart c; ck_lines := ck_lines c; ck_currency := ck_currency c;
     ck_subtotal := ck_subtotal c; ck_coupon := ck_coupon c; ck_reserved := r;
     ck_phase := ck_phase c |}.

(** The beginning of [checkout]: the cart as it is now. *)
Definition start_checkout (cart : string) (coupon : option string) (w : Shop) :
    result commerce_error Checkout :=
  c ← getCart cart (carts w) (store w);
  match cart_lines c with
  | [] => Throw CartEmpty
  | lines =>
      Ok {| ck_cart := cart; ck_lines := lines; ck_currency := default EmptyString (cart_currency c);
            ck_subtotal := subtotalCents c; ck_coupon := coupon; ck_reserved := [];
            ck_phase := Reserving (reservation_of <$> lines) |}
  end.

(** [options.couponCode] counts when it is not empty. *)
Definition price (c : Checkout) (s : Store) : result commerce_error (DiscountResult * option string) :=
  match ck_coupon c with
  | None | Some EmptyString =>
      Ok ({| discountCents := 0; totalCents := ck_subtotal c - 0 |}, None)
  | Some code =>
      d ← applyCoupon (inject_Z (ck_subtotal c)) code s; Ok (d, Some (toUpperCase code))
  end.

Definition order_line (l : CartLine) : OrderLine :=
  {| ol_product := p_id (cl_product l); ol_quantity := cl_quantity l;
     unitPriceCents := priceCents (cl_product l) |}.
Definition the_order (c : Checkout) (orderId : string) (d : DiscountResult) (coupon : option string)
    (payment : string) (now : Z) : Order :=
  {| o_id := orderId; o_lines := order_line <$> ck_lines c; o_currency := ck_currency c;
     o_subtotal := ck_subtotal c; o_discount := discountCents d; o_total := totalCents d;
     o_coupon := coupon; paymentId := payment; o_status := paid; o_createdAt := now |}.

(** One step of a checkout that waits for the store: the next call of it is made. [newId]
    and [now] are used when an order id or the time is asked for. *)
Definition checkout_step (c : Checkout) (newId : string) (now : Z) (w : Shop) : Shop * Checkout :=
  match ck_phase c with
  | Reserving ((p, q) :: todo) =>
      let '(s, ok) := reserveStock p q (store w) in
      if ok then
        (set_store s w, in_phase (Reserving todo) (with_reserved (ck_reserved c ++ [(p, q)]) c))
      else
        (w, in_phase (Releasing (ck_reserved c) (InsufficientStock p q 0)) c)
  | Reserving [] =>
      match price c (store w) with
      | Throw e => (w, in_phase (Releasing (ck_reserved c) e) c)
      | Ok (d, coupon) =>
          (emit (Charge (totalCents d) (ck_currency c) newId) w, in_phase (Charging newId d coupon) c)
      end
  | Committing o d coupon payment ((p, q) :: todo) =>
      (set_store (commitStock p q (store w)) w, in_phase (Committing o d coupon payment todo) c)
  | Committing o d coupon payment [] =>
      let order := the_order c o d coupon payment now in
      (emit (Placed order) (set_carts (jm_delete (ck_cart c) (carts w))
         (set_store (insertOrder order (store w)) w)), in_phase (Finished (Ok order)) c)
  | Releasing ((p, q) :: todo) e =>
      (set_store (releaseStock p q (store w)) w, in_phase (Releasing todo e) c)
  | Releasing [] (InsufficientStock p q _) =>
      (w, in_phase (Finished (Throw (InsufficientStock p q (available (getStock p (store w)))))) c)
  | Releasing [] e => (w, in_phase (Finished (Throw e)) c)
  | Charging _ _ _ | Finished _ => (w, c)
  end.

(** The gateway answers a charge. *)
Definition checkout_charged (c : Checkout) (answer : result string string) (w : Shop) : Shop * Checkout :=
  match ck_phase c with
  | Charging o d coupon =>
      match answer with
      | Ok payment =>
          (emit (Paid o payment) w, in_phase (Committing o d coupon payment (ck_reserved c)) c)
      | Throw reason => (w, in_phase (Releasing (ck_reserved c) (PaymentFailed reason)) c)
      end
  | _ => (w, c)
  end.

(** The pending store call of a checkout is rejected (not by the in-memory store): while it
    reserves, outside of the [try]. *)
Definition checkout_failed (c : Checkout) : Checkout :=
  match ck_phase c with
  | Reserving (_ :: _) | Releasing _ _ => in_phase (Finished (Throw StoreFailed)) c
  | Reserving [] => in_phase (Releasing (ck_reserved c) StoreFailed) c
  | Committing _ _ _ _ _ => in_phase (Releasing (ck_reserved c) StoreFailed) c
  | _ => c
  end.

Definition start_cancel (id : string) (w : Shop) : result commerce_error (option Cancel) :=
  id ← requireNonEmpty id "id";
  match jm_get id (orders (store w)) with
  | None => Throw (OrderNotFound id)
  | Some o =>
      match o_status o with
      | cancelled => Ok None
      | paid => Ok (Some {| cn_order := o; cn_phase := Refunding |})
      end
  end.
Definition with_status (st : OrderStatus) (o : Order) : Order :=
  {| o_id := o_id o; o_lines := o_lines o; o_currency := o_currency o; o_subtotal := o_subtotal o;
     o_discount := o_discount o; o_total := o_total o; o_coupon := o_coupon o;
     paymentId := paymentId o; o_status := st; o_createdAt := o_createdAt o |}.

(** A step of a cancellation: the gateway has answered, or a store call is made. *)
Definition cancel_step (c : Cancel) (refunded : bool) (w : Shop) : Shop * Cancel :=
  match cn_phase c with
  | Refunding =>
      if refunded then
        (emit (Refund (paymentId (cn_order c))) w,
         {| cn_order := cn_order c; cn_phase := Restocking (o_lines (cn_order c)) |})
      else (w, {| cn_order := cn_order c; cn_phase := CancelFailed (PaymentFailed "refund") |})
  | Restocking (l :: todo) =>
      match restock (ol_product l) (ol_quantity l) (store w) with
      | Ok s => (emit (Returned (ol_product l) (ol_quantity l)) (set_store s w),
                 {| cn_order := cn_order c; cn_phase := Restocking todo |})
      | Throw e => (w, {| cn_order := cn_order c; cn_phase := CancelFailed e |})
      end
  | Restocking [] =>
      (set_store (insertOrder (with_status cancelled (cn_order c)) (store w)) w,
       {| cn_order := cn_order c; cn_phase := Cancelled_ |})
  | _ => (w, c)
  end.

(** ** Events *)

Inductive event : Type :=
| CreateProduct (id name : string) (price : Q) (currency : string)
| SetPrice (id : string) (price : Q)
| Deactivate (id : string)
| Restock (id : string) (q : Q)
| CreateCoupon (code : string) (kind : CouponKind) (value : Q) (min : Z)
| AddReview (p u : string) (v : Q) (text newId : string) (now : Z)
| AddToCart (cart id : string) (q : Q)
| SetQuantity (cart id : string) (q : Q)
| RemoveFromCart (cart id : string)
| ClearCart (cart : string)
| StartCheckout (cart : string) (coupon : option string)
| Advance (k : nat) (newId : string) (now : Z)      (* the k-th checkout *)
| Charged (k : nat) (answer : result string string)
| StoreRejects (k : nat)
| StartCancel (id : string)
| AdvanceCancel (k : nat) (refunded : bool).

(** A call that throws changes nothing. *)
Definition apply_store {A} (r : result commerce_error (Store * A)) (w : Shop) : Shop :=
  match r with Ok (s, _) => set_store s w | Throw _ => w end.
Definition apply_carts (r : result commerce_error carts_t) (w : Shop) : Shop :=
  match r with Ok c => set_carts c w | Throw _ => w end.
Definition put_checkout (k : nat) (r : Shop * Checkout) : Shop :=
  set_checkouts (<[k := r.2]> (checkouts r.1)) r.1.
Definition put_cancel (k : nat) (r : Shop * Cancel) : Shop :=
  set_cancels (<[k := r.2]> (cancels r.1)) r.1.

Definition step (w : Shop) (e : event) : Shop :=
  match e with
  | CreateProduct id name pr cur => apply_store (createProduct id name pr cur (store w)) w
  | SetPrice id pr => apply_store (setPrice id pr (store w)) w
  | Deactivate id => apply_store (deactivateProduct id (store w)) w
  | Restock id q =>
      match restockProduct id q (store w) with
      | Ok (s, q) => emit (Supplied id q) (set_store s w)
      | Throw _ => w
      end
  | CreateCoupon code kind v min => apply_store (createCoupon code kind v min (store w)) w
  | AddReview p u v text newId now => apply_store (addReview p u v text newId now (store w)) w
  | AddToCart cart id q => apply_carts (addToCart cart id q (carts w) (store w)) w
  | SetQuantity cart id q => apply_carts (setQuantity cart id q (carts w) (store w)) w
  | RemoveFromCart cart id => apply_carts (removeFromCart cart id (carts w)) w
  | ClearCart cart => apply_carts (clearCart cart (carts w)) w
  | StartCheckout cart coupon =>
      match start_checkout cart coupon w with
      | Ok c => set_checkouts (checkouts w ++ [c]) w
      | Throw _ => w
      end
  | Advance k newId now =>
      match checkouts w !! k with
      | Some c => put_checkout k (checkout_step c newId now w)
      | None => w
      end
  | Charged k answer =>
      match checkouts w !! k with
      | Some c => put_checkout k (checkout_charged c answer w)
      | None => w
      end
  | StoreRejects k =>
      match checkouts w !! k with
      | Some c => put_checkout k (w, checkout_failed c)
      | None => w
      end
  | StartCancel id =>
      match start_cancel id w with
      | Ok (Some c) => set_cancels (cancels w ++ [c]) w
      | _ => w
      end
  | AdvanceCancel k refunded =>
      match cancels w !! k with
      | Some c => put_cancel k (cancel_step c refunded w)
      | None => w
      end
  end.
Definition run (w : Shop) (l : list event) : Shop := foldl step w l.

(** ** Counting stock *)




Definition total {A} (f : A → Z) (l : list A) : Z := sumZ (f <$> l).


Definition counted (r : reservation) : Prop := 0 <= r.2.



(** *** Sums *)


Lemma total_cons {A} (f : A → Z) x l : total f (x :: l) = f x + total f l.
Proof. reflexivity. Qed.
Lemma total_nonneg {A} (f : A → Z) l : Forall (λ y, 0 <= f y) l → 0 <= total f l.
Proof. induction 1; [done|]. rewrite total_cons. lia. Qed.



(** *** The stock under the store's operations *)






(** *** One checkout *)






(** *** The shop *)




Abbreviation carts_counted cs := (jm_all (K:=string) (Forall counted) cs).

Lemma cart_counted id (cs : carts_t) : carts_counted cs → Forall counted (default [] (jm_get id cs)).
Proof. intros H. destruct (jm_get id cs) eqn:E; [by eapply jm_all_get|constructor]. Qed.

Lemma entries_counted (entries : list reservation) : Forall counted entries ↔ jm_all (λ q, 0 <= q) entries.
Proof. done. Qed.


Lemma requireCount_pos q f z : requireCount q f = Ok z → 0 < z.
Proof.
  unfold requireCount. destruct (integer_of q) as [z'|]; [|done].
  destruct (Z.leb_spec z' 0); [done|]. by intros [= <-].
Qed.

Lemma default_counted id entries : Forall counted entries → 0 <= default 0 (jm_get id entries).
Proof.
  intros He%entries_counted. destruct (jm_get id entries) as [q|] eqn:E; [|done].
  exact (jm_all_get _ _ _ _ He E).
Qed.

Lemma addToCart_counted cart id q cs s cs' :
  carts_counted cs → addToCart cart id q cs s = Ok cs' → carts_counted cs'.
Proof.
  intros Hcs. unfold addToCart.
  intros (cart' & Hc & (p & Hp & H)%result_bind_ok)%result_bind_ok. destruct (negb _); [done|].
  apply result_bind_ok in H as (z & Hz & (u & _ & [= <-])%result_bind_ok).
  apply requireCount_pos in Hz. pose proof (cart_counted cart' cs Hcs) as He.
  apply jm_all_set; [done|]. apply entries_counted, jm_all_set; [done|].
  pose proof (default_counted id _ He). lia.
Qed.

Lemma setQuantity_counted cart id q cs s cs' :
  carts_counted cs → setQuantity cart id q cs s = Ok cs' → carts_counted cs'.
Proof.
  intros Hcs. unfold setQuantity.
  intros (cart' & Hc & (p & Hp & [= <-])%result_bind_ok)%result_bind_ok.
  pose proof (cart_counted cart' cs Hcs) as He%entries_counted.
  destruct (Qle_bool q 0) eqn:E; (apply jm_all_set; [done|]); apply entries_counted;
    [by apply jm_all_delete|apply jm_all_set; [done|]].
  assert (0 < q)%Q as Hq.
  { apply Qnot_le_lt. intros H. apply Qle_bool_iff in H. congruence. }
  change 0 with (Qfloor 0). apply Qfloor_resp_le. by apply Qlt_le_weak.
Qed.

Lemma removeFromCart_counted cart id cs cs' :
  carts_counted cs → removeFromCart cart id cs = Ok cs' → carts_counted cs'.
Proof.
  intros Hcs. unfold removeFromCart. intros (cart' & Hc & [= <-])%result_bind_ok.
  pose proof (cart_counted cart' cs Hcs) as He%entries_counted.
  apply jm_all_set; [done|]. apply entries_counted. by apply jm_all_delete.
Qed.

Lemma clearCart_counted cart cs cs' :
  carts_counted cs → clearCart cart cs = Ok cs' → carts_counted cs'.
Proof.
  intros Hcs. unfold clearCart. intros (cart' & Hc & [= <-])%result_bind_ok. by apply jm_all_delete.
Qed.



Definition fault_free (e : event) : Prop := match e with StoreRejects _ => False | _ => True end.



















(** *** Returns *)





















(** ** Money *)

Definition line_ok (l : CartLine) : Prop :=
  0 <= priceCents (cl_product l) ∧ 0 <= cl_quantity l ∧
  lineTotalCents l = priceCents (cl_product l) * cl_quantity l.
Definition coupon_ok (c : Coupon) : Prop :=
  match c_kind c with
  | percent => (0 <= c_value c)%Q ∧ (c_value c <= 100)%Q
  | fixed => 0 <= Qfloor (c_value c)
  end.
Definition cart_ok (lines : list CartLine) (subtotal : Z) : Prop :=
  Forall line_ok lines ∧ subtotal = sumZ (lineTotalCents <$> lines).
Definition discount_ok (subtotal : Z) (d : DiscountResult) : Prop :=
  0 <= discountCents d <= subtotal ∧ totalCents d = subtotal - discountCents d.

Definition order_amount (l : OrderLine) : Z := unitPriceCents l * ol_quantity l.
Definition order_priced (o : Order) : Prop :=
  o_lines o ≠ [] ∧ o_subtotal o = sumZ (order_amount <$> o_lines o) ∧
  0 <= o_discount o <= o_subtotal o ∧ o_total o = o_subtotal o - o_discount o.

(** What was asked of the gateway for a checkout, and what it has answered. *)
Definition money_in (c : Checkout) (es : list effect) : Prop :=
  ck_lines c ≠ [] ∧ cart_ok (ck_lines c) (ck_subtotal c) ∧
  match ck_phase c with
  | Charging o d _ => discount_ok (ck_subtotal c) d ∧ Charge (totalCents d) (ck_currency c) o ∈ es
  | Committing o d _ pay _ =>
      discount_ok (ck_subtotal c) d ∧ Charge (totalCents d) (ck_currency c) o ∈ es ∧ Paid o pay ∈ es
  | _ => True
  end.

Definition placed_ok (es : list effect) (e : effect) : Prop :=
  match e with
  | Placed o => order_priced o ∧ Charge (o_total o) (o_currency o) (o_id o) ∈ es ∧
                Paid (o_id o) (paymentId o) ∈ es
  | _ => True
  end.

Record store_priced (s : Store) : Prop := {
  sp_products : jm_all (λ p, 0 <= priceCents p) (products s);
  sp_coupons : jm_all coupon_ok (coupons s)
}.
Record money_ok (w : Shop) : Prop := {
  mo_store : store_priced (store w);
  mo_carts : carts_counted (carts w);
  mo_checkouts : Forall (λ c, money_in c (effects w)) (checkouts w);
  mo_placed : Forall (placed_ok (effects w)) (effects w)
}.

Lemma money_in_more c es es' : es ⊆ es' → money_in c es → money_in c es'.
Proof. unfold money_in. destruct (ck_phase c); set_solver. Qed.
Lemma placed_ok_more e es es' : es ⊆ es' → placed_ok es e → placed_ok es' e.
Proof. unfold placed_ok. destruct e; set_solver. Qed.

Lemma integer_of_floor q z : integer_of q = Some z → Qfloor q = z.
Proof.
  unfold integer_of. case_decide as H; [|done]. intros [= <-].
  rewrite <-(Qfloor_comp _ _ (Qred_correct q)). destruct (Qred q) as [n d]. cbn in *. subst d.
  by rewrite Z.div_1_r.
Qed.
Lemma requireMoney_ok q f z : requireMoney q f = Ok z → 0 <= z ∧ Qfloor q = z.
Proof.
  unfold requireMoney. destruct (integer_of q) as [z'|] eqn:E; [|done].
  destruct (Z.ltb_spec z' 0); [done|]. intros [= <-]. split; [done|]. by apply integer_of_floor.
Qed.

Lemma discount_of_ok c subtotal : coupon_ok c → 0 <= subtotal → 0 <= discount_of c subtotal <= subtotal.
Proof.
  unfold coupon_ok, discount_of. intros Hc Hs. destruct (c_kind c); [|lia]. destruct Hc as [H0 H100].
  assert (0 <= inject_Z subtotal)%Q as Hs' by (change 0%Q with (inject_Z 0); by rewrite <-Zle_Qle).
  assert (0 <= inject_Z subtotal * c_value c / 100)%Q as Hlow.
  { apply Qle_shift_div_l; [done|]. rewrite Qmult_0_l. by apply Qmult_le_0_compat. }
  assert (inject_Z subtotal * c_value c / 100 <= inject_Z subtotal)%Q as Hhigh.
  { apply Qle_shift_div_r; [done|]. rewrite !(Qmult_comm (inject_Z subtotal)).
    by apply Qmult_le_compat_r. }
  split; [change 0 with (Qfloor 0)|rewrite <-(Qfloor_Z subtotal) at 2]; by apply Qfloor_resp_le.
Qed.

Lemma applyCoupon_ok s subtotal code d :
  store_priced s → applyCoupon (inject_Z subtotal) code s = Ok d → discount_ok subtotal d.
Proof.
  intros [_ Hc]. unfold applyCoupon. intros (z & [Hz <-]%requireMoney_ok & H)%result_bind_ok.
  rewrite Qfloor_Z in *. apply result_bind_ok in H as (code' & _ & H).
  destruct (jm_get (toUpperCase code') (coupons s)) as [c|] eqn:E; [|done].
  destruct (negb (c_active c)); [done|]. destruct (subtotal <? minSubtotalCents c); [done|].
  injection H as <-. split; [|done]. apply discount_of_ok; [|done]. exact (jm_all_get _ _ _ _ Hc E).
Qed.

Lemma cart_ok_nonneg lines subtotal : cart_ok lines subtotal → 0 <= subtotal.
Proof.
  intros [Hl ->]. apply (total_nonneg lineTotalCents). eapply Forall_impl; [exact Hl|].
  intros l (H1 & H2 & ->). by apply Z.mul_nonneg_nonneg.
Qed.

Lemma price_ok c s d cp :
  store_priced s → cart_ok (ck_lines c) (ck_subtotal c) → price c s = Ok (d, cp) →
  discount_ok (ck_subtotal c) d.
Proof.
  intros Hs Hcart%cart_ok_nonneg. unfold price, discount_ok.
  assert (discount_ok (ck_subtotal c) {| discountCents := 0; totalCents := ck_subtotal c - 0 |}) as H0
    by (split; cbn; lia).
  destruct (ck_coupon c) as [[|a code]|]; [by intros [= <- <-]| |by intros [= <- <-]].
  intros (d' & Hd & [= <- <-])%result_bind_ok. by eapply applyCoupon_ok.
Qed.

Lemma read_cart_ok s entries :
  store_priced s → Forall counted entries →
  Forall line_ok (read_cart s entries).1.1 ∧
  (read_cart s entries).1.2 = sumZ (lineTotalCents <$> (read_cart s entries).1.1).
Proof.
  intros [Hp _]. induction 1 as [|[id q] entries Hq _ IH]; [split; [constructor|done]|]. cbn [read_cart].
  destruct (read_cart s entries) as [[lines sub] cur]. cbn [fst snd] in IH. destruct IH as [IH1 IH2].
  destruct (getProduct id s) as [p|] eqn:E; [|done]. cbn [fst snd]. split.
  - constructor; [|done]. split; [|by split]. exact (jm_all_get _ _ _ _ Hp E).
  - rewrite IH2. reflexivity.
Qed.

Lemma getCart_ok id cs s c :
  store_priced s → carts_counted cs → getCart id cs s = Ok c → cart_ok (cart_lines c) (subtotalCents c).
Proof.
  intros Hs Hcs. unfold getCart. intros (id' & _ & H)%result_bind_ok.
  destruct (read_cart_ok s _ Hs (cart_counted id' cs Hcs)) as [H1 H2].
  destruct (read_cart s _) as [[lines sub] cur]. injection H as <-. cbn in *. split; cbn [cart_lines subtotalCents].
  - by rewrite merge_sort_Permutation.
  - rewrite H2. unfold sumZ. by rewrite (merge_sort_Permutation line_le lines).
Qed.

(** Calls that write products or coupons. *)
Definition keeps_prices {A} (s : Store) (r : result commerce_error (Store * A)) : Prop :=
  store_priced s → match r with Ok (s', _) => store_priced s' | Throw _ => True end.

Lemma requireProduct_get id s p : requireProduct id s = Ok p → getProduct id s = Some p.
Proof.
  unfold requireProduct, requireNonEmpty. case_decide; [done|]. cbn.
  destruct (getProduct id s); [|done]. by intros [= ->].
Qed.
Lemma store_priced_stock s t : store_priced s → store_priced (set_stock t s).
Proof. by intros [? ?]. Qed.
Lemma store_priced_product s p : 0 <= priceCents p → store_priced s → store_priced (insertProduct p s).
Proof. intros Hp [? ?]. split; [|done]. by apply jm_all_set. Qed.

Lemma createProduct_prices id name pr cur s : keeps_prices s (createProduct id name pr cur s).
Proof.
  intros Hs. destruct (createProduct id name pr cur s) as [[s' p]|] eqn:E; [|done].
  unfold createProduct in E. apply result_bind_ok in E as (n & _ & E).
  apply result_bind_ok in E as (z & [Hz _]%requireMoney_ok & [= <- _]).
  unfold initStock. destruct (jm_has _ _); [|apply store_priced_stock]; by apply store_priced_product.
Qed.
Lemma setPrice_prices id pr s : keeps_prices s (setPrice id pr s).
Proof.
  intros Hs. destruct (setPrice id pr s) as [[s' p]|] eqn:E; [|done].
  unfold setPrice in E. apply result_bind_ok in E as (n & _ & E).
  apply result_bind_ok in E as (z & [Hz _]%requireMoney_ok & [= <- _]).
  by apply store_priced_product.
Qed.
Lemma deactivate_prices id s : keeps_prices s (deactivateProduct id s).
Proof.
  intros Hs. destruct (deactivateProduct id s) as [[s' p]|] eqn:E; [|done].
  unfold deactivateProduct in E. apply result_bind_ok in E as (n & Hn & [= <- _]).
  apply store_priced_product; [|done]. cbn. apply requireProduct_get in Hn.
  exact (jm_all_get _ _ _ _ (sp_products _ Hs) Hn).
Qed.
Lemma createCoupon_prices code kind v min s : keeps_prices s (createCoupon code kind v min s).
Proof.
  intros Hs. destruct (createCoupon code kind v min s) as [[s' c]|] eqn:E; [|done].
  unfold createCoupon in E. apply result_bind_ok in E as (n & _ & E).
  assert (∀ c, coupon_ok c → store_priced (insertCoupon c s)) as Hins.
  { destruct Hs. intros c' Hc'. split; [done|]. by apply jm_all_set. }
  destruct kind.
  - destruct (Qle_bool v 0) eqn:E0; [done|]. destruct (Qle_bool v 100) eqn:E1; [|done].
    injection E as <- _. apply Hins. split; cbn; [|by apply Qle_bool_iff].
    apply Qlt_le_weak, Qnot_le_lt. intros H%Qle_bool_iff. congruence.
  - apply result_bind_ok in E as (z & [Hz Hv]%requireMoney_ok & [= <- _]). apply Hins. cbn. congruence.
Qed.
Lemma addReview_prices p u v text newId now s : keeps_prices s (addReview p u v text newId now s).
Proof.
  intros Hs. unfold addReview. destruct (requireProduct _ _); [|done]. cbn [mbind result_bind].
  destruct (requireNonEmpty _ _); [|done]. cbn [mbind result_bind].
  destruct (integer_of v); [|done]. destruct (_ || _); [done|]. by destruct Hs.
Qed.

Lemma money_ok_store s w : store_priced s → money_ok w → money_ok (set_store s w).
Proof. by intros Hs [? ? ? ?]. Qed.
Lemma money_ok_apply_store {A} (r : result commerce_error (Store * A)) w :
  keeps_prices (store w) r → money_ok w → money_ok (apply_store r w).
Proof.
  intros Hr Hw. unfold apply_store. destruct r as [[s a]|]; [|done].
  apply money_ok_store; [|done]. apply Hr, Hw.
Qed.
Lemma money_ok_apply_carts r w :
  (∀ cs, r = Ok cs → carts_counted cs) → money_ok w → money_ok (apply_carts r w).
Proof. unfold apply_carts. destruct r as [cs|]; [|done]. intros H [? ? ? ?]. split; auto. Qed.

Lemma restock_priced p q s s' : store_priced s → restock p q s = Ok s' → store_priced s'.
Proof.
  intros Hs. unfold restock. destruct (jm_get p (stock s)) as [[oh rs]|]; [|done]. intros [= <-].
  by apply store_priced_stock.
Qed.

Lemma money_ok_emit e w : placed_ok (effects w) e → money_ok w → money_ok (emit e w).
Proof.
  intros He [Hs Hc Hck Hp]. split; [done|done|..]; cbn [emit checkouts effects].
  - eapply Forall_impl; [exact Hck|]. intros c. apply money_in_more. set_solver.
  - apply Forall_app. split; [|constructor; [|done]].
    + eapply Forall_impl; [exact Hp|]. intros e'. apply placed_ok_more. set_solver.
    + eapply placed_ok_more; [|exact He]. set_solver.
Qed.
Lemma money_ok_put k c w :
  money_in c (effects w) → money_ok w → money_ok (put_checkout k (w, c)).
Proof. intros Hc [? ? ? ?]. split; try done. cbn. by apply Forall_insert. Qed.
Lemma money_ok_cancels cs w : money_ok w → money_ok (set_cancels cs w).
Proof. by intros [? ? ? ?]. Qed.

Lemma order_priced_of c o d cp pay now :
  ck_lines c ≠ [] → cart_ok (ck_lines c) (ck_subtotal c) → discount_ok (ck_subtotal c) d →
  order_priced (the_order c o d cp pay now).
Proof.
  intros Hne [Hl Hsub] [Hd Ht]. split_and!; [by intros ?%fmap_nil_inv| |cbn; lia..|done]. cbn.
  rewrite Hsub, <-list_fmap_compose. f_equal. clear -Hl.
  induction Hl as [|l ls (_ & _ & E) _ IH]; [done|]. cbn. f_equal; [exact E|exact IH].
Qed.

Lemma checkout_step_money k c newId now w :
  money_ok w → money_in c (effects w) → money_ok (put_checkout k (checkout_step c newId now w)).
Proof.
  intros Hw (Hne & Hcart & Hph). unfold checkout_step.
  destruct (ck_phase c) as [[|[p q] todo]|o d cp|o d cp pay [|[p q] todo]|[|[p q] todo] e|r] eqn:Eph.
  - destruct (price c (store w)) as [[d cp]|e] eqn:Ep; [|by apply money_ok_put].
    apply price_ok in Ep; [|apply Hw|done]. apply money_ok_put; [|by apply money_ok_emit].
    split_and!; [done|done|]. cbn. set_solver.
  - destruct (reserveStock p q (store w)) as [s ok] eqn:Er. destruct ok; [|by apply money_ok_put].
    apply money_ok_put; [done|]. apply money_ok_store; [|done].
    unfold reserveStock in Er. destruct (jm_get p (stock (store w))) as [[oh rs]|]; [|done].
    destruct (oh - rs <? q); [done|]. injection Er as <-. apply store_priced_stock, Hw.
  - apply money_ok_put; [|done]. split_and!; [done..|]. by rewrite Eph.
  - destruct Hph as (Hd & Hcharge & Hpaid). apply money_ok_put; [done|]. apply money_ok_emit.
    + split; [by apply order_priced_of|]. by destruct Hd as [_ Hd].
    + destruct Hw as [[? ?] Hc Hck Hp]. split; [done|by apply jm_all_delete|done..].
  - apply money_ok_put; [done|]. apply money_ok_store; [|done]. unfold commitStock.
    destruct (jm_get p _) as [[? ?]|]; [apply store_priced_stock|]; apply Hw.
  - destruct e; by apply money_ok_put.
  - apply money_ok_put; [done|]. apply money_ok_store; [|done]. unfold releaseStock.
    destruct (jm_get p _) as [[? ?]|]; [apply store_priced_stock|]; apply Hw.
  - apply money_ok_put; [|done]. split_and!; [done..|]. by rewrite Eph.
Qed.

Lemma checkout_charged_money k c answer w :
  money_ok w → money_in c (effects w) → money_ok (put_checkout k (checkout_charged c answer w)).
Proof.
  intros Hw Hc. pose proof Hc as (Hne & Hcart & Hph). unfold checkout_charged.
  destruct (ck_phase c) eqn:Eph; try by apply money_ok_put.
  destruct answer as [pay|e]; [|by apply money_ok_put].
  apply money_ok_put; [|by apply money_ok_emit]. split_and!; [done|done|]. cbn. set_solver.
Qed.

Lemma cancel_step_money k c refunded w : money_ok w → money_ok (put_cancel k (cancel_step c refunded w)).
Proof.
  intros Hw. apply money_ok_cancels. unfold cancel_step.
  destruct (cn_phase c) as [|[|l todo]| |e]; try done.
  - destruct refunded; [|done]. by apply money_ok_emit.
  - apply money_ok_store; [|done]. by destruct Hw as [[? ?] ? ? ?].
  - destruct (restock _ _ _) as [s|] eqn:E; [|done]. apply money_ok_emit; [done|].
    apply money_ok_store; [|done]. eapply restock_priced; [|exact E]. apply Hw.
Qed.

Lemma step_money w e : money_ok w → money_ok (step w e).
Proof.
  intros Hw. pose proof (mo_carts w Hw) as Hcarts. destruct e; cbn [step].
  - by apply money_ok_apply_store; [apply createProduct_prices|].
  - by apply money_ok_apply_store; [apply setPrice_prices|].
  - by apply money_ok_apply_store; [apply deactivate_prices|].
  - destruct (restockProduct id q (store w)) as [[s z]|] eqn:E; [|done]. apply money_ok_emit; [done|].
    apply money_ok_store; [|done]. unfold restockProduct in E. apply result_bind_ok in E as (p & _ & E).
    apply result_bind_ok in E as (z' & _ & E). apply result_bind_ok in E as (s' & Hs & [= -> ->]).
    eapply restock_priced; [apply Hw|exact Hs].
  - by apply money_ok_apply_store; [apply createCoupon_prices|].
  - by apply money_ok_apply_store; [apply addReview_prices|].
  - apply money_ok_apply_carts; [|done]. intros cs. by apply addToCart_counted.
  - apply money_ok_apply_carts; [|done]. intros cs. by apply setQuantity_counted.
  - apply money_ok_apply_carts; [|done]. intros cs. by apply removeFromCart_counted.
  - apply money_ok_apply_carts; [|done]. intros cs. by apply clearCart_counted.
  - destruct (start_checkout cart coupon w) as [c|] eqn:E; [|done].
    unfold start_checkout in E. apply result_bind_ok in E as (k & Hk & E).
    apply getCart_ok in Hk; [|apply Hw|done].
    destruct (cart_lines k) as [|l lines] eqn:El; [done|]. injection E as <-.
    destruct Hw as [Hs Hc Hck Hp]. split; try done. cbn. apply Forall_app. split; [done|].
    constructor; [|done]. by split_and!.
  - destruct (checkouts w !! k) as [c|] eqn:Ek; [|done]. apply checkout_step_money; [done|].
    pose proof (mo_checkouts w Hw) as H. rewrite Forall_lookup in H. by eapply H.
  - destruct (checkouts w !! k) as [c|] eqn:Ek; [|done]. apply checkout_charged_money; [done|].
    pose proof (mo_checkouts w Hw) as H. rewrite Forall_lookup in H. by eapply H.
  - destruct (checkouts w !! k) as [c|] eqn:Ek; [|done]. apply money_ok_put; [|done].
    pose proof (mo_checkouts w Hw) as H. rewrite Forall_lookup in H. specialize (H _ _ Ek).
    destruct H as (H1 & H2 & H3). unfold checkout_failed.
    by destruct (ck_phase c) as [[|x todo]| | | |] eqn:Eph; (split_and!; [done..|]); rewrite ?Eph.
  - destruct (start_cancel id w) as [[c|]|]; [|done..]. by apply money_ok_cancels.
  - destruct (cancels w !! k) as [c|]; [|done]. by apply cancel_step_money.
Qed.

Lemma run_money l : ∀ w, money_ok w → money_ok (run w l).
Proof. induction l as [|e l IH]; intros w Hw; [done|]. by apply IH, step_money. Qed.

(** every order that was ever placed has lines, its subtotal is the sum of its lines'
    prices, the discount is between nothing and the subtotal, the total is the rest, and
    the gateway was asked for exactly that total under the order's id and has paid it. *)
Theorem order_totals l o :
  let w := run empty_shop l in
  Placed o ∈ effects w →
  o_lines o ≠ [] ∧ o_subtotal o = sumZ (order_amount <$> o_lines o) ∧
  0 <= o_discount o <= o_subtotal o ∧ o_total o = o_subtotal o - o_discount o ∧
  Charge (o_total o) (o_currency o) (o_id o) ∈ effects w ∧ Paid (o_id o) (paymentId o) ∈ effects w.
Proof.
  intros w Ho. assert (money_ok w) as [_ _ _ Hp].
  { apply run_money. split; [split|..]; cbn; by apply Forall_nil. }
  rewrite Forall_forall in Hp. destruct (Hp _ Ho) as ((H1 & H2 & H3 & H4) & H5 & H6). done.
Qed.

(** ** Payments and orders *)

Definition paid_of (e : effect) : option (string * string) :=
  match e with Paid r p => Some (r, p) | _ => None end.
Definition placed_of (e : effect) : option (string * string) :=
  match e with Placed o => Some (o_id o, paymentId o) | _ => None end.
Definition committing (c : Checkout) : option (string * string) :=
  match ck_phase c with Committing o _ _ p _ => Some (o, p) | _ => None end.

Definition settled (w : Shop) : Prop :=
  omap paid_of (effects w) ≡ₚ omap placed_of (effects w) ++ omap committing (checkouts w).

Lemma omap_insert_perm {A B} (f : A → option B) (k : nat) (x y : A) (l : list A) :
  l !! k = Some x → option_list (f x) ++ omap f (<[k := y]> l) ≡ₚ option_list (f y) ++ omap f l.
Proof.
  intros Hk. rewrite (insert_take_drop l k y) by (by apply lookup_lt_Some in Hk).
  rewrite <-(take_drop_middle l k x Hk) at 3. rewrite !omap_app. cbn [omap list_omap].
  destruct (f x), (f y); cbn; solve_Permutation.
Qed.

Lemma option_list_app_inv {B} (o : option B) l l' : option_list o ++ l ≡ₚ option_list o ++ l' → l ≡ₚ l'.
Proof. apply Permutation_app_inv_l. Qed.

(** What a step of a checkout does to the payments. *)
Definition settles (w w' : Shop) (c c' : Checkout) : Prop :=
  ∃ e, effects w' = effects w ++ e ∧ checkouts w' = checkouts w ∧
    omap paid_of e ++ option_list (committing c) ≡ₚ omap placed_of e ++ option_list (committing c').

Lemma settled_put k c c' w w' :
  settled w → checkouts w !! k = Some c → settles w w' c c' → settled (put_checkout k (w', c')).
Proof.
  unfold settled. intros Hs Hk (e & He & Hc & Hp). cbn. rewrite He, Hc, !omap_app, Hs.
  pose proof (omap_insert_perm committing k c c' _ Hk) as Hi.
  apply (Permutation_app_inv_l (option_list (committing c))).
  rewrite (Permutation_app_comm (option_list (committing c))), <-!app_assoc, Hp.
  rewrite (Permutation_app_comm (omap placed_of (effects w))) at 1.
  transitivity (omap placed_of e ++ omap placed_of (effects w) ++ option_list (committing c') ++ omap committing (checkouts w));
    [solve_Permutation|]. rewrite <-Hi. solve_Permutation.
Qed.

Lemma settles_same w w' c c' :
  effects w' = effects w → checkouts w' = checkouts w → committing c' = committing c → settles w w' c c'.
Proof. intros He Hc Hm. exists []. by rewrite He, app_nil_r, Hm. Qed.

Lemma checkout_step_settles c newId now w :
  settles w (checkout_step c newId now w).1 c (checkout_step c newId now w).2.
Proof.
  unfold checkout_step.
  destruct (ck_phase c) as [[|[p q] todo]|o d cp|o d cp pay [|[p q] todo]|[|[p q] todo] e|r] eqn:Eph.
  - destruct (price c (store w)) as [[d cp]|e]; [|apply settles_same; try done; unfold committing; by rewrite Eph].
    eexists. split; [done|]. split; [done|]. unfold committing. by rewrite Eph.
  - destruct (reserveStock p q (store w)) as [s []];
      (apply settles_same; [done..|]; unfold committing; by rewrite Eph).
  - by apply settles_same.
  - eexists. split; [done|]. split; [done|]. unfold committing. by rewrite Eph.
  - apply settles_same; [done..|]. unfold committing. by rewrite Eph.
  - destruct e; (apply settles_same; [done..|]; unfold committing; by rewrite Eph).
  - apply settles_same; [done..|]. unfold committing. by rewrite Eph.
  - by apply settles_same.
Qed.

Lemma checkout_charged_settles c answer w :
  settles w (checkout_charged c answer w).1 c (checkout_charged c answer w).2.
Proof.
  unfold checkout_charged. destruct (ck_phase c) eqn:Eph; try by apply settles_same.
  destruct answer as [pay|e]; [|apply settles_same; try done; unfold committing; by rewrite Eph].
  eexists. split; [done|]. split; [done|]. unfold committing. by rewrite Eph.
Qed.

(** Anything else neither pays nor places. *)
Lemma settled_same w w' es :
  settled w → effects w' = effects w ++ es → omap paid_of es = [] → omap placed_of es = [] →
  checkouts w' = checkouts w → settled w'.
Proof. unfold settled. intros Hs -> H1 H2 ->. by rewrite !omap_app, H1, H2, !app_nil_r. Qed.

Lemma step_settled w e : fault_free e → settled w → settled (step w e).
Proof.
  intros Hf Hs.
  assert (∀ {A} (r : result commerce_error (Store * A)), settled (apply_store r w)) as Happly.
  { intros A [[s a]|]; [|done]. by apply (settled_same w _ []); rewrite ?app_nil_r. }
  assert (∀ r, settled (apply_carts r w)) as Hcarts.
  { intros [s|]; [|done]. by apply (settled_same w _ []); rewrite ?app_nil_r. }
  destruct e; cbn [step]; try done.
  - destruct (restockProduct id q (store w)) as [[s z]|]; [|done]. by eapply settled_same.
  - destruct (start_checkout cart coupon w) as [c|] eqn:E; [|done].
    unfold settled. cbn. rewrite omap_app. cbn. unfold start_checkout in E.
    apply result_bind_ok in E as (k & _ & E). destruct (cart_lines k); [done|]. injection E as <-.
    cbn. by rewrite app_nil_r.
  - destruct (checkouts w !! k) as [c|] eqn:Ek; [|done].
    pose proof (checkout_step_settles c newId now w) as H.
    destruct (checkout_step c newId now w). by eapply settled_put.
  - destruct (checkouts w !! k) as [c|] eqn:Ek; [|done].
    pose proof (checkout_charged_settles c answer w) as H.
    destruct (checkout_charged c answer w). by eapply settled_put.
  - destruct (start_cancel id w) as [[c|]|]; done.
  - destruct (cancels w !! k) as [c|]; [|done]. unfold cancel_step.
    destruct (cn_phase c) as [|[|l todo]| |e]; try done.
    + destruct refunded; [|done]. by eapply settled_same.
    + destruct (restock _ _ _); [|done]. by eapply settled_same.
Qed.

(** payments and orders correspond one to one: every payment received is that of exactly
    one placed order, or of a checkout that is still committing; and no order is placed
    without one. *)
Theorem paid_iff_placed l :
  Forall fault_free l →
  let w := run empty_shop l in
  omap paid_of (effects w) ≡ₚ omap placed_of (effects w) ++ omap committing (checkouts w).
Proof.
  intros Hl. change (settled (run empty_shop l)). assert (settled empty_shop) as H0 by constructor.
  revert H0. generalize empty_shop. induction Hl as [|e l He _ IH]; intros w Hw; [done|].
  by apply IH, step_settled.
Qed.

(** ** Termination *)

(** What a checkout waits for is given: its store call returns, or the gateway answers. *)
Record turn : Type := { t_shop : Shop; t_answer : result string string; t_id : string; t_now : Z }.
Definition take_turn (c : Checkout) (t : turn) : Checkout :=
  match ck_phase c with
  | Charging _ _ _ => (checkout_charged c (t_answer t) (t_shop t)).2
  | _ => (checkout_step c (t_id t) (t_now t) (t_shop t)).2
  end.

Definition steps_left (c : Checkout) : nat :=
  let n := length (ck_lines c) in
  match ck_phase c with
  | Reserving todo => length todo + n + 3
  | Charging _ _ _ => n + 2
  | Committing _ _ _ _ todo | Releasing todo _ => length todo + 1
  | Finished _ => 0
  end.

Definition reserved_within (c : Checkout) : Prop :=
  match ck_phase c with
  | Reserving todo => (length (ck_reserved c) + length todo = length (ck_lines c))%nat
  | Charging _ _ _ => (length (ck_reserved c) <= length (ck_lines c))%nat
  | _ => True
  end.

Lemma take_turn_left c t :
  reserved_within c →
  reserved_within (take_turn c t) ∧
  ((steps_left (take_turn c t) < steps_left c)%nat ∨ (steps_left c = 0 ∧ take_turn c t = c)%nat).
Proof.
  intros Hr. unfold take_turn, checkout_step, checkout_charged, reserved_within, steps_left in *.
  destruct (ck_phase c) as [[|[p q] todo]|o d cp|o d cp pay [|[p q] todo]|[|[p q] todo] e|r] eqn:Eph; cbn in Hr.
  - destruct (price c _) as [[d cp]|e]; cbn; lia.
  - destruct (reserveStock p q _) as [s []]; cbn; rewrite ?length_app; cbn; lia.
  - destruct (t_answer t); cbn; lia.
  - cbn; lia.
  - cbn; lia.
  - destruct e; cbn; lia.
  - cbn; lia.
  - cbn. rewrite Eph. auto.
Qed.

(** a checkout ends, whatever others do to the shop between its steps: after two turns
    per line of the cart and three more it has placed its order or thrown. *)
Theorem checkout_terminates cart coupon w c ts :
  start_checkout cart coupon w = Ok c →
  (2 * length (ck_lines c) + 3 <= length ts)%nat →
  ∃ r, ck_phase (foldl take_turn c ts) = Finished r.
Proof.
  intros Hc Hlen.
  assert (reserved_within c ∧ (steps_left c <= length ts)%nat) as [Hr Hleft].
  { unfold start_checkout in Hc. apply result_bind_ok in Hc as (k & _ & Hc).
    destruct (cart_lines k) as [|x lines]; [done|]. injection Hc as <-.
    unfold reserved_within, steps_left. cbn in Hlen. cbn. rewrite length_fmap. lia. }
  clear Hc Hlen. revert c Hr Hleft. induction ts as [|t ts IH]; intros c Hr Hleft.
  - cbn in *. unfold steps_left in Hleft. destruct (ck_phase c) eqn:E; try lia. by eexists.
  - cbn [foldl]. destruct (take_turn_left c t Hr) as [Hr' Hl]. apply IH; [done|]. cbn in Hleft.
    destruct Hl as [Hl|[Hl ->]]; lia.
Qed.

(** ** Concrete runs *)

Definition refund_of (e : effect) : option string := match e with Refund p => Some p | _ => None end.
Definition charge_of (e : effect) : option (Z * string) :=
  match e with Charge a cur _ => Some (a, cur) | _ => None end.
Definition opening : list event :=
  [CreateProduct "p" "Pen" 250 "USD"; Restock "p" 3; CreateCoupon "ten" percent 10 0; AddToCart "c" "p" 2].
(** A checkout of one line, number [k], under the order id [o]. *)
Definition buy (k : nat) (o pay : string) : list event :=
  [Advance k o 7; Advance k o 7; Charged k (Ok pay); Advance k o 7; Advance k o 7].
Definition sale : list event := opening ++ StartCheckout "c" (Some "ten"%string) :: buy 0 "o1" "pay1".

Example sale_effects :
  effects (run empty_shop sale) =
    [Supplied "p" 3; Charge 450 "USD" "o1"; Paid "o1" "pay1";
     Placed {| o_id := "o1"; o_lines := [{| ol_product := "p"; ol_quantity := 2; unitPriceCents := 250 |}];
               o_currency := "USD"; o_subtotal := 500; o_discount := 50; o_total := 450;
               o_coupon := Some "TEN"%string; paymentId := "pay1"; o_status := paid; o_createdAt := 7 |}].
Proof. vm_compute. reflexivity. Qed.

(** Two cancellations of one order that overlap: both see it as paid, so that the payment is
    refunded and the goods put back twice; three pens were delivered and five are on hand. *)
Theorem cancelled_twice :
  let w := run empty_shop (sale ++ [StartCancel "o1"; StartCancel "o1"; AdvanceCancel 0 true;
    AdvanceCancel 1 true; AdvanceCancel 0 true; AdvanceCancel 1 true; AdvanceCancel 0 true; AdvanceCancel 1 true]) in
  omap refund_of (effects w) = ["pay1"; "pay1"]%string ∧
  onHand (getStock "p" (store w)) = 5.
Proof. vm_compute. done. Qed.

(** Two checkouts of one cart that overlap, as after a second click: the cart is cleared only
    at the end, and the customer pays for two orders. *)
Theorem cart_bought_twice :
  let w := run empty_shop (opening ++ [Restock "p" 1; StartCheckout "c" None; StartCheckout "c" None] ++
    buy 0 "o1" "pay1" ++ buy 1 "o2" "pay2") in
  omap placed_of (effects w) = [("o1", "pay1"); ("o2", "pay2")]%string.
Proof. vm_compute. reflexivity. Qed.

(** A store that fails after the payment: the payment is kept, there is no order, and
    nothing is refunded. *)
Theorem paid_without_order :
  let w := run empty_shop (opening ++ StartCheckout "c" None :: take 4 (buy 0 "o1" "pay1") ++
    [StoreRejects 0; Advance 0 "o1" 7; Advance 0 "o1" 7]) in
  omap paid_of (effects w) = [("o1", "pay1")]%string ∧ orders (store w) = [] ∧
  (ck_phase <$> checkouts w) = [Finished (Throw StoreFailed)] ∧ onHand (getStock "p" (store w)) = 1.
Proof. vm_compute. done. Qed.

(** [setQuantity] puts a product in the cart without the checks of [addToCart]: an inactive
    product in another currency is bought, and the sum of dollars and yen charged as yen. *)
Theorem mixed_currencies :
  let w := run empty_shop (opening ++ [CreateProduct "q" "Book" 1000 "JPY"; Restock "q" 1; Deactivate "q";
    SetQuantity "c" "q" 1; StartCheckout "c" None; Advance 0 "o1" 7; Advance 0 "o1" 7; Advance 0 "o1" 7]) in
  omap charge_of (effects w) = [(1500, "JPY"%string)].
Proof. vm_compute. reflexivity. Qed.

(** ** Witnesses *)



Lemma order_totals_witness :
  ∃ o, Placed o ∈ effects (run empty_shop sale) ∧ o_total o = o_subtotal o - o_discount o ∧ o_total o = 450.
Proof.
  rewrite sale_effects. eexists. split; [by do 3 right; left|]. split; [|reflexivity].
  apply (order_totals sale). rewrite sale_effects. by do 3 right; left.
Defined.

Lemma paid_iff_placed_witness :
  let w := run empty_shop sale in
  omap paid_of (effects w) ≡ₚ omap placed_of (effects w) ++ omap committing (checkouts w) ∧
  omap placed_of (effects w) = [("o1", "pay1")]%string.
Proof.
  split; [|vm_compute; reflexivity]. apply (paid_iff_placed sale). repeat constructor.
Defined.

Lemma checkout_terminates_witness :
  let w := run empty_shop opening in
  let t := {| t_shop := w; t_answer := Throw "declined"%string; t_id := "o1"; t_now := 7 |} in
  ∃ c, start_checkout "c" None w = Ok c ∧ ∃ r, ck_phase (foldl take_turn c (replicate 5 t)) = Finished r.
Proof.
  intros w t. destruct (start_checkout "c" None w) as [c|e] eqn:E; [|vm_compute in E; discriminate].
  exists c. split; [reflexivity|]. apply (checkout_terminates "c" None w c _ E).
  vm_compute in E. injection E as <-. vm_compute. lia.
Defined.
