(* ===== verification/Subscriptions.v ===== *)
(** * Subscriptions

    Models src/packages/commerce/src/subscriptions.ts: plans, subscriptions, their renewal
    and cancellation, and the seats.

    Every method reads a copy of the subscription, awaits (the plan, the gateway), changes
    the copy and writes it back as a whole.  A call is therefore a machine that stops at
    each [await]: it holds its copy, and other calls run in between.  The write itself
    happens without a stop after the last check.  The clock, the ids and the answers of the
    gateway are arguments of the events. *)

From Stdlib Require Import Ascii String QArith Qround.
From S2P Require Import Prelude JsText JsMap JsDate Commerce.

#[local] Open Scope list_scope.
Open Scope Z_scope.

(** ** Data *)

Inductive BillingInterval : Type := month | year.
Inductive SubscriptionStatus : Type := trialing | active | past_due | canceled.
#[export] Instance SubscriptionStatus_eq_dec : EqDecision SubscriptionStatus.
Proof. solve_decision. Defined.

Record Plan : Type := {
  pl_id : string; pl_name : string; pl_price : Z; pl_currency : string;
  pl_interval : BillingInterval; pl_seats : option Z; trialDays : Z; pl_active : bool
}.
Record Subscription : Type := {
  s_id : string; planId : string; customerId : string; status : SubscriptionStatus;
  seats : option Z; usedSeats : Z; currentPeriodStart : Z; currentPeriodEnd : Z;
  cancelAtPeriodEnd : bool; lastPaymentId : option string; s_createdAt : Z; canceledAt : option Z
}.

Inductive sub_error : Type :=
| Invalid (field : string)
| PlanNotFound (id : string)
| PlanInactive (id : string)
| NotFound (id : string)
| IsCanceled (id : string)
| CannotAssign (id : string)
| SeatLimit (id : string) (seats : Z)
| Declined                     (* a PaymentError of the gateway *)
| GatewayBroken.               (* any other error of it *)

Definition DAY_MS : Z := 24 * 60 * 60 * 1000.

Definition addInterval (epochMs : Z) (interval : BillingInterval) : Z :=
  match interval with
  | month => setUTCMonth epochMs (getUTCMonth epochMs + 1)
  | year => setUTCFullYear epochMs (getUTCFullYear epochMs + 1)
  end.

(** ** The state: the store, the calls under way and what was charged *)

Inductive phase : Type :=
| Subscribing (customer planId : string) (plan : option Plan) (wanted : option (option Q))
| SubscribeCharging (customer : string) (plan : Plan) (seats : option Z) (start : Z) (id : string)
| Renewing (s : Subscription)
| RenewPlan (s : Subscription) (plan : option Plan)
| RenewCharging (s : Subscription) (plan : Plan)
| Cancelling (s : Subscription) (immediately : bool)
| Changing (s : Subscription) (newPlanId : string)
| ChangePlan_ (s : Subscription) (newPlanId : string) (plan : option Plan)
| Assigning (s : Subscription)
| Releasing (s : Subscription)
| Returned (r : result sub_error Subscription).

Record charge : Type := { ch_reference : string; ch_amount : Z; ch_currency : string }.

Record Billing : Type := {
  plans : list (string * Plan);
  subs : list (string * Subscription);
  calls : list phase;
  asked : list charge               (* the charges that the gateway was asked for *)
}.
Definition no_billing : Billing := {| plans := []; subs := []; calls := []; asked := [] |}.

Definition set_plans (p : list (string * Plan)) (w : Billing) : Billing :=
  {| plans := p; subs := subs w; calls := calls w; asked := asked w |}.
Definition set_calls (c : list phase) (w : Billing) : Billing :=
  {| plans := plans w; subs := subs w; calls := c; asked := asked w |}.
(** [insertSubscription] and [updateSubscription]. *)
Definition write (s : Subscription) (w : Billing) : Billing :=
  {| plans := plans w; subs := jm_set (s_id s) s (subs w); calls := calls w; asked := asked w |}.
Definition ask (p : Plan) (reference : string) (w : Billing) : Billing :=
  {| plans := plans w; subs := subs w; calls := calls w;
     asked := asked w ++ [{| ch_reference := reference; ch_amount := pl_price p; ch_currency := pl_currency p |}] |}.

(** ** Plans *)

Definition non_empty (v field : string) : result sub_error string :=
  if decide (v = EmptyString) then Throw (Invalid field) else Ok v.
(** An allowance: a positive integer, or [null]. *)
Definition seats_of (v : option Q) : result sub_error (option Z) :=
  match v with
  | None => Ok None
  | Some q =>
      match integer_of q with
      | Some z => if z <=? 0 then Throw (Invalid "seats") else Ok (Some z)
      | None => Throw (Invalid "seats")
      end
  end.
(** A non-negative integer. *)
Definition count_of (v : Q) (field : string) : result sub_error Z :=
  match integer_of v with
  | Some z => if z <? 0 then Throw (Invalid field) else Ok z
  | None => Throw (Invalid field)
  end.

Definition createPlan (id name : string) (priceCents : Q) (currency : string)
    (interval : BillingInterval) (seats : option Q) (trialDays : Q) : result sub_error Plan :=
  name ← non_empty name "name";
  price ← count_of priceCents "priceCents";
  currency ← non_empty currency "currency";
  seats ← seats_of seats;
  trialDays ← count_of trialDays "trialDays";
  Ok {| pl_id := id; pl_name := name; pl_price := price; pl_currency := currency;
        pl_interval := interval; pl_seats := seats; trialDays := trialDays; pl_active := true |}.

(** ** Calls *)

Definition requireSubscription (id : string) (w : Billing) : result sub_error Subscription :=
  id ← non_empty id "subscriptionId";
  match jm_get id (subs w) with Some s => Ok s | None => Throw (NotFound id) end.

Definition require_plan (id : string) (p : option Plan) : result sub_error Plan :=
  match p with
  | None => Throw (PlanNotFound id)
  | Some p => if pl_active p then Ok p else Throw (PlanInactive (pl_id p))
  end.

Definition with_status (st : SubscriptionStatus) (at_ : option Z) (s : Subscription) : Subscription :=
  {| s_id := s_id s; planId := planId s; customerId := customerId s; status := st;
     seats := seats s; usedSeats := usedSeats s; currentPeriodStart := currentPeriodStart s;
     currentPeriodEnd := currentPeriodEnd s; cancelAtPeriodEnd := cancelAtPeriodEnd s;
     lastPaymentId := lastPaymentId s; s_createdAt := s_createdAt s; canceledAt := at_ |}.
Definition with_seats (n : Z) (s : Subscription) : Subscription :=
  {| s_id := s_id s; planId := planId s; customerId := customerId s; status := status s;
     seats := seats s; usedSeats := n; currentPeriodStart := currentPeriodStart s;
     currentPeriodEnd := currentPeriodEnd s; cancelAtPeriodEnd := cancelAtPeriodEnd s;
     lastPaymentId := lastPaymentId s; s_createdAt := s_createdAt s; canceledAt := canceledAt s |}.
Definition ends_with_period (s : Subscription) : Subscription :=
  {| s_id := s_id s; planId := planId s; customerId := customerId s; status := status s;
     seats := seats s; usedSeats := usedSeats s; currentPeriodStart := currentPeriodStart s;
     currentPeriodEnd := currentPeriodEnd s; cancelAtPeriodEnd := true;
     lastPaymentId := lastPaymentId s; s_createdAt := s_createdAt s; canceledAt := canceledAt s |}.
Definition with_plan (p : Plan) (s : Subscription) : Subscription :=
  {| s_id := s_id s; planId := pl_id p; customerId := customerId s; status := status s;
     seats := pl_seats p; usedSeats := usedSeats s; currentPeriodStart := currentPeriodStart s;
     currentPeriodEnd := currentPeriodEnd s; cancelAtPeriodEnd := cancelAtPeriodEnd s;
     lastPaymentId := lastPaymentId s; s_createdAt := s_createdAt s; canceledAt := canceledAt s |}.
Definition renewed (p : Plan) (payment : string) (s : Subscription) : Subscription :=
  {| s_id := s_id s; planId := planId s; customerId := customerId s; status := active;
     seats := seats s; usedSeats := usedSeats s; currentPeriodStart := currentPeriodEnd s;
     currentPeriodEnd := addInterval (currentPeriodEnd s) (pl_interval p);
     cancelAtPeriodEnd := cancelAtPeriodEnd s; lastPaymentId := Some payment;
     s_createdAt := s_createdAt s; canceledAt := canceledAt s |}.
Definition subscribed (customer : string) (p : Plan) (allowance : option Z) (start : Z) (id : string)
    (payment : option string) : Subscription :=
  {| s_id := id; planId := pl_id p; customerId := customer;
     status := if 0 <? trialDays p then trialing else active;
     seats := allowance; usedSeats := 0; currentPeriodStart := start;
     currentPeriodEnd :=
       if 0 <? trialDays p then start + trialDays p * DAY_MS else addInterval start (pl_interval p);
     cancelAtPeriodEnd := false; lastPaymentId := payment; s_createdAt := start; canceledAt := None |}.

(** Write [s] and return it. *)
Definition save (s : Subscription) (w : Billing) : Billing * phase := (write s w, Returned (Ok s)).
Definition throw (e : sub_error) (w : Billing) : Billing * phase := (w, Returned (Throw e)).

(** The rest of [subscribe] after the plan was read, up to the charge. *)
Definition subscribe_plan (customer planId : string) (plan : option Plan) (wanted : option (option Q))
    (now : Z) (newId : string) (w : Billing) : Billing * phase :=
  match require_plan planId plan with
  | Throw e => throw e w
  | Ok p =>
      match match wanted with None => Ok (pl_seats p) | Some v => seats_of v end with
      | Throw e => throw e w
      | Ok allowance =>
          if 0 <? trialDays p then save (subscribed customer p allowance now newId None) w
          else (ask p newId w, SubscribeCharging customer p allowance now newId)
      end
  end.

(** A call goes on: what it awaited has come (the gateway apart). *)
Definition resume (ph : phase) (now : Z) (newId : string) (w : Billing) : Billing * phase :=
  match ph with
  | Subscribing customer id plan wanted => subscribe_plan customer id plan wanted now newId w
  | Renewing s =>
      if decide (status s = canceled) then throw (IsCanceled (s_id s)) w
      else (w, RenewPlan s (jm_get (planId s) (plans w)))
  | RenewPlan s None => throw (PlanNotFound (planId s)) w
  | RenewPlan s (Some p) =>
      if cancelAtPeriodEnd s then save (with_status canceled (Some now) s) w
      else (ask p (s_id s) w, RenewCharging s p)
  | Cancelling s immediately =>
      if decide (status s = canceled) then (w, Returned (Ok s))
      else if immediately then save (with_status canceled (Some now) s) w
      else save (ends_with_period s) w
  | Changing s newPlanId =>
      if decide (status s = canceled) then throw (IsCanceled (s_id s)) w
      else match non_empty newPlanId "newPlanId" with
           | Throw e => throw e w
           | Ok id => (w, ChangePlan_ s id (jm_get id (plans w)))
           end
  | ChangePlan_ s id plan =>
      match require_plan id plan with
      | Throw e => throw e w
      | Ok p =>
          match pl_seats p with
          | Some n => if n <? usedSeats s then throw (SeatLimit (s_id s) n) w else save (with_plan p s) w
          | None => save (with_plan p s) w
          end
      end
  | Assigning s =>
      if decide (status s = canceled ∨ status s = past_due) then throw (CannotAssign (s_id s)) w
      else match seats s with
           | Some n =>
               if n <=? usedSeats s then throw (SeatLimit (s_id s) n) w
               else save (with_seats (usedSeats s + 1) s) w
           | None => save (with_seats (usedSeats s + 1) s) w
           end
  | Releasing s => save (with_seats (Z.max 0 (usedSeats s - 1)) s) w
  | SubscribeCharging _ _ _ _ _ | RenewCharging _ _ | Returned _ => (w, ph)
  end.

(** The gateway answers the charge of a call. *)
Definition answered (ph : phase) (r : result sub_error string) (w : Billing) : Billing * phase :=
  match ph with
  | SubscribeCharging customer p allowance start id =>
      match r with
      | Ok payment => save (subscribed customer p allowance start id (Some payment)) w
      | Throw e => throw e w
      end
  | RenewCharging s p =>
      match r with
      | Ok payment => save (renewed p payment s) w
      | Throw Declined => save (with_status past_due (canceledAt s) s) w
      | Throw e => throw e w
      end
  | _ => (w, ph)
  end.

Inductive event : Type :=
| CreatePlan (id name : string) (price : Q) (currency : string) (interval : BillingInterval)
    (seats : option Q) (trial : Q)
| Subscribe (customer plan : string) (wanted : option (option Q))
| Renew (id : string)
| CancelSub (id : string) (immediately : bool)
| ChangePlan (id newPlan : string)
| AssignSeat (id : string)
| ReleaseSeat (id : string)
| Resume (k : nat) (now : Z) (newId : string)          (* the k-th call goes on *)
| Answer (k : nat) (r : result sub_error string).

Definition open_call (r : result sub_error phase) (w : Billing) : Billing :=
  set_calls (calls w ++ [match r with Ok ph => ph | Throw e => Returned (Throw e) end]) w.
Definition put_call (k : nat) (r : Billing * phase) : Billing :=
  set_calls (<[k := r.2]> (calls r.1)) r.1.

Definition step (w : Billing) (e : event) : Billing :=
  match e with
  | CreatePlan id name price currency interval n trial =>
      match createPlan id name price currency interval n trial with
      | Ok p => set_plans (jm_set (pl_id p) p (plans w)) w
      | Throw _ => w
      end
  | Subscribe customer plan wanted =>
      open_call (customer ← non_empty customer "customerId"; plan ← non_empty plan "planId";
                 Ok (Subscribing customer plan (jm_get plan (plans w)) wanted)) w
  | Renew id => open_call (s ← requireSubscription id w; Ok (Renewing s)) w
  | CancelSub id now => open_call (s ← requireSubscription id w; Ok (Cancelling s now)) w
  | ChangePlan id p => open_call (s ← requireSubscription id w; Ok (Changing s p)) w
  | AssignSeat id => open_call (s ← requireSubscription id w; Ok (Assigning s)) w
  | ReleaseSeat id => open_call (s ← requireSubscription id w; Ok (Releasing s)) w
  | Resume k now newId =>
      match calls w !! k with Some ph => put_call k (resume ph now newId w) | None => w end
  | Answer k r =>
      match calls w !! k with Some ph => put_call k (answered ph r w) | None => w end
  end.
Definition run (w : Billing) (l : list event) : Billing := foldl step w l.

Definition seatsAvailable (id : string) (w : Billing) : result sub_error (option Z) :=
  s ← requireSubscription id w;
  Ok (match seats s with None => None | Some n => Some (Z.max 0 (n - usedSeats s)) end).

(** ** The billing periods *)

Lemma MakeDate_shift a b u : MakeDate b u = MakeDate a u + (b - a) * msPerDay.
Proof. unfold MakeDate. lia. Qed.
Lemma MakeDate_from t a b : Day t = a → MakeDate b (TimeWithinDay t) = t + (b - a) * msPerDay.
Proof. intros <-. by rewrite (MakeDate_shift (Day t)), MakeDate_Day. Qed.

Lemma addInterval_month t :
  ∃ m : nat, getUTCMonth t = Z.of_nat m ∧ (m <= 11)%nat ∧
    let l := leap (getUTCFullYear t) in
    addInterval t month = t + (month_start l (S m) - month_start l m) * msPerDay.
Proof.
  destruct (day_of_fields t) as (m & Hm & Hle & Hd & Hday). exists m. split; [done|]. split; [done|].
  cbn [addInterval]. unfold setUTCMonth. rewrite Hm, MakeDay_next by done.
  rewrite (MakeDate_from t _ _ Hday). f_equal. f_equal. lia.
Qed.

Lemma leap_start y y' (m : nat) :
  (m <= 11)%nat →
  DayFromYear y' + month_start (leap y') m - (DayFromYear y + month_start (leap y) m) =
  DayFromYear y' - DayFromYear y + (if (2 <=? m)%nat then leap y' - leap y else 0).
Proof.
  intros Hm. assert (∀ m : nat, (m <= 11)%nat → month_start (leap y') m - month_start (leap y) m =
    if (2 <=? m)%nat then leap y' - leap y else 0) as H; [|specialize (H m Hm); lia].
  intros k Hk. unfold month_start, starts. do 12 (destruct k as [|k]; [cbn; lia|]). lia.
Qed.

Lemma addInterval_year t :
  ∃ n, (n = 365 ∨ n = 366) ∧ addInterval t year = t + n * msPerDay.
Proof.
  destruct (day_of_fields t) as (m & Hm & Hle & Hd & Hday). cbn [addInterval]. unfold setUTCFullYear.
  rewrite Hm, MakeDay_month by done. rewrite (MakeDate_from t _ _ Hday). eexists. split; [|reflexivity].
  clear Hd Hday Hm. generalize (getUTCFullYear t), (getUTCDate t). intros y d.
  pose proof (leap_start y (y + 1) m Hle) as H. pose proof (leap_range y) as Hl.
  pose proof (leap_range (y + 1)) as Hl'.
  assert (DayFromYear (y + 1) - DayFromYear y = 365 + leap y) as Hy by (unfold leap; lia).
  rewrite Hy in H. destruct (2 <=? m)%nat; lia.
Qed.

Lemma month_length l (m : nat) :
  (l = 0 ∨ l = 1) → (m <= 11)%nat → 28 <= month_start l (S m) - month_start l m <= 31.
Proof.
  intros Hl Hm. unfold month_start, starts. do 12 (destruct m as [|m]; [cbn; lia|]). lia.
Qed.

Lemma addInterval_later t i : t < addInterval t i.
Proof.
  destruct i.
  - destruct (addInterval_month t) as (m & _ & Hm & H). cbv zeta in H. rewrite H.
    pose proof (month_start_range (leap (getUTCFullYear t)) m (leap_range _) Hm). unfold msPerDay. nia.
  - destruct (addInterval_year t) as (n & Hn & ->). unfold msPerDay. lia.
Qed.

(** the next billing period ends on the same day of the next month, or of the same month
    of the next year, at the same time, when that day exists in every month (up to the 28th);
    and every period is as long as the month, or the year, that it starts in. *)
Theorem addInterval_calendar t :
  (28 <= (addInterval t month - t) / msPerDay <= 31 ∧ (addInterval t month - t) mod msPerDay = 0) ∧
  (365 <= (addInterval t year - t) / msPerDay <= 366 ∧ (addInterval t year - t) mod msPerDay = 0) ∧
  (getUTCDate t <= 28 →
   getUTCDate (addInterval t month) = getUTCDate t ∧
   getUTCMonth (addInterval t month) = (getUTCMonth t + 1) mod 12 ∧
   getUTCFullYear (addInterval t month) = getUTCFullYear t + (getUTCMonth t + 1) / 12 ∧
   TimeWithinDay (addInterval t month) = TimeWithinDay t ∧
   getUTCDate (addInterval t year) = getUTCDate t ∧
   getUTCMonth (addInterval t year) = getUTCMonth t ∧
   getUTCFullYear (addInterval t year) = getUTCFullYear t + 1 ∧
   TimeWithinDay (addInterval t year) = TimeWithinDay t).
Proof.
  pose proof (day_of_fields t) as (m & Hm & Hle & Hd & Hday). set (y := getUTCFullYear t) in *.
  pose proof (leap_range y) as Hl. pose proof (TimeWithinDay_range t) as Htime.
  split; [|split].
  - destruct (addInterval_month t) as (m' & _ & Hm' & ->).
    pose proof (month_length (leap (getUTCFullYear t)) m' (leap_range _) Hm') as Hlen.
    set (n := month_start _ (S m') - _) in *. replace (t + n * msPerDay - t) with (n * msPerDay) by lia.
    by rewrite Z.div_mul, Z.mod_mul.
  - destruct (addInterval_year t) as (n & Hn & ->). replace (t + n * msPerDay - t) with (n * msPerDay) by lia.
    rewrite Z.div_mul, Z.mod_mul by done. lia.
  - intros H28.
    pose proof (month_length (leap (y + 1)) m (leap_range _) Hle) as Hlen.
    destruct (fields_of_day (y + 1) m (getUTCDate t) (TimeWithinDay t)) as (Hy1 & Hm1 & Hd1 & Ht1); [done|lia|done|].
    unfold addInterval, setUTCMonth, setUTCFullYear. fold y. rewrite Hm. rewrite MakeDay_month by done.
    rewrite Hy1, Hm1, Hd1, Ht1. destruct (decide (m = 11%nat)) as [->|Hne].
    + change (Z.of_nat 11 + 1) with 12. 
      destruct (fields_of_day (y + 1) 0 (getUTCDate t) (TimeWithinDay t)) as (Hy2 & Hm2 & Hd2 & Ht2);
        [lia|cbn; lia|done|].
      assert (MakeDay y 12 (getUTCDate t) = DayFromYear (y + 1) + month_start (leap (y + 1)) 0 + getUTCDate t - 1) as E.
      { change 12 with (Z.of_nat 11 + 1). rewrite MakeDay_next by lia. unfold leap. cbn. lia. }
      rewrite E, Hy2, Hm2, Hd2, Ht2. change (12 mod 12) with 0. change (12 / 12) with 1.
      change (Z.of_nat 0) with 0. by split_and!.
    + assert (S m <= 11)%nat as HS by lia. pose proof (month_length (leap y) (S m) Hl HS) as Hlen'.
      destruct (fields_of_day y (S m) (getUTCDate t) (TimeWithinDay t)) as (Hy2 & Hm2 & Hd2 & Ht2);
        [done|lia|done|].
      rewrite MakeDay_next, Hy2, Hm2, Hd2, Ht2 by done.
      rewrite Z.mod_small, Z.div_small by lia. split_and!; lia.
Qed.

(** ** What is stored is consistent *)

Definition allowance_ok (a : option Z) : Prop := ∀ n, a = Some n → 0 < n.
Definition plan_ok (p : Plan) : Prop := allowance_ok (pl_seats p) ∧ 0 <= trialDays p ∧ 0 <= pl_price p.
Record sub_ok (s : Subscription) : Prop := {
  so_used : 0 <= usedSeats s;
  so_seats n : seats s = Some n → usedSeats s <= n;
  so_period : currentPeriodStart s < currentPeriodEnd s;
  so_canceled : status s = canceled ↔ is_Some (canceledAt s);
  so_paid : status s = active → is_Some (lastPaymentId s)
}.

(** The copy that a call holds. *)
Definition copy_of (ph : phase) : option Subscription :=
  match ph with
  | Renewing s | RenewPlan s _ | RenewCharging s _ | Cancelling s _ | Changing s _
  | ChangePlan_ s _ _ | Assigning s | Releasing s => Some s
  | _ => None
  end.
Definition plan_of (ph : phase) : option Plan :=
  match ph with
  | Subscribing _ _ p _ | RenewPlan _ p | ChangePlan_ _ _ p => p
  | SubscribeCharging _ p _ _ _ | RenewCharging _ p => Some p
  | _ => None
  end.
Definition phase_ok (ph : phase) : Prop :=
  (∀ s, copy_of ph = Some s → sub_ok s) ∧ (∀ p, plan_of ph = Some p → plan_ok p) ∧
  match ph with
  | SubscribeCharging _ p a _ _ => allowance_ok a ∧ trialDays p = 0
  | RenewPlan s _ | RenewCharging s _ => status s ≠ canceled
  | ChangePlan_ s _ _ => status s ≠ canceled
  | _ => True
  end.

Record billing_ok (w : Billing) : Prop := {
  bo_plans : jm_all plan_ok (plans w);
  bo_subs : jm_all sub_ok (subs w);
  bo_keys : Forall (λ e, e.1 = s_id e.2) (subs w);
  bo_calls : Forall phase_ok (calls w)
}.

(** A segment of a call writes consistent subscriptions and leaves a consistent call. *)
Definition segment_ok (w : Billing) (r : Billing * phase) : Prop :=
  phase_ok r.2 ∧ plans r.1 = plans w ∧ calls r.1 = calls w ∧
  (subs r.1 = subs w ∨ ∃ s, sub_ok s ∧ subs r.1 = jm_set (s_id s) s (subs w)).

Lemma returned_ok r : phase_ok (Returned r).
Proof. by split_and!. Qed.
Lemma save_ok s w : sub_ok s → segment_ok w (save s w).
Proof. intros Hs. split; [apply returned_ok|]. split_and!; [done..|]. right. by exists s. Qed.
Lemma throw_ok e w : segment_ok w (throw e w).
Proof. split; [apply returned_ok|]. split_and!; [done..|]. by left. Qed.
Lemma same_ok ph w : phase_ok ph → segment_ok w (w, ph).
Proof. intros H. split_and!; [apply H..|done|done|]. by left. Qed.
Lemma ask_ok p r ph w : phase_ok ph → segment_ok w (ask p r w, ph).
Proof. intros H. split_and!; [apply H..|done|done|]. by left. Qed.

Lemma seats_of_ok v a : seats_of v = Ok a → allowance_ok a.
Proof.
  unfold seats_of, allowance_ok. destruct v as [q|]; [|by intros [= <-]].
  destruct (integer_of q) as [z|]; [|done]. destruct (Z.leb_spec z 0); [done|].
  intros [= <-] n [= <-]. lia.
Qed.

Lemma subscribed_ok customer p a start id pay :
  allowance_ok a → 0 <= trialDays p → (trialDays p = 0 → is_Some pay) →
  sub_ok (subscribed customer p a start id pay).
Proof.
  intros Ha Ht Hpay. split; cbn.
  - lia.
  - intros n Hn. specialize (Ha n Hn). lia.
  - destruct (Z.ltb_spec 0 (trialDays p)); [unfold DAY_MS; lia|apply addInterval_later].
  - destruct (0 <? trialDays p); (split; [done|]); by intros [? ?].
  - destruct (Z.ltb_spec 0 (trialDays p)); [done|]. intros _. apply Hpay. lia.
Qed.

Lemma subscribe_plan_ok customer pid plan wanted now newId w :
  phase_ok (Subscribing customer pid plan wanted) →
  segment_ok w (subscribe_plan customer pid plan wanted now newId w).
Proof.
  intros (_ & Hp & _). unfold subscribe_plan, require_plan. destruct plan as [p|]; [|apply throw_ok].
  destruct (Hp p eq_refl) as (Hseats & Htrial & Hprice).
  destruct (pl_active p); [|apply throw_ok].
  destruct (match wanted with None => _ | Some _ => _ end) as [a|e] eqn:E; [|apply throw_ok].
  assert (allowance_ok a) as Ha.
  { destruct wanted as [v|]; [by eapply seats_of_ok|]. by injection E as <-. }
  destruct (Z.ltb_spec 0 (trialDays p)).
  - apply save_ok, subscribed_ok; [done|done|lia].
  - apply ask_ok. split_and!; [done| |done|lia]. by intros ? [= <-].
Qed.

Lemma with_status_ok st at_ s :
  (st = canceled ↔ is_Some at_) → (st = active → is_Some (lastPaymentId s)) → sub_ok s →
  sub_ok (with_status st at_ s).
Proof. intros H1 H2 [? ? ? ? ?]. by split. Qed.
Lemma with_seats_ok n s :
  0 <= n → (∀ m, seats s = Some m → n <= m) → sub_ok s → sub_ok (with_seats n s).
Proof. intros H1 H2 [? ? ? ? ?]. by split. Qed.

Lemma resume_ok ph now newId w :
  jm_all plan_ok (plans w) → phase_ok ph → segment_ok w (resume ph now newId w).
Proof.
  intros Hplans Hph. pose proof Hph as (Hcopy & Hplan & Hmore).
  assert (∀ id p, jm_get id (plans w) = Some p → plan_ok p) as Hget by (intros id p; by apply jm_all_get).
  destruct ph as [cu pid pl wanted|cu p a st id|s|s pl|s p|s im|s np|s np pl|s|s|r]; cbn [resume];
    [by apply subscribe_plan_ok|by apply same_ok|..]; try (specialize (Hcopy s eq_refl)).
  - case_decide; [apply throw_ok|]. apply same_ok. split_and!; [by intros ? [= <-]|cbn; apply Hget|done].
  - destruct pl as [p|]; [|apply throw_ok]. destruct (cancelAtPeriodEnd s).
    + apply save_ok, with_status_ok; [split; by eexists|done|done].
    + apply ask_ok. split_and!; [by intros ? [= <-]|intros ? [= <-]; by apply Hplan|done].
  - by apply same_ok.
  - case_decide; [apply same_ok, returned_ok|]. destruct im.
    + apply save_ok, with_status_ok; [split; by eexists|done|done].
    + apply save_ok. destruct Hcopy. by split.
  - case_decide; [apply throw_ok|]. destruct (non_empty np _) as [id|]; [|apply throw_ok].
    apply same_ok. split_and!; [by intros ? [= <-]|cbn; apply Hget|done].
  - unfold require_plan. destruct pl as [p|]; [|apply throw_ok].
    destruct (pl_active p); [|apply throw_ok].
    assert ((∀ n, pl_seats p = Some n → usedSeats s <= n) → sub_ok (with_plan p s)) as Hw.
    { intros Hn. destruct Hcopy. by split. }
    destruct (pl_seats p) as [n|] eqn:En; [|apply save_ok, Hw; done].
    destruct (Z.ltb_spec n (usedSeats s)); [apply throw_ok|]. apply save_ok, Hw.
    by intros ? [= <-].
  - case_decide; [apply throw_ok|]. pose proof (so_used s Hcopy).
    destruct (seats s) as [n|] eqn:En.
    + destruct (Z.leb_spec n (usedSeats s)); [apply throw_ok|].
      apply save_ok, with_seats_ok; [lia| |done]. rewrite En. intros ? [= <-]. lia.
    + apply save_ok, with_seats_ok; [lia| |done]. by rewrite En.
  - apply save_ok, with_seats_ok; [lia| |done]. intros m Hm. pose proof (so_seats s Hcopy m Hm).
    pose proof (so_used s Hcopy). lia.
  - by apply same_ok.
Qed.

Lemma answered_ok ph r w : phase_ok ph → segment_ok w (answered ph r w).
Proof.
  intros Hph. pose proof Hph as (Hcopy & Hplan & Hmore). unfold answered.
  destruct ph as [cu pid pl wanted|cu p a st id|s|s pl|s p|s im|s np|s np pl|s|s|r0]; try by apply same_ok.
  - destruct r as [pay|e]; [|apply throw_ok]. destruct Hmore as [Ha Ht].
    apply save_ok, subscribed_ok; [done|lia|done].
  - specialize (Hcopy s eq_refl). cbn in Hmore. destruct r as [pay|e].
    + apply save_ok. destruct Hcopy as [H1 H2 H3 H4 H5].
      split; cbn; [done|done|apply addInterval_later| |done]. rewrite <-H4. naive_solver.
    + destruct e; try apply throw_ok. apply save_ok, with_status_ok; [|done|done].
      destruct Hcopy as [_ _ _ H4 _]. rewrite <-H4. naive_solver.
Qed.

Lemma put_call_ok k r w : segment_ok w r → billing_ok w → billing_ok (put_call k r).
Proof.
  destruct r as [w' ph]. intros (Hph & Hp & Hc & Hs) [H1 H2 H3 H4]. cbn [fst snd] in *.
  split; cbn; rewrite ?Hp, ?Hc; [done|..].
  - destruct Hs as [-> |(s & Hs & ->)]; [done|]. by apply jm_all_set.
  - destruct Hs as [-> |(s & Hs & ->)]; [done|].
    clear -H3. induction H3 as [|[k v] l Hv Hl IH]; cbn; [by repeat constructor|].
    case_decide; (constructor; [|done]); done.
  - by apply Forall_insert.
Qed.

Lemma open_call_ok r w : (∀ ph, r = Ok ph → phase_ok ph) → billing_ok w → billing_ok (open_call r w).
Proof.
  intros Hr [H1 H2 H3 H4]. split; try done. cbn. apply Forall_app. split; [done|].
  constructor; [|done]. destruct r as [ph|e]; [by apply Hr|apply returned_ok].
Qed.

Lemma requireSubscription_ok id w s :
  billing_ok w → requireSubscription id w = Ok s → sub_ok s.
Proof.
  intros Hw. unfold requireSubscription. intros (id' & _ & H)%result_bind_ok.
  destruct (jm_get id' (subs w)) as [s'|] eqn:E; [|done]. injection H as <-.
  exact (jm_all_get _ _ _ _ (bo_subs w Hw) E).
Qed.

Lemma open_copy_ok id (f : Subscription → phase) w :
  (∀ s, copy_of (f s) = Some s) → (∀ s, plan_of (f s) = None) →
  (∀ s, match f s with SubscribeCharging _ _ _ _ _ | RenewPlan _ _ | RenewCharging _ _ | ChangePlan_ _ _ _ => False | _ => True end) →
  billing_ok w → billing_ok (open_call (s ← requireSubscription id w; Ok (f s)) w).
Proof.
  intros Hc Hp Hm Hw. apply open_call_ok; [|done]. intros ph (s & Hs & [= <-])%result_bind_ok.
  apply requireSubscription_ok in Hs; [|done]. specialize (Hc s). specialize (Hp s). specialize (Hm s).
  split; [|split].
  - intros s'. rewrite Hc. by intros [= <-].
  - intros p. by rewrite Hp.
  - by destruct (f s).
Qed.

Lemma createPlan_ok id name pr cur iv n tr p : createPlan id name pr cur iv n tr = Ok p → plan_ok p.
Proof.
  unfold createPlan. intros (nm & _ & H)%result_bind_ok.
  apply result_bind_ok in H as (z & Hz & H). apply result_bind_ok in H as (c & _ & H).
  apply result_bind_ok in H as (a & Ha & H). apply result_bind_ok in H as (d & Hd & [= <-]).
  unfold count_of in *. split_and!; cbn.
  - by eapply seats_of_ok.
  - destruct (integer_of tr) as [z'|]; [|done]. destruct (Z.ltb_spec z' 0); [done|]. injection Hd as <-. lia.
  - destruct (integer_of pr) as [z'|]; [|done]. destruct (Z.ltb_spec z' 0); [done|]. injection Hz as <-. lia.
Qed.

Lemma billing_step_ok w e : billing_ok w → billing_ok (step w e).
Proof.
  intros Hw. destruct e; cbn [step]; try by apply open_copy_ok.
  - destruct (createPlan _ _ _ _ _ _ _) as [p|] eqn:E; [|done]. apply createPlan_ok in E.
    destruct Hw. split; try done. by apply jm_all_set.
  - apply open_call_ok; [|done]. intros ph (c & _ & (p & _ & [= <-])%result_bind_ok)%result_bind_ok.
    split_and!; [done| |done]. intros p'. cbn. intros Hp. exact (jm_all_get _ _ _ _ (bo_plans w Hw) Hp).
  - destruct (calls w !! k) as [ph|] eqn:E; [|done]. apply (put_call_ok k _ w); [|done]. apply resume_ok; [apply Hw|].
    pose proof (bo_calls w Hw) as H. rewrite Forall_lookup in H. by eapply H.
  - destruct (calls w !! k) as [ph|] eqn:E; [|done]. apply (put_call_ok k _ w); [|done]. apply answered_ok.
    pose proof (bo_calls w Hw) as H. rewrite Forall_lookup in H. by eapply H.
Qed.

(** whatever calls overlap, a stored subscription is consistent: the seats in use fit
    its allowance, its period has a positive length, it is canceled exactly when it has a
    date of cancellation, and an active one has been paid for. *)
Theorem stored_subscriptions_consistent l id s :
  jm_get id (subs (run no_billing l)) = Some s →
  s_id s = id ∧ 0 <= usedSeats s ∧ (∀ n, seats s = Some n → usedSeats s <= n) ∧
  currentPeriodStart s < currentPeriodEnd s ∧ (status s = canceled ↔ is_Some (canceledAt s)) ∧
  (status s = active → is_Some (lastPaymentId s)).
Proof.
  intros Hs. assert (∀ l w, billing_ok w → billing_ok (run w l)) as Hrun.
  { clear. induction l as [|e l IH]; intros w Hw; [done|]. by apply IH, billing_step_ok. }
  destruct (Hrun l no_billing) as [_ Hsubs Hkeys _]; [split; apply Forall_nil_2|].
  destruct (jm_all_get _ _ _ _ Hsubs Hs) as [H1 H2 H3 H4 H5].
  apply jm_get_elem in Hs. rewrite Forall_forall in Hkeys. specialize (Hkeys _ Hs). by split_and!.
Qed.

(** ** Calls that run alone

    The events of a call that runs from its start to its end without another in between. *)
Definition alone (w : Billing) (e : event) (now : Z) (r : result sub_error string) : list event :=
  let k := length (calls w) in [e; Resume k now EmptyString; Resume k now EmptyString; Answer k r].

(** What [renew] does to a subscription of the plan [p]. *)
Definition renewal (p : Plan) (now : Z) (r : result sub_error string) (s : Subscription) : Subscription :=
  if decide (status s = canceled) then s
  else if cancelAtPeriodEnd s then with_status canceled (Some now) s
  else match r with
       | Ok payment => renewed p payment s
       | Throw Declined => with_status past_due (canceledAt s) s
       | Throw _ => s
       end.
Definition renewal_charge (p : Plan) (s : Subscription) : list charge :=
  if decide (status s = canceled) then []
  else if cancelAtPeriodEnd s then []
  else [{| ch_reference := s_id s; ch_amount := pl_price p; ch_currency := pl_currency p |}].

Lemma requireSubscription_get id s w :
  id ≠ EmptyString → jm_get id (subs w) = Some s → requireSubscription id w = Ok s.
Proof. intros Hid Hs. unfold requireSubscription, non_empty. rewrite decide_False by done. cbn. by rewrite Hs. Qed.

Lemma lookup_end {A} (l : list A) x : (l ++ [x]) !! length l = Some x.
Proof. by rewrite list_lookup_middle. Qed.
Lemma insert_end {A} (l : list A) x y : <[length l := y]> (l ++ [x]) = l ++ [y].
Proof. by rewrite (insert_app_r_alt l), Nat.sub_diag by lia. Qed.

(** The steps of the last call, on the state in which it was opened. *)
Definition last_call (w : Billing) (ph : phase) : Billing := set_calls (calls w ++ [ph]) w.

Lemma calls_set c w : calls (set_calls c w) = c.
Proof. reflexivity. Qed.

Lemma step_last_resume w k ph now newId :
  k = length (calls w) →
  step (last_call w ph) (Resume k now newId) =
    let r := resume ph now newId w in last_call (set_calls (calls w) r.1) r.2.
Proof.
  intros ->. unfold last_call at 1. cbn [step]. rewrite calls_set, lookup_end. unfold put_call.
  assert (∀ c, resume ph now newId (set_calls c w) =
    (set_calls c (resume ph now newId w).1, (resume ph now newId w).2) ∧
    calls (resume ph now newId w).1 = calls w) as Hc.
  { intros c. unfold resume, subscribe_plan, throw, save. destruct ph; repeat case_match; done. }
  destruct (Hc (calls w ++ [ph])) as [-> _]. cbn. by rewrite insert_end.
Qed.

Lemma step_last_answer w k ph r :
  k = length (calls w) →
  step (last_call w ph) (Answer k r) =
    let x := answered ph r w in last_call (set_calls (calls w) x.1) x.2.
Proof.
  intros ->. unfold last_call at 1. cbn [step]. rewrite calls_set, lookup_end. unfold put_call.
  assert (∀ c, answered ph r (set_calls c w) = (set_calls c (answered ph r w).1, (answered ph r w).2)) as Hc.
  { intros c. unfold answered, throw, save. destruct ph; repeat case_match; done. }
  rewrite (Hc (calls w ++ [ph])). cbn. by rewrite insert_end.
Qed.

(** A call that runs alone: its segments one after the other on the state. *)
Lemma run_alone w e ph now r :
  step w e = last_call w ph →
  run w (alone w e now r) =
    let x1 := resume ph now EmptyString w in
    let x2 := resume x1.2 now EmptyString (set_calls (calls w) x1.1) in
    let x3 := answered x2.2 r (set_calls (calls w) x2.1) in
    last_call (set_calls (calls w) x3.1) x3.2.
Proof.
  intros He. unfold alone, run. cbn [foldl]. rewrite He, step_last_resume by done. cbv zeta.
  rewrite step_last_resume by done. cbv zeta. rewrite step_last_answer by done. reflexivity.
Qed.

(** a renewal that runs alone does what it says on every branch: a canceled subscription
    stays as it is, one that is to end with its period is canceled without a charge, a paid
    renewal moves the period on by one interval of the plan, a declined one makes it past
    due and keeps the period, any other error of the gateway leaves it; nothing else of the
    store changes, and the gateway is asked for the price of the plan at most once. *)
Theorem renew_alone w id s p now r :
  id ≠ EmptyString → s_id s = id →
  jm_get id (subs w) = Some s → jm_get (planId s) (plans w) = Some p →
  let w' := run w (alone w (Renew id) now r) in
  jm_get id (subs w') = Some (renewal p now r s) ∧
  (∀ id', id' ≠ id → jm_get id' (subs w') = jm_get id' (subs w)) ∧ plans w' = plans w ∧
  asked w' = asked w ++ renewal_charge p s.
Proof.
  intros Hid Hkey Hs Hp. rewrite (run_alone w (Renew id) (Renewing s)).
  2:{ cbn [step]. by rewrite (requireSubscription_get id s). }
  assert (∀ s', s_id s' = id → ∀ w0, subs w0 = subs w →
    jm_get id (subs (write s' w0)) = Some s' ∧
    ∀ id', id' ≠ id → jm_get id' (subs (write s' w0)) = jm_get id' (subs w)) as Hwrite.
  { intros s' E w0 Hw0. cbn. rewrite Hw0, E. split; [apply jm_get_set_eq|]. intros. by apply jm_get_set_ne. }
  cbv zeta. cbn [resume]. unfold renewal, renewal_charge.
  destruct (decide (status s = canceled)) as [E|E].
  - cbn. rewrite app_nil_r. by split_and!.
  - rewrite Hp. cbn [fst snd resume]. destruct (cancelAtPeriodEnd s) eqn:Ec.
    + cbn [fst snd save answered]. destruct (Hwrite (with_status canceled (Some now) s) Hkey w eq_refl) as [H1 H2].
      cbn. rewrite app_nil_r. by split_and!.
    + cbn [fst snd answered]. destruct r as [pay|[| | | | | | | |]]; cbn; try by split_and!.
      * destruct (Hwrite (renewed p pay s) Hkey w eq_refl) as [H1 H2]. by split_and!.
      * destruct (Hwrite (with_status past_due (canceledAt s) s) Hkey w eq_refl) as [H1 H2]. by split_and!.
Qed.

(** *** Seats *)

Definition take_seat (allowance : option Z) (used : Z) : option Z :=
  match allowance with
  | Some n => if n <=? used then None else Some (used + 1)
  | None => Some (used + 1)
  end.
Definition seat_op (id : string) (assign : bool) (w : Billing) : Billing :=
  run w (alone w (if assign then AssignSeat id else ReleaseSeat id) 0 (Throw Declined)).
Definition count_seat (allowance : option Z) (used : Z) (assign : bool) : Z :=
  if assign then default used (take_seat allowance used) else Z.max 0 (used - 1).

Lemma seat_op_alone w id s assign :
  id ≠ EmptyString → s_id s = id → status s ≠ canceled → status s ≠ past_due →
  jm_get id (subs w) = Some s →
  jm_get id (subs (seat_op id assign w)) = Some (with_seats (count_seat (seats s) (usedSeats s) assign) s) ∧
  (∀ id', id' ≠ id → jm_get id' (subs (seat_op id assign w)) = jm_get id' (subs w)).
Proof.
  intros Hid Hkey H1 H2 Hs.
  assert (∀ n w0, subs w0 = subs w →
    jm_get id (subs (write (with_seats n s) w0)) = Some (with_seats n s) ∧
    ∀ id', id' ≠ id → jm_get id' (subs (write (with_seats n s) w0)) = jm_get id' (subs w)) as Hwrite.
  { intros n w0 Hw0. cbn. rewrite Hw0, Hkey. split; [apply jm_get_set_eq|]. intros. by apply jm_get_set_ne. }
  assert (with_seats (usedSeats s) s = s) as Hself by by destruct s.
  unfold seat_op. destruct assign.
  - rewrite (run_alone w _ (Assigning s)) by (cbn [step]; by rewrite (requireSubscription_get id s)).
    cbv zeta. cbn [resume]. rewrite decide_False by tauto. unfold count_seat, take_seat.
    destruct (seats s) as [n|]; [destruct (n <=? usedSeats s)|]; cbn [fst snd throw save resume answered].
    + change (default (usedSeats s) None) with (usedSeats s). rewrite Hself. by split.
    + by apply (Hwrite _ w).
    + by apply (Hwrite _ w).
  - rewrite (run_alone w _ (Releasing s)) by (cbn [step]; by rewrite (requireSubscription_get id s)).
    by apply (Hwrite _ w).
Qed.

(** seats assigned and released one call after the other are counted like tickets: an
    assignment takes one of the free seats and is refused when there is none, a release
    gives one back and never goes below none. *)
Theorem seats_counted w id s (ops : list bool) :
  id ≠ EmptyString → s_id s = id → status s ≠ canceled → status s ≠ past_due →
  jm_get id (subs w) = Some s →
  jm_get id (subs (foldl (λ w b, seat_op id b w) w ops)) =
    Some (with_seats (foldl (count_seat (seats s)) (usedSeats s) ops) s) ∧
  (∀ id', id' ≠ id → jm_get id' (subs (foldl (λ w b, seat_op id b w) w ops)) = jm_get id' (subs w)).
Proof.
  intros Hid. revert w s. induction ops as [|b ops IH]; intros w s Hkey H1 H2 Hs.
  - cbn. by destruct s.
  - cbn [foldl]. destruct (seat_op_alone w id s b Hid Hkey H1 H2 Hs) as [Hb Hother].
    destruct (IH _ (with_seats (count_seat (seats s) (usedSeats s) b) s) Hkey H1 H2 Hb) as [H Ho].
    split; [by rewrite H|]. intros id' Hne. by rewrite Ho, Hother.
Qed.

(** *** Cancellation *)

(** A call that cannot write [id] with another status, nor charge for it. *)
Definition phase_gone (id : string) (ph : phase) : Prop :=
  (∀ s, copy_of ph = Some s → s_id s = id → status s = canceled) ∧
  match ph with
  | RenewCharging s _ | RenewPlan s _ | ChangePlan_ s _ _ => s_id s ≠ id
  | SubscribeCharging _ _ _ _ id' => id' ≠ id
  | _ => True
  end.
Definition gone (id : string) (w : Billing) : Prop :=
  (∃ s, jm_get id (subs w) = Some s ∧ status s = canceled) ∧
  Forall (λ e, e.1 = s_id e.2) (subs w) ∧
  Forall (phase_gone id) (calls w).
Definition fresh_for (id : string) (e : event) : Prop :=
  match e with Resume _ _ newId => newId ≠ id | _ => True end.

(** What a segment of a call does for [id]. *)
Definition leaves_gone (id : string) (w : Billing) (r : Billing * phase) : Prop :=
  ((subs r.1 = subs w) ∨ ∃ s, subs r.1 = jm_set (s_id s) s (subs w) ∧ (s_id s = id → status s = canceled)) ∧
  calls r.1 = calls w ∧
  filter (λ c, ch_reference c = id) (asked r.1) = filter (λ c, ch_reference c = id) (asked w) ∧
  phase_gone id r.2.

Lemma asked_other id p r w :
  r ≠ id → filter (λ c, ch_reference c = id) (asked (ask p r w)) = filter (λ c, ch_reference c = id) (asked w).
Proof.
  intros Hr. cbn. rewrite filter_app, filter_cons_False by done. by rewrite filter_nil, app_nil_r.
Qed.

Lemma resume_gone id ph now newId w :
  newId ≠ id → phase_gone id ph → leaves_gone id w (resume ph now newId w).
Proof.
  intros Hnew [Hcopy Hph]. unfold leaves_gone, phase_gone.
  assert (∀ s, (s_id s = id → status s = canceled) → leaves_gone id w (save s w)) as Hsave.
  { intros s Hs. split; [|by split_and!]. right. by exists s. }
  assert (∀ e, leaves_gone id w (throw e w)) as Hthrow by (intros e; split; [by left|by split_and!]).
  destruct ph as [cu pid pl wanted|cu p a st id'|s|s pl|s p|s im|s np|s np pl|s|s|r]; cbn [resume];
    try specialize (Hcopy s eq_refl).
  - unfold subscribe_plan. destruct (require_plan pid pl) as [p|]; [|apply Hthrow].
    destruct (match wanted with None => _ | Some _ => _ end) as [a|e]; [|apply Hthrow].
    destruct (0 <? trialDays p); [by apply Hsave|]. split; [by left|].
    split_and!; [done|by apply asked_other|done..].
  - split; [by left|]. by split_and!.
  - case_decide as Hc; [apply Hthrow|]. split; [by left|]. split_and!; [done..|by intros ? [= <-]|].
    cbn. tauto.
  - destruct pl as [p|]; [|apply Hthrow]. destruct (cancelAtPeriodEnd s); [by apply Hsave|].
    split; [by left|]. split_and!; [done|by apply asked_other|by intros ? [= <-]|done].
  - split; [by left|]. split_and!; [done..|by intros ? [= <-]|done].
  - case_decide as Hc; [split; [by left|]; by split_and!|]. destruct im; by apply Hsave.
  - case_decide as Hc; [apply Hthrow|]. destruct (non_empty np _) as [i|]; [|apply Hthrow].
    split; [by left|]. split_and!; [done..|by intros ? [= <-]|]. cbn. tauto.
  - destruct (require_plan np pl) as [p|]; [|apply Hthrow].
    destruct (pl_seats p) as [n|]; [destruct (n <? usedSeats s)|]; [apply Hthrow|by apply Hsave..].
  - case_decide as Hc; [apply Hthrow|].
    destruct (seats s) as [n|]; [destruct (n <=? usedSeats s)|]; [apply Hthrow|by apply Hsave..].
  - by apply Hsave.
  - split; [by left|]. by split_and!.
Qed.

Lemma answered_gone id ph r w :
  phase_gone id ph → leaves_gone id w (answered ph r w).
Proof.
  intros [Hcopy Hph].
  assert (∀ s, s_id s ≠ id → leaves_gone id w (save s w)) as Hsave.
  { intros s Hs. split; [right; by exists s|by split_and!]. }
  assert (∀ e, leaves_gone id w (throw e w)) as Hthrow by (intros e; split; [by left|by split_and!]).
  assert (leaves_gone id w (w, ph)) as Hsame by (split; [by left|by split_and!]).
  unfold answered. destruct ph; try done.
  - destruct r; [by apply Hsave|apply Hthrow].
  - destruct r as [pay|[]]; by first [apply Hthrow|apply Hsave].
Qed.

Lemma gone_put id k ph r w :
  calls w !! k = Some ph → leaves_gone id w r → gone id w →
  gone id (put_call k r) ∧
  filter (λ c, ch_reference c = id) (asked (put_call k r)) = filter (λ c, ch_reference c = id) (asked w).
Proof.
  intros Hk (Hsubs & Hcalls & Hasked & Hnew) ((s & Hs & Hst) & Hkeys & Hall).
  split; [|exact Hasked]. split; [|split].
  - cbn. destruct Hsubs as [-> |(s' & -> & Hs')]; [by exists s|].
    destruct (decide (id = s_id s')) as [->|Hne].
    + exists s'. rewrite jm_get_set_eq. auto.
    + exists s. by rewrite jm_get_set_ne.
  - cbn. destruct Hsubs as [-> |(s' & -> & Hs')]; [done|].
    clear -Hkeys. induction Hkeys as [|[k v] l Hv Hl IH]; cbn; [by repeat constructor|].
    case_decide; (constructor; [|done]); done.
  - cbn. rewrite Hcalls. by apply Forall_insert.
Qed.

Lemma requireSubscription_gone id id' w s :
  gone id w → requireSubscription id' w = Ok s → s_id s = id → status s = canceled.
Proof.
  intros ((s0 & Hs0 & Hst) & Hkeys & _). unfold requireSubscription.
  intros (i & _ & H)%result_bind_ok Hid. destruct (jm_get i (subs w)) as [s'|] eqn:E; [|done].
  injection H as <-. pose proof (jm_get_elem _ _ _ E) as Hin. rewrite Forall_forall in Hkeys.
  specialize (Hkeys _ Hin). cbn in Hkeys. subst i. rewrite Hid in E. congruence.
Qed.

Lemma step_gone id w e :
  fresh_for id e → gone id w →
  gone id (step w e) ∧
  filter (λ c, ch_reference c = id) (asked (step w e)) = filter (λ c, ch_reference c = id) (asked w).
Proof.
  intros Hf Hg. pose proof Hg as (Hs & Hkeys & Hall). rewrite Forall_forall in Hall.
  assert (∀ r, (∀ ph, r = Ok ph → phase_gone id ph) → gone id (open_call r w)) as Hopen.
  { intros r Hr. split; [done|]. split; [done|]. cbn. apply Forall_app. split; [by apply Hg|].
    constructor; [|done]. destruct r as [ph|e']; [by apply Hr|done]. }
  assert (∀ id' (f : Subscription → phase), (∀ s, copy_of (f s) = Some s) →
    (∀ s, match f s with RenewCharging _ _ | RenewPlan _ _ | ChangePlan_ _ _ _ | SubscribeCharging _ _ _ _ _ => False | _ => True end) →
    gone id (open_call (s ← requireSubscription id' w; Ok (f s)) w)) as Hcopy.
  { intros id' f Hc Hm. apply Hopen. intros ph (s & Hreq & [= <-])%result_bind_ok. split.
    - intros s'. rewrite Hc. intros [= <-]. by eapply requireSubscription_gone.
    - specialize (Hm s). by destruct (f s). }
  destruct e; cbn [step] in *; try (split; [by apply Hcopy|reflexivity]).
  - by destruct (createPlan _ _ _ _ _ _ _).
  - split; [|reflexivity]. apply Hopen. by intros ph (c & _ & (p & _ & [= <-])%result_bind_ok)%result_bind_ok.
  - destruct (calls w !! k) as [ph|] eqn:E; [|done]. apply (gone_put id k ph); [done| |done].
    apply resume_gone; [done|]. by apply Hall, (list_elem_of_lookup_2 _ k).
  - destruct (calls w !! k) as [ph|] eqn:E; [|done]. apply (gone_put id k ph); [done| |done].
    apply answered_gone. by apply Hall, (list_elem_of_lookup_2 _ k).
Qed.

(** a subscription that is canceled while no call is under way stays canceled and is
    never charged again, whatever calls follow and however they overlap. *)
Theorem canceled_is_final w l id s :
  billing_ok w → Forall (λ ph, ∃ r, ph = Returned r) (calls w) →
  jm_get id (subs w) = Some s → status s = canceled → Forall (fresh_for id) l →
  (∃ s', jm_get id (subs (run w l)) = Some s' ∧ status s' = canceled) ∧
  filter (λ c, ch_reference c = id) (asked (run w l)) = filter (λ c, ch_reference c = id) (asked w).
Proof.
  intros Hok Hcalls Hs Hst Hl.
  assert (gone id w) as Hg.
  { split; [by exists s|]. split; [apply Hok|]. eapply Forall_impl; [exact Hcalls|]. by intros ph [r ->]. }
  clear Hok Hcalls Hs. revert w Hg. induction Hl as [|e l He _ IH]; intros w Hg; [by split; [apply Hg|]|].
  destruct (step_gone id w e He Hg) as [Hg' Ha]. destruct (IH _ Hg') as [H1 H2]. split; [exact H1|].
  change (run w (e :: l)) with (run (step w e) l). by rewrite H2.
Qed.

(** ** Concrete runs *)

(** 31 January 2024, 00:00 UTC: a month later is 2 March, and the day is never the 31st
    again. *)
Theorem month_end_moves :
  getUTCMonth 1706659200000 = 0 ∧ getUTCDate 1706659200000 = 31 ∧
  getUTCMonth (addInterval 1706659200000 month) = 2 ∧ getUTCDate (addInterval 1706659200000 month) = 2 ∧
  getUTCDate (addInterval (addInterval 1706659200000 month) month) = 2.
Proof. vm_compute. done. Qed.

Definition one_plan : list event := [CreatePlan "team" "Team" 4900 "USD" month (Some 1%Q) 0].
Definition subscribing : list event :=
  [Subscribe "ada" "team" None; Resume 0 0 "s1"; Answer 0 (Ok "pay0"%string)].
Definition ada : Billing := run no_billing (one_plan ++ subscribing).

Definition ada_sub : Subscription := {|
  s_id := "s1"; planId := "team"; customerId := "ada"; status := active; seats := Some 1; usedSeats := 0;
  currentPeriodStart := 0; currentPeriodEnd := 31 * DAY_MS; cancelAtPeriodEnd := false;
  lastPaymentId := Some "pay0"%string; s_createdAt := 0; canceledAt := None |}.
Example ada_subscription : jm_get "s1"%string (subs ada) = Some ada_sub.
Proof. vm_compute. reflexivity. Qed.

(** [renew] does not look at the clock: on the first day, three renewals charge three times
    and move the period four months on. *)
Theorem renewed_before_the_end :
  let w := foldl (λ w p, run w (alone w (Renew "s1") 0 (Ok p))) ada ["a"; "b"; "c"]%string in
  (currentPeriodStart <$> jm_get "s1"%string (subs w)) = Some ((31 + 28 + 31) * DAY_MS) ∧
  length (asked w) = 4%nat.
Proof. vm_compute. done. Qed.

(** Two assignments that overlap both take the only seat. *)
Theorem seat_taken_twice :
  let w := run ada [AssignSeat "s1"; AssignSeat "s1"; Resume 1 0 ""; Resume 2 0 ""] in
  (usedSeats <$> jm_get "s1"%string (subs w)) = Some 1 ∧
  Forall (λ ph, match ph with Returned (Ok _) => True | _ => False end) (calls w).
Proof. vm_compute. repeat constructor. Qed.

(** A renewal that waits for the gateway undoes a cancellation: the subscription is charged
    and active again. *)
Theorem cancellation_undone :
  let w := run ada [Renew "s1"; Resume 1 0 ""; Resume 1 0 ""; CancelSub "s1" true; Resume 2 5 "";
                    Answer 1 (Ok "pay1"%string)] in
  (status <$> jm_get "s1"%string (subs w)) = Some active ∧
  (lastPaymentId <$> jm_get "s1"%string (subs w)) = Some (Some "pay1"%string) ∧
  (status <$> (calls w !! 2%nat ≫= λ ph, match ph with Returned (Ok s) => Some s | _ => None end)) =
    Some canceled.
Proof. vm_compute. done. Qed.

(** ** Witnesses *)

Lemma addInterval_calendar_witness :
  getUTCDate 0 = 1 ∧ getUTCMonth (addInterval 0 month) = 1.
Proof.
  split; [reflexivity|].
  destruct (addInterval_calendar 0) as (_ & _ & H). specialize (H ltac:(vm_compute; discriminate)).
  destruct H as (_ & H & _). rewrite H. reflexivity.
Defined.

Lemma stored_subscriptions_consistent_witness :
  ∃ s, jm_get "s1"%string (subs ada) = Some s ∧ currentPeriodStart s < currentPeriodEnd s.
Proof.
  eexists. split; [exact ada_subscription|].
  apply (stored_subscriptions_consistent (one_plan ++ subscribing) "s1" _ ada_subscription).
Defined.

Lemma renew_alone_witness :
  (status <$> jm_get "s1"%string (subs (run ada (alone ada (Renew "s1") 0 (Throw Declined))))) = Some past_due.
Proof.
  assert (∃ p, jm_get "team"%string (plans ada) = Some p) as [p Hp] by (eexists; vm_compute; reflexivity).
  destruct (renew_alone ada "s1" ada_sub p 0 (Throw Declined) ltac:(discriminate) ltac:(reflexivity) ada_subscription Hp)
    as [H _]. rewrite H. reflexivity.
Defined.

Lemma seats_counted_witness :
  (usedSeats <$> jm_get "s1"%string (subs (foldl (λ w b, seat_op "s1" b w) ada [true; true; false; true]))) = Some 1.
Proof.
  destruct (seats_counted ada "s1" ada_sub [true; true; false; true] ltac:(discriminate) ltac:(reflexivity)
    ltac:(discriminate) ltac:(discriminate) ada_subscription) as [H _].
  rewrite H. reflexivity.
Defined.

Lemma canceled_is_final_witness :
  let w := run ada (alone ada (CancelSub "s1" true) 5 (Throw Declined)) in
  ∃ s', jm_get "s1"%string (subs (run w [Renew "s1"; Resume 2 9 "s2"; AssignSeat "s1"])) = Some s' ∧ status s' = canceled.
Proof.
  intros w. assert (billing_ok w) as Hok.
  { unfold w, ada, run. rewrite <-!foldl_app. set (l := _ ++ alone _ _ _ _). clearbody l.
    assert (billing_ok no_billing) as H0 by (split; apply Forall_nil_2). revert H0. generalize no_billing.
    induction l as [|e l IH]; intros w0 H0; [exact H0|]. apply IH, billing_step_ok, H0. }
  assert (Forall (λ ph, ∃ r, ph = Returned r) (calls w)) as Hcalls by (vm_compute; repeat constructor; by eexists).
  destruct (jm_get "s1"%string (subs w)) as [s|] eqn:E; [|vm_compute in E; discriminate].
  refine (proj1 (canceled_is_final w _ "s1" s Hok Hcalls E _ _)).
  - vm_compute in E. injection E as <-. reflexivity.
  - repeat constructor. discriminate.
Defined.
