(* ===== verification/CacheSpec.v ===== *)
(** * What a cache promises to its users

    The services of src/packages/core/src/auth/ keep answers of the database in an
    [LruCache].  They rely on little: an entry that is read was written, and not longer ago
    than the time to live; the cache may forget at any time, and it forgets what is deleted.
    [CacheLaws] states that, and the cache of Lru.v (src/packages/cache/src/lru.ts, whose
    text core/src/cache/lru.ts repeats) is an instance. *)

From S2P Require Import Prelude JsMap Lru.

Open Scope Z_scope.

Class CacheOps (C K V : Type) : Type := {
  c_get : Z → K → C → option V * C;       (* the clock first *)
  c_set : Z → K → V → C → C;
  c_delete : K → C → C;
  c_sweep : Z → C → C;
  c_view : C → K → option (V * Z);        (* the entry and when it expires *)
  c_valid : C → Prop;
  c_ttl : C → Z
}.

(** A cache after a call: nothing new, but maybe an entry of [fresh]. *)
Definition only_forgets {C K V} `{CacheOps C K V} (c c' : C) : Prop :=
  c_valid c' ∧ c_ttl c' = c_ttl c ∧ ∀ k x, c_view c' k = Some x → c_view c k = Some x.

Class CacheLaws (C K V : Type) `{CacheOps C K V} : Prop := {
  get_forgets now k c : c_valid c → only_forgets c (c_get now k c).2;
  get_found now k c v : c_valid c → (c_get now k c).1 = Some v → ∃ t, c_view c k = Some (v, t) ∧ now <= t;
  set_valid now k v c : c_valid c → c_valid (c_set now k v c) ∧ c_ttl (c_set now k v c) = c_ttl c;
  set_view now k v c k' x :
    c_valid c → c_view (c_set now k v c) k' = Some x →
    (k' = k ∧ x = (v, now + c_ttl c)) ∨ (k' ≠ k ∧ c_view c k' = Some x);
  delete_forgets k c : c_valid c → only_forgets c (c_delete k c);
  delete_view k c : c_valid c → c_view (c_delete k c) k = None;
  sweep_forgets now c : c_valid c → only_forgets c (c_sweep now c)
}.

(** ** The LRU cache is one *)

Section lru_instance.
Context {K V : Type} `{EqDecision K}.

#[export] Instance lru_ops : CacheOps (LruCache (K:=K) (V:=V)) K V := {
  c_get := Lru.get;
  c_set := Lru.set;
  c_delete k c := (Lru.delete k c).2;
  c_sweep := Lru.sweepExpired;
  c_view c k := (λ e, (value e, Lru.expiresAt e)) <$> jm_get k (entries c);
  c_valid c := ∃ l, holds (maxEntries c) (Lru.ttlMs c) c l;
  c_ttl := Lru.ttlMs
}.

Lemma holds_view max ttl (c : LruCache (K:=K) (V:=V)) l k : holds max ttl c l → c_view c k = jm_get k l.
Proof. intros [Hr _ _ _]. by apply represents_find. Qed.

(** A step of the cache whose specification only removes entries. *)
Lemma step_forgets now o (c : LruCache (K:=K) (V:=V)) :
  (∀ max ttl l k x, NoDup (jm_keys l) → jm_get k (spec_step max ttl now o l).2 = Some x → jm_get k l = Some x) →
  c_valid c → only_forgets c (Lru.step now o c).2.
Proof.
  intros Ho [l Hl]. destruct (step_holds _ _ now o c l Hl) as [_ Hl'].
  destruct (step_limits now o c) as [Hm Ht]. split; [|split; [exact Ht|]].
  - eexists. rewrite Hm, Ht. exact Hl'.
  - intros k x. rewrite (holds_view _ _ _ _ _ Hl'), (holds_view _ _ _ _ _ Hl). apply Ho.
    apply (represents_nodup c), Hl.
Qed.

Lemma drop_key_sub k k' x (l : list (K * (V * Z))) :
  NoDup (jm_keys l) → jm_get k' (drop_key k l) = Some x → jm_get k' l = Some x ∧ k' ≠ k.
Proof.
  intros Hl. unfold drop_key. destruct (decide (k' = k)) as [->|Hne].
  - by rewrite jm_get_delete_eq.
  - by rewrite jm_get_delete_ne.
Qed.

Lemma jm_get_take k x n (l : list (K * (V * Z))) : jm_get k (take n l) = Some x → jm_get k l = Some x.
Proof.
  revert n. induction l as [|[k' y] l IH]; intros [|n]; cbn; [done..|].
  case_decide; [done|]. apply IH.
Qed.

#[export] Instance lru_laws : CacheLaws (LruCache (K:=K) (V:=V)) K V.
Proof.
  split.
  - intros now k c. apply (step_forgets now (OGet k)). intros max ttl l k' x Hl. cbn. unfold spec_get.
    destruct (Lru.find k l) as [[v t]|] eqn:E; [|done]. case_match; cbn [snd].
    + by intros [? _]%drop_key_sub.
    + cbn [jm_get]. case_decide as Hd; [subst; by intros [= <-]|]. by intros [? _]%drop_key_sub.
  - intros now k c v [l Hl] Hg.
    destruct (get_spec now k c l ltac:(apply Hl)) as [H _]. 
    change ((c_get now k c).1) with ((Lru.get now k c).1) in Hg. rewrite H in Hg.
    rewrite (holds_view _ _ _ _ _ Hl). unfold spec_get, Lru.find in Hg.
    destruct (jm_get k l) as [[v' t]|]; [|done]. destruct (Z.ltb_spec t now); [done|].
    injection Hg as <-. by exists t.
  - intros now k v c [l Hl]. destruct (step_holds _ _ now (OSet k v) c l Hl) as [_ Hl'].
    destruct (step_limits now (OSet k v) c) as [Hm Ht]. split; [|exact Ht].
    eexists. cbn [Lru.step snd] in *. change (c_set now k v c) with (Lru.set now k v c). rewrite Hm, Ht. exact Hl'.
  - intros now k v c k' x [l Hl]. destruct (step_holds _ _ now (OSet k v) c l Hl) as [_ Hl'].
    change (c_set now k v c) with (Lru.step now (OSet k v) c).2.
    rewrite (holds_view _ _ _ _ _ Hl'), (holds_view _ _ _ _ _ Hl). cbn. unfold spec_set. intros Hx.
    apply jm_get_take in Hx. cbn [jm_get] in Hx. case_decide as Hd.
    + left. by injection Hx as <-.
    + right. split; [done|]. apply drop_key_sub in Hx as [? _]; [done|]. apply (represents_nodup c), Hl.
  - intros k c. apply (step_forgets 0 (ODelete k)). intros max ttl l k' x Hl. cbn. unfold spec_delete.
    destruct (Lru.find k l); [|done]. by intros [? _]%drop_key_sub.
  - intros k c [l Hl]. destruct (step_holds _ _ 0 (ODelete k) c l Hl) as [_ Hl'].
    change (c_delete k c) with (Lru.step 0 (ODelete k) c).2. rewrite (holds_view _ _ _ _ _ Hl').
    cbn. unfold spec_delete, Lru.find. destruct (jm_get k l) as [x|] eqn:E; [|done]. cbn.
    apply jm_get_delete_eq. apply (represents_nodup c), Hl.
  - intros now c. apply (step_forgets now OSweep). intros max ttl l k x Hl. cbn. unfold spec_sweep.
    by apply jm_get_filter_sub.
Qed.

(** The cache that [new LruCache] makes. *)
Definition empty_lru (max ttl : Z) : LruCache (K:=K) (V:=V) :=
  {| entries := []; head := None; tail := None; maxEntries := max; Lru.ttlMs := ttl |}.

Lemma empty_lru_valid max ttl :
  1 <= max → c_valid (empty_lru max ttl) ∧ c_ttl (empty_lru max ttl) = ttl ∧ ∀ k, c_view (empty_lru max ttl) k = None.
Proof.
  intros Hmax. assert (new_cache max ttl = Some (empty_lru max ttl)) as Hc.
  { unfold new_cache. by destruct (Z.ltb_spec max 1); [lia|]. }
  pose proof (new_cache_holds _ _ _ Hc) as Hh.
  split; [by exists []|]. split; [done|]. intros k. by rewrite (holds_view _ _ _ _ _ Hh).
Qed.
End lru_instance.
