(* ===== verification/RefreshTokens.v ===== *)
(** * Refresh tokens

    Models src/packages/core/src/auth/refresh-tokens.ts: the issue of a token, its rotation
    and the revocation of families and users, over the table street_refresh_tokens, with
    the transactions of src/packages/pool/src/pool.ts ([PgPool.transaction]).

    The statements are the operations on rows that their SQL denotes.  A rotation is a
    transaction that runs one statement per step, so that rotations overlap as they do in
    the database at its default isolation (read committed): a statement sees what is
    committed when it runs and the writes of its own transaction; an update waits for the
    transaction that holds the row; a commit publishes the writes of a transaction at once
    and a rollback drops them.  Random tokens, row ids and the clock are arguments of the
    steps; the hash is a parameter, as is the signature of access tokens, which is left
    out. *)

From Stdlib Require Import Ascii String.
From S2P Require Import Prelude JsMap.

#[local] Open Scope list_scope.
Open Scope Z_scope.

(** ** The table and its transactions *)

Record token_row : Type := {
  t_id : string; token_hash : string; family_id : string; user_id : string;
  expires_at : Z; revoked_at : option Z
}.

Inductive write : Type :=
| Revoke (ids : list string) (now : Z)     (* UPDATE ... SET revoked_at = NOW() *)
| Insert (r : token_row).

Definition revoke_row (now : Z) (r : token_row) : token_row :=
  {| t_id := t_id r; token_hash := token_hash r; family_id := family_id r; user_id := user_id r;
     expires_at := expires_at r; revoked_at := Some now |}.
Definition apply_write (rows : list token_row) (w : write) : list token_row :=
  match w with
  | Revoke ids now => (λ r, if decide (t_id r ∈ ids) then revoke_row now r else r) <$> rows
  | Insert r => rows ++ [r]
  end.
Definition apply_writes : list token_row → list write → list token_row := foldl apply_write.

Definition touched (w : write) : list string := match w with Revoke ids _ => ids | Insert _ => [] end.

(** ** Rotations *)

Inductive token_error : Type := TokenNotFound | TokenReplay | TokenExpired.

Inductive phase : Type :=
| Selecting
| ReplayUpdate (family : string)
| RollingBack (e : token_error)
| OldUpdate (row : token_row)
| NewInsert (row : token_row)
| CommitNow (newRaw : string)
| Returned (r : result token_error string).

Record rotation : Type := { r_hash : string; r_writes : list write; r_phase : phase }.

Record tokens : Type := { rows : list token_row; rotations : list rotation }.
Definition no_tokens : tokens := {| rows := []; rotations := [] |}.

Section service.
Context (sha256 : string → string) (refreshTtlMs : Z).

Definition new_row (id raw family user : string) (now : Z) : token_row :=
  {| t_id := id; token_hash := sha256 raw; family_id := family; user_id := user;
     expires_at := now + refreshTtlMs; revoked_at := None |}.

(** What the statements of a rotation see. *)
Definition visible (db : list token_row) (r : rotation) : list token_row := apply_writes db (r_writes r).

(** The rows that other transactions have written and not committed. *)
Definition locked (k : nat) (w : tokens) : list string :=
  concat (touched <$> concat (r_writes <$> delete k (rotations w))).

Definition live_in (family : string) (db : list token_row) : list string :=
  t_id <$> filter (λ r, family_id r = family ∧ revoked_at r = None) db.

Definition at_phase (p : phase) (r : rotation) : rotation :=
  {| r_hash := r_hash r; r_writes := r_writes r; r_phase := p |}.
Definition wrote (x : write) (p : phase) (r : rotation) : rotation :=
  {| r_hash := r_hash r; r_writes := r_writes r ++ [x]; r_phase := p |}.
Definition ended (res : result token_error string) (r : rotation) : rotation :=
  {| r_hash := r_hash r; r_writes := []; r_phase := Returned res |}.

(** The first row of the answer, and what the code makes of it. *)
Definition found_row (row : option token_row) (now : Z) : phase :=
  match row with
  | None => RollingBack TokenNotFound
  | Some row =>
      match revoked_at row with
      | Some _ => ReplayUpdate (family_id row)
      | None => if expires_at row <? now then RollingBack TokenExpired else OldUpdate row
      end
  end.

(** The next statement of a rotation, if no other transaction holds its rows. *)
Definition rotation_step (db : list token_row) (held : list string) (r : rotation) (now : Z) (newRaw newId : string) :
    list token_row * rotation :=
  match r_phase r with
  | Selecting =>
      (db, at_phase (found_row (head (filter (λ x, token_hash x = r_hash r) (visible db r))) now) r)
  | ReplayUpdate family =>
      let ids := live_in family (visible db r) in
      if decide (Exists (λ i, i ∈ held) ids) then (db, r)
      else (db, wrote (Revoke ids now) (RollingBack TokenReplay) r)
  | OldUpdate row =>
      if decide (t_id row ∈ held) then (db, r)
      else (db, wrote (Revoke [t_id row] now) (NewInsert row) r)
  | NewInsert row =>
      (db, wrote (Insert (new_row newId newRaw (family_id row) (user_id row) now)) (CommitNow newRaw) r)
  | CommitNow raw => (apply_writes db (r_writes r), ended (Ok raw) r)
  | RollingBack e => (db, ended (Throw e) r)
  | Returned _ => (db, r)
  end.

(** ** Events *)

Inductive event : Type :=
| Issue (raw family user id : string) (now : Z)
| Rotate (raw : string)
| Step (k : nat) (now : Z) (newRaw newId : string)
| RevokeFamily (family : string) (now : Z)
| RevokeAll (user : string) (now : Z).

Definition set_rows (x : list token_row) (w : tokens) : tokens :=
  {| rows := x; rotations := rotations w |}.

(** An update outside of the rotations waits as well: it is the event when it runs. *)
Definition update (P : token_row → Prop) `{∀ r, Decision (P r)} (now : Z) (w : tokens) : tokens :=
  let ids := t_id <$> filter P (rows w) in
  if decide (Exists (λ i, i ∈ locked (length (rotations w)) w) ids) then w
  else set_rows (apply_write (rows w) (Revoke ids now)) w.

Definition step (w : tokens) (e : event) : tokens :=
  match e with
  | Issue raw family user id now => set_rows (apply_write (rows w) (Insert (new_row id raw family user now))) w
  | Rotate raw =>
      {| rows := rows w;
         rotations := rotations w ++ [{| r_hash := sha256 raw; r_writes := []; r_phase := Selecting |}] |}
  | Step k now newRaw newId =>
      match rotations w !! k with
      | Some r =>
          let '(db, r) := rotation_step (rows w) (locked k w) r now newRaw newId in
          {| rows := db; rotations := <[k := r]> (rotations w) |}
      | None => w
      end
  | RevokeFamily family now => update (λ r, family_id r = family) now w
  | RevokeAll user now => update (λ r, user_id r = user) now w
  end.
Definition run (w : tokens) (l : list event) : tokens := foldl step w l.

(** A rotation from its start to its end, with nothing in between. *)
Definition rotate (raw : string) (now : Z) (newRaw newId : string) (w : tokens) : tokens :=
  let k := length (rotations w) in
  run w (Rotate raw :: replicate 4 (Step k now newRaw newId)).
Definition answer (w : tokens) : option (result token_error string) :=
  match r_phase <$> last (rotations w) with Some (Returned r) => Some r | _ => None end.

(** ** A rotation that runs alone *)

Definition quiet (w : tokens) : Prop := Forall (λ r, r_writes r = [] ∧ ∃ x, r_phase r = Returned x) (rotations w).

Lemma locked_quiet db rs r :
  Forall (λ r, r_writes r = [] ∧ ∃ x, r_phase r = Returned x) rs →
  locked (length rs) {| rows := db; rotations := rs ++ [r] |} = [].
Proof.
  intros Hrs. unfold locked. cbn [rotations]. rewrite delete_middle, app_nil_r.
  induction Hrs as [|r' rs [Hw _] _ IH]; [done|]. cbn. by rewrite Hw.
Qed.

Fixpoint steps_alone (n : nat) (db : list token_row) (r : rotation) (now : Z) (newRaw newId : string) :
    list token_row * rotation :=
  match n with
  | O => (db, r)
  | S n => let '(db, r) := rotation_step db [] r now newRaw newId in steps_alone n db r now newRaw newId
  end.

Lemma run_steps_alone n db rs r now newRaw newId :
  Forall (λ r, r_writes r = [] ∧ ∃ x, r_phase r = Returned x) rs →
  run {| rows := db; rotations := rs ++ [r] |} (replicate n (Step (length rs) now newRaw newId)) =
    let '(db, r) := steps_alone n db r now newRaw newId in {| rows := db; rotations := rs ++ [r] |}.
Proof.
  intros Hrs. revert db r. induction n as [|n IH]; intros db r; [done|].
  cbn [replicate run foldl step rotations rows steps_alone]. rewrite list_lookup_middle, locked_quiet by done.
  destruct (rotation_step _ _ _ _ _ _) as [db' r'].
  rewrite insert_app_r_alt, Nat.sub_diag by done. apply IH.
Qed.

(** What a rotation of [raw] comes to. *)
Definition outcome (db : list token_row) (raw : string) (now : Z) (newRaw newId : string) :
    list token_row * result token_error string :=
  match head (filter (λ x, token_hash x = sha256 raw) db) with
  | None => (db, Throw TokenNotFound)
  | Some row =>
      match revoked_at row with
      | Some _ => (db, Throw TokenReplay)
      | None =>
          if expires_at row <? now then (db, Throw TokenExpired)
          else (apply_write db (Revoke [t_id row] now) ++
                  [new_row newId newRaw (family_id row) (user_id row) now], Ok newRaw)
      end
  end.

(** A rotation that runs alone, on every branch: an unknown, a used and an expired token
    are refused and the table stays exactly as it was; a live token is revoked, and a new one
    of the same family and user takes its place. In particular a replay revokes nothing: the
    revocation of the family is rolled back by the error that reports it. *)
Lemma rotate_alone w raw now newRaw newId :
  quiet w →
  rows (rotate raw now newRaw newId w) = (outcome (rows w) raw now newRaw newId).1 ∧
  answer (rotate raw now newRaw newId w) = Some (outcome (rows w) raw now newRaw newId).2 ∧
  quiet (rotate raw now newRaw newId w).
Proof.
  intros Hw. unfold rotate, answer, outcome.
  change (run w (Rotate raw :: ?l)) with
    (run {| rows := rows w; rotations := rotations w ++ [{| r_hash := sha256 raw; r_writes := []; r_phase := Selecting |}] |} l).
  rewrite run_steps_alone by done.
  cbn [steps_alone rotation_step r_phase visible apply_writes r_writes foldl r_hash].
  assert (∀ db h x, rows {| rows := db; rotations := rotations w ++ [{| r_hash := h; r_writes := []; r_phase := Returned x |}] |} = db ∧
    match r_phase <$> last (rotations w ++ [{| r_hash := h; r_writes := []; r_phase := Returned x |}]) with
    | Some (Returned r) => Some r | _ => None end = Some x ∧
    quiet {| rows := db; rotations := rotations w ++ [{| r_hash := h; r_writes := []; r_phase := Returned x |}] |}) as Hend.
  { intros db h x. split; [done|]. split; [by rewrite last_snoc|].
    apply Forall_app. split; [exact Hw|]. repeat constructor. by eexists. }
  destruct (head _) as [row|]; cbn [rotation_step found_row at_phase r_phase r_writes r_hash visible apply_writes foldl wrote ended app]; [|apply Hend].
  destruct (revoked_at row) as [x|].
  - cbn [rotation_step at_phase r_phase r_writes r_hash visible apply_writes foldl wrote ended app].
    rewrite decide_False by (by intros (i & _ & ?%not_elem_of_nil)%Exists_exists). apply Hend.
  - destruct (expires_at row <? now); [apply Hend|].
    cbn [rotation_step at_phase r_phase r_writes r_hash visible apply_writes foldl wrote ended app].
    rewrite decide_False by apply not_elem_of_nil. apply Hend.
Qed.

(** ** One live token per family, when rotations do not overlap *)

Inductive serial : tokens → Prop :=
| serial_init : serial no_tokens
| serial_issue w raw family user id now :
    serial w → (∀ r, r ∈ rows w → family_id r ≠ family) → serial (step w (Issue raw family user id now))
| serial_rotate w raw now newRaw newId : serial w → serial (rotate raw now newRaw newId w)
| serial_family w family now : serial w → serial (step w (RevokeFamily family now))
| serial_user w user now : serial w → serial (step w (RevokeAll user now)).

Lemma live_in_app family db db' : live_in family (db ++ db') = live_in family db ++ live_in family db'.
Proof. unfold live_in. by rewrite filter_app, fmap_app. Qed.

Lemma apply_revoke_cons r db ids now :
  apply_write (r :: db) (Revoke ids now) =
    (if decide (t_id r ∈ ids) then revoke_row now r else r) :: apply_write db (Revoke ids now).
Proof. reflexivity. Qed.

(** The live tokens of a family after an update are among those before it. *)
Lemma live_in_revoke family ids now db :
  live_in family (apply_write db (Revoke ids now)) = filter (λ i, i ∉ ids) (live_in family db).
Proof.
  unfold live_in. induction db as [|r db IH]; [done|]. rewrite apply_revoke_cons.
  destruct (decide (t_id r ∈ ids)) as [Hin|Hin].
  - rewrite filter_cons_False by (by intros [_ ?]).
    destruct (decide (family_id r = family ∧ revoked_at r = None)).
    + rewrite (filter_cons_True _ r), fmap_cons, filter_cons_False by tauto. exact IH.
    + rewrite (filter_cons_False _ r) by done. exact IH.
  - destruct (decide (family_id r = family ∧ revoked_at r = None)).
    + rewrite !(filter_cons_True _ r), !fmap_cons, filter_cons_True by done. f_equal. exact IH.
    + rewrite !(filter_cons_False _ r) by done. exact IH.
Qed.

Lemma live_in_revoke_le family ids now db :
  (length (live_in family (apply_write db (Revoke ids now))) <= length (live_in family db))%nat.
Proof. rewrite live_in_revoke. apply length_filter. Qed.

Lemma live_in_new family i raw fam user now :
  live_in family [new_row i raw fam user now] = if decide (fam = family) then [i] else [].
Proof.
  unfold live_in. case_decide; [by rewrite filter_cons_True by done|].
  rewrite filter_cons_False; [done|]. by intros [? _].
Qed.

Lemma update_rows (P : token_row → Prop) `{∀ r, Decision (P r)} now w :
  (rows (update P now w) = rows w ∨ ∃ ids, rows (update P now w) = apply_write (rows w) (Revoke ids now)) ∧
  rotations (update P now w) = rotations w.
Proof. unfold update. case_decide; [by split; [left|]|]. split; [right; by eexists|done]. Qed.

(** as long as rotations do not overlap, a family has at most one live token, whatever
    is issued, rotated, replayed and revoked. *)
Theorem one_live_per_family w :
  serial w → quiet w ∧ ∀ family, (length (live_in family (rows w)) <= 1)%nat.
Proof.
  induction 1 as [|w raw fam user i now _ [Hq IH] Hfresh|w raw now newRaw newId _ [Hq IH]
    |w fam now _ [Hq IH]|w user now _ [Hq IH]].
  - split; [constructor|]. intros. cbn. lia.
  - split; [done|]. intros family. cbn [step set_rows rows apply_write].
    rewrite live_in_app, live_in_new, length_app. case_decide as E; [subst fam|cbn; specialize (IH family); lia].
    assert (live_in family (rows w) = []) as ->; [|cbn; lia].
    unfold live_in. rewrite filter_none; [done|]. apply Forall_forall. intros r Hr [E _]. by apply (Hfresh r).
  - destruct (rotate_alone w raw now newRaw newId Hq) as (Hrows & _ & Hq'). split; [done|].
    intros family. rewrite Hrows. unfold outcome.
    destruct (head _) as [row|] eqn:Eh; [|apply IH]. destruct (revoked_at row) eqn:Er; [apply IH|].
    destruct (expires_at row <? now); [apply IH|]. cbn [fst].
    rewrite live_in_app, live_in_new, length_app. specialize (IH family).
    case_decide as Efam; [|cbn [length]; pose proof (live_in_revoke_le family [t_id row] now (rows w)); lia].
    assert (row ∈ rows w) as Hin.
    { destruct (filter _ (rows w)) as [|x l] eqn:Ef; [done|]. injection Eh as <-.
      assert (x ∈ x :: l) as Hx by left. rewrite <-Ef in Hx. by apply list_elem_of_filter in Hx as [_ ?]. }
    assert (t_id row ∈ live_in family (rows w)) as Hlive.
    { unfold live_in. apply list_elem_of_fmap. exists row. split; [done|]. by apply list_elem_of_filter. }
    rewrite live_in_revoke.
    destruct (live_in family (rows w)) as [|i [|? ?]]; [by apply not_elem_of_nil in Hlive| |cbn in IH; lia].
    apply list_elem_of_singleton in Hlive as <-. rewrite filter_cons_False; [done|]. set_solver.
  - cbn [step]. destruct (update_rows (λ r, family_id r = fam) now w) as [[-> |[ids ->]] Hrot];
      (split; [unfold quiet; by rewrite Hrot|]); [done|].
    intros family. etransitivity; [apply live_in_revoke_le|done].
  - cbn [step]. destruct (update_rows (λ r, user_id r = user) now w) as [[-> |[ids ->]] Hrot];
      (split; [unfold quiet; by rewrite Hrot|]); [done|].
    intros family. etransitivity; [apply live_in_revoke_le|done].
Qed.

(** ** Used tokens are dead, however rotations overlap *)

Definition dead (h : string) (db : list token_row) : Prop :=
  Forall (λ r, token_hash r = h → revoked_at r ≠ None) db.
Definition spares_hash (h : string) (w : write) : Prop :=
  match w with Revoke _ _ => True | Insert r => token_hash r ≠ h end.

Lemma apply_write_dead h db x : spares_hash h x → dead h db → dead h (apply_write db x).
Proof.
  unfold dead. destruct x as [ids now|r]; intros Hx Hdb.
  - induction Hdb as [|r db Hr _ IH]; [constructor|]. rewrite apply_revoke_cons. constructor; [|exact IH].
    case_decide; [done|exact Hr].
  - apply Forall_app. split; [done|]. constructor; [|done]. intros E. by destruct (Hx E).
Qed.
Lemma apply_writes_dead h xs : ∀ db, Forall (spares_hash h) xs → dead h db → dead h (apply_writes db xs).
Proof.
  induction xs as [|x xs IH]; intros db Hxs Hdb; [done|]. apply Forall_cons in Hxs as [Hx Hxs].
  by apply IH, apply_write_dead.
Qed.

(** The rotation has not read the token [h] as live and gone on with it, and does not make
    it anew. *)
Definition harmless (h : string) (r : rotation) : Prop :=
  Forall (spares_hash h) (r_writes r) ∧
  (r_hash r = h →
   match r_phase r with OldUpdate _ | NewInsert _ | CommitNow _ => False | _ => True end).

(** The rotation of [h] has ended with a new token. *)
Definition succeeded (h : string) (r : rotation) : Prop :=
  r_hash r = h ∧ ∃ raw, r_phase r = Returned (Ok raw).

(** Random tokens do not collide with [h]. *)
Definition fresh_for (h : string) (e : event) : Prop :=
  match e with
  | Issue raw _ _ _ _ => sha256 raw ≠ h
  | Step _ _ newRaw _ => sha256 newRaw ≠ h
  | _ => True
  end.

Lemma rotation_step_dead h db held r now newRaw newId :
  sha256 newRaw ≠ h → dead h db → harmless h r →
  let '(db', r') := rotation_step db held r now newRaw newId in
  dead h db' ∧ harmless h r' ∧ (succeeded h r' → r' = r).
Proof.
  intros Hnew Hdb Hr. pose proof Hr as [Hw Hph]. unfold rotation_step.
  assert (∀ x, Forall (spares_hash h) (r_writes r) → spares_hash h x → Forall (spares_hash h) (r_writes r ++ [x]))
    as Hsnoc by (intros; apply Forall_app; by repeat constructor).
  destruct (r_phase r) as [|fam|e|row|row|raw|x] eqn:Ep.
  - split; [done|]. split; [split; [done|]|]; cbn; unfold succeeded, found_row; cbn.
    + intros Eh. destruct (head _) as [row|] eqn:Erow; [|done]. destruct (revoked_at row) eqn:Er; [done|].
      assert (row ∈ visible db r ∧ token_hash row = h) as [Hin Ehash].
      { destruct (filter _ (visible db r)) as [|x l] eqn:Ef; [done|]. injection Erow as <-.
        assert (x ∈ x :: l) as Hx by left. rewrite <-Ef in Hx. apply list_elem_of_filter in Hx as [H1 ?].
        split; [done|congruence]. }
      pose proof (apply_writes_dead h _ db Hw Hdb) as Hv. unfold dead in Hv. rewrite Forall_forall in Hv.
      by destruct (Hv row Hin Ehash).
    + intros [_ [raw H]]. by repeat case_match.
  - case_decide; [done|]. split; [done|]. split; [split; [by apply Hsnoc|done]|]. by intros [_ [? ?]].
  - split; [done|]. split; [done|]. by intros [_ [? ?]].
  - case_decide; [done|]. split; [done|]. split; [split; [by apply Hsnoc|done]|]. by intros [_ [? ?]].
  - split; [done|]. split; [split; [by apply Hsnoc|done]|]. by intros [_ [? ?]].
  - split; [by apply apply_writes_dead|]. split; [done|]. intros [Eh _]. by destruct (Hph Eh).
  - done.
Qed.

(** No rotation of [h] has succeeded that had not before. *)
Definition none_new (h : string) (w w' : tokens) : Prop :=
  ∀ k r, rotations w' !! k = Some r → succeeded h r → rotations w !! k = Some r.

Lemma step_dead h w e :
  fresh_for h e → dead h (rows w) → Forall (harmless h) (rotations w) →
  dead h (rows (step w e)) ∧ Forall (harmless h) (rotations (step w e)) ∧ none_new h w (step w e).
Proof.
  intros Hf Hdb Hr. destruct e as [raw fam user id now|raw|k now newRaw newId|fam now|user now]; cbn [step].
  - split; [by apply apply_write_dead|]. split; [done|]. by intros ? ?.
  - split; [done|]. split; [apply Forall_app; split; [done|]; repeat constructor|].
    intros k r [?|[_ Hk]]%lookup_app_Some; [done|]. apply list_lookup_singleton_Some in Hk as [_ <-].
    by intros [_ [? ?]].
  - destruct (rotations w !! k) as [r|] eqn:Ek; [|split_and!; [done..|by intros ? ?]].
    pose proof Hr as Hr'. rewrite Forall_lookup in Hr'. specialize (Hr' _ _ Ek).
    pose proof (rotation_step_dead h (rows w) (locked k w) r now newRaw newId Hf Hdb Hr') as H.
    destruct (rotation_step _ _ _ _ _ _) as [db r']. destruct H as (H1 & H2 & H3).
    split; [done|]. split; [by apply Forall_insert|]. cbn. intros i x Hi Hx.
    apply list_lookup_insert_Some in Hi as [(-> & <- & _)|[_ ?]]; [|done]. by rewrite (H3 Hx).
  - destruct (update_rows (λ r, family_id r = fam) now w) as [Hrows Hrot]. unfold none_new. rewrite Hrot.
    split; [|done]. destruct Hrows as [-> |[ids ->]]; [done|]. by apply apply_write_dead.
  - destruct (update_rows (λ r, user_id r = user) now w) as [Hrows Hrot]. unfold none_new. rewrite Hrot.
    split; [|done]. destruct Hrows as [-> |[ids ->]]; [done|]. by apply apply_write_dead.
Qed.

(** C27: once a token is revoked, as by the rotation that used it, and no rotation that has
    read it as live is still under way, it stays revoked and no further rotation of it ever
    succeeds, however rotations, issues and revocations overlap from then on, as long as no
    new token hashes to the same value. *)
Theorem used_token_is_dead w l raw :
  dead (sha256 raw) (rows w) → Forall (harmless (sha256 raw)) (rotations w) →
  Forall (fresh_for (sha256 raw)) l →
  dead (sha256 raw) (rows (run w l)) ∧
  ∀ k r, rotations (run w l) !! k = Some r → succeeded (sha256 raw) r → rotations w !! k = Some r.
Proof.
  intros Hdb Hr Hl. revert w Hdb Hr. induction Hl as [|e l He _ IH]; intros w Hdb Hr; [done|].
  destruct (step_dead (sha256 raw) w e He Hdb Hr) as (H1 & H2 & H3).
  destruct (IH (step w e) H1 H2) as [H4 H5]. split; [done|]. intros k r Hk Hs.
  by apply H3; [apply H5|].
Qed.
End service.

(** ** Concrete runs (the hash is the identity here) *)

Definition ttl : Z := 30 * 24 * 60 * 60 * 1000.
Abbreviation run1 := (run (λ s, s) ttl).
Abbreviation rotate1 := (rotate (λ s, s) ttl).

(** The thief rotates the stolen token first; when the owner presents it, the replay is
    reported and the family said to be revoked, but the thief's token still works. *)
Theorem replay_leaves_family_alive :
  let w := rotate1 "stolen" 5 "thief" "2" (run1 no_tokens [Issue "stolen" "f" "ada" "1" 0]) in
  let w' := rotate1 "stolen" 9 "x" "3" w in
  answer w' = Some (Throw TokenReplay) ∧ live_in "f" (rows w') = ["2"]%string ∧
  answer (rotate1 "thief" 10 "thief2" "4" w') = Some (Ok "thief2"%string).
Proof. vm_compute. done. Qed.

(** Two rotations of one token that overlap: both have read it before either update, both
    succeed, and the family has two live tokens. *)
Theorem rotated_twice :
  let w := run1 no_tokens [Issue "t" "f" "ada" "1" 0; Rotate "t"; Rotate "t"; Step 0 5 "a" "2"; Step 1 5 "b" "3";
    Step 0 5 "a" "2"; Step 0 5 "a" "2"; Step 0 5 "a" "2"; Step 1 6 "b" "3"; Step 1 6 "b" "3"; Step 1 6 "b" "3"] in
  (r_phase <$> rotations w) = [Returned (Ok "a"); Returned (Ok "b")]%string ∧
  live_in "f" (rows w) = ["2"; "3"]%string.
Proof. vm_compute. done. Qed.

(** ** Witnesses *)

Lemma one_live_per_family_witness :
  let w := rotate1 "t" 5 "u" "2" (step (λ s, s) ttl no_tokens (Issue "t" "f" "ada" "1" 0)) in
  live_in "f" (rows w) = ["2"]%string ∧ (length (live_in "f" (rows w)) <= 1)%nat.
Proof.
  intros w. split; [reflexivity|].
  apply (one_live_per_family (λ s, s) ttl w). apply serial_rotate, serial_issue; [apply serial_init|].
  intros r Hr. by apply not_elem_of_nil in Hr.
Defined.

(** The token is rotated and then presented twice more, while its successor is rotated. *)
Lemma used_token_is_dead_witness :
  let w := rotate1 "t" 5 "u" "2" (run1 no_tokens [Issue "t" "f" "ada" "1" 0]) in
  let w' := run1 w [Rotate "t"; Rotate "u"; Step 1 6 "x" "3"; Step 2 6 "v" "4"; Rotate "t"; Step 2 6 "v" "4";
    Step 3 7 "y" "5"; Step 2 7 "v" "4"; Step 1 8 "x" "3"; Step 3 8 "y" "5"; Step 2 9 "v" "4"; Step 1 9 "x" "3";
    Step 1 9 "x" "3"; Step 3 9 "y" "5"] in
  (r_phase <$> rotations w') =
    [Returned (Ok "u"); Returned (Throw TokenReplay); Returned (Ok "v"); RollingBack TokenReplay]%string ∧
  ∀ k r, rotations w' !! k = Some r → succeeded "t" r → rotations w !! k = Some r.
Proof.
  intros w w'. split; [vm_compute; reflexivity|].
  refine (proj2 (used_token_is_dead (λ s, s) ttl w _ "t" _ _ _)).
  - vm_compute. repeat constructor; discriminate.
  - vm_compute. repeat constructor.
  - repeat constructor; discriminate.
Defined.
