(* ===== verification/Rbac.v ===== *)
(** * Role-based access control

    Models src/packages/core/src/auth/rbac.ts: the flattening of a role hierarchy into
    permission sets, the checks of [RbacService], and the guard.

    The hierarchy and the permissions are objects with role names as keys, read here as
    association lists (a role named as a member of [Object.prototype], such as
    [constructor], would be read from there by the code). The loop of the breadth-first
    search has a fuel, and the theorem on it holds for the fuel that the code's callers
    give it here: one turn for the role and one for every entry of the hierarchy. *)

From Stdlib Require Import Ascii String.
From stdpp Require Import relations.
From S2P Require Import Prelude JsMap.

#[local] Open Scope list_scope.

Abbreviation hierarchy := (list (string * list string)).

Section rbac.
Context (roles perms : hierarchy).     (* hierarchy, rolePermissions *)

Definition inherited (role : string) : list string := default [] (jm_get role roles).
Definition granted (role : string) : list string := default [] (jm_get role perms).

(** The loop of [_flattenPerms]: its queue, [visited] and [result]. *)
Fixpoint flatten (fuel : nat) (queue visited result : list string) : option (list string) :=
  match queue with
  | [] => Some result
  | role :: queue =>
      match fuel with
      | O => None
      | S fuel =>
          if decide (role ∈ visited) then flatten fuel queue visited result
          else
            let visited := set_add role visited in
            flatten fuel (queue ++ filter (λ i, i ∉ visited) (inherited role)) visited
              (foldl (λ s p, set_add p s) result (granted role))
      end
  end.

Definition edges : nat := length (concat (snd <$> roles)).
Definition flattenPerms (startRole : string) : list string :=
  default [] (flatten (S edges) [startRole] [] []).

(** The constructor: every role of the hierarchy, then the others that have permissions. *)
Definition rolePerms : list (string * list string) :=
  foldl (λ m role, if jm_has role m then m else jm_set role (flattenPerms role) m)
    (foldl (λ m role, jm_set role (flattenPerms role) m) [] (jm_keys roles)) (jm_keys perms).

Definition isInherited (fromRole targetRole : string) : bool := false.
Definition hasRole (userRoles : list string) (requiredRole : string) : bool :=
  if decide (requiredRole ∈ userRoles) then true
  else existsb (λ u, bool_decide (u = requiredRole) || isInherited u requiredRole) userRoles.
Definition hasPermission (userRoles : list string) (permission : string) : bool :=
  existsb (λ r, match jm_get r rolePerms with
                | Some ps => bool_decide (permission ∈ ps)
                | None => false
                end) userRoles.

(** ** The guard *)

Inductive denial : Type := DeniedRoles (required : list string) | DeniedPermissions (required : list string).

(** The request: the roles of its user ([[]] without one), and what the route requires. *)
Record request : Type := {
  userRoles : list string; requiredRoles : list string; requiredPermissions : list string
}.

(** The audit entries that were written, and whether [next] runs. *)
Definition rbacGuard (audited : bool) (r : request) : list denial * result denial unit :=
  let denied d := (if audited then [d] else [], Throw d) in
  if negb (bool_decide (requiredRoles r = [])) &&
     negb (existsb (hasRole (userRoles r)) (requiredRoles r)) then denied (DeniedRoles (requiredRoles r))
  else if negb (bool_decide (requiredPermissions r = [])) &&
     negb (forallb (hasPermission (userRoles r)) (requiredPermissions r))
  then denied (DeniedPermissions (requiredPermissions r))
  else ([], Ok tt).

(** ** What a role inherits *)

Definition inherits (a b : string) : Prop := b ∈ inherited a.
(** The permissions of a role and of all it inherits, directly or not. *)
Definition effective (role p : string) : Prop := ∃ r, rtc inherits role r ∧ p ∈ granted r.

Lemma elem_of_add_all (p : string) (l : list string) : ∀ s, p ∈ foldl (λ s p, set_add p s) s l ↔ p ∈ s ∨ p ∈ l.
Proof.
  induction l as [|q l IH]; intros s; cbn; [set_solver|].
  rewrite IH, elem_of_set_add. set_solver.
Qed.

(** The edges that start from roles which are not visited yet. *)
Definition open_edges (visited : list string) : nat :=
  length (concat (snd <$> filter (λ e, e.1 ∉ visited) roles)).

Lemma open_edges_visit role visited :
  role ∉ visited → (length (inherited role) + open_edges (set_add role visited) <= open_edges visited)%nat.
Proof.
  intros Hrole. unfold inherited, open_edges.
  assert (∀ l : hierarchy,
    (length (concat (snd <$> filter (λ e, e.1 ∉ set_add role visited) l)) +
     length (default [] (jm_get role l)) <= length (concat (snd <$> filter (λ e, e.1 ∉ visited) l)))%nat) as H;
    [|specialize (H roles); lia].
  assert (∀ l : hierarchy,
    (length (concat (snd <$> filter (λ e, e.1 ∉ set_add role visited) l)) <=
     length (concat (snd <$> filter (λ e, e.1 ∉ visited) l)))%nat) as Hle.
  { induction l as [|[k ks] l IH]; [done|]. destruct (decide (k ∈ visited)) as [Hk|Hk].
    - rewrite !filter_cons_False; [exact IH|cbn; tauto|cbn; rewrite elem_of_set_add; tauto].
    - rewrite (filter_cons_True (λ e : string * list string, e.1 ∉ visited)) by done. destruct (decide (k = role)) as [->|Hne].
      + rewrite filter_cons_False by (cbn; rewrite elem_of_set_add; tauto). cbn. rewrite length_app. lia.
      + rewrite filter_cons_True by (cbn; rewrite elem_of_set_add; tauto). cbn. rewrite !length_app. lia. }
  induction l as [|[k ks] l IH]; [done|]. cbn [jm_get]. destruct (decide (role = k)) as [<-|Hne].
  - rewrite (filter_cons_True (λ e : string * list string, e.1 ∉ visited)) by done.
    rewrite filter_cons_False by (cbn; rewrite elem_of_set_add; tauto).
    specialize (Hle l). cbn. rewrite length_app. lia.
  - destruct (decide (k ∈ visited)) as [Hk|Hk].
    + rewrite !filter_cons_False; [exact IH|cbn; tauto|cbn; rewrite elem_of_set_add; tauto].
    + rewrite !filter_cons_True; [|done|cbn; rewrite elem_of_set_add; naive_solver]. cbn. rewrite !length_app. lia.
Qed.

(** The state of the loop: everything reachable has been visited, with its permissions, or
    can be reached from the queue without passing a visited role. *)
Record loop_ok (start : string) (queue visited result : list string) : Prop := {
  lo_sound r : r ∈ queue ∨ r ∈ visited → rtc inherits start r;
  lo_start : start ∈ queue ∨ start ∈ visited;
  lo_closed r r' : r ∈ visited → inherits r r' → r' ∈ visited ∨ r' ∈ queue;
  lo_result p : p ∈ result ↔ ∃ r, r ∈ visited ∧ p ∈ granted r
}.

Lemma loop_done start visited result :
  loop_ok start [] visited result → ∀ p, p ∈ result ↔ effective start p.
Proof.
  intros [Hs Hst Hc Hr] p. rewrite Hr. unfold effective.
  assert (∀ a r, rtc inherits a r → a ∈ visited → r ∈ visited) as Hv.
  { intros a r. induction 1 as [|a b c Hab _ IH]; [done|]. intros Ha. apply IH.
    destruct (Hc a b Ha Hab) as [?|?%not_elem_of_nil]; done. }
  destruct Hst as [?%not_elem_of_nil|Hst]; [done|].
  split; intros (r & H1 & H2); exists r; (split; [|done]); [by apply Hs; right|by apply (Hv start)].
Qed.

Lemma loop_skip start role queue visited result :
  role ∈ visited → loop_ok start (role :: queue) visited result → loop_ok start queue visited result.
Proof.
  intros Hin [Hs Hst Hc Hr]. split; [|set_solver| |done].
  - intros r Hq. apply Hs. set_solver.
  - intros r r' Hv Hi. destruct (Hc r r' Hv Hi) as [?|[-> |?]%elem_of_cons]; auto.
Qed.

Lemma loop_visit start role queue visited result :
  role ∉ visited → loop_ok start (role :: queue) visited result →
  loop_ok start (queue ++ filter (λ i, i ∉ set_add role visited) (inherited role)) (set_add role visited)
    (foldl (λ s p, set_add p s) result (granted role)).
Proof.
  intros Hnew [Hs Hst Hc Hr].
  assert (rtc inherits start role) as Hrole by (apply Hs; left; by left).
  split.
  - intros r. rewrite elem_of_app, list_elem_of_filter, elem_of_set_add.
    intros [[Hq|[_ Hi]]|[->|Hv]]; [apply Hs; left; by right| |done|by apply Hs; right].
    by eapply rtc_r.
  - rewrite elem_of_app, elem_of_set_add. rewrite elem_of_cons in Hst.
    destruct Hst as [[->|?]|?]; tauto.
  - intros r r'. rewrite !elem_of_set_add, elem_of_app, list_elem_of_filter, elem_of_set_add.
    intros [->|Hv] Hi.
    + destruct (decide (r' ∈ visited)); [tauto|]. destruct (decide (r' = role)); [tauto|].
      right. right. split; [tauto|done].
    + destruct (Hc r r' Hv Hi) as [?|[-> |?]%elem_of_cons]; tauto.
  - intros p. rewrite elem_of_add_all, Hr. setoid_rewrite elem_of_set_add. split.
    + intros [(r & ? & ?)|?]; [exists r|exists role]; tauto.
    + intros (r & [->|?] & ?); [by right|]. left. by exists r.
Qed.

Lemma flatten_exact start p :
  ∃ out, flatten (S edges) [start] [] [] = Some out ∧ (p ∈ out ↔ effective start p).
Proof.
  assert (∀ fuel queue visited result,
    (length queue + open_edges visited <= fuel)%nat → loop_ok start queue visited result →
    ∃ out, flatten fuel queue visited result = Some out ∧ (p ∈ out ↔ effective start p)) as H.
  { induction fuel as [|fuel IH]; intros queue visited result Hfuel Hok;
      destruct queue as [|role queue]; cbn [flatten].
    1, 3: exists result; split; [done|]; by apply (loop_done start visited).
    - cbn in Hfuel. lia.
    - cbn [length] in Hfuel. case_decide as Hin.
      + apply IH; [lia|by eapply loop_skip].
      + apply IH; [|by apply loop_visit]. rewrite length_app.
        pose proof (open_edges_visit role visited Hin). 
        pose proof (length_filter (λ i, i ∉ set_add role visited) (inherited role)). lia. }
  apply H.
  - cbn. unfold open_edges, edges. rewrite filter_all; [lia|]. apply Forall_forall. intros e _. set_solver.
  - split.
    + intros r [->%list_elem_of_singleton|?%not_elem_of_nil]; done.
    + left. by apply list_elem_of_singleton.
    + by intros r r' ?%not_elem_of_nil.
    + intros q. split; [by intros ?%not_elem_of_nil|]. by intros (r & ?%not_elem_of_nil & _).
Qed.

Lemma flattenPerms_spec role p : p ∈ flattenPerms role ↔ effective role p.
Proof.
  destruct (flatten_exact role p) as (out & Hout & Hp). unfold flattenPerms. by rewrite Hout.
Qed.

(** ** The checks *)

Lemma rolePerms_get role :
  jm_get role rolePerms =
    if decide (role ∈ jm_keys roles ∨ role ∈ jm_keys perms) then Some (flattenPerms role) else None.
Proof.
  unfold rolePerms.
  assert (∀ ks m, jm_get role (foldl (λ m r, jm_set r (flattenPerms r) m) m ks) =
    if decide (role ∈ ks) then Some (flattenPerms role) else jm_get role m) as H1.
  { induction ks as [|k ks IH]; intros m; [done|]. cbn [foldl]. rewrite IH.
    destruct (decide (role ∈ k :: ks)) as [Hin|Hin]; rewrite elem_of_cons in Hin.
    - case_decide; [done|]. destruct Hin as [->|?]; [apply jm_get_set_eq|done].
    - rewrite decide_False by tauto. apply jm_get_set_ne. tauto. }
  assert (∀ ks m, jm_get role (foldl (λ m r, if jm_has r m then m else jm_set r (flattenPerms r) m) m ks) =
    match jm_get role m with Some s => Some s
    | None => if decide (role ∈ ks) then Some (flattenPerms role) else None end) as H2.
  { induction ks as [|k ks IH]; intros m; [cbn; by case_match|]. cbn [foldl]. rewrite IH.
    unfold jm_has. destruct (decide (role = k)) as [->|Hne].
    - destruct (decide (k ∈ k :: ks)) as [_|[]]; [|by left].
      destruct (jm_get k m) as [s|] eqn:E; [by rewrite E|]. by rewrite jm_get_set_eq.
    - assert (∀ A (a b : A), (if decide (role ∈ k :: ks) then a else b) = if decide (role ∈ ks) then a else b) as Hd.
      { intros A a b. destruct (decide (role ∈ ks)); [by rewrite decide_True by set_solver|].
        by rewrite decide_False by set_solver. }
      rewrite Hd. destruct (jm_get k m); [done|]. by rewrite jm_get_set_ne. }
  rewrite H2, H1. cbn [jm_get].
  destruct (decide (role ∈ jm_keys roles)); [by rewrite decide_True by tauto|].
  destruct (decide (role ∈ jm_keys perms)); [by rewrite decide_True by tauto|].
  by rewrite decide_False by tauto.
Qed.

(** the search of the constructor ends, for every hierarchy, cyclic or not, and the set it
    stores for a role holds exactly the permissions of the role and of every role that it
    inherits, directly or through others. *)
Theorem rolePerms_are_reachable role :
  match jm_get role rolePerms with
  | Some ps =>
      flatten (S edges) [role] [] [] = Some ps ∧
      (∀ p, p ∈ ps ↔ ∃ r, rtc inherits role r ∧ p ∈ granted r)
  | None => ¬ (role ∈ jm_keys roles ∨ role ∈ jm_keys perms)
  end.
Proof.
  rewrite rolePerms_get. case_decide; [|done]. split; [|apply flattenPerms_spec].
  destruct (flatten_exact role EmptyString) as (out & Hout & _). unfold flattenPerms. by rewrite Hout.
Qed.

(** A role of neither object has no permission. *)
Lemma effective_registered role p :
  effective role p → role ∈ jm_keys roles ∨ role ∈ jm_keys perms.
Proof.
  intros (r & Hr & Hp). destruct Hr as [|a b c Hab _].
  - right. unfold granted in Hp. apply jm_get_in_keys. destruct (jm_get x perms); [by eexists|].
    by apply not_elem_of_nil in Hp.
  - left. unfold inherits, inherited in Hab. apply jm_get_in_keys. destruct (jm_get a roles); [by eexists|].
    by apply not_elem_of_nil in Hab.
Qed.

Lemma hasPermission_spec us p :
  hasPermission us p = true ↔ ∃ role, role ∈ us ∧ effective role p.
Proof.
  unfold hasPermission. rewrite existsb_exists. setoid_rewrite <-list_elem_of_In.
  split; intros (role & Hin & H); exists role; (split; [done|]).
  - rewrite rolePerms_get in H. case_decide; [|done]. apply bool_decide_eq_true in H.
    by apply flattenPerms_spec.
  - rewrite rolePerms_get, decide_True by (by eapply effective_registered).
    by apply bool_decide_eq_true, flattenPerms_spec.
Qed.

Lemma hasRole_spec us role : hasRole us role = true ↔ role ∈ us.
Proof.
  unfold hasRole. case_decide; [done|]. rewrite existsb_exists. split; [|done].
  intros (u & Hu & Heq). unfold isInherited in Heq. rewrite orb_false_r in Heq.
  apply bool_decide_eq_true in Heq as ->. by apply list_elem_of_In.
Qed.

(** the guard lets a request through exactly when its user has one of the required roles
    itself, if there are any, and for every required permission some role that holds it or
    inherits it; otherwise it throws, and an audit entry is written when there is a
    writer. *)
Theorem guard_exact audited r :
  let allowed :=
    (requiredRoles r = [] ∨ ∃ role, role ∈ requiredRoles r ∧ role ∈ userRoles r) ∧
    (∀ p, p ∈ requiredPermissions r → ∃ role, role ∈ userRoles r ∧ effective role p) in
  (rbacGuard audited r = ([], Ok tt) ↔ allowed) ∧
  (¬ allowed → ∃ d, rbacGuard audited r = (if audited then [d] else [], Throw d)).
Proof.
  intros allowed. unfold rbacGuard.
  destruct (negb (bool_decide (requiredRoles r = [])) && negb (existsb (hasRole (userRoles r)) (requiredRoles r))) eqn:E1.
  - apply andb_true_iff in E1 as [Hne%negb_true_iff Hno%negb_true_iff].
    apply bool_decide_eq_false in Hne.
    assert (¬ allowed) as Hn.
    { intros [[?|(role & Hr & Hu)] _]; [done|]. apply not_true_iff_false in Hno. apply Hno, existsb_exists.
      exists role. split; [by apply list_elem_of_In|by apply hasRole_spec]. }
    split; [|eauto]. split; [by destruct audited|done].
  - assert (requiredRoles r = [] ∨ ∃ role, role ∈ requiredRoles r ∧ role ∈ userRoles r) as Hroles.
    { apply andb_false_iff in E1 as [H%negb_false_iff|H%negb_false_iff].
      - left. by apply bool_decide_eq_true in H.
      - right. apply existsb_exists in H as (role & Hin & H). exists role.
        split; [by apply list_elem_of_In|by apply hasRole_spec]. }
    destruct (negb (bool_decide (requiredPermissions r = [])) &&
      negb (forallb (hasPermission (userRoles r)) (requiredPermissions r))) eqn:E2.
    + apply andb_true_iff in E2 as [_ Hno%negb_true_iff].
      assert (¬ allowed) as Hn.
      { intros [_ Hall]. apply not_true_iff_false in Hno. apply Hno, forallb_forall. intros p Hp.
        apply hasPermission_spec, Hall. by apply list_elem_of_In. }
      split; [|eauto]. split; [by destruct audited|done].
    + assert (allowed) as Ha; [|by split].
      split; [done|]. intros p Hp. apply andb_false_iff in E2 as [H%negb_false_iff|H%negb_false_iff].
      * apply bool_decide_eq_true in H. rewrite H in Hp. by apply not_elem_of_nil in Hp.
      * rewrite forallb_forall in H. apply hasPermission_spec, H. by apply list_elem_of_In.
Qed.
End rbac.

(** ** A hierarchy *)

Definition staff : hierarchy := [("admin", ["editor"]); ("editor", ["viewer"]); ("viewer", [])]%string.
Definition staff_perms : hierarchy := [("viewer", ["read"]); ("editor", ["write"])]%string.

(** [hasRole] is documented to look at inheritance: an admin inherits editor, but is refused
    where an editor is required, although it has every permission of one. *)
Theorem inherited_role_refused :
  inherits staff "admin" "editor" ∧ hasRole ["admin"%string] "editor" = false ∧
  hasPermission staff staff_perms ["admin"%string] "write" = true ∧
  rbacGuard staff staff_perms true {| userRoles := ["admin"%string]; requiredRoles := ["editor"%string]; requiredPermissions := [] |} =
    ([DeniedRoles ["editor"%string]], Throw (DeniedRoles ["editor"%string])).
Proof. split; [by left|]. vm_compute. done. Qed.

(** ** Witnesses *)

Lemma rolePerms_are_reachable_witness :
  ∃ ps, jm_get "admin"%string (rolePerms staff staff_perms) = Some ps ∧ "read"%string ∈ ps.
Proof.
  pose proof (rolePerms_are_reachable staff staff_perms "admin") as H.
  destruct (jm_get "admin"%string (rolePerms staff staff_perms)) as [ps|] eqn:E; [|vm_compute in E; discriminate].
  exists ps. split; [reflexivity|]. apply (proj2 H). exists "viewer"%string. split; [|left].
  apply (rtc_l _ _ "editor"%string); [left|]. apply rtc_once. left.
Defined.

Lemma guard_exact_witness :
  ¬ ((["viewer"%string] = [] ∨ ∃ role, role ∈ ["viewer"%string] ∧ role ∈ ["admin"%string]) ∧
     (∀ p, p ∈ ([] : list string) → ∃ role, role ∈ ["admin"%string] ∧ effective staff staff_perms role p)).
Proof.
  intros H. assert (rbacGuard staff staff_perms false {| userRoles := ["admin"%string];
    requiredRoles := ["viewer"%string]; requiredPermissions := [] |} ≠ ([], Ok tt)) as Hno by (vm_compute; discriminate).
  apply Hno. apply (guard_exact staff staff_perms false {| userRoles := ["admin"%string];
    requiredRoles := ["viewer"%string]; requiredPermissions := [] |}). exact H.
Defined.
