(* ===== verification/ApiKeys.v ===== *)
(** * API keys

    Models src/packages/core/src/auth/api-keys.ts: keys in the table street_api_keys, their
    verification through a cache of answers, and their revocation.

    A verification and a revocation stop at every query, so that they overlap; a query runs
    in the database at one moment ([Execute]), and its answer arrives at a later one
    ([Deliver]). The statements are the operations on rows that their SQL denotes. The
    cache is any that keeps the promises of CacheSpec.v; the hash, the random part of a key,
    row ids and the clock are arguments. The dates of a row are read as numbers. *)

From Stdlib Require Import Ascii String.
From S2P Require Import Prelude JsMap CacheSpec.

#[local] Open Scope list_scope.
Open Scope Z_scope.

(** A row, and the record that [_rowToApiKey] makes of it: the same columns. *)
Record ApiKey : Type := {
  k_id : string; keyHash : string; k_prefix : string; k_name : string; ownerId : string;
  k_expiresAt : option Z; k_createdAt : Z
}.

Definition CACHE_TTL_MS : Z := 60000.
Definition CACHE_MAX : Z := 10000.

Inductive call : Type :=
| VerifyQuery (hash : string)
| VerifyRow (hash : string) (row : option ApiKey)
| Verified (hash : string) (now : Z) (key : option ApiKey)
| RevokeSelect (id : string)
| RevokeDelete (id : string) (hash : option string)
| RevokeEvict (hash : option string)
| Revoked.

Section api_keys.
Context {C : Type} `{Hops : CacheOps C string (option ApiKey), Hlaws : !CacheLaws C string (option ApiKey)} (sha256 : string → string).

Record service : Type := { rows : list ApiKey; cache : C; calls : list call }.

Definition row_of (hash : string) (db : list ApiKey) : option ApiKey :=
  hd_error (filter (λ r, keyHash r = hash) db).

Definition new_key (raw prefix name owner : string) (expires : option Z) (id : string) (now : Z) : ApiKey :=
  {| k_id := id; keyHash := sha256 raw; k_prefix := prefix; k_name := name; ownerId := owner;
     k_expiresAt := expires; k_createdAt := now |}.

(** [generate]: the raw key, and the service with its row. *)
Definition generate (random : string) (prefix : option string) (name owner : string) (expires : option Z)
    (id : string) (now : Z) (s : service) : string * service :=
  let namespace := default "sk_live_"%string prefix in
  let raw := (namespace +:+ random) in
  (raw, {| rows := rows s ++ [new_key raw namespace name owner expires id now]; cache := cache s; calls := calls s |}).

(** The beginning of [verify]: the cache, or a query. *)
Definition verify (raw : string) (now : Z) (s : service) : service :=
  let hash := sha256 raw in
  let '(cached, c) := c_get now hash (cache s) in
  {| rows := rows s; cache := c;
     calls := calls s ++ [match cached with Some key => Verified hash now key | None => VerifyQuery hash end] |}.

Definition expired (key : ApiKey) (now : Z) : bool :=
  match k_expiresAt key with Some t => t <? now | None => false end.

(** What [verify] makes of the row: the comparison of the digests included. *)
Definition accepted (hash : string) (row : option ApiKey) (now : Z) : option ApiKey :=
  match row with
  | None => None
  | Some key =>
      if expired key now then None
      else if decide (keyHash key = hash) then Some key else None
  end.

(** The database runs the statement of a call. *)
Definition execute (c : call) (s : service) : service * call :=
  match c with
  | VerifyQuery hash => (s, VerifyRow hash (row_of hash (rows s)))
  | RevokeSelect id => (s, RevokeDelete id (keyHash <$> hd_error (filter (λ r, k_id r = id) (rows s))))
  | RevokeDelete id hash =>
      ({| rows := filter (λ r, k_id r ≠ id) (rows s); cache := cache s; calls := calls s |}, RevokeEvict hash)
  | _ => (s, c)
  end.

(** The answer of the last statement arrives. *)
Definition deliver (c : call) (now : Z) (s : service) : service * call :=
  match c with
  | VerifyRow hash row =>
      let key := accepted hash row now in
      ({| rows := rows s; cache := c_set now hash key (cache s); calls := calls s |}, Verified hash now key)
  | RevokeEvict hash =>
      ({| rows := rows s; calls := calls s;
          cache := match hash with
                   | Some h => if decide (h = EmptyString) then cache s else c_delete h (cache s)
                   | None => cache s
                   end |}, Revoked)
  | _ => (s, c)
  end.

Inductive event : Type :=
| Generate (random : string) (prefix : option string) (name owner : string) (expires : option Z)
    (id : string) (now : Z)
| Verify (raw : string) (now : Z)
| RevokeKey (id : string)
| Execute (k : nat)
| Deliver (k : nat) (now : Z)
| Sweep (now : Z)
| DeletedElsewhere (id : string).         (* by another process *)

Definition put (k : nat) (r : service * call) : service :=
  {| rows := rows r.1; cache := cache r.1; calls := <[k := r.2]> (calls r.1) |}.

Definition step (s : service) (e : event) : service :=
  match e with
  | Generate random prefix name owner expires id now => (generate random prefix name owner expires id now s).2
  | Verify raw now => verify raw now s
  | RevokeKey id => {| rows := rows s; cache := cache s; calls := calls s ++ [RevokeSelect id] |}
  | Execute k => match calls s !! k with Some c => put k (execute c s) | None => s end
  | Deliver k now => match calls s !! k with Some c => put k (deliver c now s) | None => s end
  | Sweep now => {| rows := rows s; cache := c_sweep now (cache s); calls := calls s |}
  | DeletedElsewhere id =>
      {| rows := filter (λ r, k_id r ≠ id) (rows s); cache := cache s; calls := calls s |}
  end.
Definition run (s : service) (l : list event) : service := foldl step s l.

(** ** How stale an accepted key can be *)

(** A key that was read from a row while it was valid: found at the time [d]. *)
Definition fresh_at (hash : string) (key : ApiKey) (d : Z) : Prop :=
  keyHash key = hash ∧ expired key d = false.

Definition call_ok (ttl : Z) (c : call) : Prop :=
  match c with
  | Verified hash now (Some key) => ∃ d, fresh_at hash key d ∧ now <= d + ttl
  | _ => True
  end.
Record cache_ok (c : C) : Prop := {
  co_valid : c_valid c;
  co_ttl : 0 <= c_ttl c;
  co_entries hash key t : c_view c hash = Some (Some key, t) → ∃ d, fresh_at hash key d ∧ t = d + c_ttl c
}.

Lemma only_forgets_ok c c' : only_forgets c c' → cache_ok c → cache_ok c'.
Proof.
  intros (Hv & Ht & Hsub) [_ Hpos Hc]. split; [done|by rewrite Ht|]. rewrite Ht. intros hash key t Hx.
  by apply Hc, Hsub.
Qed.

Lemma accepted_fresh hash row now key : accepted hash row now = Some key → fresh_at hash key now.
Proof.
  unfold accepted, fresh_at. destruct row as [r|]; [|done]. destruct (expired r now) eqn:E; [done|].
  case_decide; [|done]. by intros [= <-].
Qed.

Lemma set_ok now hash row c : cache_ok c → cache_ok (c_set now hash (accepted hash row now) c).
Proof.
  intros [Hv Hpos Hc]. destruct (set_valid now hash (accepted hash row now) c Hv) as [Hv' Ht'].
  split; [done|by rewrite Ht'|]. rewrite Ht'. intros h key t Hx.
  apply set_view in Hx as [[-> [= Hk ->]]|[_ Hx]]; [|by eapply Hc|done].
  exists now. split; [|done]. symmetry in Hk. by eapply accepted_fresh.
Qed.

Lemma step_stale s e :
  cache_ok (cache s) ∧ Forall (call_ok (c_ttl (cache s))) (calls s) →
  c_ttl (cache (step s e)) = c_ttl (cache s) ∧ cache_ok (cache (step s e)) ∧
  Forall (call_ok (c_ttl (cache s))) (calls (step s e)).
Proof.
  intros [Hc Hcalls]. pose proof Hc as [Hv Hpos Hent].
  destruct e as [random prefix name owner ex id now|raw now|id|k|k now|now|id]; cbn [step].
  - done.
  - unfold verify. destruct (c_get now (sha256 raw) (cache s)) as [cached c'] eqn:E.
    pose proof (get_forgets now (sha256 raw) (cache s) Hv) as Hf. rewrite E in Hf. cbn [snd] in Hf.
    cbn [cache calls]. split; [apply Hf|]. split; [by apply (only_forgets_ok (cache s))|].
    apply Forall_app. split; [done|]. constructor; [|done]. destruct cached as [[key|]|]; [|done..].
    destruct (get_found now (sha256 raw) (cache s) (Some key) Hv) as (t & Hview & Ht); [by rewrite E|].
    apply Hent in Hview as (d & Hd & ->). by exists d.
  - split; [done|]. split; [done|]. apply Forall_app. split; [done|]. by repeat constructor.
  - destruct (calls s !! k) as [c|] eqn:Ek; [|done].
    destruct c; cbn; (split; [done|]; split; [done|]); apply Forall_insert; try done.
    pose proof Hcalls as Hall. rewrite Forall_lookup in Hall. by apply (Hall _ _ Ek).
  - destruct (calls s !! k) as [c|] eqn:Ek; [|done].
    pose proof Hcalls as Hall. rewrite Forall_lookup in Hall. specialize (Hall _ _ Ek).
    destruct c as [| hash row | | | | hash |]; cbn; try (split; [done|]; split; [done|]; by apply Forall_insert).
    + destruct (set_valid now hash (accepted hash row now) (cache s) Hv) as [_ Ht].
      split; [done|]. split; [by apply set_ok|]. apply Forall_insert; [done|].
      cbn. destruct (accepted hash row now) as [key|] eqn:E; [|done].
      exists now. split; [by eapply accepted_fresh|lia].
    + destruct hash as [h|]; [|by split; [|split; [|apply Forall_insert]]].
      case_decide; [by split; [|split; [|apply Forall_insert]]|].
      pose proof (delete_forgets h (cache s) Hv) as Hf. split; [apply Hf|].
      split; [by apply (only_forgets_ok (cache s))|by apply Forall_insert].
  - pose proof (sweep_forgets now (cache s) Hv) as Hf. cbn. split; [apply Hf|].
    split; [by apply (only_forgets_ok (cache s))|done].
  - done.
Qed.

(** a verification that accepts a key accepts one whose row was found, with that hash
    and not expired, at most the time to live of the cache before; whatever verifications,
    revocations and sweeps overlap. *)
Theorem accepted_keys_were_valid s l k hash now key :
  cache_ok (cache s) → calls s = [] →
  calls (run s l) !! k = Some (Verified hash now (Some key)) →
  ∃ d, keyHash key = hash ∧ expired key d = false ∧ now <= d + c_ttl (cache s).
Proof.
  intros Hc Hcalls Hk.
  assert (Forall (call_ok (c_ttl (cache s))) (calls (run s l))) as Hall.
  { assert (Forall (call_ok (c_ttl (cache s))) (calls s)) as H0 by (rewrite Hcalls; constructor).
    clear Hcalls Hk. revert s Hc H0. induction l as [|e l IH]; intros s Hc H0; [done|].
    destruct (step_stale s e (conj Hc H0)) as (Ht & Hc' & Hs). rewrite <-Ht. apply IH; [done|]. by rewrite Ht. }
  rewrite Forall_lookup in Hall. destruct (Hall _ _ Hk) as (d & [? ?] & ?). by exists d.
Qed.

(** ** Revocation *)

(** Nothing is left of the key with the hash [h]: no row, no entry that accepts it, and no
    answer under way that carries it. *)
Record forgotten (h : string) (s : service) : Prop := {
  fg_valid : c_valid (cache s);
  fg_rows : Forall (λ r, keyHash r ≠ h) (rows s);
  fg_cache key t : c_view (cache s) h ≠ Some (Some key, t);
  fg_calls : Forall (λ c, match c with VerifyRow h' (Some _) => h' ≠ h | _ => True end) (calls s)
}.
Definition spares (h : string) (e : event) : Prop :=
  match e with
  | Generate random prefix _ _ _ _ _ => sha256 (default "sk_live_"%string prefix +:+ random) ≠ h
  | _ => True
  end.
(** The calls from the [n]-th on accept nothing for [h]. *)
Definition refused (h : string) (n : nat) (s : service) : Prop :=
  ∀ k now key, (n <= k)%nat → calls s !! k ≠ Some (Verified h now (Some key)).

Lemma row_of_none h db : Forall (λ r, keyHash r ≠ h) db → row_of h db = None.
Proof. intros Hdb. unfold row_of. by rewrite filter_none. Qed.

Lemma forgets_view h c c' :
  only_forgets c c' → (∀ key t, c_view c h ≠ Some (Some key, t)) →
  ∀ key t, c_view c' h ≠ Some (Some key, t).
Proof. intros (_ & _ & Hsub) Hc key t Hx. by apply (Hc key t), Hsub. Qed.

Lemma refused_insert h n k c s :
  refused h n s → (∀ now key, c ≠ Verified h now (Some key)) →
  ∀ k' now key, (n <= k')%nat → <[k := c]> (calls s) !! k' ≠ Some (Verified h now (Some key)).
Proof.
  intros Hr Hc k' now key Hk'. rewrite list_lookup_insert. case_decide; [|by apply Hr].
  intros [= E]. by eapply Hc.
Qed.

Lemma step_forgotten h n s e :
  spares h e → forgotten h s → refused h n s → forgotten h (step s e) ∧ refused h n (step s e).
Proof.
  intros He [Hv Hrows Hcache Hcalls] Hr.
  destruct e as [random prefix name owner ex id now|raw now|id|k|k now|now|id]; cbn [step].
  - split; [|exact Hr]. split; [done| |done|done]. apply Forall_app. split; [done|]. by constructor.
  - unfold verify. destruct (c_get now (sha256 raw) (cache s)) as [cached c'] eqn:E.
    pose proof (get_forgets now (sha256 raw) (cache s) Hv) as Hf. rewrite E in Hf. cbn [snd] in Hf.
    assert (∀ key, sha256 raw = h → cached ≠ Some (Some key)) as Hno.
    { intros key Eh ->. destruct (get_found now (sha256 raw) (cache s) (Some key) Hv) as (t & Hview & _);
        [by rewrite E|]. rewrite Eh in Hview. by apply Hcache in Hview. }
    split; [split; [apply Hf|done|by apply (forgets_view h (cache s))|]|].
    + cbn. apply Forall_app. split; [done|]. constructor; [|done]. by destruct cached.
    + intros k now' key Hk. cbn. rewrite lookup_app. destruct (calls s !! k) as [c|] eqn:Ek.
      * intros [= ->]. by apply (Hr k now' key).
      * intros [<- Hc]%list_lookup_singleton_Some || intros Hc.
        destruct (k - length (calls s))%nat; [|done]. cbn in Hc. destruct cached as [[x|]|]; [|done..].
        injection Hc as Eh _ _. by apply (Hno x).
  - split; [split; [done|done|done|]|].
    + cbn. apply Forall_app. split; [done|]. by repeat constructor.
    + intros k now key Hk. cbn. rewrite lookup_app. destruct (calls s !! k) as [c|] eqn:Ek.
      * intros [= ->]. by apply (Hr k now key).
      * by destruct (k - length (calls s))%nat.
  - destruct (calls s !! k) as [c|] eqn:Ek; [|done].
    pose proof Hcalls as Hall. rewrite Forall_lookup in Hall. specialize (Hall _ _ Ek). cbn in Hall.
    assert (∀ db c', Forall (λ r, keyHash r ≠ h) db →
      match c' with VerifyRow h' (Some _) => h' ≠ h | _ => True end →
      (∀ now key, c' = Verified h now (Some key) → calls s !! k = Some c') →
      forgotten h (put k ({| rows := db; cache := cache s; calls := calls s |}, c')) ∧
      refused h n (put k ({| rows := db; cache := cache s; calls := calls s |}, c'))) as Hput.
    { intros db c' Hdb Hc' Hsame. split.
      - split; [done|done|done|]. by apply Forall_insert.
      - intros k' now key Hk'. cbn. rewrite list_lookup_insert. case_decide as Hd; [|by apply Hr].
        intros [= ->]. destruct Hd as [-> _]. by apply (Hr k' now key), (Hsame now key). }
    replace s with {| rows := rows s; cache := cache s; calls := calls s |} at 2 4 by by destruct s.
    destruct c as [h'| | | |id' h'| |]; cbn [execute rows]; try (apply Hput; done).
    + apply Hput; [done| |done]. destruct (decide (h' = h)) as [->|Hne]; [by rewrite row_of_none|].
      by destruct (row_of h' (rows s)).
    + apply Hput; [|done..]. by apply Forall_filter_keep.
  - destruct (calls s !! k) as [c|] eqn:Ek; [|done].
    pose proof Hcalls as Hall. rewrite Forall_lookup in Hall. specialize (Hall _ _ Ek). cbn in Hall.
    assert (∀ ca c', c_valid ca → (∀ key t, c_view ca h ≠ Some (Some key, t)) →
      match c' with VerifyRow h' (Some _) => h' ≠ h | _ => True end →
      (∀ now key, c' = Verified h now (Some key) → calls s !! k = Some c') →
      forgotten h (put k ({| rows := rows s; cache := ca; calls := calls s |}, c')) ∧
      refused h n (put k ({| rows := rows s; cache := ca; calls := calls s |}, c'))) as Hput.
    { intros ca c' Hca Hview Hc' Hsame. split.
      - split; [done|done|done|]. by apply Forall_insert.
      - intros k' now' key Hk'. cbn. rewrite list_lookup_insert. case_decide as Hd; [|by apply Hr].
        intros [= ->]. destruct Hd as [-> _]. by apply (Hr k' now' key), (Hsame now' key). }
    replace s with {| rows := rows s; cache := cache s; calls := calls s |} at 2 4 by by destruct s.
    destruct c as [| h' row | | | | h' |]; cbn [deliver rows cache calls]; try (apply Hput; done).
    + destruct (set_valid now h' (accepted h' row now) (cache s) Hv) as [Hv' _].
      assert (h' = h → accepted h' row now = None) as Hnone by (intros ->; by destruct row).
      apply Hput; [done| |done|intros now' key [= -> _ E]; by rewrite Hnone in E].
      intros key t Hx. apply set_view in Hx as [[-> [= E _]]|[_ Hx]]; [|by apply Hcache in Hx|done].
      by rewrite Hnone in E.
    + destruct h' as [h'|]; [|by apply Hput]. case_decide; [by apply Hput|].
      pose proof (delete_forgets h' (cache s) Hv) as Hf.
      apply Hput; [apply Hf|by apply (forgets_view h (cache s))|done..].
  - pose proof (sweep_forgets now (cache s) Hv) as Hf. split; [|done].
    split; [apply Hf|done|by apply (forgets_view h (cache s))|done].
  - split; [|done]. split; [done|by apply Forall_filter_keep|done|done].
Qed.

(** A revocation that runs alone: its two statements and the answer. *)
Definition revoke (id : string) (now : Z) (s : service) : service :=
  let k := length (calls s) in run s [RevokeKey id; Execute k; Execute k; Deliver k now].

Definition finished (c : call) : Prop :=
  match c with Verified _ _ _ | Revoked => True | _ => False end.

Lemma revoke_alone id now s :
  revoke id now s =
    let hash := keyHash <$> hd_error (filter (λ r, k_id r = id) (rows s)) in
    {| rows := filter (λ r, k_id r ≠ id) (rows s);
       cache := match hash with
                | Some h => if decide (h = EmptyString) then cache s else c_delete h (cache s)
                | None => cache s
                end;
       calls := calls s ++ [Revoked] |}.
Proof.
  assert (∀ x (y : call), (calls s ++ [x]) !! length (calls s) = Some x ∧
    <[length (calls s) := y]> (calls s ++ [x]) = calls s ++ [y]) as Hend.
  { intros x y. split; [by rewrite list_lookup_middle|]. by rewrite insert_app_r_alt, Nat.sub_diag by done. }
  unfold revoke, run. cbn [foldl step]. cbn [calls].
  do 4 (rewrite ?(proj2 (Hend _ _)), ?(proj1 (Hend _ Revoked)); cbn [execute deliver put rows cache calls fst snd]).
  unfold put. cbn [rows cache calls fst snd]. by rewrite (proj2 (Hend _ _)).
Qed.

(** once a revocation has ended that no verification overlapped, the key is never
    accepted again: from the database, from the cache, or from an answer under way. *)
Theorem revoked_key_is_refused s id key now l k raw t :
  cache_ok (cache s) → Forall finished (calls s) →
  key ∈ rows s → k_id key = id → keyHash key = sha256 raw → sha256 raw ≠ EmptyString →
  NoDup (keyHash <$> rows s) → NoDup (k_id <$> rows s) →
  Forall (spares (sha256 raw)) l → (length (calls s) <= k)%nat →
  ∀ key', calls (run (revoke id now s) l) !! k ≠ Some (Verified (sha256 raw) t (Some key')).
Proof.
  intros [Hv _ _] Hfin Hkey Hid Hhash Hne Hnd1 Hnd2 Hl Hk key'.
  assert (hd_error (filter (λ r, k_id r = id) (rows s)) = Some key) as Hhead.
  { assert (filter (λ r, k_id r = id) (rows s) = [key]) as ->; [|done]. rewrite <-Hid. by apply (filter_key_unique k_id). }
  assert (forgotten (sha256 raw) (revoke id now s) ∧ refused (sha256 raw) (length (calls s)) (revoke id now s)) as [Hf Hr].
  { rewrite revoke_alone, Hhead. cbn [fmap option_map option_fmap]. rewrite Hhash, decide_False by done. split.
    - split; cbn [rows cache calls].
      + apply (delete_forgets (sha256 raw) (cache s) Hv).
      + apply Forall_forall. intros r [Hr Hin]%list_elem_of_filter E. apply Hr.
        rewrite <-Hid. f_equal. rewrite <-Hhash in E.
        by apply (NoDup_key_inj keyHash (rows s)).
      + intros key0 t0. by rewrite delete_view.
      + apply Forall_app. split; [|by repeat constructor]. eapply Forall_impl; [exact Hfin|]. by intros [].
    - intros k' now' key0 Hk'. cbn [calls]. rewrite lookup_app_r by done.
      by destruct (k' - length (calls s))%nat. }
  assert (refused (sha256 raw) (length (calls s)) (run (revoke id now s) l)) as Hend; [|by apply Hend].
  clear -Hl Hf Hr Hlaws. revert Hf Hr. generalize (revoke id now s). induction Hl as [|e l He _ IH]; intros s0 Hf Hr; [done|].
  destruct (step_forgotten _ _ s0 e He Hf Hr). by apply IH.
Qed.
End api_keys.

(** ** Concrete runs, with the LRU cache (the hash is the identity here) *)

Definition opened : service (C := _) :=
  {| rows := []; cache := empty_lru (K:=string) (V:=option ApiKey) CACHE_MAX CACHE_TTL_MS; calls := [] |}.
Abbreviation run1 := (run (λ s, s)).
Definition issued : list event := [Generate "r" (Some "k_"%string) "ci" "ada" (Some 1000) "1" 0].
Definition the_key : ApiKey := new_key (λ s, s) "k_r" "k_" "ci" "ada" (Some 1000) "1" 0.

(** [verify] is documented to return null for an expired key: for a minute after a
    verification, the cache answers without a look at the expiry. *)
Theorem expired_key_accepted :
  calls (run1 opened (issued ++ [Verify "k_r" 999; Execute 0; Deliver 0 999; Verify "k_r" 60000])) =
    [Verified "k_r" 999 (Some the_key); Verified "k_r" 60000 (Some the_key)] ∧ expired the_key 60000 = true.
Proof. vm_compute. done. Qed.

(** A verification that has read the row when the revocation runs puts the key back into the
    cache after the revocation has ended. *)
Theorem revoked_key_accepted :
  let s := run1 opened (issued ++ [Verify "k_r" 10; Execute 0; RevokeKey "1"; Execute 1; Execute 1; Deliver 1 11;
    Deliver 0 12; Verify "k_r" 60000]) in
  rows s = [] ∧ calls s !! 1%nat = Some Revoked ∧ calls s !! 2%nat = Some (Verified "k_r" 60000 (Some the_key)).
Proof. vm_compute. done. Qed.

Lemma opened_ok : cache_ok (cache opened).
Proof.
  destruct (empty_lru_valid (K:=string) (V:=option ApiKey) CACHE_MAX CACHE_TTL_MS) as (H1 & H2 & H3); [done|].
  split; [exact H1| |intros hash key t; by rewrite H3]. change (0 <= CACHE_TTL_MS). done.
Qed.

Lemma accepted_keys_were_valid_witness :
  ∃ d, expired the_key d = false ∧ 60000 <= d + CACHE_TTL_MS.
Proof.
  destruct (accepted_keys_were_valid (λ s, s) opened
    (issued ++ [Verify "k_r" 999; Execute 0; Deliver 0 999; Verify "k_r" 60000]) 1 "k_r" 60000 the_key
    opened_ok eq_refl) as (d & _ & H1 & H2).
  - vm_compute. reflexivity.
  - exists d. split; [exact H1|exact H2].
Defined.

Lemma revoked_key_is_refused_witness :
  let s := run1 opened issued in
  calls (run1 (revoke (λ s, s) "1" 5 s) [Verify "k_r" 10; Execute 1; Deliver 1 12]) !! 1%nat ≠
    Some (Verified "k_r" 12 (Some the_key)).
Proof.
  intros s. apply (revoked_key_is_refused (λ s, s) s "1" the_key 5 _ 1 "k_r" 12).
  - exact opened_ok.
  - constructor.
  - left.
  - reflexivity.
  - reflexivity.
  - discriminate.
  - apply (bool_decide_unpack _). vm_compute. exact I.
  - apply (bool_decide_unpack _). vm_compute. exact I.
  - repeat constructor.
  - apply le_S, le_n.
Defined.
