(* ===== verification/Sessions.v ===== *)
(** * Server-side sessions

    Models src/packages/core/src/auth/session-store.ts: sessions in the table
    street_sessions, their revocation, the cache of revoked sessions, and the middleware
    that asks it (without an audit writer, whose entries are no part of the store).

    As for API keys, a call stops at every query: the query runs in the database at one
    moment ([Execute]) and its answer arrives at a later one ([Deliver]).  The cache is any
    that keeps the promises of CacheSpec.v.  Session ids are random: they are arguments, and
    the theorems ask of a new one that nobody has used it before. *)

From Stdlib Require Import Ascii String.
From S2P Require Import Prelude JsMap CacheSpec.

#[local] Open Scope list_scope.
Open Scope Z_scope.

Record session_row : Type := {
  session_id : string; user_id : string; data : string; expires_at : Z
}.

Inductive call : Type :=
| RevokeDelete (id : string)
| RevokeNote (ids : list string)                   (* the ids to note as revoked *)
| RevokeAllSelect (user : string)
| RevokeAllDelete (user : string) (ids : list string)
| Done
| AskQuery (id : string)
| AskRow (id : string) (present : bool)
| Answered (id : string) (revoked : bool)
| FindQuery (id : string)
| FindRow (row : option session_row)
| Found (s : option session_row).

Section sessions.
Context {C : Type} `{Hops : CacheOps C string bool, Hlaws : !CacheLaws C string bool}.

Record store : Type := { rows : list session_row; revokedCache : C; calls : list call }.

Definition ids (s : store) : list string := session_id <$> rows s.
Definition user_ids (user : string) (db : list session_row) : list string :=
  session_id <$> filter (λ r, user_id r = user) db.

Definition DAY : Z := 24 * 60 * 60 * 1000.
(** [create]: the row of a new session, for a day unless it says otherwise. *)
Definition create (id user json : string) (expires : option Z) (now : Z) : session_row :=
  {| session_id := id; user_id := user; data := json; expires_at := default (now + DAY) expires |}.

(** What [find] makes of a row: an expired session is none. *)
Definition find_row (row : option session_row) (now : Z) : option session_row :=
  match row with Some r => if expires_at r <? now then None else Some r | None => None end.

(** [isRevoked] asks the cache first. *)
Definition isRevoked (id : string) (now : Z) (s : store) : store :=
  let '(cached, c) := c_get now id (revokedCache s) in
  {| rows := rows s; revokedCache := c;
     calls := calls s ++ [match cached with Some b => Answered id b | None => AskQuery id end] |}.

Definition execute (c : call) (s : store) : list session_row * call :=
  match c with
  | RevokeDelete id => (filter (λ r, session_id r ≠ id) (rows s), RevokeNote [id])
  | RevokeAllSelect user => (rows s, RevokeAllDelete user (user_ids user (rows s)))
  | RevokeAllDelete user l =>
      (filter (λ r, user_id r ≠ user) (rows s), RevokeNote (filter (λ i, i ≠ EmptyString) l))
  | AskQuery id => (rows s, AskRow id (bool_decide (id ∈ ids s)))
  | FindQuery id => (rows s, FindRow (hd_error (filter (λ r, session_id r = id) (rows s))))
  | _ => (rows s, c)
  end.

Definition deliver (c : call) (now : Z) (cache : C) : C * call :=
  match c with
  | RevokeNote l => (foldl (λ ca i, c_set now i true ca) cache l, Done)
  | AskRow id present => (if present then cache else c_set now id true cache, Answered id (negb present))
  | FindRow row => (cache, Found (find_row row now))
  | _ => (cache, c)
  end.

Inductive event : Type :=
| Create (id user json : string) (expires : option Z) (now : Z)
| Find (id : string)
| Revoke (id : string)
| RevokeAll (user : string)
| IsRevoked (id : string) (now : Z)
| Execute (k : nat)
| Deliver (k : nat) (now : Z)
| Sweep (now : Z).

Definition call_of (c : call) (s : store) : store :=
  {| rows := rows s; revokedCache := revokedCache s; calls := calls s ++ [c] |}.

Definition step (s : store) (e : event) : store :=
  match e with
  | Create id user json expires now =>
      {| rows := rows s ++ [create id user json expires now]; revokedCache := revokedCache s; calls := calls s |}
  | Find id => call_of (FindQuery id) s
  | Revoke id => call_of (RevokeDelete id) s
  | RevokeAll user => call_of (RevokeAllSelect user) s
  | IsRevoked id now => isRevoked id now s
  | Execute k =>
      match calls s !! k with
      | Some c => let '(db, c) := execute c s in
                  {| rows := db; revokedCache := revokedCache s; calls := <[k := c]> (calls s) |}
      | None => s
      end
  | Deliver k now =>
      match calls s !! k with
      | Some c => let '(ca, c) := deliver c now (revokedCache s) in
                  {| rows := rows s; revokedCache := ca; calls := <[k := c]> (calls s) |}
      | None => s
      end
  | Sweep now => {| rows := rows s; revokedCache := c_sweep now (revokedCache s); calls := calls s |}
  end.
Definition run (s : store) (l : list event) : store := foldl step s l.

(** [sessionRevocationMiddleware]: no session id, or what [isRevoked] has answered. *)
Definition middleware (sessionId : option string) (revoked : bool) : result string unit :=
  match sessionId with
  | None | Some EmptyString => Ok tt
  | Some _ => if revoked then Throw "Session has been revoked"%string else Ok tt
  end.

(** ** What is noted as revoked has no row *)

(** The ids that a call holds to be gone. *)
Definition holds_gone (c : call) : list string :=
  match c with
  | RevokeNote l => l
  | AskRow id false | Answered id true => [id]
  | _ => []
  end.
(** The ids that somebody has named. *)
Definition names (c : call) : list string :=
  match c with
  | RevokeDelete id | AskQuery id | AskRow id _ | Answered id _ => [id]
  | RevokeAllDelete _ l | RevokeNote l => l
  | _ => []
  end.

Record store_ok (used : list string) (s : store) : Prop := {
  so_valid : c_valid (revokedCache s);
  so_cache id b t : c_view (revokedCache s) id = Some (b, t) → b = true ∧ (id ∉ ids s) ∧ id ∈ used;
  so_gone c id : c ∈ calls s → id ∈ holds_gone c → id ∉ ids s;
  so_names c id : c ∈ calls s → id ∈ names c → id ∈ used;
  so_ids id : id ∈ ids s → id ∈ used;
  so_all user l : RevokeAllDelete user l ∈ calls s →
    ∀ r, r ∈ rows s → session_id r ∈ l → user_id r = user;
  so_unique : NoDup (ids s)
}.

(** The ids that an event names; a new session's id must not have been named before. *)
Definition named (e : event) : list string :=
  match e with Create id _ _ _ _ | Revoke id | IsRevoked id _ => [id] | _ => [] end.
Definition fresh_event (used : list string) (e : event) : Prop :=
  match e with Create id _ _ _ _ => id ∉ used | _ => True end.
Fixpoint fresh_run (used : list string) (l : list event) : Prop :=
  match l with
  | [] => True
  | e :: l => fresh_event used e ∧ fresh_run (named e ++ used) l
  end.

Lemma ids_filter_sub (P : session_row → Prop) `{∀ r, Decision (P r)} db :
  (session_id <$> filter P db) `sublist_of` (session_id <$> db).
Proof. apply fmap_sublist, sublist_filter. Qed.

Lemma set_all_view now l c :
  c_valid c →
  c_valid (foldl (λ ca i, c_set now i true ca) c l) ∧
  ∀ id b t, c_view (foldl (λ ca i, c_set now i true ca) c l) id = Some (b, t) →
    (id ∈ l ∧ b = true) ∨ c_view c id = Some (b, t).
Proof.
  revert c. induction l as [|i l IH]; intros c Hc; [by split; [|right]|]. cbn [foldl].
  destruct (set_valid now i true c Hc) as [Hv _]. destruct (IH _ Hv) as [Hv' Hview]. split; [done|].
  intros id b t Hx. apply Hview in Hx as [[? ?]|Hx]; [left; by split; [right|]|].
  apply set_view in Hx as [[-> [= -> _]]|[_ Hx]]; [left; by split; [left|]|by right|done].
Qed.

Lemma store_ok_more used used' s : used ⊆ used' → store_ok used s → store_ok used' s.
Proof. intros Hu [H1 H2 H3 H4 H5 H6 H7]. split; [done| |done|naive_solver..|done|done]. intros id b t Hx. naive_solver. Qed.

Lemma call_in_insert (k : nat) (c c' : call) (l : list call) : c' ∈ <[k := c]> l → c' = c ∨ c' ∈ l.
Proof.
  rewrite !list_elem_of_lookup. intros [i Hi]. rewrite list_lookup_insert in Hi.
  case_decide as Hd; [left; congruence|]. right. by exists i.
Qed.

(** Fewer rows, and a call that holds nothing to be gone but what is. *)
Lemma ok_execute used s k c db :
  store_ok used s → (session_id <$> db) `sublist_of` ids s → (∀ r, r ∈ db → r ∈ rows s) →
  (∀ id, id ∈ holds_gone c → id ∉ session_id <$> db) → (∀ id, id ∈ names c → id ∈ used) →
  (∀ user l, c = RevokeAllDelete user l → ∀ r, r ∈ db → session_id r ∈ l → user_id r = user) →
  store_ok used {| rows := db; revokedCache := revokedCache s; calls := <[k := c]> (calls s) |}.
Proof.
  intros [H1 H2 H3 H4 H5 H6 H7] Hsub Hin Hgone Hnames Hall.
  assert (∀ id, id ∈ session_id <$> db → id ∈ ids s) as Hids by (intros id; by apply sublist_subseteq).
  split; cbn [rows revokedCache calls].
  - done.
  - intros id b t Hx. destruct (H2 _ _ _ Hx) as (? & ? & ?). split; [done|]. split; [|done]. intros ?%Hids. done.
  - intros c' id [-> |Hc]%call_in_insert Hid; [by apply Hgone|]. intros ?%Hids. by eapply H3.
  - intros c' id [-> |Hc]%call_in_insert Hid; [by apply Hnames|by eapply H4].
  - intros id ?%Hids. by apply H5.
  - intros user l [E|Hc]%call_in_insert r Hr Hl; [by eapply Hall|]. by eapply H6; [exact Hc|apply Hin|].
  - by eapply sublist_NoDup.
Qed.

Lemma ids_elem r s : r ∈ rows s → session_id r ∈ ids s.
Proof. intros. by apply list_elem_of_fmap_2. Qed.

Lemma session_execute_ok used s k c :
  store_ok used s → calls s !! k = Some c →
  let '(db, c') := execute c s in
  store_ok used {| rows := db; revokedCache := revokedCache s; calls := <[k := c']> (calls s) |}.
Proof.
  intros Hok Hk. pose proof Hok as [H1 H2 H3 H4 H5 H6 H7].
  pose proof (list_elem_of_lookup_2 _ _ _ Hk) as Hin.
  assert ((session_id <$> rows s) `sublist_of` ids s) as Hself by done.
  destruct c as [id|l|user|user l| |id|id present|id b|id|row|r]; cbn [execute].
  - apply ok_execute; [done|apply ids_filter_sub|by intros r [_ ?]%list_elem_of_filter| | |done].
    + intros i ->%list_elem_of_singleton (r & E & [Hr _]%list_elem_of_filter)%list_elem_of_fmap. by apply Hr.
    + intros i Hi. by apply (H4 _ _ Hin).
  - apply ok_execute; try done; [by intros i Hi; apply (H3 _ _ Hin)|by intros i Hi; apply (H4 _ _ Hin)].
  - apply ok_execute; try done; [by intros ? ?%not_elem_of_nil|..].
    + intros i (r & -> & [_ Hr]%list_elem_of_filter)%list_elem_of_fmap. by apply H5, ids_elem.
    + intros user' l [= <- <-] r Hr (r' & E & [Hu Hr']%list_elem_of_filter)%list_elem_of_fmap.
      by rewrite (NoDup_key_inj session_id (rows s) r r').
  - apply ok_execute; [done|apply ids_filter_sub|by intros r [_ ?]%list_elem_of_filter| | |done].
    + intros i [_ Hi]%list_elem_of_filter (r & -> & [Hu Hr]%list_elem_of_filter)%list_elem_of_fmap.
      by apply Hu, (H6 _ _ Hin).
    + intros i [_ Hi]%list_elem_of_filter. by apply (H4 _ _ Hin).
  - apply ok_execute; try done; by intros ? ?%not_elem_of_nil.
  - apply ok_execute; try done.
    + intros i Hi. cbn in Hi. case_bool_decide; [by apply not_elem_of_nil in Hi|].
      by apply list_elem_of_singleton in Hi as ->.
    + intros i Hi. by apply (H4 _ _ Hin).
  - apply ok_execute; try done; [by intros i Hi; apply (H3 _ _ Hin)|by intros i Hi; apply (H4 _ _ Hin)].
  - apply ok_execute; try done; [by intros i Hi; apply (H3 _ _ Hin)|by intros i Hi; apply (H4 _ _ Hin)].
  - apply ok_execute; try done; by intros ? ?%not_elem_of_nil.
  - apply ok_execute; try done; by intros ? ?%not_elem_of_nil.
  - apply ok_execute; try done; by intros ? ?%not_elem_of_nil.
Qed.

(** A cache that holds only ids that are gone. *)
Lemma ok_cache used s ca :
  store_ok used s → c_valid ca →
  (∀ id b t, c_view ca id = Some (b, t) → b = true ∧ (id ∉ ids s) ∧ id ∈ used) →
  store_ok used {| rows := rows s; revokedCache := ca; calls := calls s |}.
Proof. intros [H1 H2 H3 H4 H5 H6 H7] Hv Hc. by split. Qed.
Lemma ok_call used s c :
  store_ok used s → (∀ id, id ∈ holds_gone c → id ∉ ids s) → (∀ id, id ∈ names c → id ∈ used) →
  (∀ user l, c ≠ RevokeAllDelete user l) → store_ok used (call_of c s).
Proof.
  intros [H1 H2 H3 H4 H5 H6 H7] Hg Hn Ha. split; cbn [call_of rows revokedCache calls]; try done.
  - intros c' id [Hc| ->%list_elem_of_singleton]%elem_of_app; [by apply H3|apply Hg].
  - intros c' id [Hc| ->%list_elem_of_singleton]%elem_of_app; [by apply H4|apply Hn].
  - intros user l [Hc|E%list_elem_of_singleton]%elem_of_app; [by apply H6|]. by destruct (Ha user l).
Qed.

Lemma deliver_ok used s k c now :
  store_ok used s → calls s !! k = Some c →
  let '(ca, c') := deliver c now (revokedCache s) in
  store_ok used {| rows := rows s; revokedCache := ca; calls := <[k := c']> (calls s) |}.
Proof.
  intros Hok Hk. pose proof Hok as [H1 H2 H3 H4 H5 H6 H7].
  pose proof (list_elem_of_lookup_2 _ _ _ Hk) as Hin.
  assert (∀ c' ca, c_valid ca →
    (∀ id b t, c_view ca id = Some (b, t) → b = true ∧ (id ∉ ids s) ∧ id ∈ used) →
    (∀ id, id ∈ holds_gone c' → id ∉ ids s) → (∀ id, id ∈ names c' → id ∈ used) →
    (∀ user l, c' = RevokeAllDelete user l → c' ∈ calls s) →
    store_ok used {| rows := rows s; revokedCache := ca; calls := <[k := c']> (calls s) |}) as Hput.
  { intros c' ca Hv Hc Hg Hn Ha.
    refine (ok_cache used {| rows := rows s; revokedCache := revokedCache s; calls := <[k := c']> (calls s) |} ca _ Hv Hc).
    apply ok_execute; try done. intros user l E r Hr Hl. apply (H6 user l); [|done..]. rewrite <-E. by eapply Ha. }
  destruct c as [id|l|user|user l| |id|id present|id b|id|row|r]; cbn [deliver];
    try (apply Hput; first [done | by intros ? Hi; apply (H3 _ _ Hin) | by intros ? Hi; apply (H4 _ _ Hin) |
      by intros ? ?%not_elem_of_nil]).
  - destruct (set_all_view now l (revokedCache s) H1) as [Hv Hview].
    apply Hput; [done| |by intros ? ?%not_elem_of_nil|by intros ? ?%not_elem_of_nil|done].
    intros id b t Hx. apply Hview in Hx as [[Hl ->]|Hx]; [|by apply H2 in Hx].
    split; [done|]. split; [by apply (H3 _ _ Hin)|by apply (H4 _ _ Hin)].
  - assert (present = false → id ∉ ids s) as Hgone by (intros ->; apply (H3 _ _ Hin); by left).
    assert (id ∈ used) as Hused by (apply (H4 _ _ Hin); by left).
    apply Hput; [| | | |done].
    + destruct present; [done|]. by apply set_valid.
    + destruct present; [done|]. intros i b t Hx.
      apply set_view in Hx as [[-> [= -> _]]|[_ Hx]]; [by auto|by apply H2 in Hx|done].
    + destruct present; cbn; [by intros ? ?%not_elem_of_nil|]. intros i ->%list_elem_of_singleton. by apply Hgone.
    + by intros i ->%list_elem_of_singleton.
Qed.

Lemma step_ok used s e :
  fresh_event used e → store_ok used s → store_ok (named e ++ used) (step s e).
Proof.
  intros Hf Hok. assert (store_ok (named e ++ used) s) as Hok' by (eapply store_ok_more; [|done]; set_solver).
  pose proof Hok' as [H1 H2 H3 H4 H5 H6 H7].
  destruct e as [id user json ex now|id|id|user|id now|k|k now|now]; cbn [step named app] in *.
  - destruct Hok as [K1 K2 K3 K4 K5 K6 K7].
    assert (id ∉ ids s) as Hnew by (intros ?%K5; done).
    split; cbn [rows revokedCache calls]; unfold ids in *; cbn [rows]; rewrite ?fmap_app; cbn [fmap list_fmap create session_id].
    + done.
    + intros i b t Hx. destruct (K2 i b t Hx) as (? & ? & ?). split; [done|]. split; set_solver.
    + intros c i Hc Hi. rewrite elem_of_app, list_elem_of_singleton. intros [?| ->]; [by eapply K3|].
      apply Hf, (K4 c id Hc). destruct c as [| | | | | |? []|? []| | |]; cbn in *; set_solver.
    + set_solver.
    + set_solver.
    + intros u l Hc r [Hr| ->%list_elem_of_singleton]%elem_of_app Hl; [by eapply K6|].
      destruct Hf. by apply (K4 _ _ Hc).
    + apply NoDup_app. split; [done|]. split; [set_solver|]. apply NoDup_singleton.
  - apply ok_call; try done; by intros ? ?%not_elem_of_nil.
  - apply ok_call; try done; [by intros ? ?%not_elem_of_nil|]. intros i ->%list_elem_of_singleton. by left.
  - apply ok_call; try done; by intros ? ?%not_elem_of_nil.
  - unfold isRevoked. destruct (c_get now id (revokedCache s)) as [cached c'] eqn:E.
    pose proof (get_forgets now id (revokedCache s) H1) as Hfg. rewrite E in Hfg. destruct Hfg as (Hv & _ & Hsub).
    refine (ok_call (id :: used) {| rows := rows s; revokedCache := c'; calls := calls s |} _ _ _ _ _).
    + apply ok_cache; [done|done|]. intros i b t Hx. by apply (H2 i b t), Hsub.
    + destruct cached as [b|]; [|by intros ? ?%not_elem_of_nil].
      destruct (get_found now id (revokedCache s) b H1) as (t & Hview & _); [by rewrite E|].
      destruct (H2 _ _ _ Hview) as (-> & Hno & _). by intros i ->%list_elem_of_singleton.
    + destruct cached; intros i ->%list_elem_of_singleton; by left.
    + by destruct cached.
  - destruct (calls s !! k) as [c|] eqn:Ek; [|done].
    pose proof (session_execute_ok used s k c Hok' Ek) as H. by destruct (execute c s).
  - destruct (calls s !! k) as [c|] eqn:Ek; [|done].
    pose proof (deliver_ok used s k c now Hok' Ek) as H. by destruct (deliver c now (revokedCache s)).
  - destruct (sweep_forgets now (revokedCache s) H1) as (Hv & _ & Hsub).
    apply ok_cache; [done|done|]. intros i b t Hx. by apply (H2 i b t), Hsub.
Qed.

Lemma run_ok l : ∀ used s, fresh_run used l → store_ok used s → ∃ used', store_ok used' (run s l).
Proof.
  induction l as [|e l IH]; intros used s Hl Hok; [by exists used|]. destruct Hl as [He Hl].
  by apply (IH (named e ++ used)), step_ok.
Qed.

(** a session that is reported as revoked has no row, whatever calls overlap: as long as
    its row is there, no session is ever refused; and [true] is all that the cache holds. *)
Theorem live_sessions_pass cache l id k :
  c_valid cache → (∀ i, c_view cache i = None) → fresh_run [] l →
  let s := run {| rows := []; revokedCache := cache; calls := [] |} l in
  (id ∈ ids s → calls s !! k ≠ Some (Answered id true)) ∧
  ∀ b t, c_view (revokedCache s) id = Some (b, t) → b = true ∧ (id ∉ ids s).
Proof.
  intros Hv Hc Hl s.
  destruct (run_ok l [] {| rows := []; revokedCache := cache; calls := [] |} Hl) as [used [H1 H2 H3 _ _ _ _]].
  { split; cbn; [done| |set_solver..|constructor]. intros i b t. by rewrite Hc. }
  fold s in H2, H3. split.
  - intros Hid Hk. apply (H3 (Answered id true) id); [by eapply list_elem_of_lookup_2|by left|done].
  - intros b t Hx. destruct (H2 _ _ _ Hx) as (? & ? & _). done.
Qed.

(** *** A revoked session stays revoked *)

Record gone_for (id : string) (n : nat) (s : store) : Prop := {
  gf_valid : c_valid (revokedCache s);
  gf_row : id ∉ ids s;
  gf_cache b t : c_view (revokedCache s) id = Some (b, t) → b = true;
  gf_asked : AskRow id true ∉ calls s;
  gf_answered k b : (n <= k)%nat → calls s !! k = Some (Answered id b) → b = true
}.

Lemma session_gone_put id n s k c db ca :
  gone_for id n s → c_valid ca → id ∉ session_id <$> db →
  (∀ b t, c_view ca id = Some (b, t) → b = true) → c ≠ AskRow id true →
  (∀ b, c = Answered id b → b = true ∨ calls s !! k = Some (Answered id b)) →
  gone_for id n {| rows := db; revokedCache := ca; calls := <[k := c]> (calls s) |}.
Proof.
  intros [H1 H2 H3 H4 H5] Hv Hdb Hca Hc Hans. split; cbn; try done.
  - intros [E|?]%call_in_insert; [by destruct Hc|done].
  - intros k' b Hk'. rewrite list_lookup_insert. case_decide as Hd; [|by apply H5].
    intros [= ->]. destruct Hd as [-> _]. destruct (Hans b eq_refl) as [?|Hk]; [done|]. by eapply H5.
Qed.

Lemma session_gone_call id n s c ca :
  gone_for id n s → c_valid ca → (∀ b t, c_view ca id = Some (b, t) → b = true) →
  c ≠ AskRow id true → (∀ b, c = Answered id b → b = true) →
  gone_for id n {| rows := rows s; revokedCache := ca; calls := calls s ++ [c] |}.
Proof.
  intros [H1 H2 H3 H4 H5] Hv Hca Hc Hans. split; cbn; try done.
  - intros [?|E%list_elem_of_singleton]%elem_of_app; [done|]. by destruct Hc.
  - intros k b Hk Hl. apply lookup_app_Some in Hl as [Hl|[_ Hl]]; [by eapply H5|].
    destruct (k - length (calls s))%nat; [|done]. injection Hl as E. by apply Hans.
Qed.

Lemma step_gone_for id n s e :
  (∀ user json ex now, e ≠ Create id user json ex now) → gone_for id n s → gone_for id n (step s e).
Proof.
  intros He Hg. pose proof Hg as [H1 H2 H3 H4 H5].
  destruct e as [i user json ex now|i|i|user|i now|k|k now|now]; cbn [step].
  - split; cbn; try done. unfold ids. cbn. rewrite fmap_app.
    intros [?|E%list_elem_of_singleton]%elem_of_app; [done|]. by destruct (He user json ex now); rewrite E.
  - by apply session_gone_call.
  - by apply session_gone_call.
  - by apply session_gone_call.
  - unfold isRevoked. destruct (c_get now i (revokedCache s)) as [cached c'] eqn:E.
    pose proof (get_forgets now i (revokedCache s) H1) as Hfg. rewrite E in Hfg. destruct Hfg as (Hv & _ & Hsub).
    apply session_gone_call; [done|done|intros b t Hx; by eapply H3, Hsub| |].
    + by destruct cached.
    + intros b Hb. destruct cached as [b'|]; [|done]. injection Hb as -> ->.
      destruct (get_found now id (revokedCache s) b H1) as (t & Hview & _); [by rewrite E|]. by eapply H3.
  - destruct (calls s !! k) as [c|] eqn:Ek; [|done].
    assert (∀ P : session_row → Prop, ∀ Hd : ∀ r, Decision (P r), id ∉ session_id <$> filter P (rows s)) as Hfilter.
    { intros P Hd Hin. apply H2. eapply sublist_subseteq; [|exact Hin]. apply ids_filter_sub. }
    destruct c as [i|l|user|user l| |i|i present|i b|i|row|r]; cbn [execute];
      (apply session_gone_put; [done..|first [apply Hfilter|done]|done| |]); try done; try (by intros b0 [= -> ->]; right).
    + intros [= -> E]. apply bool_decide_eq_true in E. done.
    + intros [= -> ->]. by destruct H4; eapply list_elem_of_lookup_2.
  - destruct (calls s !! k) as [c|] eqn:Ek; [|done].
    destruct c as [i|l|user|user l| |i|i present|i b|i|row|r]; cbn [deliver];
      try (apply session_gone_put; try done; by intros b0 [= -> ->]; right).
    + destruct (set_all_view now l (revokedCache s) H1) as [Hv Hview]. apply session_gone_put; try done.
      intros b t [[_ ?]|Hx]%Hview; [done|by eapply H3].
    + apply session_gone_put; try done.
      * destruct present; [done|]. by apply set_valid.
      * destruct present; [done|]. intros b t Hx.
        apply set_view in Hx as [[_ [= -> _]]|[_ Hx]]; [done|by eapply H3|done].
      * intros b [= -> <-]. left. destruct present; [|done]. by destruct H4; eapply list_elem_of_lookup_2.
  - destruct (sweep_forgets now (revokedCache s) H1) as (Hv & _ & Hsub).
    split; cbn; try done. intros b t Hx. by eapply H3, Hsub.
Qed.

(** once the row of a session is deleted and no answer that still saw it is under way,
    every later question is answered with revoked, from the cache, after its entry has
    expired or was evicted, and from the database. *)
Theorem revoked_session_is_refused s id l k b :
  c_valid (revokedCache s) → id ∉ ids s → AskRow id true ∉ calls s →
  (∀ b t, c_view (revokedCache s) id = Some (b, t) → b = true) →
  Forall (λ e, match e with Create i _ _ _ _ => i ≠ id | _ => True end) l →
  (length (calls s) <= k)%nat → calls (run s l) !! k = Some (Answered id b) → b = true.
Proof.
  intros Hv Hrow Hask Hview Hl Hk.
  assert (gone_for id (length (calls s)) s) as Hg.
  { split; [done..|]. intros k' b' Hk' Hl'. apply lookup_lt_Some in Hl'. lia. }
  assert (gone_for id (length (calls s)) (run s l)) as [_ _ _ _ Hend]; [|by apply Hend].
  clear Hv Hrow Hask Hview Hk. revert Hg. generalize (length (calls s)). intros n. revert s.
  induction Hl as [|e l He _ IH]; intros s Hg; [done|]. apply IH, step_gone_for; [|done].
  by intros user json ex now ->.
Qed.

End sessions.

(** ** Concrete runs, with the LRU cache *)

Definition cache0 : Lru.LruCache := empty_lru (K:=string) (V:=bool) 50000 300000.
Definition opened : store (C := _) := {| rows := []; revokedCache := cache0; calls := [] |}.
(** Two sessions of one user, one of them revoked and both asked for. *)
Definition visit : list event :=
  [Create "a" "ada" "{}" None 0; Create "b" "ada" "{}" None 0; Revoke "a"; Execute 0; Deliver 0 1;
   IsRevoked "a" 2; IsRevoked "b" 2; Execute 2; Deliver 2 3].

Example visit_calls : calls (run opened visit) = [Done; Answered "a" true; Answered "b" false].
Proof. vm_compute. reflexivity. Qed.

Lemma cache0_empty : c_valid cache0 ∧ ∀ i, c_view cache0 i = None.
Proof. destruct (empty_lru_valid (K:=string) (V:=bool) 50000 300000) as (H1 & _ & H3); [done|]. by split. Qed.

Lemma live_sessions_pass_witness :
  ("b"%string ∈ ids (run opened visit)) ∧ calls (run opened visit) !! 2%nat ≠ Some (Answered "b" true).
Proof.
  assert ("b"%string ∈ ids (run opened visit)) as Hb by (apply (bool_decide_unpack _); vm_compute; exact I).
  split; [exact Hb|].
  refine (proj1 (live_sessions_pass cache0 visit "b" 2 (proj1 cache0_empty) (proj2 cache0_empty) _) Hb).
  cbn [fresh_run visit fresh_event named app].
  repeat split; apply (bool_decide_unpack _); vm_compute; exact I.
Defined.

Lemma revoked_session_is_refused_witness :
  let s := run opened (take 4 visit) in
  ∀ b, calls (run s [IsRevoked "a" 2; Execute 1; Deliver 1 9]) !! 1%nat = Some (Answered "a" b) → b = true.
Proof.
  intros s b. apply (revoked_session_is_refused s "a").
  - exact (proj1 cache0_empty).
  - apply (bool_decide_unpack _). vm_compute. exact I.
  - intros H. vm_compute in H. by apply elem_of_cons in H as [?|?%not_elem_of_nil].
  - intros b' t H. vm_compute in H. discriminate.
  - repeat constructor.
  - apply le_n.
Defined.
