(* ===== verification/QueryBuilder.v ===== *)
(** * The SQL query builder

    Models src/packages/core/src/database/query-builder.ts: the clauses that the fluent
    methods collect, and their rendering as a text with placeholders and the list of values
    that go with them.

    Texts are lists of characters.  A value is a string, [undefined], or something else
    (a number stands for it): [where] looks at no more than that. *)

From Stdlib Require Import Ascii String.
From S2P Require Import Prelude JsText.

#[local] Open Scope list_scope.
Open Scope Z_scope.

Abbreviation text := (list ascii).
Abbreviation t := list_ascii_of_string.

(** ** Data *)

Inductive SqlDialect : Type := postgres | mysql | sqlite.
Inductive value : Type := VString (s : text) | VUndefined | VOther (n : Z).

Record clause : Type := { c_sql : text; c_params : list value }.     (* '?' is a slot *)
Inductive join_type : Type := INNER | LEFT.
Record JoinClause : Type := {
  j_type : join_type; j_table : text; tableParams : list value; condition : option text
}.
Inductive direction : Type := ASC | DESC.

Record QueryBuilder : Type := {
  selects : list text; wheres : list clause; joins : list JoinClause;
  orderBys : list (text * direction); groupBys : list text; havings : list clause;
  from_ : option clause; limit_ : option Z; offset_ : option Z
}.
Definition new_builder : QueryBuilder :=
  {| selects := []; wheres := []; joins := []; orderBys := []; groupBys := []; havings := [];
     from_ := None; limit_ := None; offset_ := None |}.

(** ** The fluent methods *)

Definition with_selects (l : list text) (b : QueryBuilder) : QueryBuilder :=
  {| selects := l; wheres := wheres b; joins := joins b; orderBys := orderBys b; groupBys := groupBys b;
     havings := havings b; from_ := from_ b; limit_ := limit_ b; offset_ := offset_ b |}.
Definition with_wheres (l : list clause) (b : QueryBuilder) : QueryBuilder :=
  {| selects := selects b; wheres := l; joins := joins b; orderBys := orderBys b; groupBys := groupBys b;
     havings := havings b; from_ := from_ b; limit_ := limit_ b; offset_ := offset_ b |}.
Definition with_joins (l : list JoinClause) (b : QueryBuilder) : QueryBuilder :=
  {| selects := selects b; wheres := wheres b; joins := l; orderBys := orderBys b; groupBys := groupBys b;
     havings := havings b; from_ := from_ b; limit_ := limit_ b; offset_ := offset_ b |}.
Definition with_orderBys (l : list (text * direction)) (b : QueryBuilder) : QueryBuilder :=
  {| selects := selects b; wheres := wheres b; joins := joins b; orderBys := l; groupBys := groupBys b;
     havings := havings b; from_ := from_ b; limit_ := limit_ b; offset_ := offset_ b |}.
Definition with_groupBys (l : list text) (b : QueryBuilder) : QueryBuilder :=
  {| selects := selects b; wheres := wheres b; joins := joins b; orderBys := orderBys b; groupBys := l;
     havings := havings b; from_ := from_ b; limit_ := limit_ b; offset_ := offset_ b |}.
Definition with_havings (l : list clause) (b : QueryBuilder) : QueryBuilder :=
  {| selects := selects b; wheres := wheres b; joins := joins b; orderBys := orderBys b; groupBys := groupBys b;
     havings := l; from_ := from_ b; limit_ := limit_ b; offset_ := offset_ b |}.
Definition with_from (c : clause) (b : QueryBuilder) : QueryBuilder :=
  {| selects := selects b; wheres := wheres b; joins := joins b; orderBys := orderBys b; groupBys := groupBys b;
     havings := havings b; from_ := Some c; limit_ := limit_ b; offset_ := offset_ b |}.

Definition select (cols : list text) (b : QueryBuilder) : QueryBuilder := with_selects (selects b ++ cols) b.
Definition from (table : text) (b : QueryBuilder) : QueryBuilder :=
  with_from {| c_sql := table; c_params := [] |} b.

(** The clause that [where] makes of its arguments: the first, and the others ([args]). *)
Definition where_clause (colOrRaw : text) (args : list value) : clause :=
  match args with
  | [VString op; v] => {| c_sql := colOrRaw ++ t " " ++ op ++ t " ?"; c_params := [v] |}
  | [VString s] => {| c_sql := colOrRaw ++ t " " ++ s; c_params := [] |}
  | VUndefined :: rest => {| c_sql := colOrRaw; c_params := rest |}
  | _ => {| c_sql := colOrRaw; c_params := args |}
  end.
Definition where_ (colOrRaw : text) (args : list value) (b : QueryBuilder) : QueryBuilder :=
  with_wheres (wheres b ++ [where_clause colOrRaw args]) b.

Definition add_join (ty : join_type) (table : text) (cond : text) (b : QueryBuilder) : QueryBuilder :=
  with_joins (joins b ++ [{| j_type := ty; j_table := table; tableParams := []; condition := Some cond |}]) b.
Definition join_ := add_join INNER.
Definition leftJoin := add_join LEFT.
Definition orderBy (col : text) (dir : direction) (b : QueryBuilder) : QueryBuilder :=
  with_orderBys (orderBys b ++ [(col, dir)]) b.
Definition groupBy (cols : list text) (b : QueryBuilder) : QueryBuilder := with_groupBys (groupBys b ++ cols) b.
Definition having (cond : text) (values : list value) (b : QueryBuilder) : QueryBuilder :=
  with_havings (havings b ++ [{| c_sql := cond; c_params := values |}]) b.
Definition limit (n : Z) (b : QueryBuilder) : QueryBuilder :=
  {| selects := selects b; wheres := wheres b; joins := joins b; orderBys := orderBys b; groupBys := groupBys b;
     havings := havings b; from_ := from_ b; limit_ := Some n; offset_ := offset_ b |}.
Definition offset (n : Z) (b : QueryBuilder) : QueryBuilder :=
  {| selects := selects b; wheres := wheres b; joins := joins b; orderBys := orderBys b; groupBys := groupBys b;
     havings := havings b; from_ := from_ b; limit_ := limit_ b; offset_ := Some n |}.

(** ** Rendering *)

(** [allParams] and [paramIdx]. *)
Record build_state : Type := { allParams : list value; paramIdx : Z }.

Definition consume (d : SqlDialect) (v : value) (s : build_state) : text * build_state :=
  match d with
  | postgres => (t "$" ++ show (paramIdx s), {| allParams := allParams s ++ [v]; paramIdx := paramIdx s + 1 |})
  | _ => (t "?", {| allParams := allParams s ++ [v]; paramIdx := paramIdx s |})
  end.

(** [sql.replace] with [params[i++]]. *)
Fixpoint expand (d : SqlDialect) (sql : text) (params : list value) (s : build_state) : text * build_state :=
  match sql with
  | [] => ([], s)
  | c :: sql =>
      if decide (c = "?"%char) then
        let '(ph, s) := consume d (default VUndefined (hd_error params)) s in
        let '(out, s) := expand d sql (tail params) s in (ph ++ out, s)
      else let '(out, s) := expand d sql params s in (c :: out, s)
  end.

Fixpoint join {A} (sep : list A) (l : list (list A)) : list A :=
  match l with [] => [] | [x] => x | x :: l => x ++ sep ++ join sep l end.

(** Left to right through a list of clauses. *)
Fixpoint each {A} (f : A → build_state → text * build_state) (l : list A) (s : build_state) :
    list text * build_state :=
  match l with
  | [] => ([], s)
  | x :: l => let '(o, s) := f x s in let '(os, s) := each f l s in (o :: os, s)
  end.

Definition expand_clause (d : SqlDialect) (c : clause) : build_state → text * build_state :=
  expand d (c_sql c) (c_params c).
Definition type_text (ty : join_type) : text := match ty with INNER => t "INNER" | LEFT => t "LEFT" end.
Definition build_join (d : SqlDialect) (j : JoinClause) (s : build_state) : text * build_state :=
  let '(table, s) := expand d (j_table j) (tableParams j) s in
  (type_text (j_type j) ++ t " JOIN " ++ table ++
     match condition j with Some c => t " ON " ++ c | None => [] end, s).
Definition order_text (o : text * direction) : text :=
  o.1 ++ t " " ++ match o.2 with ASC => t "ASC" | DESC => t "DESC" end.

(** A clause with its keyword, when there are entries. *)
Definition keyword_part (keyword sep : text) (l : list text) : list text :=
  match l with [] => [] | _ => [keyword ++ join sep l] end.

Definition number (z : Z) : text := if z <? 0 then t "-" ++ show (- z) else show z.

Definition buildInternal (d : SqlDialect) (b : QueryBuilder) : text * list value :=
  let s := {| allParams := []; paramIdx := 1 |} in
  let select := t "SELECT " ++ match selects b with [] => t "*" | l => join (t ", ") l end in
  let '(from, s) := match from_ b with
                    | Some c => let '(o, s) := expand_clause d c s in ([t "FROM " ++ o], s)
                    | None => ([], s)
                    end in
  let '(joins, s) := each (build_join d) (joins b) s in
  let '(conditions, s) := each (expand_clause d) (wheres b) s in
  let '(havingParts, s) := each (expand_clause d) (havings b) s in
  let parts :=
    [select] ++ from ++ joins ++ keyword_part (t "WHERE ") (t " AND ") conditions ++
    keyword_part (t "GROUP BY ") (t ", ") (groupBys b) ++
    keyword_part (t "HAVING ") (t " AND ") havingParts ++
    keyword_part (t "ORDER BY ") (t ", ") (order_text <$> orderBys b) ++
    match limit_ b with Some n => [t "LIMIT " ++ number n] | None => [] end ++
    match offset_ b with Some n => [t "OFFSET " ++ number n] | None => [] end in
  (join (t " ") parts, allParams s).

Definition build (dialect : SqlDialect) (b : QueryBuilder) : text * list value := buildInternal dialect b.

(** The other builder as a derived table, rendered with '?'. *)
Definition subquery (qb : QueryBuilder) (alias : text) (b : QueryBuilder) : QueryBuilder :=
  let '(sql, params) := buildInternal mysql qb in
  let derived := t "(" ++ sql ++ t ") AS " ++ alias in
  match from_ b with
  | None => with_from {| c_sql := derived; c_params := params |} b
  | Some _ => with_joins (joins b ++
      [{| j_type := INNER; j_table := derived; tableParams := params; condition := None |}]) b
  end.

(** ** The reference: pieces of text and slots *)

Inductive piece : Type := Chr (c : ascii) | Slot (v : value).

Definition chars (l : text) : list piece := Chr <$> l.
Fixpoint pieces (sql : text) (params : list value) : list piece :=
  match sql with
  | [] => []
  | c :: sql =>
      if decide (c = "?"%char) then Slot (default VUndefined (hd_error params)) :: pieces sql (tail params)
      else Chr c :: pieces sql params
  end.
Definition clause_pieces (c : clause) : list piece := pieces (c_sql c) (c_params c).
Definition join_pieces (j : JoinClause) : list piece :=
  chars (type_text (j_type j) ++ t " JOIN ") ++ pieces (j_table j) (tableParams j) ++
  match condition j with Some c => chars (t " ON " ++ c) | None => [] end.
Definition keyword_pieces (keyword sep : text) (l : list (list piece)) : list (list piece) :=
  match l with [] => [] | _ => [chars keyword ++ join (chars sep) l] end.

(** What a query says: its text with a slot for every value. *)
Definition template_parts (b : QueryBuilder) : list (list piece) :=
    ([chars (t "SELECT " ++ match selects b with [] => t "*" | l => join (t ", ") l end)] ++
     match from_ b with Some c => [chars (t "FROM ") ++ clause_pieces c] | None => [] end ++
     (join_pieces <$> joins b) ++
     keyword_pieces (t "WHERE ") (t " AND ") (clause_pieces <$> wheres b) ++
     keyword_pieces (t "GROUP BY ") (t ", ") (chars <$> groupBys b) ++
     keyword_pieces (t "HAVING ") (t " AND ") (clause_pieces <$> havings b) ++
     keyword_pieces (t "ORDER BY ") (t ", ") ((λ o, chars (order_text o)) <$> orderBys b) ++
     match limit_ b with Some n => [chars (t "LIMIT " ++ number n)] | None => [] end ++
     match offset_ b with Some n => [chars (t "OFFSET " ++ number n)] | None => [] end).
Definition template (b : QueryBuilder) : list piece := join (chars (t " ")) (template_parts b).

Definition slots (l : list piece) : list value :=
  omap (λ p, match p with Slot v => Some v | Chr _ => None end) l.
(** The text of a template: its slots are numbered from [n] on, or are question marks. *)
Fixpoint render (d : SqlDialect) (n : Z) (l : list piece) : text :=
  match l with
  | [] => []
  | Chr c :: l => c :: render d n l
  | Slot _ :: l =>
      (match d with postgres => t "$" ++ show n | _ => t "?" end) ++ render d (n + 1) l
  end.

(** *** Rendering is the reference's *)

Lemma slots_app l l' : slots (l ++ l') = slots l ++ slots l'.
Proof. apply omap_app. Qed.
Lemma slots_chars l : slots (chars l) = [].
Proof. induction l as [|c l IH]; [done|]. exact IH. Qed.
Lemma render_app d n l l' :
  render d n (l ++ l') = render d n l ++ render d (n + Z.of_nat (length (slots l))) l'.
Proof.
  revert n. induction l as [|[c|v] l IH]; intros n; cbn [app render].
  - by rewrite Z.add_0_r.
  - by rewrite IH.
  - rewrite IH, <-(assoc_L (++)). do 3 f_equal. change (slots (Slot v :: l)) with (v :: slots l). cbn [length]. lia.
Qed.
Lemma render_chars d n l : render d n (chars l) = l.
Proof. induction l as [|c l IH]; [done|]. change (chars (c :: l)) with (Chr c :: chars l). cbn [render]. by rewrite IH. Qed.

(** The state after [l] values; the index only counts for Postgres. *)
Definition state_ok (d : SqlDialect) (s : build_state) : Prop :=
  d = postgres → paramIdx s = Z.of_nat (length (allParams s)) + 1.
Definition at_ (s : build_state) : Z := Z.of_nat (length (allParams s)) + 1.

(** [f] renders the template [p]. *)
Definition renders (d : SqlDialect) (p : list piece) (f : build_state → text * build_state) : Prop :=
  ∀ s, state_ok d s →
    (f s).1 = render d (at_ s) p ∧ allParams (f s).2 = allParams s ++ slots p ∧ state_ok d (f s).2.

Lemma at_after s s' l : allParams s' = allParams s ++ l → at_ s' = at_ s + Z.of_nat (length l).
Proof. unfold at_. intros ->. rewrite length_app. lia. Qed.

Lemma consume_ok d v s :
  state_ok d s →
  (consume d v s).1 = (match d with postgres => t "$" ++ show (at_ s) | _ => t "?" end) ∧
  allParams (consume d v s).2 = allParams s ++ [v] ∧ state_ok d (consume d v s).2.
Proof.
  unfold state_ok, at_. intros Hs. destruct d; cbn [consume fst snd allParams paramIdx]; try done.
  rewrite Hs by done. split; [done|]. split; [done|]. intros _. rewrite length_app. cbn. lia.
Qed.

Lemma expand_renders d sql params : renders d (pieces sql params) (expand d sql params).
Proof.
  revert params. induction sql as [|c sql IH]; intros params s Hs; cbn [expand pieces].
  - split; [done|]. split; [by rewrite app_nil_r|done].
  - case_decide as Hc.
    + destruct (consume_ok d (default VUndefined (hd_error params)) s Hs) as (H1 & H2 & H3).
      destruct (consume d _ s) as [ph s1] eqn:E. cbn [fst snd] in *.
      destruct (IH (tail params) s1 H3) as (J1 & J2 & J3).
      destruct (expand d sql (tail params) s1) as [out s2]. cbn [fst snd render] in *.
      rewrite J1, J2, H1, H2, (at_after s s1 _ H2). split; [done|]. split; [|done].
      by rewrite <-(assoc_L (++)).
    + destruct (IH params s Hs) as (J1 & J2 & J3). destruct (expand d sql params s) as [out s2].
      cbn [fst snd render] in *. by rewrite J1.
Qed.

Lemma build_join_renders d j : renders d (join_pieces j) (build_join d j).
Proof.
  intros s Hs. unfold join_pieces, build_join.
  destruct (expand_renders d (j_table j) (tableParams j) s Hs) as (H1 & H2 & H3).
  destruct (expand d (j_table j) (tableParams j) s) as [o s']. cbn [fst snd] in *. subst o.
  rewrite !render_app, !slots_app, !slots_chars, render_chars. cbn [length app]. rewrite Z.add_0_r, <-(assoc_L (++)).
  destruct (condition j) as [c|]; [rewrite render_chars, slots_chars|cbn [slots omap list_omap render]];
    (split; [done|]); (split; [|done]); by rewrite H2, ?app_nil_r.
Qed.

(** *** Lists of parts *)

Fixpoint render_all (d : SqlDialect) (n : Z) (ps : list (list piece)) : list text :=
  match ps with
  | [] => []
  | p :: ps => render d n p :: render_all d (n + Z.of_nat (length (slots p))) ps
  end.
Definition slots_all (ps : list (list piece)) : list value := concat (slots <$> ps).

Lemma slots_all_app ps qs : slots_all (ps ++ qs) = slots_all ps ++ slots_all qs.
Proof. unfold slots_all. by rewrite fmap_app, concat_app. Qed.
Lemma render_all_app d n ps qs :
  render_all d n (ps ++ qs) = render_all d n ps ++ render_all d (n + Z.of_nat (length (slots_all ps))) qs.
Proof.
  revert n. induction ps as [|p ps IH]; intros n; cbn [app render_all]; [by rewrite Z.add_0_r|].
  rewrite IH. do 3 f_equal. change (slots_all (p :: ps)) with (slots p ++ slots_all ps). rewrite length_app. lia.
Qed.
Lemma render_all_chars d n (l : list text) : render_all d n (chars <$> l) = l ∧ slots_all (chars <$> l) = [].
Proof.
  revert n. induction l as [|x l IH]; intros n; [done|]. destruct (IH n) as [H1 H2].
  cbn [fmap list_fmap render_all]. rewrite render_chars, slots_chars, Z.add_0_r. split; [by f_equal|].
  change (slots_all _) with (slots (chars x) ++ slots_all (chars <$> l)). by rewrite slots_chars.
Qed.

Lemma joined_cons {A} (sep x y : list A) l : join sep (x :: y :: l) = x ++ sep ++ join sep (y :: l).
Proof. reflexivity. Qed.
Lemma render_join d n (sep : text) ps :
  render d n (join (chars sep) ps) = join sep (render_all d n ps) ∧
  slots (join (chars sep) ps) = slots_all ps.
Proof.
  revert n. induction ps as [|p [|q ps] IH]; intros n; [done| |].
  - split; [done|]. unfold slots_all. cbn. by rewrite app_nil_r.
  - destruct (IH (n + Z.of_nat (length (slots p)))) as [H1 H2]. rewrite joined_cons.
    rewrite !render_app, !slots_app, slots_chars, render_chars, H2. cbn [length app]. rewrite Z.add_0_r, H1.
    split; [|done]. reflexivity.
Qed.

Lemma keyword_rendered d n keyword sep ps :
  render_all d n (keyword_pieces keyword sep ps) = keyword_part keyword sep (render_all d n ps) ∧
  slots_all (keyword_pieces keyword sep ps) = slots_all ps.
Proof.
  unfold keyword_pieces. destruct ps as [|p ps]; [done|]. cbn [render_all keyword_part].
  destruct (render_join d n sep (p :: ps)) as [H1 H2]. rewrite render_app, render_chars, slots_chars.
  cbn [length]. rewrite Z.add_0_r, H1. split; [done|].
  unfold slots_all at 1. cbn [fmap list_fmap concat]. by rewrite slots_app, slots_chars, H2, app_nil_r.
Qed.

Lemma each_renders {A} d (g : A → list piece) f l :
  (∀ x, renders d (g x) (f x)) → ∀ s, state_ok d s →
  (each f l s).1 = render_all d (at_ s) (g <$> l) ∧
  allParams (each f l s).2 = allParams s ++ slots_all (g <$> l) ∧ state_ok d (each f l s).2.
Proof.
  intros Hf. induction l as [|x l IH]; intros s Hs; cbn [each].
  - split; [done|]. split; [by rewrite app_nil_r|done].
  - destruct (Hf x s Hs) as (H1 & H2 & H3). destruct (f x s) as [o s1]. cbn [fst snd] in *.
    destruct (IH s1 H3) as (J1 & J2 & J3). destruct (each f l s1) as [os s2]. cbn [fst snd] in *.
    cbn [fmap list_fmap render_all]. rewrite H1, J1, J2, H2, (at_after s s1 _ H2).
    split; [done|]. split; [|done]. by rewrite <-(assoc_L (++)).
Qed.

Lemma chars_list_rendered d n (l : list text) :
  render_all d n (chars <$> l) = l.
Proof. apply render_all_chars. Qed.

Lemma build_template_of d b :
  build d b = (render d 1 (template b), slots (template b)).
Proof.
  unfold build, buildInternal, template.
  destruct (render_join d 1 (t " ") (template_parts b)) as [-> ->]. unfold template_parts.
  set (s0 := {| allParams := []; paramIdx := 1 |}).
  set (fp := match from_ b with Some c => [chars (t "FROM ") ++ clause_pieces c] | None => [] end).
  assert (∃ o s1, match from_ b with
    | Some c => let '(o, s) := expand_clause d c s0 in ([t "FROM " ++ o], s) | None => ([], s0) end = (o, s1) ∧
    o = render_all d 1 fp ∧ allParams s1 = slots_all fp ∧ state_ok d s1) as (o & s1 & -> & -> & Hp1 & Hs1).
  { unfold fp. destruct (from_ b) as [c|]; [|by exists [], s0].
    destruct (expand_renders d (c_sql c) (c_params c) s0) as (H1 & H2 & H3); [done|].
    unfold expand_clause. destruct (expand _ _ _ s0) as [o s1]. cbn [fst snd] in *. exists [t "FROM " ++ o], s1.
    split; [done|]. cbn [render_all]. rewrite render_app, render_chars, slots_chars. cbn [length].
    rewrite Z.add_0_r. subst o. split; [done|]. split; [|done].
    unfold slots_all. cbn [fmap list_fmap concat]. by rewrite slots_app, slots_chars, app_nil_r, H2. }
  destruct (each_renders d join_pieces (build_join d) (joins b) (build_join_renders d) s1 Hs1) as (J1 & J2 & J3).
  destruct (each (build_join d) (joins b) s1) as [js s2]. cbn [fst snd] in *.
  destruct (each_renders d clause_pieces (expand_clause d) (wheres b) (λ c, expand_renders d _ _) s2 J3) as (W1 & W2 & W3).
  destruct (each (expand_clause d) (wheres b) s2) as [ws s3]. cbn [fst snd] in *.
  destruct (each_renders d clause_pieces (expand_clause d) (havings b) (λ c, expand_renders d _ _) s3 W3) as (V1 & V2 & V3).
  destruct (each (expand_clause d) (havings b) s3) as [hs s4]. cbn [fst snd] in *.
  assert (∀ x : text, slots_all [chars x] = []) as Hone by (intros x; unfold slots_all; cbn; by rewrite slots_chars).
  assert (slots_all (match limit_ b with Some n => [chars (t "LIMIT " ++ number n)] | None => [] end) = []) as Hlim
    by (destruct (limit_ b); [apply Hone|done]).
  assert (slots_all (match offset_ b with Some n => [chars (t "OFFSET " ++ number n)] | None => [] end) = []) as Hoff
    by (destruct (offset_ b); [apply Hone|done]).
  assert (∀ l : list text, slots_all (chars <$> l) = []) as Hchars by (intros l; apply (render_all_chars d 0)).
  assert (at_ s2 = at_ s1 + Z.of_nat (length (slots_all (join_pieces <$> joins b)))) as E2 by by apply at_after.
  assert (at_ s3 = at_ s2 + Z.of_nat (length (slots_all (clause_pieces <$> wheres b)))) as E3 by by apply at_after.
  assert (at_ s1 = 1 + Z.of_nat (length (slots_all fp))) as E1 by (unfold at_; rewrite Hp1; lia).
  assert (((λ o, chars (order_text o)) <$> orderBys b) = (chars <$> (order_text <$> orderBys b))) as Hord
    by by rewrite <-list_fmap_compose.
  f_equal.
  - f_equal. rewrite Hord, !render_all_app, !(proj1 (keyword_rendered d _ _ _ _)), !(proj2 (keyword_rendered d 0 _ _ _)).
    rewrite !Hone, !Hchars, !(proj1 (render_all_chars d _ _)). cbn [length render_all].
    rewrite render_chars, !Z.add_0_r, <-E1, <-E2, <-E3, <-J1, <-W1, <-V1.
    do 8 f_equal; destruct (limit_ b), (offset_ b); cbn [render_all app]; by rewrite ?render_chars.
  - rewrite Hord, !slots_all_app, !(proj2 (keyword_rendered d 0 _ _ _)), Hlim, Hoff, !Hchars, Hone, V2, W2, J2, Hp1.
    cbn [app]. by rewrite !app_nil_r, !(assoc_L (++)).
Qed.

(** C28: the text and the values that [build] makes are those of the template: the clauses in
    order, a slot for each value; the slots are numbered from $1 on for Postgres and are
    question marks otherwise, and the values are those of the slots in the same order. *)
Theorem build_renders_template d b :
  (build d b).1 = render d 1 (template b) ∧ (build d b).2 = slots (template b).
Proof. by rewrite build_template_of. Qed.

(** ** Dialects *)

(** No question mark in what is pasted as it is. *)
Definition unmarked (l : list piece) : Prop := Forall (λ p, p ≠ Chr "?"%char) l.

(** The [i]-th question mark of a text becomes $[i]. *)
Fixpoint number_marks (n : Z) (l : text) : text :=
  match l with
  | [] => []
  | c :: l => if decide (c = "?"%char) then (t "$" ++ show n) ++ number_marks (n + 1) l else c :: number_marks n l
  end.

Lemma number_render l n m : unmarked l → number_marks n (render mysql m l) = render postgres n l.
Proof.
  intros Hl. revert n m. induction Hl as [|[c|v] l Hp _ IH]; intros n m; [done|..]; cbn [render].
  - cbn [number_marks]. rewrite decide_False by (intros ->; done). by rewrite IH.
  - cbn [number_marks t list_ascii_of_string app]. rewrite decide_True by done. by rewrite IH.
Qed.

Lemma render_question d n m l : d ≠ postgres → render d n l = render mysql m l.
Proof. intros Hd. revert n m. induction l as [|[c|v] l IH]; intros n m; [done|..]; cbn; [by rewrite (IH n m)|]. destruct d; [done|..]; f_equal; apply IH. Qed.

(** all dialects bind the same values in the same order; MySQL and SQLite get the same
    text, and Postgres that text with its question marks numbered from $1 on, unless a
    name or a join condition contains one. *)
Theorem dialects_agree b :
  (build postgres b).2 = (build mysql b).2 ∧ build sqlite b = build mysql b ∧
  (unmarked (template b) → (build postgres b).1 = number_marks 1 (build mysql b).1).
Proof.
  rewrite !build_template_of. cbn [fst snd]. split; [done|]. split.
  - f_equal. by apply render_question.
  - intros Hb. by rewrite number_render.
Qed.

(** ** Values never reach the text *)

(** Builders that differ in nothing but the values of their clauses. *)
Definition twin_clause (c c' : clause) : Prop := c_sql c = c_sql c'.
Definition twin_join (j j' : JoinClause) : Prop :=
  j_type j = j_type j' ∧ j_table j = j_table j' ∧ condition j = condition j'.
Record twins (b b' : QueryBuilder) : Prop := {
  tw_selects : selects b = selects b'; tw_wheres : Forall2 twin_clause (wheres b) (wheres b');
  tw_joins : Forall2 twin_join (joins b) (joins b'); tw_orderBys : orderBys b = orderBys b';
  tw_groupBys : groupBys b = groupBys b'; tw_havings : Forall2 twin_clause (havings b) (havings b');
  tw_from : option_Forall2 twin_clause (from_ b) (from_ b');
  tw_limit : limit_ b = limit_ b'; tw_offset : offset_ b = offset_ b'
}.

(** The text of a template without its values. *)
Definition shape (l : list piece) : list (option ascii) :=
  (λ p, match p with Chr c => Some c | Slot _ => None end) <$> l.

Arguments shape : simpl never.

Lemma shape_app l l' : shape (l ++ l') = shape l ++ shape l'.
Proof. apply fmap_app. Qed.
Lemma render_shape d n l l' : shape l = shape l' → render d n l = render d n l'.
Proof.
  revert n l'. induction l as [|p l IH]; intros n [|p' l'] H; try done.
  injection H as Hp Hl. destruct p as [c|v], p' as [c'|v']; try done; cbn [render].
  - injection Hp as ->. f_equal. by apply IH.
  - by rewrite (IH (n + 1) l').
Qed.
Lemma shape_pieces sql params params' : shape (pieces sql params) = shape (pieces sql params').
Proof.
  revert params params'. induction sql as [|c sql IH]; intros params params'; [done|]. cbn [pieces].
  unfold shape in *. case_decide; cbn; f_equal; apply IH.
Qed.
Lemma shape_join sep ps qs :
  shape <$> ps = shape <$> qs → shape (join sep ps) = shape (join sep qs).
Proof.
  revert qs. induction ps as [|p [|p2 ps] IH]; intros [|q [|q2 qs]] H; try done.
  - by injection H as H.
  - rewrite !joined_cons, !shape_app. pose proof (f_equal tail H) as Ht. injection H as Hp _ _.
    f_equal; [done|]. f_equal. apply IH. exact Ht.
Qed.
Lemma shape_keyword keyword sep ps qs :
  shape <$> ps = shape <$> qs → shape <$> keyword_pieces keyword sep ps = shape <$> keyword_pieces keyword sep qs.
Proof.
  intros H. unfold keyword_pieces. destruct ps as [|p ps], qs as [|q qs]; try done.
  change ([shape (chars keyword ++ join (chars sep) (p :: ps))] =
          [shape (chars keyword ++ join (chars sep) (q :: qs))]).
  by rewrite !shape_app, (shape_join (chars sep) _ _ H).
Qed.
Lemma shape_clauses l l' :
  Forall2 twin_clause l l' → shape <$> (clause_pieces <$> l) = shape <$> (clause_pieces <$> l').
Proof.
  induction 1 as [|c c' l l' Hc _ IH]; [done|]. cbn. f_equal; [|exact IH].
  unfold clause_pieces. rewrite Hc. apply shape_pieces.
Qed.

(** whatever the values are, the text of the query is the same: a value that was given
    as a value is never part of the text. *)
Theorem text_ignores_values d b b' : twins b b' → (build d b).1 = (build d b').1.
Proof.
  intros [Hs Hw Hj Ho Hg Hh Hf Hl Hof]. rewrite !build_template_of. cbn [fst]. apply render_shape, shape_join.
  assert (shape <$> (join_pieces <$> joins b) = shape <$> (join_pieces <$> joins b')) as Ej.
  { induction Hj as [|j j' l l' (H1 & H2 & H3) _ IH]; [done|]. rewrite !fmap_cons. f_equal; [|exact IH].
    unfold join_pieces. rewrite H1, H2, H3, !shape_app. do 2 f_equal. apply shape_pieces. }
  unfold template_parts. rewrite !fmap_app, Hs, Ho, Hg, Hl, Hof, Ej.
  rewrite (shape_keyword (t "WHERE ") _ _ _ (shape_clauses _ _ Hw)).
  rewrite (shape_keyword (t "HAVING ") _ _ _ (shape_clauses _ _ Hh)).
  do 2 f_equal. destruct Hf as [c c' Hc|]; [|done]. rewrite !list_fmap_singleton, !shape_app.
  unfold clause_pieces. rewrite Hc. by rewrite (shape_pieces _ (c_params c) (c_params c')).
Qed.

(** ** Subqueries *)

Lemma pieces_render l params rest n :
  unmarked l → pieces (render mysql n l ++ rest) (slots l ++ params) = l ++ pieces rest params.
Proof.
  intros Hl. revert n. induction Hl as [|[c|v] l Hp _ IH]; intros n; [done|..]; cbn [render app].
  - cbn [pieces]. rewrite decide_False by (intros ->; done). f_equal. apply IH.
  - cbn [pieces t list_ascii_of_string app]. rewrite decide_True by done. cbn. f_equal. apply IH.
Qed.
Lemma pieces_plain l params : "?"%char ∉ l → pieces l params = chars l.
Proof.
  induction l as [|c l IH]; [done|]. intros [Hc Hl]%not_elem_of_cons. cbn [pieces].
  rewrite decide_False by done. by rewrite IH.
Qed.

(** The derived table reads as the template of the inner query. *)
Lemma derived_pieces qb alias :
  unmarked (template qb) → "?"%char ∉ alias →
  pieces (t "(" ++ (buildInternal mysql qb).1 ++ t ") AS " ++ alias) (buildInternal mysql qb).2 =
    chars (t "(") ++ template qb ++ chars (t ") AS " ++ alias).
Proof.
  intros Hqb Halias. change (buildInternal mysql qb) with (build mysql qb). rewrite build_template_of. cbn [fst snd].
  cbn [t list_ascii_of_string app pieces]. rewrite decide_False by done.
  change (chars ["("%char]) with [Chr "("]. cbn [app]. f_equal.
  rewrite <-(app_nil_r (slots _)), pieces_render by done. f_equal.
  apply (pieces_plain (t ") AS " ++ alias)). rewrite not_elem_of_app. split; [|done].
  intros H. vm_compute in H. set_solver.
Qed.

Arguments slots : simpl never.
Arguments chars : simpl never.

Definition values (ps : list (list piece)) : list value := slots_all ps.

Lemma slots_template b :
  slots (template b) =
    values (match from_ b with Some c => [clause_pieces c] | None => [] end) ++
    values (join_pieces <$> joins b) ++ values (clause_pieces <$> wheres b) ++ values (clause_pieces <$> havings b).
Proof.
  unfold template, values. rewrite (proj2 (render_join mysql 0 (t " ") (template_parts b))). unfold template_parts.
  assert (∀ x : text, slots_all [chars x] = []) as Hone by (intros x; unfold slots_all; cbn; by rewrite slots_chars).
  assert (∀ l : list text, slots_all (chars <$> l) = []) as Hchars by (intros l; apply (render_all_chars mysql 0)).
  assert (((λ o, chars (order_text o)) <$> orderBys b) = (chars <$> (order_text <$> orderBys b))) as Hord
    by by rewrite <-list_fmap_compose.
  assert (slots_all match limit_ b with Some n => [chars (t "LIMIT " ++ number n)] | None => [] end = []) as Hlim
    by (destruct (limit_ b); [apply Hone|done]).
  assert (slots_all match offset_ b with Some n => [chars (t "OFFSET " ++ number n)] | None => [] end = []) as Hoff
    by (destruct (offset_ b); [apply Hone|done]).
  rewrite Hord, !slots_all_app, !(proj2 (keyword_rendered mysql 0 _ _ _)), Hlim, Hoff, !Hchars, Hone, !app_nil_r.
  cbn [app]. f_equal. destruct (from_ b) as [c|]; [|done]. unfold slots_all. cbn [fmap list_fmap concat].
  by rewrite slots_app, slots_chars.
Qed.

(** the values of a derived table take the place of the table among the values of the
    outer query: first when it is the source of the query, after the source and the joins
    so far otherwise; unless a name or a join condition of the inner query contains a
    question mark. *)
Theorem subquery_values d qb alias b :
  unmarked (template qb) → "?"%char ∉ alias →
  (build d (subquery qb alias b)).2 =
    match from_ b with
    | None => (build d qb).2 ++ (build d b).2
    | Some c =>
        (slots (clause_pieces c) ++ values (join_pieces <$> joins b)) ++ (build d qb).2 ++
        values (clause_pieces <$> wheres b) ++ values (clause_pieces <$> havings b)
    end.
Proof.
  intros Hqb Halias. pose proof (derived_pieces qb alias Hqb Halias) as Hd. unfold subquery.
  destruct (buildInternal mysql qb) as [sql params] eqn:E. cbn [fst snd] in Hd.
  assert (slots (pieces (t "(" ++ sql ++ t ") AS " ++ alias) params) = slots (template qb)) as Hs.
  { by rewrite Hd, !slots_app, !slots_chars, app_nil_r. }
  destruct (from_ b) as [c|] eqn:Ef; rewrite !build_template_of; cbn [snd]; rewrite !slots_template.
  - cbn [with_joins from_ joins wheres havings]. rewrite Ef, fmap_app. unfold values. rewrite slots_all_app.
    unfold slots_all at 1 3. cbn [fmap list_fmap concat join_pieces j_type j_table tableParams condition].
    unfold join_pieces. cbn [j_type j_table tableParams condition].
    rewrite !slots_app, slots_chars, Hs, slots_template. unfold values, slots_all. cbn. by rewrite !app_nil_r, !(assoc_L (++)).
  - cbn [with_from from_ joins wheres havings]. rewrite Ef. unfold values at 1. unfold slots_all. cbn [fmap list_fmap concat].
    unfold clause_pieces at 1. cbn [c_sql c_params]. rewrite Hs, slots_template, app_nil_r. unfold values, slots_all. cbn.
    by rewrite !(assoc_L (++)).
Qed.

(** ** Concrete queries *)

Definition adults : QueryBuilder :=
  limit 10 (orderBy (t "name") DESC (having (t "COUNT(*) > ?") [VOther 2] (groupBy [t "name"]
    (where_ (t "status") [VString (t "="); VString (t "active")] (where_ (t "age") [VString (t ">="); VOther 18]
      (leftJoin (t "orders") (t "orders.uid = users.id") (from (t "users") (select [t "id"; t "name"] new_builder)))))))).

Example adults_sql :
  build postgres adults =
    (t "SELECT id, name FROM users LEFT JOIN orders ON orders.uid = users.id WHERE age >= $1 AND status = $2 GROUP BY name HAVING COUNT(*) > $3 ORDER BY name DESC LIMIT 10",
     [VOther 18; VString (t "active"); VOther 2]).
Proof. vm_compute. reflexivity. Qed.

(** The documented call [where(rawCondition, ...values)] with one string value: the value is
    pasted into the text of the query, and nothing is bound to the slot. *)
Theorem string_value_is_pasted :
  build postgres (where_ (t "name = ?") [VString (t "'' OR 1=1")] (from (t "users") new_builder)) =
    (t "SELECT * FROM users WHERE name = $1 '' OR 1=1", [VUndefined]).
Proof. vm_compute. reflexivity. Qed.

(** With two values, the first a string, it is taken for an operator. *)
Theorem first_of_two_is_an_operator :
  build postgres (where_ (t "a = ? AND b = ?") [VString (t "x"); VString (t "y")] (from (t "users") new_builder)) =
    (t "SELECT * FROM users WHERE a = $1 AND b = $2 x $3", [VString (t "y"); VUndefined; VUndefined]).
Proof. vm_compute. reflexivity. Qed.

(** A join condition with a question mark (an operator of Postgres) is left alone in a query
    of its own; in a subquery it takes the value of the condition after it. *)
Definition tagged : QueryBuilder :=
  where_ (t "age") [VString (t ">="); VOther 18] (join_ (t "b") (t "a.tags ? b.tag") (from (t "a") new_builder)).
Theorem stray_mark_takes_a_value :
  build postgres tagged = (t "SELECT * FROM a INNER JOIN b ON a.tags ? b.tag WHERE age >= $1", [VOther 18]) ∧
  build postgres (subquery tagged (t "x") new_builder) =
    (t "SELECT * FROM (SELECT * FROM a INNER JOIN b ON a.tags $1 b.tag WHERE age >= $2) AS x", [VOther 18; VUndefined]).
Proof. vm_compute. done. Qed.

(** ** Witnesses *)

Lemma adults_unmarked : unmarked (template adults).
Proof. vm_compute. repeat (constructor; [discriminate|]). constructor. Qed.

Lemma dialects_agree_witness :
  (build postgres adults).1 = number_marks 1 (build mysql adults).1.
Proof. apply (dialects_agree adults). exact adults_unmarked. Defined.

Lemma text_ignores_values_witness :
  (build postgres (where_ (t "name") [VString (t "="); VString (t "'; DROP TABLE users; --")] adults)).1 =
  (build postgres (where_ (t "name") [VString (t "="); VString (t "bob")] adults)).1.
Proof.
  apply text_ignores_values. split; try reflexivity.
  - repeat constructor.
  - repeat constructor.
  - repeat constructor.
  - repeat constructor.
Defined.

Lemma subquery_values_witness :
  (build postgres (subquery adults (t "a") (where_ (t "x") [VString (t "="); VOther 5] new_builder))).2 =
    [VOther 18; VString (t "active"); VOther 2; VOther 5].
Proof.
  rewrite (subquery_values postgres adults (t "a") (where_ (t "x") [VString (t "="); VOther 5] new_builder)).
  - vm_compute. reflexivity.
  - exact adults_unmarked.
  - apply (bool_decide_unpack _). vm_compute. exact I.
Defined.
