(* ===== verification/JsNumber.v ===== *)
(** * JavaScript numbers as IEEE 754 doubles

    A number is a [spec_float] of 53 bits of precision: the standard library's
    specification of binary floating point, which computes without axioms.  Reading a
    decimal literal rounds its exact value once ([of_decimal]); [js_number] is [Number(s)]
    of a text. *)

From Stdlib Require Import Ascii String SpecFloat.
From S2P Require Import Prelude JsText.

Open Scope nat_scope.

Definition prec : Z := 53.
Definition emax : Z := 1024.

#[export] Instance spec_float_eq_dec : EqDecision spec_float.
Proof. solve_decision. Defined.

(** ** Rounding *)

(** The double nearest to an integer. *)
Definition of_Z (z : Z) : spec_float := binary_normalize prec emax z 0 false.

Definition neg (x : spec_float) : spec_float := SFopp x.

(** The double nearest to [m * 10 ^ e], for a natural number [m]. *)
Definition of_decimal (m e : Z) : spec_float :=
  if (0 <=? e)%Z then of_Z (m * 10 ^ e)
  else match m with
       | Zpos p => SFdiv prec emax (S754_finite false p 0) (S754_finite false (Z.to_pos (10 ^ (- e))) 0)
       | _ => S754_zero false
       end.

Definition mul : spec_float → spec_float → spec_float := SFmul prec emax.
Definition lt : spec_float → spec_float → bool := SFltb.

Definition isFinite (x : spec_float) : bool :=
  match x with S754_zero _ | S754_finite _ _ _ => true | _ => false end.
Definition isInteger (x : spec_float) : bool :=
  match x with
  | S754_zero _ => true
  | S754_finite _ m e => (0 <=? e)%Z || (Zpos m mod 2 ^ (- e) =? 0)%Z
  | _ => false
  end.

(** ** [Number(s)] *)

Definition hex_val (c : ascii) : option Z :=
  if is_digit c then Some (digit_val c)
  else if between 97 102 (lower c) then Some (code (lower c) - 87)%Z else None.

(** The value of digits in a radix, when each is one. *)
Fixpoint radix_digits (radix : Z) (acc : Z) (l : list ascii) : option Z :=
  match l with
  | [] => Some acc
  | c :: l => match hex_val c with
              | Some d => if (d <? radix)%Z then radix_digits radix (acc * radix + d) l else None
              | None => None
              end
  end.
Definition radix_literal (radix : Z) (l : list ascii) : spec_float :=
  match l with
  | [] => S754_nan
  | _ => match radix_digits radix 0 l with Some z => of_Z z | None => S754_nan end
  end.

Definition signed (l : list ascii) : bool * list ascii :=
  match l with
  | "-"%char :: l' => (true, l')
  | "+"%char :: l' => (false, l')
  | _ => (false, l)
  end.

(** The optional exponent that ends a literal. *)
Definition exponent_part (l : list ascii) : option Z :=
  match l with
  | [] => Some 0%Z
  | c :: l =>
      if decide (lower c = "e"%char) then
        let '(s, l) := signed l in
        match span_digits l with
        | (((_ :: _) as ds), []) => Some (if s then - digits_value ds else digits_value ds)%Z
        | _ => None
        end
      else None
  end.

(** An unsigned decimal literal: digits, a fraction and an exponent, all of them read. *)
Definition decimal_literal (l : list ascii) : option spec_float :=
  let '(whole, l) := span_digits l in
  let '(fraction, l) := match l with "."%char :: l' => span_digits l' | _ => ([], l) end in
  match whole ++ fraction with
  | [] => None
  | ds => e ← exponent_part l; Some (of_decimal (digits_value ds) (e - Z.of_nat (length fraction)))
  end.

Definition js_number (s : list ascii) : spec_float :=
  match trim s with
  | [] => S754_zero false
  | "0"%char :: c :: l =>
      if decide (lower c = "x"%char) then radix_literal 16 l
      else if decide (lower c = "o"%char) then radix_literal 8 l
      else if decide (lower c = "b"%char) then radix_literal 2 l
      else default S754_nan (decimal_literal ("0"%char :: c :: l))
  | l =>
      let '(s, l) := signed l in
      let x := if decide (l = list_ascii_of_string "Infinity") then S754_infinity false
               else default S754_nan (decimal_literal l) in
      if s then neg x else x
  end.

Example js_number_fraction : js_number (list_ascii_of_string " 0.1 ") = S754_finite false 7205759403792794 (-56).
Proof. vm_compute. reflexivity. Qed.
Example js_number_exponent : js_number (list_ascii_of_string "-12.5e1") = neg (of_Z 125).
Proof. vm_compute. reflexivity. Qed.
Example js_number_hex : js_number (list_ascii_of_string "0xFF") = of_Z 255.
Proof. vm_compute. reflexivity. Qed.
Example js_number_bad : js_number (list_ascii_of_string "12px") = S754_nan.
Proof. vm_compute. reflexivity. Qed.
Example js_number_overflow : js_number (list_ascii_of_string "1e309") = S754_infinity false.
Proof. vm_compute. reflexivity. Qed.

(** ** Lemmas *)

Lemma decimal_literal_digits ds :
  Forall (λ c, is_digit c = true) ds → ds ≠ [] → decimal_literal ds = Some (of_Z (digits_value ds)).
Proof.
  intros Hd Hne. unfold decimal_literal.
  pose proof (span_digits_app ds [] Hd I) as E. rewrite app_nil_r in E. rewrite E. cbn.
  destruct ds as [|c ds]; [done|]. rewrite app_nil_r. cbn. unfold of_decimal. cbn.
  by rewrite Z.mul_1_r.
Qed.

Lemma digits_trim ds : Forall (λ c, is_digit c = true) ds → trim ds = ds.
Proof.
  intros Hd. apply trim_id.
  - destruct Hd as [|c ds Hc _]; [done|]. by apply digit_not_space.
  - assert (Forall (λ c, is_digit c = true) (reverse ds)) as Hr by by apply Forall_reverse.
    destruct Hr as [|c l Hc _]; [done|]. by apply digit_not_space.
Qed.

(** A printed natural number is read as the nearest double. *)
Lemma js_number_digits ds :
  Forall (λ c, is_digit c = true) ds → ds ≠ [] → js_number ds = of_Z (digits_value ds).
Proof.
  intros Hd Hne. unfold js_number. rewrite digits_trim by done.
  pose proof (decimal_literal_digits ds Hd Hne) as E.
  destruct Hd as [|c ds Hc Hd]; [done|].
  assert (default S754_nan (decimal_literal (c :: ds)) = of_Z (digits_value (c :: ds))) as H
    by by rewrite E.
  assert (signed (c :: ds) = (false, c :: ds)) as Hs.
  { clear -Hc. destruct c as [[] [] [] [] [] [] [] []]; done. }
  assert (c :: ds ≠ list_ascii_of_string "Infinity") as Hi.
  { intros [= -> _]. done. }
  assert (∀ d ds, ds = d :: (tail ds) → Forall (λ c, is_digit c = true) ds →
    lower d ≠ "x"%char ∧ lower d ≠ "o"%char ∧ lower d ≠ "b"%char) as Hl.
  { clear. intros d ds -> Hd. inversion Hd as [|? ? Hc _]; subst.
    destruct d as [[] [] [] [] [] [] [] []]; try done; by split_and!. }
  destruct (decide (c = "0"%char)) as [->|Hc0].
  - destruct ds as [|d ds]; [by rewrite Hs; cbn; rewrite decide_False, H|].
    destruct (Hl d (d :: ds) eq_refl Hd) as (Hx & Ho & Hb).
    by rewrite !decide_False by done.
  - transitivity (let '(s, l) := signed (c :: ds) in
      let x := if decide (l = list_ascii_of_string "Infinity") then S754_infinity false
               else default S754_nan (decimal_literal l) in if s then neg x else x).
    + destruct c as [[] [] [] [] [] [] [] []]; done.
    + rewrite Hs. by rewrite decide_False.
Qed.
