(* ===== verification/ConfigValue.v ===== *)
(** * Configuration values: nested objects and their dotted paths

    Models the object handling that the configuration package repeats: [navigate]
    (src/packages/config/src/namespace.ts), [assignPath] (provider.ts, secrets.ts),
    [setPath], [deepAssign] and [isPlainObject] (loader.ts).

    A value is a tree; an object lists its entries in the order of [Object.entries], for
    keys that are not array indices (those come first in JavaScript) and not names of
    [Object.prototype] members (which every object inherits).  [overlay] is the
    specification of merging: what a path means in the merged object in terms of what it
    means in the two objects. *)

From Stdlib Require Import Ascii String SpecFloat.
From S2P Require Import Prelude JsText JsMap.

Abbreviation text := (list ascii) (only parsing).
Definition lit (s : string) : text := list_ascii_of_string s.

(** ** Values *)

Unset Elimination Schemes.
Inductive value : Type :=
| VUndefined
| VNull
| VBool (b : bool)
| VNumber (n : spec_float)
| VString (s : list ascii)
| VArray (items : list value)
| VObject (entries : list (list ascii * value)).
Set Elimination Schemes.

Abbreviation object := (list (list ascii * value)) (only parsing).

(** Induction with the hypothesis for every item of an array and every entry. *)
Lemma value_ind (P : value → Prop) :
  P VUndefined → P VNull → (∀ b, P (VBool b)) → (∀ n, P (VNumber n)) → (∀ s, P (VString s)) →
  (∀ items, Forall P items → P (VArray items)) →
  (∀ entries, Forall (λ e, P e.2) entries → P (VObject entries)) → ∀ v, P v.
Proof.
  intros Hu Hn Hb Hnum Hs Ha Ho. fix F 1. intros [| | | | |items|entries]; [done..| |].
  - apply Ha. induction items; constructor; [apply F|done].
  - apply Ho. induction entries; constructor; [apply F|done].
Qed.

Definition isPlainObject (v : value) : bool := match v with VObject _ => true | _ => false end.

(** The object found at a key, or a fresh one. *)
Definition child_object (v : option value) : object :=
  match v with Some (VObject m) => m | _ => [] end.

(** ** Paths *)

Definition dot : ascii := "."%char.

(** [prefix ? `${prefix}.${key}` : key]. *)
Definition join_path (prefix key : text) : text :=
  match prefix with [] => key | _ => prefix ++ dot :: key end.

Fixpoint navigate_segments (segments : list text) (node : value) : option value :=
  match segments with
  | [] => Some node
  | seg :: segments =>
      match node with
      | VObject m => jm_get seg m ≫= navigate_segments segments
      | _ => None
      end
  end.
Definition navigate (obj : object) (path : text) : option value :=
  navigate_segments (split_on dot path) (VObject obj).

(** [root[path[0]]...[path[n]] = value], with a fresh object in place of every missing
    step and of every step that is not an object. *)
Fixpoint assignPath (path : list text) (value : value) (node : object) : object :=
  match path with
  | [] => jm_set (lit "undefined") value node
  | [key] => jm_set key value node
  | key :: path => jm_set key (VObject (assignPath path value (child_object (jm_get key node)))) node
  end.
Definition setPath (root : object) (path : text) (value : value) : object :=
  assignPath (split_on dot path) value root.

(** ** Merging *)

(** A source of values: the provider's name, and the path for the environment. *)
Record SourceRef : Type := { provider : list ascii; location : option (list ascii) }.

Definition located (ref : SourceRef) (path : text) : SourceRef :=
  if decide (provider ref = lit "env") then {| provider := provider ref; location := Some path |} else ref.

Abbreviation Provenance := (list (list ascii * SourceRef)) (only parsing).

(** What [deepAssign] leaves at a key: the value of the source, merged into the object of
    the target when both are objects. *)
Fixpoint assign_value (ref : SourceRef) (path : text) (v : value) (existing : option value)
    (provenance : Provenance) : value * Provenance :=
  match v with
  | VObject source =>
      let r :=
        foldl (λ st e,
          let p := join_path path e.1 in
          let w := assign_value ref p e.2 (jm_get e.1 st.1) (jm_set p (located ref p) st.2) in
          (jm_set e.1 w.1 st.1, w.2))
        (child_object existing, provenance) source in
      (VObject r.1, r.2)
  | _ => (v, provenance)
  end.

Definition assign_entry (ref : SourceRef) (prefix : text) (st : object * Provenance)
    (e : text * value) : object * Provenance :=
  let p := join_path prefix e.1 in
  let w := assign_value ref p e.2 (jm_get e.1 st.1) (jm_set p (located ref p) st.2) in
  (jm_set e.1 w.1 st.1, w.2).

Definition deepAssign (target : object) (source : object) (prefix : text)
    (provenance : Provenance) (ref : SourceRef) : object * Provenance :=
  foldl (assign_entry ref prefix) (target, provenance) source.

(** The recursive call of [deepAssign] on an object in the source. *)
Lemma assign_value_object ref path source existing provenance :
  assign_value ref path (VObject source) existing provenance =
  let r := deepAssign (child_object existing) source path provenance ref in (VObject r.1, r.2).
Proof. reflexivity. Qed.

(** ** The shape of a value *)

(** What a path holds: nothing, an object, or something else. *)
Inductive view : Type := Absent | Node | Leaf (v : value).

Definition view_of (v : option value) : view :=
  match v with None => Absent | Some (VObject _) => Node | Some v => Leaf v end.
Definition view_at (v : value) (segments : list text) : view := view_of (navigate_segments segments v).

(** Whether the path runs into something that is not an object before its end. *)
Fixpoint blocked (segments : list text) (v : value) : bool :=
  match segments with
  | [] => false
  | seg :: segments =>
      match v with
      | VObject m => match jm_get seg m with Some w => blocked segments w | None => false end
      | _ => true
      end
  end.

(** The specification of a merge: the source decides on the paths it holds and below its
    leaves; elsewhere the target does. *)
Definition overlay (target source : value) (segments : list text) : view :=
  match view_at source segments with
  | Absent => if blocked segments source then Absent else view_at target segments
  | w => w
  end.

(** ** Merging values, without the provenance *)

Fixpoint merge_value (v : value) (existing : option value) : value :=
  match v with
  | VObject source =>
      VObject (foldl (λ t e, jm_set e.1 (merge_value e.2 (jm_get e.1 t)) t) (child_object existing) source)
  | _ => v
  end.
Definition merge_object (target source : object) : object :=
  foldl (λ t e, jm_set e.1 (merge_value e.2 (jm_get e.1 t)) t) target source.

(** The paths of a source, an object before its entries. *)
Fixpoint paths_below (path : text) (v : value) : list text :=
  match v with
  | VObject m => foldr (λ e l, (join_path path e.1 :: paths_below (join_path path e.1) e.2) ++ l) [] m
  | _ => []
  end.

Definition record_paths (ref : SourceRef) (provenance : Provenance) (paths : list text) : Provenance :=
  foldl (λ pr p, jm_set p (located ref p) pr) provenance paths.

Lemma assign_value_split ref v : ∀ path existing provenance,
  assign_value ref path v existing provenance =
  (merge_value v existing, record_paths ref provenance (paths_below path v)).
Proof.
  induction v as [| | | | | |m IH] using value_ind; intros path existing provenance; try done.
  cbn [assign_value merge_value paths_below]. generalize (child_object existing).
  intros t. revert t provenance.
  induction IH as [|e m He _ IHm]; intros t provenance; cbn [foldl foldr fst snd]; [done|].
  rewrite !He. cbn [fst snd]. destruct (foldl _ _ m) as [o pr] eqn:E.
  specialize (IHm (jm_set e.1 (merge_value e.2 (jm_get e.1 t)) t)
    (record_paths ref (jm_set (join_path path e.1) (located ref (join_path path e.1)) provenance)
      (paths_below (join_path path e.1) e.2))).
  rewrite E in IHm. cbn [fst snd] in *. injection IHm as -> ->. f_equal.
  unfold record_paths. cbn [app foldl]. by rewrite foldl_app.
Qed.

Lemma deepAssign_split target source prefix provenance ref :
  deepAssign target source prefix provenance ref =
  (merge_object target source, record_paths ref provenance (paths_below prefix (VObject source))).
Proof.
  pose proof (assign_value_split ref (VObject source) prefix (Some (VObject target)) provenance) as E.
  rewrite assign_value_object in E. cbn in E. injection E as E1 E2.
  rewrite (surjective_pairing (deepAssign _ _ _ _ _)). by rewrite E1, E2.
Qed.

(** ** Well-formed values: no key twice in an object *)

Inductive wf_value : value → Prop :=
| wf_object m : jm_wf m → Forall (λ e, wf_value e.2) m → wf_value (VObject m)
| wf_other v : isPlainObject v = false → wf_value v.

Lemma wf_object_inv m : wf_value (VObject m) → jm_wf m ∧ Forall (λ e, wf_value e.2) m.
Proof. by inversion 1. Qed.

Lemma wf_child m k : wf_value (VObject m) → wf_value (VObject (child_object (jm_get k m))).
Proof.
  intros [Hm Ha]%wf_object_inv. unfold child_object.
  destruct (jm_get k m) as [[| | | | | |c]|] eqn:E;
    try (constructor; [apply NoDup_nil_2|constructor]).
  by apply (jm_all_get wf_value k (VObject c)) in E.
Qed.

Lemma wf_set k v m : wf_value (VObject m) → wf_value v → wf_value (VObject (jm_set k v m)).
Proof.
  intros [Hm Ha]%wf_object_inv Hv. constructor; [by apply jm_set_wf|]. by apply (jm_all_set wf_value).
Qed.

Lemma wf_get m k v : wf_value (VObject m) → jm_get k m = Some v → wf_value v.
Proof. intros [_ Ha]%wf_object_inv. by apply (jm_all_get wf_value). Qed.

Lemma wf_nil : wf_value (VObject []).
Proof. constructor; [apply NoDup_nil_2|constructor]. Qed.

Lemma wf_default_child ex : (∀ v, ex = Some v → wf_value v) → wf_value (VObject (child_object ex)).
Proof.
  intros H. destruct ex as [[| | | | | |c]|]; try apply wf_nil. by apply H.
Qed.

Lemma wf_merge_value v : ∀ ex, wf_value v → (∀ w, ex = Some w → wf_value w) → wf_value (merge_value v ex).
Proof.
  induction v as [| | | | | |m IH] using value_ind; intros ex Hv Hex; try done.
  cbn [merge_value]. apply wf_object_inv in Hv as [_ Ha]. apply wf_default_child in Hex.
  revert Hex. generalize (child_object ex). induction IH as [|e m He _ IHm]; intros t Ht; [done|].
  apply Forall_cons in Ha as [Hw Ha]. cbn [foldl]. apply IHm; [done|].
  apply wf_set; [done|]. apply He; [done|]. intros w. by apply wf_get.
Qed.

Lemma wf_merge_object t s :
  wf_value (VObject t) → wf_value (VObject s) → wf_value (VObject (merge_object t s)).
Proof.
  intros Ht Hs. apply (wf_merge_value (VObject s) (Some (VObject t)) Hs). by intros w [= <-].
Qed.

Lemma wf_assignPath path v : ∀ m, wf_value v → wf_value (VObject m) → wf_value (VObject (assignPath path v m)).
Proof.
  induction path as [|k [|k' path] IH]; intros m Hv Hm; [by apply wf_set..|].
  change (assignPath (k :: k' :: path) v m) with
    (jm_set k (VObject (assignPath (k' :: path) v (child_object (jm_get k m)))) m).
  apply wf_set; [done|]. apply IH; [done|]. by apply wf_child.
Qed.

(** ** The lookup law of the merge *)

Lemma merge_object_get k target source :
  jm_wf source →
  jm_get k (merge_object target source) =
  match jm_get k source with
  | Some v => Some (merge_value v (jm_get k target))
  | None => jm_get k target
  end.
Proof.
  unfold merge_object. revert target.
  induction source as [|[k' v] source IH]; intros target Hwf; cbn [foldl jm_get fst snd]; [done|].
  apply NoDup_cons in Hwf as [Hni Hwf]. rewrite IH by done.
  destruct (decide (k = k')) as [->|Hne].
  - apply jm_get_None in Hni. cbn in Hni. rewrite Hni. by rewrite jm_get_set_eq.
  - by rewrite jm_get_set_ne.
Qed.

Lemma merge_value_overlay segments : ∀ v ex, wf_value v →
  view_of (navigate_segments segments (merge_value v ex)) =
  match view_at v segments with
  | Absent => if blocked segments v then Absent else view_of (ex ≫= navigate_segments segments)
  | w => w
  end.
Proof.
  unfold view_at. induction segments as [|seg segments IH]; intros v ex Hv.
  { cbn. by destruct v. }
  destruct v as [| | | | | |m]; try done.
  cbn [merge_value navigate_segments blocked].
  change (foldl _ (child_object ex) m) with (merge_object (child_object ex) m).
  rewrite merge_object_get by by apply wf_object_inv in Hv as [??].
  destruct (jm_get seg m) as [w|] eqn:E; cbn [mbind option_bind].
  - rewrite IH by by eapply wf_get. by destruct ex as [[]|].
  - by destruct ex as [[]|].
Qed.

(** ** Dotted paths *)

(** A key that a dotted path can name. *)
Definition plain_key (k : text) : Prop := k ≠ [] ∧ (dot ∉ k).

Definition dotted (prefix : text) (segments : list text) : text := foldl join_path prefix segments.

Lemma dotted_cons prefix k segments : dotted prefix (k :: segments) = dotted (join_path prefix k) segments.
Proof. reflexivity. Qed.

Lemma join_path_nonempty prefix k : k ≠ [] → join_path prefix k ≠ [].
Proof. destruct prefix; cbn; [done|]. by intros _. Qed.

Lemma dotted_nonempty prefix segments :
  prefix ≠ [] → dotted prefix segments = prefix ++ concat (cons dot <$> segments).
Proof.
  revert prefix. induction segments as [|k segments IH]; intros prefix Hp; cbn [dotted foldl].
  { cbn. by rewrite app_nil_r. }
  change (foldl join_path ?p ?l) with (dotted p l). rewrite IH by by destruct prefix.
  destruct prefix as [|c prefix]; [done|]. cbn [join_path]. rewrite fmap_cons. cbn [concat].
  by rewrite <-(assoc_L (++)).
Qed.

Lemma split_dotted segments :
  segments ≠ [] → Forall plain_key segments → split_on dot (dotted [] segments) = segments.
Proof.
  intros Hne Hp. destruct Hp as [|k segments [Hk Hd] Hp]; [done|].
  rewrite dotted_cons. cbn [join_path]. rewrite dotted_nonempty by done. clear Hne Hk.
  revert k Hd. induction Hp as [|k' segments [Hk' Hd'] Hp IH]; intros k Hd.
  - cbn. rewrite app_nil_r. by apply split_on_none.
  - rewrite fmap_cons. cbn [concat app]. rewrite split_on_app by done. f_equal. by apply IH.
Qed.

(** Every key of the value is plain. *)
Inductive plain_value : value → Prop :=
| plain_object m : Forall (λ e, plain_key e.1 ∧ plain_value e.2) m → plain_value (VObject m)
| plain_other v : isPlainObject v = false → plain_value v.

Lemma plain_segments v : ∀ segments,
  plain_value v → is_Some (navigate_segments segments v) → Forall plain_key segments.
Proof.
  intros segments. revert v. induction segments as [|seg segments IH]; intros v Hv Hs; [done|].
  destruct v as [| | | | | |m]; try by destruct Hs. cbn in Hs.
  destruct (jm_get seg m) as [w|] eqn:E; [|by destruct Hs].
  assert (plain_key seg ∧ plain_value w) as [??].
  { inversion Hv as [? Hm|]; subst; [|done]. rewrite Forall_forall in Hm.
    by apply (Hm (seg, w)), jm_get_elem. }
  constructor; [done|]. by apply (IH w).
Qed.

(** The recorded paths are those that hold a value. *)
Lemma paths_below_spec v : ∀ prefix p, wf_value v →
  p ∈ paths_below prefix v ↔
  ∃ segments, segments ≠ [] ∧ is_Some (navigate_segments segments v) ∧ p = dotted prefix segments.
Proof.
  induction v as [| | | | | |m IH] using value_ind; intros prefix p Hv;
    try (split; [by intros ?%not_elem_of_nil|]; by intros ([|??] & ? & [??] & _)).
  apply wf_object_inv in Hv as [Hwf Ha]. cbn [paths_below].
  assert (p ∈ foldr (λ e l, (join_path prefix e.1 :: paths_below (join_path prefix e.1) e.2) ++ l) [] m ↔
    ∃ k w, (k, w) ∈ m ∧ ∃ rest, is_Some (navigate_segments rest w) ∧ p = dotted prefix (k :: rest)) as ->.
  { clear Hwf. induction IH as [|[k w] m He _ IHm]; cbn [foldr fst snd].
    { split; [by intros ?%not_elem_of_nil|]. by intros (? & ? & ?%not_elem_of_nil & _). }
    apply Forall_cons in Ha as [Hw Ha]. cbn [fst snd] in *.
    rewrite elem_of_app, elem_of_cons, He, IHm by done. split.
    - intros [[->|(rest & _ & Hs & ->)]|(k' & w' & Hin & H)].
      + exists k, w. split; [by left|]. exists []. by split; [eexists|].
      + exists k, w. split; [by left|]. by exists rest.
      + exists k', w'. split; [by right|done].
    - intros (k' & w' & [[= -> ->]|Hin]%elem_of_cons & rest & Hs & ->); [left|right; eauto 8].
      destruct rest as [|k2 rest]; [by left|right]. exists (k2 :: rest). by split_and!. }
  split.
  - intros (k & w & Hin & rest & Hs & ->). exists (k :: rest). split_and!; [done| |done].
    cbn. by rewrite (jm_elem_get k w m).
  - intros ([|k rest] & Hne & Hs & ->); [done|]. cbn in Hs.
    destruct (jm_get k m) as [w|] eqn:E; [|by destruct Hs].
    exists k, w. split; [by apply jm_get_elem|]. by exists rest.
Qed.

Lemma record_paths_get ref provenance paths p :
  jm_get p (record_paths ref provenance paths) =
  if decide (p ∈ paths) then Some (located ref p) else jm_get p provenance.
Proof.
  unfold record_paths. revert provenance. induction paths as [|q paths IH]; intros pr; cbn [foldl]; [done|].
  rewrite IH. destruct (decide (p ∈ paths)) as [Hin|Hni].
  - by rewrite decide_True by by right.
  - destruct (decide (p = q)) as [->|Hne].
    + by rewrite jm_get_set_eq, decide_True by by left.
    + rewrite jm_get_set_ne, decide_False by done || by rewrite elem_of_cons; intros [|]. done.
Qed.

(** A dotted path of a value whose keys are plain is recorded exactly when it is held. *)
Lemma paths_below_plain v segments :
  wf_value v → plain_value v → segments ≠ [] → Forall plain_key segments →
  dotted [] segments ∈ paths_below [] v ↔ is_Some (navigate_segments segments v).
Proof.
  intros Hwf Hpl Hne Hs. rewrite paths_below_spec by done. split; [|intros; by exists segments].
  intros (segments' & Hne' & Hs' & E). pose proof (plain_segments _ _ Hpl Hs') as Hp'.
  apply (f_equal (split_on dot)) in E. rewrite !split_dotted in E by done. by subst.
Qed.

(** ** The laws of assignment *)

Lemma assignPath_cons k k' path v m :
  assignPath (k :: k' :: path) v m =
  jm_set k (VObject (assignPath (k' :: path) v (child_object (jm_get k m)))) m.
Proof. reflexivity. Qed.

Lemma navigate_assign_same path v : ∀ m,
  path ≠ [] → navigate_segments path (VObject (assignPath path v m)) = Some v.
Proof.
  induction path as [|k [|k' path] IH]; intros m Hne; [done|..].
  - cbn. by rewrite jm_get_set_eq.
  - rewrite assignPath_cons. cbn [navigate_segments]. rewrite jm_get_set_eq. cbn [mbind option_bind].
    by apply IH.
Qed.

Lemma navigate_assign_other path v q : ∀ m,
  path ≠ [] → ¬ path `prefix_of` q → ¬ q `prefix_of` path →
  navigate_segments q (VObject (assignPath path v m)) = navigate_segments q (VObject m).
Proof.
  revert q. induction path as [|k path IH]; intros q m Hne Hpq Hqp; [done|].
  destruct q as [|x q]; [by destruct Hqp; apply prefix_nil|].
  destruct (decide (x = k)) as [->|Hx].
  - destruct path as [|k' path]; [by destruct Hpq; apply prefix_cons, prefix_nil|].
    rewrite assignPath_cons. cbn [navigate_segments]. rewrite jm_get_set_eq. cbn [mbind option_bind].
    rewrite IH; [|done|by intros ?%(prefix_cons k)..].
    destruct q as [|y q]; [by destruct Hqp; apply prefix_cons, prefix_nil|].
    by destruct (jm_get k m) as [[]|].
  - destruct path as [|k' path]; [|rewrite assignPath_cons]; cbn [assignPath navigate_segments];
      by rewrite jm_get_set_ne.
Qed.
