(* ===== verification/ConfigValidator.v ===== *)
(** * Configuration validators

    Models src/packages/config/src/validator.ts: each validator takes a value of a source,
    coerces it from a text where that is unambiguous, and returns an [Outcome].  Messages
    are sequences of texts and numbers, since printing a double is not modelled.  The WHATWG
    parser behind [new URL] and [isIP] of node:net are parameters. *)

From Stdlib Require Import Ascii String SpecFloat.
From S2P Require Import Prelude JsText JsNumber JsMap ConfigValue.

Open Scope nat_scope.

(** ** Outcomes *)

Inductive part : Type := PText (s : list ascii) | PNumber (n : spec_float).
Abbreviation message := (list part) (only parsing).

Inductive Outcome (T : Type) : Type :=
| Valid (v : T)
| Invalid (expected why : list part).
Arguments Valid {T} v.
Arguments Invalid {T} expected why.

#[export] Instance outcome_fmap : FMap Outcome := λ A B f o,
  match o with Valid v => Valid (f v) | Invalid e m => Invalid e m end.

Definition says (s : string) : list part := [PText (lit s)].
Definition count (n : nat) : part := PText (show (Z.of_nat n)).
Definition ql (s : text) : part := PText ([ascii_of_nat 34] ++ s ++ [ascii_of_nat 34]).

Definition typeName (v : value) : text :=
  match v with
  | VUndefined => lit "undefined"
  | VNull => lit "null"
  | VBool _ => lit "boolean"
  | VNumber _ => lit "number"
  | VString _ => lit "string"
  | VArray _ => lit "array"
  | VObject _ => lit "object"
  end.

(** [err(expected, `${prefix}${typeName(raw)}`)]. *)
Definition got {T} (expected prefix : string) (raw : value) : Outcome T :=
  Invalid (says expected) [PText (lit prefix); PText (typeName raw)].

(** ** string *)

(** A regular expression: how it is printed, and which texts it matches. *)
Record Pattern : Type := { source : list ascii; test : list ascii → bool }.
Record StringOptions : Type := {
  minLength : option nat; maxLength : option nat; pattern : option Pattern; trim_option : option bool }.

Definition exceeds (a b : option nat) : bool :=
  match a, b with Some a, Some b => a <? b | _, _ => false end.

Definition validateString (raw : value) (opts : StringOptions) : Outcome text :=
  match raw with
  | VString s =>
      let v := if decide (trim_option opts = Some false) then s else trim s in
      if exceeds (Some (length v)) (minLength opts) then
        let m := count (default 0 (minLength opts)) in
        Invalid (says "string (min length " ++ [m] ++ says ")")
          (says "string is too short (" ++ [count (length v)] ++ says " < " ++ [m] ++ says ")")
      else if exceeds (maxLength opts) (Some (length v)) then
        let m := count (default 0 (maxLength opts)) in
        Invalid (says "string (max length " ++ [m] ++ says ")")
          (says "string is too long (" ++ [count (length v)] ++ says " > " ++ [m] ++ says ")")
      else match pattern opts with
           | Some p =>
               if test p v then Valid v
               else Invalid (says "string matching " ++ [PText (source p)])
                      (says "string does not match required pattern " ++ [PText (source p)])
           | None => Valid v
           end
  | _ => got "string" "expected a string, got " raw
  end.

(** ** number *)

Record NumberOptions : Type := { min : option spec_float; max : option spec_float; integer : bool }.

Definition coerce_number (raw : value) : option spec_float :=
  match raw with
  | VNumber n => Some n
  | VString s =>
      if bool_decide (trim s ≠ []) && isFinite (js_number s) then Some (js_number s) else None
  | _ => None
  end.

Definition validateNumber (raw : value) (opts : NumberOptions) : Outcome spec_float :=
  match coerce_number raw with
  | None => got "number" "expected a number, got " raw
  | Some n =>
      if negb (isFinite n) then Invalid (says "number") (says "value is not a finite number")
      else if integer opts && negb (isInteger n) then
        Invalid (says "integer") (says "expected an integer, got " ++ [PNumber n])
      else if match min opts with Some m => lt n m | None => false end then
        let m := PNumber (default S754_nan (min opts)) in
        Invalid (says "number >= " ++ [m])
          (says "value " ++ [PNumber n] ++ says " is below minimum " ++ [m])
      else if match max opts with Some m => lt m n | None => false end then
        let m := PNumber (default S754_nan (max opts)) in
        Invalid (says "number <= " ++ [m])
          (says "value " ++ [PNumber n] ++ says " is above maximum " ++ [m])
      else Valid n
  end.

(** ** boolean and enum *)

Definition TRUE : list text := lit <$> ["true"; "1"; "yes"; "on"].
Definition FALSE : list text := lit <$> ["false"; "0"; "no"; "off"].

Definition validateBoolean (raw : value) : Outcome bool :=
  let bad := got "boolean" "expected a boolean (true/false/1/0/yes/no/on/off), got " raw in
  match raw with
  | VBool b => Valid b
  | VString s =>
      let v := lower <$> trim s in
      if decide (v ∈ TRUE) then Valid true else if decide (v ∈ FALSE) then Valid false else bad
  | _ => bad
  end.

Definition validateEnum (raw : value) (values : list text) : Outcome text :=
  let expected := says "one of: " ++ [PText (join_text (lit ", ") values)] in
  match raw with
  | VString s =>
      let v := trim s in
      if decide (v ∈ values) then Valid v
      else Invalid expected ([ql v] ++ says " is not an allowed value")
  | _ => Invalid expected [PText (lit "expected a string, got "); PText (typeName raw)]
  end.

(** ** array and object *)

Record ArrayOptions : Type := {
  delimiter : option (list ascii); minItems : option nat; maxItems : option nat }.

(** The loop over the items: the first item that fails ends it. *)
Fixpoint validate_items {T} (itemValidator : value → Outcome T) (i : nat) (items : list value) :
    Outcome (list T) :=
  match items with
  | [] => Valid []
  | item :: items =>
      match itemValidator item with
      | Invalid e m => Invalid (says "array of " ++ e) (says "item " ++ [count i] ++ says ": " ++ m)
      | Valid v => cons v <$> validate_items itemValidator (S i) items
      end
  end.

Definition array_items (raw : value) (opts : ArrayOptions) : option (list value) :=
  match raw with
  | VArray items => Some items
  | VString s =>
      Some (if decide (trim s = []) then []
            else (λ p, VString (trim p)) <$> split_text (default (lit ",") (delimiter opts)) s)
  | _ => None
  end.

Definition validateArray {T} (raw : value) (itemValidator : value → Outcome T) (opts : ArrayOptions) :
    Outcome (list T) :=
  match array_items raw opts with
  | None => got "array" "expected an array or delimited string, got " raw
  | Some items =>
      if exceeds (Some (length items)) (minItems opts) then
        let m := count (default 0 (minItems opts)) in
        Invalid (says "array (min " ++ [m] ++ says " items)")
          (says "array has too few items (" ++ [count (length items)] ++ says " < " ++ [m] ++ says ")")
      else if exceeds (maxItems opts) (Some (length items)) then
        let m := count (default 0 (maxItems opts)) in
        Invalid (says "array (max " ++ [m] ++ says " items)")
          (says "array has too many items (" ++ [count (length items)] ++ says " > " ++ [m] ++ says ")")
      else validate_items itemValidator 0 items
  end.

Definition validateObject (raw : value) : Outcome object :=
  match raw with
  | VObject m => Valid m
  | _ => got "object" "expected an object, got " raw
  end.

(** ** duration, in milliseconds *)

Definition DURATION_UNITS : list (text * Z) :=
  [(lit "ms", 1); (lit "s", 1000); (lit "m", 60000); (lit "h", 3600000); (lit "d", 86400000)]%Z.

(** [DURATION_RE.exec(v)]: the number and the unit, in lower case. *)
Definition duration_match (v : text) : option (text * text) :=
  let '(whole, rest) := span_digits v in
  let '(number, rest) :=
    match rest with
    | "."%char :: after =>
        match span_digits after with
        | ([], _) => (whole, rest)
        | (fraction, after) => (whole ++ "."%char :: fraction, after)
        end
    | _ => (whole, rest)
    end in
  let unit := lower <$> drop_spaces rest in
  if bool_decide (whole ≠ []) && jm_has unit DURATION_UNITS then Some (number, unit) else None.

Definition all_digits (v : text) : bool := bool_decide (v ≠ []) && forallb is_digit v.

Definition validateDuration (raw : value) : Outcome spec_float :=
  let bad := Invalid (says "duration")
    [ PText (lit "expected a duration (e.g. "); ql (lit "500ms"); PText (lit ", "); ql (lit "2s")
    ; PText (lit ", "); ql (lit "1h"); PText (lit ") or a millisecond number, got ")
    ; PText (typeName raw) ] in
  match raw with
  | VNumber n => if isFinite n && negb (lt n (S754_zero false)) then Valid n else bad
  | VString s =>
      let v := trim s in
      if all_digits v then Valid (js_number v)
      else match duration_match v with
           | Some (n, unit) => Valid (mul (js_number n) (of_Z (default 0%Z (jm_get unit DURATION_UNITS))))
           | None => bad
           end
  | _ => bad
  end.

(** ** Texts of a given form *)

(** The frame of the validators of texts: a text, trimmed, then [check]. *)
Definition text_validator (expected prefix : string) (check : text → Outcome text) (raw : value) : Outcome text :=
  match raw with VString s => check (trim s) | _ => got expected prefix raw end.

Definition validatePath : value → Outcome text :=
  text_validator "path" "expected a filesystem path string, got " (λ v,
    if decide (v = []) then Invalid (says "path") (says "path must not be empty")
    else if decide (zero ∈ v) then Invalid (says "path") (says "path must not contain a null byte")
    else Valid v).

Definition is_letter (c : ascii) : bool := between 97 122 (lower c).
Definition label_char (c : ascii) : bool := is_letter c || is_digit c || bool_decide (c = "-"%char).

(** [(?!-)[a-z0-9-]+(?<!-)], the whole of the text. *)
Definition dashed_label (l : text) : bool :=
  bool_decide (l ≠ []) && forallb label_char l &&
  bool_decide (head l ≠ Some "-"%char) && bool_decide (last l ≠ Some "-"%char).
(** [HOSTNAME_LABEL]. *)
Definition hostname_label (l : text) : bool := dashed_label l && (length l <=? 63).

Definition validateHostname : value → Outcome text :=
  text_validator "hostname" "expected a hostname string, got " (λ v,
    if (length v =? 0) || (253 <? length v) then
      Invalid (says "hostname") (says "hostname length must be 1–253 characters")
    else if forallb hostname_label (split_on dot v) then Valid v
    else Invalid (says "hostname") ([ql v] ++ says " is not a valid RFC-1123 hostname")).

(** [EMAIL_RE]: a local part without white space, one [@], labels of which there are two. *)
Definition email_match (v : text) : bool :=
  match split_on "@"%char v with
  | [local; domain] =>
      let labels := split_on dot domain in
      bool_decide (local ≠ []) && forallb (λ c, negb (is_space c)) local &&
      (2 <=? length labels) && forallb dashed_label labels
  | _ => false
  end.

Definition validateEmail : value → Outcome text :=
  text_validator "email" "expected an email string, got " (λ v,
    if negb (email_match v) || (254 <? length v) then
      Invalid (says "email") ([ql v] ++ says " is not a valid email address")
    else Valid v).

Section platform.
(** The protocol of a text that [new URL] accepts, without its colon; the version that
    [isIP] finds, 0 for a text that is no address. *)
Context (url_protocol : list ascii → option (list ascii)) (isIP : list ascii → nat).

Definition validateUrl (raw : value) (protocols : option (list text)) : Outcome text :=
  text_validator "url" "expected a URL string, got " (λ v,
    match url_protocol v with
    | None => Invalid (says "url") ([ql v] ++ says " is not a valid URL")
    | Some proto =>
        match protocols with
        | Some ((_ :: _) as ps) =>
            if decide (proto ∈ ps) then Valid v
            else Invalid (says "url (protocol one of: " ++ [PText (join_text (lit ", ") ps)] ++ says ")")
                   (says "URL protocol " ++ [ql proto] ++ says " is not allowed")
        | _ => Valid v
        end
    end) raw.

Definition validateIp (raw : value) (version : option nat) : Outcome text :=
  text_validator "ip" "expected an IP address string, got " (λ v,
    let detected := isIP v in
    if decide (detected = 0) then Invalid (says "ip") ([ql v] ++ says " is not a valid IP address")
    else match version with
         | Some n =>
             if decide (detected = n) then Valid v
             else Invalid (says "IPv" ++ [count n] ++ says " address")
                    ([ql v] ++ says " is IPv" ++ [count detected] ++ says ", expected IPv" ++ [count n])
         | None => Valid v
         end) raw.
End platform.

(** ** Lemmas on trimming *)

Lemma drop_spaces_head l : match drop_spaces l with [] => True | c :: _ => is_space c = false end.
Proof. induction l as [|c l IH]; cbn; [done|]. by destruct (is_space c) eqn:E; [|rewrite E]. Qed.

Lemma drop_spaces_suffix l : ∃ k, l = k ++ drop_spaces l.
Proof.
  induction l as [|c l [k IH]]; cbn; [by exists []|].
  destruct (is_space c); [exists (c :: k); cbn; by f_equal|by exists []].
Qed.

Lemma trim_trim l : trim (trim l) = trim l.
Proof.
  apply trim_id; unfold trim.
  - pose proof (drop_spaces_head l) as Hh.
    destruct (drop_spaces_suffix (reverse (drop_spaces l))) as [k Hk].
    apply (f_equal reverse) in Hk. rewrite reverse_involutive, reverse_app in Hk.
    destruct (reverse (drop_spaces (reverse (drop_spaces l)))) as [|c r] eqn:E; [done|].
    by rewrite Hk in Hh.
  - rewrite reverse_involutive. apply drop_spaces_head.
Qed.

(** ** What an accepted value satisfies *)

(** The value a validator accepts is accepted again, unchanged: the resolved configuration
    passes its own schema. *)
Definition stable {T} (validate : value → Outcome T) (inject : T → value) : Prop :=
  ∀ raw v, validate raw = Valid v → validate (inject v) = Valid v.

Lemma text_validator_stable expected prefix (check : text → Outcome text) :
  (∀ v w, check v = Valid w → w = v) → stable (text_validator expected prefix check) VString.
Proof.
  intros Hc [] v; try done. cbn. intros H. pose proof (Hc _ _ H) as ->. by rewrite trim_trim.
Qed.

Lemma validateString_stable opts : stable (λ raw, validateString raw opts) VString.
Proof.
  intros [] v; try done. cbn [validateString]. intros H.
  assert (v = if decide (trim_option opts = Some false) then s else trim s) as Hv
    by (repeat case_match; by simplify_eq).
  assert ((if decide (trim_option opts = Some false) then v else trim v) = v) as ->.
  { subst v. case_decide; [done|]. by rewrite trim_trim. }
  by rewrite <-Hv in H.
Qed.

Lemma validateNumber_bounds raw opts n :
  validateNumber raw opts = Valid n →
  isFinite n = true ∧ (integer opts = true → isInteger n = true) ∧
  (∀ m, min opts = Some m → lt n m = false) ∧ (∀ m, max opts = Some m → lt m n = false).
Proof.
  unfold validateNumber. destruct (coerce_number raw) as [k|]; [|done].
  destruct (isFinite k) eqn:Hf; cbn [negb]; [|done].
  destruct (integer opts && negb (isInteger k)) eqn:Hi; [done|].
  destruct (match min opts with Some m => lt k m | None => false end) eqn:Hmin; [done|].
  destruct (match max opts with Some m => lt m k | None => false end) eqn:Hmax; [done|].
  intros [= <-].
  split_and!; [done|..].
  - intros Ho. rewrite Ho in Hi. by destruct (isInteger k).
  - intros m Hm. by rewrite Hm in Hmin.
  - intros m Hm. by rewrite Hm in Hmax.
Qed.

Lemma validateNumber_stable opts : stable (λ raw, validateNumber raw opts) VNumber.
Proof.
  intros raw n H. destruct (validateNumber_bounds _ _ _ H) as (Hf & Hi & Hmin & Hmax).
  unfold validateNumber. cbn [coerce_number]. rewrite Hf. cbn [negb].
  assert (integer opts && negb (isInteger n) = false) as ->.
  { destruct (integer opts); [|done]. by rewrite Hi. }
  destruct (min opts) as [m|]; [rewrite (Hmin m) by done|];
    (destruct (max opts) as [m'|]; [by rewrite (Hmax m')|done]).
Qed.

Lemma validateBoolean_stable : stable validateBoolean VBool.
Proof. by intros raw v _. Qed.

Lemma validateEnum_member raw values v : validateEnum raw values = Valid v → v ∈ values.
Proof. destruct raw; try done. cbn. case_decide; [|done]. by intros [= <-]. Qed.

Lemma validateEnum_stable values : stable (λ raw, validateEnum raw values) VString.
Proof.
  intros [] v; try done. cbn. case_decide as Hin; [|done]. intros [= <-].
  by rewrite trim_trim, decide_True.
Qed.

Lemma validate_items_stable {T} (item : value → Outcome T) inject :
  stable item inject → ∀ items i out,
  validate_items item i items = Valid out →
  length out = length items ∧ ∀ j, validate_items item j (inject <$> out) = Valid out.
Proof.
  intros Hs items. induction items as [|x items IH]; intros i out; cbn; [by intros [= <-]|].
  destruct (item x) as [v|] eqn:Ex; [|done].
  destruct (validate_items item (S i) items) as [out'|] eqn:E; [|done]. intros [= <-].
  apply IH in E as [Hl E]. split; [by cbn; f_equal|]. intros j. cbn.
  rewrite (Hs _ _ Ex). by rewrite E.
Qed.

Lemma validateArray_stable {T} (item : value → Outcome T) inject opts :
  stable item inject →
  stable (λ raw, validateArray raw item opts) (λ l, VArray (inject <$> l)).
Proof.
  intros Hs raw out. unfold validateArray. cbn [array_items].
  destruct (array_items raw opts) as [items|]; [|done].
  destruct (exceeds (Some (length items)) _) eqn:H1; [done|].
  destruct (exceeds (maxItems opts) _) eqn:H2; [done|].
  intros E. destruct (validate_items_stable item inject Hs _ _ _ E) as [Hl Hj].
  rewrite length_fmap, Hl, H1, H2. apply Hj.
Qed.

(** Every validator accepts what it returns. *)
Lemma validators_stable :
  (∀ opts, stable (λ raw, validateString raw opts) VString) ∧
  (∀ opts, stable (λ raw, validateNumber raw opts) VNumber) ∧
  stable validateBoolean VBool ∧
  (∀ values, stable (λ raw, validateEnum raw values) VString) ∧
  stable validateObject VObject ∧ stable validatePath VString ∧
  stable validateHostname VString ∧ stable validateEmail VString ∧
  (∀ url protocols, stable (λ raw, validateUrl url raw protocols) VString) ∧
  (∀ isIP version, stable (λ raw, validateIp isIP raw version) VString).
Proof.
  split_and!; [apply validateString_stable|apply validateNumber_stable|apply validateBoolean_stable
    |apply validateEnum_stable|by intros [] v; try done; intros [= <-]|..];
    intros; (apply text_validator_stable || (intros raw; apply text_validator_stable));
    intros v w; cbn zeta; repeat case_match; by intros; simplify_eq.
Qed.

(** A natural number that the environment provides in decimal is the nearest double, when it
    is not too large for one. *)
Lemma validateNumber_decimal n opts :
  (0 <= n)%Z → isFinite (of_Z n) = true → min opts = None → max opts = None → integer opts = false →
  validateNumber (VString (show n)) opts = Valid (of_Z n).
Proof.
  intros Hn Hf H1 H2 H3. destruct (show_digits n Hn) as [Hd Hne].
  unfold validateNumber, coerce_number.
  rewrite digits_trim, js_number_digits, show_value, Hf, H1, H2, H3 by done.
  rewrite bool_decide_true by done. cbn. by rewrite Hf.
Qed.
