(* ===== verification/ConfigLoader.v ===== *)
(** * Configuration schema and loader

    Models src/packages/config/src/schema.ts (fields and their builders), the issues of
    errors.ts, and loader.ts: the merge of the providers with the provenance of every path,
    the walk of the schema that validates, defaults and transforms each field, and the
    strict mode.  [load_reference] is the specification of the loader: every field on its
    own.

    What a provider loads is an argument (a provider reads a file, the environment or a
    secret store); checks, transforms and custom validators are functions that the
    application supplies.  Values are trees: an object of a source that a field takes over
    whole is not shared with it here, which shows only when the path of one field goes
    through another field. *)

From Stdlib Require Import Ascii String SpecFloat.
From S2P Require Import Prelude JsText JsMap ConfigValue ConfigValidator.

Open Scope nat_scope.

(** ** Fields *)

Record Field : Type := {
  type : list ascii;
  baseValidate : value → Outcome value;
  checks : list (value → option (list part));  (** [None] is [true] *)
  transformFn : option (value → value);
  isSecret : bool;
  required : bool;
  hasDefault : bool;
  defaultValue : value;
  description : option (list ascii)
}.

Definition field (type : string) (baseValidate : value → Outcome value) : Field := {|
  type := lit type; baseValidate := baseValidate; checks := []; transformFn := None;
  isSecret := false; required := true; hasDefault := false; defaultValue := VUndefined;
  description := None
|}.

Fixpoint run_checks (type : text) (v : value) (checks : list (value → option message)) : Outcome value :=
  match checks with
  | [] => Valid v
  | check :: checks =>
      match check v with
      | Some res => Invalid [PText type] res
      | None => run_checks type v checks
      end
  end.
Definition validate (f : Field) (raw : value) : Outcome value :=
  match baseValidate f raw with
  | Valid v => run_checks (type f) v (checks f)
  | bad => bad
  end.
Definition applyTransform (f : Field) (v : value) : value :=
  match transformFn f with Some fn => fn v | None => v end.

(** The builders; each returns a new field. *)
Definition with_default (v : value) (f : Field) : Field := {|
  type := type f; baseValidate := baseValidate f; checks := checks f; transformFn := transformFn f;
  isSecret := isSecret f; required := false; hasDefault := true; defaultValue := v;
  description := description f |}.
Definition optional (f : Field) : Field := {|
  type := type f; baseValidate := baseValidate f; checks := checks f; transformFn := transformFn f;
  isSecret := isSecret f; required := false; hasDefault := false; defaultValue := VUndefined;
  description := description f |}.
Definition secret (f : Field) : Field := {|
  type := type f; baseValidate := baseValidate f; checks := checks f; transformFn := transformFn f;
  isSecret := true; required := required f; hasDefault := hasDefault f; defaultValue := defaultValue f;
  description := description f |}.
Definition describe (d : text) (f : Field) : Field := {|
  type := type f; baseValidate := baseValidate f; checks := checks f; transformFn := transformFn f;
  isSecret := isSecret f; required := required f; hasDefault := hasDefault f;
  defaultValue := defaultValue f; description := Some d |}.
Definition check (fn : value → option message) (f : Field) : Field := {|
  type := type f; baseValidate := baseValidate f; checks := checks f ++ [fn];
  transformFn := transformFn f; isSecret := isSecret f; required := required f;
  hasDefault := hasDefault f; defaultValue := defaultValue f; description := description f |}.
Definition transform (fn : value → value) (f : Field) : Field := {|
  type := type f; baseValidate := baseValidate f; checks := checks f; transformFn := Some fn;
  isSecret := isSecret f; required := required f; hasDefault := hasDefault f;
  defaultValue := defaultValue f; description := description f |}.

(** The factories of [s]. *)
Definition s_string (opts : StringOptions) : Field := field "string" (λ r, VString <$> validateString r opts).
Definition s_number (opts : NumberOptions) : Field := field "number" (λ r, VNumber <$> validateNumber r opts).
Definition s_boolean : Field := field "boolean" (λ r, VBool <$> validateBoolean r).
Definition s_enum (values : list text) : Field := field "enum" (λ r, VString <$> validateEnum r values).
Definition s_array (item : Field) (opts : ArrayOptions) : Field :=
  field "array" (λ r, VArray <$> validateArray r (validate item) opts).
Definition s_object : Field := field "object" (λ r, VObject <$> validateObject r).
Definition s_duration : Field := field "duration" (λ r, VNumber <$> validateDuration r).
Definition s_url (url_protocol : text → option text) (protocols : option (list text)) : Field :=
  field "url" (λ r, VString <$> validateUrl url_protocol r protocols).
Definition s_path : Field := field "path" (λ r, VString <$> validatePath r).
Definition s_hostname : Field := field "hostname" (λ r, VString <$> validateHostname r).
Definition s_ip (isIP : text → nat) (version : option nat) : Field :=
  field "ip" (λ r, VString <$> validateIp isIP r version).
Definition s_email : Field := field "email" (λ r, VString <$> validateEmail r).
Definition s_custom (v : value → Outcome value) : Field := field "custom" v.

(** A shape holds fields and shapes. *)
Unset Elimination Schemes.
Inductive entry : Type :=
| EField (f : Field)
| EShape (shape : list (list ascii * entry)).
Set Elimination Schemes.
Abbreviation Shape := (list (list ascii * entry)) (only parsing).

Lemma entry_ind (P : entry → Prop) :
  (∀ f, P (EField f)) → (∀ shape, Forall (λ e, P e.2) shape → P (EShape shape)) → ∀ e, P e.
Proof.
  intros Hf Hs. fix F 1. intros [f|shape]; [done|]. apply Hs.
  induction shape; constructor; [apply F|done].
Qed.

(** ** Issues and metadata *)

Definition REDACTED : text := lit "<redacted>".

Record ValidationIssue : Type := {
  issue_key : list ascii;
  issue_source : option SourceRef;
  invalidValue : value;
  expectedType : list part;
  issue_message : list part;
  issue_secret : bool
}.

Record FieldMetadata : Type := {
  meta_key : list ascii;
  meta_type : list ascii;
  meta_secret : bool;
  meta_required : bool;
  present : bool;
  defaulted : bool;
  meta_source : option SourceRef
}.

Definition meta (path : text) (f : Field) (present defaulted : bool) (source : option SourceRef) :
    FieldMetadata :=
  {| meta_key := path; meta_type := type f; meta_secret := isSecret f; meta_required := required f;
     present := present; defaulted := defaulted; meta_source := source |}.

Definition redact (f : Field) (v : value) : value := if isSecret f then VString REDACTED else v.

(** ** The walk *)

Record WalkCtx : Type := {
  merged : list (list ascii * value);
  provenance : list (list ascii * SourceRef);
  values : list (list ascii * value);
  metadata : list FieldMetadata;
  secretPaths : list (list ascii);
  issues : list ValidationIssue
}.

Definition add_secret (path : text) (ctx : WalkCtx) : WalkCtx :=
  {| merged := merged ctx; provenance := provenance ctx; values := values ctx;
     metadata := metadata ctx; secretPaths := set_add path (secretPaths ctx); issues := issues ctx |}.
Definition push_issue (i : ValidationIssue) (ctx : WalkCtx) : WalkCtx :=
  {| merged := merged ctx; provenance := provenance ctx; values := values ctx;
     metadata := metadata ctx; secretPaths := secretPaths ctx; issues := issues ctx ++ [i] |}.
Definition push_meta (m : FieldMetadata) (ctx : WalkCtx) : WalkCtx :=
  {| merged := merged ctx; provenance := provenance ctx; values := values ctx;
     metadata := metadata ctx ++ [m]; secretPaths := secretPaths ctx; issues := issues ctx |}.
Definition set_value (path : text) (v : value) (ctx : WalkCtx) : WalkCtx :=
  {| merged := merged ctx; provenance := provenance ctx; values := setPath (values ctx) path v;
     metadata := metadata ctx; secretPaths := secretPaths ctx; issues := issues ctx |}.

Definition resolveField (f : Field) (path : text) (ctx : WalkCtx) : WalkCtx :=
  let ctx := if isSecret f then add_secret path ctx else ctx in
  let source := jm_get path (provenance ctx) in
  match navigate (merged ctx) path with
  | Some raw =>
      match validate f raw with
      | Valid v => push_meta (meta path f true false source) (set_value path (applyTransform f v) ctx)
      | Invalid expected message =>
          push_issue {| issue_key := path; issue_source := source; invalidValue := redact f raw;
                        expectedType := expected; issue_message := message;
                        issue_secret := isSecret f |} ctx
      end
  | None =>
      if hasDefault f then
        match validate f (defaultValue f) with
        | Valid v => push_meta (meta path f false true None) (set_value path (applyTransform f v) ctx)
        | Invalid expected message =>
            push_issue {| issue_key := path; issue_source := None;
                          invalidValue := redact f (defaultValue f); expectedType := expected;
                          issue_message := says "invalid default value: " ++ message;
                          issue_secret := isSecret f |} ctx
        end
      else if required f then
        push_issue {| issue_key := path; issue_source := None; invalidValue := VUndefined;
                      expectedType := [PText (type f)];
                      issue_message := says "required configuration value is missing";
                      issue_secret := isSecret f |} ctx
      else push_meta (meta path f false false None) ctx
  end.

Fixpoint walk_entry (e : entry) (path : text) (ctx : WalkCtx) : WalkCtx :=
  match e with
  | EField f => resolveField f path ctx
  | EShape shape => foldl (λ ctx e, walk_entry e.2 (join_path path e.1) ctx) ctx shape
  end.
Definition walk (shape : Shape) (prefix : text) (ctx : WalkCtx) : WalkCtx :=
  foldl (λ ctx e, walk_entry e.2 (join_path prefix e.1) ctx) ctx shape.

(** ** Strict mode *)

Definition unknown_key (path : text) (provenance : Provenance) : ValidationIssue :=
  {| issue_key := path; issue_source := jm_get path provenance;
     invalidValue := VString (lit "(unknown key)"); expectedType := says "not present in schema";
     issue_message := says "unknown configuration key is not declared in the schema (strict mode)";
     issue_secret := false |}.

(** The issues below an entry of the merged object. *)
Fixpoint unknown_below (provenance : Provenance) (path : text) (entry : option entry) (v : value) :
    list ValidationIssue :=
  match entry with
  | None => [unknown_key path provenance]
  | Some (EShape shape) =>
      match v with
      | VObject m =>
          foldr (λ e issues, unknown_below provenance (join_path path e.1) (jm_get e.1 shape) e.2 ++ issues) [] m
      | _ => []
      end
  | Some (EField _) => []
  end.
Definition collectUnknownKeys (shape : Shape) (merged : object) (prefix : text) (provenance : Provenance) :
    list ValidationIssue :=
  foldr (λ e issues, unknown_below provenance (join_path prefix e.1) (jm_get e.1 shape) e.2 ++ issues) [] merged.

(** ** Loading *)

Section load.
(** The errors of providers. *)
Context {Err : Type}.

(** A provider with what its [load] gives at this time. *)
Record Loaded : Type := { name : list ascii; load : result Err (list (list ascii * value)) }.

Inductive LoadError : Type :=
| ProviderError (e : Err)
| ConfigValidationError (issues : list ValidationIssue).

Fixpoint mergeProviders (providers : list Loaded) (st : object * Provenance) :
    result LoadError (object * Provenance) :=
  match providers with
  | [] => Ok st
  | p :: providers =>
      match load p with
      | Throw e => Throw (ProviderError e)
      | Ok data =>
          mergeProviders providers
            (deepAssign st.1 data [] st.2 {| provider := name p; location := None |})
      end
  end.

Record LoadResult : Type := {
  r_values : list (list ascii * value);
  r_metadata : list FieldMetadata;
  r_secretPaths : list (list ascii)
}.

Definition loadAndValidate (shape : Shape) (providers : list Loaded) (strict : bool) :
    result LoadError LoadResult :=
  match mergeProviders providers ([], []) with
  | Throw e => Throw e
  | Ok (merged, provenance) =>
      let ctx := walk shape [] {| merged := merged; provenance := provenance; values := [];
                                  metadata := []; secretPaths := []; issues := [] |} in
      let issues := issues ctx ++ (if strict then collectUnknownKeys shape merged [] provenance else []) in
      match issues with
      | [] => Ok {| r_values := values ctx; r_metadata := metadata ctx; r_secretPaths := secretPaths ctx |}
      | _ => Throw (ConfigValidationError issues)
      end
  end.
End load.
Arguments Loaded Err : clear implicits.
Arguments LoadError Err : clear implicits.

(** ** What the merge holds *)

(** What a source decides about a path: it holds something there, or holds a leaf above it;
    otherwise it is silent. *)
Definition decides (segments : list text) (source : object) : option view :=
  match view_at (VObject source) segments with
  | Absent => if blocked segments (VObject source) then Some Absent else None
  | w => Some w
  end.

Definition wf_source (source : object) : Prop := wf_value (VObject source) ∧ plain_value (VObject source).

Section merge.
Context {Err : Type}.
Implicit Types (providers : list (Loaded Err)).

(** The provider loads this object. *)
Definition loads (p : Loaded Err) (data : object) : Prop := load p = Ok data ∧ wf_source data.

Definition provided (p : Loaded Err) (segments : list text) : option SourceRef :=
  match load p with
  | Ok data =>
      match view_at (VObject data) segments with
      | Absent => None
      | _ => Some (located {| provider := name p; location := None |} (dotted [] segments))
      end
  | Throw _ => None
  end.

Lemma mergeProviders_ok providers datas : Forall2 loads providers datas →
  ∀ merged provenance,
  ∃ provenance', mergeProviders providers (merged, provenance) = Ok (foldl merge_object merged datas, provenance').
Proof.
  induction 1 as [|p data providers datas [Hl _] _ IH]; intros merged provenance; cbn [mergeProviders foldl].
  { by exists provenance. }
  rewrite Hl, deepAssign_split. apply IH.
Qed.

Lemma view_merge_object t data segments : wf_source data →
  view_at (VObject (merge_object t data)) segments =
  default (view_at (VObject t) segments) (decides segments data).
Proof.
  intros [Hwf _]. unfold decides, view_at.
  pose proof (merge_value_overlay segments (VObject data) (Some (VObject t)) Hwf) as E.
  cbn [merge_value child_object] in E. unfold merge_object. rewrite E. unfold view_at. cbn [mbind option_bind].
  destruct (view_of (navigate_segments segments (VObject data))); [|done..].
  by destruct (blocked segments (VObject data)).
Qed.

(** The last decision is the one that counts. *)
Lemma view_merge_all datas segments : Forall wf_source datas → ∀ t,
  view_at (VObject (foldl merge_object t datas)) segments =
  default (view_at (VObject t) segments) (last (omap (decides segments) datas)).
Proof.
  induction 1 as [|data datas Hd _ IH]; intros t; [done|]. cbn [foldl omap list_omap].
  rewrite IH, view_merge_object by done.
  destruct (decides segments data) as [w|]; cbn; [|done].
  rewrite last_cons. by destruct (last _).
Qed.

Lemma merge_provenance providers datas : Forall2 loads providers datas →
  ∀ merged provenance merged' provenance' segments,
  segments ≠ [] → Forall plain_key segments →
  mergeProviders providers (merged, provenance) = Ok (merged', provenance') →
  jm_get (dotted [] segments) provenance' =
  match last (omap (λ p, provided p segments) providers) with
  | Some ref => Some ref
  | None => jm_get (dotted [] segments) provenance
  end.
Proof.
  induction 1 as [|p data providers datas [Hl [Hwf Hpl]] _ IH];
    intros merged provenance merged' provenance' segments Hne Hs; cbn [mergeProviders omap list_omap].
  { by intros [= _ ->]. }
  rewrite Hl, deepAssign_split. intros Hm. rewrite (IH _ _ _ _ _ Hne Hs Hm). clear IH Hm.
  cbn [fst snd]. rewrite record_paths_get.
  pose proof (paths_below_plain (VObject data) segments Hwf Hpl Hne Hs) as Hp.
  unfold provided at 2. rewrite Hl. unfold view_at.
  destruct (navigate_segments segments (VObject data)) as [w|] eqn:E; cbn [view_of].
  - assert (is_Some (Some w)) as Hsome by done. apply Hp in Hsome.
    rewrite decide_True by done.
    destruct w; rewrite last_cons; by destruct (last _).
  - rewrite decide_False by (intros Hin%Hp; by destruct Hin). by destruct (last _).
Qed.
End merge.

(** ** The specification of the loader: every field on its own *)

(** The fields below an entry, with their paths. *)
Fixpoint fields_below (segments : list text) (e : entry) : list (list text * Field) :=
  match e with
  | EField f => [(segments, f)]
  | EShape shape => foldr (λ e l, fields_below (segments ++ [e.1]) e.2 ++ l) [] shape
  end.
Definition fields_of (shape : Shape) : list (list text * Field) := fields_below [] (EShape shape).

(** What becomes of a field. *)
Inductive field_result : Type :=
| FSet (v : value) (m : FieldMetadata)
| FUnset (m : FieldMetadata)
| FIssue (i : ValidationIssue).

Definition field_result_of (merged : object) (provenance : Provenance) (path : text) (f : Field) : field_result :=
  let source := jm_get path provenance in
  match navigate merged path with
  | Some raw =>
      match validate f raw with
      | Valid v => FSet (applyTransform f v) (meta path f true false source)
      | Invalid expected message =>
          FIssue {| issue_key := path; issue_source := source; invalidValue := redact f raw;
                    expectedType := expected; issue_message := message; issue_secret := isSecret f |}
      end
  | None =>
      if hasDefault f then
        match validate f (defaultValue f) with
        | Valid v => FSet (applyTransform f v) (meta path f false true None)
        | Invalid expected message =>
            FIssue {| issue_key := path; issue_source := None; invalidValue := redact f (defaultValue f);
                      expectedType := expected; issue_message := says "invalid default value: " ++ message;
                      issue_secret := isSecret f |}
        end
      else if required f then
        FIssue {| issue_key := path; issue_source := None; invalidValue := VUndefined;
                  expectedType := [PText (type f)];
                  issue_message := says "required configuration value is missing";
                  issue_secret := isSecret f |}
      else FUnset (meta path f false false None)
  end.

Definition issue_of (r : field_result) : option ValidationIssue :=
  match r with FIssue i => Some i | _ => None end.
Definition meta_of (r : field_result) : option FieldMetadata :=
  match r with FSet _ m | FUnset m => Some m | FIssue _ => None end.
Definition value_of (r : field_result) : option value :=
  match r with FSet v _ => Some v | _ => None end.

Section reference.
Context (mg : list (list ascii * value)) (pv : list (list ascii * SourceRef)).

Definition result_at (pf : list (list ascii) * Field) : field_result :=
  field_result_of mg pv (dotted [] pf.1) pf.2.

(** The object with the values of the fields, in the order of the schema. *)
Definition assemble (root : object) (fields : list (list text * Field)) : object :=
  foldl (λ o pf, match value_of (result_at pf) with
                 | Some v => setPath o (dotted [] pf.1) v
                 | None => o
                 end) root fields.

Definition secret_paths (paths : list text) (fields : list (list text * Field)) : list text :=
  foldl (λ s pf, if isSecret pf.2 then set_add (dotted [] pf.1) s else s) paths fields.

Definition load_reference (shape : Shape) (strict : bool) {Err} : result (LoadError Err) LoadResult :=
  let fields := fields_of shape in
  match omap (issue_of ∘ result_at) fields ++ (if strict then collectUnknownKeys shape mg [] pv else []) with
  | [] => Ok {| r_values := assemble [] fields; r_metadata := omap (meta_of ∘ result_at) fields;
                r_secretPaths := secret_paths [] fields |}
  | found => Throw (ConfigValidationError found)
  end.

Lemma resolveField_result pf ctx : merged ctx = mg → provenance ctx = pv →
  resolveField pf.2 (dotted [] pf.1) ctx =
  {| merged := mg; provenance := pv; values := assemble (values ctx) [pf];
     metadata := metadata ctx ++ omap (meta_of ∘ result_at) [pf];
     secretPaths := secret_paths (secretPaths ctx) [pf];
     issues := issues ctx ++ omap (issue_of ∘ result_at) [pf] |}.
Proof.
  destruct pf as [segments f], ctx as [m p vs ms ss found]. cbn [merged provenance]. intros -> ->.
  unfold resolveField, assemble, secret_paths, result_at, field_result_of, compose.
  cbn [fst snd foldl omap list_omap]. generalize (dotted [] segments). intros path.
  destruct (isSecret f); cbn [add_secret merged provenance];
    (destruct (navigate mg path) as [raw|];
      [destruct (validate f raw)
      |destruct (hasDefault f); [destruct (validate f (defaultValue f))|destruct (required f)]]);
    cbn; by rewrite ?app_nil_r.
Qed.

Lemma fold_fields fields : ∀ ctx, merged ctx = mg → provenance ctx = pv →
  foldl (λ ctx pf, resolveField pf.2 (dotted [] pf.1) ctx) ctx fields =
  {| merged := mg; provenance := pv; values := assemble (values ctx) fields;
     metadata := metadata ctx ++ omap (meta_of ∘ result_at) fields;
     secretPaths := secret_paths (secretPaths ctx) fields;
     issues := issues ctx ++ omap (issue_of ∘ result_at) fields |}.
Proof.
  induction fields as [|pf fields IH]; intros ctx Hm Hp.
  { destruct ctx; cbn in *; subst. by rewrite !app_nil_r. }
  cbn [foldl]. rewrite IH; rewrite resolveField_result by done; [|done..].
  cbn [values metadata secretPaths issues]. change (pf :: fields) with ([pf] ++ fields).
  unfold assemble, secret_paths. by rewrite !foldl_app, !omap_app, !(assoc_L (++)).
Qed.

Lemma dotted_snoc segments k : dotted [] (segments ++ [k]) = join_path (dotted [] segments) k.
Proof. unfold dotted. by rewrite foldl_app. Qed.

(** The walk visits the fields in order. *)
Lemma walk_entry_fields e : ∀ segments ctx,
  walk_entry e (dotted [] segments) ctx =
  foldl (λ ctx pf, resolveField pf.2 (dotted [] pf.1) ctx) ctx (fields_below segments e).
Proof.
  induction e as [f|shape IH] using entry_ind; intros segments ctx; [done|].
  cbn [walk_entry fields_below]. revert ctx.
  induction IH as [|[k e] shape He _ IHs]; intros ctx; cbn [foldl foldr fst snd]; [done|].
  cbn [snd] in He. rewrite foldl_app, <-He, dotted_snoc. apply IHs.
Qed.

Lemma walk_fields shape ctx : merged ctx = mg → provenance ctx = pv →
  walk shape [] ctx =
  {| merged := mg; provenance := pv; values := assemble (values ctx) (fields_of shape);
     metadata := metadata ctx ++ omap (meta_of ∘ result_at) (fields_of shape);
     secretPaths := secret_paths (secretPaths ctx) (fields_of shape);
     issues := issues ctx ++ omap (issue_of ∘ result_at) (fields_of shape) |}.
Proof.
  intros Hm Hp. rewrite <-fold_fields by done. exact (walk_entry_fields (EShape shape) [] ctx).
Qed.
End reference.

Lemma loadAndValidate_reference {Err} shape (providers : list (Loaded Err)) strict :
  loadAndValidate shape providers strict =
  match mergeProviders providers ([], []) with
  | Throw e => Throw e
  | Ok (mg, pv) => load_reference mg pv shape strict
  end.
Proof.
  unfold loadAndValidate, load_reference. destruct (mergeProviders providers ([], [])) as [[mg pv]|e]; [|done].
  rewrite (walk_fields mg pv) by done. cbn [issues values metadata secretPaths].
  cbn [app]. by destruct (omap _ _ ++ _).
Qed.

(** ** Shapes whose fields do not overlap *)

Inductive wf_entry : entry → Prop :=
| wf_field f : wf_entry (EField f)
| wf_shape_entry shape :
    jm_wf shape → Forall (λ e, plain_key e.1 ∧ wf_entry e.2) shape → wf_entry (EShape shape).
Definition wf_shape (shape : Shape) : Prop := wf_entry (EShape shape).

Lemma fields_below_in e segments pf :
  pf ∈ fields_below segments e ↔
  match e with
  | EField f => pf = (segments, f)
  | EShape shape => ∃ k e', (k, e') ∈ shape ∧ pf ∈ fields_below (segments ++ [k]) e'
  end.
Proof.
  destruct e as [f|shape]; cbn [fields_below]; [apply list_elem_of_singleton|].
  induction shape as [|[k e] shape IH]; cbn [foldr fst snd].
  { split; [by intros ?%not_elem_of_nil|]. by intros (? & ? & ?%not_elem_of_nil & _). }
  rewrite elem_of_app, IH. setoid_rewrite elem_of_cons. naive_solver.
Qed.

Lemma fields_below_extend e : ∀ segments s f,
  wf_entry e → (s, f) ∈ fields_below segments e → ∃ rest, s = segments ++ rest ∧ Forall plain_key rest.
Proof.
  induction e as [f'|shape IH] using entry_ind; intros segments s f Hwf Hin;
    apply fields_below_in in Hin.
  - simplify_eq. exists []. by rewrite app_nil_r.
  - destruct Hin as (k & e & Hk & Hin). inversion Hwf as [|? _ Hsh]; subst.
    rewrite Forall_forall in IH, Hsh. destruct (Hsh _ Hk) as [Hpk Hwe].
    destruct (IH _ Hk _ _ _ Hwe Hin) as (rest & -> & Hr).
    exists (k :: rest). rewrite <-(assoc_L (++)). by split; [|constructor].
Qed.

(** A field whose path starts with the path of another is that field. *)
Lemma fields_separate e : ∀ segments s f s' f', wf_entry e →
  (s, f) ∈ fields_below segments e → (s', f') ∈ fields_below segments e →
  s `prefix_of` s' → (s, f) = (s', f').
Proof.
  induction e as [g|shape IH] using entry_ind; intros segments s f s' f' Hwf Hs Hs' Hp;
    apply fields_below_in in Hs, Hs'; [congruence|].
  destruct Hs as (k & e & Hk & Hs), Hs' as (k' & e' & Hk' & Hs').
  inversion Hwf as [|? Hnd Hsh]; subst. rewrite Forall_forall in IH, Hsh.
  destruct (Hsh _ Hk) as [_ Hwe], (Hsh _ Hk') as [_ Hwe'].
  destruct (fields_below_extend _ _ _ _ Hwe Hs) as (r & -> & _).
  destruct (fields_below_extend _ _ _ _ Hwe' Hs') as (r' & -> & _).
  assert (k = k') as <-.
  { rewrite <-!(assoc_L (++)) in Hp. apply prefix_app_inv in Hp. cbn in Hp.
    by apply prefix_cons_inv_1 in Hp. }
  assert (e = e') as <-.
  { apply (jm_elem_get k) in Hk, Hk'; [|done..]. congruence. }
  by apply (IH _ Hk (segments ++ [k])).
Qed.

Lemma fields_of_plain shape s f :
  wf_shape shape → (s, f) ∈ fields_of shape → s ≠ [] ∧ Forall plain_key s.
Proof.
  intros Hwf Hin. split.
  - apply fields_below_in in Hin as (k & e & Hk & Hin). inversion Hwf as [|? _ Hsh]; subst.
    rewrite Forall_forall in Hsh. destruct (Hsh _ Hk) as [_ Hwe].
    by destruct (fields_below_extend _ _ _ _ Hwe Hin) as (rest & -> & _).
  - by destruct (fields_below_extend _ _ _ _ Hwf Hin) as (rest & -> & ?).
Qed.

Section assembled.
Context (mg : list (list ascii * value)) (pv : list (list ascii * SourceRef)).

Lemma assemble_snoc root l pf :
  assemble mg pv root (l ++ [pf]) =
  match value_of (result_at mg pv pf) with
  | Some v => setPath (assemble mg pv root l) (dotted [] pf.1) v
  | None => assemble mg pv root l
  end.
Proof. unfold assemble. by rewrite foldl_app. Qed.

(** Each field finds its own value in the resolved object. *)
Lemma navigate_assemble shape l s f :
  wf_shape shape → (∀ pf, pf ∈ l → pf ∈ fields_of shape) → (s, f) ∈ fields_of shape →
  navigate (assemble mg pv [] l) (dotted [] s) =
  if bool_decide (s ∈ l.*1) then value_of (result_at mg pv (s, f)) else None.
Proof.
  intros Hwf Hl Hin. destruct (fields_of_plain _ _ _ Hwf Hin) as [Hne Hp].
  unfold navigate. rewrite split_dotted by done.
  induction l as [|[s' f'] l IH] using rev_ind.
  { rewrite bool_decide_false by apply not_elem_of_nil. by destruct s. }
  assert ((s', f') ∈ fields_of shape) as Hin' by by apply Hl, elem_of_app; right; apply list_elem_of_singleton.
  destruct (fields_of_plain _ _ _ Hwf Hin') as [Hne' Hp'].
  specialize (IH ltac:(intros; apply Hl, elem_of_app; by left)).
  rewrite assemble_snoc, fmap_app. cbn [fst]. destruct (decide (s' = s)) as [->|Hs].
  - pose proof (fields_separate _ _ _ _ _ _ Hwf Hin Hin' ltac:(done)) as [= <-].
    rewrite bool_decide_true by (apply elem_of_app; right; left).
    destruct (value_of (result_at mg pv (s, f))) as [v|] eqn:E.
    + unfold setPath. rewrite split_dotted by done. by apply navigate_assign_same.
    + rewrite IH. by case_bool_decide.
  - assert (bool_decide (s ∈ l.*1 ++ [(s', f')].*1) = bool_decide (s ∈ l.*1)) as ->.
    { apply bool_decide_ext. rewrite elem_of_app. csimpl. rewrite list_elem_of_singleton. naive_solver. }
    rewrite <-IH. destruct (value_of (result_at mg pv (s', f'))) as [v|]; [|done].
    unfold setPath. rewrite split_dotted by done. apply navigate_assign_other; [done|..]; intros Hpre;
      [pose proof (fields_separate _ _ _ _ _ _ Hwf Hin' Hin Hpre)
      |pose proof (fields_separate _ _ _ _ _ _ Hwf Hin Hin' Hpre)]; congruence.
Qed.
End assembled.

Lemma secret_paths_spec fields paths p :
  p ∈ secret_paths paths fields ↔
  p ∈ paths ∨ ∃ pf, pf ∈ fields ∧ isSecret pf.2 = true ∧ p = dotted [] pf.1.
Proof.
  unfold secret_paths. revert paths. induction fields as [|pf fields IH]; intros paths; cbn [foldl].
  { split; [by left|]. intros [|(? & ?%not_elem_of_nil & _)]; done. }
  rewrite IH. split.
  - intros [Hp|(pf' & Hin & Hsec & ->)]; [|right; exists pf'; split; [by right|done]].
    destruct (isSecret pf.2) eqn:E; [|by left]. apply elem_of_set_add in Hp as [->|]; [|by left].
    right. exists pf. split; [by left|done].
  - intros [Hp|(pf' & [->|Hin]%elem_of_cons & Hsec & ->)]; [left|left|right; eauto].
    + destruct (isSecret pf.2); [apply elem_of_set_add; by right|done].
    + rewrite Hsec. apply elem_of_set_add. by left.
Qed.

(** ** Strict mode: which paths a shape declares *)

(** A path is declared by a shape when it leads to a field, below a field or to a section. *)
Fixpoint declared (segments : list text) (e : entry) : bool :=
  match e, segments with
  | EField _, _ | EShape _, [] => true
  | EShape shape, k :: segments =>
      match jm_get k shape with Some e => declared segments e | None => false end
  end.

Lemma in_foldr_app {A B} (g : A → list B) l : foldr (λ a r, g a ++ r) [] l = [] ↔ Forall (λ a, g a = []) l.
Proof.
  induction l as [|a l IH]; cbn; [done|]. rewrite Forall_cons, <-IH. split; [apply app_eq_nil|].
  by intros [-> ->].
Qed.

Lemma unknown_below_nil pv v : ∀ path e, wf_value v →
  unknown_below pv path (Some e) v = [] ↔
  ∀ segments, is_Some (navigate_segments segments v) → declared segments e = true.
Proof.
  induction v as [| | | | | |m IH] using value_ind; intros path e Hwf;
    try (destruct e; (split; [intros _ [|k segments] Hs; [done|]; by destruct Hs|by intros _])).
  destruct e as [f|shape]; [by cbn; split; [intros _ []|]|].
  apply wf_object_inv in Hwf as [Hnd Ha]. cbn [unknown_below]. rewrite in_foldr_app, Forall_forall.
  rewrite Forall_forall in IH, Ha. split.
  - intros Hall [|k segments] Hs; [done|]. cbn in Hs |- *.
    destruct (jm_get k m) as [w|] eqn:E; [|by destruct Hs]. apply jm_get_elem in E.
    specialize (Hall _ E). cbn in Hall. destruct (jm_get k shape) as [e|]; [|by destruct w].
    exact (proj1 (IH _ E _ _ (Ha _ E)) Hall segments Hs).
  - intros Hall [k w] Hin. cbn. pose proof (jm_elem_get k w m Hnd Hin) as E.
    destruct (jm_get k shape) as [e|] eqn:Ee.
    + apply (IH _ Hin _ _ (Ha _ Hin)). intros segments Hs. specialize (Hall (k :: segments)).
      cbn in Hall. rewrite E, Ee in Hall. by apply Hall.
    + specialize (Hall [k]). cbn in Hall. rewrite E, Ee in Hall. by discriminate Hall.
Qed.

(** ** A load that succeeds *)

Lemma wf_merge_all datas : Forall wf_source datas → ∀ t,
  wf_value (VObject t) → wf_value (VObject (foldl merge_object t datas)).
Proof.
  induction 1 as [|d ds [Hd _] _ IH]; intros t Ht; cbn [foldl]; [done|].
  apply IH. by apply wf_merge_object.
Qed.

Section loaded.
Context {Err : Type} (shape : list (list ascii * entry)) (providers : list (Loaded Err))
  (datas : list (list (list ascii * value))) (Hloads : Forall2 loads providers datas).

Lemma load_merged strict : ∃ pv,
  mergeProviders providers ([], []) = Ok (foldl merge_object [] datas, pv) ∧
  loadAndValidate shape providers strict = load_reference (foldl merge_object [] datas) pv shape strict ∧
  ∀ segments, segments ≠ [] → Forall plain_key segments →
    jm_get (dotted [] segments) pv = last (omap (λ p, provided p segments) providers).
Proof.
  destruct (mergeProviders_ok providers datas Hloads [] []) as [pv Hm]. exists pv.
  split_and!; [done|by rewrite loadAndValidate_reference, Hm|]. intros segments Hne Hp.
  rewrite (merge_provenance _ _ Hloads _ _ _ _ _ Hne Hp Hm). by destruct (last _).
Qed.

Lemma wf_datas : Forall wf_source datas.
Proof.
  revert Hloads. induction 1 as [|p data ps ds [_ Hd] _ IH]; [apply Forall_nil_2|].
  apply Forall_cons_2; [exact Hd|exact IH].
Qed.

Lemma merged_view segments : segments ≠ [] →
  view_at (VObject (foldl merge_object [] datas)) segments = default Absent (last (omap (decides segments) datas)).
Proof.
  intros Hne. rewrite view_merge_all by apply wf_datas. by destruct segments.
Qed.

Lemma wf_merged : wf_value (VObject (foldl merge_object [] datas)).
Proof. apply wf_merge_all; [apply wf_datas|apply wf_nil]. Qed.

Lemma load_reference_ok mg pv strict r :
  @load_reference mg pv shape strict Err = Ok r →
  r_values r = assemble mg pv [] (fields_of shape) ∧
  r_metadata r = omap (meta_of ∘ result_at mg pv) (fields_of shape) ∧
  r_secretPaths r = secret_paths [] (fields_of shape) ∧
  (∀ pf, pf ∈ fields_of shape → issue_of (result_at mg pv pf) = None) ∧
  (strict = true → collectUnknownKeys shape mg [] pv = []).
Proof.
  unfold load_reference. destruct (omap _ _ ++ _) eqn:E; [|done]. intros [= <-]. cbn.
  apply app_eq_nil in E as [E1 E2]. split_and!; [done..| |by intros ->].
  intros pf Hin. destruct (issue_of _) as [i|] eqn:Ei; [|done].
  assert (i ∈ omap (issue_of ∘ result_at mg pv) (fields_of shape)) as Hi
    by (apply list_elem_of_omap; by exists pf).
  rewrite E1 in Hi. by apply not_elem_of_nil in Hi.
Qed.

Lemma load_field_result strict r s f :
  wf_shape shape → loadAndValidate shape providers strict = Ok r → (s, f) ∈ fields_of shape →
  ∃ pv, issue_of (result_at (foldl merge_object [] datas) pv (s, f)) = None ∧
    navigate (r_values r) (dotted [] s) = value_of (result_at (foldl merge_object [] datas) pv (s, f)).
Proof.
  intros Hwf Hl Hin. destruct (load_merged strict) as (pv & _ & Hr & _). rewrite Hr in Hl.
  apply load_reference_ok in Hl as (-> & _ & _ & Hi & _). exists pv. split; [by apply Hi|].
  rewrite (navigate_assemble _ _ shape _ s f) by done.
  rewrite bool_decide_true; [done|]. apply list_elem_of_fmap. by exists (s, f).
Qed.

(** What the application reads at the path of a field, from what the sources hold. *)
Lemma load_field strict r s f :
  wf_shape shape → loadAndValidate shape providers strict = Ok r → (s, f) ∈ fields_of shape →
  match default Absent (last (omap (decides s) datas)) with
  | Leaf raw =>
      ∃ v, validate f raw = Valid v ∧ navigate (r_values r) (dotted [] s) = Some (applyTransform f v)
  | Node =>
      ∃ m v, navigate (foldl merge_object [] datas) (dotted [] s) = Some (VObject m) ∧
        validate f (VObject m) = Valid v ∧ navigate (r_values r) (dotted [] s) = Some (applyTransform f v)
  | Absent =>
      if hasDefault f then
        ∃ v, validate f (defaultValue f) = Valid v ∧
          navigate (r_values r) (dotted [] s) = Some (applyTransform f v)
      else required f = false ∧ navigate (r_values r) (dotted [] s) = None
  end.
Proof.
  intros Hwf Hl Hin. destruct (fields_of_plain _ _ _ Hwf Hin) as [Hne Hp].
  destruct (load_field_result _ _ _ _ Hwf Hl Hin) as (pv & Hi & ->).
  rewrite <-merged_view by done. revert Hi. unfold result_at, field_result_of, view_at, navigate.
  cbn [fst snd]. rewrite split_dotted by done.
  destruct (navigate_segments s _) as [raw|]; cbn [view_of].
  - destruct (validate f raw) eqn:E; cbn; [|done]. intros _. destruct raw; eauto.
  - destruct (hasDefault f); [destruct (validate f (defaultValue f)); cbn; [eauto|done]|].
    by destruct (required f).
Qed.
End loaded.

(** ** Theorems *)

(** C30: The loader does what the specification says on the merge of the sources: the last source
    that decides on a path wins, and a path's provenance is the last provider that holds it.
    Every failing field is reported, in the order of the schema. *)
Theorem loader_refines_reference {Err} shape (providers : list (Loaded Err)) datas strict :
  Forall2 loads providers datas → ∃ mg pv,
    loadAndValidate shape providers strict = load_reference mg pv shape strict ∧
    (∀ segments, segments ≠ [] →
      view_at (VObject mg) segments = default Absent (last (omap (decides segments) datas))) ∧
    (∀ segments, segments ≠ [] → Forall plain_key segments →
      jm_get (dotted [] segments) pv = last (omap (λ p, provided p segments) providers)).
Proof.
  intros Hl. destruct (load_merged shape providers datas Hl strict) as (pv & _ & Hr & Hp).
  exists (foldl merge_object [] datas), pv. split_and!; [done| |done].
  intros segments. by apply merged_view with providers.
Qed.

(** Strict mode accepts what the normal mode accepts when every path that the sources hold is
    declared, and nothing else. *)
Theorem strict_accepts_declared {Err} shape (providers : list (Loaded Err)) datas r :
  Forall2 loads providers datas →
  loadAndValidate shape providers true = Ok r ↔
  loadAndValidate shape providers false = Ok r ∧
  ∀ segments, is_Some (navigate_segments segments (VObject (foldl merge_object [] datas))) →
    declared segments (EShape shape) = true.
Proof.
  intros Hl. destruct (load_merged shape providers datas Hl true) as (pv & Hm & -> & _).
  rewrite loadAndValidate_reference, Hm. rewrite <-(unknown_below_nil pv _ [] (EShape shape));
    [|by eapply wf_merged].
  change (unknown_below pv [] _ _) with (collectUnknownKeys shape (foldl merge_object [] datas) [] pv).
  unfold load_reference. rewrite app_nil_r.
  destruct (omap _ (fields_of shape)) as [|i found]; [|by split; [|intros [? _]]]. cbn [app].
  destruct (collectUnknownKeys _ _ _ _); [tauto|]. split; [done|by intros [_ ?]].
Qed.

(** A value is redacted in the issue of a secret field, whatever the validator. *)
Theorem issue_of_secret_is_redacted mg pv path f i :
  isSecret f = true → field_result_of mg pv path f = FIssue i →
  issue_secret i = true ∧ (invalidValue i = VString REDACTED ∨ invalidValue i = VUndefined).
Proof.
  intros Hs. unfold field_result_of, redact. rewrite Hs.
  destruct (navigate mg path) as [raw|];
    [destruct (validate f raw)|destruct (hasDefault f); [destruct (validate f (defaultValue f))|
      destruct (required f)]]; intros [= <-]; cbn; auto.
Qed.

(** Yet the message of a secret field may quote the value: here, a secret URL. *)
Theorem message_of_secret_url_quotes_it mg pv path url_protocol protocols s :
  navigate mg path = Some (VString s) → url_protocol (trim s) = None →
  ∃ i, field_result_of mg pv path (secret (s_url url_protocol protocols)) = FIssue i ∧
    issue_secret i = true ∧ ql (trim s) ∈ issue_message i.
Proof.
  intros Hn Hu. unfold field_result_of, validate. rewrite Hn. cbn. rewrite Hu. cbn.
  eexists. split_and!; [done..|]. left.
Qed.

(** ** A concrete configuration *)

Definition no_string_options : StringOptions :=
  {| minLength := None; maxLength := None; pattern := None; trim_option := None |}.
Definition any_number : NumberOptions := {| min := None; max := None; integer := false |}.

Definition sample_shape : Shape :=
  [ (lit "port", EField (with_default (VNumber (JsNumber.of_Z 3000)) (s_number any_number)))
  ; (lit "database", EShape
      [ (lit "url", EField (secret (s_string no_string_options)))
      ; (lit "poolSize", EField (s_number any_number)) ])
  ; (lit "banner", EField (optional (s_string no_string_options))) ].

Definition sample_file (password : string) : object :=
  [(lit "database", VObject [ (lit "url", VString (lit password)); (lit "poolSize", VNumber (JsNumber.of_Z 5)) ])].
Definition sample_env : object := [(lit "database", VObject [(lit "poolSize", VString (lit "20"))])].

Definition sample_providers (password : string) : list (Loaded Empty_set) :=
  [ {| name := lit "json:app.json"; load := Ok (sample_file password) |}
  ; {| name := lit "env"; load := Ok sample_env |} ].

Definition sample_load (password : string) : result (LoadError Empty_set) LoadResult :=
  loadAndValidate sample_shape (sample_providers password) true.

Example sample_values :
  (λ r, r_values r) <$> sample_load "pw" =
  Ok [ (lit "port", VNumber (JsNumber.of_Z 3000))
     ; (lit "database", VObject [ (lit "url", VString (lit "pw")); (lit "poolSize", VNumber (JsNumber.of_Z 20)) ]) ].
Proof. vm_compute. reflexivity. Qed.

(** Deciding well-formedness by computation. *)
Fixpoint check_value (v : value) : bool :=
  match v with
  | VObject m =>
      bool_decide (NoDup (jm_keys m)) && forallb (λ e, negb (bool_decide (e.1 = [])) &&
        negb (bool_decide (dot ∈ e.1)) && check_value e.2) m
  | _ => true
  end.
Lemma check_value_spec v : check_value v = true → wf_value v ∧ plain_value v.
Proof.
  induction v as [| | | | | |m IH] using value_ind; intros Hc; try by split; constructor.
  cbn [check_value] in Hc. apply andb_true_iff in Hc as [Hnd Ha]. apply bool_decide_eq_true in Hnd.
  assert (Forall (λ e, (plain_key e.1 ∧ plain_value e.2) ∧ wf_value e.2) m) as Hm.
  { clear Hnd. induction IH as [|e m He _ IHm]; [done|]. cbn in Ha.
    apply andb_true_iff in Ha as [Ha1 Ha]. apply andb_true_iff in Ha1 as [Ha1 Ha2].
    apply andb_true_iff in Ha1 as [Hk Hd]. apply negb_true_iff, bool_decide_eq_false in Hk, Hd.
    constructor; [|by apply IHm]. by destruct (He Ha2). }
  split; constructor; [done|..]; eapply Forall_impl; try done; by intros ? [].
Qed.

Fixpoint check_entry (e : entry) : bool :=
  match e with
  | EField _ => true
  | EShape shape =>
      bool_decide (NoDup (jm_keys shape)) && forallb (λ e, negb (bool_decide (e.1 = [])) &&
        negb (bool_decide (dot ∈ e.1)) && check_entry e.2) shape
  end.
Lemma check_entry_spec e : check_entry e = true → wf_entry e.
Proof.
  induction e as [f|shape IH] using entry_ind; intros Hc; [constructor|].
  cbn [check_entry] in Hc. apply andb_true_iff in Hc as [Hnd Ha]. apply bool_decide_eq_true in Hnd.
  constructor; [done|]. clear Hnd. induction IH as [|e shape He _ IHs]; [done|]. cbn in Ha.
  apply andb_true_iff in Ha as [Ha1 Ha]. apply andb_true_iff in Ha1 as [Ha1 Ha2].
  apply andb_true_iff in Ha1 as [Hk Hd]. apply negb_true_iff, bool_decide_eq_false in Hk, Hd.
  constructor; [|by apply IHs]. split; [done|by apply He].
Qed.

Lemma sample_shape_ok : wf_shape sample_shape.
Proof. apply check_entry_spec. vm_compute. reflexivity. Qed.

Lemma sample_loads : Forall2 loads (sample_providers "pw") [sample_file "pw"; sample_env].
Proof.
  repeat apply Forall2_cons_2; [..|constructor]; (split; [reflexivity|]); apply check_value_spec;
    vm_compute; reflexivity.
Qed.

Lemma loader_refines_reference_witness : ∃ mg pv,
  sample_load "pw" = load_reference mg pv sample_shape true ∧
  jm_get (lit "database.poolSize") pv = Some {| provider := lit "env"; location := Some (lit "database.poolSize") |} ∧
  view_at (VObject mg) [lit "database"; lit "url"] = Leaf (VString (lit "pw")).
Proof.
  destruct (loader_refines_reference sample_shape (sample_providers "pw") [sample_file "pw"; sample_env] true
    sample_loads) as (mg & pv & Hr & Hv & Hp). exists mg, pv. split; [exact Hr|]. split.
  - apply (Hp [lit "database"; lit "poolSize"]); [discriminate|].
    apply (bool_decide_unpack _). vm_compute. exact I.
  - rewrite Hv by discriminate. vm_compute. reflexivity.
Defined.

Lemma strict_accepts_declared_witness : ∃ r,
  sample_load "pw" = Ok r ∧ loadAndValidate sample_shape (sample_providers "pw") false = Ok r.
Proof.
  eexists. split; [vm_compute; reflexivity|].
  refine (proj1 (proj1 (strict_accepts_declared sample_shape (sample_providers "pw") _ _ sample_loads) _)).
  vm_compute. reflexivity.
Defined.

Definition secret_url : Field := secret (s_url (λ _, None) None).

Lemma issue_of_secret_is_redacted_witness : ∃ i,
  field_result_of [(lit "u", VString (lit "hunter2"))] [] (lit "u") secret_url = FIssue i ∧
  (invalidValue i = VString REDACTED ∨ invalidValue i = VUndefined).
Proof.
  eexists. split; [reflexivity|].
  eapply (issue_of_secret_is_redacted [(lit "u", VString (lit "hunter2"))] [] (lit "u") secret_url);
    reflexivity.
Defined.

Lemma message_of_secret_url_quotes_it_witness : ∃ i,
  field_result_of [(lit "u", VString (lit "hunter2"))] [] (lit "u") secret_url = FIssue i ∧
  issue_secret i = true ∧ ql (lit "hunter2") ∈ issue_message i.
Proof.
  exact (message_of_secret_url_quotes_it [(lit "u", VString (lit "hunter2"))] [] (lit "u") (λ _, None) None
    (lit "hunter2") eq_refl eq_refl).
Defined.
