(* ===== verification/ConfigReader.v ===== *)
(** * The configuration object, its namespaces and its builder

    Models src/packages/config/src/config.ts ([detectEnvironment], [ConfigBuilder],
    [Config], [maskObject]), namespace.ts ([Namespace]) and metadata.ts ([MetadataStore]).
    A [Reader] is the interface [ConfigReaderCore] of types.ts, which the configuration
    implements and a namespace both uses and implements.  A snapshot is a value, so the
    freezing of its objects is not visible; [serialize] is modelled up to the rendering of
    the masked object as text. *)

From Stdlib Require Import Ascii String SpecFloat.
From S2P Require Import Prelude JsText JsMap ConfigValue ConfigValidator ConfigLoader.

Open Scope nat_scope.

(** ** [sort()] on texts *)

Definition sort_texts (l : list text) : list text := merge_sort text_le l.

(** ** Environments *)

Inductive Environment : Type := development | test_env | staging | production.

Definition detectEnvironment (NODE_ENV : option text) : Environment :=
  let raw := lower <$> trim (default [] NODE_ENV) in
  if decide (raw ∈ [lit "production"; lit "prod"]) then production
  else if decide (raw ∈ [lit "staging"; lit "stage"]) then staging
  else if decide (raw ∈ [lit "test"; lit "testing"]) then test_env
  else development.

(** ** The interface of configurations and namespaces *)

Inductive ConfigStateError : Type :=
| UnknownKey (path : list ascii)
| NoSchema
| ReloadDisabled.

Record Reader : Type := {
  environment : Environment;
  get : list ascii → result ConfigStateError value;
  has : list ascii → bool;
  keys : list (list ascii);
  metadata_at : list ascii → option FieldMetadata;
  toJSON : list (list ascii * value)
}.

(** ** Namespaces *)

Definition full (prefix path : text) : text := prefix ++ dot :: path.

(** [p]s with the prefix, without it. *)
Definition strip_prefix (p : text) (l : list text) : list text := drop (length p) <$> filter (λ k, is_prefix p k = true) l.

Definition rekey (m : FieldMetadata) (key : text) : FieldMetadata :=
  {| meta_key := key; meta_type := meta_type m; meta_secret := meta_secret m;
     meta_required := meta_required m; present := present m; defaulted := defaulted m;
     meta_source := meta_source m |}.

Definition Namespace (root : Reader) (prefix : text) : Reader := {|
  environment := environment root;
  get := λ path, get root (full prefix path);
  has := λ path, has root (full prefix path);
  keys := sort_texts (strip_prefix (full prefix []) (keys root));
  metadata_at := λ path, (λ m, rekey m path) <$> metadata_at root (full prefix path);
  toJSON := child_object (navigate (toJSON root) prefix)
|}.

(** [namespace] of a namespace. *)
Definition nested (root : Reader) (prefix prefix' : text) : Reader := Namespace root (full prefix prefix').

(** ** Metadata *)

Abbreviation MetadataStore := (list (list ascii * FieldMetadata)) (only parsing).

Definition new_MetadataStore (entries : list FieldMetadata) : MetadataStore :=
  foldl (λ m e, jm_set (meta_key e) e m) [] entries.
Definition store_keys (m : MetadataStore) : list text := sort_texts (jm_keys m).
Definition store_all (m : MetadataStore) : list FieldMetadata := omap (λ k, jm_get k m) (store_keys m).
Definition scoped (m : MetadataStore) (prefix : text) : MetadataStore :=
  let p := full prefix [] in
  new_MetadataStore ((λ e, rekey e.2 (drop (length p) e.1)) <$> filter (λ e, is_prefix p e.1 = true) m).

(** ** Masking *)

Fixpoint mask_value (secretPaths : list text) (path mask : text) (includeSecrets : bool) (v : value) : value :=
  if negb includeSecrets && bool_decide (path ∈ secretPaths) then VString mask
  else match v with
       | VObject m => VObject ((λ e, (e.1, mask_value secretPaths (join_path path e.1) mask includeSecrets e.2)) <$> m)
       | _ => v
       end.
Definition maskObject (values : object) (secretPaths : list text) (prefix mask : text) (includeSecrets : bool) : object :=
  (λ e, (e.1, mask_value secretPaths (join_path prefix e.1) mask includeSecrets e.2)) <$> values.

(** ** The configuration *)

Record Config : Type := {
  c_values : list (list ascii * value);
  metaStore : list (list ascii * FieldMetadata);
  c_secretPaths : list (list ascii);
  c_environment : Environment;
  c_mask : list ascii;
  reloadable : bool
}.

Definition new_Config (r : LoadResult) (env : Environment) (mask : text) (reloadable : bool) : Config := {|
  c_values := r_values r; metaStore := new_MetadataStore (r_metadata r); c_secretPaths := r_secretPaths r;
  c_environment := env; c_mask := mask; reloadable := reloadable |}.

Definition config_get (c : Config) (path : text) : result ConfigStateError value :=
  match navigate (c_values c) path with
  | Some v => Ok v
  | None => if jm_has path (metaStore c) then Ok VUndefined else Throw (UnknownKey path)
  end.
Definition config_has (c : Config) (path : text) : bool :=
  match navigate (c_values c) path with None | Some VUndefined => false | Some _ => true end.
Definition config_toJSON (c : Config) : object :=
  maskObject (c_values c) (c_secretPaths c) [] (c_mask c) false.

Definition reader (c : Config) : Reader := {|
  environment := c_environment c;
  get := config_get c;
  has := config_has c;
  keys := store_keys (metaStore c);
  metadata_at := λ path, jm_get path (metaStore c);
  toJSON := config_toJSON c
|}.

(** [config.namespace(prefix)]. *)
Definition config_namespace (c : Config) (prefix : text) : Reader := Namespace (reader c) prefix.

(** The object that [serialize] renders, for its options [mask] and [includeSecrets]. *)
Definition serialize_object (c : Config) (mask : option text) (includeSecrets : option bool) : object :=
  maskObject (c_values c) (c_secretPaths c) [] (default (c_mask c) mask) (default false includeSecrets).

(** [reload], given what the reloader returns. *)
Definition reload {Err} (c : Config) (loaded : result (LoadError Err) LoadResult) :
    result (ConfigStateError + LoadError Err) unit * Config :=
  if reloadable c then
    match loaded with
    | Ok r => (Ok tt, new_Config r (c_environment c) (c_mask c) (reloadable c))
    | Throw e => (Throw (inr e), c)
    end
  else (Throw (inl ReloadDisabled), c).

(** ** The builder *)

Record CreateConfigOptions : Type := {
  o_environment : option Environment;
  o_NODE_ENV : option (list ascii);
  o_strict : option bool;
  o_reloadable : option bool;
  o_secretMask : option (list ascii)
}.

Definition DEFAULT_MASK : text := lit "********".

Section builder.
Context {Err : Type}.

Record ConfigBuilder : Type := {
  b_options : CreateConfigOptions;
  b_shape : option (list (list ascii * entry));
  b_providers : list (Loaded Err)
}.

Definition createConfig (options : CreateConfigOptions) : ConfigBuilder :=
  {| b_options := options; b_shape := None; b_providers := [] |}.
Definition schema (shape : Shape) (b : ConfigBuilder) : ConfigBuilder :=
  {| b_options := b_options b; b_shape := Some shape; b_providers := b_providers b |}.
Definition add_provider (p : Loaded Err) (b : ConfigBuilder) : ConfigBuilder :=
  {| b_options := b_options b; b_shape := b_shape b; b_providers := b_providers b ++ [p] |}.

Definition builder_environment (b : ConfigBuilder) : Environment :=
  default (detectEnvironment (o_NODE_ENV (b_options b))) (o_environment (b_options b)).

Definition build (b : ConfigBuilder) : result (ConfigStateError + LoadError Err) Config :=
  match b_shape b with
  | None => Throw (inl NoSchema)
  | Some shape =>
      match loadAndValidate shape (b_providers b) (default false (o_strict (b_options b))) with
      | Throw e => Throw (inr e)
      | Ok r =>
          Ok (new_Config r (builder_environment b) (default DEFAULT_MASK (o_secretMask (b_options b)))
                (default false (o_reloadable (b_options b))))
      end
  end.

(** [validate]: the issues instead of an exception. *)
Definition builder_validate (b : ConfigBuilder) :
    result (ConfigStateError + LoadError Err) (option (list ValidationIssue)) :=
  match build b with
  | Ok _ => Ok None
  | Throw (inr (ConfigValidationError issues)) => Ok (Some issues)
  | Throw e => Throw e
  end.
End builder.

(** ** Masking: what is shown, and what is not *)

Lemma jm_get_map_key {A B} (g : text → A → B) k (m : list (text * A)) :
  jm_get k ((λ e, (e.1, g e.1 e.2)) <$> m) = g k <$> jm_get k m.
Proof. induction m as [|[k' v] m IH]; csimpl; [done|]. case_decide; [by subst|done]. Qed.

Lemma mask_object_get S prefix mask k m :
  jm_get k (maskObject m S prefix mask false) =
  (λ v, mask_value S (join_path prefix k) mask false v) <$> jm_get k m.
Proof. exact (jm_get_map_key (λ k v, mask_value S (join_path prefix k) mask false v) k m). Qed.

(** With [includeSecrets] nothing is masked. *)
Lemma mask_value_include S mask v : ∀ path, mask_value S path mask true v = v.
Proof.
  induction v as [| | | | | |m IH] using value_ind; intros path; try done. cbn. f_equal.
  induction IH as [|[k v] m He _ IHm]; csimpl; [done|]. cbn in He. by rewrite He, IHm.
Qed.

(** What two configurations show is the same when they differ in secret values only. *)
Inductive same_public (S : list (list ascii)) : list ascii → value → value → Prop :=
| same_secret path v w : path ∈ S → same_public S path v w
| same_value path v : same_public S path v v
| same_object path m m' :
    Forall2 (λ e e', e.1 = e'.1 ∧ same_public S (join_path path e.1) e.2 e'.2) m m' →
    same_public S path (VObject m) (VObject m').

Definition same_entries (S : list text) (path : text) (m m' : object) : Prop :=
  Forall2 (λ e e', e.1 = e'.1 ∧ same_public S (join_path path e.1) e.2 e'.2) m m'.

Lemma mask_same S mask v : ∀ path w,
  same_public S path v w → mask_value S path mask false v = mask_value S path mask false w.
Proof.
  induction v as [| | | | | |m IH] using value_ind; intros path w Hs;
    try (inversion Hs; subst; [|done]; destruct w; cbn; by rewrite !bool_decide_true).
  inversion Hs as [? ? ? Hp|? ?|? ? m' Hm]; subst; [by destruct w; cbn; rewrite !bool_decide_true|done|].
  cbn. case_bool_decide; [done|]. cbn. f_equal. clear Hs.
  induction Hm as [|e e' m m' [Hk He] _ IHm]; csimpl; [done|].
  apply Forall_cons in IH as [IHe IH]. rewrite (IHe _ _ He), Hk. f_equal. by apply IHm.
Qed.

Lemma same_entries_refl S path m : same_entries S path m m.
Proof. induction m as [|[k v] m IH]; constructor; [|done]. split; [done|constructor 2]. Qed.

Lemma mask_same_entries S mask prefix m m' :
  same_entries S prefix m m' → maskObject m S prefix mask false = maskObject m' S prefix mask false.
Proof.
  unfold maskObject. induction 1 as [|[k v] [k' v'] m m' [Hk Hv] _ IH]; csimpl; [done|].
  cbn in *. subst. by rewrite (mask_same _ _ _ _ _ Hv), IH.
Qed.

Lemma same_entries_get S path m m' k :
  same_entries S path m m' →
  (jm_get k m = None ∧ jm_get k m' = None) ∨
  ∃ v v', jm_get k m = Some v ∧ jm_get k m' = Some v' ∧ same_public S (join_path path k) v v'.
Proof.
  induction 1 as [|[k1 v] [k2 v'] m m' [Hk Hv] _ IH]; cbn in *; [by left|]. subst k2.
  case_decide; [|done]. subst. right. by exists v, v'.
Qed.

Lemma same_entries_set S path m m' k v v' :
  same_entries S path m m' → same_public S (join_path path k) v v' →
  same_entries S path (jm_set k v m) (jm_set k v' m').
Proof.
  intros Hm Hv. induction Hm as [|[k1 w] [k2 w'] m m' [Hk Hw] Hm IH]; cbn in *.
  { by apply Forall2_cons_2; [|constructor]. }
  subst k2. case_decide; [subst|]; by apply Forall2_cons_2.
Qed.

(** Values that are the same but for secrets stay so under an assignment, for a path none of
    whose sections is secret. *)
Lemma assign_same_public S v v' segments : ∀ prefix m m',
  segments ≠ [] → same_entries S prefix m m' → same_public S (dotted prefix segments) v v' →
  (∀ s, s `prefix_of` segments → s ≠ segments → dotted prefix s ∉ S) →
  same_entries S prefix (assignPath segments v m) (assignPath segments v' m').
Proof.
  induction segments as [|k [|k' segments] IH]; intros prefix m m' Hne Hm Hv Hsec; [done|..].
  { by apply same_entries_set. }
  rewrite !assignPath_cons. apply same_entries_set; [done|]. apply same_object.
  apply IH; [done| |done|].
  - assert (join_path prefix k ∉ S) as Hns.
    { apply (Hsec [k]); [|done]. apply prefix_cons, prefix_nil. }
    destruct (same_entries_get _ _ _ _ k Hm) as [[-> ->]|(w & w' & -> & -> & Hw)]; [constructor|].
    inversion Hw; subst; [done|apply same_entries_refl|done].
  - intros s Hp Hs. apply (Hsec (k :: s)); [by apply prefix_cons|congruence].
Qed.

(** Below no secret, masking commutes with navigation: a path that is secret shows the mask,
    any other one what it holds. *)
Lemma navigate_mask S mask segments : ∀ prefix m,
  segments ≠ [] → (∀ s, s `prefix_of` segments → s ≠ [] → s ≠ segments → dotted prefix s ∉ S) →
  navigate_segments segments (VObject (maskObject m S prefix mask false)) =
  mask_value S (dotted prefix segments) mask false <$> navigate_segments segments (VObject m).
Proof.
  induction segments as [|k segments IH]; intros prefix m Hne Hsec; [done|].
  cbn [navigate_segments]. rewrite mask_object_get. destruct (jm_get k m) as [v|]; [|done].
  cbn [fmap option_fmap option_map mbind option_bind]. rewrite dotted_cons.
  destruct (decide (segments = [])) as [->|Hs]; [done|].
  assert (join_path prefix k ∉ S) as Hns.
  { apply (Hsec [k]); [apply prefix_cons, prefix_nil|done|congruence]. }
  destruct v as [| | | | | |m']; try (destruct segments; [done|]; cbn [mask_value];
    by rewrite bool_decide_false).
  cbn [mask_value]. rewrite bool_decide_false by done. cbn [negb andb].
  refine (IH (join_path prefix k) m' Hs _). intros s Hp Hs1 Hs2. apply (Hsec (k :: s)); [by apply prefix_cons|done|congruence].
Qed.

(** ** The metadata of a load *)

Lemma new_MetadataStore_get k entries : ∀ m : MetadataStore,
  jm_get k (foldl (λ m e, jm_set (meta_key e) e m) m entries) =
  match last (filter (λ e, meta_key e = k) entries) with Some e => Some e | None => jm_get k m end.
Proof.
  induction entries as [|e entries IH]; intros m; [done|]. cbn [foldl]. rewrite IH.
  rewrite filter_cons. case_decide as He.
  - rewrite last_cons. destruct (last _); [done|]. by rewrite <-He, jm_get_set_eq.
  - destruct (last _); [done|]. by rewrite jm_get_set_ne by done.
Qed.

Section metadata.
Context (mg : list (list ascii * value)) (pv : list (list ascii * SourceRef)).

Lemma meta_of_key pf e : meta_of (result_at mg pv pf) = Some e → meta_key e = dotted [] pf.1.
Proof.
  unfold result_at, field_result_of.
  destruct (navigate mg _); [destruct (validate _ _)|destruct (hasDefault _); [destruct (validate _ _)|
    destruct (required _)]]; cbn; by intros [= <-].
Qed.

(** The store has the metadata of each field at its path, and nothing else. *)
Lemma metadata_of_field shape s f :
  wf_shape shape → (s, f) ∈ fields_of shape →
  jm_get (dotted [] s) (new_MetadataStore (omap (meta_of ∘ result_at mg pv) (fields_of shape))) =
  meta_of (result_at mg pv (s, f)).
Proof.
  intros Hwf Hin. destruct (fields_of_plain _ _ _ Hwf Hin) as [Hne Hp].
  unfold new_MetadataStore. rewrite new_MetadataStore_get. cbn [jm_get].
  assert (∀ e, e ∈ omap (meta_of ∘ result_at mg pv) (fields_of shape) → meta_key e = dotted [] s →
    meta_of (result_at mg pv (s, f)) = Some e) as Hu.
  { intros e ([s' f'] & Hin' & He)%list_elem_of_omap Hk.
    pose proof (meta_of_key _ _ He) as Hk'. rewrite Hk' in Hk. cbn in Hk.
    destruct (fields_of_plain _ _ _ Hwf Hin') as [Hne' Hp'].
    apply (f_equal (split_on dot)) in Hk. rewrite !split_dotted in Hk by done. subst s'.
    by pose proof (fields_separate _ _ _ _ _ _ Hwf Hin Hin' ltac:(done)) as [= <-]. }
  destruct (last _) as [e|] eqn:El.
  - apply last_Some_elem_of, list_elem_of_filter in El as [Hk He]. symmetry. by apply Hu.
  - apply last_None in El. destruct (meta_of (result_at mg pv (s, f))) as [e|] eqn:E; [|done].
    assert (e ∈ filter (λ e, meta_key e = dotted [] s) (omap (meta_of ∘ result_at mg pv) (fields_of shape))) as H.
    { apply list_elem_of_filter. split; [exact (meta_of_key _ _ E)|]. apply list_elem_of_omap. by exists (s, f). }
    rewrite El in H. by apply not_elem_of_nil in H.
Qed.

Lemma metadata_undeclared shape p :
  (∀ s f, (s, f) ∈ fields_of shape → dotted [] s ≠ p) →
  jm_get p (new_MetadataStore (omap (meta_of ∘ result_at mg pv) (fields_of shape))) = None.
Proof.
  intros Hp. unfold new_MetadataStore. rewrite new_MetadataStore_get. cbn [jm_get].
  destruct (last _) as [e|] eqn:El; [|done].
  apply last_Some_elem_of, list_elem_of_filter in El as [Hk ([s f] & Hin & He)%list_elem_of_omap].
  apply meta_of_key in He. destruct (Hp s f Hin). by rewrite <-Hk, He.
Qed.

(** Secrets that differ leave the assembled objects the same but for secrets. *)
Lemma assemble_same_public mg' pv' shape :
  wf_shape shape →
  (∀ pf, pf ∈ fields_of shape →
    (is_Some (value_of (result_at mg pv pf)) ↔ is_Some (value_of (result_at mg' pv' pf))) ∧
    (isSecret pf.2 = false → value_of (result_at mg pv pf) = value_of (result_at mg' pv' pf))) →
  same_entries (secret_paths [] (fields_of shape)) [] (assemble mg pv [] (fields_of shape))
    (assemble mg' pv' [] (fields_of shape)).
Proof.
  intros Hwf Hres. assert (∀ l, (∀ pf, pf ∈ l → pf ∈ fields_of shape) →
    same_entries (secret_paths [] (fields_of shape)) [] (assemble mg pv [] l) (assemble mg' pv' [] l)) as H;
    [|by apply H].
  induction l as [|[s f] l IH] using rev_ind; intros Hl; [constructor|].
  assert ((s, f) ∈ fields_of shape) as Hin by by apply Hl, elem_of_app; right; left.
  destruct (fields_of_plain _ _ _ Hwf Hin) as [Hne Hp]. rewrite !assemble_snoc.
  specialize (IH ltac:(intros; apply Hl, elem_of_app; by left)).
  destruct (Hres _ Hin) as [Hs Hv]. cbn [fst snd] in *.
  destruct (value_of (result_at mg pv (s, f))) as [v|], (value_of (result_at mg' pv' (s, f))) as [v'|];
    [|by destruct (proj1 Hs ltac:(done))|by destruct (proj2 Hs ltac:(done))|done].
  unfold setPath. rewrite split_dotted by done. apply assign_same_public; [done..| |].
  - destruct (isSecret f) eqn:Hsec.
    + apply same_secret, secret_paths_spec. right. by exists (s, f).
    + injection (Hv eq_refl) as ->. apply same_value.
  - intros t Ht Hts [[]%not_elem_of_nil|([s' f'] & Hin' & Hsec & E)]%secret_paths_spec.
    cbn [fst snd] in *. destruct (fields_of_plain _ _ _ Hwf Hin') as [Hne' Hp'].
    assert (t ≠ []) as Ht0.
    { intros ->. cbn in E. apply (f_equal (split_on dot)) in E. rewrite split_dotted in E by done.
      cbn in E. subst s'. apply Forall_cons in Hp' as [[] _]. done. }
    assert (Forall plain_key t) as Hpt by (destruct Ht as [k ->]; by apply Forall_app in Hp as [??]).
    apply (f_equal (split_on dot)) in E. rewrite !split_dotted in E by done. subst s'.
    pose proof (fields_separate _ _ _ _ _ _ Hwf Hin' Hin Ht). congruence.
Qed.
End metadata.

(** ** Namespaces *)

Lemma split_full p q : split_on dot (full p q) = split_on dot p ++ split_on dot q.
Proof.
  unfold full. induction p as [|c p IH]; cbn [app split_on]; [by rewrite decide_True|].
  case_decide; [by rewrite IH|]. rewrite IH. pose proof (split_on_nonempty dot p).
  by destruct (split_on dot p).
Qed.

Lemma full_assoc p q r : full p (full q r) = full (full p q) r.
Proof. unfold full. by rewrite <-(assoc_L (++)). Qed.

Lemma navigate_full p q o :
  navigate o (full p q) = (navigate o p ≫= λ v, match v with VObject m => navigate m q | _ => None end).
Proof.
  unfold navigate. rewrite split_full. pose proof (split_on_nonempty dot q) as Hq.
  revert Hq. generalize (split_on dot q). intros sq Hq. generalize (VObject o).
  induction (split_on dot p) as [|k sp IH]; intros v; cbn [app navigate_segments mbind option_bind].
  { by destruct sq, v. }
  destruct v as [| | | | | |m]; try done. destruct (jm_get k m) as [w|]; [|done]. apply IH.
Qed.

Lemma sort_texts_unique l l' : l ≡ₚ l' → sort_texts l = sort_texts l'.
Proof.
  intros H. apply (Sorted_unique text_le); [apply Sorted_merge_sort, _..|].
  unfold sort_texts. by rewrite !merge_sort_Permutation.
Qed.

Lemma strip_prefix_perm p l l' : l ≡ₚ l' → strip_prefix p l ≡ₚ strip_prefix p l'.
Proof. intros H. unfold strip_prefix. by rewrite H. Qed.

Lemma strip_prefix_app p q l : strip_prefix q (strip_prefix p l) = strip_prefix (p ++ q) l.
Proof.
  unfold strip_prefix. induction l as [|k l IH]; [done|]. rewrite !filter_cons.
  destruct (is_prefix p k) eqn:E.
  - apply is_prefix_spec in E as [r ->]. rewrite decide_True by done. csimpl. rewrite filter_cons.
    rewrite drop_app_length.
    assert (is_prefix (p ++ q) (p ++ r) = is_prefix q r) as ->.
    { clear. induction p as [|c p IHp]; [done|]. cbn. by rewrite bool_decide_true. }
    case_decide; csimpl; [|done]. rewrite IH, length_app, <-drop_drop, drop_app_length. done.
  - rewrite decide_False by done. rewrite decide_False; [done|].
    intros [r ->]%is_prefix_spec. by rewrite <-(assoc_L (++)), is_prefix_app in E.
Qed.

Lemma nested_keys root p q : keys (Namespace (Namespace root p) q) = keys (nested root p q).
Proof.
  cbn [keys Namespace nested]. apply sort_texts_unique.
  rewrite (strip_prefix_perm _ (sort_texts _)) by apply merge_sort_Permutation.
  rewrite strip_prefix_app. unfold full. rewrite <-!(assoc_L (++)). done.
Qed.

(** ** Theorems *)

(** A namespace of a namespace answers every call as the namespace of the joined prefix, for
    any root: the configuration or a namespace itself. *)
Theorem namespace_of_namespace root p q :
  environment (Namespace (Namespace root p) q) = environment (nested root p q) ∧
  (∀ path, get (Namespace (Namespace root p) q) path = get (nested root p q) path) ∧
  (∀ path, has (Namespace (Namespace root p) q) path = has (nested root p q) path) ∧
  (∀ path, metadata_at (Namespace (Namespace root p) q) path = metadata_at (nested root p q) path) ∧
  keys (Namespace (Namespace root p) q) = keys (nested root p q) ∧
  toJSON (Namespace (Namespace root p) q) = toJSON (nested root p q).
Proof.
  split_and!; [done|intros; cbn; by rewrite full_assoc..| |apply nested_keys|].
  - intros path. cbn [metadata_at Namespace nested]. rewrite full_assoc.
    by destruct (metadata_at root _).
  - cbn [toJSON Namespace nested]. rewrite navigate_full.
    destruct (navigate (toJSON root) p) as [[]|]; cbn; try done; unfold navigate;
      by destruct (split_on dot q) eqn:E; [by apply split_on_nonempty in E|].
Qed.

Section built.
Context {Err : Type} (b : @ConfigBuilder Err) (shape : list (list ascii * entry)) (c : Config).

Lemma build_ok : b_shape b = Some shape → build b = Ok c →
  ∃ r, loadAndValidate shape (b_providers b) (default false (o_strict (b_options b))) = Ok r ∧
    c_values c = r_values r ∧ metaStore c = new_MetadataStore (r_metadata r) ∧
    c_secretPaths c = r_secretPaths r.
Proof.
  intros Hs. unfold build. rewrite Hs. destruct (loadAndValidate _ _ _) as [r|]; [|done].
  intros [= <-]. by exists r.
Qed.

Lemma loaded_reference strict (providers : list (Loaded Err)) r :
  loadAndValidate shape providers strict = Ok r →
  ∃ mg pv, mergeProviders providers ([], []) = Ok (mg, pv) ∧ @load_reference mg pv shape strict Err = Ok r.
Proof.
  rewrite loadAndValidate_reference. destruct (mergeProviders providers ([], [])) as [[mg pv]|]; [|done].
  intros H. by exists mg, pv.
Qed.

Lemma build_reference : b_shape b = Some shape → build b = Ok c →
  ∃ mg pv, mergeProviders (b_providers b) ([], []) = Ok (mg, pv) ∧
    c_values c = assemble mg pv [] (fields_of shape) ∧
    metaStore c = new_MetadataStore (omap (meta_of ∘ result_at mg pv) (fields_of shape)) ∧
    c_secretPaths c = secret_paths [] (fields_of shape) ∧
    ∀ pf, pf ∈ fields_of shape → issue_of (result_at mg pv pf) = None.
Proof.
  intros Hs Hb. destruct (build_ok Hs Hb) as (r & Hr & -> & -> & ->).
  apply loaded_reference in Hr as (mg & pv & Hm & Hr).
  apply load_reference_ok in Hr as (-> & -> & -> & Hi & _). by exists mg, pv.
Qed.
End built.

(** What [config.get] should give for a field, from what the sources hold at its path: a
    value is validated and transformed, a section is the merged object; without either the
    default is taken, and an optional field is [undefined]. *)
Definition field_value_spec (mg : object) (path : text) (w : view) (f : Field)
    (got : result ConfigStateError value) : Prop :=
  match w with
  | Leaf raw => ∃ v, validate f raw = Valid v ∧ got = Ok (applyTransform f v)
  | Node => ∃ m v, navigate mg path = Some (VObject m) ∧ validate f (VObject m) = Valid v ∧
      got = Ok (applyTransform f v)
  | Absent =>
      if hasDefault f then ∃ v, validate f (defaultValue f) = Valid v ∧ got = Ok (applyTransform f v)
      else required f = false ∧ got = Ok VUndefined
  end.

Lemma config_get_found c path v : navigate (c_values c) path = Some v → config_get c path = Ok v.
Proof. unfold config_get. by intros ->. Qed.

(** [config.get] of a declared field gives what the last source that decides on its path
    holds there, validated and transformed; the default when no source does; [undefined] for
    an optional field without one. *)
Theorem config_get_field {Err} (b : @ConfigBuilder Err) shape datas c s f :
  b_shape b = Some shape → wf_shape shape → Forall2 loads (b_providers b) datas →
  build b = Ok c → (s, f) ∈ fields_of shape →
  field_value_spec (foldl merge_object [] datas) (dotted [] s) (default Absent (last (omap (decides s) datas))) f
    (config_get c (dotted [] s)).
Proof.
  intros Hs Hwf Hl Hb Hin. destruct (build_ok b shape c Hs Hb) as (r & Hr & Hv & Hm & _).
  pose proof (load_field shape _ datas Hl _ _ _ _ Hwf Hr Hin) as Hf. rewrite <-Hv in Hf.
  unfold field_value_spec. destruct (default Absent _) as [| |raw].
  - destruct (hasDefault f) eqn:Hd.
    + destruct Hf as (v & ? & ?%config_get_found). by exists v.
    + destruct Hf as [Hreq Hn]. split; [done|]. unfold config_get, jm_has. rewrite Hn, Hm.
      apply loaded_reference in Hr as (mg & pv & _ & Hr).
      apply load_reference_ok in Hr as (Hrv & -> & _ & Hi & _).
      rewrite (metadata_of_field _ _ shape s f) by done. specialize (Hi _ Hin).
      rewrite Hv, Hrv, (navigate_assemble _ _ shape _ s f), bool_decide_true in Hn
        by (done || apply list_elem_of_fmap; by exists (s, f)).
      by destruct (result_at mg pv (s, f)).
  - destruct Hf as (m & v & ? & ? & ?%config_get_found). by exists m, v.
  - destruct Hf as (v & ? & ?%config_get_found). by exists v.
Qed.

(** A path that neither leads to a field nor through one is unknown. *)
Theorem config_get_undeclared {Err} (b : @ConfigBuilder Err) shape c segments :
  b_shape b = Some shape → wf_shape shape → build b = Ok c →
  segments ≠ [] → Forall plain_key segments →
  (∀ s f, (s, f) ∈ fields_of shape → ¬ s `prefix_of` segments ∧ ¬ segments `prefix_of` s) →
  config_get c (dotted [] segments) = Throw (UnknownKey (dotted [] segments)).
Proof.
  intros Hs Hwf Hb Hne Hp Hsep. destruct (build_reference b shape c Hs Hb) as (mg & pv & _ & Hv & Hm & _).
  unfold config_get, jm_has. rewrite Hm, metadata_undeclared.
  - rewrite Hv. unfold navigate. rewrite split_dotted by done.
    assert (∀ l, (∀ pf, pf ∈ l → pf ∈ fields_of shape) →
      navigate_segments segments (VObject (assemble mg pv [] l)) = None) as ->; [|done..].
    induction l as [|[s f] l IH] using rev_ind; intros Hl; [by destruct segments|].
    assert ((s, f) ∈ fields_of shape) as Hin by by apply Hl, elem_of_app; right; left.
    specialize (IH ltac:(intros; apply Hl, elem_of_app; by left)).
    destruct (fields_of_plain _ _ _ Hwf Hin) as [Hne' Hp']. destruct (Hsep _ _ Hin).
    rewrite assemble_snoc. destruct (value_of _); [|done]. unfold setPath. cbn [fst].
    rewrite split_dotted by done. by rewrite navigate_assign_other.
  - intros s f Hin E. destruct (fields_of_plain _ _ _ Hwf Hin) as [Hne' Hp'].
    apply (f_equal (split_on dot)) in E. rewrite !split_dotted in E by done. subst.
    by destruct (Hsep _ _ Hin) as [[] _].
Qed.

(** C31: The values of secret fields do not reach [toJSON] or [serialize]: two configurations of
    a schema that differ only in them are shown alike, whatever the mask. *)
Theorem secrets_are_not_shown {Err} shape strict (ps ps' : list (Loaded Err)) r r' env mask re :
  wf_shape shape →
  loadAndValidate shape ps strict = Ok r → loadAndValidate shape ps' strict = Ok r' →
  (∀ s f, (s, f) ∈ fields_of shape →
    (is_Some (navigate (r_values r) (dotted [] s)) ↔ is_Some (navigate (r_values r') (dotted [] s))) ∧
    (isSecret f = false → navigate (r_values r) (dotted [] s) = navigate (r_values r') (dotted [] s))) →
  toJSON (reader (new_Config r env mask re)) = toJSON (reader (new_Config r' env mask re)) ∧
  ∀ o, serialize_object (new_Config r env mask re) o None = serialize_object (new_Config r' env mask re) o None.
Proof.
  intros Hwf Hr Hr' Hpub.
  apply loaded_reference in Hr as (mg & pv & _ & Hr), Hr' as (mg' & pv' & _ & Hr').
  apply load_reference_ok in Hr as (Hv & _ & Hsec & _), Hr' as (Hv' & _ & Hsec' & _).
  assert (same_entries (secret_paths [] (fields_of shape)) [] (r_values r) (r_values r')) as Hsame.
  { rewrite Hv, Hv'. apply assemble_same_public; [done|]. intros [s f] Hin. specialize (Hpub _ _ Hin).
    rewrite Hv, Hv', !(navigate_assemble _ _ shape _ s f), bool_decide_true in Hpub
      by (done || apply list_elem_of_fmap; by exists (s, f)). exact Hpub. }
  split; [|intros o]; cbn [toJSON reader]; unfold config_toJSON, serialize_object;
    cbn [c_values c_secretPaths c_mask new_Config]; rewrite Hsec, Hsec'; by apply mask_same_entries.
Qed.

(** ** Reloading *)

(** A reload that is disabled or fails leaves the configuration as it is; one that succeeds
    replaces values, metadata and secret paths at once, and keeps the rest. *)
Theorem reload_is_atomic {Err} c (loaded : result (LoadError Err) LoadResult) :
  match reload c loaded with
  | (Throw _, c') => c' = c
  | (Ok _, c') => ∃ r, loaded = Ok r ∧ c' = new_Config r (c_environment c) (c_mask c) (reloadable c)
  end.
Proof. unfold reload. destruct (reloadable c); [destruct loaded as [r|]; [by exists r|done]|done]. Qed.

(** [validate] agrees with [build]: no issues exactly when a configuration would be built. *)
Lemma validate_is_build {Err} (b : @ConfigBuilder Err) :
  builder_validate b = Ok None ↔ ∃ c, build b = Ok c.
Proof.
  unfold builder_validate. destruct (build b) as [c|[e|[e|found]]]; split; try done; try (by intros [? ?]).
  intros _. by exists c.
Qed.

(** ** Metadata *)

(** [config.metadata] of a declared field: whether a source supplied the value, and the last
    source that holds the path. *)
Theorem config_metadata_field {Err} (b : @ConfigBuilder Err) shape datas c s f :
  b_shape b = Some shape → wf_shape shape → Forall2 loads (b_providers b) datas →
  build b = Ok c → (s, f) ∈ fields_of shape →
  ∃ m, metadata_at (reader c) (dotted [] s) = Some m ∧ meta_key m = dotted [] s ∧
    meta_type m = type f ∧ meta_secret m = isSecret f ∧ meta_required m = required f ∧
    match default Absent (last (omap (decides s) datas)) with
    | Absent => present m = false ∧ meta_source m = None
    | _ => present m = true ∧ defaulted m = false ∧
           meta_source m = last (omap (λ p, provided p s) (b_providers b))
    end.
Proof.
  intros Hs Hwf Hl Hb Hin. destruct (fields_of_plain _ _ _ Hwf Hin) as [Hne Hp].
  destruct (build_reference b shape c Hs Hb) as (mg & pv & Hmerge & _ & Hm & _ & Hi).
  destruct (load_merged shape _ datas Hl false) as (pv' & Hmerge' & _ & Hpv).
  rewrite Hmerge in Hmerge'. injection Hmerge' as -> <-. specialize (Hi _ Hin).
  cbn [metadata_at reader]. rewrite Hm, (metadata_of_field _ _ shape s f) by done.
  rewrite <-(merged_view _ _ Hl) by done. rewrite <-(Hpv s Hne Hp). clear Hpv Hm Hb.
  revert Hi. unfold result_at, field_result_of, view_at, navigate. cbn [fst snd].
  rewrite split_dotted by done.
  destruct (navigate_segments s _) as [raw|]; cbn [view_of].
  - destruct (validate f raw); cbn; [|done]. intros _. eexists. split; [done|]. by destruct raw.
  - destruct (hasDefault f); [destruct (validate f (defaultValue f))|destruct (required f) eqn:E];
      cbn; try done; intros _; eexists; (split; [done|]); cbn; by rewrite ?E.
Qed.

(** ** The theorems on a concrete configuration *)

Definition sample_builder (password : string) : @ConfigBuilder Empty_set :=
  foldl (λ b p, add_provider p b)
    (schema sample_shape (createConfig {| o_environment := None; o_NODE_ENV := Some (lit " Prod ");
      o_strict := Some true; o_reloadable := Some true; o_secretMask := None |}))
    (sample_providers password).

Definition sample_config (password : string) : Config :=
  match build (sample_builder password) with
  | Ok c => c
  | Throw _ => new_Config {| r_values := []; r_metadata := []; r_secretPaths := [] |} development [] false
  end.

Example sample_is_production : c_environment (sample_config "pw") = production.
Proof. vm_compute. reflexivity. Qed.

Example sample_shown : navigate (config_toJSON (sample_config "pw")) (lit "database.url") = Some (VString DEFAULT_MASK).
Proof. vm_compute. reflexivity. Qed.

Example sample_namespace_keys : keys (config_namespace (sample_config "pw") (lit "database")) = [lit "poolSize"; lit "url"].
Proof. vm_compute. reflexivity. Qed.

Definition pool_size : Field := s_number any_number.

Lemma config_get_field_witness :
  config_get (sample_config "pw") (lit "database.poolSize") = Ok (VNumber (JsNumber.of_Z 20)).
Proof.
  destruct (config_get_field (sample_builder "pw") sample_shape [sample_file "pw"; sample_env] (sample_config "pw")
    [lit "database"; lit "poolSize"] pool_size) as (v & Hv & E).
  - reflexivity.
  - exact sample_shape_ok.
  - exact sample_loads.
  - vm_compute. reflexivity.
  - right. right. left.
  - vm_compute in Hv. injection Hv as <-. exact E.
Defined.

Lemma config_get_undeclared_witness :
  config_get (sample_config "pw") (lit "cache.size") = Throw (UnknownKey (lit "cache.size")).
Proof.
  apply (config_get_undeclared (sample_builder "pw") sample_shape (sample_config "pw") [lit "cache"; lit "size"]).
  - reflexivity.
  - exact sample_shape_ok.
  - vm_compute. reflexivity.
  - discriminate.
  - apply (bool_decide_unpack _). vm_compute. exact I.
  - intros s f Hin. assert (Forall (λ pf, ¬ pf.1 `prefix_of` [lit "cache"; lit "size"] ∧
      ¬ [lit "cache"; lit "size"] `prefix_of` pf.1) (fields_of sample_shape)) as Hall
      by (apply (bool_decide_unpack _); vm_compute; exact I).
    rewrite Forall_forall in Hall. exact (Hall (s, f) Hin).
Defined.

Lemma config_metadata_field_witness : ∃ m,
  metadata_at (reader (sample_config "pw")) (lit "database.poolSize") = Some m ∧ present m = true ∧
  meta_source m = Some {| provider := lit "env"; location := Some (lit "database.poolSize") |}.
Proof.
  destruct (config_metadata_field (sample_builder "pw") sample_shape [sample_file "pw"; sample_env]
    (sample_config "pw") [lit "database"; lit "poolSize"] pool_size) as (m & Hm & _ & _ & _ & _ & Hp & _ & Hs).
  - reflexivity.
  - exact sample_shape_ok.
  - exact sample_loads.
  - vm_compute. reflexivity.
  - right. right. left.
  - exists m. split; [exact Hm|]. split; [exact Hp|exact Hs].
Defined.

Definition loaded_values (password : string) : LoadResult :=
  match sample_load password with
  | Ok r => r
  | Throw _ => {| r_values := []; r_metadata := []; r_secretPaths := [] |}
  end.

Lemma secrets_are_not_shown_witness :
  r_values (loaded_values "pw") ≠ r_values (loaded_values "other") ∧
  toJSON (reader (new_Config (loaded_values "pw") production DEFAULT_MASK false)) =
  toJSON (reader (new_Config (loaded_values "other") production DEFAULT_MASK false)).
Proof.
  split; [vm_compute; discriminate|].
  apply (secrets_are_not_shown sample_shape true (sample_providers "pw") (sample_providers "other")).
  - exact sample_shape_ok.
  - vm_compute. reflexivity.
  - vm_compute. reflexivity.
  - intros s f Hin. repeat (apply elem_of_cons in Hin as [E|Hin]; [injection E as -> ->; vm_compute;
      split; [split; intros [? ?]; try discriminate; eexists; reflexivity|congruence]|]).
    destruct (not_elem_of_nil _ Hin).
Defined.
