(* ===== verification/ConfigSecrets.v ===== *)
(** * Configuration sources: the environment and the secret store

    Models [envProvider] and [camelCase] of src/packages/config/src/provider.ts and
    secrets.ts: the secret providers, the caching [SecretStore] and [secretsProvider].  A
    [get] of the store waits for its providers, and other calls run meanwhile; it is a
    [begin_get] followed by one [answer] for each provider that is asked.  [getOptional] is the
    method when nothing comes between.  Handlers of rotations do not call the store back,
    and [onRotate] keeps the names of those that are registered.  Names of variables are
    ASCII, for which [lower] and [upper] are the case mappings. *)

From Stdlib Require Import Ascii String SpecFloat.
From S2P Require Import Prelude JsText JsMap ConfigValue ConfigValidator ConfigLoader.

Open Scope nat_scope.

(** ** The environment *)

Definition upper (c : ascii) : ascii :=
  if between 97 122 c then ascii_of_N (N_of_ascii c - 32) else c.
Definition capitalise (p : text) : text := match p with [] => [] | c :: p => upper c :: p end.

(** [l.split(/[_-]/).filter(Boolean)]. *)
Fixpoint words (l : text) : list text :=
  match l with
  | [] => [[]]
  | c :: l =>
      if decide (c = "_"%char ∨ c = "-"%char) then [] :: words l
      else match words l with w :: ws => (c :: w) :: ws | [] => [[c]] end
  end.

Definition camelCase (segment : text) : text :=
  let l := lower <$> segment in
  match filter (λ w, w ≠ []) (words l) with
  | [] => l
  | w :: ws => w ++ concat (capitalise <$> ws)
  end.

Record EnvProviderOptions : Type := {
  prefix : list ascii;
  nestingDelimiter : list ascii;
  env_map : list (list ascii * list ascii)
}.
Definition default_env_options : EnvProviderOptions :=
  {| prefix := []; nestingDelimiter := lit "__"; env_map := [] |}.

(** The path of a variable; [None] for one that is passed over. *)
Definition env_path (opts : EnvProviderOptions) (rawName : text) : option (list text) :=
  match jm_get rawName (env_map opts) with
  | Some ((_ :: _) as mapped) => Some (split_on dot mapped)
  | _ =>
      if negb (is_prefix (prefix opts) rawName) then None
      else match drop (length (prefix opts)) rawName with
           | [] => None
           | stripped => Some (camelCase <$> split_text (nestingDelimiter opts) stripped)
           end
  end.

Definition env_load (opts : EnvProviderOptions) (env : list (text * option text)) : object :=
  foldl (λ root e,
    match e.2, env_path opts e.1 with
    | Some rawValue, Some path => assignPath path (VString rawValue) root
    | _, _ => root
    end) [] env.

Definition envProvider {Err} (opts : EnvProviderOptions) (env : list (text * option text)) : Loaded Err :=
  {| name := lit "env"; load := Ok (env_load opts env) |}.

(** [objectProvider]. *)
Definition objectProvider {Err} (data : object) (provider_name : text) : Loaded Err :=
  {| name := provider_name; load := Ok data |}.

Example env_convention :
  env_path {| prefix := lit "APP_"; nestingDelimiter := lit "__"; env_map := [] |} (lit "APP_DATABASE__POOL_SIZE") =
  Some [lit "database"; lit "poolSize"].
Proof. vm_compute. reflexivity. Qed.

(** ** Secret providers *)

(** What a provider answers at one time. *)
Definition SecretProvider : Type := text → option text.

Definition envSecretProvider (env : list (text * option text)) (prefix : text) : SecretProvider :=
  λ key, mjoin (jm_get (prefix ++ key) env).
Definition memorySecretProvider (secrets : list (text * text)) : SecretProvider := λ key, jm_get key secrets.

(** [fileSecretProvider] reads a file below a directory. *)
Definition ends_with (s l : text) : bool := is_prefix (reverse s) (reverse l).
Definition fileSecretProvider (read : text → option text) (dir sep : text) : SecretProvider :=
  let base := if ends_with sep dir then
                match sep with [] => [] | _ => take (length dir - length sep) dir end
              else dir in
  λ key, read (base ++ sep ++ key).

(** ** The store *)

Record CacheEntry : Type := { e_value : list ascii; fetchedAt : Z }.

Record SecretStore : Type := {
  provider_count : nat;
  ttlMs : Z;
  cache : list (list ascii * CacheEntry);
  rotateHandlers : list nat
}.

(** [None] is the error of a store without providers. *)
Definition new_SecretStore (providers : nat) (ttlMs : Z) : option SecretStore :=
  match providers with
  | O => None
  | _ => Some {| provider_count := providers; ttlMs := ttlMs; cache := []; rotateHandlers := [] |}
  end.

Definition with_cache (st : SecretStore) (c : list (list ascii * CacheEntry)) : SecretStore :=
  {| provider_count := provider_count st; ttlMs := ttlMs st; cache := c; rotateHandlers := rotateHandlers st |}.

Definition cached (key : text) (now : Z) (st : SecretStore) : option text :=
  match jm_get key (cache st) with
  | Some e => if ((ttlMs st =? 0) || (now - fetchedAt e <? ttlMs st))%Z then Some (e_value e) else None
  | None => None
  end.

(** A fetch that waits for provider number [asked]. *)
Record Fetch : Type := { f_key : list ascii; asked : nat }.
Inductive Progress : Type :=
| Resolved (v : option (list ascii))
| Waiting (f : Fetch).

(** [getOptional] up to its first await; [onAccess] is called with the key. *)
Definition begin_get (key : text) (now : Z) (st : SecretStore) : Progress :=
  match cached key now st with
  | Some v => Resolved (Some v)
  | None => Waiting {| f_key := key; asked := 0 |}
  end.

(** The provider that is asked answers. *)
Definition answer (f : Fetch) (v : option text) (now : Z) (st : SecretStore) : Progress * SecretStore :=
  match v with
  | Some v => (Resolved (Some v), with_cache st (jm_set (f_key f) {| e_value := v; fetchedAt := now |} (cache st)))
  | None =>
      if S (asked f) <? provider_count st then (Waiting {| f_key := f_key f; asked := S (asked f) |}, st)
      else (Resolved None, with_cache st (jm_delete (f_key f) (cache st)))
  end.

(** [rotate]: the handlers to call, with the key. *)
Definition rotate (key : option text) (st : SecretStore) : list (nat * option text) * SecretStore :=
  ((λ h, (h, key)) <$> rotateHandlers st,
   with_cache st (match key with None => [] | Some k => jm_delete k (cache st) end)).
Definition onRotate (handler : nat) (st : SecretStore) : SecretStore :=
  {| provider_count := provider_count st; ttlMs := ttlMs st; cache := cache st;
     rotateHandlers := set_add handler (rotateHandlers st) |}.
Definition unsubscribe (handler : nat) (st : SecretStore) : SecretStore :=
  {| provider_count := provider_count st; ttlMs := ttlMs st; cache := cache st;
     rotateHandlers := set_delete handler (rotateHandlers st) |}.
Definition clearCache (st : SecretStore) : SecretStore := with_cache st [].

(** The rest of a fetch when the providers answer one after the other. *)
Fixpoint ask_all (f : Fetch) (providers : list SecretProvider) (now : Z) (st : SecretStore) : Progress * SecretStore :=
  match providers with
  | [] => (Waiting f, st)
  | p :: providers =>
      match answer f (p (f_key f)) now st with
      | (Waiting f, st) => ask_all f providers now st
      | done => done
      end
  end.

(** [getOptional] without interruption: the time at its start and when the answer comes. *)
Definition getOptional (providers : list SecretProvider) (key : text) (now later : Z) (st : SecretStore) :
    option text * SecretStore :=
  match begin_get key now st with
  | Resolved v => (v, st)
  | Waiting f =>
      match ask_all f providers later st with
      | (Resolved v, st) => (v, st)
      | (Waiting _, st) => (None, st)
      end
  end.

Inductive secret_error : Type := SecretNotFoundError (key : list ascii).

Definition get_secret (providers : list SecretProvider) (key : text) (now later : Z) (st : SecretStore) :
    result secret_error text * SecretStore :=
  let r := getOptional providers key now later st in
  (match r.1 with Some v => Ok v | None => Throw (SecretNotFoundError key) end, r.2).
Definition has_secret (providers : list SecretProvider) (key : text) (now later : Z) (st : SecretStore) :
    bool * SecretStore :=
  let r := getOptional providers key now later st in (bool_decide (is_Some r.1), r.2).

(** [secretsProvider]: the secrets of the mapping are resolved in order. *)
Fixpoint secrets_load (providers : list SecretProvider) (required : bool) (mapping : list (text * text))
    (now : Z) (root : object) (st : SecretStore) : result secret_error object * SecretStore :=
  match mapping with
  | [] => (Ok root, st)
  | (path, secretKey) :: mapping =>
      match getOptional providers secretKey now now st with
      | (Some v, st) => secrets_load providers required mapping now (assignPath (split_on dot path) (VString v) root) st
      | (None, st) =>
          if required then (Throw (SecretNotFoundError secretKey), st)
          else secrets_load providers required mapping now root st
      end
  end.
Definition secretsProvider (providers : list SecretProvider) (required : bool) (provider_name : text)
    (mapping : list (text * text)) (now : Z) (st : SecretStore) : Loaded secret_error * SecretStore :=
  let r := secrets_load providers required mapping now [] st in
  ({| name := provider_name; load := r.1 |}, r.2).

(** ** What a resolve gives *)

(** The specification: the first provider that has the secret. *)
Fixpoint first_answer (providers : list SecretProvider) (key : text) : option text :=
  match providers with
  | [] => None
  | p :: providers => match p key with Some v => Some v | None => first_answer providers key end
  end.

Definition remember (key : text) (v : option text) (now : Z) (st : SecretStore) : SecretStore :=
  with_cache st (match v with
                 | Some v => jm_set key {| e_value := v; fetchedAt := now |} (cache st)
                 | None => jm_delete key (cache st)
                 end).

Lemma ask_all_first key now st providers : ∀ n,
  n + length providers = provider_count st → providers ≠ [] →
  ask_all {| f_key := key; asked := n |} providers now st =
  (Resolved (first_answer providers key), remember key (first_answer providers key) now st).
Proof.
  induction providers as [|p providers IH]; intros n Hn Hne; [done|].
  cbn [ask_all first_answer]. unfold answer. cbn [f_key asked]. destruct (p key) as [v|]; [done|].
  cbn [length] in Hn. destruct providers as [|p' providers].
  - cbn in Hn. destruct (Nat.ltb_spec (S n) (provider_count st)); [lia|]. done.
  - destruct (Nat.ltb_spec (S n) (provider_count st)); [|cbn in Hn; lia]. apply IH; [lia|done].
Qed.

(** A cached secret is returned as it is; otherwise the first provider that has it decides,
    and its answer, or the absence of one, replaces what the cache held. *)
Theorem getOptional_resolves providers key now later st :
  length providers = provider_count st → providers ≠ [] →
  getOptional providers key now later st =
  match cached key now st with
  | Some v => (Some v, st)
  | None => (first_answer providers key, remember key (first_answer providers key) later st)
  end.
Proof.
  intros Hl Hne. unfold getOptional, begin_get. destruct (cached key now st); [done|].
  by rewrite (ask_all_first key later st providers 0).
Qed.

(** After a rotation the next resolve asks the providers again. *)
Theorem rotate_forces_a_fetch providers key now later st r :
  length providers = provider_count st → providers ≠ [] → jm_wf (cache st) → r = None ∨ r = Some key →
  (getOptional providers key now later (rotate r st).2).1 = first_answer providers key.
Proof.
  intros Hl Hne Hwf Hr. rewrite getOptional_resolves by done.
  assert (cached key now (rotate r st).2 = None) as ->; [|done].
  unfold cached, rotate. cbn [snd cache with_cache].
  destruct Hr as [->| ->]; [done|]. by rewrite jm_get_delete_eq.
Qed.

(** A fetch that is under way when the secret is rotated puts its answer into the cache: with
    no time to live, every later resolve returns the secret of before the rotation. *)
Theorem rotation_during_a_fetch providers f old key t now later st st' :
  length providers = provider_count st → providers ≠ [] → ttlMs st = 0%Z → f_key f = key →
  (answer f (Some old) t (rotate (Some key) st).2).2 = st' →
  getOptional providers key now later st' = (Some old, st').
Proof.
  intros Hl Hne Httl Hk <-. unfold answer. cbn [snd].
  rewrite getOptional_resolves by done. unfold cached. cbn [cache with_cache ttlMs rotate snd].
  by rewrite Hk, jm_get_set_eq, Httl.
Qed.

(** A variable gives its path its value when no other variable's path runs through it. *)
Theorem env_variable_found opts env rawName rawValue path :
  (rawName, Some rawValue) ∈ env → env_path opts rawName = Some path → path ≠ [] →
  (∀ n v q, (n, Some v) ∈ env → env_path opts n = Some q →
    n = rawName ∧ v = rawValue ∨ ¬ path `prefix_of` q ∧ ¬ q `prefix_of` path) →
  navigate_segments path (VObject (env_load opts env)) = Some (VString rawValue).
Proof.
  intros Hin Hp Hne Hsep. unfold env_load. induction env as [|[n [v|]] env IH] using rev_ind.
  { by apply not_elem_of_nil in Hin. }
  - rewrite foldl_app. cbn [foldl fst snd].
    destruct (decide ((rawName, Some rawValue) ∈ env)) as [Hin'|Hni].
    + specialize (IH Hin' ltac:(intros n' v' q H; apply Hsep, elem_of_app; by left)).
      destruct (env_path opts n) as [q|] eqn:E; [|done].
      destruct (Hsep n v q ltac:(apply elem_of_app; right; by left) E) as [[-> ->]|[H1 H2]].
      * rewrite E in Hp. injection Hp as ->. by apply navigate_assign_same.
      * destruct q as [|k q]; [by destruct H2; apply prefix_nil|]. by rewrite navigate_assign_other.
    + apply elem_of_app in Hin as [Hin|[= -> ->]%list_elem_of_singleton]; [done|].
      rewrite Hp. by apply navigate_assign_same.
  - rewrite foldl_app. cbn [foldl fst snd].
    apply elem_of_app in Hin as [Hin|H%list_elem_of_singleton]; [|done].
    apply IH; [done|]. intros n' v' q H. apply Hsep, elem_of_app. by left.
Qed.

(** ** Concrete runs *)

Definition vault (v : string) : list SecretProvider := [envSecretProvider [] []; memorySecretProvider [(lit "DB", lit v)]].
Definition two_providers : SecretStore := {| provider_count := 2; ttlMs := 0; cache := []; rotateHandlers := [] |}.

Lemma rotate_forces_a_fetch_witness :
  (getOptional (vault "new") (lit "DB") 5 6 (rotate (Some (lit "DB")) (getOptional (vault "old") (lit "DB") 1 2 two_providers).2).2).1 =
  Some (lit "new").
Proof.
  apply (rotate_forces_a_fetch (vault "new") (lit "DB") 5 6
    (getOptional (vault "old") (lit "DB") 1 2 two_providers).2 (Some (lit "DB"))).
  - reflexivity.
  - discriminate.
  - apply (bool_decide_unpack _). vm_compute. exact I.
  - right. reflexivity.
Defined.

(** The provider had been asked before the rotation; it answers after it. *)
Lemma rotation_during_a_fetch_witness : ∃ st',
  (answer {| f_key := lit "DB"; asked := 1 |} (Some (lit "old")) 3 (rotate (Some (lit "DB")) two_providers).2).2 = st' ∧
  (getOptional (vault "new") (lit "DB") 1000 1001 st').1 = Some (lit "old").
Proof.
  eexists. split; [reflexivity|].
  pose proof (rotation_during_a_fetch (vault "new") {| f_key := lit "DB"; asked := 1 |} (lit "old") (lit "DB") 3 1000 1001
    two_providers _ eq_refl ltac:(discriminate) eq_refl eq_refl eq_refl) as E.
  exact (f_equal fst E).
Defined.

Lemma env_variable_found_witness :
  navigate_segments [lit "database"; lit "poolSize"]
    (VObject (env_load default_env_options
      [(lit "PATH", Some (lit "/bin")); (lit "DATABASE__POOL_SIZE", Some (lit "20")); (lit "DATABASE__URL", Some (lit "u"))])) =
  Some (VString (lit "20")).
Proof.
  apply (env_variable_found default_env_options _ (lit "DATABASE__POOL_SIZE")).
  - right. left.
  - vm_compute. reflexivity.
  - discriminate.
  - intros n v q Hin E. repeat (apply elem_of_cons in Hin as [H|Hin]; [injection H as -> ->; vm_compute in E;
      injection E as <-; first [left; split; reflexivity|right; apply (bool_decide_unpack _); vm_compute; exact I]|]).
    destruct (not_elem_of_nil _ Hin).
Defined.
