(* ===== verification/ConfigToml.v ===== *)
(** * The TOML subset of the configuration files

    Models [parseToml] of src/packages/config/src/provider.ts: comments, table headers,
    dotted keys, strings, numbers, single-line arrays and inline tables.  [current] is the
    path of the table that the last header opened: no statement replaces that table itself,
    so the path and the reference of the code name the same object.  [OutOfFuel] is not an
    error of the parser: [parseTomlValue_total] shows that it never comes out; [WideUnit]
    stands for an escape of a code unit above 255, which the texts here do not have. *)

From Stdlib Require Import Ascii String SpecFloat.
From S2P Require Import Prelude JsText JsNumber JsMap ConfigValue ConfigValidator.

Open Scope nat_scope.

Inductive toml_error : Type :=
| TomlError (message : list ascii)
| WideUnit
| OutOfFuel.

Definition at_line {A} (n : nat) (what : string) (detail : text) : result toml_error A :=
  Throw (TomlError (lit "line " ++ show (Z.of_nat n) ++ lit ": " ++ lit what ++ detail)).

Definition dq : ascii := ascii_of_nat 34.
Definition sq : ascii := ascii_of_nat 39.
Definition newline : ascii := ascii_of_nat 10.
Definition is_quote (c : ascii) : bool := bool_decide (c = dq) || bool_decide (c = sq).

(** ** Scanning *)

(** The quote that is open after a character. *)
Definition next_quote (inStr : option ascii) (c : ascii) : option ascii :=
  match inStr with
  | Some q => if decide (c = q) then None else Some q
  | None => if is_quote c then Some c else None
  end.

Fixpoint strip_from (inStr : option ascii) (l : text) : text :=
  match l with
  | [] => []
  | c :: l =>
      match inStr with
      | None => if decide (c = "#"%char) then [] else c :: strip_from (next_quote None c) l
      | q => c :: strip_from (next_quote q c) l
      end
  end.
Definition stripComment (line : text) : text := strip_from None line.

Fixpoint equals_from (inStr : option ascii) (l : text) : option nat :=
  match l with
  | [] => None
  | c :: l =>
      match inStr with
      | None => if decide (c = "="%char) then Some 0 else S <$> equals_from (next_quote None c) l
      | q => S <$> equals_from (next_quote q c) l
      end
  end.
Definition findTopLevelEquals (line : text) : option nat := equals_from None line.

(** The characters before the first that satisfies [stop], and the rest with it. *)
Fixpoint span_until (stop : ascii → bool) (l : text) : text * text :=
  match l with
  | c :: l' => if stop c then ([], l) else let r := span_until stop l' in (c :: r.1, r.2)
  | [] => ([], [])
  end.

(** ** Keys *)

Fixpoint skip_dots (l : text) : text :=
  match l with
  | c :: l' => if decide (c = " "%char ∨ c = dot) then skip_dots l' else l
  | [] => []
  end.

Fixpoint key_parts (fuel : nat) (key l : text) : result toml_error (list text) :=
  match fuel with
  | O => Throw OutOfFuel
  | S fuel =>
      match l with
      | [] => Ok []
      | c :: l' =>
          if is_quote c then
            let '(part, rest) := span_until (λ d, bool_decide (d = c)) l' in
            cons part <$> key_parts fuel key (skip_dots (tail rest))
          else
            let '(part, rest) := span_until (λ d, bool_decide (d = dot)) l in
            match trim part with
            | [] => Throw (TomlError (lit "empty key segment in " ++ [dq] ++ key ++ [dq]))
            | seg => cons seg <$> key_parts fuel key (tail rest)
            end
      end
  end.
Definition splitDottedKey (key : text) : result toml_error (list text) :=
  parts ← key_parts (S (length key)) key key;
  match parts with [] => Throw (TomlError (lit "empty key")) | _ => Ok parts end.

(** [descend(node, path)], then [f] on the table that is there. *)
Fixpoint at_table (path : list text) (f : object → object) (node : object) : result toml_error object :=
  match path with
  | [] => Ok (f node)
  | key :: path =>
      match jm_get key node with
      | None => (λ m, jm_set key (VObject m) node) <$> at_table path f []
      | Some (VObject child) => (λ m, jm_set key (VObject m) node) <$> at_table path f child
      | Some _ => Throw (TomlError (lit "key " ++ [dq] ++ key ++ [dq] ++ lit " is already defined as a non-table value"))
      end
  end.
Definition descend (path : list text) (node : object) : result toml_error object := at_table path id node.

(** [descend(node, path.slice(0, -1))[path[path.length - 1]] = value]. *)
Definition assign_key (path : list text) (v : value) (node : object) : result toml_error object :=
  at_table (removelast path) (jm_set (List.last path []) v) node.

(** ** Strings and scalars *)

Definition hex_digit (c : ascii) : bool := match hex_val c with Some _ => true | None => false end.

(** [parseInt(l, 16)] as the code unit of [String.fromCharCode]: [NaN] is 0. *)
Definition hex_unit (l : text) : Z :=
  let '(s, l) := signed (drop_spaces l) in
  let l := match l with
           | "0"%char :: c :: l' => if decide (lower c = "x"%char) then l' else l
           | _ => l
           end in
  let digits := (span_until (λ c, negb (hex_digit c)) l).1 in
  let n := default 0%Z (radix_digits 16 0 digits) in
  ((if s then - n else n) mod 65536)%Z.

Definition ESCAPES : list (ascii * ascii) :=
  [("n"%char, newline); ("t"%char, ascii_of_nat 9); ("r"%char, ascii_of_nat 13); (dq, dq);
   ("\"%char, "\"%char); ("0"%char, zero)].

(** The rest of a string behind its opening quote: its text and what follows. *)
Fixpoint string_body (fuel : nat) (quote : ascii) (l : text) (lineNo : nat) : result toml_error (text * text) :=
  match fuel with
  | O => Throw OutOfFuel
  | S fuel =>
      let push c l := (λ r, (c :: r.1, r.2)) <$> string_body fuel quote l lineNo in
      match l with
      | [] => at_line lineNo "unterminated string" []
      | c :: l' =>
          if decide (c = quote) then Ok ([], l')
          else if decide (quote ≠ sq ∧ c = "\"%char) then
            match l' with
            | e :: l'' =>
                if decide (e = "u"%char) then
                  let u := hex_unit (take 4 l'') in
                  if (u <? 256)%Z then push (ascii_of_N (Z.to_N u)) (drop 4 l'') else Throw WideUnit
                else match jm_get e ESCAPES with Some d => push d l'' | None => push c l' end
            | [] => push c l'
            end
          else push c l'
      end
  end.
Definition readTomlString (s : text) (lineNo : nat) : result toml_error (text * text) :=
  match s with
  | [] => at_line lineNo "unterminated string" []
  | quote :: l => string_body (S (length l)) quote l lineNo
  end.

Definition parseTomlScalar (token : text) (lineNo : nat) : result toml_error value :=
  if decide (token = lit "true") then Ok (VBool true)
  else if decide (token = lit "false") then Ok (VBool false)
  else
    let '(s, l) := signed (filter (λ c, c ≠ "_"%char) token) in
    let number := if all_digits l then Some (of_Z (digits_value l)) else decimal_literal l in
    match number with
    | Some x => Ok (VNumber (if s then neg x else x))
    | None => at_line lineNo "invalid value " ([dq] ++ token ++ [dq])
    end.

(** ** Values *)

Definition ends_scalar (c : ascii) : bool :=
  bool_decide (c = ","%char) || bool_decide (c = "]"%char) || bool_decide (c = "}"%char).

Definition starts (c : ascii) (l : text) : bool := bool_decide (head l = Some c).

(** The three parsers with their loops: a value; the items of an array; the entries of an
    inline table. *)
Fixpoint parse_value (fuel : nat) (str : text) (lineNo : nat) : result toml_error (value * text) :=
  match fuel with
  | O => Throw OutOfFuel
  | S fuel =>
      match drop_spaces str with
      | [] => at_line lineNo "missing value" []
      | (c :: l) as s =>
          if is_quote c then (λ r, (VString r.1, r.2)) <$> readTomlString s lineNo
          else if decide (c = "["%char) then
            let rest := drop_spaces l in
            if starts "]"%char rest then Ok (VArray [], tail rest)
            else (λ r, (VArray r.1, r.2)) <$> parse_items fuel rest lineNo
          else if decide (c = "{"%char) then
            let rest := drop_spaces l in
            if starts "}"%char rest then Ok (VObject [], tail rest)
            else (λ r, (VObject r.1, r.2)) <$> parse_entries fuel rest [] lineNo
          else
            let '(token, rest) := span_until ends_scalar s in
            (λ v, (v, rest)) <$> parseTomlScalar (trim token) lineNo
      end
  end
with parse_items (fuel : nat) (rest : text) (lineNo : nat) : result toml_error (list value * text) :=
  match fuel with
  | O => Throw OutOfFuel
  | S fuel =>
      match parse_value fuel rest lineNo with
      | Throw e => Throw e
      | Ok (v, after) =>
          let rest := drop_spaces after in
          if starts ","%char rest then
            let rest := drop_spaces (tail rest) in
            if starts "]"%char rest then Ok ([v], tail rest)
            else (λ r, (v :: r.1, r.2)) <$> parse_items fuel rest lineNo
          else if starts "]"%char rest then Ok ([v], tail rest)
          else at_line lineNo "malformed array" []
      end
  end
with parse_entries (fuel : nat) (rest : text) (obj : object) (lineNo : nat) : result toml_error (object * text) :=
  match fuel with
  | O => Throw OutOfFuel
  | S fuel =>
      match findTopLevelEquals rest with
      | None => at_line lineNo "malformed inline table" []
      | Some eq =>
          match splitDottedKey (trim (take eq rest)) with
          | Throw e => Throw e
          | Ok key =>
              match parse_value fuel (drop (S eq) rest) lineNo with
              | Throw e => Throw e
              | Ok (v, after) =>
                  match assign_key key v obj with
                  | Throw e => Throw e
                  | Ok obj =>
                      let rest := drop_spaces after in
                      if starts ","%char rest then parse_entries fuel (drop_spaces (tail rest)) obj lineNo
                      else if starts "}"%char rest then Ok (obj, tail rest)
                      else at_line lineNo "malformed inline table" []
                  end
              end
          end
      end
  end.

Definition value_fuel (str : text) : nat := 2 * length str + 1.
Definition parseTomlValue (str : text) (lineNo : nat) : result toml_error (value * text) :=
  parse_value (value_fuel str) str lineNo.

(** ** Documents *)

(** [[table]], behind the opening bracket. *)
Definition parse_header (root : object) (n : nat) (l : text) : result toml_error (list text * object) :=
  match indexOf "]"%char l with
  | None => at_line n "unterminated table header" []
  | Some close =>
      path ← splitDottedKey (trim (take close l));
      root ← descend path root;
      Ok (path, root)
  end.

(** [key = value], in the current table. *)
Definition parse_assignment (current : list text) (root : object) (n : nat) (line : text) :
    result toml_error (list text * object) :=
  match findTopLevelEquals line with
  | None => at_line n "expected key = value" []
  | Some eq =>
      keyPath ← splitDottedKey (trim (take eq line));
      root ← descend (current ++ removelast keyPath) root;
      r ← parseTomlValue (trim (drop (S eq) line)) n;
      match trim r.2 with
      | [] => root ← assign_key (current ++ keyPath) r.1 root; Ok (current, root)
      | extra => at_line n "trailing characters after value: " ([dq] ++ extra ++ [dq])
      end
  end.

(** One line: the path of the current table and the root. *)
Definition parse_line (st : list text * object) (n : nat) (raw : text) : result toml_error (list text * object) :=
  let line := trim (stripComment raw) in
  if decide (line = []) then Ok st
  else if is_prefix (lit "[[") line then at_line n "arrays of tables ([[...]]) are not supported" []
  else if starts "["%char line then parse_header st.2 n (tail line)
  else parse_assignment st.1 st.2 n line.

Fixpoint parse_lines (st : list text * object) (n : nat) (lines : list text) : result toml_error (list text * object) :=
  match lines with
  | [] => Ok st
  | line :: lines => st ← parse_line st n line; parse_lines st (S n) lines
  end.

(** [text.split(/\r?\n/)]. *)
Definition drop_cr (line : text) : text :=
  match reverse line with
  | c :: l => if decide (c = ascii_of_nat 13) then reverse l else line
  | [] => line
  end.
Fixpoint split_lines (parts : list text) : list text :=
  match parts with
  | [] => []
  | [last] => [last]
  | part :: parts => drop_cr part :: split_lines parts
  end.

Definition parseToml (input : text) : result toml_error object :=
  snd <$> parse_lines ([], []) 1 (split_lines (split_on newline input)).

Example toml_document :
  parseToml (lit "port = 8_080 # http
[database.pool]
'max size' = +5
hosts = ['a', { x.y = true, z = [] }, ]") =
  Ok [ (lit "port", VNumber (of_Z 8080))
     ; (lit "database", VObject [(lit "pool", VObject
         [ (lit "max size", VNumber (of_Z 5))
         ; (lit "hosts", VArray [VString (lit "a"); VObject [(lit "x", VObject [(lit "y", VBool true)]); (lit "z", VArray [])]]) ])]) ].
Proof. vm_compute. reflexivity. Qed.

(** ** The fuel is enough *)

(** A parser leaves less than [bound] characters, or fails as the code does. *)
Definition progress {A} (bound : nat) (r : result toml_error (A * text)) : Prop :=
  match r with
  | Ok (_, rest) => length rest < bound
  | Throw OutOfFuel => False
  | Throw _ => True
  end.

Lemma progress_fmap {A B} bound bound' (g : A * text → B * text) (r : result toml_error (A * text)) :
  progress bound r → (∀ a rest, length rest < bound → length (g (a, rest)).2 < bound') → progress bound' (g <$> r).
Proof.
  destruct r as [[a rest]|[]]; cbn; try done. intros H Hg. specialize (Hg a rest H).
  by destruct (g (a, rest)).
Qed.

Lemma drop_spaces_length l : length (drop_spaces l) <= length l.
Proof. destruct (drop_spaces_suffix l) as [k Hk]. apply (f_equal length) in Hk. rewrite length_app in Hk. lia. Qed.

Lemma span_until_app stop l : (span_until stop l).1 ++ (span_until stop l).2 = l.
Proof. induction l as [|c l IH]; cbn; [done|]. destruct (stop c); cbn; [done|]. by rewrite IH. Qed.

Lemma span_until_length stop l : length (span_until stop l).2 <= length l.
Proof.
  pose proof (f_equal length (span_until_app stop l)) as H. rewrite length_app in H. lia.
Qed.

Lemma skip_dots_length l : length (skip_dots l) <= length l.
Proof. induction l as [|c l IH]; cbn; [done|]. case_decide; cbn; lia. Qed.

Lemma tail_length {A} (l : list A) : length (tail l) <= length l.
Proof. destruct l; cbn; lia. Qed.

Lemma trim_nil : trim [] = [].
Proof. reflexivity. Qed.

Lemma key_parts_total key fuel : ∀ l, length l < fuel → key_parts fuel key l ≠ Throw OutOfFuel.
Proof.
  induction fuel as [|fuel IH]; intros l Hl; [lia|]. destruct l as [|c l]; [done|].
  assert (∀ (g : text → text) seg rest, length (g rest) < fuel →
    cons (A:=text) seg <$> key_parts fuel key (g rest) ≠ Throw OutOfFuel) as Hrec.
  { intros g seg rest H. specialize (IH (g rest) H). destruct (key_parts fuel key (g rest)) as [|[]]; done. }
  cbn [key_parts]. cbn in Hl. destruct (is_quote c).
  - pose proof (span_until_length (λ d, bool_decide (d = c)) l) as Hs.
    destruct (span_until _ l) as [p rest]. cbn in Hs. apply (Hrec (λ r, skip_dots (tail r))).
    pose proof (skip_dots_length (tail rest)). pose proof (tail_length rest). lia.
  - pose proof (span_until_length (λ d, bool_decide (d = dot)) (c :: l)) as Hs.
    pose proof (span_until_app (λ d, bool_decide (d = dot)) (c :: l)) as Ha.
    destruct (span_until _ (c :: l)) as [p rest]. cbn [fst snd] in *.
    destruct (trim p) as [|x seg] eqn:E; [done|]. apply (Hrec tail).
    destruct p as [|y p]; [done|]. apply (f_equal length) in Ha. cbn in Ha. rewrite length_app in Ha.
    pose proof (tail_length rest). lia.
Qed.

Lemma splitDottedKey_total key : splitDottedKey key ≠ Throw OutOfFuel.
Proof.
  unfold splitDottedKey. pose proof (key_parts_total key (S (length key)) key ltac:(lia)).
  destruct (key_parts _ _ _) as [[]|[]]; done.
Qed.

Lemma at_table_total path f : ∀ node, at_table path f node ≠ Throw OutOfFuel.
Proof.
  induction path as [|k path IH]; intros node; [done|]. cbn [at_table].
  destruct (jm_get k node) as [[| | | | | |m]|]; try done.
  - specialize (IH m). by destruct (at_table path f m) as [|[]].
  - specialize (IH []). by destruct (at_table path f []) as [|[]].
Qed.

Lemma string_body_progress fuel : ∀ quote l n, length l < fuel → progress (length l) (string_body fuel quote l n).
Proof.
  induction fuel as [|fuel IH]; intros quote l n Hl; [lia|]. cbn [string_body].
  destruct l as [|c l]; [done|]. cbn in Hl.
  assert (∀ d l', length l' <= length l →
    progress (length (c :: l)) ((λ r, (d :: r.1, r.2)) <$> string_body fuel quote l' n)) as Hpush.
  { intros d l' Hl'. eapply progress_fmap; [apply IH; lia|]. intros a rest H. cbn. lia. }
  case_decide; [cbn; lia|]. case_decide; [|by apply Hpush].
  destruct l as [|e l]; [by apply Hpush|].
  case_decide.
  - cbn zeta. destruct (_ <? 256)%Z; [|done]. apply Hpush. rewrite length_drop. cbn. lia.
  - destruct (jm_get e ESCAPES); apply Hpush; cbn; lia.
Qed.

Lemma readTomlString_progress c l n : progress (length (c :: l)) (readTomlString (c :: l) n).
Proof.
  cbn [readTomlString]. pose proof (string_body_progress (S (length l)) c l n ltac:(lia)) as H.
  destruct (string_body _ _ _ _) as [[]|[]]; cbn in *; try done. lia.
Qed.

Lemma parseTomlScalar_total token n :
  parseTomlScalar token n ≠ Throw OutOfFuel ∧ (∀ v, parseTomlScalar [] n ≠ Ok v).
Proof.
  split; [|done]. unfold parseTomlScalar. repeat case_decide; try done.
  destruct (signed _) as [s l]. by destruct (if all_digits l then _ else _).
Qed.

Lemma starts_length c l : starts c l = true → length l = S (length (tail l)).
Proof. unfold starts. destruct l; [done|]. done. Qed.

Lemma at_line_progress {A} bound n what detail : progress bound (@at_line (A * text) n what detail).
Proof. done. Qed.

(** Every parser of values ends within a fuel linear in the text, having read something. *)
Lemma parse_progress fuel :
  (∀ str n, value_fuel str <= fuel → progress (length str) (parse_value fuel str n)) ∧
  (∀ rest n, S (value_fuel rest) <= fuel → progress (length rest) (parse_items fuel rest n)) ∧
  (∀ rest obj n, S (value_fuel rest) <= fuel → progress (length rest) (parse_entries fuel rest obj n)).
Proof.
  unfold value_fuel. induction fuel as [|fuel (IHv & IHi & IHe)]; [split_and!; intros; lia|]. split_and!.
  - intros str n Hf. cbn [parse_value]. pose proof (drop_spaces_length str) as Hs.
    destruct (drop_spaces str) as [|c l]; [done|]. cbn in Hs.
    pose proof (drop_spaces_length l) as Hl. pose proof (tail_length (drop_spaces l)) as Ht.
    destruct (is_quote c).
    { eapply progress_fmap; [apply readTomlString_progress|]. cbn. lia. }
    case_decide; [|case_decide].
    + destruct (starts _ _) eqn:E; [cbn; lia|]. eapply progress_fmap; [apply IHi; lia|]. cbn. lia.
    + destruct (starts _ _) eqn:E; [cbn; lia|]. eapply progress_fmap; [apply IHe; lia|]. cbn. lia.
    + pose proof (span_until_app ends_scalar (c :: l)) as Ha.
      destruct (span_until ends_scalar (c :: l)) as [token rest]. cbn [fst snd] in Ha.
      destruct (parseTomlScalar_total (trim token) n) as [Ht1 Ht2].
      destruct (parseTomlScalar (trim token) n) as [v|[]] eqn:E; cbn; try done.
      destruct token as [|x token]; [by apply Ht2 in E|].
      apply (f_equal length) in Ha. cbn in Ha. rewrite length_app in Ha. lia.
  - intros rest n Hf. cbn [parse_items]. specialize (IHv rest n ltac:(lia)).
    destruct (parse_value fuel rest n) as [[v after]|[]]; cbn in IHv; try done.
    pose proof (drop_spaces_length after) as H1. pose proof (drop_spaces_length (tail (drop_spaces after))) as H2.
    pose proof (tail_length (drop_spaces (tail (drop_spaces after)))) as H3. cbn zeta.
    pose proof (tail_length (drop_spaces after)) as H4.
    destruct (starts ","%char _).
    + destruct (starts "]"%char _); [cbn; lia|]. eapply progress_fmap; [apply IHi; lia|]. cbn. lia.
    + destruct (starts "]"%char _); [cbn; lia|done].
  - intros rest obj n Hf. cbn [parse_entries]. destruct (findTopLevelEquals rest) as [eq|]; [|done].
    pose proof (splitDottedKey_total (trim (take eq rest))) as Hk.
    destruct (splitDottedKey _) as [key|[]]; try done.
    assert (length (drop (S eq) rest) <= length rest) as Hd by (rewrite length_drop; lia).
    specialize (IHv (drop (S eq) rest) n ltac:(lia)).
    destruct (parse_value fuel _ n) as [[v after]|[]]; cbn in IHv; try done.
    pose proof (at_table_total (removelast key) (jm_set (List.last key []) v) obj) as Ha.
    unfold assign_key. destruct (at_table _ _ obj) as [obj'|[]]; try done. cbn zeta.
    pose proof (drop_spaces_length after) as H1. pose proof (drop_spaces_length (tail (drop_spaces after))) as H2.
    pose proof (tail_length (drop_spaces after)) as H4.
    destruct (starts ","%char _).
    + assert (progress (length (drop_spaces (tail (drop_spaces after))))
        (parse_entries fuel (drop_spaces (tail (drop_spaces after))) obj' n)) as Hp by (apply IHe; lia).
      destruct (parse_entries _ _ _ _) as [[]|[]]; cbn in *; try done. lia.
    + destruct (starts "}"%char _); [cbn; lia|done].
Qed.

Theorem parseTomlValue_total str n : progress (length str) (parseTomlValue str n).
Proof. apply parse_progress. done. Qed.

Lemma parse_header_total root n l : parse_header root n l ≠ Throw OutOfFuel.
Proof.
  unfold parse_header. destruct (indexOf "]"%char l) as [close|]; [|done].
  pose proof (splitDottedKey_total (trim (take close l))) as Hk.
  destruct (splitDottedKey _) as [key|[]]; try done. cbn [mbind result_bind].
  pose proof (at_table_total key id root) as Hd. unfold descend. by destruct (at_table key id root) as [|[]].
Qed.

Lemma parse_assignment_total current root n line : parse_assignment current root n line ≠ Throw OutOfFuel.
Proof.
  unfold parse_assignment. destruct (findTopLevelEquals line) as [eq|]; [|done].
  pose proof (splitDottedKey_total (trim (take eq line))) as Hk.
  destruct (splitDottedKey _) as [key|[]]; try done. cbn [mbind result_bind].
  pose proof (at_table_total (current ++ removelast key) id root) as Hd. unfold descend.
  destruct (at_table _ id root) as [root'|[]]; try done. cbn [mbind result_bind].
  destruct (parse_progress (value_fuel (trim (drop (S eq) line)))) as (Hv & _).
  specialize (Hv (trim (drop (S eq) line)) n ltac:(done)). unfold parseTomlValue.
  destruct (parse_value _ _ n) as [[v rest]|[]]; try done. cbn [mbind result_bind fst snd].
  destruct (trim rest); [|done]. unfold assign_key.
  pose proof (at_table_total (removelast (current ++ key)) (jm_set (List.last (current ++ key) []) v) root') as Ha.
  by destruct (at_table _ _ root') as [|[]].
Qed.

(** The parser of documents returns an object or throws an error of the code. *)
Lemma parse_line_total st n raw : parse_line st n raw ≠ Throw OutOfFuel.
Proof.
  unfold parse_line. case_decide; [done|]. destruct (is_prefix _ _); [done|].
  destruct (starts _ _); [apply parse_header_total|apply parse_assignment_total].
Qed.

Theorem parseToml_total input : parseToml input ≠ Throw OutOfFuel.
Proof.
  unfold parseToml. generalize 1, (@nil text, @nil (text * value)).
  induction (split_lines (split_on newline input)) as [|line lines IH]; intros n st; [done|].
  cbn [parse_lines]. pose proof (parse_line_total st n line) as Hl.
  destruct (parse_line st n line) as [st'|[]]; [apply IH|done..].
Qed.
