(* ===== verification/ConfigTomlPrint.v ===== *)
(** * Printing TOML: what a printed document is read as

    A printer for documents of tables with strings, booleans, integers and arrays, and the
    round trip through [parseToml].  A double quote in a string is printed by its code point:
    with a quote behind a backslash the parser does not find the end of a comment, as
    [comment_after_escaped_quote] shows. *)

From Stdlib Require Import Ascii String SpecFloat.
From S2P Require Import Prelude JsText JsNumber JsMap ConfigValue ConfigValidator ConfigToml.

Open Scope nat_scope.

(** ** The printer *)

Unset Elimination Schemes.
Inductive toml : Type :=
| TString (s : list ascii)
| TBool (b : bool)
| TInt (n : Z)
| TArray (items : list toml).
Set Elimination Schemes.

Lemma toml_ind (P : toml → Prop) :
  (∀ s, P (TString s)) → (∀ b, P (TBool b)) → (∀ n, P (TInt n)) →
  (∀ items, Forall P items → P (TArray items)) → ∀ v, P v.
Proof.
  intros Hs Hb Hn Ha. fix F 1. intros [s|b|n|items]; [done..|]. apply Ha.
  induction items; constructor; [apply F|done].
Qed.

Fixpoint inject (v : toml) : value :=
  match v with
  | TString s => VString s
  | TBool b => VBool b
  | TInt n => VNumber (of_Z n)
  | TArray items => VArray (inject <$> items)
  end.

Definition carriage_return : ascii := ascii_of_nat 13.
Definition escape (c : ascii) : text :=
  if decide (c = dq) then lit "\u0022"
  else if decide (c = "\"%char) then lit "\\"
  else if decide (c = newline) then lit "\n"
  else if decide (c = carriage_return) then lit "\r" else [c].
Definition print_string (s : text) : text := dq :: concat (escape <$> s) ++ [dq].

Definition print_int (n : Z) : text := if (n <? 0)%Z then "-"%char :: show (- n) else show n.

Fixpoint print_value (v : toml) : text :=
  match v with
  | TString s => print_string s
  | TBool b => if b then lit "true" else lit "false"
  | TInt n => print_int n
  | TArray items => "["%char :: join_text (lit ", ") (print_value <$> items) ++ ["]"%char]
  end.

(** A bare key. *)
Definition bare_char (c : ascii) : bool := is_letter c || is_digit c || bool_decide (c = "-"%char) || bool_decide (c = "_"%char).
Definition bare_key (k : text) : Prop := k ≠ [] ∧ Forall (λ c, bare_char c = true) k.

Definition print_entry (e : text * toml) : text := e.1 ++ lit " = " ++ print_value e.2.

Record Document : Type := {
  top : list (list ascii * toml);
  tables : list (list ascii * list (list ascii * toml))
}.
Definition print_table (t : text * list (text * toml)) : list text :=
  ("["%char :: t.1 ++ ["]"%char]) :: (print_entry <$> t.2).
Definition print_document (d : Document) : text :=
  join_text [newline] ((print_entry <$> top d) ++ concat (print_table <$> tables d)).

Definition inject_entries (es : list (text * toml)) : object := (λ e, (e.1, inject e.2)) <$> es.
Definition document_object (d : Document) : object :=
  inject_entries (top d) ++ ((λ t, (t.1, VObject (inject_entries t.2))) <$> tables d).

Definition entries_ok (es : list (text * toml)) : Prop :=
  NoDup es.*1 ∧ Forall (λ e, bare_key e.1) es.
Definition document_ok (d : Document) : Prop :=
  entries_ok (top d) ∧ NoDup ((top d).*1 ++ (tables d).*1) ∧
  Forall (λ t, bare_key t.1 ∧ entries_ok t.2) (tables d).

(** ** Values *)

(** What may follow a value: nothing, or a character that ends a scalar. *)
Definition follows (rest : text) : Prop := match rest with [] => True | c :: _ => ends_scalar c = true end.

Lemma span_until_stop stop l rest :
  Forall (λ c, stop c = false) l → match rest with [] => True | c :: _ => stop c = true end →
  span_until stop (l ++ rest) = (l, rest).
Proof.
  intros Hl Hr. induction Hl as [|c l Hc _ IH]; cbn.
  - destruct rest as [|c rest]; cbn; [done|]. by rewrite Hr.
  - by rewrite Hc, IH.
Qed.

(** The characters of a printed integer. *)
Definition int_char (c : ascii) : bool := is_digit c || bool_decide (c = "-"%char).
Lemma int_char_facts c : int_char c = true →
  ends_scalar c = false ∧ is_quote c = false ∧ is_space c = false ∧ c ≠ "["%char ∧ c ≠ "{"%char ∧
  c ≠ "]"%char ∧ c ≠ "_"%char ∧ c ≠ "#"%char ∧ c ≠ "t"%char ∧ c ≠ "f"%char ∧ c ≠ newline ∧ c ≠ carriage_return.
Proof. destruct c as [[] [] [] [] [] [] [] []]; try done; by split_and!. Qed.

Lemma print_int_chars n : Forall (λ c, int_char c = true) (print_int n) ∧ print_int n ≠ [].
Proof.
  unfold print_int. destruct (Z.ltb_spec n 0) as [Hn|Hn].
  - destruct (show_digits (- n)) as [Hd _]; [lia|]. split; [|done]. constructor; [done|].
    eapply Forall_impl; [exact Hd|]. intros c Hc. unfold int_char. by rewrite Hc.
  - destruct (show_digits n Hn) as [Hd Hne]. split; [|done].
    eapply Forall_impl; [exact Hd|]. intros c Hc. unfold int_char. by rewrite Hc.
Qed.

(** One printed character. *)
Lemma string_body_escape c fuel l n :
  string_body (S fuel) dq (escape c ++ l) n = (λ r, (c :: r.1, r.2)) <$> string_body fuel dq l n.
Proof.
  unfold escape. destruct (decide (c = dq)) as [->|Hc]; [by destruct l|].
  destruct (decide (c = "\"%char)) as [->|Hb]; [done|].
  destruct (decide (c = newline)) as [->|Hnl]; [done|].
  destruct (decide (c = carriage_return)) as [->|Hcr]; [done|].
  cbn [app string_body]. rewrite decide_False by done.
  by rewrite decide_False by (by intros [_ ?]).
Qed.

Lemma escape_nonempty c : escape c ≠ [].
Proof. unfold escape. by repeat case_decide. Qed.

Lemma string_body_print s rest n : ∀ fuel,
  length (concat (escape <$> s) ++ dq :: rest) < fuel →
  string_body fuel dq (concat (escape <$> s) ++ dq :: rest) n = Ok (s, rest).
Proof.
  induction s as [|c s IH]; intros fuel Hf; (destruct fuel as [|fuel]; [cbn in Hf; lia|]).
  { cbn [fmap list_fmap concat app string_body]. by rewrite decide_True. }
  rewrite fmap_cons in Hf |- *. cbn [concat] in Hf |- *.
  rewrite <-(assoc_L (++)), length_app in Hf. rewrite <-(assoc_L (++)).
  rewrite string_body_escape.
  pose proof (escape_nonempty c). destruct (escape c); [done|]. cbn in Hf.
  by rewrite IH by (done || lia).
Qed.

(** The first character of a printed value. *)
Lemma print_value_head v :
  ∃ c l, print_value v = c :: l ∧ is_space c = false ∧ c ≠ "]"%char ∧ c ≠ ","%char.
Proof.
  destruct v as [s|[]|n|items]; cbn [print_value]; try by eexists _, _.
  destruct (print_int_chars n) as [Hd Hne]. destruct Hd as [|c l Hc _]; [done|].
  exists c, l. apply int_char_facts in Hc as (He & ? & ? & ? & ? & ? & _). split_and!; try done. by intros ->.
Qed.

Lemma trim_no_space l : Forall (λ c, is_space c = false) l → trim l = l.
Proof.
  intros Hl. apply trim_id; [by destruct Hl|].
  assert (Forall (λ c, is_space c = false) (reverse l)) as Hr by by apply Forall_reverse. by destruct Hr.
Qed.

Lemma parse_scalar_print fuel token rest n v :
  Forall (λ c, ends_scalar c = false) token → follows rest → trim token = token →
  match token with [] => False | c :: _ => is_space c = false ∧ is_quote c = false ∧ c ≠ "["%char ∧ c ≠ "{"%char end →
  parseTomlScalar token n = Ok v → parse_value (S fuel) (token ++ rest) n = Ok (v, rest).
Proof.
  intros Hl Hr Ht Hh Hv. destruct token as [|c l]; [done|]. destruct Hh as (H1 & H2 & H3 & H4).
  cbn [parse_value]. rewrite drop_spaces_id by done. cbn [app]. rewrite H2, !decide_False by done.
  rewrite app_comm_cons, (span_until_stop _ _ _ Hl Hr). by rewrite Ht, Hv.
Qed.

Lemma all_digits_true l : Forall (λ c, is_digit c = true) l → l ≠ [] → all_digits l = true.
Proof.
  intros Hd Hne. unfold all_digits. rewrite bool_decide_true by done. clear Hne. cbn [andb].
  induction Hd as [|c l Hc _ IH]; [done|]. cbn. by rewrite Hc.
Qed.

Lemma signed_digits l : Forall (λ c, is_digit c = true) l → signed l = (false, l).
Proof. intros Hd. destruct Hd as [|c l Hc _]; [done|]. destruct c as [[] [] [] [] [] [] [] []]; done. Qed.

Lemma of_Z_opp n : (0 < n)%Z → of_Z (- n) = neg (of_Z n).
Proof.
  intros Hn. destruct n as [|p|p]; [lia| |lia].
  change (binary_round prec emax true p 0 = SFopp (binary_round prec emax false p 0)).
  unfold binary_round. destruct (shl_align p 0 _) as [mz ez]. unfold binary_round_aux.
  destruct (shr_fexp _ _ (Zpos mz) _ _) as [mrs e]. destruct (shr_fexp _ _ _ e _) as [mrs' e'].
  destruct (shr_m mrs'); try reflexivity. destruct (e' <=? _)%Z; reflexivity.
Qed.

Lemma int_char_head c l : int_char c = true → c :: l ≠ lit "true" ∧ c :: l ≠ lit "false".
Proof. intros (_ & _ & _ & _ & _ & _ & _ & _ & Ht & Hf & _)%int_char_facts. by split; intros [= ??]. Qed.

Lemma parseTomlScalar_int n m : parseTomlScalar (print_int n) m = Ok (VNumber (of_Z n)).
Proof.
  destruct (print_int_chars n) as [Hc Hne]. unfold parseTomlScalar.
  assert (print_int n ≠ lit "true" ∧ print_int n ≠ lit "false") as [H1 H2].
  { destruct Hc as [|c l Hc _]; [done|]. by apply int_char_head. }
  rewrite !decide_False by done. rewrite filter_all
    by (eapply Forall_impl; [exact Hc|]; intros c (_ & _ & _ & _ & _ & _ & Hu & _)%int_char_facts; done).
  clear Hc Hne H1 H2. unfold print_int. destruct (Z.ltb_spec n 0) as [Hn|Hn].
  - destruct (show_digits (- n)) as [Hd Hne]; [lia|]. cbn [signed].
    rewrite all_digits_true, show_value by (done || lia). by rewrite <-of_Z_opp, Z.opp_involutive by lia.
  - destruct (show_digits n Hn) as [Hd Hne]. by rewrite signed_digits, all_digits_true, show_value by done.
Qed.

Lemma join_text_cons sep p ps : ps ≠ [] → join_text sep (p :: ps) = p ++ sep ++ join_text sep ps.
Proof. destruct ps as [|q ps]; [done|]. intros _. cbn. by rewrite <-(assoc_L (++)). Qed.

Lemma starts_ne c d l : c ≠ d → starts d (c :: l) = false.
Proof. intros H. unfold starts. apply bool_decide_false. cbn. congruence. Qed.

(** A value that is read back whatever follows it. *)
Definition reads_back (v : toml) : Prop := ∀ rest fuel n,
  follows rest → value_fuel (print_value v ++ rest) <= fuel →
  parse_value fuel (print_value v ++ rest) n = Ok (inject v, rest).

(** Printed items, joined: the first character is that of an item. *)
Lemma print_items_head items rest : items ≠ [] →
  ∃ c l, join_text (lit ", ") (print_value <$> items) ++ rest = c :: l ∧ is_space c = false ∧ c ≠ "]"%char.
Proof.
  intros Hne. destruct items as [|v items]; [done|].
  destruct (print_value_head v) as (c & l & E & H1 & H2 & _). rewrite fmap_cons.
  cbn [join_text]. rewrite E. by eexists c, _.
Qed.

Lemma parse_items_print items rest n : items ≠ [] → Forall reads_back items → ∀ fuel,
  S (value_fuel (join_text (lit ", ") (print_value <$> items) ++ "]"%char :: rest)) <= fuel →
  parse_items fuel (join_text (lit ", ") (print_value <$> items) ++ "]"%char :: rest) n = Ok (inject <$> items, rest).
Proof.
  induction items as [|v items IH]; intros Hne Hb fuel Hf; [done|].
  apply Forall_cons in Hb as [Hbv Hb]. destruct fuel as [|fuel]; [lia|].
  rewrite !fmap_cons in *. destruct (decide (items = [])) as [->|Hi].
  - cbn [fmap list_fmap join_text concat] in *. rewrite app_nil_r in *. cbn [parse_items].
    by rewrite Hbv by (done || lia).
  - rewrite join_text_cons in Hf |- * by (by destruct items). rewrite <-!(assoc_L (++)) in Hf |- *.
    cbn [parse_items]. rewrite Hbv by (done || lia). cbn [app lit list_ascii_of_string].
    rewrite drop_spaces_id by done. replace (starts ","%char _) with true by done. cbn [tail].
    destruct (print_items_head items ("]"%char :: rest) Hi) as (c & l & E & H1 & H2).
    cbn [lit list_ascii_of_string] in *. cbn [drop_spaces]. replace (is_space " "%char) with true by done.
    rewrite E, drop_spaces_id, starts_ne by done. rewrite <-E.
    rewrite IH; [done..|]. unfold value_fuel in *. rewrite !length_app in Hf. cbn in Hf.
    rewrite length_app. cbn. lia.
Qed.

(** Reading a printed value back, whatever follows it. *)
Lemma parse_print v : reads_back v.
Proof.
  induction v as [s|b|m|items IH] using toml_ind; intros rest fuel n Hr Hf;
    (destruct fuel as [|fuel]; [unfold value_fuel in Hf; lia|]).
  - cbn [print_value inject]. unfold print_string. cbn [app parse_value].
    rewrite drop_spaces_id by done. replace (is_quote dq) with true by done.
    cbn [readTomlString]. rewrite <-(assoc_L (++)). cbn [app].
    by rewrite string_body_print by (done || lia).
  - cbn [print_value inject]. apply parse_scalar_print; [|done|by destruct b|by destruct b|by destruct b].
    destruct b; repeat constructor.
  - cbn [print_value inject]. destruct (print_int_chars m) as [Hd Hne].
    apply parse_scalar_print; [|done| | |by apply parseTomlScalar_int].
    + eapply Forall_impl; [exact Hd|]. intros c Hc%int_char_facts; tauto.
    + apply trim_no_space. eapply Forall_impl; [exact Hd|]. intros c Hc%int_char_facts; tauto.
    + destruct Hd as [|c l Hc _]; [done|]. by apply int_char_facts in Hc as (? & ? & ? & ? & ? & _).
  - cbn [print_value inject]. cbn [app parse_value]. rewrite drop_spaces_id by done.
    rewrite <-(assoc_L (++)). cbn [app]. replace (is_quote "["%char) with false by done.
    rewrite decide_True by done.
    destruct (decide (items = [])) as [->|Hne]; [done|].
    destruct (print_items_head items ("]"%char :: rest) Hne) as (c & l & E & H1 & H2).
    rewrite E, drop_spaces_id, starts_ne by done. rewrite <-E, parse_items_print; [done..|].
    + unfold value_fuel in *. cbn [print_value app length] in Hf. rewrite length_app in Hf |- *.
      rewrite length_app in Hf. cbn [length] in Hf |- *. lia.
Qed.

(** ** Lines *)

Lemma strip_from_plain l rest : Forall (λ c, is_quote c = false ∧ c ≠ "#"%char) l →
  strip_from None (l ++ rest) = l ++ strip_from None rest.
Proof.
  induction 1 as [|c l [Hq Hh] _ IH]; [done|]. cbn [app strip_from]. rewrite decide_False by done.
  unfold next_quote. rewrite Hq. by rewrite IH.
Qed.

Lemma strip_from_string l rest : (dq ∉ l) →
  strip_from (Some dq) (l ++ dq :: rest) = l ++ dq :: strip_from None rest.
Proof.
  induction l as [|c l IH]; intros Hl; [done|]. apply not_elem_of_cons in Hl as [Hc Hl].
  cbn [app strip_from next_quote]. rewrite decide_False by congruence. by rewrite IH.
Qed.

Lemma escape_no_quote s : dq ∉ concat (escape <$> s).
Proof.
  induction s as [|c s IH]; [apply not_elem_of_nil|].
  rewrite fmap_cons. cbn [concat]. rewrite elem_of_app. intros [H|H]; [|by apply IH].
  assert (Forall (λ d, dq ≠ d) (escape c)) as Hf by (unfold escape; repeat case_decide; by repeat constructor).
  rewrite Forall_forall in Hf. by apply (Hf dq).
Qed.

(** A printed value keeps to one line and holds no comment. *)
Lemma strip_print v : ∀ rest, strip_from None (print_value v ++ rest) = print_value v ++ strip_from None rest.
Proof.
  induction v as [s|b|n|items IH] using toml_ind; intros rest.
  - cbn [print_value]. unfold print_string. rewrite <-!app_comm_cons, <-!(assoc_L (++)). cbn [app strip_from].
    rewrite decide_False by done. replace (next_quote None dq) with (Some dq) by done.
    by rewrite strip_from_string by by apply escape_no_quote.
  - cbn [print_value]. apply strip_from_plain. destruct b; repeat constructor; done.
  - cbn [print_value]. apply strip_from_plain. destruct (print_int_chars n) as [Hd _].
    eapply Forall_impl; [exact Hd|]. intros c Hc%int_char_facts. tauto.
  - cbn [print_value]. rewrite <-!app_comm_cons, <-!(assoc_L (++)). cbn [strip_from].
    rewrite decide_False by done. replace (next_quote None "["%char) with (@None ascii) by done. f_equal.
    assert (∀ rest, strip_from None (join_text (lit ", ") (print_value <$> items) ++ rest) =
      join_text (lit ", ") (print_value <$> items) ++ strip_from None rest) as ->; [|done].
    clear rest. induction items as [|v items IHi]; intros rest; [done|].
    apply Forall_cons in IH as [Hv IH]. rewrite fmap_cons.
    destruct (decide (items = [])) as [->|Hne]; [cbn; rewrite !app_nil_r; by apply Hv|].
    rewrite join_text_cons by by destruct items. rewrite <-!(assoc_L (++)). rewrite Hv. f_equal.
    rewrite strip_from_plain by (repeat constructor; done). f_equal. by apply IHi.
Qed.

Lemma bare_facts c : bare_char c = true →
  is_quote c = false ∧ is_space c = false ∧ c ≠ "#"%char ∧ c ≠ "="%char ∧ c ≠ dot ∧ c ≠ "["%char ∧ c ≠ "]"%char ∧
  c ≠ newline ∧ c ≠ carriage_return.
Proof. destruct c as [[] [] [] [] [] [] [] []]; try done; by split_and!. Qed.

Definition plain_line (l : text) : Prop := Forall (λ c, c ≠ newline ∧ c ≠ carriage_return) l.

Lemma print_value_line v : plain_line (print_value v).
Proof.
  unfold plain_line. induction v as [s|b|n|items IH] using toml_ind; cbn [print_value].
  - unfold print_string. repeat (apply Forall_cons; split; [done|]). apply Forall_app. split; [|by repeat constructor].
    clear. induction s as [|c s IH]; [done|]. rewrite fmap_cons. cbn [concat]. apply Forall_app. split; [|done].
    unfold escape. repeat case_decide; by repeat constructor.
  - destruct b; by repeat constructor.
  - destruct (print_int_chars n) as [Hd _]. eapply Forall_impl; [exact Hd|]. intros c Hc%int_char_facts. tauto.
  - apply Forall_cons. split; [done|]. apply Forall_app. split; [|by repeat constructor].
    assert (Forall (λ p, Forall (λ c, c ≠ newline ∧ c ≠ carriage_return) p) (print_value <$> items)) as Ha.
    { by apply Forall_fmap. }
    destruct Ha as [|p ps Hp1 Ha]; [done|]. cbn [join_text]. apply Forall_app. split; [done|].
    induction Ha as [|q ps Hq _ IHa]; [done|]. rewrite fmap_cons. cbn [concat].
    apply Forall_app. split; [|done]. repeat (apply Forall_cons; split; [done|]). done.
Qed.

Lemma print_value_last v : ∃ l c, print_value v = l ++ [c] ∧ is_space c = false.
Proof.
  destruct v as [s|[]|n|items]; cbn [print_value].
  - unfold print_string. rewrite app_comm_cons. by eexists _, _.
  - by exists (lit "tru"), "e"%char.
  - by exists (lit "fals"), "e"%char.
  - destruct (print_int_chars n) as [Hd Hne]. destruct (list_snoc_inv (print_int n)) as [|(l & c & E)]; [done|].
    exists l, c. split; [done|]. rewrite E in Hd. apply Forall_app in Hd as [_ Hd].
    apply Forall_cons in Hd as [Hc%int_char_facts _]. tauto.
  - rewrite app_comm_cons. by eexists _, _.
Qed.

Lemma trim_frame c l d m : is_space c = false → is_space d = false → c :: l = m ++ [d] → trim (c :: l) = c :: l.
Proof. intros Hc Hd E. apply trim_id; [done|]. by rewrite E, reverse_snoc. Qed.

Lemma trim_print v : trim (print_value v) = print_value v.
Proof.
  destruct (print_value_head v) as (c & l & E & Hc & _).
  destruct (print_value_last v) as (m & d & E' & Hd). rewrite E in E' |- *. by eapply trim_frame.
Qed.

Lemma trim_space p : trim (" "%char :: p) = trim p.
Proof. reflexivity. Qed.

Lemma bare_ends k : bare_key k → ∃ c l m d, k = c :: l ∧ k = m ++ [d] ∧ bare_char c = true ∧ bare_char d = true.
Proof.
  intros [Hne Hk]. destruct (list_snoc_inv k) as [|(m & d & E)]; [done|].
  destruct k as [|c l]; [done|]. exists c, l, m, d. split_and!; [done..| |].
  - by apply Forall_cons in Hk as [? _].
  - rewrite E in Hk. apply Forall_app in Hk as [_ Hk]. by apply Forall_cons in Hk as [? _].
Qed.

Lemma trim_bare k : bare_key k → trim k = k ∧ trim (k ++ [" "%char]) = k.
Proof.
  intros Hk. destruct (bare_ends k Hk) as (c & l & m & d & E & E' & Hc & Hd).
  apply bare_facts in Hc as (_ & Hc & _), Hd as (_ & Hd & _). split.
  - rewrite E in E' |- *. by eapply trim_frame.
  - unfold trim. rewrite (drop_spaces_id (k ++ _)) by by rewrite E. rewrite reverse_snoc. cbn [drop_spaces].
    replace (is_space " "%char) with true by done. rewrite drop_spaces_id; [apply reverse_involutive|].
    by rewrite E', reverse_snoc.
Qed.

Lemma splitDottedKey_bare k : bare_key k → splitDottedKey k = Ok [k].
Proof.
  intros Hk. destruct (bare_ends k Hk) as (c & l & _ & _ & E & _ & Hc & _).
  unfold splitDottedKey. assert (key_parts (S (length k)) k k = Ok [k]) as ->; [|done].
  pose proof (span_until_stop (λ d, bool_decide (d = dot)) k []) as Hs. rewrite app_nil_r in Hs.
  rewrite E at 1 3. cbn [key_parts]. apply bare_facts in Hc as (-> & _). rewrite <-E, Hs; [|..|done].
  - destruct (trim_bare k Hk) as [-> _]. rewrite E. cbn [tail length key_parts]. done.
  - destruct Hk as [_ Hk]. eapply Forall_impl; [exact Hk|]. intros d Hd%bare_facts.
    apply bool_decide_false. tauto.
Qed.

Lemma equals_from_plain l rest : Forall (λ c, is_quote c = false ∧ c ≠ "="%char) l →
  equals_from None (l ++ "="%char :: rest) = Some (length l).
Proof.
  induction 1 as [|c l [Hq He] _ IH]; [done|]. cbn [app equals_from length]. rewrite decide_False by done.
  unfold next_quote. by rewrite Hq, IH.
Qed.

(** ** Statements *)

(** [mk m] is a root in which [current] leads to the table [m]. *)
Definition leads_to (current : list text) (mk : object → object) : Prop :=
  ∀ f m, at_table current f (mk m) = Ok (mk (f m)).

Lemma print_entry_line k v : bare_key k →
  stripComment (print_entry (k, v)) = print_entry (k, v) ∧ trim (print_entry (k, v)) = print_entry (k, v) ∧
  plain_line (print_entry (k, v)).
Proof.
  intros Hk. unfold print_entry. cbn [fst snd]. destruct (bare_ends k Hk) as (c & l & _ & _ & E & _ & Hc & _).
  apply bare_facts in Hc as (_ & Hc & _). split_and!.
  - unfold stripComment. rewrite (assoc_L (++)), strip_from_plain.
    + pose proof (strip_print v []) as Hs. rewrite !app_nil_r in Hs. by rewrite Hs.
    + apply Forall_app. split; [|by repeat constructor]. eapply Forall_impl; [apply Hk|].
      intros d Hd%bare_facts. tauto.
  - destruct (print_value_last v) as (m & d & E' & Hd). rewrite E', E. cbn [app].
    apply (trim_frame _ _ d (c :: l ++ lit " = " ++ m)); [done..|]. cbn [app]. by rewrite <-!(assoc_L (++)).
  - unfold plain_line. apply Forall_app. split; [eapply Forall_impl; [apply Hk|]; intros d Hd%bare_facts; tauto|].
    apply Forall_app. split; [by repeat constructor|by apply print_value_line].
Qed.

Lemma parse_entry_line current mk m k v n : leads_to current mk → bare_key k →
  parse_line (current, mk m) n (print_entry (k, v)) = Ok (current, mk (jm_set k (inject v) m)).
Proof.
  intros Hmk Hk. destruct (print_entry_line k v Hk) as (Hs & Ht & _).
  unfold parse_line. rewrite Hs, Ht. destruct (bare_ends k Hk) as (c & l & _ & _ & E & _ & Hc & _).
  assert (print_entry (k, v) = c :: (l ++ lit " = " ++ print_value v)) as Ee by (unfold print_entry; cbn; by rewrite E).
  rewrite decide_False by (by rewrite Ee). apply bare_facts in Hc as (_ & _ & _ & _ & _ & Hc & _).
  replace (is_prefix (lit "[[") (print_entry (k, v))) with false
    by (rewrite Ee; cbn; by rewrite bool_decide_false by congruence).
  rewrite Ee at 1. rewrite starts_ne by done. unfold parse_assignment. cbn [fst snd].
  assert (print_entry (k, v) = (k ++ [" "%char]) ++ "="%char :: " "%char :: print_value v) as ->
    by (unfold print_entry; cbn; by rewrite <-(assoc_L (++))).
  unfold findTopLevelEquals. rewrite equals_from_plain.
  2:{ apply Forall_app. split; [|by repeat constructor]. eapply Forall_impl; [apply Hk|].
      intros d Hd%bare_facts. tauto. }
  rewrite take_app_length. destruct (trim_bare k Hk) as [_ ->]. rewrite (splitDottedKey_bare k Hk).
  cbn [mbind result_bind removelast]. rewrite app_nil_r. unfold descend. rewrite Hmk. cbn [mbind result_bind id].
  rewrite <-(Nat.add_1_r (length _)), drop_app_add. cbn [drop]. rewrite trim_space, trim_print by done.
  pose proof (parse_print v [] (value_fuel (print_value v)) n I) as Hp. rewrite app_nil_r in Hp.
  unfold parseTomlValue. rewrite Hp by done. cbn [mbind result_bind fst snd]. rewrite trim_nil.
  unfold assign_key. rewrite removelast_last, last_last, Hmk. done.
Qed.

Lemma parse_entry_lines current mk es more : leads_to current mk →
  Forall (λ e, bare_key e.1) es → ∀ m n,
  parse_lines (current, mk m) n ((print_entry <$> es) ++ more) =
  parse_lines (current, mk (foldl (λ o e, jm_set e.1 (inject e.2) o) m es)) (n + length es) more.
Proof.
  intros Hmk. induction 1 as [|[k v] es Hk _ IH]; intros m n; [by rewrite Nat.add_0_r|].
  rewrite fmap_cons. cbn [app parse_lines]. rewrite (parse_entry_line _ _ _ _ _ _ Hmk Hk).
  cbn [mbind result_bind]. rewrite IH. cbn [foldl length fst snd]. by rewrite Nat.add_succ_r.
Qed.

Lemma set_entries es : ∀ m : object, NoDup (jm_keys m ++ es.*1) →
  foldl (λ o e, jm_set e.1 (inject e.2) o) m es = m ++ inject_entries es.
Proof.
  induction es as [|[k v] es IH]; intros m Hnd; [by rewrite app_nil_r|]. cbn [foldl fst snd].
  assert (k ∉ jm_keys m) as Hk.
  { intros Hin. apply NoDup_app in Hnd as (_ & Hd & _). apply (Hd k Hin). rewrite fmap_cons. left. }
  rewrite jm_set_None by by apply jm_get_None. rewrite IH; [by rewrite <-(assoc_L (++))|].
  unfold jm_keys in *. rewrite fmap_app. csimpl in *. by rewrite <-(assoc_L (++)).
Qed.

Lemma parse_header_line pre name cur n : bare_key name → (name ∉ jm_keys pre) →
  parse_line (cur, pre) n ("["%char :: name ++ ["]"%char]) = Ok ([name], pre ++ [(name, VObject [])]).
Proof.
  intros Hk Hni. unfold parse_line. destruct (bare_ends name Hk) as (c & l & _ & _ & E & _ & Hc & _).
  assert (stripComment ("["%char :: name ++ ["]"%char]) = "["%char :: name ++ ["]"%char]) as ->.
  { unfold stripComment. rewrite <-(app_nil_r (_ :: _)), strip_from_plain; [done|].
    apply Forall_cons. split; [done|]. apply Forall_app. split; [|by repeat constructor].
    eapply Forall_impl; [apply Hk|]. intros d Hd%bare_facts. tauto. }
  assert (trim ("["%char :: name ++ ["]"%char]) = "["%char :: name ++ ["]"%char]) as ->.
  { by apply (trim_frame _ _ "]"%char ("["%char :: name)). }
  rewrite decide_False by done. pose proof (bare_facts c Hc) as (_ & _ & _ & _ & _ & Hb & _).
  replace (is_prefix (lit "[[") ("["%char :: name ++ ["]"%char])) with false
    by (rewrite E; cbn; by rewrite (bool_decide_false ("["%char = c)) by congruence).
  replace (starts _ _) with true by done. unfold parse_header. cbn [tail snd].
  assert (indexOf "]"%char (name ++ ["]"%char]) = Some (length name)) as ->.
  { apply indexOf_spec. exists name, []. split_and!; [done..|]. intros Hin. destruct Hk as [_ Hk].
    rewrite Forall_forall in Hk. apply Hk, bare_facts in Hin. tauto. }
  rewrite take_app_length. destruct (trim_bare name Hk) as [-> _]. rewrite splitDottedKey_bare by done.
  cbn [mbind result_bind]. unfold descend. cbn [at_table]. pose proof Hni as Hg. apply jm_get_None in Hg.
  rewrite Hg. cbn [fmap result_fmap id mbind result_bind]. by rewrite jm_set_None.
Qed.

Lemma leads_to_last pre name : (name ∉ jm_keys pre) → leads_to [name] (λ m, pre ++ [(name, VObject m)]).
Proof.
  intros Hni f m. cbn [at_table].
  assert (∀ v : value, jm_get name (pre ++ [(name, v)]) = Some v ∧ ∀ w, jm_set name w (pre ++ [(name, v)]) = pre ++ [(name, w)]) as H.
  { intros v. clear f m. induction pre as [|[k w] pre IH]; cbn; [by split; intros; rewrite decide_True by done|].
    unfold jm_keys in Hni. csimpl in Hni. apply not_elem_of_cons in Hni as [Hne Hni].
    rewrite decide_False by done. destruct (IH Hni) as [-> Hs]. split; [done|]. intros w'. by rewrite decide_False, Hs. }
  destruct (H (VObject m)) as [-> Hs]. cbn [fmap result_fmap]. by rewrite Hs.
Qed.

(** ** Documents *)

Lemma parse_lines_app st n l1 l2 :
  parse_lines st n (l1 ++ l2) = (st' ← parse_lines st n l1; parse_lines st' (n + length l1) l2).
Proof.
  revert st n. induction l1 as [|line l1 IH]; intros st n; cbn [app parse_lines length].
  { cbn. by rewrite Nat.add_0_r. }
  destruct (parse_line st n line) as [st'|e]; cbn [mbind result_bind]; [|done].
  rewrite IH. by rewrite Nat.add_succ_r.
Qed.

Definition table_entry (t : text * list (text * toml)) : text * value := (t.1, VObject (inject_entries t.2)).

Lemma parse_tables ts : ∀ cur (pre : object) n,
  NoDup (jm_keys pre ++ ts.*1) → Forall (λ t, bare_key t.1 ∧ entries_ok t.2) ts →
  ∃ cur', parse_lines (cur, pre) n (concat (print_table <$> ts)) = Ok (cur', pre ++ (table_entry <$> ts)).
Proof.
  induction ts as [|[name es] ts IH]; intros cur pre n Hnd Hts; [exists cur; cbn; by rewrite app_nil_r|].
  apply Forall_cons in Hts as [[Hk [Hes Hok]] Hts]. cbn [fst snd] in *.
  assert (name ∉ jm_keys pre) as Hni.
  { intros Hin. apply NoDup_app in Hnd as (_ & Hd & _). apply (Hd name Hin). rewrite fmap_cons. left. }
  rewrite !fmap_cons. cbn [concat print_table fst snd app parse_lines]. rewrite parse_header_line by done.
  cbn [mbind result_bind].
  rewrite (parse_entry_lines [name] (λ m, pre ++ [(name, VObject m)]) es _ (leads_to_last pre name Hni) Hok).
  rewrite set_entries by done. cbn [app].
  destruct (IH [name] (pre ++ [table_entry (name, es)]) (S n + length es)) as [cur' Hc].
  - unfold jm_keys in *. rewrite fmap_app. csimpl in *. by rewrite <-(assoc_L (++)).
  - done.
  - exists cur'. unfold table_entry in Hc at 1. cbn [fst snd] in Hc. rewrite Hc.
    by rewrite <-(assoc_L (++)).
Qed.

Lemma split_on_join sep parts : parts ≠ [] → Forall (λ p, sep ∉ p) parts →
  split_on sep (join_text [sep] parts) = parts.
Proof.
  intros Hne Hp. induction Hp as [|p ps Hp Hps IH]; [done|].
  destruct (decide (ps = [])) as [->|Hn].
  - cbn. rewrite app_nil_r. by apply split_on_none.
  - rewrite join_text_cons by done. cbn [app]. rewrite split_on_app by done. f_equal. by apply IH.
Qed.

Lemma drop_cr_plain l : plain_line l → drop_cr l = l.
Proof.
  intros Hl. unfold drop_cr. destruct (reverse l) as [|c r] eqn:E; [done|]. rewrite decide_False; [done|].
  intros ->. assert (ascii_of_nat 13 ∈ l) as Hin by (apply elem_of_reverse; rewrite E; left).
  unfold plain_line in Hl. rewrite Forall_forall in Hl. by destruct (Hl _ Hin).
Qed.

Lemma split_lines_plain ps : Forall plain_line ps → split_lines ps = ps.
Proof.
  induction 1 as [|p ps Hp Hps IH]; [done|]. cbn [split_lines]. rewrite IH, drop_cr_plain by done.
  by destruct ps.
Qed.

Lemma entries_plain es : Forall (λ e, bare_key e.1) es → Forall plain_line (print_entry <$> es).
Proof.
  intros He. apply Forall_fmap. eapply Forall_impl; [exact He|]. intros [k v] Hk.
  by apply print_entry_line.
Qed.

Lemma table_plain t : bare_key t.1 → entries_ok t.2 → Forall plain_line (print_table t).
Proof.
  intros Hk [_ He]. unfold print_table. apply Forall_cons. split; [|by apply entries_plain].
  apply Forall_cons. split; [done|]. apply Forall_app. split; [|by repeat constructor].
  eapply Forall_impl; [apply Hk|]. intros d Hd%bare_facts. tauto.
Qed.

Lemma document_lines d : document_ok d →
  Forall plain_line ((print_entry <$> top d) ++ concat (print_table <$> tables d)).
Proof.
  intros ([_ Ht] & _ & Hts). apply Forall_app. split; [by apply entries_plain|].
  induction Hts as [|t ts [Hk He] _ IH]; [done|]. rewrite fmap_cons. cbn [concat].
  apply Forall_app. split; [by apply table_plain|done].
Qed.

(** C32: Every document of tables, with strings of any characters, integers, booleans and
    nested arrays under bare keys that differ within a table, is read back from its printed
    form as the object that it denotes. *)
Theorem toml_round_trip d : document_ok d → parseToml (print_document d) = Ok (document_object d).
Proof.
  intros Hd. pose proof (document_lines d Hd) as Hl. destruct Hd as ([Hnd Ht] & Hnk & Hts).
  unfold parseToml, print_document.
  destruct (decide ((print_entry <$> top d) ++ concat (print_table <$> tables d) = [])) as [E|Hne].
  { rewrite E. apply app_eq_nil in E as [E1 E2]. destruct d as [es ts]. cbn in *.
    destruct es; [|done]. by destruct ts. }
  rewrite split_on_join; [|done|].
  - rewrite split_lines_plain by done.
    rewrite (parse_entry_lines [] id (top d) _ (λ f m, eq_refl) Ht [] 1).
    rewrite set_entries by done. cbn [app id].
    destruct (parse_tables (tables d) [] (inject_entries (top d)) (1 + length (top d))) as [cur Hp].
    + unfold jm_keys, inject_entries. rewrite <-list_fmap_compose. exact Hnk.
    + done.
    + rewrite Hp. done.
  - eapply Forall_impl; [exact Hl|]. intros p Hp Hin. unfold plain_line in Hp. rewrite Forall_forall in Hp.
    by destruct (Hp _ Hin).
Qed.

(** The quotes of a basic string are counted without regard to escapes: a comment after a
    string with one escaped quote is not removed. *)
Example comment_after_escaped_quote :
  let q := String dq EmptyString in
  parseToml (lit ("size = " ++ q ++ "5\" ++ q ++ " disk" ++ q)%string) = Ok [(lit "size", VString (lit ("5" ++ q ++ " disk")%string))] ∧
  is_ok (parseToml (lit ("size = " ++ q ++ "5\" ++ q ++ " disk" ++ q ++ " # inch")%string)) = false.
Proof. vm_compute. by split. Qed.

Definition sample_document : Document := {|
  top := [(lit "port", TInt (-8080)); (lit "name", TString (dq :: lit "a # b\c"))];
  tables := [(lit "database", [(lit "hosts", TArray [TString (lit "x"); TArray []; TBool true])]); (lit "empty", [])]
|}.

Lemma bare_by_computation k : bool_decide (k ≠ []) && forallb bare_char k = true → bare_key k.
Proof.
  intros [Hne Hk]%andb_true_iff. apply bool_decide_eq_true in Hne. split; [done|].
  apply Forall_forall. intros c Hc. rewrite forallb_forall in Hk. apply Hk. by apply list_elem_of_In.
Qed.

Lemma toml_round_trip_witness :
  parseToml (print_document sample_document) = Ok (document_object sample_document).
Proof.
  apply toml_round_trip. split; [split|split].
  - apply (bool_decide_unpack _). vm_compute. exact I.
  - repeat constructor; try discriminate; apply (bool_decide_unpack _); vm_compute; exact I.
  - apply (bool_decide_unpack _). vm_compute. exact I.
  - apply Forall_cons_2; [|apply Forall_cons_2; [|apply Forall_nil_2]]; (split; [by apply bare_by_computation|]);
      (split; [apply (bool_decide_unpack _); vm_compute; exact I|]); [|apply Forall_nil_2].
    apply Forall_cons_2; [|apply Forall_nil_2]. split; [by apply bare_by_computation|].
    repeat constructor; apply (bool_decide_unpack _); vm_compute; exact I.
Defined.
