(* ===== verification/StorageDriver.v ===== *)
(** * The storage driver contract, metadata and the memory driver

    Models src/packages/storage/src: driver.ts (the interface of a provider), types.ts and
    errors.ts, metadata.ts, and drivers/memory.ts.

    [StorageDriver] is the interface: operations on a state of the driver's own that return
    or throw.  [DriverLaws] is what the layers above rely on, stated on the map [objects]
    from keys to bytes and metadata; [Reliable] says that nothing is thrown.  The memory
    driver satisfies both.  A stream is the list of the computations that give its chunks, so
    the generator that reads parts back from the driver is a stream like any other.

    SHA-256 is an argument ([Sha256]), and so is the clock: its [n]-th reading, which may be
    anything.  Keys and bytes are lists of 8-bit units; custom metadata is an object of
    ConfigValue.v. *)

From Stdlib Require Import Ascii String.
From stdpp Require Import sorting.
From S2P Require Import Prelude JsText ConfigValue.

Open Scope nat_scope.
#[local] Open Scope list_scope.
Abbreviation bytes := (list ascii) (only parsing).

(** [`"${s}"`] *)
Definition quoted_text (s : text) : text := ascii_of_nat 34 :: s ++ [ascii_of_nat 34].

(** Images that tell where they come from are different. *)
Lemma NoDup_omap_key {A B K} (f : A → option B) (g : A → K) (h : B → K) l :
  NoDup (g <$> l) → (∀ a b, a ∈ l → f a = Some b → g a = h b) → NoDup (h <$> omap f l).
Proof.
  induction l as [|a l IH]; intros Hnd Hf; [constructor|]. rewrite fmap_cons, NoDup_cons in Hnd.
  destruct Hnd as [Hni Hnd]. cbn [omap list_omap].
  assert (NoDup (h <$> omap f l)) as Hrest by (apply IH; [done|]; intros; apply Hf; [by right|done]).
  destruct (f a) as [b|] eqn:E; [|done]. rewrite fmap_cons, NoDup_cons. split; [|done].
  intros (b' & Hb & (a' & Ha' & Ea')%list_elem_of_omap)%list_elem_of_fmap. apply Hni, list_elem_of_fmap.
  exists a'. split; [|done]. rewrite (Hf a b ltac:(left) E), (Hf a' b' ltac:(by right) Ea'). done.
Qed.

(** ** Errors *)

Inductive AccessLevel : Type := Public | Private | Signed | Authenticated | RoleBased | TenantAware.
#[export] Instance AccessLevel_eq_dec : EqDecision AccessLevel.
Proof. solve_decision. Defined.

Inductive AccessOperation : Type := Read | Write | Delete.
#[export] Instance AccessOperation_eq_dec : EqDecision AccessOperation.
Proof. solve_decision. Defined.

(** [Foreign] is whatever a provider, a stream or a callback throws. *)
Inductive StorageError : Type :=
| StorageErr (message : list ascii)
| StorageConfigError (message : list ascii)
| NotFoundError (key : list ascii)
| ValidationError (validationError key : list ascii)
| AuthorizationError (key : list ascii) (operation : AccessOperation) (accessLevel : option AccessLevel)
| Foreign (n : nat).

(** ** Metadata *)

(** The fields a provider may leave out are options; [normalizeMetadata] fills them. *)
Record StorageObjectMetadata : Type := {
  m_key : list ascii;
  m_size : nat;
  contentType : option (list ascii);
  etag : list ascii;
  checksum : list ascii;
  owner : option (list ascii);
  tenant : option (list ascii);
  accessLevel : option AccessLevel;
  createdAt : Z;
  updatedAt : Z;
  custom : option (list (list ascii * value));
  versionId : option (list ascii)
}.

Record WriteMetadata : Type := {
  w_contentType : option (list ascii);
  w_owner : option (list ascii);
  w_tenant : option (list ascii);
  w_accessLevel : option AccessLevel;
  w_custom : option (list (list ascii * value))
}.
Definition no_metadata : WriteMetadata :=
  {| w_contentType := None; w_owner := None; w_tenant := None; w_accessLevel := None; w_custom := None |}.

Definition DEFAULT_CONTENT_TYPE : text := lit "application/octet-stream".
Definition DEFAULT_ACCESS_LEVEL : AccessLevel := Private.

(** [a ?? b] *)
Definition or_else {A} (a : option A) (b : A) : option A := Some (default b a).

Record BuildMetadataInput : Type := {
  b_key : list ascii;
  b_size : nat;
  b_checksum : list ascii;
  b_etag : option (list ascii);
  b_createdAt : Z;
  b_updatedAt : Z;
  b_write : WriteMetadata;
  b_versionId : option (list ascii)
}.

Definition buildObjectMetadata (i : BuildMetadataInput) : StorageObjectMetadata :=
  {| m_key := b_key i; m_size := b_size i;
     contentType := or_else (w_contentType (b_write i)) DEFAULT_CONTENT_TYPE;
     etag := default (b_checksum i) (b_etag i); checksum := b_checksum i;
     owner := w_owner (b_write i); tenant := w_tenant (b_write i);
     accessLevel := or_else (w_accessLevel (b_write i)) DEFAULT_ACCESS_LEVEL;
     createdAt := b_createdAt i; updatedAt := b_updatedAt i;
     custom := or_else (w_custom (b_write i)) []; versionId := b_versionId i |}.

Definition normalizeMetadata (m : StorageObjectMetadata) : StorageObjectMetadata :=
  {| m_key := m_key m; m_size := m_size m; contentType := or_else (contentType m) DEFAULT_CONTENT_TYPE;
     etag := etag m; checksum := checksum m; owner := owner m; tenant := tenant m;
     accessLevel := or_else (accessLevel m) DEFAULT_ACCESS_LEVEL;
     createdAt := createdAt m; updatedAt := updatedAt m; custom := or_else (custom m) [];
     versionId := versionId m |}.

Definition toWriteMetadata (m : StorageObjectMetadata) : WriteMetadata :=
  {| w_contentType := contentType m; w_owner := owner m; w_tenant := tenant m;
     w_accessLevel := accessLevel m; w_custom := custom m |}.

Lemma normalize_idempotent m : normalizeMetadata (normalizeMetadata m) = normalizeMetadata m.
Proof. done. Qed.
Lemma normalize_built i : normalizeMetadata (buildObjectMetadata i) = buildObjectMetadata i.
Proof. done. Qed.

(** ** What a write says about an object, with the defaults in place *)

Record Attributes : Type := {
  a_contentType : list ascii;
  a_owner : option (list ascii);
  a_tenant : option (list ascii);
  a_accessLevel : AccessLevel;
  a_custom : list (list ascii * value)
}.
Definition attributes_of (w : WriteMetadata) : Attributes :=
  {| a_contentType := default DEFAULT_CONTENT_TYPE (w_contentType w); a_owner := w_owner w;
     a_tenant := w_tenant w; a_accessLevel := default DEFAULT_ACCESS_LEVEL (w_accessLevel w);
     a_custom := default [] (w_custom w) |}.
Definition attributes (m : StorageObjectMetadata) : Attributes := attributes_of (toWriteMetadata m).

Lemma attributes_normalize m : attributes (normalizeMetadata m) = attributes m.
Proof. done. Qed.
Lemma attributes_build i : attributes (buildObjectMetadata i) = attributes_of (b_write i).
Proof. done. Qed.

(** ** Operations of a driver *)

Definition Op (D A : Type) : Type := D → result StorageError A * D.

#[export] Instance op_ret {D} : MRet (Op D) := λ A a d, (Ok a, d).
#[export] Instance op_bind {D} : MBind (Op D) := λ A B f m d,
  match m d with
  | (Ok a, d) => f a d
  | (Throw e, d) => (Throw e, d)
  end.
Definition op_throw {D A} (e : StorageError) : Op D A := λ d, (Throw e, d).

(** A manager keeps a state [M] of its own next to the driver. *)
Definition on_driver {M D A} (op : Op D A) : Op (M * D) A := λ s, let r := op s.2 in (r.1, (s.1, r.2)).
Definition state {M D} : Op (M * D) M := λ s, (Ok s.1, s).
Definition set_state {M D} (m : M) : Op (M * D) unit := λ s, (Ok tt, (m, s.2)).

Fixpoint for_each {D X} (l : list X) (body : X → Op D unit) : Op D unit :=
  match l with [] => mret tt | x :: l => body x ;; for_each l body end.

Lemma op_bind_ok {D A B} (m : Op D A) (f : A → Op D B) d a d' :
  m d = (Ok a, d') → (m ≫= f) d = f a d'.
Proof. intros E. unfold mbind, op_bind. by rewrite E. Qed.
Lemma op_bind_throw {D A B} (m : Op D A) (f : A → Op D B) d e d' :
  m d = (Throw e, d') → (m ≫= f) d = (Throw e, d').
Proof. intros E. unfold mbind, op_bind. by rewrite E. Qed.
Lemma op_bind_inv {D A B} (m : Op D A) (f : A → Op D B) d b d' :
  (m ≫= f) d = (Ok b, d') → ∃ a d1, m d = (Ok a, d1) ∧ f a d1 = (Ok b, d').
Proof. unfold mbind, op_bind. destruct (m d) as [[a|e] d1]; [by exists a, d1|done]. Qed.
Lemma op_bind_assoc {D A B C} (m : Op D A) (f : A → Op D B) (g : B → Op D C) d :
  ((m ≫= f) ≫= g) d = (m ≫= (λ a, f a ≫= g)) d.
Proof. unfold mbind, op_bind. by destruct (m d) as [[a|e] d1]. Qed.
Lemma on_driver_run {M D A} (op : Op D A) (m : M) d r d' :
  op d = (r, d') → on_driver op (m, d) = (r, (m, d')).
Proof. intros E. unfold on_driver. cbn [fst snd]. by rewrite E. Qed.

Record StorageListItem : Type := { i_key : list ascii; i_size : nat; i_updatedAt : Z }.
Record ListOptions : Type := { limit : option Z; cursor : option (list ascii); delimiter : bool }.
Definition no_options : ListOptions := {| limit := None; cursor := None; delimiter := false |}.

Abbreviation MaybeObject := (option (list ascii * StorageObjectMetadata)) (only parsing).
Abbreviation NodeReadable D := (list (Op D (list ascii))) (only parsing).

Record StoredPart : Type := { partNumber : Z; p_etag : list ascii; p_size : nat }.
Record VersionInfo : Type := { v_id : list ascii; v_size : nat; v_createdAt : Z; v_checksum : list ascii }.

(** Days, months and lengths of time are numbers of the caller. *)
Inductive LifecycleRule : Type :=
| DeleteAfterDays (days : Z) (prefix : option (list ascii))
| ArchiveAfterMonths (months : Z) (prefix : option (list ascii))
| ExpireTempUploads (afterMs : Z)
| MoveToCold (afterDays : Z) (coldPrefix : list ascii) (prefix : option (list ascii)).
Inductive LifecycleAction : Type := Deleted | Archived | Expired | Moved.
Record LifecycleOutcome : Type := { o_key : list ascii; o_action : LifecycleAction }.

(** The capabilities a provider may have of its own. *)
Record MultipartCapability (D : Type) : Type := {
  mp_create : list ascii → WriteMetadata → Op D (list ascii);
  mp_uploadPart : list ascii → Z → list ascii → Op D StoredPart;
  mp_complete : list ascii → list StoredPart → Op D StorageObjectMetadata;
  mp_abort : list ascii → Op D unit
}.
Record ResumableCapability (D : Type) : Type := {
  rs_start : list ascii → WriteMetadata → Op D (list ascii);
  rs_append : list ascii → list ascii → nat → Op D nat;
  rs_offset : list ascii → Op D nat;
  rs_finish : list ascii → Op D StorageObjectMetadata;
  rs_cancel : list ascii → Op D unit
}.
Record VersioningCapability (D : Type) : Type := {
  vs_snapshot : list ascii → Op D (option (list ascii));
  vs_list : list ascii → Op D (list VersionInfo);
  vs_restore : list ascii → list ascii → Op D StorageObjectMetadata;
  vs_deleteVersion : list ascii → list ascii → Op D unit
}.
Arguments mp_create {D}. Arguments mp_uploadPart {D}. Arguments mp_complete {D}. Arguments mp_abort {D}.
Arguments rs_start {D}. Arguments rs_append {D}. Arguments rs_offset {D}. Arguments rs_finish {D}.
Arguments rs_cancel {D}.
Arguments vs_snapshot {D}. Arguments vs_list {D}. Arguments vs_restore {D}. Arguments vs_deleteVersion {D}.

Class StorageDriver (D : Type) : Type := {
  d_put : list ascii → list ascii → WriteMetadata → Op D StorageObjectMetadata;
  d_get : list ascii → Op D (option (list ascii * StorageObjectMetadata));
  d_exists : list ascii → Op D bool;
  d_delete : list ascii → Op D unit;
  d_stat : list ascii → Op D (option StorageObjectMetadata);
  d_list : list ascii → ListOptions → Op D (list StorageListItem);
  d_putStream : list ascii → list (Op D (list ascii)) → WriteMetadata → Op D StorageObjectMetadata;
  d_getStream : list ascii → Op D (list (Op D (list ascii)));
  d_multipart : option (MultipartCapability D);
  d_resumable : option (ResumableCapability D);
  d_versioning : option (VersioningCapability D);
  d_lifecycle : option (LifecycleRule → Z → Op D (list LifecycleOutcome))
}.

(** ** The laws *)

Class Sha256 : Type := sha256Hex : list ascii → list ascii.
Class Clock : Type := reading : nat → Z.

Abbreviation Entry := (list ascii * StorageObjectMetadata)%type (only parsing).

(** The metadata is that of these bytes, written under this key with these attributes. *)
Definition describes `{Sha256} (k : text) (b : bytes) (w : WriteMetadata) (m : StorageObjectMetadata) : Prop :=
  m_key m = k ∧ m_size m = length b ∧ checksum m = sha256Hex b ∧ attributes m = attributes_of w.

Definition item (k : text) (e : Entry) : StorageListItem :=
  {| i_key := k; i_size := m_size e.2; i_updatedAt := updatedAt e.2 |}.

(** The items of the objects below a prefix, each once. *)
Definition lists (prefix : text) (o : gmap (list ascii) Entry) (items : list StorageListItem) : Prop :=
  NoDup (i_key <$> items) ∧
  ∀ i, i ∈ items ↔ ∃ k e, o !! k = Some e ∧ is_prefix prefix k = true ∧ i = item k e.

(** Everything a stream delivers, until one of its computations throws. *)
Fixpoint drain {D} (s : NodeReadable D) : Op D bytes :=
  match s with
  | [] => mret []
  | chunk :: s => b ← chunk; rest ← drain s; mret (b ++ rest)
  end.

Lemma drain_ready {D} (b : bytes) (s : NodeReadable D) d :
  drain (mret b :: s) d = (λ r, (match r.1 with Ok rest => Ok (b ++ rest) | Throw e => Throw e end, r.2)) (drain s d).
Proof. cbn [drain]. unfold mbind, op_bind, mret, op_ret. by destruct (drain s d) as [[r|e] d2]. Qed.

Class DriverLaws (D : Type) `{StorageDriver D, Sha256} : Type := {
  objects : D → gmap (list ascii) (list ascii * StorageObjectMetadata);
  (** A write is all or nothing. *)
  put_law k b w d : match d_put k b w d with
                    | (Ok m, d') => objects d' = <[k := (b, m)]> (objects d) ∧ describes k b w m
                    | (Throw _, d') => objects d' = objects d
                    end;
  delete_law k d : match d_delete k d with
                   | (Ok _, d') => objects d' = delete k (objects d)
                   | (Throw _, d') => objects d' = objects d
                   end;
  (** Reads leave the objects alone, and report them. *)
  get_law k d : objects (d_get k d).2 = objects d ∧
                ∀ r, (d_get k d).1 = Ok r → r = objects d !! k;
  exists_law k d : objects (d_exists k d).2 = objects d ∧
                   ∀ r, (d_exists k d).1 = Ok r → r = bool_decide (is_Some (objects d !! k));
  stat_law k d : objects (d_stat k d).2 = objects d ∧
                 ∀ r, (d_stat k d).1 = Ok r → r = snd <$> objects d !! k;
  list_law p d : objects (d_list p no_options d).2 = objects d ∧
                 ∀ r, (d_list p no_options d).1 = Ok r → lists p (objects d) r;
  (** A stream is stored as what it delivers. *)
  putStream_law k s w : d_putStream k s w = (drain s ≫= λ b, d_put k b w);
  getStream_law k d : objects (d_getStream k d).2 = objects d ∧
                      match (d_getStream k d).1 with
                      | Ok s => ∃ e, objects d !! k = Some e ∧ ∀ d', drain s d' = (Ok e.1, d')
                      | Throw _ => True
                      end
}.

(** Nothing is thrown, but for a stream of a missing object. *)
Definition total {D A} (op : Op D A) : Prop := ∀ d, is_ok (op d).1 = true.
Class Reliable (D : Type) `{StorageDriver D} : Prop := {
  put_total k b w : total (d_put k b w);
  delete_total k : total (d_delete k);
  get_total k : total (d_get k);
  exists_total k : total (d_exists k);
  stat_total k : total (d_stat k);
  list_total p o : total (d_list p o)
}.

(** What a reliable driver does, in one equation. *)
Section reliable.
Context {D} `{DriverLaws D, !Reliable D}.

Lemma put_ok k b w d :
  ∃ m d', d_put k b w d = (Ok m, d') ∧ objects d' = <[k := (b, m)]> (objects d) ∧ describes k b w m.
Proof.
  pose proof (put_total k b w d) as Ht. pose proof (put_law k b w d) as Hl.
  destruct (d_put k b w d) as [[m|e] d']; [by exists m, d'|done].
Qed.
Lemma delete_ok k d : ∃ d', d_delete k d = (Ok tt, d') ∧ objects d' = delete k (objects d).
Proof.
  pose proof (delete_total k d) as Ht. pose proof (delete_law k d) as Hl.
  destruct (d_delete k d) as [[[]|e] d']; [by exists d'|done].
Qed.
Lemma get_ok k d : ∃ d', d_get k d = (Ok (objects d !! k), d') ∧ objects d' = objects d.
Proof.
  pose proof (get_total k d) as Ht. pose proof (get_law k d) as [Ho Hl].
  destruct (d_get k d) as [[r|e] d']; [exists d'; by rewrite (Hl r)|done].
Qed.
Lemma stat_ok k d : ∃ d', d_stat k d = (Ok (snd <$> objects d !! k), d') ∧ objects d' = objects d.
Proof.
  pose proof (stat_total k d) as Ht. pose proof (stat_law k d) as [Ho Hl].
  destruct (d_stat k d) as [[r|e] d']; [exists d'; by rewrite (Hl r)|done].
Qed.
Lemma exists_ok k d :
  ∃ d', d_exists k d = (Ok (bool_decide (is_Some (objects d !! k))), d') ∧ objects d' = objects d.
Proof.
  pose proof (exists_total k d) as Ht. pose proof (exists_law k d) as [Ho Hl].
  destruct (d_exists k d) as [[r|e] d']; [exists d'; by rewrite (Hl r)|done].
Qed.
Lemma list_ok p d :
  ∃ items d', d_list p no_options d = (Ok items, d') ∧ objects d' = objects d ∧ lists p (objects d) items.
Proof.
  pose proof (list_total p no_options d) as Ht. pose proof (list_law p d) as [Ho Hl].
  destruct (d_list p no_options d) as [[r|e] d']; [exists r, d'; auto|done].
Qed.
End reliable.

(** ** The memory driver *)

Record StoredEntry : Type := { s_bytes : list ascii; s_metadata : StorageObjectMetadata }.
(** [readings] counts the calls of the clock. *)
Record MemoryStorageDriver : Type := { store : gmap (list ascii) StoredEntry; readings : nat }.
Definition new_MemoryStorageDriver : MemoryStorageDriver := {| store := ∅; readings := 0 |}.

Section memory.
Context {Hsha : Sha256} {Hclock : Clock}.

Definition memory_put (key : text) (b : bytes) (metadata : WriteMetadata) : Op MemoryStorageDriver StorageObjectMetadata :=
  λ d,
    let now := reading (readings d) in
    let existing := store d !! key in
    let m := buildObjectMetadata
      {| b_key := key; b_size := length b; b_checksum := sha256Hex b; b_etag := None;
         b_createdAt := match existing with Some e => createdAt (s_metadata e) | None => now end;
         b_updatedAt := now; b_write := metadata; b_versionId := None |} in
    (Ok m, {| store := <[key := {| s_bytes := b; s_metadata := m |}]> (store d); readings := S (readings d) |}).

Definition memory_get (key : text) : Op MemoryStorageDriver MaybeObject :=
  λ d, (Ok ((λ e, (s_bytes e, s_metadata e)) <$> store d !! key), d).
Definition memory_exists (key : text) : Op MemoryStorageDriver bool :=
  λ d, (Ok (bool_decide (is_Some (store d !! key))), d).
Definition memory_delete (key : text) : Op MemoryStorageDriver unit :=
  λ d, (Ok tt, {| store := delete key (store d); readings := readings d |}).
Definition memory_stat (key : text) : Op MemoryStorageDriver (option StorageObjectMetadata) :=
  λ d, (Ok (s_metadata <$> store d !! key), d).

(** The child of the prefix that a key lies below, with its delimiter. *)
Definition child_of (prefix key : text) : option text :=
  let rest := drop (length prefix) key in
  (λ i, prefix ++ take (S i) rest) <$> indexOf "/" rest.

Definition seen_before (child : option text) (seenChildren : list text) : bool :=
  match child with Some c => bool_decide (c ∈ seenChildren) | None => false end.

(** The loop of [list] over the matched keys, with the children seen and the number of items. *)
Fixpoint list_loop (prefix : text) (options : ListOptions) (st : gmap text StoredEntry)
    (seenChildren : list text) (count : nat) (matchedKeys : list text) : list StorageListItem :=
  match matchedKeys with
  | [] => []
  | key :: keys =>
      let child := if delimiter options then child_of prefix key else None in
      if seen_before child seenChildren then list_loop prefix options st seenChildren count keys
      else
        let seen := match child with Some c => c :: seenChildren | None => seenChildren end in
        match st !! key with
        | None => list_loop prefix options st seen count keys
        | Some e =>
            {| i_key := key; i_size := m_size (s_metadata e); i_updatedAt := updatedAt (s_metadata e) |} ::
            match limit options with
            | Some l => if (l <=? Z.of_nat (S count))%Z then [] else list_loop prefix options st seen (S count) keys
            | None => list_loop prefix options st seen (S count) keys
            end
        end
  end.

Definition matching (prefix : text) (st : gmap text StoredEntry) : list text :=
  merge_sort text_le (filter (λ k, is_prefix prefix k = true) (map_to_list st).*1).
Definition after_cursor (c : option text) (keys : list text) : list text :=
  match c with Some c => filter (λ k, text_gtb k c = true) keys | None => keys end.

Definition memory_list (prefix : text) (options : ListOptions) : Op MemoryStorageDriver (list StorageListItem) :=
  λ d, (Ok (list_loop prefix options (store d) [] 0 (after_cursor (cursor options) (matching prefix (store d)))), d).

(** [pipeline(stream, collector)]: a stream that fails rejects before the write. *)
Definition memory_putStream (key : text) (s : NodeReadable MemoryStorageDriver) (metadata : WriteMetadata) :
    Op MemoryStorageDriver StorageObjectMetadata :=
  b ← drain s; memory_put key b metadata.
Definition memory_getStream (key : text) : Op MemoryStorageDriver (NodeReadable MemoryStorageDriver) :=
  λ d, match store d !! key with
       | None => (Throw (NotFoundError key), d)
       | Some e => (Ok [mret (s_bytes e)], d)
       end.

#[export] Instance memory_driver : StorageDriver MemoryStorageDriver := {
  d_put := memory_put; d_get := memory_get; d_exists := memory_exists; d_delete := memory_delete;
  d_stat := memory_stat; d_list := memory_list; d_putStream := memory_putStream;
  d_getStream := memory_getStream;
  d_multipart := None; d_resumable := None; d_versioning := None; d_lifecycle := None
}.

(** *** The memory driver keeps the contract *)

Lemma matching_elem prefix st k :
  k ∈ matching prefix st ↔ is_Some (st !! k) ∧ is_prefix prefix k = true.
Proof.
  unfold matching. rewrite merge_sort_Permutation, list_elem_of_filter, list_elem_of_fmap.
  split.
  - intros (Hp & [k' e] & -> & He%elem_of_map_to_list). split; [by eexists|done].
  - intros ([e He] & Hp). split; [done|]. exists (k, e). split; [done|]. by apply elem_of_map_to_list.
Qed.
Lemma matching_NoDup prefix st : NoDup (matching prefix st).
Proof.
  unfold matching. rewrite merge_sort_Permutation. apply NoDup_filter, NoDup_fst_map_to_list.
Qed.
Lemma matching_sorted prefix st : StronglySorted text_le (matching prefix st).
Proof. unfold matching. apply (StronglySorted_merge_sort text_le). Qed.

(** Without a delimiter the loop is a plain prefix of the keys. *)
Definition item_of (st : gmap text StoredEntry) (k : text) : option StorageListItem :=
  (λ e, {| i_key := k; i_size := m_size (s_metadata e); i_updatedAt := updatedAt (s_metadata e) |}) <$> st !! k.

Lemma list_loop_all prefix o st count keys :
  delimiter o = false → limit o = None → list_loop prefix o st [] count keys = omap (item_of st) keys.
Proof.
  intros Hd Hl. revert count. induction keys as [|k keys IH]; intros count; [done|].
  cbn [list_loop omap list_omap]. rewrite Hd. unfold item_of at 1. cbn [seen_before].
  destruct (st !! k); cbn [fmap option_fmap option_map]; by rewrite ?Hl, IH.
Qed.

Lemma omap_item_keys st (keys : list text) :
  (∀ k, k ∈ keys → is_Some (st !! k)) → i_key <$> omap (item_of st) keys = keys.
Proof.
  induction keys as [|k keys IH]; intros H; [done|]. cbn [omap list_omap]. unfold item_of at 1.
  destruct (H k ltac:(left)) as [e ->]. cbn [fmap option_fmap option_map]. csimpl. f_equal.
  apply IH. intros. apply H. by right.
Qed.

Lemma memory_list_plain prefix c d :
  (memory_list prefix {| limit := None; cursor := c; delimiter := false |} d).1 =
  Ok (omap (item_of (store d)) (after_cursor c (matching prefix (store d)))).
Proof. cbn [memory_list fst cursor]. by rewrite list_loop_all. Qed.

(** A key beyond the cursor is any other key, when the cursor comes first in the order. *)
Lemma after_head k keys :
  StronglySorted text_le (k :: keys) → NoDup (k :: keys) → after_cursor (Some k) (k :: keys) = keys.
Proof.
  intros [Hk Hs]%StronglySorted_cons [Hn _]%NoDup_cons. cbn [after_cursor].
  rewrite filter_cons_False; [|unfold text_gtb; by rewrite text_le_refl].
  apply filter_all. rewrite Forall_forall in Hk |- *. intros x Hx. unfold text_gtb.
  destruct (text_leb x k) eqn:E; [|done]. specialize (Hk x Hx). by assert (x = k) as -> by by apply (anti_symm text_le).
Qed.

Lemma list_loop_limited prefix o st n count keys :
  delimiter o = false → limit o = Some (Z.of_nat (count + S n)) → (∀ k, k ∈ keys → is_Some (st !! k)) →
  list_loop prefix o st [] count keys = omap (item_of st) (take (S n) keys).
Proof.
  intros Hd. revert n count. induction keys as [|k keys IH]; intros n count Hl Hk; [done|].
  cbn [list_loop]. rewrite Hd, Hl. cbn [seen_before take omap list_omap]. unfold item_of at 1.
  destruct (Hk k ltac:(left)) as [e ->]. cbn [fmap option_fmap option_map]. f_equal.
  destruct n as [|n]; case_match eqn:E; reflect_bools; try lia; [done|].
  rewrite (IH n); [done|rewrite Hl; do 2 f_equal; lia|]. intros. apply Hk. by right.
Qed.

Lemma after_cursor_drop n keys k :
  StronglySorted text_le keys → NoDup keys → last (take n keys) = Some k →
  after_cursor (Some k) keys = drop n keys.
Proof.
  revert n. induction keys as [|x keys IH]; intros [|n]; [done..|]. intros Hs Hn.
  rewrite firstn_cons, last_cons. destruct (last (take n keys)) as [y|] eqn:E; intros [= ->].
  - pose proof (IH n) as IH'. rewrite StronglySorted_cons in Hs. rewrite NoDup_cons in Hn.
    destruct Hs as [Hx Hs], Hn as [Hxn Hn]. cbn [drop]. rewrite <-(IH' Hs Hn E). cbn [after_cursor].
    rewrite filter_cons_False; [done|]. unfold text_gtb.
    assert (k ∈ keys) as Hin.
    { rewrite <-(take_drop n keys). apply elem_of_app. left. by apply last_Some_elem_of. }
    rewrite Forall_forall in Hx. by rewrite (Hx k Hin).
  - apply last_None in E. rewrite after_head by done.
    destruct keys, n; try done; by rewrite drop_nil.
Qed.
(** *** Pages *)

Lemma StronglySorted_filter {A} (R : relation A) (P : A → Prop) `{!∀ x, Decision (P x)} l :
  StronglySorted R l → StronglySorted R (filter P l).
Proof.
  induction 1 as [|x l Hl IH Hx]; [constructor|]. rewrite filter_cons. case_decide; [|done].
  constructor; [done|]. by apply Forall_filter_keep.
Qed.

Lemma after_cursor_twice (c : option text) k keys :
  (∀ c', c = Some c' → text_gtb k c' = true) →
  after_cursor (Some k) (after_cursor c keys) = after_cursor (Some k) keys.
Proof.
  destruct c as [c|]; [|done]. intros Hk. cbn [after_cursor]. rewrite list_filter_filter.
  apply filter_iff_in. intros x _. split; [naive_solver|]. intros Hx. split; [done|].
  specialize (Hk c eq_refl). unfold text_gtb in *. apply negb_true_iff.
  destruct (text_leb x c) eqn:E; [|done]. apply negb_true_iff in Hk, Hx.
  destruct (text_le_total c k) as [Hck|Hkc]; [|unfold text_le in Hkc; congruence].
  assert (text_le x k) as Hxk by (by transitivity c). unfold text_le in Hxk. congruence.
Qed.

(** Reading the keys below a prefix page by page reads them all, each once: a page holds at
    most [n] items, what comes after its last key is what the page left out, and only the
    last page is empty. *)
Theorem memory_list_pages prefix c n d :
  ∃ page rest,
    memory_list prefix {| limit := Some (Z.of_nat (S n)); cursor := c; delimiter := false |} d = (Ok page, d) ∧
    memory_list prefix {| limit := None; cursor := c; delimiter := false |} d = (Ok (page ++ rest), d) ∧
    length page <= S n ∧
    match last page with
    | Some i => memory_list prefix {| limit := None; cursor := Some (i_key i); delimiter := false |} d = (Ok rest, d)
    | None => rest = []
    end.
Proof.
  set (keys := matching prefix (store d)). set (ks := after_cursor c keys).
  assert (∀ k, k ∈ keys → is_Some (store d !! k)) as Hk by (by intros k [? _]%matching_elem).
  assert (∀ k, k ∈ ks → k ∈ keys ∧ ∀ c', c = Some c' → text_gtb k c' = true) as Hsub.
  { subst ks. destruct c as [c|]; [|done]. intros k [? ?]%list_elem_of_filter. naive_solver. }
  assert (StronglySorted text_le ks ∧ NoDup ks) as [Hs Hn].
  { subst ks. destruct c as [c|]; cbn [after_cursor].
    - split; [apply StronglySorted_filter, matching_sorted|apply NoDup_filter, matching_NoDup].
    - split; [apply matching_sorted|apply matching_NoDup]. }
  assert (∀ c, (memory_list prefix {| limit := None; cursor := c; delimiter := false |} d) =
               (Ok (omap (item_of (store d)) (after_cursor c keys)), d)) as Hall.
  { intros c'. unfold memory_list. cbn [cursor]. by rewrite list_loop_all. }
  exists (omap (item_of (store d)) (take (S n) ks)), (omap (item_of (store d)) (drop (S n) ks)).
  rewrite !Hall, <-omap_app, take_drop. repeat split.
  - unfold memory_list. cbn [cursor]. rewrite (list_loop_limited _ _ _ n); try done.
    intros. by apply Hk, Hsub.
  - rewrite <-(length_fmap i_key), omap_item_keys, length_take; [lia|].
    intros k Hin. apply Hk, Hsub. rewrite <-(take_drop (S n) ks). apply elem_of_app. by left.
  - assert (i_key <$> omap (item_of (store d)) (take (S n) ks) = take (S n) ks) as Hkeys.
    { apply omap_item_keys. intros k Hin. apply Hk, Hsub.
      rewrite <-(take_drop (S n) ks). apply elem_of_app. by left. }
    pose proof (fmap_last i_key (omap (item_of (store d)) (take (S n) ks))) as Hl. rewrite Hkeys in Hl.
    destruct (last (omap _ _)) as [i|]; cbn in Hl.
    + rewrite Hall, <-(after_cursor_twice c); [fold ks; by rewrite (after_cursor_drop _ _ _ Hs Hn Hl)|].
      apply Hsub. rewrite <-(take_drop (S n) ks). apply elem_of_app. left. by apply last_Some_elem_of.
    + apply last_None in Hl. destruct ks; [done|]. by cbn in Hl.
Qed.

(** *** The contract *)

Definition entry_of (e : StoredEntry) : Entry := (s_bytes e, s_metadata e).

Lemma memory_list_lists prefix d :
  lists prefix (entry_of <$> store d) (omap (item_of (store d)) (matching prefix (store d))).
Proof.
  split.
  - rewrite omap_item_keys; [apply matching_NoDup|]. by intros k [? _]%matching_elem.
  - intros i. rewrite list_elem_of_omap. unfold item_of. split.
    + intros (k & [_ Hp]%matching_elem & (e & He & Ei)%fmap_Some). subst i.
      exists k, (entry_of e). by rewrite lookup_fmap, He.
    + intros (k & e' & (e & <- & He)%lookup_fmap_Some & Hp & ->). exists k.
      rewrite matching_elem, He. split; [|done]. by split; [eexists|].
Qed.

#[export] Program Instance memory_laws : DriverLaws MemoryStorageDriver := {
  objects := λ d, entry_of <$> store d
}.
Next Obligation. intros k b w d. cbn. by rewrite fmap_insert. Qed.
Next Obligation. intros k d. cbn. by rewrite fmap_delete. Qed.
Next Obligation. intros k d. cbn. split; [done|]. intros r [= <-]. by rewrite lookup_fmap. Qed.
Next Obligation.
  intros k d. cbn. split; [done|]. intros r [= <-]. rewrite lookup_fmap. apply bool_decide_ext. by rewrite fmap_is_Some.
Qed.
Next Obligation.
  intros k d. cbn. split; [done|]. intros r [= <-]. rewrite lookup_fmap. by destruct (store d !! k).
Qed.
Next Obligation.
  intros p d. cbn. split; [done|]. intros r [= <-]. rewrite list_loop_all by done. apply memory_list_lists.
Qed.
Next Obligation. done. Qed.
Next Obligation.
  intros k d. cbn. unfold memory_getStream. rewrite lookup_fmap. destruct (store d !! k) as [e|]; [|done].
  split; [done|]. exists (entry_of e). split; [done|]. intros d'. rewrite drain_ready. cbn [drain mret op_ret fst snd]. by rewrite app_nil_r.
Qed.

#[export] Instance memory_reliable : Reliable MemoryStorageDriver.
Proof. by split. Qed.

(** An overwrite keeps the time of creation, whatever the clock says. *)
Lemma memory_put_keeps_createdAt k b w d e m :
  store d !! k = Some e → (memory_put k b w d).1 = Ok m → createdAt m = createdAt (s_metadata e).
Proof. intros He. cbn. rewrite He. by intros [= <-]. Qed.
End memory.

(** ** A clock and a digest for examples *)

Definition sample_sha : Sha256 := λ b, show (Z.of_nat (length b)).
Definition sample_clock : Clock := λ n, (1000 + Z.of_nat n)%Z.

#[local] Existing Instance sample_sha.
#[local] Existing Instance sample_clock.
Definition sample_keys (options : ListOptions) : list (list ascii) :=
  let d := (memory_put (lit "p/a/1") [] no_metadata new_MemoryStorageDriver).2 in
  let d := (memory_put (lit "p/a/2") [] no_metadata d).2 in
  let d := (memory_put (lit "p/b") [] no_metadata d).2 in
  match (memory_list (lit "p/") options d).1 with Ok items => i_key <$> items | Throw _ => [] end.

(** At most zero items is one item: the limit is looked at after an item is added. *)
Example list_limit_zero : sample_keys {| limit := Some 0%Z; cursor := None; delimiter := false |} = [lit "p/a/1"].
Proof. vm_compute. reflexivity. Qed.
(** With a delimiter a sub-directory is represented by the first key below it. *)
Example list_delimiter_key :
  sample_keys {| limit := None; cursor := None; delimiter := true |} = [lit "p/a/1"; lit "p/b"].
Proof. vm_compute. reflexivity. Qed.
