(* ===== verification/StorageMultipart.v ===== *)
(** * Multipart uploads over any storage driver

    Models src/packages/storage/src/multipart.ts.  The manager keeps a [Map] from upload
    ids to sessions next to the driver; parts are objects under reserved keys, and
    [complete] streams them back into the final object.  A driver with a capability of its
    own is called instead.  Identifiers ([randomUUID]) are arguments, part numbers are
    integers. *)

From Stdlib Require Import Ascii String.
From S2P Require Import Prelude JsText JsMap ConfigValue StorageDriver.

Open Scope nat_scope.
#[local] Open Scope list_scope.

Record MultipartSession : Type := {
  u_key : list ascii;
  u_metadata : WriteMetadata;
  partNumbers : list Z
}.
Abbreviation Uploads := (list (list ascii * MultipartSession)) (only parsing).

Definition PART_KEY_PREFIX : text := lit ".multipart/".
Definition octets : WriteMetadata :=
  {| w_contentType := Some (lit "application/octet-stream"); w_owner := None; w_tenant := None;
     w_accessLevel := None; w_custom := None |}.

(** [`${n}`] *)
Definition show_int (n : Z) : text := if (n <? 0)%Z then "-"%char :: show (- n) else show n.
Definition partKey (uploadId : text) (n : Z) : text := PART_KEY_PREFIX ++ uploadId ++ "/"%char :: show_int n.

Definition UnknownUpload (uploadId : text) : StorageError :=
  StorageErr (lit "Unknown or already-finalized multipart upload id " ++ quoted_text uploadId ++ lit ".").
Definition InvalidPartNumber (n : Z) : StorageError :=
  StorageErr (lit "Invalid multipart part number " ++ show_int n ++ lit "; expected a positive integer.").

Section multipart.
Context {D : Type} `{StorageDriver D, Sha256}.
Implicit Types (sessions : Uploads) (d : D).
#[local] Abbreviation Multipart := (Op (list (list ascii * MultipartSession) * D)).

Definition create (key : text) (metadata : WriteMetadata) (uuid : text) : Multipart text :=
  match d_multipart with
  | Some native => on_driver (mp_create native key metadata)
  | None =>
      sessions ← state;
      set_state (jm_set uuid {| u_key := key; u_metadata := metadata; partNumbers := [] |} sessions) ;;
      mret uuid
  end.

Definition requireSession (uploadId : text) : Multipart MultipartSession :=
  sessions ← state;
  match jm_get uploadId sessions with
  | Some s => mret s
  | None => op_throw (UnknownUpload uploadId)
  end.

Definition assertValidPartNumber {M} (n : Z) : Op M unit :=
  if (n <? 1)%Z then op_throw (InvalidPartNumber n) else mret tt.

Definition add_part (uploadId : text) (n : Z) (sessions : Uploads) : Uploads :=
  match jm_get uploadId sessions with
  | Some s => jm_set uploadId {| u_key := u_key s; u_metadata := u_metadata s; partNumbers := set_add n (partNumbers s) |} sessions
  | None => sessions
  end.

Definition uploadPart (uploadId : text) (n : Z) (b : bytes) : Multipart StoredPart :=
  match d_multipart with
  | Some native => on_driver (mp_uploadPart native uploadId n b)
  | None =>
      _ ← requireSession uploadId;
      assertValidPartNumber n ;;
      _ ← on_driver (d_put (partKey uploadId n) b octets);
      sessions ← state;
      set_state (add_part uploadId n sessions) ;;
      mret {| partNumber := n; p_etag := sha256Hex b; p_size := length b |}
  end.

(** The generator that reads the parts back, one at a time. *)
Definition assemblePart (uploadId : text) (part : StoredPart) : Op D bytes :=
  result ← d_get (partKey uploadId (partNumber part));
  match result with
  | None => op_throw (NotFoundError (partKey uploadId (partNumber part)))
  | Some (b, _) => mret b
  end.

Definition discardParts (uploadId : text) (numbers : list Z) : Op D unit :=
  for_each numbers (λ n, d_delete (partKey uploadId n)).
Definition close_session (uploadId : text) : Multipart unit :=
  sessions ← state; set_state (jm_delete uploadId sessions).

Definition complete (uploadId : text) (parts : list StoredPart) : Multipart StorageObjectMetadata :=
  match d_multipart with
  | Some native => m ← on_driver (mp_complete native uploadId parts); mret (normalizeMetadata m)
  | None =>
      session ← requireSession uploadId;
      m ← on_driver (d_putStream (u_key session) (assemblePart uploadId <$> parts) (u_metadata session));
      on_driver (discardParts uploadId (partNumbers session)) ;;
      close_session uploadId ;;
      mret (normalizeMetadata m)
  end.

Definition abort (uploadId : text) : Multipart unit :=
  match d_multipart with
  | Some native => on_driver (mp_abort native uploadId)
  | None =>
      sessions ← state;
      match jm_get uploadId sessions with
      | None => mret tt
      | Some session => on_driver (discardParts uploadId (partNumbers session)) ;; close_session uploadId
      end
  end.
End multipart.

(** ** Keys of parts *)

Lemma show_inj m n : (0 <= m)%Z → (0 <= n)%Z → show m = show n → m = n.
Proof. intros Hm Hn E. by rewrite <-(show_value m), <-(show_value n), E by done. Qed.

Lemma partKey_inj id m n : (1 <= m)%Z → (1 <= n)%Z → partKey id m = partKey id n → m = n.
Proof.
  intros Hm Hn E. unfold partKey in E. apply app_inv_head, app_inv_head in E. injection E as E.
  unfold show_int in E. rewrite !(proj2 (Z.ltb_ge _ _)) in E by lia. apply show_inj; [lia..|done].
Qed.

Lemma partKey_reserved id n : is_prefix PART_KEY_PREFIX (partKey id n) = true.
Proof. apply is_prefix_app. Qed.

Lemma not_reserved_ne key id n : is_prefix PART_KEY_PREFIX key = false → key ≠ partKey id n.
Proof. intros E ->. by rewrite partKey_reserved in E. Qed.
#[export] Hint Resolve not_reserved_ne : street.

(** ** What an upload amounts to *)

Lemma jm_delete_set {K V} `{EqDecision K} (k : K) (v : V) m :
  jm_get k m = None → jm_delete k (jm_set k v m) = m.
Proof.
  induction m as [|[k' v'] m IH]; cbn; [by rewrite decide_True|].
  destruct (decide (k = k')); [done|]. intros E. cbn. by rewrite decide_False, IH.
Qed.

Section flow.
Context {D : Type} `{DriverLaws D, !Reliable D} (simulated : d_multipart = None).
Implicit Types (sessions : list (list ascii * MultipartSession)) (d : D) (c : gmap Z (list ascii)).

(** The parts [c] of upload [id] are stored, next to the objects of [o]. *)
Definition stored (id : text) c (o : gmap text Entry) d : Prop :=
  (∀ n b, c !! n = Some b → ∃ m, objects d !! partKey id n = Some (b, m)) ∧
  ∀ k, (∀ n, n ∈ dom c → k ≠ partKey id n) → objects d !! k = o !! k.

(** The session is open and knows the parts. *)
Definition opened (id key : text) (w : WriteMetadata) c sessions0 sessions : Prop :=
  ∃ numbers, sessions = jm_set id {| u_key := key; u_metadata := w; partNumbers := numbers |} sessions0 ∧
             ∀ n, n ∈ numbers ↔ n ∈ dom c.

Lemma requireSession_run id ss d :
  requireSession id (ss, d) =
  (match jm_get id ss with Some s => Ok s | None => Throw (UnknownUpload id) end, (ss, d)).
Proof. unfold requireSession, mbind, op_bind. cbn. by destruct (jm_get id ss). Qed.

Lemma requireSession_ok {A} id s ss d (f : MultipartSession → Op (list (text * MultipartSession) * D) A) :
  jm_get id ss = Some s → (requireSession id ≫= f) (ss, d) = f s (ss, d).
Proof. intros E. apply op_bind_ok. by rewrite requireSession_run, E. Qed.

Lemma uploadPart_ok id key w n b c o ss0 ss d :
  (1 <= n)%Z → map_Forall (λ n _, 1 <= n)%Z c → opened id key w c ss0 ss → stored id c o d →
  ∃ ss' d', uploadPart id n b (ss, d) = (Ok {| partNumber := n; p_etag := sha256Hex b; p_size := length b |}, (ss', d')) ∧
            opened id key w (<[n := b]> c) ss0 ss' ∧ stored id (<[n := b]> c) o d'.
Proof.
  intros Hn Hc (numbers & -> & Hnum) [Hst Hrest].
  destruct (put_ok (partKey id n) b octets d) as (m & d' & Hput & Hobj & _).
  eexists _, d'. split; [|split].
  - unfold uploadPart. rewrite simulated. rewrite (requireSession_ok _ _ _ _ _ (jm_get_set_eq _ _ _)).
    unfold assertValidPartNumber.
    rewrite (proj2 (Z.ltb_ge _ _)) by lia. rewrite (op_bind_ok (mret _) _ _ _ _ eq_refl).
    rewrite (op_bind_ok _ _ _ _ _ (on_driver_run _ _ _ _ _ Hput)). reflexivity.
  - cbn. unfold add_part. rewrite jm_get_set_eq, jm_set_set. eexists. split; [done|].
    intros x. cbn. rewrite elem_of_set_add, Hnum, dom_insert. set_solver.
  - split.
    + intros x b' [[<- <-]|[Hx Hx']]%lookup_insert_Some.
      * exists m. by rewrite Hobj, lookup_insert_eq.
      * destruct (Hst x b' Hx') as [m' Hm']. exists m'. rewrite Hobj, lookup_insert_ne; [done|].
        intros E. apply Hx. apply (partKey_inj id); [done|by eapply (Hc x)|done].
    + intros k Hk. rewrite Hobj, lookup_insert_ne by (symmetry; apply Hk; set_solver). apply Hrest.
      intros x Hx. apply Hk. set_solver.
Qed.

(** The parts uploaded so far: the last upload of a number counts. *)
Definition uploaded (c : gmap Z (list ascii)) (uploads : list (Z * list ascii)) : gmap Z (list ascii) :=
  foldl (λ c u, <[u.1 := u.2]> c) c uploads.

Definition upload_all (id : text) (uploads : list (Z * list ascii)) : Op (list (text * MultipartSession) * D) unit :=
  for_each uploads (λ u, uploadPart id u.1 u.2 ;; mret tt).

Lemma upload_all_ok id key w uploads : ∀ c o ss0 ss d,
  Forall (λ u, 1 <= u.1)%Z uploads → map_Forall (λ n _, 1 <= n)%Z c →
  opened id key w c ss0 ss → stored id c o d →
  ∃ ss' d', upload_all id uploads (ss, d) = (Ok tt, (ss', d')) ∧
            opened id key w (uploaded c uploads) ss0 ss' ∧ stored id (uploaded c uploads) o d'.
Proof.
  induction uploads as [|[n b] uploads IH]; intros c o ss0 ss d Hu Hc Ho Hs; [by exists ss, d|].
  apply Forall_cons in Hu as [Hn Hu]. cbn in Hn.
  destruct (uploadPart_ok id key w n b c o ss0 ss d Hn Hc Ho Hs) as (ss1 & d1 & Hrun & Ho1 & Hs1).
  destruct (IH _ _ _ _ _ Hu ltac:(by apply map_Forall_insert_2) Ho1 Hs1) as (ss2 & d2 & Hrun2 & H2).
  exists ss2, d2. split; [|done]. unfold upload_all. cbn [for_each fst snd].
  rewrite op_bind_assoc, (op_bind_ok _ _ _ _ _ Hrun). by rewrite (op_bind_ok (mret _) _ _ _ _ eq_refl).
Qed.

Lemma assemble_ok id c o parts : ∀ contents d,
  stored id c o d → mapM (λ p, c !! partNumber p) parts = Some contents →
  ∃ d', drain (assemblePart id <$> parts) d = (Ok (concat contents), d') ∧ objects d' = objects d.
Proof.
  induction parts as [|p parts IH]; intros contents d Hs.
  { intros [= <-]. by exists d. }
  cbn. intros (b & Hb & (rest & Hrest & [= <-])%bind_Some)%bind_Some.
  destruct (proj1 Hs _ _ Hb) as [m Hm].
  destruct (get_ok (partKey id (partNumber p)) d) as (d1 & Hget & Hd1). rewrite Hm in Hget.
  assert (stored id c o d1) as Hs1 by (unfold stored; by rewrite Hd1).
  destruct (IH rest d1 Hs1 Hrest) as (d2 & Hdrain & Hd2). exists d2. split; [|congruence].
  csimpl. cbn [drain]. rewrite (op_bind_ok (assemblePart id p) _ _ b d1).
  - by rewrite (op_bind_ok _ _ _ _ _ Hdrain).
  - unfold assemblePart. by rewrite (op_bind_ok _ _ _ _ _ Hget).
Qed.

(** Discarding removes the parts and nothing else. *)
Definition discarded (id : text) (numbers : list Z) (o o' : gmap text Entry) : Prop :=
  (∀ n, n ∈ numbers → o' !! partKey id n = None) ∧
  (∀ k, (∀ n, n ∈ numbers → k ≠ partKey id n) → o' !! k = o !! k) ∧
  ∀ k, o !! k = None → o' !! k = None.

Lemma discard_ok id numbers : ∀ d,
  ∃ d', discardParts id numbers d = (Ok tt, d') ∧ discarded id numbers (objects d) (objects d').
Proof.
  induction numbers as [|n numbers IH]; intros d.
  { exists d. split; [done|]. split; [by intros n ?%not_elem_of_nil|done]. }
  destruct (delete_ok (partKey id n) d) as (d1 & Hdel & Hd1). destruct (IH d1) as (d2 & Hrun & Ha & Hb & Hc).
  exists d2. split; [unfold discardParts; cbn [for_each]; by rewrite (op_bind_ok _ _ _ _ _ Hdel)|]. repeat split.
  - intros x [->|Hx]%elem_of_cons; [|by apply Ha]. apply Hc. by rewrite Hd1, lookup_delete_eq.
  - intros k Hk. rewrite Hb, Hd1; [|intros; apply Hk; by right].
    apply lookup_delete_ne. intros <-. by apply (Hk n ltac:(left)).
  - intros k Hk. apply Hc. rewrite Hd1. by apply lookup_delete_None; right.
Qed.

(** With its parts discarded an upload has left nothing but what was written elsewhere. *)
Lemma discarded_eq (id : text) c (o1 o2 o' : gmap text Entry) (numbers : list Z) :
  (∀ n, n ∈ numbers ↔ n ∈ dom c) → (∀ n, n ∈ dom c → o2 !! partKey id n = None) →
  (∀ k, (∀ n, n ∈ dom c → k ≠ partKey id n) → o1 !! k = o2 !! k) →
  discarded id numbers o1 o' → o' = o2.
Proof.
  intros Hnum H2 H12 (Ha & Hb & _). apply map_eq. intros k.
  destruct (decide (k ∈ partKey id <$> numbers)) as [Hk|Hk].
  - apply list_elem_of_fmap in Hk as (n & -> & Hn). rewrite Ha, H2; [done|by apply Hnum|done].
  - assert (∀ n, n ∈ numbers → k ≠ partKey id n) as Hne.
    { intros n Hn ->. apply Hk. by apply list_elem_of_fmap_2. }
    rewrite Hb by done. apply H12. intros n Hn%Hnum. by apply Hne.
Qed.

Lemma close_session_run id ss d : close_session id (ss, d) = (Ok tt, (jm_delete id ss, d)).
Proof. done. Qed.

(** A whole upload: [create], the parts in the order they arrive, [complete]. *)
Definition multipart_upload (key : text) (w : WriteMetadata) (id : text) (uploads : list (Z * list ascii))
    (parts : list StoredPart) : Op (list (text * MultipartSession) * D) StorageObjectMetadata :=
  id ← create key w id; upload_all id uploads ;; complete id parts.
Definition aborted_upload (key : text) (w : WriteMetadata) (id : text) (uploads : list (Z * list ascii)) :
    Op (list (text * MultipartSession) * D) unit :=
  id ← create key w id; upload_all id uploads ;; abort id.

Lemma started_ok id key w uploads ss d :
  jm_get id ss = None → (∀ n, objects d !! partKey id n = None) → Forall (λ u, 1 <= u.1)%Z uploads →
  ∃ ss1 d1, (id ← create key w id; upload_all id uploads ;; mret id) (ss, d) = (Ok id, (ss1, d1)) ∧
            opened id key w (uploaded ∅ uploads) ss ss1 ∧ stored id (uploaded ∅ uploads) (objects d) d1.
Proof.
  intros Hss Hd Hu.
  destruct (upload_all_ok id key w uploads ∅ (objects d) ss
    (jm_set id {| u_key := key; u_metadata := w; partNumbers := [] |} ss) d) as (ss1 & d1 & Hrun & Hop & Hst); [done|..].
  - apply map_Forall_empty.
  - exists []. split; [done|]. set_solver.
  - split; [set_solver|done].
  - exists ss1, d1. split; [|done]. unfold create. rewrite simulated.
    rewrite (op_bind_ok _ _ _ id (jm_set id {| u_key := key; u_metadata := w; partNumbers := [] |} ss, d)) by done.
    by rewrite (op_bind_ok _ _ _ _ _ Hrun).
Qed.

Lemma started_bind {A} id key w uploads ss d ss1 d1
    (f : text → Op (list (text * MultipartSession) * D) A) :
  (id ← create key w id; upload_all id uploads ;; mret id) (ss, d) = (Ok id, (ss1, d1)) →
  (∀ s, create key w id s = (Ok id, (jm_set id {| u_key := key; u_metadata := w; partNumbers := [] |} s.1, s.2))) →
  (create key w id ≫= λ id, upload_all id uploads ;; f id) (ss, d) = f id (ss1, d1).
Proof.
  intros E Hc. rewrite (op_bind_ok _ _ _ _ _ (Hc _)) in E. rewrite (op_bind_ok _ _ _ _ _ (Hc _)).
  apply op_bind_inv in E as ([] & s & Hu & E). rewrite (op_bind_ok _ _ _ _ _ Hu).
  by injection E as ->.
Qed.

Lemma create_run id key w s :
  create key w id s = (Ok id, (jm_set id {| u_key := key; u_metadata := w; partNumbers := [] |} s.1, s.2)).
Proof. unfold create. by rewrite simulated. Qed.

(** C17: An upload in parts is one [put] of their concatenation: whatever order the parts came
    in, and however often a part was sent again, the object holds the parts in the order of
    the list given to [complete], with the metadata of [create]; the other objects are as they were,
    no part is left, and the session is gone. *)
Theorem multipart_is_one_put key w id uploads parts contents ss d :
  is_prefix PART_KEY_PREFIX key = false → jm_get id ss = None → (∀ n, objects d !! partKey id n = None) →
  Forall (λ u, 1 <= u.1)%Z uploads →
  mapM (λ p, uploaded ∅ uploads !! partNumber p) parts = Some contents →
  ∃ m d', multipart_upload key w id uploads parts (ss, d) = (Ok (normalizeMetadata m), (ss, d')) ∧
          describes key (concat contents) w m ∧
          objects d' = <[key := (concat contents, m)]> (objects d).
Proof.
  intros Hkey Hss Hd Hu Hparts.
  destruct (started_ok id key w uploads ss d Hss Hd Hu) as (ss1 & d1 & Hrun & (numbers & -> & Hnum) & Hst).
  destruct (assemble_ok id _ _ parts contents d1 Hst Hparts) as (d2 & Hdrain & Hd2).
  destruct (put_ok key (concat contents) w d2) as (m & d3 & Hput & Hobj & Hdesc).
  destruct (discard_ok id numbers d3) as (d4 & Hdis & Hd4).
  exists m, d4. split; [|split; [done|]].
  - unfold multipart_upload. rewrite (started_bind _ _ _ _ _ _ _ _ (λ id, complete id parts) Hrun (create_run _ _ _)).
    unfold complete. rewrite simulated, (requireSession_ok _ _ _ _ _ (jm_get_set_eq _ _ _)). cbn [u_key u_metadata partNumbers].
    rewrite (op_bind_ok _ _ _ m (jm_set id {| u_key := key; u_metadata := w; partNumbers := numbers |} ss, d3)).
    2:{ apply on_driver_run. rewrite putStream_law. by rewrite (op_bind_ok _ _ _ _ _ Hdrain). }
    rewrite (op_bind_ok _ _ _ _ _ (on_driver_run _ _ _ _ _ Hdis)).
    rewrite (op_bind_ok _ _ _ _ _ (close_session_run _ _ _)). cbn. by rewrite jm_delete_set.
  - eapply discarded_eq; [done|..|exact Hd4].
    + intros n _. rewrite lookup_insert_ne; [done|]. by apply not_reserved_ne.
    + intros k Hk. rewrite Hobj, Hd2. destruct (decide (k = key)) as [->|Hne]; [by rewrite !lookup_insert_eq|].
      rewrite !lookup_insert_ne by done. by apply Hst.
Qed.

(** An aborted upload leaves no trace. *)
Theorem abort_leaves_nothing key w id uploads ss d :
  jm_get id ss = None → (∀ n, objects d !! partKey id n = None) → Forall (λ u, 1 <= u.1)%Z uploads →
  ∃ d', aborted_upload key w id uploads (ss, d) = (Ok tt, (ss, d')) ∧ objects d' = objects d.
Proof.
  intros Hss Hd Hu.
  destruct (started_ok id key w uploads ss d Hss Hd Hu) as (ss1 & d1 & Hrun & (numbers & -> & Hnum) & Hst).
  destruct (discard_ok id numbers d1) as (d2 & Hdis & Hd2).
  exists d2. split.
  - unfold aborted_upload. rewrite (started_bind _ _ _ _ _ _ _ _ abort Hrun (create_run _ _ _)).
    unfold abort. rewrite simulated. rewrite (op_bind_ok state _ _ _ _ eq_refl). cbn [fst]. rewrite jm_get_set_eq.
    rewrite (op_bind_ok _ _ _ _ _ (on_driver_run _ _ _ _ _ Hdis)). rewrite close_session_run. by rewrite jm_delete_set.
  - eapply discarded_eq; [done|..|exact Hd2]; [done|]. intros k Hk. by apply Hst.
Qed.

(** A part that was never uploaded: [complete] fails, no object is written, and the
    session stays open for another attempt. *)
Theorem complete_missing_part id key w numbers parts1 p parts2 contents ss d :
  jm_get id ss = Some {| u_key := key; u_metadata := w; partNumbers := numbers |} →
  Forall2 (λ q b, fst <$> objects d !! partKey id (partNumber q) = Some b) parts1 contents →
  objects d !! partKey id (partNumber p) = None →
  ∃ d', complete id (parts1 ++ p :: parts2) (ss, d) = (Throw (NotFoundError (partKey id (partNumber p))), (ss, d')) ∧
        objects d' = objects d.
Proof.
  intros Hss Hpre Hp.
  assert (∃ d', drain (assemblePart id <$> parts1 ++ p :: parts2) d =
                (Throw (NotFoundError (partKey id (partNumber p))), d') ∧ objects d' = objects d) as (d' & Hdrain & Hd').
  { remember (objects d) as o eqn:Ho. revert d Ho.
    induction Hpre as [|q b parts1 contents Hq Hpre IH]; intros d Ho; csimpl; cbn [drain].
    - destruct (get_ok (partKey id (partNumber p)) d) as (d' & Hget & Hd'). exists d'. split; [|congruence].
      apply op_bind_throw. unfold assemblePart. rewrite (op_bind_ok _ _ _ _ _ Hget), <-Ho, Hp. done.
    - destruct (get_ok (partKey id (partNumber q)) d) as (d1 & Hget & Hd1). rewrite <-Ho in Hget, Hd1.
      apply fmap_Some in Hq as ([b' m] & Hq & ->). rewrite Hq in Hget.
      destruct (IH d1 (eq_sym Hd1)) as (d2 & Hrun & Hd2). exists d2. split; [|done].
      rewrite (op_bind_ok (assemblePart id q) _ _ b' d1); [by apply op_bind_throw|].
      unfold assemblePart. by rewrite (op_bind_ok _ _ _ _ _ Hget). }
  exists d'. split; [|done]. unfold complete. rewrite simulated, (requireSession_ok _ _ _ _ _ Hss). cbn [u_key u_metadata].
  apply op_bind_throw, on_driver_run. rewrite putStream_law. by apply op_bind_throw.
Qed.
End flow.

(** ** An upload over the memory driver *)

#[local] Existing Instance sample_sha.
#[local] Existing Instance sample_clock.

(** The second part comes first, and is sent again. *)
Lemma multipart_is_one_put_witness :
  ∃ m d', multipart_upload (lit "video") octets (lit "u1")
            [(2%Z, lit "old"); (1%Z, lit "ab"); (2%Z, lit "cd")]
            [{| partNumber := 1; p_etag := []; p_size := 2 |}; {| partNumber := 2; p_etag := []; p_size := 2 |}]
            ([], new_MemoryStorageDriver) = (Ok (normalizeMetadata m), ([], d')) ∧
          describes (lit "video") (concat [lit "ab"; lit "cd"]) octets m ∧
          objects d' = <[lit "video" := (concat [lit "ab"; lit "cd"], m)]> (objects new_MemoryStorageDriver).
Proof.
  apply multipart_is_one_put; [reflexivity|reflexivity|reflexivity|intros n; reflexivity| |vm_compute; reflexivity].
  repeat constructor; cbn; lia.
Defined.
