(* ===== verification/StorageResumable.v ===== *)
(** * Resumable uploads over any storage driver

    Models src/packages/storage/src/resumable.ts.  An upload is a session; every attempt
    brings the whole content from the start, and what is persisted already is skipped.

    [resume] waits for its stream and for the driver, and a [cancel] may come at any of these
    points; it is therefore a sequence of steps ([resume_begin], one [resume_chunk] for each
    chunk, [resume_finish], [resume_close]).  A running resume keeps its session object
    when the session has left the [Map], so the state has the objects ([heap]) and the ids in
    the [Map] ([open_ids]) apart.  Two resumes of one session at a time are not modelled. *)

From Stdlib Require Import Ascii String.
From S2P Require Import Prelude JsText JsMap ConfigValue StorageDriver.

Open Scope nat_scope.
#[local] Open Scope list_scope.

Record ResumableSession : Type := {
  r_key : list ascii;
  r_metadata : WriteMetadata;
  completing : bool;
  cancelled : bool
}.
Record ResumableState : Type := { heap : gmap (list ascii) ResumableSession; open_ids : list (list ascii) }.

Definition SESSION_KEY_PREFIX : text := lit ".resumable/".
Definition sessionKey (sessionId : text) : text := SESSION_KEY_PREFIX ++ sessionId.
Definition session_octets : WriteMetadata :=
  {| w_contentType := Some (lit "application/octet-stream"); w_owner := None; w_tenant := None;
     w_accessLevel := None; w_custom := None |}.

Definition UnknownSession (id : text) : StorageError :=
  StorageErr (lit "Unknown or already-finalized resumable upload session " ++ quoted_text id ++ lit ".").
Definition CancelledSession (id : text) : StorageError :=
  StorageErr (lit "Resumable upload session " ++ quoted_text id ++ lit " was cancelled during resume.").

(** A resume that waits for its next chunk. *)
Record Resume : Type := { session_id : list ascii; persisted : list ascii; seen : nat }.

Definition set_completing (s : ResumableSession) : ResumableSession :=
  {| r_key := r_key s; r_metadata := r_metadata s; completing := true; cancelled := cancelled s |}.
Definition set_cancelled (s : ResumableSession) : ResumableSession :=
  {| r_key := r_key s; r_metadata := r_metadata s; completing := completing s; cancelled := true |}.

Section resumable.
Context {D : Type} `{StorageDriver D, Sha256}.
#[local] Abbreviation Resumable := (Op (ResumableState * D)).

Definition start (key : text) (metadata : WriteMetadata) (uuid : text) : Resumable text :=
  match d_resumable with
  | Some native => on_driver (rs_start native key metadata)
  | None =>
      st ← state;
      set_state {| heap := <[uuid := {| r_key := key; r_metadata := metadata; completing := false; cancelled := false |}]> (heap st);
                   open_ids := set_add uuid (open_ids st) |} ;;
      mret uuid
  end.

(** The session object of a running resume. *)
Definition session_object (id : text) : Resumable ResumableSession :=
  st ← state; match heap st !! id with Some s => mret s | None => op_throw (UnknownSession id) end.
Definition requireSession (id : text) : Resumable ResumableSession :=
  st ← state; if decide (id ∈ open_ids st) then session_object id else op_throw (UnknownSession id).
Definition update_session (f : ResumableSession → ResumableSession) (id : text) : Resumable unit :=
  st ← state; set_state {| heap := alter f id (heap st); open_ids := open_ids st |}.
Definition forget_session (id : text) : Resumable unit :=
  st ← state; set_state {| heap := heap st; open_ids := set_delete id (open_ids st) |}.

Definition readPersisted (reservedKey : text) : Op D bytes :=
  result ← d_get reservedKey; mret (match result with Some (b, _) => b | None => [] end).

Definition resume_begin (id : text) : Resumable Resume :=
  _ ← requireSession id;
  p ← on_driver (readPersisted (sessionKey id));
  mret {| session_id := id; persisted := p; seen := 0 |}.

Definition resume_chunk (r : Resume) (buf : bytes) : Resumable Resume :=
  session ← session_object (session_id r);
  if cancelled session then
    on_driver (d_delete (sessionKey (session_id r))) ;; op_throw (CancelledSession (session_id r))
  else
    let chunkEnd := seen r + length buf in
    if length (persisted r) <? chunkEnd then
      let skip := length (persisted r) - seen r in
      let p := persisted r ++ drop skip buf in
      _ ← on_driver (d_put (sessionKey (session_id r)) p session_octets);
      mret {| session_id := session_id r; persisted := p; seen := chunkEnd |}
    else mret {| session_id := session_id r; persisted := persisted r; seen := chunkEnd |}.

(** The stream has ended. *)
Definition resume_finish (r : Resume) : Resumable StorageObjectMetadata :=
  session ← session_object (session_id r);
  update_session set_completing (session_id r) ;;
  on_driver (d_put (r_key session) (persisted r) (r_metadata session)).
Definition resume_close (r : Resume) (metadata : StorageObjectMetadata) : Resumable StorageObjectMetadata :=
  on_driver (d_delete (sessionKey (session_id r))) ;;
  forget_session (session_id r) ;;
  mret (normalizeMetadata metadata).

Fixpoint resume_chunks (r : Resume) (stream : NodeReadable D) : Resumable Resume :=
  match stream with
  | [] => mret r
  | chunk :: stream => buf ← on_driver chunk; r ← resume_chunk r buf; resume_chunks r stream
  end.

(** The chunks of the native path: [offset] bytes are there, [seen] have gone by. *)
Fixpoint native_chunks (native : ResumableCapability D) (id : text) (offset seen : nat) (stream : NodeReadable D) :
    Op D unit :=
  match stream with
  | [] => mret tt
  | chunk :: stream =>
      buf ← chunk;
      let chunkEnd := seen + length buf in
      if offset <? chunkEnd then
        offset ← rs_append native id (drop (offset - seen) buf) offset;
        native_chunks native id offset chunkEnd stream
      else native_chunks native id offset chunkEnd stream
  end.
Definition resumeNative (native : ResumableCapability D) (id : text) (stream : NodeReadable D) : Op D StorageObjectMetadata :=
  offset ← rs_offset native id;
  native_chunks native id offset 0 stream ;;
  m ← rs_finish native id; mret (normalizeMetadata m).

Definition resume (id : text) (stream : NodeReadable D) : Resumable StorageObjectMetadata :=
  match d_resumable with
  | Some native => on_driver (resumeNative native id stream)
  | None =>
      r ← resume_begin id;
      r ← resume_chunks r stream;
      m ← resume_finish r;
      resume_close r m
  end.

Definition cancel (id : text) : Resumable unit :=
  match d_resumable with
  | Some native => on_driver (rs_cancel native id)
  | None =>
      st ← state;
      if decide (id ∈ open_ids st) then
        session ← session_object id;
        if completing session then mret tt
        else update_session set_cancelled id ;; on_driver (d_delete (sessionKey id)) ;; forget_session id
      else mret tt
  end.
End resumable.

(** ** Attempts *)

(** A stream that delivers the chunks, and then ends or breaks. *)
Definition ready {D} (chunks : list bytes) : NodeReadable D := (λ b, mret b) <$> chunks.
Definition interrupted {D} (chunks : list bytes) : NodeReadable D := ready chunks ++ [op_throw (Foreign 0)].

(** The caller catches what an attempt throws. *)
Definition try {D A} (op : Op D A) : Op D unit := λ d, (Ok tt, (op d).2).

Lemma take_extend {A} (content b : list A) s n :
  s <= n → n < s + length b → take (s + length b) content = take s content ++ b → s <= length content →
  take n content ++ drop (n - s) b = take (s + length b) content.
Proof.
  intros Hsn Hn E Hs. rewrite <-(take_drop n (take (s + length b) content)).
  rewrite take_take, Nat.min_l by lia. f_equal. rewrite E, drop_app_ge by (rewrite length_take; lia).
  rewrite length_take. f_equal. lia.
Qed.

Lemma prefix_step (content : bytes) s (b rest : bytes) :
  take s content ++ b ++ rest `prefix_of` content → s <= length content →
  take (s + length b) content = take s content ++ b ∧ s + length b <= length content.
Proof.
  intros [k E] Hs. assert (length (take s content) = s) as Hlen by (rewrite length_take; lia).
  assert (length content = s + length b + length rest + length k) as Hc.
  { rewrite E at 1. rewrite !length_app. lia. }
  split; [|lia]. rewrite E at 1. rewrite <-!(assoc_L (++)), take_app_ge, Hlen by lia.
  replace (s + length b - s) with (length b) by lia. by rewrite take_app_length.
Qed.

Section attempts.
Context {D : Type} `{DriverLaws D, !Reliable D} (simulated : d_resumable = None).
Context (id key : text) (w : WriteMetadata) (content : bytes) (o : gmap text Entry).
Context (key_differs : key ≠ sessionKey id) (fresh : o !! sessionKey id = None).

(** The session is open and undisturbed. *)
Definition active (st : ResumableState) : Prop :=
  id ∈ open_ids st ∧
  heap st !! id = Some {| r_key := key; r_metadata := w; completing := false; cancelled := false |}.

(** The first [n] bytes of the content are stored for the session, and nothing else has changed. *)
Definition holds (n : nat) (d : D) : Prop :=
  (∀ k, k ≠ sessionKey id → objects d !! k = o !! k) ∧
  match objects d !! sessionKey id with
  | None => n = 0
  | Some e => e.1 = take n content
  end.

(** A resume that has seen [s] bytes, with [n] bytes stored. *)
Definition running (n s : nat) (r : Resume) : Prop :=
  session_id r = id ∧ persisted r = take n content ∧ seen r = s ∧ s <= n ∧ n <= length content.

Lemma session_object_run st (d : D) s :
  heap st !! id = Some s → session_object id (st, d) = (Ok s, (st, d)).
Proof. intros E. unfold session_object. rewrite (op_bind_ok state _ _ _ _ eq_refl). cbn. by rewrite E. Qed.

Lemma resume_begin_ok n st d :
  active st → holds n d → n <= length content →
  ∃ r d', resume_begin id (st, d) = (Ok r, (st, d')) ∧ running n 0 r ∧ objects d' = objects d.
Proof.
  intros [Ho Hs] [_ Hn] Hlen. destruct (get_ok (sessionKey id) d) as (d' & Hget & Hd').
  exists {| session_id := id; persisted := take n content; seen := 0 |}, d'. split; [|split; [|done]].
  - unfold resume_begin. rewrite (op_bind_ok _ _ _ {| r_key := key; r_metadata := w; completing := false; cancelled := false |} (st, d)).
    2:{ unfold requireSession. rewrite (op_bind_ok state _ _ _ _ eq_refl). cbn [fst]. rewrite decide_True by done.
        by apply session_object_run. }
    rewrite (op_bind_ok _ _ _ (take n content) (st, d')); [done|]. apply on_driver_run. unfold readPersisted.
    rewrite (op_bind_ok _ _ _ _ _ Hget). destruct (objects d !! sessionKey id) as [[b m]|]; [by rewrite <-Hn|by subst n].
  - repeat split; lia || done.
Qed.

Lemma resume_chunk_ok n s r b st d :
  active st → holds n d → running n s r →
  take (s + length b) content = take s content ++ b → s + length b <= length content →
  ∃ r' d', resume_chunk r b (st, d) = (Ok r', (st, d')) ∧
           running (n `max` (s + length b)) (s + length b) r' ∧ holds (n `max` (s + length b)) d'.
Proof.
  intros [Ho Hs] [Hrest Hn] (Hid & Hp & Hseen & Hsn & Hlen) E Hbound.
  assert (length (persisted r) = n) as Hpl by (rewrite Hp, length_take; lia).
  unfold resume_chunk. rewrite Hid, (op_bind_ok _ _ _ _ _ (session_object_run _ _ _ Hs)). cbn [cancelled].
  rewrite Hpl, Hseen. destruct (Nat.ltb_spec n (s + length b)) as [Hlt|Hge].
  - destruct (put_ok (sessionKey id) (persisted r ++ drop (n - s) b) session_octets d) as (m & d' & Hput & Hobj & _).
    exists {| session_id := id; persisted := persisted r ++ drop (n - s) b; seen := s + length b |}, d'.
    rewrite (op_bind_ok _ _ _ _ _ (on_driver_run _ _ _ _ _ Hput)). rewrite Nat.max_r by lia.
    assert (persisted r ++ drop (n - s) b = take (s + length b) content) as Hnew by (rewrite Hp; apply take_extend; lia || done).
    split; [done|]. split; [repeat split; cbn; done || lia|]. split.
    + intros k Hk. rewrite Hobj, lookup_insert_ne by done. by apply Hrest.
    + by rewrite Hobj, lookup_insert_eq.
  - exists {| session_id := id; persisted := persisted r; seen := s + length b |}, d.
    rewrite Nat.max_l by lia. repeat split; cbn; done || lia.
Qed.

Lemma resume_chunks_ok cs tail : ∀ n s r st d,
  active st → holds n d → running n s r → take s content ++ concat cs `prefix_of` content →
  ∃ r' d' n', resume_chunks r (ready cs ++ tail) (st, d) = resume_chunks r' tail (st, d') ∧
           n' = n `max` (s + length (concat cs)) ∧ running n' (s + length (concat cs)) r' ∧ holds n' d'.
Proof.
  induction cs as [|b cs IH]; intros n s r st d Hst Hd Hr Hpre.
  { exists r, d, n. cbn. rewrite Nat.add_0_r. destruct Hr as (? & ? & ? & ? & ?). repeat split; try done; try lia; apply Hd. }
  cbn in Hpre. assert (s <= length content) as Hs by (destruct Hr as (_ & _ & _ & ? & ?); lia).
  destruct (prefix_step _ _ _ _ Hpre Hs) as [Etake Hbound].
  destruct (resume_chunk_ok n s r b st d Hst Hd Hr Etake Hbound) as (r1 & d1 & Hrun & Hr1 & Hd1).
  destruct (IH _ _ r1 st d1 Hst Hd1 Hr1) as (r2 & d2 & n2 & Hrun2 & -> & Hr2 & Hd2).
  { by rewrite Etake, <-(assoc_L (++)). }
  eexists r2, d2, _. split; [|split; [reflexivity|]].
  - cbn [ready fmap list_fmap app resume_chunks]. rewrite (op_bind_ok _ _ _ b (st, d)) by done.
    by rewrite (op_bind_ok _ _ _ _ _ Hrun).
  - cbn. rewrite length_app. replace (n `max` (s + (length b + length (concat cs))))
      with ((n `max` (s + length b)) `max` (s + length b + length (concat cs))) by lia.
    by rewrite (assoc Nat.add).
Qed.

(** An attempt that breaks off leaves the session open, with at least as much stored. *)
Lemma interrupted_ok cs n st d :
  active st → holds n d → n <= length content → concat cs `prefix_of` content →
  ∃ n' d', resume id (interrupted cs) (st, d) = (Throw (Foreign 0), (st, d')) ∧
           holds n' d' ∧ n' = n `max` length (concat cs) ∧ n' <= length content.
Proof.
  intros Hst Hd Hn Hpre.
  destruct (resume_begin_ok n st d Hst Hd Hn) as (r & d1 & Hbegin & Hr & Hd1).
  assert (holds n d1) as Hh1 by (unfold holds; by rewrite Hd1).
  destruct (resume_chunks_ok cs [op_throw (Foreign 0)] n 0 r st d1 Hst Hh1 Hr Hpre) as (r2 & d2 & n2 & Hrun & -> & Hr2 & Hd2).
  eexists _, d2. split; [|split; [exact Hd2|split; [done|]]].
  - unfold resume. rewrite simulated, (op_bind_ok _ _ _ _ _ Hbegin). unfold interrupted.
    apply op_bind_throw. rewrite Hrun. done.
  - destruct Hr2 as (_ & _ & _ & _ & Hlen). cbn in Hlen. lia.
Qed.

Lemma attempts_ok attempts : ∀ n st d,
  active st → holds n d → n <= length content → Forall (λ cs, concat cs `prefix_of` content) attempts →
  ∃ n' d', for_each attempts (λ cs, try (resume id (interrupted cs))) (st, d) = (Ok tt, (st, d')) ∧
           holds n' d' ∧ n' <= length content.
Proof.
  induction attempts as [|cs attempts IH]; intros n st d Hst Hd Hn Ha; [by exists n, d|].
  apply Forall_cons in Ha as [Hcs Ha].
  destruct (interrupted_ok cs n st d Hst Hd Hn Hcs) as (n1 & d1 & Hrun & Hd1 & _ & Hn1).
  destruct (IH n1 st d1 Hst Hd1 Hn1 Ha) as (n2 & d2 & Hrun2 & Hd2 & Hn2).
  exists n2, d2. split; [|done]. cbn [for_each]. rewrite (op_bind_ok _ _ _ tt (st, d1)); [done|].
  unfold try. by rewrite Hrun.
Qed.

(** The end of an attempt that has seen everything. *)
Definition closed (st : ResumableState) : ResumableState :=
  {| heap := alter set_completing id (heap st); open_ids := set_delete id (open_ids st) |}.

Lemma finish_ok r st d n session :
  heap st !! id = Some session → r_key session = key → r_metadata session = w →
  (∀ k, k ≠ sessionKey id → objects d !! k = o !! k) → running n (length content) r →
  ∃ m d', (m ← resume_finish r; resume_close r m) (st, d) = (Ok (normalizeMetadata m), (closed st, d')) ∧
          describes key content w m ∧ objects d' = <[key := (content, m)]> o.
Proof.
  intros Hs Hkey Hw Hrest (Hid & Hp & _ & Hsn & Hlen).
  assert (persisted r = content) as Hall by (rewrite Hp; apply take_ge; lia).
  destruct (put_ok key content w d) as (m & d1 & Hput & Hobj & Hdesc).
  destruct (delete_ok (sessionKey id) d1) as (d2 & Hdel & Hobj2).
  exists m, d2. split; [|split; [done|]].
  - rewrite (op_bind_ok _ _ _ m ({| heap := alter set_completing id (heap st); open_ids := open_ids st |}, d1)).
    + unfold resume_close. rewrite Hid. rewrite (op_bind_ok _ _ _ _ _ (on_driver_run _ _ _ _ _ Hdel)). done.
    + unfold resume_finish. rewrite Hid, (op_bind_ok _ _ _ _ _ (session_object_run _ _ _ Hs)).
      rewrite (op_bind_ok _ _ _ tt ({| heap := alter set_completing id (heap st); open_ids := open_ids st |}, d)) by done.
      rewrite Hkey, Hw, Hall. by apply on_driver_run.
  - apply map_eq. intros k. rewrite Hobj2. destruct (decide (k = sessionKey id)) as [->|Hk].
    + rewrite lookup_delete_eq, lookup_insert_ne by done. done.
    + rewrite lookup_delete_ne by done. rewrite Hobj. destruct (decide (k = key)) as [->|Hne]; [by rewrite !lookup_insert_eq|].
      rewrite !lookup_insert_ne by done. by apply Hrest.
Qed.

Lemma active_finish r st d n :
  active st → holds n d → running n (length content) r →
  ∃ m d', (m ← resume_finish r; resume_close r m) (st, d) = (Ok (normalizeMetadata m), (closed st, d')) ∧
          describes key content w m ∧ objects d' = <[key := (content, m)]> o.
Proof. intros [_ Hs] [Hrest _] Hr. by eapply finish_ok. Qed.

Lemma cancel_run st d session :
  id ∈ open_ids st → heap st !! id = Some session → completing session = false →
  ∃ d', cancel id (st, d) =
        (Ok tt, ({| heap := alter set_cancelled id (heap st); open_ids := set_delete id (open_ids st) |}, d')) ∧
        objects d' = delete (sessionKey id) (objects d).
Proof.
  intros Ho Hs Hc. destruct (delete_ok (sessionKey id) d) as (d' & Hdel & Hobj). exists d'. split; [|done].
  unfold cancel. rewrite simulated, (op_bind_ok state _ _ _ _ eq_refl). cbn [fst]. rewrite decide_True by done.
  rewrite (op_bind_ok _ _ _ _ _ (session_object_run _ _ _ Hs)), Hc.
  rewrite (op_bind_ok _ _ _ tt ({| heap := alter set_cancelled id (heap st); open_ids := open_ids st |}, d)) by done.
  by rewrite (op_bind_ok _ _ _ _ _ (on_driver_run _ _ _ _ _ Hdel)).
Qed.

Lemma cancelled_chunk r b st d session :
  heap st !! id = Some session → cancelled session = true → session_id r = id →
  (∀ k, k ≠ sessionKey id → objects d !! k = o !! k) →
  ∃ d', resume_chunk r b (st, d) = (Throw (CancelledSession id), (st, d')) ∧ objects d' = o.
Proof.
  intros Hs Hc Hid Hrest. destruct (delete_ok (sessionKey id) d) as (d' & Hdel & Hobj). exists d'. split.
  - unfold resume_chunk. rewrite Hid, (op_bind_ok _ _ _ _ _ (session_object_run _ _ _ Hs)), Hc.
    by rewrite (op_bind_ok _ _ _ _ _ (on_driver_run _ _ _ _ _ Hdel)).
  - apply map_eq. intros k. rewrite Hobj. destruct (decide (k = sessionKey id)) as [->|Hne].
    + by rewrite lookup_delete_eq.
    + rewrite lookup_delete_ne by done. by apply Hrest.
Qed.
End attempts.

(** ** A provider with resumable sessions of its own *)

Section native.
Context {D : Type} (native : ResumableCapability D) (id content : text) (buffer : D → bytes).

(** What is relied on: the provider keeps the bytes appended at its offset. *)
Hypothesis offset_law : ∀ d, ∃ d', rs_offset native id d = (Ok (length (buffer d)), d') ∧ buffer d' = buffer d.
Hypothesis append_law : ∀ b d, ∃ d',
  rs_append native id b (length (buffer d)) d = (Ok (length (buffer d ++ b)), d') ∧ buffer d' = buffer d ++ b.

Lemma native_chunks_ok cs : ∀ n s d,
  buffer d = take n content → s <= n → n <= length content → take s content ++ concat cs `prefix_of` content →
  ∃ d', native_chunks native id n s (ready cs) d = (Ok tt, d') ∧
        buffer d' = take (n `max` (s + length (concat cs))) content.
Proof.
  induction cs as [|b cs IH]; intros n s d Hb Hsn Hn Hpre.
  { exists d. split; [done|]. cbn. by rewrite Nat.max_l by lia. }
  cbn in Hpre. destruct (prefix_step _ _ _ _ Hpre ltac:(lia)) as [Etake Hbound].
  cbn [ready fmap list_fmap native_chunks]. rewrite (op_bind_ok _ _ _ b d) by done.
  assert (length (buffer d) = n) as Hlen by (rewrite Hb, length_take; lia).
  replace (n `max` (s + length (concat (b :: cs)))) with ((n `max` (s + length b)) `max` (s + length b + length (concat cs)))
    by (cbn; rewrite length_app; lia).
  destruct (Nat.ltb_spec n (s + length b)) as [Hlt|Hge].
  - destruct (append_law (drop (n - s) b) d) as (d1 & Happ & Hb1). rewrite Hlen in Happ.
    rewrite (op_bind_ok _ _ _ _ _ Happ), Hb, take_extend, (Nat.max_r n) by lia || done.
    rewrite length_take, Nat.min_l by lia. rewrite Hb, take_extend in Hb1 by lia || done.
    apply IH; [done|lia|done|]. by rewrite Etake, <-(assoc_L (++)).
  - rewrite (Nat.max_l n) by lia. apply IH; [done|lia|done|]. by rewrite Etake, <-(assoc_L (++)).
Qed.

(** A resume sends what the provider does not have, and only that. *)
Lemma resumeNative_ok cs d m d2 :
  buffer d `prefix_of` content → concat cs = content →
  resumeNative native id (ready cs) d = (Ok m, d2) →
  ∃ d1 m', buffer d1 = content ∧ rs_finish native id d1 = (Ok m', d2) ∧ m = normalizeMetadata m'.
Proof.
  intros [k Hk] Hcs. destruct (offset_law d) as (d0 & Hoff & Hd0). unfold resumeNative.
  rewrite (op_bind_ok _ _ _ _ _ Hoff).
  destruct (native_chunks_ok cs (length (buffer d)) 0 d0) as (d1 & Hrun & Hd1).
  - rewrite Hd0, Hk at 1. by rewrite take_app_length.
  - lia.
  - rewrite Hk, length_app. lia.
  - by rewrite Hcs.
  - rewrite (op_bind_ok _ _ _ _ _ Hrun). intros (m' & d3 & Hfin & [= <- <-])%op_bind_inv.
    exists d1, m'. split; [|done]. rewrite Hd1, Hcs. apply take_ge. lia.
Qed.
End native.

(** ** Theorems *)

Section theorems.
Context {D : Type} `{DriverLaws D, !Reliable D}.

Lemma start_ok id key w st (d : D) :
  d_resumable = None → id ∉ open_ids st → 
  ∃ st', start key w id (st, d) = (Ok id, (st', d)) ∧ active id key w st' ∧ open_ids st' = open_ids st ++ [id].
Proof.
  intros Hs Hid. unfold start. rewrite Hs. eexists. split; [done|]. unfold active. cbn.
  rewrite lookup_insert_eq. unfold set_add. rewrite decide_False by done. split; [|done]. split; [|done].
  apply elem_of_app. right. by left.
Qed.

Lemma set_delete_snoc (id : text) ids : id ∉ ids → set_delete id (ids ++ [id]) = ids.
Proof.
  intros Hid. unfold set_delete. rewrite filter_app, filter_all, filter_cons_False; [by rewrite app_nil_r|naive_solver|].
  apply Forall_forall. naive_solver.
Qed.

(** [startUpload], attempts that break off, and one that reaches the end. *)
Definition resumed_upload (key : text) (w : WriteMetadata) (id : text) (attempts : list (list (list ascii)))
    (final : list (list ascii)) : Op (ResumableState * D) StorageObjectMetadata :=
  id ← start key w id;
  for_each attempts (λ cs, try (resume id (interrupted cs))) ;;
  resume id (ready final).

(** C18: However often an upload is broken off, and however its content is cut into chunks on each attempt,
    the object in the end is that of one [put] of the content; no other object has changed,
    the persisted part is gone and the session is closed. *)
Theorem resumed_is_one_put key w id attempts final st (d : D) :
  d_resumable = None → key ≠ sessionKey id → objects d !! sessionKey id = None → id ∉ open_ids st →
  Forall (λ cs, concat cs `prefix_of` concat final) attempts →
  ∃ m st' d', resumed_upload key w id attempts final (st, d) = (Ok (normalizeMetadata m), (st', d')) ∧
              describes key (concat final) w m ∧
              objects d' = <[key := (concat final, m)]> (objects d) ∧ open_ids st' = open_ids st.
Proof.
  intros Hs Hkey Hfresh Hid Ha.
  destruct (start_ok id key w st d Hs Hid) as (st1 & Hstart & Hact & Hopen).
  assert (holds id (concat final) (objects d) 0 d) as Hh by (split; [done|by rewrite Hfresh]).
  destruct (attempts_ok Hs id key w _ _ attempts 0 st1 d Hact Hh ltac:(lia) Ha) as (n1 & d1 & Hrun1 & Hd1 & Hn1).
  destruct (resume_begin_ok id key w _ _ n1 st1 d1 Hact Hd1 Hn1) as (r & d2 & Hbegin & Hr & Hd2).
  assert (holds id (concat final) (objects d) n1 d2) as Hh2 by (unfold holds; by rewrite Hd2).
  destruct (resume_chunks_ok id key w (concat final) _ final [] n1 0 r st1 d2 Hact Hh2 Hr) as (r3 & d3 & n3 & Hchunks & Hn3 & Hr3 & Hd3); [done|].
  destruct (active_finish id key w _ _ Hkey Hfresh r3 st1 d3 n3 Hact Hd3 Hr3) as (m & d4 & Hfin & Hdesc & Hobj).
  exists m, (closed id st1), d4. split; [|split; [done|split; [done|]]].
  - unfold resumed_upload. rewrite (op_bind_ok _ _ _ _ _ Hstart), (op_bind_ok _ _ _ _ _ Hrun1).
    unfold resume. rewrite Hs, (op_bind_ok _ _ _ _ _ Hbegin). rewrite app_nil_r in Hchunks.
    cbn [resume_chunks] in Hchunks. by rewrite (op_bind_ok _ _ _ r3 (st1, d3)).
  - cbn. rewrite Hopen. by apply set_delete_snoc.
Qed.

(** A resume during which the session is cancelled, after the chunks [before]. *)
Definition cancelled_upload (key : text) (w : WriteMetadata) (id : text) (before after : list (list ascii)) :
    Op (ResumableState * D) StorageObjectMetadata :=
  id ← start key w id;
  r ← resume_begin id;
  r ← resume_chunks r (ready before);
  cancel id ;;
  r ← resume_chunks r (ready after);
  m ← resume_finish r;
  resume_close r m.

(** C33: A cancel stops the upload when a chunk still follows: the resume throws and nothing of it
    is left.  When the last chunk has been taken already the cancel closes the session and
    removes the persisted part, and the object is created all the same. *)
Theorem cancel_outcomes key w id before after st (d : D) :
  d_resumable = None → key ≠ sessionKey id → objects d !! sessionKey id = None → id ∉ open_ids st →
  ∃ r st' d', cancelled_upload key w id before after (st, d) = (r, (st', d')) ∧ open_ids st' = open_ids st ∧
    match after with
    | [] => ∃ m, r = Ok (normalizeMetadata m) ∧ objects d' = <[key := (concat before, m)]> (objects d)
    | _ => r = Throw (CancelledSession id) ∧ objects d' = objects d
    end.
Proof.
  intros Hs Hkey Hfresh Hid.
  destruct (start_ok id key w st d Hs Hid) as (st1 & Hstart & Hact & Hopen).
  assert (holds id (concat before) (objects d) 0 d) as Hh by (split; [done|by rewrite Hfresh]).
  destruct (resume_begin_ok id key w _ _ 0 st1 d Hact Hh ltac:(lia)) as (r & d2 & Hbegin & Hr & Hd2).
  assert (holds id (concat before) (objects d) 0 d2) as Hh2 by (unfold holds; by rewrite Hd2).
  destruct (resume_chunks_ok id key w (concat before) _ before [] 0 0 r st1 d2 Hact Hh2 Hr) as (r3 & d3 & n3 & Hchunks & Hn3 & Hr3 & Hd3 & _); [done|].
  rewrite app_nil_r in Hchunks. cbn [resume_chunks] in Hchunks.
  destruct Hact as [Hin Hheap].
  destruct (cancel_run Hs id st1 d3 _ Hin Hheap eq_refl) as (d4 & Hcancel & Hd4).
  assert (∀ k, k ≠ sessionKey id → objects d4 !! k = objects d !! k) as Hrest.
  { intros k Hk. rewrite Hd4, lookup_delete_ne by done. by apply Hd3. }
  set (st4 := {| heap := alter set_cancelled id (heap st1); open_ids := set_delete id (open_ids st1) |}) in *.
  assert (heap st4 !! id = Some {| r_key := key; r_metadata := w; completing := false; cancelled := true |}) as Hheap4
    by (cbn; by rewrite lookup_alter_eq, Hheap).
  assert (open_ids st4 = open_ids st) as Hopen4 by (cbn; rewrite Hopen; by apply set_delete_snoc).
  unfold cancelled_upload. rewrite (op_bind_ok _ _ _ _ _ Hstart), (op_bind_ok _ _ _ _ _ Hbegin).
  rewrite (op_bind_ok _ _ _ r3 (st1, d3)) by done. rewrite (op_bind_ok _ _ _ _ _ Hcancel).
  destruct after as [|b after].
  - cbn [ready fmap list_fmap resume_chunks]. rewrite (op_bind_ok (mret r3) _ _ r3 (st4, d4)) by done.
    destruct (finish_ok id key w _ _ Hkey Hfresh r3 st4 d4 n3 _ Hheap4 eq_refl eq_refl Hrest Hr3) as (m & d5 & Hfin & _ & Hobj).
    exists (Ok (normalizeMetadata m)), (closed id st4), d5. split; [done|]. split; [|by exists m].
    cbn. unfold set_delete. rewrite list_filter_filter. cbn in Hopen4. rewrite <-Hopen4. unfold set_delete. apply filter_iff_in. naive_solver.
  - destruct (cancelled_chunk id _ Hfresh r3 b st4 d4 _ Hheap4 eq_refl (proj1 Hr3) Hrest) as (d5 & Hrun & Hobj).
    exists (Throw (CancelledSession id)), st4, d5. split; [|done]. apply op_bind_throw.
    cbn [ready fmap list_fmap resume_chunks]. rewrite (op_bind_ok _ _ _ b (st4, d4)) by done. by apply op_bind_throw.
Qed.
End theorems.

(** ** Uploads over the memory driver *)

#[local] Existing Instance sample_sha.
#[local] Existing Instance sample_clock.
Definition nothing_open : ResumableState := {| heap := ∅; open_ids := [] |}.

Lemma resumed_is_one_put_witness :
  ∃ m st' d', resumed_upload (lit "video") session_octets (lit "s1") [[lit "ab"]; []; [lit "a"; lit "bc"]] [lit "abc"; lit "de"]
                (nothing_open, new_MemoryStorageDriver) = (Ok (normalizeMetadata m), (st', d')) ∧
              describes (lit "video") (concat [lit "abc"; lit "de"]) session_octets m ∧
              objects d' = <[lit "video" := (concat [lit "abc"; lit "de"], m)]> (objects new_MemoryStorageDriver) ∧
              open_ids st' = open_ids nothing_open.
Proof.
  apply resumed_is_one_put; [reflexivity|discriminate|reflexivity|apply not_elem_of_nil|].
  apply (bool_decide_unpack _). vm_compute. exact I.
Defined.

Lemma cancel_outcomes_witness :
  ∃ r st' d', cancelled_upload (lit "video") session_octets (lit "s1") [lit "ab"] []
                (nothing_open, new_MemoryStorageDriver) = (r, (st', d')) ∧ open_ids st' = open_ids nothing_open ∧
    ∃ m, r = Ok (normalizeMetadata m) ∧
         objects d' = <[lit "video" := (concat [lit "ab"], m)]> (objects new_MemoryStorageDriver).
Proof.
  apply (cancel_outcomes (lit "video") session_octets (lit "s1") [lit "ab"] []);
    [reflexivity|discriminate|reflexivity|apply not_elem_of_nil].
Defined.
