(* ===== verification/StorageVersions.v ===== *)
(** * Versions of overwritten objects

    Models src/packages/storage/src/versioning.ts: before an object is overwritten its
    content is copied under a reserved key, from where it can be listed, restored and
    deleted.  A driver with versioning of its own is called instead.  Version ids
    ([randomUUID]) are arguments. *)

From Stdlib Require Import Ascii String.
From S2P Require Import Prelude JsText ConfigValue StorageDriver.

Open Scope nat_scope.
#[local] Open Scope list_scope.

Definition VERSION_KEY_PREFIX : text := lit ".versions/".
Definition versionPrefix (key : text) : text := VERSION_KEY_PREFIX ++ key ++ lit "/".
Definition versionKey (key versionId : text) : text := versionPrefix key ++ versionId.

(** [try { ... } catch { return null }] *)
Definition or_null {D A} (op : Op D (option A)) : Op D (option A) :=
  λ d, match op d with
       | (Ok r, d) => (Ok r, d)
       | (Throw _, d) => (Ok None, d)
       end.

(** [versions.sort((a, b) => a.createdAt - b.createdAt)], which is stable. *)
Fixpoint insert_version (v : VersionInfo) (l : list VersionInfo) : list VersionInfo :=
  match l with
  | [] => [v]
  | x :: l => if (v_createdAt v <? v_createdAt x)%Z then v :: x :: l else x :: insert_version v l
  end.
Definition sort_versions (l : list VersionInfo) : list VersionInfo := foldl (λ acc v, insert_version v acc) [] l.

Section versioning.
Context {D : Type} `{StorageDriver D}.

Definition snapshot (key uuid : text) : Op D (option text) :=
  or_null (match d_versioning with
           | Some native => vs_snapshot native key
           | None =>
               current ← d_get key;
               match current with
               | None => mret None
               | Some (b, m) => _ ← d_put (versionKey key uuid) b (toWriteMetadata m); mret (Some uuid)
               end
           end).

(** The body of the loop: [Some] for a version that is listed. *)
Definition version_of (prefix : text) (i : StorageListItem) : Op D (option VersionInfo) :=
  let versionId := drop (length prefix) (i_key i) in
  if bool_decide (versionId = []) || bool_decide ("/"%char ∈ versionId) then mret None
  else
    metadata ← d_stat (i_key i);
    mret (match metadata with
          | Some m => Some {| v_id := versionId; v_size := m_size m; v_createdAt := createdAt m; v_checksum := checksum m |}
          | None => None
          end).
Fixpoint versions_of (prefix : text) (items : list StorageListItem) : Op D (list VersionInfo) :=
  match items with
  | [] => mret []
  | i :: items => v ← version_of prefix i; rest ← versions_of prefix items; mret (option_list v ++ rest)
  end.
Definition listVersions (key : text) : Op D (list VersionInfo) :=
  match d_versioning with
  | Some native => vs_list native key
  | None =>
      items ← d_list (versionPrefix key) no_options;
      versions ← versions_of (versionPrefix key) items;
      mret (sort_versions versions)
  end.

Definition restoreVersion (key versionId : text) : Op D StorageObjectMetadata :=
  match d_versioning with
  | Some native => m ← vs_restore native key versionId; mret (normalizeMetadata m)
  | None =>
      result ← d_get (versionKey key versionId);
      match result with
      | None => op_throw (NotFoundError (versionKey key versionId))
      | Some (b, m) => m ← d_put key b (toWriteMetadata m); mret (normalizeMetadata m)
      end
  end.

Definition deleteVersion (key versionId : text) : Op D unit :=
  match d_versioning with
  | Some native => vs_deleteVersion native key versionId
  | None => d_delete (versionKey key versionId)
  end.

(** A failing snapshot does not stop the write that asked for it. *)
Lemma snapshot_never_throws key uuid : total (snapshot key uuid).
Proof. intros d. unfold snapshot, or_null. by destruct (match d_versioning with _ => _ end d) as [[]]. Qed.
End versioning.

(** ** Keys of versions *)

Lemma versionKey_ne key k uuid : versionKey k uuid = key → length k < length key.
Proof.
  intros <-. unfold versionKey, versionPrefix. rewrite !length_app. change (length VERSION_KEY_PREFIX) with 10. lia.
Qed.

Lemma app_slash_inj (a b u v : text) :
  "/"%char ∉ u → "/"%char ∉ v → a ++ "/"%char :: u = b ++ "/"%char :: v → a = b ∧ u = v.
Proof.
  intros Hu Hv. revert b. induction a as [|x a IH]; intros [|y b] E; cbn in E.
  - by injection E as ->.
  - injection E as _ ->. destruct Hu. apply elem_of_app. right. by left.
  - injection E as _ <-. destruct Hv. apply elem_of_app. right. by left.
  - injection E as -> E. by destruct (IH _ E) as [-> ->].
Qed.

Lemma versionKey_inj k1 u1 k2 u2 :
  "/"%char ∉ u1 → "/"%char ∉ u2 → versionKey k1 u1 = versionKey k2 u2 → k1 = k2 ∧ u1 = u2.
Proof.
  intros H1 H2. unfold versionKey, versionPrefix. rewrite <-!(assoc_L (++)). intros E%app_inv_head.
  by apply app_slash_inj in E.
Qed.

(** ** Sorting *)

Definition older (a b : VersionInfo) : Prop := (v_createdAt a <= v_createdAt b)%Z.

Lemma insert_version_Permutation v l : insert_version v l ≡ₚ v :: l.
Proof. induction l as [|x l IH]; cbn; [done|]. case_match; [done|]. rewrite IH. apply Permutation_swap. Qed.
Lemma sort_versions_Permutation l : sort_versions l ≡ₚ l.
Proof.
  assert (∀ acc, foldl (λ acc v, insert_version v acc) acc l ≡ₚ acc ++ l) as Hgen; [|apply (Hgen [])].
  induction l as [|v l IH]; intros acc; cbn; [by rewrite app_nil_r|].
  rewrite IH, insert_version_Permutation. cbn. apply Permutation_middle.
Qed.

#[export] Instance older_trans : Transitive older.
Proof. unfold older. intros ???. lia. Qed.
Lemma insert_version_sorted v l : StronglySorted older l → StronglySorted older (insert_version v l).
Proof.
  induction 1 as [|x l Hl IH Hx]; cbn; [by repeat constructor|]. case_match eqn:E; reflect_bools.
  - constructor; [by constructor|]. constructor; [unfold older; lia|].
    eapply Forall_impl; [exact Hx|]. unfold older. intros y ?. cbn in *. lia.
  - constructor; [done|]. rewrite insert_version_Permutation. constructor; [unfold older; lia|done].
Qed.
Lemma sort_versions_sorted l : StronglySorted older (sort_versions l).
Proof.
  unfold sort_versions. assert (StronglySorted older []) as H0 by constructor. revert H0.
  generalize (@nil VersionInfo). induction l as [|v l IH]; intros acc Hacc; cbn; [done|].
  by apply IH, insert_version_sorted.
Qed.

(** ** Theorems *)

Section theorems.
Context {D : Type} `{DriverLaws D, !Reliable D}.

(** The copy of [key] named [u], in the objects [o]. *)
Definition version_info (u : text) (m : StorageObjectMetadata) : VersionInfo :=
  {| v_id := u; v_size := m_size m; v_createdAt := createdAt m; v_checksum := checksum m |}.
Definition is_version (o : gmap text Entry) (key : text) (v : VersionInfo) : Prop :=
  v_id v ≠ [] ∧ ("/"%char ∉ v_id v) ∧ ∃ e, o !! versionKey key (v_id v) = Some e ∧ v = version_info (v_id v) e.2.

Lemma snapshot_ok key uuid b m (d : D) :
  d_versioning = None → objects d !! key = Some (b, m) →
  ∃ m' d', snapshot key uuid d = (Ok (Some uuid), d') ∧ attributes m' = attributes m ∧
           m_size m' = length b ∧ checksum m' = sha256Hex b ∧
           objects d' = <[versionKey key uuid := (b, m')]> (objects d).
Proof.
  intros Hs Hm. destruct (get_ok key d) as (d1 & Hget & Hd1). rewrite Hm in Hget.
  destruct (put_ok (versionKey key uuid) b (toWriteMetadata m) d1) as (m' & d2 & Hput & Hobj & _ & ? & ? & Ha).
  exists m', d2. split; [|by rewrite Hobj, Hd1]. unfold snapshot, or_null. rewrite Hs, (op_bind_ok _ _ _ _ _ Hget).
  by rewrite (op_bind_ok _ _ _ _ _ Hput).
Qed.

(** What the loop makes of an item, when it is below the prefix of the key. *)
Definition listed (prefix : text) (o : gmap text Entry) (i : StorageListItem) : option VersionInfo :=
  let k := drop (length prefix) (i_key i) in
  if bool_decide (k = []) || bool_decide ("/"%char ∈ k) then None
  else (λ e : Entry, version_info k e.2) <$> o !! i_key i.

Lemma listed_inv key o i v :
  is_prefix (versionPrefix key) (i_key i) = true → listed (versionPrefix key) o i = Some v →
  i_key i = versionKey key (v_id v) ∧ is_version o key v.
Proof.
  intros (k & E)%is_prefix_spec. unfold listed, is_version, versionKey. rewrite E, drop_app_length. cbn zeta.
  destruct (decide (k = [])); [by rewrite bool_decide_true|].
  destruct (decide ("/"%char ∈ k)); [by rewrite (bool_decide_true ("/"%char ∈ k)), orb_true_r|].
  rewrite !bool_decide_false by done. cbn [orb]. intros (e & He & ->)%fmap_Some. cbn [v_id version_info].
  repeat split; try done. by exists e.
Qed.

Lemma listed_version key o v :
  is_version o key v → ∃ e, o !! versionKey key (v_id v) = Some e ∧
                            listed (versionPrefix key) o (item (versionKey key (v_id v)) e) = Some v.
Proof.
  intros (Hne & Hsl & e & He & Ev). exists e. split; [done|]. unfold listed. cbn [item i_key].
  rewrite He. unfold versionKey. rewrite drop_app_length. cbn zeta. rewrite !bool_decide_false by done. cbn. congruence.
Qed.

Lemma version_of_ok prefix i (d : D) :
  (∃ e, objects d !! i_key i = Some e) →
  ∃ d', version_of prefix i d = (Ok (listed prefix (objects d) i), d') ∧ objects d' = objects d.
Proof.
  intros [e He]. unfold version_of, listed. case_match; [by exists d|].
  destruct (stat_ok (i_key i) d) as (d1 & Hstat & Hd1). rewrite He in Hstat |- *. exists d1.
  by rewrite (op_bind_ok _ _ _ _ _ Hstat).
Qed.

Lemma versions_of_ok prefix items : ∀ d : D,
  (∀ i, i ∈ items → ∃ e, objects d !! i_key i = Some e) →
  ∃ d', versions_of prefix items d = (Ok (omap (listed prefix (objects d)) items), d') ∧ objects d' = objects d.
Proof.
  induction items as [|i items IH]; intros d Hi; [by exists d|].
  destruct (version_of_ok prefix i d (Hi i ltac:(left))) as (d1 & Hrun & Hd1).
  destruct (IH d1) as (d2 & Hrun2 & Hd2); [intros; rewrite Hd1; apply Hi; by right|]. rewrite Hd1 in Hrun2.
  exists d2. split; [|congruence]. cbn [versions_of]. rewrite (op_bind_ok _ _ _ _ _ Hrun), (op_bind_ok _ _ _ _ _ Hrun2).
  cbn [omap list_omap]. by destruct (listed prefix (objects d) i).
Qed.

(** The versions of a key, oldest first, each once: exactly the copies made of it. *)
Theorem listVersions_exact key (d : D) :
  d_versioning = None →
  ∃ vs d', listVersions key d = (Ok vs, d') ∧ objects d' = objects d ∧
           StronglySorted older vs ∧ NoDup (v_id <$> vs) ∧ ∀ v, v ∈ vs ↔ is_version (objects d) key v.
Proof.
  intros Hs. destruct (list_ok (versionPrefix key) d) as (items & d1 & Hlist & Hd1 & Hnd & Hitems).
  assert (∀ i, i ∈ items → is_prefix (versionPrefix key) (i_key i) = true ∧ ∃ e, objects d !! i_key i = Some e) as Hi.
  { intros i (k & e & He & Hp & ->)%Hitems. split; [done|]. by exists e. }
  destruct (versions_of_ok (versionPrefix key) items d1) as (d2 & Hrun & Hd2); [rewrite Hd1; intros; by apply Hi|].
  rewrite Hd1 in Hrun, Hd2. set (vs := omap _ _) in Hrun. exists (sort_versions vs), d2.
  split; [|split; [done|split; [apply sort_versions_sorted|split]]].
  - unfold listVersions. rewrite Hs, (op_bind_ok _ _ _ _ _ Hlist). by rewrite (op_bind_ok _ _ _ _ _ Hrun).
  - rewrite sort_versions_Permutation. apply (NoDup_fmap_1 (versionKey key)). rewrite <-list_fmap_compose.
    apply (NoDup_omap_key _ i_key); [done|]. intros i v Hin Hv. by apply (listed_inv key (objects d)), Hv; apply Hi.
  - intros v. rewrite sort_versions_Permutation. subst vs. rewrite list_elem_of_omap. split.
    + intros (i & Hin & Hv). eapply listed_inv, Hv. by apply Hi.
    + intros (e & He & Hv)%listed_version. exists (item (versionKey key (v_id v)) e). split; [|done].
      apply Hitems. exists (versionKey key (v_id v)), e. split; [done|]. split; [apply is_prefix_app|done].
Qed.

(** A write over an object with versioning on, and the restore of what it replaced. *)
Definition versioned_put (key uuid : text) (b : bytes) (w : WriteMetadata) : Op D StorageObjectMetadata :=
  _ ← snapshot key uuid; d_put key b w.

(** C34: What an overwrite replaced comes back with [restoreVersion], bytes and attributes, and
    stays listed; nothing but the object and its copy has changed. *)
Theorem overwritten_content_comes_back key uuid b m b2 w2 (d : D) :
  d_versioning = None → objects d !! key = Some (b, m) → uuid ≠ [] → "/"%char ∉ uuid →
  ∃ m2 m3 mv d', (_ ← versioned_put key uuid b2 w2; restoreVersion key uuid) d = (Ok (normalizeMetadata m3), d') ∧
    attributes m3 = attributes m ∧ describes key b2 w2 m2 ∧
    objects d' = <[key := (b, m3)]> (<[versionKey key uuid := (b, mv)]> (objects d)) ∧
    is_version (objects d') key (version_info uuid mv) ∧ checksum mv = sha256Hex b.
Proof.
  intros Hs Hm Hu1 Hu2.
  destruct (snapshot_ok key uuid b m d Hs Hm) as (mv & d1 & Hsnap & Hav & _ & Hcv & Hd1).
  destruct (put_ok key b2 w2 d1) as (m2 & d2 & Hput & Hd2 & Hdesc2).
  assert (versionKey key uuid ≠ key) as Hne by (intros E%versionKey_ne; lia).
  destruct (get_ok (versionKey key uuid) d2) as (d3 & Hget & Hd3).
  rewrite Hd2, lookup_insert_ne, Hd1, lookup_insert_eq in Hget by done.
  destruct (put_ok key b (toWriteMetadata mv) d3) as (m3 & d4 & Hput3 & Hd4 & _ & _ & _ & Ha3).
  assert (objects d4 = <[key := (b, m3)]> (<[versionKey key uuid := (b, mv)]> (objects d))) as Hfinal.
  { by rewrite Hd4, Hd3, Hd2, Hd1, insert_insert_eq. }
  exists m2, m3, mv, d4. split; [|split; [by etrans; [exact Ha3|exact Hav]|split; [done|split; [done|split; [|done]]]]].
  - unfold versioned_put. rewrite op_bind_assoc, (op_bind_ok _ _ _ _ _ Hsnap), (op_bind_ok _ _ _ _ _ Hput).
    unfold restoreVersion. rewrite Hs, (op_bind_ok _ _ _ _ _ Hget). by rewrite (op_bind_ok _ _ _ _ _ Hput3).
  - split; [done|]. split; [done|]. exists (b, mv). split; [|done]. cbn [v_id version_info].
    by rewrite Hfinal, lookup_insert_ne, lookup_insert_eq by done.
Qed.

(** Deleting a version removes that one and no other, of this key or another. *)
Theorem deleteVersion_exact key uuid (d : D) :
  d_versioning = None → "/"%char ∉ uuid →
  ∃ d', deleteVersion key uuid d = (Ok tt, d') ∧
        ∀ k v, is_version (objects d') k v ↔ is_version (objects d) k v ∧ ¬ (k = key ∧ v_id v = uuid).
Proof.
  intros Hs Hu. destruct (delete_ok (versionKey key uuid) d) as (d' & Hdel & Hd'). exists d'.
  split; [unfold deleteVersion; by rewrite Hs|]. intros k v. unfold is_version. rewrite Hd'. split.
  - intros (Hne & Hsl & e & He%lookup_delete_Some & Ev). destruct He as [Hk He].
    split; [split; [done|split; [done|by exists e]]|]. intros [-> E]. by rewrite E in Hk.
  - intros [(Hne & Hsl & e & He & Ev) Hnot]. split; [done|]. split; [done|]. exists e. split; [|done].
    apply lookup_delete_Some. split; [|done]. intros [-> E]%versionKey_inj; [|done..]. by apply Hnot.
Qed.
End theorems.

(** ** An overwrite over the memory driver *)

#[local] Existing Instance sample_sha.
#[local] Existing Instance sample_clock.
Definition with_draft : MemoryStorageDriver := (d_put (lit "doc") (lit "draft") no_metadata new_MemoryStorageDriver).2.

Lemma overwritten_content_comes_back_witness :
  ∃ m, objects with_draft !! lit "doc" = Some (lit "draft", m) ∧
  ∃ m2 m3 mv d', (_ ← versioned_put (lit "doc") (lit "v1") (lit "final") no_metadata; restoreVersion (lit "doc") (lit "v1")) with_draft =
      (Ok (normalizeMetadata m3), d') ∧
    attributes m3 = attributes m ∧ describes (lit "doc") (lit "final") no_metadata m2 ∧
    objects d' = <[lit "doc" := (lit "draft", m3)]> (<[versionKey (lit "doc") (lit "v1") := (lit "draft", mv)]> (objects with_draft)) ∧
    is_version (objects d') (lit "doc") (version_info (lit "v1") mv) ∧ checksum mv = sha256Hex (lit "draft").
Proof.
  eexists. split; [vm_compute; reflexivity|].
  apply overwritten_content_comes_back; [reflexivity|vm_compute; reflexivity|discriminate|].
  apply (bool_decide_unpack _). vm_compute. exact I.
Defined.
