(* ===== verification/StorageLifecycle.v ===== *)
(** * Lifecycle rules

    Models src/packages/storage/src/lifecycle.ts: objects that are old enough are deleted,
    archived or moved, and unfinished uploads expire.  The reading of the clock is an
    argument. *)

From Stdlib Require Import Ascii String.
From S2P Require Import Prelude JsText ConfigValue StorageDriver.

Open Scope nat_scope.
#[local] Open Scope list_scope.

Definition MS_PER_DAY : Z := 86400000.
Definition DAYS_PER_MONTH : Z := 30.
Definition ARCHIVE_KEY_PREFIX : text := lit ".archive/".
Definition TEMP_UPLOAD_PREFIXES : list text := [lit ".multipart/"; lit ".resumable/"].
Definition RESERVED_KEY_PREFIXES : list text :=
  [lit ".versions/"; lit ".multipart/"; lit ".resumable/"; ARCHIVE_KEY_PREFIX].

Definition isManagedKey (key : text) : bool := negb (existsb (λ reserved, is_prefix reserved key) RESERVED_KEY_PREFIXES).

Section lifecycle.
Context {D : Type} `{StorageDriver D}.

Fixpoint qualifying (thresholdMs now : Z) (accept : text → bool) (items : list StorageListItem) : Op D (list text) :=
  match items with
  | [] => mret []
  | i :: items =>
      if accept (i_key i) then
        metadata ← d_stat (i_key i);
        rest ← qualifying thresholdMs now accept items;
        mret (match metadata with
              | Some m => if (thresholdMs <=? now - createdAt m)%Z then i_key i :: rest else rest
              | None => rest
              end)
      else qualifying thresholdMs now accept items
  end.
Definition collectQualifying (prefix : text) (thresholdMs now : Z) (accept : text → bool) : Op D (list text) :=
  items ← d_list prefix no_options; qualifying thresholdMs now accept items.

Definition relocate (sourceKey destinationKey : text) : Op D bool :=
  result ← d_get sourceKey;
  match result with
  | None => mret false
  | Some (b, m) => _ ← d_put destinationKey b (toWriteMetadata m); d_delete sourceKey ;; mret true
  end.

(** [for (const key of keys) { await driver.delete(key); outcomes.push(...) }] *)
Fixpoint delete_keys (action : LifecycleAction) (keys : list text) : Op D (list LifecycleOutcome) :=
  match keys with
  | [] => mret []
  | key :: keys => d_delete key ;; rest ← delete_keys action keys; mret ({| o_key := key; o_action := action |} :: rest)
  end.
Fixpoint relocate_keys (action : LifecycleAction) (prefix : text) (keys : list text) : Op D (list LifecycleOutcome) :=
  match keys with
  | [] => mret []
  | key :: keys =>
      moved ← relocate key (prefix ++ key);
      rest ← relocate_keys action prefix keys;
      mret (if moved : bool then {| o_key := key; o_action := action |} :: rest else rest)
  end.

Definition applyDelete (prefix : text) (thresholdMs now : Z) : Op D (list LifecycleOutcome) :=
  keys ← collectQualifying prefix thresholdMs now isManagedKey; delete_keys Deleted keys.
Definition applyArchive (prefix : text) (thresholdMs now : Z) : Op D (list LifecycleOutcome) :=
  keys ← collectQualifying prefix thresholdMs now isManagedKey; relocate_keys Archived ARCHIVE_KEY_PREFIX keys.
Fixpoint expire_prefixes (afterMs now : Z) (prefixes : list text) : Op D (list LifecycleOutcome) :=
  match prefixes with
  | [] => mret []
  | prefix :: prefixes =>
      keys ← collectQualifying prefix afterMs now (λ _, true);
      outcomes ← delete_keys Expired keys;
      rest ← expire_prefixes afterMs now prefixes;
      mret (outcomes ++ rest)
  end.
Definition applyExpire (afterMs now : Z) : Op D (list LifecycleOutcome) := expire_prefixes afterMs now TEMP_UPLOAD_PREFIXES.
Definition applyMoveToCold (prefix coldPrefix : text) (thresholdMs now : Z) : Op D (list LifecycleOutcome) :=
  keys ← collectQualifying prefix thresholdMs now (λ key, isManagedKey key && negb (is_prefix coldPrefix key));
  relocate_keys Moved coldPrefix keys.

Definition apply_rule (rule : LifecycleRule) (now : Z) : Op D (list LifecycleOutcome) :=
  match d_lifecycle with
  | Some native => native rule now
  | None =>
      match rule with
      | DeleteAfterDays days prefix => applyDelete (default [] prefix) (days * MS_PER_DAY) now
      | ArchiveAfterMonths months prefix => applyArchive (default [] prefix) (months * DAYS_PER_MONTH * MS_PER_DAY) now
      | ExpireTempUploads afterMs => applyExpire afterMs now
      | MoveToCold afterDays coldPrefix prefix => applyMoveToCold (default [] prefix) coldPrefix (afterDays * MS_PER_DAY) now
      end
  end.
End lifecycle.

(** ** What a rule is to act on *)

Definition aged (thresholdMs now : Z) (o : gmap text Entry) (key : text) : Prop :=
  ∃ e, o !! key = Some e ∧ (thresholdMs <= now - createdAt e.2)%Z.

Definition due (rule : LifecycleRule) (now : Z) (o : gmap text Entry) (key : text) : Prop :=
  match rule with
  | DeleteAfterDays days p =>
      is_prefix (default [] p) key = true ∧ isManagedKey key = true ∧ aged (days * MS_PER_DAY) now o key
  | ArchiveAfterMonths months p =>
      is_prefix (default [] p) key = true ∧ isManagedKey key = true ∧ aged (months * DAYS_PER_MONTH * MS_PER_DAY) now o key
  | ExpireTempUploads afterMs =>
      (∃ p, p ∈ TEMP_UPLOAD_PREFIXES ∧ is_prefix p key = true) ∧ aged afterMs now o key
  | MoveToCold afterDays cold p =>
      is_prefix (default [] p) key = true ∧ (isManagedKey key = true ∧ is_prefix cold key = false) ∧
      aged (afterDays * MS_PER_DAY) now o key
  end.

(** Where the object goes, when it is kept. *)
Definition destination (rule : LifecycleRule) (key : text) : option text :=
  match rule with
  | DeleteAfterDays _ _ | ExpireTempUploads _ => None
  | ArchiveAfterMonths _ _ => Some (ARCHIVE_KEY_PREFIX ++ key)
  | MoveToCold _ cold _ => Some (cold ++ key)
  end.
Definition action_of (rule : LifecycleRule) : LifecycleAction :=
  match rule with
  | DeleteAfterDays _ _ => Deleted
  | ArchiveAfterMonths _ _ => Archived
  | ExpireTempUploads _ => Expired
  | MoveToCold _ _ _ => Moved
  end.

Section theorems.
Context {D : Type} `{DriverLaws D, !Reliable D}.

Lemma qualifying_ok th now accept items : ∀ d : D,
  (∀ i, i ∈ items → ∃ e, objects d !! i_key i = Some e) → NoDup (i_key <$> items) →
  ∃ keys d', qualifying th now accept items d = (Ok keys, d') ∧ objects d' = objects d ∧ NoDup keys ∧
             ∀ k, k ∈ keys ↔ k ∈ i_key <$> items ∧ accept k = true ∧ aged th now (objects d) k.
Proof.
  induction items as [|i items IH]; intros d Hi Hnd.
  { exists [], d. split; [done|]. split; [done|]. split; [constructor|]. intros k.
    split; [by intros ?%not_elem_of_nil|by intros [?%not_elem_of_nil _]]. }
  rewrite fmap_cons, NoDup_cons in Hnd. destruct Hnd as [Hni Hnd]. cbn [qualifying].
  destruct (Hi i ltac:(left)) as [e He]. destruct (accept (i_key i)) eqn:Ea.
  - destruct (stat_ok (i_key i) d) as (d1 & Hstat & Hd1). rewrite He in Hstat. cbn in Hstat.
    destruct (IH d1) as (keys & d2 & Hrun & Hd2 & Hk & Hkeys); [intros; rewrite Hd1; apply Hi; by right|done|].
    rewrite (op_bind_ok _ _ _ _ _ Hstat), (op_bind_ok _ _ _ _ _ Hrun). rewrite Hd1 in Hkeys.
    assert (i_key i ∉ keys) as Hnot by (rewrite Hkeys; tauto).
    eexists _, d2. split; [done|]. split; [congruence|]. case_match eqn:Et; reflect_bools.
    + split; [by constructor|]. intros k. rewrite elem_of_cons, fmap_cons, elem_of_cons, Hkeys. split; [|tauto].
      intros [->|?]; [|tauto]. split; [by left|]. split; [done|]. by exists e.
    + split; [done|]. intros k. rewrite fmap_cons, elem_of_cons, Hkeys. split; [tauto|].
      intros ([->|?] & ? & Hage); [|tauto]. destruct Hage as (e' & He' & ?). rewrite He in He'. injection He' as <-. lia.
  - destruct (IH d) as (keys & d2 & Hrun & Hd2 & Hk & Hkeys); [intros; apply Hi; by right|done|].
    exists keys, d2. repeat (split; [done|]). intros k. rewrite fmap_cons, elem_of_cons, Hkeys. split; [tauto|].
    intros ([->|?] & ? & ?); [congruence|tauto].
Qed.

Lemma collect_ok prefix th now accept (d : D) :
  ∃ keys d', collectQualifying prefix th now accept d = (Ok keys, d') ∧ objects d' = objects d ∧ NoDup keys ∧
             ∀ k, k ∈ keys ↔ is_prefix prefix k = true ∧ accept k = true ∧ aged th now (objects d) k.
Proof.
  destruct (list_ok prefix d) as (items & d1 & Hlist & Hd1 & Hnd & Hitems).
  destruct (qualifying_ok th now accept items d1) as (keys & d2 & Hrun & Hd2 & Hk & Hkeys); [|done|].
  { intros i (k & e & He & _ & ->)%Hitems. rewrite Hd1. by exists e. }
  exists keys, d2. split; [unfold collectQualifying; by rewrite (op_bind_ok _ _ _ _ _ Hlist)|].
  split; [congruence|]. split; [done|]. intros k. rewrite Hkeys, Hd1. split.
  - intros ((i & -> & (k0 & e & He & Hp & ->)%Hitems)%list_elem_of_fmap & ? & ?). done.
  - intros (Hp & Ha & e & He & Hage). split; [|split; [done|by exists e]]. apply list_elem_of_fmap.
    exists (item k e). split; [done|]. apply Hitems. by exists k, e.
Qed.

Lemma delete_keys_ok action keys : ∀ d : D,
  ∃ d', delete_keys action keys d = (Ok ((λ k, {| o_key := k; o_action := action |}) <$> keys), d') ∧
        objects d' = foldl (λ o k, delete k o) (objects d) keys.
Proof.
  induction keys as [|k keys IH]; intros d; [by exists d|].
  destruct (delete_ok k d) as (d1 & Hdel & Hd1). destruct (IH d1) as (d2 & Hrun & Hd2). exists d2. split.
  - cbn [delete_keys]. rewrite (op_bind_ok _ _ _ _ _ Hdel). by rewrite (op_bind_ok _ _ _ _ _ Hrun).
  - by rewrite Hd2, Hd1.
Qed.
Lemma deleted_keys (keys : list text) (o : gmap text Entry) k :
  foldl (λ o k, delete k o) o keys !! k = if decide (k ∈ keys) then None else o !! k.
Proof.
  revert o. induction keys as [|x keys IH]; intros o; cbn [foldl].
  { rewrite decide_False; [done|apply not_elem_of_nil]. }
  rewrite IH. destruct (decide (k ∈ keys)) as [Hk|Hk]; [by rewrite decide_True by by right|].
  destruct (decide (k = x)) as [->|Hne]; [rewrite decide_True by left; apply lookup_delete_eq|].
  rewrite decide_False by (rewrite elem_of_cons; tauto). by apply lookup_delete_ne.
Qed.

(** The object of [k] has become that of [k']. *)
Definition moved_to (o o' : gmap text Entry) (k k' : text) : Prop :=
  ∃ b m m', o !! k = Some (b, m) ∧ o' !! k' = Some (b, m') ∧ attributes m' = attributes m.

Lemma relocate_ok k dest b m (d : D) :
  objects d !! k = Some (b, m) →
  ∃ m' d', relocate k dest d = (Ok true, d') ∧ attributes m' = attributes m ∧
           objects d' = delete k (<[dest := (b, m')]> (objects d)).
Proof.
  intros Hm. destruct (get_ok k d) as (d1 & Hget & Hd1). rewrite Hm in Hget.
  destruct (put_ok dest b (toWriteMetadata m) d1) as (m' & d2 & Hput & Hd2 & _ & _ & _ & Ha).
  destruct (delete_ok k d2) as (d3 & Hdel & Hd3). exists m', d3. split; [|split; [done|congruence]].
  unfold relocate. rewrite (op_bind_ok _ _ _ _ _ Hget), (op_bind_ok _ _ _ _ _ Hput). by rewrite (op_bind_ok _ _ _ _ _ Hdel).
Qed.

Lemma relocate_keys_ok action prefix keys : ∀ d : D,
  NoDup keys → (∀ k, k ∈ keys → is_Some (objects d !! k) ∧ is_prefix prefix k = false) →
  ∃ d', relocate_keys action prefix keys d = (Ok ((λ k, {| o_key := k; o_action := action |}) <$> keys), d') ∧
    (∀ k, k ∈ keys → objects d' !! k = None ∧ moved_to (objects d) (objects d') k (prefix ++ k)) ∧
    ∀ x, x ∉ keys → (∀ k, k ∈ keys → x ≠ prefix ++ k) → objects d' !! x = objects d !! x.
Proof.
  induction keys as [|k keys IH]; intros d Hnd Hk.
  { exists d. split; [done|]. split; [by intros k ?%not_elem_of_nil|done]. }
  apply NoDup_cons in Hnd as [Hni Hnd]. destruct (Hk k ltac:(left)) as [[[b m] Hm] Hp].
  assert (∀ x y, is_prefix prefix x = false → prefix ++ y ≠ x) as Hne by (intros x y E <-; by rewrite is_prefix_app in E).
  destruct (relocate_ok k (prefix ++ k) b m d Hm) as (m' & d1 & Hrel & Ha & Hd1).
  assert (∀ x, x ≠ k → x ≠ prefix ++ k → objects d1 !! x = objects d !! x) as Hsame.
  { intros x H1' H2'. by rewrite Hd1, lookup_delete_ne, lookup_insert_ne by done. }
  assert (∀ x, x ∈ keys → objects d1 !! x = objects d !! x) as Hkeys.
  { intros x Hx. apply Hsame; [by intros ->|]. intros E. destruct (Hk x) as [_ Hpx]; [by right|]. by apply (Hne x k Hpx). }
  destruct (IH d1 Hnd) as (d2 & Hrun & Hmoved & Hrest).
  { intros x Hx. rewrite Hkeys by done. apply Hk. by right. }
  exists d2. split; [|split].
  - cbn [relocate_keys]. rewrite (op_bind_ok _ _ _ _ _ Hrel). by rewrite (op_bind_ok _ _ _ _ _ Hrun).
  - intros x [->|Hx]%elem_of_cons.
    + split.
      * rewrite Hrest; [by rewrite Hd1, lookup_delete_eq|done|]. intros y _ E. by apply (Hne k y Hp).
      * exists b, m, m'. split; [done|]. split; [|done]. rewrite Hrest.
        -- rewrite Hd1, lookup_delete_ne by (by apply not_eq_sym, Hne). by rewrite lookup_insert_eq.
        -- intros Hin. destruct (Hk (prefix ++ k)) as [_ Hpx]; [by right|]. by rewrite is_prefix_app in Hpx.
        -- intros y Hy E%app_inv_head. by subst.
    + destruct (Hmoved x Hx) as [Hgone (b' & m1 & m2 & H1' & ?)]. split; [done|]. exists b', m1, m2. by rewrite <-Hkeys.
  - intros x Hx Hxk. rewrite not_elem_of_cons in Hx. rewrite Hrest, Hsame; [done|tauto|apply Hxk; left|tauto|].
    intros y Hy. apply Hxk. by right.
Qed.

(** What a run of a rule over the objects [o] has to leave in [o']. *)
Definition effect (rule : LifecycleRule) (now : Z) (o o' : gmap text Entry) (outcomes : list LifecycleOutcome) : Prop :=
  NoDup (o_key <$> outcomes) ∧
  (∀ x, x ∈ outcomes ↔ due rule now o (o_key x) ∧ o_action x = action_of rule) ∧
  (∀ k, due rule now o k → o' !! k = None ∧
        match destination rule k with Some k' => moved_to o o' k k' | None => True end) ∧
  (∀ k, ¬ due rule now o k → (∀ k', due rule now o k' → destination rule k' ≠ Some k) → o' !! k = o !! k).

Lemma outcomes_of_keys rule now o keys :
  NoDup keys → (∀ k, k ∈ keys ↔ due rule now o k) →
  let outcomes := (λ k, {| o_key := k; o_action := action_of rule |}) <$> keys in
  NoDup (o_key <$> outcomes) ∧ ∀ x, x ∈ outcomes ↔ due rule now o (o_key x) ∧ o_action x = action_of rule.
Proof.
  intros Hnd Hk. cbn zeta. rewrite <-list_fmap_compose. split.
  { replace (o_key ∘ _) with (@Datatypes.id text) by done. by rewrite list_fmap_id. }
  intros [k a]. rewrite list_elem_of_fmap. cbn. split.
  - intros (k' & [= -> ->] & Hin). by rewrite <-Hk.
  - intros [Hd ->]. exists k. by rewrite Hk.
Qed.

Lemma deletes_effect rule now keys (d : D) :
  (∀ k, destination rule k = None) → NoDup keys → (∀ k, k ∈ keys ↔ due rule now (objects d) k) →
  ∃ outcomes d', delete_keys (action_of rule) keys d = (Ok outcomes, d') ∧ effect rule now (objects d) (objects d') outcomes.
Proof.
  intros Hdest Hnd Hk. destruct (delete_keys_ok (action_of rule) keys d) as (d' & Hrun & Hd').
  destruct (outcomes_of_keys rule now (objects d) keys Hnd Hk) as [H1' H2']. eexists _, d'.
  split; [exact Hrun|]. split; [exact H1'|]. split; [exact H2'|]. rewrite Hd'. split.
  - intros k Hdue. rewrite Hdest, deleted_keys, decide_True by by apply Hk. done.
  - intros k Hdue _. by rewrite deleted_keys, decide_False by by rewrite Hk.
Qed.

Lemma moves_effect rule now prefix keys (d : D) :
  (∀ k, destination rule k = Some (prefix ++ k)) →
  NoDup keys → (∀ k, k ∈ keys ↔ due rule now (objects d) k) →
  (∀ k, due rule now (objects d) k → is_Some (objects d !! k) ∧ is_prefix prefix k = false) →
  ∃ outcomes d', relocate_keys (action_of rule) prefix keys d = (Ok outcomes, d') ∧
                 effect rule now (objects d) (objects d') outcomes.
Proof.
  intros Hdest Hnd Hk Hp.
  destruct (relocate_keys_ok (action_of rule) prefix keys d Hnd) as (d' & Hrun & Hmoved & Hrest).
  { intros k Hin. by apply Hp, Hk. }
  destruct (outcomes_of_keys rule now (objects d) keys Hnd Hk) as [H1' H2']. eexists _, d'.
  split; [exact Hrun|]. split; [exact H1'|]. split; [exact H2'|]. split.
  - intros k Hdue. rewrite Hdest. by apply Hmoved, Hk.
  - intros k Hdue Hnot. apply Hrest; [by rewrite Hk|]. intros k' Hin ->. apply (Hnot k'); [by apply Hk|apply Hdest].
Qed.

Lemma expire_ok afterMs now prefixes : ∀ d : D,
  ∃ keys d', expire_prefixes afterMs now prefixes d = (Ok ((λ k, {| o_key := k; o_action := Expired |}) <$> keys), d') ∧
    NoDup keys ∧ (∀ k, k ∈ keys ↔ (∃ p, p ∈ prefixes ∧ is_prefix p k = true) ∧ aged afterMs now (objects d) k) ∧
    ∀ k, objects d' !! k = if decide (k ∈ keys) then None else objects d !! k.
Proof.
  induction prefixes as [|p prefixes IH]; intros d.
  { exists [], d. split; [done|]. split; [constructor|]. split; [|done]. intros k.
    split; [by intros ?%not_elem_of_nil|by intros [(p & ?%not_elem_of_nil & _) _]]. }
  destruct (collect_ok p afterMs now (λ _, true) d) as (k1 & d1 & Hcol & Hd1 & Hn1 & Hk1).
  destruct (delete_keys_ok Expired k1 d1) as (d2 & Hdel & Hd2). rewrite Hd1 in Hd2.
  destruct (IH d2) as (k2 & d3 & Hrun & Hn2 & Hk2 & Hd3).
  assert (∀ k, aged afterMs now (objects d2) k ↔ aged afterMs now (objects d) k ∧ k ∉ k1) as Hage.
  { intros k. unfold aged. rewrite Hd2, deleted_keys. case_decide; naive_solver. }
  exists (k1 ++ k2), d3. split; [|split; [|split]].
  - cbn [expire_prefixes]. rewrite (op_bind_ok _ _ _ _ _ Hcol), (op_bind_ok _ _ _ _ _ Hdel).
    rewrite (op_bind_ok _ _ _ _ _ Hrun). by rewrite fmap_app.
  - apply NoDup_app. split; [done|]. split; [|done]. intros k Hin Hin2. apply Hk2 in Hin2 as [_ Ha].
    by apply Hage in Ha as [_ ?].
  - intros k. rewrite elem_of_app, Hk2, Hage, Hk1. split.
    + intros [(? & _ & ?)|((q & ? & ?) & ? & _)]; (split; [|done]); [exists p; split; [by left|done]|exists q; split; [by right|done]].
    + intros [(q & [->|Hq]%elem_of_cons & Hpre) Ha]; [by left|].
      destruct (decide (k ∈ k1)) as [Hin|Hin]; [left; by apply Hk1|right]. split; [by exists q|]. split; [done|]. by rewrite <-Hk1.
  - intros k. rewrite Hd3, Hd2, deleted_keys. destruct (decide (k ∈ k2)) as [H2'|H2'].
    { rewrite decide_True; [done|]. apply elem_of_app. by right. }
    destruct (decide (k ∈ k1)); [rewrite decide_True|rewrite decide_False]; rewrite ?elem_of_app; tauto || done.
Qed.

Lemma managed_not_archived k : isManagedKey k = true → is_prefix ARCHIVE_KEY_PREFIX k = false.
Proof.
  unfold isManagedKey. rewrite negb_true_iff. cbn [existsb RESERVED_KEY_PREFIXES]. rewrite !orb_false_iff. tauto.
Qed.

Lemma aged_is_Some (th now : Z) (o : gmap text Entry) (k : text) : aged th now o k → is_Some (o !! k).
Proof. intros (e & He & _). by exists e. Qed.

Lemma apply_ok rule now (d : D) :
  d_lifecycle = None →
  ∃ outcomes d', apply_rule rule now d = (Ok outcomes, d') ∧ effect rule now (objects d) (objects d') outcomes.
Proof.
  intros Hs. unfold apply_rule. rewrite Hs. destruct rule as [days p|months p|afterMs|days cold p].
  - destruct (collect_ok (default [] p) (days * MS_PER_DAY) now isManagedKey d) as (keys & d1 & Hcol & Hd1 & Hn & Hk).
    rewrite <-Hd1 in Hk |- *. destruct (deletes_effect (DeleteAfterDays days p) now keys d1) as (out & d2 & Hrun & Heff); [done|done|exact Hk|].
    exists out, d2. split; [|done]. unfold applyDelete. by rewrite (op_bind_ok _ _ _ _ _ Hcol).
  - destruct (collect_ok (default [] p) (months * DAYS_PER_MONTH * MS_PER_DAY) now isManagedKey d) as (keys & d1 & Hcol & Hd1 & Hn & Hk).
    rewrite <-Hd1 in Hk |- *.
    destruct (moves_effect (ArchiveAfterMonths months p) now ARCHIVE_KEY_PREFIX keys d1) as (out & d2 & Hrun & Heff); [done|done|exact Hk| |].
    { intros k (_ & Hm & Ha). split; [by eapply aged_is_Some|by apply managed_not_archived]. }
    exists out, d2. split; [|done]. unfold applyArchive. by rewrite (op_bind_ok _ _ _ _ _ Hcol).
  - destruct (expire_ok afterMs now TEMP_UPLOAD_PREFIXES d) as (keys & d1 & Hrun & Hn & Hk & Hd1).
    destruct (outcomes_of_keys (ExpireTempUploads afterMs) now (objects d) keys Hn Hk) as [H1' H2'].
    eexists _, d1. split; [exact Hrun|]. split; [exact H1'|]. split; [exact H2'|]. split.
    + intros k Hdue. by rewrite Hd1, decide_True by by apply Hk.
    + intros k Hdue _. by rewrite Hd1, decide_False by by rewrite Hk.
  - destruct (collect_ok (default [] p) (days * MS_PER_DAY) now (λ key, isManagedKey key && negb (is_prefix cold key)) d)
      as (keys & d1 & Hcol & Hd1 & Hn & Hk).
    rewrite <-Hd1 in Hk |- *.
    destruct (moves_effect (MoveToCold days cold p) now cold keys d1) as (out & d2 & Hrun & Heff); [done|done| | |].
    { intros k. cbn [due]. by rewrite Hk, andb_true_iff, negb_true_iff. }
    { intros k (_ & [_ Hc] & Ha). split; [by eapply aged_is_Some|done]. }
    exists out, d2. split; [|done]. unfold applyMoveToCold. by rewrite (op_bind_ok _ _ _ _ _ Hcol).
Qed.

Lemma due_not_destination (rule : LifecycleRule) (now : Z) (o : gmap text Entry) (k k' : text) : due rule now o k → destination rule k' ≠ Some k.
Proof.
  destruct rule as [days p|months p|afterMs|days cold p]; [done| |done|].
  - intros (_ & Hm%managed_not_archived & _) E. assert (k = ARCHIVE_KEY_PREFIX ++ k') as -> by by injection E.
    by rewrite is_prefix_app in Hm.
  - intros (_ & [_ Hc] & _) E. assert (k = cold ++ k') as -> by by injection E. by rewrite is_prefix_app in Hc.
Qed.

Lemma due_same (rule : LifecycleRule) (now : Z) (o o' : gmap text Entry) (k : text) : o' !! k = o !! k → due rule now o' k → due rule now o k.
Proof. intros E. destruct rule; cbn; unfold aged; by rewrite E. Qed.
Lemma due_is_Some (rule : LifecycleRule) (now : Z) (o : gmap text Entry) (k : text) : due rule now o k → is_Some (o !! k).
Proof. destruct rule; cbn; [intros (_ & _ & Ha)..|intros [_ Ha]|intros (_ & _ & Ha)]; by eapply aged_is_Some. Qed.

(** After a run nothing is due any more: what was has gone, and what was written is exempt. *)
Lemma effect_nothing_due (rule : LifecycleRule) (now : Z) (o o' : gmap text Entry) outcomes (k : text) :
  effect rule now o o' outcomes → ¬ due rule now o' k.
Proof.
  intros (_ & Hout & Hdue & Hsame) Hk. destruct (decide (k ∈ o_key <$> outcomes)) as [Hin|Hin].
  - apply list_elem_of_fmap in Hin as (x & -> & [Hx _]%Hout). destruct (Hdue _ Hx) as [Hnone _].
    apply due_is_Some in Hk as [e He]. congruence.
  - assert (¬ due rule now o k) as Hnot.
    { intros Hd. apply Hin, list_elem_of_fmap. exists {| o_key := k; o_action := action_of rule |}. split; [done|]. by apply Hout. }
    apply Hnot. eapply due_same, Hk. apply Hsame; [done|]. intros k' _. by eapply due_not_destination.
Qed.

(** C35: A rule acts on every object that is due and on no other, once: an outcome is reported
    for each; the object is gone from its key and, when the rule moves, is found with its
    bytes and attributes at the destination; the others are as they were; and the same rule
    at the same time finds nothing more to do. *)
Theorem lifecycle_exactly_once rule now (d : D) :
  d_lifecycle = None →
  ∃ outcomes d1 d2,
    apply_rule rule now d = (Ok outcomes, d1) ∧ effect rule now (objects d) (objects d1) outcomes ∧
    apply_rule rule now d1 = (Ok [], d2) ∧ objects d2 = objects d1.
Proof.
  intros Hs. destruct (apply_ok rule now d Hs) as (out1 & d1 & Hrun1 & Heff1).
  destruct (apply_ok rule now d1 Hs) as (out2 & d2 & Hrun2 & _ & Hout2 & _ & Hsame2).
  assert (out2 = []) as ->.
  { destruct out2 as [|x out2]; [done|]. destruct (proj1 (Hout2 x)) as [Hx _]; [left|].
    by destruct (effect_nothing_due _ _ _ _ _ _ Heff1 Hx). }
  exists out1, d1, d2. split; [done|]. split; [done|]. split; [done|]. apply map_eq. intros k.
  apply Hsame2; [by eapply effect_nothing_due|]. intros k' Hk'. by destruct (effect_nothing_due _ _ _ _ _ k' Heff1).
Qed.
End theorems.

(** ** A rule over the memory driver *)

#[local] Existing Instance sample_sha.
#[local] Existing Instance sample_clock.
Definition with_report : MemoryStorageDriver := (d_put (lit "logs/a") (lit "x") no_metadata new_MemoryStorageDriver).2.

Lemma lifecycle_exactly_once_witness :
  let rule := MoveToCold 1 (lit "cold/") (Some (lit "logs/")) in
  due rule 100000000 (objects with_report) (lit "logs/a") ∧
  ∃ outcomes d1 d2,
    apply_rule rule 100000000 with_report = (Ok outcomes, d1) ∧ effect rule 100000000 (objects with_report) (objects d1) outcomes ∧
    apply_rule rule 100000000 d1 = (Ok [], d2) ∧ objects d2 = objects d1.
Proof.
  cbv zeta. split; [|apply lifecycle_exactly_once; reflexivity].
  split; [reflexivity|]. split; [done|]. eexists. split; [vm_compute; reflexivity|]. vm_compute. discriminate.
Defined.
