(* ===== verification/StorageBrowse.v ===== *)
(** * Directories and search over a flat key space

    Models src/packages/storage/src/directory.ts and search.ts, over the [list], [stat],
    [put] and [delete] of any driver.  Names of custom fields are not names of
    [Object.prototype] members, and values are trees (ConfigValue.v). *)

From Stdlib Require Import Ascii String SpecFloat.
From S2P Require Import Prelude JsText JsMap JsNumber ConfigValue StorageDriver StorageLifecycle.

Open Scope nat_scope.
#[local] Open Scope list_scope.

Definition DELIMITER : ascii := "/"%char.

(** ** The directory API *)

Fixpoint drop_delimiters (p : text) : text :=
  match p with
  | c :: p' => if decide (c = DELIMITER) then drop_delimiters p' else p
  | [] => []
  end.
Definition toPrefix (path : text) : text :=
  match drop_delimiters path with
  | [] => []
  | p => if decide (last p = Some DELIMITER) then p else p ++ [DELIMITER]
  end.

(** The loop of [listDirectory]: the files and the [Map] of sub-directories so far. *)
Fixpoint directory_loop (prefix : text) (files : list StorageListItem) (directories : list (text * StorageListItem))
    (items : list StorageListItem) : list StorageListItem :=
  match items with
  | [] => directories.*2 ++ files
  | i :: items =>
      let remainder := drop (length prefix) (i_key i) in
      if decide (remainder = []) then directory_loop prefix files directories items
      else match indexOf DELIMITER remainder with
           | None => directory_loop prefix (files ++ [i]) directories items
           | Some slash =>
               let dirKey := prefix ++ take slash remainder ++ [DELIMITER] in
               let newer := match jm_get dirKey directories with
                            | None => true
                            | Some existing => (i_updatedAt existing <? i_updatedAt i)%Z
                            end in
               directory_loop prefix files
                 (if newer then jm_set dirKey {| i_key := dirKey; i_size := 0; i_updatedAt := i_updatedAt i |} directories
                  else directories) items
           end
  end.

Section directory.
Context {D : Type} `{StorageDriver D}.

Definition keysUnder (prefix : text) : Op D (list StorageListItem) :=
  items ← d_list prefix no_options;
  mret (if decide (prefix = []) then items else filter (λ i, is_prefix prefix (i_key i) = true) items).

Definition mkdir (path : text) : Op D unit :=
  let prefix := toPrefix path in
  if decide (prefix = []) then mret tt else _ ← d_put prefix [] no_metadata; mret tt.

Definition listDirectory (path : text) : Op D (list StorageListItem) :=
  items ← keysUnder (toPrefix path); mret (directory_loop (toPrefix path) [] [] items).

Definition removeDirectory (path : text) : Op D bool :=
  items ← keysUnder (toPrefix path);
  match items with
  | [] => mret false
  | _ => for_each items (λ i, d_delete (i_key i)) ;; mret true
  end.

Definition walk (path : text) : Op D (list text) :=
  items ← keysUnder (toPrefix path);
  mret (filter (λ k, k ≠ toPrefix path) (i_key <$> items)).
End directory.

(** ** Search *)

Record SearchFilters : Type := {
  f_prefix : option (list ascii);
  f_contentType : option (list ascii);
  f_owner : option (list ascii);
  f_tenant : option (list ascii);
  minSize : option Z;
  maxSize : option Z;
  updatedAfter : option Z;
  updatedBefore : option Z;
  f_metadata : option (list (list ascii * value))
}.

Definition isReservedKey (key : text) : bool := existsb (λ reserved, is_prefix reserved key) RESERVED_KEY_PREFIXES.
Definition prefixTargetsReserved (prefix : text) : bool := existsb (λ reserved, is_prefix reserved prefix) RESERVED_KEY_PREFIXES.

(** [Object.is] tells zeros apart and takes NaN for itself, as equality of [spec_float] does;
    the comparison of trees goes by index in arrays and by key in objects. *)
Fixpoint deepEqual (a b : value) {struct a} : bool :=
  match a, b with
  | VUndefined, VUndefined => true
  | VNull, VNull => true
  | VBool x, VBool y => bool_decide (x = y)
  | VNumber x, VNumber y => bool_decide (x = y)
  | VString x, VString y => bool_decide (x = y)
  | VArray xs, VArray ys =>
      (length xs =? length ys) &&
      (fix every (xs ys : list value) : bool :=
         match xs, ys with
         | x :: xs, y :: ys => deepEqual x y && every xs ys
         | _, _ => true
         end) xs ys
  | VObject xs, VObject ys =>
      (length xs =? length ys) &&
      (fix every (xs : list (text * value)) : bool :=
         match xs with
         | (k, x) :: xs => match jm_get k ys with Some y => deepEqual x y | None => false end && every xs
         | [] => true
         end) xs
  | _, _ => false
  end.

Definition matchesCustomMetadata (custom : option (list (text * value))) (required : list (text * value)) : bool :=
  match custom with
  | None => bool_decide (required = [])
  | Some source => forallb (λ e, deepEqual (default VUndefined (jm_get e.1 source)) e.2) required
  end.

(** [filter !== undefined && metadata.field !== filter] *)
Definition differs (filter field : option text) : bool :=
  match filter with Some f => bool_decide (field ≠ Some f) | None => false end.
Definition below (filter : option Z) (field : Z) : bool :=
  match filter with Some f => (field <? f)%Z | None => false end.
Definition above (filter : option Z) (field : Z) : bool :=
  match filter with Some f => (f <? field)%Z | None => false end.

Definition matchesFilters (m : StorageObjectMetadata) (f : SearchFilters) : bool :=
  if differs (f_contentType f) (contentType m) then false
  else if differs (f_owner f) (owner m) then false
  else if differs (f_tenant f) (tenant m) then false
  else if below (minSize f) (Z.of_nat (m_size m)) then false
  else if above (maxSize f) (Z.of_nat (m_size m)) then false
  else if below (updatedAfter f) (updatedAt m) then false
  else if above (updatedBefore f) (updatedAt m) then false
  else match f_metadata f with
       | Some required => matchesCustomMetadata (custom m) required
       | None => true
       end.

Section search.
Context {D : Type} `{StorageDriver D}.

Fixpoint search_loop (prefix : text) (filters : SearchFilters) (candidates : list StorageListItem) :
    Op D (list StorageListItem) :=
  match candidates with
  | [] => mret []
  | i :: candidates =>
      if bool_decide (prefix ≠ []) && negb (is_prefix prefix (i_key i)) then search_loop prefix filters candidates
      else if isReservedKey (i_key i) && negb (prefixTargetsReserved prefix) then search_loop prefix filters candidates
      else
        metadata ← d_stat (i_key i);
        rest ← search_loop prefix filters candidates;
        mret (match metadata with
              | Some m => if matchesFilters m filters then i :: rest else rest
              | None => rest
              end)
  end.
Definition searchObjects (filters : SearchFilters) : Op D (list StorageListItem) :=
  let prefix := default [] (f_prefix filters) in
  candidates ← d_list prefix no_options; search_loop prefix filters candidates.
End search.

(** ** Comparing trees *)

Lemma deepEqual_arrays xs ys :
  deepEqual (VArray xs) (VArray ys) = true ↔ Forall2 (λ x y, deepEqual x y = true) xs ys.
Proof.
  cbn [deepEqual]. rewrite andb_true_iff, Nat.eqb_eq. revert ys.
  induction xs as [|x xs IH]; intros [|y ys]; cbn [length]; try (split; [by intros [? _]|by inversion 1]).
  rewrite andb_true_iff, Forall2_cons, <-IH. naive_solver lia.
Qed.

Lemma deepEqual_objects xs ys :
  deepEqual (VObject xs) (VObject ys) = true ↔
  length xs = length ys ∧ Forall (λ e, ∃ y, jm_get e.1 ys = Some y ∧ deepEqual e.2 y = true) xs.
Proof.
  cbn [deepEqual]. rewrite andb_true_iff, Nat.eqb_eq. apply and_iff_compat_l.
  induction xs as [|[k x] xs IH]; [split; [constructor|done]|].
  rewrite andb_true_iff, Forall_cons, <-IH. apply and_iff_compat_r. cbn.
  destruct (jm_get k ys) as [y|]; naive_solver.
Qed.

(** No key twice, in the tree and below: what JavaScript objects are. *)
Inductive tree_wf : value → Prop :=
| wf_leaf v : (∀ l, v ≠ VArray l) → (∀ m, v ≠ VObject m) → tree_wf v
| wf_array l : Forall tree_wf l → tree_wf (VArray l)
| wf_object m : jm_wf m → Forall (λ e, tree_wf e.2) m → tree_wf (VObject m).

Lemma deepEqual_refl v : tree_wf v → deepEqual v v = true.
Proof.
  induction v as [|  |b|n|t|items IH|entries IH] using value_ind; intros Hwf;
    try (cbn; by rewrite ?bool_decide_true by done); inversion Hwf as [? Ha Ho|? Hl|? Hm Hv]; subst;
    try (by destruct (Ha items)); try (by destruct (Ho entries)).
  - apply deepEqual_arrays, Forall2_same_length_lookup. split; [done|]. intros i x y Hx Hy.
    rewrite Hx in Hy. injection Hy as <-. rewrite Forall_lookup in IH. apply (IH i); [done|].
    by eapply Forall_lookup_1.
  - apply deepEqual_objects. split; [done|]. rewrite Forall_forall in IH |- *. intros [k x] Hin. exists x.
    split; [by apply jm_elem_get|]. apply (IH (k, x) Hin). by apply (proj1 (Forall_forall _ _) Hv (k, x)).
Qed.

Lemma deepEqual_object_lookup xs ys k x :
  jm_wf xs → deepEqual (VObject xs) (VObject ys) = true → jm_get k xs = Some x →
  ∃ y, jm_get k ys = Some y ∧ deepEqual x y = true.
Proof.
  rewrite deepEqual_objects. intros _ [_ Hall] Hx%jm_get_elem. by apply (proj1 (Forall_forall _ _) Hall (k, x)).
Qed.

(** ** Search finds what matches *)

Section search_theorems.
Context {D : Type} `{DriverLaws D, !Reliable D}.

(** The object at [k] is to be found. *)
Definition visible (prefix k : text) : bool := is_prefix prefix k && (negb (isReservedKey k) || prefixTargetsReserved prefix).
Definition found (f : SearchFilters) (o : gmap text Entry) (i : StorageListItem) : Prop :=
  ∃ k e, o !! k = Some e ∧ i = item k e ∧ visible (default [] (f_prefix f)) k = true ∧ matchesFilters e.2 f = true.

Definition selected (prefix : text) (f : SearchFilters) (o : gmap text Entry) (i : StorageListItem) : bool :=
  visible prefix (i_key i) && match o !! i_key i with Some e => matchesFilters e.2 f | None => false end.

Lemma search_loop_ok prefix f items : ∀ d : D,
  (∀ i, i ∈ items → is_prefix prefix (i_key i) = true) →
  ∃ d', search_loop prefix f items d = (Ok (filter (λ i, selected prefix f (objects d) i = true) items), d') ∧
        objects d' = objects d.
Proof.
  induction items as [|i items IH]; intros d Hi; [by exists d|].
  assert (∀ i, i ∈ items → is_prefix prefix (i_key i) = true) as Hi' by (intros; apply Hi; by right).
  rewrite filter_cons.
  assert (selected prefix f (objects d) i =
          (negb (isReservedKey (i_key i)) || prefixTargetsReserved prefix) &&
          match objects d !! i_key i with Some e => matchesFilters e.2 f | None => false end) as ->.
  { unfold selected, visible. by rewrite (Hi i ltac:(left)). }
  cbn [search_loop]. rewrite (Hi i ltac:(left)). cbn [negb]. rewrite andb_false_r.
  destruct (IH d Hi') as (d0 & Hrun0 & Hd0).
  destruct (stat_ok (i_key i) d) as (d1 & Hstat & Hd1). destruct (IH d1 Hi') as (d2 & Hrun & Hd2).
  destruct (isReservedKey (i_key i) && negb (prefixTargetsReserved prefix)) eqn:Er.
  - apply andb_true_iff in Er as [-> ->%negb_true_iff]. by exists d0.
  - exists d2. rewrite (op_bind_ok _ _ _ _ _ Hstat), (op_bind_ok _ _ _ _ _ Hrun), Hd1. split; [|congruence].
    replace (negb (isReservedKey (i_key i)) || prefixTargetsReserved prefix) with true
      by (by destruct (isReservedKey (i_key i)), (prefixTargetsReserved prefix)).
    destruct (objects d !! i_key i) as [e|]; cbn; [by destruct (matchesFilters e.2 f)|done].
Qed.

(** A search returns the objects below its prefix that satisfy every filter, each once;
    internal keys only when the prefix asks for them. *)
Theorem search_exact f (d : D) :
  ∃ items d', searchObjects f d = (Ok items, d') ∧ objects d' = objects d ∧
              NoDup (i_key <$> items) ∧ ∀ i, i ∈ items ↔ found f (objects d) i.
Proof.
  destruct (list_ok (default [] (f_prefix f)) d) as (items & d1 & Hlist & Hd1 & Hnd & Hitems).
  destruct (search_loop_ok (default [] (f_prefix f)) f items d1) as (d2 & Hrun & Hd2).
  { by intros i (k & e & _ & Hp & ->)%Hitems. }
  eexists _, d2. split; [unfold searchObjects; rewrite (op_bind_ok _ _ _ _ _ Hlist); exact Hrun|].
  split; [congruence|]. rewrite Hd1. split.
  - eapply sublist_NoDup; [exact Hnd|]. apply fmap_sublist, sublist_filter.
  - intros i. rewrite list_elem_of_filter, Hitems. unfold selected, found. rewrite andb_true_iff. split.
    + intros [[Hv Hm] (k & e & He & Hp & ->)]. cbn in Hv, Hm. rewrite He in Hm. by exists k, e.
    + intros (k & e & He & -> & Hv & Hm). cbn. rewrite He. split; [done|]. exists k, e. split; [done|]. split; [|done].
      unfold visible in Hv. by apply andb_true_iff in Hv as [? _].
Qed.
End search_theorems.

(** ** Directories *)

(** The sub-directory of the prefix that a key lies in. *)
Definition dir_of (prefix k : text) : option text :=
  let remainder := drop (length prefix) k in
  match indexOf DELIMITER remainder with
  | Some slash => Some (prefix ++ take slash remainder ++ [DELIMITER])
  | None => None
  end.
Definition is_file (prefix : text) (i : StorageListItem) : Prop :=
  drop (length prefix) (i_key i) ≠ [] ∧ indexOf DELIMITER (drop (length prefix) (i_key i)) = None.

#[export] Instance is_file_dec prefix i : Decision (is_file prefix i).
Proof. unfold is_file. apply _. Defined.

(** The entry of a sub-directory with the items [l]: the time of the latest of them. *)
Definition dir_entry (prefix : text) (l : list StorageListItem) (i : StorageListItem) : Prop :=
  i_size i = 0 ∧ (∃ j, j ∈ l ∧ dir_of prefix (i_key j) = Some (i_key i) ∧ i_updatedAt j = i_updatedAt i) ∧
  ∀ j, j ∈ l → dir_of prefix (i_key j) = Some (i_key i) → (i_updatedAt j <= i_updatedAt i)%Z.

(** The directories found in the items [l], in the loop. *)
Definition dirs_of (prefix : text) (l : list StorageListItem) (dirs : list (text * StorageListItem)) : Prop :=
  jm_wf dirs ∧ ∀ k, match jm_get k dirs with
                    | Some i => i_key i = k ∧ dir_entry prefix l i
                    | None => ∀ j, j ∈ l → dir_of prefix (i_key j) ≠ Some k
                    end.

Lemma dirs_of_skip prefix l i dirs :
  dir_of prefix (i_key i) = None → dirs_of prefix l dirs → dirs_of prefix (l ++ [i]) dirs.
Proof.
  intros Hi [Hwf Hd]. split; [done|]. intros k. specialize (Hd k). destruct (jm_get k dirs) as [e|].
  - destruct Hd as (Hk & Hs & (j & Hj & Hjd & Hjt) & Hmax). split; [done|]. split; [done|]. split.
    + exists j. split; [apply elem_of_app; by left|done].
    + intros j' [Hj'| ->%list_elem_of_singleton]%elem_of_app; [by apply Hmax|congruence].
  - intros j [Hj| ->%list_elem_of_singleton]%elem_of_app; [by apply Hd|congruence].
Qed.

Lemma dirs_of_step prefix l i dirs dk :
  dir_of prefix (i_key i) = Some dk → dirs_of prefix l dirs →
  dirs_of prefix (l ++ [i])
    (if match jm_get dk dirs with None => true | Some e => (i_updatedAt e <? i_updatedAt i)%Z end
     then jm_set dk {| i_key := dk; i_size := 0; i_updatedAt := i_updatedAt i |} dirs else dirs).
Proof.
  intros Hi [Hwf Hd].
  assert (∀ k, k ≠ dk → match jm_get k dirs with
                    | Some e => i_key e = k ∧ dir_entry prefix (l ++ [i]) e
                    | None => ∀ j, j ∈ l ++ [i] → dir_of prefix (i_key j) ≠ Some k end) as Hother.
  { intros k Hk. specialize (Hd k). destruct (jm_get k dirs) as [e|].
    - destruct Hd as (He & Hs & (j & Hj & Hjd & Hjt) & Hmax). split; [done|]. split; [done|]. split.
      + exists j. split; [apply elem_of_app; by left|done].
      + intros j' [Hj'| ->%list_elem_of_singleton]%elem_of_app; [by apply Hmax|congruence].
    - intros j [Hj| ->%list_elem_of_singleton]%elem_of_app; [by apply Hd|congruence]. }
  assert (i ∈ l ++ [i]) as Hin by (apply elem_of_app; right; by left).
  pose proof (Hd dk) as Hdk.
  destruct (match jm_get dk dirs with None => true | Some e => (i_updatedAt e <? i_updatedAt i)%Z end) eqn:E.
  - split; [by apply jm_set_wf|]. intros k. destruct (decide (k = dk)) as [->|Hk].
    + rewrite jm_get_set_eq. split; [done|]. split; [done|]. split; [by exists i|]. cbn.
      intros j [Hj| ->%list_elem_of_singleton]%elem_of_app Hjd; [|lia].
      destruct (jm_get dk dirs) as [e|]; [|by destruct (Hdk j Hj)]. destruct Hdk as (<- & _ & _ & Hmax).
      apply Z.ltb_lt in E. specialize (Hmax j Hj Hjd). lia.
    + rewrite jm_get_set_ne by done. by apply Hother.
  - split; [done|]. intros k. destruct (decide (k = dk)) as [->|Hk]; [|by apply Hother].
    destruct (jm_get dk dirs) as [e|]; [|done]. apply Z.ltb_ge in E. destruct Hdk as (He & Hs & (j & Hj & Hjd & Hjt) & Hmax).
    split; [done|]. split; [done|]. split.
    + exists j. split; [apply elem_of_app; by left|done].
    + intros j' [Hj'| ->%list_elem_of_singleton]%elem_of_app Hj'd; [by apply Hmax|lia].
Qed.

(** The entries of a directory, from the items below it. *)
Definition entries_of (prefix : text) (l es : list StorageListItem) : Prop :=
  ∃ dirs, dirs_of prefix l dirs ∧ es = dirs.*2 ++ filter (λ i, is_file prefix i) l.

Lemma directory_loop_ok prefix items : ∀ l files dirs,
  dirs_of prefix l dirs → files = filter (λ i, is_file prefix i) l →
  entries_of prefix (l ++ items) (directory_loop prefix files dirs items).
Proof.
  induction items as [|i items IH]; intros l files dirs Hd Hf; cbn [directory_loop].
  { rewrite app_nil_r. exists dirs. by rewrite Hf. }
  rewrite app_cons_snoc. destruct (decide (drop (length prefix) (i_key i) = [])) as [E|E].
  - apply IH; [apply dirs_of_skip; [|done]; unfold dir_of; by rewrite E|].
    rewrite filter_app, filter_cons_False, app_nil_r by (unfold is_file; naive_solver). done.
  - destruct (indexOf DELIMITER (drop (length prefix) (i_key i))) as [slash|] eqn:Es.
    + apply IH; [apply dirs_of_step; [unfold dir_of; by rewrite Es|done]|].
      rewrite filter_app, filter_cons_False, app_nil_r by (unfold is_file; naive_solver congruence). done.
    + apply IH; [apply dirs_of_skip; [unfold dir_of; by rewrite Es|done]|].
      rewrite filter_app, filter_cons_True by done. by rewrite Hf.
Qed.

Section directory_theorems.
Context {D : Type} `{DriverLaws D, !Reliable D}.

Lemma keysUnder_ok prefix (d : D) :
  ∃ items d', keysUnder prefix d = (Ok items, d') ∧ objects d' = objects d ∧ lists prefix (objects d) items.
Proof.
  destruct (list_ok prefix d) as (items & d1 & Hlist & Hd1 & Hitems). exists items, d1. split; [|done].
  unfold keysUnder. rewrite (op_bind_ok _ _ _ _ _ Hlist). case_decide; [done|]. rewrite filter_all; [done|].
  apply Forall_forall. by intros i (k & e & _ & Hp & ->)%Hitems.
Qed.

Lemma indexOf_absent c (l : text) : indexOf c l = None ↔ c ∉ l.
Proof.
  induction l as [|d l IH]; cbn; [split; [intros _; apply not_elem_of_nil|done]|].
  rewrite not_elem_of_cons. case_decide as E; [naive_solver|]. rewrite fmap_None, IH. naive_solver.
Qed.

Lemma dir_of_spec (prefix k dk : text) :
  dir_of prefix (prefix ++ k) = Some dk ↔
  ∃ seg rest, (DELIMITER ∉ seg) ∧ dk = prefix ++ seg ++ [DELIMITER] ∧ prefix ++ k = dk ++ rest.
Proof.
  unfold dir_of. rewrite drop_app_length. destruct (indexOf DELIMITER k) as [n|] eqn:E.
  - apply indexOf_spec in E as (x & y & -> & <- & Hx). rewrite take_app_length. split.
    + intros [= <-]. exists x, y. split; [done|]. split; [done|]. by rewrite <-!(assoc_L (++)).
    + intros (seg & rest & Hs & -> & E). f_equal. f_equal. rewrite <-!(assoc_L (++)) in E. apply app_inv_head in E.
      assert (x = seg) as ->; [|done]. revert seg Hs E. clear -Hx. induction x as [|a x IH]; intros [|b seg] Hs E; cbn in E.
      * done.
      * injection E as <- _. destruct Hs. by left.
      * injection E as -> _. destruct Hx. by left.
      * injection E as -> E. f_equal. apply IH; [intros ?; apply Hx; by right|intros ?; apply Hs; by right|done].
  - apply indexOf_absent in E. split; [done|]. intros (seg & rest & _ & -> & Ek). rewrite <-!(assoc_L (++)) in Ek.
    apply app_inv_head in Ek. subst k. destruct E. apply elem_of_app. right. by left.
Qed.

Lemma is_file_spec prefix name e :
  is_file prefix (item (prefix ++ name) e) ↔ name ≠ [] ∧ DELIMITER ∉ name.
Proof. unfold is_file. cbn [item i_key]. by rewrite drop_app_length, indexOf_absent. Qed.

Lemma dirs_of_values prefix l dirs i :
  dirs_of prefix l dirs → i ∈ dirs.*2 ↔ dir_entry prefix l i.
Proof.
  intros [Hwf Hd]. rewrite list_elem_of_fmap. split.
  - intros ([k x] & -> & Hin). pose proof (Hd k) as Hk. rewrite (jm_elem_get _ _ _ Hwf Hin) in Hk. by destruct Hk.
  - intros Hi. destruct Hi as (Hs & (j & Hj & Hjd & Hjt) & Hmax). pose proof (Hd (i_key i)) as Hk.
    destruct (jm_get (i_key i) dirs) as [x|] eqn:Ex; [|by destruct (Hk j Hj)].
    destruct Hk as (Hx & Hsx & (j' & Hj' & Hjd' & Hjt') & Hmax'). exists (i_key i, x). split; [|by apply jm_get_elem].
    rewrite Hx in Hjd', Hmax'. specialize (Hmax j' Hj' Hjd'). specialize (Hmax' j Hj Hjd).
    destruct i, x. cbn in *. f_equal; [done|lia|lia].
Qed.

(** The entries, in terms of the objects below the prefix. *)
Lemma file_entry_spec (prefix : text) (o : gmap text Entry) items i :
  lists prefix o items →
  (is_file prefix i ∧ i ∈ items) ↔
  ∃ name e, name ≠ [] ∧ (DELIMITER ∉ name) ∧ o !! (prefix ++ name) = Some e ∧ i = item (prefix ++ name) e.
Proof.
  intros [_ Hitems]. rewrite Hitems. split.
  - intros [Hf (k & e & He & (name & ->)%is_prefix_spec & ->)]. apply is_file_spec in Hf as [? ?]. by exists name, e.
  - intros (name & e & Hne & Hd & He & ->). split; [by apply is_file_spec|]. exists (prefix ++ name), e.
    split; [done|]. split; [apply is_prefix_app|done].
Qed.

Lemma dir_entry_spec (prefix : text) (o : gmap text Entry) items i :
  lists prefix o items →
  dir_entry prefix items i ↔
  ∃ seg, (DELIMITER ∉ seg) ∧ i_key i = prefix ++ seg ++ [DELIMITER] ∧ i_size i = 0 ∧
         (∃ rest e, o !! (i_key i ++ rest) = Some e ∧ updatedAt e.2 = i_updatedAt i) ∧
         ∀ rest e, o !! (i_key i ++ rest) = Some e → (updatedAt e.2 <= i_updatedAt i)%Z.
Proof.
  intros [_ Hitems].
  assert (∀ seg rest e, (DELIMITER ∉ seg) → i_key i = prefix ++ seg ++ [DELIMITER] → o !! (i_key i ++ rest) = Some e →
            item (i_key i ++ rest) e ∈ items ∧ dir_of prefix (i_key i ++ rest) = Some (i_key i)) as Hin.
  { intros seg rest e Hs Hk He. split.
    - apply Hitems. exists (i_key i ++ rest), e. split; [done|]. split; [|done]. rewrite Hk, <-(assoc_L (++)). apply is_prefix_app.
    - rewrite Hk, <-(assoc_L (++)). apply dir_of_spec. exists seg, rest. split; [done|]. split; [done|]. by rewrite (assoc_L (++)). }
  split.
  - intros (Hs & (j & Hj & Hjd & Hjt) & Hmax).
    apply Hitems in Hj as (k & e & He & (k' & ->)%is_prefix_spec & ->). cbn [item i_key i_updatedAt] in Hjd, Hjt.
    apply dir_of_spec in Hjd as (seg & rest & Hseg & Hk & Erest). exists seg. split; [done|]. split; [done|]. split; [done|].
    split; [exists rest, e; by rewrite <-Erest|]. intros r e' He'.
    destruct (Hin seg r e' Hseg Hk He') as [Hi Hd]. apply (Hmax _ Hi Hd).
  - intros (seg & Hseg & Hk & Hs & (rest & e & He & Ht) & Hmax). split; [done|]. split.
    + destruct (Hin seg rest e Hseg Hk He) as [Hi Hd]. by exists (item (i_key i ++ rest) e).
    + intros j Hj Hjd. apply Hitems in Hj as (k & e' & He' & (k' & ->)%is_prefix_spec & ->). cbn [item i_key i_updatedAt] in *.
      apply dir_of_spec in Hjd as (_ & rest' & _ & _ & Er). apply (Hmax rest'). by rewrite <-Er.
Qed.

Lemma entries_NoDup prefix l es :
  (∀ i, i ∈ l → is_prefix prefix (i_key i) = true) → NoDup (i_key <$> l) → entries_of prefix l es → NoDup (i_key <$> es).
Proof.
  intros Hp Hnd (dirs & Hdirs & ->). rewrite fmap_app. apply NoDup_app.
  assert (i_key <$> dirs.*2 = jm_keys dirs) as Hkeys.
  { unfold jm_keys. rewrite <-list_fmap_compose. apply list_fmap_ext. intros n [k x] Hx. cbn.
    destruct Hdirs as [Hwf Hd]. specialize (Hd k). apply list_elem_of_lookup_2, (jm_elem_get _ _ _ Hwf) in Hx.
    rewrite Hx in Hd. by destruct Hd. }
  split; [rewrite Hkeys; apply Hdirs|]. split; [|eapply sublist_NoDup; [exact Hnd|]; apply fmap_sublist, sublist_filter].
  intros k (i & -> & Hi)%list_elem_of_fmap (j & Ek & [Hj Hin]%list_elem_of_filter)%list_elem_of_fmap.
  apply (dirs_of_values prefix l) in Hi; [|done]. destruct Hi as (_ & (x & Hx & Hxd & _) & _).
  destruct (proj1 (is_prefix_spec _ _) (Hp x Hx)) as [kx Ex]. rewrite Ex in Hxd. apply dir_of_spec in Hxd as (seg & rest & _ & Hseg & _).
  destruct Hj as [_ Hj%indexOf_absent]. apply Hj. rewrite <-Ek, Hseg, drop_app_length. apply elem_of_app. right. by left.
Qed.

(** A directory lists its immediate children: an object directly below the prefix is an
    entry of its own, objects further below share one entry for their sub-directory, which bears the
    time of the latest; nothing is listed twice. *)
Theorem listDirectory_exact path (d : D) :
  ∃ entries d', listDirectory path d = (Ok entries, d') ∧ objects d' = objects d ∧ NoDup (i_key <$> entries) ∧
    ∀ i, i ∈ entries ↔
      (∃ name e, name ≠ [] ∧ (DELIMITER ∉ name) ∧ objects d !! (toPrefix path ++ name) = Some e ∧
                 i = item (toPrefix path ++ name) e) ∨
      (∃ seg, (DELIMITER ∉ seg) ∧ i_key i = toPrefix path ++ seg ++ [DELIMITER] ∧ i_size i = 0 ∧
              (∃ rest e, objects d !! (i_key i ++ rest) = Some e ∧ updatedAt e.2 = i_updatedAt i) ∧
              ∀ rest e, objects d !! (i_key i ++ rest) = Some e → (updatedAt e.2 <= i_updatedAt i)%Z).
Proof.
  destruct (keysUnder_ok (toPrefix path) d) as (items & d1 & Hrun & Hd1 & Hnd & Hitems).
  set (prefix := toPrefix path) in *.
  destruct (directory_loop_ok prefix items [] [] []) as (dirs & Hdirs & Hes); [|done|].
  { split; [constructor|]. intros k. cbn. by intros j ?%not_elem_of_nil. }
  exists (directory_loop prefix [] [] items), d1. split; [unfold listDirectory; by rewrite (op_bind_ok _ _ _ _ _ Hrun)|].
  split; [done|]. split.
  { apply (entries_NoDup prefix items); [|done|by exists dirs]. by intros i (k & e & _ & Hp & ->)%Hitems. }
  intros i. rewrite Hes, elem_of_app, (dirs_of_values prefix items), list_elem_of_filter by done. cbn [app].
  rewrite (file_entry_spec prefix (objects d)), (dir_entry_spec prefix (objects d)) by done. tauto.
Qed.

Lemma delete_items_ok items : ∀ d : D,
  ∃ d', for_each items (λ i, d_delete (i_key i)) d = (Ok tt, d') ∧
        ∀ k, objects d' !! k = if decide (k ∈ i_key <$> items) then None else objects d !! k.
Proof.
  induction items as [|i items IH]; intros d; [by exists d|].
  destruct (delete_ok (i_key i) d) as (d1 & Hdel & Hd1). destruct (IH d1) as (d2 & Hrun & Hd2).
  exists d2. split; [cbn [for_each]; by rewrite (op_bind_ok _ _ _ _ _ Hdel)|]. intros k. rewrite Hd2, Hd1, fmap_cons.
  destruct (decide (k ∈ i_key <$> items)) as [Hk|Hk]; [by rewrite decide_True by by right|].
  destruct (decide (k = i_key i)) as [->|Hne]; [rewrite decide_True by left; apply lookup_delete_eq|].
  rewrite decide_False by (rewrite elem_of_cons; tauto). by apply lookup_delete_ne.
Qed.

(** Removing a directory removes the objects below it and no other, and tells whether
    there were any. *)
Theorem removeDirectory_exact path (d : D) :
  ∃ removed d', removeDirectory path d = (Ok removed, d') ∧
    (removed = true ↔ ∃ k, is_prefix (toPrefix path) k = true ∧ is_Some (objects d !! k)) ∧
    ∀ k, objects d' !! k = if is_prefix (toPrefix path) k then None else objects d !! k.
Proof.
  destruct (keysUnder_ok (toPrefix path) d) as (items & d1 & Hrun & Hd1 & Hnd & Hitems).
  assert (∀ k, k ∈ i_key <$> items ↔ is_prefix (toPrefix path) k = true ∧ is_Some (objects d !! k)) as Hkeys.
  { intros k. rewrite list_elem_of_fmap. split.
    - intros (i & -> & (k' & e & He & Hp & ->)%Hitems). split; [done|by eexists].
    - intros [Hp [e He]]. exists (item k e). split; [done|]. apply Hitems. by exists k, e. }
  destruct (delete_items_ok items d1) as (d2 & Hdel & Hd2). rewrite Hd1 in Hd2.
  exists (match items with [] => false | _ => true end), (match items with [] => d1 | _ => d2 end).
  unfold removeDirectory. rewrite (op_bind_ok _ _ _ _ _ Hrun). split; [|split].
  - destruct items; [done|]. by rewrite (op_bind_ok _ _ _ _ _ Hdel).
  - destruct items as [|i items]; (split; [|]); try done.
    + intros (k & Hk). apply Hkeys in Hk. by apply not_elem_of_nil in Hk.
    + intros _. exists (i_key i). apply Hkeys. by left.
  - intros k. transitivity (if decide (k ∈ i_key <$> items) then None else objects d !! k).
    + destruct items; [by rewrite Hd1|apply Hd2].
    + case_decide as Hk; rewrite Hkeys in Hk; destruct (is_prefix (toPrefix path) k); try done; [by destruct Hk|].
      destruct (objects d !! k) as [e|] eqn:E; [|done]. destruct Hk. split; [done|by eexists].
Qed.
End directory_theorems.
