(* ===== verification/StorageValidation.v ===== *)
(** * What a write has to pass: access control and validation

    Models src/packages/storage/src/access.ts and validation.ts.  The decisions of the
    application (the auth bridge, a custom validator) are arguments; each returns or throws.
    A pattern for file names is its test and its source text.  Types and extensions are
    ASCII, for which [lower] is [toLowerCase]. *)

From Stdlib Require Import Ascii String.
From S2P Require Import Prelude JsText ConfigValue StorageDriver.

Open Scope nat_scope.
#[local] Open Scope list_scope.

(** ** Access control *)

Record AccessContext : Type := {
  c_key : list ascii;
  operation : AccessOperation;
  c_accessLevel : option AccessLevel;
  c_owner : option (list ascii);
  c_tenant : option (list ascii)
}.
(** [can]; the answer [false] denies, any other permits. *)
Abbreviation AuthLike := (AccessContext → result StorageError bool) (only parsing).

Definition denial (context : AccessContext) : StorageError :=
  AuthorizationError (c_key context) (operation context) (c_accessLevel context).

Definition authorize (auth : option AuthLike) (context : AccessContext) : result StorageError unit :=
  match auth with
  | None => Ok tt
  | Some can =>
      decision ← can context;
      if decide (c_accessLevel context = Some Public ∧ operation context = Read) then
        if negb decision then Throw (denial context) else Ok tt
      else if negb decision then Throw (denial context) else Ok tt
  end.

Lemma authorize_permits auth context :
  authorize auth context = Ok tt ↔
  match auth with None => True | Some can => can context = Ok true end.
Proof.
  destruct auth as [can|]; [|done]. cbn. destruct (can context) as [[]|e]; cbn; [..|done]; by case_decide.
Qed.

(** ** Validation *)

Record ValidationInput : Type := {
  v_key : list ascii;
  v_inputSize : nat;
  v_contentType : option (list ascii);
  v_inputChecksum : option (list ascii);
  v_metadata : option WriteMetadata
}.
Record ValidationResult : Type := { ok : bool; error : option (list ascii) }.

Record ValidationConfig : Type := {
  allowedMimeTypes : option (list (list ascii));
  allowedExtensions : option (list (list ascii));
  maximumSize : option Z;
  filenamePattern : option ((list ascii → bool) * list ascii);
  requireChecksum : bool;
  customValidator : option (ValidationInput → result StorageError ValidationResult)
}.

Definition accepted : ValidationResult := {| ok := true; error := None |}.
Definition reject (message : text) : ValidationResult := {| ok := false; error := Some message |}.

Definition lastIndexOf (c : ascii) (l : text) : option nat :=
  (λ i, length l - 1 - i) <$> indexOf c (reverse l).

Definition mimeMatches (entry contentType : text) : bool :=
  let normalizedEntry := lower <$> trim entry in
  let normalizedType := lower <$> trim contentType in
  if decide (normalizedEntry = normalizedType) then true
  else if is_prefix (reverse (lit "/*")) (reverse normalizedEntry) then
    is_prefix (take (length normalizedEntry - 1) normalizedEntry) normalizedType
  else false.

Definition extractFilename (key : text) : text :=
  match lastIndexOf "/"%char key with None => key | Some i => drop (S i) key end.
Definition extractExtension (key : text) : option text :=
  let filename := extractFilename key in
  match lastIndexOf "."%char filename with
  | None => None
  | Some dotIndex =>
      if (dotIndex <=? 0) || (dotIndex =? length filename - 1) then None else Some (drop (S dotIndex) filename)
  end.
Fixpoint strip_dots (l : text) : text :=
  match l with c :: l' => if decide (c = "."%char) then strip_dots l' else l | [] => [] end.
Definition normalizeExtension (extension : text) : text := lower <$> strip_dots extension.

Definition validateMimeType (input : ValidationInput) (config : ValidationConfig) : ValidationResult :=
  match allowedMimeTypes config with
  | None => accepted
  | Some allowed =>
      if match v_contentType input with Some t => existsb (λ entry, mimeMatches entry t) allowed | None => false end
      then accepted
      else reject (lit "content type " ++ quoted_text (default (lit "(none)") (v_contentType input)) ++
                   lit " is not permitted; allowed MIME types: " ++ join_text (lit ", ") allowed)
  end.

Definition validateExtension (input : ValidationInput) (config : ValidationConfig) : ValidationResult :=
  match allowedExtensions config with
  | None => accepted
  | Some allowed =>
      match extractExtension (v_key input) with
      | None => reject (lit "object key " ++ quoted_text (v_key input) ++
                        lit " has no file extension; allowed extensions: " ++ join_text (lit ", ") allowed)
      | Some extension =>
          let normalized := normalizeExtension extension in
          if existsb (λ entry, bool_decide (normalizeExtension entry = normalized)) allowed then accepted
          else reject (lit "file extension " ++ quoted_text ("."%char :: normalized) ++
                       lit " is not permitted; allowed extensions: " ++ join_text (lit ", ") allowed)
      end
  end.

(** [`${n}`] of an integer *)
Definition show_integer (n : Z) : text := if (n <? 0)%Z then "-"%char :: show (- n) else show n.

Definition validateSize (input : ValidationInput) (config : ValidationConfig) : ValidationResult :=
  match maximumSize config with
  | None => accepted
  | Some maxSize =>
      if (maxSize <? Z.of_nat (v_inputSize input))%Z then
        reject (lit "size " ++ show (Z.of_nat (v_inputSize input)) ++ lit " bytes exceeds the maximum of " ++
                show_integer maxSize ++ lit " bytes")
      else accepted
  end.

Definition validateFilename (input : ValidationInput) (config : ValidationConfig) : ValidationResult :=
  match filenamePattern config with
  | None => accepted
  | Some (test, source) =>
      let filename := extractFilename (v_key input) in
      if test filename then accepted
      else reject (lit "filename " ++ quoted_text filename ++ lit " does not match the required pattern " ++ source)
  end.

Definition validateChecksum (input : ValidationInput) (config : ValidationConfig) : ValidationResult :=
  if negb (requireChecksum config) then accepted
  else match v_inputChecksum input with
       | Some (_ :: _) => accepted
       | _ => reject (lit "a checksum is required for this upload but none was provided")
       end.

Definition validateCustom (input : ValidationInput) (config : ValidationConfig) : result StorageError ValidationResult :=
  match customValidator config with
  | None => Ok accepted
  | Some custom => custom input
  end.

Abbreviation Validator := (ValidationInput → ValidationConfig → result StorageError ValidationResult) (only parsing).
Definition BUILT_IN_VALIDATORS : list Validator :=
  [(λ i c, Ok (validateMimeType i c)); (λ i c, Ok (validateExtension i c)); (λ i c, Ok (validateSize i c));
   (λ i c, Ok (validateFilename i c)); (λ i c, Ok (validateChecksum i c)); validateCustom].

Fixpoint validate (validators : list Validator) (config : ValidationConfig) (input : ValidationInput) :
    result StorageError ValidationResult :=
  match validators with
  | [] => Ok accepted
  | validator :: validators =>
      r ← validator input config;
      if ok r then validate validators config input else Ok r
  end.

Example wildcard : mimeMatches (lit "image/*") (lit " Image/PNG ") = true.
Proof. vm_compute. reflexivity. Qed.
Example extension_of_last_dot :
  extractExtension (lit "a.b/c.tar.gz") = Some (lit "gz") ∧ extractExtension (lit "a.b/.env") = None ∧
  extractExtension (lit "a/c.") = None.
Proof. vm_compute. done. Qed.

(** ** What is accepted *)

Lemma lastIndexOf_app c (x y : text) : c ∉ y → lastIndexOf c (x ++ c :: y) = Some (length x).
Proof.
  intros Hy. unfold lastIndexOf. rewrite reverse_app, reverse_cons.
  assert (indexOf c ((reverse y ++ [c]) ++ reverse x) = Some (length y)) as ->.
  { apply indexOf_spec. exists (reverse y), (reverse x). rewrite <-(assoc_L (++)). split; [done|].
    rewrite length_reverse. split; [done|]. by rewrite elem_of_reverse. }
  cbn. f_equal. rewrite length_app. cbn. lia.
Qed.
Lemma lastIndexOf_absent c (l : text) : c ∉ l → lastIndexOf c l = None.
Proof.
  intros Hl. unfold lastIndexOf. destruct (indexOf c (reverse l)) as [i|] eqn:E; [|done].
  apply indexOf_spec in E as (x & y & E & _ & _). destruct Hl. rewrite <-elem_of_reverse, E. apply elem_of_app. right. by left.
Qed.

Lemma drop_after (x : text) c y : drop (S (length x)) (x ++ c :: y) = y.
Proof. induction x as [|a x IH]; [done|]. exact IH. Qed.

(** The extension is what follows the last dot of the last segment. *)
Lemma extractExtension_spec dirs base ext :
  "/"%char ∉ base → "/"%char ∉ ext → "."%char ∉ ext → base ≠ [] → ext ≠ [] →
  extractExtension (dirs ++ "/"%char :: base ++ "."%char :: ext) = Some ext.
Proof.
  intros Hb He Hd Hbase Hext. unfold extractExtension, extractFilename.
  rewrite lastIndexOf_app by (rewrite elem_of_app, elem_of_cons; intros [?|[[=]|?]]; done).
  rewrite drop_after, lastIndexOf_app, drop_after by done.
  destruct (Nat.leb_spec (length base) 0) as [Hl|_]; [by destruct base; cbn in Hl; [|lia]|].
  rewrite length_app. cbn [length orb]. destruct (Nat.eqb_spec (length base) (length base + S (length ext) - 1)) as [Hl|_]; [|done].
  destruct ext; cbn in Hl; [done|lia].
Qed.

(** The conditions one by one. *)
Definition conforms (config : ValidationConfig) (input : ValidationInput) : Prop :=
  (∀ allowed, allowedMimeTypes config = Some allowed →
     ∃ t entry, v_contentType input = Some t ∧ entry ∈ allowed ∧ mimeMatches entry t = true) ∧
  (∀ allowed, allowedExtensions config = Some allowed →
     ∃ ext entry, extractExtension (v_key input) = Some ext ∧ entry ∈ allowed ∧
                  normalizeExtension entry = normalizeExtension ext) ∧
  (∀ m, maximumSize config = Some m → (Z.of_nat (v_inputSize input) <= m)%Z) ∧
  (∀ test source, filenamePattern config = Some (test, source) → test (extractFilename (v_key input)) = true) ∧
  (requireChecksum config = true → ∃ c, v_inputChecksum input = Some c ∧ c ≠ []).

Lemma existsb_elem {A} (f : A → bool) l : existsb f l = true ↔ ∃ x, x ∈ l ∧ f x = true.
Proof. rewrite existsb_exists. by setoid_rewrite list_elem_of_In. Qed.

(** Steps of the pipeline. *)
Lemma validate_step v vs config input r :
  v input config = Ok r → validate (v :: vs) config input = if ok r then validate vs config input else Ok r.
Proof. intros E. cbn. by rewrite E. Qed.

Lemma mime_accepts config input :
  ok (validateMimeType input config) = true ↔
  ∀ allowed, allowedMimeTypes config = Some allowed →
    ∃ t entry, v_contentType input = Some t ∧ entry ∈ allowed ∧ mimeMatches entry t = true.
Proof.
  unfold validateMimeType. destruct (allowedMimeTypes config) as [allowed|]; [|done]. case_match eqn:E; cbn.
  - split; [|done]. intros _ ? [= <-]. destruct (v_contentType input) as [t|]; [|done].
    apply existsb_elem in E as (entry & ? & ?). by exists t, entry.
  - split; [done|]. intros H. destruct (H allowed eq_refl) as (t & entry & Ht & Hin & Hm). rewrite Ht in E.
    by rewrite (proj2 (existsb_elem _ _)) in E by by exists entry.
Qed.

Lemma extension_accepts config input :
  ok (validateExtension input config) = true ↔
  ∀ allowed, allowedExtensions config = Some allowed →
    ∃ ext entry, extractExtension (v_key input) = Some ext ∧ entry ∈ allowed ∧ normalizeExtension entry = normalizeExtension ext.
Proof.
  unfold validateExtension. destruct (allowedExtensions config) as [allowed|]; [|done].
  destruct (extractExtension (v_key input)) as [ext|]; [|split; [done|]; intros H; by destruct (H allowed eq_refl) as (? & ? & ? & _)].
  case_match eqn:E; cbn.
  - split; [|done]. intros _ ? [= <-]. apply existsb_elem in E as (entry & ? & ?%bool_decide_eq_true). by exists ext, entry.
  - split; [done|]. intros H. destruct (H allowed eq_refl) as (t & entry & [= <-] & Hin & Hm).
    rewrite (proj2 (existsb_elem _ _)) in E; [done|]. exists entry. split; [done|]. by apply bool_decide_eq_true.
Qed.

Lemma size_accepts config input :
  ok (validateSize input config) = true ↔ ∀ m, maximumSize config = Some m → (Z.of_nat (v_inputSize input) <= m)%Z.
Proof.
  unfold validateSize. destruct (maximumSize config) as [m|]; [|done]. case_match eqn:E; cbn; reflect_bools.
  - split; [done|]. intros H. specialize (H m eq_refl). lia.
  - split; [|done]. intros _ ? [= <-]. lia.
Qed.

Lemma filename_accepts config input :
  ok (validateFilename input config) = true ↔
  ∀ test source, filenamePattern config = Some (test, source) → test (extractFilename (v_key input)) = true.
Proof.
  unfold validateFilename. destruct (filenamePattern config) as [[test source]|]; [|done]. case_match eqn:E; cbn.
  - split; [|done]. by intros _ ? ? [= <- <-].
  - split; [done|]. intros H. by rewrite (H test source eq_refl) in E.
Qed.

Lemma checksum_accepts config input :
  ok (validateChecksum input config) = true ↔ (requireChecksum config = true → ∃ c, v_inputChecksum input = Some c ∧ c ≠ []).
Proof.
  unfold validateChecksum. destruct (requireChecksum config); [|done]. cbn.
  destruct (v_inputChecksum input) as [[|x c]|]; cbn; naive_solver.
Qed.

(** An upload is accepted when it meets every condition of the configuration and the custom
    validator agrees; the custom validator is asked last, and only then. *)
Theorem validate_exact config input :
  (∃ r, validate BUILT_IN_VALIDATORS config input = Ok r ∧ ok r = true) ↔
  conforms config input ∧ ∃ r, validateCustom input config = Ok r ∧ ok r = true.
Proof.
  unfold conforms. rewrite <-mime_accepts, <-extension_accepts, <-size_accepts, <-filename_accepts, <-checksum_accepts.
  unfold BUILT_IN_VALIDATORS. do 5 (rewrite (validate_step _ _ _ _ _ eq_refl); match goal with
    |- context [if ok ?v then _ else _] => destruct (ok v) eqn:?; [|split; [intros (r & [= <-] & ?); congruence|by intros [(? & ? & ? & ? & ?) _]; congruence]] end).
  cbn. destruct (validateCustom input config) as [r|e]; cbn.
  - destruct (ok r) eqn:Er; split.
    + intros _. split; [done|]. by exists r.
    + intros _. by exists accepted.
    + intros (r' & [= <-] & ?). congruence.
    + intros (_ & r' & [= <-] & ?). congruence.
  - split; [by intros (r & ? & _)|by intros (_ & r & ? & _)].
Qed.
