(* ===== verification/StorageFacade.v ===== *)
(** * The storage facade

    Models src/packages/storage/src/facade.ts with the events it publishes through
    integrations/events.ts and integrations/realtime.ts: object operations, streams,
    multipart and resumable uploads, versions, lifecycle and statistics over any driver.

    A method is a computation (Act.v) that logs what it publishes; bridges never throw into
    it.  Between the awaits of a method other calls may run; the methods are modelled as
    running alone.  Latencies, metrics, the image processor and the queue bridge are left out.
    A text payload is given as its bytes. *)

From Stdlib Require Import Ascii String.
From S2P Require Import Prelude JsText JsMap ConfigValue Act StorageDriver.
From S2P Require Import StorageMultipart StorageResumable StorageVersions StorageLifecycle StorageBrowse StorageValidation.

Open Scope nat_scope.
#[local] Open Scope list_scope.

(** ** State and configuration *)

Record StorageStats : Type := {
  uploads : nat;
  downloads : nat;
  bytesUploaded : nat;
  bytesDownloaded : nat;
  activeUploads : nat;
  failedUploads : nat;
  storageUsage : nat;
  multipartUploads : nat;
  resumableSessions : nat
}.
Definition no_stats : StorageStats :=
  {| uploads := 0; downloads := 0; bytesUploaded := 0; bytesDownloaded := 0; activeUploads := 0;
     failedUploads := 0; storageUsage := 0; multipartUploads := 0; resumableSessions := 0 |}.

Record StorageConfig : Type := {
  validation : option ValidationConfig;
  versioning : bool;
  auth : option (AccessContext → result StorageError bool);
  events : bool;
  realtime : bool
}.

Inductive StorageEvent : Type :=
| StorageUploaded (m : StorageObjectMetadata)
| StorageUpdated (m : StorageObjectMetadata)
| StorageDeleted (key : list ascii) (action : option LifecycleAction)
| StorageMoved (key : list ascii) (m : option StorageObjectMetadata) (action : option LifecycleAction)
| StorageRestored (m : StorageObjectMetadata)
| StorageExpired (key : list ascii) (action : option LifecycleAction)
| UploadStarted (key : list ascii)
| UploadCompleted (key : list ascii)
| UploadFailed (key : list ascii) (error : StorageError).

(** [events.lifecycle(outcome)]: archiving is published as moving. *)
Definition lifecycle_event (o : LifecycleOutcome) : StorageEvent :=
  match o_action o with
  | Deleted => StorageDeleted (o_key o) (Some Deleted)
  | Expired => StorageExpired (o_key o) (Some Expired)
  | Moved => StorageMoved (o_key o) None (Some Moved)
  | Archived => StorageMoved (o_key o) None (Some Archived)
  end.

Record Facade (D : Type) : Type := {
  stats : StorageStats;
  multipart : list (list ascii * MultipartSession);
  resumable : ResumableState;
  driver : D
}.
Arguments stats {D}. Arguments multipart {D}. Arguments resumable {D}. Arguments driver {D}.
Definition new_Facade {D} (d : D) : Facade D :=
  {| stats := no_stats; multipart := []; resumable := {| heap := ∅; open_ids := [] |}; driver := d |}.

Definition with_stats {D} (f : StorageStats → StorageStats) (s : Facade D) : Facade D :=
  {| stats := f (stats s); multipart := multipart s; resumable := resumable s; driver := driver s |}.

(** Counters. *)
Definition counted_upload (b : nat) (s : StorageStats) : StorageStats :=
  {| uploads := S (uploads s); downloads := downloads s; bytesUploaded := bytesUploaded s + b;
     bytesDownloaded := bytesDownloaded s; activeUploads := activeUploads s; failedUploads := failedUploads s;
     storageUsage := storageUsage s + b; multipartUploads := multipartUploads s; resumableSessions := resumableSessions s |}.
Definition counted_download (b : nat) (s : StorageStats) : StorageStats :=
  {| uploads := uploads s; downloads := S (downloads s); bytesUploaded := bytesUploaded s;
     bytesDownloaded := bytesDownloaded s + b; activeUploads := activeUploads s; failedUploads := failedUploads s;
     storageUsage := storageUsage s; multipartUploads := multipartUploads s; resumableSessions := resumableSessions s |}.
Definition counted_failure (s : StorageStats) : StorageStats :=
  {| uploads := uploads s; downloads := downloads s; bytesUploaded := bytesUploaded s;
     bytesDownloaded := bytesDownloaded s; activeUploads := activeUploads s; failedUploads := S (failedUploads s);
     storageUsage := storageUsage s; multipartUploads := multipartUploads s; resumableSessions := resumableSessions s |}.
Definition counted_active (f : nat → nat) (s : StorageStats) : StorageStats :=
  {| uploads := uploads s; downloads := downloads s; bytesUploaded := bytesUploaded s;
     bytesDownloaded := bytesDownloaded s; activeUploads := f (activeUploads s); failedUploads := failedUploads s;
     storageUsage := storageUsage s; multipartUploads := multipartUploads s; resumableSessions := resumableSessions s |}.
Definition counted_multipart (s : StorageStats) : StorageStats :=
  {| uploads := uploads s; downloads := downloads s; bytesUploaded := bytesUploaded s;
     bytesDownloaded := bytesDownloaded s; activeUploads := activeUploads s; failedUploads := failedUploads s;
     storageUsage := storageUsage s; multipartUploads := S (multipartUploads s); resumableSessions := resumableSessions s |}.
Definition counted_resumable (s : StorageStats) : StorageStats :=
  {| uploads := uploads s; downloads := downloads s; bytesUploaded := bytesUploaded s;
     bytesDownloaded := bytesDownloaded s; activeUploads := activeUploads s; failedUploads := failedUploads s;
     storageUsage := storageUsage s; multipartUploads := multipartUploads s; resumableSessions := S (resumableSessions s) |}.

Section facade.
Context {D : Type} `{StorageDriver D, Sha256}.
Context (config : StorageConfig).
#[local] Abbreviation Method := (act (Facade D) StorageEvent StorageError).

(** Calls of the driver and of the managers. *)
Definition on_drv {A} (op : Op D A) : Method A := λ s,
  let r := op (driver s) in
  Outcome [] {| stats := stats s; multipart := multipart s; resumable := resumable s; driver := r.2 |} r.1.
Definition on_multipart {A} (op : Op (list (list ascii * MultipartSession) * D) A) : Method A := λ s,
  let r := op (multipart s, driver s) in
  Outcome [] {| stats := stats s; multipart := r.2.1; resumable := resumable s; driver := r.2.2 |} r.1.
Definition on_resumable {A} (op : Op (ResumableState * D) A) : Method A := λ s,
  let r := op (resumable s, driver s) in
  Outcome [] {| stats := stats s; multipart := multipart s; resumable := r.2.1; driver := r.2.2 |} r.1.

(** [try { m } catch (error) { h; throw error }] and [try { m } finally { f }], for handlers
    that do not throw. *)
Definition catching {A} (m : Method A) (h : StorageError → Method unit) : Method A := λ s,
  match returned (m s) with
  | Ok _ => m s
  | Throw e => let o := h e (after (m s)) in Outcome (log (m s) ++ log o) (after o) (Throw e)
  end.
Definition finally {A} (m : Method A) (f : Method unit) : Method A := λ s,
  let o := f (after (m s)) in Outcome (log (m s) ++ log o) (after o) (returned (m s)).

Definition count (f : StorageStats → StorageStats) : Method unit := modify (with_stats f).
Definition recordUpload (b : nat) : Method unit := count (counted_upload b).
Definition recordDownload (b : nat) : Method unit := count (counted_download b).
Definition recordUploadFailure : Method unit := count counted_failure.
Definition recordActiveStart : Method unit := count (counted_active S).
Definition recordActiveEnd : Method unit := count (counted_active pred).

Definition publish (e : StorageEvent) : Method unit := when (events config) (emit e).
Definition broadcast (e : StorageEvent) : Method unit := when (realtime config) (emit e).

Definition authorizeAccess (key : text) (op : AccessOperation) (level : option AccessLevel) (owner tenant : option text) :
    Method unit :=
  lift (authorize (auth config)
    {| c_key := key; operation := op; c_accessLevel := level; c_owner := owner; c_tenant := tenant |}).
Definition enforced : bool := match auth config with Some _ => true | None => false end.

Definition runValidation (input : ValidationInput) : Method unit :=
  match validation config with
  | None => mret tt
  | Some vc =>
      r ← lift (validate BUILT_IN_VALIDATORS vc input);
      if ok r then mret tt
      else Act.throw (ValidationError (default (lit "upload rejected by validation") (error r)) (v_key input))
  end.
Definition input_of (key : text) (b : bytes) (options : option WriteMetadata) : ValidationInput :=
  {| v_key := key; v_inputSize := length b; v_contentType := options ≫= w_contentType;
     v_inputChecksum := Some (sha256Hex b); v_metadata := options |}.

Definition authorize_write (key : text) (options : option WriteMetadata) : Method unit :=
  authorizeAccess key Write (Some (default DEFAULT_ACCESS_LEVEL (options ≫= w_accessLevel)))
    (options ≫= w_owner) (options ≫= w_tenant).
(** The lookup that precedes a guarded read or delete. *)
Definition authorize_object (key : text) (op : AccessOperation) : Method unit :=
  if enforced then
    metadata ← on_drv (d_stat key);
    match metadata with
    | Some m => authorizeAccess key op (accessLevel m) (owner m) (tenant m)
    | None => mret tt
    end
  else mret tt.

(** *** Object operations *)

(** [uuid] is the id of the version, if one is made. *)
Definition put (key : text) (b : bytes) (options : option WriteMetadata) (uuid : text) : Method StorageObjectMetadata :=
  catching
    (authorize_write key options ;;
     runValidation (input_of key b options) ;;
     (if versioning config then _ ← on_drv (snapshot key uuid); mret tt else mret tt) ;;
     existedBefore ← (if events config then on_drv (d_exists key) else mret false);
     m ← on_drv (d_put key b (default no_metadata options));
     let metadata := normalizeMetadata m in
     publish (if existedBefore : bool then StorageUpdated metadata else StorageUploaded metadata) ;;
     recordUpload (length b) ;;
     mret metadata)
    (λ _, recordUploadFailure).

Definition get (key : text) : Method (option (text * StorageObjectMetadata)) :=
  authorize_object key Read ;;
  result ← on_drv (d_get key);
  match result with
  | Some (b, m) => recordDownload (length b) ;; mret (Some (b, normalizeMetadata m))
  | None => mret None
  end.

Definition exists_ (key : text) : Method bool := on_drv (d_exists key).

Definition delete_ (key : text) : Method unit :=
  authorize_object key Delete ;;
  on_drv (d_delete key) ;;
  publish (StorageDeleted key None).

Definition copy (source destination : text) : Method (option StorageObjectMetadata) :=
  result ← on_drv (d_get source);
  match result with
  | None => mret None
  | Some (b, m) =>
      m ← on_drv (d_put destination b (toWriteMetadata m));
      mret (Some (normalizeMetadata m))
  end.

Definition move (source destination : text) : Method (option StorageObjectMetadata) :=
  result ← on_drv (d_get source);
  match result with
  | None => mret None
  | Some (b, m) =>
      m ← on_drv (d_put destination b (toWriteMetadata m));
      let metadata := normalizeMetadata m in
      on_drv (d_delete source) ;;
      publish (StorageMoved (m_key metadata) (Some metadata) None) ;;
      mret (Some metadata)
  end.
Definition rename (key newKey : text) : Method (option StorageObjectMetadata) := move key newKey.

Definition list_ (prefix : text) (options : ListOptions) : Method (list StorageListItem) := on_drv (d_list prefix options).
Definition stat (key : text) : Method (option StorageObjectMetadata) :=
  metadata ← on_drv (d_stat key); mret (normalizeMetadata <$> metadata).

(** *** Streams *)

Definition putStream (key : text) (stream : NodeReadable D) (options : option WriteMetadata) : Method StorageObjectMetadata :=
  catching (authorize_write key options) (λ _, recordUploadFailure) ;;
  recordActiveStart ;;
  finally
    (catching
      (broadcast (UploadStarted key) ;;
       m ← match validation config with
           | None => on_drv (d_putStream key stream (default no_metadata options))
           | Some _ =>
               b ← on_drv (drain stream);
               runValidation (input_of key b options) ;;
               on_drv (d_put key b (default no_metadata options))
           end;
       let metadata := normalizeMetadata m in
       broadcast (UploadCompleted key) ;;
       recordUpload (m_size metadata) ;;
       mret metadata)
      (λ e, broadcast (UploadFailed key e) ;; recordUploadFailure))
    recordActiveEnd.

Definition getStream (key : text) : Method (NodeReadable D) :=
  authorize_object key Read ;; on_drv (d_getStream key).

(** *** Uploads in parts *)

Definition createMultipartUpload (key : text) (options : option WriteMetadata) (uuid : text) : Method text :=
  count counted_multipart ;; on_multipart (create key (default no_metadata options) uuid).
Definition uploadPart_ (uploadId : text) (n : Z) (b : bytes) : Method StoredPart := on_multipart (uploadPart uploadId n b).
Definition completeMultipartUpload (uploadId : text) (parts : list StoredPart) : Method StorageObjectMetadata :=
  on_multipart (complete uploadId parts).
Definition abortMultipartUpload (uploadId : text) : Method unit := on_multipart (abort uploadId).

Definition startUpload (key : text) (options : option WriteMetadata) (uuid : text) : Method text :=
  count counted_resumable ;; on_resumable (start key (default no_metadata options) uuid).
Definition resumeUpload (sessionId : text) (stream : NodeReadable D) : Method StorageObjectMetadata :=
  recordActiveStart ;;
  broadcast (UploadStarted sessionId) ;;
  finally
    (catching
      (m ← on_resumable (resume sessionId stream);
       broadcast (UploadCompleted (m_key m)) ;;
       recordUpload (m_size m) ;;
       mret m)
      (λ e, broadcast (UploadFailed sessionId e) ;; recordUploadFailure))
    recordActiveEnd.
Definition cancelUpload (sessionId : text) : Method unit := on_resumable (cancel sessionId).

(** *** Versions, lifecycle, directories, search *)

Definition listVersions_ (key : text) : Method (list VersionInfo) := on_drv (listVersions key).
Definition restoreVersion_ (key versionId : text) : Method StorageObjectMetadata :=
  m ← on_drv (restoreVersion key versionId); publish (StorageRestored m) ;; mret m.
Definition deleteVersion_ (key versionId : text) : Method unit := on_drv (deleteVersion key versionId).
Definition applyLifecycle (rule : LifecycleRule) (now : Z) : Method (list LifecycleOutcome) :=
  outcomes ← on_drv (apply_rule rule now);
  each (λ o, publish (lifecycle_event o)) outcomes ;;
  mret outcomes.
Definition search (f : SearchFilters) : Method (list StorageListItem) := on_drv (searchObjects f).
End facade.

(** ** Running methods *)

Definition set_driver {D} (d : D) (s : Facade D) : Facade D :=
  {| stats := stats s; multipart := multipart s; resumable := resumable s; driver := d |}.

Section running.
Context {D : Type}.
Implicit Types (s : Facade D).
#[local] Abbreviation Method := (act (Facade D) StorageEvent StorageError).

Lemma on_drv_run {A} (op : Op D A) s r d : op (driver s) = (r, d) → on_drv op s = Outcome [] (set_driver d s) r.
Proof. intros E. unfold on_drv. by rewrite E. Qed.
Lemma on_drv_ok {A B} (op : Op D A) (f : A → Method B) s a d :
  op (driver s) = (Ok a, d) → (on_drv op ≫= f) s = f a (set_driver d s).
Proof. intros E. apply bind_silent. by apply on_drv_run. Qed.
Lemma when_emit_ok {B} (b : bool) e (f : unit → Method B) s :
  (when b (emit e) ≫= f) s =
  Outcome ((if b then [e] else []) ++ log (f tt s)) (after (f tt s)) (returned (f tt s)).
Proof. destruct b; [apply bind_emit|]. unfold when. rewrite (bind_silent (mret tt) _ s s tt) by done. by destruct (f tt s). Qed.
Lemma count_ok {B} g (f : unit → Method B) s : (count g ≫= f) s = f tt (with_stats g s).
Proof. apply bind_modify. Qed.
Lemma skip_ok {A B} (a : A) (f : A → Method B) s : ((mret a : Method A) ≫= f) s = f a s.
Proof. by apply bind_silent. Qed.
Lemma catching_ok {A} (m : Method A) h s l s' a : m s = Outcome l s' (Ok a) → catching m h s = Outcome l s' (Ok a).
Proof. intros E. unfold catching. by rewrite E. Qed.
Lemma catching_throw {A} (m : Method A) h s l s' e :
  m s = Outcome l s' (Throw e) → catching m h s = Outcome (l ++ log (h e s')) (after (h e s')) (Throw e).
Proof. intros E. unfold catching. by rewrite E. Qed.
End running.

(** ** The facade as a map

    Without guards and versions the facade over any reliable driver is a map from keys to
    bytes and attributes. *)

Section refinement.
Context {D : Type} `{DriverLaws D, !Reliable D}.
Context (config : StorageConfig).

Abbreviation Object := (list ascii * Attributes)%type (only parsing).
Definition model (d : D) : gmap text Object := (λ e : Entry, (e.1, attributes e.2)) <$> objects d.

Inductive command : Type :=
| Put (key b : list ascii) (options : option WriteMetadata) (uuid : list ascii)
| PutStream (key : list ascii) (chunks : list (list ascii)) (options : option WriteMetadata)
| Get (key : list ascii)
| Exists (key : list ascii)
| Remove (key : list ascii)
| Copy (source destination : list ascii)
| Move (source destination : list ascii)
| Rename (key newKey : list ascii)
| Stat (key : list ascii).

(** What the caller learns, timestamps apart. *)
Inductive answer : Type :=
| Stored (a : Attributes)
| Found (o : option (list ascii * Attributes))
| Flag (b : bool)
| Done
| Relocated (a : option Attributes)
| Described (a : option (nat * Attributes)).

Definition run (c : command) : act (Facade D) StorageEvent StorageError answer :=
  match c with
  | Put k b w uuid => m ← put config k b w uuid; mret (Stored (attributes m))
  | PutStream k chunks w => m ← putStream config k (ready chunks) w; mret (Stored (attributes m))
  | Get k => r ← get config k; mret (Found ((λ e : Entry, (e.1, attributes e.2)) <$> r))
  | Exists k => b ← exists_ k; mret (Flag b)
  | Remove k => delete_ config k ;; mret Done
  | Copy a b => r ← copy a b; mret (Relocated (attributes <$> r))
  | Move a b => r ← move config a b; mret (Relocated (attributes <$> r))
  | Rename a b => r ← rename config a b; mret (Relocated (attributes <$> r))
  | Stat k => r ← stat k; mret (Described ((λ m, (m_size m, attributes m)) <$> r))
  end.
Fixpoint run_all (cs : list command) : act (Facade D) StorageEvent StorageError (list answer) :=
  match cs with [] => mret [] | c :: cs => a ← run c; rest ← run_all cs; mret (a :: rest) end.

(** The specification. *)
Definition spec (c : command) (o : gmap text Object) : answer * gmap text Object :=
  match c with
  | Put k b w _ => (Stored (attributes_of (default no_metadata w)), <[k := (b, attributes_of (default no_metadata w))]> o)
  | PutStream k chunks w =>
      (Stored (attributes_of (default no_metadata w)), <[k := (concat chunks, attributes_of (default no_metadata w))]> o)
  | Get k => (Found (o !! k), o)
  | Exists k => (Flag (bool_decide (is_Some (o !! k))), o)
  | Remove k => (Done, base.delete k o)
  | Copy a b => (Relocated (snd <$> o !! a), match o !! a with Some x => <[b := x]> o | None => o end)
  | Move a b | Rename a b =>
      (Relocated (snd <$> o !! a), match o !! a with Some x => base.delete a (<[b := x]> o) | None => o end)
  | Stat k => (Described ((λ x : Object, (length x.1, x.2)) <$> o !! k), o)
  end.
Fixpoint spec_all (cs : list command) (o : gmap text Object) : list answer * gmap text Object :=
  match cs with
  | [] => ([], o)
  | c :: cs => let r := spec c o in let rs := spec_all cs r.2 in (r.1 :: rs.1, rs.2)
  end.

(** The sizes the driver reports are those of the bytes. *)
Definition sizes_ok (d : D) : Prop := map_Forall (λ _ (e : Entry), m_size e.2 = length e.1) (objects d).

Context (unguarded : auth config = None) (unvalidated : validation config = None) (unversioned : versioning config = false).

Lemma drain_ready_all chunks (d : D) : drain (ready chunks) d = (Ok (concat chunks), d).
Proof. induction chunks as [|b chunks IH]; [done|]. unfold ready in *. cbn [fmap list_fmap]. rewrite drain_ready, IH. done. Qed.

Lemma model_lookup d k : model d !! k = (λ e : Entry, (e.1, attributes e.2)) <$> objects d !! k.
Proof. apply lookup_fmap. Qed.
Lemma model_insert d d' k b m :
  objects d' = <[k := (b, m)]> (objects d) → model d' = <[k := (b, attributes m)]> (model d).
Proof. intros E. unfold model. by rewrite E, fmap_insert. Qed.
Lemma model_delete d d' k : objects d' = base.delete k (objects d) → model d' = base.delete k (model d).
Proof. intros E. unfold model. by rewrite E, fmap_delete. Qed.
Lemma sizes_insert d d' k b w m :
  objects d' = <[k := (b, m)]> (objects d) → describes k b w m → sizes_ok d → sizes_ok d'.
Proof. intros E (_ & Hs & _) Hd. unfold sizes_ok. rewrite E. by apply map_Forall_insert_2. Qed.
Lemma sizes_delete d d' k : objects d' = base.delete k (objects d) → sizes_ok d → sizes_ok d'.
Proof. intros E Hd. unfold sizes_ok. rewrite E. by apply map_Forall_delete. Qed.

(** A computation that returns [a] and ends in the state [s']. *)
Definition gives {A} (m : act (Facade D) StorageEvent StorageError A) (s : Facade D) (a : A) (s' : Facade D) : Prop :=
  ∃ l, m s = Outcome l s' (Ok a).
Lemma gives_bind {A B} (m : act (Facade D) StorageEvent StorageError A) (f : A → act (Facade D) StorageEvent StorageError B) s a s' b s'' :
  gives m s a s' → gives (f a) s' b s'' → gives (m ≫= f) s b s''.
Proof. intros [l E] [l' E']. eexists. by rewrite (bind_run _ _ _ _ _ _ E), E'. Qed.
Lemma gives_ret {A} (a : A) s : gives (mret a) s a s.
Proof. by eexists. Qed.

Lemma gives_catching {A} (m : act (Facade D) StorageEvent StorageError A) h s a s' :
  gives m s a s' → gives (catching m h) s a s'.
Proof. intros [l E]. exists l. by apply catching_ok. Qed.
Lemma gives_finally {A} (m : act (Facade D) StorageEvent StorageError A) f s a s' s'' :
  gives m s a s' → gives f s' tt s'' → gives (finally m f) s a s''.
Proof. intros [l E] [l' E']. eexists. unfold finally. by rewrite E; cbn [after log returned]; rewrite E'. Qed.
Lemma gives_count g s : gives (count g) s tt (with_stats g s).
Proof. by eexists. Qed.
Lemma gives_when (b : bool) e s : gives (when b (emit e)) s tt s.
Proof. destruct b; by eexists. Qed.
Lemma gives_drv {A} (op : Op D A) s a d : op (driver s) = (Ok a, d) → gives (on_drv op) s a (set_driver d s).
Proof. intros E. exists []. by apply on_drv_run. Qed.

Lemma authorize_write_gives k w s : gives (authorize_write config k w) s tt s.
Proof. unfold authorize_write, authorizeAccess. rewrite unguarded. by eexists. Qed.
Lemma authorize_object_gives k op s : gives (authorize_object config k op) s tt s.
Proof. unfold authorize_object, enforced. rewrite unguarded. apply gives_ret. Qed.
Lemma runValidation_gives i s : gives (runValidation config i) s tt s.
Proof. unfold runValidation. rewrite unvalidated. apply gives_ret. Qed.

(** The end of a write: it is announced, counted and returned. *)
Lemma announced_gives (b : bool) e n m s :
  gives (when b (emit e) ;; recordUpload n ;; mret (normalizeMetadata m)) s (normalizeMetadata m) (with_stats (counted_upload n) s).
Proof. eapply gives_bind; [apply gives_when|]. eapply gives_bind; [apply gives_count|apply gives_ret]. Qed.

Lemma put_gives_usage k b w uuid s :
  ∃ m s', gives (put config k b w uuid) s (normalizeMetadata m) s' ∧ describes k b (default no_metadata w) m ∧
          objects (driver s') = <[k := (b, m)]> (objects (driver s)) ∧
          storageUsage (stats s') = storageUsage (stats s) + length b.
Proof.
  assert (∃ e s1, gives (if events config then on_drv (d_exists k) else mret false) s e s1 ∧
                  objects (driver s1) = objects (driver s) ∧ stats s1 = stats s) as (e & s1 & He & Hs1 & Hst1).
  { destruct (events config); [|by eexists false, _; split; [apply gives_ret|]].
    destruct (exists_ok k (driver s)) as (d1 & Hex & Hd1). eexists _, _. split; [by apply gives_drv|done]. }
  destruct (put_ok k b (default no_metadata w) (driver s1)) as (m & d2 & Hput & Hd2 & Hdesc).
  eexists m, _. split; [|split; [done|]].
  - unfold put. apply gives_catching. eapply gives_bind; [apply authorize_write_gives|].
    eapply gives_bind; [apply runValidation_gives|]. rewrite unversioned. eapply gives_bind; [apply gives_ret|].
    eapply gives_bind; [exact He|]. eapply gives_bind; [by apply gives_drv|]. apply announced_gives.
  - cbn. rewrite Hst1. split; [congruence|done].
Qed.
Lemma put_gives k b w uuid s :
  ∃ m s', gives (put config k b w uuid) s (normalizeMetadata m) s' ∧ describes k b (default no_metadata w) m ∧
          objects (driver s') = <[k := (b, m)]> (objects (driver s)).
Proof. destruct (put_gives_usage k b w uuid s) as (m & s' & ? & ? & ? & _). by exists m, s'. Qed.

Lemma putStream_gives k chunks w s :
  ∃ m s', gives (putStream config k (ready chunks) w) s (normalizeMetadata m) s' ∧
          describes k (concat chunks) (default no_metadata w) m ∧
          objects (driver s') = <[k := (concat chunks, m)]> (objects (driver s)).
Proof.
  destruct (put_ok k (concat chunks) (default no_metadata w) (driver s)) as (m & d2 & Hput & Hd2 & Hdesc).
  eexists m, _. split; [|split; [done|]].
  - unfold putStream. eapply gives_bind; [apply gives_catching, authorize_write_gives|].
    eapply gives_bind; [apply gives_count|]. eapply gives_finally; [|apply gives_count]. apply gives_catching.
    eapply gives_bind; [apply gives_when|]. rewrite unvalidated. eapply gives_bind; [|apply announced_gives].
    apply gives_drv. rewrite putStream_law. by rewrite (op_bind_ok _ _ _ _ _ (drain_ready_all _ _)).
  - done.
Qed.

Lemma get_gives k s :
  ∃ s', gives (get config k) s ((λ e : Entry, (e.1, normalizeMetadata e.2)) <$> objects (driver s) !! k) s' ∧
        objects (driver s') = objects (driver s).
Proof.
  destruct (get_ok k (driver s)) as (d1 & Hget & Hd1). destruct (objects (driver s) !! k) as [[b m]|] eqn:E; cbn.
  - eexists. split.
    + eapply gives_bind; [apply authorize_object_gives|]. eapply gives_bind; [by apply gives_drv|]. cbn.
      eapply gives_bind; [apply gives_count|apply gives_ret].
    + exact Hd1.
  - eexists. split.
    + eapply gives_bind; [apply authorize_object_gives|]. eapply gives_bind; [by apply gives_drv|apply gives_ret].
    + exact Hd1.
Qed.

Lemma delete_gives k s :
  ∃ s', gives (delete_ config k) s tt s' ∧ objects (driver s') = base.delete k (objects (driver s)).
Proof.
  destruct (delete_ok k (driver s)) as (d1 & Hdel & Hd1). eexists. split.
  - eapply gives_bind; [apply authorize_object_gives|]. eapply gives_bind; [by apply gives_drv|]. apply gives_when.
  - exact Hd1.
Qed.

Lemma copy_gives a b s :
  match objects (driver s) !! a with
  | None => ∃ s', gives (copy a b) s None s' ∧ objects (driver s') = objects (driver s)
  | Some (x, m) =>
      ∃ m' s', gives (copy a b) s (Some (normalizeMetadata m')) s' ∧ describes b x (toWriteMetadata m) m' ∧
               objects (driver s') = <[b := (x, m')]> (objects (driver s))
  end.
Proof.
  destruct (get_ok a (driver s)) as (d1 & Hget & Hd1). destruct (objects (driver s) !! a) as [[x m]|] eqn:E.
  - destruct (put_ok b x (toWriteMetadata m) d1) as (m' & d2 & Hput & Hd2 & Hdesc).
    eexists m', _. split; [|split; [done|]].
    + eapply gives_bind; [by apply gives_drv|]. cbn. eapply gives_bind; [by apply gives_drv|]. apply gives_ret.
    + cbn. congruence.
  - eexists. split; [eapply gives_bind; [by apply gives_drv|apply gives_ret]|exact Hd1].
Qed.

Lemma move_gives a b s :
  match objects (driver s) !! a with
  | None => ∃ s', gives (move config a b) s None s' ∧ objects (driver s') = objects (driver s)
  | Some (x, m) =>
      ∃ m' s', gives (move config a b) s (Some (normalizeMetadata m')) s' ∧ describes b x (toWriteMetadata m) m' ∧
               objects (driver s') = base.delete a (<[b := (x, m')]> (objects (driver s)))
  end.
Proof.
  destruct (get_ok a (driver s)) as (d1 & Hget & Hd1). destruct (objects (driver s) !! a) as [[x m]|] eqn:E.
  - destruct (put_ok b x (toWriteMetadata m) d1) as (m' & d2 & Hput & Hd2 & Hdesc).
    destruct (delete_ok a d2) as (d3 & Hdel & Hd3).
    eexists m', _. split; [|split; [done|]].
    + eapply gives_bind; [by apply gives_drv|]. cbn. eapply gives_bind; [by apply gives_drv|].
      eapply gives_bind; [by apply gives_drv|]. eapply gives_bind; [apply gives_when|apply gives_ret].
    + cbn. congruence.
  - eexists. split; [eapply gives_bind; [by apply gives_drv|apply gives_ret]|exact Hd1].
Qed.

(** A step of the facade does what the specification says. *)
Definition refines_step (c : command) : Prop :=
  ∀ s, sizes_ok (driver s) →
  ∃ s', gives (run c) s (spec c (model (driver s))).1 s' ∧
        model (driver s') = (spec c (model (driver s))).2 ∧ sizes_ok (driver s').

(** One that leaves the objects as they were. *)
Lemma refines_read c s ans s' :
  gives (run c) s ans s' → objects (driver s') = objects (driver s) → sizes_ok (driver s) →
  (ans, model (driver s)) = spec c (model (driver s)) →
  ∃ s', gives (run c) s (spec c (model (driver s))).1 s' ∧
        model (driver s') = (spec c (model (driver s))).2 ∧ sizes_ok (driver s').
Proof.
  intros Hg Ho Hsz <-. exists s'. split; [done|]. unfold model, sizes_ok. rewrite Ho. done.
Qed.

Lemma attributes_copied b x m m' : describes b x (toWriteMetadata m) m' → attributes m' = attributes m.
Proof. by intros (_ & _ & _ & Ha). Qed.

Lemma copy_refines a b : refines_step (Copy a b).
Proof.
  intros s Hsz. pose proof (copy_gives a b s) as Hc. cbn [spec fst snd]. rewrite model_lookup.
  destruct (objects (driver s) !! a) as [[x m]|]; cbn [fmap option_fmap option_map fst snd].
  - destruct Hc as (m' & s' & Hg & Hd & Ho). exists s'. split; [|split; [|by eapply sizes_insert]].
    + eapply gives_bind; [exact Hg|]. cbn. rewrite attributes_normalize, (attributes_copied _ _ _ _ Hd). apply gives_ret.
    + rewrite <-(attributes_copied _ _ _ _ Hd). by apply model_insert.
  - destruct Hc as (s' & Hg & Ho). exists s'. split; [eapply gives_bind; [exact Hg|apply gives_ret]|].
    unfold model, sizes_ok. by rewrite Ho.
Qed.

Lemma move_refines a b s :
  sizes_ok (driver s) →
  ∃ s', gives (r ← move config a b; mret (Relocated (attributes <$> r))) s (spec (Move a b) (model (driver s))).1 s' ∧
        model (driver s') = (spec (Move a b) (model (driver s))).2 ∧ sizes_ok (driver s').
Proof.
  intros Hsz. pose proof (move_gives a b s) as Hc. cbn [spec fst snd]. rewrite model_lookup.
  destruct (objects (driver s) !! a) as [[x m]|]; cbn [fmap option_fmap option_map fst snd].
  - destruct Hc as (m' & s' & Hg & Hd & Ho). exists s'. split; [|split].
    + eapply gives_bind; [exact Hg|]. cbn. rewrite attributes_normalize, (attributes_copied _ _ _ _ Hd). apply gives_ret.
    + rewrite <-(attributes_copied _ _ _ _ Hd). unfold model. by rewrite Ho, fmap_delete, fmap_insert.
    + unfold sizes_ok. rewrite Ho. apply map_Forall_delete, map_Forall_insert_2; [by destruct Hd as (_ & ? & _)|done].
  - destruct Hc as (s' & Hg & Ho). exists s'. split; [eapply gives_bind; [exact Hg|apply gives_ret]|].
    unfold model, sizes_ok. by rewrite Ho.
Qed.

Lemma run_refines c : refines_step c.
Proof.
  destruct c as [k b w uuid|k chunks w|k|k|k|a b|a b|a b|k]; [..|apply copy_refines| | |]; intros s Hsz.
  - destruct (put_gives k b w uuid s) as (m & s' & Hg & Hd & Ho). pose proof Hd as (_ & _ & _ & Ha). exists s'. cbn [spec fst snd].
    split; [|split; [rewrite <-Ha; by apply model_insert|by eapply sizes_insert]].
    eapply gives_bind; [exact Hg|]. rewrite attributes_normalize, Ha. apply gives_ret.
  - destruct (putStream_gives k chunks w s) as (m & s' & Hg & Hd & Ho). pose proof Hd as (_ & _ & _ & Ha). exists s'. cbn [spec fst snd].
    split; [|split; [rewrite <-Ha; by apply model_insert|by eapply sizes_insert]].
    eapply gives_bind; [exact Hg|]. rewrite attributes_normalize, Ha. apply gives_ret.
  - destruct (get_gives k s) as (s' & Hg & Ho). eapply refines_read; [eapply gives_bind; [exact Hg|apply gives_ret]|done|done|].
    cbn. rewrite model_lookup. by destruct (objects (driver s) !! k) as [[]|].
  - destruct (exists_ok k (driver s)) as (d1 & Hex & Hd1).
    eapply refines_read; [eapply gives_bind; [by apply gives_drv|apply gives_ret]|done|done|].
    cbn. rewrite model_lookup. do 2 f_equal. apply bool_decide_ext. by rewrite fmap_is_Some.
  - destruct (delete_gives k s) as (s' & Hg & Ho). exists s'. cbn [spec fst snd].
    split; [eapply gives_bind; [exact Hg|apply gives_ret]|]. split; [by apply model_delete|by eapply sizes_delete].
  - by apply move_refines.
  - by apply move_refines.
  - destruct (stat_ok k (driver s)) as (d1 & Hst & Hd1).
    eapply refines_read.
    + eapply gives_bind; [eapply gives_bind; [by apply gives_drv|apply gives_ret]|apply gives_ret].
    + done.
    + done.
    + cbn. rewrite model_lookup. destruct (objects (driver s) !! k) as [[b m]|] eqn:E; [|done].
      pose proof (map_Forall_lookup_1 _ _ _ _ Hsz E) as Hm. cbn in *. by rewrite Hm.
Qed.

(** C11: The facade is a map: whatever is asked of it, in whatever order, the answers and the
    contents are those of a finite map from keys to bytes and attributes. *)
Theorem storage_refines_map cs : ∀ s,
  sizes_ok (driver s) →
  ∃ l s', run_all cs s = Outcome l s' (Ok (spec_all cs (model (driver s))).1) ∧
          model (driver s') = (spec_all cs (model (driver s))).2.
Proof.
  enough (∀ s, sizes_ok (driver s) → ∃ s', gives (run_all cs) s (spec_all cs (model (driver s))).1 s' ∧
            model (driver s') = (spec_all cs (model (driver s))).2) as Hall.
  { intros s Hs. destruct (Hall s Hs) as (s' & [l E] & Hm). by exists l, s'. }
  induction cs as [|c cs IH]; intros s Hs; [exists s; split; [apply gives_ret|done]|].
  destruct (run_refines c s Hs) as (s1 & Hg1 & Hm1 & Hs1). destruct (IH s1 Hs1) as (s2 & Hg2 & Hm2).
  rewrite Hm1 in Hg2, Hm2. exists s2. split; [|done].
  eapply gives_bind; [exact Hg1|]. eapply gives_bind; [exact Hg2|apply gives_ret].
Qed.
End refinement.

(** ** Guards

    These hold for every driver, reliable or not. *)

Section guards.
Context {D : Type} `{StorageDriver D, Sha256}.
Context (config : StorageConfig).
#[local] Abbreviation Method := (act (Facade D) StorageEvent StorageError).

(** What a write has to pass before the driver is called. *)
Definition write_gate (key : text) (b : bytes) (options : option WriteMetadata) : result StorageError unit :=
  _ ← authorize (auth config)
        {| c_key := key; operation := Write; c_accessLevel := Some (default DEFAULT_ACCESS_LEVEL (options ≫= w_accessLevel));
           c_owner := options ≫= w_owner; c_tenant := options ≫= w_tenant |};
  match validation config with
  | None => Ok tt
  | Some vc =>
      r ← validate BUILT_IN_VALIDATORS vc (input_of key b options);
      if ok r then Ok tt
      else Throw (ValidationError (default (lit "upload rejected by validation") (error r)) key)
  end.

Lemma lift_bind {A B} (r : result StorageError A) (f : A → Method B) s :
  (lift r ≫= f) s = match r with Ok a => f a s | Throw e => Outcome [] s (Throw e) end.
Proof. destruct r; [by apply act_bind_ok|done]. Qed.

Lemma runValidation_run i (s : Facade D) :
  runValidation config i s =
  Outcome [] s (match validation config with
                | None => Ok tt
                | Some vc =>
                    r ← validate BUILT_IN_VALIDATORS vc i;
                    if ok r then Ok tt
                    else Throw (ValidationError (default (lit "upload rejected by validation") (error r)) (v_key i))
                end).
Proof.
  unfold runValidation. destruct (validation config) as [vc|]; [|done]. rewrite lift_bind.
  destruct (validate _ _ _) as [r|e]; cbn; [|done]. by destruct (ok r).
Qed.

Lemma write_gate_run {B} key b options (f : unit → Method B) s :
  (authorize_write config key options ;; runValidation config (input_of key b options) ≫= f) s =
  match write_gate key b options with
  | Ok _ => f tt s
  | Throw e => Outcome [] s (Throw e)
  end.
Proof.
  unfold authorize_write, authorizeAccess, write_gate. rewrite lift_bind. destruct (authorize _ _) as [[]|e]; cbn; [|done].
  pose proof (runValidation_run (input_of key b options) s) as Hv. cbn [v_key input_of] in Hv.
  destruct (match validation config with Some _ => _ | None => _ end) as [[]|e]; [by apply bind_silent|by apply bind_throws].
Qed.

(** A write that is denied or does not validate calls no operation of the driver: nothing is
    stored, no version is made, nothing is published; the failure is counted and thrown. *)
Theorem refused_write_has_no_effect key b options uuid e s :
  write_gate key b options = Throw e →
  put config key b options uuid s = Outcome [] (with_stats counted_failure s) (Throw e).
Proof.
  intros Hg. unfold put. erewrite catching_throw; [|rewrite write_gate_run, Hg; reflexivity]. done.
Qed.

(** A guarded read or delete that is denied returns nothing of the object and leaves it. *)
Lemma authorize_object_denied key op m d1 can e s :
  auth config = Some can → d_stat key (driver s) = (Ok (Some m), d1) →
  authorize (Some can) {| c_key := key; operation := op; c_accessLevel := accessLevel m; c_owner := owner m; c_tenant := tenant m |} = Throw e →
  authorize_object config key op s = Outcome [] (set_driver d1 s) (Throw e).
Proof.
  intros Ha Hst Hd. unfold authorize_object, enforced. rewrite Ha. rewrite (on_drv_ok _ _ _ _ _ Hst).
  unfold authorizeAccess. by rewrite Ha, Hd.
Qed.

Lemma denied_read_or_delete key m d1 can e s :
  auth config = Some can → d_stat key (driver s) = (Ok (Some m), d1) →
  (∀ op, authorize (Some can) {| c_key := key; operation := op; c_accessLevel := accessLevel m; c_owner := owner m; c_tenant := tenant m |} = Throw (e op)) →
  get config key s = Outcome [] (set_driver d1 s) (Throw (e Read)) ∧
  getStream config key s = Outcome [] (set_driver d1 s) (Throw (e Read)) ∧
  delete_ config key s = Outcome [] (set_driver d1 s) (Throw (e Delete)).
Proof.
  intros Ha Hst Hd. unfold get, getStream, delete_. by rewrite !(bind_throws _ _ s [] (set_driver d1 s) _ (authorize_object_denied _ _ _ _ _ _ _ Ha Hst (Hd _))).
Qed.

(** ** Statistics *)

(** A computation that counts nothing. *)
Definition counts_nothing {A} (m : Method A) : Prop := ∀ s, stats (after (m s)) = stats s.

Lemma counts_nothing_bind {A B} (m : Method A) (f : A → Method B) :
  counts_nothing m → (∀ a, counts_nothing (f a)) → counts_nothing (m ≫= f).
Proof.
  intros Hm Hf s. unfold mbind, act_bind. destruct (returned (m s)) as [a|e]; cbn; [rewrite Hf|]; apply Hm.
Qed.
Lemma counts_nothing_drv {A} (op : Op D A) : counts_nothing (on_drv op).
Proof. done. Qed.
Lemma counts_nothing_resumable {A} (op : Op (ResumableState * D) A) : counts_nothing (on_resumable op).
Proof. done. Qed.
Lemma counts_nothing_ret {A} (a : A) : counts_nothing (mret a).
Proof. done. Qed.
Lemma counts_nothing_when (b : bool) e : counts_nothing (when b (emit e)).
Proof. by destruct b. Qed.
Lemma counts_nothing_lift {A} (r : result StorageError A) : counts_nothing (lift r).
Proof. done. Qed.
Lemma counts_nothing_validation i : counts_nothing (runValidation config i : Method unit).
Proof. intros s. by rewrite runValidation_run. Qed.

(** A computation that counts an upload at its end, when it gets there. *)
Definition counts_upload {A} (m : Method A) : Prop :=
  ∀ s, match returned (m s) with
       | Ok _ => ∃ n, stats (after (m s)) = counted_upload n (stats s)
       | Throw _ => stats (after (m s)) = stats s
       end.
Lemma counts_upload_bind {A B} (m : Method A) (f : A → Method B) :
  counts_nothing m → (∀ a, counts_upload (f a)) → counts_upload (m ≫= f).
Proof.
  intros Hm Hf s. unfold mbind, act_bind. pose proof (Hm s) as Hs. destruct (returned (m s)) as [a|e]; cbn; [|done].
  pose proof (Hf a (after (m s))) as Ha. rewrite Hs in Ha. by destruct (returned (f a (after (m s)))).
Qed.
Lemma counts_upload_end {A} n (a : A) : counts_upload (recordUpload n ;; mret a : Method A).
Proof. intros s. by exists n. Qed.

(** One attempt: it is counted once, as an upload or as a failure, and nothing stays active. *)
Definition counted_once {A} (before : StorageStats) (o : outcome (Facade D) StorageEvent StorageError A) : Prop :=
  activeUploads (stats (after o)) = activeUploads before ∧
  match returned o with
  | Ok _ => uploads (stats (after o)) = S (uploads before) ∧ failedUploads (stats (after o)) = failedUploads before
  | Throw _ => uploads (stats (after o)) = uploads before ∧ failedUploads (stats (after o)) = S (failedUploads before)
  end.

Lemma caught_once {A} (m : Method A) h s :
  counts_upload m → (∀ e s, stats (after (h e s)) = counted_failure (stats s)) → counted_once (stats s) (catching m h s).
Proof.
  intros Hm Hh. pose proof (Hm s) as Hs. unfold counted_once, catching. destruct (returned (m s)) as [a|e] eqn:E; cbn.
  - destruct Hs as [n Hs]. by rewrite E, Hs.
  - by rewrite Hh, Hs.
Qed.

(** In flight while it runs. *)
Lemma active_once {A} (m : Method A) s :
  counted_once (counted_active S (stats s)) (m (with_stats (counted_active S) s)) →
  counted_once (stats s) ((recordActiveStart ;; finally m recordActiveEnd) s).
Proof.
  intros [Ha Hr]. unfold recordActiveStart. rewrite count_ok. unfold finally, counted_once. cbn [after returned recordActiveEnd count modify].
  cbn in Ha. cbn [stats with_stats counted_active activeUploads uploads failedUploads]. rewrite Ha. split; [done|].
  by destruct (returned _).
Qed.

Lemma failure_counted (b : bool) e s :
  stats (after ((when b (emit e) ;; recordUploadFailure : Method unit) s)) = counted_failure (stats s).
Proof. rewrite when_emit_ok. done. Qed.

(** Every attempt to upload is counted once: as an upload if it succeeds and as a failure
    if it throws, for whatever reason; and it is active only while it runs. *)
Theorem attempts_are_counted_once s :
  (∀ key b options uuid, counted_once (stats s) (put config key b options uuid s)) ∧
  (∀ key stream options, counted_once (stats s) (putStream config key stream options s)) ∧
  (∀ id stream, counted_once (stats s) (resumeUpload config id stream s)).
Proof.
  split; [|split].
  - intros key b options uuid. apply caught_once; [|done].
    apply counts_upload_bind; [apply counts_nothing_lift|intros _].
    apply counts_upload_bind; [apply counts_nothing_validation|intros _].
    apply counts_upload_bind.
    { destruct (versioning config); [|apply counts_nothing_ret].
      apply counts_nothing_bind; [apply counts_nothing_drv|intros ?; apply counts_nothing_ret]. }
    intros _. apply counts_upload_bind; [destruct (events config); [apply counts_nothing_drv|apply counts_nothing_ret]|intros existed].
    apply counts_upload_bind; [apply counts_nothing_drv|intros m].
    apply counts_upload_bind; [apply counts_nothing_when|intros _]. apply counts_upload_end.
  - intros key stream options. unfold putStream, authorize_write, authorizeAccess.
    destruct (authorize _ _) as [[]|e].
    + rewrite (bind_silent _ _ s s tt) by (by apply catching_ok). apply active_once, caught_once; [|intros; apply failure_counted].
      apply counts_upload_bind; [apply counts_nothing_when|intros _].
      apply counts_upload_bind.
      { destruct (validation config); [|apply counts_nothing_drv].
        apply counts_nothing_bind; [apply counts_nothing_drv|intros x].
        apply counts_nothing_bind; [apply counts_nothing_validation|intros _]. apply counts_nothing_drv. }
      intros m. apply counts_upload_bind; [apply counts_nothing_when|intros _]. apply counts_upload_end.
    + rewrite (bind_throws _ _ s [] (with_stats counted_failure s) e); [done|]. done.
  - intros id stream. unfold resumeUpload.
    assert (∀ (n : Method StorageObjectMetadata) e, (recordActiveStart ;; broadcast config e ;; n) s =
              Outcome ((if realtime config then [e] else []) ++ log ((recordActiveStart ;; n) s))
                (after ((recordActiveStart ;; n) s)) (returned ((recordActiveStart ;; n) s))) as Hbroad.
    { intros n e. unfold recordActiveStart. rewrite !count_ok. by apply when_emit_ok. }
    rewrite Hbroad. unfold counted_once. cbn [after returned].
    apply (active_once _ s), caught_once; [|intros; apply failure_counted].
    apply counts_upload_bind; [apply counts_nothing_resumable|intros m].
    apply counts_upload_bind; [apply counts_nothing_when|intros _]. apply counts_upload_end.
Qed.
End guards.

(** ** What the guards and counters miss *)

Section misses.
Context {D : Type} `{DriverLaws D, !Reliable D}.
Context (config : StorageConfig).

(** Moving or renaming an object to its own key deletes it, and reports success. *)
Theorem move_to_itself_deletes key b m (s : Facade D) :
  objects (driver s) !! key = Some (b, m) →
  ∃ l m' s', rename config key key s = Outcome l s' (Ok (Some m')) ∧
             objects (driver s') = base.delete key (objects (driver s)).
Proof.
  intros Hm. pose proof (move_gives config key key s) as Hmove. rewrite Hm in Hmove.
  destruct Hmove as (m' & s' & [l E] & _ & Ho). exists l, (normalizeMetadata m'), s'. split; [done|].
  by rewrite Ho, delete_insert_eq.
Qed.

(** Access control covers [get], [getStream], [put], [putStream] and [delete]; who may do none of
    them can still copy and move: with a bridge that denies everything, an object that cannot be
    deleted is removed from its key by [rename]. *)
Theorem rename_is_not_guarded key newKey b m (s : Facade D) :
  auth config = Some (λ _, Ok false) → key ≠ newKey → objects (driver s) !! key = Some (b, m) →
  (∃ l s1, delete_ config key s = Outcome l s1 (Throw (AuthorizationError key Delete (accessLevel m))) ∧
           objects (driver s1) = objects (driver s)) ∧
  ∃ l m' s2, rename config key newKey s = Outcome l s2 (Ok (Some m')) ∧
             objects (driver s2) !! key = None ∧ fst <$> objects (driver s2) !! newKey = Some b.
Proof.
  intros Ha Hne Hm. split.
  - destruct (stat_ok key (driver s)) as (d1 & Hst & Hd1). rewrite Hm in Hst. cbn in Hst.
    exists [], (set_driver d1 s). split; [|done]. unfold delete_. apply bind_throws.
    apply (authorize_object_denied config _ _ m d1 _ _ _ Ha Hst). cbn. by case_decide.
  - pose proof (move_gives config key newKey s) as Hmove. rewrite Hm in Hmove.
    destruct Hmove as (m' & s' & [l E] & _ & Ho). exists l, (normalizeMetadata m'), s'. split; [done|].
    rewrite Ho. split; [apply lookup_delete_eq|]. by rewrite lookup_delete_ne, lookup_insert_eq.
Qed.

(** [storageUsage] only grows: deleting takes nothing off, and an overwrite counts in full. *)
Theorem storage_usage_ignores_deletes key b options uuid (s : Facade D) :
  auth config = None → validation config = None → versioning config = false →
  ∃ l s', (_ ← put config key b options uuid; delete_ config key) s = Outcome l s' (Ok tt) ∧
          objects (driver s') = base.delete key (objects (driver s)) ∧
          storageUsage (stats s') = storageUsage (stats s) + length b.
Proof.
  intros Ha Hv Hn. destruct (put_gives_usage config Ha Hv Hn key b options uuid s) as (m & s1 & Hput & _ & Ho & Hu).
  destruct (delete_ok key (driver s1)) as (d2 & Hdel & Hd2).
  destruct (gives_bind _ (λ _, delete_ config key) s (normalizeMetadata m) s1 tt (set_driver d2 s1) Hput) as [l E].
  { eapply gives_bind; [by apply authorize_object_gives|]. eapply gives_bind; [by apply gives_drv|]. apply gives_when. }
  exists l, (set_driver d2 s1). split; [exact E|]. split; [|exact Hu]. cbn. by rewrite Hd2, Ho, delete_insert_eq.
Qed.
End misses.

(** ** A session over the memory driver *)

#[local] Existing Instance sample_sha.
#[local] Existing Instance sample_clock.
Definition open_config : StorageConfig :=
  {| validation := None; versioning := false; auth := None; events := true; realtime := true |}.
Definition sample_commands : list command :=
  [Put (lit "a") (lit "one") None (lit "v1"); Copy (lit "a") (lit "b"); Move (lit "b") (lit "c");
   PutStream (lit "a") [lit "t"; lit "wo"] None; Remove (lit "c"); Get (lit "a"); Exists (lit "c")].

Lemma storage_refines_map_witness :
  sizes_ok new_MemoryStorageDriver ∧
  ∃ l s', run_all open_config sample_commands (new_Facade new_MemoryStorageDriver) =
            Outcome l s' (Ok (spec_all sample_commands (model new_MemoryStorageDriver)).1) ∧
          model (driver s') = (spec_all sample_commands (model new_MemoryStorageDriver)).2.
Proof.
  assert (sizes_ok new_MemoryStorageDriver) as Hs by (intros k e [=]).
  split; [exact Hs|].
  exact (storage_refines_map open_config eq_refl eq_refl eq_refl sample_commands (new_Facade new_MemoryStorageDriver) Hs).
Defined.

Lemma move_to_itself_deletes_witness :
  let d := (d_put (lit "a") (lit "one") no_metadata new_MemoryStorageDriver).2 in
  ∃ b m, objects d !! lit "a" = Some (b, m) ∧
  ∃ l m' s', rename open_config (lit "a") (lit "a") (new_Facade d) = Outcome l s' (Ok (Some m')) ∧
             objects (driver s') = base.delete (lit "a") (objects d).
Proof.
  cbv zeta. do 2 eexists. split; [vm_compute; reflexivity|].
  eapply (move_to_itself_deletes open_config (lit "a")). vm_compute. reflexivity.
Defined.
