(* ===== verification/StorageSignedUrl.v ===== *)
(** * Signed URLs

    Models src/packages/storage/src/signed-url.ts: a URL carries the operation it
    authorizes, its expiry and options as base64url of JSON, and an HMAC of that.

    Arguments: HMAC-SHA-256 in hexadecimal, base64url and its lenient decoder, and
    [JSON.stringify] and [JSON.parse] ([None] when it throws), on the trees of ConfigValue.v.
    The theorems use that a digest and base64url are not empty and have no dot, and that
    what is encoded is decoded.  Times are numbers of JavaScript. *)

From Stdlib Require Import Ascii String SpecFloat.
From S2P Require Import Prelude JsText JsMap JsNumber ConfigValue StorageDriver StorageValidation.

Open Scope nat_scope.
#[local] Open Scope list_scope.

Inductive SignedOperation : Type := GET | PUT | DELETE.
#[export] Instance SignedOperation_eq_dec : EqDecision SignedOperation.
Proof. solve_decision. Defined.

Record SignedUrlOptions : Type := {
  expiresInMs : option spec_float;
  headers : option (list (list ascii * list ascii));
  url_contentType : option (list ascii);
  url_maxSize : option spec_float;
  url_metadata : option (list (list ascii * list ascii))
}.
Definition no_url_options : SignedUrlOptions :=
  {| expiresInMs := None; headers := None; url_contentType := None; url_maxSize := None; url_metadata := None |}.

Inductive Reason : Type := R_expired | R_operation_mismatch | R_signature_mismatch | R_malformed.
Record SignedUrlVerification : Type := {
  valid : bool;
  reason : option Reason;
  vf_key : option (list ascii);
  vf_op : option SignedOperation
}.

Definition SIGNED_URL_SCHEME : text := lit "streetjs-signed://".
Definition DEFAULT_EXPIRES_IN_MS : spec_float := of_Z 900000.

Definition add (a b : spec_float) : spec_float := SFadd prec emax a b.
(** [a >= b] *)
Definition at_least (a b : spec_float) : bool :=
  match SFcompare a b with Some Eq | Some Gt => true | _ => false end.

Definition op_text (op : SignedOperation) : text :=
  match op with GET => lit "GET" | PUT => lit "PUT" | DELETE => lit "DELETE" end.

Definition strings (m : list (text * text)) : value := VObject ((λ e, (e.1, VString e.2)) <$> m).
Definition field (name : string) (v : option value) : list (text * value) :=
  match v with Some v => [(lit name, v)] | None => [] end.

(** [SignedPayload], an absent option leaving no field. *)
Definition payload (key : text) (op : SignedOperation) (expiry : spec_float) (options : SignedUrlOptions) : value :=
  VObject ([(lit "v", VNumber (of_Z 1)); (lit "key", VString key); (lit "op", VString (op_text op));
            (lit "expiry", VNumber expiry)] ++
           field "headers" (strings <$> headers options) ++
           field "contentType" (VString <$> url_contentType options) ++
           field "maxSize" (VNumber <$> url_maxSize options) ++
           field "metadata" (strings <$> url_metadata options)).

(** The fields that [isSignedPayload] asks for, when they are there. *)
Definition isSignedPayload (v : value) : option (text * SignedOperation * spec_float) :=
  match v with
  | VObject m =>
      match jm_get (lit "v") m, jm_get (lit "key") m, jm_get (lit "op") m, jm_get (lit "expiry") m with
      | Some (VNumber n), Some (VString key), Some (VString op), Some (VNumber expiry) =>
          if bool_decide (n = of_Z 1) && isFinite expiry then
            if decide (op = lit "GET") then Some (key, GET, expiry)
            else if decide (op = lit "PUT") then Some (key, PUT, expiry)
            else if decide (op = lit "DELETE") then Some (key, DELETE, expiry)
            else None
          else None
      | _, _, _, _ => None
      end
  | _ => None
  end.

Definition parseSignedUrl (url : text) : option (text * text) :=
  if is_prefix SIGNED_URL_SCHEME url then
    let body := drop (length SIGNED_URL_SCHEME) url in
    match lastIndexOf "."%char body with
    | None => None
    | Some separator =>
        if (separator <=? 0) || (length body - 1 <=? separator) then None
        else Some (take separator body, drop (S separator) body)
    end
  else None.

Record SignedUrlCapability : Type := {
  su_sign : list ascii → SignedOperation → SignedUrlOptions → result StorageError (list ascii);
  su_verify : list ascii → spec_float → SignedUrlVerification
}.

Section signed_urls.
Context (hmacHex : text → text → text) (base64url unbase64url : text → text)
        (stringify : value → text) (parse : text → option value).
Context (native : option SignedUrlCapability) (signingSecret : option text).

Definition encodePayload (p : value) : text := base64url (stringify p).
Definition decodePayload (encoded : text) : option (text * SignedOperation * spec_float) :=
  parse (unbase64url encoded) ≫= isSignedPayload.

Definition requireSigningSecret : result StorageError text :=
  match signingSecret with
  | Some ((_ :: _) as secret) => Ok secret
  | _ => Throw (StorageConfigError (lit "Signed URLs require a non-empty " ++ quoted_text (lit "signingSecret") ++
             lit " in the storage configuration when the driver has no native signed-URL capability."))
  end.

Definition sign (key : text) (op : SignedOperation) (options : SignedUrlOptions) (clock : spec_float) : result StorageError text :=
  match native with
  | Some n => su_sign n key op options
  | None =>
      secret ← requireSigningSecret;
      let expiry := add clock (default DEFAULT_EXPIRES_IN_MS (expiresInMs options)) in
      let encoded := encodePayload (payload key op expiry options) in
      Ok (SIGNED_URL_SCHEME ++ encoded ++ "."%char :: hmacHex secret encoded)
  end.

Definition invalid (r : Reason) (who : option (text * SignedOperation)) : SignedUrlVerification :=
  {| valid := false; reason := Some r; vf_key := fst <$> who; vf_op := snd <$> who |}.

(** [at_] is the time given, or the reading of the clock. *)
Definition verify (url : text) (expectedOp : option SignedOperation) (at_ : spec_float) : SignedUrlVerification :=
  match native with
  | Some n => su_verify n url at_
  | None =>
      match signingSecret with
      | None => invalid R_malformed None
      | Some secret =>
          match parseSignedUrl url with
          | None => invalid R_malformed None
          | Some (encoded, signature) =>
              if negb (bool_decide (signature = hmacHex secret encoded)) then invalid R_signature_mismatch None
              else match decodePayload encoded with
                   | None => invalid R_malformed None
                   | Some (key, op, expiry) =>
                       if match expectedOp with Some e => bool_decide (op ≠ e) | None => false end then
                         invalid R_operation_mismatch (Some (key, op))
                       else if at_least at_ expiry then invalid R_expired (Some (key, op))
                       else {| valid := true; reason := None; vf_key := Some key; vf_op := Some op |}
                   end
          end
      end
  end.

(** ** Theorems *)

Lemma isSignedPayload_payload key op expiry options :
  isFinite expiry = true → isSignedPayload (payload key op expiry options) = Some (key, op, expiry).
Proof.
  intros Hf. unfold isSignedPayload, payload. cbn [app].
  change (jm_get (lit "v") _) with (Some (VNumber (of_Z 1))). change (jm_get (lit "key") _) with (Some (VString key)).
  change (jm_get (lit "op") _) with (Some (VString (op_text op))). change (jm_get (lit "expiry") _) with (Some (VNumber expiry)).
  cbv iota beta. rewrite bool_decide_true by done. rewrite Hf. by destruct op.
Qed.

Hypothesis digest : ∀ k d, hmacHex k d ≠ [] ∧ "."%char ∉ hmacHex k d.
Hypothesis coded : ∀ p, base64url (stringify p) ≠ [].

Lemma parse_signed encoded signature :
  encoded ≠ [] → signature ≠ [] → "."%char ∉ signature →
  parseSignedUrl (SIGNED_URL_SCHEME ++ encoded ++ "."%char :: signature) = Some (encoded, signature).
Proof.
  intros He Hs Hd. unfold parseSignedUrl. rewrite is_prefix_app, drop_app_length, lastIndexOf_app by done.
  rewrite length_app. cbn [length]. destruct (Nat.leb_spec (length encoded) 0) as [Hl|_]; [by destruct encoded; cbn in Hl; [|lia]|].
  destruct (Nat.leb_spec (length encoded + S (length signature) - 1) (length encoded)) as [Hl|_].
  { destruct signature; cbn in Hl; [done|lia]. }
  cbn [orb]. by rewrite take_app_length, drop_after.
Qed.

(** A URL is good for its key and operation until it expires, and for nothing else. *)
Theorem signed_url_verifies key op options clock secret expectedOp at_ :
  let expiry := add clock (default DEFAULT_EXPIRES_IN_MS (expiresInMs options)) in
  let p := payload key op expiry options in
  native = None → signingSecret = Some secret → secret ≠ [] → isFinite expiry = true →
  parse (unbase64url (base64url (stringify p))) = Some p →
  ∃ url, sign key op options clock = Ok url ∧
    verify url expectedOp at_ =
      if match expectedOp with Some e => bool_decide (op ≠ e) | None => false end
      then invalid R_operation_mismatch (Some (key, op))
      else if at_least at_ expiry then invalid R_expired (Some (key, op))
      else {| valid := true; reason := None; vf_key := Some key; vf_op := Some op |}.
Proof.
  intros expiry p Hn Hs Hne Hf Hp. exists (SIGNED_URL_SCHEME ++ encodePayload p ++ "."%char :: hmacHex secret (encodePayload p)).
  destruct (digest secret (encodePayload p)) as [Hd1 Hd2]. split.
  - unfold sign, requireSigningSecret. rewrite Hn, Hs. by destruct secret.
  - unfold verify. rewrite Hn, Hs, (parse_signed (encodePayload p)) by (done || apply coded).
    rewrite bool_decide_true by done. cbn [negb]. unfold decodePayload.
    rewrite (Hp : parse (unbase64url (encodePayload p)) = Some p). cbn [mbind option_bind].
    by assert (isSignedPayload p = Some (key, op, expiry)) as -> by by apply isSignedPayload_payload.
Qed.

Lemma lastIndexOf_split c (l : text) i : lastIndexOf c l = Some i → l = take i l ++ c :: drop (S i) l.
Proof.
  unfold lastIndexOf. destruct (indexOf c (reverse l)) as [j|] eqn:E; [|done]. cbn. intros [= <-].
  apply indexOf_spec in E as (x & y & Er & <- & _). apply (f_equal reverse) in Er.
  rewrite reverse_involutive, reverse_app, reverse_cons, <-(assoc_L (++)) in Er. cbn in Er. rewrite Er.
  rewrite length_app. cbn. rewrite !length_reverse. replace (length y + S (length x) - 1 - length x) with (length (reverse y))
    by (rewrite length_reverse; lia).
  by rewrite take_app_length, drop_after.
Qed.

Lemma parseSignedUrl_inv url encoded signature :
  parseSignedUrl url = Some (encoded, signature) → url = SIGNED_URL_SCHEME ++ encoded ++ "."%char :: signature.
Proof.
  unfold parseSignedUrl. destruct (is_prefix SIGNED_URL_SCHEME url) eqn:Ep; [|done]. apply is_prefix_spec in Ep as [body ->].
  rewrite drop_app_length. destruct (lastIndexOf _ body) as [i|] eqn:E; [|done]. case_match; [done|]. intros [= <- <-].
  by rewrite <-(lastIndexOf_split _ _ _ E).
Qed.

(** What is accepted bears the signature of its content under the secret, is for the
    operation that is attempted, and has not expired. *)
Theorem accepted_urls_are_signed url expectedOp at_ secret :
  native = None → signingSecret = Some secret → valid (verify url expectedOp at_) = true →
  ∃ encoded key op expiry,
    url = SIGNED_URL_SCHEME ++ encoded ++ "."%char :: hmacHex secret encoded ∧
    decodePayload encoded = Some (key, op, expiry) ∧ at_least at_ expiry = false ∧
    (∀ e, expectedOp = Some e → e = op) ∧
    verify url expectedOp at_ = {| valid := true; reason := None; vf_key := Some key; vf_op := Some op |}.
Proof.
  intros Hn Hs. unfold verify. rewrite Hn, Hs. destruct (parseSignedUrl url) as [[encoded signature]|] eqn:Ep; [|done].
  apply parseSignedUrl_inv in Ep. destruct (bool_decide_reflect (signature = hmacHex secret encoded)) as [->|]; [|done].
  cbn [negb]. destruct (decodePayload encoded) as [[[key op] expiry]|] eqn:Ed; [|done].
  destruct (match expectedOp with Some e => _ | None => _ end) eqn:Ee; [done|]. destruct (at_least at_ expiry) eqn:Ea; [done|].
  intros _. exists encoded, key, op, expiry. repeat split; try done.
  intros e ->. apply bool_decide_eq_false in Ee. by destruct (decide (op = e)).
Qed.

(** With an empty secret nothing can be signed, but URLs verify: whoever computes the HMAC
    under the empty key makes one that is accepted. *)
Theorem empty_secret_accepts_forgeries key op expiry at_ :
  let p := payload key op expiry no_url_options in
  native = None → signingSecret = Some [] → isFinite expiry = true → at_least at_ expiry = false →
  parse (unbase64url (base64url (stringify p))) = Some p →
  (∀ options clock, is_ok (sign key op options clock) = false) ∧
  valid (verify (SIGNED_URL_SCHEME ++ encodePayload p ++ "."%char :: hmacHex [] (encodePayload p)) (Some op) at_) = true.
Proof.
  intros p Hn Hs Hf Ha Hp. destruct (digest [] (encodePayload p)) as [Hd1 Hd2]. split.
  - intros options clock. unfold sign, requireSigningSecret. by rewrite Hn, Hs.
  - unfold verify. rewrite Hn, Hs, (parse_signed (encodePayload p)) by (done || apply coded).
    rewrite bool_decide_true by done. cbn [negb]. unfold decodePayload.
    rewrite (Hp : parse (unbase64url (encodePayload p)) = Some p). cbn [mbind option_bind].
    assert (isSignedPayload p = Some (key, op, expiry)) as -> by by apply isSignedPayload_payload.
    rewrite bool_decide_false by naive_solver. by rewrite Ha.
Qed.
End signed_urls.
