(* ===== verification/Realtime.v ===== *)
(** * The realtime facade and its Redis cluster

    Models src/packages/realtime/src/facade.ts ([RoomHandle], [RealtimeFacade]),
    cluster/redis.ts ([RedisAdapter]) and ratelimit.ts ([RateLimiter]) over the hub of
    Channels.v: instances that share a Redis server, each with its hub, the identities of its
    connections, the mirror of what its peers announce, and its adapter.

    A client of Redis sends the commands of all its operations over one connection and gets
    the answers in their order.  An operation of the adapter is a task at its next command:
    [sent] are the tasks whose command is on its way, [replied] those whose command has been
    executed and whose answer is on its way back ([Runs], [Replies]).  The set commands of the
    server are a class with the laws of its documentation.  The topic is a log; an instance
    has read it up to its [cursor].  Members are their ids, connections are numbers that
    differ between instances, [instanceId] is the id of an instance, without colons.

    The invariant of an instance ([pipeline_ok]) says where its commands lead: applying those
    that add and remove members gives who is present; the index follows the set; and the last
    announcement to come of a member is the state of the set.

    Sockets take what is sent to them here (Channels.v has those that fail in the middle of a
    broadcast).  Connection losses of the adapter, its refresh timer, the JSON of the
    envelopes, authentication of upgrades and metrics are not modelled. *)

From Stdlib Require Import Ascii String QArith.
From S2P Require Import Prelude JsMap RateStore Channels.

#[local] Open Scope list_scope.
Open Scope nat_scope.

(** ** Redis and the envelopes *)

(** The set commands of a Redis server, and what its documentation says of them. *)
Class RedisSets (R : Type) : Type := {
  redis0 : R;
  smembers : string → R → gset string;
  scard : string → R → nat;
  sadd : string → string → R → R;
  srem : string → string → R → R
}.
Class RedisSetLaws (R : Type) `{RedisSets R} : Prop := {
  smembers_empty key : smembers key redis0 = ∅;
  scard_size key r : scard key r = size (smembers key r);
  smembers_sadd key key' member r :
    smembers key (sadd key' member r) =
    if decide (key' = key) then {[member]} ∪ smembers key r else smembers key r;
  smembers_srem key key' member r :
    smembers key (srem key' member r) =
    if decide (key' = key) then smembers key r ∖ {[member]} else smembers key r
}.
#[export] Hint Mode RedisSets ! : typeclass_instances.

(** A channel, a member, and whether it is there from now on. *)
Definition delta : Type := (string * string * bool).

Inductive content : Type :=
| BroadcastOf (channel type payload : string) (exceptConnId : option nat) (exceptMemberId : string)
| PresenceOf (d : delta).
Record ClusterEnvelope : Type := { origin : nat; body : content }.

(** ** The rate limiter *)

Record ResolvedQuota : Type := { requests : nat; windowMs : Q }.
Inductive ExceededQuota : Type := perConnection | perChannel.

Section limiter.
Context (opts : StoreOptions) (enabled : bool) (connQuota chanQuota : ResolvedQuota).
Context (connName : nat → string).

Definition connKey (c : nat) : string := ("rt:conn:" +:+ connName c)%string.
Definition chanKey (ch : string) : string := ("rt:chan:" +:+ ch)%string.

(** [consume] up to its last [count], and from its first [hit] on. *)
Definition consume_check (connId : option nat) (ch : string) (now : Q) (s : window_store) :
    option ExceededQuota :=
  if match connId with
     | Some c => requests connQuota <=? count (connKey c) now (windowMs connQuota) s
     | None => false
     end then Some perConnection
  else if requests chanQuota <=? count (chanKey ch) now (windowMs chanQuota) s then Some perChannel
  else None.
Definition consume_record (connId : option nat) (ch : string) (now : Q) (s : window_store) : window_store :=
  let s := match connId with
           | Some c => (hit opts (connKey c) now (windowMs connQuota) s).2
           | None => s
           end in
  (hit opts (chanKey ch) now (windowMs chanQuota) s).2.
Definition consume (connId : option nat) (ch : string) (now : Q) (s : window_store) :
    option ExceededQuota * window_store :=
  if negb enabled then (None, s)
  else match consume_check connId ch now s with
       | Some exceeded => (Some exceeded, s)
       | None => (None, consume_record connId ch now s)
       end.
End limiter.

(** ** Tasks of an adapter *)

Inductive join_stage : Type := AddMember | AddInstance | RefreshJoin | AnnounceJoin.
Inductive leave_stage : Type := RemoveMember | CountMembers | RemoveInstance | RefreshLeave | AnnounceLeave.
(** Of the loop over the instances of a channel: what it has still to visit, and found. *)
Inductive query_stage : Type :=
| ListInstances
| ListMembers (id : string) (todo found : list string)
| PruneInstance (id : string) (todo found : list string)
| Found (found : list string).

Inductive task : Type :=
| JoinTask (channel memberId : string) (s : join_stage)
| LeaveTask (channel memberId : string) (s : leave_stage)
| BroadcastTask (channel type payload : string) (exceptConnId : option nat) (exceptMemberId : string)
| QueryTask (channel : string) (here : list string) (s : query_stage).

(** What a connection is told of a refusal. *)
Inductive refusal : Type :=
| Unauthorized (channel : string)
| RateLimited (channel : string) (quota : ExceededQuota).
Inductive room_error : Type := EmptyRoomName | Denied | HubError (e : hub_error).

Record Instance : Type := {
  hub : Hub;
  membersByConnId : list (nat * string);
  connById : list nat;
  authorizers : list string;                       (* the secured channels *)
  peerPresenceMirror : list (string * list string);
  limits : window_store;
  sent : list task;
  replied : list task;
  cursor : nat;
  answers : list (string * list string);           (* what calls of [presence] returned *)
  refusals : list (nat * refusal)
}.

Definition set_hub (h : Hub) (x : Instance) : Instance :=
  {| hub := h; membersByConnId := membersByConnId x; connById := connById x; authorizers := authorizers x;
     peerPresenceMirror := peerPresenceMirror x; limits := limits x; sent := sent x; replied := replied x;
     cursor := cursor x; answers := answers x; refusals := refusals x |}.
Definition set_conns (ms : list (nat * string)) (cs : list nat) (x : Instance) : Instance :=
  {| hub := hub x; membersByConnId := ms; connById := cs; authorizers := authorizers x;
     peerPresenceMirror := peerPresenceMirror x; limits := limits x; sent := sent x; replied := replied x;
     cursor := cursor x; answers := answers x; refusals := refusals x |}.
Definition set_secured (l : list string) (x : Instance) : Instance :=
  {| hub := hub x; membersByConnId := membersByConnId x; connById := connById x; authorizers := l;
     peerPresenceMirror := peerPresenceMirror x; limits := limits x; sent := sent x; replied := replied x;
     cursor := cursor x; answers := answers x; refusals := refusals x |}.
Definition set_mirror (l : list (string * list string)) (n : nat) (x : Instance) : Instance :=
  {| hub := hub x; membersByConnId := membersByConnId x; connById := connById x; authorizers := authorizers x;
     peerPresenceMirror := l; limits := limits x; sent := sent x; replied := replied x;
     cursor := n; answers := answers x; refusals := refusals x |}.
Definition set_limits (s : window_store) (l : list (nat * refusal)) (x : Instance) : Instance :=
  {| hub := hub x; membersByConnId := membersByConnId x; connById := connById x; authorizers := authorizers x;
     peerPresenceMirror := peerPresenceMirror x; limits := s; sent := sent x; replied := replied x;
     cursor := cursor x; answers := answers x; refusals := l |}.
Definition set_tasks (s r : list task) (l : list (string * list string)) (x : Instance) : Instance :=
  {| hub := hub x; membersByConnId := membersByConnId x; connById := connById x; authorizers := authorizers x;
     peerPresenceMirror := peerPresenceMirror x; limits := limits x; sent := s; replied := r;
     cursor := cursor x; answers := l; refusals := refusals x |}.
Definition start (t : task) (x : Instance) : Instance :=
  set_tasks (sent x ++ [t]) (replied x) (answers x) x.
Definition refuse (c : nat) (e : refusal) (x : Instance) : Instance :=
  set_limits (limits x) (refusals x ++ [(c, e)]) x.

Definition instance0 : Instance :=
  {| hub := hub0; membersByConnId := []; connById := []; authorizers := []; peerPresenceMirror := [];
     limits := []; sent := []; replied := []; cursor := 0; answers := []; refusals := [] |}.

(** First-seen order, each once. *)
Definition union (a b : list string) : list string := foldl (λ out id, set_add id out) [] (a ++ b).

(** ** The facade *)

(** What the connection knows of its peers. *)
Definition peerPresence (ch : string) (x : Instance) : list string :=
  default [] (jm_get ch (peerPresenceMirror x)).
Definition applyRemotePresence (d : delta) (mirror : list (string * list string)) :
    list (string * list string) :=
  let '(ch, m, joined) := d in
  if joined then jm_set ch (set_add m (default [] (jm_get ch mirror))) mirror
  else match jm_get ch mirror with
       | None => mirror
       | Some present =>
           let present := set_delete m present in
           if decide (present = []) then jm_delete ch mirror else jm_set ch present mirror
       end.

Definition publishPresence (ch m : string) (joined : bool) (x : Instance) : Instance :=
  start (if joined then JoinTask ch m AddMember else LeaveTask ch m RemoveMember) x.

Definition room (name : string) : result room_error string :=
  if decide (name = EmptyString) then Throw EmptyRoomName else Ok name.
Definition secure (name : string) (x : Instance) : result room_error Instance :=
  room name ≫= λ name, Ok (set_secured (set_add name (authorizers x)) x).
Definition registerConn (c : nat) (x : Instance) : Instance :=
  set_conns (membersByConnId x) (set_add c (connById x)) x.

(** [answer] is what the rule of the channel says, where it has one. *)
Definition join (ch m : string) (c : nat) (answer : bool) (x : Instance) :
    result room_error unit * Instance :=
  let x := registerConn c x in
  if bool_decide (ch ∈ authorizers x) && negb answer then (Throw Denied, refuse c (Unauthorized ch) x)
  else match Channels.join ch m c (hub x) with
       | Throw e => (Throw (HubError e), x)
       | Ok (h, newlyPresent) =>
           (Ok tt, if newlyPresent then publishPresence ch m true (set_hub h x) else set_hub h x)
       end.
Definition leave (ch m : string) (c : nat) (x : Instance) : Instance :=
  let r := Channels.leave ch m c (hub x) in
  if r.2 then publishPresence ch m false (set_hub r.1 x) else set_hub r.1 x.

Section facade.
Context (opts : StoreOptions) (enabled : bool) (connQuota chanQuota : ResolvedQuota).
Context (connName : nat → string).

(** The sender is the connection that the broadcast excludes. *)
Definition may_broadcast (ch : string) (exceptConnId : option nat) (answer : bool) (x : Instance) : bool :=
  if decide (ch ∈ authorizers x)
  then match exceptConnId ≫= λ c, jm_get c (membersByConnId x) with Some _ => answer | None => false end
  else true.
Definition broadcast (ch type payload : string) (exceptConnId : option nat) (exceptMemberId : string)
    (answer : bool) (now : Q) (x : Instance) : Instance :=
  if may_broadcast ch exceptConnId answer x then
    match consume opts enabled connQuota chanQuota connName exceptConnId ch now (limits x) with
    | (Some exceeded, store) =>
        match exceptConnId with
        | Some c => if decide (c ∈ connById x) then refuse c (RateLimited ch exceeded) (set_limits store (refusals x) x)
                    else set_limits store (refusals x) x
        | None => set_limits store (refusals x) x
        end
    | (None, store) =>
        let x := set_limits store (refusals x) x in
        start (BroadcastTask ch type payload exceptConnId exceptMemberId)
          (set_hub (publish ch type payload exceptConnId exceptMemberId (hub x)) x)
    end
  else x.
End facade.

(** [presence] up to its call of the adapter. *)
Definition presence (ch : string) (x : Instance) : Instance :=
  start (QueryTask ch (union (Channels.presence ch (hub x)) (peerPresence ch x)) ListInstances) x.

(** The channels in which the member of a closing connection is no longer present. *)
Definition absences (m : string) (before after : Hub) : list string :=
  filter (λ ch, isPresent ch m after = false) (filter (λ ch, isPresent ch m before = true) (channelNames before)).
Definition handleClose (c : nat) (x : Instance) : Instance :=
  let h := disconnect (on_close (length (bound (hub x)))) c (hub x) in
  let x' := set_hub h x in
  let x' := match jm_get c (membersByConnId x) with
            | Some m => foldl (λ x ch, publishPresence ch m false x) x' (absences m (hub x) h)
            | None => x'
            end in
  set_conns (jm_delete c (membersByConnId x')) (set_delete c (connById x')) x'.
(** A socket closes once, and calls the handler that [bind] has registered. *)
Definition closes (c : nat) (x : Instance) : Instance :=
  if decide (c ∈ closed (hub x)) then x
  else
    let x := set_hub (set_sockets (closed (hub x) ++ [c]) (broken (hub x)) (bound (hub x)) (hub x)) x in
    if decide (c ∈ bound (hub x)) then handleClose c x else x.
(** A handler that is registered on a closed socket is called at once. *)
Definition bind (c : nat) (member : option string) (x : Instance) : Instance :=
  let ms := match member with
            | Some m => jm_set c m (membersByConnId x)
            | None => jm_delete c (membersByConnId x)
            end in
  let x := set_conns ms (set_add c (connById x)) x in
  if decide (c ∈ closed (hub x)) then handleClose c x
  else set_hub (set_sockets (closed (hub x)) (broken (hub x)) (set_add c (bound (hub x))) (hub x)) x.

(** ** The hub of an instance *)

(** No socket closes while it is written to. *)
Definition keeps (h h' : Hub) : Prop := broken h' = [] ∧ closed h' = closed h.
Lemma foldl_keeps {A} (f : Hub → A → Hub) l : (∀ h x, broken h = [] → keeps h (f h x)) → ∀ h,
  broken h = [] → keeps h (foldl f h l).
Proof.
  intros Hf. induction l as [|x l IH]; intros h Hb; [done|]. destruct (Hf h x Hb) as [H1 H2]. cbn.
  destruct (IH _ H1) as [H3 H4]. split; [done|by rewrite H4].
Qed.
Lemma send_keeps onc e c h : broken h = [] → keeps h (send onc e c h).
Proof.
  intros Hb. unfold send. rewrite Hb. case_decide; [done|].
  rewrite (decide_False (P := c ∈ [])) by apply not_elem_of_nil. done.
Qed.
Lemma hub_broadcast_keeps onc ch e ec ecs h : broken h = [] → keeps h (Channels.broadcast onc ch e ec ecs h).
Proof. apply foldl_keeps. intros h' x Hb. repeat case_decide; by try apply send_keeps. Qed.
Lemma removeConn_keeps onc ch m c h : broken h = [] → keeps h (removeConnFromChannel onc ch m c h).1.
Proof.
  intros Hb. unfold removeConnFromChannel. case_decide.
  - destruct (unlink_spec ch m c h) as (_ & _ & _ & Ub & Uc). destruct (unlink ch m c h) as [h1 b].
    cbn [fst snd] in *. rewrite Hb in Ub. set (h2 := if b then _ else h1).
    assert (keeps h1 h2) as [K1 K2] by (unfold h2; destruct b; [by apply hub_broadcast_keeps|done]).
    unfold drop_empty, keeps. case_decide; cbn; rewrite K2; done.
  - cbn [fst]. destruct (forget_same c ch h) as (_ & _ & F1 & F2 & _). split; cbn; [by rewrite F1|done].
Qed.
Lemma disconnect_keeps onc c h : broken h = [] → keeps h (disconnect onc c h).
Proof.
  intros Hb. unfold disconnect. destruct (jm_get c (connChannels h)) as [chans|]; [|done].
  apply (foldl_keeps (λ h ch, disconnect_channel onc c ch h)); [|done].
  intros h' ch Hb'. apply foldl_keeps; [|done]. intros h2 m Hb2. case_decide; [by apply removeConn_keeps|done].
Qed.
Lemma leave_keeps ch m c h : broken h = [] → keeps h (Channels.leave ch m c h).1.
Proof. intros. unfold Channels.leave. destruct (jm_get ch (channels h)); [by apply removeConn_keeps|done]. Qed.
Lemma publish_keeps ch t p ec em h : broken h = [] → keeps h (publish ch t p ec em h).
Proof. intros. unfold publish. destruct (jm_get ch (channels h)); [by apply hub_broadcast_keeps|done]. Qed.
Lemma typing_keeps ttl ch m b conn h : broken h = [] → keeps h (hub_step ttl h (SetTyping ch m b conn)).
Proof.
  intros Hb. cbn. unfold setTyping. destruct (requireName ch "channel"); [|done]. cbn.
  destruct (requireName m "memberId"); [|done]. cbn.
  assert (∀ t, broken (clearTimeout t h) = [] ∧ closed (clearTimeout t h) = closed h) as Hc by by intros [].
  edestruct hub_broadcast_keeps as [K1 K2]; [|split; [exact K1|rewrite K2]].
  - destruct b, ttl; cbn; by rewrite (proj1 (Hc _)).
  - destruct b, ttl; cbn; by rewrite (proj2 (Hc _)).
Qed.

(** What happens to who is where, when no socket closes. *)
Record hub_moves (R : string → string → nat → Prop) (h h' : Hub) : Prop := {
  moves_wf : wf h';
  moves_broken : broken h' = [];
  moves_closed : closed h' = closed h;
  moves_bound : bound h' = bound h;
  moves_rel ch m c : rel h' ch m c ↔ R ch m c
}.
Lemma after_moves P h h' : after P h h' → keeps h h' → hub_moves (λ ch m c, rel h ch m c ∧ ¬ P ch m c) h h'.
Proof. intros [H1 H2 H3 H4 H5] [H6 H7]. split; auto. intros ch m c. rewrite H5, H7. tauto. Qed.
Lemma moves_none h h' : after none h h' → keeps h h' → hub_moves (rel h) h h'.
Proof.
  intros Ha Hk. destruct (after_moves none h h' Ha Hk) as [A B C D E]. split; auto.
  intros ch m c. rewrite E. unfold none. tauto.
Qed.

Lemma isPresent_spec ch m h : isPresent ch m h = true ↔ ∃ c, rel h ch m c.
Proof.
  unfold isPresent, rel. rewrite negb_true_iff, bool_decide_eq_false.
  destruct (members_of ch m h) as [|c l]; [|split; [exists c; by left|done]].
  split; [done|]. by intros [c ?%elem_of_nil].
Qed.

Lemma hub_join_spec ch m c h :
  wf h → broken h = [] → c ∈ bound h → (∀ m', rel h ch m' c → m' = m) →
  match Channels.join ch m c h with
  | Throw _ => True
  | Ok (h', new) => new = negb (isPresent ch m h) ∧
      hub_moves (λ ch' m' d, rel h ch' m' d ∨ (ch' = ch ∧ m' = m ∧ d = c)) h h'
  end.
Proof.
  intros Hw Hb Hc Hone. unfold Channels.join.
  destruct (requireName ch "channel") as [ch'|] eqn:E1; [|done]. unfold requireName in E1. case_decide; simplify_eq.
  cbn. destruct (requireName m "memberId") as [m'|] eqn:E2; [|done]. unfold requireName in E2. case_decide; simplify_eq.
  cbn. split; [unfold isPresent; by rewrite negb_involutive|].
  destruct (link_ok ch' m' c h Hw Hc Hone) as (Hw1 & Hcl & Hbd & Hrel).
  assert (broken (link ch' m' c h) = []) as Hb1 by done.
  assert (hub_moves (rel (link ch' m' c h)) (link ch' m' c h)
    (if bool_decide (members_of ch' m' h = [])
     then Channels.broadcast (on_close (length (bound (link ch' m' c h)))) ch' (PresenceJoin ch' m') (Some c) [] (link ch' m' c h)
     else link ch' m' c h)) as [M1 M2 M3 M4 M5].
  { case_match; [|by split]. apply moves_none; [by apply broadcast_after|by apply hub_broadcast_keeps]. }
  split; [exact M1|exact M2|etrans; [exact M3|exact Hcl]|etrans; [exact M4|exact Hbd]|]. intros ch2 m2 c2. etrans; [apply M5|apply Hrel].
Qed.

Lemma isPresent_same ch m h h' : (∀ c, rel h' ch m c ↔ rel h ch m c) → isPresent ch m h' = isPresent ch m h.
Proof. intros H. apply eq_true_iff_eq. rewrite !isPresent_spec. by setoid_rewrite H. Qed.

Lemma hub_leave_spec ch m c h :
  wf h → broken h = [] → (∀ m', rel h ch m' c → m' = m) →
  let r := Channels.leave ch m c h in
  hub_moves (λ ch' m' d, rel h ch' m' d ∧ ¬ (ch' = ch ∧ m' = m ∧ d = c)) h r.1 ∧
  r.2 = isPresent ch m h && negb (isPresent ch m r.1).
Proof.
  intros Hw Hb Hone r.
  assert (hub_moves (λ ch' m' d, rel h ch' m' d ∧ ¬ (ch' = ch ∧ m' = m ∧ d = c)) h r.1) as Hm
    by (apply after_moves; [by apply leave_after|by apply leave_keeps]).
  split; [done|]. pose proof (moves_rel _ _ _ Hm ch m) as Hrel.
  assert (r.2 = bool_decide (rel h ch m c) && bool_decide (set_delete c (members_of ch m h) = [])) as ->.
  { unfold r, Channels.leave, rel. destruct (jm_get ch (channels h)) as [st|] eqn:E.
    - unfold removeConnFromChannel. case_decide as Hr; [|by rewrite bool_decide_false].
      rewrite bool_decide_true by done. unfold unlink. done.
    - rewrite bool_decide_false; [done|]. unfold members_of, state_of. rewrite E. by intros ?%elem_of_nil. }
  destruct (decide (rel h ch m c)) as [Hr|Hr].
  - rewrite (bool_decide_true (rel h ch m c)) by done.
    rewrite (proj2 (isPresent_spec ch m h)) by by exists c. cbn.
    rewrite <-(negb_involutive (bool_decide _)). f_equal. apply eq_true_iff_eq.
    rewrite negb_true_iff, bool_decide_eq_false, isPresent_spec. setoid_rewrite Hrel. split.
    + destruct (set_delete c (members_of ch m h)) as [|d l] eqn:E; [done|]. intros _. exists d.
      assert (d ∈ set_delete c (members_of ch m h)) as Hd by (rewrite E; by left).
      apply elem_of_set_delete in Hd. unfold rel. naive_solver.
    + intros (d & Hd & Hn) E. assert (d ∈ set_delete c (members_of ch m h)) as Hin
        by (apply elem_of_set_delete; unfold rel in Hd; naive_solver).
      rewrite E in Hin. by apply elem_of_nil in Hin.
  - rewrite bool_decide_false by done. cbn. rewrite (isPresent_same ch m h r.1); [by destruct (isPresent ch m h)|].
    intros d. rewrite Hrel. naive_solver.
Qed.

(** A connection that closes: whoever it was is absent where it was the last one. *)
Lemma absences_spec m c h h' :
  wf h → hub_moves (λ ch n d, rel h ch n d ∧ d ≠ c) h h' → (∀ ch n, rel h ch n c → n = m) →
  NoDup (absences m h h') ∧
  ∀ ch n, isPresent ch n h' = (if decide (n = m ∧ ch ∈ absences m h h') then false else isPresent ch n h).
Proof.
  intros Hw Hm Hone. split.
  { unfold absences, channelNames. apply NoDup_filter, NoDup_filter, (wf_channels h Hw). }
  intros ch n. pose proof (moves_rel _ _ _ Hm ch n) as Hrel.
  assert (ch ∈ absences m h h' ↔ isPresent ch m h' = false ∧ isPresent ch m h = true) as Ha.
  { unfold absences. rewrite !list_elem_of_filter. split; [tauto|]. intros [H1 H2].
    split; [done|]. split; [done|]. unfold channelNames. apply jm_get_in_keys.
    apply isPresent_spec in H2 as [d Hd]. unfold rel, members_of, state_of in Hd.
    destruct (jm_get ch (channels h)); [by eexists|by apply elem_of_nil in Hd]. }
  case_decide as H; [by destruct H as [-> [? _]%Ha]|].
  destruct (isPresent ch n h') eqn:E'; destruct (isPresent ch n h) eqn:E; try done; exfalso.
  - apply isPresent_spec in E' as [d Hd]. apply Hrel in Hd as [Hd _].
    assert (isPresent ch n h = true) by (apply isPresent_spec; by exists d). congruence.
  - apply H. assert (n = m) as ->; [|split; [done|by apply Ha]].
    apply isPresent_spec in E as [d Hd]. destruct (decide (d = c)) as [->|Hne]; [by apply (Hone ch)|].
    assert (isPresent ch n h' = true) by (apply isPresent_spec; exists d; by apply Hrel). congruence.
Qed.

(** ** The adapter *)

Section adapter.
Context {R : Type} {server : RedisSets R}.
Context (keyPrefix : string) (instanceId : nat → string) (presenceTtl : bool).

Definition presenceKey (ch id : string) : string := (keyPrefix +:+ "presence:" +:+ ch +:+ ":" +:+ id)%string.
Definition presenceIndexKey (ch : string) : string := (keyPrefix +:+ "presence-index:" +:+ ch)%string.

(** The loop of [remotePresence] goes to the next instance that is not this one. *)
Fixpoint next_peer (me : string) (todo found : list string) : query_stage :=
  match todo with
  | [] => Found found
  | id :: todo => if decide (id = me) then next_peer me todo found else ListMembers id todo found
  end.

(** The server executes the command of a task: what the task goes on with, the sets, and
    what is published. *)
Definition exec (i : nat) (t : task) (r : R) : option task * R * list ClusterEnvelope :=
  let me := instanceId i in
  match t with
  | JoinTask ch m AddMember => (Some (JoinTask ch m AddInstance), sadd (presenceKey ch me) m r, [])
  | JoinTask ch m AddInstance =>
      (Some (JoinTask ch m (if presenceTtl then RefreshJoin else AnnounceJoin)),
       sadd (presenceIndexKey ch) me r, [])
  | JoinTask ch m RefreshJoin => (Some (JoinTask ch m AnnounceJoin), r, [])
  | JoinTask ch m AnnounceJoin => (None, r, [{| origin := i; body := PresenceOf (ch, m, true) |}])
  | LeaveTask ch m RemoveMember => (Some (LeaveTask ch m CountMembers), srem (presenceKey ch me) m r, [])
  | LeaveTask ch m CountMembers =>
      (Some (LeaveTask ch m (if decide (scard (presenceKey ch me) r = 0) then RemoveInstance
                             else if presenceTtl then RefreshLeave else AnnounceLeave)), r, [])
  | LeaveTask ch m RemoveInstance =>
      (Some (LeaveTask ch m (if presenceTtl then RefreshLeave else AnnounceLeave)),
       srem (presenceIndexKey ch) me r, [])
  | LeaveTask ch m RefreshLeave => (Some (LeaveTask ch m AnnounceLeave), r, [])
  | LeaveTask ch m AnnounceLeave => (None, r, [{| origin := i; body := PresenceOf (ch, m, false) |}])
  | BroadcastTask ch type payload ec em =>
      (None, r, [{| origin := i; body := BroadcastOf ch type payload ec em |}])
  | QueryTask ch here ListInstances =>
      (Some (QueryTask ch here (next_peer me (elements (smembers (presenceIndexKey ch) r)) [])), r, [])
  | QueryTask ch here (ListMembers id todo found) =>
      let peerMembers := elements (smembers (presenceKey ch id) r) in
      (Some (QueryTask ch here (if decide (peerMembers = []) then PruneInstance id todo found
                                else next_peer me todo (foldl (λ f m, set_add m f) found peerMembers))), r, [])
  | QueryTask ch here (PruneInstance id todo found) =>
      (Some (QueryTask ch here (next_peer me todo found)), srem (presenceIndexKey ch) id r, [])
  | QueryTask ch here (Found found) => (None, r, [])
  end.

(** The answer of a command arrives: the task sends its next one, or [presence] returns. *)
Definition reply (x : Instance) : Instance :=
  match replied x with
  | [] => x
  | QueryTask ch here (Found found) :: rest =>
      set_tasks (sent x) rest (answers x ++ [(ch, union here found)]) x
  | t :: rest => set_tasks (sent x ++ [t]) rest (answers x) x
  end.

Definition onMessage (i : nat) (e : ClusterEnvelope) (x : Instance) : Instance :=
  if decide (origin e = i) then x
  else match body e with
       | BroadcastOf ch type payload ec em => set_hub (publish ch type payload ec em (hub x)) x
       | PresenceOf d => set_mirror (applyRemotePresence d (peerPresenceMirror x)) (cursor x) x
       end.

(** ** The cluster *)

Record Cluster : Type := { redis : R; topic : list ClusterEnvelope; instances : list Instance }.
Definition cluster0 (n : nat) : Cluster :=
  {| redis := redis0; topic := []; instances := replicate n instance0 |}.

Definition on (i : nat) (f : Instance → Instance) (w : Cluster) : Cluster :=
  {| redis := redis w; topic := topic w; instances := alter f i (instances w) |}.

Definition runs (i : nat) (w : Cluster) : Cluster :=
  match instances w !! i with
  | Some x =>
      match sent x with
      | [] => w
      | t :: rest =>
          let '(t', r, published) := exec i t (redis w) in
          {| redis := r; topic := topic w ++ published;
             instances := <[i := set_tasks rest (replied x ++ option_list t') (answers x) x]> (instances w) |}
      end
  | None => w
  end.
Definition receives (i : nat) (w : Cluster) : Cluster :=
  match instances w !! i with
  | Some x =>
      match topic w !! cursor x with
      | Some e => on i (λ x, onMessage i e (set_mirror (peerPresenceMirror x) (S (cursor x)) x)) w
      | None => w
      end
  | None => w
  end.

Context (opts : StoreOptions) (enabled : bool) (connQuota chanQuota : ResolvedQuota).
Context (connName : nat → string) (typingTtl : bool).

Inductive event : Type :=
| Binds (i c : nat) (member : option string)
| Secures (i : nat) (ch : string)
| Joins (i : nat) (ch m : string) (c : nat) (answer : bool)
| Leaves (i : nat) (ch m : string) (c : nat)
| Types (i : nat) (ch m : string) (b : bool) (conn : option nat)
| Broadcasts (i : nat) (ch type payload : string) (ec : option nat) (em : string) (answer : bool) (now : Q)
| Asks (i : nat) (ch : string)                   (* [presence] *)
| Closes (i c : nat)
| Runs (i : nat)                                 (* the server executes a command *)
| Replies (i : nat)                              (* an answer arrives *)
| Receives (i : nat).                            (* the next envelope arrives *)

Definition step (w : Cluster) (e : event) : Cluster :=
  match e with
  | Binds i c member => on i (bind c member) w
  | Secures i ch => on i (λ x, match secure ch x with Ok x => x | Throw _ => x end) w
  | Joins i ch m c answer => on i (λ x, (join ch m c answer x).2) w
  | Leaves i ch m c => on i (leave ch m c) w
  | Types i ch m b conn => on i (λ x, set_hub (hub_step typingTtl (hub x) (SetTyping ch m b conn)) x) w
  | Broadcasts i ch type payload ec em answer now =>
      on i (broadcast opts enabled connQuota chanQuota connName ch type payload ec em answer now) w
  | Asks i ch => on i (presence ch) w
  | Closes i c => on i (closes c) w
  | Runs i => runs i w
  | Replies i => on i reply w
  | Receives i => receives i w
  end.
Definition run (w : Cluster) (es : list event) : Cluster := foldl step w es.

(** ** What the tasks of an instance still do

    The commands that are on their way are executed before those whose tasks wait for an
    answer, each time in order: [sent ++ replied] is the order in which the next commands of
    the tasks are executed, and a new task comes between. *)

(** Members that come and go. *)
Definition changes (l : list task) : list delta :=
  omap (λ t, match t with
             | JoinTask ch m AddMember => Some (ch, m, true)
             | LeaveTask ch m RemoveMember => Some (ch, m, false)
             | _ => None
             end) l.
(** This instance in the index of a channel. *)
Definition index_ops (ch : string) (l : list task) : list bool :=
  omap (λ t, match t with
             | JoinTask ch' _ AddInstance => if decide (ch' = ch) then Some true else None
             | LeaveTask ch' _ RemoveInstance => if decide (ch' = ch) then Some false else None
             | _ => None
             end) l.
(** The commands that are left after the member has been added or removed. *)
Definition remaining (t : task) : option (nat * delta) :=
  match t with
  | JoinTask ch m AddInstance => Some (if presenceTtl then 3 else 2, (ch, m, true))
  | JoinTask ch m RefreshJoin => Some (2, (ch, m, true))
  | JoinTask ch m AnnounceJoin => Some (1, (ch, m, true))
  | LeaveTask ch m CountMembers | LeaveTask ch m RemoveInstance =>
      Some (if presenceTtl then 3 else 2, (ch, m, false))
  | LeaveTask ch m RefreshLeave => Some (2, (ch, m, false))
  | LeaveTask ch m AnnounceLeave => Some (1, (ch, m, false))
  | _ => None
  end.
Definition lap_of (n : nat) (t : task) : list delta :=
  match remaining t with Some (k, d) => if k =? n then [d] else [] | None => [] end.
Definition lap (n : nat) (l : list task) : list delta := l ≫= lap_of n.
(** What will be announced, in this order unless a count finds a set empty. *)
Definition announcements (l : list task) : list delta := lap 1 l ++ lap 2 l ++ lap 3 l.

Definition final (x : string * string) (b : bool) (l : list delta) : bool :=
  foldl (λ b d, if decide (d.1 = x) then d.2 else b) b l.
Definition latest (b : bool) (l : list bool) : bool := foldl (λ _ b, b) b l.

Definition announced (i : nat) (log : list ClusterEnvelope) : list delta :=
  omap (λ e, if decide (origin e = i) then match body e with PresenceOf d => Some d | _ => None end
             else None) log.

Lemma final_app x b l1 l2 : final x b (l1 ++ l2) = final x (final x b l1) l2.
Proof. apply foldl_app. Qed.
Lemma changes_app l1 l2 : changes (l1 ++ l2) = changes l1 ++ changes l2.
Proof. apply omap_app. Qed.
Lemma index_ops_app ch l1 l2 : index_ops ch (l1 ++ l2) = index_ops ch l1 ++ index_ops ch l2.
Proof. apply omap_app. Qed.
Lemma lap_app n l1 l2 : lap n (l1 ++ l2) = lap n l1 ++ lap n l2.
Proof. apply bind_app. Qed.
Lemma lap_cons n t l : lap n (t :: l) = lap_of n t ++ lap n l.
Proof. done. Qed.
Lemma lap_single n t : lap n [t] = lap_of n t.
Proof. apply app_nil_r. Qed.
Lemma latest_app b l1 l2 : latest b (l1 ++ l2) = latest (latest b l1) l2.
Proof. apply foldl_app. Qed.
Lemma announced_app i l1 l2 : announced i (l1 ++ l2) = announced i l1 ++ announced i l2.
Proof. apply omap_app. Qed.

(** Where an instance stands: its sets, its place in the indexes, what it has announced, its
    tasks, and who is present in its hub. *)
Record pipeline_ok (S : string → gset string) (X : string → bool) (P : list delta)
    (sent replied : list task) (here : string → string → bool) : Prop := {
  pipe_changes ch m : final (ch, m) (bool_decide (m ∈ S ch)) (changes sent) = here ch m;
  pipe_replied : changes replied = [];
  pipe_nonempty ch : S ch ≠ ∅ → latest (X ch) (index_ops ch (sent ++ replied)) = true;
  pipe_empty ch : S ch = ∅ → latest (X ch) (index_ops ch (sent ++ replied)) = false ∨
    ∃ m, LeaveTask ch m CountMembers ∈ sent ++ replied;
  pipe_announced ch m :
    final (ch, m) false (P ++ announcements (sent ++ replied)) = bool_decide (m ∈ S ch)
}.

(** What a command does to the sets of its own instance. *)
Definition own_sets (t : task) (S : string → gset string) : string → gset string := λ ch,
  match t with
  | JoinTask ch' m AddMember => if decide (ch' = ch) then {[m]} ∪ S ch else S ch
  | LeaveTask ch' m RemoveMember => if decide (ch' = ch) then S ch ∖ {[m]} else S ch
  | _ => S ch
  end.
Definition own_index (t : task) (X : string → bool) : string → bool := λ ch, latest (X ch) (index_ops ch [t]).
Definition own_announced (t : task) : list delta :=
  match t with
  | JoinTask ch m AnnounceJoin => [(ch, m, true)]
  | LeaveTask ch m AnnounceLeave => [(ch, m, false)]
  | _ => []
  end.
Definition goes_on (t : task) (S : string → gset string) : option task :=
  match t with
  | JoinTask ch m AddMember => Some (JoinTask ch m AddInstance)
  | JoinTask ch m AddInstance => Some (JoinTask ch m (if presenceTtl then RefreshJoin else AnnounceJoin))
  | JoinTask ch m RefreshJoin => Some (JoinTask ch m AnnounceJoin)
  | LeaveTask ch m RemoveMember => Some (LeaveTask ch m CountMembers)
  | LeaveTask ch m CountMembers =>
      Some (LeaveTask ch m (if decide (S ch = ∅) then RemoveInstance
                            else if presenceTtl then RefreshLeave else AnnounceLeave))
  | LeaveTask ch m RemoveInstance => Some (LeaveTask ch m (if presenceTtl then RefreshLeave else AnnounceLeave))
  | LeaveTask ch m RefreshLeave => Some (LeaveTask ch m AnnounceLeave)
  | _ => None
  end.

(** A new task comes between the commands on their way and those that wait. *)
Lemma new_task t : remaining t = None → (∀ ch, index_ops ch [t] = []) → ∀ s r,
  (∀ ch, index_ops ch ((s ++ [t]) ++ r) = index_ops ch (s ++ r)) ∧
  announcements ((s ++ [t]) ++ r) = announcements (s ++ r).
Proof.
  intros H1 H2 s r. assert (∀ n, lap n [t] = []) as H3 by (intros n; rewrite lap_single; unfold lap_of; by rewrite H1).
  unfold announcements. rewrite !lap_app, !H3, !app_nil_r. split; [|done].
  intros ch. by rewrite !index_ops_app, H2, app_nil_r.
Qed.

Lemma pipeline_start t S X P s r here here' :
  remaining t = None → (∀ ch, index_ops ch [t] = []) →
  (∀ ch m, here' ch m = final (ch, m) (here ch m) (changes [t])) →
  pipeline_ok S X P s r here → pipeline_ok S X P (s ++ [t]) r here'.
Proof.
  intros H1 H2 Hh [A B C D E]. destruct (new_task t H1 H2 s r) as [Hi Ha].
  split; intros; rewrite ?Hi, ?Ha; auto.
  - by rewrite changes_app, final_app, A, Hh.
  - destruct (D ch H) as [?|[m Hm]]; [by left|right; exists m]. set_solver.
Qed.

(** The answer of a command moves its task to the end of the commands on their way. *)
Lemma pipeline_reply t S X P s r here :
  pipeline_ok S X P s (t :: r) here → pipeline_ok S X P (s ++ [t]) r here.
Proof.
  intros [A B C D E]. change (t :: r) with ([t] ++ r) in *. rewrite (assoc_L (++)) in C, D, E.
  rewrite changes_app in B. apply app_eq_nil in B as [B1 B2].
  split; [|done..]. intros ch m. rewrite changes_app, B1, app_nil_r. apply A.
Qed.

Lemma lap_three l : presenceTtl = false → lap 3 l = [].
Proof.
  intros H. induction l as [|t l IH]; [done|]. rewrite lap_cons, IH. unfold lap_of.
  destruct t as [? ? []|? ? []|?|?]; cbn; rewrite ?H; done.
Qed.

(** A command after which as many are left, less one, changes nothing of what is announced. *)
Lemma announcements_go t t' k d l : remaining t = Some (S (S k), d) → k ≤ 1 → remaining t' = Some (S k, d) →
  announcements (l ++ [t']) = announcements (t :: l).
Proof.
  intros H1 Hk H2. unfold announcements. rewrite !lap_app, !(lap_cons _ t), !lap_single. unfold lap_of.
  rewrite H1, H2. destruct k as [|[|k]]; [| |lia]; cbn [Nat.eqb]; by rewrite ?app_nil_r, <-?app_assoc.
Qed.
Lemma announcements_end t d l : remaining t = Some (1, d) → announcements (t :: l) = d :: announcements l.
Proof. intros H. unfold announcements. rewrite !(lap_cons _ t). unfold lap_of. by rewrite H. Qed.
Lemma announcements_new t d l : remaining t = Some (if presenceTtl then 3 else 2, d) →
  announcements (l ++ [t]) = announcements l ++ [d].
Proof.
  intros H. unfold announcements. rewrite !lap_app, !lap_single. unfold lap_of. rewrite H.
  destruct presenceTtl eqn:E; cbn [Nat.eqb]; rewrite ?app_nil_r, <-?app_assoc; [done|].
  by rewrite lap_three.
Qed.
(** A task that has one more command than expected announces last. *)
Lemma announcements_late t t' d l :
  remaining t = Some (if presenceTtl then 3 else 2, d) → remaining t' = remaining t →
  ∃ a b, announcements (t :: l) = a ++ d :: b ∧ announcements (l ++ [t']) = a ++ b ++ [d].
Proof.
  intros H1 H2. rewrite (announcements_new t' d l) by congruence.
  unfold announcements. rewrite !(lap_cons _ t). unfold lap_of. rewrite H1.
  destruct presenceTtl eqn:E; cbn [Nat.eqb];
    [exists (lap 1 l ++ lap 2 l), (lap 3 l)|exists (lap 1 l), (lap 2 l ++ lap 3 l)]; by rewrite <-?app_assoc.
Qed.

Lemma index_moved t X ch l o :
  latest (own_index t X ch) (index_ops ch (l ++ o)) =
  latest (latest (X ch) (index_ops ch (t :: l))) (index_ops ch o).
Proof.
  change (t :: l) with ([t] ++ l). by rewrite !index_ops_app, !latest_app.
Qed.

(** The order of the announcements, when the head of the commands is executed. *)
Lemma announced_moved t S x P l :
  (∀ m, final (x, m) false (P ++ announcements (t :: l)) = bool_decide (m ∈ S x)) → ∀ m,
  final (x, m) false ((P ++ own_announced t) ++ announcements (l ++ option_list (goes_on t S))) =
  bool_decide (m ∈ own_sets t S x).
Proof.
  intros E m. rewrite <-app_assoc.
  assert (remaining t = None → announcements (t :: l) = announcements l) as Hq.
  { intros H. unfold announcements. rewrite !(lap_cons _ t). unfold lap_of. by rewrite H. }
  destruct t as [ch n []|ch n []|ch ty pl ec em|ch here q]; cbn [own_announced goes_on own_sets app option_list option_rect].
  - rewrite (announcements_new _ (ch, n, true)) by done. rewrite Hq in E by done.
    rewrite app_assoc, final_app. cbn. rewrite E.
    destruct (decide ((ch, n) = (x, m))), (decide (ch = x)); simplify_eq; try done.
    + symmetry. apply bool_decide_true. set_solver.
    + apply bool_decide_ext. set_solver.
  - rewrite <-E. do 2 f_equal. apply (announcements_go _ _ (if presenceTtl then 1 else 0) (ch, n, true));
      cbn; destruct presenceTtl; (done || lia).
  - rewrite <-E. do 2 f_equal. apply (announcements_go _ _ 0 (ch, n, true)); cbn; (done || lia).
  - by rewrite <-E, app_nil_r, (announcements_end _ (ch, n, true)).
  - rewrite (announcements_new _ (ch, n, false)) by done. rewrite Hq in E by done.
    rewrite app_assoc, final_app. cbn. rewrite E.
    destruct (decide ((ch, n) = (x, m))), (decide (ch = x)); simplify_eq; try done.
    + symmetry. apply bool_decide_false. set_solver.
    + apply bool_decide_ext. set_solver.
  - case_decide as Hs.
    + destruct (announcements_late (LeaveTask ch n CountMembers) (LeaveTask ch n RemoveInstance) (ch, n, false) l)
        as (a & b & E1 & E2); [done..|]. rewrite E2. specialize (E m). rewrite E1 in E.
      rewrite !final_app in *. cbn in *. destruct (decide ((ch, n) = (x, m))); [|by rewrite <-E]. simplify_eq.
      symmetry. apply bool_decide_false. rewrite Hs. set_solver.
    + rewrite <-E. do 2 f_equal. apply (announcements_go _ _ (if presenceTtl then 1 else 0) (ch, n, false));
        cbn; destruct presenceTtl; (done || lia).
  - rewrite <-E. do 2 f_equal. apply (announcements_go _ _ (if presenceTtl then 1 else 0) (ch, n, false));
      cbn; destruct presenceTtl; (done || lia).
  - rewrite <-E. do 2 f_equal. apply (announcements_go _ _ 0 (ch, n, false)); cbn; (done || lia).
  - by rewrite <-E, app_nil_r, (announcements_end _ (ch, n, false)).
  - by rewrite <-E, app_nil_r, Hq.
  - by rewrite <-E, app_nil_r, Hq.
Qed.

(** The server executes the head of the commands that are on their way. *)
Lemma pipeline_exec t S X P s r here :
  pipeline_ok S X P (t :: s) r here →
  pipeline_ok (own_sets t S) (own_index t X) (P ++ own_announced t) s (r ++ option_list (goes_on t S)) here.
Proof.
  intros [A B C D E]. cbn [app] in C, D, E. split.
  - intros ch m. rewrite <-A. clear.
    destruct t as [c n []|c n []|c ty pl ec em|c q z]; cbn; try done; f_equal;
      destruct (decide (c = ch)), (decide ((c, n) = (ch, m))); simplify_eq; try done.
    + apply bool_decide_true. set_solver.
    + apply bool_decide_ext. set_solver.
    + apply bool_decide_false. set_solver.
    + apply bool_decide_ext. set_solver.
  - rewrite changes_app, B.
    destruct t as [c n []|c n []|c ty pl ec em|c q z]; cbn; try destruct (decide _); by destruct presenceTtl.
  - intros ch. rewrite app_assoc, index_moved. specialize (C ch).
    generalize dependent (latest (X ch) (index_ops ch (t :: s ++ r))). intros v C.
    destruct t as [c n []|c n []|c ty pl ec em|c q z]; cbn; try destruct (decide (S c = ∅)) as [HS|HS];
      try destruct presenceTtl; cbn; try destruct (decide (c = ch)) as [->|]; cbn; intros; auto with congruence.
    all: apply C; set_solver.
  - intros ch. rewrite app_assoc, index_moved. specialize (D ch). setoid_rewrite elem_of_app.
    setoid_rewrite elem_of_cons in D.
    generalize dependent (latest (X ch) (index_ops ch (t :: s ++ r))). intros v D.
    assert (∀ o, S ch = ∅ → (∀ n, t = LeaveTask ch n CountMembers → False) → index_ops ch o = [] →
      latest v (index_ops ch o) = false ∨ ∃ m, LeaveTask ch m CountMembers ∈ s ++ r ∨ LeaveTask ch m CountMembers ∈ o) as Hd.
    { intros o H Ht ->. destruct (D H) as [->|[m [Hm|Hm]]]; [by left|by destruct (Ht m)|right; exists m; by left]. }
    destruct t as [c n []|c n []|c ty pl ec em|c q z]; cbn -[index_ops elem_of];
      try destruct (decide (S c = ∅)) as [HS|HS]; try destruct presenceTtl;
      try destruct (decide (c = ch)) as [->|]; intros H; cbn in H;
      try (apply Hd; [done|congruence|cbn; by rewrite ?decide_False]).
    all: try (match type of H with _ ∪ _ = ∅ => exfalso; clear -H; set_solver end).
    all: try (right; exists n; right; by left).
    all: left; cbn; by rewrite decide_True.
  - intros ch m. rewrite app_assoc. by apply announced_moved.
Qed.

(** ** The keys of Redis *)

Fixpoint no_colon (s : string) : Prop :=
  match s with EmptyString => True | String c s => c ≠ ":"%char ∧ no_colon s end.
Lemma no_colon_app a b : ¬ no_colon (a +:+ String ":" b).
Proof. induction a as [|x a IH]; cbn; [by intros []|]. intros [_ H]. by apply IH. Qed.
Lemma colon_inj a b i j : no_colon i → no_colon j →
  (a +:+ String ":" i)%string = (b +:+ String ":" j)%string → a = b ∧ i = j.
Proof.
  intros Hi Hj. revert b. induction a as [|x a IH]; intros [|y b] E; cbn in E; simplify_eq; [done| | |].
  - by apply no_colon_app in Hi.
  - by apply no_colon_app in Hj.
  - by destruct (IH b) as [-> ->].
Qed.

Context `{!RedisSetLaws R}.
Context (ids_inj : ∀ i j, instanceId i = instanceId j → i = j) (ids_plain : ∀ i, no_colon (instanceId i)).

Lemma presenceKey_inj ch ch' i j :
  presenceKey ch (instanceId i) = presenceKey ch' (instanceId j) → ch = ch' ∧ i = j.
Proof.
  unfold presenceKey. intros E. apply (inj (String.append keyPrefix)) in E.
  change (("presence:" +:+ (ch +:+ String ":" (instanceId i)))%string =
          ("presence:" +:+ (ch' +:+ String ":" (instanceId j)))%string) in E.
  apply (inj (String.append "presence:")), colon_inj in E as [-> E]; [auto|done..].
Qed.
Lemma presenceIndexKey_inj ch ch' : presenceIndexKey ch = presenceIndexKey ch' → ch = ch'.
Proof.
  unfold presenceIndexKey. intros E. apply (inj (String.append keyPrefix)) in E.
  by apply (inj (String.append "presence-index:")) in E.
Qed.
Lemma keys_apart ch ch' id : presenceKey ch id ≠ presenceIndexKey ch'.
Proof. unfold presenceKey, presenceIndexKey. intros E. by apply (inj (String.append keyPrefix)) in E. Qed.

(** The sets of an instance, and its places in the indexes. *)
Definition sets_of (r : R) (i : nat) (ch : string) : gset string := smembers (presenceKey ch (instanceId i)) r.
Definition indexed (r : R) (i : nat) (ch : string) : bool :=
  bool_decide (instanceId i ∈ smembers (presenceIndexKey ch) r).

Lemma sets_sadd (r : R) i ch m j ch' :
  sets_of (sadd (presenceKey ch (instanceId i)) m r) j ch' =
  if decide (i = j ∧ ch = ch') then {[m]} ∪ sets_of r j ch' else sets_of r j ch'.
Proof.
  unfold sets_of. rewrite smembers_sadd. destruct (decide (i = j ∧ ch = ch')) as [[-> ->]|H]; [by rewrite decide_True|].
  rewrite decide_False; [done|]. intros [-> ->]%presenceKey_inj. by apply H.
Qed.
Lemma sets_srem (r : R) i ch m j ch' :
  sets_of (srem (presenceKey ch (instanceId i)) m r) j ch' =
  if decide (i = j ∧ ch = ch') then sets_of r j ch' ∖ {[m]} else sets_of r j ch'.
Proof.
  unfold sets_of. rewrite smembers_srem. destruct (decide (i = j ∧ ch = ch')) as [[-> ->]|H]; [by rewrite decide_True|].
  rewrite decide_False; [done|]. intros [-> ->]%presenceKey_inj. by apply H.
Qed.
Lemma sets_index_sadd (r : R) ch id j ch' : sets_of (sadd (presenceIndexKey ch) id r) j ch' = sets_of r j ch'.
Proof. unfold sets_of. rewrite smembers_sadd, decide_False; [done|]. intros E. by apply (keys_apart ch' ch (instanceId j)). Qed.
Lemma sets_index_srem (r : R) ch id j ch' : sets_of (srem (presenceIndexKey ch) id r) j ch' = sets_of r j ch'.
Proof. unfold sets_of. rewrite smembers_srem, decide_False; [done|]. intros E. by apply (keys_apart ch' ch (instanceId j)). Qed.
Lemma index_set_sadd (r : R) ch id m ch' :
  smembers (presenceIndexKey ch') (sadd (presenceKey ch id) m r) = smembers (presenceIndexKey ch') r.
Proof. rewrite smembers_sadd, decide_False; [done|]. apply keys_apart. Qed.
Lemma index_set_srem (r : R) ch id m ch' :
  smembers (presenceIndexKey ch') (srem (presenceKey ch id) m r) = smembers (presenceIndexKey ch') r.
Proof. rewrite smembers_srem, decide_False; [done|]. apply keys_apart. Qed.
Lemma index_sadd (r : R) ch id ch' :
  smembers (presenceIndexKey ch') (sadd (presenceIndexKey ch) id r) =
  if decide (ch = ch') then {[id]} ∪ smembers (presenceIndexKey ch') r else smembers (presenceIndexKey ch') r.
Proof.
  rewrite smembers_sadd. destruct (decide (ch = ch')) as [->|H]; [by rewrite decide_True|].
  rewrite decide_False; [done|]. by intros ->%presenceIndexKey_inj.
Qed.
Lemma index_srem (r : R) ch id ch' :
  smembers (presenceIndexKey ch') (srem (presenceIndexKey ch) id r) =
  if decide (ch = ch') then smembers (presenceIndexKey ch') r ∖ {[id]} else smembers (presenceIndexKey ch') r.
Proof.
  rewrite smembers_srem. destruct (decide (ch = ch')) as [->|H]; [by rewrite decide_True|].
  rewrite decide_False; [done|]. by intros ->%presenceIndexKey_inj.
Qed.

(** ** A command and the sets *)

Definition is_query (t : task) : Prop := match t with QueryTask _ _ _ => True | _ => False end.
#[export] Instance is_query_dec t : Decision (is_query t).
Proof. destruct t; apply _. Defined.

Lemma exec_announced i t r :
  announced i (exec i t r).2 = own_announced t ∧ ∀ e, e ∈ (exec i t r).2 → origin e = i.
Proof.
  destruct t as [c n []|c n []|c ty pl ec em|c q []]; cbn; rewrite ?decide_True by done; split; try done;
    intros e He; try by apply elem_of_nil in He.
  all: apply list_elem_of_singleton in He; by subst e.
Qed.

Lemma exec_sets i t r j ch :
  sets_of (exec i t r).1.2 j ch = if decide (i = j) then own_sets t (sets_of r i) ch else sets_of r j ch.
Proof.
  destruct t as [c n []|c n []|c ty pl ec em|c q []]; cbn;
    rewrite ?sets_index_sadd, ?sets_index_srem, ?sets_sadd, ?sets_srem; try (by destruct (decide (i = j)) as [->|]).
  all: destruct (decide (i = j)) as [->|]; [|by rewrite decide_False by tauto].
  all: destruct (decide (c = ch)) as [->|]; [by rewrite decide_True|by rewrite decide_False by tauto].
Qed.

Lemma exec_goes_on i t r : ¬ is_query t → (exec i t r).1.1 = goes_on t (sets_of r i).
Proof.
  destruct t as [c n []|c n []|c ty pl ec em|c q []]; try done. intros _. cbn [exec goes_on fst]. unfold sets_of.
  rewrite scard_size. destruct (decide (smembers (presenceKey c (instanceId i)) r = ∅)) as [->|Hne].
  - by rewrite decide_True.
  - rewrite decide_False; [done|]. by rewrite size_empty_iff, leibniz_equiv_iff.
Qed.
Lemma exec_query i t r : is_query t → (exec i t r).1.1 = None ∨ ∃ t', (exec i t r).1.1 = Some t' ∧ is_query t'.
Proof. destruct t as [| | |c q []]; try done; intros _; cbn; [right; by eexists..|by left]. Qed.

Definition prunes (t : task) (id ch : string) : Prop :=
  match t with QueryTask ch' _ (PruneInstance id' _ _) => ch' = ch ∧ id' = id | _ => False end.
#[export] Instance prunes_dec t id ch : Decision (prunes t id ch).
Proof. destruct t as [| | |c q []]; cbn; apply _. Defined.

Lemma exec_indexed i t r j ch :
  indexed (exec i t r).1.2 j ch =
  if decide (prunes t (instanceId j) ch) then false
  else if decide (i = j) then own_index t (indexed r i) ch else indexed r j ch.
Proof.
  unfold indexed. destruct (decide (prunes t (instanceId j) ch)) as [Hp|Hp].
  { destruct t as [| | |c q []]; try done. destruct Hp as [-> ->]. cbn. rewrite index_srem, decide_True by done.
    apply bool_decide_false. set_solver. }
  destruct t as [c n []|c n []|c ty pl ec em|c q z]; cbn [exec fst snd];
    rewrite ?index_set_sadd, ?index_set_srem, ?index_sadd, ?index_srem; try (by destruct (decide (i = j)) as [->|]).
  - unfold own_index. cbn. destruct (decide (c = ch)) as [->|]; [|by destruct (decide (i = j)) as [->|]].
    destruct (decide (i = j)) as [->|Hij]; cbn; [apply bool_decide_true; set_solver|].
    apply bool_decide_ext. rewrite elem_of_union, elem_of_singleton. split; [|by right].
    intros [E|E]; [by destruct Hij; symmetry; apply ids_inj|done].
  - unfold own_index. cbn. destruct (decide (c = ch)) as [->|]; [|by destruct (decide (i = j)) as [->|]].
    destruct (decide (i = j)) as [->|Hij]; cbn; [apply bool_decide_false; set_solver|].
    apply bool_decide_ext. rewrite elem_of_difference, elem_of_singleton. split; [by intros []|].
    intros H. split; [done|]. intros E. by destruct Hij; symmetry; apply ids_inj.
  - destruct z; cbn [exec fst snd]; rewrite ?index_srem; try (by destruct (decide (i = j)) as [->|]).
    cbn in Hp. destruct (decide (c = ch)) as [->|]; [|by destruct (decide (i = j)) as [->|]].
    assert (bool_decide (instanceId j ∈ smembers (presenceIndexKey ch) r ∖ {[id]}) =
      bool_decide (instanceId j ∈ smembers (presenceIndexKey ch) r)) as ->; [|by destruct (decide (i = j)) as [->|]].
    apply bool_decide_ext. rewrite elem_of_difference, elem_of_singleton. naive_solver.
Qed.
Lemma exec_index_ids i t r ch id :
  id ∈ smembers (presenceIndexKey ch) (exec i t r).1.2 → id ∈ smembers (presenceIndexKey ch) r ∨ id = instanceId i.
Proof.
  destruct t as [c n []|c n []|c ty pl ec em|c q []]; cbn;
    rewrite ?index_set_sadd, ?index_set_srem, ?index_sadd, ?index_srem; try (by left).
  all: case_decide; set_solver.
Qed.

(** ** The invariant of the cluster *)

Lemma latest_false b l : latest b l = false → latest false l = false.
Proof. destruct l; [done|]. done. Qed.

Lemma pipeline_ext S S' X X' P s r here here' :
  (∀ ch, S' ch = S ch) → (∀ ch, X' ch = X ch ∨ (S ch = ∅ ∧ X' ch = false)) →
  (∀ ch m, here' ch m = here ch m) →
  pipeline_ok S X P s r here → pipeline_ok S' X' P s r here'.
Proof.
  intros HS HX Hh [A B C D E]. split.
  - intros ch m. by rewrite HS, Hh.
  - done.
  - intros ch. rewrite HS. intros H. destruct (HX ch) as [->|[H' _]]; [by apply C|done].
  - intros ch. rewrite HS. intros H. destruct (D ch H) as [Hl|Hc]; [left|by right].
    destruct (HX ch) as [->|[_ ->]]; [done|by apply (latest_false (X ch))].
  - intros ch m. by rewrite HS.
Qed.

Lemma query_nothing t : is_query t → remaining t = None ∧ (∀ ch, index_ops ch [t] = []) ∧ changes [t] = [].
Proof. by destruct t. Qed.
Lemma announcements_same t l l' : remaining t = None → announcements (l ++ t :: l') = announcements (l ++ l').
Proof.
  intros H. unfold announcements. rewrite !lap_app, !(lap_cons _ t). unfold lap_of. by rewrite H.
Qed.
(** A query that waits for an answer, and one that is done. *)
Lemma pipeline_query t S X P s r here : is_query t →
  pipeline_ok S X P s (t :: r) here ↔ pipeline_ok S X P s r here.
Proof.
  intros (H1 & H2 & H3)%query_nothing.
  assert (∀ ch, index_ops ch (s ++ t :: r) = index_ops ch (s ++ r)) as Hi.
  { intros ch. change (t :: r) with ([t] ++ r). by rewrite !index_ops_app, H2. }
  assert (changes (t :: r) = changes r) as Hc by (change (t :: r) with ([t] ++ r); by rewrite changes_app, H3).
  assert (∀ ch m, LeaveTask ch m CountMembers ∈ s ++ t :: r ↔ LeaveTask ch m CountMembers ∈ s ++ r) as He.
  { intros ch m. rewrite !elem_of_app, elem_of_cons. split; [|tauto]. intros [?|[<-|?]]; [by left|done|by right]. }
  split; intros [A B C D E].
  - rewrite Hc in B. split; try done.
    + intros ch. rewrite <-Hi. apply C.
    + intros ch. rewrite <-Hi. intros H. destruct (D ch H) as [?|[m Hm]]; [by left|right; exists m; by apply He].
    + intros ch m. rewrite <-(announcements_same t) by done. apply E.
  - split; try done.
    + by rewrite Hc.
    + intros ch. rewrite Hi. apply C.
    + intros ch. rewrite Hi. intros H. destruct (D ch H) as [?|[m Hm]]; [by left|right; exists m; by apply He].
    + intros ch m. rewrite (announcements_same t) by done. apply E.
Qed.
Lemma pipeline_query_end t S X P s r here : is_query t →
  pipeline_ok S X P s r here → pipeline_ok S X P s (r ++ [t]) here.
Proof.
  intros (H1 & H2 & H3)%query_nothing [A B C D E].
  assert (∀ ch, index_ops ch (s ++ r ++ [t]) = index_ops ch (s ++ r)) as Hi.
  { intros ch. by rewrite !index_ops_app, H2, app_nil_r. }
  assert (announcements (s ++ r ++ [t]) = announcements (s ++ r)) as Ha.
  { rewrite app_assoc, announcements_same by done. by rewrite app_nil_r. }
  split; try done.
  - by rewrite changes_app, B, H3.
  - intros ch. rewrite Hi. apply C.
  - intros ch. rewrite Hi. intros H. destruct (D ch H) as [?|[m Hm]]; [by left|right; exists m].
    rewrite app_assoc, elem_of_app. by left.
  - intros ch m. rewrite Ha. apply E.
Qed.

Record instance_ok (r : R) (log : list ClusterEnvelope) (i : nat) (x : Instance) : Prop := {
  inst_wf : wf (hub x);
  inst_broken : broken (hub x) = [];
  inst_identity ch m c : rel (hub x) ch m c → (c ∉ closed (hub x)) → jm_get c (membersByConnId x) = Some m;
  inst_pipeline : pipeline_ok (sets_of r i) (indexed r i) (announced i log) (sent x) (replied x)
    (λ ch m, isPresent ch m (hub x));
  inst_cursor : cursor x ≤ length log;
  inst_mirror_wf : jm_wf (peerPresenceMirror x);
  inst_mirror ch m : m ∈ peerPresence ch x →
    ∃ j, j ≠ i ∧ final (ch, m) false (announced j (take (cursor x) log)) = true
}.
Record cluster_ok (w : Cluster) : Prop := {
  all_ok i x : instances w !! i = Some x → instance_ok (redis w) (topic w) i x;
  origins_ok e : e ∈ topic w → origin e < length (instances w);
  index_ok ch id : id ∈ smembers (presenceIndexKey ch) (redis w) →
    ∃ j, j < length (instances w) ∧ id = instanceId j
}.

Lemma final_none x l : (∀ d, d ∈ l → d.1 ≠ x) → ∀ b, final x b l = b.
Proof.
  induction l as [|d l IH]; intros H b; [done|]. cbn. rewrite decide_False by (apply H; by left).
  apply IH. intros d' Hd. apply H. by right.
Qed.

Lemma pipeline_nothing : pipeline_ok (λ _, ∅) (λ _, false) [] [] [] (λ _ _, false).
Proof.
  split; try done.
  intros ch _. by left.
Qed.

Lemma cluster0_ok n : cluster_ok (cluster0 n).
Proof.
  assert (∀ k x, x ∉ smembers k (redis (cluster0 n))) as He
    by (intros k x; cbn; rewrite smembers_empty; apply not_elem_of_empty).
  split.
  - intros i x [-> _]%lookup_replicate. split; try done.
    + apply hub0_wf.
    + eapply pipeline_ext; [| | |apply pipeline_nothing]; [intros ch; apply smembers_empty| |done].
      intros ch. left. apply bool_decide_false, He.
    + by apply NoDup_nil.
    + intros ch m. unfold peerPresence. cbn. by intros ?%elem_of_nil.
  - intros e H. by apply elem_of_nil in H.
  - by intros ch id ?%He.
Qed.

Lemma on_ok i f w :
  (∀ x, instances w !! i = Some x → instance_ok (redis w) (topic w) i x → instance_ok (redis w) (topic w) i (f x)) →
  cluster_ok w → cluster_ok (on i f w).
Proof.
  intros Hf [A B C]. split; cbn.
  - intros j x. destruct (decide (i = j)) as [->|Hne]; [|rewrite list_lookup_alter_ne by done; apply A].
    rewrite list_lookup_alter_eq. destruct (instances w !! j) as [y|] eqn:E; [|done].
    intros [= <-]. apply Hf; [done|by apply A].
  - rewrite length_alter. apply B.
  - rewrite length_alter. apply C.
Qed.

(** An operation of the instance itself. *)
Lemma moved_ok r log i x x' :
  instance_ok r log i x → wf (hub x') → broken (hub x') = [] →
  (∀ ch m c, rel (hub x') ch m c → (c ∉ closed (hub x')) → jm_get c (membersByConnId x') = Some m) →
  pipeline_ok (sets_of r i) (indexed r i) (announced i log) (sent x') (replied x') (λ ch m, isPresent ch m (hub x')) →
  cursor x' = cursor x → peerPresenceMirror x' = peerPresenceMirror x → instance_ok r log i x'.
Proof.
  intros [A B C D E F G] H1 H2 H3 H4 H5 H6.
  split; [done..|by rewrite H5|by rewrite H6|]. intros ch m. unfold peerPresence. rewrite H5, H6. apply G.
Qed.

(** ** The operations of an instance keep the invariant *)

Lemma here_join ch m c h h' :
  hub_moves (λ ch' m' d, rel h ch' m' d ∨ (ch' = ch ∧ m' = m ∧ d = c)) h h' → ∀ ch' m',
  isPresent ch' m' h' = if decide ((ch, m) = (ch', m')) then true else isPresent ch' m' h.
Proof.
  intros Hm ch' m'. case_decide as E; simplify_eq.
  - apply isPresent_spec. exists c. apply (moves_rel _ _ _ Hm). by right.
  - apply isPresent_same. intros d. rewrite (moves_rel _ _ _ Hm). naive_solver.
Qed.

Lemma join_ok r log i x ch m c answer :
  instance_ok r log i x → c ∈ bound (hub x) → jm_get c (membersByConnId x) = Some m →
  (∀ m', rel (hub x) ch m' c → m' = m) →
  instance_ok r log i (join ch m c answer x).2.
Proof.
  intros Hx Hb Hid Hone. unfold join. case_match; [by destruct Hx|]. cbn [hub registerConn set_conns].
  pose proof (hub_join_spec ch m c (hub x) (inst_wf _ _ _ _ Hx) (inst_broken _ _ _ _ Hx) Hb Hone) as Hj.
  destruct (Channels.join ch m c (hub x)) as [[h new]|e]; [|by destruct Hx].
  destruct Hj as [-> Hm]. cbn [snd]. pose proof (here_join ch m c _ _ Hm) as Hh. destruct Hm as [M1 M2 M3 M4 M5].
  assert (∀ ch' m' d, rel h ch' m' d → (d ∉ closed h) → jm_get d (membersByConnId x) = Some m') as Hids.
  { intros ch' m' d Hr Hc. rewrite M3 in Hc. apply M5 in Hr as [Hr|(-> & -> & ->)]; [|done].
    by apply (inst_identity _ _ _ _ Hx ch'). }
  destruct (isPresent ch m (hub x)) eqn:Ep; cbn [negb]; (apply (moved_ok r log i x); try done).
  - eapply pipeline_ext; [done|by left| |apply (inst_pipeline _ _ _ _ Hx)]. intros ch' m'. cbn. rewrite Hh.
    by destruct (decide ((ch, m) = (ch', m'))) as [[= <- <-]|].
  - eapply (pipeline_start (JoinTask ch m AddMember)); [done..| |apply (inst_pipeline _ _ _ _ Hx)].
    intros ch' m'. cbn. by rewrite Hh.
Qed.

Lemma here_leave ch m c h h' :
  hub_moves (λ ch' m' d, rel h ch' m' d ∧ ¬ (ch' = ch ∧ m' = m ∧ d = c)) h h' → ∀ ch' m',
  (ch, m) ≠ (ch', m') → isPresent ch' m' h' = isPresent ch' m' h.
Proof. intros Hm ch' m' Hne. apply isPresent_same. intros d. rewrite (moves_rel _ _ _ Hm). naive_solver. Qed.

Lemma leave_ok r log i x ch m c :
  instance_ok r log i x → (∀ m', rel (hub x) ch m' c → m' = m) → instance_ok r log i (leave ch m c x).
Proof.
  intros Hx Hone. unfold leave.
  destruct (hub_leave_spec ch m c (hub x) (inst_wf _ _ _ _ Hx) (inst_broken _ _ _ _ Hx) Hone) as [Hm Hr].
  destruct (Channels.leave ch m c (hub x)) as [h b]. cbn [fst snd] in *. subst b.
  pose proof (here_leave ch m c _ _ Hm) as Hh. destruct Hm as [M1 M2 M3 M4 M5].
  assert (∀ ch' m' d, rel h ch' m' d → (d ∉ closed h) → jm_get d (membersByConnId x) = Some m') as Hids.
  { intros ch' m' d [Hr _]%M5. rewrite M3. by apply (inst_identity _ _ _ _ Hx ch'). }
  assert (isPresent ch m h = true → isPresent ch m (hub x) = true) as Hless.
  { intros [d [Hd _]%M5]%isPresent_spec. apply isPresent_spec. by exists d. }
  case_match eqn:E; (apply (moved_ok r log i x); try done).
  - apply andb_true_iff in E as [E1 E2%negb_true_iff].
    eapply (pipeline_start (LeaveTask ch m RemoveMember)); [done..| |apply (inst_pipeline _ _ _ _ Hx)].
    intros ch' m'. cbn. case_decide; simplify_eq; [done|by apply Hh].
  - eapply pipeline_ext; [done|by left| |apply (inst_pipeline _ _ _ _ Hx)]. intros ch' m'. cbn.
    destruct (decide ((ch, m) = (ch', m'))) as [[= <- <-]|]; [|by apply Hh].
    destruct (isPresent ch m h), (isPresent ch m (hub x)); try done. by discriminate Hless.
Qed.

Lemma leaves_tasks m chs : ∀ x,
  let x' := foldl (λ x ch, publishPresence ch m false x) x chs in
  hub x' = hub x ∧ membersByConnId x' = membersByConnId x ∧ replied x' = replied x ∧ cursor x' = cursor x ∧
  peerPresenceMirror x' = peerPresenceMirror x ∧
  sent x' = sent x ++ ((λ ch, LeaveTask ch m RemoveMember) <$> chs).
Proof.
  induction chs as [|ch chs IH]; intros x; cbn; [by rewrite app_nil_r|].
  destruct (IH (publishPresence ch m false x)) as (-> & -> & -> & -> & -> & ->). cbn. by rewrite <-app_assoc.
Qed.
Lemma pipeline_leaves m chs S X P s r : ∀ here here',
  (∀ ch n, here' ch n = if decide (n = m ∧ ch ∈ chs) then false else here ch n) →
  pipeline_ok S X P s r here → pipeline_ok S X P (s ++ ((λ ch, LeaveTask ch m RemoveMember) <$> chs)) r here'.
Proof.
  revert s. induction chs as [|ch chs IH]; intros s here here' Hh Hp.
  - cbn. rewrite app_nil_r. eapply pipeline_ext; [done|by left| |exact Hp]. intros ch n. rewrite Hh.
    rewrite decide_False; [done|]. by intros [_ ?%elem_of_nil].
  - cbn. change (?a :: ?b) with ([a] ++ b). rewrite app_assoc.
    apply (IH _ (λ ch' n, final (ch', n) (here ch' n) [(ch, m, false)])).
    + intros ch' n. rewrite Hh. cbn. assert (ch' ∈ ch :: chs ↔ ch' = ch ∨ ch' ∈ chs) as Hc by apply elem_of_cons.
      destruct (decide ((ch, m) = (ch', n))), (decide (n = m ∧ ch' ∈ chs)), (decide (n = m ∧ ch' ∈ ch :: chs));
        simplify_eq; try done; tauto || naive_solver.
    + by eapply (pipeline_start (LeaveTask ch m RemoveMember)).
Qed.

Lemma closes_ok r log i x c : instance_ok r log i x → instance_ok r log i (closes c x).
Proof.
  intros Hx. unfold closes. case_decide as Hc; [done|].
  set (x1 := set_hub (set_sockets (closed (hub x) ++ [c]) (broken (hub x)) (bound (hub x)) (hub x)) x).
  pose proof (inst_wf _ _ _ _ Hx) as Hw.
  assert (instance_ok r log i x1) as Hx1.
  { apply (moved_ok r log i x); try done; [by apply (wf_same (hub x))|by apply Hx| |by apply Hx].
    intros ch m d Hr Hd. apply (inst_identity _ _ _ _ Hx ch m d Hr). intros ?. apply Hd. cbn. set_solver. }
  assert (∀ ch n, rel (hub x1) ch n c → jm_get c (membersByConnId x) = Some n) as Hid
    by (intros ch n Hr; by apply (inst_identity _ _ _ _ Hx ch)).
  case_decide as Hb; [|done]. unfold handleClose. change (membersByConnId x1) with (membersByConnId x).
  set (h := disconnect _ c (hub x1)).
  assert (hub_moves (λ ch n d, rel (hub x1) ch n d ∧ d ≠ c) (hub x1) h) as Hm.
  { apply after_moves; [|by apply disconnect_keeps, Hx].
    apply (disconnect_ok _ (length (bound (hub x1)))); [apply on_close_ok_fuel|apply Hx1|apply open_bound]. }
  pose proof Hm as [M1 M2 M3 M4 M5].
  assert (∀ ch m d, rel h ch m d → (d ∉ closed h) → jm_get d (jm_delete c (membersByConnId x)) = Some m) as Hids.
  { intros ch m d [Hr Hne]%M5 Hd. rewrite M3 in Hd. rewrite jm_get_delete_ne by done.
    by apply (inst_identity _ _ _ _ Hx1 ch). }
  destruct (jm_get c (membersByConnId x)) as [m|] eqn:Em.
  - destruct (absences_spec m c (hub x1) h (inst_wf _ _ _ _ Hx1)) as [_ Hp]; [done|intros ch n Hr; by apply Hid in Hr as [= ->]|].
    destruct (leaves_tasks m (absences m (hub x1) h) (set_hub h x1)) as (L1 & L2 & L3 & L4 & L5 & L6).
    set (x2 := foldl _ _ _) in *. apply (moved_ok r log i x1); [done| | | | |exact L4|exact L5];
      cbn [hub set_conns membersByConnId sent replied]; rewrite ?L1, ?L2, ?L3, ?L6; try done.
    apply (pipeline_leaves m _ _ _ _ _ _ _ _ Hp), Hx1.
  - apply (moved_ok r log i x1); try done. eapply pipeline_ext; [done|by left| |apply (inst_pipeline _ _ _ _ Hx1)].
    intros ch n. cbn. apply isPresent_same. intros d. rewrite M5. split; [tauto|]. intros Hr. split; [done|].
    intros ->. by apply Hid in Hr.
Qed.

Lemma rt_bind_ok r log i x c member :
  instance_ok r log i x → (c ∉ closed (hub x)) → (∀ ch m, rel (hub x) ch m c → member = Some m) →
  instance_ok r log i (bind c member x).
Proof.
  intros Hx Hc Hm. unfold bind. cbn [hub set_conns]. rewrite decide_False by done.
  apply (moved_ok r log i x); try done; [|by apply Hx| |by apply Hx].
  - apply (wf_same (hub x)); [done..| |by apply Hx]. intros d Hd. by apply elem_of_set_add; right.
  - intros ch m d Hr Hd. cbn in *. destruct (decide (d = c)) as [->|Hne].
    + rewrite (Hm ch m Hr). apply jm_get_set_eq.
    + destruct member; [rewrite jm_get_set_ne by done|rewrite jm_get_delete_ne by done];
        by apply (inst_identity _ _ _ _ Hx ch).
Qed.

Lemma hub_none_ok r log i x h : instance_ok r log i x → hub_moves (rel (hub x)) (hub x) h →
  instance_ok r log i (set_hub h x).
Proof.
  intros Hx [M1 M2 M3 M4 M5]. apply (moved_ok r log i x); try done.
  - intros ch m c Hr%M5 Hc. cbn in *. rewrite M3 in Hc. by apply (inst_identity _ _ _ _ Hx ch).
  - eapply pipeline_ext; [done|by left| |apply (inst_pipeline _ _ _ _ Hx)]. intros ch m. cbn.
    apply isPresent_same. apply M5.
Qed.
Lemma publish_ok r log i x ch ty p ec em : instance_ok r log i x →
  instance_ok r log i (set_hub (publish ch ty p ec em (hub x)) x).
Proof.
  intros Hx. apply hub_none_ok; [done|]. apply moves_none; [apply publish_after, Hx|apply publish_keeps, Hx].
Qed.
Lemma typing_ok r log i x ch m b conn : instance_ok r log i x →
  instance_ok r log i (set_hub (hub_step typingTtl (hub x) (SetTyping ch m b conn)) x).
Proof.
  intros Hx. apply hub_none_ok; [done|]. apply moves_none; [|apply typing_keeps, Hx]. cbn.
  pose proof (setTyping_after typingTtl ch m b conn (hub x) (inst_wf _ _ _ _ Hx)) as H.
  destruct (setTyping typingTtl ch m b conn (hub x)); [done|by apply after_refl, Hx].
Qed.
Lemma rt_start_ok r log i x t : instance_ok r log i x →
  match t with BroadcastTask _ _ _ _ _ | QueryTask _ _ _ => True | _ => False end → instance_ok r log i (start t x).
Proof.
  intros Hx Ht. apply (moved_ok r log i x); try done; [by apply Hx..|].
  eapply pipeline_start; [| | |apply (inst_pipeline _ _ _ _ Hx)]; by destruct t.
Qed.
Lemma limits_ok r log i x s l : instance_ok r log i x → instance_ok r log i (set_limits s l x).
Proof. intros Hx. by destruct Hx. Qed.

Lemma rt_broadcast_ok r log i x ch ty p ec em answer now : instance_ok r log i x →
  instance_ok r log i (broadcast opts enabled connQuota chanQuota connName ch ty p ec em answer now x).
Proof.
  intros Hx. unfold broadcast. case_match; [|done].
  destruct (consume _ _ _ _ _ _ _ _ _) as [[exceeded|] store].
  - destruct ec; [case_decide|]; repeat apply limits_ok; done.
  - apply rt_start_ok; [|done]. apply (publish_ok r log i (set_limits store (refusals x) x)). by apply limits_ok.
Qed.
Lemma reply_ok r log i x : instance_ok r log i x → instance_ok r log i (reply x).
Proof.
  intros Hx. unfold reply. destruct (replied x) as [|t rest] eqn:E; [done|].
  pose proof (inst_pipeline _ _ _ _ Hx) as Hp. rewrite E in Hp.
  assert (instance_ok r log i (set_tasks (sent x ++ [t]) rest (answers x) x)) as Hgo.
  { apply (moved_ok r log i x); try done; [by apply Hx..|]. by apply pipeline_reply. }
  destruct t as [| | |ch here []]; try done.
  apply (moved_ok r log i x); try done; [by apply Hx..|]. cbn. by apply pipeline_query in Hp.
Qed.

(** ** What arrives *)

Lemma peerPresence_apply d x n : jm_wf (peerPresenceMirror x) → ∀ ch m,
  m ∈ peerPresence ch (set_mirror (applyRemotePresence d (peerPresenceMirror x)) n x) ↔
  if decide (d.1 = (ch, m)) then d.2 = true else m ∈ peerPresence ch x.
Proof.
  intros Hw ch m. destruct d as [[ch' m'] b]. unfold peerPresence. cbn.
  destruct (decide (ch = ch')) as [->|Hne].
  - destruct b; [rewrite jm_get_set_eq; cbn; rewrite elem_of_set_add; case_decide; naive_solver|].
    destruct (jm_get ch' (peerPresenceMirror x)) as [l|] eqn:E.
    + assert (m ∈ default [] (jm_get ch' (if decide (set_delete m' l = [])
        then jm_delete ch' (peerPresenceMirror x) else jm_set ch' (set_delete m' l) (peerPresenceMirror x)))
        ↔ m ∈ set_delete m' l) as ->.
      { case_decide as El; [by rewrite jm_get_delete_eq, El|by rewrite jm_get_set_eq]. }
      rewrite elem_of_set_delete. cbn. case_decide; naive_solver.
    + rewrite E. cbn. case_decide; rewrite ?elem_of_nil; naive_solver.
  - assert (jm_get ch (if b then jm_set ch' (set_add m' (default [] (jm_get ch' (peerPresenceMirror x)))) (peerPresenceMirror x)
      else match jm_get ch' (peerPresenceMirror x) with
           | None => peerPresenceMirror x
           | Some present => if decide (set_delete m' present = []) then jm_delete ch' (peerPresenceMirror x)
                             else jm_set ch' (set_delete m' present) (peerPresenceMirror x)
           end) = jm_get ch (peerPresenceMirror x)) as ->.
    { destruct b; [by rewrite jm_get_set_ne|]. destruct (jm_get ch' _); [|done].
      case_decide; [by rewrite jm_get_delete_ne|by rewrite jm_get_set_ne]. }
    case_decide; [congruence|done].
Qed.
Lemma mirror_wf d l : jm_wf l → jm_wf (applyRemotePresence d l).
Proof.
  intros H. destruct d as [[ch m] []]; cbn; [by apply jm_set_wf|].
  destruct (jm_get ch l); [|done]. case_decide; [by apply jm_delete_wf|by apply jm_set_wf].
Qed.

Lemma read_ok r log i x e l :
  instance_ok r log i x → log !! cursor x = Some e → jm_wf l →
  (∀ ch m, m ∈ peerPresence ch (set_mirror l (S (cursor x)) x) →
    ∃ j, j ≠ i ∧ final (ch, m) false (announced j (take (cursor x) log) ++ announced j [e]) = true) →
  instance_ok r log i (set_mirror l (S (cursor x)) x).
Proof.
  intros [A B C D E F G] He Hl Hm. split; try done.
  - apply lookup_lt_Some in He. cbn. lia.
  - intros ch m H. destruct (Hm ch m H) as (j & Hj & Hf). exists j. split; [done|].
    cbn [cursor set_mirror]. by rewrite (take_S_r _ _ e), announced_app.
Qed.

Lemma receive_ok r log i x e :
  instance_ok r log i x → log !! cursor x = Some e →
  instance_ok r log i (onMessage i e (set_mirror (peerPresenceMirror x) (S (cursor x)) x)).
Proof.
  intros Hx He. pose proof (inst_mirror _ _ _ _ Hx) as Hm. pose proof (inst_mirror_wf _ _ _ _ Hx) as Hw.
  assert ((∀ j, j ≠ i → announced j [e] = []) → instance_ok r log i (set_mirror (peerPresenceMirror x) (S (cursor x)) x)) as Hsame.
  { intros Hj. apply (read_ok _ _ _ _ e); try done. intros ch m Hin. destruct (Hm ch m Hin) as (j & Hne & Hf).
    exists j. split; [done|]. by rewrite Hj, app_nil_r. }
  unfold onMessage. case_decide as Hi.
  { apply Hsame. intros j Hj. cbn. by rewrite decide_False by congruence. }
  destruct e as [o [ch ty p ec em|d]] eqn:Ee; cbn [body origin] in *.
  - apply (publish_ok _ _ _ (set_mirror (peerPresenceMirror x) (S (cursor x)) x)). apply Hsame.
    intros j _. cbn. by destruct (decide (o = j)).
  - change (set_mirror _ _ _) with (set_mirror (applyRemotePresence d (peerPresenceMirror x)) (S (cursor x)) x).
    apply (read_ok _ _ _ _ e); [done|by subst e|by apply mirror_wf|]. intros ch m Hin.
    apply peerPresence_apply in Hin; [|done]. case_decide as Hd.
    + exists o. split; [done|]. subst e. cbn. rewrite decide_True by done. rewrite final_app. cbn. by rewrite decide_True.
    + destruct (Hm ch m Hin) as (j & Hne & Hf). exists j. split; [done|]. rewrite final_app, Hf. subst e. cbn.
      destruct (decide (o = j)); [|done]. cbn. by rewrite decide_False.
Qed.

(** A command of an instance, seen by another one. *)
Lemma other_ok w i t j x : 
  cluster_ok w → i ≠ j → instances w !! j = Some x →
  (∀ ch, prunes t (instanceId j) ch → sets_of (redis w) j ch = ∅) →
  instance_ok (exec i t (redis w)).1.2 (topic w ++ (exec i t (redis w)).2) j x.
Proof.
  intros Hw Hij Hx Hprune. destruct (all_ok _ Hw j x Hx) as [A B C D E F G].
  split; try done.
  - rewrite announced_app.
    assert (announced j (exec i t (redis w)).2 = []) as ->.
    { destruct (exec_announced i t (redis w)) as [_ Ho]. unfold announced.
      induction (exec i t (redis w)).2 as [|e l IH]; [done|]. cbn. rewrite decide_False.
      - apply IH. intros e' He. apply Ho. by right.
      - rewrite (Ho e) by by left. done. }
    rewrite app_nil_r. eapply pipeline_ext; [| | |exact D]; [|intros ch|done].
    + intros ch. by rewrite exec_sets, decide_False.
    + rewrite exec_indexed. case_decide as Hp; [right; auto|left]. by rewrite decide_False.
  - rewrite length_app. lia.
  - intros ch m Hin. rewrite take_app_le by done. by apply G.
Qed.

Lemma own_ok w i t x rest :
  cluster_ok w → instances w !! i = Some x → sent x = t :: rest →
  (∀ ch, prunes t (instanceId i) ch → sets_of (redis w) i ch = ∅) →
  instance_ok (exec i t (redis w)).1.2 (topic w ++ (exec i t (redis w)).2) i
    (set_tasks rest (replied x ++ option_list (exec i t (redis w)).1.1) (answers x) x).
Proof.
  intros Hw Hx Hs Hprune. destruct (all_ok _ Hw i x Hx) as [A B C D E F G]. rewrite Hs in D.
  split; cbn; try done.
  - rewrite announced_app, (proj1 (exec_announced i t (redis w))).
    assert (pipeline_ok (sets_of (exec i t (redis w)).1.2 i) (indexed (exec i t (redis w)).1.2 i)
      (announced i (topic w) ++ own_announced t) rest
      (replied x ++ option_list (goes_on t (sets_of (redis w) i))) (λ ch m, isPresent ch m (hub x))) as Hp.
    { eapply pipeline_ext; [| | |by apply pipeline_exec]; [|intros ch|done].
      - intros ch. by rewrite exec_sets, decide_True.
      - rewrite exec_indexed. case_decide as Hp; [right|left; by rewrite decide_True].
        split; [|done]. destruct t; try done. cbn. by apply Hprune. }
    destruct (decide (is_query t)) as [Hq|Hq]; [|by rewrite exec_goes_on].
    assert (goes_on t (sets_of (redis w) i) = None) as Hg by by destruct t. rewrite Hg in Hp. cbn in Hp. rewrite app_nil_r in Hp.
    destruct (exec_query i t (redis w) Hq) as [->|(t' & -> & Ht')]; cbn; [by rewrite app_nil_r|by apply pipeline_query_end].
  - rewrite length_app. lia.
  - intros ch m Hin. rewrite take_app_le by done. by apply G.
Qed.

(** A query prunes an instance only where its set is empty still. *)
Definition prune_fine (i : nat) (w : Cluster) : Prop :=
  ∀ x t rest, instances w !! i = Some x → sent x = t :: rest →
    ∀ j ch, j < length (instances w) → prunes t (instanceId j) ch → sets_of (redis w) j ch = ∅.

Lemma runs_ok i w : cluster_ok w → prune_fine i w → cluster_ok (runs i w).
Proof.
  intros Hw Hf. unfold runs. destruct (instances w !! i) as [x|] eqn:Hx; [|done].
  destruct (sent x) as [|t rest] eqn:Hs; [done|].
  assert (i < length (instances w)) as Hi by by eapply lookup_lt_Some.
  specialize (Hf x t rest Hx Hs).
  pose proof (own_ok w i t x rest Hw Hx Hs (λ ch, Hf i ch Hi)) as Hown.
  assert (∀ j y, i ≠ j → instances w !! j = Some y →
    instance_ok (exec i t (redis w)).1.2 (topic w ++ (exec i t (redis w)).2) j y) as Hother.
  { intros j y Hij Hy. apply other_ok; try done. intros ch. apply Hf. by eapply lookup_lt_Some. }
  pose proof (proj2 (exec_announced i t (redis w))) as Ho. pose proof (exec_index_ids i t (redis w)) as Hids.
  destruct (exec i t (redis w)) as [[t' r] published]. cbn [fst snd] in *. split; cbn.
  - intros j y. destruct (decide (i = j)) as [<-|Hne].
    + rewrite list_lookup_insert_eq by done. by intros [= <-].
    + rewrite list_lookup_insert_ne by done. by apply Hother.
  - rewrite length_insert. intros e [He|He]%elem_of_app; [by apply (origins_ok w Hw)|]. by rewrite Ho.
  - rewrite length_insert. intros ch id [H| ->]%Hids; [by apply (index_ok w Hw) in H|by exists i].
Qed.

(** ** Histories *)

(** How a server uses the facade: a connection is bound before it joins, it joins as the
    member that it is bound to, and leaves as the member that it joined as. *)
Definition fine (w : Cluster) (e : event) : Prop :=
  match e with
  | Binds i c member => ∀ x, instances w !! i = Some x →
      c ∉ closed (hub x) ∧ ∀ ch m, rel (hub x) ch m c → member = Some m
  | Joins i ch m c _ => ∀ x, instances w !! i = Some x →
      c ∈ bound (hub x) ∧ jm_get c (membersByConnId x) = Some m ∧ ∀ m', rel (hub x) ch m' c → m' = m
  | Leaves i ch m c => ∀ x, instances w !! i = Some x → ∀ m', rel (hub x) ch m' c → m' = m
  | Runs i => prune_fine i w
  | _ => True
  end.
Fixpoint all_fine (w : Cluster) (es : list event) : Prop :=
  match es with [] => True | e :: es => fine w e ∧ all_fine (step w e) es end.

Lemma rt_step_ok w e : cluster_ok w → fine w e → cluster_ok (step w e).
Proof.
  intros Hw Hf. destruct e; cbn [step fine] in *; try (apply on_ok; [|done]; intros x Hx Hok).
  - destruct (Hf x Hx). by apply rt_bind_ok.
  - unfold secure, room. case_decide; cbn; [done|]. by destruct Hok.
  - destruct (Hf x Hx) as (H1 & H2 & H3). by apply join_ok.
  - apply leave_ok; [done|by apply Hf].
  - by apply typing_ok.
  - by apply rt_broadcast_ok.
  - by apply rt_start_ok.
  - by apply closes_ok.
  - by apply runs_ok.
  - by apply reply_ok.
  - unfold receives. destruct (instances w !! i) as [x|] eqn:Hx; [|done].
    destruct (topic w !! cursor x) as [e|] eqn:He; [|done].
    apply on_ok; [|done]. intros x' Hx' Hok. rewrite Hx in Hx'. injection Hx' as <-. by apply receive_ok.
Qed.
Lemma rt_run_ok es : ∀ w, cluster_ok w → all_fine w es → cluster_ok (run w es).
Proof.
  induction es as [|e es IH]; intros w Hw; [done|]. intros [H1 H2]. apply IH; [by apply rt_step_ok|done].
Qed.

(** Histories that are fine by computation: nobody is bound again who is in a room, and no
    query prunes. *)
Definition only_as (m ch : string) (c : nat) (h : Hub) : bool :=
  forallb (λ e, bool_decide (c ∈ e.2 → e.1 = m)) (members (state_of ch h)).
Definition fine_check (w : Cluster) (e : event) : bool :=
  let at_instance i P := match instances w !! i with Some x => P x | None => true end in
  match e with
  | Binds i c member => at_instance i (λ x, bool_decide (c ∉ closed (hub x)) && bool_decide (chans_of c (hub x) = []))
  | Joins i ch m c _ => at_instance i (λ x, bool_decide (c ∈ bound (hub x)) &&
      bool_decide (jm_get c (membersByConnId x) = Some m) && only_as m ch c (hub x))
  | Leaves i ch m c => at_instance i (λ x, only_as m ch c (hub x))
  | Runs i => at_instance i (λ x, match sent x with QueryTask _ _ (PruneInstance _ _ _) :: _ => false | _ => true end)
  | _ => true
  end.
Fixpoint all_fine_check (w : Cluster) (es : list event) : bool :=
  match es with [] => true | e :: es => fine_check w e && all_fine_check (step w e) es end.

Lemma only_as_spec m ch c h : only_as m ch c h = true → ∀ m', rel h ch m' c → m' = m.
Proof.
  intros H%Is_true_true. apply forallb_True in H. apply one_member.
  eapply Forall_impl; [exact H|]. intros e He. by apply bool_decide_unpack in He.
Qed.
Lemma fine_check_ok w e : cluster_ok w → fine_check w e = true → fine w e.
Proof.
  intros Hw. destruct e; cbn; try done; intros H.
  - intros x Hx. rewrite Hx in H. apply andb_true_iff in H as [H1%bool_decide_eq_true H2%bool_decide_eq_true].
    split; [done|]. intros ch m Hr. assert (ch ∈ chans_of c (hub x)) as Hin
      by (apply (wf_chans _ (inst_wf _ _ _ _ (all_ok w Hw i x Hx))); by exists m).
    rewrite H2 in Hin. by apply elem_of_nil in Hin.
  - intros x Hx. rewrite Hx in H.
    apply andb_true_iff in H as [[H1%bool_decide_eq_true H2%bool_decide_eq_true]%andb_true_iff H3].
    split_and!; [done|done|by apply only_as_spec].
  - intros x Hx. rewrite Hx in H. by apply only_as_spec.
  - intros x t rest Hx Hs j ch _ Hp. rewrite Hx, Hs in H. by destruct t as [| | |? ? []].
Qed.
Lemma all_fine_check_ok es : ∀ w, cluster_ok w → all_fine_check w es = true → all_fine w es.
Proof.
  induction es as [|e es IH]; intros w Hw; [done|]. cbn. intros [H1 H2]%andb_true_iff.
  pose proof (fine_check_ok w e Hw H1). split; [done|]. apply IH; [by apply rt_step_ok|done].
Qed.

(** Nothing is on its way. *)
Definition quiet (w : Cluster) : Prop :=
  ∀ i x, instances w !! i = Some x → sent x = [] ∧ replied x = [] ∧ cursor x = length (topic w).

Lemma quiet_sets w i x ch : cluster_ok w → quiet w → instances w !! i = Some x →
  (∀ m, m ∈ sets_of (redis w) i ch ↔ ∃ c, rel (hub x) ch m c) ∧
  (indexed (redis w) i ch = true ↔ sets_of (redis w) i ch ≠ ∅) ∧
  (∀ m, final (ch, m) false (announced i (topic w)) = true ↔ ∃ c, rel (hub x) ch m c).
Proof.
  intros Hw Hq Hx. destruct (Hq i x Hx) as (Hs & Hr & _).
  pose proof (inst_pipeline _ _ _ _ (all_ok w Hw i x Hx)) as [A B C D E]. rewrite Hs, Hr in *. cbn in *.
  specialize (C ch). specialize (D ch). 
  assert (∀ m, m ∈ sets_of (redis w) i ch ↔ ∃ c, rel (hub x) ch m c) as Hm.
  { intros m. by rewrite <-isPresent_spec, <-A, bool_decide_eq_true. }
  split; [done|]. split.
  - split; [|apply C]. intros H H'. destruct (D H') as [?|[m ?%elem_of_nil]]; congruence.
  - intros m. specialize (E ch m). rewrite app_nil_r in E. by rewrite E, bool_decide_eq_true, Hm.
Qed.

Lemma foldl_set_add l : ∀ found : list string,
  (∀ m, m ∈ foldl (λ f m, set_add m f) found l ↔ m ∈ found ∨ m ∈ l) ∧
  (NoDup found → NoDup (foldl (λ f m, set_add m f) found l)).
Proof.
  induction l as [|a l IH]; intros found; cbn.
  - split; [|done]. intros m. rewrite elem_of_nil. tauto.
  - destruct (IH (set_add a found)) as [H1 H2]. split.
    + intros m. rewrite H1, elem_of_set_add, elem_of_cons. tauto.
    + intros H. apply H2. by apply NoDup_set_add.
Qed.
Lemma elem_of_union_lists a b m : m ∈ union a b ↔ m ∈ a ∨ m ∈ b.
Proof. unfold union. rewrite (proj1 (foldl_set_add _ _)), elem_of_nil, elem_of_app. tauto. Qed.
Lemma NoDup_union a b : NoDup (union a b).
Proof. apply foldl_set_add. constructor. Qed.

(** A query, once the ids of the instances are there. *)
Definition rounds (i k : nat) : list event := mjoin (replicate k [Runs i; Replies i]).
Lemma query_runs i ch here todo : ∀ found w x,
  instances w !! i = Some x → sent x = [] →
  replied x = [QueryTask ch here (next_peer (instanceId i) todo found)] →
  (∀ id, id ∈ todo → id ≠ instanceId i → smembers (presenceKey ch id) (redis w) ≠ ∅) →
  ∃ k x' found', instances (run w (Replies i :: rounds i k)) !! i = Some x' ∧
    answers x' = answers x ++ [(ch, union here found')] ∧
    ∀ m, m ∈ found' ↔ m ∈ found ∨ ∃ id, id ∈ todo ∧ id ≠ instanceId i ∧ m ∈ smembers (presenceKey ch id) (redis w).
Proof.
  induction todo as [|id todo IH]; intros found w x Hx Hs Hr Hne; cbn [next_peer] in Hr.
  - exists 0, (reply x), found. split; [cbn; by rewrite list_lookup_alter_eq, Hx|]. unfold reply. rewrite Hr. split; [done|].
    intros m. split; [by left|]. intros [?|(id & ?%elem_of_nil & _)]; done.
  - destruct (decide (id = instanceId i)) as [->|Hid].
    { destruct (IH found w x Hx Hs Hr) as (k & x' & f & H1 & H2 & H3); [intros id Hin; apply Hne; by right|].
      exists k, x', f. split; [done|]. split; [done|]. intros m. rewrite H3. setoid_rewrite elem_of_cons. naive_solver. }
    assert (elements (smembers (presenceKey ch id) (redis w)) ≠ []) as Hm.
    { rewrite elements_empty_iff. intros E%leibniz_equiv. apply (Hne id); [by left|done|done]. }
    set (found1 := foldl (λ f m, set_add m f) found (elements (smembers (presenceKey ch id) (redis w)))).
    set (x2 := set_tasks [] [QueryTask ch here (next_peer (instanceId i) todo found1)] (answers x) x).
    assert (run w [Replies i; Runs i] =
      {| redis := redis w; topic := topic w; instances := <[i := x2]> (instances w) |}) as E2.
    { assert (i < length (instances w)) by by eapply lookup_lt_Some.
      cbn. unfold runs, on. cbn [instances redis topic]. rewrite list_lookup_alter_eq, Hx. cbn.
      unfold reply. rewrite Hr. cbn. rewrite Hs. cbn.
      rewrite decide_False by done. cbn. rewrite app_nil_r. f_equal.
      apply list_eq. intros j. destruct (decide (i = j)) as [<-|].
      - by rewrite !list_lookup_insert_eq by (rewrite ?length_alter; done).
      - by rewrite !list_lookup_insert_ne, list_lookup_alter_ne. }
    destruct (IH found1 {| redis := redis w; topic := topic w; instances := <[i := x2]> (instances w) |} x2)
      as (k & x' & f & H1 & H2 & H3); [by apply list_lookup_insert_eq; eapply lookup_lt_Some|done..| |].
    { intros id' Hin. apply Hne. by right. }
    exists (S k), x', f. split; [|split; [done|]].
    + change (instances (run (run w [Replies i; Runs i]) (Replies i :: rounds i k)) !! i = Some x'). by rewrite E2.
    + intros m. rewrite H3. unfold found1. rewrite (proj1 (foldl_set_add _ _)), elem_of_elements.
      setoid_rewrite elem_of_cons. cbn. naive_solver.
Qed.

(** [presence] when no other command is on its way: the members here, and those of the
    instances in the index. *)
Lemma presence_runs w i x ch :
  instances w !! i = Some x → sent x = [] → replied x = [] →
  (∀ id, id ∈ smembers (presenceIndexKey ch) (redis w) → smembers (presenceKey ch id) (redis w) ≠ ∅) →
  ∃ k x' found, instances (run w (Asks i ch :: rounds i k)) !! i = Some x' ∧
    answers x' = answers x ++ [(ch, found)] ∧ NoDup found ∧
    ∀ m, m ∈ found ↔ (m ∈ Channels.presence ch (hub x) ∨ m ∈ peerPresence ch x) ∨
      ∃ id, id ∈ smembers (presenceIndexKey ch) (redis w) ∧ id ≠ instanceId i ∧
            m ∈ smembers (presenceKey ch id) (redis w).
Proof.
  intros Hx Hs Hr Hne. set (here := union (Channels.presence ch (hub x)) (peerPresence ch x)).
  set (ids := elements (smembers (presenceIndexKey ch) (redis w))).
  set (x1 := set_tasks [] [QueryTask ch here (next_peer (instanceId i) ids [])] (answers x) x).
  set (w1 := {| redis := redis w; topic := topic w; instances := <[i := x1]> (instances w) |}).
  assert (i < length (instances w)) as Hi by by eapply lookup_lt_Some.
  assert (run w [Asks i ch; Runs i] = w1) as E1.
  { cbn. unfold runs, on. cbn [instances redis topic]. rewrite list_lookup_alter_eq, Hx. cbn.
    rewrite Hs. cbn. rewrite Hr, app_nil_r. unfold w1. f_equal.
    apply list_eq. intros j. destruct (decide (i = j)) as [<-|].
    - by rewrite !list_lookup_insert_eq by (rewrite ?length_alter; done).
    - by rewrite !list_lookup_insert_ne, list_lookup_alter_ne. }
  destruct (query_runs i ch here ids [] w1 x1) as (k & x' & found & H1 & H2 & H3).
  { by apply list_lookup_insert_eq. } { done. } { done. }
  { intros id Hin%elem_of_elements _. by apply Hne. }
  exists (S k), x', (union here found). split.
  { change (instances (run (run w [Asks i ch; Runs i]) (Replies i :: rounds i k)) !! i = Some x'). by rewrite E1. }
  split; [done|]. split; [apply NoDup_union|]. intros m. unfold here. rewrite !elem_of_union_lists, H3, elem_of_nil.
  unfold ids. setoid_rewrite elem_of_elements. tauto.
Qed.

Lemma announced_origin x j log : final x false (announced j log) = true → ∃ e, e ∈ log ∧ origin e = j.
Proof.
  intros H. assert (announced j log ≠ []) as Hne by (intros E; by rewrite E in H). clear H.
  induction log as [|e log IH]; [done|]. cbn in Hne.
  destruct (decide (origin e = j)) as [E|E]; [exists e; split; [by left|done]|].
  destruct (IH Hne) as (e' & He & Ho). exists e'. split; [by right|done].
Qed.

(** C5: presence in a cluster is the union of its instances.  Over any history of joins,
    leaves, closes, messages and queries at any number of instances, with their commands,
    answers and envelopes interleaved in any way, where open connections join as the member
    that they are bound to and no query prunes an instance in the moment somebody joins
    there ([all_fine]): once nothing is on its way, [presence] at any instance returns the
    members that are present at some instance, each once. *)
Theorem cluster_presence_exact n es i x ch :
  all_fine (cluster0 n) es → let w := run (cluster0 n) es in
  quiet w → instances w !! i = Some x →
  ∃ k x' found, instances (run w (Asks i ch :: rounds i k)) !! i = Some x' ∧
    answers x' = answers x ++ [(ch, found)] ∧ NoDup found ∧
    ∀ m, m ∈ found ↔ ∃ j y c, instances w !! j = Some y ∧ rel (hub y) ch m c.
Proof.
  intros Hf w Hq Hx. assert (cluster_ok w) as Hw by (apply rt_run_ok; [apply cluster0_ok|done]). clearbody w.
  destruct (Hq i x Hx) as (Hs & Hr & Hc).
  assert (∀ id, id ∈ smembers (presenceIndexKey ch) (redis w) →
    ∃ j y, instances w !! j = Some y ∧ id = instanceId j ∧ sets_of (redis w) j ch ≠ ∅) as Hids.
  { intros id Hin. destruct (index_ok w Hw ch id Hin) as (j & Hj & ->).
    apply lookup_lt_is_Some in Hj as [y Hy]. exists j, y. split_and!; [done..|].
    apply (quiet_sets w j y ch Hw Hq Hy). by apply bool_decide_eq_true. }
  destruct (presence_runs w i x ch Hx Hs Hr) as (k & x' & found & H1 & H2 & H3 & H4).
  { intros id (j & y & _ & -> & Hne)%Hids. exact Hne. }
  exists k, x', found. split_and!; [done..|]. intros m. rewrite H4, presence_spec by apply (all_ok w Hw i x Hx). split.
  - intros [[[c Hm]|Hm]|(id & Hin & _ & Hm)]; [by exists i, x, c| |].
    + destruct (inst_mirror _ _ _ _ (all_ok w Hw i x Hx) ch m Hm) as (j & _ & Hfin).
      rewrite Hc, take_ge in Hfin by done. pose proof (announced_origin _ _ _ Hfin) as (e & He & Hj).
      pose proof (origins_ok w Hw e He) as [y Hy]%lookup_lt_is_Some. rewrite Hj in Hy.
      apply (quiet_sets w j y ch Hw Hq Hy) in Hfin as [c Hc']. by exists j, y, c.
    + destruct (Hids id Hin) as (j & y & Hy & -> & _).
      apply (quiet_sets w j y ch Hw Hq Hy) in Hm as [c Hm]. by exists j, y, c.
  - intros (j & y & c & Hy & Hm). destruct (decide (j = i)) as [->|Hne]; [left; left; exists c; congruence|].
    right. destruct (quiet_sets w j y ch Hw Hq Hy) as (Hsets & Hidx & _).
    assert (m ∈ sets_of (redis w) j ch) as Hin by (apply Hsets; by exists c).
    exists (instanceId j). split; [|split; [by intros E%ids_inj|exact Hin]].
    apply (bool_decide_eq_true (instanceId j ∈ _)), Hidx. set_solver.
Qed.

(** ** A message *)

Definition network (e : event) : Prop := match e with Runs _ | Replies _ | Receives _ => True | _ => False end.

Section message.
Context (i : nat) (ch ty p : string) (ec : option nat) (em : string).
Let message : ClusterEnvelope := {| origin := i; body := BroadcastOf ch ty p ec em |}.
Let handled (h : Hub) : Hub := publish ch ty p ec em h.

(** Where an instance is: it has the message still to read, or has read it. *)
Definition carries (b : bool) (n j : nat) (y0 y : Instance) : Prop :=
  replied y = [] ∧ sent y = (if decide (j = i) then if b then [] else [BroadcastTask ch ty p ec em] else []) ∧
  (cursor y = n ∧ hub y = (if decide (j = i) then handled (hub y0) else hub y0) ∨
   b = true ∧ cursor y = S n ∧ hub y = handled (hub y0)).
(** The one message of a cluster that is quiet otherwise: with its instance, or on the topic. *)
Definition carried (b : bool) (w0 w : Cluster) : Prop :=
  topic w = (if b then topic w0 ++ [message] else topic w0) ∧
  ∀ j, option_Forall2 (carries b (length (topic w0)) j) (instances w0 !! j) (instances w !! j).

Lemma carried_on b j f w0 w : carried b w0 w →
  (∀ y0 y, instances w0 !! j = Some y0 → instances w !! j = Some y →
    carries b (length (topic w0)) j y0 y → carries b (length (topic w0)) j y0 (f y)) →
  carried b w0 (on j f w).
Proof.
  intros [Ht Hi] Hf. split; [done|]. intros k. specialize (Hi k). cbn.
  destruct (decide (j = k)) as [->|Hne]; [|by rewrite list_lookup_alter_ne].
  rewrite list_lookup_alter_eq. inversion Hi as [y0 y H E1 E2|]; cbn; [|constructor]. constructor. by apply Hf.
Qed.

Lemma carried_step b w0 w e : network e → carried b w0 w → ∃ b', carried b' w0 (step w e).
Proof.
  intros He Hw. destruct e as [| | | | | | | |j|j|j]; try done; cbn [step].
  - unfold runs. destruct (instances w !! j) as [y|] eqn:Hy; [|by exists b].
    destruct Hw as [Ht Hi]. pose proof (Hi j) as Hj. rewrite Hy in Hj.
    inversion Hj as [y0 y1 (Hr & Hs & Hc) E0 E1|]; subst y1. rewrite Hs.
    destruct (decide (j = i)) as [->|Hne]; [|by exists b]. destruct b; [by exists true|].
    exists true. cbn. split; [cbn; by rewrite Ht|]. intros k. cbn. specialize (Hi k).
    destruct (decide (i = k)) as [<-|Hne].
    + rewrite list_lookup_insert_eq by by eapply lookup_lt_Some. rewrite <-E0. constructor.
      split; [cbn; by rewrite Hr|]. split; [by rewrite decide_True|]. cbn. left.
      destruct Hc as [[? ?]|[? _]]; [|done]. split; [done|]. by rewrite decide_True in * by done.
    + rewrite list_lookup_insert_ne by done. inversion Hi as [z0 z (A & B & C) F0 F1|]; constructor.
      split; [done|]. rewrite decide_False in * by done. split; [done|]. destruct C as [?|[? _]]; [by left|done].
  - exists b. apply carried_on; [done|]. intros y0 y _ _ (Hr & H). unfold reply. by rewrite Hr.
  - unfold receives. destruct (instances w !! j) as [y|] eqn:Hy; [|by exists b].
    destruct (topic w !! cursor y) as [e|] eqn:He'; [|by exists b].
    exists b. pose proof Hw as [Ht _]. apply carried_on; [done|].
    intros y0 y' _ Hy' (Hr & Hs & Hc). rewrite Hy in Hy'. injection Hy' as <-. rewrite Ht in He'.
    assert (b = true ∧ cursor y = length (topic w0) ∧ e = message ∧ hub y = (if decide (j = i) then handled (hub y0) else hub y0))
      as (-> & Hcur & -> & Hh).
    { destruct Hc as [[Hc Hh]|(-> & Hc & Hh)]; rewrite Hc in He'.
      - destruct b; [|by rewrite lookup_ge_None_2 in He'].
        by rewrite lookup_app_r, Nat.sub_diag in He' by done; injection He' as <-.
      - by rewrite lookup_ge_None_2 in He' by (rewrite length_app; cbn; lia). }
    unfold onMessage. cbn [origin message body]. unfold carries.
    destruct (decide (j = i)) as [->|Hne]; [rewrite decide_True by done|rewrite decide_False by done]; cbn;
      (split; [done|]); (split; [done|]); right; rewrite Hcur, Hh; done.
Qed.

Lemma carried_run net w0 : Forall network net → ∀ b w, carried b w0 w → ∃ b', carried b' w0 (run w net).
Proof.
  induction 1 as [|e net He _ IH]; intros b w Hw; [by exists b|].
  destruct (carried_step b w0 w e He Hw) as [b' H]. by apply (IH b').
Qed.

Lemma idle_run net w : Forall network net → quiet w → run w net = w.
Proof.
  induction 1 as [|e net He _ IH]; intros Hq; [done|]. change (run w (e :: net)) with (run (step w e) net).
  assert (step w e = w) as ->; [|by apply IH].
  destruct e as [| | | | | | | |j|j|j]; try done; cbn [step].
  - unfold runs. destruct (instances w !! j) as [y|] eqn:Hy; [|done]. by destruct (Hq j y Hy) as (-> & _).
  - destruct w as [r t l]. unfold on. cbn. f_equal. apply list_eq. intros k.
    destruct (decide (j = k)) as [->|]; [|by rewrite list_lookup_alter_ne]. rewrite list_lookup_alter_eq.
    destruct (l !! k) as [y|] eqn:Hy; [|done]. destruct (Hq k y Hy) as (_ & Hr & _). cbn. unfold reply. by rewrite Hr.
  - unfold receives. destruct (instances w !! j) as [y|] eqn:Hy; [|done]. destruct (Hq j y Hy) as (_ & _ & ->).
    by rewrite lookup_ge_None_2.
Qed.

Definition admits (answer : bool) (now : Q) (x : Instance) : bool :=
  may_broadcast ch ec answer x &&
  bool_decide ((consume opts enabled connQuota chanQuota connName ec ch now (limits x)).1 = None).
Lemma broadcast_cases answer now x :
  let x' := broadcast opts enabled connQuota chanQuota connName ch ty p ec em answer now x in
  replied x' = replied x ∧ cursor x' = cursor x ∧
  if admits answer now x then sent x' = sent x ++ [BroadcastTask ch ty p ec em] ∧ hub x' = handled (hub x)
  else sent x' = sent x ∧ hub x' = hub x.
Proof.
  unfold broadcast, admits. destruct (may_broadcast ch ec answer x); [|done]. cbn.
  destruct (consume _ _ _ _ _ _ _ _ _) as [[exceeded|] store]; cbn; [|done].
  destruct ec; [case_decide|]; done.
Qed.

(** C36: a message reaches every instance once.  In a cluster where nothing else is on its way,
    whatever the order of commands, answers and envelopes: when a broadcast that its channel
    and its quotas admit has come through, every hub has published it exactly once, with the
    same exclusions; one that is refused is published nowhere. *)
Theorem broadcast_reaches_cluster answer now net w x :
  quiet w → instances w !! i = Some x → Forall network net →
  let w' := run w (Broadcasts i ch ty p ec em answer now :: net) in
  quiet w' → ∀ j y, instances w !! j = Some y → ∃ y', instances w' !! j = Some y' ∧
    hub y' = if admits answer now x then publish ch ty p ec em (hub y) else hub y.
Proof.
  intros Hq Hx Hnet w' Hq' j y Hy. destruct (broadcast_cases answer now x) as (Hr & Hc & Hcase).
  set (x1 := broadcast _ _ _ _ _ _ _ _ _ _ _ _ _) in *. set (w1 := step w (Broadcasts i ch ty p ec em answer now)).
  assert (∀ k, instances w1 !! k = if decide (i = k) then Some x1 else instances w !! k) as Hw1.
  { intros k. cbn. destruct (decide (i = k)) as [<-|]; [|by rewrite list_lookup_alter_ne].
    by rewrite list_lookup_alter_eq, Hx. }
  change w' with (run w1 net) in *. destruct (Hq i x Hx) as (Hs & Hr' & Hc').
  destruct (admits answer now x) eqn:Ha; destruct Hcase as [Hs1 Hh1].
  - destruct (carried_run net w Hnet false w1) as (b & Ht & Hi).
    { split; [done|]. intros k. rewrite Hw1. destruct (decide (i = k)) as [<-|Hne].
      - rewrite Hx. constructor. split; [congruence|]. rewrite !decide_True by done.
        split; [by rewrite Hs1, Hs|]. left. by rewrite Hc, Hc'.
      - destruct (instances w !! k) as [z|] eqn:Hz; constructor. destruct (Hq k z Hz) as (? & ? & ?).
        split; [done|]. rewrite !decide_False by done. split; [done|]. by left. }
    assert (b = true) as ->.
    { specialize (Hi i). rewrite Hx in Hi. inversion Hi as [? z (_ & Hsz & _) E1 E2|]; subst.
      destruct (Hq' i z) as (Hsz' & _); [done|]. rewrite Hsz', decide_True in Hsz by done. by destruct b. }
    specialize (Hi j). rewrite Hy in Hi. inversion Hi as [? z (_ & _ & Hz) E1 E2|]; subst. exists z. split; [done|].
    destruct (Hq' j z) as (_ & _ & Hcz); [done|]. rewrite Ht, length_app in Hcz. cbn in Hcz.
    destruct Hz as [[Hz _]|(_ & _ & Hz)]; [lia|done].
  - assert (quiet w1) as Hq1.
    { intros k z. rewrite Hw1. destruct (decide (i = k)) as [<-|]; [|apply Hq]. intros [= <-].
      rewrite Hs1, Hr, Hc. done. }
    rewrite idle_run by done. rewrite Hw1. destruct (decide (i = j)) as [<-|]; [|by exists y].
    exists x1. split; [done|]. congruence.
Qed.
End message.

(** ** Everything comes through *)

Definition cost (t : task) : nat :=
  match t with
  | JoinTask _ _ AddMember => 4 | JoinTask _ _ AddInstance => 3
  | JoinTask _ _ RefreshJoin => 2 | JoinTask _ _ AnnounceJoin => 1
  | LeaveTask _ _ RemoveMember => 5 | LeaveTask _ _ CountMembers => 4 | LeaveTask _ _ RemoveInstance => 3
  | LeaveTask _ _ RefreshLeave => 2 | LeaveTask _ _ AnnounceLeave => 1
  | BroadcastTask _ _ _ _ _ => 1
  | QueryTask _ _ ListInstances => 0
  | QueryTask _ _ (ListMembers _ todo _) => 2 * length todo + 2
  | QueryTask _ _ (PruneInstance _ todo _) => 2 * length todo + 1
  | QueryTask _ _ (Found _) => 0
  end.
(** What it takes to ask for the instances is known when they are listed. *)
Definition asks (l : list task) : nat :=
  sum_list_with (λ t, match t with QueryTask _ _ ListInstances => 1 | _ => 0 end) l.
Definition load (s r : list task) : nat :=
  sum_list_with (λ t, 2 * cost t + 1) s + sum_list_with (λ t, 2 * cost t + 2) r.

Lemma cost_next_peer ch here me todo found :
  cost (QueryTask ch here (next_peer me todo found)) ≤ 2 * length todo ∧
  asks [QueryTask ch here (next_peer me todo found)] = 0.
Proof.
  induction todo as [|id todo IH]; cbn [next_peer length]; [done|].
  case_decide; [destruct IH; split; [lia|done]|]. cbn. lia.
Qed.
Lemma load_next_peer ch here me todo found t :
  asks (option_list (Some (QueryTask ch here (next_peer me todo found)))) = 0 ∧
  (2 * length todo < cost t → load [] (option_list (Some (QueryTask ch here (next_peer me todo found)))) < load [t] []).
Proof.
  destruct (cost_next_peer ch here me todo found) as [H1 H2]. split; [exact H2|].
  generalize dependent (QueryTask ch here (next_peer me todo found)). intros t' H1 _.
  unfold load. cbn [option_list option_rect sum_list_with]. lia.
Qed.
Lemma exec_cost i t r :
  let o := option_list (exec i t r).1.1 in asks o = 0 ∧ (asks [t] = 0 → load [] o < load [t] []).
Proof.
  destruct t as [c n []|c n []|c ty pl ec em|c q []]; cbn [exec fst snd]; try (cbn; lia).
  - destruct presenceTtl; cbn; lia.
  - case_decide; [|destruct presenceTtl]; cbn; lia.
  - destruct presenceTtl; cbn; lia.
  - edestruct (load_next_peer c q (instanceId i) (elements (smembers (presenceIndexKey c) r)) [] (QueryTask c q ListInstances)) as [H1 _]; split; [exact H1|done].
  - case_decide; [cbn; lia|]. edestruct load_next_peer as [H1 H2]. split; [exact H1|]. intros _. apply H2. cbn. lia.
  - edestruct load_next_peer as [H1 H2]. split; [exact H1|]. intros _. apply H2. cbn. lia.
Qed.

(** The tasks of one instance come to their end, whatever they are. *)
Record drains (i : nat) (w w' : Cluster) : Prop := {
  drains_self x : instances w !! i = Some x → ∃ x', instances w' !! i = Some x' ∧ sent x' = [] ∧ replied x' = [] ∧ cursor x' = cursor x;
  drains_other j : j ≠ i → instances w' !! j = instances w !! j;
  drains_topic : length (topic w) ≤ length (topic w')
}.
Lemma asks_app l1 l2 : asks (l1 ++ l2) = asks l1 + asks l2.
Proof. apply sum_list_with_app. Qed.

(** One step of an instance that has something to do: it lists the instances, or has less to do. *)
Lemma pipeline_step i w x : instances w !! i = Some x → sent x ++ replied x ≠ [] →
  ∃ e x', network e ∧ instances (step w e) !! i = Some x' ∧ cursor x' = cursor x ∧
    (∀ j, j ≠ i → instances (step w e) !! j = instances w !! j) ∧
    length (topic w) ≤ length (topic (step w e)) ∧
    (asks (sent x' ++ replied x') < asks (sent x ++ replied x) ∨
     asks (sent x' ++ replied x') = asks (sent x ++ replied x) ∧ load (sent x') (replied x') < load (sent x) (replied x)).
Proof.
  intros Hx Hne. assert (i < length (instances w)) as Hi by by eapply lookup_lt_Some.
  destruct (replied x) as [|t rest] eqn:Hr.
  - destruct (sent x) as [|t rest] eqn:Hs; [done|]. destruct (exec_cost i t (redis w)) as [H1 H2].
    exists (Runs i), (set_tasks rest (option_list (exec i t (redis w)).1.1) (answers x) x).
    cbn [step]. unfold runs. rewrite Hx, Hs, Hr. destruct (exec i t (redis w)) as [[t' r] pub]. cbn [fst snd] in *.
    cbn [instances topic cursor set_tasks sent replied].
    split_and!; [done|by rewrite list_lookup_insert_eq|done|intros; by apply list_lookup_insert_ne|rewrite length_app; lia|].
    rewrite app_nil_r. change (t :: rest) with ([t] ++ rest). rewrite !asks_app, H1.
    assert (load ([t] ++ rest) [] = load [t] [] + load rest []) as -> by (unfold load; cbn; lia).
    assert (load rest (option_list t') = load rest [] + load [] (option_list t')) as -> by (unfold load; cbn; lia).
    destruct (asks [t]) eqn:E; [right|left; lia]. specialize (H2 eq_refl). lia.
  - exists (Replies i), (reply x). cbn [step]. split_and!.
    + done.
    + cbn. by rewrite list_lookup_alter_eq, Hx.
    + unfold reply. rewrite Hr. by destruct t as [| | |? ? []].
    + intros j Hj. cbn. by rewrite list_lookup_alter_ne.
    + done.
    + right. unfold reply. rewrite Hr. destruct t as [| | |? ? []]; cbn [sent replied set_tasks];
        unfold load, asks; rewrite ?sum_list_with_app; cbn; lia.
Qed.

Lemma drain_instance i n : ∀ k w x, instances w !! i = Some x → asks (sent x ++ replied x) = n →
  load (sent x) (replied x) = k → ∃ net, Forall network net ∧ drains i w (run w net).
Proof.
  induction n as [n IHn] using lt_wf_ind. intros k.
  induction k as [k IHk] using lt_wf_ind. intros w x Hx Hn Hk.
  destruct (decide (sent x ++ replied x = [])) as [E|Hne].
  { apply app_nil in E as [E1 E2]. exists []. split; [done|]. split; [|done..].
    intros x' Hx'. rewrite Hx in Hx'. injection Hx' as <-. by exists x. }
  destruct (pipeline_step i w x Hx Hne) as (e & x' & He & Hx' & Hc & Ho & Ht & Hless).
  assert (∃ net, Forall network net ∧ drains i (step w e) (run (step w e) net)) as (net & Hnet & [D1 D2 D3]).
  { destruct Hless as [Hl|[He' Hl]]; [eapply IHn; [|done..]|eapply IHk; [|done| |done]]; lia. }
  exists (e :: net). split; [by constructor|]. split; cbn.
  - intros y Hy. rewrite Hx in Hy. injection Hy as <-. rewrite <-Hc. by apply D1.
  - intros j Hj. rewrite <-(Ho j Hj). by apply D2.
  - etrans; [exact Ht|exact D3].
Qed.

Lemma rt_run_app w es es' : run w (es ++ es') = run (run w es) es'.
Proof. apply foldl_app. Qed.
Lemma run_length es : ∀ w, length (instances (run w es)) = length (instances w).
Proof.
  induction es as [|e es IH]; intros w; [done|]. change (run w (e :: es)) with (run (step w e) es). rewrite IH. clear.
  destruct e; cbn [step]; try apply length_alter.
  - unfold runs. destruct (instances w !! i); [|done]. destruct (sent _); [done|].
    destruct (exec _ _ _) as [[? ?] ?]. apply length_insert.
  - unfold receives. destruct (instances w !! i); [|done]. destruct (topic w !! _); [apply length_alter|done].
Qed.

(** What can be done for one instance at a time is done for all. *)
Lemma pass (K : Cluster → Prop) (D : Instance → Prop) :
  (∀ i w x, K w → instances w !! i = Some x → ∃ net, Forall network net ∧ K (run w net) ∧
    (∀ j, j ≠ i → instances (run w net) !! j = instances w !! j) ∧
    ∀ x', instances (run w net) !! i = Some x' → D x') → ∀ n w, K w →
  ∃ net, Forall network net ∧ K (run w net) ∧ ∀ j x, j < n → instances (run w net) !! j = Some x → D x.
Proof.
  intros Hone n. induction n as [|n IH]; intros w Hw; [exists []; split_and!; [done|done|lia]|].
  destruct (IH w Hw) as (net & H1 & H2 & H3).
  destruct (instances (run w net) !! n) as [x|] eqn:Hx.
  - destruct (Hone n _ x H2 Hx) as (net' & G1 & G2 & G3 & G4). exists (net ++ net'). rewrite rt_run_app.
    split_and!; [by apply Forall_app|done|]. intros j y Hj. destruct (decide (j = n)) as [->|Hne]; [apply G4|].
    rewrite G3 by done. apply H3. lia.
  - exists net. split_and!; [done..|]. intros j y Hj Hy. destruct (decide (j = n)) as [->|]; [congruence|].
    apply (H3 j); [lia|done].
Qed.

Definition idle (x : Instance) : Prop := sent x = [] ∧ replied x = [].
Definition behind (w : Cluster) : Prop := ∀ j x, instances w !! j = Some x → cursor x ≤ length (topic w).

Lemma reads_all i d : ∀ w x, instances w !! i = Some x → length (topic w) = cursor x + d →
  let w' := run w (replicate d (Receives i)) in
  topic w' = topic w ∧ (∀ j, j ≠ i → instances w' !! j = instances w !! j) ∧
  ∃ x', instances w' !! i = Some x' ∧ sent x' = sent x ∧ replied x' = replied x ∧ cursor x' = length (topic w).
Proof.
  induction d as [|d IH]; intros w x Hx Hd; cbn [replicate run foldl].
  { split_and!; [done..|]. exists x. split_and!; [done..|lia]. }
  destruct (lookup_lt_is_Some_2 (topic w) (cursor x)) as [e He]; [lia|].
  set (x1 := onMessage i e (set_mirror (peerPresenceMirror x) (S (cursor x)) x)).
  assert (sent x1 = sent x ∧ replied x1 = replied x ∧ cursor x1 = S (cursor x)) as (S1 & S2 & S3).
  { unfold x1, onMessage. case_decide; [done|]. by destruct (body e). }
  assert (instances (step w (Receives i)) !! i = Some x1) as Hx1.
  { cbn. unfold receives. rewrite Hx, He. cbn. by rewrite list_lookup_alter_eq, Hx. }
  destruct (IH (step w (Receives i)) x1 Hx1) as (H1 & H2 & x' & H3 & H4 & H5 & H6).
  { rewrite S3. cbn. unfold receives. rewrite Hx, He. cbn. lia. }
  assert (topic (step w (Receives i)) = topic w) as Ht by (cbn; unfold receives; by rewrite Hx, He).
  split; [by rewrite <-Ht|]. split.
  - intros j Hj. etrans; [by apply H2|]. cbn. unfold receives. rewrite Hx, He. cbn. by rewrite list_lookup_alter_ne.
  - exists x'. split_and!; [exact H3|congruence|congruence|by rewrite <-Ht].
Qed.

(** C37: everything comes through.  Whatever a cluster is doing, some sequence of commands,
    answers and envelopes leads to where nothing is on its way: no task waits for ever, and a
    query ends also when instances come and go while it asks them one after the other. *)
Theorem cluster_settles n es :
  all_fine (cluster0 n) es → ∃ net, Forall network net ∧ quiet (run (cluster0 n) (es ++ net)).
Proof.
  intros Hf. setoid_rewrite rt_run_app. assert (behind (run (cluster0 n) es)) as Hb.
  { intros j x Hx. eapply inst_cursor, all_ok; [|exact Hx]. apply rt_run_ok; [apply cluster0_ok|done]. }
  generalize dependent (run (cluster0 n) es). intros w Hb.
  destruct (pass behind idle) with (n := length (instances w)) (w := w) as (net & H1 & H2 & H3); [|done|].
  { intros i w1 x Hw1 Hx. destruct (drain_instance i _ _ w1 x Hx eq_refl eq_refl) as (net & Hnet & [D1 D2 D3]).
    destruct (D1 x Hx) as (x' & Hx' & ? & ? & Hc). exists net. split_and!; [done| |done|].
    - intros j y Hy. destruct (decide (j = i)) as [->|Hne].
      + rewrite Hx' in Hy. injection Hy as <-. rewrite Hc. specialize (Hw1 i x Hx). lia.
      + rewrite D2 in Hy by done. specialize (Hw1 j y Hy). lia.
    - intros y Hy. rewrite Hx' in Hy. by injection Hy as <-. }
  set (w1 := run w net) in *. assert (length (instances w1) = length (instances w)) as Hlen by apply run_length.
  destruct (pass (λ w', topic w' = topic w1 ∧ ∀ j x, instances w' !! j = Some x → idle x ∧ cursor x ≤ length (topic w1))
    (λ x, cursor x = length (topic w1))) with (n := length (instances w)) (w := w1) as (net' & G1 & [G2 G3] & G4).
  { intros i w2 x [Ht Hi] Hx. destruct (Hi i x Hx) as [[Hs Hr] Hc].
    destruct (reads_all i (length (topic w1) - cursor x) w2 x Hx) as (R1 & R2 & x' & R3 & R4 & R5 & R6); [rewrite Ht; lia|].
    exists (replicate (length (topic w1) - cursor x) (Receives i)). split_and!.
    - by apply Forall_replicate.
    - congruence.
    - intros j y Hy. destruct (decide (j = i)) as [->|Hne]; [|rewrite R2 in Hy by done; by apply (Hi j)].
      rewrite R3 in Hy. injection Hy as <-. unfold idle. split; [split; congruence|]. rewrite R6, Ht. done.
    - done.
    - intros y Hy. rewrite R3 in Hy. injection Hy as <-. by rewrite R6, Ht. }
  { split; [done|]. intros j x Hx. split; [|by apply (H2 j)]. apply (H3 j); [|done].
    rewrite <-Hlen. by eapply lookup_lt_Some. }
  exists (net ++ net'). split; [by apply Forall_app|]. rewrite rt_run_app. intros j x Hx.
  destruct (G3 j x Hx) as [[Hs Hr] _]. split_and!; [done..|]. fold w1 in Hx |- *. rewrite G2. apply (G4 j); [|done].
  rewrite <-Hlen, <-(run_length net' w1). by eapply lookup_lt_Some.
Qed.
End adapter.

(** ** The client protocol

    A connection subscribes, unsubscribes and publishes by messages of its own, one after the
    other.  A subscription waits for its join; the connection can close meanwhile. *)

Inductive reason : Type := ChannelRequired | AuthenticationRequired | SubscribeFirst.
Inductive protocol_event : Type :=
| Subscribed (channel : string)
| ProtocolError (action : string) (r : reason) (channel : option string).
Record Protocol : Type := {
  protocolSubscriptions : list (nat * list (string * string));
  emitted : list (nat * protocol_event)
}.
Definition protocol_emit (c : nat) (e : protocol_event) (p : Protocol) : Protocol :=
  {| protocolSubscriptions := protocolSubscriptions p; emitted := emitted p ++ [(c, e)] |}.
Definition set_subscriptions (s : list (nat * list (string * string))) (p : Protocol) : Protocol :=
  {| protocolSubscriptions := s; emitted := emitted p |}.

Definition protocolString (channel : option string) : option string :=
  match channel with Some ch => if decide (ch = EmptyString) then None else Some ch | None => None end.
Definition installClientProtocol (c : nat) (p : Protocol) : Protocol :=
  match jm_get c (protocolSubscriptions p) with
  | Some _ => p
  | None => set_subscriptions (jm_set c [] (protocolSubscriptions p)) p
  end.

(** What [handleClose] forgets of a connection. *)
Definition protocol_close (c : nat) (p : Protocol) : Protocol :=
  set_subscriptions (jm_delete c (protocolSubscriptions p)) p.

(** Up to the join: the channel and the member to join it as. *)
Definition subscribe_begin (c : nat) (channel : option string) (x : Instance) (p : Protocol) :
    option (string * string) * Protocol :=
  if decide (c ∈ closed (hub x)) then (None, p)
  else match protocolString channel with
       | None => (None, protocol_emit c (ProtocolError "subscribe" ChannelRequired None) p)
       | Some ch =>
           match jm_get c (membersByConnId x) with
           | None => (None, protocol_emit c (ProtocolError "subscribe" AuthenticationRequired (Some ch)) p)
           | Some m =>
               match jm_get c (protocolSubscriptions p) with
               | Some subscriptions => (if jm_has ch subscriptions then None else Some (ch, m), p)
               | None => (None, p)
               end
           end
       end.
(** After a join that has not thrown. *)
Definition subscribe_end (c : nat) (ch m : string) (x : Instance) (p : Protocol) : Instance * Protocol :=
  if decide (c ∈ closed (hub x)) then (leave ch m c x, p)
  else
    let p := match jm_get c (protocolSubscriptions p) with
             | Some subscriptions => set_subscriptions (jm_set c (jm_set ch m subscriptions) (protocolSubscriptions p)) p
             | None => p
             end in
    (x, protocol_emit c (Subscribed ch) p).
Definition handleClientUnsubscribe (c : nat) (channel : option string) (x : Instance) (p : Protocol) :
    Instance * Protocol :=
  if decide (c ∈ closed (hub x)) then (x, p)
  else match protocolString channel with
       | None => (x, protocol_emit c (ProtocolError "unsubscribe" ChannelRequired None) p)
       | Some ch =>
           match jm_get c (protocolSubscriptions p) with
           | Some subscriptions =>
               match jm_get ch subscriptions with
               | Some m => (leave ch m c x,
                            set_subscriptions (jm_set c (jm_delete ch subscriptions) (protocolSubscriptions p)) p)
               | None => (x, p)
               end
           | None => (x, p)
           end
       end.
Definition handleClientPublish (opts : StoreOptions) (enabled : bool) (connQuota chanQuota : ResolvedQuota)
    (connName : nat → string) (c : nat) (channel event : option string) (data : string) (answer : bool) (now : Q)
    (x : Instance) (p : Protocol) : Instance * Protocol :=
  if decide (c ∈ closed (hub x)) then (x, p)
  else match protocolString channel with
       | None => (x, protocol_emit c (ProtocolError "publish" ChannelRequired None) p)
       | Some ch =>
           if jm_has ch (default [] (jm_get c (protocolSubscriptions p)))
           then (broadcast opts enabled connQuota chanQuota connName ch
                   (default "message"%string (protocolString event)) data (Some c) EmptyString answer now x, p)
           else (x, protocol_emit c (ProtocolError "publish" SubscribeFirst (Some ch)) p)
       end.

(** A connection that closes while its subscription waits is taken out again. *)
Lemma closed_subscriber_leaves c ch m x p :
  wf (hub x) → broken (hub x) = [] → (∀ m', rel (hub x) ch m' c → m' = m) → c ∈ closed (hub x) →
  ∀ m', ¬ rel (hub (subscribe_end c ch m x p).1) ch m' c.
Proof.
  intros Hw Hb Hone Hc m' Hr. unfold subscribe_end in Hr. rewrite decide_True in Hr by done. cbn [fst] in Hr.
  destruct (hub_leave_spec ch m c (hub x) Hw Hb Hone) as [Hm _].
  assert (hub (leave ch m c x) = (Channels.leave ch m c (hub x)).1) as E by (unfold leave; by case_match).
  rewrite E in Hr. apply (moves_rel _ _ _ Hm) in Hr as [Hr Hn]. apply Hn. split_and!; [done|by apply Hone|done].
Qed.

(** ** Examples, and what goes wrong *)

(** A server for the examples. *)
#[export] Instance sample_sets : RedisSets (gmap string (gset string)) := {|
  redis0 := ∅;
  smembers key r := default ∅ (r !! key);
  scard key r := size (default ∅ (r !! key) : gset string);
  sadd key member r := <[key := {[member]} ∪ default ∅ (r !! key)]> r;
  srem key member r := <[key := default ∅ (r !! key) ∖ {[member]}]> r
|}.
#[export] Instance sample_sets_laws : RedisSetLaws (gmap string (gset string)).
Proof.
  split; cbn; [done|done|..]; intros key key' member r; (destruct (decide (key' = key)) as [->|];
    [by rewrite lookup_insert_eq|by rewrite lookup_insert_ne]).
Qed.

Fixpoint sample_id (n : nat) : string := match n with O => "a" | S n => String "a" (sample_id n) end.
Lemma sample_id_inj i j : sample_id i = sample_id j → i = j.
Proof. revert j. induction i as [|i IH]; intros [|j]; cbn; intros E; simplify_eq; [done|by destruct j|by destruct i|f_equal; auto]. Qed.
Lemma sample_id_plain i : no_colon (sample_id i).
Proof. by induction i. Qed.

Definition sample_opts : StoreOptions := {| maxKeys := 100; maxRequestsPerKey := 100 |}.
Definition sample_quota (n : nat) : ResolvedQuota := {| requests := n; windowMs := 1000 |}.
#[local] Abbreviation sample0 := (cluster0 (R := gmap string (gset string))).
#[local] Abbreviation sample_run :=
  (run (R := gmap string (gset string)) "rt:" sample_id false sample_opts true
     (sample_quota 20) (sample_quota 200) sample_id false).
(** What is on its way at an instance comes through, and what is on the topic is read. *)
Definition drain (i n : nat) : list event := mjoin (replicate n [Runs i; Replies i]).
Definition reads (n i : nat) : list event := replicate n (Receives i).
Definition answer_of (w : Cluster (R := gmap string (gset string))) (i : nat) : option (list string) :=
  x ← instances w !! i; snd <$> last (answers x).
Definition present_at (w : Cluster (R := gmap string (gset string))) (i : nat) (ch : string) : option (list string) :=
  x ← instances w !! i; Some (Channels.presence ch (hub x)).
Definition is_quiet (w : Cluster (R := gmap string (gset string))) : bool :=
  forallb (λ x, bool_decide (length (sent x) = 0) && bool_decide (length (replied x) = 0) &&
                bool_decide (cursor x = length (topic w))) (instances w).

(** A query that has seen the set of an instance empty takes the instance out of the index
    after somebody has joined there: the member, who has another connection elsewhere that
    leaves, is present and no instance that asks sees it. *)
Definition prune_race : list event :=
  [Binds 1 7 (Some "ann"%string); Binds 2 9 (Some "ann"%string); Joins 1 "room" "ann" 7 true] ++ drain 1 3 ++
  [Leaves 1 "room" "ann" 7; Runs 1; Asks 0 "room"; Runs 0; Replies 0; Runs 0; Replies 0] ++
  [Replies 1] ++ drain 1 3 ++ [Joins 1 "room" "ann" 7 true] ++ drain 1 3 ++ [Runs 0; Replies 0] ++
  [Joins 2 "room" "ann" 9 true] ++ drain 2 3 ++ [Leaves 2 "room" "ann" 9] ++ drain 2 4 ++
  reads 5 0 ++ reads 5 1 ++ reads 5 2.
Lemma index_prune_hides_member :
  let w := sample_run (sample0 3) prune_race in
  is_quiet w = true ∧ present_at w 1 "room" = Some ["ann"%string] ∧
  answer_of (sample_run w (Asks 0 "room" :: drain 0 3)) 0 = Some [].
Proof. vm_compute. done. Qed.

(** A connection that is bound without a member, and has joined as one, closes: its hub takes
    it out, but no other instance is told, and the set in Redis keeps the member. *)
Definition unidentified : list event :=
  [Binds 0 7 None; Joins 0 "room" "ann" 7 true] ++ drain 0 3 ++ [Closes 0 7] ++ drain 0 4 ++ reads 2 0 ++ reads 2 1.
Lemma unidentified_close_is_silent :
  let w := sample_run (sample0 2) unidentified in
  is_quiet w = true ∧ present_at w 0 "room" = Some [] ∧ present_at w 1 "room" = Some [] ∧
  answer_of (sample_run w (Asks 1 "room" :: drain 1 3)) 1 = Some ["ann"%string].
Proof. vm_compute. done. Qed.

(** A join that comes after the close, as when the rule of the channel answers late, puts a
    closed connection into the room, and nothing takes it out. *)
Lemma late_join_is_a_ghost :
  let w := sample_run (sample0 1) [Binds 0 7 (Some "ann"%string); Closes 0 7; Joins 0 "room" "ann" 7 true] in
  present_at w 0 "room" = Some ["ann"%string] ∧
  present_at (sample_run w [Closes 0 7]) 0 "room" = Some ["ann"%string].
Proof. vm_compute. done. Qed.

(** The quota is read before the message is recorded, with waits between: messages that are
    sent at once all find the count that was there before, and all pass. *)
Lemma overlapping_broadcasts_exceed_quota :
  let check := consume_check (sample_quota 1) (sample_quota 10) sample_id (Some 7) "room" 0%Q in
  let record := consume_record sample_opts (sample_quota 1) (sample_quota 10) sample_id (Some 7) "room" 0%Q in
  check [] = None ∧                     (* three calls have each read the store by now *)
  count (connKey sample_id 7) 0%Q 1000%Q (record (record (record []))) = 3 ∧
  check (record []) = Some perConnection.
Proof. vm_compute. done. Qed.

(** *** Witnesses *)

Definition sample_history : list event :=
  [Binds 0 7 (Some "ann"%string); Binds 1 9 (Some "bob"%string); Joins 0 "room" "ann" 7 true;
   Joins 1 "room" "bob" 9 true] ++ drain 0 3 ++ drain 1 3 ++ reads 2 0 ++ reads 2 1.
Lemma sample_fine :
  all_fine "rt:" sample_id false sample_opts true (sample_quota 20) (sample_quota 200) sample_id false
    (sample0 2) sample_history.
Proof.
  apply all_fine_check_ok; [apply _|apply sample_id_inj|apply sample_id_plain|by apply cluster0_ok; [apply _|..]|by vm_compute].
Qed.

Lemma is_quiet_ok w : is_quiet w = true → quiet w.
Proof.
  intros H%Is_true_true i x Hx. apply forallb_True in H. rewrite Forall_lookup in H.
  specialize (H i x Hx). apply andb_True in H as [[H1 H2]%andb_True H3].
  apply bool_decide_unpack in H1, H2, H3. by apply length_zero_iff_nil in H1, H2.
Qed.

Lemma cluster_presence_exact_witness :
  let w := sample_run (sample0 2) sample_history in
  is_quiet w = true ∧ ∃ k x found, instances (sample_run w (Asks 0 "room" :: rounds 0 k)) !! 0 = Some x ∧
    last (answers x) = Some ("room"%string, found) ∧ NoDup found ∧ "ann"%string ∈ found ∧ "bob"%string ∈ found.
Proof.
  assert (is_quiet (sample_run (sample0 2) sample_history) = true) as Hq by by vm_compute.
  split; [done|].
  destruct (instances (sample_run (sample0 2) sample_history) !! 0) as [x0|] eqn:H0; [|vm_compute in H0; done].
  destruct (cluster_presence_exact "rt:" sample_id false sample_opts true (sample_quota 20) (sample_quota 200)
    sample_id false sample_id_inj sample_id_plain 2 sample_history 0 x0 "room" sample_fine
    (is_quiet_ok _ Hq) H0) as (k & x & found & H1 & H2 & H3 & H4).
  exists k, x, found. split; [exact H1|]. split; [by rewrite H2, last_snoc|].
  split; [done|]. split; apply H4.
  - exists 0, x0, 7. split; [exact H0|]. vm_compute in H0. injection H0 as <-. by left.
  - destruct (instances (sample_run (sample0 2) sample_history) !! 1) as [x1|] eqn:E1; [|vm_compute in E1; done].
    exists 1, x1, 9. split; [exact E1|]. vm_compute in E1. injection E1 as <-. by left.
Defined.

Lemma cluster_settles_witness :
  ∃ net, Forall network net ∧
    quiet (run "rt:" sample_id false sample_opts true (sample_quota 20) (sample_quota 200) sample_id false
      (sample0 2) ([Binds 0 7 (Some "ann"%string); Joins 0 "room" "ann" 7 true; Asks 1 "room"] ++ net)).
Proof.
  apply (cluster_settles "rt:" sample_id false sample_opts true (sample_quota 20) (sample_quota 200)
    sample_id false sample_id_inj sample_id_plain 2).
  apply all_fine_check_ok; [apply _|apply sample_id_inj|apply sample_id_plain|by apply cluster0_ok; [apply _|..]|by vm_compute].
Defined.

Lemma broadcast_reaches_cluster_witness :
  let w := sample_run (sample0 2) sample_history in
  let w' := sample_run w (Broadcasts 0 "room" "text" "hi" (Some 7) EmptyString true 0%Q :: drain 0 1 ++ reads 1 0 ++ reads 1 1) in
  is_quiet w = true ∧ is_quiet w' = true ∧
  ∃ x y, instances w' !! 0 = Some x ∧ instances w' !! 1 = Some y ∧
    last (delivered (hub x)) = None ∧ last (delivered (hub y)) = Some (9, Published "text" "hi").
Proof.
  set (w := sample_run (sample0 2) sample_history).
  assert (is_quiet w = true) as Hq by by vm_compute.
  set (net := drain 0 1 ++ reads 1 0 ++ reads 1 1).
  assert (is_quiet (sample_run w (Broadcasts 0 "room" "text" "hi" (Some 7) EmptyString true 0%Q :: net)) = true) as Hq' by by vm_compute.
  split; [done|]. split; [done|].
  destruct (instances w !! 0) as [x0|] eqn:H0; [|vm_compute in H0; done].
  destruct (instances w !! 1) as [x1|] eqn:H1; [|vm_compute in H1; done].
  assert (Forall network net) as Hnet by (repeat constructor).
  pose proof (broadcast_reaches_cluster "rt:" sample_id false sample_opts true (sample_quota 20) (sample_quota 200)
    sample_id false 0 "room" "text" "hi" (Some 7) EmptyString true 0%Q net w x0 (is_quiet_ok _ Hq) H0 Hnet (is_quiet_ok _ Hq')) as H.
  destruct (H 0 x0 H0) as (x & Hx & Ex). destruct (H 1 x1 H1) as (y & Hy & Ey). clear H.
  exists x, y. split; [exact Hx|]. split; [exact Hy|]. rewrite Ex, Ey.
  vm_compute in H0, H1. injection H0 as <-. injection H1 as <-. clear. by vm_compute.
Defined.
